(* ===== verification/_CoqProject ===== *)
-Q . S2P
Prelude.v
Arrays.v
RePost.v
Nfa.v
NfaSim.v
Dfa.v
Bits.v
DesSpec.v
Des.v
Des2.v
Bf.v
BfParse.v
BfRun.v
BfMain.v
Bytes.v
QuicVersion.v
Gcrypt.v
QuicKdf.v
QuicPacket.v
Suffix.v
Kmp.v
Dp.v
Heap.v
Dll.v
Dlist.v
DlistThm.v
Ring.v
RingThm.v
Clist.v
ClistInv.v
ClistStep.v
ClistProof.v
ClistThm.v
Nfa2dfa.v
Nfa2dfaSets.v
Nfa2dfaGraph.v
Nfa2dfaMatrix.v
Nfa2dfaInv.v
Nfa2dfaThm.v
AhoQueue.v
AhoTrie.v
AhoBuild.v
AhoLinks.v
AhoRight.v
Aho.v
AhoSearch.v
AhoText.v
AhoThm.v
PoolQueue.v
Pool.v
PoolInv.v
PoolSafe.v
Pcap.v
PcapRead.v
PcapThm.v
PcapSafe.v
Tape.v
TapeInv.v
TapeTopo.v
TapeSafe.v
TapeReal.v
TapeGrad.v
Gpt.v
GptSpec.v
GptThm.v
GptTrain.v
GptMain.v
Acism.v
AcismScan.v
AcismTree.v
AcismLinks.v
AcismPlace.v
AcismTable.v
AcismMachine.v
AcismSym.v
AcismThm.v
AcismFile.v
Nn.v
NnThm.v
NnGrad.v
