(* ===== verification/Prelude.v ===== *)
(** * A verification of the core libraries of chunxiao-code

    The repository is a collection of C programs and libraries, most of them under
    src/c-study.  The development models those that have logic of their own, and proves
    them correct or shows where they are not.  They are independent of each other; inside
    each one the files follow the code's own layers, and every operation is a function (or
    a step relation) with the name the C code gives it.

    ** Parts, files and sources

    - Regular expressions (src/c-study/dfa-about).  [RePost]: [re2post] turns a pattern
      into postfix form.  [Nfa]: [post2nfa] builds Thompson's automaton, State objects in
      a heap, the dangling arrows threaded through the arrow fields as the union Ptrlist
      does.  [NfaSim]: [startlist], [addstate], [step], [match] and [main] of nfa.c, with
      the [lastlist]/[listid] marks.  [Dfa]: the lazily built automaton of
      bounded-mem-dfa.c, its search tree and free list of at most 32 DStates, and [main].
    - DES (src/c-study/des).  [DesSpec]: the standard's tables and algorithm on bits.
      [Bits]: the bit macros, and loops and checked array accesses that other parts use
      too.  [Des]: des.c.  [Des2]: des2.c, DES and Triple-DES on 32-bit words.
    - Brainfuck (src/c-study/brainfuck).  [Bf]: instruction nodes in a heap, list
      operations, execution.  [BfParse]: the two parsers, [run_string], [run_file].
      [BfRun]: whole runs, the two insertions.  [BfMain]: the console and main.
    - QUIC initial packets (src/c-study/quic/iquic.c).  [Bytes]: buffers and byte orders.
      [QuicVersion]: versions and variable-length integers.  [Gcrypt]: the interface to
      libgcrypt and malloc as a typeclass of operations, a second typeclass of their
      documented laws, and a concrete instance.  [QuicKdf]: HKDF and the initial secrets.
      [QuicPacket]: cipher preparation, header protection, message decryption.
    - Thread pool (src/c-study/cthreadpool).  [PoolQueue]: the ring queue.  [Pool]: the
      pool as a step relation over interleaved threads.  [PoolInv]: the invariant.
      [PoolSafe]: what it means for clients.
    - Aho-Corasick (src/c-study/str_match/AC-alg/AhoCorasick).  [Heap]: heaps of structs
      with freed objects.  [AhoQueue], [AhoTrie], [Aho]: one file for each C file.
      [AhoBuild]: the trie built from a dictionary.  [AhoLinks], [AhoRight]: the failure
      links and the search along them.  [AhoSearch], [AhoText], [AhoThm]: whole searches,
      the list of texts, and the theorems.  [Suffix]: suffixes of strings.
    - Aho-Corasick with an interleaved state matrix (ACISM, in
      src/c-study/str_match/AC-alg/aho-corasick).  [Acism]: _acism.h, acism_create.c and
      acism.c.  [AcismScan]: what a table has to answer, as the interface [machine], and
      the scan of acism.c against it.  [AcismTree], [AcismLinks]: the tree,
      its levels, its back links.  [AcismPlace]: the interleaving of the nodes.
      [AcismTable]: the words of the table.  [AcismMachine]: its hash
      part, and that the finished table is an instance of [machine].  [AcismSym]:
      the symbols, bytes against symbols.  [AcismThm]: the theorems.
      [AcismFile]: saving and loading (acism_file.c).
    - Subset construction (src/c-study/dfa-about/nfa2dfa.c).  [Nfa2dfa]: the graph with its
      chained edges, the table of sets and the transition matrix, and [main].
      [Nfa2dfaSets], [Nfa2dfaGraph], [Nfa2dfaMatrix]: its sets of names as strings, the
      graph, the matrix.  [Nfa2dfaInv], [Nfa2dfaThm]: the invariant and the theorems.
    - Language model (src/gpt/microgpt.c).  [Tape]: automatic differentiation, an array of
      nodes as a tape.  [Gpt]: the transformer, training, sampling, the data, [main].
      [TapeInv]: the invariant of the tape and a logic that counts the nodes a program
      takes.  [TapeTopo], [TapeSafe]: the sort and the backward pass.  [TapeReal],
      [TapeGrad]: the recorded function over the reals and its derivative.  [GptSpec],
      [GptThm]: the layers as functions of numbers, a call of the transformer, a loss, a
      sample.  [GptTrain], [GptMain]: the training loop and the whole program.
    - Neural network (src/neural-c).  [Nn]: data_load.c, nn.c and main.c.  [NnThm]: its
      loops as functions of the weights, whole runs on well-formed and on any files.
      [NnGrad]: its steps in exact arithmetic.
    - Packet capture files (src/pcap_modidy).  [Pcap]: the reader over a window of the
      file.  [PcapRead], [PcapThm], [PcapSafe]: single reads, whole files, any bytes.
    - Lists and queues (src/c-study/dllist).  [Dll], [Dlist]: the doubly linked list of
      list_01; [DlistThm]: the list of elements it refines.  [Ring]: the lock-free queue of ring_01 as
      steps of threads; [RingThm]: one thread, and many that push.  [Clist]:
      the list of chunxiao_list with its recursive lock, as steps of threads; [ClistInv],
      [ClistStep], [ClistProof], [ClistThm]: its invariant and linearizability.
    - Strings and tables.  [Kmp] (src/c-study/str_match/kmp), [Dp]
      (src/c-study/dynamic_p): knapsacks and common subsequences.  [Arrays]: arrays.

    ** How C is represented

    A C function that can fail to be defined returns a [res]: [Ret v], [UB] for an access
    outside its objects (null, freed, or out of range), or [Fuel] when the bound on a
    loop was too small.  Integers are [Z] with every wrap of a fixed width written out;
    chars go through [schar] where the code reads them as signed.  Linked structures
    are heaps, lists of objects indexed by address, so aliasing and dangling pointers are
    those of the code.  Output is a list of what was printed or reported.  Threads are
    program counters: one step is one call that another thread can observe.

    Loops without a structural bound take fuel.  The theorems state results with [Ret],
    so they include that the bound the model computes is enough: the recursion of
    [addstate] is bounded by the number of states, [connect_loop] and [clean_loop] by the
    number of nodes, [expand_loop] by 256 rounds.  Brainfuck programs may run forever:
    there each result of the semantics is reached with some fuel, and no fuel gives [UB].
    [start_workers] really diverges above 65535 workers, which is a theorem.  The rejection
    loop of [random_normal] has fuel for a number of rejections that no draw exceeds, which
    is a hypothesis on the random numbers; [build_topo] is bounded by the size of the tape.
    In [Acism] a chain of back links is followed for at most [chain_fuel] steps, two more
    than there are bytes in the strings, and [fill_kids] goes for 258 rounds a node; strings
    are [small] when no product of sizes overflows 32 bits.

    Floating point numbers are a typeclass of operations without laws, so what is proved
    of the language model holds of the rounded numbers of the program; only the theorems on
    gradients and on the choice of a class take an instance of the real numbers.

    ** What the theorems show

    - The two matchers print exactly the arguments in the language of the pattern, for
      every allocator and every permutation that [qsort] yields with the address
      comparison; they agree with each other from every reachable state; the cache is
      bounded; the parser accepts the grammar; and where [post2nfa] leaves its stack.
    - des.c is the DES of the standard; des2.c deciphers what it enciphers, for DES and
      for Triple-DES with two and three keys; its search for weak keys is exact.
    - The Brainfuck interpreter is memory safe and computes the meaning of the text;
      files and strings agree; merging runs is right unless a count goes negative; a
      console session means its lines in turn, and hangs where its input ends.
    - [hkdf_expand] is HKDF-Expand; secrets, keys and salts by version; header protection
      is undone; a message is accepted exactly when it was sealed; the two defects of
      the error paths.
    - The thread pool: every interleaving is safe, tasks start in order and run once,
      no wake-up is lost (when no thread can go on, every task has been run, or the pool
      has been freed), the pool is freed only when it is quiet, and what it costs to add a
      task without routine.
    - Aho-Corasick: searches are memory safe for every dictionary and exact for shallow
      ones; the queue is a stack, so that a deeper dictionary can report a word that does
      not occur; the list of texts; the memory is given back.
    - ACISM: [acism_create] ends with a machine for every small list of strings; the scan
      reports exactly the occurrences when the longest proper suffix of a prefix that goes
      on goes on too ([inner_suffixes]) and the last transitions stay in the table
      ([fits]); without the first it misses occurrences and reports false ones, without the
      second it reads behind the table; a text may be scanned in blocks; a saved machine is
      loaded unchanged, a file that is not one makes the loader free a pointer from it.
    - The subset construction prints an automaton equivalent to the one it reads, when
      there are at most nine sets and the one in the second row is reached only once; when
      that one has a transition to itself, the program writes outside its table.
    - The language model: the backward pass ends and leaves derivatives; training exhausts
      no tape, records the cross entropy of the transformer at each step and moves the
      parameters by Adam's rule; what sampling really computes.
    - The neural network: what a run prints, for all MNIST files; it is safe on any files;
      a step of training follows the gradient of the squared error exactly for the output
      layer, and up to an explicit term of second order for the hidden one, because the
      outputs are updated first; the class is the first greatest output.
    - Capture files: a file that fits the window is read back exactly; on any bytes the
      reader stays in its window up to claims of a size; the packets it loses.
    - The list of list_01 does what a specification on sequences says, which includes the
      calls that follow a null pointer or never return; the thread-safe list implements
      sequences linearizably and without deadlock; the queue is safe for threads that push, and not for one that pops beside
      them; Knuth-Morris-Pratt finds the first occurrence; the tables hold optima.

    ** Assumptions

    Allocation succeeds, except in [QuicPacket], where it may fail.  The addresses that
    [malloc] picks for States are any injective function.  pthread calls on valid objects
    do what POSIX says and a wait may return without a signal.  A client of the pool does
    not call [threadpool_free] while a call to [threadpool_add_task] is under way: the
    code does not support it.  libgcrypt's laws are the fields of [GcryptLaws].

    ** Not modelled

    The debug printers of the trie and of ACISM
    (acism_dump.c), which are input and output only; [acism_mmap], which is [mmap].  The
    debugging copies of the regular expression matcher.  Programs that are system or
    library calls around no state of their own (sockets, packet senders, netlink, DPDK
    samples), output of lex and yacc, and experiments with the compiler or the linker.
    Also left out, although they have some logic: the smaller string, sorting and tree programs, and the intrusive list of list_04. *)
From stdpp Require Export base tactics list numbers gmap.
From Stdlib Require Export ZArith Lia.
#[global] Open Scope Z_scope.
#[global] Open Scope list_scope.

(** ** Outcomes of C code

    [Ret v] is a normal result, [UB] stands for a step that the C program
    makes outside its objects (an array index out of range, a null or
    dangling pointer dereference), [Fuel] for a recursion bound of the model
    that was too small.  No theorem of the development leaves [Fuel] open: every
    bounded function comes with a bound that is enough. *)
Inductive res (A : Type) : Type :=
| Ret (v : A)
| UB
| Fuel.
Arguments Ret {A} v.
Arguments UB {A}.
Arguments Fuel {A}.

#[export] Instance res_ret : MRet res := fun A v => Ret v.
#[export] Instance res_bind : MBind res := fun A B f m =>
  match m with Ret v => f v | UB => UB | Fuel => Fuel end.

Lemma res_bind_Ret {A B} (m : res A) (f : A -> res B) (b : B) :
  (m ≫= f) = Ret b -> exists a, m = Ret a /\ f a = Ret b.
Proof. destruct m; simpl; intros; [eauto | discriminate..]. Qed.

(** Run two steps whose composition is known to return. *)
Lemma bind_seq {A B C} (m : res A) (f : A -> res B) (g : B -> res C) b :
  (m ≫= f) = Ret b -> (m ≫= fun x => f x ≫= g) = g b.
Proof. destruct m; cbn; [|done..]. by intros ->. Qed.

(** Take a computation that returned apart, bind by bind. *)
Ltac inv_res :=
  repeat match goal with
  | H : (_ ≫= _) = Ret _ |- _ =>
    let a := fresh "v" in let E := fresh "E" in
    apply res_bind_Ret in H as (a & E & H); try (match type of a with (_ * _)%type => destruct a end);
    cbv beta iota in H
  | H : Ret _ = Ret _ |- _ => injection H as H; subst
  | H : UB = Ret _ |- _ => discriminate H
  | H : Fuel = Ret _ |- _ => discriminate H
  end.

(** An option read as an outcome: [None] is an access outside the object. *)
Definition oget {A} (o : option A) : res A :=
  match o with Some v => Ret v | None => UB end.

(** Run the binds whose first computation has returned. *)
Ltac bind := cbn [mbind res_bind oget].

(** ** Machine integers

    A C unsigned integer is a [Z] with its wrap-around written out. *)
Definition u8 (z : Z) : Z := z mod 2 ^ 8.
Definition u16 (z : Z) : Z := z mod 2 ^ 16.
Definition u32 (z : Z) : Z := z mod 2 ^ 32.
Definition u64 (z : Z) : Z := z mod 2 ^ 64.

(** [char] is signed on the platforms the code is built for: the value of a
    byte read through a [char] and promoted to [int]. *)
Definition schar (b : Z) : Z := if b <? 128 then b else b - 256.

Definition byte (b : Z) : Prop := 0 <= b < 256.

Lemma byte_lxor a b : byte a -> byte b -> byte (Z.lxor a b).
Proof.
  unfold byte. intros Ha Hb. assert (0 <= Z.lxor a b) by (apply Z.lxor_nonneg; lia). split; [done|].
  destruct (Z.eq_dec (Z.lxor a b) 0) as [->|Hne]; [lia|]. apply Z.log2_lt_cancel.
  pose proof (Z.log2_lxor a b ltac:(lia) ltac:(lia)) as Hl. change (Z.log2 256) with 8.
  pose proof (Z.log2_le_mono a 255 ltac:(lia)). pose proof (Z.log2_le_mono b 255 ltac:(lia)).
  change (Z.log2 255) with 7 in *. lia.
Qed.

(** A number below [2 ^ e] has no bits from [e] on, so it can be added by [lor]. *)
Lemma bits_high b e i : 0 <= b < 2 ^ e -> e <= i -> Z.testbit b i = false.
Proof.
  intros Hb Hi. destruct (Z.eq_dec b 0) as [->|]; [apply Z.bits_0|]. apply Z.bits_above_log2; [lia|].
  apply Z.lt_le_trans with e; [|done]. apply Z.log2_lt_pow2; lia.
Qed.

Lemma lor_add a b e : 0 <= e -> 0 <= b < 2 ^ e -> Z.lor (a * 2 ^ e) b = a * 2 ^ e + b.
Proof.
  intros He Hb. assert (Hl : Z.land (a * 2 ^ e) b = 0).
  { apply Z.bits_inj'. intros i Hi. rewrite Z.land_spec, Z.bits_0. destruct (Z.ltb_spec i e).
    - by rewrite Z.mul_pow2_bits_low by lia.
    - rewrite (bits_high b e i) by lia. apply andb_false_r. }
  rewrite <-Z.lxor_lor by done. symmetry. by apply Z.add_nocarry_lxor.
Qed.

(** ** Tactics *)

(** Split the boolean tests of a goal or hypothesis into propositions. *)
Ltac case_ifs :=
  repeat match goal with
  | |- context [if ?b then _ else _] => destruct b eqn:?
  | H : context [if ?b then _ else _] |- _ => destruct b eqn:?
  end.

Ltac bool_to_prop :=
  repeat match goal with
  | H : (_ =? _) = true |- _ => apply Z.eqb_eq in H
  | H : (_ =? _) = false |- _ => apply Z.eqb_neq in H
  | H : (_ <? _) = true |- _ => apply Z.ltb_lt in H
  | H : (_ <? _) = false |- _ => apply Z.ltb_ge in H
  | H : (_ <=? _) = true |- _ => apply Z.leb_le in H
  | H : (_ <=? _) = false |- _ => apply Z.leb_gt in H
  | H : (_ && _)%bool = true |- _ => apply andb_true_iff in H; destruct H
  | H : (_ || _)%bool = false |- _ => apply orb_false_iff in H; destruct H
  end.

(** ** Lists *)

(** Folding a fallible step over the input, stopping at the first failure. *)
Fixpoint foldl_opt {A B} (f : A -> B -> option A) (a : A) (l : list B) : option A :=
  match l with
  | [] => Some a
  | x :: l' => match f a x with Some a' => foldl_opt f a' l' | None => None end
  end.

Lemma foldl_opt_app {A B} (f : A -> B -> option A) l1 l2 a :
  foldl_opt f a (l1 ++ l2) =
  match foldl_opt f a l1 with Some a' => foldl_opt f a' l2 | None => None end.
Proof. revert a; induction l1 as [|x l1 IH]; intros a; simpl; [done|]. destruct (f a x); auto. Qed.

(** Invariant rule: a property that relates the consumed prefix and the state
    and is kept by every successful step holds at the end. *)
Lemma foldl_opt_inv {A B} (f : A -> B -> option A) (P : list B -> A -> Prop) :
  (forall pre a x a', P pre a -> f a x = Some a' -> P (pre ++ [x]) a') ->
  forall l pre a a', P pre a -> foldl_opt f a l = Some a' -> P (pre ++ l) a'.
Proof.
  intros Hstep l; induction l as [|x l IH]; intros pre a a' HP H; simpl in H.
  - inv H. by rewrite app_nil_r.
  - destruct (f a x) as [a1|] eqn:E; [|done].
    replace (pre ++ x :: l) with ((pre ++ [x]) ++ l) by by rewrite <-app_assoc.
    eauto.
Qed.

(** [kept P l o]: [o] is what is left of [l] when the elements outside [P] are
    dropped, for a [P] that need not be decidable. *)
Inductive kept {A} (P : A -> Prop) : list A -> list A -> Prop :=
| kept_nil : kept P [] []
| kept_yes x l o : P x -> kept P l o -> kept P (x :: l) (x :: o)
| kept_no x l o : ~ P x -> kept P l o -> kept P (x :: l) o.
