(* ===== verification/Arrays.v ===== *)
(** Arrays and loops as the C code has them: accesses that are undefined outside the
    array, counted loops with their invariant rule, and [int] arithmetic that is
    undefined when it overflows. *)
From S2P Require Import Prelude.

(** ** Arrays and loops *)

(** [s[i]] and [s[i] = v], inside the array. *)
Definition aget (s : list Z) (i : nat) : res Z := oget (s !! i).

Definition aset (s : list Z) (i : nat) (v : Z) : res (list Z) :=
  if (i <? length s)%nat then Ret (<[i := v]> s) else UB.

(** [for (i = lo; i < lo + n; i++) body]. *)
Fixpoint for_ {A} (lo n : nat) (body : nat -> A -> res A) (a : A) : res A :=
  match n with
  | O => Ret a
  | S n' => a' ← body lo a; for_ (S lo) n' body a'
  end.

Lemma aget_lt s i : (i < length s)%nat -> exists v, aget s i = Ret v /\ s !! i = Some v.
Proof. intros [v Hv]%lookup_lt_is_Some. exists v. unfold aget. by rewrite Hv. Qed.

Lemma aset_lt s i v : (i < length s)%nat -> aset s i v = Ret (<[i := v]> s).
Proof. intros H. unfold aset. by rewrite (proj2 (Nat.ltb_lt _ _) H). Qed.

(** Invariant rule: a body that returns and keeps [P] makes the loop return with
    [P]. *)
Lemma for_inv {A} (P : nat -> A -> Prop) lo n body a :
  P lo a ->
  (forall i x, (lo <= i < lo + n)%nat -> P i x -> exists x', body i x = Ret x' /\ P (S i) x') ->
  exists a', for_ lo n body a = Ret a' /\ P (lo + n)%nat a'.
Proof.
  revert lo a. induction n as [|n IH]; intros lo a HP Hb; simpl.
  - exists a. by rewrite Nat.add_0_r.
  - destruct (Hb lo a) as (a1 & -> & HP1); [lia|done|]. simpl.
    rewrite Nat.add_succ_r, <-Nat.add_succ_l. apply IH; [done|]. intros i x Hi. apply Hb. lia.
Qed.

Lemma for_ret {A} lo n (body : nat -> A -> res A) a b :
  for_ lo n body a = Ret b -> forall P : A -> Prop,
  P a -> (forall i x y, P x -> body i x = Ret y -> P y) -> P b.
Proof.
  revert lo a. induction n as [|n IH]; intros lo a H P Ha Hb; simpl in H; inv_res; [done|].
  eapply IH; [done| |done]. by eapply Hb.
Qed.

Lemma lookup_ins {A} (l : list A) i x j : (i < length l)%nat -> <[i := x]> l !! j = if decide (j = i) then Some x else l !! j.
Proof. intros H. case_decide as E; [subst; by apply list_lookup_insert_eq|by apply list_lookup_insert_ne]. Qed.

(** ** Indexes and arithmetic of type [int] *)

Definition zget {A} (s : list A) (i : Z) : res A :=
  if 0 <=? i then oget (s !! Z.to_nat i) else UB.

Definition zset {A} (s : list A) (i : Z) (v : A) : res (list A) :=
  if (0 <=? i) && (i <? Z.of_nat (length s)) then Ret (<[Z.to_nat i := v]> s) else UB.

Lemma zget_nat {A} (s : list A) i v : s !! i = Some v -> zget s (Z.of_nat i) = Ret v.
Proof. intros H. unfold zget. rewrite (proj2 (Z.leb_le _ _)), Nat2Z.id, H by lia. done. Qed.

Lemma zset_nat {A} (s : list A) i v : (i < length s)%nat -> zset s (Z.of_nat i) v = Ret (<[i := v]> s).
Proof. intros H. unfold zset. by rewrite (proj2 (Z.leb_le _ _)), (proj2 (Z.ltb_lt _ _)), Nat2Z.id by lia. Qed.

Lemma zset_out {A} (s : list A) i v : i < 0 \/ Z.of_nat (length s) <= i -> zset s i v = UB.
Proof.
  intros H. unfold zset. destruct (Z.leb_spec 0 i), (Z.ltb_spec i (Z.of_nat (length s))); (done || lia).
Qed.

Definition int (z : Z) : Prop := - 2 ^ 31 <= z < 2 ^ 31.

(** A signed result: undefined when it does not fit. *)
Definition sint (z : Z) : res Z := if (- 2 ^ 31 <=? z) && (z <? 2 ^ 31) then Ret z else UB.

Lemma sint_fits z : int z -> sint z = Ret z.
Proof. intros [H1 H2]. unfold sint. by rewrite (proj2 (Z.leb_le _ _) H1), (proj2 (Z.ltb_lt _ _) H2). Qed.
