(* ===== verification/RePost.v ===== *)
(** Component: the regular-expression parser [re2post] of
    src/c-study/dfa-about (the text is the same in bounded-mem-dfa.c, dfa.c and
    nfa.c).  The first part translates the C function; the second gives the
    grammar the comment of the file describes ("Supports only ( | ) * + ?. No
    escapes") and proves that the function implements it. *)
From S2P Require Import Prelude.

(** ** Characters *)
Definition LP : Z := 40.   (* '(' *)
Definition RP : Z := 41.   (* ')' *)
Definition STAR : Z := 42. (* '*' *)
Definition PLUS : Z := 43. (* '+' *)
Definition DOT : Z := 46.  (* '.' *)
Definition QM : Z := 63.   (* '?' *)
Definition BAR : Z := 124. (* '|' *)

(** ** The translated parser *)

(** Locals of [re2post]: the counters, the used part of [paren[100]] (the most
    recent entry first) and the bytes written to [buf] so far. *)
Record rstate := RState {
  nalt : nat;
  natom : nat;
  paren : list (nat * nat);
  dst : list Z
}.

(** [while(--natom > 0) *dst++ = '.';] *)
Fixpoint cat_dots (natom : nat) : list Z :=
  match natom with
  | S (S _ as n) => DOT :: cat_dots n
  | _ => []
  end.

(** [for(; nalt > 0; nalt--) *dst++ = '|';] *)
Fixpoint alt_bars (nalt : nat) : list Z :=
  match nalt with
  | O => []
  | S n => BAR :: alt_bars n
  end.

(** [if(natom > 1){ --natom; *dst++ = '.'; }] *)
Definition close_cat (st : rstate) : rstate :=
  if (1 <? natom st)%nat
  then RState (nalt st) (natom st - 1) (paren st) (dst st ++ [DOT])
  else st.

(** The body of the [switch]: [None] is [return NULL]. *)
Definition re2post_char (st : rstate) (c : Z) : option rstate :=
  if c =? LP then
    let st := close_cat st in
    if (100 <=? length (paren st))%nat then None
    else Some (RState 0 0 ((nalt st, natom st) :: paren st) (dst st))
  else if c =? BAR then
    if (natom st =? 0)%nat then None
    else Some (RState (S (nalt st)) 0 (paren st) (dst st ++ cat_dots (natom st)))
  else if c =? RP then
    match paren st with
    | [] => None
    | (pnalt, pnatom) :: ps =>
      if (natom st =? 0)%nat then None
      else Some (RState pnalt (S pnatom) ps
                   (dst st ++ cat_dots (natom st) ++ alt_bars (nalt st)))
    end
  else if (c =? STAR) || (c =? PLUS) || (c =? QM) then
    if (natom st =? 0)%nat then None
    else Some (RState (nalt st) (natom st) (paren st) (dst st ++ [c]))
  else
    let st := close_cat st in
    Some (RState (nalt st) (S (natom st)) (paren st) (dst st ++ [c])).

Definition re2post_init : rstate := RState 0 0 [] [].

(** [sizeof buf / 2] is 4000. *)
Definition re2post (re : list Z) : option (list Z) :=
  if (4000 <=? length re)%nat then None
  else match foldl_opt re2post_char re2post_init re with
       | None => None
       | Some st =>
         match paren st with
         | [] => Some (dst st ++ cat_dots (natom st) ++ alt_bars (nalt st))
         | _ :: _ => None
         end
       end.

(** ** The language of patterns *)

Inductive regex :=
| RChr (c : Z)
| RCat (r1 r2 : regex)
| RAlt (r1 r2 : regex)
| ROpt (r : regex)
| RStar (r : regex)
| RPlus (r : regex).

#[export] Instance regex_eq_dec : EqDecision regex.
Proof. solve_decision. Defined.

Fixpoint postfix (r : regex) : list Z :=
  match r with
  | RChr c => [c]
  | RCat r1 r2 => postfix r1 ++ postfix r2 ++ [DOT]
  | RAlt r1 r2 => postfix r1 ++ postfix r2 ++ [BAR]
  | ROpt r => postfix r ++ [QM]
  | RStar r => postfix r ++ [STAR]
  | RPlus r => postfix r ++ [PLUS]
  end.

(** A character without a meaning of its own in a pattern. *)
Definition literal (c : Z) : bool :=
  negb ((c =? LP) || (c =? BAR) || (c =? RP) || (c =? STAR) || (c =? PLUS) || (c =? QM)).

(** [g_alt d r s]: the text [s] is the pattern [r], its parentheses nested at
    most [d] deep.  Alternation associates to the right and binds weakest,
    concatenation to the left; the three postfix operators bind tightest. *)
Inductive g_alt : nat -> regex -> list Z -> Prop :=
| ga_cat d r s : g_cat d r s -> g_alt d r s
| ga_alt d r1 r2 s1 s2 :
    g_cat d r1 s1 -> g_alt d r2 s2 -> g_alt d (RAlt r1 r2) (s1 ++ BAR :: s2)
with g_cat : nat -> regex -> list Z -> Prop :=
| gc_rep d r s : g_rep d r s -> g_cat d r s
| gc_cat d r1 r2 s1 s2 :
    g_cat d r1 s1 -> g_rep d r2 s2 -> g_cat d (RCat r1 r2) (s1 ++ s2)
with g_rep : nat -> regex -> list Z -> Prop :=
| gr_chr d c : literal c = true -> g_rep d (RChr c) [c]
| gr_par d r s : g_alt d r s -> g_rep (S d) r (LP :: s ++ [RP])
| gr_opt d r s : g_rep d r s -> g_rep d (ROpt r) (s ++ [QM])
| gr_star d r s : g_rep d r s -> g_rep d (RStar r) (s ++ [STAR])
| gr_plus d r s : g_rep d r s -> g_rep d (RPlus r) (s ++ [PLUS]).

Scheme g_alt_mind := Induction for g_alt Sort Prop
  with g_cat_mind := Induction for g_cat Sort Prop
  with g_rep_mind := Induction for g_rep Sort Prop.
Combined Scheme g_mind from g_alt_mind, g_cat_mind, g_rep_mind.

(** ** Facts about the single step *)

(** What an operand does to the counter: [close_cat] keeps it at most two. *)
Definition push_atom (n : nat) : nat := if (1 <? n)%nat then n else S n.

Definition sep_dot (n : nat) : list Z := if (1 <? n)%nat then [DOT] else [].

Lemma literal_inv c : literal c = true ->
  (c =? LP) = false /\ (c =? BAR) = false /\ (c =? RP) = false /\
  (c =? STAR) = false /\ (c =? PLUS) = false /\ (c =? QM) = false.
Proof. unfold literal. rewrite negb_true_iff, !orb_false_iff. tauto. Qed.

Lemma push_atom_close n : S (if (1 <? n)%nat then (n - 1)%nat else n) = push_atom n.
Proof. unfold push_atom. destruct (Nat.ltb_spec 1 n); lia. Qed.

Lemma push_atom_pos n : (push_atom n =? 0)%nat = false.
Proof. unfold push_atom. destruct (1 <? n)%nat eqn:E; [|done].
  apply Nat.ltb_lt in E. apply Nat.eqb_neq. lia. Qed.

Lemma close_cat_spec a n ps o :
  close_cat (RState a n ps o) =
  RState a (if (1 <? n)%nat then n - 1 else n)%nat ps (o ++ sep_dot n).
Proof. unfold close_cat, sep_dot; simpl. destruct (1 <? n)%nat; [done|by rewrite app_nil_r]. Qed.

Lemma step_literal a n ps o c : literal c = true ->
  re2post_char (RState a n ps o) c =
  Some (RState a (push_atom n) ps (o ++ sep_dot n ++ [c])).
Proof.
  intros (H1 & H2 & H3 & H4 & H5 & H6)%literal_inv.
  unfold re2post_char. rewrite H1, H2, H3, H4, H5, H6. cbn -[close_cat].
  rewrite close_cat_spec; simpl. by rewrite push_atom_close, <-app_assoc.
Qed.

Lemma step_open a n ps o : (length ps < 100)%nat ->
  re2post_char (RState a n ps o) LP =
  Some (RState 0 0 ((a, if (1 <? n)%nat then n - 1 else n)%nat :: ps) (o ++ sep_dot n)).
Proof.
  intros H. unfold re2post_char. cbn -[close_cat Nat.leb]. rewrite close_cat_spec.
  cbn -[Nat.leb]. rewrite (proj2 (Nat.leb_gt 100 (length ps))); [done|lia].
Qed.

Lemma step_bar a n ps o : n <> 0%nat ->
  re2post_char (RState a n ps o) BAR = Some (RState (S a) 0 ps (o ++ cat_dots n)).
Proof. intros H. unfold re2post_char; simpl. by rewrite (proj2 (Nat.eqb_neq n 0)). Qed.

Lemma step_close a n pa pn ps o : n <> 0%nat ->
  re2post_char (RState a n ((pa, pn) :: ps) o) RP =
  Some (RState pa (S pn) ps (o ++ cat_dots n ++ alt_bars a)).
Proof. intros H. unfold re2post_char; simpl. by rewrite (proj2 (Nat.eqb_neq n 0)). Qed.

Lemma step_postop a n ps o c : n <> 0%nat -> c = QM \/ c = STAR \/ c = PLUS ->
  re2post_char (RState a n ps o) c = Some (RState a n ps (o ++ [c])).
Proof.
  intros H Hc. apply Nat.eqb_neq in H.
  destruct Hc as [-> | [-> | ->]]; unfold re2post_char; simpl; by rewrite H.
Qed.

Definition run := foldl_opt re2post_char.

#[global] Arguments re2post_char : simpl never.

Lemma run_cons st c s st1 : re2post_char st c = Some st1 -> run st (c :: s) = run st1 s.
Proof. unfold run. simpl. by intros ->. Qed.

Lemma run_one st c : run st [c] = re2post_char st c.
Proof. unfold run. simpl. by destruct (re2post_char st c). Qed.

Lemma run_app st s1 s2 st1 : run st s1 = Some st1 -> run st (s1 ++ s2) = run st1 s2.
Proof. unfold run. intros H. by rewrite foldl_opt_app, H. Qed.

Lemma alt_bars_app n m : alt_bars (n + m) = alt_bars n ++ alt_bars m.
Proof. induction n; simpl; congruence. Qed.

Lemma alt_bars_snoc n : alt_bars (S n) = alt_bars n ++ [BAR].
Proof. replace (S n) with (n + 1)%nat by lia. by rewrite alt_bars_app. Qed.

(** ** Completeness: a pattern of the grammar is translated to its postfix form *)

Lemma re2post_complete_mind :
  (forall d r s, g_alt d r s -> forall a ps o, (length ps + d <= 100)%nat ->
     exists k n o', run (RState a 0 ps o) s = Some (RState (a + k) n ps o') /\
       n <> 0%nat /\ o' ++ cat_dots n ++ alt_bars k = o ++ postfix r) /\
  (forall d r s, g_cat d r s -> forall a ps o, (length ps + d <= 100)%nat ->
     exists n o', run (RState a 0 ps o) s = Some (RState a n ps o') /\
       (n = 1 \/ n = 2)%nat /\ o' ++ cat_dots n = o ++ postfix r) /\
  (forall d r s, g_rep d r s -> forall a n ps o, (length ps + d <= 100)%nat ->
     run (RState a n ps o) s =
     Some (RState a (push_atom n) ps (o ++ sep_dot n ++ postfix r))).
Proof.
  apply (g_mind
    (fun d r s _ => forall a ps o, (length ps + d <= 100)%nat ->
     exists k n o', run (RState a 0 ps o) s = Some (RState (a + k) n ps o') /\
       n <> 0%nat /\ o' ++ cat_dots n ++ alt_bars k = o ++ postfix r)
    (fun d r s _ => forall a ps o, (length ps + d <= 100)%nat ->
     exists n o', run (RState a 0 ps o) s = Some (RState a n ps o') /\
       (n = 1 \/ n = 2)%nat /\ o' ++ cat_dots n = o ++ postfix r)
    (fun d r s _ => forall a n ps o, (length ps + d <= 100)%nat ->
     run (RState a n ps o) s =
     Some (RState a (push_atom n) ps (o ++ sep_dot n ++ postfix r)))).
  - intros d r s _ IH a ps o Hd. destruct (IH a ps o Hd) as (n & o' & Hr & Hn & Ho).
    exists 0%nat, n, o'. rewrite Nat.add_0_r, app_nil_r. repeat split; [done|lia|done].
  - intros d r1 r2 s1 s2 _ IH1 _ IH2 a ps o Hd.
    destruct (IH1 a ps o Hd) as (n1 & o1 & Hr1 & Hn1 & Ho1).
    destruct (IH2 (S a) ps (o1 ++ cat_dots n1) Hd) as (k & n & o' & Hr2 & Hn & Ho).
    exists (S k), n, o'. rewrite (run_app _ _ _ _ Hr1).
    rewrite (run_cons _ _ _ _ (step_bar a n1 ps o1 ltac:(lia))).
    replace (a + S k)%nat with (S a + k)%nat by lia. repeat split; [done|done|].
    rewrite alt_bars_snoc. simpl postfix. rewrite !app_assoc in *.
    rewrite Ho, Ho1. by rewrite <-!app_assoc.
  - intros d r s _ IH a ps o Hd. exists 1%nat, (o ++ postfix r).
    rewrite IH by done. rewrite app_nil_r. auto.
  - intros d r1 r2 s1 s2 _ IH1 _ IH2 a ps o Hd.
    destruct (IH1 a ps o Hd) as (n1 & o1 & Hr1 & Hn1 & Ho1).
    exists 2%nat, (o1 ++ cat_dots n1 ++ postfix r2).
    rewrite (run_app _ _ _ _ Hr1), IH2 by done.
    simpl postfix. rewrite (app_assoc o (postfix r1)), <-Ho1, <-!app_assoc.
    destruct Hn1 as [-> | ->]; auto.
  - intros d c Hc a n ps o _. by rewrite run_one, step_literal.
  - intros d r s _ IH a n ps o Hd.
    rewrite (run_cons _ _ _ _ (step_open a n ps o ltac:(lia))).
    edestruct (IH 0%nat) as (k & n' & o' & Hr & Hn & Ho); cycle 1.
    + rewrite (run_app _ _ _ _ Hr), run_one. rewrite step_close by done.
      rewrite push_atom_close, (app_assoc o), <-Ho. done.
    + simpl. lia.
  - intros d r s _ IH a n ps o Hd. rewrite (run_app _ _ _ _ (IH a n ps o Hd)), run_one.
    rewrite step_postop by (auto; apply Nat.eqb_neq, push_atom_pos).
    by rewrite <-!app_assoc.
  - intros d r s _ IH a n ps o Hd. rewrite (run_app _ _ _ _ (IH a n ps o Hd)), run_one.
    rewrite step_postop by (auto; apply Nat.eqb_neq, push_atom_pos).
    by rewrite <-!app_assoc.
  - intros d r s _ IH a n ps o Hd. rewrite (run_app _ _ _ _ (IH a n ps o Hd)), run_one.
    rewrite step_postop by (auto; apply Nat.eqb_neq, push_atom_pos).
    by rewrite <-!app_assoc.
Qed.

(** ** Soundness: what the parser accepts *)

(** Finished alternatives of a level, each followed by its bar. *)
Inductive alts_ok (d : nat) : nat -> list Z -> list Z -> Prop :=
| alts_none : alts_ok d 0 [] []
| alts_more n s o r s1 :
    alts_ok d n s o -> g_cat d r s1 -> alts_ok d (S n) (s ++ s1 ++ [BAR]) (o ++ postfix r).

(** The alternative being read, at the innermost level. *)
Inductive active (d : nat) : nat -> list Z -> list Z -> Prop :=
| active_0 : active d 0 [] []
| active_1 r s : g_rep d r s -> active d 1 s (postfix r)
| active_2 r1 s1 r2 s2 :
    g_cat d r1 s1 -> g_rep d r2 s2 -> active d 2 (s1 ++ s2) (postfix r1 ++ postfix r2).

(** The alternative being read at a level whose parenthesis is open. *)
Inductive suspended (d : nat) : nat -> list Z -> list Z -> Prop :=
| suspended_0 : suspended d 0 [] []
| suspended_1 r s : g_cat d r s -> suspended d 1 s (postfix r).

(** The open levels, for the [paren] stack; [d] parentheses may still open. *)
Inductive outer : nat -> list (nat * nat) -> list Z -> list Z -> Prop :=
| outer_top : outer 100 [] [] []
| outer_open d a n ps s0 o0 s1 o1 s2 o2 :
    outer (S d) ps s0 o0 -> alts_ok (S d) a s1 o1 -> suspended (S d) n s2 o2 ->
    outer d ((a, n) :: ps) (s0 ++ s1 ++ s2 ++ [LP]) (o0 ++ o1 ++ o2).

Definition parse_inv (s : list Z) (st : rstate) : Prop :=
  exists d s0 o0 s1 o1 s2 o2,
    outer d (paren st) s0 o0 /\ alts_ok d (nalt st) s1 o1 /\ active d (natom st) s2 o2 /\
    s = s0 ++ s1 ++ s2 /\ dst st = o0 ++ o1 ++ o2.

Lemma outer_depth d ps s o : outer d ps s o -> (length ps + d = 100)%nat.
Proof. induction 1; simpl; lia. Qed.

Lemma active_nonempty d n s o : active d n s o -> n <> 0%nat ->
  exists r, g_cat d r s /\ postfix r = o ++ cat_dots n.
Proof.
  intros [|r s' H|r1 s1 r2 s2 H1 H2] Hn; [done| |].
  - exists r. rewrite app_nil_r. split; [by constructor|done].
  - exists (RCat r1 r2). split; [by constructor|]. simpl. by rewrite <-app_assoc.
Qed.

Lemma alts_fold d n s1 o1 : alts_ok d n s1 o1 -> forall r s2, g_alt d r s2 ->
  exists r', g_alt d r' (s1 ++ s2) /\ postfix r' = o1 ++ postfix r ++ alt_bars n.
Proof.
  induction 1 as [|n s o r1 sa Ha IH Hc]; intros r s2 H2.
  - exists r. by rewrite app_nil_r.
  - destruct (IH (RAlt r1 r) (sa ++ BAR :: s2)) as (r' & Hg & Hp); [by constructor|].
    exists r'. split.
    + by rewrite <-!app_assoc in *.
    + rewrite Hp. simpl. by rewrite <-!app_assoc.
Qed.

(** Suspending the innermost level for an opening parenthesis. *)
Lemma active_suspend d n s o : active d n s o ->
  suspended d (if (1 <? n)%nat then n - 1 else n) s (o ++ sep_dot n).
Proof.
  intros [|r s' H|r1 s1 r2 s2 H1 H2]; simpl; rewrite ?app_nil_r.
  - constructor.
  - by do 2 constructor.
  - rewrite <-app_assoc. apply (suspended_1 d (RCat r1 r2)). by constructor.
Qed.

(** Adding an operand to an alternative. *)
Lemma active_push d n s o r s' : active d n s o -> g_rep d r s' ->
  active d (push_atom n) (s ++ s') (o ++ sep_dot n ++ postfix r).
Proof.
  intros [|r1 s1 H|r1 s1 r2 s2 H1 H2] Hr; simpl.
  - by constructor.
  - constructor; [by constructor|done].
  - rewrite <-!app_assoc, (app_assoc s1).
    change (postfix r1 ++ postfix r2 ++ DOT :: postfix r)
      with (postfix r1 ++ postfix r2 ++ [DOT] ++ postfix r).
    rewrite (app_assoc (postfix r2)), (app_assoc (postfix r1)).
    apply (active_2 d (RCat r1 r2)); [by constructor|done].
Qed.

Lemma suspended_push d n s o r s' : suspended d n s o -> g_rep d r s' ->
  active d (S n) (s ++ s') (o ++ postfix r).
Proof. intros [|r1 s1 H] Hr; by constructor. Qed.

Lemma active_postop d n s o c : active d n s o -> n <> 0%nat ->
  c = QM \/ c = STAR \/ c = PLUS -> active d n (s ++ [c]) (o ++ [c]).
Proof.
  assert (Hop : forall r s, g_rep d r s -> c = QM \/ c = STAR \/ c = PLUS ->
            exists r', g_rep d r' (s ++ [c]) /\ postfix r' = postfix r ++ [c]).
  { intros r s' Hr [-> | [-> | ->]]; [exists (ROpt r)|exists (RStar r)|exists (RPlus r)];
      (split; [by constructor|done]). }
  intros [|r s' H|r1 s1 r2 s2 H1 H2] Hn Hc; [done| |].
  - destruct (Hop _ _ H Hc) as (r' & Hg & <-). by constructor.
  - destruct (Hop _ _ H2 Hc) as (r' & Hg & Hp). rewrite <-!app_assoc, <-Hp. by constructor.
Qed.

Lemma parse_inv_step pre st c st' :
  parse_inv pre st -> re2post_char st c = Some st' -> parse_inv (pre ++ [c]) st'.
Proof.
  intros (d & s0 & o0 & s1 & o1 & s2 & o2 & Ho & Ha & Hc & -> & Hd) H.
  destruct st as [a n ps o]; simpl in *; subst o. unfold re2post_char in H.
  destruct (c =? LP) eqn:E1; [|destruct (c =? BAR) eqn:E2; [|destruct (c =? RP) eqn:E3;
    [|destruct ((c =? STAR) || (c =? PLUS) || (c =? QM)) eqn:E4]]].
  - apply Z.eqb_eq in E1 as ->. rewrite close_cat_spec in H. cbn -[Nat.leb] in H.
    destruct (Nat.leb_spec 100 (length ps)); [done|].
    pose proof (outer_depth _ _ _ _ Ho). simplify_eq. destruct d as [|d]; [lia|].
    exists d, (s0 ++ s1 ++ s2 ++ [LP]), (o0 ++ o1 ++ (o2 ++ sep_dot n)), [], [], [], [].
    simpl. rewrite !app_nil_r, <-!app_assoc.
    repeat split; try constructor; try done. by apply active_suspend.
  - apply Z.eqb_eq in E2 as ->. simpl in H. destruct (Nat.eqb_spec n 0); [done|]. simplify_eq.
    destruct (active_nonempty _ _ _ _ Hc) as (r & Hg & Hp); [done|].
    exists d, s0, o0, (s1 ++ s2 ++ [BAR]), (o1 ++ postfix r), [], []. simpl.
    rewrite Hp, !app_nil_r, <-!app_assoc. repeat split; try done; [|constructor].
    rewrite <-Hp. by constructor.
  - apply Z.eqb_eq in E3 as ->. simpl in H. destruct ps as [|[pa pn] ps]; [done|].
    destruct (Nat.eqb_spec n 0); [done|]. simplify_eq.
    destruct (active_nonempty _ _ _ _ Hc) as (r & Hg & Hp); [done|].
    destruct (alts_fold _ _ _ _ Ha r s2) as (r' & Hg' & Hp'); [by constructor|].
    inv Ho. exists (S d), s3, o3, s4, o4, (s5 ++ (LP :: (s1 ++ s2) ++ [RP])), (o5 ++ postfix r').
    simpl. rewrite Hp', Hp, <-!app_assoc. repeat split; try done.
    rewrite (app_assoc o2), <-Hp, <-Hp'.
    eapply suspended_push; [done|]. rewrite (app_assoc s1). by apply gr_par.
  - simpl in H. destruct (Nat.eqb_spec n 0); [done|]. simplify_eq.
    exists d, s0, o0, s1, o1, (s2 ++ [c]), (o2 ++ [c]). simpl. rewrite <-!app_assoc.
    repeat split; try done. apply active_postop; [done..|].
    apply orb_prop in E4 as [E4|E4]; [apply orb_prop in E4 as [E4|E4]|];
      apply Z.eqb_eq in E4; auto.
  - rewrite close_cat_spec in H. simplify_eq.
    exists d, s0, o0, s1, o1, (s2 ++ [c]), (o2 ++ sep_dot n ++ [c]). simpl.
    rewrite push_atom_close, <-!app_assoc. repeat split; try done.
    apply (active_push _ _ _ _ (RChr c)); [done|]. constructor.
    unfold literal. apply orb_false_iff in E4 as [[-> ->]%orb_false_iff ->].
    by rewrite E1, E2, E3.
Qed.

Lemma parse_inv_run s st : run re2post_init s = Some st -> parse_inv s st.
Proof.
  intros H. change s with ([] ++ s).
  refine (foldl_opt_inv _ parse_inv parse_inv_step _ _ _ _ _ H).
  exists 100%nat, [], [], [], [], [], []. repeat split; constructor.
Qed.

(** The texts [re2post] accepts outside the grammar: the empty pattern and a
    pattern with a bar after its last alternative. *)
Inductive accepted : list Z -> list Z -> Prop :=
| acc_regex r s : g_alt 100 r s -> accepted s (postfix r)
| acc_empty : accepted [] []
| acc_bar r s : g_alt 100 r s -> accepted (s ++ [BAR]) (postfix r ++ [BAR]).

Lemma final_accepted s st : parse_inv s st -> paren st = [] ->
  accepted s (dst st ++ cat_dots (natom st) ++ alt_bars (nalt st)).
Proof.
  intros (d & s0 & o0 & s1 & o1 & s2 & o2 & Ho & Ha & Hc & -> & ->) Hp.
  rewrite Hp in Ho. inv Ho. destruct (natom st) as [|n] eqn:En.
  - inv Hc. simpl. rewrite !app_nil_r.
    inversion Ha as [|n s o r sa Ha' Hg]; subst; [constructor|].
    destruct (alts_fold _ _ _ _ Ha' r sa) as (r' & Hg' & Hp'); [by constructor|].
    replace (s ++ sa ++ [BAR]) with ((s ++ sa) ++ [BAR]) by by rewrite <-app_assoc.
    replace ((o ++ postfix r) ++ alt_bars (S n)) with (postfix r' ++ [BAR]); [by constructor|].
    by rewrite alt_bars_snoc, Hp', <-!app_assoc.
  - destruct (active_nonempty _ _ _ _ Hc) as (r & Hg & Hr); [done|].
    destruct (alts_fold _ _ _ _ Ha r s2) as (r' & Hg' & Hp'); [by constructor|].
    cbn [app]. rewrite <-!app_assoc, (app_assoc o2), <-Hr, <-Hp'. by constructor.
Qed.

Lemma complete_at_top r s : g_alt 100 r s ->
  exists k n o', run re2post_init s = Some (RState k n [] o') /\ n <> 0%nat /\
    o' ++ cat_dots n ++ alt_bars k = postfix r.
Proof. intros H. exact (proj1 re2post_complete_mind _ _ _ H 0%nat [] [] ltac:(done)). Qed.

Lemma re2post_complete r s : g_alt 100 r s -> (length s < 4000)%nat -> re2post s = Some (postfix r).
Proof.
  intros Hg Hl. unfold re2post. rewrite (proj2 (Nat.leb_gt _ _) Hl). fold (run re2post_init s).
  destruct (complete_at_top _ _ Hg) as (k & n & o' & -> & _ & Ho). simpl. by rewrite Ho.
Qed.

(** C5. [re2post] accepts exactly the texts shorter than 4000 characters that
    the grammar generates with parentheses nested at most 100 deep, and yields
    the postfix form of the pattern they denote; the only other texts it lets
    through are the empty one and a pattern followed by a stray bar. *)
Theorem re2post_spec re p :
  re2post re = Some p <-> (length re < 4000)%nat /\ accepted re p.
Proof.
  unfold re2post. fold run. destruct (Nat.leb_spec 4000 (length re)) as [Hl|Hl].
  { split; [done|]. intros [? _]. lia. }
  split.
  - intros H. split; [done|]. fold (run re2post_init re) in H.
    destruct (run re2post_init re) as [st|] eqn:E; [|done].
    destruct (paren st) eqn:Ep; [|done]. simplify_eq.
    apply final_accepted; [by apply parse_inv_run|done].
  - intros [_ Hacc]. fold (run re2post_init re). inversion Hacc as [r s Hg| |r s Hg]; subst.
    + by destruct (complete_at_top _ _ Hg) as (k & n & o' & -> & _ & <-).
    + done.
    + destruct (complete_at_top _ _ Hg) as (k & n & o' & Hr & Hn & Ho).
      rewrite (run_app _ _ _ _ Hr), run_one, step_bar by done.
      cbn [paren dst natom nalt]. by rewrite alt_bars_snoc, <-Ho, <-!app_assoc.
Qed.

(** ** The static buffer *)

(** Bytes written plus bytes that the counters can still emit. *)
Definition owed (st : rstate) : nat :=
  (length (dst st) + natom st + nalt st +
   list_sum (map (fun e => fst e + snd e) (paren st)))%nat.

Lemma length_cat_dots n : length (cat_dots n) = (n - 1)%nat.
Proof. induction n as [|[|n] IH]; simpl in *; lia. Qed.

Lemma length_alt_bars n : length (alt_bars n) = n.
Proof. induction n; simpl; congruence. Qed.

Lemma owed_step st c st' : re2post_char st c = Some st' -> (owed st' <= owed st + 2)%nat.
Proof.
  destruct st as [a n ps o]. unfold re2post_char, owed. rewrite close_cat_spec. intros H.
  unfold sep_dot in H. repeat case_match; simplify_eq/=;
    rewrite ?length_app, ?length_cat_dots, ?length_alt_bars; simpl;
    repeat match goal with
    | H : (_ <? _)%nat = true |- _ => apply Nat.ltb_lt in H
    | H : (_ =? _)%nat = false |- _ => apply Nat.eqb_neq in H
    end; lia.
Qed.

Lemma owed_run s st : run re2post_init s = Some st -> (owed st <= 2 * length s)%nat.
Proof.
  intros H. change (length s) with (length ([] ++ s)).
  refine (foldl_opt_inv _ (fun pre st => owed st <= 2 * length pre)%nat _ _ _ _ _ _ H).
  - intros pre a c a' Hp Hs%owed_step. rewrite length_app. simpl. lia.
  - simpl. unfold owed. simpl. lia.
Qed.

(** Memory safety of [re2post]: for a text that passes the length test,
    every byte written to [buf[8000]], the terminating NUL included, is inside
    the buffer, at every point of the loop and at the end. *)
Theorem re2post_buffer_safe re :
  (length re < 4000)%nat ->
  (forall pre post st, re = pre ++ post -> run re2post_init pre = Some st ->
     Z.of_nat (length (dst st)) < 8000) /\
  (forall p, re2post re = Some p -> Z.of_nat (length p) + 1 <= 8000).
Proof.
  intros Hl. split.
  - intros pre post st -> H%owed_run. rewrite length_app in Hl. unfold owed in H. lia.
  - unfold re2post. fold (run re2post_init re). rewrite (proj2 (Nat.leb_gt _ _) Hl).
    intros p H. destruct (run re2post_init re) as [st|] eqn:E; [|done].
    apply owed_run in E. destruct (paren st); [|done]. simplify_eq. unfold owed in E.
    rewrite !length_app, length_cat_dots, length_alt_bars. lia.
Qed.

Lemma re2post_buffer_safe_witness :
  (length [97; 98] < 4000)%nat /\ 
  (forall p, re2post [97; 98] = Some p -> Z.of_nat (length p) + 1 <= 8000).
Proof. split; [simpl; lia|]. apply (re2post_buffer_safe [97; 98]). simpl. lia. Defined.
