(* ===== verification/Nfa.v ===== *)
(** Component: Thompson's construction [post2nfa] of src/c-study/dfa-about
    (bounded-mem-dfa.c; dfa.c and nfa.c have the same text).  The State
    objects live in a heap, the dangling out-arrows of a fragment are threaded
    through the arrow fields themselves exactly as the union Ptrlist does it, and
    the operand stack has the 1000 entries of the C array.  The theorems show
    that the graph built for a pattern is the Thompson automaton of the pattern
    and that its paths spell exactly the words of the pattern's language. *)
From S2P Require Import Prelude RePost.

(** ** Data *)

Definition Match : Z := 256.
Definition Split : Z := 257.

(** A non-null [State *]: the [i]-th object [state()] allocated, or the static
    [matchstate]. *)
Inductive sptr := PState (i : nat) | PMatch.

#[export] Instance sptr_eq_dec : EqDecision sptr.
Proof. solve_decision. Defined.

(** The address of an arrow field: [(i, false)] is [&s->out] and [(i, true)] is
    [&s->out1] of state [i]. *)
Abbreviation fld := (nat * bool)%type.

(** What an arrow field holds.  It is a [State *] once patched; before, the
    field is the union Ptrlist and holds the [next] pointer. *)
Inductive word := WNull | WState (p : sptr) | WField (f : fld).

Record State := MkState { sc : Z; out : word; out1 : word; lastlist : Z }.

Definition field (s : State) (b : bool) : word := if b then out1 s else out s.

Definition upd_field (s : State) (b : bool) (w : word) : State :=
  if b then MkState (sc s) (out s) w (lastlist s)
  else MkState (sc s) w (out1 s) (lastlist s).

(** The heap of the objects allocated so far; [nstate] is its length. *)
Abbreviation heap := (list State).

Definition read (h : heap) (f : fld) : option word :=
  s ← h !! f.1; Some (field s f.2).

Definition write (h : heap) (f : fld) (w : word) : res heap :=
  match h !! f.1 with
  | Some s => Ret (<[f.1 := upd_field s f.2 w]> h)
  | None => UB
  end.

#[global] Arguments read : simpl never.
#[global] Arguments write : simpl never.

(** A partially built automaton: [Frag]. *)
Record Frag := frag { start : sptr; fout : word }.

(** ** Operations *)

(** [state(c, out, out1)]: allocate at the end of the heap. *)
Definition state (h : heap) (c : Z) (o o1 : word) : heap * nat :=
  (h ++ [MkState c o o1 0], length h).

(** [list1(outp)]: the cell becomes a list of one. *)
Definition list1 (h : heap) (outp : fld) : res (heap * word) :=
  h' ← write h outp WNull; Ret (h', WField outp).

(** [patch(l, s)]. *)
Fixpoint patch (fuel : nat) (h : heap) (l : word) (s : sptr) : res heap :=
  match l with
  | WNull => Ret h
  | WState _ => UB
  | WField f =>
    match fuel with
    | O => Fuel
    | S n =>
      next ← oget (read h f);
      h' ← write h f (WState s);
      patch n h' next s
    end
  end.

(** [append(l1, l2)]: the loop [while(l1->next) l1 = l1->next; l1->next = l2]. *)
Fixpoint append_loop (fuel : nat) (h : heap) (l1 l2 : word) : res heap :=
  match l1 with
  | WField f =>
    next ← oget (read h f);
    match next with
    | WNull => write h f l2
    | _ => match fuel with O => Fuel | S n => append_loop n h next l2 end
    end
  | _ => UB
  end.

(** A Ptrlist visits every field of the heap at most once. *)
Definition list_fuel (h : heap) : nat := S (2 * length h).

Definition append (h : heap) (l1 l2 : word) : res (heap * word) :=
  h' ← append_loop (list_fuel h) h l1 l2; Ret (h', l1).

Definition STACK : nat := 1000.

(** [push(s)]: [*stackp++ = s], outside the array when it is full. *)
Definition push (e : Frag) (stk : list Frag) : res (list Frag) :=
  if (length stk <? STACK)%nat then Ret (e :: stk) else UB.

(** [pop()]: [*--stackp], below the array when it is empty. *)
Definition pop (stk : list Frag) : res (Frag * list Frag) :=
  match stk with e :: stk' => Ret (e, stk') | [] => UB end.

(** One iteration of the loop of [post2nfa]. *)
Definition post2nfa_char (h : heap) (stk : list Frag) (p : Z) : res (heap * list Frag) :=
  if p =? DOT then
    '(e2, stk) ← pop stk;
    '(e1, stk) ← pop stk;
    h ← patch (list_fuel h) h (fout e1) (start e2);
    stk ← push (frag (start e1) (fout e2)) stk;
    Ret (h, stk)
  else if p =? BAR then
    '(e2, stk) ← pop stk;
    '(e1, stk) ← pop stk;
    let '(h, s) := state h Split (WState (start e1)) (WState (start e2)) in
    '(h, l) ← append h (fout e1) (fout e2);
    stk ← push (frag (PState s) l) stk;
    Ret (h, stk)
  else if p =? QM then
    '(e, stk) ← pop stk;
    let '(h, s) := state h Split (WState (start e)) WNull in
    '(h, l) ← list1 h (s, true);
    '(h, l) ← append h (fout e) l;
    stk ← push (frag (PState s) l) stk;
    Ret (h, stk)
  else if p =? STAR then
    '(e, stk) ← pop stk;
    let '(h, s) := state h Split (WState (start e)) WNull in
    h ← patch (list_fuel h) h (fout e) (PState s);
    '(h, l) ← list1 h (s, true);
    stk ← push (frag (PState s) l) stk;
    Ret (h, stk)
  else if p =? PLUS then
    '(e, stk) ← pop stk;
    let '(h, s) := state h Split (WState (start e)) WNull in
    h ← patch (list_fuel h) h (fout e) (PState s);
    '(h, l) ← list1 h (s, true);
    stk ← push (frag (start e) l) stk;
    Ret (h, stk)
  else
    let '(h, s) := state h (schar p) WNull WNull in
    '(h, l) ← list1 h (s, false);
    stk ← push (frag (PState s) l) stk;
    Ret (h, stk).

Fixpoint post2nfa_loop (h : heap) (stk : list Frag) (postfix : list Z)
    : res (heap * list Frag) :=
  match postfix with
  | [] => Ret (h, stk)
  | p :: ps => '(h, stk) ← post2nfa_char h stk p; post2nfa_loop h stk ps
  end.

(** [post2nfa(postfix)] on a non-null argument; the result [None] is the
    [return NULL] for operands left on the stack. *)
Definition post2nfa (postfix : list Z) : res (heap * option sptr) :=
  '(h, stk) ← post2nfa_loop [] [] postfix;
  '(e, stk) ← pop stk;
  match stk with
  | _ :: _ => Ret (h, None)
  | [] => h ← patch (list_fuel h) h (fout e) PMatch; Ret (h, Some (start e))
  end.

(** ** The Thompson automaton of a pattern *)

(** [frag_ok h r p q]: entering at [p], the heap holds the automaton of [r] whose
    every exit arrow leads to [q]. *)
Inductive frag_ok (h : heap) : regex -> sptr -> sptr -> Prop :=
| fk_chr c i s q :
    h !! i = Some s -> sc s = schar c -> out s = WState q -> frag_ok h (RChr c) (PState i) q
| fk_cat r1 r2 p m q :
    frag_ok h r1 p m -> frag_ok h r2 m q -> frag_ok h (RCat r1 r2) p q
| fk_alt r1 r2 i s p1 p2 q :
    h !! i = Some s -> sc s = Split -> out s = WState p1 -> out1 s = WState p2 ->
    frag_ok h r1 p1 q -> frag_ok h r2 p2 q -> frag_ok h (RAlt r1 r2) (PState i) q
| fk_opt r i s p q :
    h !! i = Some s -> sc s = Split -> out s = WState p -> out1 s = WState q ->
    frag_ok h r p q -> frag_ok h (ROpt r) (PState i) q
| fk_star r i s p q :
    h !! i = Some s -> sc s = Split -> out s = WState p -> out1 s = WState q ->
    frag_ok h r p (PState i) -> frag_ok h (RStar r) (PState i) q
| fk_plus r i s p q :
    h !! i = Some s -> sc s = Split -> out s = WState p -> out1 s = WState q ->
    frag_ok h r p (PState i) -> frag_ok h (RPlus r) p q.

(** ** Reading and writing the heap *)

Definition code (h : heap) (i : nat) : option Z := sc <$> h !! i.

(** On the states [lo..hi-1] the two heaps differ at most in the fields [hs]. *)
Definition agree (lo hi : nat) (hs : list fld) (h h' : heap) : Prop :=
  forall i, (lo <= i < hi)%nat ->
    code h' i = code h i /\ forall b, (i, b) ∉ hs -> read h' (i, b) = read h (i, b).

Lemma read_lookup h i b w : read h (i, b) = Some w <-> exists s, h !! i = Some s /\ field s b = w.
Proof.
  unfold read; simpl. destruct (h !! i) as [s|]; simpl; split.
  - intros [= <-]. eauto.
  - intros (s' & [= <-] & <-). done.
  - done.
  - intros (s' & ? & _). done.
Qed.

Lemma read_Some_lt h f w : read h f = Some w -> (f.1 < length h)%nat.
Proof.
  destruct f as [i b]. intros (s & Hs & _)%read_lookup. simpl. by eapply lookup_lt_Some.
Qed.

Lemma write_spec h f w : (f.1 < length h)%nat ->
  exists h', write h f w = Ret h' /\ length h' = length h /\
    (forall i, code h' i = code h i) /\
    (forall g, read h' g = if decide (g = f) then Some w else read h g).
Proof.
  intros [s Hs]%lookup_lt_is_Some. unfold write. rewrite Hs. eexists. split; [done|].
  rewrite length_insert. split; [done|]. split.
  - intros i. unfold code. destruct (decide (i = f.1)) as [->|Hn].
    + rewrite list_lookup_insert_eq by by eapply lookup_lt_Some.
      rewrite Hs. simpl. by destruct f as [? []], s.
    + by rewrite list_lookup_insert_ne.
  - intros [i b]. destruct f as [j b']. unfold read; simpl in *.
    destruct (decide (i = j)) as [->|Hn].
    + rewrite list_lookup_insert_eq by by eapply lookup_lt_Some. rewrite Hs. simpl.
      destruct s as [? ? ? ?], b, b'; simpl; by case_decide; simplify_eq.
    + rewrite list_lookup_insert_ne by done. by case_decide; simplify_eq.
Qed.

Lemma agree_refl lo hi hs h : agree lo hi hs h h.
Proof. by intros i _. Qed.

Lemma agree_trans lo hi hs h1 h2 h3 :
  agree lo hi hs h1 h2 -> agree lo hi hs h2 h3 -> agree lo hi hs h1 h3.
Proof.
  intros H1 H2 i Hi. destruct (H1 i Hi) as [A1 B1], (H2 i Hi) as [A2 B2].
  split; [congruence|]. intros b Hb. rewrite B2, B1; done.
Qed.

Lemma agree_sub lo hi lo' hi' hs hs' h h' :
  agree lo hi hs h h' -> (lo <= lo')%nat -> (hi' <= hi)%nat ->
  (forall f, f ∈ hs -> (lo' <= f.1 < hi')%nat -> f ∈ hs') -> agree lo' hi' hs' h h'.
Proof.
  intros H Hl Hh Hs i Hi. destruct (H i) as [A B]; [lia|]. split; [done|].
  intros b Hb. apply B. intros Hin. apply Hb, Hs; done.
Qed.

(** ** Ptrlists *)

Fixpoint plist (h : heap) (l : word) (hs : list fld) : Prop :=
  match hs with
  | [] => l = WNull
  | f :: fs => l = WField f /\ exists w, read h f = Some w /\ plist h w fs
  end.

Lemma plist_frame h h' hs l :
  plist h l hs -> (forall f, f ∈ hs -> read h' f = read h f) -> plist h' l hs.
Proof.
  revert l; induction hs as [|f hs IH]; intros l; simpl; [done|].
  intros (-> & w & Hw & Hp) Hf. split; [done|]. exists w. split.
  - rewrite Hf; [done|set_solver].
  - apply IH; [done|]. intros g Hg. apply Hf. set_solver.
Qed.

Lemma plist_valid h hs l f : plist h l hs -> f ∈ hs -> (f.1 < length h)%nat.
Proof.
  revert l; induction hs as [|g hs IH]; intros l; simpl; [set_solver|].
  intros (-> & w & Hw & Hp) [->|Hf]%elem_of_cons; [by eapply read_Some_lt|eauto].
Qed.

Lemma plist_length h hs l : plist h l hs -> NoDup hs -> (length hs <= 2 * length h)%nat.
Proof.
  intros Hp Hnd.
  replace (2 * length h)%nat with (length (list_prod (seq 0 (length h)) [false; true])).
  2: { rewrite length_prod, length_seq. simpl. lia. }
  apply NoDup_incl_length; [by apply NoDup_ListNoDup|].
  intros [i b] Hin%list_elem_of_In. apply in_prod.
  - apply in_seq. pose proof (plist_valid _ _ _ _ Hp Hin). simpl in *. lia.
  - destruct b; simpl; auto.
Qed.

Lemma patch_spec hs : forall fuel h l q,
  plist h l hs -> NoDup hs -> (length hs <= fuel)%nat ->
  exists h', patch fuel h l q = Ret h' /\ length h' = length h /\
    (forall i, code h' i = code h i) /\
    (forall f, read h' f = if decide (f ∈ hs) then Some (WState q) else read h f).
Proof.
  induction hs as [|f hs IH]; intros fuel h l q; simpl.
  - intros -> _ _. exists h. destruct fuel; repeat split; intros; by case_decide; set_solver.
  - intros (-> & w & Hw & Hp) [Hf Hnd]%NoDup_cons Hlen. destruct fuel as [|n]; [lia|]. simpl.
    rewrite Hw. simpl.
    destruct (write_spec h f (WState q)) as (h1 & -> & Hl1 & Hc1 & Hr1);
      [by eapply read_Some_lt|]. simpl.
    destruct (IH n h1 w q) as (h2 & -> & Hl2 & Hc2 & Hr2); [|done|lia|].
    { eapply plist_frame; [done|]. intros g Hg. rewrite Hr1. case_decide; [by subst|done]. }
    exists h2. split; [done|]. split; [congruence|]. split; [intros; congruence|].
    intros g. rewrite Hr2, Hr1. repeat case_decide; subst; set_solver.
Qed.

Lemma append_loop_spec hs : forall fuel h l l2,
  hs <> [] -> plist h l hs -> NoDup hs -> (length hs <= S fuel)%nat ->
  exists h', append_loop fuel h l l2 = Ret h' /\ length h' = length h /\
    (forall i, code h' i = code h i) /\
    (forall f, f ∉ hs -> read h' f = read h f) /\
    (forall hs2, plist h l2 hs2 -> (forall f, f ∈ hs -> f ∉ hs2) -> plist h' l (hs ++ hs2)).
Proof.
  induction hs as [|f hs IH]; intros fuel h l l2 Hne; [done|]. simpl.
  intros (-> & w & Hw & Hp) [Hf Hnd]%NoDup_cons Hlen.
  pose proof (read_Some_lt _ _ _ Hw) as Hlt.
  destruct hs as [|g hs]; simpl in Hp.
  - subst w. destruct (write_spec h f l2) as (h1 & Hwr & Hl1 & Hc1 & Hr1); [done|].
    exists h1. replace (append_loop fuel h (WField f) l2) with (write h f l2)
      by (destruct fuel; simpl; by rewrite Hw).
    split; [done|]. split; [done|]. split; [done|]. split.
    + intros g Hg. rewrite Hr1. case_decide; set_solver.
    + intros hs2 H2 Hd. simpl. split; [done|]. exists l2. split.
      { rewrite Hr1. by case_decide. }
      eapply plist_frame; [done|]. intros g Hg. rewrite Hr1. case_decide; [|done].
      subst. exfalso. apply (Hd f); set_solver.
  - destruct Hp as (-> & v & Hw' & Hp). destruct fuel as [|n]; [simpl in Hlen; lia|].
    destruct (IH n h (WField g) l2) as (h1 & He & Hl1 & Hc1 & Hr1 & Hp1);
      [done|simpl; eauto|done|simpl in *; lia|].
    exists h1. split; [simpl; rewrite Hw; simpl; exact He|].
    split; [done|]. split; [done|]. split.
    + intros f' Hf'. apply Hr1. set_solver.
    + intros hs2 H2 Hd. split; [done|]. exists (WField g). split; [by rewrite Hr1|].
      apply Hp1; [done|]. intros f' Hf'. apply Hd. set_solver.
Qed.

Lemma append_spec h l l2 hs : hs <> [] -> plist h l hs -> NoDup hs ->
  exists h', append h l l2 = Ret (h', l) /\ length h' = length h /\
    (forall i, code h' i = code h i) /\
    (forall f, f ∉ hs -> read h' f = read h f) /\
    (forall hs2, plist h l2 hs2 -> (forall f, f ∈ hs -> f ∉ hs2) -> plist h' l (hs ++ hs2)).
Proof.
  intros Hne Hp Hnd. pose proof (plist_length _ _ _ Hp Hnd).
  destruct (append_loop_spec hs (list_fuel h) h l l2 Hne Hp Hnd) as (h' & He & Hrest).
  { unfold list_fuel. lia. }
  exists h'. unfold append. rewrite He. done.
Qed.

#[global] Arguments patch : simpl never.
#[global] Arguments append : simpl never.
#[global] Arguments push : simpl never.
#[global] Arguments STACK : simpl never.

(** ** Fragments under construction *)

(** The states [lo..hi-1] hold the automaton of [r] entered at [p], its exits the
    fields [hs]: in any heap that keeps them and in which the exits lead to [q]
    the automaton is complete. *)
Record builds (h : heap) (r : regex) (lo hi : nat) (p : sptr) (hs : list fld) : Prop := {
  b_range : (lo < hi <= length h)%nat;
  b_start : exists i, p = PState i /\ (lo <= i < hi)%nat;
  b_holes : forall f, f ∈ hs -> (lo <= f.1 < hi)%nat;
  b_nodup : NoDup hs;
  b_exit : hs <> [];
  b_fields : forall i b w, (lo <= i < hi)%nat -> (i, b) ∉ hs -> read h (i, b) = Some w ->
    w = WNull \/ exists j, w = WState (PState j) /\ (lo <= j < hi)%nat;
  b_ok : forall h' q, agree lo hi hs h h' ->
    (forall f, f ∈ hs -> read h' f = Some (WState q)) -> frag_ok h' r p q
}.

(** The operand stack, top first: its fragments cover all allocated states. *)
Inductive stack_ok (h : heap) : nat -> list Frag -> list regex -> Prop :=
| stack_nil : stack_ok h 0 [] []
| stack_cons lo hi e r hs stk rs :
    stack_ok h lo stk rs -> builds h r lo hi (start e) hs -> plist h (fout e) hs ->
    stack_ok h hi (e :: stk) (r :: rs).

Definition inv_stack (h : heap) (stk : list Frag) (rs : list regex) : Prop :=
  stack_ok h (length h) stk rs.

Lemma builds_agree h h' r lo hi p hs :
  builds h r lo hi p hs -> agree lo hi hs h h' -> (length h <= length h')%nat ->
  builds h' r lo hi p hs.
Proof.
  intros [Hr Hs Hh Hnd He Hf Hok] Ha Hl. constructor; try done; [lia| |].
  - intros i b w Hi Hb Hw. destruct (Ha i Hi) as [_ Hrd]. rewrite Hrd in Hw by done. eauto.
  - intros h2 q Ha2 Hq. apply Hok; [|done]. by eapply agree_trans.
Qed.

Lemma stack_frame h h' n stk rs :
  stack_ok h n stk rs -> agree 0 n [] h h' -> (length h <= length h')%nat ->
  stack_ok h' n stk rs.
Proof.
  induction 1 as [|lo hi e r hs stk rs Hs IH Hb Hp]; intros Ha Hl; [constructor|].
  pose proof (b_range _ _ _ _ _ _ Hb). econstructor.
  - apply IH; [|done]. eapply agree_sub; [done|lia..|set_solver].
  - eapply builds_agree; [done| |done]. eapply agree_sub; [done|lia..|set_solver].
  - eapply plist_frame; [done|]. intros [i b] Hf. apply (Ha i); [|set_solver].
    pose proof (b_holes _ _ _ _ _ _ Hb _ Hf). simpl in *. lia.
Qed.

Lemma stack_length h n stk rs : stack_ok h n stk rs -> length stk = length rs.
Proof. induction 1; simpl; congruence. Qed.

(** Constructors of [frag_ok] over [code] and [read]. *)
Lemma code_read h i c : code h i = Some c ->
  exists s, h !! i = Some s /\ sc s = c /\ read h (i, false) = Some (out s) /\
    read h (i, true) = Some (out1 s).
Proof.
  unfold code, read. simpl. destruct (h !! i) as [s|] eqn:E; [|done]. intros [= <-].
  exists s. by destruct s.
Qed.

Section frag_ok_read.
Context (h : heap) (i : nat).
Ltac go := intros Hc; intros; destruct (code_read _ _ _ Hc) as (s & Hs & Hsc & R1 & R2);
  simplify_eq; econstructor; try done; congruence.

Lemma fk_chr' c q : code h i = Some (schar c) -> read h (i, false) = Some (WState q) ->
  frag_ok h (RChr c) (PState i) q.
Proof. go. Qed.

Context (Hsplit : code h i = Some Split).

Lemma fk_alt' r1 r2 p1 p2 q :
  read h (i, false) = Some (WState p1) -> read h (i, true) = Some (WState p2) ->
  frag_ok h r1 p1 q -> frag_ok h r2 p2 q -> frag_ok h (RAlt r1 r2) (PState i) q.
Proof. revert Hsplit. go. Qed.

Lemma fk_opt' r p q :
  read h (i, false) = Some (WState p) -> read h (i, true) = Some (WState q) ->
  frag_ok h r p q -> frag_ok h (ROpt r) (PState i) q.
Proof. revert Hsplit. go. Qed.

Lemma fk_star' r p q :
  read h (i, false) = Some (WState p) -> read h (i, true) = Some (WState q) ->
  frag_ok h r p (PState i) -> frag_ok h (RStar r) (PState i) q.
Proof. revert Hsplit. go. Qed.

Lemma fk_plus' r p q :
  read h (i, false) = Some (WState p) -> read h (i, true) = Some (WState q) ->
  frag_ok h r p (PState i) -> frag_ok h (RPlus r) p q.
Proof. revert Hsplit. go. Qed.
End frag_ok_read.

(** A freshly allocated state. *)
Lemma state_spec h c o o1 :
  exists h', state h c o o1 = (h', length h) /\ length h' = S (length h) /\
    agree 0 (length h) [] h h' /\ code h' (length h) = Some c /\
    read h' (length h, false) = Some o /\ read h' (length h, true) = Some o1.
Proof.
  eexists. split; [reflexivity|]. rewrite length_app. simpl. split; [lia|].
  split; [|unfold code, read; simpl; by rewrite lookup_app_r, Nat.sub_diag by lia].
  intros i Hi. unfold code, read; simpl. by rewrite lookup_app_l by lia.
Qed.

(** ** One theorem per operator *)

Lemma build_char h stk rs c :
  inv_stack h stk rs -> (length stk < STACK)%nat ->
  (c =? DOT) = false -> (c =? BAR) = false -> (c =? QM) = false ->
  (c =? STAR) = false -> (c =? PLUS) = false ->
  exists h' e, post2nfa_char h stk c = Ret (h', e :: stk) /\ inv_stack h' (e :: stk) (RChr c :: rs).
Proof.
  intros Hs Hlen E1 E2 E3 E4 E5. unfold post2nfa_char. rewrite E1, E2, E3, E4, E5.
  destruct (state_spec h (schar c) WNull WNull) as (h1 & -> & Hl1 & Ha1 & Hc1 & Hr1 & Hr1').
  unfold list1. destruct (write_spec h1 (length h, false) WNull) as (h2 & -> & Hl2 & Hc2 & Hr2).
  { simpl. lia. }
  simpl. unfold push. rewrite (proj2 (Nat.ltb_lt _ _) Hlen). simpl.
  do 2 eexists. split; [done|]. unfold inv_stack. rewrite Hl2, Hl1.
  assert (Ha : agree 0 (length h) [] h h2).
  { intros i Hi. destruct (Ha1 i Hi) as [A B]. rewrite Hc2. split; [done|].
    intros b Hb. rewrite Hr2, B by done. case_decide; [|done]. simplify_eq. lia. }
  apply stack_cons with (lo := length h) (hs := [(length h, false)]).
  - eapply stack_frame; [done|done|lia].
  - constructor; simpl.
    + lia.
    + exists (length h). split; [done|lia].
    + intros f ->%list_elem_of_singleton. simpl. lia.
    + apply NoDup_singleton.
    + done.
    + intros i b w Hi Hb Hw. assert (i = length h) as -> by lia. left.
      destruct b; [|set_solver]. rewrite Hr2 in Hw. case_decide; [done|]. congruence.
    + intros h' q Hag Hq. apply fk_chr'.
      * destruct (Hag (length h)) as [-> _]; [lia|]. by rewrite Hc2.
      * apply Hq. set_solver.
  - simpl. split; [done|]. exists WNull. split; [|done]. rewrite Hr2. by case_decide.
Qed.

(** Heaps that differ only in the fields [hs0]. *)
Lemma agree_of (h h' : heap) (hs0 : list fld) lo hi hs :
  (forall i, code h' i = code h i) -> (forall f, f ∉ hs0 -> read h' f = read h f) ->
  (forall f, f ∈ hs0 -> (lo <= f.1 < hi)%nat -> f ∈ hs) -> agree lo hi hs h h'.
Proof.
  intros Hc Hr Hs i Hi. split; [done|]. intros b Hb. apply Hr. intros Hin. apply Hb, Hs; done.
Qed.

(** Arrows of a fragment stay in its range when the range grows. *)
Definition arrows_ok (h : heap) (lo hi : nat) (hs : list fld) : Prop :=
  forall i b w, (lo <= i < hi)%nat -> (i, b) ∉ hs -> read h (i, b) = Some w ->
    w = WNull \/ exists j, w = WState (PState j) /\ (lo <= j < hi)%nat.

Lemma arrows_frag h r lo hi p hs lo' hi' i b w :
  builds h r lo hi p hs -> (lo' <= lo)%nat -> (hi <= hi')%nat -> (lo <= i < hi)%nat ->
  (i, b) ∉ hs -> read h (i, b) = Some w ->
  w = WNull \/ exists j, w = WState (PState j) /\ (lo' <= j < hi')%nat.
Proof.
  intros B H1 H2 Hi Hb Hw. destruct (b_fields _ _ _ _ _ _ B i b w Hi Hb Hw) as [?|(j & ? & ?)];
    [by left|]. right. exists j. split; [done|lia].
Qed.

Lemma arrow_start h r lo hi p hs lo' hi' :
  builds h r lo hi p hs -> (lo' <= lo)%nat -> (hi <= hi')%nat ->
  WState p = WNull \/ exists j, WState p = WState (PState j) /\ (lo' <= j < hi')%nat.
Proof.
  intros B H1 H2. destruct (b_start _ _ _ _ _ _ B) as (j & -> & Hj). right.
  exists j. split; [done|lia].
Qed.

Lemma patch_frag h r lo hi e hs q :
  builds h r lo hi (start e) hs -> plist h (fout e) hs ->
  exists h', patch (list_fuel h) h (fout e) q = Ret h' /\ length h' = length h /\
    (forall i, code h' i = code h i) /\
    (forall f, f ∈ hs -> read h' f = Some (WState q)) /\
    (forall f, f ∉ hs -> read h' f = read h f).
Proof.
  intros B P. destruct (patch_spec hs (list_fuel h) h (fout e) q) as (h1 & -> & Hl & Hc & Hr);
    [done|apply B| |].
  { pose proof (plist_length _ _ _ P (b_nodup _ _ _ _ _ _ B)). unfold list_fuel. lia. }
  exists h1. repeat split; try done; intros f Hf; rewrite Hr; by case_decide.
Qed.

Lemma push_ok e stk : (length stk < STACK)%nat -> push e stk = Ret (e :: stk).
Proof. intros H. unfold push. by rewrite (proj2 (Nat.ltb_lt _ _) H). Qed.

Lemma build_cat h stk rs e2 r2 e1 r1 :
  inv_stack h (e2 :: e1 :: stk) (r2 :: r1 :: rs) -> (length stk < STACK)%nat ->
  exists h' e, post2nfa_char h (e2 :: e1 :: stk) DOT = Ret (h', e :: stk) /\
    inv_stack h' (e :: stk) (RCat r1 r2 :: rs).
Proof.
  intros Hs Hlen. unfold post2nfa_char. simpl.
  inversion Hs as [|mid hi ? ? hs2 ? ? Hs' B2 P2]; subst.
  inversion Hs' as [|lo ? ? ? hs1 ? ? Hs0 B1 P1]; subst.
  pose proof (b_range _ _ _ _ _ _ B1). pose proof (b_range _ _ _ _ _ _ B2).
  destruct (patch_frag _ _ _ _ _ _ (start e2) B1 P1) as (h1 & -> & Hl & Hc & Hr & Hk).
  simpl. rewrite push_ok by done. do 2 eexists. split; [done|].
  unfold inv_stack. rewrite Hl.
  pose proof (b_holes _ _ _ _ _ _ B1) as D1. pose proof (b_holes _ _ _ _ _ _ B2) as D2.
  apply stack_cons with (lo := lo) (hs := hs2).
  - eapply stack_frame; [done| |lia]. apply (agree_of _ _ hs1); [done..|].
    intros f Hf ?. specialize (D1 f Hf). lia.
  - constructor; simpl; try apply B2; [lia|..].
    + destruct (b_start _ _ _ _ _ _ B1) as (i & -> & Hi). exists i. split; [done|lia].
    + intros f Hf. specialize (D2 f Hf). lia.
    + intros i b w Hi Hb Hw. destruct (decide ((i, b) ∈ hs1)) as [D|D].
      * rewrite Hr in Hw by done. simplify_eq. eapply arrow_start; [done|lia..].
      * rewrite Hk in Hw by done. destruct (decide (i < mid)%nat);
          [eapply (arrows_frag _ _ _ _ _ _ lo (length h) i b w B1)
          |eapply (arrows_frag _ _ _ _ _ _ lo (length h) i b w B2)]; (done || lia).
    + intros h' q Hag Hq. apply fk_cat with (m := start e2).
      * apply (b_ok _ _ _ _ _ _ B1).
        -- eapply agree_trans; [by apply (agree_of _ _ hs1)|].
           eapply agree_sub; [done|lia..|]. intros f Hf Hf'. specialize (D2 f Hf). lia.
        -- intros [i b] Hf. pose proof (D1 _ Hf) as Hi. simpl in Hi.
           destruct (Hag i) as [_ ->]; [lia|by apply Hr|].
           intros Hf2. specialize (D2 _ Hf2). simpl in D2. lia.
      * apply (b_ok _ _ _ _ _ _ B2); [|done].
        eapply agree_trans; [apply (agree_of _ _ hs1)|eapply agree_sub; [done|lia..|done]];
          try done. intros f Hf Hf'. specialize (D1 f Hf). lia.
  - eapply plist_frame; [done|]. intros f Hf. apply Hk. intros D.
    specialize (D1 f D). specialize (D2 f Hf). lia.
Qed.

(** The stack, its two top fragments included, survives an allocation. *)
Lemma grow_builds h h1 r lo hi p hs :
  builds h r lo hi p hs -> agree 0 (length h) [] h h1 -> (length h <= length h1)%nat ->
  builds h1 r lo hi p hs.
Proof.
  intros B Ha Hl. pose proof (b_range _ _ _ _ _ _ B). eapply builds_agree; [done| |done].
  eapply agree_sub; [done|lia..|set_solver].
Qed.

Lemma grow_plist h h1 l hs :
  plist h l hs -> agree 0 (length h) [] h h1 -> plist h1 l hs.
Proof.
  intros P Ha. eapply plist_frame; [done|]. intros [i b] Hf. apply (Ha i); [|set_solver].
  pose proof (plist_valid _ _ _ _ P Hf). simpl in *. lia.
Qed.

Lemma build_alt h stk rs e2 r2 e1 r1 :
  inv_stack h (e2 :: e1 :: stk) (r2 :: r1 :: rs) -> (length stk < STACK)%nat ->
  exists h' e, post2nfa_char h (e2 :: e1 :: stk) BAR = Ret (h', e :: stk) /\
    inv_stack h' (e :: stk) (RAlt r1 r2 :: rs).
Proof.
  intros Hs Hlen. unfold post2nfa_char. cbn -[state].
  inversion Hs as [|mid hi ? ? hs2 ? ? Hs' B2 P2]; subst.
  inversion Hs' as [|lo ? ? ? hs1 ? ? Hs0 B1 P1]; subst.
  pose proof (b_range _ _ _ _ _ _ B1). pose proof (b_range _ _ _ _ _ _ B2).
  destruct (state_spec h Split (WState (start e1)) (WState (start e2)))
    as (h1 & -> & Hl1 & Ha1 & Hc1 & Ho & Ho1).
  apply (grow_builds _ h1) in B1, B2; [|done|lia|done|lia].
  apply (grow_plist _ h1) in P1, P2; [|done..].
  pose proof (b_holes _ _ _ _ _ _ B1) as D1. pose proof (b_holes _ _ _ _ _ _ B2) as D2.
  assert (Dis : forall f, f ∈ hs1 -> f ∉ hs2).
  { intros f Hf Hf'. specialize (D1 _ Hf). specialize (D2 _ Hf'). lia. }
  destruct (append_spec h1 (fout e1) (fout e2) hs1) as (h2 & -> & Hl2 & Hc2 & Hk & Hp);
    [apply B1|done|apply B1|].
  simpl. rewrite push_ok by done. do 2 eexists. split; [done|].
  unfold inv_stack. rewrite Hl2, Hl1.
  assert (N1 : forall b, (length h, b) ∉ hs1).
  { intros b Hf. specialize (D1 _ Hf). simpl in D1. lia. }
  assert (N2 : forall b, (length h, b) ∉ hs2).
  { intros b Hf. specialize (D2 _ Hf). simpl in D2. lia. }
  apply stack_cons with (lo := lo) (hs := hs1 ++ hs2); [| |by apply Hp].
  - eapply stack_frame; [done| |lia].
    eapply agree_trans; [eapply agree_sub; [exact Ha1|lia..|set_solver]|].
    apply (agree_of _ _ hs1); [done..|]. intros f Hf ?. specialize (D1 f Hf). lia.
  - constructor; simpl.
    + lia.
    + exists (length h). split; [done|lia].
    + intros f [Hf|Hf]%elem_of_app; [specialize (D1 f Hf)|specialize (D2 f Hf)]; lia.
    + apply NoDup_app. split; [apply B1|split; [done|apply B2]].
    + intros [E _]%app_eq_nil. by apply (b_exit _ _ _ _ _ _ B1).
    + intros i b w Hi [Hn1 Hn2]%not_elem_of_app Hw. rewrite Hk in Hw by done.
      destruct (decide (i = length h)) as [->|]; [|destruct (decide (i < mid)%nat)].
      * destruct b; simplify_eq; eapply arrow_start; (done || lia).
      * eapply (arrows_frag _ _ _ _ _ _ lo _ i b w B1); (done || lia).
      * eapply (arrows_frag _ _ _ _ _ _ lo _ i b w B2); (done || lia).
    + intros h' q Hag Hq.
      destruct (Hag (length h)) as [Hc' Hr']; [lia|].
      assert (forall b, read h' (length h, b) = read h1 (length h, b)) as Hn.
      { intros b. rewrite Hr' by (rewrite not_elem_of_app; auto). by apply Hk. }
      assert (Hag1 : agree lo (S (length h)) (hs1 ++ hs2) h1 h').
      { eapply agree_trans; [|done]. apply (agree_of _ _ hs1); [done..|set_solver]. }
      apply fk_alt' with (p1 := start e1) (p2 := start e2).
      * rewrite Hc', Hc2. done.
      * rewrite Hn. done.
      * rewrite Hn. done.
      * apply (b_ok _ _ _ _ _ _ B1); [|set_solver]. eapply agree_sub; [done|lia..|].
        intros f [Hf|Hf]%elem_of_app; [done|]. specialize (D2 f Hf). lia.
      * apply (b_ok _ _ _ _ _ _ B2); [|set_solver]. eapply agree_sub; [done|lia..|].
        intros f [Hf|Hf]%elem_of_app; [|done]. specialize (D1 f Hf). lia.
Qed.

(** [state(Split, e.start, NULL)] followed by [list1(&s->out1)]. *)
Lemma split_spec h p :
  exists h1 h2, state h Split (WState p) WNull = (h1, length h) /\
    list1 h1 (length h, true) = Ret (h2, WField (length h, true)) /\
    length h1 = S (length h) /\ length h2 = S (length h) /\
    agree 0 (length h) [] h h1 /\ agree 0 (length h) [] h h2 /\
    (forall i, code h2 i = code h1 i) /\ (forall f, read h2 f = read h1 f) /\
    code h1 (length h) = Some Split /\ read h1 (length h, false) = Some (WState p) /\
    read h1 (length h, true) = Some WNull.
Proof.
  destruct (state_spec h Split (WState p) WNull) as (h1 & -> & Hl1 & Ha1 & Hc1 & Ho & Ho1).
  destruct (write_spec h1 (length h, true) WNull) as (h2 & Hw & Hl2 & Hc2 & Hr2); [simpl; lia|].
  exists h1, h2. unfold list1. rewrite Hw. simpl.
  assert (forall f, read h2 f = read h1 f) as Hr by (intros f; rewrite Hr2; by case_decide; subst).
  assert (Ha2 : agree 0 (length h) [] h h2).
  { intros i Hi. destruct (Ha1 i Hi) as [A B]. split; [congruence|].
    intros b Hb. rewrite Hr. by apply B. }
  split_and!; try done; congruence.
Qed.

Lemma build_opt h stk rs e r :
  inv_stack h (e :: stk) (r :: rs) -> (length stk < STACK)%nat ->
  exists h' e', post2nfa_char h (e :: stk) QM = Ret (h', e' :: stk) /\
    inv_stack h' (e' :: stk) (ROpt r :: rs).
Proof.
  intros Hs Hlen. unfold post2nfa_char. cbn -[state list1].
  inversion Hs as [|lo hi ? ? hs ? ? Hs0 B P]; subst.
  pose proof (b_range _ _ _ _ _ _ B).
  destruct (split_spec h (start e))
    as (h1 & h2 & -> & Hl & Hl1 & Hl2 & Ha1 & Ha2 & Hc2 & Hr2 & Hc & Ho & Ho1).
  rewrite Hl. simpl.
  apply (grow_builds _ h2) in B; [|done|lia]. apply (grow_plist _ h2) in P; [|done].
  pose proof (b_holes _ _ _ _ _ _ B) as D.
  assert (N : forall b, (length h, b) ∉ hs).
  { intros b Hf. specialize (D _ Hf). simpl in D. lia. }
  destruct (append_spec h2 (fout e) (WField (length h, true)) hs) as (h3 & -> & Hl3 & Hc3 & Hk & Hp);
    [apply B|done|apply B|].
  simpl. rewrite push_ok by done. do 2 eexists. split; [done|].
  unfold inv_stack. rewrite Hl3, Hl2.
  assert (Hns : forall b, read h3 (length h, b) = read h1 (length h, b)).
  { intros b. by rewrite Hk, Hr2. }
  apply stack_cons with (lo := lo) (hs := hs ++ [(length h, true)]).
  - eapply stack_frame; [done| |lia].
    eapply agree_trans; [eapply agree_sub; [exact Ha2|lia..|set_solver]|].
    apply (agree_of _ _ hs); [done..|]. intros f Hf ?. specialize (D f Hf). lia.
  - constructor; simpl.
    + lia.
    + exists (length h). split; [done|lia].
    + intros f [Hf| ->%list_elem_of_singleton]%elem_of_app; [specialize (D f Hf); lia|simpl; lia].
    + apply NoDup_app. split; [apply B|]. split; [|apply NoDup_singleton].
      intros f Hf ->%list_elem_of_singleton. by apply (N true).
    + intros [E _]%app_eq_nil. by apply (b_exit _ _ _ _ _ _ B).
    + intros i b w Hi [Hn1 Hn2]%not_elem_of_app Hw.
      destruct (decide (i = length h)) as [->|].
      * rewrite Hns in Hw. destruct b; [set_solver|]. simplify_eq.
        eapply arrow_start; (done || lia).
      * rewrite Hk in Hw by done. eapply (arrows_frag _ _ _ _ _ _ lo _ i b w B); (done || lia).
    + intros h' q Hag Hq. destruct (Hag (length h)) as [Hc' Hr']; [lia|].
      apply fk_opt' with (p := start e).
      * by rewrite Hc', Hc3, Hc2.
      * rewrite Hr'; [by rewrite Hns|]. rewrite not_elem_of_app, list_elem_of_singleton. naive_solver.
      * apply Hq. set_solver.
      * apply (b_ok _ _ _ _ _ _ B); [|set_solver].
        eapply agree_trans; [by apply (agree_of _ _ hs)|]. eapply agree_sub; [done|lia..|].
        intros f [Hf| ->%list_elem_of_singleton]%elem_of_app; [done|]. simpl. lia.
  - apply Hp; [|intros f Hf ->%list_elem_of_singleton; by apply (N true)].
    simpl. split; [done|]. exists WNull. by rewrite Hr2.
Qed.

(** Star and plus differ in the entry of the result only. *)
Lemma build_loop h stk rs e r (plus : bool) :
  inv_stack h (e :: stk) (r :: rs) -> (length stk < STACK)%nat ->
  exists h' e', post2nfa_char h (e :: stk) (if plus then PLUS else STAR) = Ret (h', e' :: stk) /\
    inv_stack h' (e' :: stk) ((if plus then RPlus r else RStar r) :: rs).
Proof.
  intros Hs Hlen.
  inversion Hs as [|lo hi ? ? hs ? ? Hs0 B P]; subst.
  pose proof (b_range _ _ _ _ _ _ B) as Hrg.
  destruct (state_spec h Split (WState (start e)) WNull) as (h1 & Hst & Hl1 & Ha1 & Hc1 & Ho & Ho1).
  pose proof (grow_builds _ h1 _ _ _ _ _ B Ha1 ltac:(lia)) as B1.
  pose proof (grow_plist _ h1 _ _ P Ha1) as P1.
  pose proof (b_holes _ _ _ _ _ _ B1) as D.
  assert (N : forall b, (length h, b) ∉ hs).
  { intros b Hf. specialize (D _ Hf). simpl in D. lia. }
  destruct (patch_frag _ _ _ _ _ _ (PState (length h)) B1 P1) as (h2 & Hpt & Hl2 & Hc2 & Hr2 & Hk2).
  destruct (write_spec h2 (length h, true) WNull) as (h3 & Hwr & Hl3 & Hc3 & Hr3); [simpl; lia|].
  assert (Hr3' : forall f, f ∉ hs -> read h3 f = read h1 f).
  { intros f Hf. rewrite Hr3. case_decide; [subst; done|]. by apply Hk2. }
  assert (Hr3h : forall f, f ∈ hs -> read h3 f = Some (WState (PState (length h)))).
  { intros f Hf. rewrite Hr3. case_decide; [by subst; destruct (N true)|]. by apply Hr2. }
  exists h3, (frag (if plus then start e else PState (length h)) (WField (length h, true))). split.
  { unfold post2nfa_char, list1.
    destruct plus; cbn -[state]; rewrite Hst, Hpt; simpl; rewrite Hwr; simpl; by rewrite push_ok. }
  unfold inv_stack. rewrite Hl3, Hl2, Hl1.
  apply stack_cons with (lo := lo) (hs := [(length h, true)]).
  - eapply stack_frame; [done| |lia].
    eapply agree_trans; [eapply agree_sub; [exact Ha1|lia..|set_solver]|].
    apply (agree_of _ _ hs); [intros; congruence|done|]. intros f Hf ?. specialize (D f Hf). lia.
  - constructor; simpl.
    + lia.
    + destruct plus; [|exists (length h); split; [done|lia]].
      destruct (b_start _ _ _ _ _ _ B) as (i & -> & Hi). exists i. split; [done|lia].
    + intros f ->%list_elem_of_singleton. simpl. lia.
    + apply NoDup_singleton.
    + done.
    + intros i b w Hi Hn Hw. destruct (decide (i = length h)) as [->|].
      * destruct b; [set_solver|]. rewrite Hr3' in Hw by done. simplify_eq.
        eapply (arrow_start h1); (done || lia).
      * destruct (decide ((i, b) ∈ hs)) as [Hin|Hin].
        -- rewrite Hr3h in Hw by done. simplify_eq. right. exists (length h). split; [done|lia].
        -- rewrite Hr3' in Hw by done.
           eapply (arrows_frag _ _ _ _ _ _ lo _ i b w B1); (done || lia).
    + intros h' q Hag Hq. destruct (Hag (length h)) as [Hc' Hr']; [lia|].
      assert (Hx : code h' (length h) = Some Split) by congruence.
      assert (Hx0 : read h' (length h, false) = Some (WState (start e))).
      { rewrite Hr' by set_solver. by rewrite Hr3'. }
      assert (Hx1 : read h' (length h, true) = Some (WState q)) by (apply Hq; set_solver).
      assert (Hf : frag_ok h' r (start e) (PState (length h))).
      { apply (b_ok _ _ _ _ _ _ B1).
        - eapply agree_trans; [apply (agree_of _ h3 hs); [intros; congruence|done..]|].
          eapply agree_sub; [done|lia..|]. intros f ->%list_elem_of_singleton. simpl. lia.
        - intros [i b] Hin. specialize (D _ Hin). simpl in D. destruct (Hag i) as [_ ->];
            [lia|by apply Hr3h|]. rewrite list_elem_of_singleton. intros [= -> ->]. lia. }
      destruct plus; [by eapply fk_plus'|by eapply fk_star'].
  - simpl. split; [done|]. exists WNull. split; [|done]. rewrite Hr3. by case_decide.
Qed.

(** ** The whole construction *)

(** No literal of the pattern is one of the operators of the postfix form; only
    ['.'] can violate this for a pattern of the grammar. *)
Definition plain (c : Z) : bool :=
  negb ((c =? DOT) || (c =? BAR) || (c =? QM) || (c =? STAR) || (c =? PLUS)).

Fixpoint lits_ok (P : Z -> bool) (r : regex) : bool :=
  match r with
  | RChr c => P c
  | RCat r1 r2 | RAlt r1 r2 => lits_ok P r1 && lits_ok P r2
  | ROpt r | RStar r | RPlus r => lits_ok P r
  end.

(** Operand-stack entries the postfix form of a pattern uses. *)
Fixpoint need (r : regex) : nat :=
  match r with
  | RChr _ => 1
  | RCat r1 r2 | RAlt r1 r2 => Nat.max (need r1) (S (need r2))
  | ROpt r | RStar r | RPlus r => need r
  end.

Lemma post2nfa_loop_app s1 s2 h stk :
  post2nfa_loop h stk (s1 ++ s2) =
  ('(h', stk') ← post2nfa_loop h stk s1; post2nfa_loop h' stk' s2).
Proof.
  revert h stk; induction s1 as [|c s1 IH]; intros h stk; [done|]. simpl.
  destruct (post2nfa_char h stk c) as [[h1 stk1]| |]; simpl; auto.
Qed.

Lemma post2nfa_loop_one h stk c : post2nfa_loop h stk [c] = post2nfa_char h stk c.
Proof. simpl. by destruct (post2nfa_char h stk c) as [[h1 stk1]| |]. Qed.

Lemma plain_inv c : plain c = true ->
  (c =? DOT) = false /\ (c =? BAR) = false /\ (c =? QM) = false /\
  (c =? STAR) = false /\ (c =? PLUS) = false.
Proof. unfold plain. rewrite negb_true_iff, !orb_false_iff. tauto. Qed.

Lemma need_pos r : (1 <= need r)%nat.
Proof. induction r; simpl; lia. Qed.

Lemma build_regex r : lits_ok plain r = true -> forall h stk rs,
  inv_stack h stk rs -> (length stk + need r <= STACK)%nat ->
  exists h' e, post2nfa_loop h stk (postfix r) = Ret (h', e :: stk) /\
    inv_stack h' (e :: stk) (r :: rs).
Proof.
  induction r as [c|r1 IH1 r2 IH2|r1 IH1 r2 IH2|r IH|r IH|r IH];
    cbn [lits_ok need postfix]; intros Hl h stk rs Hs Hn;
    try apply andb_true_iff in Hl as [Hl1 Hl2].
  - apply plain_inv in Hl as (E1 & E2 & E3 & E4 & E5).
    rewrite post2nfa_loop_one. apply build_char; (done || lia).
  - destruct (IH1 Hl1 h stk rs Hs) as (h1 & e1 & He1 & Hs1); [lia|].
    destruct (IH2 Hl2 h1 (e1 :: stk) (r1 :: rs) Hs1) as (h2 & e2 & He2 & Hs2); [simpl; lia|].
    rewrite post2nfa_loop_app, He1. cbn. rewrite post2nfa_loop_app, He2. cbn -[post2nfa_char].
    destruct (build_cat h2 stk rs e2 r2 e1 r1 Hs2) as (h3 & e3 & -> & Hs3);
      [pose proof (need_pos r1); lia|]. eauto.
  - destruct (IH1 Hl1 h stk rs Hs) as (h1 & e1 & He1 & Hs1); [lia|].
    destruct (IH2 Hl2 h1 (e1 :: stk) (r1 :: rs) Hs1) as (h2 & e2 & He2 & Hs2); [simpl; lia|].
    rewrite post2nfa_loop_app, He1. cbn. rewrite post2nfa_loop_app, He2. cbn -[post2nfa_char].
    destruct (build_alt h2 stk rs e2 r2 e1 r1 Hs2) as (h3 & e3 & -> & Hs3);
      [pose proof (need_pos r1); lia|]. eauto.
  - destruct (IH Hl h stk rs Hs) as (h1 & e1 & He1 & Hs1); [lia|].
    rewrite post2nfa_loop_app, He1. cbn -[post2nfa_char].
    destruct (build_opt h1 stk rs e1 r Hs1) as (h3 & e3 & -> & Hs3);
      [pose proof (need_pos r); lia|]. eauto.
  - destruct (IH Hl h stk rs Hs) as (h1 & e1 & He1 & Hs1); [lia|].
    rewrite post2nfa_loop_app, He1. cbn -[post2nfa_char].
    destruct (build_loop h1 stk rs e1 r false Hs1) as (h3 & e3 & -> & Hs3);
      [pose proof (need_pos r); lia|]. eauto.
  - destruct (IH Hl h stk rs Hs) as (h1 & e1 & He1 & Hs1); [lia|].
    rewrite post2nfa_loop_app, He1. cbn -[post2nfa_char].
    destruct (build_loop h1 stk rs e1 r true Hs1) as (h3 & e3 & -> & Hs3);
      [pose proof (need_pos r); lia|]. eauto.
Qed.

Lemma overflow_regex r : lits_ok plain r = true -> forall h stk rs,
  inv_stack h stk rs -> (length stk <= STACK)%nat -> (STACK < length stk + need r)%nat ->
  post2nfa_loop h stk (postfix r) = UB.
Proof.
  assert (Hbin : forall op r1 r2,
    (lits_ok plain r1 = true -> forall h stk rs, inv_stack h stk rs -> (length stk <= STACK)%nat ->
       (STACK < length stk + need r1)%nat -> post2nfa_loop h stk (postfix r1) = UB) ->
    (lits_ok plain r2 = true -> forall h stk rs, inv_stack h stk rs -> (length stk <= STACK)%nat ->
       (STACK < length stk + need r2)%nat -> post2nfa_loop h stk (postfix r2) = UB) ->
    lits_ok plain r1 && lits_ok plain r2 = true -> forall h stk rs,
    inv_stack h stk rs -> (length stk <= STACK)%nat ->
    (STACK < length stk + Nat.max (need r1) (S (need r2)))%nat ->
    post2nfa_loop h stk (postfix r1 ++ postfix r2 ++ [op]) = UB).
  { intros op r1 r2 IH1 IH2 [Hl1 Hl2]%andb_true_iff h stk rs Hs Hle Hn.
    rewrite post2nfa_loop_app. destruct (decide (STACK < length stk + need r1)%nat).
    { by rewrite (IH1 Hl1 h stk rs). }
    destruct (build_regex r1 Hl1 h stk rs Hs) as (h1 & e1 & -> & Hs1); [lia|]. cbn.
    rewrite post2nfa_loop_app. pose proof (need_pos r1).
    rewrite (IH2 Hl2 h1 (e1 :: stk) (r1 :: rs)); [done|done|simpl; lia..]. }
  induction r as [c|r1 IH1 r2 IH2|r1 IH1 r2 IH2|r IH|r IH|r IH];
    cbn [lits_ok need postfix]; intros Hl h stk rs Hs Hle Hn; [|by eapply Hbin..| | |];
    try (rewrite post2nfa_loop_app; by rewrite (IH Hl h stk rs)).
  apply plain_inv in Hl as (E1 & E2 & E3 & E4 & E5). rewrite post2nfa_loop_one.
  unfold post2nfa_char. rewrite E1, E2, E3, E4, E5.
  destruct (state_spec h (schar c) WNull WNull) as (h1 & -> & Hl1 & _).
  unfold list1. destruct (write_spec h1 (length h, false) WNull) as (h2 & -> & _); [simpl; lia|].
  simpl. unfold push. by rewrite (proj2 (Nat.ltb_ge _ _)) by lia.
Qed.

(** Every arrow of a finished automaton is null or leads to an existing state. *)
Definition valid (h : heap) (p : sptr) : Prop :=
  match p with PState i => (i < length h)%nat | PMatch => True end.

Definition heap_ok (h : heap) : Prop := forall i b w, read h (i, b) = Some w ->
  w = WNull \/ exists p, w = WState p /\ valid h p.

Lemma inv_stack_nil : inv_stack [] [] [].
Proof. constructor. Qed.

Lemma post2nfa_builds r :
  lits_ok plain r = true -> (need r <= STACK)%nat ->
  exists h p, post2nfa (postfix r) = Ret (h, Some p) /\ frag_ok h r p PMatch /\
    heap_ok h /\ valid h p.
Proof.
  intros Hl Hn. unfold post2nfa.
  destruct (build_regex r Hl [] [] [] inv_stack_nil) as (h & e & -> & Hs); [done|]. simpl.
  inversion Hs as [|lo hi ? ? hs ? ? Hs0 B P]; subst. inversion Hs0; subst.
  destruct (patch_frag _ _ _ _ _ _ PMatch B P) as (h1 & -> & Hl1 & Hc1 & Hr1 & Hk1). simpl.
  exists h1, (start e). split; [done|]. split; [|split].
  - apply (b_ok _ _ _ _ _ _ B); [|done]. by apply (agree_of _ _ hs).
  - intros i b w Hw. destruct (decide ((i, b) ∈ hs)) as [Hin|Hin].
    + rewrite Hr1 in Hw by done. simplify_eq. right. by exists PMatch.
    + rewrite Hk1 in Hw by done. pose proof (read_Some_lt _ _ _ Hw). simpl in *.
      destruct (b_fields _ _ _ _ _ _ B i b w) as [?|(j & -> & Hj)]; [lia|done|done|by left|].
      right. exists (PState j). split; [done|]. simpl. lia.
  - destruct (b_start _ _ _ _ _ _ B) as (i & -> & Hi). simpl. lia.
Qed.

(** Where the operand stack is left: a pattern that needs more than the
    1000 entries of [stack] makes [post2nfa] write past its end, and the two kinds
    of malformed text that [re2post] accepts, the empty one and a pattern followed
    by a bar, make it pop below its start. *)
Theorem post2nfa_stack_faults r :
  lits_ok plain r = true ->
  ((STACK < need r)%nat -> post2nfa (postfix r) = UB) /\
  ((need r <= STACK)%nat -> post2nfa (postfix r ++ [BAR]) = UB) /\
  post2nfa [] = UB.
Proof.
  intros Hl. split; [|split; [|done]]; intros Hn; unfold post2nfa.
  - rewrite (overflow_regex r Hl [] [] [] inv_stack_nil); simpl; (done || lia).
  - rewrite post2nfa_loop_app.
    destruct (build_regex r Hl [] [] [] inv_stack_nil) as (h & e & -> & Hs); done.
Qed.

(** A pattern of 1001 alternatives: 2001 characters. *)
Fixpoint many_alts (n : nat) : regex :=
  match n with O => RChr 97 | S n => RAlt (RChr 97) (many_alts n) end.

Lemma post2nfa_stack_faults_witness : post2nfa (postfix (many_alts 1000)) = UB.
Proof.
  destruct (post2nfa_stack_faults (many_alts 1000)) as [H _]; [reflexivity|]. apply H.
  apply Nat.ltb_lt. vm_compute. reflexivity.
Defined.

(** ** Words spelled by the automaton *)

(** The language of a pattern. *)
Inductive matches : regex -> list Z -> Prop :=
| m_chr c : matches (RChr c) [c]
| m_cat r1 r2 w1 w2 : matches r1 w1 -> matches r2 w2 -> matches (RCat r1 r2) (w1 ++ w2)
| m_alt_l r1 r2 w : matches r1 w -> matches (RAlt r1 r2) w
| m_alt_r r1 r2 w : matches r2 w -> matches (RAlt r1 r2) w
| m_opt_0 r : matches (ROpt r) []
| m_opt_1 r w : matches r w -> matches (ROpt r) w
| m_star_0 r : matches (RStar r) []
| m_star_1 r w1 w2 : matches r w1 -> matches (RStar r) w2 -> matches (RStar r) (w1 ++ w2)
| m_plus r w1 w2 : matches r w1 -> matches (RStar r) w2 -> matches (RPlus r) (w1 ++ w2).

(** The pattern as the automaton sees it: its characters are read through a
    signed [char]. *)
Fixpoint signed (r : regex) : regex :=
  match r with
  | RChr c => RChr (schar c)
  | RCat r1 r2 => RCat (signed r1) (signed r2)
  | RAlt r1 r2 => RAlt (signed r1) (signed r2)
  | ROpt r => ROpt (signed r)
  | RStar r => RStar (signed r)
  | RPlus r => RPlus (signed r)
  end.

(** Paths of the automaton, with their number of steps. *)
Inductive path (h : heap) : nat -> sptr -> list Z -> sptr -> Prop :=
| path_nil p : path h 0 p [] p
| path_split n i s b p' w q :
    h !! i = Some s -> sc s = Split -> field s b = WState p' ->
    path h n p' w q -> path h (S n) (PState i) w q
| path_char n i s c p' w q :
    h !! i = Some s -> sc s = c -> c <> Split -> out s = WState p' ->
    path h n p' w q -> path h (S n) (PState i) (c :: w) q.

Lemma path_app h n p w1 q : path h n p w1 q -> forall m w2 t, path h m q w2 t ->
  path h (n + m) p (w1 ++ w2) t.
Proof.
  induction 1 as [|n i s b p' w q Hs Hc Hf Hp IH|n i s c p' w q Hs Hc Hn Hf Hp IH];
    intros m w2 t H2; simpl; [done|by eapply path_split; eauto|by eapply path_char; eauto].
Qed.

Lemma schar_not_split c : byte c -> schar c <> Split.
Proof. unfold schar, Split, byte. case_ifs; lia. Qed.

Definition is_byte (c : Z) : bool := (0 <=? c) && (c <? 256).

Lemma is_byte_spec c : is_byte c = true -> byte c.
Proof. unfold is_byte, byte. lia. Qed.

(** An automaton [r] from [p] to [q] spells the words of [r] ... *)
Lemma frag_path h r p q : frag_ok h r p q -> lits_ok is_byte r = true ->
  forall w, matches (signed r) w -> exists n, path h n p w q.
Proof.
  induction 1 as [c i s q Hs Hc Ho|r1 r2 p m q H1 IH1 H2 IH2
    |r1 r2 i s p1 p2 q Hs Hc Ho Ho1 H1 IH1 H2 IH2|r i s p q Hs Hc Ho Ho1 H IH
    |r i s p q Hs Hc Ho Ho1 H IH|r i s p q Hs Hc Ho Ho1 H IH]; simpl; intros Hl w Hm.
  - inv Hm. exists 1%nat. eapply path_char; [done|done| |done|constructor].
    by apply schar_not_split, is_byte_spec.
  - apply andb_true_iff in Hl as [? ?]. inv Hm.
    edestruct IH1 as [n1 P1]; [done..|]. edestruct IH2 as [n2 P2]; [done..|].
    eexists. by eapply path_app.
  - apply andb_true_iff in Hl as [? ?]. inv Hm.
    + edestruct IH1 as [n P]; [done..|]. exists (S n). by eapply (path_split _ _ _ _ false).
    + edestruct IH2 as [n P]; [done..|]. exists (S n). by eapply (path_split _ _ _ _ true).
  - inv Hm.
    + exists 1%nat. eapply (path_split _ _ _ _ true); [done..|constructor].
    + edestruct IH as [n P]; [done..|]. exists (S n). by eapply (path_split _ _ _ _ false).
  - remember (RStar (signed r)) as rs eqn:E. induction Hm; simplify_eq.
    + exists 1%nat. eapply (path_split _ _ _ _ true); [done..|constructor].
    + destruct IHHm2 as [n2 P2]; [done|]. destruct (IH Hl _ Hm1) as [n1 P1].
      eexists. eapply path_app; [|exact P2]. by eapply (path_split _ _ _ _ false).
  - inv Hm. match goal with A : matches (signed r) _ |- _ => destruct (IH Hl _ A) as [n1 P1] end.
    match goal with B : matches (RStar _) _ |- _ => rename B into Hst end.
    assert (exists n, path h n (PState i) w2 q) as [n2 P2].
    { clear P1. remember (RStar (signed r)) as rs eqn:E.
      induction Hst; simplify_eq.
      - exists 1%nat. eapply (path_split _ _ _ _ true); [done..|constructor].
      - destruct IHHst2 as [n2 P2]; [done|]. destruct (IH Hl _ Hst1) as [n1' P1'].
        exists (S (n1' + n2)). eapply (path_split _ _ _ _ false); [done..|].
        by eapply path_app. }
    eexists. by eapply path_app.
Qed.

(** Two readings of one arrow agree. *)
Ltac unify_arrows :=
  repeat match goal with
  | H1 : ?x = WState ?a, H2 : ?x = WState ?b |- _ =>
    rewrite H1 in H2; injection H2 as H2; subst
  end.

(** ... and every path that leaves it has spelled one. *)
Lemma path_frag h r p q : frag_ok h r p q -> forall n w t,
  path h n p w t -> t = PMatch ->
  lits_ok is_byte r = true ->
  exists w1 w2 m, w = w1 ++ w2 /\ (m < n)%nat /\ matches (signed r) w1 /\ path h m q w2 t.
Proof.
  induction 1 as [c i s q Hs Hc Ho|r1 r2 p m q H1 IH1 H2 IH2
    |r1 r2 i s p1 p2 q Hs Hc Ho Ho1 H1 IH1 H2 IH2|r i s p q Hs Hc Ho Ho1 H IH
    |r i s p q Hs Hc Ho Ho1 H IH|r i s p q Hs Hc Ho Ho1 H IH];
    simpl; intros n w t Hp Ht Hl.
  - assert (Hns : schar c <> Split) by by apply schar_not_split, is_byte_spec.
    inv Hp; simplify_eq; [congruence|].
    exists [schar c], w0, n0. rewrite Hc. split_and!; [done|lia|apply m_chr|congruence].
  - apply andb_true_iff in Hl as [Hl1 Hl2].
    destruct (IH1 n w t Hp Ht Hl1) as (w1 & w' & m1 & -> & Hm1 & Hw1 & P1).
    destruct (IH2 m1 w' t P1 Ht Hl2) as (w2 & w'' & m2 & -> & Hm2 & Hw2 & P2).
    exists (w1 ++ w2), w'', m2. split_and!; [by rewrite <-app_assoc|lia|by constructor|done].
  - apply andb_true_iff in Hl as [Hl1 Hl2]. inv Hp; simplify_eq.
    destruct b; simpl in *; unify_arrows.
    + destruct (IH2 _ _ _ ltac:(eassumption) eq_refl Hl2) as (w1 & w2 & m & -> & Hm & Hw & P).
      exists w1, w2, m. split_and!; [done|lia|by apply m_alt_r|done].
    + destruct (IH1 _ _ _ ltac:(eassumption) eq_refl Hl1) as (w1 & w2 & m & -> & Hm & Hw & P).
      exists w1, w2, m. split_and!; [done|lia|by apply m_alt_l|done].
  - inv Hp; simplify_eq. destruct b; simpl in *; unify_arrows.
    + eexists [], w, _. split_and!; [done| |apply m_opt_0|done]. lia.
    + destruct (IH _ _ _ ltac:(eassumption) eq_refl Hl) as (w1 & w2 & m & -> & Hm & Hw & P).
      exists w1, w2, m. split_and!; [done|lia|by apply m_opt_1|done].
  - revert w Hp. induction n as [n IHn] using lt_wf_ind; intros w Hp.
    inv Hp; simplify_eq. destruct b; simpl in *; unify_arrows.
    + eexists [], w, _. split_and!; [done| |apply m_star_0|done]. lia.
    + destruct (IH _ _ _ ltac:(eassumption) eq_refl Hl) as (w1 & w2 & m & -> & Hm & Hw & P).
      destruct (IHn m ltac:(lia) _ P) as (w3 & w4 & m' & -> & Hm' & Hw' & P').
      exists (w1 ++ w3), w4, m'. split_and!; [by rewrite <-app_assoc|lia|by constructor|done].
  - subst t. destruct (IH _ _ _ Hp eq_refl Hl) as (w1 & w2 & m & -> & Hm & Hw & P).
    assert (exists w3 w4 m', w2 = w3 ++ w4 /\ (m' < m)%nat /\ matches (RStar (signed r)) w3 /\
              path h m' q w4 PMatch) as (w3 & w4 & m' & -> & Hm' & Hw' & P').
    { clear Hm Hw Hp. revert w2 P. induction m as [m IHm] using lt_wf_ind; intros w2 P.
      inv P; simplify_eq. destruct b; simpl in *; unify_arrows.
      - eexists [], w2, _. split_and!; [done| |apply m_star_0|done]. lia.
      - destruct (IH _ _ _ ltac:(eassumption) eq_refl Hl) as (w3 & w4 & m3 & -> & Hm3 & Hw3 & P3).
        destruct (IHm m3 ltac:(lia) _ P3) as (w5 & w6 & m' & -> & Hm' & Hw' & P').
        exists (w3 ++ w5), w6, m'. split_and!; [by rewrite <-app_assoc|lia|by constructor|done]. }
    exists (w1 ++ w3), w4, m'. split_and!; [by rewrite <-app_assoc|lia|by econstructor|done].
Qed.

Lemma accepts_iff h r p : frag_ok h r p PMatch -> lits_ok is_byte r = true ->
  forall w, (exists n, path h n p w PMatch) <-> matches (signed r) w.
Proof.
  intros Hf Hl w. split; [intros [n P]|by eapply frag_path].
  destruct (path_frag _ _ _ _ Hf n w PMatch P eq_refl Hl) as (w1 & w2 & m & -> & _ & Hw & P2).
  inv P2. by rewrite app_nil_r.
Qed.

(** A character [post2nfa] takes for itself: a byte that is no operator. *)
Definition operand (c : Z) : bool := is_byte c && plain c.

Lemma lits_weaken (P Q : Z -> bool) r : (forall c, P c = true -> Q c = true) ->
  lits_ok P r = true -> lits_ok Q r = true.
Proof. intros H. induction r; simpl; rewrite ?andb_true_iff; naive_solver. Qed.

Lemma operand_byte r : lits_ok operand r = true -> lits_ok is_byte r = true.
Proof. apply lits_weaken. intros c [? _]%andb_true_iff. done. Qed.

Lemma operand_plain r : lits_ok operand r = true -> lits_ok plain r = true.
Proof. apply lits_weaken. intros c [_ ?]%andb_true_iff. done. Qed.

(** C2. Thompson's construction is correct: on the postfix form of a pattern
    that fits the operand stack, [post2nfa] terminates without leaving its arrays
    or misreading a Ptrlist, every arrow it leaves is null or leads to an existing
    state, and the words spelled by the paths from the state it returns to
    [matchstate] are exactly the words of the pattern (its characters read through
    a signed [char]). *)
Theorem post2nfa_correct r :
  lits_ok operand r = true -> (need r <= STACK)%nat ->
  exists h p, post2nfa (postfix r) = Ret (h, Some p) /\ heap_ok h /\ valid h p /\
    forall w, (exists n, path h n p w PMatch) <-> matches (signed r) w.
Proof.
  intros Hl Hn. destruct (post2nfa_builds r (operand_plain r Hl) Hn) as (h & p & E & Hf & Hok & Hv).
  exists h, p. split_and!; try done. apply accepts_iff; [done|by apply operand_byte].
Qed.

Lemma post2nfa_correct_witness :
  exists h p, post2nfa (postfix (RStar (RChr 97))) = Ret (h, Some p) /\ heap_ok h /\ valid h p /\
    forall w, (exists n, path h n p w PMatch) <-> matches (signed (RStar (RChr 97))) w.
Proof. apply (post2nfa_correct (RStar (RChr 97))); [reflexivity|vm_compute; lia]. Defined.
