(* ===== verification/NfaSim.v ===== *)
(** Component: the simulation of the automaton of src/c-study/dfa-about: the
    state lists [List] with the marks [lastlist]/[listid] that keep them free of
    duplicates, [startlist], [addstate], [step], [ismatch], and [match] and
    [main] of nfa.c.  The theorems show that the recursion of [addstate] ends,
    that a list never outgrows its allocation, and that nfa.c prints exactly the
    arguments in the language of its pattern. *)
From S2P Require Import Prelude RePost Nfa.

(** ** State *)

(** The State objects, the mark of the static [matchstate], and [listid]. *)
Record mem := Mem { sts : heap; match_last : Z; listid : Z }.

(** After [post2nfa]: all marks and [listid] are zero. *)
Definition mem0 (h : heap) : mem := Mem h 0 0.

(** [*p]. *)
Definition deref (m : mem) (p : sptr) : option State :=
  match p with
  | PState i => sts m !! i
  | PMatch => Some (MkState Match WNull WNull (match_last m))
  end.

Definition with_last (s : State) (v : Z) : State := MkState (sc s) (out s) (out1 s) v.

(** [p->lastlist = v]. *)
Definition set_last (m : mem) (p : sptr) (v : Z) : mem :=
  match p with
  | PState i => Mem (alter (fun s => with_last s v) i (sts m)) (match_last m) (listid m)
  | PMatch => Mem (sts m) v (listid m)
  end.

(** [listid++]. *)
Definition next_list (m : mem) : mem := Mem (sts m) (match_last m) (listid m + 1).

(** ** Operations *)

(** [l->s[l->n++] = p]: the list is the array [l->s] up to [l->n], [cap] the
    number of entries allocated for it. *)
Definition put (cap : nat) (l : list sptr) (p : sptr) : res (list sptr) :=
  if (length l <? cap)%nat then Ret (l ++ [p]) else UB.

(** [addstate(l, s)]. *)
Fixpoint addstate (cap fuel : nat) (m : mem) (l : list sptr) (s : word)
    : res (mem * list sptr) :=
  match s with
  | WNull => Ret (m, l)
  | WField _ => UB
  | WState p =>
    st ← oget (deref m p);
    if lastlist st =? listid m then Ret (m, l)
    else match fuel with
    | O => Fuel
    | S n =>
      let m := set_last m p (listid m) in
      if sc st =? Split then
        '(m, l) ← addstate cap n m l (out st);
        addstate cap n m l (out1 st)
      else l ← put cap l p; Ret (m, l)
    end
  end.

(** [main] allocates [nstate] entries for each list. *)
Definition nstate (m : mem) : nat := length (sts m).

(** A call marks at least one of the [nstate] states or [matchstate]. *)
Definition add_fuel (m : mem) : nat := S (length (sts m)).

Definition startlist (m : mem) (start : sptr) : res (mem * list sptr) :=
  let m := next_list m in addstate (nstate m) (add_fuel m) m [] (WState start).

(** [ismatch(l)]. *)
Fixpoint ismatch (l : list sptr) : bool :=
  match l with
  | [] => false
  | PMatch :: _ => true
  | PState _ :: l' => ismatch l'
  end.

(** The loop of [step]. *)
Fixpoint step_loop (cap : nat) (m : mem) (clist : list sptr) (c : Z) (nlist : list sptr)
    : res (mem * list sptr) :=
  match clist with
  | [] => Ret (m, nlist)
  | p :: ps =>
    s ← oget (deref m p);
    '(m, nlist) ← (if sc s =? c then addstate cap (add_fuel m) m nlist (out s) else Ret (m, nlist));
    step_loop cap m ps c nlist
  end.

Definition step (m : mem) (clist : list sptr) (c : Z) : res (mem * list sptr) :=
  step_loop (nstate m) (next_list m) clist c [].

(** [match] of nfa.c; a subject is the list of its bytes. *)
Fixpoint match_loop (m : mem) (clist : list sptr) (s : list Z) : res (mem * bool) :=
  match s with
  | [] => Ret (m, ismatch clist)
  | b :: s' =>
    let c := Z.land b 255 in
    '(m, nlist) ← step m clist c;
    match_loop m nlist s'
  end.

Definition nfa_match (m : mem) (start : sptr) (s : list Z) : res (mem * bool) :=
  '(m, clist) ← startlist m start;
  match_loop m clist s.

(** The loop of [main]: the subjects that are printed. *)
Fixpoint print_matches (m : mem) (start : sptr) (args : list (list Z)) : res (list (list Z)) :=
  match args with
  | [] => Ret []
  | a :: args' =>
    '(m, b) ← nfa_match m start a;
    outs ← print_matches m start args';
    Ret (if (b : bool) then a :: outs else outs)
  end.

(** [main]: the exit status and the lines printed; [args] is [argv] without the
    program name. *)
Definition nfa_main (args : list (list Z)) : res (Z * list (list Z)) :=
  match args with
  | re :: subject :: subjects =>
    match re2post re with
    | None => Ret (1, [])
    | Some post =>
      '(h, st) ← post2nfa post;
      match st with
      | None => Ret (1, [])
      | Some start =>
        outs ← print_matches (mem0 h) start (subject :: subjects); Ret (0, outs)
      end
    end
  | _ => Ret (1, [])
  end.

(** ** Marks and the static part of the states *)

#[global] Arguments add_fuel : simpl never.
#[global] Arguments set_last : simpl never.
#[global] Arguments deref : simpl never.

Definition strip (s : State) : State := with_last s 0.

Definition same_static (h : heap) (m : mem) : Prop := map strip (sts m) = map strip h.

Definition marked (m : mem) (p : sptr) : Prop :=
  exists s, deref m p = Some s /\ lastlist s = listid m.

#[export] Instance marked_dec m p : Decision (marked m p).
Proof.
  unfold marked. destruct (deref m p) as [s|] eqn:E.
  - destruct (decide (lastlist s = listid m)); [left; eauto|right; naive_solver].
  - right. naive_solver.
Defined.

(** States that [addstate] can still mark. *)
Definition unmarked (m : mem) : nat :=
  (length (filter (fun s => lastlist s <> listid m) (sts m)) +
   (if decide (match_last m = listid m) then 0 else 1))%nat.

Lemma unmarked_bound m : (unmarked m <= add_fuel m)%nat.
Proof.
  unfold unmarked, add_fuel.
  pose proof (length_filter (fun s => lastlist s <> listid m) (sts m)). case_decide; lia.
Qed.

Lemma same_static_lookup h m i s : same_static h m -> sts m !! i = Some s ->
  exists s0, h !! i = Some s0 /\ sc s = sc s0 /\ out s = out s0 /\ out1 s = out1 s0.
Proof.
  intros Hs Hi. assert (map strip h !! i = Some (strip s)) as H.
  { rewrite <-Hs. change (map strip) with (fmap (M:=list) strip). by rewrite list_lookup_fmap, Hi. }
  change (map strip) with (fmap (M:=list) strip) in H.
  rewrite list_lookup_fmap in H. destruct (h !! i) as [s0|]; [|done]. simpl in H.
  exists s0. destruct s, s0. unfold strip, with_last in H. simpl in *. naive_solver.
Qed.

Lemma same_static_length h m : same_static h m -> length (sts m) = length h.
Proof. intros H. rewrite <-(length_map strip (sts m)), H. apply length_map. Qed.

Lemma set_last_static h m p v : same_static h m -> same_static h (set_last m p v).
Proof.
  unfold same_static, set_last. destruct p as [i|]; [|done]. simpl. intros <-.
  change (map strip) with (fmap (M:=list) strip).
  apply list_eq. intros j. rewrite !list_lookup_fmap.
  destruct (decide (i = j)) as [->|Hn].
  - rewrite list_lookup_alter_eq. by destruct (sts m !! j).
  - by rewrite list_lookup_alter_ne.
Qed.

Lemma deref_set_last m p q v :
  deref (set_last m p v) q =
  if decide (q = p) then (fun s => with_last s v) <$> deref m q else deref m q.
Proof.
  unfold deref, set_last. destruct p as [i|], q as [j|]; simpl; [|try (by case_decide); done..].
  rewrite list_lookup_alter. repeat case_decide; simplify_eq; done.
Qed.

Lemma listid_set_last m p v : listid (set_last m p v) = listid m.
Proof. by destruct p. Qed.

Lemma marked_set_last m p s q : deref m p = Some s ->
  marked (set_last m p (listid m)) q <-> q = p \/ marked m q.
Proof.
  intros Hp. unfold marked. rewrite listid_set_last, deref_set_last.
  destruct (decide (q = p)) as [->|Hn].
  - rewrite Hp. simpl. split; [by left|]. intros _. by exists (with_last s (listid m)).
  - split; [by right|]. by intros [?|?].
Qed.

Lemma filter_alter_lt (l : heap) (n : Z) i s :
  l !! i = Some s -> lastlist s <> n ->
  length (filter (fun s => lastlist s <> n) l) =
  S (length (filter (fun s => lastlist s <> n) (alter (fun s => with_last s n) i l))).
Proof.
  revert i; induction l as [|a l IH]; intros [|i] Hi Hs; simpl in *; try done.
  - simplify_eq. rewrite (filter_cons_True _ s) by done. by rewrite filter_cons_False by auto.
  - rewrite !filter_cons. case_decide; simpl; rewrite (IH i); done.
Qed.

Lemma unmarked_set_last m p s : deref m p = Some s -> lastlist s <> listid m ->
  unmarked m = S (unmarked (set_last m p (listid m))).
Proof.
  unfold unmarked, deref, set_last. destruct p as [i|]; simpl; intros Hp Hs.
  - rewrite (filter_alter_lt _ _ _ _ Hp Hs). lia.
  - simplify_eq/=. case_decide; [done|]. rewrite decide_True by done. lia.
Qed.

(** ** Epsilon steps *)

(** Unlabelled arrows leave the states whose code is [Split]. *)
Definition eps (h : heap) (p q : sptr) : Prop :=
  exists i s b, p = PState i /\ h !! i = Some s /\ sc s = Split /\ field s b = WState q.

Definition leaf (h : heap) (p : sptr) : Prop :=
  match p with PMatch => True | PState i => exists s, h !! i = Some s /\ sc s <> Split end.

Lemma eps_path h p q n w t : eps h p q -> path h n q w t -> path h (S n) p w t.
Proof. intros (i & s & b & -> & Hi & Hs & Hf) Hp. by eapply path_split. Qed.

(** No mark is newer than the current list. *)
Definition fresh (m : mem) : Prop := forall p s, deref m p = Some s -> lastlist s <= listid m.

Lemma set_last_fresh m p : fresh m -> fresh (set_last m p (listid m)).
Proof.
  intros Hf q s. rewrite deref_set_last, listid_set_last. case_decide; [|by apply Hf].
  destruct (deref m q) as [s0|]; simpl; [|done]. intros [= <-]. simpl. lia.
Qed.

(** The state a word points to. *)
Definition root (w : word) (p : sptr) : Prop := w = WState p.

(** What calls of [addstate] on the states [R] that took [m], [l] to [m'], [l']
    have done. *)
Record added (h : heap) (R : sptr -> Prop) (m : mem) (l : list sptr) (m' : mem) (l' : list sptr)
    : Prop := {
  ad_static : same_static h m';
  ad_id : listid m' = listid m;
  ad_fresh : fresh m -> fresh m';
  ad_mono : forall p, marked m p -> marked m' p;
  ad_count : (unmarked m' + length l' <= unmarked m + length l)%nat;
  ad_root : forall p, R p -> marked m' p;
  ad_reach : forall p, marked m' p -> marked m p \/ exists r n, R r /\ path h n r [] p;
  ad_closed : forall p q, marked m' p -> ~ marked m p -> eps h p q -> marked m' q;
  ad_list : exists new, l' = l ++ new /\ NoDup new /\
    forall p, p ∈ new <-> marked m' p /\ ~ marked m p /\ leaf h p
}.
#[global] Arguments ad_static {h R m l m' l'}.
#[global] Arguments ad_id {h R m l m' l'}.
#[global] Arguments ad_fresh {h R m l m' l'}.
#[global] Arguments ad_mono {h R m l m' l'}.
#[global] Arguments ad_count {h R m l m' l'}.
#[global] Arguments ad_root {h R m l m' l'}.
#[global] Arguments ad_reach {h R m l m' l'}.
#[global] Arguments ad_closed {h R m l m' l'}.
#[global] Arguments ad_list {h R m l m' l'}.

Lemma ad_fuel {h R m l m' l'} : added h R m l m' l' -> (unmarked m' <= unmarked m)%nat.
Proof.
  intros A. pose proof (ad_count A). destruct (ad_list A) as (new & -> & _).
  rewrite length_app in *. lia.
Qed.

Lemma added_same h (R : sptr -> Prop) m l :
  same_static h m -> (forall p, R p -> marked m p) -> added h R m l m l.
Proof.
  intros Hs Hw. constructor; try done; [by left|].
  exists []. rewrite app_nil_r. split; [done|]. split; [constructor|]. set_solver.
Qed.

Lemma added_trans h R1 R2 m l m1 l1 m2 l2 :
  added h R1 m l m1 l1 -> added h R2 m1 l1 m2 l2 ->
  added h (fun p => R1 p \/ R2 p) m l m2 l2.
Proof.
  intros A1 A2. constructor.
  - apply A2.
  - by rewrite (ad_id A2), (ad_id A1).
  - intros Hf. by apply (ad_fresh A2), (ad_fresh A1).
  - intros q Hq. by apply (ad_mono A2), (ad_mono A1).
  - pose proof (ad_count A1). pose proof (ad_count A2). lia.
  - intros q [Hq|Hq]; [by apply (ad_mono A2), (ad_root A1)|by apply (ad_root A2)].
  - intros q Hq. destruct (ad_reach A2 q Hq) as [Hq1|(r & n & Hr & P)]; [|by eauto 6].
    destruct (ad_reach A1 q Hq1) as [?|(r & n & Hr & P)]; [by left|by eauto 6].
  - intros q q' Hq Hn He. destruct (decide (marked m1 q)); [|by eapply (ad_closed A2)].
    apply (ad_mono A2). by eapply (ad_closed A1).
  - destruct (ad_list A1) as (n1 & -> & Hd1 & Hin1).
    destruct (ad_list A2) as (n2 & -> & Hd2 & Hin2).
    exists (n1 ++ n2). split; [by rewrite app_assoc|]. split.
    + apply NoDup_app. split; [done|]. split; [|done]. intros q. rewrite Hin1, Hin2. tauto.
    + intros q. rewrite elem_of_app, Hin1, Hin2. pose proof (ad_mono A2 q).
      pose proof (ad_mono A1 q). destruct (decide (marked m1 q)); tauto.
Qed.

Lemma heap_ok_lookup h i s b : heap_ok h -> h !! i = Some s ->
  field s b = WNull \/ exists p, field s b = WState p /\ valid h p.
Proof. intros Hok Hi. apply (Hok i b). apply read_lookup. eauto. Qed.

Lemma deref_valid h m p : same_static h m -> valid h p -> exists s, deref m p = Some s.
Proof.
  intros Hs%same_static_length. destruct p as [i|]; simpl; intros Hv; [|by eexists].
  apply lookup_lt_is_Some. lia.
Qed.

(** Marking an unmarked leaf. *)
Lemma added_leaf h m l p s :
  same_static h m -> deref m p = Some s -> lastlist s <> listid m -> leaf h p ->
  added h (root (WState p)) m l (set_last m p (listid m)) (l ++ [p]).
Proof.
  intros Hst Hp Hl Hlf. pose proof (marked_set_last m p s) as Hm.
  assert (Hnm : ~ marked m p) by (intros (s' & ? & ?); simplify_eq).
  constructor.
  - by apply set_last_static.
  - apply listid_set_last.
  - apply set_last_fresh.
  - intros q Hq. apply Hm; auto.
  - rewrite (unmarked_set_last m p s), length_app by done. simpl. lia.
  - intros q [= <-]. apply Hm; auto.
  - intros q [->|Hq]%Hm; [right|by left|done]. exists p, 0%nat. split; [done|constructor].
  - intros q q' [->|Hq]%Hm Hn He; [|done..]. destruct He as (i & s' & b & -> & Hi & Hs & _).
    destruct Hlf as (s'' & ? & ?). simplify_eq.
  - exists [p]. split; [done|]. split; [apply NoDup_singleton|].
    intros q. rewrite list_elem_of_singleton, Hm by done. naive_solver.
Qed.

(** Marking an unmarked [Split] state, its two arrows followed afterwards. *)
Lemma added_split h m l i s m2 l2 :
  same_static h m -> sts m !! i = Some s -> lastlist s <> listid m -> sc s = Split ->
  added h (fun p => root (out s) p \/ root (out1 s) p)
    (set_last m (PState i) (listid m)) l m2 l2 ->
  added h (root (WState (PState i))) m l m2 l2.
Proof.
  intros Hst Hp Hl Hsp A.
  assert (Hm : forall q, marked (set_last m (PState i) (listid m)) q <-> q = PState i \/ marked m q)
    by (intros q; by apply (marked_set_last m (PState i) s)).
  destruct (same_static_lookup _ _ _ _ Hst Hp) as (s0 & Hi0 & E0 & E1 & E2).
  assert (Hnl : ~ leaf h (PState i)) by (intros (s1 & ? & ?); simplify_eq; congruence).
  constructor.
  - apply A.
  - by rewrite (ad_id A), listid_set_last.
  - intros Hf. by apply (ad_fresh A), set_last_fresh.
  - intros q Hq. apply (ad_mono A), Hm; auto.
  - pose proof (ad_count A). rewrite (unmarked_set_last m (PState i) s) by done. lia.
  - intros q [= <-]. apply (ad_mono A), Hm; auto.
  - intros q Hq. destruct (ad_reach A q Hq) as [[->|?]%Hm|(r & n & Hr & P)]; [|by left|].
    + right. exists (PState i), 0%nat. split; [done|constructor].
    + right. exists (PState i), (S n). split; [done|]. eapply eps_path; [|done].
      unfold root in Hr. destruct Hr as [Hr|Hr]; [exists i, s0, false|exists i, s0, true];
        (split_and!; [done|done|congruence|simpl; congruence]).
  - intros q q' Hq Hn Heps. destruct (decide (q = PState i)) as [->|Hne].
    + destruct Heps as (j & s1 & b & [= <-] & Hj & Hs1 & Hf). simplify_eq. apply (ad_root A).
      unfold root. destruct b; simpl in Hf; [right|left]; congruence.
    + eapply (ad_closed A); [done| |done]. rewrite Hm. naive_solver.
  - destruct (ad_list A) as (nl & -> & Hd & Hin). exists nl. split; [done|]. split; [done|].
    intros q. rewrite Hin, Hm. naive_solver.
Qed.

Definition word_ok (h : heap) (w : word) : Prop :=
  w = WNull \/ exists p, w = WState p /\ valid h p.

(** [addstate] ends within [add_fuel], never leaves the heap or a list with room
    for the unmarked states, and does what [added] says. *)
Lemma addstate_spec h cap : heap_ok h -> forall fuel m l w,
  same_static h m -> word_ok h w -> (unmarked m <= fuel)%nat ->
  (unmarked m + length l <= cap)%nat ->
  exists m' l', addstate cap fuel m l w = Ret (m', l') /\ added h (root w) m l m' l'.
Proof.
  intros Hok fuel. induction fuel as [|n IH]; intros m l w Hst [->|(p & -> & Hv)] Hu Hcap;
    [by exists m, l; split; [|apply added_same]| |by exists m, l; split; [|apply added_same]|];
    destruct (deref_valid h m p Hst Hv) as [s Hp]; simpl; rewrite Hp; simpl;
    destruct (Z.eqb_spec (lastlist s) (listid m)) as [Hl|Hl].
  1, 3: exists m, l; split; [done|]; apply added_same; [done|]; intros q [= <-]; by exists s.
  { pose proof (unmarked_set_last m p s Hp Hl). lia. }
  pose proof (unmarked_set_last m p s Hp Hl) as Hcount.
  destruct (Z.eqb_spec (sc s) Split) as [Hsp|Hsp].
  - destruct p as [i|]; [|unfold deref in Hp; by simplify_eq].
    destruct (same_static_lookup _ _ _ _ Hst Hp) as (s0 & Hi0 & E0 & E1 & E2).
    destruct (IH (set_last m (PState i) (listid m)) l (out s)) as (m1 & l1 & -> & A1).
    { by apply set_last_static. } { rewrite E1. by apply (heap_ok_lookup h i s0 false). } { lia. } { lia. }
    simpl. destruct (IH m1 l1 (out1 s)) as (m2 & l2 & -> & A2).
    { apply A1. } { rewrite E2. by apply (heap_ok_lookup h i s0 true). }
    { pose proof (ad_fuel A1). lia. } { pose proof (ad_count A1). lia. }
    exists m2, l2. split; [done|]. eapply added_split; [done..|]. by eapply added_trans.
  - unfold put. rewrite (proj2 (Nat.ltb_lt _ _)) by lia.
    eexists _, _. split; [done|]. apply (added_leaf _ _ _ _ s); try done.
    destruct p as [i|]; simpl; [|done].
    destruct (same_static_lookup _ _ _ _ Hst Hp) as (s0 & Hi0 & E0 & _).
    exists s0. split; [done|congruence].
Qed.

(** ** State lists as sets of reachable states *)

(** [l] lists, once each, the leaves the automaton can be in after [w]. *)
Definition state_list (h : heap) (st : sptr) (w : list Z) (l : list sptr) : Prop :=
  NoDup l /\ forall q, q ∈ l <-> leaf h q /\ exists n, path h n st w q.

Definition mem_ok (h : heap) (m : mem) : Prop := same_static h m /\ fresh m.

Lemma next_list_ok h m : mem_ok h m -> mem_ok h (next_list m) /\ forall p, ~ marked (next_list m) p.
Proof.
  intros [Hs Hf]. assert (Hd : forall p, deref (next_list m) p = deref m p) by by intros [].
  split; [split; [done|]|].
  - intros p s. rewrite Hd. intros Hp. specialize (Hf p s Hp). simpl. lia.
  - intros p (s & Hp & Hl). rewrite Hd in Hp. specialize (Hf p s Hp). simpl in Hl. lia.
Qed.

(** From a memory without marks, the list is the closure of the roots. *)
Lemma added_closure h R m m' l' : (forall p, ~ marked m p) -> added h R m [] m' l' ->
  NoDup l' /\ forall q, q ∈ l' <-> leaf h q /\ exists r n, R r /\ path h n r [] q.
Proof.
  intros Hn A. destruct (ad_list A) as (new & -> & Hd & Hin). simpl. split; [done|].
  intros q. rewrite Hin. split.
  - intros (Hq & _ & Hlf). split; [done|]. by destruct (ad_reach A q Hq) as [?%Hn|?].
  - intros (Hlf & r & n & Hr & P). split_and!; [|apply Hn|done].
    assert (Hmr : marked m' r) by by apply (ad_root A).
    clear -P Hmr A Hn. remember (@nil Z) as w eqn:Ew. induction P as [|n i s b p' w q Hi Hs Hf P IH|]; [done| |done].
    specialize (IH Ew). apply IH. eapply (ad_closed A); [exact Hmr|apply Hn|]. by exists i, s, b.
Qed.

(** Less room is enough when the result fits. *)
Lemma addstate_cap cap cap' : forall fuel m l w m' l', addstate cap fuel m l w = Ret (m', l') ->
  (length l <= length l')%nat /\ ((length l' <= cap')%nat -> addstate cap' fuel m l w = Ret (m', l')).
Proof.
  intros fuel. induction fuel as [|n IH]; intros m l w m' l'; destruct w as [|p|]; simpl;
    try (by intros [= <- <-]); try done;
    (destruct (deref m p) as [s|]; simpl; [|done]); destruct (_ =? _); try (by intros [= <- <-]);
    try done.
  destruct (sc s =? Split).
  - intros ([m1 l1] & E1 & E2)%res_bind_Ret. apply IH in E1 as [H1 E1]. apply IH in E2 as [H2 E2].
    split; [lia|]. intros Hc. rewrite E1 by lia. simpl. apply E2, Hc.
  - unfold put. destruct (length l <? cap)%nat; simpl; [|done]. intros [= <- <-].
    rewrite length_app. simpl. split; [lia|]. intros Hc. by rewrite (proj2 (Nat.ltb_lt _ _)) by lia.
Qed.

(** ** One step of the simulation *)

#[global] Arguments addstate : simpl never.

Lemma added_ext h (R R' : sptr -> Prop) m l m' l' :
  (forall p, R p <-> R' p) -> added h R m l m' l' -> added h R' m l m' l'.
Proof.
  intros HR A. constructor; try apply A.
  - intros p Hp. apply (ad_root A). by apply HR.
  - intros p Hp. destruct (ad_reach A p Hp) as [?|(r & n & Hr & P)]; [by left|].
    right. exists r, n. split; [by apply HR|done].
Qed.

(** The states that the arrows labelled [c] of the list lead to. *)
Definition arrows (h : heap) (c : Z) (l : list sptr) (q : sptr) : Prop :=
  exists i s, PState i ∈ l /\ h !! i = Some s /\ sc s = c /\ out s = WState q.

Lemma arrows_cons h c p l q :
  arrows h c (p :: l) q <-> arrows h c [p] q \/ arrows h c l q.
Proof. unfold arrows. split; [set_solver|]. intros [(i & s & Hi & ?)|(i & s & Hi & ?)]; set_solver. Qed.

Lemma step_loop_spec h cap c : heap_ok h -> c < 256 -> forall l m nl,
  same_static h m -> (forall p, p ∈ l -> valid h p) -> (unmarked m + length nl <= cap)%nat ->
  exists m' l', step_loop cap m l c nl = Ret (m', l') /\ added h (arrows h c l) m nl m' l'.
Proof.
  intros Hok Hc l. induction l as [|p l IH]; intros m nl Hs Hv Hcap; simpl.
  { exists m, nl. split; [done|]. apply added_same; [done|]. intros q (i & s & ? & _). set_solver. }
  destruct (deref_valid h m p Hs) as [s Hp]; [apply Hv; set_solver|]. rewrite Hp. simpl.
  assert (exists m1 l1, (if sc s =? c then addstate cap (add_fuel m) m nl (out s) else Ret (m, nl)) =
    Ret (m1, l1) /\ added h (arrows h c [p]) m nl m1 l1) as (m1 & l1 & -> & A1).
  { destruct p as [i|].
    - destruct (same_static_lookup _ _ _ _ Hs Hp) as (s0 & Hi0 & E0 & E1 & _).
      destruct (Z.eqb_spec (sc s) c) as [E|E].
      + destruct (addstate_spec h cap Hok (add_fuel m) m nl (out s)) as (m1 & l1 & -> & A);
          [done|rewrite E1; by apply (heap_ok_lookup h i s0 false)|apply unmarked_bound|done|].
        eexists _, _. split; [done|]. eapply added_ext; [|done]. intros q. unfold root, arrows.
        split; [intros Hq; exists i, s0; split_and!; [set_solver|congruence..]|].
        intros (j & s' & [= ->]%list_elem_of_singleton & ? & ? & ?). congruence.
      + eexists _, _. split; [done|]. apply added_same; [done|].
        intros q (j & s' & [= ->]%list_elem_of_singleton & ? & ? & ?). congruence.
    - unfold deref in Hp. simplify_eq. cbn [sc].
      rewrite (proj2 (Z.eqb_neq _ _)) by (unfold Match; lia).
      eexists _, _. split; [done|]. apply added_same; [done|].
      intros q (j & s' & ?%list_elem_of_singleton & _). done. }
  simpl. destruct (IH m1 l1) as (m2 & l2 & -> & A2); [apply A1|set_solver|pose proof (ad_count A1); lia|].
  exists m2, l2. split; [done|]. eapply added_ext; [|by eapply added_trans].
  intros q. symmetry. apply arrows_cons.
Qed.

(** A path that ends with the label [c] crosses an arrow labelled [c] last. *)
Lemma path_snoc h n p w c q : path h n p (w ++ [c]) q -> exists i s q0 n1 n2,
  path h n1 p w (PState i) /\ h !! i = Some s /\ sc s = c /\ c <> Split /\
  out s = WState q0 /\ path h n2 q0 [] q.
Proof.
  intros P. remember (w ++ [c]) as u eqn:Eu. revert w Eu.
  induction P as [|n i s b p' u q Hs Hc Hf P IH|n i s c' p' u q Hs Hc Hn Hf P IH]; intros w Eu.
  - by destruct w.
  - destruct (IH w Eu) as (j & s' & q0 & n1 & n2 & P1 & ?).
    exists j, s', q0, (S n1), n2. split; [by eapply path_split|done].
  - destruct w as [|a w]; simplify_eq/=.
    + exists i, s, p', 0%nat, n. split_and!; try done. constructor.
    + destruct (IH w eq_refl) as (j & s' & q0 & n1 & n2 & P1 & ?).
      exists j, s', q0, (S n1), n2. split; [by eapply path_char|done].
Qed.

Lemma state_list_arrows h st w l c q : state_list h st w l -> c <> Split ->
  (exists r n, arrows h c l r /\ path h n r [] q) <-> exists n, path h n st (w ++ [c]) q.
Proof.
  intros [_ Hl] Hc. split.
  - intros (r & n & (i & s & Hin & Hi & Hs & Ho) & P).
    apply Hl in Hin as [_ [n1 P1]]. eexists. eapply path_app; [done|]. by eapply path_char.
  - intros [n P]. destruct (path_snoc _ _ _ _ _ _ P) as (i & s & r & n1 & n2 & P1 & Hi & Hs & _ & Ho & P2).
    exists r, n2. split; [|done]. exists i, s. split_and!; [|done..].
    apply Hl. split; [|by eauto]. exists s. split; [done|congruence].
Qed.

(** [valid] is what [leaf] states of the heap are. *)
Lemma leaf_valid h p : leaf h p -> valid h p.
Proof. destruct p as [i|]; [|done]. intros (s & Hs & _). simpl. by eapply lookup_lt_Some. Qed.

Lemma step_loop_cap cap cap' c : forall l m nl m' l', step_loop cap m l c nl = Ret (m', l') ->
  (length nl <= length l')%nat /\ ((length l' <= cap')%nat -> step_loop cap' m l c nl = Ret (m', l')).
Proof.
  intros l. induction l as [|p l IH]; intros m nl m' l'; simpl; [by intros [= <- <-]|].
  destruct (deref m p) as [s|]; simpl; [|done]. destruct (sc s =? c); simpl.
  - intros ([m1 l1] & E1 & E2)%res_bind_Ret.
    apply (addstate_cap _ cap') in E1 as [H1 E1]. apply IH in E2 as [H2 E2].
    split; [lia|]. intros Hc. rewrite E1 by lia. simpl. apply E2, Hc.
  - apply IH.
Qed.

(** ** A state list never outgrows its allocation

    [main] allocates [nstate] entries, which does not count [matchstate]: a list
    that held every state and [matchstate] would not fit.  It never does: with a
    [Split] state, which is never listed, there is room; without one the
    automaton is deterministic. *)
Lemma path_chain h n p w q : (forall i s, h !! i = Some s -> sc s <> Split) ->
  path h n p w q -> forall n' q', path h n' p w q' -> q' = q.
Proof.
  intros Hd P. induction P as [p|n i s b p' w q Hs Hc Hf P IH|n i s c p' w q Hs Hc Hn Hf P IH];
    intros n' q' P'.
  - inv P'; [done|]. exfalso. by eapply Hd.
  - exfalso. by eapply Hd.
  - inv P'; simplify_eq. unify_arrows. by eapply IH.
Qed.

Lemma state_list_fits h st w l : h <> [] -> state_list h st w l -> (length l <= length h)%nat.
Proof.
  intros Hne [Hd Hin].
  destruct (decide (Exists (fun s => sc s = Split) h)) as [He|He].
  - apply Exists_exists in He as (s & [k Hk]%list_elem_of_lookup & Hsp).
    pose proof (lookup_lt_Some _ _ _ Hk).
    assert (Hb : (length (PState k :: l) <= length (PMatch :: map PState (seq 0 (length h))))%nat);
      [|simpl in Hb; rewrite length_map, length_seq in Hb; lia].
    apply NoDup_incl_length.
    { apply NoDup_ListNoDup, NoDup_cons. split; [|done]. intros [(s' & ? & ?) _]%Hin. congruence. }
    intros p [<-|Hp%list_elem_of_In]; [right; apply in_map, in_seq; lia|].
    apply Hin in Hp as [Hp%leaf_valid _]. destruct p as [i|]; [|by left].
    right. apply in_map, in_seq. simpl in Hp. lia.
  - assert (Hns : forall i s, h !! i = Some s -> sc s <> Split).
    { intros i s Hi Hsp. apply He, Exists_exists. exists s. split; [|done].
      apply list_elem_of_lookup; eauto. }
    destruct h as [|s h]; [done|]. simpl.
    destruct l as [|p [|q l]]; [simpl; lia..|]. exfalso.
    destruct (proj1 (Hin p)) as [_ [n1 P1]]; [set_solver|].
    destruct (proj1 (Hin q)) as [_ [n2 P2]]; [set_solver|].
    pose proof (path_chain _ _ _ _ _ Hns P1 _ _ P2). subst.
    apply NoDup_cons in Hd as [Hd _]. set_solver.
Qed.

Lemma nstate_static h m : same_static h m -> nstate m = length h.
Proof. apply same_static_length. Qed.

Lemma startlist_spec h m st : heap_ok h -> h <> [] -> valid h st -> mem_ok h m ->
  exists m' l, startlist m st = Ret (m', l) /\ mem_ok h m' /\ state_list h st [] l.
Proof.
  intros Hok Hne Hv Hm. destruct (next_list_ok h m Hm) as [[Hs Hf] Hn]. unfold startlist.
  destruct (addstate_spec h (add_fuel (next_list m)) Hok (add_fuel (next_list m)) (next_list m) []
    (WState st)) as (m' & l & E & A); [done|right; eauto|apply unmarked_bound| |].
  { pose proof (unmarked_bound (next_list m)). simpl. lia. }
  assert (state_list h st [] l) as Hsl.
  { destruct (added_closure _ _ _ _ _ Hn A) as [Hd Hin]. split; [done|].
    intros q. rewrite Hin. split.
    - intros (? & r & n & [= <-] & P). eauto.
    - intros [? [n P]]. split; [done|]. by exists st, n. }
  exists m', l. split; [|split; [split; [apply A|by apply (ad_fresh A)]|done]].
  apply (addstate_cap _ (nstate (next_list m))) in E as [_ E]. apply E.
  rewrite (nstate_static h) by done. by eapply state_list_fits.
Qed.

Lemma step_spec h m st w l c : heap_ok h -> h <> [] -> mem_ok h m -> state_list h st w l -> c < 256 ->
  exists m' l', step m l c = Ret (m', l') /\ mem_ok h m' /\ state_list h st (w ++ [c]) l'.
Proof.
  intros Hok Hne Hm Hl Hc. destruct (next_list_ok h m Hm) as [[Hs Hf] Hn]. unfold step.
  destruct (step_loop_spec h (add_fuel m) c Hok Hc l (next_list m) []) as (m' & l' & E & A); [done| | |].
  { intros p Hp. by apply leaf_valid, Hl. }
  { pose proof (unmarked_bound (next_list m)). unfold add_fuel in *. simpl in *. lia. }
  assert (state_list h st (w ++ [c]) l') as Hsl.
  { destruct (added_closure _ _ _ _ _ Hn A) as [Hd Hin]. split; [done|].
    intros q. rewrite Hin. rewrite (state_list_arrows h st w l c q Hl); [done|]. unfold Split. lia. }
  exists m', l'. split; [|split; [split; [apply A|by apply (ad_fresh A)]|done]].
  apply (step_loop_cap _ (nstate m)) in E as [_ E]. apply E.
  rewrite (nstate_static h) by done. by eapply state_list_fits.
Qed.

(** [ismatch] looks for [matchstate] in the list. *)
Lemma ismatch_spec l : ismatch l = true <-> PMatch ∈ l.
Proof.
  induction l as [|[i|] l IH]; simpl; [set_solver| |set_solver].
  rewrite IH, elem_of_cons. naive_solver.
Qed.

(** ** Matching *)

#[global] Arguments step : simpl never.
#[global] Arguments startlist : simpl never.

Lemma start_not_nil h r p q : frag_ok h r p q -> h <> [].
Proof. by induction 1; [intros ->; simplify_list_eq|try (by intros ->; simplify_list_eq)..]. Qed.

Lemma land_byte b : byte b -> Z.land b 255 = b.
Proof. intros Hb. change 255 with (Z.ones 8). rewrite Z.land_ones by lia. apply Z.mod_small, Hb. Qed.

Section Automaton.
Context (h : heap) (r : regex) (st : sptr).
Context (Hok : heap_ok h) (Hst : valid h st) (Hfrag : frag_ok h r st PMatch).
Context (Hlits : lits_ok is_byte r = true).

Lemma match_list w l : state_list h st w l -> ismatch l = true <-> matches (signed r) w.
Proof.
  intros [_ Hin]. rewrite ismatch_spec, Hin, (accepts_iff h r st) by done. simpl. tauto.
Qed.

Lemma match_loop_spec s : Forall byte s -> forall w m l,
  mem_ok h m -> state_list h st w l ->
  exists m' b, match_loop m l s = Ret (m', b) /\ mem_ok h m' /\
    (b = true <-> matches (signed r) (w ++ s)).
Proof.
  induction 1 as [|c s Hc Hs IH]; intros w m l Hm Hl; simpl.
  { exists m, (ismatch l). split_and!; [done..|]. rewrite app_nil_r. by apply match_list. }
  rewrite land_byte by done.
  destruct (step_spec h m st w l c Hok (start_not_nil _ _ _ _ Hfrag) Hm Hl) as (m1 & l1 & -> & Hm1 & Hl1);
    [apply Hc|]. simpl.
  destruct (IH (w ++ [c]) m1 l1 Hm1 Hl1) as (m2 & b & -> & Hm2 & Hb).
  exists m2, b. split_and!; [done..|]. by rewrite Hb, <-app_assoc.
Qed.

Lemma nfa_match_spec m s : mem_ok h m -> Forall byte s ->
  exists m' b, nfa_match m st s = Ret (m', b) /\ mem_ok h m' /\
    (b = true <-> matches (signed r) s).
Proof.
  intros Hm Hs. unfold nfa_match.
  destruct (startlist_spec h m st Hok (start_not_nil _ _ _ _ Hfrag) Hst Hm) as (m1 & l & -> & Hm1 & Hl).
  simpl. by apply (match_loop_spec s Hs [] m1 l).
Qed.

Lemma print_matches_spec args : Forall (Forall byte) args -> forall m, mem_ok h m ->
  exists outs, print_matches m st args = Ret outs /\ kept (matches (signed r)) args outs.
Proof.
  induction 1 as [|s args Hs Ha IH]; intros m Hm; simpl; [exists []; split; [done|constructor]|].
  destruct (nfa_match_spec m s Hm Hs) as (m1 & b & -> & Hm1 & Hb). simpl.
  destruct (IH m1 Hm1) as (outs & -> & Hk). simpl. eexists. split; [done|].
  destruct b; constructor; try done; [by apply Hb|]. intros Hw%Hb. done.
Qed.
End Automaton.

(** ** The marks of a new automaton are zero *)

Definition clean (h : heap) : Prop := Forall (fun s => lastlist s = 0) h.

Lemma write_clean h f w h' : write h f w = Ret h' -> clean h -> clean h'.
Proof.
  unfold write. destruct (h !! f.1) as [s|] eqn:E; [|done]. intros [= <-] Hc.
  apply Forall_insert; [done|]. pose proof (Forall_lookup_1 _ _ _ _ Hc E).
  by destruct s, f as [? []].
Qed.

Lemma state_clean h c o o1 h' i : state h c o o1 = (h', i) -> clean h -> clean h'.
Proof. intros [= <- <-] Hc. apply Forall_app. split; [done|]. by constructor. Qed.

Lemma patch_clean fuel : forall h l s h', patch fuel h l s = Ret h' -> clean h -> clean h'.
Proof.
  unfold patch. induction fuel as [|n IH]; intros h [|p|f] s h' H; cbn in H; inv_res; try done.
  intros Hc. eapply IH; [done|]. by eapply write_clean.
Qed.

Lemma append_loop_clean fuel : forall h l1 l2 h', append_loop fuel h l1 l2 = Ret h' -> clean h -> clean h'.
Proof.
  induction fuel as [|n IH]; intros h [|p|f] l2 h' H; cbn in H; inv_res; try done;
    destruct v; try done; eauto using write_clean.
Qed.

Lemma append_clean h l1 l2 h' l : append h l1 l2 = Ret (h', l) -> clean h -> clean h'.
Proof. unfold append. intros. inv_res. by eapply append_loop_clean. Qed.

Lemma list1_clean h f h' l : list1 h f = Ret (h', l) -> clean h -> clean h'.
Proof. unfold list1. intros. inv_res. by eapply write_clean. Qed.

(** Follow [clean] through the operations of the context. *)
Ltac clean_forward :=
  repeat match goal with
  | Hc : clean ?h, H : patch _ ?h _ _ = Ret _ |- _ => apply patch_clean in H; [|exact Hc]
  | Hc : clean ?h, H : append ?h _ _ = Ret _ |- _ => apply append_clean in H; [|exact Hc]
  | Hc : clean ?h, H : list1 ?h _ = Ret _ |- _ => apply list1_clean in H; [|exact Hc]
  | Hc : clean ?h, H : state ?h _ _ _ = _ |- _ => apply state_clean in H; [|exact Hc]
  end.

Lemma post2nfa_char_clean h stk p h' stk' :
  post2nfa_char h stk p = Ret (h', stk') -> clean h -> clean h'.
Proof.
  unfold post2nfa_char. intros H Hc.
  repeat match type of H with (if ?b then _ else _) = _ => destruct b end;
    inv_res; repeat (match goal with H : (let '(_, _) := state ?a ?b ?c ?d in _) = _ |- _ =>
      destruct (state a b c d) as [? ?] eqn:? end; inv_res); clean_forward; done.
Qed.

Lemma post2nfa_loop_clean post : forall h stk h' stk',
  post2nfa_loop h stk post = Ret (h', stk') -> clean h -> clean h'.
Proof.
  induction post as [|p ps IH]; intros h stk h' stk' E Hc; cbn in E; inv_res; [done|].
  eapply IH; [done|]. by eapply post2nfa_char_clean.
Qed.

Lemma post2nfa_clean post h st : post2nfa post = Ret (h, st) -> clean h.
Proof.
  unfold post2nfa. intros H. inv_res.
  match goal with E : post2nfa_loop _ _ _ = _ |- _ =>
    apply post2nfa_loop_clean in E; [|constructor] end.
  match type of H with match ?l with _ => _ end = _ => destruct l end; inv_res; clean_forward; done.
Qed.

Lemma mem0_ok h : clean h -> mem_ok h (mem0 h).
Proof.
  intros H0. split; [done|]. intros [i|] s; unfold deref; simpl.
  - intros Hi. pose proof (Forall_lookup_1 _ _ _ _ H0 Hi) as E. simpl in E. lia.
  - intros [= <-]. simpl. lia.
Qed.

(** ** The program *)

(** A byte of a pattern text.  The character [.] is the concatenation operator
    of [post2nfa], so it cannot stand for itself. *)
Definition textual (c : Z) : bool := is_byte c && negb (c =? DOT).

Lemma lits_of_text (P Q : Z -> bool) : (forall c, literal c = true -> Q c = true -> P c = true) ->
  (forall d r s, g_alt d r s -> forallb Q s = true -> lits_ok P r = true).
Proof.
  intros HPQ.
  assert (forall s t, forallb Q (s ++ t) = true -> forallb Q s = true /\ forallb Q t = true) as Happ.
  { intros s t. rewrite forallb_app. apply andb_true_iff. }
  apply (g_mind (fun d r s _ => forallb Q s = true -> lits_ok P r = true)
    (fun d r s _ => forallb Q s = true -> lits_ok P r = true)
    (fun d r s _ => forallb Q s = true -> lits_ok P r = true)); simpl; auto.
  - intros d r1 r2 s1 s2 _ IH1 _ IH2 [H1 [_ H2]%andb_true_iff]%Happ. by rewrite IH1, IH2.
  - intros d r1 r2 s1 s2 _ IH1 _ IH2 [H1 H2]%Happ. by rewrite IH1, IH2.
  - intros d c Hc [Hq _]%andb_true_iff. auto.
  - intros d r s _ IH [_ [H _]%Happ]%andb_true_iff. auto.
  - intros d r s _ IH [H _]%Happ. auto.
  - intros d r s _ IH [H _]%Happ. auto.
  - intros d r s _ IH [H _]%Happ. auto.
Qed.

Lemma signed_ascii r : lits_ok (fun c => c <? 128) r = true -> signed r = r.
Proof.
  induction r; simpl; rewrite ?andb_true_iff; intros H; [unfold schar; by rewrite H|
    destruct H; f_equal; auto..| | |]; f_equal; auto.
Qed.

Lemma literal_operand c : literal c = true -> textual c = true -> operand c = true.
Proof.
  unfold literal, textual, operand, plain. rewrite !negb_true_iff, !orb_false_iff.
  intros [[[[[_ H1] _] H2] H3] H4] [Hb Hd%negb_true_iff]%andb_true_iff.
  by rewrite Hb, H1, H2, H3, H4, Hd.
Qed.

Lemma ascii_text r re : g_alt 100 r re ->
  forallb (fun c => textual c && (c <? 128)) re = true -> lits_ok operand r = true /\ signed r = r.
Proof.
  intros Hg Ht. split; [|apply signed_ascii];
    (eapply (lits_of_text _ (fun c => textual c && (c <? 128))); [|done..]);
    intros c Hc [? ?]%andb_true_iff; [by apply literal_operand|done].
Qed.

(** What [nfa] prints for a pattern that fits, in terms of the pattern as the
    automaton reads it. *)
Lemma nfa_main_runs r re args : g_alt 100 r re -> (length re < 4000)%nat ->
  forallb textual re = true -> (need r <= STACK)%nat -> args <> [] -> Forall (Forall byte) args ->
  exists outs, nfa_main (re :: args) = Ret (0, outs) /\ kept (matches (signed r)) args outs.
Proof.
  intros Hg Hl Ht Hn Ha Hb. destruct args as [|a args]; [done|]. unfold nfa_main.
  rewrite (re2post_complete r re Hg Hl).
  pose proof (lits_of_text _ _ literal_operand _ _ _ Hg Ht) as Hops.
  destruct (post2nfa_builds r (operand_plain r Hops) Hn) as (h & p & E & Hf & Hok & Hv).
  rewrite E. simpl.
  destruct (print_matches_spec h r p Hok Hv Hf (operand_byte r Hops) (a :: args) Hb (mem0 h))
    as (outs & Hp & Hk); [by eapply mem0_ok, post2nfa_clean|].
  simpl in Hp. rewrite Hp. simpl. eauto.
Qed.

(** C6. nfa.c is correct: for an ASCII pattern without [.] that is shorter than
    4000 characters, nested at most 100 deep and fits the operand stack, the
    program stays inside its arrays, ends, prints, in order, exactly the
    arguments that are words of the pattern, and exits with status 0; with less
    than two arguments or a pattern [re2post] rejects it prints nothing on its
    output and exits with status 1. *)
Theorem nfa_main_correct :
  (forall r re args, g_alt 100 r re -> (length re < 4000)%nat ->
     forallb (fun c => textual c && (c <? 128)) re = true -> (need r <= STACK)%nat ->
     args <> [] -> Forall (Forall byte) args ->
     exists outs, nfa_main (re :: args) = Ret (0, outs) /\ kept (matches r) args outs) /\
  (forall args, (length args < 2)%nat -> nfa_main args = Ret (1, [])) /\
  (forall re args, re2post re = None -> nfa_main (re :: args) = Ret (1, [])).
Proof.
  split; [|split].
  - intros r re args Hg Hl Ht Hn Ha Hb.
    destruct (ascii_text r re Hg Ht) as [_ Hs].
    destruct (nfa_main_runs r re args) as (outs & E & K); try done.
    + rewrite forallb_forall in *. intros c Hc. by apply Ht, andb_true_iff in Hc as [? _].
    + rewrite Hs in K. by exists outs.
  - intros [|a [|b args]]; simpl; intros; (done || lia).
  - intros re [|a args] E; [done|]. unfold nfa_main. by rewrite E.
Qed.

(** The pattern [(a|b)*c] and two arguments, of which the first is matched. *)
Lemma nfa_main_correct_witness :
  exists outs, nfa_main [[40; 97; 124; 98; 41; 42; 99]; [97; 98; 99]; [97]] = Ret (0, outs) /\
    kept (matches (RCat (RStar (RAlt (RChr 97) (RChr 98))) (RChr 99))) [[97; 98; 99]; [97]] outs.
Proof.
  apply (proj1 nfa_main_correct).
  - apply ga_cat, (gc_cat _ _ _ [40; 97; 124; 98; 41; 42] [99]); [|by apply gr_chr].
    apply gc_rep, (gr_star _ _ [40; 97; 124; 98; 41]), (gr_par 99 _ [97; 124; 98]).
    apply (ga_alt _ _ _ [97] [98]); [|apply ga_cat]; by apply gc_rep, gr_chr.
  - vm_compute. lia.
  - reflexivity.
  - vm_compute. lia.
  - discriminate.
  - repeat constructor; vm_compute; discriminate.
Defined.

(** A literal outside ASCII. *)
Definition high (c : Z) : bool := is_byte c && (128 <=? c).

Lemma high_words r w : matches (signed r) w -> lits_ok high r = true -> Forall (fun c => c < 0) w.
Proof.
  intros Hm. remember (signed r) as s eqn:E. revert r E.
  induction Hm; intros r0 E Hl; destruct r0; simplify_eq/=; try apply andb_true_iff in Hl as [? ?];
    try apply Forall_app_2; try (by constructor); eauto.
  - apply is_byte_spec in H. unfold byte, schar in *. constructor; [|done]. case_ifs; lia.
  - by eapply (IHHm2 (RStar r0)).
  - by eapply (IHHm2 (RStar r0)).
Qed.

Lemma kept_none {A} (P : A -> Prop) l o : kept P l o -> Forall (fun x => ~ P x) l -> o = [].
Proof. induction 1; intros Hf; [done|inv Hf; done|inv Hf; auto]. Qed.

(** Bytes from 128 up are lost: a literal is stored in a state through a
    signed [char] but compared with a subject byte masked by [0xFF], so a pattern
    whose literals are all outside ASCII prints no non-empty argument at all, not
    even its own text. *)
Theorem nfa_main_high_bytes r re args :
  g_alt 100 r re -> (length re < 4000)%nat ->
  forallb (fun c => textual c && (negb (literal c) || high c)) re = true ->
  (need r <= STACK)%nat -> args <> [] ->
  Forall (fun s => s <> [] /\ Forall byte s) args ->
  nfa_main (re :: args) = Ret (0, []).
Proof.
  intros Hg Hl Ht Hn Ha Hb.
  destruct (nfa_main_runs r re args) as (outs & -> & K); try done.
  - rewrite forallb_forall in *. intros c Hc. by apply Ht, andb_true_iff in Hc as [? _].
  - eapply Forall_impl; [done|]. by intros s [_ ?].
  - f_equal. f_equal. eapply kept_none; [done|]. eapply Forall_impl; [done|].
    intros s [Hne Hs] Hm. destruct s as [|c s]; [done|].
    apply high_words in Hm; [inv Hm; inv Hs; unfold byte in *; lia|].
    eapply (lits_of_text _ _ _ _ _ _ Hg Ht).
    Unshelve. intros c' Hc [_ Hh]%andb_true_iff. rewrite Hc in Hh. done.
Qed.

(** The one-byte pattern 0xE9 does not match itself. *)
Lemma nfa_main_high_bytes_witness : nfa_main [[233]; [233]] = Ret (0, []).
Proof.
  apply (nfa_main_high_bytes (RChr 233) [233] [[233]]).
  - by apply ga_cat, gc_rep, gr_chr.
  - vm_compute. lia.
  - reflexivity.
  - vm_compute. lia.
  - discriminate.
  - repeat constructor; vm_compute; discriminate.
Defined.
