(* ===== verification/Dfa.v ===== *)
(** Component: the lazily built automaton of
    src/c-study/dfa-about/bounded-mem-dfa.c.  A DState caches a state list of the
    simulation; the DStates form a search tree and, once the cache is dropped, a
    free list threaded through the [left] fields of the same objects.  The theorems
    show that the tree and the free list stay well formed and disjoint, that never
    more than [maxstates] DStates are allocated, that a cached transition always
    leads to the list [step] would compute, and that the program prints exactly the
    arguments in the language of its pattern. *)
From S2P Require Import Prelude RePost Nfa NfaSim.

(** ** State *)

(** A DState lives at an index of the DState heap; [dnext] holds the non-null
    entries of [next[256]]. *)
Record DState := MkD {
  dl : list sptr; dnext : gmap Z nat; dleft : option nat; dright : option nat
}.

(** The simulation's memory, the DStates allocated so far, and the static
    variables [alldstates], [nstates] and [freelist]. *)
Record dmem := DMem {
  nfa : mem; dst : list DState; alldstates : option nat; nstates : Z; freelist : option nat
}.

Definition dmem0 (h : heap) : dmem := DMem (mem0 h) [] None 0 None.

Definition with_dst (m : dmem) (ds : list DState) : dmem :=
  DMem (nfa m) ds (alldstates m) (nstates m) (freelist m).
Definition with_nfa (m : dmem) (n : mem) : dmem :=
  DMem n (dst m) (alldstates m) (nstates m) (freelist m).

Definition with_left (d : DState) (p : option nat) : DState := MkD (dl d) (dnext d) p (dright d).
Definition with_right (d : DState) (p : option nat) : DState := MkD (dl d) (dnext d) (dleft d) p.
Definition with_next (d : DState) (c : Z) (n : nat) : DState :=
  MkD (dl d) (<[c := n]> (dnext d)) (dleft d) (dright d).

(** The values of [DState **dp]. *)
Inductive dloc := LRoot | LLeft (i : nat) | LRight (i : nat).

#[export] Instance dloc_eq_dec : EqDecision dloc.
Proof. solve_decision. Defined.

Definition dread (m : dmem) (dp : dloc) : res (option nat) :=
  match dp with
  | LRoot => Ret (alldstates m)
  | LLeft i => d ← oget (dst m !! i); Ret (dleft d)
  | LRight i => d ← oget (dst m !! i); Ret (dright d)
  end.

(** [*dp = v]. *)
Definition dwrite (m : dmem) (dp : dloc) (v : option nat) : res dmem :=
  match dp with
  | LRoot => Ret (DMem (nfa m) (dst m) v (nstates m) (freelist m))
  | LLeft i => d ← oget (dst m !! i); Ret (with_dst m (<[i := with_left d v]> (dst m)))
  | LRight i => d ← oget (dst m !! i); Ret (with_dst m (<[i := with_right d v]> (dst m)))
  end.

Definition maxstates : Z := 32.

(** ** Operations *)

(** [allocdstate()]; a recycled DState keeps its list until it is overwritten. *)
Definition allocdstate (m : dmem) : res (dmem * nat) :=
  match freelist m with
  | Some i =>
    d ← oget (dst m !! i);
    Ret (DMem (nfa m) (<[i := MkD (dl d) ∅ None None]> (dst m)) (alldstates m) (nstates m) (dleft d), i)
  | None => Ret (with_dst m (dst m ++ [MkD [] ∅ None None]), length (dst m))
  end.

(** [freestates(d)], on the DStates and [freelist]. *)
Fixpoint freestates (fuel : nat) (ds : list DState) (fl : option nat) (p : option nat)
    : res (list DState * option nat) :=
  match p with
  | None => Ret (ds, fl)
  | Some i =>
    match fuel with
    | O => Fuel
    | S n =>
      d ← oget (ds !! i);
      '(ds, fl) ← freestates n ds fl (dleft d);
      d ← oget (ds !! i);
      '(ds, fl) ← freestates n ds fl (dright d);
      d ← oget (ds !! i);
      Ret (<[i := with_left d fl]> ds, Some i)
    end
  end.

Definition freecache (m : dmem) : res dmem :=
  '(ds, fl) ← freestates (length (dst m)) (dst m) (freelist m) (alldstates m);
  Ret (DMem (nfa m) ds None 0 fl).

(** [memmove(d->l.s, l->s, ..); d->l.n = l->n]; the array of [d] has [nstate]
    entries. *)
Definition set_list (m : dmem) (i : nat) (l : list sptr) : res dmem :=
  d ← oget (dst m !! i);
  if (length l <=? nstate (nfa m))%nat
  then Ret (with_dst m (<[i := MkD l (dnext d) (dleft d) (dright d)]> (dst m))) else UB.

(** The part of [dstate] that stores a new DState for [l] at [*dp]. *)
Definition new_dstate (m : dmem) (dp : dloc) (l : list sptr) : res (dmem * nat) :=
  '(m, d) ← allocdstate m;
  m ← set_list m d l;
  m ← dwrite m dp (Some d);
  Ret (DMem (nfa m) (dst m) (alldstates m) (nstates m + 1) (freelist m), d).

Section Dfa.
(** The addresses the allocator gave to the State objects, compared by
    [listcmp]. *)
Context (addr : sptr -> Z).

(** What [qsort(.., ptrcmp)] makes of the list.  [ptrcmp] compares the positions
    of its arguments, not the pointers stored there, so the outcome is some
    permutation, not the sorted list. *)
Context (sort : list sptr -> list sptr).

Fixpoint listcmp_members (l1 l2 : list sptr) : Z :=
  match l1, l2 with
  | p :: l1', q :: l2' =>
    if addr p <? addr q then -1 else if addr q <? addr p then 1 else listcmp_members l1' l2'
  | _, _ => 0
  end.

Definition listcmp (l1 l2 : list sptr) : Z :=
  if (length l1 <? length l2)%nat then -1
  else if (length l2 <? length l1)%nat then 1
  else listcmp_members l1 l2.

(** The loop of [dstate]: where it ends, and the DState found there. *)
Fixpoint walk (fuel : nat) (m : dmem) (l : list sptr) (dp : dloc) : res (dloc * option nat) :=
  p ← dread m dp;
  match p with
  | None => Ret (dp, None)
  | Some i =>
    match fuel with
    | O => Fuel
    | S n =>
      d ← oget (dst m !! i);
      let k := listcmp l (dl d) in
      if k <? 0 then walk n m l (LLeft i)
      else if 0 <? k then walk n m l (LRight i)
      else Ret (dp, Some i)
    end
  end.

(** [dstate(l, nextp)]; [nextp] is null or the address of [next[c]] of a
    DState. *)
Definition dstate (m : dmem) (l : list sptr) (nextp : option (nat * Z)) : res (dmem * nat) :=
  let l := sort l in
  '(dp, found) ← walk (length (dst m)) m l LRoot;
  match found with
  | Some d => Ret (m, d)
  | None =>
    '(m, dp, nextp) ← (if maxstates <=? nstates m
                        then m ← freecache m; Ret (m, LRoot, None)
                        else Ret (m, dp, nextp));
    '(m, d) ← new_dstate m dp l;
    match nextp with
    | None => Ret (m, d)
    | Some (i, c) =>
      di ← oget (dst m !! i);
      Ret (with_dst m (<[i := with_next di c d]> (dst m)), d)
    end
  end.

Definition startdstate (m : dmem) (start : sptr) : res (dmem * nat) :=
  '(n, l) ← startlist (nfa m) start;
  dstate (with_nfa m n) l None.

Definition nextstate (m : dmem) (i : nat) (c : Z) : res (dmem * nat) :=
  d ← oget (dst m !! i);
  '(n, l) ← step (nfa m) (dl d) c;
  dstate (with_nfa m n) l (Some (i, c)).

(** [match(start, s)]. *)
Fixpoint dfa_match (m : dmem) (i : nat) (s : list Z) : res (dmem * bool) :=
  d ← oget (dst m !! i);
  match s with
  | [] => Ret (m, ismatch (dl d))
  | b :: s' =>
    let c := Z.land b 255 in
    match dnext d !! c with
    | Some next => dfa_match m next s'
    | None => '(m, next) ← nextstate m i c; dfa_match m next s'
    end
  end.

(** The loop of [main]. *)
Fixpoint dfa_print (m : dmem) (start : sptr) (args : list (list Z)) : res (dmem * list (list Z)) :=
  match args with
  | [] => Ret (m, [])
  | a :: args' =>
    '(m, d) ← startdstate m start;
    '(m, b) ← dfa_match m d a;
    '(m, outs) ← dfa_print m start args';
    Ret (m, if (b : bool) then a :: outs else outs)
  end.

Definition dfa_main (args : list (list Z)) : res (Z * list (list Z)) :=
  match args with
  | re :: subject :: subjects =>
    match re2post re with
    | None => Ret (1, [])
    | Some post =>
      '(h, st) ← post2nfa post;
      match st with
      | None => Ret (1, [])
      | Some start =>
        '(_, outs) ← dfa_print (dmem0 h) start (subject :: subjects); Ret (0, outs)
      end
    end
  | _ => Ret (1, [])
  end.
End Dfa.

(** ** Trees and free lists in the DState heap *)

Inductive dtree := Leaf | Node (l : dtree) (i : nat) (r : dtree).

Fixpoint elems (t : dtree) : list nat :=
  match t with Leaf => [] | Node l i r => i :: elems l ++ elems r end.

Fixpoint tree (ds : list DState) (p : option nat) (t : dtree) : Prop :=
  match t with
  | Leaf => p = None
  | Node l i r => p = Some i /\ exists d, ds !! i = Some d /\ tree ds (dleft d) l /\ tree ds (dright d) r
  end.

Fixpoint chain (ds : list DState) (p : option nat) (fl : list nat) : Prop :=
  match fl with
  | [] => p = None
  | i :: fl' => p = Some i /\ exists d, ds !! i = Some d /\ chain ds (dleft d) fl'
  end.

(** [links d d']: the tree fields of the two objects are the same. *)
Definition links (d d' : DState) : Prop := dleft d = dleft d' /\ dright d = dright d'.

Lemma tree_frame ds ds' t : forall p, tree ds p t ->
  (forall i d, i ∈ elems t -> ds !! i = Some d -> exists d', ds' !! i = Some d' /\ links d d') ->
  tree ds' p t.
Proof.
  induction t as [|l IHl i r IHr]; intros p; simpl; [done|].
  intros (-> & d & Hd & Hl & Hr) Hf. split; [done|].
  destruct (Hf i d) as (d' & Hd' & El & Er); [set_solver|done|]. exists d'. split; [done|].
  rewrite <-El, <-Er. split; [apply IHl|apply IHr]; try done; set_solver.
Qed.

Lemma chain_frame ds ds' fl : forall p, chain ds p fl ->
  (forall i, i ∈ fl -> ds' !! i = ds !! i) -> chain ds' p fl.
Proof.
  induction fl as [|i fl IH]; intros p; simpl; [done|]. intros (-> & d & Hd & Hc) Hf.
  split; [done|]. exists d. rewrite Hf by set_solver. split; [done|]. apply IH; set_solver.
Qed.

Lemma tree_lookup ds p t i : tree ds p t -> i ∈ elems t -> exists d, ds !! i = Some d.
Proof.
  revert p. induction t as [|l IHl j r IHr]; intros p; simpl; [set_solver|].
  intros (-> & d & Hd & Hl & Hr) [->|[?|?]%elem_of_app]%elem_of_cons; eauto.
Qed.

Lemma freestates_spec t : forall fuel ds f p fl,
  tree ds p t -> chain ds f fl -> NoDup (elems t ++ fl) -> (length (elems t) <= fuel)%nat ->
  exists ds' f' fl', freestates fuel ds f p = Ret (ds', f') /\ chain ds' f' fl' /\
    fl' ≡ₚ elems t ++ fl /\ length ds' = length ds /\
    forall i, i ∉ elems t -> ds' !! i = ds !! i.
Proof.
  induction t as [|l IHl i r IHr]; intros fuel ds f p fl; cbn [tree elems].
  { intros -> Hc _ _. exists ds, f, fl. split_and!; try done. by destruct fuel. }
  intros (-> & d & Hd & Hl & Hr) Hc Hnd Hle. destruct fuel as [|n]; [simpl in Hle; lia|].
  rewrite <-app_comm_cons, <-app_assoc in Hnd. apply NoDup_cons in Hnd as [Hi Hnd].
  apply NoDup_app in Hnd as (Hnl & Hlr & Hndr).
  simpl in Hle. rewrite length_app in Hle. cbn [freestates]. rewrite Hd. simpl.
  destruct (IHl n ds f (dleft d) fl) as (ds1 & f1 & fl1 & -> & Hc1 & Hp1 & Hlen1 & Hk1);
    [done..| |lia|].
  { apply NoDup_app. split_and!; [done|set_solver|]. by apply NoDup_app in Hndr as (_ & _ & ?). }
  simpl. rewrite Hk1, Hd by set_solver. simpl.
  destruct (IHr n ds1 f1 (dright d) fl1) as (ds2 & f2 & fl2 & -> & Hc2 & Hp2 & Hlen2 & Hk2);
    [|done| |lia|].
  { eapply tree_frame; [done|]. intros j dj Hj Hdj. exists dj. rewrite Hk1 by set_solver. done. }
  { rewrite Hp1, (app_assoc (elems r)), (Permutation_app_comm (elems r)), <-app_assoc.
    apply NoDup_app. split_and!; done. }
  simpl. rewrite Hk2, Hk1, Hd by set_solver. simpl.
  exists (<[i := with_left d f2]> ds2), (Some i), (i :: fl2).
  pose proof (lookup_lt_Some _ _ _ Hd).
  split_and!; [done| | | |].
  - split; [done|]. exists (with_left d f2). rewrite list_lookup_insert_eq by lia. split; [done|].
    eapply chain_frame; [done|]. intros j Hj. rewrite list_lookup_insert_ne; [done|].
    intros <-. rewrite Hp2, Hp1 in Hj. set_solver.
  - rewrite Hp2, Hp1. f_equiv. rewrite !app_assoc. f_equiv. apply Permutation_app_comm.
  - rewrite length_insert. lia.
  - intros j [Hj1 Hj2]%not_elem_of_cons. rewrite list_lookup_insert_ne by done.
    rewrite Hk2, Hk1 by set_solver. done.
Qed.

(** [put_at dp n i d d']: object [i], which was [d], is [d'] once [*dp = n]. *)
Definition put_at (dp : dloc) (n : nat) (i : nat) (d d' : DState) : Prop :=
  dleft d' = (if decide (dp = LLeft i) then Some n else dleft d) /\
  dright d' = (if decide (dp = LRight i) then Some n else dright d).

(** [grows ds p t here dp]: [dp] is where a new object [n] can be hung in the tree
    [t] rooted at [p]; [here] is the location that holds [p]. *)
Definition grows (ds : list DState) (p : option nat) (t : dtree) (here dp : dloc) : Prop :=
  forall ds' n, n ∉ elems t ->
    (exists d, ds' !! n = Some d /\ dleft d = None /\ dright d = None) ->
    (forall i d, i ∈ elems t -> ds !! i = Some d -> exists d', ds' !! i = Some d' /\ put_at dp n i d d') ->
    exists t', tree ds' (if decide (dp = here) then Some n else p) t' /\ elems t' ≡ₚ n :: elems t.

Definition inside (t : dtree) (dp : dloc) : Prop :=
  exists i, i ∈ elems t /\ (dp = LLeft i \/ dp = LRight i).

Lemma grows_leaf ds here : grows ds None Leaf here here.
Proof.
  intros ds' n _ (d & Hd & El & Er) _. rewrite decide_True by done.
  exists (Node Leaf n Leaf). simpl. eauto 8.
Qed.

(** A tree outside of which [dp] points is kept. *)
Lemma put_at_other ds ds' dp n t p : tree ds p t -> ~ inside t dp ->
  (forall i d, i ∈ elems t -> ds !! i = Some d -> exists d', ds' !! i = Some d' /\ put_at dp n i d d') ->
  tree ds' p t.
Proof.
  intros Ht Hi Hf. eapply tree_frame; [done|]. intros i d Hin Hd.
  destruct (Hf i d Hin Hd) as (d' & Hd' & E1 & E2). exists d'. split; [done|].
  rewrite decide_False in E1 by (intros ->; apply Hi; exists i; auto).
  rewrite decide_False in E2 by (intros ->; apply Hi; exists i; auto). done.
Qed.

Lemma grows_node (b : bool) ds l i r d here dp :
  NoDup (elems (Node l i r)) -> ds !! i = Some d -> ~ inside (Node l i r) here ->
  tree ds (dleft d) l -> tree ds (dright d) r ->
  (if b then grows ds (dright d) r (LRight i) dp /\ (dp = LRight i \/ inside r dp)
   else grows ds (dleft d) l (LLeft i) dp /\ (dp = LLeft i \/ inside l dp)) ->
  grows ds (Some i) (Node l i r) here dp.
Proof.
  cbn [elems]. intros [Hi Hnd]%NoDup_cons Hd Hh Hl Hr Hg ds' n Hn Hnew Hf.
  apply NoDup_app in Hnd as (_ & Hdisj & _).
  destruct (Hf i d) as (d' & Hd' & E1 & E2); [set_solver|done|].
  assert (dp <> here) as Hne.
  { intros ->. apply Hh. destruct b, Hg as [_ [->|(j & ? & ?)]]; cbn [elems inside];
      [exists i|exists j|exists i|exists j]; set_solver. }
  rewrite decide_False by done. destruct b.
  - destruct Hg as [Hg Hin].
    destruct (Hg ds' n) as (r' & Hr' & Hp'); [set_solver|done|intros j0 d0 Hj0; apply Hf; set_solver|].
    exists (Node l i r'). cbn [tree elems]. split.
    + split; [done|]. exists d'. split_and!; [done| |].
      * rewrite E1, decide_False by (destruct Hin as [->|(j & ? & [->| ->])]; [done|set_solver..]).
        eapply put_at_other; [done| |intros j0 d0 Hj0; apply Hf; set_solver].
        intros (j & Hj & Hdp). destruct Hin as [->|(j' & ? & [->| ->])]; destruct Hdp; set_solver.
      * by rewrite E2.
    + rewrite Hp'. rewrite <-Permutation_middle, Permutation_swap. done.
  - destruct Hg as [Hg Hin].
    destruct (Hg ds' n) as (l' & Hl' & Hp'); [set_solver|done|intros j0 d0 Hj0; apply Hf; set_solver|].
    exists (Node l' i r). cbn [tree elems]. split.
    + split; [done|]. exists d'. split_and!; [done| |].
      * by rewrite E1.
      * rewrite E2, decide_False by (destruct Hin as [->|(j & ? & [->| ->])]; [done|set_solver..]).
        eapply put_at_other; [done| |intros j0 d0 Hj0; apply Hf; set_solver].
        intros (j & Hj & Hdp). destruct Hin as [->|(j' & ? & [->| ->])]; destruct Hdp; set_solver.
    + rewrite Hp'. simpl. apply Permutation_swap.
Qed.

Section Walk.
Context (addr : sptr -> Z) (addr_inj : forall p q, addr p = addr q -> p = q).

Lemma listcmp_members_eq l1 : forall l2, length l1 = length l2 ->
  listcmp_members addr l1 l2 = 0 -> l1 = l2.
Proof.
  induction l1 as [|p l1 IH]; intros [|q l2]; simpl; try done. intros [= Hl].
  destruct (Z.ltb_spec (addr p) (addr q)); [done|].
  destruct (Z.ltb_spec (addr q) (addr p)); [done|]. intros E.
  f_equal; [apply addr_inj; lia|by apply IH].
Qed.

(** Equal as far as [listcmp] can tell is equal. *)
Lemma listcmp_eq l1 l2 : ~ listcmp addr l1 l2 < 0 -> ~ 0 < listcmp addr l1 l2 -> l1 = l2.
Proof.
  unfold listcmp. destruct (Nat.ltb_spec (length l1) (length l2)); [lia|].
  destruct (Nat.ltb_spec (length l2) (length l1)); [lia|]. intros.
  apply listcmp_members_eq; lia.
Qed.

Lemma walk_spec l t : forall fuel m dp p,
  dread m dp = Ret p -> tree (dst m) p t -> (length (elems t) <= fuel)%nat ->
  NoDup (elems t) -> ~ inside t dp ->
  (exists dp' i d, walk addr fuel m l dp = Ret (dp', Some i) /\ i ∈ elems t /\
     dst m !! i = Some d /\ dl d = l) \/
  (exists dp', walk addr fuel m l dp = Ret (dp', None) /\ (dp' = dp \/ inside t dp') /\
     grows (dst m) p t dp dp').
Proof.
  induction t as [|tl IHl i tr IHr]; intros fuel m dp p Hrd; cbn [tree elems].
  { intros -> _ _ _. right. exists dp. split_and!; [|by left|apply grows_leaf].
    destruct fuel; simpl; by rewrite Hrd. }
  intros (-> & d & Hd & Hl & Hr) Hle Hnd Hdp. pose proof Hnd as Hnd0.
  apply NoDup_cons in Hnd as [Hi Hnd]. apply NoDup_app in Hnd as (Hnl & Hlr & Hnr).
  simpl in Hle. rewrite length_app in Hle. destruct fuel as [|n]; [lia|].
  cbn [walk]. rewrite Hrd. simpl. rewrite Hd. simpl.
  destruct (Z.ltb_spec (listcmp addr l (dl d)) 0) as [Hk|Hk];
    [|destruct (Z.ltb_spec 0 (listcmp addr l (dl d))) as [Hk'|Hk']].
  - destruct (IHl n m (LLeft i) (dleft d)) as [(dp' & j & dj & E & Hj & Hrest)|(dp' & E & Hin & Hg)];
      [simpl; by rewrite Hd|done|lia|done|intros (j & ? & [?|?]); set_solver| |]; rewrite E.
    + left. exists dp', j, dj. split_and!; [done|set_solver|apply Hrest..].
    + right. exists dp'. split_and!; [done| |].
      * right. destruct Hin as [->|(j & ? & ?)]; [exists i|exists j]; cbn [elems]; set_solver.
      * by eapply (grows_node false).
  - destruct (IHr n m (LRight i) (dright d)) as [(dp' & j & dj & E & Hj & Hrest)|(dp' & E & Hin & Hg)];
      [simpl; by rewrite Hd|done|lia|done|intros (j & ? & [?|?]); set_solver| |]; rewrite E.
    + left. exists dp', j, dj. split_and!; [done|set_solver|apply Hrest..].
    + right. exists dp'. split_and!; [done| |].
      * right. destruct Hin as [->|(j & ? & ?)]; [exists i|exists j]; cbn [elems]; set_solver.
      * by eapply (grows_node true).
  - left. exists dp, i, d. split_and!; [done|set_solver|done|].
    symmetry. apply listcmp_eq; lia.
Qed.
End Walk.

(** ** The cache *)

(** The heap of DStates is the tree [t] and the free list [fl], within the
    bound. *)
Record cache_ok (m : dmem) (t : dtree) (fl : list nat) : Prop := {
  c_tree : tree (dst m) (alldstates m) t;
  c_free : chain (dst m) (freelist m) fl;
  c_nodup : NoDup (elems t ++ fl);
  c_all : length (elems t ++ fl) = length (dst m);
  c_count : nstates m = Z.of_nat (length (elems t));
  c_bound : Z.of_nat (length (dst m)) <= maxstates
}.

(** What cached DStates mean: the list of each is a state list of the
    automaton, and a cached transition leads to the list of the longer word. *)
Definition cached_list (h : heap) (st : sptr) (l : list sptr) : Prop :=
  exists w, state_list h st w l.

Definition next_ok (h : heap) (st : sptr) (l : list sptr) (c : Z) (l' : list sptr) : Prop :=
  forall w, state_list h st w l -> state_list h st (w ++ [c]) l'.

Definition sem (h : heap) (st : sptr) (ds : list DState) (t : dtree) : Prop :=
  forall i, i ∈ elems t -> exists d, ds !! i = Some d /\ cached_list h st (dl d) /\
    forall c j, dnext d !! c = Some j ->
      j ∈ elems t /\ exists d', ds !! j = Some d' /\ next_ok h st (dl d) c (dl d').

Lemma state_list_perm h st w l l' : l' ≡ₚ l -> state_list h st w l -> state_list h st w l'.
Proof. intros Hp [Hd Hin]. split; [by rewrite Hp|]. intros q. by rewrite Hp. Qed.

(** The list after a longer word depends on the list only, not on the word. *)
Lemma state_list_next h st w l c l' : c <> Split ->
  state_list h st w l -> state_list h st (w ++ [c]) l' -> next_ok h st l c l'.
Proof.
  intros Hc Hl [Hd Hin] w' Hl'. split; [done|]. intros q. rewrite Hin.
  by rewrite <-(state_list_arrows h st w l c q Hl Hc), (state_list_arrows h st w' l c q Hl' Hc).
Qed.

Lemma freecache_spec m t fl : cache_ok m t fl ->
  exists m1 fl1, freecache m = Ret m1 /\ cache_ok m1 Leaf fl1 /\ nfa m1 = nfa m.
Proof.
  intros [Ht Hf Hnd Hall Hc Hb]. unfold freecache.
  pose proof Hall as Hlen. rewrite length_app in Hlen.
  destruct (freestates_spec t (length (dst m)) (dst m) (freelist m) (alldstates m) fl)
    as (ds & f & fl1 & -> & Hc1 & Hp & Hl1 & _); [done..|lia|].
  simpl. eexists _, fl1. split_and!; [done| |done]. constructor; simpl; try done.
  - by rewrite Hp.
  - rewrite Hp, Hl1. lia.
  - by rewrite Hl1.
Qed.

(** The state of the cache between [allocdstate] and the store into [*dp]: the
    object [n] belongs to nothing yet. *)
Record pending (m m1 : dmem) (t : dtree) (fl1 : list nat) (n : nat) (l : option (list sptr)) : Prop := {
  p_free : chain (dst m1) (freelist m1) fl1;
  p_nodup : NoDup (n :: elems t ++ fl1);
  p_all : length (n :: elems t ++ fl1) = length (dst m1);
  p_bound : Z.of_nat (length (dst m1)) <= maxstates;
  p_keep : forall i, i ∈ elems t -> dst m1 !! i = dst m !! i;
  p_new : exists d, dst m1 !! n = Some d /\ dnext d = ∅ /\ dleft d = None /\ dright d = None /\
    (forall l', l = Some l' -> dl d = l');
  p_same : nfa m1 = nfa m /\ alldstates m1 = alldstates m /\ nstates m1 = nstates m
}.

Lemma allocdstate_spec m t fl : cache_ok m t fl -> nstates m < maxstates ->
  exists m1 n fl1, allocdstate m = Ret (m1, n) /\ pending m m1 t fl1 n None.
Proof.
  intros [Ht Hf Hnd Hall Hc Hb] Hlt. unfold allocdstate.
  destruct fl as [|i fl]; simpl in Hf.
  - rewrite Hf. rewrite app_nil_r in *. eexists _, _, []. split; [done|].
    assert (Hlt' : forall i, i ∈ elems t -> (i < length (dst m))%nat).
    { intros i Hi. destruct (tree_lookup _ _ _ _ Ht Hi) as [d Hd]. by eapply lookup_lt_Some. }
    constructor; simpl; rewrite ?app_nil_r, ?length_app; simpl; try done; try lia.
    + apply NoDup_cons. split; [|done]. intros Hi%Hlt'. lia.
    + intros i Hi. by rewrite lookup_app_l by by apply Hlt'.
    + eexists. rewrite list_lookup_middle by done. done.
  - destruct Hf as (-> & d & Hd & Hch). rewrite Hd. simpl. eexists _, i, fl. split; [done|].
    rewrite <-Permutation_middle in Hnd. rewrite <-Permutation_middle in Hall.
    apply NoDup_cons in Hnd as [Hi Hnd].
    constructor; simpl; rewrite ?length_insert; try done.
    + eapply chain_frame; [done|]. intros j Hj. rewrite list_lookup_insert_ne; [done|]. set_solver.
    + by apply NoDup_cons.
    + intros j Hj. rewrite list_lookup_insert_ne; [done|]. set_solver.
    + eexists. rewrite list_lookup_insert_eq by by eapply lookup_lt_Some. done.
Qed.

Lemma set_list_spec m m1 t fl1 n l : pending m m1 t fl1 n None -> (length l <= nstate (nfa m))%nat ->
  exists m2, set_list m1 n l = Ret m2 /\ pending m m2 t fl1 n (Some l).
Proof.
  intros [Hf Hnd Hall Hb Hk (d & Hd & E1 & E2 & E3 & _) (N1 & N2 & N3)] Hl. unfold set_list.
  rewrite Hd, N1. simpl. rewrite (proj2 (Nat.leb_le _ _)) by done. eexists. split; [done|].
  pose proof Hnd as [Hn _]%NoDup_cons.
  constructor; simpl; rewrite ?length_insert; try done.
  - eapply chain_frame; [done|]. intros j Hj. rewrite list_lookup_insert_ne; [done|]. set_solver.
  - intros i Hi. rewrite list_lookup_insert_ne; [auto|]. set_solver.
  - eexists. rewrite list_lookup_insert_eq by by eapply lookup_lt_Some. split_and!; try done.
    simpl. by intros ? [= <-].
Qed.

(** What [*dp = n] does to the DStates. *)
Lemma dwrite_spec m dp n t p : tree (dst m) p t -> (dp = LRoot \/ inside t dp) ->
  exists m', dwrite m dp (Some n) = Ret m' /\ nfa m' = nfa m /\ nstates m' = nstates m /\
    freelist m' = freelist m /\ length (dst m') = length (dst m) /\
    alldstates m' = (if decide (dp = LRoot) then Some n else alldstates m) /\
    (forall i, i ∉ elems t -> dst m' !! i = dst m !! i) /\
    forall i d, dst m !! i = Some d -> exists d', dst m' !! i = Some d' /\ put_at dp n i d d' /\
      dl d' = dl d /\ dnext d' = dnext d.
Proof.
  intros Ht [->|(i & Hi & Hdp)].
  { eexists. split_and!; try done. intros i d Hd. exists d. split_and!; done. }
  destruct (tree_lookup _ _ _ _ Ht Hi) as [d Hd]. pose proof (lookup_lt_Some _ _ _ Hd).
  destruct Hdp as [->| ->]; simpl; rewrite Hd; eexists; (split; [done|]); split_and!; simpl;
    rewrite ?length_insert; try done; try (by case_decide).
  1, 3: intros j Hj; rewrite list_lookup_insert_ne; [done|set_solver].
  all: intros j dj Hj; destruct (decide (i = j)) as [->|Hne];
    [simplify_eq; rewrite list_lookup_insert_eq by done; eexists; split_and!; try done;
      unfold put_at; simpl; by repeat case_decide
    |rewrite list_lookup_insert_ne by done; exists dj; split_and!; try done;
      unfold put_at; by repeat case_decide; simplify_eq].
Qed.

#[global] Arguments allocdstate : simpl never.
#[global] Arguments set_list : simpl never.
#[global] Arguments dwrite : simpl never.
#[global] Arguments freecache : simpl never.

(** A new DState is hung in the tree, the others keep their lists and
    transitions. *)
Lemma new_dstate_spec m t fl dp l : cache_ok m t fl -> nstates m < maxstates ->
  (dp = LRoot \/ inside t dp) -> grows (dst m) (alldstates m) t LRoot dp ->
  (length l <= nstate (nfa m))%nat ->
  exists m' n t' fl', new_dstate m dp l = Ret (m', n) /\ cache_ok m' t' fl' /\
    elems t' ≡ₚ n :: elems t /\ nfa m' = nfa m /\
    (exists d, dst m' !! n = Some d /\ dl d = l /\ dnext d = ∅) /\
    forall i d, i ∈ elems t -> dst m !! i = Some d ->
      exists d', dst m' !! i = Some d' /\ dl d' = dl d /\ dnext d' = dnext d.
Proof.
  intros Hc Hlt Hdp Hg Hl. unfold new_dstate.
  destruct (allocdstate_spec m t fl Hc Hlt) as (m1 & n & fl1 & -> & P1). simpl.
  destruct (set_list_spec _ _ _ _ _ l P1 Hl) as (m2 & -> & [Hf Hnd Hall Hb Hk Hnew (N1 & N2 & N3)]). simpl.
  destruct Hnew as (d & Hd & Ed1 & Ed2 & Ed3 & Ed4). pose proof Hnd as [Hn _]%NoDup_cons.
  assert (Ht2 : tree (dst m2) (alldstates m2) t).
  { rewrite N2. eapply tree_frame; [apply Hc|]. intros i di Hi Hdi. exists di.
    rewrite Hk by done. done. }
  destruct (dwrite_spec m2 dp n t _ Ht2 Hdp) as (m3 & -> & M1 & M2 & M3 & M4 & M5 & M6 & M7). simpl.
  destruct (Hg (dst m3) n) as (t' & Ht' & Hp').
  { set_solver. }
  { exists d. rewrite M6 by set_solver. done. }
  { intros i di Hi Hdi. destruct (M7 i di) as (d' & ? & ? & _); [by rewrite Hk|]. eauto. }
  eexists _, n, t', fl1. split_and!; [done| |done|simpl; congruence| |].
  - constructor; simpl.
    + by rewrite M5, N2.
    + rewrite M3. eapply chain_frame; [done|]. intros i Hi. apply M6. 
      apply NoDup_cons in Hnd as [_ Hnd]. apply NoDup_app in Hnd as (_ & Hdis & _). set_solver.
    + by rewrite Hp'.
    + rewrite Hp', M4. done.
    + rewrite Hp', M2, N3, (c_count _ _ _ Hc). simpl. lia.
    + by rewrite M4.
  - exists d. simpl. rewrite M6 by set_solver. auto.
  - intros i di Hi Hdi. destruct (M7 i di) as (d' & ? & _ & ? & ?); [by rewrite Hk|]. simpl. eauto.
Qed.

(** Caching a transition. *)
Lemma set_next_ok m t fl i c n d : cache_ok m t fl -> dst m !! i = Some d ->
  cache_ok (with_dst m (<[i := with_next d c n]> (dst m))) t fl.
Proof.
  intros [Ht Hf Hnd Hall Hc Hb] Hd. pose proof (lookup_lt_Some _ _ _ Hd).
  assert (Hsame : forall j dj, dst m !! j = Some dj ->
    exists d', <[i := with_next d c n]> (dst m) !! j = Some d' /\ links dj d').
  { intros j dj Hj. destruct (decide (i = j)) as [->|].
    - simplify_eq. rewrite list_lookup_insert_eq by done. eexists. done.
    - rewrite list_lookup_insert_ne by done. by exists dj. }
  constructor; simpl; rewrite ?length_insert; try done.
  - eapply tree_frame; [done|]. intros j dj _. apply Hsame.
  - clear -Hf Hsame. revert Hf. generalize (freelist m). induction fl as [|j fl IH]; intros p; [done|].
    simpl. intros (-> & dj & Hj & Hch). split; [done|].
    destruct (Hsame j dj Hj) as (d' & Hd' & E1 & _). exists d'. rewrite <-E1. auto.
Qed.

(** ** The operations keep the cache meaningful *)

Definition dfa_inv (h : heap) (st : sptr) (m : dmem) : Prop :=
  mem_ok h (nfa m) /\ exists t fl, cache_ok m t fl /\ sem h st (dst m) t.

(** DState [i] of the tree holds a state list of the words [w]. *)
Definition holds (h : heap) (st : sptr) (m : dmem) (i : nat) (w : list Z) : Prop :=
  exists t fl d, cache_ok m t fl /\ sem h st (dst m) t /\ i ∈ elems t /\ dst m !! i = Some d /\
    state_list h st w (dl d).

Lemma sem_grow h st ds ds' t t' n d : sem h st ds t -> elems t' ≡ₚ n :: elems t ->
  ds' !! n = Some d -> dnext d = ∅ -> cached_list h st (dl d) ->
  (forall i d, i ∈ elems t -> ds !! i = Some d ->
    exists d', ds' !! i = Some d' /\ dl d' = dl d /\ dnext d' = dnext d) ->
  sem h st ds' t'.
Proof.
  intros Hs Hp Hd Hn Hl Hk i. rewrite Hp. intros [->|Hi]%elem_of_cons.
  - exists d. split_and!; try done. intros c j. by rewrite Hn, lookup_empty.
  - destruct (Hs i Hi) as (di & Hdi & Hli & Hni). destruct (Hk i di Hi Hdi) as (d' & Hd' & El & En).
    exists d'. rewrite El, En. split_and!; try done. intros c j Hj.
    destruct (Hni c j Hj) as (Hjt & dj & Hdj & Hnj). rewrite Hp. split; [set_solver|].
    destruct (Hk j dj Hjt Hdj) as (dj' & Hdj' & Elj & _). exists dj'. by rewrite Elj.
Qed.

Lemma sem_next h st ds t i c n d d' : sem h st ds t -> ds !! i = Some d ->
  n ∈ elems t -> ds !! n = Some d' -> next_ok h st (dl d) c (dl d') ->
  sem h st (<[i := with_next d c n]> ds) t.
Proof.
  intros Hs Hd Hn Hd' Hnext. pose proof (lookup_lt_Some _ _ _ Hd).
  assert (Hl : forall j dj, ds !! j = Some dj ->
    exists dj', <[i := with_next d c n]> ds !! j = Some dj' /\ dl dj' = dl dj).
  { intros j dj Hj. destruct (decide (i = j)) as [->|].
    - simplify_eq. rewrite list_lookup_insert_eq by done. by eexists.
    - rewrite list_lookup_insert_ne by done. by exists dj. }
  intros j Hj. destruct (Hs j Hj) as (dj & Hdj & Hlj & Hnj).
  assert (Hold : forall c' k, dnext dj !! c' = Some k -> k ∈ elems t /\
    exists dk, <[i := with_next d c n]> ds !! k = Some dk /\ next_ok h st (dl dj) c' (dl dk)).
  { intros c' k Hk. destruct (Hnj c' k Hk) as (Hkt & dk & Hdk & Hnk). split; [done|].
    destruct (Hl k dk Hdk) as (dk' & ? & E). exists dk'. by rewrite E. }
  destruct (decide (i = j)) as [->|].
  - simplify_eq. exists (with_next d c n). rewrite list_lookup_insert_eq by done.
    split_and!; [done..|]. intros c' k. simpl. rewrite lookup_insert.
    case_decide; [|by apply Hold]. intros [= <-]. subst. split; [done|].
    destruct (Hl n d' Hd') as (dn & ? & E). exists dn. by rewrite E.
  - exists dj. rewrite list_lookup_insert_ne by done. auto.
Qed.

Section Cache.
Context (h : heap) (st : sptr) (Hne : h <> []).
Context (addr : sptr -> Z) (addr_inj : forall p q, addr p = addr q -> p = q).
Context (sort : list sptr -> list sptr) (sort_perm : forall l, sort l ≡ₚ l).

(** [nextp] is null or a transition of a cached DState for which [l] is right. *)
Definition nextp_ok (m : dmem) (t : dtree) (l : list sptr) (nextp : option (nat * Z)) : Prop :=
  match nextp with
  | None => True
  | Some (i, c) => i ∈ elems t /\ exists d, dst m !! i = Some d /\ next_ok h st (dl d) c l
  end.

(** The second half of [dstate]: the cache has room, [dp] is where the walk
    ended. *)
Lemma dstate_new m t fl dp l w nextp : mem_ok h (nfa m) -> cache_ok m t fl ->
  sem h st (dst m) t -> nstates m < maxstates -> (dp = LRoot \/ inside t dp) ->
  grows (dst m) (alldstates m) t LRoot dp -> state_list h st w l -> nextp_ok m t l nextp ->
  exists m' n, ('(m, d) ← new_dstate m dp l;
    match nextp with
    | None => Ret (m, d)
    | Some (i, c) =>
      di ← oget (dst m !! i);
      Ret (with_dst m (<[i := with_next di c d]> (dst m)), d)
    end) = Ret (m', n) /\ mem_ok h (nfa m') /\ holds h st m' n w.
Proof.
  intros Hm Hc Hs Hlt Hdp Hg Hl Hn.
  destruct (new_dstate_spec m t fl dp l) as (m1 & n & t1 & fl1 & -> & Hc1 & Hp & Hnfa & (d & Hd & El & En) & Hk);
    try done.
  { rewrite (nstate_static h) by apply Hm. by eapply state_list_fits. }
  subst l. assert (Hs1 : sem h st (dst m1) t1) by (eapply sem_grow; try done; by exists w).
  simpl. destruct nextp as [[i c]|]; simpl in Hn.
  - destruct Hn as (Hi & di & Hdi & Hnext).
    destruct (Hk i di Hi Hdi) as (di' & Hdi' & Eli & _). rewrite Hdi'. simpl.
    eexists _, n. split; [done|]. rewrite <-Hnfa in Hm. split; [done|].
    assert (n <> i) as Hni.
    { intros ->. destruct Hc1 as [_ _ Hnd _ _ _]. rewrite Hp in Hnd.
      apply NoDup_cons in Hnd as [Hnd _]. set_solver. }
    exists t1, fl1, d. split_and!; simpl; [by apply set_next_ok| |rewrite Hp; set_solver| |done].
    + eapply sem_next; try done; [rewrite Hp; set_solver|by rewrite Eli].
    + by rewrite list_lookup_insert_ne.
  - eexists _, n. split; [done|]. rewrite <-Hnfa in Hm. split; [done|].
    exists t1, fl1, d. split_and!; try done. rewrite Hp. set_solver.
Qed.

Lemma dstate_spec m t fl l w nextp : mem_ok h (nfa m) -> cache_ok m t fl -> sem h st (dst m) t ->
  state_list h st w l -> nextp_ok m t l nextp ->
  exists m' n, dstate addr sort m l nextp = Ret (m', n) /\ mem_ok h (nfa m') /\ holds h st m' n w.
Proof.
  intros Hm Hc Hs Hl Hn. unfold dstate.
  apply (state_list_perm _ _ _ _ (sort l)) in Hl; [|done].
  assert (Hn' : nextp_ok m t (sort l) nextp).
  { destruct nextp as [[i c]|]; [|done]. destruct Hn as (Hi & d & Hd & Hnext).
    split; [done|]. exists d. split; [done|]. intros w' Hw'.
    eapply state_list_perm; [apply sort_perm|auto]. }
  pose proof Hc as [Ht _ Hnd Hall Hcount _]. rewrite length_app in Hall.
  destruct (walk_spec addr addr_inj (sort l) t (length (dst m)) m LRoot (alldstates m))
    as [(dp & i & d & -> & Hi & Hd & El)|(dp & -> & Hdp & Hg)];
    [done|done|lia|by apply NoDup_app in Hnd as [? _]|by intros (? & _ & [?|?])| |]; simpl.
  - exists m, i. split_and!; try done. exists t, fl, d. by rewrite El.
  - destruct (Z.leb_spec maxstates (nstates m)) as [Hfull|Hroom]; simpl.
    + destruct (freecache_spec m t fl Hc) as (m1 & fl1 & -> & Hc1 & Hnfa). simpl.
      rewrite <-Hnfa in Hm. pose proof Hc1 as [Hr _ _ _ Hz _]. simpl in Hr.
      apply (dstate_new m1 Leaf fl1 LRoot (sort l) w None); try done.
      * intros i Hi. set_solver.
      * rewrite Hz. done.
      * by left.
      * rewrite Hr. apply grows_leaf.
    + by apply (dstate_new m t fl dp (sort l) w nextp).
Qed.

Context (Hok : heap_ok h) (Hst : valid h st).

Lemma startdstate_spec m : dfa_inv h st m ->
  exists m' n, startdstate addr sort m st = Ret (m', n) /\ mem_ok h (nfa m') /\ holds h st m' n [].
Proof.
  intros (Hm & t & fl & Hc & Hs). unfold startdstate.
  destruct (startlist_spec h (nfa m) st Hok Hne Hst Hm) as (n & l & -> & Hm' & Hl). simpl.
  apply (dstate_spec (with_nfa m n) t fl l [] None); try done.
  by destruct Hc; constructor.
Qed.

Lemma nextstate_spec m i c w : mem_ok h (nfa m) -> holds h st m i w -> c < 256 ->
  exists m' n, nextstate addr sort m i c = Ret (m', n) /\ mem_ok h (nfa m') /\
    holds h st m' n (w ++ [c]).
Proof.
  intros Hm (t & fl & d & Hc & Hs & Hi & Hd & Hl) Hlt. unfold nextstate. rewrite Hd. simpl.
  destruct (step_spec h (nfa m) st w (dl d) c Hok Hne Hm Hl Hlt) as (n & l & -> & Hm' & Hl'). simpl.
  apply (dstate_spec (with_nfa m n) t fl l (w ++ [c]) (Some (i, c))); try done.
  - by destruct Hc; constructor.
  - split; [done|]. exists d. split; [done|].
    apply (state_list_next h st w); [unfold Split; lia|done..].
Qed.

Lemma dfa_match_spec s : Forall byte s -> forall m i w, mem_ok h (nfa m) -> holds h st m i w ->
  exists m' l, dfa_match addr sort m i s = Ret (m', ismatch l) /\ dfa_inv h st m' /\
    state_list h st (w ++ s) l.
Proof.
  induction 1 as [|c s Hc Hs IH]; intros m i w Hm Hi; pose proof Hi as (t & fl & d & Hca & Hse & Hin & Hd & Hl);
    cbn [dfa_match]; rewrite Hd; cbn -[Z.land].
  { exists m, (dl d). rewrite app_nil_r. split_and!; [done|split; eauto|done]. }
  rewrite land_byte by done. destruct (dnext d !! c) as [n|] eqn:En.
  - destruct (Hse i Hin) as (d' & Hd' & _ & Hnext). simplify_eq.
    destruct (Hnext c n En) as (Hn & dn & Hdn & Hok').
    destruct (IH m n (w ++ [c])) as (m' & l & E & ? & ?); [done|by exists t, fl, dn; auto 6|].
    exists m', l. rewrite <-app_assoc in *. done.
  - destruct (nextstate_spec m i c w) as (m1 & n & -> & Hm1 & Hn1); [done..|apply Hc|]. simpl.
    destruct (IH m1 n (w ++ [c])) as (m' & l & E & ? & ?); [done..|].
    exists m', l. rewrite <-app_assoc in *. done.
Qed.

Lemma dfa_print_spec r : frag_ok h r st PMatch -> lits_ok is_byte r = true ->
  forall args, Forall (Forall byte) args -> forall m, dfa_inv h st m ->
  exists m' outs, dfa_print addr sort m st args = Ret (m', outs) /\ dfa_inv h st m' /\
    kept (matches (signed r)) args outs.
Proof.
  intros Hf Hlits. induction 1 as [|s args Hs Ha IH]; intros m Hm; simpl.
  { exists m, []. split_and!; [done..|constructor]. }
  destruct (startdstate_spec m Hm) as (m1 & i & -> & Hm1 & Hi). simpl.
  destruct (dfa_match_spec s Hs m1 i [] Hm1 Hi) as (m2 & l & -> & Hm2 & Hl). simpl.
  destruct (IH m2 Hm2) as (m3 & outs & -> & Hm3 & Hk). simpl.
  pose proof (match_list h r st Hf Hlits s l Hl) as Hb.
  eexists _, _. split_and!; [done..|]. destruct (ismatch l); constructor; try done; [by apply Hb|].
  intros Hw%Hb. done.
Qed.
End Cache.

Lemma dfa_inv0 h st : clean h -> dfa_inv h st (dmem0 h).
Proof.
  intros Hc. split; [by apply mem0_ok|]. exists Leaf, [].
  split; [by constructor; try constructor|]. intros i Hi. set_solver.
Qed.

(** ** What the cache promises *)

Section Reached.
Context (addr : sptr -> Z) (sort : list sptr -> list sptr) (h : heap) (st : sptr).

(** The memories the program goes through between subjects. *)
Inductive reached : dmem -> Prop :=
| reached_init : reached (dmem0 h)
| reached_match m s m1 i m2 b :
    reached m -> Forall byte s -> startdstate addr sort m st = Ret (m1, i) ->
    dfa_match addr sort m1 i s = Ret (m2, b) -> reached m2.
End Reached.

Lemma reached_inv addr sort h st m : (forall p q, addr p = addr q -> p = q) ->
  (forall l, sort l ≡ₚ l) -> h <> [] -> heap_ok h -> valid h st -> clean h ->
  reached addr sort h st m -> dfa_inv h st m.
Proof.
  intros Ha Hp Hne Hok Hv Hc. induction 1 as [|m s m1 i m2 b _ IH Hs E1 E2]; [by apply dfa_inv0|].
  destruct (startdstate_spec h st Hne addr Ha sort Hp Hok Hv m IH) as (m1' & i' & E1' & Hm1 & Hi).
  rewrite E1 in E1'. injection E1' as <- <-.
  destruct (dfa_match_spec h st Hne addr Ha sort Hp Hok s Hs m1 i [] Hm1 Hi)
    as (m2' & l & E2' & Hm2 & _). rewrite E2 in E2'. by injection E2' as <- _.
Qed.

(** An injective address assignment and the list left as it is. *)
Definition addr_ex (p : sptr) : Z := match p with PState i => Z.of_nat i | PMatch => -1 end.

Lemma addr_ex_inj p q : addr_ex p = addr_ex q -> p = q.
Proof. destruct p, q; simpl; intros; try lia; [f_equal; lia|done]. Qed.

(** C4. The memory of the matcher is bounded: whatever subjects have been
    matched, at most [maxstates] DStates have been allocated, each of them is
    either in the search tree or in the free list and in one place only, and
    [nstates] counts those in the tree. *)
Theorem dfa_cache_bounded addr sort r h st m :
  (forall p q, addr p = addr q -> p = q) -> (forall l, sort l ≡ₚ l) ->
  lits_ok operand r = true -> (need r <= STACK)%nat -> post2nfa (postfix r) = Ret (h, Some st) ->
  reached addr sort h st m ->
  Z.of_nat (length (dst m)) <= 32 /\
  exists t fl, tree (dst m) (alldstates m) t /\ chain (dst m) (freelist m) fl /\
    NoDup (elems t ++ fl) /\ (forall i, (i < length (dst m))%nat <-> i ∈ elems t ++ fl) /\
    nstates m = Z.of_nat (length (elems t)).
Proof.
  intros Ha Hp Hl Hn E Hr.
  destruct (post2nfa_builds r (operand_plain r Hl) Hn) as (h' & p & E' & Hf & Hok & Hv).
  rewrite E in E'. injection E' as <- <-.
  apply (reached_inv addr sort h st m Ha Hp (start_not_nil _ _ _ _ Hf) Hok Hv (post2nfa_clean _ _ _ E)) in Hr.
  destruct Hr as (_ & t & fl & [Ht Hfl Hnd Hall Hc Hb] & _). split; [done|].
  exists t, fl. split_and!; try done. intros i.
  assert (Hsub : elems t ++ fl ⊆ seq 0 (length (dst m))).
  { intros j [Hj|Hj]%elem_of_app; apply elem_of_seq; split; try lia.
    - destruct (tree_lookup _ _ _ _ Ht Hj) as [d Hd]. by eapply lookup_lt_Some.
    - clear -Hfl Hj. revert Hfl. generalize (freelist m).
      induction fl as [|k fl IH]; intros q; [set_solver|]. simpl. intros (_ & d & Hd & Hch).
      apply elem_of_cons in Hj as [->|Hj]; [by eapply lookup_lt_Some|by eapply IH]. }
  split; [|intros Hi%Hsub%elem_of_seq; lia].
  intros Hi. assert (Hperm : elems t ++ fl ≡ₚ seq 0 (length (dst m))).
  { apply submseteq_length_Permutation; [by apply NoDup_submseteq|].
    rewrite length_seq. lia. }
  rewrite Hperm. apply elem_of_seq. lia.
Qed.

Lemma dfa_cache_bounded_witness : exists h st m,
  post2nfa (postfix (RChr 97)) = Ret (h, Some st) /\ dst m <> [] /\
  Z.of_nat (length (dst m)) <= 32.
Proof.
  destruct (post2nfa (postfix (RChr 97))) as [[h [st|]]| |] eqn:E; try discriminate.
  destruct (startdstate addr_ex id (dmem0 h) st) as [[m1 i]| |] eqn:E1;
    [|vm_compute in E; injection E as <- <-; vm_compute in E1; discriminate..].
  destruct (dfa_match addr_ex id m1 i [97]) as [[m2 b]| |] eqn:E2;
    [|vm_compute in E; injection E as <- <-; vm_compute in E1; injection E1 as <- <-;
      vm_compute in E2; discriminate..].
  exists h, st, m2. split; [exact eq_refl || exact E|]. split.
  - vm_compute in E. injection E as <- <-. vm_compute in E1. injection E1 as <- <-.
    vm_compute in E2. injection E2 as <- <-. discriminate.
  - apply (dfa_cache_bounded addr_ex id (RChr 97) h st m2); [apply addr_ex_inj|done|reflexivity|
      vm_compute; lia|exact E|].
    eapply reached_match; [apply reached_init|..|exact E1|exact E2].
    repeat constructor; vm_compute; discriminate.
Defined.

(** C3. The cached automaton is equivalent to the simulation: from any memory
    the program can be in, [match] of bounded-mem-dfa.c and [match] of nfa.c give
    the same answer on every subject. *)
Theorem dfa_match_equiv addr sort r h st m s :
  (forall p q, addr p = addr q -> p = q) -> (forall l, sort l ≡ₚ l) ->
  lits_ok operand r = true -> (need r <= STACK)%nat -> post2nfa (postfix r) = Ret (h, Some st) ->
  reached addr sort h st m -> Forall byte s ->
  exists m1 i m2 n b, startdstate addr sort m st = Ret (m1, i) /\
    dfa_match addr sort m1 i s = Ret (m2, b) /\ nfa_match (mem0 h) st s = Ret (n, b).
Proof.
  intros Ha Hp Hl Hn E Hr Hs.
  destruct (post2nfa_builds r (operand_plain r Hl) Hn) as (h' & p & E' & Hf & Hok & Hv).
  rewrite E in E'. injection E' as <- <-.
  pose proof (start_not_nil _ _ _ _ Hf) as Hne. pose proof (post2nfa_clean _ _ _ E) as Hcl.
  apply (reached_inv addr sort h st m Ha Hp Hne Hok Hv Hcl) in Hr.
  destruct (startdstate_spec h st Hne addr Ha sort Hp Hok Hv m Hr) as (m1 & i & E1 & Hm1 & Hi).
  destruct (dfa_match_spec h st Hne addr Ha sort Hp Hok s Hs m1 i [] Hm1 Hi) as (m2 & l & E2 & _ & Hsl).
  destruct (nfa_match_spec h r st Hok Hv Hf (operand_byte r Hl) (mem0 h) s (mem0_ok h Hcl) Hs)
    as (n & b & E3 & _ & Hb).
  pose proof (match_list h r st Hf (operand_byte r Hl) s l Hsl) as Hb'.
  exists m1, i, m2, n, (ismatch l). split_and!; [done..|]. rewrite E3. do 2 f_equal.
  destruct b, (ismatch l); naive_solver.
Qed.

Lemma dfa_match_equiv_witness : exists h st m1 i m2 n b,
  post2nfa (postfix (RChr 97)) = Ret (h, Some st) /\
  startdstate addr_ex id (dmem0 h) st = Ret (m1, i) /\
  dfa_match addr_ex id m1 i [97; 98] = Ret (m2, b) /\ nfa_match (mem0 h) st [97; 98] = Ret (n, b).
Proof.
  destruct (post2nfa (postfix (RChr 97))) as [[h [st|]]| |] eqn:E; try discriminate.
  exists h, st.
  destruct (dfa_match_equiv addr_ex id (RChr 97) h st (dmem0 h) [97; 98])
    as (m1 & i & m2 & n & b & E1 & E2 & E3); [apply addr_ex_inj|done|reflexivity|vm_compute; lia|
    exact E|apply reached_init|repeat constructor; vm_compute; discriminate|].
  exists m1, i, m2, n, b. auto.
Defined.

(** C1. bounded-mem-dfa.c is correct: for an ASCII pattern without [.] that is
    shorter than 4000 characters, nested at most 100 deep and fits the operand
    stack, whatever addresses the allocator picks and whatever permutation
    [qsort] with [ptrcmp] yields, the program stays inside its arrays and objects,
    ends, and prints, in order, exactly the arguments that are words of the
    pattern; bad command lines give exit status 1. *)
Theorem dfa_main_correct addr sort :
  (forall p q, addr p = addr q -> p = q) -> (forall l, sort l ≡ₚ l) ->
  (forall r re args, g_alt 100 r re -> (length re < 4000)%nat ->
     forallb (fun c => textual c && (c <? 128)) re = true -> (need r <= STACK)%nat ->
     args <> [] -> Forall (Forall byte) args ->
     exists outs, dfa_main addr sort (re :: args) = Ret (0, outs) /\ kept (matches r) args outs) /\
  (forall args, (length args < 2)%nat -> dfa_main addr sort args = Ret (1, [])) /\
  (forall re args, re2post re = None -> dfa_main addr sort (re :: args) = Ret (1, [])).
Proof.
  intros Ha Hp. split; [|split].
  - intros r re args Hg Hl Ht Hn Hargs Hb. destruct args as [|a args]; [done|].
    destruct (ascii_text r re Hg Ht) as [Hops Hasc]. unfold dfa_main. rewrite (re2post_complete r re Hg Hl).
    destruct (post2nfa_builds r (operand_plain r Hops) Hn) as (h & p & E & Hf & Hok & Hv).
    rewrite E. simpl.
    destruct (dfa_print_spec h p (start_not_nil _ _ _ _ Hf) addr Ha sort Hp Hok Hv r Hf
      (operand_byte r Hops) (a :: args) Hb (dmem0 h)) as (m & outs & Hpr & _ & Hk);
      [by eapply dfa_inv0, post2nfa_clean|].
    simpl in Hpr. rewrite Hpr. simpl. rewrite Hasc in Hk. eauto.
  - intros [|a [|b args]]; simpl; intros; (done || lia).
  - intros re [|a args] E; [done|]. unfold dfa_main. by rewrite E.
Qed.

Lemma dfa_main_correct_witness :
  exists outs, dfa_main addr_ex id [[97; 42]; [97; 97]; [98]] = Ret (0, outs) /\
    kept (matches (RStar (RChr 97))) [[97; 97]; [98]] outs.
Proof.
  apply (proj1 (dfa_main_correct addr_ex id addr_ex_inj (fun l => reflexivity l))).
  - apply ga_cat, gc_rep, (gr_star _ _ [97]). by apply gr_chr.
  - vm_compute. lia.
  - reflexivity.
  - vm_compute. lia.
  - discriminate.
  - repeat constructor; vm_compute; discriminate.
Defined.
