(* ===== verification/Bits.v ===== *)
(** Byte arrays read as arrays of bits, highest bit of a byte first, the way
    src/c-study/des/des.c reads them: the macros GETBIT, SETBIT and CLRBIT with
    what they do to each bit. *)
From S2P Require Import Prelude Arrays.

(** ** Bits *)

#[global] Arguments Nat.div : simpl never.
#[global] Arguments Nat.modulo : simpl never.
#[global] Arguments Nat.mul : simpl never.
#[global] Arguments Z.testbit : simpl never.
#[global] Arguments Z.land : simpl never.
#[global] Arguments Z.lor : simpl never.

Definition GETBIT (s : list Z) (i : nat) : res Z :=
  b ← aget s (i / 8); Ret (Z.land (Z.shiftr b (7 - Z.of_nat (i mod 8))) 1).

Definition SETBIT (s : list Z) (i : nat) : res (list Z) :=
  b ← aget s (i / 8); aset s (i / 8) (u8 (Z.lor b (Z.shiftl 1 (7 - Z.of_nat (i mod 8))))).

Definition CLRBIT (s : list Z) (i : nat) : res (list Z) :=
  b ← aget s (i / 8); aset s (i / 8) (u8 (Z.land b (Z.lnot (Z.shiftl 1 (7 - Z.of_nat (i mod 8)))))).

(** Bit [i] of an array; none is set outside of it. *)
Definition bit (s : list Z) (i : nat) : bool :=
  match s !! (i / 8)%nat with
  | Some b => Z.testbit b (7 - Z.of_nat (i mod 8))
  | None => false
  end.

Definition bits (s : list Z) : list bool := map (bit s) (seq 0 (8 * length s)).

Lemma testbit_u8 b k : 0 <= k < 8 -> Z.testbit (u8 b) k = Z.testbit b k.
Proof. intros H. unfold u8. by rewrite Z.mod_pow2_bits_low by lia. Qed.

Lemma byte_u8 b : byte (u8 b).
Proof. apply (Z.mod_pos_bound b 256). lia. Qed.

Lemma u8_byte b : byte b -> u8 b = b.
Proof. apply Z.mod_small. Qed.

Lemma testbit_one k m : 0 <= k -> Z.testbit (Z.shiftl 1 k) m = (m =? k).
Proof.
  intros Hk. rewrite Z.shiftl_1_l, Z.pow2_bits_eqb by done.
  destruct (Z.eqb_spec k m), (Z.eqb_spec m k); congruence.
Qed.

(** Indexes of the same byte differ by their position in it. *)
Lemma idx_mod i : (i mod 8 < 8)%nat.
Proof. apply Nat.mod_upper_bound. lia. Qed.

Lemma idx_eq i j : (i / 8 = j / 8)%nat -> (i mod 8 = j mod 8)%nat -> i = j.
Proof. intros H1 H2. rewrite (Nat.div_mod_eq i 8), (Nat.div_mod_eq j 8). lia. Qed.

Lemma idx_lt i n : (i < 8 * n)%nat -> (i / 8 < n)%nat.
Proof. intros. apply Nat.Div0.div_lt_upper_bound. lia. Qed.

Lemma GETBIT_spec s i : (i < 8 * length s)%nat -> GETBIT s i = Ret (Z.b2z (bit s i)).
Proof.
  intros [b [Hb Hb']]%idx_lt%aget_lt. unfold GETBIT, bit. rewrite Hb, Hb'. simpl. f_equal.
  pose proof (idx_mod i). change 1 with (Z.ones 1). rewrite Z.land_ones by lia.
  rewrite Z.shiftr_div_pow2 by lia. rewrite Z.testbit_spec' by lia. done.
Qed.

Lemma bit_insert s i b j : (i < length s)%nat ->
  bit (<[i := b]> s) j =
  if decide (j / 8 = i)%nat then Z.testbit b (7 - Z.of_nat (j mod 8)) else bit s j.
Proof.
  intros Hi. unfold bit. case_decide as H.
  - subst i. by rewrite list_lookup_insert_eq.
  - by rewrite list_lookup_insert_ne.
Qed.

Lemma bit_lookup s i b j : s !! i = Some b -> (j / 8 = i)%nat ->
  bit s j = Z.testbit b (7 - Z.of_nat (j mod 8)).
Proof. unfold bit. intros H ->. by rewrite H. Qed.

(** The two writers change one bit. *)
Section write_bit.
Context (s : list Z) (i : nat) (Hi : (i < 8 * length s)%nat) (Hs : Forall byte s).

Lemma SETBIT_spec : exists s', SETBIT s i = Ret s' /\ length s' = length s /\ Forall byte s' /\
  forall j, bit s' j = (j =? i)%nat || bit s j.
Proof.
  apply idx_lt in Hi as Hi'. destruct (aget_lt _ _ Hi') as (b & E & Hb).
  unfold SETBIT. rewrite E. simpl. rewrite aset_lt by done. eexists. split; [done|].
  rewrite length_insert. split; [done|]. split; [apply Forall_insert; [done|apply byte_u8]|].
  intros j. rewrite bit_insert by done. pose proof (idx_mod j). pose proof (idx_mod i).
  case_decide as Hj; destruct (Nat.eqb_spec j i) as [->|Hn]; simpl; try done.
  - rewrite testbit_u8, Z.lor_spec, testbit_one, Z.eqb_refl by lia. apply orb_true_r.
  - rewrite testbit_u8, Z.lor_spec, testbit_one by lia.
    rewrite (proj2 (Z.eqb_neq _ _)), orb_false_r by (intros ?; apply Hn, idx_eq; lia).
    symmetry. by apply (bit_lookup s (i / 8)).
Qed.

Lemma CLRBIT_spec : exists s', CLRBIT s i = Ret s' /\ length s' = length s /\ Forall byte s' /\
  forall j, bit s' j = negb (j =? i)%nat && bit s j.
Proof.
  apply idx_lt in Hi as Hi'. destruct (aget_lt _ _ Hi') as (b & E & Hb).
  unfold CLRBIT. rewrite E. simpl. rewrite aset_lt by done. eexists. split; [done|].
  rewrite length_insert. split; [done|]. split; [apply Forall_insert; [done|apply byte_u8]|].
  intros j. rewrite bit_insert by done. pose proof (idx_mod j). pose proof (idx_mod i).
  case_decide as Hj; destruct (Nat.eqb_spec j i) as [->|Hn]; simpl; try done.
  - rewrite testbit_u8, Z.land_spec, Z.lnot_spec, testbit_one, Z.eqb_refl by lia. apply andb_false_r.
  - rewrite testbit_u8, Z.land_spec, Z.lnot_spec, testbit_one by lia.
    rewrite (proj2 (Z.eqb_neq _ _)), andb_true_r by (intros ?; apply Hn, idx_eq; lia).
    symmetry. by apply (bit_lookup s (i / 8)).
Qed.
End write_bit.

(** Arrays of bytes with the same bits are equal. *)
Lemma byte_ext a b : byte a -> byte b ->
  (forall k, (k < 8)%nat -> Z.testbit a (7 - Z.of_nat k) = Z.testbit b (7 - Z.of_nat k)) -> a = b.
Proof.
  intros Ha Hb H. apply Z.bits_inj'. intros n Hn. destruct (Z.lt_ge_cases n 8) as [Hlt|Hge].
  - replace n with (7 - Z.of_nat (Z.to_nat (7 - n))) by lia. apply H. lia.
  - assert (forall c, byte c -> Z.testbit c n = false) as Hz; [|by rewrite !Hz].
    intros c Hc. rewrite <-(u8_byte c Hc). unfold u8. by rewrite Z.mod_pow2_bits_high by lia.
Qed.

Lemma bits_ext s t : Forall byte s -> Forall byte t -> length s = length t ->
  (forall i, (i < 8 * length s)%nat -> bit s i = bit t i) -> s = t.
Proof.
  intros Hs Ht Hl H. apply list_eq_same_length with (length s); [done|done|].
  intros i a b Hi Ha Hb. pose proof (Forall_lookup_1 _ _ _ _ Hs Ha). pose proof (Forall_lookup_1 _ _ _ _ Ht Hb).
  apply byte_ext; [done..|]. intros k Hk.
  assert (E1 : ((8 * i + k) / 8 = i)%nat) by (rewrite Nat.mul_comm, Nat.div_add_l, Nat.div_small; lia).
  assert (E2 : ((8 * i + k) mod 8 = k)%nat)
    by (rewrite Nat.add_comm, Nat.mul_comm, Nat.Div0.mod_add; by apply Nat.mod_small).
  specialize (H (8 * i + k)%nat ltac:(lia)).
  rewrite (bit_lookup _ _ _ _ Ha E1), (bit_lookup _ _ _ _ Hb E1), E2 in H. done.
Qed.

Lemma bits_length s : length (bits s) = (8 * length s)%nat.
Proof. unfold bits. by rewrite length_map, length_seq. Qed.

Lemma bits_lookup s i : (i < 8 * length s)%nat -> bits s !! i = Some (bit s i).
Proof.
  intros Hi. unfold bits. change (map (bit s)) with (fmap (M:=list) (bit s)).
  rewrite list_lookup_fmap, lookup_seq_lt by done. done.
Qed.

Lemma bits_nth s i : (i < 8 * length s)%nat -> nth i (bits s) false = bit s i.
Proof. intros Hi. rewrite nth_lookup, bits_lookup by done. done. Qed.

Lemma bits_inj s t : Forall byte s -> Forall byte t -> bits s = bits t -> s = t.
Proof.
  intros Hs Ht E. assert (length s = length t) as Hl.
  { pose proof (f_equal length E) as H. rewrite !bits_length in H. lia. }
  apply bits_ext; try done. intros i Hi. rewrite <-!bits_nth by lia. by rewrite E.
Qed.

Lemma bits_eq s (l : list bool) : length l = (8 * length s)%nat ->
  (forall i, (i < 8 * length s)%nat -> bit s i = nth i l false) -> bits s = l.
Proof.
  intros Hl H. apply nth_ext with false false; [by rewrite bits_length|].
  intros i Hi. rewrite bits_length in Hi. by rewrite bits_nth, H.
Qed.

(** ** Arrays that hold a block of bits *)

(** The first [n] bytes of [s] spell the [8 * n] bits [b]. *)
Record repr (n : nat) (s : list Z) (b : list bool) : Prop := {
  r_bytes : Forall byte s;
  r_room : (n <= length s)%nat;
  r_length : length b = (8 * n)%nat;
  r_bits : forall i, (i < 8 * n)%nat -> bit s i = nth i b false
}.
#[global] Arguments r_bytes {n s b}.
#[global] Arguments r_room {n s b}.
#[global] Arguments r_length {n s b}.
#[global] Arguments r_bits {n s b}.

Lemma repr_bits s : Forall byte s -> repr (length s) s (bits s).
Proof. intros Hs. constructor; [done..|apply bits_length|]. intros. by rewrite bits_nth. Qed.

Lemma repr_eq n s b : repr n s b -> length s = n -> bits s = b.
Proof. intros [_ _ Hl Hb] <-. apply bits_eq; done. Qed.

Lemma repr_take n s a b : repr n s (a ++ b) -> forall k, length a = (8 * k)%nat -> repr k s a.
Proof.
  intros [Hs Hr Hl Hb] k Ha. rewrite length_app in Hl. constructor; [done|lia|done|].
  intros i Hi. rewrite Hb by lia. by rewrite app_nth1 by lia.
Qed.

Lemma bit_drop s k i : bit (drop k s) i = bit s (8 * k + i).
Proof.
  unfold bit. rewrite lookup_drop.
  replace ((8 * k + i) / 8)%nat with (k + i / 8)%nat
    by (rewrite (Nat.add_comm (8 * k)), Nat.mul_comm, Nat.div_add; lia).
  by replace ((8 * k + i) mod 8)%nat with (i mod 8)%nat
    by (rewrite (Nat.add_comm (8 * k)), Nat.mul_comm, Nat.Div0.mod_add; lia).
Qed.

Lemma repr_drop n s a b : repr n s (a ++ b) -> forall k m, length a = (8 * k)%nat ->
  length b = (8 * m)%nat -> repr m (drop k s) b.
Proof.
  intros [Hs Hr Hl Hb] k m Ha Hlb. rewrite length_app in Hl.
  constructor; [by apply Forall_drop|rewrite length_drop; lia|done|].
  intros i Hi. rewrite bit_drop, Hb by lia. rewrite app_nth2 by lia. f_equal. lia.
Qed.

(** The arrays [repeat 0 n] the models start from. *)
Lemma bytes_repeat n : Forall byte (repeat 0 n).
Proof. apply Forall_forall. intros x Hx%list_elem_of_In%repeat_spec. subst. done. Qed.

(** The loop that copies [n] bytes. *)
Lemma copy_spec n s dst : (n <= length s)%nat -> (n <= length dst)%nat ->
  for_ 0 n (fun i dst => b ← aget s i; aset dst i b) dst = Ret (take n s ++ drop n dst).
Proof.
  intros Hs Hd.
  destruct (for_inv (fun i d => d = take i s ++ drop i dst) 0 n
    (fun i dst => b ← aget s i; aset dst i b) dst) as (d & -> & ->); [done| |done].
  intros i d Hi ->. destruct (aget_lt s i) as (b & -> & Hb); [lia|]. bind.
  assert (length (take i s) = i) as Hl by (rewrite length_take; lia).
  eexists. split; [rewrite aset_lt; [done|rewrite length_app, Hl, length_drop; lia]|].
  rewrite (take_S_r _ _ b Hb), <-app_assoc. simpl.
  destruct (drop i dst) as [|x l] eqn:E.
  { apply (f_equal length) in E. rewrite length_drop in E. simpl in E. lia. }
  rewrite (insert_app_r_alt _ _ i) by lia. rewrite Hl, Nat.sub_diag. simpl. f_equal. f_equal.
  replace (S i) with (i + 1)%nat by lia. by rewrite <-drop_drop, E.
Qed.
