(* ===== verification/DesSpec.v ===== *)
(** The textbook definition of DES (FIPS 46-3) on lists of bits, against which
    the two implementations under src/c-study/des are verified.  The tables are
    the standard's, numbered from 1. *)
From S2P Require Import Prelude.

Abbreviation block := (list bool).

(** Bit [t] of the result is bit [table t] of [b]. *)
Definition select (table : list nat) (b : block) : block :=
  map (fun i => nth (i - 1) b false) table.

#[global] Arguments select : simpl never.

Definition IP : list nat :=
  [58; 50; 42; 34; 26; 18; 10; 2; 60; 52; 44; 36; 28; 20; 12; 4;
   62; 54; 46; 38; 30; 22; 14; 6; 64; 56; 48; 40; 32; 24; 16; 8;
   57; 49; 41; 33; 25; 17; 9; 1; 59; 51; 43; 35; 27; 19; 11; 3;
   61; 53; 45; 37; 29; 21; 13; 5; 63; 55; 47; 39; 31; 23; 15; 7]%nat.

Definition FP : list nat :=
  [40; 8; 48; 16; 56; 24; 64; 32; 39; 7; 47; 15; 55; 23; 63; 31;
   38; 6; 46; 14; 54; 22; 62; 30; 37; 5; 45; 13; 53; 21; 61; 29;
   36; 4; 44; 12; 52; 20; 60; 28; 35; 3; 43; 11; 51; 19; 59; 27;
   34; 2; 42; 10; 50; 18; 58; 26; 33; 1; 41; 9; 49; 17; 57; 25]%nat.

Definition E : list nat :=
  [32; 1; 2; 3; 4; 5; 4; 5; 6; 7; 8; 9; 8; 9; 10; 11; 12; 13;
   12; 13; 14; 15; 16; 17; 16; 17; 18; 19; 20; 21; 20; 21; 22; 23; 24; 25;
   24; 25; 26; 27; 28; 29; 28; 29; 30; 31; 32; 1]%nat.

Definition P : list nat :=
  [16; 7; 20; 21; 29; 12; 28; 17; 1; 15; 23; 26; 5; 18; 31; 10;
   2; 8; 24; 14; 32; 27; 3; 9; 19; 13; 30; 6; 22; 11; 4; 25]%nat.

Definition PC1 : list nat :=
  [57; 49; 41; 33; 25; 17; 9; 1; 58; 50; 42; 34; 26; 18;
   10; 2; 59; 51; 43; 35; 27; 19; 11; 3; 60; 52; 44; 36;
   63; 55; 47; 39; 31; 23; 15; 7; 62; 54; 46; 38; 30; 22;
   14; 6; 61; 53; 45; 37; 29; 21; 13; 5; 28; 20; 12; 4]%nat.

Definition PC2 : list nat :=
  [14; 17; 11; 24; 1; 5; 3; 28; 15; 6; 21; 10;
   23; 19; 12; 4; 26; 8; 16; 7; 27; 20; 13; 2;
   41; 52; 31; 37; 47; 55; 30; 40; 51; 45; 33; 48;
   44; 49; 39; 56; 34; 53; 46; 42; 50; 36; 29; 32]%nat.

Definition shifts : list nat := [1; 1; 2; 2; 2; 2; 2; 2; 1; 2; 2; 2; 2; 2; 2; 1]%nat.

(** The S-boxes: four rows of sixteen. *)
Definition S_tables : list (list (list Z)) :=
 [[[14; 4; 13; 1; 2; 15; 11; 8; 3; 10; 6; 12; 5; 9; 0; 7];
   [0; 15; 7; 4; 14; 2; 13; 1; 10; 6; 12; 11; 9; 5; 3; 8];
   [4; 1; 14; 8; 13; 6; 2; 11; 15; 12; 9; 7; 3; 10; 5; 0];
   [15; 12; 8; 2; 4; 9; 1; 7; 5; 11; 3; 14; 10; 0; 6; 13]];
  [[15; 1; 8; 14; 6; 11; 3; 4; 9; 7; 2; 13; 12; 0; 5; 10];
   [3; 13; 4; 7; 15; 2; 8; 14; 12; 0; 1; 10; 6; 9; 11; 5];
   [0; 14; 7; 11; 10; 4; 13; 1; 5; 8; 12; 6; 9; 3; 2; 15];
   [13; 8; 10; 1; 3; 15; 4; 2; 11; 6; 7; 12; 0; 5; 14; 9]];
  [[10; 0; 9; 14; 6; 3; 15; 5; 1; 13; 12; 7; 11; 4; 2; 8];
   [13; 7; 0; 9; 3; 4; 6; 10; 2; 8; 5; 14; 12; 11; 15; 1];
   [13; 6; 4; 9; 8; 15; 3; 0; 11; 1; 2; 12; 5; 10; 14; 7];
   [1; 10; 13; 0; 6; 9; 8; 7; 4; 15; 14; 3; 11; 5; 2; 12]];
  [[7; 13; 14; 3; 0; 6; 9; 10; 1; 2; 8; 5; 11; 12; 4; 15];
   [13; 8; 11; 5; 6; 15; 0; 3; 4; 7; 2; 12; 1; 10; 14; 9];
   [10; 6; 9; 0; 12; 11; 7; 13; 15; 1; 3; 14; 5; 2; 8; 4];
   [3; 15; 0; 6; 10; 1; 13; 8; 9; 4; 5; 11; 12; 7; 2; 14]];
  [[2; 12; 4; 1; 7; 10; 11; 6; 8; 5; 3; 15; 13; 0; 14; 9];
   [14; 11; 2; 12; 4; 7; 13; 1; 5; 0; 15; 10; 3; 9; 8; 6];
   [4; 2; 1; 11; 10; 13; 7; 8; 15; 9; 12; 5; 6; 3; 0; 14];
   [11; 8; 12; 7; 1; 14; 2; 13; 6; 15; 0; 9; 10; 4; 5; 3]];
  [[12; 1; 10; 15; 9; 2; 6; 8; 0; 13; 3; 4; 14; 7; 5; 11];
   [10; 15; 4; 2; 7; 12; 9; 5; 6; 1; 13; 14; 0; 11; 3; 8];
   [9; 14; 15; 5; 2; 8; 12; 3; 7; 0; 4; 10; 1; 13; 11; 6];
   [4; 3; 2; 12; 9; 5; 15; 10; 11; 14; 1; 7; 6; 0; 8; 13]];
  [[4; 11; 2; 14; 15; 0; 8; 13; 3; 12; 9; 7; 5; 10; 6; 1];
   [13; 0; 11; 7; 4; 9; 1; 10; 14; 3; 5; 12; 2; 15; 8; 6];
   [1; 4; 11; 13; 12; 3; 7; 14; 10; 15; 6; 8; 0; 5; 9; 2];
   [6; 11; 13; 8; 1; 4; 10; 7; 9; 5; 0; 15; 14; 2; 3; 12]];
  [[13; 2; 8; 4; 6; 15; 11; 1; 10; 9; 3; 14; 5; 0; 12; 7];
   [1; 15; 13; 8; 10; 3; 7; 4; 12; 5; 6; 11; 0; 14; 9; 2];
   [7; 11; 4; 1; 9; 12; 14; 2; 0; 6; 10; 13; 15; 3; 5; 8];
   [2; 1; 14; 7; 4; 10; 8; 13; 15; 12; 9; 0; 3; 5; 6; 11]]].

(** The number a block spells, highest bit first, and the block of [n] bits that
    spells a number. *)
Definition num (b : block) : Z := fold_left (fun a x => 2 * a + Z.b2z x) b 0.

Definition spell (n : nat) (v : Z) : block :=
  map (fun i => Z.testbit v (Z.of_nat (n - 1 - i))) (seq 0 n).

(** S-box [i] on six bits: the outer two select the row, the inner four the
    column. *)
Definition S_box (i : nat) (b : block) : block :=
  let row := num [nth 0 b false; nth 5 b false] in
  let col := num [nth 1 b false; nth 2 b false; nth 3 b false; nth 4 b false] in
  spell 4 (nth (Z.to_nat col) (nth (Z.to_nat row) (nth i S_tables []) []) 0).

Definition xorb_list (a b : block) : block := zip_with xorb a b.

(** The cipher function [f]. *)
Definition f (r k : block) : block :=
  let e := xorb_list (select E r) k in
  select P (flat_map (fun i => S_box i (take 6 (drop (6 * i) e))) (seq 0 8)).

Definition rotl (n : nat) (b : block) : block := drop n b ++ take n b.

(** The sixteen subkeys. *)
Fixpoint subkeys_from (c d : block) (ss : list nat) : list block :=
  match ss with
  | [] => []
  | s :: ss' =>
    let c := rotl s c in let d := rotl s d in
    select PC2 (c ++ d) :: subkeys_from c d ss'
  end.

Definition subkeys (key : block) : list block :=
  let k := select PC1 key in subkeys_from (take 28 k) (drop 28 k) shifts.

(** A round on the pair of halves, and the rounds for a list of subkeys. *)
Definition feistel (lr : block * block) (k : block) : block * block :=
  (lr.2, xorb_list lr.1 (f lr.2 k)).

Definition crypt (ks : list block) (b : block) : block :=
  let b := select IP b in
  let '(l, r) := fold_left feistel ks (take 32 b, drop 32 b) in
  select FP (r ++ l).

Definition des (key b : block) : block := crypt (subkeys key) b.

(** Deciphering: the same with the subkeys in reverse order. *)
Definition des_inverse (key b : block) : block := crypt (rev (subkeys key)) b.

(** ** Facts about the standard *)

Lemma select_len t b : length (select t b) = length t.
Proof. unfold select. by rewrite length_map. Qed.

Lemma select_fp_ip b : length b = 64%nat -> select IP (select FP b) = b.
Proof.
  intros Hl. do 65 (destruct b as [|? b]; try discriminate Hl). reflexivity.
Qed.

Lemma select_ip_fp b : length b = 64%nat -> select FP (select IP b) = b.
Proof.
  intros Hl. do 65 (destruct b as [|? b]; try discriminate Hl). reflexivity.
Qed.

Lemma xorb_list_len a b : length (xorb_list a b) = Nat.min (length a) (length b).
Proof. unfold xorb_list. apply length_zip_with. Qed.

Lemma xorb_list_cancel a b : length a = length b -> xorb_list (xorb_list a b) b = a.
Proof.
  revert b. induction a as [|x a IH]; intros [|y b]; simpl; try done. intros [= Hl].
  unfold xorb_list in *. f_equal; [by destruct x, y|by apply IH].
Qed.

Lemma f_len r k : length (f r k) = 32%nat.
Proof. unfold f. by rewrite select_len. Qed.

Definition halves (lr : block * block) : Prop := length lr.1 = 32%nat /\ length lr.2 = 32%nat.

Lemma feistel_halves lr k : halves lr -> halves (feistel lr k).
Proof. intros [H1 H2]. split; simpl; [done|]. by rewrite xorb_list_len, f_len, H1. Qed.

Lemma rounds_halves ks lr : halves lr -> halves (fold_left feistel ks lr).
Proof. revert lr. induction ks as [|k ks IH]; intros lr H; simpl; [done|]. apply IH, feistel_halves, H. Qed.

Definition swap_pair (lr : block * block) : block * block := (lr.2, lr.1).

(** The rounds with the subkeys reversed undo the rounds, halves swapped. *)
Lemma feistel_undo ks : forall lr, halves lr ->
  fold_left feistel (rev ks) (swap_pair (fold_left feistel ks lr)) = swap_pair lr.
Proof.
  induction ks as [|k ks IH]; intros lr H; simpl; [done|].
  rewrite fold_left_app, IH by by apply feistel_halves. destruct lr as [l r], H as [Hl Hr]. simpl in *.
  unfold feistel, swap_pair. simpl. f_equal. apply xorb_list_cancel. by rewrite f_len.
Qed.

Lemma crypt_len ks b : length (crypt ks b) = 64%nat.
Proof. unfold crypt. destruct (fold_left _ _ _). apply select_len. Qed.

(** Deciphering inverts enciphering, for any subkeys. *)
Lemma crypt_rev ks b : length b = 64%nat -> crypt (rev ks) (crypt ks b) = b.
Proof.
  intros Hb. unfold crypt.
  assert (Hh : halves (take 32 (select IP b), drop 32 (select IP b)))
    by by split; cbn [fst snd]; rewrite ?length_take, ?length_drop, select_len.
  pose proof (rounds_halves ks _ Hh) as Hh'. pose proof (feistel_undo ks _ Hh) as Hu.
  destruct (fold_left feistel ks _) as [l r]. destruct Hh' as [Hl Hr]. simpl in Hl, Hr.
  rewrite select_fp_ip by (rewrite length_app; lia).
  rewrite (take_app_length' r l 32), (drop_app_length' r l 32) by done.
  unfold swap_pair in Hu. cbn [fst snd] in Hu. rewrite Hu. cbv beta iota. rewrite take_drop. by apply select_ip_fp.
Qed.

(** *** Complementation *)

Definition neg (b : block) : block := map negb b.

Lemma nth_neg i b : (i < length b)%nat -> nth i (neg b) false = negb (nth i b false).
Proof.
  intros Hi. unfold neg. rewrite (nth_indep _ false (negb false)) by by rewrite length_map.
  apply map_nth.
Qed.

Lemma select_neg t b : Forall (fun i => (i - 1 < length b)%nat) t -> select t (neg b) = neg (select t b).
Proof.
  intros Ht. unfold select. unfold neg at 2. rewrite map_map. apply map_ext_in. intros i Hi.
  apply nth_neg. rewrite Forall_forall in Ht. apply Ht. by apply list_elem_of_In.
Qed.

Lemma xorb_list_neg2 a b : xorb_list (neg a) (neg b) = xorb_list a b.
Proof.
  revert b. induction a as [|x a IH]; intros [|y b]; simpl; try done. unfold xorb_list in *. simpl.
  rewrite IH. by destruct x, y.
Qed.

Lemma xorb_list_neg_l a b : xorb_list (neg a) b = neg (xorb_list a b).
Proof.
  revert b. induction a as [|x a IH]; intros [|y b]; simpl; try done. unfold xorb_list in *. simpl.
  rewrite IH. by destruct x, y.
Qed.

Lemma neg_len b : length (neg b) = length b.
Proof. apply length_map. Qed.

Lemma f_neg r k : length r = 32%nat -> f (neg r) (neg k) = f r k.
Proof.
  intros Hr. unfold f. rewrite select_neg by (rewrite Hr; by repeat constructor).
  by rewrite xorb_list_neg2.
Qed.

Lemma rotl_neg n b : rotl n (neg b) = neg (rotl n b).
Proof. unfold rotl, neg. by rewrite map_app, skipn_map, firstn_map. Qed.

Lemma subkeys_from_neg ss : forall c d, length c = 28%nat -> length d = 28%nat ->
  subkeys_from (neg c) (neg d) ss = map neg (subkeys_from c d ss).
Proof.
  induction ss as [|s ss IH]; intros c d Hc Hd; simpl; [done|]. rewrite !rotl_neg.
  assert (forall b, length (rotl s b) = length b) as Hrot.
  { intros b. unfold rotl. rewrite length_app, length_drop, length_take. lia. }
  rewrite IH by by rewrite Hrot. f_equal. unfold neg at 1 2. rewrite <-map_app. apply select_neg.
  rewrite length_app, !Hrot, Hc, Hd. by repeat constructor.
Qed.

Lemma rounds_neg ks : forall lr, halves lr ->
  fold_left feistel (map neg ks) (neg lr.1, neg lr.2) =
  (neg (fold_left feistel ks lr).1, neg (fold_left feistel ks lr).2).
Proof.
  induction ks as [|k ks IH]; intros lr H; simpl; [done|].
  rewrite <-IH by by apply feistel_halves. f_equal. unfold feistel. simpl. f_equal.
  by rewrite f_neg, xorb_list_neg_l by apply H.
Qed.

Lemma crypt_neg ks b : length b = 64%nat -> crypt (map neg ks) (neg b) = neg (crypt ks b).
Proof.
  intros Hb. unfold crypt.
  assert (Hh : halves (take 32 (select IP b), drop 32 (select IP b)))
    by by split; cbn [fst snd]; rewrite ?length_take, ?length_drop, select_len.
  pose proof (rounds_neg ks _ Hh) as Hr. pose proof (rounds_halves ks _ Hh) as Hh'.
  rewrite select_neg by (rewrite Hb; by repeat constructor).
  unfold neg at 2 3. rewrite firstn_map, skipn_map. cbn [fst snd] in Hr. unfold neg in *. rewrite Hr.
  destruct (fold_left feistel ks _) as [l r]. destruct Hh' as [Hl' Hr']. simpl in *.
  rewrite <-map_app. apply select_neg. rewrite length_app, Hl', Hr'. by repeat constructor.
Qed.
