(* ===== verification/Des.v ===== *)
(** Component: the DES of src/c-study/des/des.c, written for the LM hash:
    [Permute], [KeyShift], [sbox], [xor], [auth_DESkey8to7] and [auth_DEShash].
    The arrays are byte lists, every access is checked.  The theorems show what
    each routine does to the bits and that the whole is DES: equal to the textbook
    definition of FIPS 46-3 (file DesSpec) on every key and block. *)
From S2P Require Import Prelude Arrays Bits DesSpec.

(** ** Tables *)

Definition InitialPermuteMap : list nat :=
  [57; 49; 41; 33; 25; 17; 9; 1;
   59; 51; 43; 35; 27; 19; 11; 3;
   61; 53; 45; 37; 29; 21; 13; 5;
   63; 55; 47; 39; 31; 23; 15; 7;
   56; 48; 40; 32; 24; 16; 8; 0;
   58; 50; 42; 34; 26; 18; 10; 2;
   60; 52; 44; 36; 28; 20; 12; 4;
   62; 54; 46; 38; 30; 22; 14; 6]%nat.

Definition KeyPermuteMap : list nat :=
  [49; 42; 35; 28; 21; 14; 7; 0;
   50; 43; 36; 29; 22; 15; 8; 1;
   51; 44; 37; 30; 23; 16; 9; 2;
   52; 45; 38; 31; 55; 48; 41; 34;
   27; 20; 13; 6; 54; 47; 40; 33;
   26; 19; 12; 5; 53; 46; 39; 32;
   25; 18; 11; 4; 24; 17; 10; 3]%nat.

Definition KeyRotation : list nat :=
  [1; 1; 2; 2; 2; 2; 2; 2; 1; 2; 2; 2; 2; 2; 2; 1]%nat.

Definition KeyCompression : list nat :=
  [13; 16; 10; 23; 0; 4; 2; 27;
   14; 5; 20; 9; 22; 18; 11; 3;
   25; 7; 15; 6; 26; 19; 12; 1;
   40; 51; 30; 36; 46; 54; 29; 39;
   50; 44; 32; 47; 43; 48; 38; 55;
   33; 52; 45; 41; 49; 35; 28; 31]%nat.

Definition DataExpansion : list nat :=
  [31; 0; 1; 2; 3; 4; 3; 4;
   5; 6; 7; 8; 7; 8; 9; 10;
   11; 12; 11; 12; 13; 14; 15; 16;
   15; 16; 17; 18; 19; 20; 19; 20;
   21; 22; 23; 24; 23; 24; 25; 26;
   27; 28; 27; 28; 29; 30; 31; 0]%nat.

Definition SBox : list (list Z) :=
  [[14; 0; 4; 15; 13; 7; 1; 4; 2; 14; 15; 2; 11; 13; 8; 1;
    3; 10; 10; 6; 6; 12; 12; 11; 5; 9; 9; 5; 0; 3; 7; 8;
    4; 15; 1; 12; 14; 8; 8; 2; 13; 4; 6; 9; 2; 1; 11; 7;
    15; 5; 12; 11; 9; 3; 7; 14; 3; 10; 10; 0; 5; 6; 0; 13];
   [15; 3; 1; 13; 8; 4; 14; 7; 6; 15; 11; 2; 3; 8; 4; 14;
    9; 12; 7; 0; 2; 1; 13; 10; 12; 6; 0; 9; 5; 11; 10; 5;
    0; 13; 14; 8; 7; 10; 11; 1; 10; 3; 4; 15; 13; 4; 1; 2;
    5; 11; 8; 6; 12; 7; 6; 12; 9; 0; 3; 5; 2; 14; 15; 9];
   [10; 13; 0; 7; 9; 0; 14; 9; 6; 3; 3; 4; 15; 6; 5; 10;
    1; 2; 13; 8; 12; 5; 7; 14; 11; 12; 4; 11; 2; 15; 8; 1;
    13; 1; 6; 10; 4; 13; 9; 0; 8; 6; 15; 9; 3; 8; 0; 7;
    11; 4; 1; 15; 2; 14; 12; 3; 5; 11; 10; 5; 14; 2; 7; 12];
   [7; 13; 13; 8; 14; 11; 3; 5; 0; 6; 6; 15; 9; 0; 10; 3;
    1; 4; 2; 7; 8; 2; 5; 12; 11; 1; 12; 10; 4; 14; 15; 9;
    10; 3; 6; 15; 9; 0; 0; 6; 12; 10; 11; 1; 7; 13; 13; 8;
    15; 9; 1; 4; 3; 5; 14; 11; 5; 12; 2; 7; 8; 2; 4; 14];
   [2; 14; 12; 11; 4; 2; 1; 12; 7; 4; 10; 7; 11; 13; 6; 1;
    8; 5; 5; 0; 3; 15; 15; 10; 13; 3; 0; 9; 14; 8; 9; 6;
    4; 11; 2; 8; 1; 12; 11; 7; 10; 1; 13; 14; 7; 2; 8; 13;
    15; 6; 9; 15; 12; 0; 5; 9; 6; 10; 3; 4; 0; 5; 14; 3];
   [12; 10; 1; 15; 10; 4; 15; 2; 9; 7; 2; 12; 6; 9; 8; 5;
    0; 6; 13; 1; 3; 13; 4; 14; 14; 0; 7; 11; 5; 3; 11; 8;
    9; 4; 14; 3; 15; 2; 5; 12; 2; 9; 8; 5; 12; 15; 3; 10;
    7; 11; 0; 14; 4; 1; 10; 7; 1; 6; 13; 0; 11; 8; 6; 13];
   [4; 13; 11; 0; 2; 11; 14; 7; 15; 4; 0; 9; 8; 1; 13; 10;
    3; 14; 12; 3; 9; 5; 7; 12; 5; 2; 10; 15; 6; 8; 1; 6;
    1; 6; 4; 11; 11; 13; 13; 8; 12; 1; 3; 4; 7; 10; 14; 7;
    10; 9; 15; 5; 6; 0; 8; 15; 0; 14; 5; 2; 9; 3; 2; 12];
   [13; 1; 2; 15; 8; 13; 4; 8; 6; 10; 15; 3; 11; 7; 1; 4;
    10; 12; 9; 5; 3; 6; 14; 11; 5; 0; 0; 14; 12; 9; 7; 2;
    7; 2; 11; 1; 4; 14; 1; 7; 9; 4; 12; 10; 14; 8; 2; 13;
    0; 15; 6; 12; 10; 9; 13; 0; 15; 3; 3; 5; 5; 6; 8; 11]].

Definition PBox : list nat :=
  [15; 6; 19; 20; 28; 11; 27; 16;
   0; 14; 22; 25; 4; 17; 30; 9;
   1; 7; 23; 13; 31; 26; 2; 8;
   18; 12; 29; 5; 21; 10; 3; 24]%nat.

Definition FinalPermuteMap : list nat :=
  [7; 39; 15; 47; 23; 55; 31; 63;
   6; 38; 14; 46; 22; 54; 30; 62;
   5; 37; 13; 45; 21; 53; 29; 61;
   4; 36; 12; 44; 20; 52; 28; 60;
   3; 35; 11; 43; 19; 51; 27; 59;
   2; 34; 10; 42; 18; 50; 26; 58;
   1; 33; 9; 41; 17; 49; 25; 57;
   0; 32; 8; 40; 16; 48; 24; 56]%nat.

Definition map8to7 : list nat :=
  [0; 1; 2; 3; 4; 5; 6;
   8; 9; 10; 11; 12; 13; 14;
   16; 17; 18; 19; 20; 21; 22;
   24; 25; 26; 27; 28; 29; 30;
   32; 33; 34; 35; 36; 37; 38;
   40; 41; 42; 43; 44; 45; 46;
   48; 49; 50; 51; 52; 53; 54;
   56; 57; 58; 59; 60; 61; 62]%nat.

(** ** Operations *)

(** [dst[i] = 0] for the first [n] bytes. *)
Definition clear (n : nat) (dst : list Z) : res (list Z) := for_ 0 n (fun i d => aset d i 0) dst.

(** [Permute(dst, src, map, mapsize)]. *)
Definition Permute (dst src : list Z) (map : list nat) (mapsize : nat) : res (list Z) :=
  dst ← clear mapsize dst;
  for_ 0 (mapsize * 8) (fun i dst =>
    m ← oget (map !! i);
    b ← GETBIT src m;
    if b =? 0 then Ret dst else SETBIT dst i) dst.

(** One shift of the whole key, byte by byte: the inner loop of [KeyShift]. *)
Definition shift_key (key : list Z) : res (list Z) :=
  for_ 0 7 (fun j key =>
    b ← aget key j;
    key ← (if negb (j =? 0)%nat && negb (Z.land b 128 =? 0)
           then p ← aget key (j - 1); aset key (j - 1) (Z.lor p 1) else Ret key);
    b ← aget key j;
    aset key j (u8 (Z.shiftl b 1))) key.

(** [KeyShift(key, numbits)]: the key and [keep] go through the loop. *)
Definition KeyShift (key : list Z) (numbits : nat) : res (list Z) :=
  keep ← aget key 0;
  '(key, _) ← for_ 0 numbits (fun _ '(key, keep) =>
    key ← shift_key key;
    b ← GETBIT key 27;
    key ← (if b =? 0 then Ret key else key ← CLRBIT key 27; SETBIT key 55);
    key ← (if Z.land keep 128 =? 0 then Ret key else SETBIT key 27);
    Ret (key, u8 (Z.shiftl keep 1))) (key, keep);
  Ret key.

(** The six bits at [6 * i], as a number: the inner loop of [sbox]. *)
Definition snum (src : list Z) (i : nat) : res Z :=
  for_ 0 6 (fun j n => b ← GETBIT src (i * 6 + j); Ret (Z.lor (Z.shiftl n 1) b)) 0.

Definition sbox (dst src : list Z) : res (list Z) :=
  dst ← clear 4 dst;
  for_ 0 8 (fun i dst =>
    n ← snum src i;
    row ← oget (SBox !! i);
    v ← oget (row !! Z.to_nat n);
    d ← aget dst (i / 2);
    if (i mod 2 =? 0)%nat then aset dst (i / 2) (u8 (Z.lor d (Z.shiftl v 4)))
    else aset dst (i / 2) (u8 (Z.lor d v))) dst.

(** [xor(dst, a, b, count)]; [a] may be [dst]: an index is read before it is
    written. *)
Definition xor (dst a b : list Z) (count : nat) : res (list Z) :=
  for_ 0 count (fun i dst => x ← aget a i; y ← aget b i; aset dst i (Z.lxor x y)) dst.

(** [auth_DESkey8to7(dst, key)]; [None] is a null pointer. *)
Definition auth_DESkey8to7 (dst key : option (list Z)) : res (option (list Z)) :=
  match dst, key with
  | Some dst, Some key =>
    tmp ← Permute (repeat 0 7) key map8to7 7;
    dst ← for_ 0 7 (fun i dst => b ← aget tmp i; aset dst i b) dst;
    Ret (Some dst)
  | _, _ => Ret None
  end.

(** The loop [L[j] = R[j]; R[j] = Rn[j]] on the block [D], whose halves [L] and
    [R] are. *)
Definition swap_halves (D Rn : list Z) : res (list Z) :=
  for_ 0 4 (fun j D =>
    r ← aget D (4 + j);
    D ← aset D j r;
    n ← aget Rn j;
    aset D (4 + j) n) D.

(** One of the 16 rounds. *)
Definition des_round (i : nat) (K D : list Z) : res (list Z * list Z) :=
  rot ← oget (KeyRotation !! i);
  K ← KeyShift K rot;
  SubK ← Permute (repeat 0 6) K KeyCompression 6;
  Rexp ← Permute (repeat 0 6) (drop 4 D) DataExpansion 6;
  Rexp ← xor Rexp Rexp SubK 6;
  Rn ← sbox (repeat 0 4) Rexp;
  Rexp ← Permute Rexp Rn PBox 4;
  Rn ← xor Rn D Rexp 4;
  D ← swap_halves D Rn;
  Ret (K, D).

(** [auth_DEShash(dst, key, src)].  The local arrays are written before they
    are read; the model starts them with zeros. *)
Definition auth_DEShash (dst key src : list Z) : res (list Z) :=
  K ← Permute (repeat 0 7) key KeyPermuteMap 7;
  D ← Permute (repeat 0 8) src InitialPermuteMap 8;
  '(_, D) ← for_ 0 16 (fun i '(K, D) => des_round i K D) (K, D);
  Permute dst D FinalPermuteMap 8.

(** ** What the routines do to the bits *)

#[global] Arguments GETBIT : simpl never.
#[global] Arguments SETBIT : simpl never.
#[global] Arguments CLRBIT : simpl never.

(** The zero-based tables of the code against those of the standard. *)
Definition select0 (m : list nat) (b : block) : block := map (fun i => nth i b false) m.

Lemma select_select0 t b : select t b = select0 (map Nat.pred t) b.
Proof.
  unfold select, select0. rewrite map_map. apply map_ext. intros i.
  by replace (i - 1)%nat with (Nat.pred i) by lia.
Qed.

Lemma nth_map_lookup m b i : (i < length m)%nat ->
  nth i (select0 m b) false = nth (nth i m 0%nat) b false.
Proof.
  intros Hi. unfold select0. rewrite (nth_indep _ false (nth 0 b false)) by by rewrite length_map.
  by rewrite (map_nth (fun i => nth i b false)).
Qed.

Lemma clear_spec n dst : (n <= length dst)%nat -> clear n dst = Ret (replicate n 0 ++ drop n dst).
Proof.
  intros Hn. unfold clear.
  destruct (for_inv (fun i d => d = replicate i 0 ++ drop i dst) 0 n
    (fun i d => aset d i 0) dst) as (d & -> & ->); [done| |done].
  intros i d Hi ->. eexists. split.
  - rewrite aset_lt; [done|]. rewrite length_app, length_replicate, length_drop. lia.
  - rewrite replicate_S_end, <-app_assoc. simpl.
    destruct (drop i dst) as [|x l] eqn:E.
    { apply (f_equal length) in E. rewrite length_drop in E. simpl in E. lia. }
    rewrite (insert_app_r_alt _ _ i) by (rewrite length_replicate; lia).
    rewrite length_replicate, Nat.sub_diag. simpl. f_equal. f_equal.
    rewrite <-(drop_drop dst i 1) in * || idtac.
    replace (S i) with (i + 1)%nat by lia. rewrite <-drop_drop, E. done.
Qed.

(** The bits of a cleared array. *)
Lemma bit_clear n dst i : bit (replicate n 0 ++ drop n dst) i = if (i <? 8 * n)%nat then false else bit dst i.
Proof.
  unfold bit. destruct (Nat.ltb_spec i (8 * n)) as [H|H].
  - rewrite lookup_app_l by (rewrite length_replicate; by apply idx_lt).
    rewrite lookup_replicate_2 by by apply idx_lt. apply Z.testbit_0_l.
  - assert (n <= i / 8)%nat by (apply Nat.div_le_lower_bound; lia).
    rewrite lookup_app_r by (rewrite length_replicate; lia).
    rewrite length_replicate, lookup_drop. by replace (n + (i / 8 - n))%nat with (i / 8)%nat by lia.
Qed.

Lemma bytes_clear n dst : Forall byte dst -> Forall byte (replicate n 0 ++ drop n dst).
Proof.
  intros H. apply Forall_app. split; [|by apply Forall_drop]. by apply Forall_replicate.
Qed.

(** [Permute] copies the bits its table names. *)
Lemma Permute_spec k n dst src map b : repr k src b ->
  length map = (8 * n)%nat -> Forall (fun i => (i < 8 * k)%nat) map ->
  (n <= length dst)%nat -> Forall byte dst ->
  exists d, Permute dst src map n = Ret d /\ length d = length dst /\ repr n d (select0 map b).
Proof.
  intros [Hsrc Hroom Hlb Hb] Hmap Hin Hn Hdst. unfold Permute. rewrite clear_spec by done. simpl.
  set (d0 := replicate n 0 ++ drop n dst).
  assert (Hl0 : length d0 = length dst).
  { unfold d0. rewrite length_app, length_replicate, length_drop. lia. }
  destruct (for_inv (fun i d => length d = length dst /\ Forall byte d /\
      forall j, (j < 8 * n)%nat -> bit d j = (j <? i)%nat && nth j (select0 map b) false)
    0 (n * 8) (fun i dst => m ← oget (map !! i); b ← GETBIT src m;
                 if b =? 0 then Ret dst else SETBIT dst i) d0) as (d & Hd & Hl & Hby & Hbits).
  - split_and!; [done|by apply bytes_clear|]. intros j Hj. unfold d0. rewrite bit_clear.
    by rewrite (proj2 (Nat.ltb_lt _ _) Hj).
  - intros i d Hi (Hl & Hby & Hbits).
    destruct (lookup_lt_is_Some_2 map i) as [m Hm]; [lia|]. rewrite Hm. simpl.
    pose proof (Forall_lookup_1 _ _ _ _ Hin Hm) as Hlt. simpl in Hlt.
    rewrite GETBIT_spec by lia. simpl.
    assert (Hsel : nth i (select0 map b) false = bit src m).
    { rewrite nth_map_lookup by lia. rewrite Hb by done. f_equal. rewrite nth_lookup, Hm. done. }
    destruct (bit src m) eqn:Ebit; simpl.
    + destruct (SETBIT_spec d i) as (d' & -> & Hl' & Hby' & Hbits'); [lia|done|].
      exists d'. split_and!; [done|congruence|done|]. intros j Hj. rewrite Hbits', Hbits by done.
      destruct (Nat.eqb_spec j i) as [->|]; simpl.
      * rewrite Hsel. by rewrite (proj2 (Nat.ltb_lt _ _)) by lia.
      * f_equal. apply eq_true_iff_eq. rewrite !Nat.ltb_lt. lia.
    + exists d. split_and!; [done..|]. intros j Hj. rewrite Hbits by done.
      destruct (Nat.eqb_spec j i) as [->|].
      * by rewrite Hsel, !andb_false_r.
      * f_equal. apply eq_true_iff_eq. rewrite !Nat.ltb_lt. lia.
  - exists d. split_and!; [done..|]. constructor; [done|lia|unfold select0; by rewrite length_map|].
    intros j Hj. rewrite Hbits by done. by rewrite (proj2 (Nat.ltb_lt _ _)) by lia.
Qed.

Lemma testbit_of_lxor x y j : Z.testbit (Z.lxor x y) j = xorb (Z.testbit x j) (Z.testbit y j).
Proof. apply Z.lxor_spec. Qed.

Lemma nth_xorb_list a b i : length a = length b -> (i < length a)%nat ->
  nth i (xorb_list a b) false = xorb (nth i a false) (nth i b false).
Proof.
  revert b i. induction a as [|x a IH]; intros [|y b] i; simpl; try lia.
  destruct i; [done|]. intros [= Hl] Hi. apply IH; [done|lia].
Qed.

Lemma xorb_list_length a b : length a = length b -> length (xorb_list a b) = length a.
Proof. intros H. unfold xorb_list. rewrite length_zip_with. lia. Qed.

(** [xor] is bitwise exclusive or. *)
Lemma xor_spec n dst a b x y : repr n a x -> repr n b y -> (n <= length dst)%nat -> Forall byte dst ->
  exists d, xor dst a b n = Ret d /\ length d = length dst /\ repr n d (xorb_list x y).
Proof.
  intros Ha Hb Hn Hdst. unfold xor. pose proof (r_room Ha). pose proof (r_room Hb).
  destruct (for_inv (fun i d => length d = length dst /\ Forall byte d /\
      forall j, (j < 8 * i)%nat -> bit d j = xorb (bit a j) (bit b j))
    0 n (fun i dst => x ← aget a i; y ← aget b i; aset dst i (Z.lxor x y)) dst)
    as (d & Hd & Hl & Hby & Hbits); [split_and!; [done..|lia]| |].
  - intros i d Hi (Hl & Hby & Hbits).
    destruct (aget_lt a i) as (p & -> & Hp); [lia|]. destruct (aget_lt b i) as (q & -> & Hq); [lia|]. simpl.
    rewrite aset_lt by lia. eexists. split; [done|]. rewrite length_insert. split_and!; [done| |].
    + apply Forall_insert; [done|]. apply byte_lxor.
      * exact (Forall_lookup_1 _ _ _ _ (r_bytes Ha) Hp).
      * exact (Forall_lookup_1 _ _ _ _ (r_bytes Hb) Hq).
    + intros j Hj. rewrite bit_insert by lia. case_decide as E.
      * rewrite testbit_of_lxor. f_equal; symmetry; by apply (bit_lookup _ i).
      * apply Hbits. assert (j / 8 < S i)%nat by (by apply idx_lt).
        pose proof (Nat.div_mod_eq j 8). pose proof (idx_mod j). lia.
  - exists d. split_and!; [done..|].
    constructor; [done|lia|rewrite xorb_list_length; rewrite ?(r_length Ha), ?(r_length Hb); done|].
    intros i Hi. rewrite Hbits by lia. rewrite nth_xorb_list by (rewrite ?(r_length Ha), ?(r_length Hb); lia).
    by rewrite (r_bits Ha), (r_bits Hb) by lia.
Qed.

(** ** The key schedule *)

Lemma land_128 b : byte b -> (Z.land b 128 =? 0) = negb (Z.testbit b 7).
Proof.
  intros Hb. change 128 with (2 ^ 7). destruct (Z.testbit b 7) eqn:E.
  - apply Z.eqb_neq. intros H. apply (f_equal (fun z => Z.testbit z 7)) in H.
    by rewrite Z.land_spec, E, Z.pow2_bits_true, Z.testbit_0_l in H.
  - apply Z.eqb_eq, Z.bits_inj'. intros k Hk. rewrite Z.land_spec, Z.pow2_bits_eqb, Z.testbit_0_l by done.
    destruct (Z.eqb_spec 7 k) as [<-|]; [by rewrite E|apply andb_false_r].
Qed.

Lemma byte_lor x y : byte x -> byte y -> byte (Z.lor x y).
Proof.
  intros Hx Hy. split; [apply Z.lor_nonneg; split; [apply Hx|apply Hy]|].
  destruct (Z.eq_dec x 0) as [->|]; [apply Hy|]. destruct (Z.eq_dec y 0) as [->|]; [rewrite Z.lor_0_r; apply Hx|].
  destruct Hx, Hy. change 256 with (2 ^ 8). apply Z.log2_lt_pow2.
  - assert (0 <= Z.lor x y) by (apply Z.lor_nonneg; lia).
    assert (Z.lor x y <> 0) by (intros [? ?]%Z.lor_eq_0_iff; lia). lia.
  - rewrite Z.log2_lor by lia. apply Z.max_lub_lt; apply Z.log2_lt_pow2; lia.
Qed.

Lemma testbit_u8_shl1 b k : 0 <= k < 8 -> Z.testbit (u8 (Z.shiftl b 1)) k = if k =? 0 then false else Z.testbit b (k - 1).
Proof.
  intros Hk. rewrite testbit_u8 by done. destruct (Z.eqb_spec k 0) as [->|].
  - by rewrite Z.shiftl_spec_low.
  - by rewrite Z.shiftl_spec by lia.
Qed.

(** Decompose a bit index into its byte and its place. *)
Ltac split_idx i :=
  pose proof (Nat.div_mod_eq i 8); pose proof (idx_mod i).

Lemma idx_succ i : (i mod 8 <> 7)%nat -> (S i / 8 = i / 8 /\ S i mod 8 = S (i mod 8))%nat.
Proof.
  intros H. split_idx i. split_idx (S i).
  assert (S i / 8 = i / 8)%nat.
  { symmetry. apply (Nat.div_unique (S i) 8 (i / 8) (S (i mod 8))); lia. }
  lia.
Qed.

(** [bit] after shifting byte [j] in place. *)
Lemma bit_shl d j b i : d !! j = Some b ->
  bit (<[j := u8 (Z.shiftl b 1)]> d) i =
  if decide (i / 8 = j)%nat then negb (i mod 8 =? 7)%nat && bit d (S i) else bit d i.
Proof.
  intros Hb. rewrite bit_insert by by eapply lookup_lt_Some. case_decide as E; [|done].
  pose proof (idx_mod i). rewrite testbit_u8_shl1 by lia.
  destruct (Nat.eqb_spec (i mod 8) 7) as [Hm|Hm]; simpl.
  - by rewrite (proj2 (Z.eqb_eq _ _)) by lia.
  - rewrite (proj2 (Z.eqb_neq _ _)) by lia. destruct (idx_succ i Hm) as [E1 E2].
    rewrite (bit_lookup d j b) by (done || congruence). f_equal. lia.
Qed.

(** The carry from byte [j] into the byte before. *)
Lemma bit_carry d j p i : d !! j = Some p -> (j < length d)%nat ->
  bit (<[j := Z.lor p 1]> d) i = (i =? 8 * j + 7)%nat || bit d i.
Proof.
  intros Hp Hj. rewrite bit_insert by done. split_idx i. case_decide as E.
  - rewrite Z.lor_spec, (bit_lookup d j p) by done. rewrite orb_comm. f_equal.
    change 1 with (2 ^ 0). rewrite Z.pow2_bits_eqb by lia. apply eq_true_iff_eq.
    rewrite Z.eqb_eq, Nat.eqb_eq. lia.
  - replace (i =? 8 * j + 7)%nat with false; [done|]. symmetry. apply Nat.eqb_neq. lia.
Qed.

Definition shift_inv (key : list Z) (j : nat) (d : list Z) : Prop :=
  length d = 7%nat /\ Forall byte d /\
  forall i, (i < 56)%nat -> bit d i =
    if (8 * j <=? i)%nat then bit key i else negb (i =? 8 * j - 1)%nat && bit key (S i).

Lemma shift_key_step key j d : (j < 7)%nat -> shift_inv key j d ->
  exists d', (b ← aget d j;
    key ← (if negb (j =? 0)%nat && negb (Z.land b 128 =? 0)
           then p ← aget d (j - 1); aset d (j - 1) (Z.lor p 1) else Ret d);
    b ← aget key j;
    aset key j (u8 (Z.shiftl b 1))) = Ret d' /\ shift_inv key (S j) d'.
Proof.
  intros Hj (Hl & Hby & Hb). destruct (aget_lt d j) as (b & -> & Hbj); [lia|]. simpl.
  pose proof (Forall_lookup_1 _ _ _ _ Hby Hbj) as Hbb.
  rewrite (land_128 b Hbb), negb_involutive.
  assert (Hcar : Z.testbit b 7 = bit key (8 * j)).
  { assert (E1 : ((8 * j) / 8 = j)%nat) by (rewrite Nat.mul_comm; by apply Nat.div_mul).
    assert (E2 : ((8 * j) mod 8 = 0)%nat) by by rewrite Nat.mul_comm, Nat.Div0.mod_mul.
    pose proof (bit_lookup d j b (8 * j) Hbj E1) as Hd. rewrite E2 in Hd.
    change (7 - Z.of_nat 0) with 7 in Hd. rewrite <-Hd, Hb by lia.
    by rewrite (proj2 (Nat.leb_le _ _)) by lia. }
  set (m := if negb (j =? 0)%nat && Z.testbit b 7 then _ else Ret d).
  assert (exists d1, m = Ret d1 /\ length d1 = 7%nat /\ Forall byte d1 /\ d1 !! j = Some b /\
    forall i, (i < 56)%nat -> bit d1 i = if (8 * j <=? i)%nat then bit key i else bit key (S i))
    as (d1 & -> & Hl1 & Hby1 & Hd1 & Hb1).
  { unfold m. destruct (Nat.eqb_spec j 0) as [->|Hj0]; simpl.
    { exists d. by split_and!. }
    destruct (Z.testbit b 7).
    - destruct (aget_lt d (j - 1)) as (p & -> & Hp); [lia|]. simpl. rewrite aset_lt by lia.
      eexists. split; [done|]. rewrite length_insert. split_and!; [done| | |].
      + apply Forall_insert; [done|]. apply byte_lor; [|done]. exact (Forall_lookup_1 _ _ _ _ Hby Hp).
      + by rewrite list_lookup_insert_ne by lia.
      + intros i Hi. rewrite (bit_carry d (j - 1) p) by (done || lia). rewrite Hb by done.
        destruct (Nat.leb_spec (8 * j) i).
        * by rewrite (proj2 (Nat.eqb_neq _ _)) by lia.
        * destruct (Nat.eqb_spec i (8 * (j - 1) + 7)) as [->|].
          { simpl. rewrite Hcar. f_equal. lia. }
          by rewrite (proj2 (Nat.eqb_neq _ _)) by lia.
    - exists d. split_and!; [done..|]. intros i Hi. rewrite Hb by done.
      destruct (Nat.leb_spec (8 * j) i); [done|].
      destruct (Nat.eqb_spec i (8 * j - 1)) as [->|]; [|done]. simpl.
      rewrite Hcar. f_equal. lia. }
  unfold aget. simpl. rewrite Hd1. simpl. rewrite aset_lt by lia. eexists. split; [done|].
  split_and!; [by rewrite length_insert|apply Forall_insert; [done|apply byte_u8]|].
  intros i Hi. rewrite (bit_shl d1 j b i Hd1). split_idx i. case_decide as E.
  - destruct (Nat.eqb_spec (i mod 8) 7); cbn [negb andb].
    + rewrite (proj2 (Nat.leb_gt _ _)) by lia. by rewrite (proj2 (Nat.eqb_eq _ _)) by lia.
    + rewrite (proj2 (Nat.leb_gt _ _)), (proj2 (Nat.eqb_neq _ _)) by lia. cbn [negb andb].
      rewrite Hb1 by lia. by rewrite (proj2 (Nat.leb_le _ _)) by lia.
  - rewrite Hb1 by done. destruct (Nat.leb_spec (8 * j) i).
    + by rewrite (proj2 (Nat.leb_le _ _)) by lia.
    + rewrite (proj2 (Nat.leb_gt _ _)) by lia. by rewrite (proj2 (Nat.eqb_neq _ _)) by lia.
Qed.

Lemma shift_key_spec key : length key = 7%nat -> Forall byte key ->
  exists d, shift_key key = Ret d /\ length d = 7%nat /\ Forall byte d /\
    forall i, (i < 56)%nat -> bit d i = negb (i =? 55)%nat && bit key (S i).
Proof.
  intros Hl Hk. unfold shift_key.
  edestruct (for_inv (shift_inv key) 0 7) as (d & -> & Hl' & Hby & Hb).
  - split_and!; [done..|]. done.
  - intros j d Hj Hd. apply (shift_key_step key j d); [lia|done].
  - exists d. split_and!; [done..|]. intros i Hi. rewrite Hb by done.
    by rewrite (proj2 (Nat.leb_gt _ _)) by lia.
Qed.

#[global] Arguments shift_key : simpl never.

(** Where bit [i] of the rotated key comes from. *)
Definition rot (n i : nat) : nat :=
  let j := (i + n)%nat in
  if (i <? 28)%nat then if (j <? 28)%nat then j else (j - 28)%nat
  else if (j <? 56)%nat then j else (j - 28)%nat.

Definition keyshift_inv (key : list Z) (n : nat) (st : list Z * Z) : Prop :=
  length st.1 = 7%nat /\ Forall byte st.1 /\
  (forall i, (i < 56)%nat -> bit st.1 i = bit key (rot n i)) /\
  byte st.2 /\ forall k, (n + k < 8)%nat -> Z.testbit st.2 (7 - Z.of_nat k) = bit key (n + k).

Ltac nat_ifs := repeat match goal with
  | |- context [(?a <? ?b)%nat] => destruct (Nat.ltb_spec a b)
  | |- context [(?a =? ?b)%nat] => destruct (Nat.eqb_spec a b)
  end.

(** The two end bits of the halves after the whole key has moved. *)
Lemma fix_ends key n keep d : length d = 7%nat -> Forall byte d ->
  exists d', (b ← GETBIT d 27;
    key ← (if b =? 0 then Ret d else key ← CLRBIT d 27; SETBIT key 55);
    key ← (if Z.land keep 128 =? 0 then Ret key else SETBIT key 27);
    Ret (key, u8 (Z.shiftl keep 1))) = Ret (d', u8 (Z.shiftl keep 1)) /\
    length d' = 7%nat /\ Forall byte d' /\ (byte keep -> Z.testbit keep 7 = bit key n ->
      forall i, (i < 56)%nat -> bit d i = (if (i =? 55)%nat then false else bit d i) ->
      bit d' i = if (i =? 55)%nat then bit d 27 else if (i =? 27)%nat then bit key n else bit d i).
Proof.
  intros Hl Hby. rewrite GETBIT_spec by lia. simpl.
  set (m := if Z.b2z (bit d 27) =? 0 then Ret d else _).
  assert (exists d1, m = Ret d1 /\ length d1 = 7%nat /\ Forall byte d1 /\
    forall i, bit d1 i = (if (i =? 27)%nat then false else if (i =? 55)%nat then bit d 27 || bit d 55 else bit d i))
    as (d1 & -> & Hl1 & Hby1 & Hb1).
  { unfold m. destruct (bit d 27) eqn:E; simpl.
    - destruct (CLRBIT_spec d 27) as (d0 & -> & Hl0 & Hby0 & Hb0); [lia|done|]. simpl.
      destruct (SETBIT_spec d0 55) as (d1 & -> & Hl1 & Hby1 & Hb1); [lia|done|].
      exists d1. split_and!; [done|lia|done|]. intros i. rewrite Hb1, Hb0. nat_ifs; subst; try lia; done.
    - exists d. split_and!; [done..|]. intros i. nat_ifs; subst; try lia; done. }
  simpl. destruct (Z.eqb_spec (Z.land keep 128) 0) as [Hk|Hk]; simpl.
  - exists d1. split_and!; [done..|]. intros Hkb Hkey i Hi H55. rewrite Hb1.
    apply Z.eqb_eq in Hk. rewrite land_128, negb_true_iff in Hk by done. rewrite <-Hkey, Hk.
    nat_ifs; subst; try lia; try done. by rewrite H55, orb_false_r.
  - destruct (SETBIT_spec d1 27) as (d2 & -> & Hl2 & Hby2 & Hb2); [lia|done|]. simpl.
    exists d2. split_and!; [done|lia|done|]. intros Hkb Hkey i Hi H55. rewrite Hb2, Hb1.
    apply Z.eqb_neq in Hk. rewrite land_128, negb_false_iff in Hk by done. rewrite <-Hkey, Hk.
    nat_ifs; subst; try lia; try done. simpl. by rewrite H55, orb_false_r.
Qed.

Lemma keyshift_step key n st : (n < 8)%nat -> keyshift_inv key n st ->
  exists st', (let '(key, keep) := st in
    key ← shift_key key;
    b ← GETBIT key 27;
    key ← (if b =? 0 then Ret key else key ← CLRBIT key 27; SETBIT key 55);
    key ← (if Z.land keep 128 =? 0 then Ret key else SETBIT key 27);
    Ret (key, u8 (Z.shiftl keep 1))) = Ret st' /\ keyshift_inv key (S n) st'.
Proof.
  destruct st as [d keep]. intros Hn (Hl & Hby & Hb & Hkb & Hk). simpl in *.
  destruct (shift_key_spec d Hl Hby) as (d1 & -> & Hl1 & Hby1 & Hb1). simpl.
  destruct (fix_ends key n keep d1 Hl1 Hby1) as (d2 & E & Hl2 & Hby2 & Hb2).
  eexists. split; [exact E|]. split_and!; [done|done| |apply byte_u8|].
  - intros i Hi. simpl. rewrite (Hb2 Hkb); [|specialize (Hk 0%nat); rewrite Nat.add_0_r in Hk; by apply Hk|done|].
    + rewrite !Hb1 by lia. unfold rot. nat_ifs; subst; try lia; simpl;
        rewrite ?Hb by lia; unfold rot; nat_ifs; try lia; f_equal; lia.
    + rewrite Hb1 by done. nat_ifs; subst; done.
  - intros k Hk'. simpl. rewrite testbit_u8_shl1 by lia. rewrite (proj2 (Z.eqb_neq _ _)) by lia.
    rewrite <-Nat.add_succ_r, <-Hk by lia. f_equal. lia.
Qed.

Lemma nth_rotl n b i : (n <= length b)%nat -> (i < length b)%nat ->
  nth i (rotl n b) false = nth (if (i + n <? length b)%nat then i + n else i + n - length b) b false.
Proof.
  intros Hn Hi. unfold rotl. destruct (Nat.ltb_spec (i + n) (length b)).
  - rewrite app_nth1 by (rewrite length_drop; lia). rewrite nth_skipn. f_equal. lia.
  - rewrite app_nth2 by (rewrite length_drop; lia). rewrite length_drop, nth_firstn.
    rewrite (proj2 (Nat.ltb_lt _ _)) by lia. f_equal. lia.
Qed.

Lemma rotl_length n b : length (rotl n b) = length b.
Proof. unfold rotl. rewrite length_app, length_drop, length_take. lia. Qed.

Lemma rot_rotl n c d i : (n <= 8)%nat -> length c = 28%nat -> length d = 28%nat -> (i < 56)%nat ->
  nth (rot n i) (c ++ d) false = nth i (rotl n c ++ rotl n d) false.
Proof.
  intros Hn Hc Hd Hi. unfold rot. destruct (Nat.ltb_spec i 28).
  - rewrite (app_nth1 (rotl n c)) by (rewrite rotl_length; lia). rewrite nth_rotl by lia. rewrite Hc.
    rewrite app_nth1; [done|]. destruct (Nat.ltb_spec (i + n) 28); lia.
  - rewrite (app_nth2 (rotl n c)) by (rewrite rotl_length; lia). rewrite rotl_length, nth_rotl by lia.
    rewrite Hc, Hd. rewrite app_nth2 by (nat_ifs; lia). rewrite Hc. f_equal. nat_ifs; lia.
Qed.

(** [KeyShift] rotates both halves of the key. *)
Lemma KeyShift_spec key n c d : (n <= 8)%nat -> length key = 7%nat ->
  repr 7 key (c ++ d) -> length c = 28%nat -> length d = 28%nat ->
  exists key', KeyShift key n = Ret key' /\ length key' = 7%nat /\ repr 7 key' (rotl n c ++ rotl n d).
Proof.
  intros Hn Hl [Hby _ Hlb Hb] Hc Hd. unfold KeyShift.
  destruct (aget_lt key 0) as (keep & -> & Hkeep); [lia|]. simpl.
  assert (keyshift_inv key 0 (key, keep)) as H0.
  { split_and!; simpl; [done..| |exact (Forall_lookup_1 _ _ _ _ Hby Hkeep)|].
    - intros i Hi. f_equal. unfold rot. nat_ifs; lia.
    - intros k Hk. rewrite (bit_lookup key 0 keep); [|done|by apply Nat.div_small].
      by rewrite Nat.mod_small by lia. }
  edestruct (for_inv (keyshift_inv key) 0 n) as (st & E & Hl' & Hby' & Hb' & _); [exact H0| |].
  - intros i st Hi Hst. apply (keyshift_step key i st); [lia|done].
  - rewrite E. destruct st as [key' keep']. simpl in *. exists key'. split_and!; [done..|].
    constructor; [done|lia|rewrite length_app, !rotl_length; lia|].
    intros i Hi. rewrite Hb' by lia. rewrite Hb by (unfold rot; nat_ifs; lia).
    apply rot_rotl; (done || lia).
Qed.

(** ** The S-boxes *)

Lemma num_snoc l x : num (l ++ [x]) = 2 * num l + Z.b2z x.
Proof. unfold num. by rewrite fold_left_app. Qed.

Lemma lor_bit n b : 0 <= n -> Z.lor (Z.shiftl n 1) (Z.b2z b) = 2 * n + Z.b2z b.
Proof.
  intros Hn. rewrite Z.shiftl_mul_pow2 by lia. rewrite Z.mul_comm. change (2 ^ 1) with 2.
  rewrite <-Z.add_lor_land. replace (Z.land (2 * n) (Z.b2z b)) with 0; [lia|].
  symmetry. apply Z.bits_inj'. intros k Hk. rewrite Z.land_spec, Z.testbit_0_l.
  destruct (Z.eq_dec k 0) as [->|]; [by rewrite Z.testbit_even_0|].
  destruct b; simpl; [|by rewrite Z.testbit_0_l, andb_false_r].
  change 1 with (2 ^ 0). rewrite Z.pow2_bits_false by lia. apply andb_false_r.
Qed.

Lemma num_nonneg l : 0 <= num l.
Proof.
  induction l as [|x l IH] using rev_ind; [done|]. rewrite num_snoc. destruct x; simpl; lia.
Qed.

(** Six bits of the input of [sbox]. *)
Definition six (e : block) (i : nat) : block := take 6 (drop (6 * i) e).

Lemma snum_spec src e i : repr 6 src e -> (i < 8)%nat -> snum src i = Ret (num (six e i)).
Proof.
  intros He Hi. unfold snum. pose proof (r_length He) as Hl. pose proof (r_room He).
  destruct (for_inv (fun j n => n = num (take j (drop (6 * i) e))) 0 6
    (fun j n => b ← GETBIT src (i * 6 + j); Ret (Z.lor (Z.shiftl n 1) b)) 0) as (n & -> & ->); [done| |done].
  intros j n Hj ->. rewrite GETBIT_spec by lia. simpl. eexists. split; [done|].
  rewrite lor_bit by apply num_nonneg. rewrite (r_bits He) by lia.
  destruct (lookup_lt_is_Some_2 (drop (6 * i) e) j) as [x Hx]; [rewrite length_drop; lia|].
  rewrite (take_S_r _ _ x Hx), num_snoc. do 2 f_equal.
  rewrite lookup_drop in Hx. rewrite nth_lookup.
  replace (i * 6 + j)%nat with (6 * i + j)%nat by lia. by rewrite Hx.
Qed.

Fixpoint all_blocks (n : nat) : list block :=
  match n with O => [[]] | S n => flat_map (fun b => [false :: b; true :: b]) (all_blocks n) end.

Lemma all_blocks_in n b : length b = n -> In b (all_blocks n).
Proof.
  revert b. induction n as [|n IH]; intros [|x b] Hl; try done; [by left|].
  simpl. apply in_flat_map. exists b. split; [by apply IH; injection Hl|]. destruct x; simpl; auto.
Qed.

(** The tables of the code are those of the standard, their six input bits read
    as one number. *)
Definition sbox_ok (i : nat) (b : block) : bool :=
  match SBox !! i with
  | Some row =>
    match row !! Z.to_nat (num b) with
    | Some v => (0 <=? v) && (v <? 16) && bool_decide (spell 4 v = S_box i b)
    | None => false
    end
  | None => false
  end.

Lemma sbox_tables : forallb (fun i => forallb (sbox_ok i) (all_blocks 6)) (seq 0 8) = true.
Proof. vm_compute. reflexivity. Qed.

Lemma sbox_entry i b : (i < 8)%nat -> length b = 6%nat ->
  exists row v, SBox !! i = Some row /\ row !! Z.to_nat (num b) = Some v /\ 0 <= v < 16 /\
    spell 4 v = S_box i b.
Proof.
  intros Hi Hb. pose proof (proj1 (forallb_forall _ _) sbox_tables i) as H.
  specialize (H ltac:(apply in_seq; lia)). rewrite forallb_forall in H.
  specialize (H b (all_blocks_in 6 b Hb)). unfold sbox_ok in H.
  destruct (SBox !! i) as [row|]; [|done]. destruct (row !! _) as [v|] eqn:Ev; [|done].
  apply andb_true_iff in H as [H1 H2%bool_decide_eq_true]. exists row, v. split_and!; try done; lia.
Qed.

(** A byte made of two nibbles. *)
Definition nibbles (a b : Z) : Z := u8 (Z.lor (u8 (Z.lor 0 (Z.shiftl a 4))) b).

Lemma nibbles_table : forallb (fun a => forallb (fun b =>
  bool_decide (spell 8 (nibbles (Z.of_nat a) (Z.of_nat b)) = spell 4 (Z.of_nat a) ++ spell 4 (Z.of_nat b)))
  (seq 0 16)) (seq 0 16) = true.
Proof. vm_compute. reflexivity. Qed.

Lemma nibbles_spec a b : 0 <= a < 16 -> 0 <= b < 16 -> spell 8 (nibbles a b) = spell 4 a ++ spell 4 b.
Proof.
  intros Ha Hb. pose proof (proj1 (forallb_forall _ _) nibbles_table (Z.to_nat a)) as H.
  specialize (H ltac:(apply in_seq; lia)). rewrite forallb_forall in H.
  specialize (H (Z.to_nat b) ltac:(apply in_seq; lia)). apply bool_decide_eq_true in H.
  by rewrite !Z2Nat.id in H by lia.
Qed.

Lemma bits_cons x s : bits (x :: s) = spell 8 x ++ bits s.
Proof.
  apply bits_eq; [rewrite length_app, bits_length; unfold spell; rewrite length_map, length_seq; simpl; lia|].
  intros i Hi. simpl in Hi. destruct (Nat.lt_ge_cases i 8) as [Hlt|Hge].
  - rewrite app_nth1 by (unfold spell; rewrite length_map, length_seq; lia).
    rewrite (bit_lookup _ 0 x) by (done || by apply Nat.div_small). rewrite Nat.mod_small by done.
    unfold spell. rewrite (nth_indep _ false (Z.testbit x (Z.of_nat (8 - 1 - 0))))
      by (rewrite length_map, length_seq; lia).
    rewrite (map_nth (fun i => Z.testbit x (Z.of_nat (8 - 1 - i)))), seq_nth by lia. f_equal. lia.
  - rewrite app_nth2 by (unfold spell; rewrite length_map, length_seq; lia).
    unfold spell at 1. rewrite length_map, length_seq, bits_nth by lia.
    replace i with (8 * 1 + (i - 8))%nat at 1 by lia. by rewrite <-(bit_drop (x :: s) 1).
Qed.

#[local] Opaque SBox.

(** [sbox] applies the eight S-boxes. *)
Lemma sbox_spec dst src e : length dst = 4%nat -> repr 6 src e ->
  exists d, sbox dst src = Ret d /\ length d = 4%nat /\
    repr 4 d (flat_map (fun i => S_box i (six e i)) (seq 0 8)).
Proof.
  intros Hl He. unfold sbox. rewrite clear_spec by lia.
  replace (drop 4 dst) with (@nil Z) by (symmetry; apply drop_ge; lia). cbn [replicate app].
  assert (H6 : forall i, (i < 8)%nat -> length (six e i) = 6%nat).
  { intros i Hi. unfold six. rewrite length_take, length_drop, (r_length He). lia. }
  assert (Hs : exists v, forall i, (i < 8)%nat -> 0 <= v i < 16 /\ spell 4 (v i) = S_box i (six e i) /\
    exists row, SBox !! i = Some row /\ row !! Z.to_nat (num (six e i)) = Some (v i)).
  { exists (fun i => match SBox !! i with Some row => default 0 (row !! Z.to_nat (num (six e i))) | None => 0 end).
    intros i Hi. destruct (sbox_entry i (six e i) Hi (H6 i Hi)) as (row & v & E1 & E2 & Hv & Hsp).
    rewrite E1, E2. simpl. split_and!; [lia..|done|]. exists row. done. }
  destruct Hs as [v Hv].
  exists [nibbles (v 0%nat) (v 1%nat); nibbles (v 2%nat) (v 3%nat);
          nibbles (v 4%nat) (v 5%nat); nibbles (v 6%nat) (v 7%nat)].
  split_and!; [|done|].
  - cbn [mbind res_bind for_].
    do 8 (match goal with |- context [snum src ?i] =>
      rewrite (snum_spec src e i He) by lia;
      destruct (Hv i) as (_ & _ & ? & E1 & E2); [lia|]; rewrite E1; simpl; rewrite E2; clear E1 E2; simpl
    end). done.
  - replace (flat_map _ (seq 0 8)) with (bits [nibbles (v 0%nat) (v 1%nat); nibbles (v 2%nat) (v 3%nat);
          nibbles (v 4%nat) (v 5%nat); nibbles (v 6%nat) (v 7%nat)]).
    { apply (repr_bits [_; _; _; _]). repeat (apply Forall_cons; split); try apply byte_u8. done. }
    rewrite !bits_cons. rewrite !nibbles_spec by (apply Hv; lia).
    assert (Hsp : forall i, (i < 8)%nat -> spell 4 (v i) = S_box i (six e i)) by (intros i Hi; by apply Hv).
    cbn [seq flat_map]. rewrite !Hsp by lia. rewrite <-!app_assoc. done.
Qed.

(** ** The rounds *)

Lemma bits_app s t : bits (s ++ t) = bits s ++ bits t.
Proof. induction s as [|x s IH]; [done|]. by rewrite <-app_comm_cons, !bits_cons, IH, app_assoc. Qed.

Lemma select0_length m b : length (select0 m b) = length m.
Proof. unfold select0. by rewrite length_map. Qed.

Lemma select_length t b : length (select t b) = length t.
Proof. unfold select. by rewrite length_map. Qed.

(** A whole array. *)
Definition holds_bits (n : nat) (s : list Z) (b : block) : Prop :=
  length s = n /\ Forall byte s /\ bits s = b.

Lemma holds_repr n s b : holds_bits n s b <-> length s = n /\ repr n s b.
Proof.
  split; [intros (<- & Hs & <-); split; [done|by apply repr_bits]|].
  intros [Hl Hr]. split_and!; [done|apply Hr|by apply (repr_eq n)].
Qed.

Lemma Permute_all k n dst src m b : repr k src b -> length dst = n -> Forall byte dst ->
  length m = (8 * n)%nat -> Forall (fun i => (i < 8 * k)%nat) m ->
  exists d, Permute dst src m n = Ret d /\ holds_bits n d (select0 m b).
Proof.
  intros Hr Hl Hd Hm Hin.
  destruct (Permute_spec k n dst src m b) as (d & E & Hl' & Hr'); [done..|lia|done|].
  exists d. split; [done|]. apply holds_repr. split; [lia|done].
Qed.

(** Decide the side conditions of [Permute] on a concrete table. *)
Ltac table_bounds := apply forallb_True; vm_compute; done.

Lemma swap_halves_spec D Rn l r n : holds_bits 8 D (l ++ r) -> length l = 32%nat -> length r = 32%nat ->
  holds_bits 4 Rn n ->
  exists D', swap_halves D Rn = Ret D' /\ holds_bits 8 D' (r ++ n).
Proof.
  intros (HlD & HbD & HD) Hl Hr (HlR & HbR & HR).
  exists (drop 4 D ++ Rn).
  assert (bits (drop 4 D) = r) as Hdrop.
  { rewrite <-(take_drop 4 D), bits_app in HD. apply app_inj_1 in HD as [_ HD]; [done|].
    rewrite bits_length, length_take. lia. }
  split.
  - do 9 (destruct D as [|? D]; try discriminate HlD). do 5 (destruct Rn as [|? Rn]; try discriminate HlR).
    reflexivity.
  - split_and!; [rewrite length_app, length_drop; lia|apply Forall_app; split; [by apply Forall_drop|done]|].
    by rewrite bits_app, Hdrop, HR.
Qed.

#[global] Arguments Permute : simpl never.
#[global] Arguments KeyShift : simpl never.
#[global] Arguments sbox : simpl never.
#[global] Arguments xor : simpl never.
#[global] Arguments swap_halves : simpl never.

Lemma f_length r k : length (f r k) = 32%nat.
Proof. unfold f. by rewrite select_length. Qed.

Lemma des_round_spec i K D c d l r s : KeyRotation !! i = Some s ->
  holds_bits 7 K (c ++ d) -> length c = 28%nat -> length d = 28%nat ->
  holds_bits 8 D (l ++ r) -> length l = 32%nat -> length r = 32%nat ->
  exists K' D', des_round i K D = Ret (K', D') /\ holds_bits 7 K' (rotl s c ++ rotl s d) /\
    holds_bits 8 D' (r ++ xorb_list l (f r (select PC2 (rotl s c ++ rotl s d)))).
Proof.
  intros Hs HK Hc Hd HD Hl Hr. unfold des_round. rewrite Hs. bind.
  assert (s <= 8)%nat as Hs8.
  { assert (Forall (fun s => s <= 8)%nat KeyRotation) as H by (repeat constructor).
    exact (Forall_lookup_1 _ _ _ _ H Hs). }
  pose proof HK as [HlK HrK]%holds_repr. pose proof HD as [HlD HrD]%holds_repr.
  destruct (KeyShift_spec K s c d Hs8 HlK HrK Hc Hd) as (K' & -> & HlK' & HrK'). bind.
  destruct (Permute_all 7 6 (repeat 0 6) K' KeyCompression _ HrK') as (SubK & -> & HSubK);
    [done|apply bytes_repeat|done|repeat constructor|]. bind.
  pose proof (repr_drop 8 D l r HrD 4 4 ltac:(lia) ltac:(lia)) as HrR.
  destruct (Permute_all 4 6 (repeat 0 6) (drop 4 D) DataExpansion r HrR) as (Rexp & -> & HRexp);
    [done|apply bytes_repeat|done|repeat constructor|]. bind.
  apply holds_repr in HSubK as [HlS HrS]. apply holds_repr in HRexp as [HlX HrX].
  destruct (xor_spec 6 Rexp Rexp SubK _ _ HrX HrS) as (X & -> & HlX' & HrX'); [lia|apply HrX|]. bind.
  destruct (sbox_spec (repeat 0 4) X _ eq_refl HrX') as (Rn & -> & HlRn & HrRn). bind.
  destruct (Permute_spec 4 4 X Rn PBox _ HrRn) as (X2 & -> & HlX2 & HrX2);
    [done|repeat constructor|lia|apply HrX'|]. bind.
  pose proof (repr_take 8 D l r HrD 4 ltac:(lia)) as HrL.
  destruct (xor_spec 4 Rn D X2 _ _ HrL HrX2) as (Rn2 & -> & HlRn2 & HrRn2); [lia|apply HrRn|]. bind.
  pose proof (proj2 (holds_repr 4 Rn2 _) (conj (eq_trans HlRn2 HlRn) HrRn2)) as HR4.
  destruct (swap_halves_spec D Rn2 l r _ HD Hl Hr HR4) as (D' & -> & HD').
  bind. exists K', D'. split_and!; [done|by apply holds_repr|].
  unfold f. rewrite !select_select0. exact HD'.
Qed.

#[global] Arguments des_round : simpl never.

Lemma rounds_spec ss : forall lo K D c d l r, drop lo KeyRotation = ss ->
  holds_bits 7 K (c ++ d) -> length c = 28%nat -> length d = 28%nat ->
  holds_bits 8 D (l ++ r) -> length l = 32%nat -> length r = 32%nat ->
  exists K' D', for_ lo (length ss) (fun i '(K, D) => des_round i K D) (K, D) = Ret (K', D') /\
    let lr := fold_left feistel (subkeys_from c d ss) (l, r) in
    holds_bits 8 D' (lr.1 ++ lr.2) /\ length lr.1 = 32%nat /\ length lr.2 = 32%nat.
Proof.
  induction ss as [|s ss IH]; intros lo K D c d l r Hss HK Hc Hd HD Hl Hr; simpl.
  { exists K, D. done. }
  assert (KeyRotation !! lo = Some s) as Hs.
  { replace lo with (lo + 0)%nat by lia. by rewrite <-lookup_drop, Hss. }
  destruct (des_round_spec lo K D c d l r s Hs HK Hc Hd HD Hl Hr) as (K1 & D1 & -> & HK1 & HD1). simpl.
  apply IH; try done; try (by rewrite rotl_length).
  - replace (S lo) with (lo + 1)%nat by lia. by rewrite <-drop_drop, Hss.
  - by rewrite xorb_list_length; rewrite ?f_length.
Qed.

(** ** The whole cipher *)

Lemma select0_select0 m1 m2 b : Forall (fun i => (i < length m2)%nat) m1 ->
  select0 m1 (select0 m2 b) = select0 (map (fun i => nth i m2 0%nat) m1) b.
Proof.
  intros H. unfold select0 at 1 3. rewrite map_map. apply map_ext_in. intros i Hi.
  apply nth_map_lookup. rewrite Forall_forall in H. apply H. by apply list_elem_of_In.
Qed.

Lemma nth_swap l r i : length l = 32%nat -> length r = 32%nat -> (i < 64)%nat ->
  nth (if (i <? 32)%nat then i + 32 else i - 32) (l ++ r) false = nth i (r ++ l) false.
Proof.
  intros Hl Hr Hi. destruct (Nat.ltb_spec i 32).
  - rewrite app_nth2, app_nth1 by lia. f_equal. lia.
  - rewrite app_nth1, app_nth2 by lia. f_equal. lia.
Qed.

(** The final table also swaps the halves. *)
Lemma final_table l r : length l = 32%nat -> length r = 32%nat ->
  select0 FinalPermuteMap (l ++ r) = select FP (r ++ l).
Proof.
  intros Hl Hr. rewrite select_select0.
  replace FinalPermuteMap with (map (fun i => if (i <? 32)%nat then (i + 32)%nat else (i - 32)%nat) (map Nat.pred FP))
    by reflexivity.
  unfold select0. rewrite (map_map (fun i => if (i <? 32)%nat then _ else _)). apply map_ext_in. intros i Hi.
  apply nth_swap; [done..|].
  assert (Forall (fun i => (i < 64)%nat) (map Nat.pred FP)) as H by repeat constructor.
  rewrite Forall_forall in H. apply H. by apply list_elem_of_In.
Qed.

(** [auth_DEShash] in terms of the halves of its permuted key. *)
Lemma auth_DEShash_spec dst key src c d b : length dst = 8%nat -> Forall byte dst ->
  repr 7 key (bits (take 7 key)) -> select0 KeyPermuteMap (bits (take 7 key)) = c ++ d ->
  length c = 28%nat -> length d = 28%nat -> repr 8 src b ->
  exists out, auth_DEShash dst key src = Ret out /\ holds_bits 8 out (crypt (subkeys_from c d shifts) b).
Proof.
  intros Hld Hbd Hk Hkey Hc Hd Hsrc. unfold auth_DEShash.
  destruct (Permute_all 7 7 (repeat 0 7) key KeyPermuteMap _ Hk) as (K & -> & HK);
    [done|apply bytes_repeat|done|repeat constructor|]. bind. rewrite Hkey in HK.
  destruct (Permute_all 8 8 (repeat 0 8) src InitialPermuteMap b Hsrc) as (D & -> & HD);
    [done|apply bytes_repeat|done|repeat constructor|]. bind.
  change InitialPermuteMap with (map Nat.pred IP) in HD. rewrite <-select_select0 in HD.
  rewrite <-(take_drop 32 (select IP b)) in HD.
  destruct (rounds_spec shifts 0 K D c d _ _ eq_refl HK Hc Hd HD) as (K' & D' & E & HD' & Hl' & Hr').
  { rewrite length_take, select_length. reflexivity. }
  { rewrite length_drop, select_length. reflexivity. }
  change (length shifts) with 16%nat in E. cbn [Nat.add] in *. rewrite E. bind.
  apply holds_repr in HD' as [HlD' HrD'].
  destruct (Permute_all 8 8 dst D' FinalPermuteMap _ HrD') as (out & -> & Hout); [done..|repeat constructor|].
  exists out. split; [done|]. unfold crypt.
  destruct (fold_left feistel (subkeys_from c d shifts) (take 32 (select IP b), drop 32 (select IP b))) as [l r].
  cbn [fst snd] in *. by rewrite final_table in Hout.
Qed.

(** The subkeys for a seven-byte key. *)
Definition round_keys (key : block) : list block :=
  let k := select0 KeyPermuteMap key in subkeys_from (take 28 k) (drop 28 k) shifts.

Lemma auth_DEShash_crypt dst key src : length dst = 8%nat -> Forall byte dst ->
  length key = 7%nat -> Forall byte key -> length src = 8%nat -> Forall byte src ->
  exists out, auth_DEShash dst key src = Ret out /\ length out = 8%nat /\ Forall byte out /\
    bits out = crypt (round_keys (bits key)) (bits src).
Proof.
  intros Hld Hbd Hlk Hbk Hls Hbs.
  pose proof (repr_bits src Hbs) as Hrs. rewrite Hls in Hrs.
  pose proof (repr_bits key Hbk) as Hrk. rewrite Hlk in Hrk.
  pose (k := select0 KeyPermuteMap (bits key)).
  assert (length k = 56%nat) as Hk by apply select0_length.
  destruct (auth_DEShash_spec dst key src (take 28 k) (drop 28 k) (bits src)) as (out & E & Hl & Hb & Ho);
    rewrite ?(take_ge key) by lia; rewrite ?take_drop; try done.
  by exists out.
Qed.

(** [auth_DESkey8to7] drops the low bit of each byte. *)
Lemma auth_DESkey8to7_spec dst key : (7 <= length dst)%nat -> Forall byte dst ->
  length key = 8%nat -> Forall byte key ->
  exists k7, auth_DESkey8to7 (Some dst) (Some key) = Ret (Some (k7 ++ drop 7 dst)) /\
    length k7 = 7%nat /\ Forall byte k7 /\ bits k7 = select0 map8to7 (bits key).
Proof.
  intros Hd Hbd Hl Hb. unfold auth_DESkey8to7.
  pose proof (repr_bits key Hb) as Hr. rewrite Hl in Hr.
  destruct (Permute_all 8 7 (repeat 0 7) key map8to7 _ Hr) as (tmp & -> & Hlt & Hbt & Ht);
    [done|apply bytes_repeat|done|repeat constructor|]. bind.
  rewrite copy_spec by lia. bind. exists tmp. rewrite take_ge by lia. done.
Qed.

Lemma round_keys_8to7 key8 k7 : length key8 = 8%nat -> bits k7 = select0 map8to7 (bits key8) ->
  round_keys (bits k7) = subkeys (bits key8).
Proof.
  intros Hl ->. unfold round_keys, subkeys. rewrite select_select0.
  rewrite select0_select0 by repeat constructor. done.
Qed.

(** C35. des.c computes DES: an eight-byte key squeezed by [auth_DESkey8to7] and
    handed to [auth_DEShash] enciphers any eight-byte block as the standard says;
    neither routine leaves its arrays. *)
Theorem auth_DES_is_DES dst7 dst key src :
  length dst7 = 7%nat -> Forall byte dst7 -> length dst = 8%nat -> Forall byte dst ->
  length key = 8%nat -> Forall byte key -> length src = 8%nat -> Forall byte src ->
  exists k7 out, auth_DESkey8to7 (Some dst7) (Some key) = Ret (Some k7) /\
    auth_DEShash dst k7 src = Ret out /\ length out = 8%nat /\ Forall byte out /\
    bits out = des (bits key) (bits src).
Proof.
  intros Hl7 Hb7 Hld Hbd Hlk Hbk Hls Hbs.
  destruct (auth_DESkey8to7_spec dst7 key) as (k7 & E & Hl & Hb & Hk); [lia|done..|].
  rewrite drop_ge, app_nil_r in E by lia.
  destruct (auth_DEShash_crypt dst k7 src) as (out & E' & Hlo & Hbo & Ho); [done..|].
  exists k7, out. split_and!; try done. by rewrite Ho, (round_keys_8to7 key).
Qed.

Lemma auth_DES_is_DES_witness :
  exists k7 out, auth_DESkey8to7 (Some (repeat 0 7)) (Some [19; 52; 87; 121; 155; 188; 223; 241]) = Ret (Some k7) /\
    auth_DEShash (repeat 0 8) k7 [1; 35; 69; 103; 137; 171; 205; 239] = Ret out /\
    length out = 8%nat /\ Forall byte out /\
    bits out = des (bits [19; 52; 87; 121; 155; 188; 223; 241]) (bits [1; 35; 69; 103; 137; 171; 205; 239]).
Proof.
  apply auth_DES_is_DES; try reflexivity; try apply bytes_repeat;
    repeat constructor; vm_compute; discriminate.
Defined.

(** The hash hides nothing of the block: for a fixed key [auth_DEShash] is
    invertible, running DES with the subkeys in reverse order on its result gives
    the input back, so two inputs with the same result are equal. *)
Theorem auth_DEShash_invertible dst key src :
  length dst = 8%nat -> Forall byte dst -> length key = 7%nat -> Forall byte key ->
  length src = 8%nat -> Forall byte src ->
  exists out, auth_DEShash dst key src = Ret out /\
    crypt (rev (round_keys (bits key))) (bits out) = bits src /\
    forall src', length src' = 8%nat -> Forall byte src' -> auth_DEShash dst key src' = Ret out -> src' = src.
Proof.
  intros Hld Hbd Hlk Hbk Hls Hbs.
  destruct (auth_DEShash_crypt dst key src) as (out & E & _ & _ & Ho); [done..|].
  assert (Hinv : forall s, length s = 8%nat ->
    crypt (rev (round_keys (bits key))) (crypt (round_keys (bits key)) (bits s)) = bits s).
  { intros s Hs. apply crypt_rev. by rewrite bits_length, Hs. }
  exists out. split_and!; [done|by rewrite Ho, Hinv|].
  intros src' Hl' Hb' E'. apply bits_inj; [done..|].
  destruct (auth_DEShash_crypt dst key src') as (out' & E'' & _ & _ & Ho'); [done..|].
  rewrite E' in E''. injection E'' as <-. by rewrite <-(Hinv src'), <-(Hinv src), <-Ho, <-Ho'.
Qed.

Lemma auth_DEShash_invertible_witness :
  exists out, auth_DEShash (repeat 0 8) (repeat 1 7) (repeat 2 8) = Ret out /\
    crypt (rev (round_keys (bits (repeat 1 7)))) (bits out) = bits (repeat 2 8) /\
    forall src', length src' = 8%nat -> Forall byte src' ->
      auth_DEShash (repeat 0 8) (repeat 1 7) src' = Ret out -> src' = repeat 2 8.
Proof.
  apply auth_DEShash_invertible; try reflexivity; try apply bytes_repeat;
    repeat constructor; vm_compute; discriminate.
Defined.

(** The complement of a byte array. *)
Definition complement (s : list Z) : list Z := map (fun b => 255 - b) s.

Lemma complement_length s : length (complement s) = length s.
Proof. apply length_map. Qed.

Lemma complement_bytes s : Forall byte s -> Forall byte (complement s).
Proof. intros H. apply Forall_map. eapply Forall_impl; [done|]. unfold byte. simpl. lia. Qed.

Lemma spell_complement : forallb (fun b =>
  bool_decide (spell 8 (255 - Z.of_nat b) = neg (spell 8 (Z.of_nat b)))) (seq 0 256) = true.
Proof. vm_compute. reflexivity. Qed.

Lemma bits_complement s : Forall byte s -> bits (complement s) = neg (bits s).
Proof.
  induction 1 as [|b s Hb Hs IH]; [done|]. change (complement (b :: s)) with ((255 - b) :: complement s).
  rewrite !bits_cons, IH. unfold neg at 2. rewrite map_app. f_equal.
  pose proof (proj1 (forallb_forall _ _) spell_complement (Z.to_nat b)) as H.
  destruct Hb. specialize (H ltac:(apply in_seq; lia)). apply bool_decide_eq_true in H.
  by rewrite Z2Nat.id in H by lia.
Qed.

Lemma round_keys_neg b : length b = 56%nat -> round_keys (neg b) = map neg (round_keys b).
Proof.
  intros Hb. unfold round_keys.
  change KeyPermuteMap with (map Nat.pred (map S KeyPermuteMap)). rewrite <-!select_select0.
  rewrite select_neg by (rewrite Hb; by repeat constructor).
  unfold neg at 1 2. rewrite firstn_map, skipn_map. apply subkeys_from_neg.
  - by rewrite length_take, select_length.
  - by rewrite length_drop, select_length.
Qed.

(** The complementation property of DES holds of the code: complementing
    key and block complements the result. *)
Theorem auth_DEShash_complement dst key src :
  length dst = 8%nat -> Forall byte dst -> length key = 7%nat -> Forall byte key ->
  length src = 8%nat -> Forall byte src ->
  exists out, auth_DEShash dst key src = Ret out /\
    auth_DEShash dst (complement key) (complement src) = Ret (complement out).
Proof.
  intros Hld Hbd Hlk Hbk Hls Hbs.
  destruct (auth_DEShash_crypt dst key src) as (out & E & Hlo & Hbo & Ho); [done..|].
  exists out. split; [done|].
  destruct (auth_DEShash_crypt dst (complement key) (complement src)) as (out' & -> & Hlo' & Hbo' & Ho');
    try done; rewrite ?complement_length; try done; try by apply complement_bytes.
  f_equal. apply bits_inj; [done|by apply complement_bytes|].
  rewrite bits_complement, Ho, Ho', !bits_complement by done.
  rewrite round_keys_neg by (by rewrite bits_length, Hlk).
  apply crypt_neg. by rewrite bits_length, Hls.
Qed.

Lemma auth_DEShash_complement_witness :
  exists out, auth_DEShash (repeat 0 8) (repeat 1 7) (repeat 2 8) = Ret out /\
    auth_DEShash (repeat 0 8) (complement (repeat 1 7)) (complement (repeat 2 8)) = Ret (complement out).
Proof.
  apply auth_DEShash_complement; try reflexivity; try apply bytes_repeat;
    repeat constructor; vm_compute; discriminate.
Defined.

(** The LM hash of an empty password half: whatever the destination held,
    enciphering the magic string [KGS!@#$%] under the zero key stores the
    published constant AAD3B435B51404EE. *)
Theorem lm_hash_empty dst : length dst = 8%nat -> Forall byte dst ->
  auth_DEShash dst (repeat 0 7) [75; 71; 83; 33; 64; 35; 36; 37] =
  Ret [170; 211; 180; 53; 181; 20; 4; 238].
Proof.
  intros Hl Hb. destruct (auth_DEShash_crypt dst (repeat 0 7) [75; 71; 83; 33; 64; 35; 36; 37])
    as (out & -> & Hlo & Hbo & Ho); try done; try apply bytes_repeat;
    [repeat constructor; vm_compute; discriminate|].
  f_equal. apply bits_inj; [done|repeat constructor; vm_compute; discriminate|].
  rewrite Ho. vm_compute. reflexivity.
Qed.

Lemma lm_hash_empty_witness :
  auth_DEShash (repeat 7 8) (repeat 0 7) [75; 71; 83; 33; 64; 35; 36; 37] =
  Ret [170; 211; 180; 53; 181; 20; 4; 238].
Proof. apply lm_hash_empty; [reflexivity|repeat constructor; vm_compute; discriminate]. Defined.
