(* ===== verification/Des2.v ===== *)
(** Component: DES and Triple-DES of src/c-study/des/des2.c (gnulib): the word
    oriented implementation with merged S-box and permutation tables, its key
    schedule, the ECB routines, the two- and three-key Triple-DES contexts and the
    weak-key test.  The theorems show that decryption inverts encryption for DES and
    for both kinds of Triple-DES, that Triple-DES with equal keys is DES, that the
    binary search for weak keys finds exactly the keys of the table, and that those
    keys have the repeating subkeys the table's comment claims. *)
From S2P Require Import Prelude Arrays Bits.

(** ** Tables *)

Definition sbox1 : list Z :=
  [0x01010400; 0x00000000; 0x00010000; 0x01010404; 0x01010004; 0x00010404;
   0x00000004; 0x00010000; 0x00000400; 0x01010400; 0x01010404; 0x00000400;
   0x01000404; 0x01010004; 0x01000000; 0x00000004; 0x00000404; 0x01000400;
   0x01000400; 0x00010400; 0x00010400; 0x01010000; 0x01010000; 0x01000404;
   0x00010004; 0x01000004; 0x01000004; 0x00010004; 0x00000000; 0x00000404;
   0x00010404; 0x01000000; 0x00010000; 0x01010404; 0x00000004; 0x01010000;
   0x01010400; 0x01000000; 0x01000000; 0x00000400; 0x01010004; 0x00010000;
   0x00010400; 0x01000004; 0x00000400; 0x00000004; 0x01000404; 0x00010404;
   0x01010404; 0x00010004; 0x01010000; 0x01000404; 0x01000004; 0x00000404;
   0x00010404; 0x01010400; 0x00000404; 0x01000400; 0x01000400; 0x00000000;
   0x00010004; 0x00010400; 0x00000000; 0x01010004].

Definition sbox2 : list Z :=
  [0x80108020; 0x80008000; 0x00008000; 0x00108020; 0x00100000; 0x00000020;
   0x80100020; 0x80008020; 0x80000020; 0x80108020; 0x80108000; 0x80000000;
   0x80008000; 0x00100000; 0x00000020; 0x80100020; 0x00108000; 0x00100020;
   0x80008020; 0x00000000; 0x80000000; 0x00008000; 0x00108020; 0x80100000;
   0x00100020; 0x80000020; 0x00000000; 0x00108000; 0x00008020; 0x80108000;
   0x80100000; 0x00008020; 0x00000000; 0x00108020; 0x80100020; 0x00100000;
   0x80008020; 0x80100000; 0x80108000; 0x00008000; 0x80100000; 0x80008000;
   0x00000020; 0x80108020; 0x00108020; 0x00000020; 0x00008000; 0x80000000;
   0x00008020; 0x80108000; 0x00100000; 0x80000020; 0x00100020; 0x80008020;
   0x80000020; 0x00100020; 0x00108000; 0x00000000; 0x80008000; 0x00008020;
   0x80000000; 0x80100020; 0x80108020; 0x00108000].

Definition sbox3 : list Z :=
  [0x00000208; 0x08020200; 0x00000000; 0x08020008; 0x08000200; 0x00000000;
   0x00020208; 0x08000200; 0x00020008; 0x08000008; 0x08000008; 0x00020000;
   0x08020208; 0x00020008; 0x08020000; 0x00000208; 0x08000000; 0x00000008;
   0x08020200; 0x00000200; 0x00020200; 0x08020000; 0x08020008; 0x00020208;
   0x08000208; 0x00020200; 0x00020000; 0x08000208; 0x00000008; 0x08020208;
   0x00000200; 0x08000000; 0x08020200; 0x08000000; 0x00020008; 0x00000208;
   0x00020000; 0x08020200; 0x08000200; 0x00000000; 0x00000200; 0x00020008;
   0x08020208; 0x08000200; 0x08000008; 0x00000200; 0x00000000; 0x08020008;
   0x08000208; 0x00020000; 0x08000000; 0x08020208; 0x00000008; 0x00020208;
   0x00020200; 0x08000008; 0x08020000; 0x08000208; 0x00000208; 0x08020000;
   0x00020208; 0x00000008; 0x08020008; 0x00020200].

Definition sbox4 : list Z :=
  [0x00802001; 0x00002081; 0x00002081; 0x00000080; 0x00802080; 0x00800081;
   0x00800001; 0x00002001; 0x00000000; 0x00802000; 0x00802000; 0x00802081;
   0x00000081; 0x00000000; 0x00800080; 0x00800001; 0x00000001; 0x00002000;
   0x00800000; 0x00802001; 0x00000080; 0x00800000; 0x00002001; 0x00002080;
   0x00800081; 0x00000001; 0x00002080; 0x00800080; 0x00002000; 0x00802080;
   0x00802081; 0x00000081; 0x00800080; 0x00800001; 0x00802000; 0x00802081;
   0x00000081; 0x00000000; 0x00000000; 0x00802000; 0x00002080; 0x00800080;
   0x00800081; 0x00000001; 0x00802001; 0x00002081; 0x00002081; 0x00000080;
   0x00802081; 0x00000081; 0x00000001; 0x00002000; 0x00800001; 0x00002001;
   0x00802080; 0x00800081; 0x00002001; 0x00002080; 0x00800000; 0x00802001;
   0x00000080; 0x00800000; 0x00002000; 0x00802080].

Definition sbox5 : list Z :=
  [0x00000100; 0x02080100; 0x02080000; 0x42000100; 0x00080000; 0x00000100;
   0x40000000; 0x02080000; 0x40080100; 0x00080000; 0x02000100; 0x40080100;
   0x42000100; 0x42080000; 0x00080100; 0x40000000; 0x02000000; 0x40080000;
   0x40080000; 0x00000000; 0x40000100; 0x42080100; 0x42080100; 0x02000100;
   0x42080000; 0x40000100; 0x00000000; 0x42000000; 0x02080100; 0x02000000;
   0x42000000; 0x00080100; 0x00080000; 0x42000100; 0x00000100; 0x02000000;
   0x40000000; 0x02080000; 0x42000100; 0x40080100; 0x02000100; 0x40000000;
   0x42080000; 0x02080100; 0x40080100; 0x00000100; 0x02000000; 0x42080000;
   0x42080100; 0x00080100; 0x42000000; 0x42080100; 0x02080000; 0x00000000;
   0x40080000; 0x42000000; 0x00080100; 0x02000100; 0x40000100; 0x00080000;
   0x00000000; 0x40080000; 0x02080100; 0x40000100].

Definition sbox6 : list Z :=
  [0x20000010; 0x20400000; 0x00004000; 0x20404010; 0x20400000; 0x00000010;
   0x20404010; 0x00400000; 0x20004000; 0x00404010; 0x00400000; 0x20000010;
   0x00400010; 0x20004000; 0x20000000; 0x00004010; 0x00000000; 0x00400010;
   0x20004010; 0x00004000; 0x00404000; 0x20004010; 0x00000010; 0x20400010;
   0x20400010; 0x00000000; 0x00404010; 0x20404000; 0x00004010; 0x00404000;
   0x20404000; 0x20000000; 0x20004000; 0x00000010; 0x20400010; 0x00404000;
   0x20404010; 0x00400000; 0x00004010; 0x20000010; 0x00400000; 0x20004000;
   0x20000000; 0x00004010; 0x20000010; 0x20404010; 0x00404000; 0x20400000;
   0x00404010; 0x20404000; 0x00000000; 0x20400010; 0x00000010; 0x00004000;
   0x20400000; 0x00404010; 0x00004000; 0x00400010; 0x20004010; 0x00000000;
   0x20404000; 0x20000000; 0x00400010; 0x20004010].

Definition sbox7 : list Z :=
  [0x00200000; 0x04200002; 0x04000802; 0x00000000; 0x00000800; 0x04000802;
   0x00200802; 0x04200800; 0x04200802; 0x00200000; 0x00000000; 0x04000002;
   0x00000002; 0x04000000; 0x04200002; 0x00000802; 0x04000800; 0x00200802;
   0x00200002; 0x04000800; 0x04000002; 0x04200000; 0x04200800; 0x00200002;
   0x04200000; 0x00000800; 0x00000802; 0x04200802; 0x00200800; 0x00000002;
   0x04000000; 0x00200800; 0x04000000; 0x00200800; 0x00200000; 0x04000802;
   0x04000802; 0x04200002; 0x04200002; 0x00000002; 0x00200002; 0x04000000;
   0x04000800; 0x00200000; 0x04200800; 0x00000802; 0x00200802; 0x04200800;
   0x00000802; 0x04000002; 0x04200802; 0x04200000; 0x00200800; 0x00000000;
   0x00000002; 0x04200802; 0x00000000; 0x00200802; 0x04200000; 0x00000800;
   0x04000002; 0x04000800; 0x00000800; 0x00200002].

Definition sbox8 : list Z :=
  [0x10001040; 0x00001000; 0x00040000; 0x10041040; 0x10000000; 0x10001040;
   0x00000040; 0x10000000; 0x00040040; 0x10040000; 0x10041040; 0x00041000;
   0x10041000; 0x00041040; 0x00001000; 0x00000040; 0x10040000; 0x10000040;
   0x10001000; 0x00001040; 0x00041000; 0x00040040; 0x10040040; 0x10041000;
   0x00001040; 0x00000000; 0x00000000; 0x10040040; 0x10000040; 0x10001000;
   0x00041040; 0x00040000; 0x00041040; 0x00040000; 0x10041000; 0x00001000;
   0x00000040; 0x10040040; 0x00001000; 0x00041040; 0x10001000; 0x00000040;
   0x10000040; 0x10040000; 0x10040040; 0x10000000; 0x00040000; 0x10001040;
   0x00000000; 0x10041040; 0x00040040; 0x10000040; 0x10040000; 0x10001000;
   0x10001040; 0x00000000; 0x10041040; 0x00041000; 0x00041000; 0x00001040;
   0x00001040; 0x00040040; 0x10000000; 0x10041000].

Definition leftkey_swap : list Z :=
  [0x00000000; 0x00000001; 0x00000100; 0x00000101;
   0x00010000; 0x00010001; 0x00010100; 0x00010101;
   0x01000000; 0x01000001; 0x01000100; 0x01000101;
   0x01010000; 0x01010001; 0x01010100; 0x01010101].

Definition rightkey_swap : list Z :=
  [0x00000000; 0x01000000; 0x00010000; 0x01010000;
   0x00000100; 0x01000100; 0x00010100; 0x01010100;
   0x00000001; 0x01000001; 0x00010001; 0x01010001;
   0x00000101; 0x01000101; 0x00010101; 0x01010101].

Definition encrypt_rotate_tab : list Z :=
  [1; 1; 2; 2; 2; 2; 2; 2; 1; 2; 2; 2; 2; 2; 2; 1].

Definition weak_keys : list (list Z) :=
  [[0x00; 0x00; 0x00; 0x00; 0x00; 0x00; 0x00; 0x00];
   [0x00; 0x00; 0x1e; 0x1e; 0x00; 0x00; 0x0e; 0x0e];
   [0x00; 0x00; 0xe0; 0xe0; 0x00; 0x00; 0xf0; 0xf0];
   [0x00; 0x00; 0xfe; 0xfe; 0x00; 0x00; 0xfe; 0xfe];
   [0x00; 0x1e; 0x00; 0x1e; 0x00; 0x0e; 0x00; 0x0e];
   [0x00; 0x1e; 0x1e; 0x00; 0x00; 0x0e; 0x0e; 0x00];
   [0x00; 0x1e; 0xe0; 0xfe; 0x00; 0x0e; 0xf0; 0xfe];
   [0x00; 0x1e; 0xfe; 0xe0; 0x00; 0x0e; 0xfe; 0xf0];
   [0x00; 0xe0; 0x00; 0xe0; 0x00; 0xf0; 0x00; 0xf0];
   [0x00; 0xe0; 0x1e; 0xfe; 0x00; 0xf0; 0x0e; 0xfe];
   [0x00; 0xe0; 0xe0; 0x00; 0x00; 0xf0; 0xf0; 0x00];
   [0x00; 0xe0; 0xfe; 0x1e; 0x00; 0xf0; 0xfe; 0x0e];
   [0x00; 0xfe; 0x00; 0xfe; 0x00; 0xfe; 0x00; 0xfe];
   [0x00; 0xfe; 0x1e; 0xe0; 0x00; 0xfe; 0x0e; 0xf0];
   [0x00; 0xfe; 0xe0; 0x1e; 0x00; 0xfe; 0xf0; 0x0e];
   [0x00; 0xfe; 0xfe; 0x00; 0x00; 0xfe; 0xfe; 0x00];
   [0x1e; 0x00; 0x00; 0x1e; 0x0e; 0x00; 0x00; 0x0e];
   [0x1e; 0x00; 0x1e; 0x00; 0x0e; 0x00; 0x0e; 0x00];
   [0x1e; 0x00; 0xe0; 0xfe; 0x0e; 0x00; 0xf0; 0xfe];
   [0x1e; 0x00; 0xfe; 0xe0; 0x0e; 0x00; 0xfe; 0xf0];
   [0x1e; 0x1e; 0x00; 0x00; 0x0e; 0x0e; 0x00; 0x00];
   [0x1e; 0x1e; 0x1e; 0x1e; 0x0e; 0x0e; 0x0e; 0x0e];
   [0x1e; 0x1e; 0xe0; 0xe0; 0x0e; 0x0e; 0xf0; 0xf0];
   [0x1e; 0x1e; 0xfe; 0xfe; 0x0e; 0x0e; 0xfe; 0xfe];
   [0x1e; 0xe0; 0x00; 0xfe; 0x0e; 0xf0; 0x00; 0xfe];
   [0x1e; 0xe0; 0x1e; 0xe0; 0x0e; 0xf0; 0x0e; 0xf0];
   [0x1e; 0xe0; 0xe0; 0x1e; 0x0e; 0xf0; 0xf0; 0x0e];
   [0x1e; 0xe0; 0xfe; 0x00; 0x0e; 0xf0; 0xfe; 0x00];
   [0x1e; 0xfe; 0x00; 0xe0; 0x0e; 0xfe; 0x00; 0xf0];
   [0x1e; 0xfe; 0x1e; 0xfe; 0x0e; 0xfe; 0x0e; 0xfe];
   [0x1e; 0xfe; 0xe0; 0x00; 0x0e; 0xfe; 0xf0; 0x00];
   [0x1e; 0xfe; 0xfe; 0x1e; 0x0e; 0xfe; 0xfe; 0x0e];
   [0xe0; 0x00; 0x00; 0xe0; 0xf0; 0x00; 0x00; 0xf0];
   [0xe0; 0x00; 0x1e; 0xfe; 0xf0; 0x00; 0x0e; 0xfe];
   [0xe0; 0x00; 0xe0; 0x00; 0xf0; 0x00; 0xf0; 0x00];
   [0xe0; 0x00; 0xfe; 0x1e; 0xf0; 0x00; 0xfe; 0x0e];
   [0xe0; 0x1e; 0x00; 0xfe; 0xf0; 0x0e; 0x00; 0xfe];
   [0xe0; 0x1e; 0x1e; 0xe0; 0xf0; 0x0e; 0x0e; 0xf0];
   [0xe0; 0x1e; 0xe0; 0x1e; 0xf0; 0x0e; 0xf0; 0x0e];
   [0xe0; 0x1e; 0xfe; 0x00; 0xf0; 0x0e; 0xfe; 0x00];
   [0xe0; 0xe0; 0x00; 0x00; 0xf0; 0xf0; 0x00; 0x00];
   [0xe0; 0xe0; 0x1e; 0x1e; 0xf0; 0xf0; 0x0e; 0x0e];
   [0xe0; 0xe0; 0xe0; 0xe0; 0xf0; 0xf0; 0xf0; 0xf0];
   [0xe0; 0xe0; 0xfe; 0xfe; 0xf0; 0xf0; 0xfe; 0xfe];
   [0xe0; 0xfe; 0x00; 0x1e; 0xf0; 0xfe; 0x00; 0x0e];
   [0xe0; 0xfe; 0x1e; 0x00; 0xf0; 0xfe; 0x0e; 0x00];
   [0xe0; 0xfe; 0xe0; 0xfe; 0xf0; 0xfe; 0xf0; 0xfe];
   [0xe0; 0xfe; 0xfe; 0xe0; 0xf0; 0xfe; 0xfe; 0xf0];
   [0xfe; 0x00; 0x00; 0xfe; 0xfe; 0x00; 0x00; 0xfe];
   [0xfe; 0x00; 0x1e; 0xe0; 0xfe; 0x00; 0x0e; 0xf0];
   [0xfe; 0x00; 0xe0; 0x1e; 0xfe; 0x00; 0xf0; 0x0e];
   [0xfe; 0x00; 0xfe; 0x00; 0xfe; 0x00; 0xfe; 0x00];
   [0xfe; 0x1e; 0x00; 0xe0; 0xfe; 0x0e; 0x00; 0xf0];
   [0xfe; 0x1e; 0x1e; 0xfe; 0xfe; 0x0e; 0x0e; 0xfe];
   [0xfe; 0x1e; 0xe0; 0x00; 0xfe; 0x0e; 0xf0; 0x00];
   [0xfe; 0x1e; 0xfe; 0x1e; 0xfe; 0x0e; 0xfe; 0x0e];
   [0xfe; 0xe0; 0x00; 0x1e; 0xfe; 0xf0; 0x00; 0x0e];
   [0xfe; 0xe0; 0x1e; 0x00; 0xfe; 0xf0; 0x0e; 0x00];
   [0xfe; 0xe0; 0xe0; 0xfe; 0xfe; 0xf0; 0xf0; 0xfe];
   [0xfe; 0xe0; 0xfe; 0xe0; 0xfe; 0xf0; 0xfe; 0xf0];
   [0xfe; 0xfe; 0x00; 0x00; 0xfe; 0xfe; 0x00; 0x00];
   [0xfe; 0xfe; 0x1e; 0x1e; 0xfe; 0xfe; 0x0e; 0x0e];
   [0xfe; 0xfe; 0xe0; 0xe0; 0xfe; 0xfe; 0xf0; 0xf0];
   [0xfe; 0xfe; 0xfe; 0xfe; 0xfe; 0xfe; 0xfe; 0xfe]].

(** ** Words *)

(** [x << k] on [uint32_t]. *)
Definition shl (x k : Z) : Z := u32 (Z.shiftl x k).

(** [a | b | ..]. *)
Definition ors (l : list Z) : Z := fold_left Z.lor l 0.

(** A macro that changes two words yields both. *)
Definition DO_PERMUTATION (a b offset mask : Z) : Z * Z :=
  let temp := Z.land (Z.lxor (Z.shiftr a offset) b) mask in
  (Z.lxor a (shl temp offset), Z.lxor b temp).

Definition INITIAL_PERMUTATION (lw rw : Z) : Z * Z :=
  let '(lw, rw) := DO_PERMUTATION lw rw 4 0x0f0f0f0f in
  let '(lw, rw) := DO_PERMUTATION lw rw 16 0x0000ffff in
  let '(rw, lw) := DO_PERMUTATION rw lw 2 0x33333333 in
  let '(rw, lw) := DO_PERMUTATION rw lw 8 0x00ff00ff in
  let rw := Z.lor (shl rw 1) (Z.shiftr rw 31) in
  let temp := Z.land (Z.lxor lw rw) 0xaaaaaaaa in
  let rw := Z.lxor rw temp in
  let lw := Z.lxor lw temp in
  let lw := Z.lor (shl lw 1) (Z.shiftr lw 31) in
  (lw, rw).

Definition FINAL_PERMUTATION (lw rw : Z) : Z * Z :=
  let lw := Z.lor (shl lw 31) (Z.shiftr lw 1) in
  let temp := Z.land (Z.lxor lw rw) 0xaaaaaaaa in
  let lw := Z.lxor lw temp in
  let rw := Z.lxor rw temp in
  let rw := Z.lor (shl rw 31) (Z.shiftr rw 1) in
  let '(rw, lw) := DO_PERMUTATION rw lw 8 0x00ff00ff in
  let '(rw, lw) := DO_PERMUTATION rw lw 2 0x33333333 in
  let '(lw, rw) := DO_PERMUTATION lw rw 16 0x0000ffff in
  let '(lw, rw) := DO_PERMUTATION lw rw 4 0x0f0f0f0f in
  (lw, rw).

(** [sboxN[x & 0x3f]]. *)
Definition sub (sbox : list Z) (x : Z) : Z := nth (Z.to_nat (Z.land x 0x3f)) sbox 0.

(** [DES_ROUND(from, to, work, subkey)] with the two subkeys it takes. *)
Definition DES_ROUND (from to k1 k2 : Z) : Z :=
  let work := Z.lxor from k1 in
  let to := Z.lxor to (sub sbox8 work) in
  let to := Z.lxor to (sub sbox6 (Z.shiftr work 8)) in
  let to := Z.lxor to (sub sbox4 (Z.shiftr work 16)) in
  let to := Z.lxor to (sub sbox2 (Z.shiftr work 24)) in
  let work := Z.lxor (Z.lor (shl from 28) (Z.shiftr from 4)) k2 in
  let to := Z.lxor to (sub sbox7 work) in
  let to := Z.lxor to (sub sbox5 (Z.shiftr work 8)) in
  let to := Z.lxor to (sub sbox3 (Z.shiftr work 16)) in
  Z.lxor to (sub sbox1 (Z.shiftr work 24)).

(** [READ_64BIT_DATA(data, left, right)], the words of four bytes each. *)
Definition word_at (data : list Z) (i : nat) : res Z :=
  b0 ← aget data i; b1 ← aget data (i + 1); b2 ← aget data (i + 2); b3 ← aget data (i + 3);
  Ret (u32 (ors [Z.shiftl b0 24; Z.shiftl b1 16; Z.shiftl b2 8; b3])).

Definition READ_64BIT_DATA (data : list Z) : res (Z * Z) :=
  lw ← word_at data 0; rw ← word_at data 4; Ret (lw, rw).

Definition WRITE_64BIT_DATA (data : list Z) (lw rw : Z) : res (list Z) :=
  data ← aset data 0 (Z.land (Z.shiftr lw 24) 0xff);
  data ← aset data 1 (Z.land (Z.shiftr lw 16) 0xff);
  data ← aset data 2 (Z.land (Z.shiftr lw 8) 0xff);
  data ← aset data 3 (Z.land lw 0xff);
  data ← aset data 4 (Z.land (Z.shiftr rw 24) 0xff);
  data ← aset data 5 (Z.land (Z.shiftr rw 16) 0xff);
  data ← aset data 6 (Z.land (Z.shiftr rw 8) 0xff);
  aset data 7 (Z.land rw 0xff).

(** ** The key schedule *)

Definition lswap (x s : Z) : Z := nth (Z.to_nat (Z.land (Z.shiftr x s) 0xf)) leftkey_swap 0.
Definition rswap (x s : Z) : Z := nth (Z.to_nat (Z.land (Z.shiftr x s) 0xf)) rightkey_swap 0.

(** The 28-bit halves, before the rounds. *)
Definition permuted_choice1 (lw rw : Z) : Z * Z :=
  let '(rw, lw) := DO_PERMUTATION rw lw 4 0x0f0f0f0f in
  let '(rw, lw) := DO_PERMUTATION rw lw 0 0x10101010 in
  let lw :=
    ors [shl (lswap lw 0) 3; shl (lswap lw 8) 2; shl (lswap lw 16) 1; lswap lw 24;
         shl (lswap lw 5) 7; shl (lswap lw 13) 6; shl (lswap lw 21) 5; shl (lswap lw 29) 4] in
  let lw := Z.land lw 0x0fffffff in
  let rw :=
    ors [shl (rswap rw 1) 3; shl (rswap rw 9) 2; shl (rswap rw 17) 1; rswap rw 25;
         shl (rswap rw 4) 7; shl (rswap rw 12) 6; shl (rswap rw 20) 5; shl (rswap rw 28) 4] in
  let rw := Z.land rw 0x0fffffff in
  (lw, rw).

Definition rotate28 (x n : Z) : Z := Z.land (Z.lor (shl x n) (Z.shiftr x (28 - n))) 0x0fffffff.

(** The two subkeys of a round. *)
Definition subkey1 (lw rw : Z) : Z :=
  ors [Z.land (shl lw 4) 0x24000000;
       Z.land (shl lw 28) 0x10000000;
       Z.land (shl lw 14) 0x08000000;
       Z.land (shl lw 18) 0x02080000;
       Z.land (shl lw 6) 0x01000000;
       Z.land (shl lw 9) 0x00200000;
       Z.land (Z.shiftr lw 1) 0x00100000;
       Z.land (shl lw 10) 0x00040000;
       Z.land (shl lw 2) 0x00020000;
       Z.land (Z.shiftr lw 10) 0x00010000;
       Z.land (Z.shiftr rw 13) 0x00002000;
       Z.land (Z.shiftr rw 4) 0x00001000;
       Z.land (shl rw 6) 0x00000800;
       Z.land (Z.shiftr rw 1) 0x00000400;
       Z.land (Z.shiftr rw 14) 0x00000200;
       Z.land rw 0x00000100;
       Z.land (Z.shiftr rw 5) 0x00000020;
       Z.land (Z.shiftr rw 10) 0x00000010;
       Z.land (Z.shiftr rw 3) 0x00000008;
       Z.land (Z.shiftr rw 18) 0x00000004;
       Z.land (Z.shiftr rw 26) 0x00000002;
       Z.land (Z.shiftr rw 24) 0x00000001].

Definition subkey2 (lw rw : Z) : Z :=
  ors [Z.land (shl lw 15) 0x20000000;
       Z.land (shl lw 17) 0x10000000;
       Z.land (shl lw 10) 0x08000000;
       Z.land (shl lw 22) 0x04000000;
       Z.land (Z.shiftr lw 2) 0x02000000;
       Z.land (shl lw 1) 0x01000000;
       Z.land (shl lw 16) 0x00200000;
       Z.land (shl lw 11) 0x00100000;
       Z.land (shl lw 3) 0x00080000;
       Z.land (Z.shiftr lw 6) 0x00040000;
       Z.land (shl lw 15) 0x00020000;
       Z.land (Z.shiftr lw 4) 0x00010000;
       Z.land (Z.shiftr rw 2) 0x00002000;
       Z.land (shl rw 8) 0x00001000;
       Z.land (Z.shiftr rw 14) 0x00000808;
       Z.land (Z.shiftr rw 9) 0x00000400;
       Z.land rw 0x00000200;
       Z.land (shl rw 7) 0x00000100;
       Z.land (Z.shiftr rw 7) 0x00000020;
       Z.land (Z.shiftr rw 3) 0x00000011;
       Z.land (shl rw 2) 0x00000004;
       Z.land (Z.shiftr rw 21) 0x00000002].

(** The loop over the rounds, on the rotation counts that are left. *)
Fixpoint schedule_rounds (rots : list Z) (lw rw : Z) : list Z :=
  match rots with
  | [] => []
  | n :: rots' =>
    let lw := rotate28 lw n in
    let rw := rotate28 rw n in
    subkey1 lw rw :: subkey2 lw rw :: schedule_rounds rots' lw rw
  end.

(** Store words from index [off] on. *)
Fixpoint store (arr : list Z) (off : nat) (ws : list Z) : res (list Z) :=
  match ws with
  | [] => Ret arr
  | w :: ws' => arr ← aset arr off w; store arr (S off) ws'
  end.

(** [des_key_schedule(rawkey, &subkey[off])]. *)
Definition des_key_schedule (rawkey : list Z) (subkey : list Z) (off : nat) : res (list Z) :=
  '(lw, rw) ← READ_64BIT_DATA rawkey;
  let '(lw, rw) := permuted_choice1 lw rw in
  store subkey off (schedule_rounds encrypt_rotate_tab lw rw).

(** ** Contexts *)

(** [gl_des_ctx] (arrays of 32 subkeys) and [gl_3des_ctx] (of 96). *)
Record ctx := Ctx { encrypt_subkeys : list Z; decrypt_subkeys : list Z }.

(** [for (i = 0; i < 32; i += 2) body]. *)
Definition every_second (body : nat -> ctx -> res ctx) (c : ctx) : res ctx :=
  for_ 0 16 (fun j c => body (2 * j)%nat c) c.

(** [ctx->to[i] = ctx->from[j]] for the combinations that occur. *)
Definition dec_from_enc (i j : nat) (c : ctx) : res ctx :=
  k ← aget (encrypt_subkeys c) j; d ← aset (decrypt_subkeys c) i k; Ret (Ctx (encrypt_subkeys c) d).
Definition enc_from_dec (i j : nat) (c : ctx) : res ctx :=
  k ← aget (decrypt_subkeys c) j; e ← aset (encrypt_subkeys c) i k; Ret (Ctx e (decrypt_subkeys c)).
Definition enc_from_enc (i j : nat) (c : ctx) : res ctx :=
  k ← aget (encrypt_subkeys c) j; e ← aset (encrypt_subkeys c) i k; Ret (Ctx e (decrypt_subkeys c)).
Definition dec_from_dec (i j : nat) (c : ctx) : res ctx :=
  k ← aget (decrypt_subkeys c) j; d ← aset (decrypt_subkeys c) i k; Ret (Ctx (encrypt_subkeys c) d).

Definition gl_des_setkey (c : ctx) (key : list Z) : res ctx :=
  e ← des_key_schedule key (encrypt_subkeys c) 0;
  every_second (fun i c =>
    c ← dec_from_enc i (30 - i) c;
    dec_from_enc (i + 1) (31 - i) c) (Ctx e (decrypt_subkeys c)).

Definition gl_3des_set2keys (c : ctx) (key1 key2 : list Z) : res ctx :=
  e ← des_key_schedule key1 (encrypt_subkeys c) 0;
  d ← des_key_schedule key2 (decrypt_subkeys c) 32;
  every_second (fun i c =>
    c ← dec_from_enc i (30 - i) c;
    c ← dec_from_enc (i + 1) (31 - i) c;
    c ← enc_from_dec (i + 32) (62 - i) c;
    c ← enc_from_dec (i + 33) (63 - i) c;
    c ← enc_from_enc (i + 64) i c;
    c ← enc_from_enc (i + 65) (i + 1) c;
    c ← dec_from_dec (i + 64) i c;
    dec_from_dec (i + 65) (i + 1) c) (Ctx e d).

Definition gl_3des_set3keys (c : ctx) (key1 key2 key3 : list Z) : res ctx :=
  e ← des_key_schedule key1 (encrypt_subkeys c) 0;
  d ← des_key_schedule key2 (decrypt_subkeys c) 32;
  e ← des_key_schedule key3 e 64;
  every_second (fun i c =>
    c ← dec_from_enc i (94 - i) c;
    c ← dec_from_enc (i + 1) (95 - i) c;
    c ← enc_from_dec (i + 32) (62 - i) c;
    c ← enc_from_dec (i + 33) (63 - i) c;
    c ← dec_from_enc (i + 64) (30 - i) c;
    dec_from_enc (i + 65) (31 - i) c) (Ctx e d).

(** ** Encryption and decryption *)

(** [n] times two rounds [DES_ROUND(b, a, ..) DES_ROUND(a, b, ..)] taking their
    subkeys from index [k] on. *)
Fixpoint round_pairs (n : nat) (keys : list Z) (k : nat) (a b : Z) : res (Z * Z) :=
  match n with
  | O => Ret (a, b)
  | S n' =>
    k0 ← aget keys k; k1 ← aget keys (k + 1);
    let a := DES_ROUND b a k0 k1 in
    k2 ← aget keys (k + 2); k3 ← aget keys (k + 3);
    let b := DES_ROUND a b k2 k3 in
    round_pairs n' keys (k + 4) a b
  end.

(** [mode] is true for decryption. *)
Definition mode_keys (c : ctx) (mode : bool) : list Z :=
  if mode then decrypt_subkeys c else encrypt_subkeys c.

Definition gl_des_ecb_crypt (c : ctx) (from to : list Z) (mode : bool) : res (list Z) :=
  let keys := mode_keys c mode in
  '(lw, rw) ← READ_64BIT_DATA from;
  let '(lw, rw) := INITIAL_PERMUTATION lw rw in
  '(lw, rw) ← round_pairs 8 keys 0 lw rw;
  let '(rw, lw) := FINAL_PERMUTATION rw lw in
  WRITE_64BIT_DATA to rw lw.

Definition gl_3des_ecb_crypt (c : ctx) (from to : list Z) (mode : bool) : res (list Z) :=
  let keys := mode_keys c mode in
  '(lw, rw) ← READ_64BIT_DATA from;
  let '(lw, rw) := INITIAL_PERMUTATION lw rw in
  '(lw, rw) ← round_pairs 8 keys 0 lw rw;
  '(rw, lw) ← round_pairs 8 keys 32 rw lw;
  '(lw, rw) ← round_pairs 8 keys 64 lw rw;
  let '(rw, lw) := FINAL_PERMUTATION rw lw in
  WRITE_64BIT_DATA to rw lw.

(** ** Weak keys *)

(** The sign of [memcmp] on byte lists of equal length. *)
Fixpoint memcmp (a b : list Z) : Z :=
  match a, b with
  | x :: a', y :: b' => if x <? y then -1 else if y <? x then 1 else memcmp a' b'
  | _, _ => 0
  end.

(** The binary search; [left] and [right] are the bounds of what is left. *)
Fixpoint weak_search (fuel : nat) (work : list Z) (lw rw : Z) : res bool :=
  if rw <? lw then Ret false
  else match fuel with
  | O => Fuel
  | S n =>
    let middle := Z.quot (lw + rw) 2 in
    entry ← oget (weak_keys !! Z.to_nat middle);
    let cmp_result := memcmp work entry in
    if cmp_result =? 0 then Ret true
    else if 0 <? cmp_result then weak_search n work (middle + 1) rw
    else weak_search n work lw (middle - 1)
  end.

(** [gl_des_is_weak_key(key)]; the parity bits are cleared first. *)
Definition clear_parity (key : list Z) : list Z := map (fun b => Z.land b 0xfe) (take 8 key).

Definition gl_des_is_weak_key (key : list Z) : res bool :=
  if (length key <? 8)%nat then UB
  else weak_search 64 (clear_parity key) 0 63.

(** [gl_des_makekey] and [gl_3des_makekey]: the context as it is left, and the
    result. *)
Definition gl_des_makekey (c : ctx) (key : list Z) (keylen : Z) : res (ctx * bool) :=
  if negb (keylen =? 8) then Ret (c, false)
  else
    c ← gl_des_setkey c key;
    w ← gl_des_is_weak_key key;
    Ret (c, negb w).

Definition gl_3des_makekey (c : ctx) (key : list Z) (keylen : Z) : res (ctx * bool) :=
  if negb (keylen =? 24) then Ret (c, false)
  else
    c ← gl_3des_set3keys c key (drop 8 key) (drop 16 key);
    w1 ← gl_des_is_weak_key key;
    w ← (if (w1 : bool) then Ret true else
         w2 ← gl_des_is_weak_key (drop 8 key);
         if (w2 : bool) then Ret true else gl_des_is_weak_key (drop 16 key));
    Ret (c, negb w).

(** ** Words of 32 bits *)

Definition word (x : Z) : Prop := 0 <= x < 2 ^ 32.

Lemma word_u32 x : word (u32 x).
Proof. apply Z.mod_pos_bound. done. Qed.

Lemma u32_word x : word x -> u32 x = x.
Proof. apply Z.mod_small. Qed.

Lemma testbit_u32 x k : Z.testbit (u32 x) k = (k <? 32) && Z.testbit x k.
Proof.
  unfold u32. destruct (Z.ltb_spec k 32).
  - by rewrite Z.mod_pow2_bits_low.
  - by rewrite Z.mod_pow2_bits_high by lia.
Qed.

Lemma testbit_word x k : word x -> 32 <= k -> Z.testbit x k = false.
Proof.
  intros Hx Hk. rewrite <-(u32_word x Hx), testbit_u32.
  by rewrite (proj2 (Z.ltb_ge _ _)) by lia.
Qed.

(** A number without bits from 32 up is a word. *)
Lemma word_bits x : (forall k, 32 <= k -> Z.testbit x k = false) -> word x.
Proof.
  intros H. replace x with (u32 x); [apply word_u32|].
  apply Z.bits_inj'. intros k Hk. rewrite testbit_u32. destruct (Z.ltb_spec k 32); [done|].
  by rewrite H.
Qed.

Lemma word_lxor x y : word x -> word y -> word (Z.lxor x y).
Proof. intros Hx Hy. apply word_bits. intros k Hk. by rewrite Z.lxor_spec, !testbit_word. Qed.

Lemma word_lor x y : word x -> word y -> word (Z.lor x y).
Proof. intros Hx Hy. apply word_bits. intros k Hk. by rewrite Z.lor_spec, !testbit_word. Qed.

Lemma word_land x y : word y -> word (Z.land x y).
Proof. intros Hy. apply word_bits. intros k Hk. rewrite Z.land_spec, (testbit_word y) by done. apply andb_false_r. Qed.

Lemma word_shiftr x n : 0 <= n -> word x -> word (Z.shiftr x n).
Proof. intros Hn Hx. apply word_bits. intros k Hk. rewrite Z.shiftr_spec by lia. apply testbit_word; [done|lia]. Qed.

Create HintDb word discriminated.
#[local] Hint Resolve word_u32 word_lxor word_lor word_land word_shiftr : word.

Lemma word_shl x n : word (shl x n).
Proof. apply word_u32. Qed.
#[local] Hint Resolve word_shl : word.

Lemma testbit_shl x n k : 0 <= n -> 0 <= k ->
  Z.testbit (shl x n) k = (k <? 32) && (n <=? k) && Z.testbit x (k - n).
Proof.
  intros Hn Hk. unfold shl. rewrite testbit_u32, Z.shiftl_spec by done. rewrite <-andb_assoc. f_equal.
  destruct (Z.leb_spec n k); [done|]. rewrite Z.testbit_neg_r; [done|lia].
Qed.

(** [DO_PERMUTATION] is its own inverse when the mask survives the shift. *)
Lemma DO_PERMUTATION_twice a b offset mask : 0 <= offset -> word a -> word b -> word mask ->
  (forall k, 32 - offset <= k -> Z.testbit mask k = false) ->
  forall a' b', DO_PERMUTATION a b offset mask = (a', b') ->
  DO_PERMUTATION a' b' offset mask = (a, b) /\ word a' /\ word b'.
Proof.
  intros Ho Ha Hb Hm Hmask a' b' [= <- <-]. unfold DO_PERMUTATION.
  set (t := Z.land (Z.lxor (Z.shiftr a offset) b) mask).
  assert (Ht : Z.land (Z.lxor (Z.shiftr (Z.lxor a (shl t offset)) offset) (Z.lxor b t)) mask = t).
  { apply Z.bits_inj'. intros k Hk. unfold t. rewrite !Z.land_spec, !Z.lxor_spec, !Z.shiftr_spec by done.
    rewrite Z.lxor_spec, testbit_shl, Z.add_simpl_r by lia.
    destruct (Z.testbit mask k) eqn:Em; [|by rewrite !andb_false_r].
    assert (k < 32 - offset) by (destruct (Z.lt_ge_cases k (32 - offset)); [done|by rewrite Hmask in Em]).
    rewrite (proj2 (Z.ltb_lt _ _)), (proj2 (Z.leb_le _ _)) by lia.
    rewrite !Z.land_spec, !Z.lxor_spec, !Z.shiftr_spec, Em by done.
    by destruct (Z.testbit a (k + offset)), (Z.testbit b k). }
  rewrite Ht. split; [|split; [auto with word|apply word_lxor; [done|by apply word_land]]].
  by rewrite !Z.lxor_assoc, !Z.lxor_nilpotent, !Z.lxor_0_r.
Qed.

(** The exchange of the bits of a mask between two words. *)
Lemma exchange_twice l r mask :
  let t := Z.land (Z.lxor l r) mask in
  Z.land (Z.lxor (Z.lxor l t) (Z.lxor r t)) mask = t.
Proof.
  intros t. replace (Z.lxor (Z.lxor l t) (Z.lxor r t)) with (Z.lxor l r); [done|].
  apply Z.bits_inj'. intros k Hk. rewrite !Z.lxor_spec.
  by destruct (Z.testbit l k), (Z.testbit r k), (Z.testbit t k).
Qed.

(** The bits of the two rotations by one. *)
Definition rotl1 (x : Z) : Z := Z.lor (shl x 1) (Z.shiftr x 31).
Definition rotr1 (x : Z) : Z := Z.lor (shl x 31) (Z.shiftr x 1).

Lemma testbit_rotl1 x k : word x -> 0 <= k < 32 ->
  Z.testbit (rotl1 x) k = Z.testbit x (if k =? 0 then 31 else k - 1).
Proof.
  intros Hx Hk. unfold rotl1. rewrite Z.lor_spec, testbit_shl, Z.shiftr_spec by lia.
  rewrite (proj2 (Z.ltb_lt k 32)) by lia. destruct (Z.eqb_spec k 0) as [->|]; simpl; [done|].
  rewrite (proj2 (Z.leb_le 1 k)), (testbit_word x (k + 31)) by (done || lia). apply orb_false_r.
Qed.

Lemma testbit_rotr1 x k : word x -> 0 <= k < 32 ->
  Z.testbit (rotr1 x) k = Z.testbit x (if k =? 31 then 0 else k + 1).
Proof.
  intros Hx Hk. unfold rotr1. rewrite Z.lor_spec, testbit_shl, Z.shiftr_spec by lia.
  rewrite (proj2 (Z.ltb_lt k 32)) by lia. destruct (Z.eqb_spec k 31) as [->|]; simpl.
  - rewrite (testbit_word x (31 + 1)) by (done || lia). apply orb_false_r.
  - by rewrite (proj2 (Z.leb_gt 31 k)) by lia.
Qed.

Lemma word_rotl1 x : word x -> word (rotl1 x).
Proof. unfold rotl1. intros. apply word_lor; [apply word_shl|by apply word_shiftr]. Qed.

Lemma word_rotr1 x : word x -> word (rotr1 x).
Proof. unfold rotr1. intros. apply word_lor; [apply word_shl|by apply word_shiftr]. Qed.

Lemma word_ext x y : word x -> word y ->
  (forall k, 0 <= k < 32 -> Z.testbit x k = Z.testbit y k) -> x = y.
Proof.
  intros Hx Hy H. apply Z.bits_inj'. intros k Hk. destruct (Z.lt_ge_cases k 32); [auto|].
  by rewrite !testbit_word.
Qed.

Lemma rotl_rotr x : word x -> rotr1 (rotl1 x) = x.
Proof.
  intros Hx. pose proof (word_rotl1 x Hx). apply word_ext; [by apply word_rotr1|done|].
  intros k Hk. rewrite testbit_rotr1 by done. rewrite testbit_rotl1 by (done || case_match; lia).
  f_equal. destruct (Z.eqb_spec k 31); case_match; lia.
Qed.

Lemma rotr_rotl x : word x -> rotl1 (rotr1 x) = x.
Proof.
  intros Hx. pose proof (word_rotr1 x Hx). apply word_ext; [by apply word_rotl1|done|].
  intros k Hk. rewrite testbit_rotl1 by done. rewrite testbit_rotr1 by (done || case_match; lia).
  f_equal. destruct (Z.eqb_spec k 0); case_match; lia.
Qed.

Ltac mask_fits := intros k Hk; apply Z.bits_above_log2; [done|]; simpl; lia.

Lemma perm_step a b offset mask : word a -> word b -> 0 <= offset -> word mask ->
  (forall k, 32 - offset <= k -> Z.testbit mask k = false) ->
  exists a' b', DO_PERMUTATION a b offset mask = (a', b') /\
    DO_PERMUTATION a' b' offset mask = (a, b) /\ word a' /\ word b'.
Proof.
  intros. destruct (DO_PERMUTATION a b offset mask) as [a' b'] eqn:E. exists a', b'.
  split; [done|]. by eapply DO_PERMUTATION_twice.
Qed.

(** The initial and the final permutation undo each other. *)
Lemma final_initial l r : word l -> word r ->
  exists l' r', INITIAL_PERMUTATION l r = (l', r') /\ word l' /\ word r' /\
    FINAL_PERMUTATION l' r' = (l, r).
Proof.
  intros Hl Hr. unfold INITIAL_PERMUTATION.
  destruct (perm_step l r 4 0x0f0f0f0f Hl Hr) as (l1 & r1 & E1 & F1 & Hl1 & Hr1); [done|done|mask_fits|].
  rewrite E1. destruct (perm_step l1 r1 16 0x0000ffff Hl1 Hr1) as (l2 & r2 & E2 & F2 & Hl2 & Hr2);
    [done|done|mask_fits|]. rewrite E2.
  destruct (perm_step r2 l2 2 0x33333333 Hr2 Hl2) as (r3 & l3 & E3 & F3 & Hr3 & Hl3); [done|done|mask_fits|].
  rewrite E3. destruct (perm_step r3 l3 8 0x00ff00ff Hr3 Hl3) as (r4 & l4 & E4 & F4 & Hr4 & Hl4);
    [done|done|mask_fits|]. rewrite E4.
  fold (rotl1 r4). set (t := Z.land (Z.lxor l4 (rotl1 r4)) 0xaaaaaaaa).
  assert (word t) by (by apply word_land). pose proof (word_rotl1 r4 Hr4).
  assert (word (Z.lxor l4 t)) by auto with word.
  fold (rotl1 (Z.lxor l4 t)). eexists _, _. split; [done|].
  split_and!; [by apply word_rotl1|auto with word|]. unfold FINAL_PERMUTATION.
  fold (rotr1 (rotl1 (Z.lxor l4 t))). rewrite rotl_rotr by done.
  unfold t. rewrite exchange_twice. fold t.
  rewrite !Z.lxor_assoc, !Z.lxor_nilpotent, !Z.lxor_0_r.
  fold (rotr1 (rotl1 r4)). rewrite rotl_rotr by done. by rewrite F4, F3, F2, F1.
Qed.

Lemma initial_final l r : word l -> word r ->
  exists l' r', FINAL_PERMUTATION l r = (l', r') /\ word l' /\ word r' /\
    INITIAL_PERMUTATION l' r' = (l, r).
Proof.
  intros Hl Hr. unfold FINAL_PERMUTATION. fold (rotr1 l). pose proof (word_rotr1 l Hl).
  set (t := Z.land (Z.lxor (rotr1 l) r) 0xaaaaaaaa). assert (word t) by (by apply word_land).
  assert (word (Z.lxor r t)) by auto with word. assert (Hl0 : word (Z.lxor (rotr1 l) t)) by auto with word.
  fold (rotr1 (Z.lxor r t)). assert (Hr0 : word (rotr1 (Z.lxor r t))) by by apply word_rotr1.
  destruct (perm_step _ _ 8 0x00ff00ff Hr0 Hl0) as (r1 & l1 & E1 & F1 & Hr1 & Hl1); [done|done|mask_fits|].
  rewrite E1. destruct (perm_step _ _ 2 0x33333333 Hr1 Hl1) as (r2 & l2 & E2 & F2 & Hr2 & Hl2);
    [done|done|mask_fits|]. rewrite E2.
  destruct (perm_step _ _ 16 0x0000ffff Hl2 Hr2) as (l3 & r3 & E3 & F3 & Hl3 & Hr3); [done|done|mask_fits|].
  rewrite E3. destruct (perm_step _ _ 4 0x0f0f0f0f Hl3 Hr3) as (l4 & r4 & E4 & F4 & Hl4 & Hr4);
    [done|done|mask_fits|]. rewrite E4.
  exists l4, r4. split_and!; try done. unfold INITIAL_PERMUTATION. rewrite F4, F3, F2, F1.
  fold (rotl1 (rotr1 (Z.lxor r t))). rewrite rotr_rotl by done.
  unfold t. rewrite exchange_twice. fold t.
  rewrite !Z.lxor_assoc, !Z.lxor_nilpotent, !Z.lxor_0_r.
  fold (rotl1 (rotr1 l)). by rewrite rotr_rotl.
Qed.

(** ** Bytes and words *)

Definition word_of (b0 b1 b2 b3 : Z) : Z := b0 * 2 ^ 24 + b1 * 2 ^ 16 + b2 * 2 ^ 8 + b3.

Lemma ors_word b0 b1 b2 b3 : byte b0 -> byte b1 -> byte b2 -> byte b3 ->
  u32 (ors [Z.shiftl b0 24; Z.shiftl b1 16; Z.shiftl b2 8; b3]) = word_of b0 b1 b2 b3.
Proof.
  unfold byte. intros H0 H1 H2 H3. cbn [ors fold_left]. unfold ors. cbn [fold_left].
  rewrite !Z.shiftl_mul_pow2 by lia. rewrite Z.lor_0_l.
  rewrite (lor_add b0 (b1 * 2 ^ 16) 24) by lia.
  replace (b0 * 2 ^ 24 + b1 * 2 ^ 16) with ((b0 * 2 ^ 8 + b1) * 2 ^ 16) by lia.
  rewrite (lor_add _ _ 16) by lia.
  replace ((b0 * 2 ^ 8 + b1) * 2 ^ 16 + b2 * 2 ^ 8) with ((b0 * 2 ^ 16 + b1 * 2 ^ 8 + b2) * 2 ^ 8) by lia.
  rewrite (lor_add _ _ 8) by lia. unfold word_of. rewrite u32_word; [lia|]. unfold word. lia.
Qed.

Lemma word_word_of b0 b1 b2 b3 : byte b0 -> byte b1 -> byte b2 -> byte b3 -> word (word_of b0 b1 b2 b3).
Proof. unfold byte, word, word_of. lia. Qed.

(** The four bytes [WRITE_64BIT_DATA] stores for a word. *)
Definition bytes_of (w : Z) : list Z :=
  [Z.land (Z.shiftr w 24) 0xff; Z.land (Z.shiftr w 16) 0xff; Z.land (Z.shiftr w 8) 0xff; Z.land w 0xff].

Lemma land_ff x : Z.land x 0xff = x mod 256.
Proof. change 0xff with (Z.ones 8). by rewrite Z.land_ones. Qed.

Lemma bytes_of_word_of b0 b1 b2 b3 : byte b0 -> byte b1 -> byte b2 -> byte b3 ->
  bytes_of (word_of b0 b1 b2 b3) = [b0; b1; b2; b3].
Proof.
  unfold byte, bytes_of, word_of. intros. rewrite !land_ff, !Z.shiftr_div_pow2 by lia.
  change (2 ^ 24) with 16777216. change (2 ^ 16) with 65536. change (2 ^ 8) with 256.
  repeat f_equal; Z.to_euclidean_division_equations; lia.
Qed.

Lemma word_of_bytes_of w : word w ->
  word_of (Z.land (Z.shiftr w 24) 0xff) (Z.land (Z.shiftr w 16) 0xff) (Z.land (Z.shiftr w 8) 0xff) (Z.land w 0xff) = w.
Proof.
  unfold word, word_of. intros. rewrite !land_ff, !Z.shiftr_div_pow2 by lia.
  change (2 ^ 24) with 16777216 in *. change (2 ^ 16) with 65536 in *. change (2 ^ 8) with 256 in *.
  change (2 ^ 32) with 4294967296 in *. Z.to_euclidean_division_equations. lia.
Qed.

Lemma byte_land_ff x : byte (Z.land x 0xff).
Proof. rewrite land_ff. apply Z.mod_pos_bound. done. Qed.

(** A block of eight bytes and its two words. *)
Definition block_of (l r : Z) : list Z := bytes_of l ++ bytes_of r.

Lemma READ_block l r : word l -> word r -> READ_64BIT_DATA (block_of l r) = Ret (l, r).
Proof.
  intros Hl Hr. unfold READ_64BIT_DATA, word_at, block_of, bytes_of, aget. simpl.
  rewrite !ors_word by apply byte_land_ff. by rewrite !word_of_bytes_of.
Qed.

Lemma READ_data data : length data = 8%nat -> Forall byte data ->
  exists l r, READ_64BIT_DATA data = Ret (l, r) /\ word l /\ word r /\ block_of l r = data.
Proof.
  intros Hl Hb. do 9 (destruct data as [|? data]; try discriminate Hl).
  repeat match goal with H : Forall byte (_ :: _) |- _ => apply Forall_cons in H as [? H] end.
  unfold READ_64BIT_DATA, word_at, aget. simpl. rewrite !ors_word by done.
  eexists _, _. split; [done|]. split_and!; [by apply word_word_of..|].
  unfold block_of. by rewrite !bytes_of_word_of.
Qed.

Lemma WRITE_block data l r : length data = 8%nat -> WRITE_64BIT_DATA data l r = Ret (block_of l r).
Proof. intros Hl. do 9 (destruct data as [|? data]; try discriminate Hl). reflexivity. Qed.

Lemma block_of_ok l r : length (block_of l r) = 8%nat /\ Forall byte (block_of l r).
Proof.
  split; [done|]. unfold block_of, bytes_of. simpl. repeat (apply Forall_cons; split); try apply byte_land_ff. done.
Qed.

(** ** The rounds *)

(** What a round mixes into the other word. *)
Definition fout (from : Z) (k : Z * Z) : Z := DES_ROUND from 0 k.1 k.2.

Lemma DES_ROUND_fout from to k1 k2 : DES_ROUND from to k1 k2 = Z.lxor to (fout from (k1, k2)).
Proof. unfold fout, DES_ROUND. cbn [fst snd]. by rewrite !Z.lxor_0_l, !Z.lxor_assoc. Qed.

Lemma sub_word sbox x : Forall word sbox -> word (sub sbox x).
Proof.
  intros H. unfold sub. rewrite nth_lookup. destruct (sbox !! _) as [v|] eqn:E; simpl; [|done].
  exact (Forall_lookup_1 _ _ _ _ H E).
Qed.

Ltac table_word := apply sub_word; repeat (apply Forall_cons; split); try done; try apply Forall_nil; done.

Lemma fout_word from k : word (fout from k).
Proof. unfold fout, DES_ROUND. repeat apply word_lxor; try done; table_word. Qed.

(** The rounds as a fold over pairs of subkeys; a round also exchanges the
    words, so that two of them are [DES_ROUND(b, a) DES_ROUND(a, b)]. *)
Definition feist (ab : Z * Z) (k : Z * Z) : Z * Z := (ab.2, Z.lxor ab.1 (fout ab.2 k)).

Definition run (ks : list (Z * Z)) (ab : Z * Z) : Z * Z := fold_left feist ks ab.

Definition swap (ab : Z * Z) : Z * Z := (ab.2, ab.1).

Definition words (ab : Z * Z) : Prop := word ab.1 /\ word ab.2.

Lemma run_words ks ab : words ab -> words (run ks ab).
Proof.
  revert ab. induction ks as [|k ks IH]; intros ab [H1 H2]; [done|]. apply IH. split; [done|].
  apply word_lxor; [done|apply fout_word].
Qed.

Lemma run_undo ks : forall ab, run (rev ks) (swap (run ks ab)) = swap ab.
Proof.
  unfold run. induction ks as [|k ks IH]; intros ab; [done|]. simpl. rewrite fold_left_app, IH.
  destruct ab as [a b]. unfold swap, feist. simpl.
  by rewrite Z.lxor_assoc, Z.lxor_nilpotent, Z.lxor_0_r.
Qed.

Fixpoint pairs (l : list Z) : list (Z * Z) :=
  match l with x :: y :: l' => (x, y) :: pairs l' | _ => [] end.

Lemma round_pairs_run n : forall keys k a b, (k + 4 * n <= length keys)%nat ->
  round_pairs n keys k a b = Ret (run (pairs (take (4 * n) (drop k keys))) (a, b)).
Proof.
  induction n as [|n IH]; intros keys k a b Hl; [done|].
  destruct (aget_lt keys k) as (k0 & E0 & H0); [lia|]. destruct (aget_lt keys (k + 1)) as (k1 & E1 & H1); [lia|].
  destruct (aget_lt keys (k + 2)) as (k2 & E2 & H2); [lia|]. destruct (aget_lt keys (k + 3)) as (k3 & E3 & H3); [lia|].
  cbn [round_pairs]. rewrite E0. bind. rewrite E1. bind. rewrite E2. bind. rewrite E3. bind.
  rewrite IH by lia. f_equal.
  replace (drop k keys) with (k0 :: k1 :: k2 :: k3 :: drop (k + 4) keys).
  { replace (4 * S n)%nat with (S (S (S (S (4 * n))))) by lia. cbn [take pairs].
    rewrite !DES_ROUND_fout. reflexivity. }
  rewrite (drop_S keys k0 k H0). f_equal. replace (S k) with (k + 1)%nat by lia.
  rewrite (drop_S keys k1 (k + 1) H1). f_equal. replace (S (k + 1)) with (k + 2)%nat by lia.
  rewrite (drop_S keys k2 (k + 2) H2). f_equal. replace (S (k + 2)) with (k + 3)%nat by lia.
  rewrite (drop_S keys k3 (k + 3) H3). f_equal. f_equal. lia.
Qed.

(** ECB with the 32 subkeys [ks]. *)
Definition ecb (ks : list (Z * Z)) (l r : Z) : Z * Z :=
  let '(a, b) := run ks (INITIAL_PERMUTATION l r) in FINAL_PERMUTATION b a.

Lemma ecb_undo ks l r : word l -> word r -> exists x y, ecb ks l r = (x, y) /\ word x /\ word y /\
  ecb (rev ks) x y = (l, r).
Proof.
  intros Hl Hr. destruct (final_initial l r Hl Hr) as (l0 & r0 & E & Hl0 & Hr0 & EF).
  unfold ecb. rewrite E. pose proof (run_words ks (l0, r0) (conj Hl0 Hr0)) as [Ha Hb].
  pose proof (run_undo ks (l0, r0)) as Hu. destruct (run ks (l0, r0)) as [a b]. simpl in Ha, Hb.
  destruct (initial_final b a Hb Ha) as (x & y & E2 & Hx & Hy & EI). exists x, y. rewrite E2, EI.
  unfold swap in Hu. cbn [fst snd] in Hu. rewrite Hu. done.
Qed.

Lemma gl_des_ecb_crypt_spec c to l r mode : word l -> word r -> length to = 8%nat ->
  length (mode_keys c mode) = 32%nat ->
  gl_des_ecb_crypt c (block_of l r) to mode =
  let '(x, y) := ecb (pairs (mode_keys c mode)) l r in Ret (block_of x y).
Proof.
  intros Hl Hr Ht Hk. unfold gl_des_ecb_crypt, ecb. rewrite READ_block by done. bind.
  destruct (INITIAL_PERMUTATION l r) as [l0 r0]. rewrite round_pairs_run by lia. bind.
  rewrite take_ge by (rewrite length_drop; lia). change (drop 0 (mode_keys c mode)) with (mode_keys c mode).
  destruct (run _ _) as [a b]. destruct (FINAL_PERMUTATION b a) as [x y]. by apply WRITE_block.
Qed.

(** Triple-DES: three runs, the words exchanged in between. *)
Definition run3 (ks1 ks2 ks3 : list (Z * Z)) (ab : Z * Z) : Z * Z :=
  run ks3 (swap (run ks2 (swap (run ks1 ab)))).

Definition ecb3 (ks1 ks2 ks3 : list (Z * Z)) (l r : Z) : Z * Z :=
  let '(a, b) := run3 ks1 ks2 ks3 (INITIAL_PERMUTATION l r) in FINAL_PERMUTATION b a.

Lemma swap_swap ab : swap (swap ab) = ab.
Proof. by destruct ab. Qed.

Lemma swap_words ab : words ab -> words (swap ab).
Proof. by intros [? ?]. Qed.

Lemma run3_undo ks1 ks2 ks3 ab :
  run3 (rev ks3) (rev ks2) (rev ks1) (swap (run3 ks1 ks2 ks3 ab)) = swap ab.
Proof. unfold run3. by rewrite run_undo, !swap_swap, run_undo, !swap_swap, run_undo. Qed.

Lemma ecb3_undo ks1 ks2 ks3 l r : word l -> word r -> exists x y, ecb3 ks1 ks2 ks3 l r = (x, y) /\
  word x /\ word y /\ ecb3 (rev ks3) (rev ks2) (rev ks1) x y = (l, r).
Proof.
  intros Hl Hr. destruct (final_initial l r Hl Hr) as (l0 & r0 & E & Hl0 & Hr0 & EF).
  unfold ecb3. rewrite E.
  assert (words (run3 ks1 ks2 ks3 (l0, r0))) as [Ha Hb]
    by (unfold run3; by repeat (apply run_words || apply swap_words)).
  pose proof (run3_undo ks1 ks2 ks3 (l0, r0)) as Hu. destruct (run3 ks1 ks2 ks3 (l0, r0)) as [a b]. simpl in Ha, Hb.
  destruct (initial_final b a Hb Ha) as (x & y & E2 & Hx & Hy & EI). exists x, y. rewrite E2, EI.
  unfold swap in Hu at 1 2. cbn [fst snd] in Hu. rewrite Hu. done.
Qed.

Lemma gl_3des_ecb_crypt_spec c to l r mode : word l -> word r -> length to = 8%nat ->
  length (mode_keys c mode) = 96%nat ->
  gl_3des_ecb_crypt c (block_of l r) to mode =
  let keys := mode_keys c mode in
  let '(x, y) := ecb3 (pairs (take 32 keys)) (pairs (take 32 (drop 32 keys))) (pairs (take 32 (drop 64 keys))) l r in
  Ret (block_of x y).
Proof.
  intros Hl Hr Ht Hk. unfold gl_3des_ecb_crypt, ecb3, run3. rewrite READ_block by done. bind.
  destruct (INITIAL_PERMUTATION l r) as [l0 r0]. cbv zeta.
  rewrite round_pairs_run by lia. bind. change (drop 0 (mode_keys c mode)) with (mode_keys c mode).
  change (4 * 8)%nat with 32%nat. destruct (run _ _) as [a b] eqn:E1.
  rewrite round_pairs_run by lia. bind. unfold swap at 2. cbn [fst snd].
  change (4 * 8)%nat with 32%nat. destruct (run _ (b, a)) as [a' b'] eqn:E2.
  rewrite round_pairs_run by lia. bind. unfold swap. cbn [fst snd].
  change (4 * 8)%nat with 32%nat. destruct (run _ (b', a')) as [x y] eqn:E3.
  destruct (FINAL_PERMUTATION y x) as [p q]. by apply WRITE_block.
Qed.

(** ** Contexts *)

#[global] Arguments READ_64BIT_DATA : simpl never.
#[global] Arguments permuted_choice1 : simpl never.

Lemma store_spec ws : forall arr off, (off + length ws <= length arr)%nat ->
  store arr off ws = Ret (take off arr ++ ws ++ drop (off + length ws) arr).
Proof.
  induction ws as [|w ws IH]; intros arr off Hl; simpl in *.
  { by rewrite Nat.add_0_r, take_drop. }
  rewrite aset_lt by lia. bind. rewrite IH by (rewrite length_insert; lia). f_equal.
  rewrite (take_S_r _ off w) by (rewrite list_lookup_insert_eq; [done|lia]).
  rewrite take_insert_ge by lia. rewrite <-app_assoc. simpl. do 3 f_equal.
  rewrite drop_insert_lt by lia. f_equal. lia.
Qed.

Lemma READ_prefix key : (8 <= length key)%nat -> exists l r, READ_64BIT_DATA key = Ret (l, r).
Proof.
  intros Hl. do 8 (destruct key as [|? key]; [simpl in Hl; lia|]). eexists _, _. reflexivity.
Qed.

(** The 32 subkeys of a key. *)
Definition key_words (key : list Z) : list Z :=
  match READ_64BIT_DATA key with
  | Ret (l, r) => let '(l, r) := permuted_choice1 l r in schedule_rounds encrypt_rotate_tab l r
  | _ => []
  end.

Lemma schedule_rounds_length rots : forall l r, length (schedule_rounds rots l r) = (2 * length rots)%nat.
Proof. induction rots as [|n rots IH]; intros l r; [done|]. cbn [schedule_rounds length]. rewrite IH. lia. Qed.

Lemma key_words_length key : (8 <= length key)%nat -> length (key_words key) = 32%nat.
Proof.
  intros (l & r & E)%READ_prefix. unfold key_words. rewrite E.
  destruct (permuted_choice1 l r). by rewrite schedule_rounds_length.
Qed.

Lemma des_key_schedule_spec key arr off : (8 <= length key)%nat -> (off + 32 <= length arr)%nat ->
  des_key_schedule key arr off = Ret (take off arr ++ key_words key ++ drop (off + 32) arr).
Proof.
  intros Hk Hl. pose proof (key_words_length key Hk) as Hw. destruct (READ_prefix key Hk) as (l & r & E).
  unfold des_key_schedule, key_words in *. rewrite E in *. bind. destruct (permuted_choice1 l r) as [l' r'].
  rewrite store_spec by lia. by rewrite Hw.
Qed.

(** An array as a function of its index, so that the copying loops evaluate. *)
Lemma as_map (l : list Z) n : length l = n -> l = map (fun i => nth i l 0) (seq 0 n).
Proof.
  intros <-. apply nth_ext with 0 0; [by rewrite length_map, length_seq|]. intros i Hi.
  rewrite (nth_indep _ 0 (nth 0 l 0)) at 1 by done. rewrite (nth_indep (map _ _) 0 (nth 0 l 0)) by (by rewrite length_map, length_seq).
  rewrite (map_nth (fun i => nth i l 0)), seq_nth by done. by apply nth_indep.
Qed.

Lemma setkey_loop e d : length e = 32%nat -> length d = 32%nat ->
  exists d', every_second (fun i c => c ← dec_from_enc i (30 - i) c; dec_from_enc (i + 1) (31 - i) c)
    (Ctx e d) = Ret (Ctx e d') /\ length d' = 32%nat /\ pairs d' = rev (pairs e).
Proof.
  intros He Hd. rewrite (as_map e 32 He), (as_map d 32 Hd).
  generalize (fun i => nth i e 0) as g. generalize (fun i => nth i d 0) as g'. intros g' g.
  eexists. split_and!; [vm_compute; reflexivity|reflexivity|reflexivity].
Qed.

Lemma set2keys_loop k1 k2 e d : length k1 = 32%nat -> length k2 = 32%nat ->
  length e = 64%nat -> length d = 64%nat ->
  exists e' d', every_second (fun i c =>
    c ← dec_from_enc i (30 - i) c;
    c ← dec_from_enc (i + 1) (31 - i) c;
    c ← enc_from_dec (i + 32) (62 - i) c;
    c ← enc_from_dec (i + 33) (63 - i) c;
    c ← enc_from_enc (i + 64) i c;
    c ← enc_from_enc (i + 65) (i + 1) c;
    c ← dec_from_dec (i + 64) i c;
    dec_from_dec (i + 65) (i + 1) c) (Ctx (k1 ++ e) (take 32 d ++ k2 ++ drop 32 d)) = Ret (Ctx e' d') /\
  length e' = 96%nat /\ length d' = 96%nat /\
  pairs (take 32 e') = pairs k1 /\ pairs (take 32 (drop 32 e')) = rev (pairs k2) /\
  pairs (take 32 (drop 64 e')) = pairs k1 /\
  pairs (take 32 d') = rev (pairs k1) /\ pairs (take 32 (drop 32 d')) = pairs k2 /\
  pairs (take 32 (drop 64 d')) = rev (pairs k1).
Proof.
  intros H1 H2 He Hd. rewrite (as_map k1 32 H1), (as_map k2 32 H2), (as_map e 64 He), (as_map d 64 Hd).
  generalize (fun i => nth i k1 0) as g1. generalize (fun i => nth i k2 0) as g2.
  generalize (fun i => nth i e 0) as g3. generalize (fun i => nth i d 0) as g4. intros g4 g3 g2 g1.
  eexists _, _. split_and!; [vm_compute; reflexivity|reflexivity..].
Qed.

Lemma set3keys_loop k1 k2 k3 e d : length k1 = 32%nat -> length k2 = 32%nat -> length k3 = 32%nat ->
  length e = 32%nat -> length d = 64%nat ->
  exists e' d', every_second (fun i c =>
    c ← dec_from_enc i (94 - i) c;
    c ← dec_from_enc (i + 1) (95 - i) c;
    c ← enc_from_dec (i + 32) (62 - i) c;
    c ← enc_from_dec (i + 33) (63 - i) c;
    c ← dec_from_enc (i + 64) (30 - i) c;
    dec_from_enc (i + 65) (31 - i) c) (Ctx (k1 ++ e ++ k3) (take 32 d ++ k2 ++ drop 32 d)) = Ret (Ctx e' d') /\
  length e' = 96%nat /\ length d' = 96%nat /\
  pairs (take 32 e') = pairs k1 /\ pairs (take 32 (drop 32 e')) = rev (pairs k2) /\
  pairs (take 32 (drop 64 e')) = pairs k3 /\
  pairs (take 32 d') = rev (pairs k3) /\ pairs (take 32 (drop 32 d')) = pairs k2 /\
  pairs (take 32 (drop 64 d')) = rev (pairs k1).
Proof.
  intros H1 H2 H3 He Hd.
  rewrite (as_map k1 32 H1), (as_map k2 32 H2), (as_map k3 32 H3), (as_map e 32 He), (as_map d 64 Hd).
  generalize (fun i => nth i k1 0) as g1. generalize (fun i => nth i k2 0) as g2.
  generalize (fun i => nth i k3 0) as g5.
  generalize (fun i => nth i e 0) as g3. generalize (fun i => nth i d 0) as g4. intros g4 g3 g5 g2 g1.
  eexists _, _. split_and!; [vm_compute; reflexivity|reflexivity..].
Qed.

Lemma gl_des_setkey_spec c key : (8 <= length key)%nat ->
  length (encrypt_subkeys c) = 32%nat -> length (decrypt_subkeys c) = 32%nat ->
  exists c', gl_des_setkey c key = Ret c' /\
    encrypt_subkeys c' = key_words key /\ length (decrypt_subkeys c') = 32%nat /\
    pairs (decrypt_subkeys c') = rev (pairs (key_words key)).
Proof.
  intros Hk He Hd. unfold gl_des_setkey. rewrite des_key_schedule_spec by lia. bind.
  change (take 0 (encrypt_subkeys c)) with (@nil Z). rewrite drop_ge, app_nil_r by lia. cbn [app].
  destruct (setkey_loop (key_words key) (decrypt_subkeys c)) as (d' & -> & Hl & Hp);
    [by apply key_words_length|done|]. by exists (Ctx (key_words key) d').
Qed.

(** The subkeys a Triple-DES context ends up with, for both directions. *)
Definition triple (c : ctx) (p1 p2 p3 : list (Z * Z)) : Prop :=
  let part s := (pairs (take 32 s), pairs (take 32 (drop 32 s)), pairs (take 32 (drop 64 s))) in
  length (encrypt_subkeys c) = 96%nat /\ length (decrypt_subkeys c) = 96%nat /\
  part (encrypt_subkeys c) = (p1, rev p2, p3) /\ part (decrypt_subkeys c) = (rev p3, p2, rev p1).

Lemma gl_3des_set2keys_spec c key1 key2 : (8 <= length key1)%nat -> (8 <= length key2)%nat ->
  length (encrypt_subkeys c) = 96%nat -> length (decrypt_subkeys c) = 96%nat ->
  exists c', gl_3des_set2keys c key1 key2 = Ret c' /\
    triple c' (pairs (key_words key1)) (pairs (key_words key2)) (pairs (key_words key1)).
Proof.
  intros H1 H2 He Hd. unfold gl_3des_set2keys. rewrite !des_key_schedule_spec by lia. bind.
  change (take 0 (encrypt_subkeys c)) with (@nil Z). cbn [app].
  pose proof (key_words_length key1 H1). pose proof (key_words_length key2 H2).
  pose (d := take 32 (decrypt_subkeys c) ++ drop 64 (decrypt_subkeys c)).
  assert (length (take 32 (decrypt_subkeys c)) = 32%nat) as Ht by (rewrite length_take; lia).
  destruct (set2keys_loop (key_words key1) (key_words key2) (drop 32 (encrypt_subkeys c)) d)
    as (e' & d' & E & Hr); [done|done|rewrite length_drop; lia|
    unfold d; rewrite length_app, Ht, length_drop; lia|].
  unfold d in E. rewrite take_app_length', drop_app_length' in E by done.
  change (32 + 32)%nat with 64%nat. change (0 + 32)%nat with 32%nat. rewrite E.
  exists (Ctx e' d'). split; [done|]. unfold triple. cbn [encrypt_subkeys decrypt_subkeys].
  destruct Hr as (? & ? & -> & -> & -> & -> & -> & ->). done.
Qed.

Lemma gl_3des_set3keys_spec c key1 key2 key3 :
  (8 <= length key1)%nat -> (8 <= length key2)%nat -> (8 <= length key3)%nat ->
  length (encrypt_subkeys c) = 96%nat -> length (decrypt_subkeys c) = 96%nat ->
  exists c', gl_3des_set3keys c key1 key2 key3 = Ret c' /\
    triple c' (pairs (key_words key1)) (pairs (key_words key2)) (pairs (key_words key3)).
Proof.
  intros H1 H2 H3 He Hd. unfold gl_3des_set3keys.
  pose proof (key_words_length key1 H1) as L1. pose proof (key_words_length key2 H2).
  pose proof (key_words_length key3 H3).
  rewrite (des_key_schedule_spec key1) by lia. bind.
  rewrite (des_key_schedule_spec key2) by lia. bind.
  change (take 0 (encrypt_subkeys c)) with (@nil Z). cbn [app]. change (0 + 32)%nat with 32%nat.
  rewrite des_key_schedule_spec by (rewrite ?length_app, ?L1, ?length_drop; lia). bind.
  pose (d := take 32 (decrypt_subkeys c) ++ drop 64 (decrypt_subkeys c)).
  assert (length (take 32 (decrypt_subkeys c)) = 32%nat) as Ht by (rewrite length_take; lia).
  destruct (set3keys_loop (key_words key1) (key_words key2) (key_words key3)
    (take 32 (drop 32 (encrypt_subkeys c))) d) as (e' & d' & E & Hr);
    [done|done|done|rewrite length_take, length_drop; lia|
     unfold d; rewrite length_app, Ht, length_drop; lia|].
  unfold d in E. rewrite take_app_length', drop_app_length' in E by done.
  assert (take 64 (key_words key1 ++ drop 32 (encrypt_subkeys c)) ++ key_words key3 ++
    drop (64 + 32) (key_words key1 ++ drop 32 (encrypt_subkeys c)) =
    key_words key1 ++ take 32 (drop 32 (encrypt_subkeys c)) ++ key_words key3) as ->.
  { rewrite (drop_ge _ (64 + 32)) by (rewrite length_app, length_drop; lia). rewrite app_nil_r.
    rewrite take_app_ge by lia. rewrite L1, <-app_assoc. done. }
  change (32 + 32)%nat with 64%nat. rewrite E.
  exists (Ctx e' d'). split; [done|]. unfold triple. cbn [encrypt_subkeys decrypt_subkeys].
  destruct Hr as (? & ? & -> & -> & -> & -> & -> & ->). done.
Qed.

(** ** Round trips *)

Definition ctx_size (n : nat) (c : ctx) : Prop :=
  length (encrypt_subkeys c) = n /\ length (decrypt_subkeys c) = n.

(** C36. DES decryption inverts encryption: after [gl_des_setkey] with any key,
    enciphering any block and deciphering the result, whatever the two output
    buffers held, gives the block back, and the other way round. *)
Theorem gl_des_round_trip c key block to1 to2 mode :
  ctx_size 32 c -> (8 <= length key)%nat -> length block = 8%nat -> Forall byte block ->
  length to1 = 8%nat -> length to2 = 8%nat ->
  exists c' out, gl_des_setkey c key = Ret c' /\ gl_des_ecb_crypt c' block to1 mode = Ret out /\
    gl_des_ecb_crypt c' out to2 (negb mode) = Ret block.
Proof.
  intros [He Hd] Hk Hb Hby Ht1 Ht2.
  destruct (gl_des_setkey_spec c key Hk He Hd) as (c' & E & Ee & Hld & Hp).
  pose proof (key_words_length key Hk) as Hw.
  assert (Hm : forall m, length (mode_keys c' m) = 32%nat) by (intros []; simpl; congruence).
  destruct (READ_data block Hb Hby) as (l & r & _ & Hl & Hr & <-).
  destruct (ecb_undo (pairs (mode_keys c' mode)) l r Hl Hr) as (x & y & E1 & Hx & Hy & E2).
  exists c', (block_of x y). split_and!; [done| |].
  - rewrite gl_des_ecb_crypt_spec by done. by rewrite E1.
  - rewrite gl_des_ecb_crypt_spec by done.
    replace (pairs (mode_keys c' (negb mode))) with (rev (pairs (mode_keys c' mode))); [by rewrite E2|].
    destruct mode; simpl; rewrite Hp, Ee; [apply rev_involutive|done].
Qed.

Lemma gl_des_round_trip_witness : exists c' out,
  gl_des_setkey (Ctx (repeat 0 32) (repeat 0 32)) (repeat 1 8) = Ret c' /\
  gl_des_ecb_crypt c' (repeat 2 8) (repeat 0 8) false = Ret out /\
  gl_des_ecb_crypt c' out (repeat 0 8) true = Ret (repeat 2 8).
Proof.
  apply (gl_des_round_trip _ _ _ _ _ false);
    first [reflexivity|split; reflexivity|vm_compute; lia|repeat constructor; vm_compute; discriminate].
Defined.

Lemma triple_round_trip c p1 p2 p3 block to1 to2 mode : triple c p1 p2 p3 ->
  length block = 8%nat -> Forall byte block -> length to1 = 8%nat -> length to2 = 8%nat ->
  exists out, gl_3des_ecb_crypt c block to1 mode = Ret out /\
    gl_3des_ecb_crypt c out to2 (negb mode) = Ret block.
Proof.
  intros (Hle & Hld & [= E1 E2 E3] & [= D1 D2 D3]) Hb Hby Ht1 Ht2.
  assert (Hm : forall m, length (mode_keys c m) = 96%nat) by by intros [].
  destruct (READ_data block Hb Hby) as (l & r & _ & Hl & Hr & <-).
  pose (q := if mode then (rev p3, p2, rev p1) else (p1, rev p2, p3)).
  destruct (ecb3_undo q.1.1 q.1.2 q.2 l r Hl Hr) as (x & y & Exy & Hx & Hy & Eb).
  exists (block_of x y). split; rewrite gl_3des_ecb_crypt_spec by done; cbv zeta;
    unfold q in *; destruct mode; cbn [mode_keys negb fst snd] in *;
    rewrite ?E1, ?E2, ?E3, ?D1, ?D2, ?D3, ?Exy, ?rev_involutive in *; by rewrite ?Exy, ?Eb.
Qed.

(** Triple-DES decryption inverts encryption, for two-key and for three-key
    contexts, in either order. *)
Theorem gl_3des_round_trip c key1 key2 key3 block to1 to2 mode :
  ctx_size 96 c -> (8 <= length key1)%nat -> (8 <= length key2)%nat -> (8 <= length key3)%nat ->
  length block = 8%nat -> Forall byte block -> length to1 = 8%nat -> length to2 = 8%nat ->
  (exists c' out, gl_3des_set2keys c key1 key2 = Ret c' /\ gl_3des_ecb_crypt c' block to1 mode = Ret out /\
     gl_3des_ecb_crypt c' out to2 (negb mode) = Ret block) /\
  (exists c' out, gl_3des_set3keys c key1 key2 key3 = Ret c' /\ gl_3des_ecb_crypt c' block to1 mode = Ret out /\
     gl_3des_ecb_crypt c' out to2 (negb mode) = Ret block).
Proof.
  intros [He Hd] H1 H2 H3 Hb Hby Ht1 Ht2. split.
  - destruct (gl_3des_set2keys_spec c key1 key2 H1 H2 He Hd) as (c' & E & Ht).
    destruct (triple_round_trip c' _ _ _ block to1 to2 mode Ht Hb Hby Ht1 Ht2) as (out & ? & ?). eauto.
  - destruct (gl_3des_set3keys_spec c key1 key2 key3 H1 H2 H3 He Hd) as (c' & E & Ht).
    destruct (triple_round_trip c' _ _ _ block to1 to2 mode Ht Hb Hby Ht1 Ht2) as (out & ? & ?). eauto.
Qed.

Lemma gl_3des_round_trip_witness : exists c' out,
  gl_3des_set3keys (Ctx (repeat 0 96) (repeat 0 96)) (repeat 1 8) (repeat 2 8) (repeat 3 8) = Ret c' /\
  gl_3des_ecb_crypt c' (repeat 4 8) (repeat 0 8) false = Ret out /\
  gl_3des_ecb_crypt c' out (repeat 0 8) true = Ret (repeat 4 8).
Proof.
  apply (gl_3des_round_trip _ (repeat 1 8) (repeat 2 8) (repeat 3 8) _ _ _ false);
    first [reflexivity|split; reflexivity|vm_compute; lia|repeat constructor; vm_compute; discriminate].
Defined.

(** Three equal keys cancel down to one. *)
Lemma triple_equal c c3 ks block to mode : triple c3 (pairs ks) (pairs ks) (pairs ks) ->
  encrypt_subkeys c = ks -> pairs (decrypt_subkeys c) = rev (pairs ks) ->
  length ks = 32%nat -> length (decrypt_subkeys c) = 32%nat ->
  length block = 8%nat -> Forall byte block -> length to = 8%nat ->
  gl_3des_ecb_crypt c3 block to mode = gl_des_ecb_crypt c block to mode.
Proof.
  intros (Hle & Hld & [= E1 E2 E3] & [= D1 D2 D3]) Ee Hp Hks Hd Hb Hby Ht.
  destruct (READ_data block Hb Hby) as (l & r & _ & Hl & Hr & <-).
  rewrite gl_des_ecb_crypt_spec by (try done; destruct mode; simpl; congruence).
  rewrite gl_3des_ecb_crypt_spec by (try done; by destruct mode). cbv zeta.
  unfold ecb3, ecb, run3. destruct mode; cbn [mode_keys]; rewrite ?E1, ?E2, ?E3, ?D1, ?D2, ?D3, ?Ee, ?Hp.
  - rewrite <-(rev_involutive (pairs ks)) at 2. by rewrite run_undo, swap_swap.
  - by rewrite run_undo, swap_swap.
Qed.

(** Backward compatibility: Triple-DES with three equal keys, or with two
    equal keys, enciphers and deciphers as DES with that key. *)
Theorem gl_3des_equal_keys c c3 key block to mode :
  ctx_size 32 c -> ctx_size 96 c3 -> (8 <= length key)%nat ->
  length block = 8%nat -> Forall byte block -> length to = 8%nat ->
  exists c' c2' c3', gl_des_setkey c key = Ret c' /\ gl_3des_set2keys c3 key key = Ret c2' /\
    gl_3des_set3keys c3 key key key = Ret c3' /\
    gl_3des_ecb_crypt c2' block to mode = gl_des_ecb_crypt c' block to mode /\
    gl_3des_ecb_crypt c3' block to mode = gl_des_ecb_crypt c' block to mode.
Proof.
  intros [He Hd] [He3 Hd3] Hk Hb Hby Ht.
  destruct (gl_des_setkey_spec c key Hk He Hd) as (c' & E & Ee & Hld & Hp).
  destruct (gl_3des_set2keys_spec c3 key key Hk Hk He3 Hd3) as (c2' & E2 & T2).
  destruct (gl_3des_set3keys_spec c3 key key key Hk Hk Hk He3 Hd3) as (c3' & E3 & T3).
  exists c', c2', c3'. pose proof (key_words_length key Hk) as Hw.
  split_and!; try done; by eapply triple_equal.
Qed.

Lemma gl_3des_equal_keys_witness : exists c' c2' c3',
  gl_des_setkey (Ctx (repeat 0 32) (repeat 0 32)) (repeat 1 8) = Ret c' /\
  gl_3des_set2keys (Ctx (repeat 0 96) (repeat 0 96)) (repeat 1 8) (repeat 1 8) = Ret c2' /\
  gl_3des_set3keys (Ctx (repeat 0 96) (repeat 0 96)) (repeat 1 8) (repeat 1 8) (repeat 1 8) = Ret c3' /\
  gl_3des_ecb_crypt c2' (repeat 4 8) (repeat 0 8) true = gl_des_ecb_crypt c' (repeat 4 8) (repeat 0 8) true /\
  gl_3des_ecb_crypt c3' (repeat 4 8) (repeat 0 8) true = gl_des_ecb_crypt c' (repeat 4 8) (repeat 0 8) true.
Proof.
  apply gl_3des_equal_keys;
    first [reflexivity|split; reflexivity|vm_compute; lia|repeat constructor; vm_compute; discriminate].
Defined.

(** ** Weak keys *)

Lemma memcmp_eq a : forall b, length a = length b -> memcmp a b = 0 <-> a = b.
Proof.
  induction a as [|x a IH]; intros [|y b] Hl; simpl in *; try done.
  destruct (Z.ltb_spec x y); [split; [done|intros [= -> _]; lia]|].
  destruct (Z.ltb_spec y x); [split; [done|intros [= -> _]; lia]|].
  rewrite (IH b) by lia. assert (x = y) as -> by lia. split; [by intros ->|by intros [= ->]].
Qed.

Lemma memcmp_antisym a : forall b, memcmp b a = - memcmp a b.
Proof.
  induction a as [|x a IH]; intros [|y b]; simpl; try done.
  destruct (Z.ltb_spec x y), (Z.ltb_spec y x); try lia. apply IH.
Qed.

Lemma memcmp_trans a : forall b c, length a = length b -> length b = length c ->
  memcmp a b < 0 -> memcmp b c < 0 -> memcmp a c < 0.
Proof.
  induction a as [|x a IH]; intros [|y b] [|z c] H1 H2; simpl in *; try lia.
  destruct (Z.ltb_spec x y), (Z.ltb_spec y x), (Z.ltb_spec y z), (Z.ltb_spec z y),
    (Z.ltb_spec x z), (Z.ltb_spec z x); try lia. apply IH; lia.
Qed.

Lemma memcmp_range a : forall b, memcmp a b = -1 \/ memcmp a b = 0 \/ memcmp a b = 1.
Proof. induction a as [|x a IH]; intros [|y b]; simpl; auto. case_ifs; auto. Qed.

Lemma weak_keys_length : Forall (fun k => length k = 8%nat) weak_keys.
Proof. repeat constructor. Qed.

(** The table is sorted, as its comment says. *)
Lemma weak_keys_sorted i j a b : (i < j)%nat -> weak_keys !! i = Some a -> weak_keys !! j = Some b ->
  memcmp a b < 0.
Proof.
  assert (forallb (fun j => forallb (fun i => memcmp (nth i weak_keys []) (nth j weak_keys []) <? 0)
    (seq 0 j)) (seq 0 64) = true) as H by (vm_compute; reflexivity).
  intros Hij Ha Hb. pose proof (lookup_lt_Some _ _ _ Hb) as Hj. change (length weak_keys) with 64%nat in Hj.
  rewrite forallb_forall in H. specialize (H j ltac:(apply in_seq; lia)).
  rewrite forallb_forall in H. specialize (H i ltac:(apply in_seq; lia)).
  rewrite !nth_lookup, Ha, Hb in H. simpl in H. lia.
Qed.

#[local] Opaque weak_keys.

(** The search keeps the key, if it is there at all, between its bounds. *)
Lemma weak_search_spec work : length work = 8%nat -> forall fuel lo hi,
  0 <= lo -> hi <= 63 -> hi - lo < Z.of_nat fuel -> lo <= hi + 1 ->
  (forall i e, weak_keys !! i = Some e -> Z.of_nat i < lo -> memcmp e work < 0) ->
  (forall i e, weak_keys !! i = Some e -> hi < Z.of_nat i -> memcmp work e < 0) ->
  exists b, weak_search fuel work lo hi = Ret b /\ (b = true <-> work ∈ weak_keys).
Proof.
  intros Hw fuel. induction fuel as [|n IH]; intros lo hi Hlo Hhi Hf Hle Hlow Hhigh; simpl;
    destruct (Z.ltb_spec hi lo) as [Hlt|Hge]; try lia.
  1, 2: exists false; split; [done|]; split; [done|]; intros [i Hi]%list_elem_of_lookup;
    pose proof (proj2 (memcmp_eq work work eq_refl) eq_refl);
    destruct (Z.lt_ge_cases (Z.of_nat i) lo); [specialize (Hlow i work Hi)|specialize (Hhigh i work Hi)]; lia.
  set (mid := Z.quot (lo + hi) 2).
  assert (Hmid : lo <= mid <= hi)
    by (unfold mid; rewrite Z.quot_div_nonneg by lia; Z.to_euclidean_division_equations; lia).
  destruct (lookup_lt_is_Some_2 weak_keys (Z.to_nat mid)) as [e He].
  { change (length weak_keys) with 64%nat. lia. }
  rewrite He. bind. pose proof (Forall_lookup_1 _ _ _ _ weak_keys_length He) as Hle8. simpl in Hle8.
  assert (Hlow' : memcmp work e > 0 -> forall i e', weak_keys !! i = Some e' -> Z.of_nat i < mid + 1 -> memcmp e' work < 0).
  { intros Hc i e' Hi Hlt'. pose proof (memcmp_antisym work e). 
    destruct (decide (i = Z.to_nat mid)) as [->|]; [simplify_eq; lia|].
    apply (memcmp_trans _ e); [pose proof (Forall_lookup_1 _ _ _ _ weak_keys_length Hi); simpl in *; lia|lia| |lia].
    eapply weak_keys_sorted; [|done|done]. lia. }
  assert (Hhigh' : memcmp work e < 0 -> forall i e', weak_keys !! i = Some e' -> mid - 1 < Z.of_nat i -> memcmp work e' < 0).
  { intros Hc i e' Hi Hlt'. destruct (decide (i = Z.to_nat mid)) as [->|]; [by simplify_eq|].
    apply (memcmp_trans _ e); [lia|pose proof (Forall_lookup_1 _ _ _ _ weak_keys_length Hi); simpl in *; lia|lia|].
    eapply weak_keys_sorted; [|done|done]. lia. }
  destruct (Z.eqb_spec (memcmp work e) 0) as [H0|H0].
  { exists true. split; [done|]. split; [intros _|done]. apply memcmp_eq in H0; [|lia]. subst.
    by eapply list_elem_of_lookup_2. }
  pose proof (memcmp_range work e).
  destruct (Z.ltb_spec 0 (memcmp work e)); apply IH; try lia; try done; [apply Hlow'|apply Hhigh']; lia.
Qed.

#[local] Transparent weak_keys.

Lemma weak_key_decides key : (8 <= length key)%nat ->
  exists b, gl_des_is_weak_key key = Ret b /\ (b = true <-> clear_parity key ∈ weak_keys).
Proof.
  intros Hl. unfold gl_des_is_weak_key. rewrite (proj2 (Nat.ltb_ge _ _)) by done.
  apply weak_search_spec; try lia.
  - unfold clear_parity. rewrite length_map, length_take. lia.
  - intros i e Hi%lookup_lt_Some. change (length weak_keys) with 64%nat in Hi. lia.
Qed.

(** [gl_des_is_weak_key] ends, stays inside the table, and answers true
    exactly when the key with its parity bits cleared is one of the 64 of the
    table: the parity bits do not matter. *)
Theorem gl_des_is_weak_key_spec key : (8 <= length key)%nat ->
  exists b, gl_des_is_weak_key key = Ret b /\ (b = true <-> clear_parity key ∈ weak_keys).
Proof. apply weak_key_decides. Qed.

Lemma gl_des_is_weak_key_spec_witness :
  exists b, gl_des_is_weak_key (repeat 31 8) = Ret b /\ (b = true <-> clear_parity (repeat 31 8) ∈ weak_keys).
Proof. apply gl_des_is_weak_key_spec. vm_compute. lia. Defined.

(** The number of different subkeys of a key. *)
Definition distinct_subkeys (key : list Z) : nat := length (remove_dups (pairs (key_words key))).

(** Why the keys of the table are weak, as its comment says: each of them
    yields only one, two or four different subkeys for the sixteen rounds. *)
Theorem weak_keys_are_weak key : key ∈ weak_keys -> distinct_subkeys key ∈ [1; 2; 4]%nat.
Proof.
  intros Hk%list_elem_of_In.
  assert (forallb (fun key => bool_decide (distinct_subkeys key ∈ [1; 2; 4]%nat)) weak_keys = true) as H
    by (vm_compute; reflexivity).
  rewrite forallb_forall in H. by apply (bool_decide_eq_true _), H.
Qed.

Lemma weak_keys_are_weak_witness : distinct_subkeys (repeat 254 8) ∈ [1; 2; 4]%nat.
Proof. apply weak_keys_are_weak. apply list_elem_of_In. vm_compute. tauto. Defined.

(** What the two key functions report: a wrong key length leaves the context
    alone and yields false; with the right length the context is the one the
    setkey function makes, and the result tells whether none of the keys is weak. *)
Theorem gl_makekey_spec c c3 key keylen :
  ctx_size 32 c -> ctx_size 96 c3 ->
  (keylen <> 8 -> gl_des_makekey c key keylen = Ret (c, false)) /\
  (keylen = 8 -> (8 <= length key)%nat -> exists c' b, gl_des_makekey c key keylen = Ret (c', b) /\
     gl_des_setkey c key = Ret c' /\ (b = true <-> clear_parity key ∉ weak_keys)) /\
  (keylen <> 24 -> gl_3des_makekey c3 key keylen = Ret (c3, false)) /\
  (keylen = 24 -> (24 <= length key)%nat -> exists c' b, gl_3des_makekey c3 key keylen = Ret (c', b) /\
     gl_3des_set3keys c3 key (drop 8 key) (drop 16 key) = Ret c' /\
     (b = true <-> Forall (fun k => clear_parity k ∉ weak_keys) [key; drop 8 key; drop 16 key])).
Proof.
  pose proof weak_key_decides as Hweak.
  intros [He Hd] [He3 Hd3]. unfold gl_des_makekey, gl_3des_makekey. split_and!.
  - intros Hn. by rewrite (proj2 (Z.eqb_neq _ _)).
  - intros -> Hl. destruct (gl_des_setkey_spec c key Hl He Hd) as (c' & -> & _).
    destruct (Hweak key Hl) as (b & -> & Hb). exists c', (negb b). split_and!; [done..|].
    rewrite negb_true_iff, <-Hb. by destruct b.
  - intros Hn. by rewrite (proj2 (Z.eqb_neq _ _)).
  - intros -> Hl.
    destruct (gl_3des_set3keys_spec c3 key (drop 8 key) (drop 16 key)) as (c' & -> & _);
      rewrite ?length_drop; try lia; try done. simpl.
    destruct (Hweak key) as (b1 & -> & H1); [lia|].
    destruct (Hweak (drop 8 key)) as (b2 & -> & H2); [rewrite length_drop; lia|].
    destruct (Hweak (drop 16 key)) as (b3 & -> & H3); [rewrite length_drop; lia|].
    exists c', (negb (b1 || (b2 || b3))). split_and!; [by destruct b1, b2|done|].
    rewrite !Forall_cons, Forall_nil, <-H1, <-H2, <-H3. destruct b1, b2, b3; naive_solver.
Qed.

Lemma gl_makekey_spec_witness :
  gl_des_makekey (Ctx (repeat 0 32) (repeat 0 32)) (repeat 1 8) 7 = Ret (Ctx (repeat 0 32) (repeat 0 32), false).
Proof.
  apply (gl_makekey_spec (Ctx (repeat 0 32) (repeat 0 32)) (Ctx (repeat 0 96) (repeat 0 96)) (repeat 1 8) 7);
    first [split; reflexivity|discriminate].
Defined.
