(* ===== verification/Bf.v ===== *)
(** Component: the Brainfuck interpreter of src/c-study/brainfuck: the heap of
    instruction nodes, the contexts, the list operations of brainfuck.c and
    [brainfuck_execute].  The theorems show that execution never leaves the tape,
    that it computes the semantics of the program a heap represents, and what the
    two insertion routines do to a list. *)
From S2P Require Import Prelude Arrays Bits.

(** ** Data *)

Definition PLUS : Z := 43.
Definition MINUS : Z := 45.
Definition PREVIOUS : Z := 60.
Definition NEXT : Z := 62.
Definition OUTPUT : Z := 46.
Definition INPUT : Z := 44.
Definition LOOP_START : Z := 91.
Definition LOOP_END : Z := 93.

Definition TAPE_SIZE : Z := 30000.
Definition INT_MAX : Z := 2147483647.
Definition EXIT_FAILURE : Z := 1.
Definition EXIT_SUCCESS : Z := 0.

(** [BrainfuckInstruction]; a pointer is an index of the heap or null. *)
Abbreviation ptr := (option nat).

Record INode := MkI { difference : Z; type : Z; next : ptr; previous : ptr; loop : ptr }.

(** The heap: freed objects are [None]. *)
Abbreviation iheap := (list (option INode)).

Definition get (h : iheap) (p : ptr) : res INode :=
  match p with
  | None => UB
  | Some i => match h !! i with Some (Some n) => Ret n | _ => UB end
  end.

Definition put (h : iheap) (p : ptr) (n : INode) : res iheap :=
  match p with
  | None => UB
  | Some i => match h !! i with Some (Some _) => Ret (<[i := Some n]> h) | _ => UB end
  end.

Definition set_next (h : iheap) (p v : ptr) : res iheap :=
  n ← get h p; put h p (MkI (difference n) (type n) v (previous n) (loop n)).
Definition set_previous (h : iheap) (p v : ptr) : res iheap :=
  n ← get h p; put h p (MkI (difference n) (type n) (next n) v (loop n)).
Definition set_loop (h : iheap) (p v : ptr) : res iheap :=
  n ← get h p; put h p (MkI (difference n) (type n) (next n) (previous n) v).
Definition set_type (h : iheap) (p : ptr) (c : Z) : res iheap :=
  n ← get h p; put h p (MkI (difference n) c (next n) (previous n) (loop n)).
Definition set_difference (h : iheap) (p : ptr) (d : Z) : res iheap :=
  n ← get h p; put h p (MkI d (type n) (next n) (previous n) (loop n)).

(** [malloc]: the contents of the new object are [junk]. *)
Definition malloc (junk : INode) (h : iheap) : iheap * ptr := (h ++ [Some junk], Some (length h)).

(** [free]. *)
Definition brainfuck_destroy_instruction (h : iheap) (p : ptr) : res iheap :=
  match p with
  | None => Ret h
  | Some i => match h !! i with Some (Some _) => Ret (<[i := None]> h) | _ => UB end
  end.

Record BrainfuckState := BState { root : ptr; head : ptr }.

(** The handlers are [putchar] and [getchar]: the bytes written and the bytes to
    come. *)
Record Context := Ctx {
  tape : list Z; tape_index : Z; tape_size : Z; stdin : list Z; stdout : list Z
}.

Definition with_tape (c : Context) (t : list Z) : Context :=
  Ctx t (tape_index c) (tape_size c) (stdin c) (stdout c).
Definition with_index (c : Context) (i : Z) : Context :=
  Ctx (tape c) i (tape_size c) (stdin c) (stdout c).

(** ** Creating and destroying *)

Definition brainfuck_state : BrainfuckState := BState None None.

(** [brainfuck_context(size)]; [cells] is what [malloc] finds in the tape, which is
    not cleared. *)
Definition brainfuck_context (size : Z) (cells inp : list Z) : Context :=
  let size := if size <? 0 then TAPE_SIZE else size in
  Ctx cells 0 size inp [].

Fixpoint brainfuck_destroy_instructions (fuel : nat) (h : iheap) (r : ptr) : res iheap :=
  match r with
  | None => Ret h
  | Some _ =>
    match fuel with
    | O => Fuel
    | S n =>
      nd ← get h r;
      h ← brainfuck_destroy_instructions n h (loop nd);
      nd ← get h r;
      h ← brainfuck_destroy_instruction h r;
      brainfuck_destroy_instructions n h (next nd)
    end
  end.

(** [brainfuck_destroy_state]: the instructions and the state itself, which the
    caller does not use again.  The heap has as many nodes as objects, so its length
    is fuel enough. *)
Definition brainfuck_destroy_state (h : iheap) (st : BrainfuckState) : res iheap :=
  brainfuck_destroy_instructions (length h) h (root st).

(** ** List operations *)

(** The last node of a chain: the loop the list operations share. *)
Fixpoint last_of (fuel : nat) (h : iheap) (iter : ptr) : res ptr :=
  nd ← get h iter;
  match next nd with
  | None => Ret iter
  | Some _ => match fuel with O => Fuel | S n => last_of n h (next nd) end
  end.

(** The list operations yield the heap, the state and the pointer they return.
    The state itself is never null. *)
Definition brainfuck_remove (h : iheap) (st : BrainfuckState) (ins : ptr)
    : res (iheap * BrainfuckState * ptr) :=
  match ins with
  | None => Ret (h, st, None)
  | Some _ =>
    nd ← get h ins;
    let st := if decide (head st = ins) then BState (root st) (previous nd) else st in
    h ← set_next h (previous nd) (next nd);
    nd ← get h ins;
    h ← set_previous h (next nd) (previous nd);
    h ← set_previous h ins None;
    h ← set_next h ins None;
    Ret (h, st, ins)
  end.

Definition brainfuck_add (h : iheap) (st : BrainfuckState) (ins : ptr)
    : res (iheap * BrainfuckState * ptr) :=
  match ins with
  | None => Ret (h, st, None)
  | Some _ =>
    h ← set_previous h ins (head st);
    h ← (match head st with None => Ret h | Some _ => set_next h (head st) ins end);
    iter ← last_of (length h) h ins;
    let st := BState (root st) iter in
    let st := match root st with None => BState ins (head st) | Some _ => st end in
    Ret (h, st, head st)
  end.

Definition brainfuck_add_front (h : iheap) (st : BrainfuckState) (ins : ptr)
    : res (iheap * BrainfuckState * ptr) :=
  match ins with
  | None => Ret (h, st, None)
  | Some _ =>
    h ← set_previous h ins None;
    iter ← last_of (length h) h ins;
    let st := BState (root st) iter in
    h ← set_next h iter (root st);
    h ← set_previous h (root st) iter;
    let st := BState ins (head st) in
    Ret (h, st, head st)
  end.

Definition brainfuck_insert_before (h : iheap) (st : BrainfuckState) (before ins : ptr)
    : res (iheap * BrainfuckState * ptr) :=
  match before, ins with
  | Some _, Some _ =>
    nb ← get h before;
    let prev := previous nb in
    iter ← last_of (length h) h ins;
    h ← set_previous h before iter;
    h ← set_next h iter iter;
    h ← (match prev with
         | None => Ret h
         | Some _ => h ← set_next h prev ins; set_previous h ins prev
         end);
    Ret (h, if decide (root st = before) then BState ins (head st) else st, ins)
  | _, _ => Ret (h, st, None)
  end.

Definition brainfuck_insert_after (h : iheap) (st : BrainfuckState) (after ins : ptr)
    : res (iheap * BrainfuckState * ptr) :=
  match after, ins with
  | Some _, Some _ =>
    h ← set_next h after ins;
    h ← set_previous h ins after;
    na ← get h after;
    let nxt := next na in
    iter ← last_of (length h) h ins;
    h ← (match nxt with
         | None => Ret h
         | Some _ => h ← set_previous h nxt iter; set_next h iter nxt
         end);
    Ret (h, if decide (head st = after) then BState (root st) iter else st, ins)
  | _, _ => Ret (h, st, None)
  end.

(** ** Execution *)

(** How a call of [brainfuck_execute] ends: it returns, or the process exits. *)
Inductive outcome := Done (c : Context) | Exit (code : Z) (c : Context).

(** [context->tape[context->tape_index]] as a location. *)
Definition cell (c : Context) : res Z :=
  if tape_index c <? 0 then UB else aget (tape c) (Z.to_nat (tape_index c)).
Definition set_cell (c : Context) (v : Z) : res Context :=
  if tape_index c <? 0 then UB
  else t ← aset (tape c) (Z.to_nat (tape_index c)) v; Ret (with_tape c t).

(** [tape[..] = input_handler()], [n] times; end of file is stored as 255. *)
Fixpoint read_cells (n : nat) (c : Context) : res Context :=
  match n with
  | O => Ret c
  | S n =>
    let '(v, rest) := match stdin c with b :: s => (b, s) | [] => (255, []) end in
    c ← set_cell c v;
    read_cells n (Ctx (tape c) (tape_index c) (tape_size c) rest (stdout c))
  end.

(** [output_handler(tape[..])], [n] times. *)
Definition write_cells (n : nat) (c : Context) : res Context :=
  match n with
  | O => Ret c
  | S _ =>
    v ← cell c;
    Ret (Ctx (tape c) (tape_index c) (tape_size c) (stdin c) (stdout c ++ repeat v n))
  end.

(** The cases of the switch that do not loop. *)
Definition exec_simple (t d : Z) (c : Context) : res (option outcome) :=
  if t =? PLUS then
    v ← cell c; c ← set_cell c (u8 (v + u8 d)); Ret (Some (Done c))
  else if t =? MINUS then
    v ← cell c; c ← set_cell c (u8 (v - u8 d)); Ret (Some (Done c))
  else if t =? NEXT then
    if (u64 (INT_MAX - tape_size c) <=? d) || (tape_size c <=? u64 (tape_index c + d))
    then Ret (Some (Exit EXIT_FAILURE c))
    else Ret (Some (Done (with_index c (tape_index c + d))))
  else if t =? PREVIOUS then
    if (u64 (INT_MAX - tape_size c) <=? d) || (tape_index c - d <? 0)
    then Ret (Some (Exit EXIT_FAILURE c))
    else Ret (Some (Done (with_index c (tape_index c - d))))
  else if t =? OUTPUT then c ← write_cells (Z.to_nat d) c; Ret (Some (Done c))
  else if t =? INPUT then c ← read_cells (Z.to_nat d) c; Ret (Some (Done c))
  else Ret None.

(** [brainfuck_execute(root, context)]; the while loop of a bracket runs the body
    and comes back to the same node.  Fuel bounds the nodes visited, since a
    program need not end. *)
Fixpoint brainfuck_execute (fuel : nat) (h : iheap) (r : ptr) (c : Context) : res outcome :=
  match fuel with
  | O => Fuel
  | S n =>
    match r with
    | None => Ret (Done c)
    | Some _ =>
      nd ← get h r;
      if type nd =? LOOP_END then Ret (Done c)
      else if type nd =? LOOP_START then
        v ← cell c;
        if v =? 0 then brainfuck_execute n h (next nd) c
        else
          o ← brainfuck_execute n h (loop nd) c;
          match o with
          | Done c => brainfuck_execute n h r c
          | Exit code c => Ret (Exit code c)
          end
      else
        o ← exec_simple (type nd) (difference nd) c;
        match o with
        | None => Ret (Done c)
        | Some (Done c) => brainfuck_execute n h (next nd) c
        | Some (Exit code c) => Ret (Exit code c)
        end
    end
  end.

#[global] Arguments exec_simple : simpl never.
#[global] Arguments get : simpl never.
#[global] Arguments put : simpl never.

(** ** What a heap represents *)

(** The programs the parsers build: runs of one token with a count, and loops. *)
Inductive prog := PEnd | POp (t d : Z) (k : prog) | PLoop (b k : prog).

Definition is_op (t : Z) : bool :=
  (t =? PLUS) || (t =? MINUS) || (t =? NEXT) || (t =? PREVIOUS) || (t =? OUTPUT) || (t =? INPUT).

(** [rep h p l g]: the node [p] starts a list that represents [g]; its nodes, those
    of loop bodies included, are the distinct objects [l]. *)
Fixpoint rep (h : iheap) (p : ptr) (l : list nat) (g : prog) : Prop :=
  match g with
  | PEnd => exists i nd, p = Some i /\ l = [i] /\ h !! i = Some (Some nd) /\ type nd = LOOP_END /\
      next nd = None /\ loop nd = None
  | POp t d k => exists i nd l', p = Some i /\ l = i :: l' /\ h !! i = Some (Some nd) /\ (i ∉ l') /\
      type nd = t /\ difference nd = d /\ loop nd = None /\ rep h (next nd) l' k
  | PLoop b k => exists i nd lb lk, p = Some i /\ l = i :: lb ++ lk /\ h !! i = Some (Some nd) /\
      NoDup l /\ type nd = LOOP_START /\ rep h (loop nd) lb b /\ rep h (next nd) lk k
  end.

(** Only the tokens of operations occur in it. *)
Fixpoint prog_ok (g : prog) : Prop :=
  match g with
  | PEnd => True
  | POp t d k => is_op t = true /\ 0 <= d < 2 ^ 64 /\ prog_ok k
  | PLoop b k => prog_ok b /\ prog_ok k
  end.

(** ** The semantics of a program *)

Inductive sem : prog -> Context -> outcome -> Prop :=
| sem_end c : sem PEnd c (Done c)
| sem_op t d k c c' o :
    exec_simple t d c = Ret (Some (Done c')) -> sem k c' o -> sem (POp t d k) c o
| sem_op_exit t d k c code c' :
    exec_simple t d c = Ret (Some (Exit code c')) -> sem (POp t d k) c (Exit code c')
| sem_loop_end b k c o : cell c = Ret 0 -> sem k c o -> sem (PLoop b k) c o
| sem_loop b k c c' o v :
    cell c = Ret v -> v <> 0 -> sem b c (Done c') -> sem (PLoop b k) c' o -> sem (PLoop b k) c o
| sem_loop_exit b k c code c' v :
    cell c = Ret v -> v <> 0 -> sem b c (Exit code c') -> sem (PLoop b k) c (Exit code c').

Lemma get_lookup h i nd : h !! i = Some (Some nd) -> get h (Some i) = Ret nd.
Proof. unfold get. by intros ->. Qed.

Lemma op_not_bracket t : is_op t = true -> (t =? LOOP_END) = false /\ (t =? LOOP_START) = false.
Proof. unfold is_op. intros H. split; apply Z.eqb_neq; intros ->; discriminate H. Qed.

(** [brainfuck_execute] as a function of the program a heap represents. *)
Fixpoint exec (fuel : nat) (g : prog) (c : Context) : res outcome :=
  match fuel with
  | O => Fuel
  | S n =>
    match g with
    | PEnd => Ret (Done c)
    | POp t d k =>
      o ← exec_simple t d c;
      match o with
      | None => Ret (Done c)
      | Some (Done c) => exec n k c
      | Some (Exit code c) => Ret (Exit code c)
      end
    | PLoop b k =>
      v ← cell c;
      if v =? 0 then exec n k c
      else o ← exec n b c;
        match o with Done c => exec n g c | Exit code c => Ret (Exit code c) end
    end
  end.

Lemma execute_exec n : forall h p l g c, rep h p l g -> prog_ok g ->
  brainfuck_execute n h p c = exec n g c.
Proof.
  induction n as [|n IH]; intros h p l g c Hr Hok; [done|]. cbn [brainfuck_execute exec].
  destruct g as [|t d k|b k]; pose proof Hr as Hr'; cbn [rep] in Hr.
  - destruct Hr as (i & nd & -> & -> & Hi & Ht & _). rewrite (get_lookup _ _ _ Hi). bind. by rewrite Ht.
  - destruct Hr as (i & nd & l' & -> & -> & Hi & _ & <- & <- & _ & Hk). destruct Hok as (Hop & Hd & Hok).
    rewrite (get_lookup _ _ _ Hi). bind. destruct (op_not_bracket _ Hop) as [-> ->].
    destruct (exec_simple _ _ c) as [[[c1|]|]| |]; bind; try done. by eapply IH.
  - destruct Hr as (i & nd & lb & lk & -> & -> & Hi & _ & Ht & Hb & Hk). destruct Hok as [Hokb Hokk].
    rewrite (get_lookup _ _ _ Hi). bind. rewrite Ht. cbn [Z.eqb LOOP_START LOOP_END Pos.eqb].
    destruct (cell c) as [v| |]; bind; try done. destruct (v =? 0); [by eapply IH|].
    rewrite (IH _ _ _ _ c Hb Hokb). destruct (exec n b c) as [[c1|]| |]; bind; try done.
    by eapply IH; [exact Hr'|].
Qed.

Lemma exec_mono n : forall m g c o, (n <= m)%nat -> exec n g c = Ret o -> exec m g c = Ret o.
Proof.
  induction n as [|n IH]; intros [|m] g c o Hle E; try done; [lia|]. cbn [exec] in *.
  destruct g as [|t d k|b k]; [done|..].
  - destruct (exec_simple _ _ c) as [[[c1|]|]| |]; bind; try done. bind. apply IH; [lia|done].
  - destruct (cell c) as [v| |]; try done. cbn [mbind res_bind] in *. destruct (v =? 0); [apply IH; (done || lia)|].
    destruct (exec n b c) as [o1| |] eqn:E1; [|done..]. rewrite (IH m _ _ o1) by (done || lia).
    cbn [mbind res_bind] in *. destruct o1; [apply IH; (done || lia)|done].
Qed.

Lemma exec_simple_op t d c : is_op t = true -> exec_simple t d c <> Ret None.
Proof.
  unfold is_op, exec_simple. intros Hop E. repeat case_match; inv_res; simplify_eq; done.
Qed.

(** The interpreter computes the semantics: what it returns is right, and what the
    program does it does with enough fuel. *)
Lemma exec_sound n : forall g c o, prog_ok g -> exec n g c = Ret o -> sem g c o.
Proof.
  induction n as [|n IH]; intros g c o Hok E; [done|]. cbn [exec] in E. destruct g as [|t d k|b k].
  - injection E as <-. constructor.
  - destruct Hok as (Hop & _ & Hok). pose proof (exec_simple_op t d c Hop).
    destruct (exec_simple t d c) as [[[c1|code c1]|]| |] eqn:Es; try done; cbn [mbind res_bind] in E.
    + eapply sem_op; [done|]. by apply IH.
    + injection E as <-. by apply sem_op_exit.
  - pose proof Hok as [Hokb Hokk]. destruct (cell c) as [v| |] eqn:Ev; try done. cbn [mbind res_bind] in E.
    destruct (Z.eqb_spec v 0) as [->|Hv]; [by apply sem_loop_end; [|apply IH]|].
    destruct (exec n b c) as [o1| |] eqn:E1; try done. cbn [mbind res_bind] in E.
    apply (IH _ _ _ Hokb) in E1. destruct o1 as [c1|code c1].
    + eapply sem_loop; [done..|]. by apply IH.
    + injection E as <-. by eapply sem_loop_exit.
Qed.

Lemma exec_complete g c o : sem g c o -> exists n, exec n g c = Ret o.
Proof.
  induction 1 as [c|t d k c c' o Es Hk [n Hn]|t d k c code c' Es|b k c o Ev Hk [n Hn]
    |b k c c' o v Ev Hv Hb [n1 Hn1] Hl [n2 Hn2]|b k c code c' v Ev Hv Hb [n Hn]].
  - by exists 1%nat.
  - exists (S n). cbn [exec]. by rewrite Es.
  - exists 1%nat. cbn [exec]. by rewrite Es.
  - exists (S n). cbn [exec]. by rewrite Ev.
  - exists (S (n1 + n2)). cbn [exec]. rewrite Ev. bind. rewrite (proj2 (Z.eqb_neq _ _)) by done.
    rewrite (exec_mono n1 (n1 + n2) _ _ _ ltac:(lia) Hn1). bind.
    apply (exec_mono n2); [lia|done].
  - exists (S n). cbn [exec]. rewrite Ev. bind. rewrite (proj2 (Z.eqb_neq _ _)) by done. by rewrite Hn.
Qed.

Lemma exec_sem g c o : prog_ok g -> (exists n, exec n g c = Ret o) <-> sem g c o.
Proof. intros Hok. split; [intros [n Hn]; by eapply exec_sound|apply exec_complete]. Qed.

(** ** Memory safety *)

(** A context whose index is on its tape. *)
Definition ctx_ok (c : Context) : Prop :=
  0 <= tape_index c < tape_size c /\ tape_size c <= INT_MAX /\
  tape_size c <= Z.of_nat (length (tape c)).

Definition outcome_ctx (o : outcome) : Context := match o with Done c | Exit _ c => c end.

Lemma cell_ok c : ctx_ok c -> exists v, cell c = Ret v.
Proof.
  intros (Hi & _ & Hl). unfold cell. rewrite (proj2 (Z.ltb_ge _ _)) by lia.
  destruct (aget_lt (tape c) (Z.to_nat (tape_index c))) as (v & -> & _); [lia|eauto].
Qed.

Lemma set_cell_ok c v : ctx_ok c -> exists t, set_cell c v = Ret (with_tape c t) /\ ctx_ok (with_tape c t).
Proof.
  intros (Hi & Hm & Hl). unfold set_cell. rewrite (proj2 (Z.ltb_ge _ _)) by lia.
  rewrite aset_lt by lia. bind. eexists. split; [done|]. split_and!; simpl; try done; try lia.
  by rewrite length_insert.
Qed.

Lemma read_cells_ok n : forall c, ctx_ok c -> exists c', read_cells n c = Ret c' /\ ctx_ok c'.
Proof.
  induction n as [|n IH]; intros c Hc; [by exists c|]. cbn [read_cells].
  destruct (match stdin c with b :: s => (b, s) | [] => (255, []) end) as [v rest].
  destruct (set_cell_ok c v Hc) as (t & -> & Ht). bind. by apply IH.
Qed.

Lemma write_cells_ok n c : ctx_ok c -> exists c', write_cells n c = Ret c' /\ ctx_ok c'.
Proof.
  intros Hc. destruct n as [|n]; [by exists c|]. unfold write_cells.
  destruct (cell_ok c Hc) as [v ->]. bind. eexists. split; [done|]. exact Hc.
Qed.

Lemma u64_small x : 0 <= x < 2 ^ 64 -> u64 x = x.
Proof. apply Z.mod_small. Qed.

Ltac ends H := eexists; split; [reflexivity|exact H].

Lemma exec_simple_ok t d c : ctx_ok c -> 0 <= d < 2 ^ 64 -> exists o, exec_simple t d c = Ret o /\
  match o with Some o => ctx_ok (outcome_ctx o) | None => True end.
Proof.
  intros Hc Hd. pose proof Hc as (Hi & Hm & Hl). unfold INT_MAX in *.
  assert (Hu : u64 (2147483647 - tape_size c) = 2147483647 - tape_size c) by (apply u64_small; lia).
  destruct (cell_ok c Hc) as [v Ev]. unfold exec_simple, INT_MAX. rewrite Hu.
  destruct (t =? PLUS). { rewrite Ev. bind. destruct (set_cell_ok c (u8 (v + u8 d)) Hc) as (x & -> & Hx). bind. ends Hx. }
  destruct (t =? MINUS). { rewrite Ev. bind. destruct (set_cell_ok c (u8 (v - u8 d)) Hc) as (x & -> & Hx). bind. ends Hx. }
  destruct (t =? NEXT).
  { destruct (Z.leb_spec (2147483647 - tape_size c) d); simpl; [ends Hc|].
    rewrite u64_small by lia. destruct (Z.leb_spec (tape_size c) (tape_index c + d)); [ends Hc|].
    eexists. split; [done|]. unfold ctx_ok, INT_MAX. simpl. lia. }
  destruct (t =? PREVIOUS).
  { destruct (Z.leb_spec (2147483647 - tape_size c) d); simpl; [ends Hc|].
    destruct (Z.ltb_spec (tape_index c - d) 0); [ends Hc|].
    eexists. split; [done|]. unfold ctx_ok, INT_MAX. simpl. lia. }
  destruct (t =? OUTPUT). { destruct (write_cells_ok (Z.to_nat d) c Hc) as (x & -> & Hx). bind. ends Hx. }
  destruct (t =? INPUT). { destruct (read_cells_ok (Z.to_nat d) c Hc) as (x & -> & Hx). bind. ends Hx. }
  ends I.
Qed.

(** A program never leaves the tape. *)
Lemma exec_safe n : forall g c, prog_ok g -> ctx_ok c ->
  exec n g c <> UB /\ forall o, exec n g c = Ret o -> ctx_ok (outcome_ctx o).
Proof.
  induction n as [|n IH]; intros g c Hok Hc; [done|]. cbn [exec].
  destruct g as [|t d k|b k]; [split; [done|by intros o [= <-]]|..].
  - destruct Hok as (Hop & Hd & Hok). destruct (exec_simple_ok t d c Hc Hd) as (o & -> & Ho). bind.
    destruct o as [[c1|code c1]|]; simpl in Ho; [by apply IH|split; [done|by intros o [= <-]]..].
  - pose proof Hok as [Hokb Hokk]. destruct (cell_ok c Hc) as [v ->]. bind.
    destruct (v =? 0); [by apply IH|]. destruct (IH b c Hokb Hc) as [Hu Ho].
    destruct (exec n b c) as [[c1|code c1]| |]; bind; [|..|done|done].
    + apply IH; [done|]. by apply (Ho (Done c1)).
    + split; [done|]. intros o [= <-]. by apply (Ho (Exit code c1)).
Qed.

(** Execution is memory safe: on a heap that represents a program and a
    context whose index is on its tape, [brainfuck_execute] never touches memory
    outside the tape or the program, however long it runs, and every context it
    ends with, by returning or through the two bound errors, still has its index on
    the tape. *)
Theorem brainfuck_execute_safe n h p l g c :
  rep h p l g -> prog_ok g -> ctx_ok c ->
  brainfuck_execute n h p c <> UB /\
  forall o, brainfuck_execute n h p c = Ret o -> ctx_ok (outcome_ctx o).
Proof.
  intros Hr Hok Hc. rewrite (execute_exec n h p l g c Hr Hok). by apply exec_safe.
Qed.

(** The program [+] on a tape of two cells. *)
Lemma brainfuck_execute_safe_witness :
  let h := [Some (MkI 1 PLUS (Some 1%nat) None None); Some (MkI 0 LOOP_END None None None)] in
  let c := Ctx [255; 7] 0 2 [] [] in
  brainfuck_execute 3 h (Some 0%nat) c = Ret (Done (Ctx [0; 7] 0 2 [] [])) /\
  brainfuck_execute 3 h (Some 0%nat) c <> UB.
Proof.
  intros h c. split; [reflexivity|].
  apply (brainfuck_execute_safe 3 h (Some 0%nat) [0%nat; 1%nat] (POp PLUS 1 PEnd) c).
  - do 3 eexists. split_and!; try reflexivity; [set_solver|]. do 2 eexists. by split_and!.
  - split_and!; done.
  - split_and!; done.
Defined.
