(* ===== verification/BfParse.v ===== *)
(** Component: the parsers of src/c-study/brainfuck/brainfuck.c and the entry
    points of main.c.  The theorems show that the parsers build, in the heap, the
    program the text denotes, from a string and from a stream alike, and that
    running it agrees with the character by character meaning of the text. *)
From S2P Require Import Prelude Arrays Bits Bf.

(** ** Parsing a string *)

(** [str[i]] of a C string, its terminator included. *)
Definition char_at (str : list Z) (i : Z) : res Z :=
  if i <? 0 then UB
  else if i =? Z.of_nat (length str) then Ret 0 else aget str (Z.to_nat i).

(** The tokens a run may continue with after its first token. *)
Definition run_class (c : Z) : option (Z -> bool) :=
  if (c =? PLUS) || (c =? MINUS) then Some (fun t => (t =? PLUS) || (t =? MINUS))
  else if (c =? NEXT) || (c =? PREVIOUS) then Some (fun t => (t =? NEXT) || (t =? PREVIOUS))
  else if (c =? OUTPUT) || (c =? INPUT) then Some (fun t => t =? c)
  else None.

(** The inner loops: up to where the run goes and the difference it adds up to. *)
Fixpoint count_run (fuel : nat) (str : list Z) (member : Z -> bool) (c ptr end_ diff : Z)
    : res (Z * Z) :=
  if ptr <? end_ then
    t ← char_at str ptr;
    if negb (t =? 0) && member t then
      match fuel with
      | O => Fuel
      | S n => count_run n str member c (ptr + 1) end_ (u64 (if t =? c then diff + 1 else diff - 1))
      end
    else Ret (ptr, diff)
  else Ret (ptr, diff).

Section Parse.
(** What a freshly allocated node contains. *)
Context (junk : INode).

(** The root node of a call. *)
Definition new_root (h : iheap) : res (iheap * ptr) :=
  let '(h, r) := malloc junk h in
  h ← set_next h r None;
  h ← set_previous h r None;
  h ← set_loop h r None;
  Ret (h, r).

(** The node after [ins]. *)
Definition new_next (h : iheap) (ins : ptr) : res (iheap * ptr) :=
  let '(h, r) := malloc junk h in
  h ← set_next h ins r;
  h ← set_next h r None;
  h ← set_loop h r None;
  h ← set_previous h r ins;
  Ret (h, r).

(** The loop of [brainfuck_parse_substring_incremental], from [*ptr = p] with
    the current node [ins]; it yields the heap, the final [*ptr] and the root. *)
Fixpoint parse_loop (fuel : nat) (h : iheap) (str : list Z) (p end_ : Z) (root ins : ptr)
    : res (iheap * Z * ptr) :=
  let finish := h ← set_type h ins LOOP_END; Ret (h, p, root) in
  if p <? end_ then
    c ← char_at str p;
    if c =? 0 then finish
    else match fuel with
    | O => Fuel
    | S n =>
      h ← set_type h ins c;
      h ← set_difference h ins 1;
      match run_class c with
      | Some member =>
        '(p, d) ← count_run (length str) str member c (p + 1) end_ 1;
        h ← set_difference h ins d;
        '(h, ins') ← new_next h ins;
        parse_loop n h str (p - 1 + 1) end_ root ins'
      | None =>
        if c =? LOOP_START then
          '(h, r) ← new_root h;
          '(h, p, r) ← parse_loop n h str (p + 1) end_ r r;
          h ← set_loop h ins r;
          '(h, ins') ← new_next h ins;
          parse_loop n h str (p + 1) end_ root ins'
        else if c =? LOOP_END then Ret (h, p, root)
        else parse_loop n h str (p + 1) end_ root ins
      end
    end
  else finish.

Definition brainfuck_parse_substring_incremental (h : iheap) (str : list Z) (p end_ : Z)
    : res (iheap * Z * ptr) :=
  let end_ := if end_ <? 0 then Z.of_nat (length str) else end_ in
  '(h, r) ← new_root h;
  parse_loop (S (length str)) h str p end_ r r.

Definition brainfuck_parse_substring (h : iheap) (str : list Z) (begin end_ : Z) : res (iheap * ptr) :=
  '(h, _, r) ← brainfuck_parse_substring_incremental h str begin end_;
  Ret (h, r).

Definition brainfuck_parse_string (h : iheap) (str : list Z) : res (iheap * ptr) :=
  brainfuck_parse_substring h str 0 (-1).

(** [brainfuck_parse_character(c)]. *)
Definition brainfuck_parse_character (h : iheap) (c : Z) : res (iheap * ptr) :=
  let '(h, r) := malloc junk h in
  h ← set_next h r None;
  h ← set_loop h r None;
  h ← set_difference h r 1;
  if is_op c || (c =? LOOP_START) || (c =? LOOP_END)
  then h ← set_type h r c; Ret (h, r)
  else Ret (h, None).

(** *** Parsing a stream *)

(** [(ch = fgetc(stream))] with a signed [char]: -1 at the end of the file, but
    also for the byte 0xFF. *)
Definition fgetc (s : list Z) : Z * list Z :=
  match s with [] => (-1, []) | b :: s' => (schar b, s') end.

(** [ungetc(ch, stream)]: pushing back -1 does nothing. *)
Definition ungetc (ch : Z) (s : list Z) : list Z := if ch =? -1 then s else ch mod 256 :: s.

Fixpoint stream_run (fuel : nat) (s : list Z) (until : Z) (member : Z -> bool) (c diff : Z)
    : res (list Z * Z) :=
  let '(t, s) := fgetc s in
  if negb (t =? until) && member t then
    match fuel with
    | O => Fuel
    | S n => stream_run n s until member c (u64 (if t =? c then diff + 1 else diff - 1))
    end
  else Ret (ungetc t s, diff).

(** The root node and the next node of a stream parse leave [previous] alone. *)
Definition stream_node (h : iheap) : res (iheap * ptr) :=
  let '(h, r) := malloc junk h in
  h ← set_next h r None; h ← set_loop h r None; Ret (h, r).

Definition stream_next (h : iheap) (ins : ptr) : res (iheap * ptr) :=
  let '(h, r) := malloc junk h in
  h ← set_next h ins r; h ← set_next h r None; h ← set_loop h r None; Ret (h, r).

Fixpoint stream_loop (fuel : nat) (h : iheap) (s : list Z) (until : Z) (root ins : ptr)
    : res (iheap * list Z * ptr) :=
  let '(ch, s) := fgetc s in
  if ch =? until then h ← set_type h ins LOOP_END; Ret (h, s, root)
  else match fuel with
  | O => Fuel
  | S n =>
    h ← set_type h ins ch;
    h ← set_difference h ins 1;
    match run_class ch with
    | Some member =>
      '(s, d) ← stream_run (S (length s)) s until member ch 1;
      h ← set_difference h ins d;
      '(h, ins') ← stream_next h ins;
      stream_loop n h s until root ins'
    | None =>
      if ch =? LOOP_START then
        '(h, r) ← stream_node h;
        '(h, s, r) ← stream_loop n h s until r r;
        h ← set_loop h ins r;
        '(h, ins') ← stream_next h ins;
        stream_loop n h s until root ins'
      else if ch =? LOOP_END then Ret (h, s, root)
      else stream_loop n h s until root ins
    end
  end.

Definition brainfuck_parse_stream_until (h : iheap) (s : list Z) (until : Z)
    : res (iheap * list Z * ptr) :=
  '(h, r) ← stream_node h; stream_loop (S (length s)) h s until r r.

Definition brainfuck_parse_stream (h : iheap) (s : list Z) : res (iheap * list Z * ptr) :=
  brainfuck_parse_stream_until h s (-1).

(** *** The entry points of main.c *)

(** [run_string(code)]; [cells] is the content of the fresh tape and [fuel]
    bounds the execution. *)
Definition run_string (fuel : nat) (cells code inp : list Z) : res (Z * Context) :=
  let st := brainfuck_state in
  let c := brainfuck_context TAPE_SIZE cells inp in
  '(h, ins) ← brainfuck_parse_string [] code;
  '(h, st, _) ← brainfuck_add h st ins;
  o ← brainfuck_execute fuel h (root st) c;
  match o with
  | Exit code c => Ret (code, c)
  | Done c =>
    h ← brainfuck_destroy_state h st;
    Ret (EXIT_SUCCESS, c)
  end.

(** [run_file(file)]; [None] is a file that could not be opened. *)
Definition run_file (fuel : nat) (cells : list Z) (file : option (list Z)) (inp : list Z)
    : res (Z * Context) :=
  let st := brainfuck_state in
  let c := brainfuck_context TAPE_SIZE cells inp in
  match file with
  | None => Ret (EXIT_FAILURE, c)
  | Some file =>
    '(h, _, ins) ← brainfuck_parse_stream [] file;
    '(h, st, _) ← brainfuck_add h st ins;
    o ← brainfuck_execute fuel h (root st) c;
    match o with
    | Exit code c => Ret (code, c)
    | Done c =>
      h ← brainfuck_destroy_state h st;
      Ret (EXIT_SUCCESS, c)
    end
  end.
End Parse.

(** ** The program a text denotes *)

(** The longest prefix within a class. *)
Fixpoint take_run (member : Z -> bool) (s : list Z) : list Z :=
  match s with
  | t :: s' => if member t then t :: take_run member s' else []
  | [] => []
  end.

(** What a run adds to the difference. *)
Fixpoint net (c : Z) (r : list Z) : Z :=
  match r with [] => 0 | t :: r' => (if t =? c then 1 else -1) + net c r' end.

(** The program and the text after its closing bracket. *)
Fixpoint pparse (fuel : nat) (s : list Z) : prog * list Z :=
  match fuel with
  | O => (PEnd, [])
  | S n =>
    match s with
    | [] => (PEnd, [])
    | c :: s' =>
      match run_class c with
      | Some member =>
        let r := take_run member s' in
        let '(k, rest) := pparse n (drop (length r) s') in
        (POp c (u64 (1 + net c r)) k, rest)
      | None =>
        if c =? LOOP_START then
          let '(b, s1) := pparse n s' in
          let '(k, s2) := pparse n s1 in (PLoop b k, s2)
        else if c =? LOOP_END then (PEnd, s')
        else pparse n s'
      end
    end
  end.

Definition program (text : list Z) : prog := (pparse (S (length text)) text).1.

(** ** The heap operations of the parsers *)

Section Heap.
Context (h : iheap) (i : nat) (nd : INode) (Hi : h !! i = Some (Some nd)).

Lemma put_ret n : put h (Some i) n = Ret (<[i := Some n]> h).
Proof. unfold put. by rewrite Hi. Qed.

Lemma set_type_ret c : set_type h (Some i) c =
  Ret (<[i := Some (MkI (difference nd) c (next nd) (previous nd) (loop nd))]> h).
Proof. unfold set_type. rewrite (get_lookup _ _ _ Hi). bind. apply put_ret. Qed.

Lemma set_difference_ret d : set_difference h (Some i) d =
  Ret (<[i := Some (MkI d (type nd) (next nd) (previous nd) (loop nd))]> h).
Proof. unfold set_difference. rewrite (get_lookup _ _ _ Hi). bind. apply put_ret. Qed.

Lemma set_next_ret p : set_next h (Some i) p =
  Ret (<[i := Some (MkI (difference nd) (type nd) p (previous nd) (loop nd))]> h).
Proof. unfold set_next. rewrite (get_lookup _ _ _ Hi). bind. apply put_ret. Qed.

Lemma set_previous_ret p : set_previous h (Some i) p =
  Ret (<[i := Some (MkI (difference nd) (type nd) (next nd) p (loop nd))]> h).
Proof. unfold set_previous. rewrite (get_lookup _ _ _ Hi). bind. apply put_ret. Qed.

Lemma set_loop_ret p : set_loop h (Some i) p =
  Ret (<[i := Some (MkI (difference nd) (type nd) (next nd) (previous nd) p)]> h).
Proof. unfold set_loop. rewrite (get_lookup _ _ _ Hi). bind. apply put_ret. Qed.
End Heap.

(** The last object of a heap. *)
Lemma last_lookup (h : iheap) x : (h ++ [x]) !! length h = Some x.
Proof. by rewrite list_lookup_middle. Qed.

Lemma last_insert (h : iheap) x y : <[length h := y]> (h ++ [x]) = h ++ [y].
Proof.
  rewrite (insert_app_r_alt _ _ (length h)) by lia. by rewrite Nat.sub_diag.
Qed.

Lemma new_root_ret junk h : new_root junk h =
  Ret (h ++ [Some (MkI (difference junk) (type junk) None None None)], Some (length h)).
Proof.
  unfold new_root, malloc.
  rewrite (set_next_ret _ _ junk) by apply last_lookup. bind. rewrite last_insert.
  erewrite set_previous_ret by apply last_lookup. bind. rewrite last_insert.
  erewrite set_loop_ret by apply last_lookup. bind. by rewrite last_insert.
Qed.

(** The current node, linked to a new one. *)
Lemma new_next_ret junk h i nd : h !! i = Some (Some nd) -> new_next junk h (Some i) =
  Ret (<[i := Some (MkI (difference nd) (type nd) (Some (length h)) (previous nd) (loop nd))]> h ++
       [Some (MkI (difference junk) (type junk) None (Some i) None)], Some (length h)).
Proof.
  intros Hi. pose proof (lookup_lt_Some _ _ _ Hi). unfold new_next, malloc.
  rewrite (set_next_ret _ _ nd) by by rewrite lookup_app_l. bind. rewrite insert_app_l by done.
  set (h1 := <[i := _]> h). assert (length h1 = length h) as Hl by apply length_insert. rewrite <-Hl.
  erewrite set_next_ret by apply last_lookup. bind. rewrite last_insert.
  erewrite set_loop_ret by apply last_lookup. bind. rewrite last_insert.
  erewrite set_previous_ret by apply last_lookup. bind. by rewrite last_insert.
Qed.

(** The fields that execution reads. *)
Definition same_code (nd nd' : INode) : Prop :=
  type nd' = type nd /\ difference nd' = difference nd /\ next nd' = next nd /\ loop nd' = loop nd.

Lemma rep_frame' h h' g : forall p l, rep h p l g ->
  (forall i nd, i ∈ l -> h !! i = Some (Some nd) -> exists nd', h' !! i = Some (Some nd') /\ same_code nd nd') ->
  rep h' p l g.
Proof.
  induction g as [|t d k IH|b IHb k IHk]; intros p l; cbn [rep].
  - intros (i & nd & -> & -> & Hi & E1 & E2 & E3) Hf.
    destruct (Hf i nd) as (nd' & Hi' & F1 & F2 & F3 & F4); [set_solver|done|].
    exists i, nd'. rewrite F1, F3, F4. done.
  - intros (i & nd & l' & -> & -> & Hi & ? & ? & ? & ? & Hk) Hf.
    destruct (Hf i nd) as (nd' & Hi' & F1 & F2 & F3 & F4); [set_solver|done|].
    exists i, nd', l'. rewrite F1, F2, F3, F4. split_and!; try done. apply IH; [done|].
    intros j x Hj. apply Hf. set_solver.
  - intros (i & nd & lb & lk & -> & -> & Hi & ? & ? & Hb & Hk) Hf.
    destruct (Hf i nd) as (nd' & Hi' & F1 & F2 & F3 & F4); [set_solver|done|].
    exists i, nd', lb, lk. rewrite F1, F3, F4. split_and!; try done; [apply IHb|apply IHk]; try done;
      intros j x Hj; apply Hf; set_solver.
Qed.

Lemma rep_frame h h' g p l : rep h p l g -> (forall i, i ∈ l -> h' !! i = h !! i) -> rep h' p l g.
Proof.
  intros Hr Hf. eapply rep_frame'; [done|]. intros i nd Hi Hnd. exists nd. by rewrite Hf.
Qed.

(** ** Runs *)

Lemma u64_range x : 0 <= u64 x < 2 ^ 64.
Proof. by apply Z.mod_pos_bound. Qed.

Lemma u64_add_l x y : u64 (u64 x + y) = u64 (x + y).
Proof. apply Zplus_mod_idemp_l. Qed.

Lemma char_at_lookup str p c : str !! p = Some c -> char_at str (Z.of_nat p) = Ret c.
Proof.
  intros Hp. pose proof (lookup_lt_Some _ _ _ Hp). unfold char_at.
  rewrite (proj2 (Z.ltb_ge _ _)), (proj2 (Z.eqb_neq _ _)) by lia.
  unfold aget. rewrite Nat2Z.id. by rewrite Hp.
Qed.

Section Text.
(** A string without NUL, parsed up to [E]. *)
Context (str : list Z) (Hstr : Forall (fun c => c <> 0) str) (E : nat) (HE : (E <= length str)%nat).

Definition seg (p : nat) : list Z := drop p (take E str).

Lemma seg_end p : (E <= p)%nat -> seg p = [].
Proof. intros H. apply drop_ge. rewrite length_take. lia. Qed.

Lemma seg_cons p : (p < E)%nat -> exists c, str !! p = Some c /\ c <> 0 /\ seg p = c :: seg (S p).
Proof.
  intros Hp. destruct (lookup_lt_is_Some_2 str p) as [c Hc]; [lia|]. exists c. split; [done|].
  split; [exact (Forall_lookup_1 _ _ _ _ Hstr Hc)|]. unfold seg. apply drop_S.
  by rewrite lookup_take_lt.
Qed.

Lemma seg_drop p n : drop n (seg p) = seg (p + n).
Proof. unfold seg. by rewrite drop_drop. Qed.

Lemma seg_length p : (p <= E)%nat -> length (seg p) = (E - p)%nat.
Proof. intros H. unfold seg. rewrite length_drop, length_take. lia. Qed.

Lemma count_run_spec member c fuel : forall p d, (length (seg p) <= fuel)%nat -> 0 <= d < 2 ^ 64 ->
  count_run fuel str member c (Z.of_nat p) (Z.of_nat E) d =
  let r := take_run member (seg p) in Ret (Z.of_nat (p + length r), u64 (d + net c r)).
Proof.
  induction fuel as [|n IH]; intros p d Hl Hd; cbn [count_run];
    (destruct (Z.ltb_spec (Z.of_nat p) (Z.of_nat E)) as [Hp|Hp];
     [|rewrite seg_end by lia; cbn; rewrite Nat.add_0_r, Z.add_0_r, u64_small by done; done]);
    (destruct (seg_cons p) as (t & Ht & Hnz & Es); [lia|]); rewrite Es in *; [simpl in Hl; lia|].
  rewrite (char_at_lookup str p t Ht). bind. rewrite (proj2 (Z.eqb_neq _ _) Hnz). cbn [negb andb take_run].
  destruct (member t); cbn [length net].
  - replace (Z.of_nat p + 1) with (Z.of_nat (S p)) by lia.
    rewrite IH by (simpl in Hl; try lia; apply u64_range). cbv zeta. f_equal. f_equal; [lia|].
    rewrite u64_add_l. f_equal. destruct (t =? c); lia.
  - rewrite Nat.add_0_r, Z.add_0_r, u64_small by done. done.
Qed.
End Text.

Lemma take_run_length member s : (length (take_run member s) <= length s)%nat.
Proof. induction s as [|t s IH]; simpl; [lia|]. destruct (member t); simpl; lia. Qed.

Lemma pparse_rest fuel : forall s, (length (pparse fuel s).2 <= length s)%nat.
Proof.
  induction fuel as [|n IH]; intros s; cbn [pparse]; [simpl; lia|]. destruct s as [|c s]; [done|].
  destruct (run_class c) as [member|].
  - cbv zeta. destruct (pparse n _) as [k rest] eqn:E. simpl.
    pose proof (IH (drop (length (take_run member s)) s)) as H. rewrite E in H. simpl in H.
    rewrite length_drop in H. lia.
  - destruct (c =? LOOP_START).
    + pose proof (IH s) as H1. destruct (pparse n s) as [b s1]. pose proof (IH s1) as H2.
      destruct (pparse n s1) as [k s2]. simpl in *. lia.
    + destruct (c =? LOOP_END); simpl; [lia|]. pose proof (IH s). lia.
Qed.

Lemma run_class_op c member : run_class c = Some member -> is_op c = true.
Proof.
  unfold run_class, is_op. intros H.
  destruct (c =? PLUS), (c =? MINUS), (c =? NEXT), (c =? PREVIOUS), (c =? OUTPUT), (c =? INPUT); done.
Qed.

(** ** What a parse leaves in the heap *)

(** From node [i] of [h] on, [h'] holds the program [g] in objects of its own. *)
Definition built (h h' : iheap) (i : nat) (g : prog) : Prop :=
  exists l, rep h' (Some i) (i :: l) g /\ prog_ok g /\ NoDup (i :: l) /\
    (forall j, j ∈ l -> (length h <= j)%nat) /\ (length h <= length h')%nat /\
    (forall j, (j < length h)%nat -> j <> i -> h' !! j = h !! j).

Lemma rep_lt h g : forall p l, rep h p l g -> forall j, j ∈ l -> (j < length h)%nat.
Proof.
  induction g as [|t d k IH|b IHb k IHk]; intros p l; cbn [rep].
  - intros (i & nd & -> & -> & Hi & _) j ->%list_elem_of_singleton. by eapply lookup_lt_Some.
  - intros (i & nd & l' & -> & -> & Hi & _ & _ & _ & _ & Hk) j [->|Hj]%elem_of_cons;
      [by eapply lookup_lt_Some|by eapply IH].
  - intros (i & nd & lb & lk & -> & -> & Hi & _ & _ & Hb & Hk) j [->|[Hj|Hj]%elem_of_app]%elem_of_cons;
      [by eapply lookup_lt_Some|by eapply IHb|by eapply IHk].
Qed.

Lemma built_end h i d pv nd : h !! i = Some nd ->
  built h (<[i := Some (MkI d LOOP_END None pv None)]> h) i PEnd.
Proof.
  intros Hi. pose proof (lookup_lt_Some _ _ _ Hi). exists []. split_and!; try done.
  - eexists i, _. rewrite list_lookup_insert_eq by done. done.
  - apply NoDup_singleton.
  - intros j Hj. set_solver.
  - by rewrite length_insert.
  - intros j Hj Hne. by rewrite list_lookup_insert_ne.
Qed.

Lemma built_op h h' i t d pv new k : (i < length h)%nat -> is_op t = true -> 0 <= d < 2 ^ 64 ->
  built (<[i := Some (MkI d t (Some (length h)) pv None)]> h ++ [Some new]) h' (length h) k ->
  built h h' i (POp t d k).
Proof.
  intros Hi Ht Hd (l & Hr & Hok & Hnd & Hnew & Hlen & Hk). rewrite length_app, length_insert in *. simpl in *.
  exists (length h :: l). split_and!; try done.
  - exists i, (MkI d t (Some (length h)) pv None), (length h :: l). split_and!; try done.
    + rewrite Hk by lia. rewrite lookup_app_l by by rewrite length_insert.
      by rewrite list_lookup_insert_eq.
    + intros [->|Hin]%elem_of_cons; [lia|]. specialize (Hnew i Hin). lia.
  - apply NoDup_cons. split; [|done]. intros [->|Hin]%elem_of_cons; [lia|]. specialize (Hnew i Hin). lia.
  - intros j [->|Hin]%elem_of_cons; [lia|]. specialize (Hnew j Hin). lia.
  - lia.
  - intros j Hj Hne. rewrite Hk by lia. rewrite lookup_app_l by by rewrite length_insert.
    by rewrite list_lookup_insert_ne.
Qed.

Lemma built_loop h h2 h3 h' i d pv new b k : (i < length h)%nat -> length h2 = S (length h) ->
  (forall j, (j < length h)%nat -> j <> i -> h2 !! j = h !! j) -> built h2 h3 (length h) b ->
  built (<[i := Some (MkI d LOOP_START (Some (length h3)) pv (Some (length h)))]> h3 ++ [Some new]) h' (length h3) k ->
  built h h' i (PLoop b k).
Proof.
  intros Hi Hl2 Hk2 (lb & Hrb & Hokb & Hndb & Hnewb & Hlenb & Hkb) (lk & Hr & Hok & Hnd & Hnew & Hlen & Hk).
  rewrite length_app, length_insert in *. simpl in *. pose proof (rep_lt _ _ _ _ Hrb) as Hltb.
  assert (Hb : forall j, j ∈ length h :: lb -> (length h <= j < length h3)%nat).
  { intros j Hj. split; [|by apply Hltb]. apply elem_of_cons in Hj as [->|Hj]; [done|]. specialize (Hnewb j Hj). lia. }
  assert (Hkk : forall j, j ∈ length h3 :: lk -> (length h3 <= j)%nat).
  { intros j [->|Hj]%elem_of_cons; [done|]. specialize (Hnew j Hj). lia. }
  assert (Hnodup : NoDup (i :: (length h :: lb) ++ length h3 :: lk)).
  { apply NoDup_cons. split.
    - intros [Hin|Hin]%elem_of_app; [specialize (Hb i Hin)|specialize (Hkk i Hin)]; lia.
    - apply NoDup_app. split_and!; try done. intros j Hj Hj'. specialize (Hb j Hj). specialize (Hkk j Hj'). lia. }
  exists ((length h :: lb) ++ length h3 :: lk). split_and!; try done.
  - exists i, (MkI d LOOP_START (Some (length h3)) pv (Some (length h))), (length h :: lb), (length h3 :: lk).
    split_and!; try done.
    + rewrite Hk by lia. rewrite lookup_app_l by (rewrite length_insert; lia).
      by rewrite list_lookup_insert_eq by lia.
    + cbn [loop]. eapply rep_frame; [done|]. intros j Hj. specialize (Hb j Hj).
      rewrite Hk by lia. rewrite lookup_app_l by (rewrite length_insert; lia).
      by rewrite list_lookup_insert_ne by lia.
  - intros j [Hin|Hin]%elem_of_app; [specialize (Hb j Hin)|specialize (Hkk j Hin)]; lia.
  - lia.
  - intros j Hj Hne. rewrite Hk by lia. rewrite lookup_app_l by (rewrite length_insert; lia).
    rewrite list_lookup_insert_ne by done. rewrite Hkb by lia. by apply Hk2.
Qed.

(** Name the heap a recursive call starts from. *)
Ltac name_heap x :=
  match goal with |- context [parse_loop _ _ ?h _ _ _ _ _] => set (x := h) end.

(** ** The string parser builds the program of the text *)

Section ParseSpec.
Context (junk : INode) (str : list Z) (Hstr : Forall (fun c => c <> 0) str).
Context (E : nat) (HE : (E <= length str)%nat).

Local Abbreviation seg := (seg str E).

(** The node [i] is fresh: nothing follows it yet. *)
Definition open_node (h : iheap) (i : nat) : Prop :=
  exists nd, h !! i = Some (Some nd) /\ next nd = None /\ loop nd = None.

Lemma parse_loop_spec fuel : forall h p root i, (length (seg p) < fuel)%nat -> open_node h i ->
  exists h' q, parse_loop junk fuel h str (Z.of_nat p) (Z.of_nat E) root (Some i) =
    Ret (h', Z.of_nat q, root) /\
    built h h' i (pparse fuel (seg p)).1 /\ seg (S q) = (pparse fuel (seg p)).2.
Proof.
  induction fuel as [|n IH]; intros h p root i Hlen (nd & Hi & Hn & Hlp); [lia|].
  pose proof (lookup_lt_Some _ _ _ Hi) as Hlt. cbn [parse_loop].
  destruct (Z.ltb_spec (Z.of_nat p) (Z.of_nat E)) as [Hp|Hp].
  2: { rewrite (set_type_ret _ _ _ Hi), (seg_end str E HE p) by lia. bind. rewrite Hn, Hlp.
       eexists _, p. split; [done|]. split; [by eapply built_end|]. apply seg_end; lia. }
  destruct (seg_cons str Hstr E HE p) as (c & Hc & Hnz & Es); [lia|]. rewrite Es in *.
  rewrite (char_at_lookup str p c Hc). bind. rewrite (proj2 (Z.eqb_neq _ _) Hnz).
  rewrite (set_type_ret _ _ _ Hi). bind.
  erewrite set_difference_ret by by rewrite list_lookup_insert_eq. bind. rewrite list_insert_insert_eq.
  cbn [difference type next previous loop pparse]. rewrite Hn, Hlp.
  replace (Z.of_nat p + 1) with (Z.of_nat (S p)) by lia. simpl in Hlen.
  destruct (run_class c) as [member|] eqn:Ec.
  - assert (length (seg (S p)) <= length str)%nat by (rewrite seg_length by lia; lia).
    rewrite (count_run_spec str Hstr E HE member c (length str) (S p) 1) by (done || lia). bind.
    set (r := take_run member (seg (S p))) in *.
    erewrite set_difference_ret by by rewrite list_lookup_insert_eq. bind. rewrite list_insert_insert_eq.
    erewrite new_next_ret by by rewrite list_lookup_insert_eq. bind. rewrite list_insert_insert_eq.
    cbn [difference type next previous loop]. rewrite length_insert.
    replace (Z.of_nat (S p + length r) - 1 + 1) with (Z.of_nat (S p + length r)) by lia.
    rewrite seg_drop.
    assert (length (seg (S p + length r)) < n)%nat as Hlen'.
    { rewrite <-seg_drop, length_drop. lia. }
    name_heap h2.
    destruct (IH h2 (S p + length r)%nat root (length h) Hlen') as (h' & q & -> & Hb & Hq).
    { exists (MkI (difference junk) (type junk) None (Some i) None). split; [|done].
      unfold h2. rewrite lookup_app_r by (rewrite length_insert; lia).
      by rewrite length_insert, Nat.sub_diag. }
    exists h', q. split; [done|]. destruct (pparse n _) as [k rest]. simpl in *. split; [|done].
    eapply built_op; [done|by eapply run_class_op|apply u64_range|done].
  - destruct (Z.eqb_spec c LOOP_START) as [->|Hc1].
    + rewrite new_root_ret. bind. rewrite length_insert.
      set (h2 := <[i := _]> h ++ _).
      assert (length h2 = S (length h)) as Hl2 by (unfold h2; rewrite length_app, length_insert; simpl; lia).
      assert (Hh2i : h2 !! i = Some (Some (MkI 1 LOOP_START None (previous nd) None))).
      { unfold h2. rewrite lookup_app_l by by rewrite length_insert. by rewrite list_lookup_insert_eq. }
      destruct (IH h2 (S p) (Some (length h)) (length h)) as (h3 & q1 & -> & Hb1 & Hq1); [lia| |].
      { exists (MkI (difference junk) (type junk) None None None). split; [|done].
        unfold h2. rewrite lookup_app_r by (rewrite length_insert; lia).
        by rewrite length_insert, Nat.sub_diag. }
      bind. pose proof (pparse_rest n (seg (S p))) as Hrest.
      destruct (pparse n (seg (S p))) as [b s1]. cbn [fst snd] in *.
      assert (Hh3i : h3 !! i = Some (Some (MkI 1 LOOP_START None (previous nd) None))).
      { destruct Hb1 as (_ & _ & _ & _ & _ & _ & Hk). rewrite Hk by lia. exact Hh2i. }
      rewrite (set_loop_ret _ _ _ Hh3i). bind.
      erewrite new_next_ret by by (rewrite list_lookup_insert_eq; [done|eapply lookup_lt_Some, Hh3i]). bind.
      rewrite list_insert_insert_eq. cbn [difference type next previous loop]. rewrite length_insert.
      replace (Z.of_nat q1 + 1) with (Z.of_nat (S q1)) by lia. rewrite <-Hq1 in *.
      name_heap h5.
      destruct (IH h5 (S q1) root (length h3)) as (h' & q & -> & Hb & Hq); [lia| |].
      { exists (MkI (difference junk) (type junk) None (Some i) None). split; [|done].
        unfold h5. rewrite lookup_app_r by (rewrite length_insert; lia).
        by rewrite length_insert, Nat.sub_diag. }
      exists h', q. split; [done|]. destruct (pparse n (seg (S q1))) as [k s2]. cbn [fst snd] in *.
      split; [|done]. eapply built_loop; [done|done| |done|done].
      intros j Hj Hne. unfold h2. rewrite lookup_app_l by by rewrite length_insert.
      by rewrite list_lookup_insert_ne.
    + destruct (Z.eqb_spec c LOOP_END) as [->|Hc2].
      * eexists _, p. split; [done|]. split; [by eapply built_end|done].
      * destruct (IH (<[i := Some (MkI 1 c None (previous nd) None)]> h) (S p) root i)
          as (h' & q & -> & Hb & Hq); [lia| |].
        { eexists. rewrite list_lookup_insert_eq by done. done. }
        exists h', q. split; [done|]. split; [|done].
        destruct Hb as (l & Hr & Hok & Hnd & Hnew & Hle & Hk). rewrite length_insert in *.
        exists l. split_and!; try done. intros j Hj Hne. rewrite Hk by done.
        by rewrite list_lookup_insert_ne.
Qed.
End ParseSpec.

Lemma parse_string_spec junk h str : Forall (fun c => c <> 0) str ->
  exists h', brainfuck_parse_string junk h str = Ret (h', Some (length h)) /\
    built (h ++ [None]) h' (length h) (program str).
Proof.
  intros Hstr. unfold brainfuck_parse_string, brainfuck_parse_substring, brainfuck_parse_substring_incremental.
  rewrite new_root_ret. bind. cbn [Z.ltb Z.compare].
  destruct (parse_loop_spec junk str Hstr (length str) ltac:(lia) (S (length str))
    (h ++ [Some (MkI (difference junk) (type junk) None None None)]) 0 (Some (length h)) (length h))
    as (h' & q & E & Hb & _).
  { rewrite seg_length by lia. lia. }
  { eexists. rewrite last_lookup. done. }
  change (Z.of_nat 0) with 0 in E. rewrite E. bind. exists h'. split; [done|].
  replace (seg str (length str) 0) with str in Hb by (unfold seg; by rewrite take_ge by lia).
  destruct Hb as (l & Hr & Hok & Hnd & Hnew & Hle & Hk). rewrite length_app in *.
  exists l. split_and!; try done; rewrite length_app; try done. intros j Hj Hne. rewrite Hk by done.
  simpl in Hj. by rewrite !lookup_app_l by lia.
Qed.

(** ** The stream parser builds the same program *)

Lemma schar_mod b : byte b -> schar b mod 256 = b.
Proof. unfold schar, byte. intros Hb. case_ifs; Z.to_euclidean_division_equations; lia. Qed.

(** No byte is mistaken for the end of the file. *)
Definition stream_text (s : list Z) : Prop := Forall (fun b => byte b /\ b <> 255) s.

Lemma schar_not_eof b : byte b /\ b <> 255 -> (schar b =? -1) = false.
Proof. unfold schar, byte. intros Hb. apply Z.eqb_neq. case_ifs; lia. Qed.

Lemma stream_run_spec until member c fuel : member (-1) = false -> member until = false -> forall s d, stream_text s ->
  (length s < fuel)%nat -> 0 <= d < 2 ^ 64 ->
  stream_run fuel s until member c d =
  let r := take_run member (map schar s) in Ret (drop (length r) s, u64 (d + net c r)).
Proof.
  intros Hm Hu. induction fuel as [|n IH]; intros s d Hs Hl Hd; [lia|]. cbn [stream_run].
  destruct s as [|b s]; cbn [fgetc map take_run].
  - rewrite Hm, andb_false_r. simpl. by rewrite Z.add_0_r, u64_small.
  - apply Forall_cons in Hs as [Hb Hs]. destruct (member (schar b)) eqn:Em; cbn [length net].
    + rewrite (proj2 (Z.eqb_neq (schar b) until)) by congruence. cbn [negb andb].
      rewrite IH by (simpl in Hl; try lia; try done; apply u64_range). cbv zeta. cbn [drop]. f_equal. f_equal.
      rewrite u64_add_l. f_equal. destruct (schar b =? c); lia.
    + rewrite andb_false_r. unfold ungetc. rewrite (schar_not_eof b Hb), schar_mod by apply Hb.
      by rewrite Z.add_0_r, u64_small.
Qed.

Lemma run_class_eof c member : run_class c = Some member -> c <> -1 -> member (-1) = false.
Proof.
  unfold run_class. intros H Hc. case_ifs; simplify_eq; try done. apply Z.eqb_neq. lia.
Qed.

Lemma stream_next_ret junk h i nd : h !! i = Some (Some nd) -> stream_next junk h (Some i) =
  Ret (<[i := Some (MkI (difference nd) (type nd) (Some (length h)) (previous nd) (loop nd))]> h ++
       [Some (MkI (difference junk) (type junk) None (previous junk) None)], Some (length h)).
Proof.
  intros Hi. pose proof (lookup_lt_Some _ _ _ Hi). unfold stream_next, malloc.
  rewrite (set_next_ret _ _ nd) by by rewrite lookup_app_l. bind. rewrite insert_app_l by done.
  set (h1 := <[i := _]> h). assert (length h1 = length h) as Hl by apply length_insert. rewrite <-Hl.
  erewrite set_next_ret by apply last_lookup. bind. rewrite last_insert.
  erewrite set_loop_ret by apply last_lookup. bind. by rewrite last_insert.
Qed.

Lemma stream_node_ret junk h : stream_node junk h =
  Ret (h ++ [Some (MkI (difference junk) (type junk) None (previous junk) None)], Some (length h)).
Proof.
  unfold stream_node, malloc.
  rewrite (set_next_ret _ _ junk) by apply last_lookup. bind. rewrite last_insert.
  erewrite set_loop_ret by apply last_lookup. bind. by rewrite last_insert.
Qed.

Ltac name_stream_heap x :=
  match goal with |- context [stream_loop _ _ ?h _ _ _ _] => set (x := h) end.

Lemma open_new (h : iheap) i x nd : length h = i -> next nd = None -> loop nd = None ->
  x = h ++ [Some nd] -> open_node x i.
Proof. intros <- Hn Hl ->. exists nd. by rewrite last_lookup. Qed.

(** The program at the beginning of a stream, up to [until], and the bytes after it; [None]
    if the end of the stream comes first, where the parser never returns. *)
Fixpoint sparse (until : Z) (fuel : nat) (s : list Z) : option (prog * list Z) :=
  match s with
  | [] => if until =? -1 then Some (PEnd, []) else None
  | b :: s' =>
    let c := schar b in
    if c =? until then Some (PEnd, s')
    else match fuel with
    | O => None
    | S n =>
      match run_class c with
      | Some member =>
        let r := take_run member (map schar s') in
        '(k, rest) ← sparse until n (drop (length r) s');
        Some (POp c (u64 (1 + net c r)) k, rest)
      | None =>
        if c =? LOOP_START then
          '(b, s1) ← sparse until n s';
          '(k, s2) ← sparse until n s1; Some (PLoop b k, s2)
        else if c =? LOOP_END then Some (PEnd, s')
        else sparse until n s'
      end
    end
  end.

Lemma sparse_suffix until n : forall s g rest, sparse until n s = Some (g, rest) -> rest `suffix_of` s.
Proof.
  induction n as [|n IH]; intros [|b s] g rest; cbn [sparse]; try (destruct (until =? -1); [|done]; by intros [= _ <-]);
    (destruct (schar b =? until); [intros [= _ <-]; apply suffix_cons_r; done|]); [done|].
  destruct (run_class (schar b)) as [member|].
  { destruct (sparse until n _) as [[k r]|] eqn:E; intros [= _ <-]. apply IH in E. apply suffix_cons_r. etrans; [exact E|]. apply suffix_drop. }
  destruct (schar b =? LOOP_START); [|destruct (schar b =? LOOP_END); [intros [= _ <-]; by apply suffix_cons_r|intros E; apply suffix_cons_r; by eapply IH]].
  destruct (sparse until n s) as [[bd s1]|] eqn:E1; [|done]. cbn. destruct (sparse until n s1) as [[k s2]|] eqn:E2; intros [= _ <-].
  apply suffix_cons_r. etrans; [by eapply IH|by eapply IH].
Qed.

Lemma text_suffix rest s : rest `suffix_of` s -> stream_text s -> stream_text rest.
Proof. intros [l ->] H. by apply Forall_app in H as [_ H]. Qed.

Lemma run_class_newline c member : run_class c = Some member -> c <> 10 -> member 10 = false.
Proof. unfold run_class. intros H Hc. case_ifs; simplify_eq; try done. apply Z.eqb_neq. lia. Qed.

(** The type and the count of a node that is being read. *)
Lemma stream_typed h i nd c d : h !! i = Some (Some nd) ->
  (h ← set_type h (Some i) c; set_difference h (Some i) d) = Ret (<[i := Some (MkI d c (next nd) (previous nd) (loop nd))]> h).
Proof.
  intros Hi. rewrite (set_type_ret _ _ _ Hi). bind. erewrite set_difference_ret by by rewrite list_lookup_insert_eq by by eapply lookup_lt_Some.
  by rewrite list_insert_insert_eq.
Qed.

Lemma stream_loop_sparse junk until fuel : until = -1 \/ until = 10 -> forall h s root i, stream_text s -> open_node h i ->
  match sparse until fuel s with
  | Some (g, rest) => exists h', stream_loop junk fuel h s until root (Some i) = Ret (h', rest, root) /\ built h h' i g
  | None => stream_loop junk fuel h s until root (Some i) = Fuel
  end.
Proof.
  intros Hu. induction fuel as [|n IH]; intros h s root i Hs (nd & Hi & Hn & Hlp); pose proof (lookup_lt_Some _ _ _ Hi) as Hlt; cbn [stream_loop sparse].
  all: assert (Hend : exists h', (h ← set_type h (Some i) LOOP_END; Ret (h, drop 1 s, root)) = Ret (h', drop 1 s, root) /\ built h h' i PEnd)
    by (rewrite (set_type_ret _ _ _ Hi); bind; rewrite Hn, Hlp; eexists; split; [done|by eapply built_end]).
  - destruct s as [|b s]; cbn [fgetc drop] in *; [destruct Hu as [->| ->]; [exact Hend|done]|]. destruct (schar b =? until); [exact Hend|done].
  - destruct s as [|b s]; cbn [fgetc drop] in *.
    { destruct Hu as [->| ->]; [exact Hend|]. cbn [Z.eqb]. rewrite (bind_seq _ _ _ _ (stream_typed h i nd (-1) 1 Hi)). 
      specialize (IH (<[i := Some (MkI 1 (-1) (next nd) (previous nd) (loop nd))]> h) [] root i Hs). destruct n; apply IH; eexists; by rewrite list_lookup_insert_eq. }
    destruct (Z.eqb_spec (schar b) until) as [|Hcu]; [exact Hend|]. apply Forall_cons in Hs as [Hb Hs]. set (c := schar b) in *.
    rewrite (bind_seq _ _ _ _ (stream_typed h i nd c 1 Hi)). rewrite Hn, Hlp.
    destruct (run_class c) as [member|] eqn:Ec.
    + assert (c <> -1) as Hc1 by (apply Z.eqb_neq, schar_not_eof; done). pose proof (run_class_eof _ _ Ec Hc1) as Hm1.
      assert (member until = false) as Hmu by (destruct Hu as [->| ->]; [done|by eapply run_class_newline]).
      rewrite (stream_run_spec until member c (S (length s)) Hm1 Hmu s 1) by (done || lia). bind. set (r := take_run member (map schar s)).
      erewrite set_difference_ret by by rewrite list_lookup_insert_eq. bind. rewrite list_insert_insert_eq.
      erewrite stream_next_ret by by rewrite list_lookup_insert_eq. bind. rewrite list_insert_insert_eq.
      cbn [difference type next previous loop]. rewrite length_insert. name_stream_heap h2.
      specialize (IH h2 (drop (length r) s) root (length h)). destruct (sparse until n _) as [[k rest]|]; [|apply IH; [by apply Forall_drop|]; eapply open_new; [apply length_insert| | |reflexivity]; done].
      destruct IH as (h' & -> & Hbu); [by apply Forall_drop|eapply open_new; [apply length_insert| | |reflexivity]; done|].
      cbn. exists h'. split; [done|]. eapply built_op; [done|by eapply run_class_op|apply u64_range|done].
    + destruct (Z.eqb_spec c LOOP_START) as [Hc1|Hc1].
      * rewrite stream_node_ret. bind. rewrite length_insert. name_stream_heap h2.
        assert (length h2 = S (length h)) as Hl2 by (unfold h2; rewrite length_app, length_insert; simpl; lia).
        assert (Hh2i : h2 !! i = Some (Some (MkI 1 c None (previous nd) None))).
        { unfold h2. rewrite lookup_app_l by by rewrite length_insert. by rewrite list_lookup_insert_eq. }
        pose proof (IH h2 s (Some (length h)) (length h) Hs ltac:(eapply open_new; [apply length_insert| | |reflexivity]; done)) as IH1.
        destruct (sparse until n s) as [[bd s1]|] eqn:E1; [|by rewrite IH1]. destruct IH1 as (h3 & -> & Hb1). bind.
        assert (Hh3i : h3 !! i = Some (Some (MkI 1 c None (previous nd) None))).
        { destruct Hb1 as (_ & _ & _ & _ & _ & _ & Hk). rewrite Hk by lia. exact Hh2i. }
        rewrite (set_loop_ret _ _ _ Hh3i). bind.
        erewrite stream_next_ret by by (rewrite list_lookup_insert_eq; [done|eapply lookup_lt_Some, Hh3i]). bind.
        rewrite list_insert_insert_eq. cbn [difference type next previous loop]. rewrite length_insert. name_stream_heap h5.
        pose proof (IH h5 s1 root (length h3) (text_suffix _ _ (sparse_suffix _ _ _ _ _ E1) Hs) ltac:(eapply open_new; [apply length_insert| | |reflexivity]; done)) as IH2.
        cbn. destruct (sparse until n s1) as [[k s2]|]; [|exact IH2]. destruct IH2 as (h' & -> & Hbu). exists h'. split; [done|].
        unfold h5 in Hbu. rewrite Hc1 in Hbu. eapply built_loop; [done|done| |done|done].
        intros j Hj Hne. unfold h2. rewrite lookup_app_l by by rewrite length_insert. by rewrite list_lookup_insert_ne.
      * destruct (Z.eqb_spec c LOOP_END) as [Hc2|Hc2].
        -- rewrite Hc2. eexists. split; [done|]. by eapply built_end.
        -- specialize (IH (<[i := Some (MkI 1 c None (previous nd) None)]> h) s root i Hs). destruct (sparse until n s) as [[g rest]|]; [|apply IH; eexists; by rewrite list_lookup_insert_eq].
           destruct IH as (h' & -> & Hbu); [eexists; by rewrite list_lookup_insert_eq|]. exists h'. split; [done|].
           destruct Hbu as (l & Hr & Hok & Hnd & Hnew & Hle & Hk). rewrite length_insert in *. exists l. split_and!; try done. intros j Hj Hne. rewrite Hk by done. by rewrite list_lookup_insert_ne.
Qed.

(** A whole file is the program of its text. *)
Lemma sparse_file fuel : forall s, stream_text s -> (length s < fuel)%nat ->
  exists rest, sparse (-1) fuel s = Some ((pparse fuel (map schar s)).1, rest) /\ map schar rest = (pparse fuel (map schar s)).2.
Proof.
  induction fuel as [|n IH]; intros s Hs Hl; [lia|]. destruct s as [|b s]; cbn [sparse map pparse]; [by exists []|]. apply Forall_cons in Hs as [Hb Hs]. cbn [length] in Hl.
  rewrite (schar_not_eof b Hb). destruct (run_class (schar b)) as [member|].
  - set (r := take_run member (map schar s)). destruct (IH (drop (length r) s)) as (rest & E & Hr); [by apply Forall_drop|rewrite length_drop; lia|].
    rewrite E. cbn. rewrite <-skipn_map in Hr |- *. exists rest. by destruct (pparse n (drop (length r) (map schar s))) as [k rest'].
  - destruct (schar b =? LOOP_START).
    + destruct (IH s Hs ltac:(lia)) as (s1 & E1 & Hr1). rewrite E1. cbn. pose proof (sparse_suffix _ _ _ _ _ E1) as Hsuf. destruct (pparse n (map schar s)) as [bd r1]. cbn [fst snd] in *. subst r1.
      destruct (IH s1) as (s2 & E2 & Hr2); [by eapply text_suffix|apply suffix_length in Hsuf; lia|]. rewrite E2. exists s2. by destruct (pparse n (map schar s1)).
    + destruct (schar b =? LOOP_END); [by exists s|]. apply IH; [done|lia].
Qed.

Lemma stream_loop_spec junk fuel h s root i : stream_text s -> (length s < fuel)%nat -> open_node h i ->
  exists h' s', stream_loop junk fuel h s (-1) root (Some i) = Ret (h', s', root) /\
    built h h' i (pparse fuel (map schar s)).1 /\ stream_text s' /\
    map schar s' = (pparse fuel (map schar s)).2.
Proof.
  intros Hs Hl Ho. pose proof (stream_loop_sparse junk (-1) fuel (or_introl eq_refl) h s root i Hs Ho) as H.
  destruct (sparse_file fuel s Hs Hl) as (rest & E & Hr). rewrite E in H. destruct H as (h' & Eh & Hb). exists h', rest. split_and!; [done..| |done].
  eapply text_suffix; [by eapply sparse_suffix|done].
Qed.

(** ** Lists of nodes *)

(** [last_of] finds the end of a program's list. *)
Lemma last_of_rep h g : forall p l fuel, rep h p l g -> (length l <= S fuel)%nat ->
  exists j nd, last_of fuel h p = Ret (Some j) /\ j ∈ l /\ h !! j = Some (Some nd) /\ next nd = None.
Proof.
  induction g as [|t d k IH|b IHb k IHk]; intros p l fuel; cbn [rep].
  - intros (i & nd & -> & -> & Hi & _ & Hn & _) _. exists i, nd.
    destruct fuel; cbn [last_of]; rewrite (get_lookup _ _ _ Hi); bind; rewrite Hn;
      split_and!; try done; set_solver.
  - intros (i & nd & l' & -> & -> & Hi & _ & _ & _ & _ & Hk) Hl. simpl in Hl.
    assert (Hne : exists q, next nd = Some q /\ (1 <= length l')%nat).
    { destruct k; cbn [rep] in Hk; destruct Hk as (q & ? & Hk); exists q.
      - destruct Hk as (-> & -> & _). simpl. auto.
      - destruct Hk as (? & -> & -> & _). simpl. split; [done|lia].
      - destruct Hk as (? & ? & -> & -> & _). simpl. split; [done|lia]. }
    destruct Hne as (q & Hq & Hl1). destruct fuel as [|n]; [lia|]. cbn [last_of].
    rewrite (get_lookup _ _ _ Hi). bind. rewrite Hq.
    destruct (IH _ _ n Hk) as (j & x & E & ? & ? & ?); [lia|]. rewrite Hq in E.
    exists j, x. split_and!; try done. set_solver.
  - intros (i & nd & lb & lk & -> & -> & Hi & _ & _ & _ & Hk) Hl. simpl in Hl. rewrite length_app in Hl.
    assert (Hne : exists q, next nd = Some q /\ (1 <= length lk)%nat).
    { destruct k; cbn [rep] in Hk; destruct Hk as (q & ? & Hk); exists q.
      - destruct Hk as (-> & -> & _). simpl. auto.
      - destruct Hk as (? & -> & -> & _). simpl. split; [done|lia].
      - destruct Hk as (? & ? & -> & -> & _). simpl. split; [done|lia]. }
    destruct Hne as (q & Hq & Hl1). destruct fuel as [|n]; [lia|]. cbn [last_of].
    rewrite (get_lookup _ _ _ Hi). bind. rewrite Hq.
    destruct (IHk _ _ n Hk) as (j & x & E & ? & ? & ?); [lia|]. rewrite Hq in E.
    exists j, x. split_and!; try done. set_solver.
Qed.

(** Adding a program to an empty state makes it the state's list. *)
Lemma add_spec h i l g : rep h (Some i) (i :: l) g -> NoDup (i :: l) ->
  exists h' e, brainfuck_add h brainfuck_state (Some i) = Ret (h', BState (Some i) e, e) /\
    rep h' (Some i) (i :: l) g /\ length h' = length h /\ forall j, j <> i -> h' !! j = h !! j.
Proof.
  intros Hr Hnd. assert (exists nd, h !! i = Some (Some nd)) as [nd Hi].
  { destruct g; cbn [rep] in Hr; naive_solver. }
  unfold brainfuck_add, brainfuck_state. rewrite (set_previous_ret _ _ _ Hi). bind. cbn [head root]. bind.
  set (h1 := <[i := _]> h).
  assert (Hr1 : rep h1 (Some i) (i :: l) g).
  { eapply rep_frame'; [done|]. intros j x Hj Hx. destruct (decide (i = j)) as [->|Hne].
    - rewrite Hi in Hx. injection Hx as <-. eexists. unfold h1.
      rewrite list_lookup_insert_eq by by eapply lookup_lt_Some. done.
    - exists x. unfold h1. by rewrite list_lookup_insert_ne. }
  assert (length (i :: l) <= S (length h1))%nat as Hlen.
  { assert (length (i :: l) <= length (seq 0 (length h1)))%nat; [|rewrite length_seq in *; lia].
    apply NoDup_incl_length; [by apply NoDup_ListNoDup|]. intros j Hj%list_elem_of_In.
    apply in_seq. pose proof (rep_lt _ _ _ _ Hr1 j Hj). lia. }
  destruct (last_of_rep h1 g _ _ (length h1) Hr1 Hlen) as (e & x & -> & _). bind.
  exists h1, (Some e). split_and!; try done; [apply length_insert|].
  intros j Hne. unfold h1. by rewrite list_lookup_insert_ne.
Qed.

Lemma destroy_spec g : forall fuel h p l, rep h p l g -> NoDup l -> (length l <= fuel)%nat ->
  exists h', brainfuck_destroy_instructions fuel h p = Ret h' /\ length h' = length h /\
    (forall i, i ∈ l -> h' !! i = Some None) /\ (forall i, i ∉ l -> h' !! i = h !! i).
Proof.
  assert (Hnil : forall n h, brainfuck_destroy_instructions n h None = Ret h) by by intros [].
  induction g as [|t d k IH|b IHb k IHk]; intros fuel h p l; cbn [rep].
  - intros (i & nd & -> & -> & Hi & _ & Hn & Hl) _ Hf. destruct fuel as [|n]; [simpl in Hf; lia|].
    cbn [brainfuck_destroy_instructions]. rewrite (get_lookup _ _ _ Hi). bind. rewrite Hl, Hnil. bind.
    rewrite (get_lookup _ _ _ Hi). bind. unfold brainfuck_destroy_instruction. rewrite Hi. bind. rewrite Hn, Hnil.
    eexists. split; [done|]. rewrite length_insert. split_and!; [done|..].
    + intros j ->%list_elem_of_singleton. by rewrite list_lookup_insert_eq by by eapply lookup_lt_Some.
    + intros j Hj. rewrite list_lookup_insert_ne; [done|set_solver].
  - intros (i & nd & l' & -> & -> & Hi & Hni & _ & _ & Hl & Hk) Hnd Hf. simpl in Hf.
    destruct fuel as [|n]; [lia|]. apply NoDup_cons in Hnd as [_ Hnd].
    cbn [brainfuck_destroy_instructions]. rewrite (get_lookup _ _ _ Hi). bind. rewrite Hl, Hnil. bind.
    rewrite (get_lookup _ _ _ Hi). bind. unfold brainfuck_destroy_instruction at 1. rewrite Hi. bind.
    destruct (IH n (<[i := None]> h) (next nd) l') as (h' & -> & Hlen & Hfree & Hkeep); [|done|lia|].
    { eapply rep_frame; [done|]. intros j Hj. rewrite list_lookup_insert_ne; [done|set_solver]. }
    rewrite length_insert in Hlen. exists h'. split_and!; try done.
    + intros j [->|Hj]%elem_of_cons; [|by apply Hfree]. rewrite Hkeep by done.
      by rewrite list_lookup_insert_eq by by eapply lookup_lt_Some.
    + intros j Hj. rewrite Hkeep by set_solver. rewrite list_lookup_insert_ne; [done|set_solver].
  - intros (i & nd & lb & lk & -> & -> & Hi & _ & _ & Hb & Hk) Hnd Hf. simpl in Hf. rewrite length_app in Hf.
    destruct fuel as [|n]; [lia|]. apply NoDup_cons in Hnd as [Hni Hnd].
    apply NoDup_app in Hnd as (Hndb & Hdis & Hndk).
    cbn [brainfuck_destroy_instructions]. rewrite (get_lookup _ _ _ Hi). bind.
    destruct (IHb n h (loop nd) lb Hb Hndb) as (h1 & -> & Hlen1 & Hfree1 & Hkeep1); [lia|]. bind.
    assert (Hi1 : h1 !! i = Some (Some nd)) by (rewrite Hkeep1; [done|set_solver]).
    rewrite (get_lookup _ _ _ Hi1). bind. unfold brainfuck_destroy_instruction at 1. rewrite Hi1. bind.
    destruct (IHk n (<[i := None]> h1) (next nd) lk) as (h' & -> & Hlen & Hfree & Hkeep); [|done|lia|].
    { eapply rep_frame; [done|]. intros j Hj. rewrite list_lookup_insert_ne by set_solver.
      apply Hkeep1. intros Hjb. by apply (Hdis j). }
    rewrite length_insert in Hlen. exists h'. split_and!; [done|lia|..].
    + intros j [->|[Hj|Hj]%elem_of_app]%elem_of_cons.
      * rewrite Hkeep by set_solver. by rewrite list_lookup_insert_eq by by eapply lookup_lt_Some.
      * rewrite Hkeep by (intros ?; by apply (Hdis j)). rewrite list_lookup_insert_ne by set_solver.
        by apply Hfree1.
      * by apply Hfree.
    + intros j Hj. rewrite Hkeep by set_solver. rewrite list_lookup_insert_ne by set_solver.
      apply Hkeep1. set_solver.
Qed.
