(* ===== verification/BfRun.v ===== *)
(** Component: running Brainfuck texts (src/c-study/brainfuck/main.c on top of
    brainfuck.c).  Both entry points execute the program their text denotes and
    free it again; merging runs of tokens into one instruction is compared with
    executing the text one token at a time. *)
From S2P Require Import Prelude Arrays Bits Bf BfParse.

(** ** The entry points *)

(** The exit code and the context of a run. *)
Definition answer (o : outcome) : Z * Context :=
  match o with Exit code c => (code, c) | Done c => (EXIT_SUCCESS, c) end.

(** The part the two entry points share: add, execute, destroy. *)
Definition run_list (fuel : nat) (h : iheap) (ins : ptr) (c : Context) : res (Z * Context) :=
  '(h, st, _) ← brainfuck_add h brainfuck_state ins;
  o ← brainfuck_execute fuel h (root st) c;
  match o with
  | Exit code c => Ret (code, c)
  | Done c => h ← brainfuck_destroy_state h st; Ret (EXIT_SUCCESS, c)
  end.

Lemma nodup_length (h : iheap) (l : list nat) : NoDup l ->
  (forall j, j ∈ l -> (j < length h)%nat) -> (length l <= length h)%nat.
Proof.
  intros Hnd Hlt. rewrite <-(length_seq (length h) 0).
  apply NoDup_incl_length; [by apply NoDup_ListNoDup|]. intros j Hj%list_elem_of_In.
  apply in_seq. specialize (Hlt j Hj). lia.
Qed.

Lemma run_list_spec fuel h i l g c : rep h (Some i) (i :: l) g -> prog_ok g -> NoDup (i :: l) ->
  run_list fuel h (Some i) c = (o ← exec fuel g c; Ret (answer o)).
Proof.
  intros Hr Hok Hnd. unfold run_list.
  destruct (add_spec h i l g Hr Hnd) as (h1 & e & -> & Hr1 & _). bind. cbn [root].
  rewrite (execute_exec _ _ _ _ _ _ Hr1 Hok). destruct (exec fuel g c) as [[c1|]| |]; bind; try done.
  unfold brainfuck_destroy_state. cbn [root].
  destruct (destroy_spec g (length h1) h1 _ _ Hr1 Hnd) as (h2 & -> & _); [|done].
  apply nodup_length; [done|]. by eapply rep_lt.
Qed.

Lemma run_string_exec junk fuel cells code inp : Forall (fun c => c <> 0) code ->
  run_string junk fuel cells code inp =
  (o ← exec fuel (program code) (brainfuck_context TAPE_SIZE cells inp); Ret (answer o)).
Proof.
  intros Hc. unfold run_string. destruct (parse_string_spec junk [] code Hc) as (h & -> & l & Hr & Hok & Hnd & _).
  bind. by apply (run_list_spec fuel _ _ _ _ _ Hr Hok Hnd).
Qed.

Lemma run_file_exec junk fuel cells text inp : stream_text text ->
  run_file junk fuel cells (Some text) inp =
  (o ← exec fuel (program (map schar text)) (brainfuck_context TAPE_SIZE cells inp); Ret (answer o)).
Proof.
  intros Hs. unfold run_file, brainfuck_parse_stream, brainfuck_parse_stream_until.
  rewrite stream_node_ret. bind. cbn [length app].
  destruct (stream_loop_spec junk (S (length text))
    ([Some (MkI (difference junk) (type junk) None (previous junk) None)]) text (Some 0%nat) 0)
    as (h & s' & E & (l & Hr & Hok & Hnd & _) & _); [exact Hs|lia|by eexists|].
  cbn [length] in *. rewrite E. bind.
  replace (S (length text)) with (S (length (map schar text))) in * by by rewrite length_map.
  by apply (run_list_spec fuel _ _ _ _ _ Hr Hok Hnd).
Qed.


(** C37. Running a string is correct: [run_string] never touches memory outside the
    tape or the live instruction nodes (its nodes are freed once and not used
    after), what it returns is the outcome of the program the string denotes, and
    every outcome of the program is what it returns once it has run long enough. *)
Theorem run_string_correct junk cells code inp :
  Forall (fun c => c <> 0) code -> length cells = Z.to_nat TAPE_SIZE ->
  let c0 := brainfuck_context TAPE_SIZE cells inp in
  (forall fuel, run_string junk fuel cells code inp <> UB) /\
  (forall fuel r, run_string junk fuel cells code inp = Ret r ->
     exists o, sem (program code) c0 o /\ r = answer o) /\
  (forall o, sem (program code) c0 o -> exists fuel, run_string junk fuel cells code inp = Ret (answer o)).
Proof.
  intros Hc Hcells c0. assert (Hok : prog_ok (program code)).
  { destruct (parse_string_spec junk [] code Hc) as (h & _ & l & _ & Hok & _). exact Hok. }
  assert (Hc0 : ctx_ok c0) by (split_and!; unfold c0; simpl; rewrite ?Hcells; unfold TAPE_SIZE, INT_MAX; lia).
  split_and!; intros fuel; setoid_rewrite (run_string_exec _ _ _ _ _ Hc); fold c0.
  - intros E. pose proof (exec_safe fuel (program code) c0 Hok Hc0) as [Hu _].
    destruct (exec fuel (program code) c0); done.
  - intros r E. inv_res. eexists. split; [|done]. by eapply exec_sem; [|eexists].
  - intros Hs. apply exec_sem in Hs as [n Hn]; [|done]. exists n. by rewrite Hn.
Qed.

(** [,+.] on the input 65. *)
Lemma read_add_write x cells n : sem (program [44; 43; 46]) (Ctx (x :: cells) 0 n [65] [])
  (Done (Ctx (66 :: cells) 0 n [] [66])).
Proof. apply (exec_sound 10); [by vm_compute|reflexivity]. Qed.

Lemma run_string_correct_witness :
  let cells := repeat 0 (Z.to_nat (TAPE_SIZE - 1)) in
  exists fuel, run_string (MkI 0 0 None None None) fuel (0 :: cells) [44; 43; 46] [65] =
    Ret (EXIT_SUCCESS, Ctx (66 :: cells) 0 TAPE_SIZE [] [66]).
Proof.
  intros cells. assert (length (0 :: cells) = Z.to_nat TAPE_SIZE) as Hl.
  { unfold cells. rewrite length_cons, repeat_length. unfold TAPE_SIZE. lia. }
  apply (run_string_correct (MkI 0 0 None None None) (0 :: cells) [44; 43; 46] [65]
    ltac:(repeat constructor; done) Hl) with (o := Done (Ctx (66 :: cells) 0 TAPE_SIZE [] [66])).
  apply read_add_write.
Defined.

(** Running a file and running a string agree: on a stream whose bytes are
    neither NUL nor 0xFF, [run_file] returns what [run_string] returns on the same
    characters, step for step, although the two parsers read, push back and link
    their nodes differently. *)
Theorem run_file_run_string junk fuel cells text inp :
  Forall (fun b => byte b /\ b <> 0 /\ b <> 255) text ->
  run_file junk fuel cells (Some text) inp = run_string junk fuel cells (map schar text) inp.
Proof.
  intros Ht. rewrite run_file_exec, run_string_exec; [done|..].
  - apply Forall_map. eapply Forall_impl; [exact Ht|]. intros b ((H1 & H2) & H3 & H4). simpl.
    unfold schar. case_ifs; bool_to_prop; lia.
  - eapply Forall_impl; [exact Ht|]. intros b (H1 & H2 & H3). done.
Qed.

(** [+[-].] and a Latin-1 character. *)
Lemma run_file_run_string_witness :
  run_file (MkI 0 0 None None None) 20 [7; 0] (Some [43; 91; 45; 93; 46; 233]) [] =
  run_string (MkI 0 0 None None None) 20 [7; 0] [43; 91; 45; 93; 46; -23] [].
Proof.
  apply (run_file_run_string (MkI 0 0 None None None) 20 [7; 0] [43; 91; 45; 93; 46; 233] []).
  repeat constructor; done.
Defined.

(** ** Executing a text one token at a time *)

(** The program with one instruction for each token: [pparse] without the merging
    of runs. *)
Fixpoint uparse (fuel : nat) (s : list Z) : prog * list Z :=
  match fuel with
  | O => (PEnd, [])
  | S n =>
    match s with
    | [] => (PEnd, [])
    | c :: s' =>
      if is_op c then let '(k, rest) := uparse n s' in (POp c 1 k, rest)
      else if c =? LOOP_START then
        let '(b, s1) := uparse n s' in
        let '(k, s2) := uparse n s1 in (PLoop b k, s2)
      else if c =? LOOP_END then (PEnd, s')
      else uparse n s'
    end
  end.

Definition units (text : list Z) : prog := (uparse (S (length text)) text).1.

Lemma uparse_rest n : forall s, (length (uparse n s).2 <= length s)%nat.
Proof.
  induction n as [|n IH]; intros s; cbn [uparse]; [simpl; lia|]. destruct s as [|c s]; [done|].
  destruct (is_op c); [|destruct (c =? LOOP_START); [|destruct (c =? LOOP_END); simpl; [lia|]]].
  - pose proof (IH s). destruct (uparse n s) as [k rest]. simpl in *. lia.
  - pose proof (IH s) as H1. destruct (uparse n s) as [b s1]. pose proof (IH s1) as H2.
    destruct (uparse n s1) as [k s2]. simpl in *. lia.
  - pose proof (IH s). lia.
Qed.

(** Fuel above the length of the text does not matter. *)
Lemma uparse_fuel n : forall m s, (length s < n)%nat -> (length s < m)%nat -> uparse n s = uparse m s.
Proof.
  induction n as [|n IH]; intros [|m] s H1 H2; try lia. cbn [uparse]. destruct s as [|c s]; [done|].
  simpl in H1, H2. rewrite (IH m s) by lia. destruct (is_op c); [done|]. destruct (c =? LOOP_START); [|done].
  pose proof (uparse_rest m s). destruct (uparse m s) as [b s1]. simpl in *. by rewrite (IH m s1) by lia.
Qed.

(** A run of tokens, one instruction each. *)
Definition ops (r : list Z) (k : prog) : prog := foldr (fun t k => POp t 1 k) k r.

Lemma member_op c member t : run_class c = Some member -> member t = true -> is_op t = true.
Proof.
  unfold run_class, is_op. intros Hc Hm.
  destruct ((c =? PLUS) || (c =? MINUS)); [|destruct ((c =? NEXT) || (c =? PREVIOUS));
    [|destruct (c =? OUTPUT) eqn:E1; [|destruct (c =? INPUT) eqn:E2; [|done]]]]; simplify_eq/=.
  1,2: by apply orb_true_iff in Hm as [-> | ->]; rewrite ?orb_true_r.
  all: by apply Z.eqb_eq in Hm as ->; rewrite ?E1, ?E2, ?orb_true_r.
Qed.

(** The tokens of a run and of the text after it. *)
Lemma uparse_run c member s n : run_class c = Some member -> (length s < n)%nat ->
  let r := take_run member s in
  uparse n s = let '(k, rest) := uparse n (drop (length r) s) in (ops r k, rest).
Proof.
  intros Hc. revert n. induction s as [|t s IH]; intros n Hn; [by destruct n|]. cbn [take_run].
  destruct (member t) eqn:Hm; [|cbn [length drop ops foldr]; by destruct (uparse n (t :: s))].
  cbn [length drop ops foldr] in *.
  destruct n as [|n]; [lia|].
  assert (Ht : is_op t = true) by by eapply member_op.
  assert (E : uparse (S n) (t :: s) = let '(k, rest) := uparse n s in (POp t 1 k, rest))
    by (cbn [uparse]; by rewrite Ht).
  rewrite E, (IH n) by lia.
  rewrite (uparse_fuel (S n) n (drop _ _)) by (rewrite length_drop; lia). by destruct (uparse n (drop _ _)).
Qed.

(** *** The effect of a run *)

(** Unit instructions one after the other, when all of them succeed. *)
Fixpoint steps (r : list Z) (c : Context) : res Context :=
  match r with
  | [] => Ret c
  | t :: r' => o ← exec_simple t 1 c; match o with Some (Done c) => steps r' c | _ => UB end
  end.

Lemma ops_steps r k : forall c c', sem (ops r k) c (Done c') ->
  exists c1, steps r c = Ret c1 /\ sem k c1 (Done c').
Proof.
  induction r as [|t r IH]; intros c c' H; [by exists c|]. inversion H as [|? ? ? ? c2 ? E Hk| | | |]; subst.
  cbn [steps]. rewrite E. bind. by apply IH.
Qed.

Lemma net_opposite t u r : t <> u -> Forall (fun x => x = t \/ x = u) r -> net u r = - net t r.
Proof.
  intros Hne. induction 1 as [|x r [->| ->] _ IH]; cbn [net]; [done|..];
    rewrite IH, ?Z.eqb_refl, ?(proj2 (Z.eqb_neq _ _)) by done; lia.
Qed.

Lemma cell_set c v c1 : set_cell c v = Ret c1 ->
  cell c1 = Ret v /\ (forall w, set_cell c1 w = set_cell c w) /\ exists t, c1 = with_tape c t.
Proof.
  unfold set_cell, cell, aset, aget. destruct (tape_index c <? 0) eqn:Hi; [done|].
  destruct (Nat.ltb_spec (Z.to_nat (tape_index c)) (length (tape c))); [|done]. bind. intros [= <-].
  cbn [tape tape_index with_tape]. rewrite Hi, list_lookup_insert_eq, length_insert by done.
  split_and!; [done| |by eexists]. intros w. rewrite (proj2 (Nat.ltb_lt _ _)) by done. bind.
  unfold with_tape. cbn [tape_index tape_size stdin stdout]. by rewrite list_insert_insert_eq.
Qed.

Lemma u8_add_u8 x y : u8 (x + u8 y) = u8 (x + y).
Proof. apply Zplus_mod_idemp_r. Qed.
Lemma u8_u8_add x y : u8 (u8 x + y) = u8 (x + y).
Proof. apply Zplus_mod_idemp_l. Qed.
Lemma u8_sub_u8 x y : u8 (x - u8 y) = u8 (x - y).
Proof. apply Zminus_mod_idemp_r. Qed.
Lemma u8_u64 x : u8 (u64 x) = u8 x.
Proof.
  unfold u8, u64. change (2 ^ 64) with (2 ^ 8 * 2 ^ 56). rewrite Z.rem_mul_r by done.
  rewrite (Z.mul_comm (2 ^ 8)). by rewrite Z_mod_plus_full, Z.mod_mod.
Qed.

Definition arith (t : Z) : Prop := t = PLUS \/ t = MINUS.

Lemma arith_step t c : arith t -> exec_simple t 1 c =
  (v ← cell c; c ← set_cell c (u8 (v + (if t =? PLUS then 1 else -1))); Ret (Some (Done c))).
Proof. by intros [-> | ->]. Qed.

Lemma arith_steps r : Forall arith r -> forall c v0 c0, set_cell c0 (u8 v0) = Ret c ->
  forall c2, steps r c = Ret c2 -> set_cell c0 (u8 (v0 + net PLUS r)) = Ret c2.
Proof.
  induction 1 as [|t r Ht Hr IH]; intros c v0 c0 Hc0 c2; cbn [steps net].
  - intros [= <-]. by rewrite Z.add_0_r.
  - pose proof (cell_set _ _ _ Hc0) as (Hc & Hset & _). rewrite (arith_step t c Ht), Hc. bind.
    rewrite Hset, u8_u8_add. destruct (set_cell c0 (u8 (v0 + (if t =? PLUS then 1 else -1)))) as [c3| |] eqn:E0; bind; [|done..]. intros E.
    rewrite Z.add_assoc. exact (IH _ _ _ E0 _ E).
Qed.

Lemma arith_run t r c c1 : arith t -> Forall arith r -> steps (t :: r) c = Ret c1 ->
  exec_simple t (u64 (1 + net t r)) c = Ret (Some (Done c1)).
Proof.
  intros Ht Hr. cbn [steps]. rewrite (arith_step t c Ht). destruct (cell c) as [v| |] eqn:Ev; bind; [|done..].
  destruct (set_cell c _) as [c3| |] eqn:E0; bind; [|done..]. intros E.
  pose proof (arith_steps r Hr _ _ _ E0 _ E) as F.
  destruct Ht as [-> | ->]; unfold exec_simple; cbn [Z.eqb PLUS MINUS Pos.eqb] in *; rewrite Ev; bind; rewrite u8_u64.
  - rewrite u8_add_u8, Z.add_assoc. unfold PLUS in *. by rewrite F.
  - rewrite u8_sub_u8, (net_opposite PLUS MINUS) by done.
    replace (v - (1 + - net PLUS r)) with (v + -1 + net PLUS r) by lia. by rewrite F.
Qed.

Definition move (t : Z) : Prop := t = NEXT \/ t = PREVIOUS.

(** Contexts with a tape short enough for the counts of moves over it. *)
Definition ctx_fits (c : Context) : Prop := ctx_ok c /\ 2 * tape_size c < INT_MAX.

Lemma with_index_index c i j : with_index (with_index c i) j = with_index c j.
Proof. done. Qed.

Lemma move_step t c d c1 : move t -> ctx_ok c -> 0 <= d < 2 ^ 64 ->
  exec_simple t d c = Ret (Some (Done c1)) ->
  c1 = with_index c (tape_index c + (if t =? NEXT then d else - d)) /\ ctx_ok c1.
Proof.
  intros Ht Hc Hd E. destruct (exec_simple_ok t d c Hc Hd) as (o & E' & Ho). rewrite E in E'.
  injection E' as <-. split; [|exact Ho]. destruct Ht as [-> | ->]; unfold exec_simple in E; cbn in E;
    case_ifs; simplify_eq; done.
Qed.

Lemma move_steps r : Forall move r -> forall c c1, ctx_ok c -> steps r c = Ret c1 ->
  c1 = with_index c (tape_index c + net NEXT r) /\ ctx_ok c1.
Proof.
  induction 1 as [|t r Ht Hr IH]; intros c c1 Hc; cbn [steps net].
  - intros [= <-]. split; [|done]. rewrite Z.add_0_r. by destruct c.
  - destruct (exec_simple t 1 c) as [[[c2|]|]| |] eqn:E; bind; try done. intros F.
    apply (move_step t c 1 c2 Ht Hc) in E as [-> Hc2]; [|lia]. destruct (IH _ _ Hc2 F) as [-> H1].
    split; [|done]. rewrite with_index_index. cbn [tape_index with_index]. f_equal. case_ifs; lia.
Qed.

Lemma move_run t r c c1 : move t -> Forall move r -> ctx_fits c -> u64 (1 + net t r) < 2 ^ 63 ->
  steps (t :: r) c = Ret c1 -> exec_simple t (u64 (1 + net t r)) c = Ret (Some (Done c1)).
Proof.
  intros Ht Hr (Hc & Hsz) Hw E. assert (Hr' : Forall move (t :: r)) by by constructor.
  destruct (move_steps _ Hr' c c1 Hc E) as [-> Hc1]. destruct Hc as (Hi & Hm & Hl).
  destruct Hc1 as (Hi1 & _). cbn [tape_index tape_size with_index net] in *. unfold INT_MAX in *.
  assert (Hu : u64 (2147483647 - tape_size c) = 2147483647 - tape_size c) by (apply u64_small; lia).
  destruct Ht as [-> | ->]; unfold exec_simple, INT_MAX; cbn [Z.eqb PLUS MINUS NEXT PREVIOUS Pos.eqb] in *; rewrite Hu.
  - unfold NEXT in *. unfold u64 in Hw |- *. set (m := 1 + net 62 r) in *.
    assert (0 <= m) by (destruct (Z.leb_spec 0 m); [done|]; exfalso;
      rewrite <-(Z_mod_plus_full m 1), Z.mod_small in Hw by lia; lia).
    rewrite (Z.mod_small m) by lia. rewrite (Z.mod_small (_ + m)) by lia.
    rewrite (proj2 (Z.leb_gt _ _)), (proj2 (Z.leb_gt _ _)) by lia. done.
  - rewrite (net_opposite NEXT PREVIOUS r) in * by (done || exact Hr). unfold u64 in Hw |- *.
    set (m := 1 + - net NEXT r) in *. replace (-1 + net NEXT r) with (- m) in * by lia.
    assert (0 <= m) by (destruct (Z.leb_spec 0 m); [done|]; exfalso;
      rewrite <-(Z_mod_plus_full m 1), Z.mod_small in Hw by lia; lia).
    rewrite (Z.mod_small m) by lia.
    rewrite (proj2 (Z.leb_gt _ _)), (proj2 (Z.ltb_ge _ _)) by lia. cbn [orb].
    by replace (tape_index c - m) with (tape_index c + - m) by lia.
Qed.

(** *** Input and output runs *)

Lemma net_repeat t n : net t (repeat t n) = Z.of_nat n.
Proof. induction n as [|n IH]; cbn [net repeat]; [done|]. rewrite IH, Z.eqb_refl. lia. Qed.

Lemma output_steps n : forall c c1, steps (repeat OUTPUT n) c = Ret c1 -> write_cells n c = Ret c1.
Proof.
  induction n as [|n IH]; intros c c1; cbn [steps repeat]; [done|].
  change (exec_simple OUTPUT 1 c) with (c ← write_cells 1 c; Ret (Some (Done c))).
  unfold write_cells at 1. destruct (cell c) as [v| |] eqn:Ev; bind; [|done..]. intros E%IH.
  unfold write_cells in *. rewrite Ev. bind. destruct n as [|n]; [done|].
  change (cell (Ctx _ _ _ _ _)) with (cell c) in E. rewrite Ev in E. cbn [mbind res_bind] in E.
  injection E as <-. cbn. by rewrite <-app_assoc.
Qed.

Lemma input_steps n : forall c c1, steps (repeat INPUT n) c = Ret c1 -> read_cells n c = Ret c1.
Proof.
  induction n as [|n IH]; intros c c1; cbn [steps repeat]; [done|].
  change (exec_simple INPUT 1 c) with (c ← read_cells 1 c; Ret (Some (Done c))). cbn [read_cells].
  destruct (match stdin c with b :: s => (b, s) | [] => (255, []) end) as [v rest].
  destruct (set_cell c v) as [c2| |]; bind; [|done..]. apply IH.
Qed.

Lemma io_run t r c c1 : t = OUTPUT \/ t = INPUT -> Forall (eq t) r -> Z.of_nat (length r) < 2 ^ 63 ->
  steps (t :: r) c = Ret c1 -> exec_simple t (u64 (1 + net t r)) c = Ret (Some (Done c1)).
Proof.
  intros Ht Hr Hlen E. assert (r = repeat t (length r)) as Er.
  { clear -Hr. induction Hr as [|x r -> _ IH]; [done|]. simpl. by f_equal. }
  rewrite Er, net_repeat, u64_small by lia. rewrite Er in E. change (t :: repeat t (length r)) with (repeat t (S (length r))) in E.
  destruct Ht as [-> | ->]; [apply output_steps in E|apply input_steps in E];
    unfold exec_simple; cbn [Z.eqb PLUS MINUS NEXT PREVIOUS OUTPUT INPUT Pos.eqb];
    replace (Z.to_nat (1 + Z.of_nat (length r))) with (S (length r)) by lia; by rewrite E.
Qed.

(** *** The merged program *)

(** No run of moves has a negative difference (it is stored in an unsigned
    integer). *)
Fixpoint no_wrap (g : prog) : bool :=
  match g with
  | PEnd => true
  | POp t d k => (if (t =? NEXT) || (t =? PREVIOUS) then d <? 2 ^ 63 else true) && no_wrap k
  | PLoop b k => no_wrap b && no_wrap k
  end.

(** Where [u] returns, [g] returns the same. *)
Definition refines (u g : prog) : Prop := forall c c', ctx_fits c ->
  sem u c (Done c') -> sem g c (Done c') /\ ctx_fits c'.

Lemma refines_loop b b' k k' : refines b b' -> refines k k' -> refines (PLoop b k) (PLoop b' k').
Proof.
  intros Hb Hk c c' Hc H. remember (PLoop b k) as u eqn:Eu. remember (Done c') as o eqn:Eo.
  revert Hc. induction H as [| | |b0 k0 c o Ev Hs IH|b0 k0 c c1 o v Ev Hv Hs1 IH1 Hs2 IH2|]; intros Hc; simplify_eq.
  - destruct (Hk c c' Hc Hs) as [? ?]. split; [by apply sem_loop_end|done].
  - destruct (Hb c c1 Hc Hs1) as [? Hc1]. destruct (IH2 eq_refl eq_refl Hc1) as [? ?].
    split; [by eapply sem_loop|done].
Qed.

Lemma exec_simple_fits t d c c1 : 0 <= d < 2 ^ 64 -> ctx_fits c ->
  exec_simple t d c = Ret (Some (Done c1)) -> ctx_fits c1.
Proof.
  intros Hd [Hc Hsz] E. destruct (exec_simple_ok t d c Hc Hd) as (o & E' & Ho). rewrite E in E'.
  injection E' as <-. split; [exact Ho|]. enough (tape_size c1 = tape_size c) as -> by done.
  clear Ho Hc Hsz. unfold exec_simple in E. repeat case_match; inv_res; simplify_eq; try done.
  1,2: by apply cell_set in E1 as (_ & _ & x & ->).
  - unfold write_cells in E0. destruct (Z.to_nat d); inv_res; [by subst|done].
  - revert c E0. induction (Z.to_nat d) as [|n IH]; intros c; cbn [read_cells]; [by intros [= <-]|].
    destruct (match stdin c with b :: s => (b, s) | [] => (255, []) end) as [v rest].
    intros (c2 & E1 & E2)%res_bind_Ret. apply IH in E2. apply cell_set in E1 as (_ & _ & x & ->). done.
Qed.

(** The tokens that follow a token in its run are of its kind. *)
Lemma take_run_kind c member s : run_class c = Some member ->
  (arith c /\ Forall arith (take_run member s)) \/ (move c /\ Forall move (take_run member s)) \/
  ((c = OUTPUT \/ c = INPUT) /\ Forall (eq c) (take_run member s)).
Proof.
  intros Hc. assert (Hall : Forall (fun t => member t = true) (take_run member s)).
  { clear Hc. induction s as [|t s IH]; cbn [take_run]; [done|]. destruct (member t) eqn:E; [by constructor|done]. }
  unfold run_class in Hc.
  destruct ((c =? PLUS) || (c =? MINUS)) eqn:E1; [left|destruct ((c =? NEXT) || (c =? PREVIOUS)) eqn:E2;
    [right; left|right; right; destruct ((c =? OUTPUT) || (c =? INPUT)) eqn:E3; [|done]]]; simplify_eq/=;
    (split; [apply orb_true_iff in E1 || apply orb_true_iff in E2 || apply orb_true_iff in E3;
             rewrite !Z.eqb_eq in *; done|]); eapply Forall_impl; [exact Hall| |exact Hall| |exact Hall|]; intros t Ht.
  1,2: apply orb_true_iff in Ht; by rewrite !Z.eqb_eq in Ht.
  by apply Z.eqb_eq in Ht.
Qed.

Lemma refines_run t member s k k' : run_class t = Some member -> Z.of_nat (length s) < 2 ^ 63 ->
  let r := take_run member s in
  no_wrap (POp t (u64 (1 + net t r)) k') = true -> refines k k' ->
  refines (ops (t :: r) k) (POp t (u64 (1 + net t r)) k').
Proof.
  intros Ht Hlen r Hw Hk c c' Hc H. apply ops_steps in H as (c1 & E & Hs).
  assert (F : exec_simple t (u64 (1 + net t r)) c = Ret (Some (Done c1))).
  { destruct (take_run_kind t member s Ht) as [[H1 H2]|[[H1 H2]|[H1 H2]]].
    - by apply arith_run.
    - apply move_run; try done. cbn [no_wrap] in Hw. apply andb_true_iff in Hw as [Hw _].
      replace ((t =? NEXT) || (t =? PREVIOUS)) with true in Hw by by destruct H1 as [-> | ->].
      by apply Z.ltb_lt in Hw.
    - apply io_run; try done. pose proof (take_run_length member s). unfold r. lia. }
  pose proof (exec_simple_fits _ _ _ _ (u64_range _) Hc F) as Hc1. destruct (Hk c1 c' Hc1 Hs) as [? ?].
  split; [by eapply sem_op|done].
Qed.

Lemma parse_refines n : forall s, (length s < n)%nat -> Z.of_nat (length s) < 2 ^ 63 ->
  (uparse n s).2 = (pparse n s).2 /\
  (no_wrap (pparse n s).1 = true -> refines (uparse n s).1 (pparse n s).1).
Proof.
  assert (Hend : refines PEnd PEnd) by (intros c c' Hc H; inversion H; subst; split; [constructor|done]).
  induction n as [|n IH]; intros s Hn Hs; [lia|]. destruct s as [|c s]; [by split|]. simpl in Hn, Hs.
  destruct (run_class c) as [member|] eqn:Hc.
  - assert (E : uparse (S n) (c :: s) = let '(k, rest) := uparse n s in (POp c 1 k, rest)).
    { cbn [uparse]. by rewrite (run_class_op c member Hc). }
    rewrite E, (uparse_run c member s n Hc) by lia. cbn [pparse]. rewrite Hc. cbv zeta.
    destruct (IH (drop (length (take_run member s)) s)) as [IH1 IH2]; [rewrite length_drop; lia..|].
    destruct (uparse n (drop _ s)) as [k rest]. destruct (pparse n (drop _ s)) as [k' rest'].
    cbn [fst snd] in *. split; [done|]. intros Hw.
    apply (refines_run c member s k k' Hc ltac:(lia) Hw). apply IH2.
    cbn [no_wrap] in Hw. by apply andb_true_iff in Hw as [_ ?].
  - cbn [uparse pparse]. rewrite Hc. replace (is_op c) with false.
    2:{ symmetry. unfold is_op, run_class in *. by destruct (c =? PLUS), (c =? MINUS), (c =? NEXT), (c =? PREVIOUS), (c =? OUTPUT), (c =? INPUT). }
    destruct (c =? LOOP_START); [|destruct (c =? LOOP_END); [done|apply IH; lia]].
    destruct (IH s ltac:(lia) ltac:(lia)) as [IH1 IH2]. pose proof (pparse_rest n s) as Hrest.
    destruct (uparse n s) as [b s1]. destruct (pparse n s) as [b' s1']. cbn [fst snd] in *. subst s1.
    destruct (IH s1' ltac:(lia) ltac:(lia)) as [IH3 IH4].
    destruct (uparse n s1') as [k s2]. destruct (pparse n s1') as [k' s2']. cbn [fst snd] in *.
    split; [done|]. cbn [no_wrap]. intros [Hw1 Hw2]%andb_true_iff. apply refines_loop; auto.
Qed.

(** Merging runs is right where no count goes negative: if executing a text
    one token at a time returns, with every single move on the tape, then the
    program the parsers build, with its runs merged into counted instructions,
    returns with the same tape, position, input left and output. *)
Theorem merged_runs_agree text c c' :
  Z.of_nat (length text) < 2 ^ 63 -> no_wrap (program text) = true -> ctx_fits c ->
  sem (units text) c (Done c') -> sem (program text) c (Done c').
Proof.
  intros Hlen Hw Hc Hs. destruct (parse_refines (S (length text)) text) as [_ Hr]; [lia|done|].
  by apply (Hr Hw c c' Hc Hs).
Qed.

(** [+-->.]: the net difference of [+--] is negative, which is harmless. *)
Lemma merged_runs_agree_witness :
  sem (program [43; 45; 45; 62; 46]) (Ctx [9; 3] 0 2 [] []) (Done (Ctx [8; 3] 1 2 [] [3])).
Proof.
  apply (merged_runs_agree [43; 45; 45; 62; 46]); [done|reflexivity|by split_and!|].
  by apply (exec_sound 10).
Defined.

(** A run of moves whose net is negative fails: from any position strictly
    inside the tape, executing [><<] one token at a time moves one cell to the left
    and returns, but the merged instruction stores the difference -1 as 2^64 - 1 and
    the program exits with a failure without moving. *)
Theorem negative_run_exits c :
  ctx_fits c -> 1 <= tape_index c < tape_size c - 1 ->
  let text := [NEXT; PREVIOUS; PREVIOUS] in
  sem (units text) c (Done (with_index c (tape_index c - 1))) /\
  sem (program text) c (Exit EXIT_FAILURE c) /\
  forall o, sem (program text) c o -> o = Exit EXIT_FAILURE c.
Proof.
  intros [(Hi & Hm & _) Hsz] Hin text. unfold INT_MAX in *.
  assert (Hu : u64 (2147483647 - tape_size c) = 2147483647 - tape_size c) by (apply u64_small; lia).
  assert (E : exec_simple NEXT (2 ^ 64 - 1) c = Ret (Some (Exit EXIT_FAILURE c))).
  { unfold exec_simple, INT_MAX. rewrite Hu. cbn [Z.eqb NEXT PLUS MINUS Pos.eqb].
    by rewrite (proj2 (Z.leb_le _ _)) by lia. }
  assert (Ep : program text = POp NEXT (2 ^ 64 - 1) PEnd) by done.
  split_and!.
  - apply (exec_sound 5); [by split_and!|]. change (units text) with (ops text PEnd).
    unfold exec, ops, text, foldr, exec_simple, INT_MAX. rewrite Hu.
    cbn [Z.eqb NEXT PREVIOUS PLUS MINUS Pos.eqb]. rewrite u64_small by lia.
    repeat (rewrite ?(proj2 (Z.leb_gt _ _)), ?(proj2 (Z.ltb_ge _ _)), ?Hu by (cbn; lia);
            cbn [orb mbind res_bind tape_index tape_size with_index]).
    f_equal. f_equal. rewrite with_index_index. f_equal. lia.
  - rewrite Ep. by apply sem_op_exit.
  - rewrite Ep. intros o H. inversion H; subst; rewrite E in *; by simplify_eq.
Qed.

Lemma negative_run_exits_witness :
  sem (program [62; 60; 60]) (Ctx [0; 0; 0] 1 3 [] []) (Exit EXIT_FAILURE (Ctx [0; 0; 0] 1 3 [] [])).
Proof. apply negative_run_exits; [by split_and!|done]. Defined.

(** ** The insertions

    Neither splices: [brainfuck_insert_before] links the inserted list's last node to itself
    and [brainfuck_insert_after] links it back to the inserted list's first node, because
    both read or write [next] fields in the wrong order. *)

(** The [next] field of a live node. *)
Definition next_of (h : iheap) (i : nat) : option ptr :=
  match h !! i with Some (Some nd) => Some (next nd) | _ => None end.

Lemma last_of_list h i l g : rep h (Some i) l g -> NoDup l ->
  exists e nd, last_of (length h) h (Some i) = Ret (Some e) /\ e ∈ l /\ h !! e = Some (Some nd) /\ next nd = None.
Proof.
  intros Hr Hnd. apply (last_of_rep h g); [done|].
  pose proof (nodup_length h l Hnd (rep_lt h g _ _ Hr)). lia.
Qed.

(** Writing a field of a live node keeps every node live, and the other fields. *)
Lemma set_previous_live h i p : is_Some (next_of h i) ->
  exists h', set_previous h (Some i) p = Ret h' /\ length h' = length h /\ forall j, next_of h' j = next_of h j.
Proof.
  unfold next_of. intros [x Hx]. destruct (h !! i) as [[nd|]|] eqn:Hi; [|done..].
  rewrite (set_previous_ret _ _ _ Hi). eexists. split; [done|]. split; [apply length_insert|]. intros j.
  destruct (decide (i = j)) as [<-|Hne]; [|by rewrite list_lookup_insert_ne].
  by rewrite list_lookup_insert_eq, Hi by by eapply lookup_lt_Some.
Qed.

Lemma set_next_live h i p : is_Some (next_of h i) ->
  exists h', set_next h (Some i) p = Ret h' /\ length h' = length h /\ next_of h' i = Some p /\
    forall j, j <> i -> next_of h' j = next_of h j.
Proof.
  unfold next_of. intros [x Hx]. destruct (h !! i) as [[nd|]|] eqn:Hi; [|done..].
  rewrite (set_next_ret _ _ _ Hi). eexists. split; [done|]. split; [apply length_insert|]. split.
  - by rewrite list_lookup_insert_eq by by eapply lookup_lt_Some.
  - intros j Hne. by rewrite list_lookup_insert_ne.
Qed.

(** [brainfuck_insert_before] corrupts the list it is given: whenever [before]
    and its predecessor are live, it returns the inserted instruction, the
    predecessor now leads to it, but its last node leads to itself and never to
    [before]. *)
Theorem brainfuck_insert_before_self_loop h st b nb i l g :
  rep h (Some i) l g -> NoDup l ->
  h !! b = Some (Some nb) ->
  (forall q, previous nb = Some q -> is_Some (next_of h q) /\ q <> b /\ (q ∉ l)) ->
  exists h' st' e, brainfuck_insert_before h st (Some b) (Some i) = Ret (h', st', Some i) /\
    e ∈ l /\ next_of h e = Some None /\ next_of h' e = Some (Some e) /\
    (forall q, previous nb = Some q -> next_of h' q = Some (Some i)) /\
    (forall j, j <> e -> previous nb <> Some j -> next_of h' j = next_of h j).
Proof.
  intros Hr Hnd Hb Hprev. destruct (last_of_list h i l g Hr Hnd) as (e & nd & E & He & Hne & Hnn).
  assert (Hnext : next_of h e = Some None) by (unfold next_of; by rewrite Hne, Hnn).
  unfold brainfuck_insert_before. rewrite (get_lookup _ _ _ Hb). bind. rewrite E. bind.
  destruct (set_previous_live h b (Some e)) as (h1 & -> & _ & H1); [unfold next_of; by rewrite Hb|]. bind.
  destruct (set_next_live h1 e (Some e)) as (h2 & -> & _ & H2 & H2'); [by rewrite H1, Hnext|]. bind.
  destruct (previous nb) as [q|].
  - destruct (Hprev q eq_refl) as (Hq & Hqb & Hql). assert (q <> e) by (intros ->; done).
    destruct (set_next_live h2 q (Some i)) as (h3 & -> & _ & H3 & H3'); [by rewrite H2', H1|]. bind.
    destruct (set_previous_live h3 i (Some q)) as (h4 & -> & _ & H4).
    { destruct (decide (i = q)) as [->|]; [by rewrite H3|]. rewrite H3' by done.
      destruct (decide (i = e)) as [->|]; [by rewrite H2|]. rewrite H2', H1 by done.
      assert (exists x, h !! i = Some (Some x)) as [x Hx] by (destruct g; cbn [rep] in Hr; naive_solver).
      unfold next_of. by rewrite Hx. }
    bind. exists h4. eexists _, e. split; [done|]. split_and!; try done.
    + rewrite H4, H3' by done. done.
    + intros q' [= <-]. by rewrite H4.
    + intros j Hj Hj2. rewrite H4, H3', H2', H1 by congruence. done.
  - bind. exists h2. eexists _, e. split; [done|]. split_and!; try done.
    intros j Hj _. by rewrite H2', H1.
Qed.

(** [brainfuck_insert_after] drops the rest of the list and makes a cycle: it
    overwrites the [next] field of [after] before it reads it, so the last node of
    the inserted list is linked to the inserted list's first node and the old
    successor of [after] is no longer linked. *)
Theorem brainfuck_insert_after_cycle h st a i l g :
  rep h (Some i) l g -> NoDup l -> is_Some (next_of h a) -> (a ∉ l) ->
  exists h' st' e, brainfuck_insert_after h st (Some a) (Some i) = Ret (h', st', Some i) /\
    e ∈ l /\ next_of h e = Some None /\ next_of h' e = Some (Some i) /\
    next_of h' a = Some (Some i) /\
    (forall j, j <> e -> j <> a -> next_of h' j = next_of h j).
Proof.
  intros Hr Hnd Ha Hal. unfold brainfuck_insert_after.
  assert (Hi : i ∈ l /\ exists nd, h !! i = Some (Some nd)) by (destruct g; cbn [rep] in Hr; naive_solver set_solver).
  destruct Hi as [Hil (nd & Hi)]. assert (i <> a) by (intros ->; done).
  unfold next_of in Ha. destruct (h !! a) as [[na|]|] eqn:Ea; [|by destruct Ha..].
  rewrite (set_next_ret _ _ _ Ea). bind. set (h1 := <[a := _]> h).
  assert (Hi1 : h1 !! i = Some (Some nd)) by (unfold h1; by rewrite list_lookup_insert_ne).
  rewrite (set_previous_ret _ _ _ Hi1). bind. set (h2 := <[i := _]> h1).
  assert (Hr2 : rep h2 (Some i) l g).
  { apply (rep_frame' h); [done|]. intros j x Hj Hx. unfold h2. destruct (decide (i = j)) as [<-|].
    - rewrite Hi in Hx. injection Hx as <-. rewrite list_lookup_insert_eq by by eapply lookup_lt_Some. by eexists.
    - rewrite list_lookup_insert_ne by done. unfold h1. rewrite list_lookup_insert_ne by (intros ->; done). by eexists. }
  assert (Ha2 : h2 !! a = Some (Some (MkI (difference na) (type na) (Some i) (previous na) (loop na)))).
  { unfold h2. rewrite list_lookup_insert_ne by done. unfold h1.
    by rewrite list_lookup_insert_eq by by eapply lookup_lt_Some. }
  rewrite (get_lookup _ _ _ Ha2). bind. cbn [next].
  destruct (last_of_list h2 i l g Hr2 Hnd) as (e & x & E & He & Hx & Hxn). rewrite E. bind.
  assert (e <> a) by (intros ->; done).
  assert (H2 : forall j, next_of h2 j = if decide (j = a) then Some (Some i) else next_of h j).
  { intros j. unfold next_of. destruct (decide (j = a)) as [->|Hja]; [by rewrite Ha2|]. unfold h2.
    destruct (decide (i = j)) as [<-|].
    - rewrite list_lookup_insert_eq by by eapply lookup_lt_Some. by rewrite Hi.
    - rewrite list_lookup_insert_ne by done. unfold h1. by rewrite list_lookup_insert_ne. }
  assert (H2e : next_of h2 e = Some None) by (unfold next_of; by rewrite Hx, Hxn).
  destruct (set_previous_live h2 i (Some e)) as (h3 & -> & _ & H3).
  { rewrite H2, decide_False by done. unfold next_of. by rewrite Hi. }
  bind. destruct (set_next_live h3 e (Some i)) as (h4 & -> & _ & H4 & H4'); [by rewrite H3, H2e|]. bind.
  exists h4. eexists _, e. split; [done|]. rewrite H2, decide_False in H2e by done. split_and!; try done.
  - rewrite H4', H3, H2 by done. by rewrite decide_True.
  - intros j Hje Hja. rewrite H4', H3, H2 by done. by rewrite decide_False.
Qed.

(** Inserting [.] into the list [+ ]: before its end, and after its [+]. *)
Definition plus_list : iheap :=
  [Some (MkI 1 PLUS (Some 1%nat) None None); Some (MkI 0 LOOP_END None (Some 0%nat) None);
   Some (MkI 1 OUTPUT (Some 3%nat) None None); Some (MkI 0 LOOP_END None (Some 2%nat) None)].

Lemma plus_list_rep : rep plus_list (Some 2%nat) [2%nat; 3%nat] (POp OUTPUT 1 PEnd) /\ NoDup [2%nat; 3%nat].
Proof.
  split.
  - do 3 eexists. split_and!; try reflexivity; [set_solver|]. do 2 eexists. by split_and!.
  - apply NoDup_cons; split; [set_solver|apply NoDup_singleton].
Qed.

Lemma brainfuck_insert_before_self_loop_witness :
  exists h' st' e, brainfuck_insert_before plus_list (BState (Some 0%nat) (Some 1%nat)) (Some 1%nat) (Some 2%nat)
    = Ret (h', st', Some 2%nat) /\ next_of h' e = Some (Some e).
Proof.
  destruct (brainfuck_insert_before_self_loop plus_list (BState (Some 0%nat) (Some 1%nat)) 1
    (MkI 0 LOOP_END None (Some 0%nat) None) 2 [2%nat; 3%nat] (POp OUTPUT 1 PEnd)) as (h' & st' & e & H1 & _ & _ & H2 & _);
    [apply plus_list_rep|apply plus_list_rep|done| |by exists h', st', e].
  intros q [= <-]. split_and!; [done|done|set_solver].
Defined.

Lemma brainfuck_insert_after_cycle_witness :
  exists h' st' e, brainfuck_insert_after plus_list (BState (Some 0%nat) (Some 1%nat)) (Some 0%nat) (Some 2%nat)
    = Ret (h', st', Some 2%nat) /\ next_of h' e = Some (Some 2%nat) /\ next_of h' 1 = next_of plus_list 1.
Proof.
  destruct (brainfuck_insert_after_cycle plus_list (BState (Some 0%nat) (Some 1%nat)) 0 2
    [2%nat; 3%nat] (POp OUTPUT 1 PEnd)) as (h' & st' & e & H1 & H2 & _ & H3 & _ & H4);
    [apply plus_list_rep|apply plus_list_rep|done|set_solver|].
  exists h', st', e. split_and!; try done. apply H4; [intros <-; set_solver|done].
Defined.
