(* ===== verification/BfMain.v ===== *)
(** Component: main.c of src/c-study/brainfuck: the console, which reads programs and their
    input from one stream, line by line, and the command line. *)
From S2P Require Import Prelude Arrays Bits Bf BfParse BfRun.

(** ** The console *)

Definition with_stdin (s : list Z) (c : Context) : Context := Ctx (tape c) (tape_index c) (tape_size c) s (stdout c).
Definition say (s : list Z) (c : Context) : Context := Ctx (tape c) (tape_index c) (tape_size c) (stdin c) (stdout c ++ s).

Definition prompt : list Z := [62; 62; 32].

Section console.
Context (junk : INode).

(** [rounds] rounds of the endless loop; [fuel] bounds the execution of each.  The parser and
    the programs read the same stream. *)
Fixpoint console (rounds fuel : nat) (h : iheap) (st : BrainfuckState) (c : Context) : res outcome :=
  match rounds with
  | O => Ret (Done c)
  | S n =>
    '(h, s, ins) ← brainfuck_parse_stream_until junk h (stdin c) 10;
    '(h, st, _) ← brainfuck_add h st ins;
    o ← brainfuck_execute fuel h ins (with_stdin s c);
    match o with
    | Done c => console n fuel h st (say (10 :: prompt) c)
    | Exit code c => Ret (Exit code c)
    end
  end.

(** [banner] is the line with the version and the time of the build. *)
Definition run_interactive_console (rounds fuel : nat) (banner cells inp : list Z) : res outcome :=
  console rounds fuel [] brainfuck_state (say (banner ++ prompt) (brainfuck_context TAPE_SIZE cells inp)).

(** ** The command line *)

(** [run_file(stdin)]: what follows the program is its input. *)
Definition run_stdin (fuel : nat) (cells inp : list Z) : res (Z * Context) :=
  let st := brainfuck_state in
  '(h, s, ins) ← brainfuck_parse_stream junk [] inp;
  '(h, st, _) ← brainfuck_add h st ins;
  o ← brainfuck_execute fuel h (root st) (brainfuck_context TAPE_SIZE cells s);
  match o with
  | Exit code c => Ret (code, c)
  | Done c => h ← brainfuck_destroy_state h st; Ret (EXIT_SUCCESS, c)
  end.

(** The files of the command line; [cells] gives the fresh tape of each.  The result is the
    exit status, the input left and the bytes written, without the messages. *)
Fixpoint run_files (fuel : nat) (cells : nat -> list Z) (i : nat) (files : list (option (list Z))) (inp out : list Z) : res (Z * list Z * list Z) :=
  match files with
  | [] => Ret (EXIT_SUCCESS, inp, out)
  | f :: files =>
    '(code, c) ← run_file junk fuel (cells i) f inp;
    match f with
    | Some _ => if code =? EXIT_SUCCESS then run_files fuel cells (S i) files (stdin c) (out ++ stdout c) else Ret (code, stdin c, out ++ stdout c)
    | None => run_files fuel cells (S i) files inp out
    end
  end.

(** What [getopt_long] and [isatty] tell [main]: the first option, or the files. *)
Inductive request := Help | Eval (code : list Z) | Unknown | Files (f : option (list Z)) (files : list (option (list Z))) | Terminal | Piped.

Definition main (rounds fuel : nat) (banner : list Z) (cells : nat -> list Z) (r : request) (inp : list Z) : res (Z * list Z * list Z) :=
  let of_run '(code, c) := (code, stdin c, stdout c) in
  match r with
  | Help => Ret (EXIT_SUCCESS, inp, [])
  | Unknown => Ret (EXIT_FAILURE, inp, [])
  | Eval code => x ← run_string junk fuel (cells 0%nat) code inp; Ret (of_run x)
  | Files f files => run_files fuel cells 0 (f :: files) inp []
  | Piped => x ← run_stdin fuel (cells 0%nat) inp; Ret (of_run x)
  | Terminal => o ← run_interactive_console rounds fuel banner (cells 0%nat) inp;
      match o with Exit code c => Ret (code, stdin c, stdout c) | Done _ => Fuel end
  end.
End console.

(** ** What a session means *)

(** The program of the next line and the bytes after it. *)
Definition line (s : list Z) : option (prog * list Z) := sparse 10 (S (length s)) s.

(** [session n c o]: [n] lines are read and executed in turn on the same tape, each program
    taking its input from what follows it. *)
Inductive session : nat -> Context -> outcome -> Prop :=
| session_stop c : session 0 c (Done c)
| session_line n c g rest c1 o : line (stdin c) = Some (g, rest) -> sem g (with_stdin rest c) (Done c1) -> session n (say (10 :: prompt) c1) o -> session (S n) c o
| session_exit n c g rest code c1 : line (stdin c) = Some (g, rest) -> sem g (with_stdin rest c) (Exit code c1) -> session (S n) c (Exit code c1).

(** ** A round *)

Definition head_ok (h : iheap) (st : BrainfuckState) : Prop := forall j, head st = Some j -> exists nd, h !! j = Some (Some nd).

(** Changing nodes outside a list leaves its program. *)
Lemma add_live h i l g st : rep h (Some i) (i :: l) g -> NoDup (i :: l) -> head_ok h st -> (forall j, head st = Some j -> j ∉ i :: l) ->
  exists h' st', brainfuck_add h st (Some i) = Ret (h', st', head st') /\ rep h' (Some i) (i :: l) g /\ head_ok h' st'.
Proof.
  intros Hr Hnd Hh Hj. assert (exists nd, h !! i = Some (Some nd)) as [nd Hi] by (destruct g; cbn [rep] in Hr; naive_solver).
  unfold brainfuck_add. rewrite (set_previous_ret _ _ _ Hi). bind. set (h1 := <[i := _]> h).
  assert (Hr1 : rep h1 (Some i) (i :: l) g).
  { eapply rep_frame'; [done|]. intros j x Hjl Hx. unfold h1. destruct (decide (i = j)) as [->|Hne].
    - rewrite Hi in Hx. injection Hx as <-. eexists. by rewrite list_lookup_insert_eq by by eapply lookup_lt_Some.
    - exists x. by rewrite list_lookup_insert_ne. }
  assert (Hlink : exists h2, (match head st with None => Ret h1 | Some _ => set_next h1 (head st) (Some i) end) = Ret h2 /\ rep h2 (Some i) (i :: l) g).
  { destruct (head st) as [j|] eqn:Ej; [|by exists h1]. destruct (Hh j Ej) as [x Hx]. specialize (Hj j eq_refl).
    assert (Hx1 : h1 !! j = Some (Some x)) by (unfold h1; rewrite list_lookup_insert_ne; [done|set_solver]). rewrite (set_next_ret _ _ _ Hx1). eexists. split; [done|].
    eapply rep_frame; [exact Hr1|]. intros k Hk. rewrite list_lookup_insert_ne; [done|]. intros ->. done. }
  destruct Hlink as (h2 & -> & Hr2). bind.
  assert (Hlen : (length (i :: l) <= S (length h2))%nat) by (pose proof (nodup_length h2 (i :: l) Hnd (rep_lt h2 g _ _ Hr2)); lia).
  destruct (last_of_rep h2 g _ _ (length h2) Hr2 Hlen) as (e & x & -> & _ & Hx & _). bind.
  eexists h2, _. split; [done|]. split; [done|]. intros j. destruct (root st); cbn; intros [= <-]; by exists x.
Qed.

Lemma parse_line junk h s : stream_text s ->
  match line s with
  | Some (g, rest) => exists h' l, brainfuck_parse_stream_until junk h s 10 = Ret (h', rest, Some (length h)) /\ rep h' (Some (length h)) (length h :: l) g /\ prog_ok g /\
      NoDup (length h :: l) /\ (forall j, j ∈ length h :: l -> (length h <= j)%nat) /\ forall j, (j < length h)%nat -> h' !! j = h !! j
  | None => brainfuck_parse_stream_until junk h s 10 = Fuel
  end.
Proof.
  intros Hs. unfold brainfuck_parse_stream_until, line. rewrite stream_node_ret. bind. set (h0 := h ++ _).
  pose proof (stream_loop_sparse junk 10 (S (length s)) (or_intror eq_refl) h0 s (Some (length h)) (length h) Hs) as H.
  assert (Ho : open_node h0 (length h)) by (eapply open_new; [reflexivity| | |reflexivity]; done). specialize (H Ho).
  destruct (sparse 10 (S (length s)) s) as [[g rest]|]; [|exact H]. destruct H as (h' & E & l & Hr & Hok & Hnd & Hnew & _ & Hk). unfold h0 in Hnew, Hk. rewrite length_app in Hnew, Hk. cbn in Hnew, Hk.
  exists h', l. split_and!; [exact E|done..| |].
  - intros j [->|Hj]%elem_of_cons; [done|]. specialize (Hnew j Hj). lia.
  - intros j Hj. rewrite Hk by lia. by rewrite lookup_app_l.
Qed.

(** The rest of the session after a line, whatever the heap. *)
Lemma console_line junk n h st c g rest : stream_text (stdin c) -> head_ok h st -> line (stdin c) = Some (g, rest) ->
  prog_ok g /\ exists h' st', head_ok h' st' /\ forall fuel,
    console junk (S n) fuel h st c = o ← exec fuel g (with_stdin rest c); match o with Done c1 => console junk n fuel h' st' (say (10 :: prompt) c1) | Exit code c1 => Ret (Exit code c1) end.
Proof.
  intros Hs Hh El. pose proof (parse_line junk h (stdin c) Hs) as Hp. rewrite El in Hp. destruct Hp as (h1 & l & E & Hr & Hok & Hnd & Hnew & Hk). split; [exact Hok|].
  assert (Hlt : forall j, head st = Some j -> (j < length h)%nat) by (intros j Hj; destruct (Hh j Hj) as [x Hx]; by eapply lookup_lt_Some).
  destruct (add_live h1 (length h) l g st Hr Hnd) as (h2 & st2 & E2 & Hr2 & Hh2).
  { intros j Hj. rewrite Hk by by apply Hlt. by apply Hh. }
  { intros j Hj Hin. specialize (Hlt j Hj). specialize (Hnew j Hin). lia. }
  exists h2, st2. split; [done|]. intros fuel. cbn [console]. rewrite E. bind. rewrite E2. bind. by rewrite (execute_exec _ _ _ _ _ _ Hr2 Hok).
Qed.

Lemma console_hangs junk n fuel h st c : stream_text (stdin c) -> line (stdin c) = None -> console junk (S n) fuel h st c = Fuel.
Proof. intros Hs El. pose proof (parse_line junk h (stdin c) Hs) as H. rewrite El in H. cbn [console]. by rewrite H. Qed.

(** ** Input *)

Lemma set_cell_stdin c v c' : set_cell c v = Ret c' -> stdin c' = stdin c.
Proof. unfold set_cell. case_match; [done|]. intros E0. by inv_res. Qed.

Lemma read_stdin n : forall c c', read_cells n c = Ret c' -> stdin c' `suffix_of` stdin c.
Proof.
  induction n as [|n IH]; intros c c' E0; cbn [read_cells] in E0; [by inv_res|]. destruct (stdin c) as [|b s] eqn:Es; inv_res; apply IH in E0; cbn [stdin] in E0; [done|]. by apply suffix_cons_r.
Qed.

Lemma write_stdin n c c' : write_cells n c = Ret c' -> stdin c' = stdin c.
Proof. destruct n; cbn [write_cells]; intros E0; by inv_res. Qed.

Lemma simple_stdin t d c o : exec_simple t d c = Ret (Some o) -> stdin (outcome_ctx o) `suffix_of` stdin c.
Proof.
  unfold exec_simple. intros E0.
  destruct (t =? PLUS); [inv_res; cbn [outcome_ctx]; by erewrite set_cell_stdin|]. destruct (t =? MINUS); [inv_res; cbn [outcome_ctx]; by erewrite set_cell_stdin|].
  destruct (t =? NEXT); [case_match; by inv_res|]. destruct (t =? PREVIOUS); [case_match; by inv_res|].
  destruct (t =? OUTPUT); [inv_res; cbn [outcome_ctx]; by erewrite write_stdin|]. destruct (t =? INPUT); [inv_res; cbn [outcome_ctx]; by eapply read_stdin|by inv_res].
Qed.

Lemma sem_stdin g c o : sem g c o -> stdin (outcome_ctx o) `suffix_of` stdin c.
Proof.
  induction 1; cbn [outcome_ctx] in *; try done; try (match goal with H : exec_simple _ _ _ = _ |- _ => apply simple_stdin in H; cbn [outcome_ctx] in H end); try done; by etrans.
Qed.

(** ** The theorem *)

(** C20. A console session does what its lines say.  On a stream of bytes other than 0xFF the
    console never leaves the tape or uses a node it should not; what [n] rounds come to is
    what the first [n] lines mean, one after the other on the same tape, each reading its
    input from the stream behind it; and what the lines mean is reached. *)
Theorem console_correct junk rounds c : stream_text (stdin c) -> ctx_ok c -> forall h st, head_ok h st ->
  (forall fuel, console junk rounds fuel h st c <> UB) /\
  (forall fuel o, console junk rounds fuel h st c = Ret o -> session rounds c o) /\
  (forall o, session rounds c o -> exists fuel, forall more, (fuel <= more)%nat -> console junk rounds more h st c = Ret o).
Proof.
  revert c. induction rounds as [|n IH]; intros c Hs Hc h st Hh.
  { split_and!; [done|by intros fuel o [= <-]; constructor|]. intros o Ho. inversion Ho. by exists 0%nat. }
  destruct (line (stdin c)) as [[g rest]|] eqn:El.
  2:{ split_and!; [intros fuel; by rewrite console_hangs|intros fuel o; by rewrite console_hangs|]. intros o Ho. inversion Ho; congruence. }
  assert (Hsuf : rest `suffix_of` stdin c) by by eapply sparse_suffix. assert (Hc' : ctx_ok (with_stdin rest c)) by exact Hc.
  assert (Hnext : forall c1, sem g (with_stdin rest c) (Done c1) -> stream_text (stdin c1)).
  { intros c1 H1. apply sem_stdin in H1. cbn in H1. eapply text_suffix; [by etrans|done]. }
  destruct (console_line junk n h st c g rest Hs Hh El) as (Hok & h' & st' & Hh' & Hrun). setoid_rewrite Hrun. split_and!.
  - intros fuel. destruct (exec_safe fuel g _ Hok Hc') as [Hu Ho].
    destruct (exec fuel g _) as [[c1|code c1]| |] eqn:E; cbn; try done. apply (IH (say (10 :: prompt) c1)); [|exact (Ho (Done c1) eq_refl)|done]. apply (Hnext c1). by eapply exec_sound.
  - intros fuel o. destruct (exec_safe fuel g _ Hok Hc') as [Hu Ho].
    destruct (exec fuel g _) as [[c1|code c1]| |] eqn:E; cbn; try done; pose proof (exec_sound _ _ _ _ Hok E) as Hsem.
    + intros Hcon. eapply session_line; [done..|]. eapply (IH (say (10 :: prompt) c1)); [by apply (Hnext c1)|exact (Ho (Done c1) eq_refl)|done..].
    + intros [= <-]. by eapply session_exit.
  - intros o Ho. inversion Ho as [|n' c' g' rest' c1 o' El' Hsem Hses|n' c' g' rest' code c1 El' Hsem]; subst; rewrite El in El'; injection El' as <- <-; destruct (exec_complete _ _ _ Hsem) as [f Hf].
    + pose proof (exec_safe f g _ Hok Hc') as [_ Hsafe]. destruct (IH (say (10 :: prompt) c1)) with (h := h') (st := st') as (_ & _ & Hreach); [by apply (Hnext c1)|exact (Hsafe (Done c1) Hf)|done|].
      destruct (Hreach o Hses) as [f2 Hf2]. exists (f + f2)%nat. intros more Hm. rewrite (exec_mono f more _ _ _ ltac:(lia) Hf). bind. apply Hf2. lia.
    + exists f. intros more Hm. by rewrite (exec_mono f more _ _ _ Hm Hf).
Qed.

(** The lines [+] and [.]: the tape is kept between them. *)
Definition two_lines : list Z := [43; 10; 46; 10].

Lemma console_correct_witness : exists fuel,
  console (MkI 0 0 None None None) 2 fuel [] brainfuck_state (Ctx [65; 0] 0 2 two_lines []) = Ret (Done (Ctx [66; 0] 0 2 [] ([10; 62; 62; 32] ++ [66] ++ [10; 62; 62; 32]))).
Proof.
  destruct (console_correct (MkI 0 0 None None None) 2 (Ctx [65; 0] 0 2 two_lines [])) with (h := @nil (option INode)) (st := brainfuck_state) as (_ & _ & H).
  - repeat constructor; (done || cbn; lia).
  - split_and!; cbn; unfold INT_MAX; lia.
  - intros j. done.
  - destruct (H (Done (Ctx [66; 0] 0 2 [] ([10; 62; 62; 32] ++ [66] ++ [10; 62; 62; 32])))) as [fuel Hf]; [|by exists fuel; apply Hf].
    eapply (session_line 1 _ (POp 43 1 PEnd) [46; 10]); [reflexivity|apply (exec_sound 10); [by vm_compute|reflexivity]|].
    eapply (session_line 0 _ (POp 46 1 PEnd) []); [reflexivity|apply (exec_sound 10); [by vm_compute|reflexivity]|]. apply session_stop.
Defined.

(** At the end of its input the console hangs: the parser takes the end of the stream, which
    is not a newline, for a character to skip, and never returns. *)
Theorem console_end_hangs junk fuel h root i : open_node h i -> stream_loop junk fuel h [] 10 root (Some i) = Fuel.
Proof.
  intros Ho. pose proof (stream_loop_sparse junk 10 fuel (or_intror eq_refl) h [] root i (Forall_nil_2 _) Ho) as H. by destruct fuel.
Qed.

Lemma console_end_hangs_witness : stream_loop (MkI 0 0 None None None) 1000 [Some (MkI 0 0 None None None)] [] 10 (Some 0%nat) (Some 0%nat) = Fuel.
Proof. apply console_end_hangs. by eexists. Defined.

(** A program on standard input reads what follows it there: behind a bracket that closes no
    loop, where the parser stops, or nothing. *)
Theorem run_stdin_exec junk fuel cells inp : stream_text inp ->
  exists rest, rest `suffix_of` inp /\ map schar rest = (pparse (S (length inp)) (map schar inp)).2 /\
    run_stdin junk fuel cells inp = (o ← exec fuel (program (map schar inp)) (brainfuck_context TAPE_SIZE cells rest); Ret (answer o)).
Proof.
  intros Hs. destruct (sparse_file (S (length inp)) inp Hs ltac:(lia)) as (rest & E & Hr). exists rest. split; [by eapply sparse_suffix|]. split; [done|].
  unfold run_stdin, brainfuck_parse_stream, brainfuck_parse_stream_until. rewrite stream_node_ret. bind. cbn [length app].
  pose proof (stream_loop_sparse junk (-1) (S (length inp)) (or_introl eq_refl) [Some (MkI (difference junk) (type junk) None (previous junk) None)] inp (Some 0%nat) 0 Hs ltac:(by eexists)) as H.
  rewrite E in H. destruct H as (h & Eh & l & Hl & Hok & Hnd & _). rewrite Eh. bind. unfold program. rewrite length_map.
  by apply (run_list_spec fuel _ _ _ _ _ Hl Hok Hnd).
Qed.

Lemma run_stdin_exec_witness : exists rest, rest `suffix_of` [44; 46; 93; 65] /\ map schar rest = [65] /\
  run_stdin (MkI 0 0 None None None) 10 [0; 0] [44; 46; 93; 65] = Ret (EXIT_SUCCESS, Ctx [65; 0] 0 TAPE_SIZE [] [65]).
Proof.
  destruct (run_stdin_exec (MkI 0 0 None None None) 10 [0; 0] [44; 46; 93; 65]) as (rest & Hsuf & Hm & ->); [repeat constructor; (done || cbn; lia)|].
  exists rest. split; [done|]. split; [done|]. destruct rest as [|b [|b2 rest]]; [done| |done]. assert (b = 65) as ->; [|reflexivity].
  destruct Hsuf as [k Hk]. apply (f_equal last) in Hk. rewrite last_snoc in Hk. by injection Hk.
Defined.
