(* ===== verification/Bytes.v ===== *)
(** Byte buffers shared by the network components: numbers in the two byte orders,
    copies within bounds, and exclusive or of byte strings. *)
From S2P Require Import Prelude.

(** ** Byte orders *)

Fixpoint le (l : list Z) : Z := match l with [] => 0 | b :: l' => b + 256 * le l' end.
Definition be (l : list Z) : Z := le (rev l).

Fixpoint le_bytes (k : nat) (x : Z) : list Z :=
  match k with O => [] | S k' => x mod 256 :: le_bytes k' (x / 256) end.
Definition be_bytes (k : nat) (x : Z) : list Z := rev (le_bytes k x).

Lemma le_bytes_length k x : length (le_bytes k x) = k.
Proof. revert x. induction k as [|k IH]; intros x; simpl; [done|]. by rewrite IH. Qed.

Lemma be_bytes_length k x : length (be_bytes k x) = k.
Proof. unfold be_bytes. by rewrite length_rev, le_bytes_length. Qed.

Lemma le_bytes_byte k x : Forall byte (le_bytes k x).
Proof.
  revert x. induction k as [|k IH]; intros x; simpl; constructor; [|done].
  apply (Z.mod_pos_bound x 256). lia.
Qed.

Lemma be_bytes_byte k x : Forall byte (be_bytes k x).
Proof. unfold be_bytes. apply Forall_rev, le_bytes_byte. Qed.

Lemma le_range l : Forall byte l -> 0 <= le l < 256 ^ Z.of_nat (length l).
Proof.
  induction 1 as [|b l Hb Hl IH]; [simpl; lia|]. cbn [le length].
  rewrite Nat2Z.inj_succ, Z.pow_succ_r by lia. unfold byte in Hb. lia.
Qed.

Lemma le_le_bytes k x : le (le_bytes k x) = x mod 256 ^ Z.of_nat k.
Proof.
  revert x. induction k as [|k IH]; intros x; [simpl; by rewrite Z.mod_1_r|].
  cbn [le_bytes le]. rewrite IH, Nat2Z.inj_succ, Z.pow_succ_r by lia.
  by rewrite Z.rem_mul_r by lia.
Qed.

Lemma le_bytes_le l : Forall byte l -> le_bytes (length l) (le l) = l.
Proof.
  induction 1 as [|b l Hb Hl IH]; [done|]. cbn [length le le_bytes]. unfold byte in Hb.
  replace (b + 256 * le l) with (b + le l * 256) by lia.
  rewrite Z_mod_plus_full, Z.mod_small, Z.div_add, Z.div_small, Z.add_0_l, IH by lia. done.
Qed.

Lemma be_be_bytes k x : be (be_bytes k x) = x mod 256 ^ Z.of_nat k.
Proof. unfold be, be_bytes. rewrite rev_involutive. apply le_le_bytes. Qed.

Lemma be_bytes_be l : Forall byte l -> be_bytes (length l) (be l) = l.
Proof.
  intros Hl. unfold be, be_bytes. rewrite <-(length_rev l), le_bytes_le, rev_involutive; [done|].
  by apply Forall_rev.
Qed.

Lemma be_range l : Forall byte l -> 0 <= be l < 256 ^ Z.of_nat (length l).
Proof. intros Hl. unfold be. rewrite <-length_rev. apply le_range. by apply Forall_rev. Qed.

Lemma le_app l1 l2 : le (l1 ++ l2) = le l1 + 256 ^ Z.of_nat (length l1) * le l2.
Proof.
  induction l1 as [|b l IH]; cbn [app le length]; [lia|]. rewrite IH, Nat2Z.inj_succ, Z.pow_succ_r by lia. lia.
Qed.

Lemma be_cons b l : be (b :: l) = b * 256 ^ Z.of_nat (length l) + be l.
Proof. unfold be. simpl. rewrite le_app, length_rev. simpl. lia. Qed.

Lemma le_bytes_app m n x : le_bytes (n + m) x = le_bytes n x ++ le_bytes m (x / 256 ^ Z.of_nat n).
Proof.
  revert x. induction n as [|n IH]; intros x; [simpl; by rewrite Z.div_1_r|]. cbn [le_bytes Nat.add app].
  rewrite IH, Nat2Z.inj_succ, Z.pow_succ_r, Z.div_div by lia. done.
Qed.

Lemma be_bytes_app m n x : be_bytes (n + m) x = be_bytes m (x / 256 ^ Z.of_nat n) ++ be_bytes n x.
Proof. unfold be_bytes. by rewrite le_bytes_app, rev_app_distr. Qed.

Lemma be_bytes_S n x : be_bytes (S n) x = be_bytes n (x / 256) ++ [x mod 256].
Proof. done. Qed.

(** The network byte order of a little-endian host: the bytes reversed. *)
Definition ntohs (x : Z) : Z := be (le_bytes 2 x).
Definition ntohl (x : Z) : Z := be (le_bytes 4 x).

Lemma swap_le k l : length l = k -> Forall byte l -> be (le_bytes k (le l)) = be l.
Proof. intros <- Hl. by rewrite le_bytes_le. Qed.

(** ** Buffers *)

(** [n] bytes from offset [off] on, read out of a buffer. *)
Definition slice (buf : list Z) (off n : Z) : res (list Z) :=
  if (off <? 0) || (n <? 0) || (Z.of_nat (length buf) <? off + n) then UB
  else Ret (take (Z.to_nat n) (drop (Z.to_nat off) buf)).

(** [memcpy(dst + off, src, length src)]. *)
Definition memcpy (dst : list Z) (off : Z) (src : list Z) : res (list Z) :=
  if (off <? 0) || (Z.of_nat (length dst) <? off + Z.of_nat (length src)) then UB
  else Ret (take (Z.to_nat off) dst ++ src ++ drop (Z.to_nat off + length src) dst).

Lemma slice_ok buf off n : 0 <= off -> 0 <= n -> off + n <= Z.of_nat (length buf) ->
  slice buf off n = Ret (take (Z.to_nat n) (drop (Z.to_nat off) buf)).
Proof.
  intros. unfold slice. by rewrite !(proj2 (Z.ltb_ge _ _)) by lia.
Qed.

Lemma slice_short buf off n : 0 <= off -> 0 <= n -> Z.of_nat (length buf) < off + n -> slice buf off n = UB.
Proof. intros. unfold slice. rewrite !(proj2 (Z.ltb_ge _ 0)) by lia. by rewrite (proj2 (Z.ltb_lt _ _)) by lia. Qed.

Lemma slice_prefix buf n : (n <= length buf)%nat -> slice buf 0 (Z.of_nat n) = Ret (take n buf).
Proof. intros. rewrite slice_ok by lia. by rewrite Nat2Z.id. Qed.

Lemma slice_app_l a b : slice (a ++ b) 0 (Z.of_nat (length a)) = Ret a.
Proof. rewrite slice_prefix by (rewrite length_app; lia). by rewrite take_app_length. Qed.

Lemma slice_full buf n : n = Z.of_nat (length buf) -> slice buf 0 n = Ret buf.
Proof. intros ->. rewrite slice_prefix by lia. by rewrite take_ge. Qed.

Lemma slice_app a b c off n : off = Z.of_nat (length a) -> n = Z.of_nat (length b) ->
  slice (a ++ b ++ c) off n = Ret b.
Proof.
  intros -> ->. rewrite slice_ok by (rewrite ?length_app; lia).
  by rewrite !Nat2Z.id, drop_app_length, take_app_length.
Qed.

Lemma slice_ok_nat buf off n : (off + n <= length buf)%nat ->
  slice buf (Z.of_nat off) (Z.of_nat n) = Ret (take n (drop off buf)).
Proof. intros. rewrite slice_ok by lia. by rewrite !Nat2Z.id. Qed.

Lemma memcpy_app a b c src off : off = Z.of_nat (length a) -> length b = length src ->
  memcpy (a ++ b ++ c) off src = Ret (a ++ src ++ c).
Proof.
  intros -> Hb. unfold memcpy. rewrite !length_app.
  rewrite !(proj2 (Z.ltb_ge _ _)) by lia. cbn [orb]. rewrite Nat2Z.id, take_app_length, <-Hb.
  by rewrite <-drop_drop, !drop_app_length.
Qed.

(** ** Exclusive or *)

Definition xors (a b : list Z) : list Z := zip_with Z.lxor a b.

