(* ===== verification/QuicVersion.v ===== *)
(** Component: QUIC version numbers and variable-length integers
    (src/c-study/quic/iquic.c and iquic.h, up to the crypto part).  The decoder of
    variable-length integers inverts the encoding of RFC 9000, the version
    predicates are characterised by what the 32-bit number spells. *)
From S2P Require Import Prelude Bytes.

(** ** Versions *)

Definition V_Q024 : Z := 0x51303234.
Definition V_Q025 : Z := 0x51303235.
Definition V_Q030 : Z := 0x51303330.
Definition V_Q033 : Z := 0x51303333.
Definition V_Q034 : Z := 0x51303334.
Definition V_Q035 : Z := 0x51303335.
Definition V_Q037 : Z := 0x51303337.
Definition V_Q039 : Z := 0x51303339.
Definition V_Q043 : Z := 0x51303433.
Definition V_Q046 : Z := 0x51303436.
Definition V_Q050 : Z := 0x51303530.
Definition V_T050 : Z := 0x54303530.
Definition V_T051 : Z := 0x54303531.
Definition V_MVFST_22 : Z := 0xfaceb001.
Definition V_MVFST_27 : Z := 0xfaceb002.
Definition V_MVFST_EXP : Z := 0xfaceb00e.

Definition is_version_gquic (version : Z) : bool :=
  (Z.land version 0xFFFFFF00 =? 0x54303500) ||
  (Z.land version 0xFFFFFF00 =? 0x51303500) ||
  (Z.land version 0xFFFFFF00 =? 0x51303400) ||
  (Z.land version 0xFFFFFF00 =? 0x51303300) ||
  (Z.land version 0xFFFFFF00 =? 0x51303200).

Definition is_version_quic (version : Z) : bool :=
  (Z.land version 0xFFFFFF00 =? 0xFF000000) ||
  (Z.land version 0xFFFFF000 =? 0xfaceb000).

Definition is_version_valid (version : Z) : bool :=
  is_version_gquic version || is_version_quic version.

Definition get_u8_quic_ver (version : Z) : Z :=
  if Z.shiftr version 8 =? 0xff0000 then u8 version else 0.

Definition is_quic_ver_less_than (version max_version : Z) : bool :=
  let u8_ver := get_u8_quic_ver version in
  negb (u8_ver =? 0) && (u8_ver <=? max_version).

Definition is_quic_ver_greater_than (version min_version : Z) : bool :=
  min_version <=? get_u8_quic_ver version.

(** [atoi], on the bytes up to the terminator: white space, a sign, digits. *)
Definition isspace (c : Z) : bool := (c =? 32) || ((9 <=? c) && (c <=? 13)).
Definition isdigit (c : Z) : bool := (48 <=? c) && (c <=? 57).
Fixpoint digits (acc : Z) (s : list Z) : Z :=
  match s with
  | c :: s' => if isdigit c then digits (10 * acc + (c - 48)) s' else acc
  | [] => acc
  end.
Fixpoint atoi (s : list Z) : Z :=
  match s with
  | [] => 0
  | c :: s' =>
    if isspace c then atoi s'
    else if c =? 45 then - digits 0 s'
    else if c =? 43 then digits 0 s'
    else digits 0 s
  end.

(** [atoi] reads the bytes of the variable [version], lowest first. *)
Definition get_u8_gquic_ver (version : Z) : Z :=
  if is_version_gquic version then
    let version := ntohl (u32 (Z.shiftl (u16 version) 16)) in
    u8 (atoi (le_bytes 4 version))
  else 0.

Definition is_gquic_ver_less_than (version max_version : Z) : bool :=
  let u8_ver := get_u8_gquic_ver version in
  negb (u8_ver =? 0) && (u8_ver <=? max_version).

Definition is_version_supported (version : Z) : bool :=
  (version =? V_Q024) || (version =? V_Q025) || (version =? V_Q030) || (version =? V_Q033) ||
  (version =? V_Q034) || (version =? V_Q035) || (version =? V_Q037) || (version =? V_Q039) ||
  (version =? V_Q043) || (version =? V_Q046) || (version =? V_Q050) || (version =? V_T050) ||
  (version =? V_T051) || (version =? V_MVFST_22) || (version =? V_MVFST_27) ||
  (version =? V_MVFST_EXP) || is_quic_ver_greater_than version 23.

Definition is_version_with_encrypted_header (version : Z) : bool :=
  is_version_quic version ||
  (Z.land version 0xFFFFFF00 =? 0x51303500) ||
  (Z.land version 0xFFFFFF00 =? 0x54303500).

Definition is_version_with_tls (version : Z) : bool :=
  is_version_quic version || (Z.land version 0xFFFFFF00 =? 0x54303500).

Definition is_version_with_var_int_transport_params (version : Z) : bool :=
  (is_version_quic version && is_quic_ver_greater_than version 27) || (version =? V_T051).

(** ** Variable-length integers *)

Definition ntohll (val : Z) : Z := u64 (Z.shiftl (ntohl (u32 val)) 32 + ntohl (u32 (Z.shiftr val 32))).

(** [*(uint16_t * )buf] and its wider forms, on a little-endian host. *)
Definition load (k : Z) (buf : list Z) : res Z := b ← slice buf 0 k; Ret (le b).

(** [quic_len(buf, value)]: the bytes used and [*value]. *)
Definition quic_len (buf : list Z) : res (Z * Z) :=
  b0 ← load 1 buf;
  match Z.shiftr b0 6 with
  | 0 => Ret (1, Z.land b0 0x3F)
  | 1 => w ← load 2 buf; Ret (2, Z.land (ntohs w) 0x3FFF)
  | 2 => w ← load 4 buf; Ret (4, Z.land (ntohl w) 0x3FFFFFFF)
  | 3 => w ← load 8 buf; Ret (8, Z.land (ntohll w) 0x3FFFFFFFFFFFFFFF)
  | _ => Ret (0, b0)
  end.

Definition quic_len_buffer_still_required (value : Z) : Z :=
  match Z.shiftr value 6 with 0 => 0 | 1 => 1 | 2 => 3 | 3 => 7 | _ => 0 end.

Definition gquic_get_u16 (buf : list Z) (version : Z) : res Z :=
  if V_Q039 <=? version then w ← load 2 buf; Ret (ntohs w) else load 2 buf.

(** ** Reference: RFC 9000, section 16 *)

(** The encoding of [v] with the two length bits [k]: [2 ^ k] bytes in network
    order, of which the top two bits are [k]. *)
Definition varint (k : Z) (v : Z) : list Z :=
  be_bytes (Z.to_nat (2 ^ k)) (k * 2 ^ (8 * 2 ^ k - 2) + v).

Definition varint_fits (k v : Z) : Prop := 0 <= k <= 3 /\ 0 <= v < 2 ^ (8 * 2 ^ k - 2).

Lemma load_app n b rest : n = Z.of_nat (length b) -> load n (b ++ rest) = Ret (le b).
Proof. intros ->. unfold load. pose proof (slice_app [] b rest 0 (Z.of_nat (length b))) as E. simpl in E. by rewrite E. Qed.

Lemma load_first b t : load 1 (b :: t) = Ret b.
Proof. change (b :: t) with ([b] ++ t). rewrite load_app by done. simpl. f_equal. lia. Qed.

(** Swapping the halves and each half: a reversal of eight bytes. *)
Lemma ntohll_le l : length l = 8%nat -> Forall byte l -> ntohll (le l) = be l.
Proof.
  intros Hl Hb. do 9 (destruct l as [|? l]; try done).
  change [z; z0; z1; z2; z3; z4; z5; z6] with ([z; z0; z1; z2] ++ [z3; z4; z5; z6]) in Hb.
  apply Forall_app in Hb as [Hb1 Hb2]. unfold ntohll, ntohl, u32, u64.
  set (lo := le [z; z0; z1; z2]). set (hi := le [z3; z4; z5; z6]).
  assert (Hlo : 0 <= lo < 2 ^ 32) by apply (le_range _ Hb1).
  assert (Hhi : 0 <= hi < 2 ^ 32) by apply (le_range _ Hb2).
  assert (E : le [z; z0; z1; z2; z3; z4; z5; z6] = lo + hi * 2 ^ 32)
    by (unfold lo, hi; cbn [le]; lia).
  rewrite E, Z_mod_plus_full, (Z.mod_small lo) by done.
  rewrite Z.shiftr_div_pow2, Z.div_add, (Z.div_small lo), Z.add_0_l, (Z.mod_small hi) by lia.
  unfold lo, hi. rewrite !(swap_le 4) by done. rewrite Z.shiftl_mul_pow2 by lia.
  pose proof (be_range _ Hb1) as H1. pose proof (be_range _ Hb2) as H2. simpl length in H1, H2.
  rewrite Z.mod_small by lia. unfold be. cbn [rev app le]. lia.
Qed.

Lemma land_low n x : 0 <= n -> Z.land x (Z.ones n) = x mod 2 ^ n.
Proof. intros. by rewrite Z.land_ones. Qed.

Lemma varint_cons k v : varint_fits k v -> exists b0 tl, varint k v = b0 :: tl /\
  Z.of_nat (length tl) = 2 ^ k - 1 /\ b0 / 64 = k /\ Forall byte (b0 :: tl) /\
  be (b0 :: tl) = k * 2 ^ (8 * 2 ^ k - 2) + v.
Proof.
  intros (Hk & Hv). pose proof (be_bytes_length (Z.to_nat (2 ^ k)) (k * 2 ^ (8 * 2 ^ k - 2) + v)) as Hl.
  pose proof (be_bytes_byte (Z.to_nat (2 ^ k)) (k * 2 ^ (8 * 2 ^ k - 2) + v)) as Hb.
  pose proof (be_be_bytes (Z.to_nat (2 ^ k)) (k * 2 ^ (8 * 2 ^ k - 2) + v)) as Hbe.
  fold (varint k v) in Hl, Hb, Hbe. set (x := k * 2 ^ (8 * 2 ^ k - 2) + v) in *.
  assert (Hx : 0 <= x < 256 ^ 2 ^ k /\ 1 <= 2 ^ k).
  { unfold x. assert (k = 0 \/ k = 1 \/ k = 2 \/ k = 3) as [-> |[-> |[-> | ->]]] by lia; simpl in *; lia. }
  destruct (varint k v) as [|b0 tl]; [simpl in Hl; lia|]. exists b0, tl.
  rewrite Z2Nat.id, Z.mod_small in Hbe by lia. assert (Hlt : Z.of_nat (length tl) = 2 ^ k - 1) by (simpl in Hl; lia).
  split_and!; try done. apply Forall_cons in Hb as [Hb0 Hbt]. pose proof (be_range tl Hbt) as Hr.
  rewrite be_cons in Hbe. rewrite Hlt in *. unfold x in *.
  assert (k = 0 \/ k = 1 \/ k = 2 \/ k = 3) as [-> |[-> |[-> | ->]]] by lia; simpl in *;
    Z.to_euclidean_division_equations; lia.
Qed.

Lemma quic_len_spec k v rest : varint_fits k v -> quic_len (varint k v ++ rest) = Ret (2 ^ k, v).
Proof.
  intros H. destruct (varint_cons k v H) as (b0 & tl & E & Hlen & Hb0 & Hb & Hbe). rewrite E.
  pose proof H as (Hk & Hv). assert (Hs : Z.shiftr b0 6 = k) by by rewrite Z.shiftr_div_pow2.
  assert (Hl : Z.of_nat (length (b0 :: tl)) = 2 ^ k) by (cbn [length]; lia).
  unfold quic_len. replace (load 1 ((b0 :: tl) ++ rest)) with (Ret b0) by (symmetry; apply load_first).
  bind. rewrite Hs.
  assert (k = 0 \/ k = 1 \/ k = 2 \/ k = 3) as [-> |[-> |[-> | ->]]] by lia.
  - change 0x3F with (Z.ones 6). rewrite land_low by done. f_equal. f_equal.
    destruct tl; [|done]. replace b0 with v; [by apply Z.mod_small|].
    rewrite Z.mul_0_l, Z.add_0_l in Hbe. rewrite <-Hbe. unfold be. simpl. lia.
  - rewrite load_app by lia. bind. unfold ntohs. rewrite swap_le by (done || lia). rewrite Hbe.
    change 0x3FFF with (Z.ones 14). rewrite land_low by done. rewrite Z.add_comm, Z_mod_plus_full, Z.mod_small; done.
  - rewrite load_app by lia. bind. unfold ntohl. rewrite swap_le by (done || lia). rewrite Hbe.
    change 0x3FFFFFFF with (Z.ones 30). rewrite land_low by done. rewrite Z.add_comm, Z_mod_plus_full, Z.mod_small; done.
  - rewrite load_app by lia. bind. rewrite ntohll_le by (done || lia). rewrite Hbe.
    change 0x3FFFFFFFFFFFFFFF with (Z.ones 62). rewrite land_low by done. rewrite Z.add_comm, Z_mod_plus_full, Z.mod_small; done.
Qed.

(** Round trip of variable-length integers: on a buffer that starts with any of
    the four encodings of a value, minimal or not, [quic_len] returns the length of
    the encoding and the value, and [quic_len_buffer_still_required] of the first
    byte is the number of bytes after it. *)
Theorem quic_len_roundtrip k v rest :
  varint_fits k v ->
  quic_len (varint k v ++ rest) = Ret (2 ^ k, v) /\
  exists b0 tl, varint k v = b0 :: tl /\ quic_len_buffer_still_required b0 = Z.of_nat (length tl).
Proof.
  intros H. split; [by apply quic_len_spec|]. destruct (varint_cons k v H) as (b0 & tl & E & Hlen & Hb0 & _).
  exists b0, tl. split; [done|]. unfold quic_len_buffer_still_required.
  rewrite Z.shiftr_div_pow2 by lia. change (2 ^ 6) with 64. rewrite Hb0, Hlen. destruct H as (Hk & _).
  assert (k = 0 \/ k = 1 \/ k = 2 \/ k = 3) as [-> |[-> |[-> | ->]]] by lia; done.
Qed.

(** The example of RFC 9000, appendix A.1. *)
Lemma quic_len_roundtrip_witness :
  quic_len [0x9d; 0x7f; 0x3e; 0x7d; 0xaa] = Ret (4, 494878333) /\ varint_fits 2 494878333.
Proof.
  assert (H : varint_fits 2 494878333) by by split_and!.
  split; [|exact H]. exact (proj1 (quic_len_roundtrip 2 494878333 [0xaa] H)).
Defined.

(** The decoder only accepts encodings and never looks past one: on any buffer
    of bytes, [quic_len] either returns the length and the value of an encoding the
    buffer starts with, or reads past the end of a buffer that holds only a proper
    prefix of one. *)
Theorem quic_len_total buf :
  Forall byte buf ->
  match quic_len buf with
  | Ret (n, v) => exists k rest, n = 2 ^ k /\ varint_fits k v /\ buf = varint k v ++ rest
  | UB => forall k v rest, varint_fits k v -> buf <> varint k v ++ rest
  | Fuel => False
  end.
Proof.
  intros Hb. destruct buf as [|b0 tl].
  { simpl. intros k v rest H E. destruct (varint_cons k v H) as (? & ? & E' & _). by rewrite E' in E. }
  assert (Hb0 : byte b0) by by apply Forall_cons in Hb as [? _]. unfold byte in Hb0.
  set (k := Z.shiftr b0 6). assert (Hk : 0 <= k <= 3).
  { unfold k. rewrite Z.shiftr_div_pow2 by lia. Z.to_euclidean_division_equations; lia. }
  set (n := Z.to_nat (2 ^ k)). assert (Hn : (1 <= n)%nat).
  { unfold n. assert (k = 0 \/ k = 1 \/ k = 2 \/ k = 3) as [-> |[-> |[-> | ->]]] by lia; simpl; lia. }
  destruct (Nat.leb_spec n (length (b0 :: tl))) as [Hlen|Hlen].
  - (* the encoding is there *)
    set (e := take n (b0 :: tl)). set (v := be e - k * 2 ^ (8 * 2 ^ k - 2)).
    assert (He : length e = n) by (unfold e; rewrite length_take; lia).
    assert (Hbe : Forall byte e) by by apply Forall_take.
    assert (Hfit : varint_fits k v).
    { split; [done|]. unfold v. assert (exists t, e = b0 :: t /\ S (length t) = n) as (t & Ht & Hlt).
      { unfold e in *. destruct n; [lia|]. eexists. split; [done|]. by simpl in He. }
      rewrite Ht in Hbe |- *. apply Forall_cons in Hbe as [_ Hbt]. pose proof (be_range t Hbt) as Hr.
      rewrite be_cons. assert (Hd : b0 / 64 = k) by (unfold k; by rewrite Z.shiftr_div_pow2).
      clearbody k. unfold n in Hlt. 
      assert (k = 0 \/ k = 1 \/ k = 2 \/ k = 3) as [-> |[-> |[-> | ->]]] by lia; simpl in Hlt;
        injection Hlt as Hlt; rewrite Hlt in *; simpl in Hr |- *; Z.to_euclidean_division_equations; lia. }
    assert (E : b0 :: tl = varint k v ++ drop n (b0 :: tl)).
    { rewrite <-(take_drop n (b0 :: tl)) at 1. f_equal. fold e. unfold varint, v. fold n.
      rewrite Zplus_minus, <-He. symmetry. by apply be_bytes_be. }
    rewrite E, (quic_len_spec k v _ Hfit). by exists k, (drop n (b0 :: tl)).
  - (* too short *)
    assert (E : quic_len (b0 :: tl) = UB).
    { unfold quic_len. rewrite load_first. bind. fold k. clearbody k. unfold n in Hlen. simpl length in Hlen.
      assert (Hload : forall m, Z.of_nat (S (length tl)) < m -> load m (b0 :: tl) = UB).
      { intros m Hm. unfold load, slice. simpl length.
        rewrite (proj2 (Z.ltb_ge m 0)), (proj2 (Z.ltb_lt (Z.of_nat (S (length tl))) (0 + m))) by lia. done. }
      assert (k = 0 \/ k = 1 \/ k = 2 \/ k = 3) as [-> |[-> |[-> | ->]]] by lia; simpl in Hlen;
        [lia|by rewrite Hload by lia..]. }
    rewrite E. intros k' v rest H E'. destruct (varint_cons k' v H) as (b & t & Ev & Hlt & Hd & _).
    rewrite Ev in E'. simpl in E'. injection E' as -> ->. assert (k' = k) as ->.
    { unfold k. rewrite Z.shiftr_div_pow2 by lia. by rewrite <-Hd. }
    unfold n in Hlen. simpl in Hlen. rewrite length_app in Hlen. lia.
Qed.

(** A two-byte encoding followed by a byte. *)
Lemma quic_len_total_witness :
  exists k rest, 2 = 2 ^ k /\ varint_fits k 15293 /\ [0x7b; 0xbd; 0x25] = varint k 15293 ++ rest.
Proof. exact (quic_len_total [0x7b; 0xbd; 0x25] ltac:(repeat constructor; done)). Defined.

(** ** What the version predicates test *)

Lemma land_high k v : 0 <= k <= 32 -> 0 <= v < 2 ^ 32 ->
  Z.land v (Z.shiftl (Z.ones (32 - k)) k) = 2 ^ k * (v / 2 ^ k).
Proof.
  intros Hk Hv. rewrite <-Z.shiftr_div_pow2 by lia. rewrite (Z.mul_comm (2 ^ k)), <-Z.shiftl_mul_pow2 by lia.
  apply Z.bits_inj'. intros i Hi. rewrite Z.land_spec, !Z.shiftl_spec by done.
  destruct (Z.ltb_spec i k).
  - rewrite (Z.testbit_neg_r _ (i - k)), (Z.testbit_neg_r _ (i - k)) by lia. by rewrite andb_false_r.
  - rewrite Z.shiftr_spec by lia. rewrite Z.sub_add.
    destruct (Z.ltb_spec i 32); [by rewrite Z.ones_spec_low, andb_true_r by lia|].
    rewrite (Z.bits_above_log2 v); [done|lia|]. destruct (Z.eq_dec v 0) as [->|]; [simpl; lia|].
    apply Z.lt_le_trans with 32; [|done]. apply Z.log2_lt_pow2; lia.
Qed.

Lemma land_eqb8 v c : 0 <= v < 2 ^ 32 -> (Z.land v 0xFFFFFF00 =? 256 * c) = (v / 256 =? c).
Proof.
  intros Hv. change 0xFFFFFF00 with (Z.shiftl (Z.ones (32 - 8)) 8). rewrite land_high by done.
  change (2 ^ 8) with 256. generalize (v / 256). intros q.
  destruct (Z.eqb_spec (256 * q) (256 * c)), (Z.eqb_spec q c); done || lia.
Qed.

Lemma land_eqb12 v c : 0 <= v < 2 ^ 32 -> (Z.land v 0xFFFFF000 =? 4096 * c) = (v / 4096 =? c).
Proof.
  intros Hv. change 0xFFFFF000 with (Z.shiftl (Z.ones (32 - 12)) 12). rewrite land_high by done.
  change (2 ^ 12) with 4096. generalize (v / 4096). intros q.
  destruct (Z.eqb_spec (4096 * q) (4096 * c)), (Z.eqb_spec q c); done || lia.
Qed.

(** The version spells [T05x], [Q05x], [Q04x], [Q03x] or [Q02x]. *)
Lemma gquic_spells v : 0 <= v < 2 ^ 32 ->
  is_version_gquic v = (v / 256 =? 0x543035) || (v / 256 =? 0x513035) || (v / 256 =? 0x513034) ||
    (v / 256 =? 0x513033) || (v / 256 =? 0x513032).
Proof.
  intros Hv. unfold is_version_gquic. by rewrite <-!land_eqb8.
Qed.

Lemma quic_spells v : 0 <= v < 2 ^ 32 ->
  is_version_quic v = (v / 256 =? 0xFF0000) || (v / 4096 =? 0xfaceb).
Proof. intros Hv. unfold is_version_quic. by rewrite <-land_eqb8, <-land_eqb12. Qed.

(** The number of a Google QUIC version: for a version that spells a letter, [0],
    a digit [d] and a character [c], the byte swap and [atoi] of [get_u8_gquic_ver]
    read the two digits [d] and [c] in decimal, or [d] alone when [c] is no digit, so
    [is_gquic_ver_less_than] compares that number, and accepts equality. *)
Theorem gquic_version_number v max_version :
  0 <= v < 2 ^ 32 -> is_version_gquic v = true ->
  let d := (v / 256) mod 256 - 48 in
  let c := v mod 256 in
  let number := if isdigit c then 10 * d + (c - 48) else d in
  get_u8_gquic_ver v = number /\
  is_gquic_ver_less_than v max_version = (number <=? max_version).
Proof.
  intros Hv Hg d c number. assert (Hd : 2 <= d <= 5).
  { rewrite gquic_spells in Hg by done. unfold d.
    repeat (apply orb_true_iff in Hg as [Hg|Hg]); apply Z.eqb_eq in Hg as ->; split; vm_compute; discriminate. }
  assert (Hc : 0 <= c < 256) by (apply Z.mod_pos_bound; lia).
  assert (Hn : 2 <= number <= 59).
  { unfold number, isdigit. destruct ((48 <=? c) && (c <=? 57)) eqn:E; [|lia].
    apply andb_true_iff in E. rewrite !Z.leb_le in E. lia. }
  enough (E : get_u8_gquic_ver v = number).
  { split; [done|]. unfold is_gquic_ver_less_than. rewrite E. by rewrite (proj2 (Z.eqb_neq _ _)) by lia. }
  unfold get_u8_gquic_ver. rewrite Hg. rewrite Z.shiftl_mul_pow2 by lia.
  assert (Hlow : u32 (u16 v * 2 ^ 16) = le [0; 0; c; d + 48]).
  { unfold u32, u16, c, d. cbn [le]. Z.to_euclidean_division_equations; lia. }
  rewrite Hlow. unfold ntohl. rewrite swap_le; [|done|repeat constructor; unfold byte; lia].
  change (be [0; 0; c; d + 48]) with (le [d + 48; c; 0; 0]).
  change 4%nat with (length [d + 48; c; 0; 0]).
  rewrite le_bytes_le by (repeat constructor; unfold byte; lia).
  assert (Ha : atoi [d + 48; c; 0; 0] = number).
  { cbn [atoi]. unfold isspace. rewrite (proj2 (Z.eqb_neq (d + 48) 32)), (proj2 (Z.leb_gt (d + 48) 13)) by lia.
    rewrite (proj2 (Z.eqb_neq (d + 48) 45)), (proj2 (Z.eqb_neq (d + 48) 43)) by lia. rewrite andb_false_r. cbn [orb digits].
    unfold isdigit at 1. rewrite !(proj2 (Z.leb_le _ _)) by lia. cbn [andb].
    unfold number. destruct (isdigit c); cbn [isdigit Z.leb Z.compare andb]; lia. }
  rewrite Ha. apply Z.mod_small. lia.
Qed.

(** Q043. *)
Lemma gquic_version_number_witness :
  get_u8_gquic_ver V_Q043 = 43 /\ is_gquic_ver_less_than V_Q043 43 = true.
Proof. exact (gquic_version_number V_Q043 43 ltac:(done) eq_refl). Defined.

(** Supported versions are valid: [is_version_supported] accepts the sixteen
    named versions and the IETF drafts 23 to 255, nothing else, and every version it
    accepts passes [is_version_valid]; version 1 of QUIC is not among them. *)
Theorem version_supported_valid v :
  0 <= v < 2 ^ 32 ->
  (is_version_supported v = true <->
     0xff000017 <= v <= 0xff0000ff \/
     In v [V_Q024; V_Q025; V_Q030; V_Q033; V_Q034; V_Q035; V_Q037; V_Q039; V_Q043; V_Q046; V_Q050;
           V_T050; V_T051; V_MVFST_22; V_MVFST_27; V_MVFST_EXP]) /\
  (is_version_supported v = true -> is_version_valid v = true) /\
  is_version_supported 1 = false /\ is_version_valid 1 = false.
Proof.
  intros Hv. assert (Hg : is_quic_ver_greater_than v 23 = true <-> 0xff000017 <= v <= 0xff0000ff).
  { unfold is_quic_ver_greater_than, get_u8_quic_ver, u8. rewrite Z.shiftr_div_pow2, Z.leb_le by lia.
    change (2 ^ 8) with 256. destruct (Z.eqb_spec (v / 256) 0xff0000); Z.to_euclidean_division_equations; lia. }
  assert (Hs : is_version_supported v = true <->
     0xff000017 <= v <= 0xff0000ff \/
     In v [V_Q024; V_Q025; V_Q030; V_Q033; V_Q034; V_Q035; V_Q037; V_Q039; V_Q043; V_Q046; V_Q050;
           V_T050; V_T051; V_MVFST_22; V_MVFST_27; V_MVFST_EXP]).
  { unfold is_version_supported. rewrite !orb_true_iff, !Z.eqb_eq, Hg. cbn [In]. intuition congruence. }
  split; [done|]. split; [|by split]. intros [H|H]%Hs.
  - unfold is_version_valid. rewrite quic_spells by done.
    rewrite (proj2 (Z.eqb_eq (v / 256) 0xff0000)) by (Z.to_euclidean_division_equations; lia).
    by rewrite orb_true_r.
  - cbn [In] in H. by repeat destruct H as [<-|H].
Qed.

Lemma version_supported_valid_witness :
  is_version_supported 0xff00001d = true /\ is_version_valid 0xff00001d = true.
Proof.
  destruct (version_supported_valid 0xff00001d ltac:(done)) as ([_ H1] & H2 & _).
  assert (H : is_version_supported 0xff00001d = true) by (apply H1; left; done). split; [exact H|exact (H2 H)].
Defined.
