(* ===== verification/Gcrypt.v ===== *)
(** Interface: what src/c-study/quic/iquic.c relies on of libgcrypt and of the C
    allocator.  [Gcrypt] holds the library's operations, [GcryptLaws] their
    documented behaviour in terms of three ideal functions: a keyed hash, a block
    cipher and an authenticated encryption.  The QUIC components are proved against
    the interface; [Toy] shows that it can be implemented. *)
From S2P Require Import Prelude Bytes.

(** ** Operations

    Error codes are 0 for success.  A handle is passed in and out of the calls that
    change it. *)
Class Gcrypt := {
  md_dlen : Z -> Z;                            (* gcry_md_get_algo_dlen *)
  Md : Type;                                   (* gcry_md_hd_t, opened with the HMAC flag *)
  md_open : Z -> Z * Md;
  md_reset : Md -> Md;
  md_setkey : Md -> list Z -> Z * Md;
  md_write : Md -> list Z -> Md;
  md_read : Md -> list Z;

  cipher_keylen : Z -> Z;                      (* gcry_cipher_get_algo_keylen *)
  Hd : Type;                                   (* gcry_cipher_hd_t *)
  cipher_open : Z -> Z -> Z * option Hd;       (* algorithm, mode *)
  cipher_setkey : Hd -> list Z -> Z * Hd;
  cipher_reset : Hd -> Hd;
  cipher_setiv : Hd -> list Z -> Z * Hd;
  cipher_authenticate : Hd -> list Z -> Z * Hd;
  cipher_encrypt : Hd -> list Z -> Z * list Z * Hd;   (* in place *)
  cipher_decrypt : Hd -> list Z -> Z * list Z * Hd;
  cipher_checktag : Hd -> list Z -> Z;

  malloc : Z -> option (list Z)                (* the content of the new memory *)
}.

Definition GCRY_MD_SHA256 : Z := 8.
Definition GCRY_CIPHER_AES128 : Z := 7.
Definition GCRY_CIPHER_AES256 : Z := 9.
Definition GCRY_CIPHER_MODE_ECB : Z := 1.
Definition GCRY_CIPHER_MODE_GCM : Z := 9.
Definition GPG_ERR_INV_ARG : Z := 45.

(** ** Documented behaviour *)

Class GcryptLaws (G : Gcrypt) := {
  (* The ideal functions. *)
  hmac : Z -> list Z -> list Z -> list Z;                       (* algorithm, key, message *)
  ecb : Z -> list Z -> list Z -> list Z;                        (* algorithm, key, block *)
  seal : Z -> list Z -> list Z -> list Z -> list Z -> list Z * list Z;  (* algorithm, key, nonce, data, text *)

  (* A digest handle has an algorithm, a key and the message written so far. *)
  md_is : Md -> Z -> option (list Z) -> list Z -> Prop;
  md_open_is a h : md_open a = (0, h) -> md_is h a None [];
  md_reset_is h a k m : md_is h a k m -> md_is (md_reset h) a k [];
  md_setkey_is h a k m key h' : md_is h a k m -> md_setkey h key = (0, h') -> md_is h' a (Some key) [];
  md_write_is h a k m x : md_is h a (Some k) m -> md_is (md_write h x) a (Some k) (m ++ x);
  md_read_is h a k m : md_is h a (Some k) m -> md_read h = hmac a k m;
  hmac_length a k m : Z.of_nat (length (hmac a k m)) = md_dlen a;
  hmac_byte a k m : Forall byte (hmac a k m);

  (* A cipher handle has an algorithm, a mode and, once set, a key. *)
  cipher_is : Hd -> Z -> Z -> option (list Z) -> Prop;
  cipher_open_is a md h : cipher_open a md = (0, Some h) -> cipher_is h a md None;
  cipher_open_some a md : exists h, cipher_open a md = (0, Some h) \/ (cipher_open a md).1 <> 0;
  cipher_setkey_is h a md k key h' : cipher_is h a md k -> cipher_setkey h key = (0, h') ->
    cipher_is h' a md (Some key);
  ecb_encrypt h a k b : cipher_is h a GCRY_CIPHER_MODE_ECB (Some k) -> length b = 16%nat ->
    exists h', cipher_encrypt h b = (0, ecb a k b, h');
  ecb_length a k b : length b = 16%nat -> length (ecb a k b) = 16%nat;
  ecb_byte a k b : Forall byte (ecb a k b);
  (* Decryption inverts sealing, and the tag is right exactly for sealed data. *)
  gcm_decrypt h a k n aad c t : cipher_is h a GCRY_CIPHER_MODE_GCM (Some k) -> length n = 12%nat ->
    exists h1 h2 h3 p, cipher_setiv (cipher_reset h) n = (0, h1) /\
      cipher_authenticate h1 aad = (0, h2) /\ cipher_decrypt h2 c = (0, p, h3) /\
      length p = length c /\ (cipher_checktag h3 t = 0 <-> seal a k n aad p = (c, t)) /\
      (forall p', (seal a k n aad p').1 = c -> p' = p);
  seal_length a k n aad p : length (seal a k n aad p).1 = length p /\ length (seal a k n aad p).2 = 16%nat;

  malloc_length n b : 0 <= n -> malloc n = Some b -> Z.of_nat (length b) = n
}.

(** ** An implementation

    It has the interface's behaviour and none of its security. *)
Module Toy.
Record Cipher := Cph { c_algo : Z; c_mode : Z; c_key : option (list Z); c_iv : list Z; c_aad : list Z; c_text : list Z }.

Definition toy_hmac (k m : list Z) : list Z := be_bytes 32 (be k * 1000003 + be m).
Definition mask (p : list Z) : list Z := map (Z.lxor 0x5a) p.
Definition tag (k n aad p : list Z) : list Z := be_bytes 16 (be k + 3 * be n + 5 * be aad + 7 * be p).
Definition toy_ecb (k b : list Z) : list Z := be_bytes 16 (be k + be b).
Definition key_of (h : Cipher) : list Z := default [] (c_key h).

Section WithMemory.
(** With or without memory left. *)
Context (memory : bool).

#[local] Instance toy_with : Gcrypt := {|
  md_dlen _ := 32;
  Md := Z * option (list Z) * list Z;
  md_open a := (0, (a, None, []));
  md_reset h := (h.1.1, h.1.2, []);
  md_setkey h k := (0, (h.1.1, Some k, []));
  md_write h x := (h.1.1, h.1.2, h.2 ++ x);
  md_read h := toy_hmac (default [] h.1.2) h.2;
  cipher_keylen a := if a =? GCRY_CIPHER_AES256 then 32 else 16;
  Hd := Cipher;
  cipher_open a md := (0, Some (Cph a md None [] [] []));
  cipher_setkey h k := (0, Cph (c_algo h) (c_mode h) (Some k) [] [] []);
  cipher_reset h := Cph (c_algo h) (c_mode h) (c_key h) [] [] [];
  cipher_setiv h n := (0, Cph (c_algo h) (c_mode h) (c_key h) n [] []);
  cipher_authenticate h a := (0, Cph (c_algo h) (c_mode h) (c_key h) (c_iv h) a []);
  cipher_encrypt h b := (0, toy_ecb (key_of h) b, h);
  cipher_decrypt h c := (0, mask c, Cph (c_algo h) (c_mode h) (c_key h) (c_iv h) (c_aad h) (mask c));
  cipher_checktag h t := if decide (tag (key_of h) (c_iv h) (c_aad h) (c_text h) = t) then 0 else 10;
  malloc n := if memory then Some (repeat 0 (Z.to_nat n)) else None
|}.


Lemma mask_mask p : mask (mask p) = p.
Proof.
  unfold mask. induction p as [|b p IH]; simpl; [done|]. rewrite IH. f_equal.
  by rewrite Z.lxor_assoc, Z.lxor_nilpotent, Z.lxor_0_r || by rewrite <-Z.lxor_assoc, Z.lxor_nilpotent, Z.lxor_0_l.
Qed.

#[local] Instance toy_laws_with : GcryptLaws toy_with.
Proof.
  refine {|
    hmac := fun _ k m => toy_hmac k m;
    ecb := fun _ k b => toy_ecb k b;
    seal := fun _ k n aad p => (mask p, tag k n aad p);
    md_is := fun (h : @Md toy_with) a k m => h = ((a, k, m) : @Md toy_with);
    cipher_is := fun (h : @Hd toy_with) a md k => c_algo h = a /\ c_mode h = md /\ c_key h = k |}.
  - by intros a h [= <-].
  - by intros h a k m ->.
  - by intros h a k m key h' -> [= <-].
  - by intros h a k m x ->.
  - by intros h a k m ->.
  - intros a k m. unfold toy_hmac. by rewrite be_bytes_length.
  - intros a k m. apply be_bytes_byte.
  - by intros a md h [= <-].
  - intros a md. eexists. by left.
  - by intros h a md k key h' (<- & <- & _) [= <-].
  - intros h a k b (<- & _ & Hk) _. exists h. simpl. unfold key_of. by rewrite Hk.
  - intros a k b _. apply be_bytes_length.
  - intros a k b. apply be_bytes_byte.
  - intros h a k n aad c t (_ & _ & Hk) _. do 4 eexists. split_and!; [done..| | |].
    + unfold mask. by rewrite length_map.
    + simpl. unfold key_of. cbn [c_key]. rewrite Hk. simpl. rewrite mask_mask. case_decide; split; congruence.
    + simpl. intros p' <-. by rewrite mask_mask.
  - intros a k n aad p. simpl. split; [by unfold mask; rewrite length_map|done].
  - intros n b Hn. simpl. destruct memory; [|done]. intros [= <-]. rewrite repeat_length. lia.
Defined.

End WithMemory.

Definition toy : Gcrypt := toy_with true.
#[global] Instance toy_laws : GcryptLaws toy := toy_laws_with true.
#[global] Instance toy_empty_laws : GcryptLaws (toy_with false) := toy_laws_with false.
End Toy.
