(* ===== verification/QuicKdf.v ===== *)
(** Component: the key derivation of src/c-study/quic/iquic.c, from HMAC to the
    QUIC initial secrets.  The theorems show that the loop of [hkdf_expand] computes
    HKDF-Expand of RFC 5869, that the label buffer is the HkdfLabel structure of
    RFC 8446, and which secret is derived for which version. *)
From S2P Require Import Prelude Bytes QuicVersion Gcrypt.

(** ** The code *)

Section Kdf.
Context {G : Gcrypt}.

(** [ws_hmac_buffer(algo, digest, buffer, key)]: the error code and the digest. *)
Definition ws_hmac_buffer (algo : Z) (digest buffer key : list Z) : res (Z * list Z) :=
  let '(result, h) := md_open algo in
  if negb (result =? 0) then Ret (result, digest)
  else
    let '(result, h) := md_setkey h key in
    if negb (result =? 0) then Ret (result, digest)
    else
      let h := md_write h buffer in
      d ← slice (md_read h) 0 (md_dlen algo);
      digest ← memcpy digest 0 d;
      Ret (0, digest).

(** The loop of [hkdf_expand], from [offset] on. *)
Fixpoint expand_loop (fuel : nat) (h : Md) (prk info : list Z) (hash_len out_len offset : Z)
    (lastoutput out : list Z) : res (list Z) :=
  if offset <? out_len then
    match fuel with
    | O => Fuel
    | S n =>
      let h := md_reset h in
      let h := (md_setkey h prk).2 in
      h ← (if 0 <? offset then t ← slice lastoutput 0 hash_len; Ret (md_write h t) else Ret h);
      let h := md_write h info in
      let c := u8 (u32 (offset / hash_len + 1)) in
      let h := md_write h [c] in
      d ← slice (md_read h) 0 hash_len;
      lastoutput ← memcpy lastoutput 0 d;
      t ← slice lastoutput 0 (Z.min hash_len (u32 (out_len - offset)));
      out ← memcpy out offset t;
      expand_loop n h prk info hash_len out_len (u32 (offset + hash_len)) lastoutput out
    end
  else Ret out.

(** [hkdf_expand]; [lastoutput] is the uninitialised array of 48 bytes. *)
Definition hkdf_expand (hashalgo : Z) (prk info lastoutput out : list Z) (out_len : Z)
    : res (Z * list Z) :=
  let hash_len := md_dlen hashalgo in
  if negb ((0 <? out_len) && (out_len <=? u32 (255 * hash_len))) ||
     negb ((0 <? hash_len) && (hash_len <=? Z.of_nat (length lastoutput)))
  then Ret (GPG_ERR_INV_ARG, out)
  else
    let '(err, h) := md_open hashalgo in
    if negb (err =? 0) then Ret (err, out)
    else
      out ← expand_loop (Z.to_nat out_len) h prk info hash_len out_len 0 lastoutput out;
      Ret (0, out).

Definition hkdf_extract (hashalgo : Z) (salt ikm prk : list Z) : res (Z * list Z) :=
  ws_hmac_buffer hashalgo prk ikm salt.

(** [memcpy(&info_data[info_len], src, length src); info_len += length src]. *)
Definition append_info (st : list Z * Z) (src : list Z) : res (list Z * Z) :=
  d ← memcpy st.1 st.2 src; Ret (d, u32 (st.2 + Z.of_nat (length src))).

(** [tls13_hkdf_expand_label_context]: the result and [*out]; strings without
    their terminator. *)
Definition tls13_hkdf_expand_label_context (md : Z) (secret label_prefix label context_hash : list Z)
    (context_length out_len : Z) (stack : list Z) : res (Z * option (list Z)) :=
  let label_prefix_length := u32 (Z.of_nat (length label_prefix)) in
  let label_length := u32 (Z.of_nat (length label)) in
  if negb ((0 <? label_length) && (u32 (label_prefix_length + label_length) <=? 255)) then Ret (0, None)
  else match malloc 1024 with
  | None => Ret (0, None)
  | Some info_data =>
    info ← append_info (info_data, 0) (be_bytes 2 out_len);
    info ← append_info info [u8 (label_prefix_length + label_length)];
    info ← append_info info label_prefix;
    info ← append_info info label;
    info ← append_info info [context_length];
    info ← (if context_length =? 0 then Ret info
            else c ← slice context_hash 0 context_length; append_info info c);
    match malloc out_len with
    | None => Ret (0, None)
    | Some out =>
      info ← slice info.1 0 info.2;
      '(err, out) ← hkdf_expand md secret info stack out out_len;
      if negb (err =? 0) then Ret (0, None) else Ret (1, Some out)
    end
  end.

Definition tls13_hkdf_expand_label (md : Z) (secret label_prefix label : list Z) (out_len : Z)
    (stack : list Z) : res (Z * option (list Z)) :=
  tls13_hkdf_expand_label_context md secret label_prefix label [] 0 out_len stack.

(** The string constants: "tls13 ", "client in", "quic key", "quic iv", "quic hp". *)
Definition tls13_ : list Z := [116; 108; 115; 49; 51; 32].
Definition client_in : list Z := [99; 108; 105; 101; 110; 116; 32; 105; 110].
Definition quic_key : list Z := [113; 117; 105; 99; 32; 107; 101; 121].
Definition quic_iv : list Z := [113; 117; 105; 99; 32; 105; 118].
Definition quic_hp : list Z := [113; 117; 105; 99; 32; 104; 112].

(** [quic_hkdf_expand_label]: the result and [out]. *)
Definition quic_hkdf_expand_label (hash_algo : Z) (secret label out : list Z) (out_len : Z)
    (stack : list Z) : res (Z * list Z) :=
  '(ok, out_mem) ← tls13_hkdf_expand_label hash_algo secret tls13_ label (u16 out_len) stack;
  if negb (ok =? 0) then
    m ← oget out_mem;
    m ← slice m 0 out_len;
    out ← memcpy out 0 m;
    Ret (1, out)
  else Ret (0, out).

Definition handshake_salt_draft_22 : list Z :=
  [0x7f; 0xbc; 0xdb; 0x0e; 0x7c; 0x66; 0xbb; 0xe9; 0x19; 0x3a;
   0x96; 0xcd; 0x21; 0x51; 0x9e; 0xbd; 0x7a; 0x02; 0x64; 0x4a].
Definition handshake_salt_draft_23 : list Z :=
  [0xc3; 0xee; 0xf7; 0x12; 0xc7; 0x2e; 0xbb; 0x5a; 0x11; 0xa7;
   0xd2; 0x43; 0x2b; 0xb4; 0x63; 0x65; 0xbe; 0xf9; 0xf5; 0x02].
Definition handshake_salt_draft_29 : list Z :=
  [0xaf; 0xbf; 0xec; 0x28; 0x99; 0x93; 0xd2; 0x4c; 0x9e; 0x97;
   0x86; 0xf1; 0x9c; 0x61; 0x11; 0xe0; 0x43; 0x90; 0xa8; 0x99].
Definition hanshake_salt_draft_q50 : list Z :=
  [0x50; 0x45; 0x74; 0xEF; 0xD0; 0x66; 0xFE; 0x2F; 0x9D; 0x94;
   0x5C; 0xFC; 0xDB; 0xD3; 0xA7; 0xF0; 0xD3; 0xB5; 0x6B; 0x45].
Definition hanshake_salt_draft_t50 : list Z :=
  [0x7f; 0xf5; 0x79; 0xe5; 0xac; 0xd0; 0x72; 0x91; 0x55; 0x80;
   0x30; 0x4c; 0x43; 0xa2; 0x36; 0x7c; 0x60; 0x48; 0x83; 0x10].
Definition hanshake_salt_draft_t51 : list Z :=
  [0x7a; 0x4e; 0xde; 0xf4; 0xe7; 0xcc; 0xee; 0x5f; 0xa4; 0x50;
   0x6c; 0x19; 0x12; 0x4f; 0xc8; 0xcc; 0xda; 0x6e; 0x03; 0x3d].

(** The salt the chain of conditions of [quic_derive_initial_secrets] picks. *)
Definition initial_salt (version : Z) : list Z :=
  if version =? V_Q050 then hanshake_salt_draft_q50
  else if version =? V_T050 then hanshake_salt_draft_t50
  else if version =? V_T051 then hanshake_salt_draft_t51
  else if is_quic_ver_less_than version 22 || (version =? V_MVFST_22) then handshake_salt_draft_22
  else if is_quic_ver_less_than version 28 || (version =? V_MVFST_27) || (version =? V_MVFST_EXP)
  then handshake_salt_draft_23
  else handshake_salt_draft_29.

(** [quic_derive_initial_secrets]: the result and [client_initial_secret];
    [secret] and [stack] are the uninitialised arrays. *)
Definition quic_derive_initial_secrets (version : Z) (cid client_initial_secret secret stack : list Z)
    : res (Z * list Z) :=
  '(err, secret) ← hkdf_extract GCRY_MD_SHA256 (initial_salt version) cid secret;
  if negb (err =? 0) then Ret (-1, client_initial_secret)
  else
    '(ok, out) ← quic_hkdf_expand_label GCRY_MD_SHA256 secret client_in client_initial_secret 32 stack;
    if ok =? 0 then Ret (-1, out) else Ret (0, out).
End Kdf.

(** ** Reference: RFC 5869 and RFC 8446 *)

Section Spec.
Context {G : Gcrypt} {L : GcryptLaws G}.

(** T(i) and T(1) | ... | T(n) of RFC 5869, section 2.3. *)
Fixpoint T (a : Z) (prk info : list Z) (i : nat) : list Z :=
  match i with
  | O => []
  | S j => hmac a prk (T a prk info j ++ info ++ [Z.of_nat i])
  end.

Fixpoint okm (a : Z) (prk info : list Z) (n : nat) : list Z :=
  match n with O => [] | S j => okm a prk info j ++ T a prk info n end.

Definition HKDF_Extract (a : Z) (salt ikm : list Z) : list Z := hmac a salt ikm.

(** The first [l] bytes of the output of ceil(l / HashLen) blocks. *)
Definition HKDF_Expand (a : Z) (prk info : list Z) (l : Z) : list Z :=
  take (Z.to_nat l) (okm a prk info (Z.to_nat ((l + md_dlen a - 1) / md_dlen a))).

(** The HkdfLabel structure of RFC 8446, section 7.1. *)
Definition HkdfLabel (l : Z) (label context : list Z) : list Z :=
  be_bytes 2 l ++ [Z.of_nat (length label)] ++ label ++ [Z.of_nat (length context)] ++ context.

Definition HKDF_Expand_Label (a : Z) (secret label context : list Z) (l : Z) : list Z :=
  HKDF_Expand a secret (HkdfLabel l (tls13_ ++ label) context) l.

(** ** The loop *)

(** Digests with the keys of a run can be computed. *)
Definition keyed_ok (a : Z) (key : list Z) : Prop :=
  (md_open a).1 = 0 /\ forall h, (md_setkey h key).1 = 0.

Lemma T_length a prk info i d : md_dlen a = Z.of_nat d -> (0 < i)%nat -> length (T a prk info i) = d.
Proof.
  intros Hd Hi. destruct i as [|i]; [lia|]. cbn [T].
  pose proof (hmac_length a prk (T a prk info i ++ info ++ [Z.of_nat (S i)])). lia.
Qed.

Lemma okm_length a prk info i d : md_dlen a = Z.of_nat d -> length (okm a prk info i) = (i * d)%nat.
Proof.
  intros Hd. induction i as [|i IH]; [done|]. cbn [okm]. rewrite length_app, IH, (T_length _ _ _ _ d Hd) by lia. lia.
Qed.

Lemma okm_prefix a prk info d l : md_dlen a = Z.of_nat d -> forall i j, (i <= j)%nat -> (l <= i * d)%nat ->
  take l (okm a prk info j) = take l (okm a prk info i).
Proof.
  intros Hd i j Hij Hl. induction Hij as [|j Hij IH]; [done|]. cbn [okm].
  rewrite take_app_le; [done|]. rewrite (okm_length _ _ _ _ d Hd). nia.
Qed.

(** One round: the digest of T(i), the information and the counter. *)
Lemma round_spec h a k m prk info x i : md_is h a k m -> (forall h, (md_setkey h prk).1 = 0) ->
  md_read (md_write (md_write (md_write (md_setkey (md_reset h) prk).2 x) info) [i]) = hmac a prk (x ++ info ++ [i]) /\
  md_read (md_write (md_write (md_setkey (md_reset h) prk).2 info) [i]) = hmac a prk (info ++ [i]) /\
  md_is (md_write (md_write (md_write (md_setkey (md_reset h) prk).2 x) info) [i]) a (Some prk) (x ++ info ++ [i]) /\
  md_is (md_write (md_write (md_setkey (md_reset h) prk).2 info) [i]) a (Some prk) (info ++ [i]).
Proof.
  intros Hh Hk. pose proof (Hk (md_reset h)) as Hs. destruct (md_setkey (md_reset h) prk) as [e h1] eqn:E.
  simpl in Hs. subst e. apply md_reset_is in Hh. apply (md_setkey_is _ _ _ _ _ _ Hh) in E. cbn [snd].
  assert (H1 : md_is (md_write (md_write (md_write h1 x) info) [i]) a (Some prk) (x ++ info ++ [i])).
  { rewrite (app_assoc x). do 2 apply md_write_is. by apply (md_write_is _ _ _ []). }
  assert (H2 : md_is (md_write (md_write h1 info) [i]) a (Some prk) (info ++ [i])).
  { apply md_write_is. by apply (md_write_is _ _ _ []). }
  split_and!; try done; by eapply md_read_is.
Qed.

(** [memcpy] at the end of the part that is done. *)
Lemma memcpy_at (done rest src : list Z) off : off = Z.of_nat (length done) -> (length src <= length rest)%nat ->
  memcpy (done ++ rest) off src = Ret (done ++ src ++ drop (length src) rest).
Proof.
  intros Hoff Hl. rewrite <-(take_drop (length src) rest) at 1. apply memcpy_app; [done|].
  rewrite length_take. lia.
Qed.

Lemma expand_loop_spec a prk info d l out0 : md_dlen a = Z.of_nat d -> (0 < d <= 48)%nat ->
  (l <= 255 * d)%nat -> (l <= length out0)%nat -> (forall h, (md_setkey h prk).1 = 0) ->
  forall fuel i h k m last, md_is h a k m -> length last = 48%nat -> (l - i * d <= fuel)%nat ->
  ((0 < i)%nat -> take d last = T a prk info i) ->
  expand_loop fuel h prk info (Z.of_nat d) (Z.of_nat l) (Z.of_nat (i * d)) last
    (take l (okm a prk info i) ++ drop (min l (i * d)) out0) =
  Ret (take l (okm a prk info (max i ((l + d - 1) / d))) ++ drop l out0).
Proof.
  intros Hd Hd48 Hl Hout Hkey. induction fuel as [|n IH]; intros i h k m last Hh Hlast Hf HT; cbn [expand_loop].
  - rewrite (proj2 (Z.ltb_ge _ _)) by lia. rewrite Nat.min_l by lia.
    rewrite (okm_prefix _ _ _ d l Hd i (max i _)) by lia. done.
  - destruct (Z.ltb_spec (Z.of_nat (i * d)) (Z.of_nat l)) as [Hlt|Hge].
    2:{ rewrite Nat.min_l by lia. rewrite (okm_prefix _ _ _ d l Hd i (max i _)) by lia. done. }
    assert (Hi : (i < 255)%nat) by nia.
    assert (Hc : u8 (u32 (Z.of_nat (i * d) / Z.of_nat d + 1)) = Z.of_nat (S i)).
    { rewrite Nat2Z.inj_mul, Z.div_mul by lia. unfold u8, u32.
      rewrite (Z.mod_small _ (2 ^ 32)) by lia. rewrite Z.mod_small; lia. }
    rewrite Hc.
    match goal with |- (?x ≫= _) = _ => assert (Hhx : exists h2, x = Ret h2 /\
      md_read (md_write (md_write h2 info) [Z.of_nat (S i)]) = T a prk info (S i) /\
      exists m2, md_is (md_write (md_write h2 info) [Z.of_nat (S i)]) a (Some prk) m2) end.
    { destruct (round_spec h a k m prk info (T a prk info i) (Z.of_nat (S i)) Hh Hkey) as (R1 & R2 & R3 & R4).
      destruct (Z.ltb_spec 0 (Z.of_nat (i * d))) as [Hp|Hz].
      - rewrite slice_prefix, HT by lia. bind. eexists. split; [done|].
        split; [exact R1|by eexists].
      - assert (i = 0%nat) as -> by nia. eexists. split; [done|]. split; [exact R2|by eexists]. }
    destruct Hhx as (h2 & -> & Hread & m2 & Hh2). bind.
    rewrite Hread. pose proof (T_length a prk info (S i) d Hd ltac:(lia)) as HTl.
    rewrite slice_full by lia. bind.
    rewrite (memcpy_at [] last) by (done || lia). bind. cbn [app].
    set (last' := T a prk info (S i) ++ drop (length (T a prk info (S i))) last).
    assert (Hlast' : length last' = 48%nat) by (unfold last'; rewrite length_app, length_drop; lia).
    assert (HT' : take d last' = T a prk info (S i)) by (unfold last'; rewrite <-HTl; apply take_app_length).
    assert (Hu : u32 (Z.of_nat l - Z.of_nat (i * d)) = Z.of_nat (l - i * d)).
    { unfold u32. rewrite Z.mod_small; lia. }
    rewrite Hu, <-Nat2Z.inj_min, slice_prefix by lia. bind.
    rewrite (Nat.min_comm d), <-take_take, HT'.
    set (chunk := take (l - i * d) (T a prk info (S i))).
    assert (Hchunk : length chunk = min d (l - i * d)) by (unfold chunk; rewrite length_take; lia).
    rewrite (take_ge (okm a prk info i)) by (rewrite (okm_length _ _ _ _ d Hd); lia).
    rewrite Nat.min_r by lia. rewrite (memcpy_at (okm a prk info i))
      by (rewrite ?(okm_length _ _ _ _ d Hd), ?length_drop; lia). bind.
    assert (Hoff : u32 (Z.of_nat (i * d) + Z.of_nat d) = Z.of_nat (S i * d)).
    { unfold u32. rewrite Z.mod_small; nia. }
    rewrite Hoff. assert (Hnew : okm a prk info i ++ chunk ++ drop (length chunk) (drop (i * d) out0) =
      take l (okm a prk info (S i)) ++ drop (min l (S i * d)) out0).
    { cbn [okm]. rewrite take_app_ge by (rewrite (okm_length _ _ _ _ d Hd); lia).
      rewrite (okm_length _ _ _ _ d Hd), <-app_assoc. do 2 f_equal. rewrite drop_drop. f_equal. lia. }
    rewrite Hnew, (IH (S i) _ _ _ _ Hh2 Hlast') by (done || nia).
    replace (max (S i) ((l + d - 1) / d)) with (max i ((l + d - 1) / d)); [done|].
    enough (S i <= (l + d - 1) / d)%nat by lia. apply Nat.div_le_lower_bound; nia.
Qed.

Lemma hkdf_expand_spec a prk info lastoutput out l : keyed_ok a prk ->
  0 < md_dlen a <= 48 -> 0 < l <= 255 * md_dlen a -> l <= Z.of_nat (length out) -> length lastoutput = 48%nat ->
  hkdf_expand a prk info lastoutput out l = Ret (0, HKDF_Expand a prk info l ++ drop (Z.to_nat l) out).
Proof.
  intros [Hopen Hkey] Hd Hl Hout Hlast. unfold hkdf_expand. rewrite Hlast.
  unfold u32. rewrite (Z.mod_small (255 * md_dlen a)) by lia.
  rewrite (proj2 (Z.ltb_lt 0 l)), (proj2 (Z.leb_le l _)), (proj2 (Z.ltb_lt 0 (md_dlen a))),
    (proj2 (Z.leb_le (md_dlen a) _)) by lia. cbn [andb orb negb].
  destruct (md_open a) as [e h] eqn:Eo. simpl in Hopen. subst e. cbn [Z.eqb negb].
  pose proof (expand_loop_spec a prk info (Z.to_nat (md_dlen a)) (Z.to_nat l) out ltac:(lia) ltac:(lia)
    ltac:(lia) ltac:(lia) Hkey (Z.to_nat l) 0 h None [] lastoutput (md_open_is _ _ Eo) Hlast ltac:(lia) ltac:(lia)) as E.
  rewrite !Z2Nat.id in E by lia. cbn [okm] in E. rewrite take_nil, Nat.min_r, drop_0 in E by lia.
  change (Z.of_nat (0 * Z.to_nat (md_dlen a))) with 0 in E. cbn [app] in E. rewrite E. bind.
  do 4 f_equal. rewrite Nat.max_r by lia. unfold HKDF_Expand. do 2 f_equal.
  rewrite Z2Nat.inj_div by lia. f_equal. lia.
Qed.

(** C38. [hkdf_expand] computes HKDF-Expand of RFC 5869: for every length from 1 to
    255 times the hash length, the loop with its wrapping 32-bit offset and its
    one-byte counter ends, stays inside its buffers and writes exactly the first
    [l] bytes of T(1) | T(2) | ..., leaving the rest of [out] as it was. *)
Theorem hkdf_expand_rfc5869 a prk info lastoutput out l :
  keyed_ok a prk -> 0 < md_dlen a <= 48 -> 0 < l <= 255 * md_dlen a ->
  l <= Z.of_nat (length out) -> length lastoutput = 48%nat ->
  hkdf_expand a prk info lastoutput out l = Ret (0, HKDF_Expand a prk info l ++ drop (Z.to_nat l) out).
Proof. apply hkdf_expand_spec. Qed.

Lemma HKDF_Expand_length a prk info l : 0 < md_dlen a -> 0 <= l ->
  length (HKDF_Expand a prk info l) = Z.to_nat l.
Proof.
  intros Hd Hl. unfold HKDF_Expand. rewrite length_take, (okm_length _ _ _ _ (Z.to_nat (md_dlen a))) by lia.
  enough (l <= (l + md_dlen a - 1) / md_dlen a * md_dlen a) by (rewrite <-Z2Nat.inj_mul; lia || apply Z.div_pos; lia).
  Z.to_euclidean_division_equations. nia.
Qed.

(** ** Labels *)

Lemma append_info_spec done rest src : (length src <= length rest)%nat ->
  Z.of_nat (length done + length rest) < 2 ^ 32 ->
  append_info (done ++ rest, Z.of_nat (length done)) src =
  Ret ((done ++ src) ++ drop (length src) rest, Z.of_nat (length (done ++ src))).
Proof.
  intros Hl Hb. unfold append_info. cbn [fst snd]. rewrite (memcpy_at done rest) by (done || lia). bind.
  unfold u32. rewrite Z.mod_small by lia. by rewrite <-app_assoc, length_app, Nat2Z.inj_add.
Qed.

(** Labels and secrets of the sizes the code uses. *)
Record label_ok (a : Z) (secret label context : list Z) (l : Z) : Prop := LabelOk {
  lo_keyed : keyed_ok a secret;
  lo_dlen : 0 < md_dlen a <= 48;
  lo_len : 0 < l <= 255 * md_dlen a;
  lo_label : (0 < length label /\ length label + 6 <= 255)%nat;
  lo_context : (length context <= 255)%nat;
  lo_info : exists b, malloc 1024 = Some b;
  lo_out : exists b, malloc l = Some b
}.

Lemma expand_label_spec a secret label context l stack : label_ok a secret label context l -> length stack = 48%nat ->
  tls13_hkdf_expand_label_context a secret tls13_ label context (Z.of_nat (length context)) l stack =
  Ret (1, Some (HKDF_Expand_Label a secret label context l)).
Proof.
  intros [Hk Hd Hl [Hlab1 Hlab2] Hctx [info Hinfo] [out Hout]] Hst. unfold tls13_hkdf_expand_label_context.
  assert (Hil : length info = 1024%nat) by (pose proof (malloc_length 1024 info ltac:(lia) Hinfo); lia).
  assert (Hol : Z.of_nat (length out) = l) by (apply (malloc_length l); [lia|done]).
  change (Z.of_nat (length tls13_)) with 6. unfold u32, u8. rewrite (Z.mod_small 6) by lia.
  rewrite !(Z.mod_small (Z.of_nat (length label))), !(Z.mod_small (6 + Z.of_nat (length label)) (2 ^ 32)) by lia.
  rewrite (Z.mod_small (6 + Z.of_nat (length label))) by lia.
  rewrite (proj2 (Z.ltb_lt _ _)), (proj2 (Z.leb_le _ _)) by lia. cbn [andb negb]. rewrite Hinfo.
  assert (Ht : length tls13_ = 6%nat) by done. pose proof (be_bytes_length 2 l) as Hb2.
  assert (Hstep : forall d r s, (length d + length r = 1024)%nat -> (length s <= length r)%nat ->
    append_info (d ++ r, Z.of_nat (length d)) s =
    Ret ((d ++ s) ++ drop (length s) r, Z.of_nat (length (d ++ s))) /\
    (length (d ++ s) + length (drop (length s) r) = 1024)%nat).
  { intros d r s H1 H2. rewrite append_info_spec by lia. split; [done|]. rewrite length_app, length_drop. lia. }
  destruct (Hstep [] info (be_bytes 2 l)) as [E1 L1]; [simpl; lia|lia|]. cbn [app length] in E1, L1.
  change (Z.of_nat 0) with 0 in E1. rewrite E1. bind.
  destruct (Hstep _ _ [6 + Z.of_nat (length label)] L1) as [-> L2]; [rewrite length_drop in *; simpl; lia|]. bind.
  destruct (Hstep _ _ tls13_ L2) as [-> L3]; [rewrite ?length_drop in *; simpl; lia|]. bind.
  destruct (Hstep _ _ label L3) as [-> L4]; [rewrite ?length_drop in *; simpl; lia|]. bind.
  destruct (Hstep _ _ [Z.of_nat (length context)] L4) as [-> L5]; [rewrite ?length_drop in *; simpl; lia|]. bind.
  destruct (Hstep _ _ context L5) as [E6 L6]; [rewrite ?length_drop in *; simpl; lia|].
  match type of E6 with append_info ?x context = Ret ?y => set (st := x) in *; set (st' := y) in * end.
  assert (E7 : (if Z.of_nat (length context) =? 0 then Ret st
    else c ← slice context 0 (Z.of_nat (length context)); append_info st c) = Ret st').
  { destruct (Z.eqb_spec (Z.of_nat (length context)) 0) as [Hz|].
    - destruct context; [|simpl in Hz; lia]. f_equal. unfold st, st'. by rewrite app_nil_r, drop_0.
    - rewrite slice_full by done. bind. exact E6. }
  rewrite E7. bind. rewrite Hout. unfold st'. cbn [fst snd]. rewrite slice_app_l. bind.
  rewrite hkdf_expand_spec by (done || lia). bind. cbn [Z.eqb negb].
  rewrite drop_ge, app_nil_r by lia. do 3 f_equal. unfold HKDF_Expand_Label, HkdfLabel. f_equal.
  rewrite length_app, Ht, Nat2Z.inj_add, <-!app_assoc. done.
Qed.

Lemma quic_hkdf_expand_label_spec a secret label out l stack : label_ok a secret label [] l -> l < 2 ^ 16 ->
  length stack = 48%nat -> l <= Z.of_nat (length out) ->
  quic_hkdf_expand_label a secret label out l stack =
  Ret (1, HKDF_Expand_Label a secret label [] l ++ drop (Z.to_nat l) out).
Proof.
  intros Hok Hl Hst Hout. unfold quic_hkdf_expand_label, tls13_hkdf_expand_label.
  pose proof (lo_len _ _ _ _ _ Hok). pose proof (lo_dlen _ _ _ _ _ Hok).
  unfold u16. rewrite Z.mod_small by lia.
  pose proof (expand_label_spec a secret label [] l stack Hok Hst) as E. change (Z.of_nat (length (@nil Z))) with 0 in E. rewrite E. bind. cbn [Z.eqb negb oget].
  assert (Hlen : length (HKDF_Expand_Label a secret label [] l) = Z.to_nat l) by (apply HKDF_Expand_length; lia).
  bind. rewrite slice_full by lia. bind. rewrite (memcpy_at [] out) by (done || lia). bind. by rewrite Hlen.
Qed.

(** Initial secrets: the client secret derived for a connection id is
    HKDF-Expand-Label(HKDF-Extract(salt, id), "client in", "", 32), whatever the
    target buffers held, and the salt for the IETF draft [d] is the one of draft 22
    up to 22, of draft 23 up to 28, and of draft 29 from there. *)
Theorem initial_secrets_spec version cid out secret stack d :
  md_dlen GCRY_MD_SHA256 = 32 -> keyed_ok GCRY_MD_SHA256 (initial_salt version) ->
  let prk := HKDF_Extract GCRY_MD_SHA256 (initial_salt version) cid in
  label_ok GCRY_MD_SHA256 prk client_in [] 32 ->
  length out = 32%nat -> length secret = 32%nat -> length stack = 48%nat -> 1 <= d <= 255 ->
  quic_derive_initial_secrets version cid out secret stack =
    Ret (0, HKDF_Expand_Label GCRY_MD_SHA256 prk client_in [] 32) /\
  initial_salt (0xff000000 + d) =
    (if d <=? 22 then handshake_salt_draft_22 else if d <=? 28 then handshake_salt_draft_23
     else handshake_salt_draft_29).
Proof.
  intros Hd [Hopen Hkey] prk Hok Hout Hsec Hst Hdr. split.
  - unfold quic_derive_initial_secrets, hkdf_extract, ws_hmac_buffer.
    destruct (md_open GCRY_MD_SHA256) as [e h] eqn:Eo. simpl in Hopen. subst e. cbn [Z.eqb negb].
    pose proof (Hkey h) as He. destruct (md_setkey h (initial_salt version)) as [e h1] eqn:Ek. simpl in He. subst e.
    cbn [Z.eqb negb]. pose proof (md_write_is _ _ _ _ cid (md_setkey_is _ _ _ _ _ _ (md_open_is _ _ Eo) Ek)) as H1.
    rewrite (md_read_is _ _ _ _ H1). cbn [app]. fold (HKDF_Extract GCRY_MD_SHA256 (initial_salt version) cid). fold prk.
    pose proof (hmac_length GCRY_MD_SHA256 (initial_salt version) cid) as Hlen. fold prk in Hlen.
    assert (Hp : length prk = 32%nat) by (unfold prk, HKDF_Extract; lia).
    rewrite slice_full by (rewrite Hd, Hp; done). bind.
    rewrite (memcpy_at [] secret) by (rewrite ?Hp; done || lia). bind.
    rewrite drop_ge, app_nil_r by lia. cbn [app Z.eqb negb].
    rewrite (quic_hkdf_expand_label_spec _ _ _ _ _ _ Hok) by (rewrite ?Hout; done). bind.
    by rewrite drop_ge, app_nil_r by (rewrite Hout; simpl; lia).
  - unfold initial_salt, is_quic_ver_less_than, get_u8_quic_ver, V_Q050, V_T050, V_T051, V_MVFST_22, V_MVFST_27, V_MVFST_EXP.
    rewrite !(proj2 (Z.eqb_neq (0xff000000 + d) _)) by lia.
    rewrite Z.shiftr_div_pow2 by lia. change (2 ^ 8) with 256.
    replace ((0xff000000 + d) / 256) with 0xff0000 by (Z.to_euclidean_division_equations; lia).
    rewrite Z.eqb_refl. replace (u8 (0xff000000 + d)) with d by (unfold u8; Z.to_euclidean_division_equations; lia).
    rewrite (proj2 (Z.eqb_neq d 0)) by lia. cbn [negb andb orb]. rewrite !orb_false_r.
    destruct (Z.leb_spec d 22); [done|]. by destruct (Z.leb_spec d 28).
Qed.
End Spec.

(** ** On the toy library *)

Lemma toy_keyed a k : keyed_ok (G := Toy.toy) a k.
Proof. by split. Qed.

Lemma toy_label a s label context l : (0 < length label /\ length label + 6 <= 255)%nat ->
  (length context <= 255)%nat -> 0 < l <= 255 * 32 -> label_ok (G := Toy.toy) a s label context l.
Proof. intros H1 H2 H3. constructor; [apply toy_keyed|done|exact H3|done|done|by eexists..]. Qed.

(** Forty bytes: two rounds. *)
Lemma hkdf_expand_rfc5869_witness :
  hkdf_expand (G := Toy.toy) GCRY_MD_SHA256 [1; 2] [3] (repeat 0 48) (repeat 7 41) 40 =
  Ret (0, HKDF_Expand (G := Toy.toy) GCRY_MD_SHA256 [1; 2] [3] 40 ++ [7]).
Proof.
  exact (hkdf_expand_rfc5869 (G := Toy.toy) GCRY_MD_SHA256 [1; 2] [3] (repeat 0 48) (repeat 7 41) 40
    (toy_keyed _ _) ltac:(done) ltac:(done) ltac:(done) eq_refl).
Defined.

(** Draft 29. *)
Lemma initial_secrets_spec_witness :
  quic_derive_initial_secrets (G := Toy.toy) 0xff00001d [8; 9] (repeat 0 32) (repeat 0 32) (repeat 0 48) =
  Ret (0, HKDF_Expand_Label (G := Toy.toy) GCRY_MD_SHA256
    (HKDF_Extract (G := Toy.toy) GCRY_MD_SHA256 handshake_salt_draft_29 [8; 9]) client_in [] 32).
Proof.
  refine (proj1 (initial_secrets_spec (G := Toy.toy) 0xff00001d [8; 9] (repeat 0 32) (repeat 0 32) (repeat 0 48) 29
    eq_refl (toy_keyed _ _) _ eq_refl eq_refl eq_refl ltac:(done))).
  apply toy_label; simpl; lia.
Defined.
