(* ===== verification/QuicPacket.v ===== *)
(** Component: packet protection in src/c-study/quic/iquic.c: keying the ciphers,
    removing header protection and decrypting a message.  The theorems are round
    trips against the protection that RFC 9001 describes, the condition under which
    a message is accepted, and the two defects of the error paths. *)
From S2P Require Import Prelude Bytes QuicVersion Gcrypt QuicKdf.

Section Packet.
Context {G : Gcrypt}.

(** A cipher handle pointer: null, open, or closed and dangling. *)
Inductive hptr := Null | Live (h : Hd) | Closed.

Record quic_cipher := QuicCipher { hp_cipher : hptr; pp_cipher : hptr; pp_iv : list Z }.

(** [gcry_cipher_close]. *)
Definition cipher_close (p : hptr) : res hptr :=
  match p with Null => Ret Null | Live _ => Ret Closed | Closed => UB end.

Definition quic_cipher_reset (c : quic_cipher) : res quic_cipher :=
  hp ← cipher_close (hp_cipher c);
  pp ← cipher_close (pp_cipher c);
  Ret (QuicCipher hp pp (pp_iv c)).

(** [gcry_cipher_setkey] through a pointer. *)
Definition setkey (p : hptr) (k : list Z) : res (Z * hptr) :=
  match p with Live h => let '(e, h) := cipher_setkey h k in Ret (e, Live h) | _ => UB end.

(** [quic_cipher_init]: the result and the cipher; [write_key], [hp_key] and
    [stack] are uninitialised arrays. *)
Definition quic_cipher_init (c : quic_cipher) (hash_algo key_length : Z)
    (secret write_key hp_key stack : list Z) : res (Z * quic_cipher) :=
  let hash_len := md_dlen hash_algo in
  if 32 <? key_length then Ret (0, c)
  else
    secret ← slice secret 0 hash_len;
    '(ok, write_key) ← quic_hkdf_expand_label hash_algo secret quic_key write_key key_length stack;
    if ok =? 0 then Ret (1, c)
    else
      '(ok, iv) ← quic_hkdf_expand_label hash_algo secret quic_iv (pp_iv c) 12 stack;
      let c := QuicCipher (hp_cipher c) (pp_cipher c) iv in
      if ok =? 0 then Ret (1, c)
      else
        '(ok, hp_key) ← quic_hkdf_expand_label hash_algo secret quic_hp hp_key key_length stack;
        if ok =? 0 then Ret (1, c)
        else
          k ← slice hp_key 0 key_length;
          '(e, hp) ← setkey (hp_cipher c) k;
          let c := QuicCipher hp (pp_cipher c) (pp_iv c) in
          if negb (e =? 0) then Ret (0, c)
          else
            k ← slice write_key 0 key_length;
            '(e, pp) ← setkey (pp_cipher c) k;
            let c := QuicCipher (hp_cipher c) pp (pp_iv c) in
            Ret (if e =? 0 then 1 else 0, c).

(** The mode of the packet number cipher; [None] when the algorithm is refused. *)
Definition quic_get_pn_cipher_algo (cipher_algo : Z) : option Z :=
  if (cipher_algo =? GCRY_CIPHER_AES128) || (cipher_algo =? GCRY_CIPHER_AES256)
  then Some GCRY_CIPHER_MODE_ECB else None.

Definition opened (o : option Hd) : hptr := match o with Some h => Live h | None => Null end.

(** [quic_cipher_prepare]; [secret] may be null. *)
Definition quic_cipher_prepare (c : quic_cipher) (hash_algo cipher_algo cipher_mode : Z)
    (secret : option (list Z)) (write_key hp_key stack : list Z) : res (Z * quic_cipher) :=
  match quic_get_pn_cipher_algo cipher_algo with
  | None => Ret (0, c)
  | Some hp_cipher_mode =>
    let '(e, hp) := cipher_open cipher_algo hp_cipher_mode in
    let c := QuicCipher (opened hp) (pp_cipher c) (pp_iv c) in
    if negb (e =? 0) then c ← quic_cipher_reset c; Ret (0, c)
    else
      let '(e, pp) := cipher_open cipher_algo cipher_mode in
      let c := QuicCipher (hp_cipher c) (opened pp) (pp_iv c) in
      if negb (e =? 0) then c ← quic_cipher_reset c; Ret (0, c)
      else match secret with
      | None => Ret (1, c)
      | Some secret =>
        let cipher_keylen := u8 (cipher_keylen cipher_algo) in
        '(ok, c) ← quic_cipher_init c hash_algo cipher_keylen secret write_key hp_key stack;
        if ok =? 0 then c ← quic_cipher_reset c; Ret (0, c) else Ret (1, c)
      end
  end.

(** The loop over the packet number bytes, from [i] on. *)
Fixpoint pkn_loop (n : nat) (i pkn_len pkt_pkn : Z) (pkn_bytes mask : list Z) : res Z :=
  match n with
  | O => Ret pkt_pkn
  | S n =>
    b ← oget (pkn_bytes !! Z.to_nat i);
    m ← oget (mask !! Z.to_nat (1 + i));
    pkn_loop n (i + 1) pkn_len
      (Z.lor pkt_pkn (u32 (Z.shiftl (Z.lxor b m) (8 * (pkn_len - 1 - i))))) pkn_bytes mask
  end.

(** [quic_decrypt_header]: the result, and the first byte and packet number when
    it is 1. *)
Definition quic_decrypt_header (packet_payload : list Z) (pn_offset : Z) (hp_cipher : hptr)
    (hp_cipher_algo : Z) : res (Z * option (Z * Z)) :=
  match hp_cipher with
  | Null => Ret (0, None)
  | _ =>
    sample ← slice packet_payload (pn_offset + 4) 16;
    if (hp_cipher_algo =? GCRY_CIPHER_AES128) || (hp_cipher_algo =? GCRY_CIPHER_AES256) then
      match hp_cipher with
      | Live h =>
        let '(err, sample, h) := cipher_encrypt h sample in
        if negb (err =? 0) then Ret (0, None)
        else
          mask ← slice sample 0 5;
          packet0 ← oget (packet_payload !! 0%nat);
          m0 ← oget (mask !! 0%nat);
          let packet0 := u8 (Z.lxor packet0 (Z.land m0 (if Z.land packet0 0x80 =? 0x80 then 0x0f else 0x1f))) in
          let pkn_len := Z.land packet0 0x03 + 1 in
          pkn_bytes ← slice packet_payload pn_offset pkn_len;
          pkt_pkn ← pkn_loop (Z.to_nat pkn_len) 0 pkn_len 0 pkn_bytes mask;
          Ret (1, Some (packet0, pkt_pkn))
      | _ => UB
      end
    else Ret (0, None)
  end.

Definition pntoh64 (p : list Z) : res Z :=
  match p with
  | [b0; b1; b2; b3; b4; b5; b6; b7] =>
    Ret (Z.lor (Z.lor (Z.lor (Z.lor (Z.lor (Z.lor (Z.lor (Z.shiftl b0 56) (Z.shiftl b1 48)) (Z.shiftl b2 40))
      (Z.shiftl b3 32)) (Z.shiftl b4 24)) (Z.shiftl b5 16)) (Z.shiftl b6 8)) (Z.shiftl b7 0))
  | _ => UB
  end.

Definition phton64 (v : Z) : list Z :=
  [u8 (Z.shiftr v 56); u8 (Z.shiftr v 48); u8 (Z.shiftr v 40); u8 (Z.shiftr v 32);
   u8 (Z.shiftr v 24); u8 (Z.shiftr v 16); u8 (Z.shiftr v 8); u8 (Z.shiftr v 0)].

(** [memdup(buf + off, len)]; [None] when the allocation fails. *)
Definition memdup (buf : list Z) (off len : Z) : res (option (list Z)) :=
  match malloc len with
  | None => Ret None
  | Some _ => d ← slice buf off len; Ret (Some d)
  end.

(** [header[header_length - 1 - i] = packet_number >> (8 * i)] for [i] below [n]. *)
Fixpoint put_pkn (n : nat) (i header_length packet_number : Z) (header : list Z) : res (list Z) :=
  match n with
  | O => Ret header
  | S n =>
    header ← memcpy header (header_length - 1 - i) [u8 (Z.shiftr packet_number (8 * i))];
    put_pkn n (i + 1) header_length packet_number header
  end.

(** [quic_decrypt_message]: the cipher, and the data when [*result] is set. *)
Definition quic_decrypt_message (c : quic_cipher) (packet_payload : list Z)
    (packet_payload_len header_length first_byte pkn_len packet_number : Z)
    : res (quic_cipher * option (list Z)) :=
  match pp_cipher c with
  | Null => Ret (c, None)
  | pp =>
    if negb (pkn_len <? header_length) || negb ((1 <=? pkn_len) && (pkn_len <=? 4)) then Ret (c, None)
    else
      header ← memdup packet_payload 0 header_length;
      match header with
      | None => Ret (c, None)
      | Some header =>
        header ← memcpy header 0 [first_byte];
        header ← put_pkn (Z.to_nat pkn_len) 0 header_length packet_number header;
        let buffer_length := u32 (packet_payload_len - u32 (header_length + 16)) in
        if buffer_length =? 0 then Ret (c, None)
        else
          buffer ← memdup packet_payload header_length buffer_length;
          match buffer with
          | None => Ret (c, None)
          | Some buffer =>
            atag ← slice packet_payload (header_length + buffer_length) 16;
            let nonce := pp_iv c in
            tail ← slice nonce 4 8;
            w ← pntoh64 tail;
            nonce ← memcpy nonce 4 (phton64 (Z.lxor w packet_number));
            match pp with
            | Live h =>
              let done h := QuicCipher (hp_cipher c) (Live h) (pp_iv c) in
              let h := cipher_reset h in
              let '(err, h) := cipher_setiv h nonce in
              if negb (err =? 0) then Ret (done h, None)
              else
                let '(err, h) := cipher_authenticate h header in
                if negb (err =? 0) then Ret (done h, None)
                else
                  let '(err, buffer, h) := cipher_decrypt h buffer in
                  if negb (err =? 0) then Ret (done h, None)
                  else if negb (cipher_checktag h atag =? 0) then Ret (done h, None)
                  else Ret (done h, Some buffer)
            | _ => UB
            end
          end
      end
  end.
End Packet.

(** ** Numbers in bytes *)

(** One more byte below. *)
Lemma lor_byte acc b e : 0 <= e -> byte b ->
  Z.lor (acc * 2 ^ (e + 8)) (Z.shiftl b e) = (acc * 256 + b) * 2 ^ e.
Proof.
  intros He Hb. unfold byte in Hb. rewrite Z.shiftl_mul_pow2 by done. rewrite lor_add by (rewrite ?Z.pow_add_r by lia; nia).
  rewrite Z.pow_add_r by lia. change (2 ^ 8) with 256. lia.
Qed.

Lemma pntoh64_spec l : length l = 8%nat -> Forall byte l -> pntoh64 l = Ret (be l).
Proof.
  intros Hl Hb. do 9 (destruct l as [|? l]; try done). cbn [pntoh64]. f_equal.
  repeat match goal with H : Forall byte (_ :: _) |- _ => apply Forall_cons in H as [? H] end.
  rewrite (Z.shiftl_mul_pow2 z 56) by lia. change 56 with (48 + 8) at 1. rewrite lor_byte by done.
  change 48 with (40 + 8) at 1. rewrite lor_byte by done. change 40 with (32 + 8) at 1. rewrite lor_byte by done.
  change 32 with (24 + 8) at 1. rewrite lor_byte by done. change 24 with (16 + 8) at 1. rewrite lor_byte by done.
  change 16 with (8 + 8) at 1. rewrite lor_byte by done. change 8 with (0 + 8) at 1. rewrite lor_byte by done.
  unfold be. cbn [rev app le]. lia.
Qed.

Lemma phton64_spec v : phton64 v = be_bytes 8 v.
Proof.
  unfold phton64, be_bytes. cbn [le_bytes rev app]. unfold u8. rewrite !Z.shiftr_div_pow2, !Z.div_div by lia.
  change (2 ^ 0) with 1. by rewrite Z.div_1_r.
Qed.

Lemma lxor_le l : forall m, length l = length m -> Forall byte l -> Forall byte m ->
  Z.lxor (le l) (le m) = le (xors l m).
Proof.
  induction l as [|b l IH]; intros [|c m] Hlen Hl Hm; try done.
  apply Forall_cons in Hl as [Hb Hl]. apply Forall_cons in Hm as [Hc Hm]. cbn [le xors zip_with].
  fold (xors l m). rewrite <-IH by (done || by injection Hlen).
  assert (Hsplit : forall x y, byte x -> x + 256 * y = Z.lor (y * 2 ^ 8) x) by (intros x y Hx; rewrite lor_add; [lia|lia|exact Hx]).
  rewrite !Hsplit by (done || by apply byte_lxor). apply Z.bits_inj'. intros i Hi.
  rewrite Z.lxor_spec, !Z.lor_spec, !Z.lxor_spec. destruct (Z.ltb_spec i 8).
  - by rewrite !Z.mul_pow2_bits_low by lia.
  - assert (Hhi : forall x, byte x -> Z.testbit x i = false) by (intros x Hx; by apply (bits_high x 8)).
    rewrite !Z.mul_pow2_bits by lia. rewrite Z.lxor_spec, (Hhi b), (Hhi c) by done. by rewrite xorb_false_r, !orb_false_r.
Qed.

Lemma xors_length l m : length l = length m -> length (xors l m) = length l.
Proof. intros H. unfold xors. rewrite length_zip_with. lia. Qed.

Lemma xors_rev l m : length l = length m -> xors (rev l) (rev m) = rev (xors l m).
Proof.
  revert m. induction l as [|b l IH]; intros [|c m] H; try done. injection H as H. cbn [rev xors zip_with].
  unfold xors in *. rewrite zip_with_app by by rewrite !length_rev. by rewrite IH.
Qed.

Lemma lxor_be l m : length l = length m -> Forall byte l -> Forall byte m ->
  Z.lxor (be l) (be m) = be (xors l m).
Proof.
  intros H Hl Hm. unfold be. rewrite lxor_le by (rewrite ?length_rev; done || by apply Forall_rev).
  by rewrite xors_rev.
Qed.

Lemma xors_byte l m : Forall byte l -> Forall byte m -> Forall byte (xors l m).
Proof.
  intros Hl. revert m. induction Hl as [|b l Hb Hl IH]; intros m Hm; [constructor|].
  destruct Hm as [|c m Hc Hm]; [constructor|]. constructor; [by apply byte_lxor|by apply IH].
Qed.

Lemma xors_xors l m : length l = length m -> xors (xors l m) m = l.
Proof.
  revert m. induction l as [|b l IH]; intros [|c m] H; try done. injection H as H. cbn [xors zip_with].
  fold (xors l m). fold (xors (xors l m) m). rewrite IH by done.
  by rewrite Z.lxor_assoc, Z.lxor_nilpotent, Z.lxor_0_r.
Qed.

(** ** Header protection *)

Section Spec.
Context {G : Gcrypt} {L : GcryptLaws G}.

(** The bits of the first byte that are protected: four of a long header, five of
    a short one (RFC 9001, section 5.4.1). *)
Definition first_mask (first : Z) : Z := if Z.land first 0x80 =? 0x80 then 0x0f else 0x1f.

Definition pn_length (first : Z) : nat := Z.to_nat (Z.land first 0x03 + 1).

(** A packet with protected header: [first], the bytes [mid] up to the packet
    number [pn], which takes as many bytes as the first byte says, and [rest],
    from which the sample is taken four bytes after the packet number's offset. *)
Definition protect_header (a : Z) (key : list Z) (first : Z) (mid : list Z) (pn : Z) (rest : list Z) : list Z :=
  let n := pn_length first in
  match take 5 (ecb a key (take 16 (drop (4 - n) rest))) with
  | m0 :: ms => Z.lxor first (Z.land m0 (first_mask first)) :: mid ++ xors (be_bytes n pn) (take n ms) ++ rest
  | [] => []
  end.

Lemma byte_land_r a b : byte a -> 0 <= b -> byte (Z.land a b).
Proof.
  unfold byte. intros Ha Hb. pose proof (Z.land_nonneg a b). split; [lia|].
  destruct (Z.eq_dec (Z.land a b) 0) as [->|]; [lia|]. apply Z.log2_lt_cancel. change (Z.log2 256) with 8.
  pose proof (Z.log2_land a b ltac:(lia) Hb). pose proof (Z.log2_le_mono a 255 ltac:(lia)).
  change (Z.log2 255) with 7 in *. lia.
Qed.

Lemma land_lxor_l x y m : Z.land (Z.lxor x y) m = Z.lxor (Z.land x m) (Z.land y m).
Proof.
  apply Z.bits_inj'. intros i Hi. rewrite Z.land_spec, !Z.lxor_spec, !Z.land_spec.
  by destruct (Z.testbit x i), (Z.testbit y i), (Z.testbit m i).
Qed.

Lemma land3_range x : 0 <= Z.land x 3 <= 3.
Proof.
  replace (Z.land x 3) with (x mod 2 ^ 2) by (symmetry; by apply (Z.land_ones x 2)).
  pose proof (Z.mod_pos_bound x (2 ^ 2) ltac:(lia)). lia.
Qed.

(** Masking keeps the bit that selects the mask, and undoes itself. *)
Lemma first_byte_masked f m : byte f -> byte m ->
  let p := Z.lxor f (Z.land m (first_mask f)) in
  byte p /\ first_mask p = first_mask f /\ u8 (Z.lxor p (Z.land m (first_mask p))) = f.
Proof.
  intros Hf Hm p. assert (Hx : byte (Z.land m (first_mask f))).
  { apply byte_land_r; [done|]. unfold first_mask. case_ifs; lia. }
  assert (Hp : byte p) by by apply byte_lxor. assert (E : first_mask p = first_mask f).
  { unfold first_mask at 1. replace (Z.land p 128) with (Z.land f 128); [done|].
    unfold p. rewrite land_lxor_l. rewrite <-Z.land_assoc.
    replace (Z.land (first_mask f) 128) with 0 by (unfold first_mask; by case_ifs).
    by rewrite Z.land_0_r, Z.lxor_0_r. }
  split_and!; try done. rewrite E. unfold p. rewrite Z.lxor_assoc, Z.lxor_nilpotent, Z.lxor_0_r.
  by apply Z.mod_small.
Qed.

Lemma pkn_loop_spec len l mask : length l = len -> (len <= 4)%nat -> (len < length mask)%nat ->
  Forall byte l -> Forall byte mask ->
  forall n i acc, (i + n = len)%nat ->
  pkn_loop n (Z.of_nat i) (Z.of_nat len) (acc * 2 ^ (8 * Z.of_nat n)) l mask =
  Ret (acc * 2 ^ (8 * Z.of_nat n) + be (xors (drop i l) (take n (drop (S i) mask)))).
Proof.
  intros Hl Hlen Hm Hbl Hbm. induction n as [|n IH]; intros i acc Hi; cbn [pkn_loop].
  - rewrite take_0. unfold xors. rewrite zip_with_nil_r. change (be []) with 0. f_equal. lia.
  - destruct (lookup_lt_is_Some_2 l i) as [b Hb]; [lia|].
    destruct (lookup_lt_is_Some_2 mask (S i)) as [m Hm']; [lia|].
    replace (Z.to_nat (1 + Z.of_nat i)) with (S i) by lia. rewrite Nat2Z.id, Hb, Hm'. bind.
    pose proof (byte_lxor b m (Forall_lookup_1 _ _ _ _ Hbl Hb) (Forall_lookup_1 _ _ _ _ Hbm Hm')) as Hx.
    replace (8 * (Z.of_nat len - 1 - Z.of_nat i)) with (8 * Z.of_nat n) by lia.
    assert (Hu : u32 (Z.shiftl (Z.lxor b m) (8 * Z.of_nat n)) = Z.shiftl (Z.lxor b m) (8 * Z.of_nat n)).
    { unfold u32. apply Z.mod_small. rewrite Z.shiftl_mul_pow2 by lia. unfold byte in Hx.
      assert (2 ^ (8 * Z.of_nat n) <= 2 ^ 24) by (apply Z.pow_le_mono_r; lia). nia. }
    replace (8 * Z.of_nat (S n)) with (8 * Z.of_nat n + 8) by lia. rewrite Hu, lor_byte by (lia || done).
    replace (Z.of_nat i + 1) with (Z.of_nat (S i)) by lia. rewrite IH by lia. f_equal.
    rewrite (drop_S l b i Hb), (drop_S mask m (S i) Hm'). cbn [take xors zip_with]. rewrite be_cons.
    assert (Hlen2 : length (zip_with Z.lxor (drop (S i) l) (take n (drop (S (S i)) mask))) = n).
    { rewrite length_zip_with, length_take, !length_drop. lia. }
    rewrite Hlen2. unfold xors. rewrite Z.pow_add_r by lia.
    change 256 with (2 ^ 8). rewrite <-Z.pow_mul_r by lia. lia.
Qed.

(** C40. Header protection is removed: on every packet protected as RFC 9001
    describes, long header or short, with a packet number of 1 to 4 bytes,
    [quic_decrypt_header] returns the original first byte and packet number. *)
Theorem quic_decrypt_header_roundtrip a key h first mid pn rest :
  a = GCRY_CIPHER_AES128 \/ a = GCRY_CIPHER_AES256 ->
  cipher_is h a GCRY_CIPHER_MODE_ECB (Some key) ->
  byte first -> 0 <= pn < 256 ^ Z.of_nat (pn_length first) -> (20 <= length rest)%nat ->
  quic_decrypt_header (protect_header a key first mid pn rest) (Z.of_nat (S (length mid))) (Live h) a =
  Ret (1, Some (first, pn)).
Proof.
  intros Ha Hh Hf Hpn Hrest. unfold protect_header, quic_decrypt_header.
  assert (Hn : (1 <= pn_length first <= 4)%nat) by (unfold pn_length; pose proof (land3_range first); lia).
  set (n := pn_length first) in *. set (sample := take 16 (drop (4 - n) rest)).
  assert (Hs : length sample = 16%nat) by (unfold sample; rewrite length_take, length_drop; lia).
  pose proof (ecb_length a key sample Hs) as Hel. pose proof (ecb_byte a key sample) as Heb.
  set (mask := take 5 (ecb a key sample)).
  assert (Hml : length mask = 5%nat) by (unfold mask; rewrite length_take; lia).
  assert (Hmb : Forall byte mask) by by apply Forall_take.
  destruct mask as [|m0 ms] eqn:Em; [done|]. injection Hml as Hml.
  pose proof Hmb as Hmb'. apply Forall_cons in Hmb' as [Hm0 Hms].
  set (p0 := Z.lxor first _). set (pnb := xors (be_bytes n pn) (take n ms)).
  assert (Hpl : length pnb = n) by (unfold pnb; rewrite xors_length; rewrite be_bytes_length, ?length_take; lia).
  assert (E1 : slice (p0 :: mid ++ pnb ++ rest) (Z.of_nat (S (length mid)) + 4) 16 = Ret sample).
  { rewrite slice_ok by (cbn [length]; rewrite ?length_app; lia).
    replace (Z.to_nat (Z.of_nat (S (length mid)) + 4)) with (S (length mid + (length pnb + (4 - n)))) by lia.
    cbn [drop]. rewrite <-drop_drop, drop_app_length, <-drop_drop, drop_app_length. done. }
  rewrite E1. bind. replace ((a =? GCRY_CIPHER_AES128) || (a =? GCRY_CIPHER_AES256)) with true by by destruct Ha as [-> | ->].
  destruct (ecb_encrypt h a key sample Hh Hs) as [h' ->]. cbn [Z.eqb negb].
  rewrite (slice_prefix _ 5) by lia. fold mask. rewrite Em. bind.
  change ((p0 :: mid ++ pnb ++ rest) !! 0%nat) with (Some p0). bind.
  change ((m0 :: ms) !! 0%nat) with (Some m0). bind.
  fold (first_mask p0). destruct (first_byte_masked first m0 Hf Hm0) as (Hp0 & _ & Hp). fold p0 in Hp0, Hp.
  rewrite Hp. change (Z.land first 3 + 1) with (Z.land first 0x03 + 1).
  replace (Z.land first 3 + 1) with (Z.of_nat n) by (unfold n, pn_length; pose proof (land3_range first); lia).
  pose proof (slice_app (p0 :: mid) pnb rest (Z.of_nat (S (length mid))) (Z.of_nat n) eq_refl ltac:(lia)) as E2.
  cbn [app] in E2. rewrite E2. bind. rewrite Nat2Z.id.
  assert (Hpb : Forall byte pnb) by (apply xors_byte; [apply be_bytes_byte|by apply Forall_take]).
  pose proof (pkn_loop_spec n pnb (m0 :: ms) Hpl ltac:(lia) ltac:(simpl; lia) Hpb Hmb n 0 0 ltac:(lia)) as E3.
  rewrite Z.mul_0_l in E3. change (Z.of_nat 0) with 0 in E3. rewrite E3. bind. do 3 f_equal.
  assert (E4 : xors pnb (take n ms) = be_bytes n pn) by (apply xors_xors; rewrite be_bytes_length, length_take; lia).
  change (drop 0 pnb) with pnb. change (drop 1 (m0 :: ms)) with ms. rewrite E4, be_be_bytes, Z.mod_small by done.
  by rewrite Z.add_0_l.
Qed.

(** ** Messages *)

(** The nonce: the packet number, padded to twelve bytes, over the base. *)
Definition nonce_of (iv : list Z) (pn : Z) : list Z := xors iv (be_bytes 12 pn).

(** The associated data: the header of [n] bytes with its first byte and its packet
    number in the clear. *)
Definition plain_header (packet : list Z) (n : nat) (first_byte : Z) (pkn_len : nat) (pn : Z) : list Z :=
  first_byte :: take (n - pkn_len - 1) (drop 1 packet) ++ be_bytes pkn_len pn.

Lemma put_pkn_spec hl pn : forall n i header, length header = hl -> (i + n <= hl)%nat ->
  put_pkn n (Z.of_nat i) (Z.of_nat hl) pn header =
  Ret (take (hl - i - n) header ++ be_bytes n (pn / 256 ^ Z.of_nat i) ++ drop (hl - i) header).
Proof.
  induction n as [|n IH]; intros i header Hl Hi; cbn [put_pkn].
  - rewrite Nat.sub_0_r. cbn [be_bytes le_bytes rev app]. by rewrite take_drop.
  - replace (Z.of_nat hl - 1 - Z.of_nat i) with (Z.of_nat (hl - 1 - i)) by lia.
    assert (Hs : header = take (hl - 1 - i) header ++ take 1 (drop (hl - 1 - i) header) ++ drop (hl - i) header).
    { replace (hl - i)%nat with (hl - 1 - i + 1)%nat by lia. rewrite <-drop_drop, take_drop. by rewrite take_drop. }
    set (x := u8 (Z.shiftr pn (8 * Z.of_nat i))). rewrite Hs at 1.
    rewrite memcpy_app by (rewrite ?length_take, ?length_drop; cbn [length]; lia). bind.
    replace (Z.of_nat i + 1) with (Z.of_nat (S i)) by lia.
    assert (Htl : length (take (hl - 1 - i) header) = (hl - 1 - i)%nat) by (rewrite length_take; lia).
    rewrite IH by (rewrite ?length_app, ?length_drop; simpl; lia). f_equal.
    rewrite take_app_le by lia. rewrite take_take, Nat.min_l by lia.
    replace (hl - S i - n)%nat with (hl - i - S n)%nat by lia. f_equal. rewrite be_bytes_S, <-app_assoc.
    replace (hl - S i)%nat with (length (take (hl - 1 - i) header) + 0)%nat at 1 by lia.
    rewrite <-drop_drop, drop_app_length. cbn [drop app]. do 2 f_equal.
    + rewrite Nat2Z.inj_succ, Z.pow_succ_r by lia. rewrite (Z.mul_comm 256), Z.div_div by lia. done.
    + unfold x, u8. rewrite Z.shiftr_div_pow2 by lia. rewrite (Z.pow_mul_r 2 8) by lia. done.
Qed.

(** The nonce computed in place, through 64-bit numbers. *)
Lemma nonce_spec iv pn : length iv = 12%nat -> Forall byte iv -> 0 <= pn < 2 ^ 64 ->
  exists w, pntoh64 (drop 4 iv) = Ret w /\ memcpy iv 4 (phton64 (Z.lxor w pn)) = Ret (nonce_of iv pn).
Proof.
  intros Hl Hb Hpn. assert (Hd : length (drop 4 iv) = 8%nat) by (rewrite length_drop; lia).
  assert (Hbd : Forall byte (drop 4 iv)) by by apply Forall_drop.
  exists (be (drop 4 iv)). split; [by apply pntoh64_spec|].
  assert (Hx : phton64 (Z.lxor (be (drop 4 iv)) pn) = xors (drop 4 iv) (be_bytes 8 pn)).
  { assert (Hpn' : pn = be (be_bytes 8 pn)) by (rewrite be_be_bytes, Z.mod_small; done).
    rewrite Hpn' at 1. rewrite lxor_be by (rewrite ?be_bytes_length; done || apply be_bytes_byte).
    rewrite phton64_spec. assert (Hlx : length (xors (drop 4 iv) (be_bytes 8 pn)) = 8%nat)
      by (rewrite xors_length; rewrite ?be_bytes_length; lia).
    rewrite <-Hlx at 1. apply be_bytes_be. apply xors_byte; [done|apply be_bytes_byte]. }
  rewrite Hx. rewrite <-(take_drop 4 iv) at 1. rewrite memcpy_at; cycle 1.
  { rewrite length_take. lia. }
  { rewrite xors_length; rewrite ?be_bytes_length; lia. }
  rewrite (drop_ge (drop 4 iv)) by (rewrite xors_length; rewrite ?be_bytes_length; lia). rewrite app_nil_r.
  unfold nonce_of. change 12%nat with (8 + 4)%nat. rewrite be_bytes_app.
  rewrite (Z.div_small pn) by done. change (be_bytes 4 0) with [0; 0; 0; 0].
  do 5 (destruct iv as [|? iv]; [done|]). cbn [take drop app xors zip_with]. by rewrite !Z.lxor_0_r.
Qed.

(** The sanity checks pass, the allocations succeed and the key is set. *)
Record message_ok (a : Z) (key : list Z) (c : quic_cipher) (h : Hd) (packet : list Z)
    (header_length pkn_len : nat) (first_byte pn : Z) : Prop := MessageOk {
  mo_handle : pp_cipher c = Live h;
  mo_is : cipher_is h a GCRY_CIPHER_MODE_GCM (Some key);
  mo_iv : length (pp_iv c) = 12%nat /\ Forall byte (pp_iv c);
  mo_pkn : (1 <= pkn_len <= 4)%nat /\ (pkn_len < header_length)%nat;
  mo_pn : 0 <= pn < 2 ^ 64;
  mo_packet : Z.of_nat (length packet) < 2 ^ 32;
  mo_malloc : forall n, 0 < n -> is_Some (malloc n)
}.

(** The header, copied and patched. *)
Lemma header_spec packet hl pkn_len first_byte pn : (1 <= pkn_len < hl)%nat -> (hl <= length packet)%nat ->
  (h ← memcpy (take hl packet) 0 [first_byte]; put_pkn pkn_len 0 (Z.of_nat hl) pn h) =
  Ret (plain_header packet hl first_byte pkn_len pn).
Proof.
  intros Hp Hl. destruct packet as [|b packet]; [simpl in Hl; lia|]. destruct hl as [|m]; [lia|]. cbn [take].
  rewrite (memcpy_at [] (b :: take m packet)) by (simpl; lia || done). bind.
  change ([] ++ [first_byte] ++ drop (length [first_byte]) (b :: take m packet)) with (first_byte :: take m packet). simpl in Hl.
  pose proof (put_pkn_spec (S m) pn pkn_len 0 (first_byte :: take m packet)) as E.
  change (Z.of_nat 0) with 0 in E. rewrite E by (cbn [length]; rewrite ?length_take; lia). f_equal.
  change (256 ^ 0) with 1. rewrite Z.div_1_r, drop_ge by (cbn [length]; rewrite length_take; lia).
  rewrite app_nil_r, Nat.sub_0_r. unfold plain_header.
  replace (S m - pkn_len)%nat with (S (m - pkn_len)) by lia. cbn [take app]. do 2 f_equal.
  rewrite take_take. f_equal. lia.
Qed.

(** C39. A message is accepted exactly when it was sealed: on a packet longer than its
    header and the 16 bytes of the tag, [quic_decrypt_message] reads nothing outside
    the packet, and it yields the data [p] if and only if sealing [p] under the key,
    the nonce for the packet number and the plaintext header gives the packet's
    ciphertext and tag. *)
Theorem quic_decrypt_message_iff_sealed a key c h packet hl pkn_len first_byte pn :
  message_ok a key c h packet hl pkn_len first_byte pn ->
  (hl + 16 < length packet)%nat ->
  exists c' r, quic_decrypt_message c packet (Z.of_nat (length packet)) (Z.of_nat hl) first_byte
      (Z.of_nat pkn_len) pn = Ret (c', r) /\
    forall p, r = Some p <->
      seal a key (nonce_of (pp_iv c) pn) (plain_header packet hl first_byte pkn_len pn) p =
      (take (length packet - hl - 16) (drop hl packet), drop (length packet - 16) packet).
Proof.
  intros [Hpp Hh [Hiv Hivb] [Hp Hph] Hpn Hlen Hmal] Hlong. unfold quic_decrypt_message. rewrite Hpp.
  rewrite !(proj2 (Z.ltb_lt _ _)), !(proj2 (Z.leb_le _ _)) by lia. cbn [andb orb negb].
  unfold memdup. destruct (Hmal (Z.of_nat hl) ltac:(lia)) as [m1 ->].
  rewrite slice_prefix by lia. bind. rewrite Nat2Z.id.
  pose proof (header_spec packet hl pkn_len first_byte pn ltac:(lia) ltac:(lia)) as Hhd.
  destruct (memcpy (take hl packet) 0 [first_byte]) as [h0| |]; [|done..]. cbn [mbind res_bind] in Hhd |- *.
  rewrite Hhd. bind. set (n := (length packet - hl - 16)%nat).
  assert (Hbl : u32 (Z.of_nat (length packet) - u32 (Z.of_nat hl + 16)) = Z.of_nat n).
  { unfold u32, n. rewrite (Z.mod_small (Z.of_nat hl + 16)) by lia. rewrite Z.mod_small; lia. }
  rewrite Hbl, (proj2 (Z.eqb_neq _ _)) by lia. destruct (Hmal (Z.of_nat n) ltac:(lia)) as [m2 ->].
  rewrite slice_ok_nat by lia. bind.
  replace (Z.of_nat hl + Z.of_nat n) with (Z.of_nat (length packet - 16)) by lia.
  change 16 with (Z.of_nat 16) at 1. rewrite slice_ok_nat by lia. bind.
  pose proof (slice_ok_nat (pp_iv c) 4 8 ltac:(lia)) as Etail. change (Z.of_nat 4) with 4 in Etail.
  change (Z.of_nat 8) with 8 in Etail. rewrite Etail. bind. rewrite (take_ge (drop 4 _)) by (rewrite length_drop; lia).
  destruct (nonce_spec (pp_iv c) pn Hiv Hivb Hpn) as (w & -> & E2). bind. rewrite E2. bind.
  rewrite (take_ge (drop (length packet - 16) packet)) by (rewrite length_drop; lia).
  set (ct := take n (drop hl packet)). set (tag := drop (length packet - 16) packet).
  set (aad := plain_header packet hl first_byte pkn_len pn).
  assert (Hnl : length (nonce_of (pp_iv c) pn) = 12%nat)
    by (unfold nonce_of; rewrite xors_length; rewrite ?be_bytes_length; lia).
  destruct (gcm_decrypt h a key _ aad ct tag Hh Hnl) as (h1 & h2 & h3 & p0 & -> & Ha & Hd & _ & Htag & Hinv).
  cbn [Z.eqb negb]. rewrite Ha. cbn [Z.eqb negb]. rewrite Hd. cbn [Z.eqb negb].
  destruct (Z.eqb_spec (cipher_checktag h3 tag) 0) as [Ht|Ht]; cbn [negb]; do 2 eexists; (split; [done|]); intros p.
  - apply Htag in Ht. split; [intros [= <-]; exact Ht|]. intros Hs. f_equal.
    symmetry. apply Hinv. by rewrite Hs.
  - split; [done|]. intros Hs. destruct Ht. apply Htag. rewrite <-(Hinv p) by by rewrite Hs. done.
Qed.

(** Short packets are read out of bounds: when the packet is shorter than its
    header and the tag, the length of the ciphertext wraps around to almost 2^32
    instead of being refused, and the copy reads past the end of the packet. *)
Theorem quic_decrypt_message_underflow a key c h packet hl pkn_len first_byte pn :
  message_ok a key c h packet hl pkn_len first_byte pn ->
  (hl <= length packet < hl + 16)%nat -> Z.of_nat (length packet) < 2 ^ 31 ->
  quic_decrypt_message c packet (Z.of_nat (length packet)) (Z.of_nat hl) first_byte (Z.of_nat pkn_len) pn = UB.
Proof.
  intros [Hpp Hh _ [Hp Hph] Hpn Hlen Hmal] Hshort Hl. unfold quic_decrypt_message. rewrite Hpp.
  rewrite !(proj2 (Z.ltb_lt _ _)), !(proj2 (Z.leb_le _ _)) by lia. cbn [andb orb negb].
  unfold memdup. destruct (Hmal (Z.of_nat hl) ltac:(lia)) as [m1 ->].
  rewrite slice_prefix by lia. bind. rewrite Nat2Z.id.
  pose proof (header_spec packet hl pkn_len first_byte pn ltac:(lia) ltac:(lia)) as Hhd.
  destruct (memcpy (take hl packet) 0 [first_byte]) as [h0| |]; [|done..]. cbn [mbind res_bind] in Hhd |- *.
  rewrite Hhd. bind.
  assert (Hbl : u32 (Z.of_nat (length packet) - u32 (Z.of_nat hl + 16)) =
    Z.of_nat (length packet) - Z.of_nat hl - 16 + 2 ^ 32).
  { unfold u32. rewrite (Z.mod_small (Z.of_nat hl + 16)) by lia. rewrite <-(Z_mod_plus_full _ 1).
    rewrite Z.mod_small; lia. }
  rewrite Hbl, (proj2 (Z.eqb_neq _ _)) by lia.
  destruct (Hmal (Z.of_nat (length packet) - Z.of_nat hl - 16 + 2 ^ 32) ltac:(lia)) as [m2 ->].
  by rewrite (slice_short packet (Z.of_nat hl)) by lia.
Qed.

(** ** Keys *)

Lemma setkey_ok h k : (cipher_setkey h k).1 = 0 ->
  exists h', setkey (Live h) k = Ret (0, Live h') /\ cipher_setkey h k = (0, h').
Proof. unfold setkey. destruct (cipher_setkey h k) as [e h']. simpl. intros ->. by exists h'. Qed.

(** Preparing the ciphers: when the ciphers open and accept their keys,
    [quic_cipher_prepare] returns 1 with the header protection cipher keyed in ECB
    mode with the "quic hp" secret, the packet cipher keyed in its mode with the
    "quic key" secret, and the base of the nonces set to the "quic iv" secret. *)
Theorem quic_cipher_prepare_keys c hash a mode secret write_key hp_key stack :
  a = GCRY_CIPHER_AES128 \/ a = GCRY_CIPHER_AES256 ->
  0 < cipher_keylen a <= 32 ->
  (forall md, (cipher_open a md).1 = 0) -> (forall h k, (cipher_setkey h k).1 = 0) ->
  Z.of_nat (length secret) = md_dlen hash ->
  label_ok hash secret quic_key [] (cipher_keylen a) -> label_ok hash secret quic_iv [] 12 ->
  label_ok hash secret quic_hp [] (cipher_keylen a) ->
  length write_key = 32%nat -> length hp_key = 32%nat -> length (pp_iv c) = 12%nat -> length stack = 48%nat ->
  exists hp pp, quic_cipher_prepare c hash a mode (Some secret) write_key hp_key stack =
      Ret (1, QuicCipher (Live hp) (Live pp) (HKDF_Expand_Label hash secret quic_iv [] 12)) /\
    cipher_is hp a GCRY_CIPHER_MODE_ECB (Some (HKDF_Expand_Label hash secret quic_hp [] (cipher_keylen a))) /\
    cipher_is pp a mode (Some (HKDF_Expand_Label hash secret quic_key [] (cipher_keylen a))).
Proof.
  intros Ha Hkl Hopen Hset Hsec Hk Hi Hhp Hw Hhk Hiv Hst. unfold quic_cipher_prepare, quic_get_pn_cipher_algo.
  replace ((a =? GCRY_CIPHER_AES128) || (a =? GCRY_CIPHER_AES256)) with true by by destruct Ha as [-> | ->].
  assert (Hop : forall md, exists h, cipher_open a md = (0, Some h)).
  { intros md. destruct (cipher_open_some a md) as (h & [E|E]); [by exists h|]. by rewrite Hopen in E. }
  destruct (Hop GCRY_CIPHER_MODE_ECB) as [h1 E1]. destruct (Hop mode) as [h2 E2]. rewrite E1, E2. cbn [Z.eqb negb hp_cipher pp_cipher pp_iv opened].
  apply cipher_open_is in E1, E2. unfold u8. rewrite Z.mod_small by lia. set (kl := cipher_keylen a) in *.
  assert (Hd : 0 < md_dlen hash) by apply (lo_dlen _ _ _ _ _ Hi).
  assert (Hlk : forall l lab, 0 < l -> length (HKDF_Expand_Label hash secret lab [] l) = Z.to_nat l)
    by (intros l lab Hl; apply HKDF_Expand_length; lia).
  unfold quic_cipher_init. cbn [pp_iv pp_cipher hp_cipher]. rewrite (proj2 (Z.ltb_ge 32 kl)) by lia.
  rewrite slice_full by lia. bind.
  rewrite (quic_hkdf_expand_label_spec _ _ _ _ _ _ Hk) by lia. bind. cbn [Z.eqb].
  rewrite (quic_hkdf_expand_label_spec _ _ _ _ _ _ Hi) by lia. bind. cbn [Z.eqb].
  rewrite (quic_hkdf_expand_label_spec _ _ _ _ _ _ Hhp) by lia. bind. cbn [Z.eqb].
  assert (Hpre : forall lab (r : list Z), slice (HKDF_Expand_Label hash secret lab [] kl ++ r) 0 kl =
    Ret (HKDF_Expand_Label hash secret lab [] kl)).
  { intros lab r. pose proof (slice_app_l (HKDF_Expand_Label hash secret lab [] kl) r) as E.
    rewrite Hlk, Z2Nat.id in E by lia. exact E. }
  rewrite (Hpre quic_hp). bind. cbn [hp_cipher pp_cipher pp_iv]. destruct (setkey_ok h1 (HKDF_Expand_Label hash secret quic_hp [] kl)) as (hp & -> & Es1);
    [apply Hset|]. bind. cbn [Z.eqb negb]. rewrite (Hpre quic_key). bind.
  destruct (setkey_ok h2 (HKDF_Expand_Label hash secret quic_key [] kl)) as (pp & -> & Es2); [apply Hset|].
  bind. cbn [Z.eqb negb].
  exists hp, pp. rewrite drop_ge, app_nil_r by (rewrite Hiv; simpl; lia).
  split; [done|]. split; by eapply cipher_setkey_is.
Qed.

(** A failed key derivation is reported as success: when no memory can be had,
    [quic_cipher_init] returns 1, so [quic_cipher_prepare] returns 1 with two open
    ciphers that were never given a key. *)
Theorem quic_cipher_prepare_hides_failure c hash a mode secret write_key hp_key stack hp pp :
  a = GCRY_CIPHER_AES128 \/ a = GCRY_CIPHER_AES256 ->
  0 <= cipher_keylen a <= 32 -> 0 <= md_dlen hash <= Z.of_nat (length secret) ->
  cipher_open a GCRY_CIPHER_MODE_ECB = (0, Some hp) -> cipher_open a mode = (0, Some pp) ->
  malloc 1024 = None ->
  quic_cipher_prepare c hash a mode (Some secret) write_key hp_key stack =
    Ret (1, QuicCipher (Live hp) (Live pp) (pp_iv c)) /\
  cipher_is hp a GCRY_CIPHER_MODE_ECB None /\ cipher_is pp a mode None.
Proof.
  intros Ha Hkl Hd E1 E2 Hm. split; [|split; by apply cipher_open_is].
  unfold quic_cipher_prepare, quic_get_pn_cipher_algo.
  replace ((a =? GCRY_CIPHER_AES128) || (a =? GCRY_CIPHER_AES256)) with true by by destruct Ha as [-> | ->].
  rewrite E1, E2. cbn [Z.eqb negb hp_cipher pp_cipher pp_iv opened]. unfold quic_cipher_init.
  assert (Hk : u8 (cipher_keylen a) = cipher_keylen a) by (apply Z.mod_small; lia).
  rewrite Hk, (proj2 (Z.ltb_ge 32 _)), slice_ok by lia. bind.
  unfold quic_hkdf_expand_label, tls13_hkdf_expand_label, tls13_hkdf_expand_label_context. by rewrite Hm.
Qed.
End Spec.

(** ** On the toy library *)

#[local] Existing Instance Toy.toy.

(** A short header with a packet number of two bytes. *)
Lemma quic_decrypt_header_roundtrip_witness :
  quic_decrypt_header (protect_header 7 [1; 2; 3] 0x41 [0xaa] 0x1234 (repeat 9 20)) 2
    (Live (Toy.Cph 7 1 (Some [1; 2; 3]) [] [] [])) 7 = Ret (1, Some (0x41, 0x1234)).
Proof.
  apply (quic_decrypt_header_roundtrip (G := Toy.toy) 7 [1; 2; 3] (Toy.Cph 7 1 (Some [1; 2; 3]) [] [] []) 0x41 [0xaa] 0x1234 (repeat 9 20));
    [by left|done|done|done|simpl; lia].
Defined.

(** A cipher, and a packet of a header of four bytes sealed under it. *)
Definition toy_cipher : quic_cipher :=
  QuicCipher Null (Live (Toy.Cph 7 9 (Some [5]) [] [] [])) (repeat 1 12).
Definition toy_packet : list Z :=
  let '(ct, t) := seal 7 [5] (nonce_of (repeat 1 12) 3) [0x40; 7; 0; 3] [10; 20] in [0xff; 7; 0xee; 0xdd] ++ ct ++ t.

Lemma toy_message packet : Z.of_nat (length packet) < 2 ^ 32 ->
  message_ok 7 [5] toy_cipher (Toy.Cph 7 9 (Some [5]) [] [] []) packet 4 2 0x40 3.
Proof.
  intros H. constructor; [done|by split|split; [done|by repeat constructor]|lia|lia|exact H|by intros; eexists].
Qed.

Lemma quic_decrypt_message_iff_sealed_witness :
  exists c' r, quic_decrypt_message toy_cipher toy_packet 22 4 0x40 2 3 = Ret (c', r) /\ r = Some [10; 20].
Proof.
  destruct (quic_decrypt_message_iff_sealed (G := Toy.toy) 7 [5] toy_cipher _ toy_packet 4 2 0x40 3
    (toy_message toy_packet eq_refl) ltac:(vm_compute; lia)) as (c' & r & E & Hr).
  exists c', r. split; [exact E|]. apply Hr. by vm_compute.
Defined.

Lemma quic_decrypt_message_underflow_witness :
  quic_decrypt_message toy_cipher [0x40; 1; 2; 3; 4] 5 4 0x40 2 3 = UB.
Proof.
  exact (quic_decrypt_message_underflow (G := Toy.toy) 7 [5] toy_cipher _ [0x40; 1; 2; 3; 4] 4 2 0x40 3
    (toy_message [0x40; 1; 2; 3; 4] eq_refl) ltac:(simpl; lia) eq_refl).
Defined.

Lemma quic_cipher_prepare_keys_witness :
  exists hp pp, quic_cipher_prepare (QuicCipher Null Null (repeat 0 12)) GCRY_MD_SHA256 7 9
      (Some (repeat 3 32)) (repeat 0 32) (repeat 0 32) (repeat 0 48) =
    Ret (1, QuicCipher (Live hp) (Live pp) (HKDF_Expand_Label GCRY_MD_SHA256 (repeat 3 32) quic_iv [] 12)).
Proof.
  destruct (quic_cipher_prepare_keys (QuicCipher Null Null (repeat 0 12)) GCRY_MD_SHA256 7 9
      (repeat 3 32) (repeat 0 32) (repeat 0 32) (repeat 0 48)) as (hp & pp & E & _);
    try reflexivity; try (by apply toy_label; simpl; lia); [by left|done|by exists hp, pp].
Defined.

Lemma quic_cipher_prepare_hides_failure_witness :
  exists hp pp, quic_cipher_prepare (G := Toy.toy_with false) (QuicCipher (G := Toy.toy_with false) (Null (G := Toy.toy_with false)) (Null (G := Toy.toy_with false)) [])
    GCRY_MD_SHA256 7 9 (Some (repeat 3 32)) (repeat 0 32) (repeat 0 32) (repeat 0 48) =
    Ret (1, QuicCipher (G := Toy.toy_with false) (Live hp) (Live pp) []).
Proof.
  do 2 eexists. apply (quic_cipher_prepare_hides_failure (G := Toy.toy_with false)
    (QuicCipher (G := Toy.toy_with false) (Null (G := Toy.toy_with false)) (Null (G := Toy.toy_with false)) []));
    [by left|done|done|reflexivity|reflexivity|reflexivity].
Defined.
