(* ===== verification/Suffix.v ===== *)
(** Suffixes of byte strings, as the two string matchers use them: a shorter suffix is
    a suffix of a longer one, and the longest string of a set that is a suffix. *)
From S2P Require Import Prelude.

Definition proper_suffix (u s : list Z) : Prop := u `suffix_of` s /\ u <> s.

Definition longest (X : list Z -> Prop) (s u : list Z) : Prop :=
  X u /\ proper_suffix u s /\ forall v, X v -> proper_suffix v s -> (length v <= length u)%nat.

(** [longest] without [proper]: the longest string of [X] that is a suffix of [d]. *)
Definition longest_suffix (X : list Z -> Prop) (d u : list Z) : Prop :=
  X u /\ u `suffix_of` d /\ forall v, X v -> v `suffix_of` d -> (length v <= length u)%nat.

Lemma suffix_snoc (s : list Z) c w : proper_suffix w (s ++ [c]) -> w = [] \/ exists v, w = v ++ [c] /\ proper_suffix v s.
Proof.
  intros [[k E] Hne]. destruct w as [|a w _] using rev_ind; [by left|right].
  rewrite app_assoc in E. apply app_inj_tail in E as [-> ->]. exists w. split; [done|].
  split; [by exists k|]. intros E. apply Hne. by rewrite E at 1.
Qed.

Lemma suffix_snoc_2 v s c : proper_suffix v s -> proper_suffix (v ++ [c]) (s ++ [c]).
Proof.
  intros [[k ->] Hne]. split; [exists k; by rewrite app_assoc|]. intros E. by apply app_inj_tail in E as [? _].
Qed.

Lemma proper_nil s : s <> [] -> proper_suffix [] s.
Proof. intros H. split; [exists s; by rewrite app_nil_r|done]. Qed.

Lemma proper_length v s : proper_suffix v s -> (length v < length s)%nat.
Proof.
  intros [[k ->] Hne]. rewrite length_app. destruct k; [done|]. cbn [length]. lia.
Qed.

(** Of two suffixes the shorter one is a suffix of the other. *)
Lemma suffix_shorter (v u s : list Z) : v `suffix_of` s -> u `suffix_of` s -> (length v < length u)%nat -> proper_suffix v u.
Proof.
  intros [k ->] [j E] Hl. assert (Hk : (length j <= length k)%nat).
  { apply (f_equal length) in E. rewrite !length_app in E. lia. }
  rewrite <-(take_drop (length j) k), <-app_assoc in E. apply app_inj_1 in E as [_ E]; [|by rewrite length_take; lia].
  split; [by exists (drop (length j) k)|]. intros ->. lia.
Qed.

Lemma suffix_same (v u s : list Z) : v `suffix_of` s -> u `suffix_of` s -> length v = length u -> v = u.
Proof. intros [k ->] [j E] Hl. by apply app_inj_2 in E as [_ E]. Qed.

Lemma proper_trans u v s : proper_suffix u v -> v `suffix_of` s -> proper_suffix u s.
Proof.
  intros Hu Hv. split; [by transitivity v; [apply Hu|]|]. intros ->. apply proper_length in Hu.
  destruct Hv as [k ->]. rewrite length_app in Hu. lia.
Qed.

Lemma longest_suffix_nil (X : list Z -> Prop) : X [] -> longest_suffix X [] [].
Proof. intros H. split; [done|]. split; [done|]. intros v _ [k E]. symmetry in E. by apply app_nil in E as [_ ->]. Qed.
