(* ===== verification/Kmp.v ===== *)
(** Component: Knuth-Morris-Pratt string matching, src/c-study/str_match/kmp/kmp_test.c.
    The table that [cal_next] builds holds the longest proper border of each prefix of
    the pattern, and [KMP] returns the first occurrence.  Both loops keep the same
    fact: the state is the longest prefix of the pattern that is a suffix of what was
    read, so one lemma serves both. *)
From S2P Require Import Prelude Arrays Suffix.

(** ** The program *)

(** [while (k > -1 && ptr[k + 1] != c) k = next[k];] *)
Fixpoint fall_back (fuel : nat) (ptr next : list Z) (c k : Z) : res Z :=
  if negb (-1 <? k) then Ret k else
  x ← zget ptr (k + 1);
  if x =? c then Ret k else
  match fuel with
  | O => Fuel
  | S n => k ← zget next k; fall_back n ptr next c k
  end.

(** [if (ptr[k + 1] == c) k = k + 1;] *)
Definition advance (ptr : list Z) (c k : Z) : res Z :=
  x ← zget ptr (k + 1); Ret (if x =? c then k + 1 else k).

Definition cal_next (str next : list Z) (len : Z) : res (list Z) :=
  next ← zset next 0 (-1);
  r ← for_ 1 (Z.to_nat (len - 1)) (fun q '(next, k) =>
    c ← zget str (Z.of_nat q);
    k ← fall_back (Z.to_nat len) str next c k;
    k ← advance str c k;
    next ← zset next (Z.of_nat q) k;
    Ret (next, k)) (next, -1);
  Ret r.1.

(** The loop over the text, with [n] characters left. *)
Fixpoint search (n : nat) (str ptr next : list Z) (plen i k : Z) : res Z :=
  match n with
  | O => Ret (-1)
  | S n =>
      c ← zget str i;
      k ← fall_back (Z.to_nat plen) ptr next c k;
      k ← advance ptr c k;
      if k =? plen - 1 then Ret (i - plen + 1) else search n str ptr next plen (i + 1) k
  end.

(** [mem] is what the new array [next] contains.  The result is what is printed and what
    is returned. *)
Definition KMP (mem str : list Z) (slen : Z) (ptr : list Z) (plen : Z) : res (list Z * Z) :=
  next ← cal_next ptr mem plen;
  out ← mapM (zget next) (seqZ 0 plen);
  r ← search (Z.to_nat slen) str ptr next plen 0 (-1);
  Ret (out, r).

(** ** Specification *)

(** The prefix of length [m] of the pattern [p] is a suffix of [s]. *)
Definition ends (p s : list Z) (m : nat) : Prop := (m <= length p)%nat /\ take m p `suffix_of` s.

Definition best (p s : list Z) (m : nat) : Prop := ends p s m /\ forall j, ends p s j -> (j <= m)%nat.

(** The first [n] entries of the table: one less than the longest proper border of each
    prefix. *)
Definition table_upto (p next : list Z) (n : nat) : Prop :=
  forall i, (1 <= i <= n)%nat ->
  exists b, next !! (i - 1)%nat = Some (Z.of_nat b - 1) /\ best p (drop 1 (take i p)) b.

Definition occurs (p t : list Z) (j : nat) : Prop := take (length p) (drop j t) = p.

Definition first_occurrence (p t : list Z) (r : Z) : Prop :=
  (r = -1 /\ forall j, ~ occurs p t j) \/
  (exists j, r = Z.of_nat j /\ occurs p t j /\ forall i, (i < j)%nat -> ~ occurs p t i).

(** ** Prefixes that are suffixes *)

Lemma proper_drop u w : proper_suffix u w -> u `suffix_of` drop 1 w.
Proof.
  intros [[[|x k] E] Hne]; [by cbn in E|]. subst. by exists k.
Qed.

Lemma ends_shorter p s j m : ends p s j -> ends p s m -> (j < m)%nat -> ends p (drop 1 (take m p)) j.
Proof.
  intros [Hj Sj] [Hm Sm] Hlt. split; [done|]. apply proper_drop.
  eapply suffix_shorter; [exact Sj|exact Sm|rewrite !length_take; lia].
Qed.

Lemma ends_trans p s j m : ends p (drop 1 (take m p)) j -> ends p s m -> ends p s j.
Proof.
  intros [Hj Sj] [Hm Sm]. split; [done|]. etrans; [exact Sj|]. etrans; [|exact Sm].
  exists (take 1 (take m p)). by rewrite take_drop.
Qed.

Lemma ends_length p s j : ends p s j -> (j <= length s)%nat.
Proof.
  intros [Hj [k ->]]. rewrite length_app, length_take. lia.
Qed.

Lemma ends_zero p s : ends p s 0.
Proof. split; [lia|]. cbn. exists s. by rewrite app_nil_r. Qed.

Lemma best_nil p : best p [] 0.
Proof. split; [apply ends_zero|]. intros j Hj%ends_length. done. Qed.

(** A prefix that ends after one more character is empty or extends one. *)
Lemma ends_snoc p s c j : ends p (s ++ [c]) (S j) <-> ends p s j /\ p !! j = Some c.
Proof.
  split.
  - intros [Hj [k E]]. destruct (lookup_lt_is_Some_2 p j) as [x Hx]; [lia|].
    rewrite (take_S_r _ _ _ Hx), app_assoc in E. apply app_inj_tail in E as [-> ->].
    split; [|done]. split; [lia|]. by exists k.
  - intros [[Hj [k ->]] Hc]. apply lookup_lt_Some in Hc as Hl. split; [lia|].
    exists k. by rewrite (take_S_r _ _ _ Hc), app_assoc.
Qed.

(** ** One character *)

Lemma fall_back_spec p next s c m fuel : (m < length p)%nat -> table_upto p next m -> ends p s m ->
  (forall j, ends p (s ++ [c]) (S j) -> (j <= m)%nat) -> (m <= fuel)%nat ->
  exists m', fall_back fuel p next c (Z.of_nat m - 1) = Ret (Z.of_nat m' - 1) /\ (m' <= m)%nat /\ ends p s m' /\
    (forall j, ends p (s ++ [c]) (S j) -> (j <= m')%nat) /\ (m' = 0%nat \/ p !! m' = Some c).
Proof.
  revert m. induction fuel as [|fuel IH]; intros m Hm Ht He Hmax Hf; cbn [fall_back].
  { assert (m = 0%nat) as -> by lia. exists 0%nat. split; [done|auto]. }
  destruct (Z.ltb_spec (-1) (Z.of_nat m - 1)) as [Hk|Hk]; cbn [negb].
  2: { assert (m = 0%nat) as -> by lia. exists 0%nat. split; [done|auto]. }
  replace (Z.of_nat m - 1 + 1) with (Z.of_nat m) by lia.
  destruct (lookup_lt_is_Some_2 p m Hm) as [x Hx]. rewrite (zget_nat _ _ _ Hx). bind.
  destruct (Z.eqb_spec x c) as [->|Hne]; [exists m; split_and!; auto|].
  destruct (Ht m) as (b & Hb & [Hbe Hbm]); [lia|].
  replace (Z.of_nat m - 1) with (Z.of_nat (m - 1)) by lia. rewrite (zget_nat _ _ _ Hb). bind.
  pose proof (ends_length _ _ _ Hbe) as Hlt. rewrite length_drop, length_take in Hlt.
  destruct (IH b) as (m' & E & Hle & H); [lia| |by eapply ends_trans| |lia|].
  - intros i Hi. apply Ht. lia.
  - intros j Hj. pose proof (Hmax j Hj) as Hjm. apply ends_snoc in Hj as [Hj Hc].
    apply Hbm. eapply ends_shorter; [exact Hj|exact He|].
    destruct (decide (j = m)) as [->|]; [|lia]. congruence.
  - exists m'. split; [done|]. split; [lia|done].
Qed.

Lemma char_spec p next s c m fuel : (m < length p)%nat -> table_upto p next m -> best p s m -> (m <= fuel)%nat ->
  exists m', (k ← fall_back fuel p next c (Z.of_nat m - 1); advance p c k) = Ret (Z.of_nat m' - 1) /\
    (m' <= S m)%nat /\ best p (s ++ [c]) m'.
Proof.
  intros Hm Ht [He Hmax] Hf. destruct (fall_back_spec p next s c m fuel) as (n & -> & Hn & Hne & Hnm & Hc); try done.
  { intros j [Hj _]%ends_snoc. by apply Hmax. }
  bind. unfold advance. replace (Z.of_nat n - 1 + 1) with (Z.of_nat n) by lia.
  destruct (lookup_lt_is_Some_2 p n) as [x Hx]; [lia|]. rewrite (zget_nat _ _ _ Hx). bind.
  destruct (Z.eqb_spec x c) as [->|Hx'].
  - exists (S n). split; [f_equal; lia|]. split; [lia|]. split; [by apply ends_snoc|].
    intros [|j] Hj; [lia|]. apply Hnm in Hj. lia.
  - destruct Hc as [->|]; [|congruence]. exists 0%nat. split; [done|]. split; [lia|]. split; [apply ends_zero|].
    intros [|j] Hj; [lia|]. pose proof (Hnm j Hj). assert (j = 0%nat) as -> by lia.
    apply ends_snoc in Hj as [_ Hj]. congruence.
Qed.

(** ** The table *)

Lemma cal_next_spec p mem : (0 < length p)%nat -> length mem = length p ->
  exists next, cal_next p mem (Z.of_nat (length p)) = Ret next /\ length next = length p /\
    table_upto p next (length p).
Proof.
  intros Hp Hl. unfold cal_next. rewrite (zset_nat mem 0) by lia. bind.
  destruct (for_inv (fun q '(next, k) => length next = length p /\ table_upto p next q /\
      exists m, k = Z.of_nat m - 1 /\ best p (drop 1 (take q p)) m) 1 (Z.to_nat (Z.of_nat (length p) - 1))
    (fun q '(next, k) => c ← zget p (Z.of_nat q);
      k ← fall_back (Z.to_nat (Z.of_nat (length p))) p next c k; k ← advance p c k;
      next ← zset next (Z.of_nat q) k; Ret (next, k))
    (<[0%nat := -1]> mem, -1)) as ([next k] & E & H1 & H2 & _).
  - assert (H0 : drop 1 (take 1 p) = []).
    { by destruct p. }
    rewrite length_insert. split; [done|]. split.
    + intros i Hi. exists 0%nat. assert (i = 1%nat) as -> by lia. rewrite list_lookup_insert_eq by lia.
      split; [done|]. rewrite H0. apply best_nil.
    + exists 0%nat. split; [done|]. rewrite H0. apply best_nil.
  - intros q [next k] Hq (H1 & H2 & m & -> & Hb). destruct (lookup_lt_is_Some_2 p q) as [c Hc]; [lia|].
    pose proof (ends_length _ _ _ (proj1 Hb)) as Hlt. rewrite length_drop, length_take in Hlt.
    rewrite (zget_nat _ _ _ Hc), Nat2Z.id. bind.
    destruct (char_spec p next (drop 1 (take q p)) c m (length p)) as (m' & E & Hm' & Hb'); [lia| |done|lia|].
    { intros i Hi. apply H2. lia. }
    destruct (fall_back _ _ _ _ _) as [k1| |]; [|done..]. revert E. bind. intros ->. bind.
    rewrite zset_nat by lia. bind. eexists. split; [done|].
    assert (Es : drop 1 (take q p) ++ [c] = drop 1 (take (S q) p)).
    { rewrite (take_S_r _ _ _ Hc). rewrite drop_app_le; [done|]. rewrite length_take. lia. }
    rewrite Es in Hb'. cbn beta iota. rewrite length_insert. split; [done|]. split; [|by exists m'].
    intros i Hi. destruct (decide (i = S q)) as [->|Hne].
    + exists m'. replace (S q - 1)%nat with q by lia. by rewrite list_lookup_insert_eq by lia.
    + rewrite list_lookup_insert_ne by lia. apply H2. lia.
  - rewrite E. bind. exists next. split; [done|]. split; [done|]. intros i Hi. apply H2. lia.
Qed.

Lemma mapM_zget next n : length next = n -> mapM (M:=res) (B:=Z) (zget next) (seqZ 0 (Z.of_nat n)) = Ret next.
Proof.
  intros <-. assert (H : forall l pre, next = pre ++ l ->
    mapM (M:=res) (B:=Z) (zget next) (seqZ (Z.of_nat (length pre)) (Z.of_nat (length l))) = Ret l).
  { induction l as [|x l IH]; intros pre E; [done|]. cbn [length].
    rewrite Nat2Z.inj_succ, seqZ_cons by lia. cbn [mapM]. rewrite (zget_nat next (length pre) x).
    2: { by rewrite E, list_lookup_middle. }
    bind. replace (Z.pred (Z.succ (Z.of_nat (length l)))) with (Z.of_nat (length l)) by lia.
    replace (Z.succ (Z.of_nat (length pre))) with (Z.of_nat (length (pre ++ [x]))) by (rewrite length_app; cbn [length]; lia).
    by rewrite IH by (by rewrite E, <-app_assoc). }
  by apply (H next []).
Qed.

(** ** The search *)

Lemma occurs_ends p t j : (0 < length p)%nat ->
  occurs p t j <-> (j + length p <= length t)%nat /\ ends p (take (j + length p) t) (length p).
Proof.
  intros Hp. unfold occurs, ends. rewrite firstn_all. split.
  - intros E. split.
    + apply (f_equal length) in E. rewrite length_take, length_drop in E. lia.
    + split; [done|]. exists (take j t). by rewrite <-take_take_drop, E.
  - intros [Hl [_ [k E]]]. assert (Hk : length k = j).
    { apply (f_equal length) in E. rewrite length_take, length_app in E. lia. }
    rewrite take_drop_commute, E, <-Hk. by rewrite drop_app_length.
Qed.

Lemma search_spec p next t n i m : (0 < length p)%nat -> table_upto p next (length p) ->
  (i + n = length t)%nat -> best p (take i t) m -> (m < length p)%nat ->
  (forall j, (j + length p <= i)%nat -> ~ occurs p t j) ->
  exists r, search n t p next (Z.of_nat (length p)) (Z.of_nat i) (Z.of_nat m - 1) = Ret r /\ first_occurrence p t r.
Proof.
  intros Hp Ht. revert i m. induction n as [|n IH]; intros i m Hi Hb Hm Hno; cbn [search].
  { exists (-1). split; [done|]. left. split; [done|]. intros j Ho. apply (Hno j); [|done].
    apply occurs_ends in Ho as [Hj _]; lia. }
  destruct (lookup_lt_is_Some_2 t i) as [c Hc]; [lia|]. rewrite (zget_nat _ _ _ Hc), Nat2Z.id. bind.
  destruct (char_spec p next (take i t) c m (length p)) as (m' & E & Hm' & Hb'); [lia| |done|lia|].
  { intros q Hq. apply Ht. lia. }
  rewrite <-(take_S_r _ _ _ Hc) in Hb'.
  destruct (fall_back _ _ _ _ _) as [k1| |]; [|done..]. revert E. bind. intros ->. bind.
  assert (Hearly : forall j, (j + length p <= S i)%nat -> occurs p t j -> m' = length p /\ j = (S i - length p)%nat).
  { intros j Hj Ho. destruct (decide (j + length p = S i)%nat) as [Ej|].
    - apply occurs_ends in Ho as [_ Ho]; [|done]. rewrite Ej in Ho. apply Hb' in Ho. lia.
    - exfalso. apply (Hno j); [lia|done]. }
  destruct (Z.eqb_spec (Z.of_nat m' - 1) (Z.of_nat (length p) - 1)) as [Em|Em].
  - assert (m' = length p) as -> by lia. pose proof (ends_length _ _ _ (proj1 Hb')) as Hl. rewrite length_take in Hl.
    exists (Z.of_nat i - Z.of_nat (length p) + 1). split; [done|]. right. exists (S i - length p)%nat. split; [lia|]. split.
    + apply occurs_ends; [done|]. replace (S i - length p + length p)%nat with (S i) by lia. split; [lia|apply Hb'].
    + intros j Hj Ho. apply Hearly in Ho as [_ Ho]; lia.
  - replace (Z.of_nat i + 1) with (Z.of_nat (S i)) by lia. apply (IH (S i) m'); [lia|done|lia|].
    intros j Hj Ho. apply Hearly in Ho as [Ho _]; lia.
Qed.

(** ** Theorems *)

(** C30. [KMP] is correct: for every text and every pattern of at least one character,
    whatever the new array [next] contains, it stays inside the text, the pattern and
    the table, ends, prints for each prefix of the pattern one less than the length of
    its longest proper border, and returns the position of the first occurrence of the
    pattern in the text, or -1 when there is none. *)
Theorem KMP_first_occurrence mem str ptr : (0 < length ptr)%nat -> length mem = length ptr ->
  exists out r, KMP mem str (Z.of_nat (length str)) ptr (Z.of_nat (length ptr)) = Ret (out, r) /\
    table_upto ptr out (length ptr) /\ first_occurrence ptr str r.
Proof.
  intros Hp Hm. destruct (cal_next_spec ptr mem Hp Hm) as (next & E & Hl & Ht).
  destruct (search_spec ptr next str (length str) 0 0 Hp Ht) as (r & Er & Hr); [done|apply best_nil|done| |].
  { intros j Hj. lia. }
  exists next, r. split; [|done]. unfold KMP. rewrite E. bind.
  rewrite mapM_zget by done. bind. rewrite Nat2Z.id. change (Z.of_nat 0) with 0 in Er. change (0 - 1) with (-1) in Er. by rewrite Er.
Qed.

Lemma KMP_first_occurrence_witness : exists out r,
  KMP [9; 9] [97; 98; 97; 97; 98] 5 [97; 97] 2 = Ret (out, r) /\ table_upto [97; 97] out 2 /\
  first_occurrence [97; 97] [97; 98; 97; 97; 98] r.
Proof. apply (KMP_first_occurrence [9; 9] [97; 98; 97; 97; 98] [97; 97]); [cbn; lia|reflexivity]. Defined.

Example KMP_main : KMP (repeat 0 7) [97; 98; 99; 122; 100; 97; 98; 99; 122; 101; 97; 98; 99; 122; 97; 98; 99; 100] 18
  [97; 98; 99; 122; 97; 98; 99] 7 = Ret ([-1; -1; -1; -1; 0; 1; 2], 10).
Proof. reflexivity. Qed.

(** With an empty pattern [cal_next] writes the first entry of an array without any. *)
Theorem KMP_empty_pattern str slen ptr : KMP [] str slen ptr 0 = UB.
Proof. reflexivity. Qed.
