(* ===== verification/Dp.v ===== *)
(** Component: the dynamic programming programs of src/c-study/dynamic_p: both 0/1
    knapsacks and the longest common subsequence.  Each fills a table row by row; one
    lemma says what such loops leave in the table, and the theorems compare the last
    entry with the optimum over all sublists. *)
From S2P Require Import Prelude Arrays.

(** ** Tables *)

(** [t[i][j]] and [t[i][j] = v]. *)
Definition get2 (t : list (list Z)) (i j : Z) : res Z := r ← zget t i; zget r j.
Definition set2 (t : list (list Z)) (i j v : Z) : res (list (list Z)) :=
  r ← zget t i; r ← zset r j v; zset t i r.

(** [for (i = a; i < a + h; i++) for (j = b; j < b + w; j++) body]. *)
Definition for2 (a h b w : nat) (body : nat -> nat -> list (list Z) -> res (list (list Z))) :=
  for_ a h (fun i t => for_ b w (fun j t => body i j t) t).

(** ** The programs *)

(** knapsack_01.c; [mem] is what the array [dp] contains at first. *)
Definition knapsack (mem : list (list Z)) (W : Z) (wt val : list Z) (n : Z) : res Z :=
  dp ← for2 0 (Z.to_nat (n + 1)) 0 (Z.to_nat (W + 1)) (fun i j dp => set2 dp (Z.of_nat i) (Z.of_nat j) 0) mem;
  dp ← for2 1 (Z.to_nat n) 1 (Z.to_nat W) (fun i j dp =>
    let i := Z.of_nat i in let j := Z.of_nat j in
    w ← zget wt (i - 1);
    if w <=? j then
      v ← zget val (i - 1);
      d ← get2 dp (i - 1) (j - w);
      a ← sint (v + d);
      b ← get2 dp (i - 1) j;
      set2 dp i j (if b <? a then a else b)
    else
      b ← get2 dp (i - 1) j;
      set2 dp i j b) dp;
  get2 dp n W.

(** knapsack_02.c. *)
Record Item := Item_ { weight : Z; value : Z }.

Definition knapsack_items (mem : list (list Z)) (items : list Item) (n W : Z) : res Z :=
  dp ← for2 0 (Z.to_nat (n + 1)) 0 (Z.to_nat (W + 1)) (fun i w dp => set2 dp (Z.of_nat i) (Z.of_nat w) 0) mem;
  dp ← for2 1 (Z.to_nat n) 1 (Z.to_nat W) (fun i w dp =>
    let i := Z.of_nat i in let w := Z.of_nat w in
    it ← zget items (i - 1);
    if weight it <=? w then
      d ← get2 dp (i - 1) (w - weight it);
      value_if_picked ← sint (value it + d);
      value_if_not_picked ← get2 dp (i - 1) w;
      set2 dp i w (if value_if_not_picked <? value_if_picked then value_if_picked else value_if_not_picked)
    else
      d ← get2 dp (i - 1) w;
      set2 dp i w d) dp;
  get2 dp n W.

(** lcs_01.c. *)
Definition max (a b : Z) : Z := if b <? a then a else b.

Definition lcs (mem : list (list Z)) (X Y : list Z) (m n : Z) : res Z :=
  L ← for2 0 (Z.to_nat (m + 1)) 0 (Z.to_nat (n + 1)) (fun i j L =>
    let i := Z.of_nat i in let j := Z.of_nat j in
    if (i =? 0) || (j =? 0) then set2 L i j 0 else
    x ← zget X (i - 1);
    y ← zget Y (j - 1);
    if x =? y then
      d ← get2 L (i - 1) (j - 1);
      v ← sint (d + 1);
      set2 L i j v
    else
      u ← get2 L (i - 1) j;
      l ← get2 L i (j - 1);
      set2 L i j (max u l)) mem;
  get2 L m n.

(** ** Filling a table *)

Definition cell (t : list (list Z)) (i j : nat) : option Z := r ← t !! i; r !! j.

Definition shape (h w : nat) (t : list (list Z)) : Prop := length t = h /\ Forall (fun r => length r = w) t.

Lemma get2_cell t i j v : cell t i j = Some v -> get2 t (Z.of_nat i) (Z.of_nat j) = Ret v.
Proof.
  unfold cell, get2. intros (r & Hr & Hv)%bind_Some. rewrite (zget_nat _ _ _ Hr). bind. by apply zget_nat.
Qed.

Lemma set2_cell h w t i j v : shape h w t -> (i < h)%nat -> (j < w)%nat ->
  exists t', set2 t (Z.of_nat i) (Z.of_nat j) v = Ret t' /\ shape h w t' /\ cell t' i j = Some v /\
    forall a b, (a <> i \/ b <> j) -> cell t' a b = cell t a b.
Proof.
  intros [Hl Hw] Hi Hj. destruct (lookup_lt_is_Some_2 t i) as [r Hr]; [lia|].
  pose proof (Forall_lookup_1 _ _ _ _ Hw Hr) as Hrl. cbn in Hrl. unfold set2.
  rewrite (zget_nat _ _ _ Hr). bind. rewrite zset_nat by lia. bind. rewrite zset_nat by lia.
  eexists. split; [done|]. split; [|split].
  - split; [by rewrite length_insert|]. apply Forall_insert; [done|]. by rewrite length_insert.
  - unfold cell. rewrite list_lookup_insert_eq by lia. cbn. by rewrite list_lookup_insert_eq by lia.
  - intros a b Hab. unfold cell. destruct (decide (a = i)) as [->|]; [|by rewrite list_lookup_insert_ne].
    rewrite list_lookup_insert_eq by lia. rewrite Hr. cbn. rewrite list_lookup_insert_ne; [done|]. by destruct Hab.
Qed.

Section fill.
Context (h w a b : nat) (F : nat -> nat -> Z) (D : nat -> nat -> Prop).
Context (body : nat -> nat -> list (list Z) -> res (list (list Z))).

(** What the table holds before the body runs for [i], [j]. *)
Definition before (i j : nat) (t : list (list Z)) : Prop :=
  shape h w t /\ forall x y, (x < h)%nat -> (y < w)%nat ->
  D x y \/ (a <= x < i /\ b <= y)%nat \/ (x = i /\ a <= i /\ b <= y < j)%nat -> cell t x y = Some (F x y).

Context (Hbody : forall i j t, (a <= i < h)%nat -> (b <= j < w)%nat -> before i j t ->
  body i j t = set2 t (Z.of_nat i) (Z.of_nat j) (F i j)).

Lemma fill_spec t : (a <= h)%nat -> (b <= w)%nat -> before a b t ->
  exists t', for2 a (h - a) b (w - b) body t = Ret t' /\ shape h w t' /\
    forall x y, (x < h)%nat -> (y < w)%nat -> D x y \/ (a <= x /\ b <= y)%nat -> cell t' x y = Some (F x y).
Proof.
  intros Ha Hb Ht. unfold for2.
  destruct (for_inv (fun i t => before i b t) a (h - a)
    (fun i t => for_ b (w - b) (fun j t => body i j t) t) t) as (t' & E & [Hs Hc]); [done| |].
  - intros i s Hi Hs.
    destruct (for_inv (fun j s => before i j s) b (w - b) (fun j t => body i j t) s) as (s' & E & [Hs' Hc]); [done| |].
    + intros j r Hj Hr. rewrite (Hbody i j r) by (done || lia). destruct Hr as [Hr Hc].
      destruct (set2_cell h w r i j (F i j) Hr) as (r' & -> & Hr' & H1 & H2); [lia|lia|].
      exists r'. split; [done|]. split; [done|]. intros x y Hx Hy H.
      destruct (decide (x = i /\ y = j)) as [[-> ->]|Hne]; [done|]. rewrite H2 by (destruct (decide (x = i)); auto).
      apply Hc; [done..|]. destruct H as [H|[H|H]]; [by left|by right; left|right; right; lia].
    + exists s'. split; [done|]. split; [done|]. intros x y Hx Hy H. apply Hc; [done..|].
      destruct H as [H|[H|H]]; [by left| |lia]. destruct (decide (x = i)); [right; right; lia|right; left; lia].
  - exists t'. split; [done|]. split; [done|]. intros x y Hx Hy [H|H]; apply Hc; try done; [by left|right; left; lia].
Qed.
End fill.

Lemma zero_spec h w mem : shape h w mem ->
  exists t, for2 0 h 0 w (fun i j dp => set2 dp (Z.of_nat i) (Z.of_nat j) 0) mem = Ret t /\ shape h w t /\
    forall x y, (x < h)%nat -> (y < w)%nat -> cell t x y = Some 0.
Proof.
  intros Hm. destruct (fill_spec h w 0 0 (fun _ _ => 0) (fun _ _ => False)
    (fun i j dp => set2 dp (Z.of_nat i) (Z.of_nat j) 0)) with (t := mem) as (t & E & Hs & Hc); [done|lia|lia| |].
  - split; [done|]. intros x y _ _ [[]|H]. lia.
  - rewrite !Nat.sub_0_r in E. exists t. split; [done|]. split; [done|]. intros x y Hx Hy. apply Hc; [done..|]. right. lia.
Qed.

(** ** Knapsack *)

(** The optimal value of the first [i] items for the capacity [j], as the loops compute it. *)
Fixpoint opt (items : list Item) (i j : nat) : Z :=
  match i with
  | O => 0
  | S i => match j, items !! i with
    | S _, Some it =>
        if weight it <=? Z.of_nat j then Z.max (value it + opt items i (j - Z.to_nat (weight it))) (opt items i j)
        else opt items i j
    | _, _ => 0
    end
  end.

Definition total (f : Item -> Z) (l : list Item) : Z := foldr (fun it n => f it + n) 0 l.

(** [r] is the largest value of a selection of the items that weighs at most [W]. *)
Definition optimum (items : list Item) (W r : Z) : Prop :=
  (exists sel, sel `sublist_of` items /\ total weight sel <= W /\ total value sel = r) /\
  forall sel, sel `sublist_of` items -> total weight sel <= W -> total value sel <= r.

Lemma total_app f l k : total f (l ++ k) = total f l + total f k.
Proof. unfold total. induction l as [|x l IH]; cbn; [done|]. rewrite IH. lia. Qed.

Lemma total_snoc f l x : total f (l ++ [x]) = total f l + f x.
Proof. rewrite total_app. cbn. lia. Qed.

Lemma sublist_snoc (sel l : list Item) x : sel `sublist_of` l ++ [x] <->
  sel `sublist_of` l \/ exists s, sel = s ++ [x] /\ s `sublist_of` l.
Proof.
  rewrite sublist_app_r. split.
  - intros (s & k & -> & Hs & Hk). apply sublist_cons_r in Hk as [Hk|(k' & -> & Hk)].
    + apply sublist_nil_r in Hk as ->. rewrite app_nil_r. by left.
    + apply sublist_nil_r in Hk as ->. right. by exists s.
  - intros [H|(s & -> & H)].
    + exists sel, []. rewrite app_nil_r. split; [done|]. split; [done|]. apply sublist_nil_l.
    + by exists s, [x].
Qed.

Definition positive (it : Item) : Prop := 0 < weight it.

Lemma total_weight_nonneg l : Forall positive l -> 0 <= total weight l.
Proof. induction 1 as [|x l Hx _ IH]; cbn; [lia|]. unfold positive in Hx. fold (total weight l). lia. Qed.

Lemma optimum_zero items : Forall positive items -> optimum items 0 0.
Proof.
  intros Hp. split.
  - exists []. split; [apply sublist_nil_l|]. done.
  - intros sel Hs Hw. destruct sel as [|x sel]; [done|].
    assert (Hps : Forall positive (x :: sel)).
    { rewrite Forall_forall in *. intros y Hy. apply Hp. eapply elem_of_submseteq; [exact Hy|by apply sublist_submseteq]. }
    apply Forall_cons in Hps as [Hx Hr]. apply total_weight_nonneg in Hr. unfold positive in Hx. cbn in Hw.
    fold (total weight sel) in Hw. lia.
Qed.

Lemma opt_optimum items i j : Forall positive items -> (i <= length items)%nat ->
  optimum (take i items) (Z.of_nat j) (opt items i j).
Proof.
  intros Hp. revert j. induction i as [|i IH]; intros j Hi.
  { cbn. split.
    - exists []. split; [done|]. cbn. lia.
    - intros sel Hs _. by apply sublist_nil_r in Hs as ->. }
  destruct j as [|j]; [by apply optimum_zero, Forall_take|].
  destruct (lookup_lt_is_Some_2 items i) as [it Hit]; [lia|]. cbn [opt]. rewrite Hit.
  rewrite (take_S_r _ _ _ Hit). pose proof (Forall_lookup_1 _ _ _ _ Hp Hit) as Hpos. unfold positive in Hpos.
  destruct (IH (S j)) as [(s0 & H1 & H2 & H3) Hmax0]; [lia|].
  destruct (Z.leb_spec (weight it) (Z.of_nat (S j))) as [Hw|Hw].
  - destruct (IH (S j - Z.to_nat (weight it))%nat) as [(s1 & G1 & G2 & G3) Hmax1]; [lia|]. split.
    + destruct (Z.max_spec (value it + opt items i (S j - Z.to_nat (weight it))) (opt items i (S j))) as [[_ ->]|[_ ->]].
      * exists s0. split; [|done]. apply sublist_snoc. by left.
      * exists (s1 ++ [it]). rewrite !total_snoc. split; [apply sublist_snoc; right; by exists s1|].
        lia.
    + intros sel [Hs|(s & -> & Hs)]%sublist_snoc Hsw; [specialize (Hmax0 sel Hs Hsw); lia|].
      rewrite !total_snoc in *. specialize (Hmax1 s Hs ltac:(lia)).
      lia.
  - split.
    + exists s0. split; [|done]. apply sublist_snoc. by left.
    + intros sel [Hs|(s & -> & Hs)]%sublist_snoc Hsw; [by apply Hmax0|]. exfalso.
      rewrite total_snoc in Hsw.
      assert (0 <= total weight s); [|lia]. apply total_weight_nonneg. apply Forall_forall. intros y Hy.
      rewrite Forall_forall in Hp. apply Hp. eapply elem_of_submseteq; [exact Hy|].
      apply sublist_submseteq. transitivity (take i items); [done|apply sublist_take].
Qed.

(** No sum the loops form leaves the range of [int]. *)
Definition fits (items : list Item) : Prop :=
  Forall (fun it => int (value it)) items /\ total (fun it => Z.max 0 (value it)) items < 2 ^ 31.

Lemma opt_range items i j : (i <= length items)%nat ->
  0 <= opt items i j <= total (fun it => Z.max 0 (value it)) (take i items).
Proof.
  revert j. induction i as [|i IH]; intros j Hi; [done|].
  destruct (lookup_lt_is_Some_2 items i) as [it Hit]; [lia|]. rewrite (take_S_r _ _ _ Hit), total_snoc.
  cbn [opt]. rewrite Hit. pose proof (IH 0%nat ltac:(lia)). destruct j as [|j]; [lia|].
  pose proof (IH (S j) ltac:(lia)). pose proof (IH (S j - Z.to_nat (weight it))%nat ltac:(lia)).
  destruct (_ <=? _); lia.
Qed.

Lemma total_take f items i : (forall it, 0 <= f it) -> total f (take i items) <= total f items.
Proof.
  intros Hf. rewrite <-(take_drop i items) at 2. rewrite total_app.
  assert (H : forall l, 0 <= total f l); [|specialize (H (drop i items)); lia]. induction l as [|x l IH]; cbn; [done|]. fold (total f l).
  pose proof (Hf x). lia.
Qed.

(** What the loops of both knapsacks compute. *)
Lemma knapsack_spec mem items W : shape (S (length items)) (S W) mem -> Forall positive items -> fits items ->
  knapsack mem (Z.of_nat W) (map weight items) (map value items) (Z.of_nat (length items)) =
  Ret (opt items (length items) W).
Proof.
  intros Hm Hp [Hint Hsum]. unfold knapsack.
  replace (Z.to_nat (Z.of_nat (length items) + 1)) with (S (length items)) by lia.
  replace (Z.to_nat (Z.of_nat W + 1)) with (S W) by lia. rewrite !Nat2Z.id.
  destruct (zero_spec _ _ _ Hm) as (t & -> & Ht & Hz). bind.
  match goal with |- (for2 1 _ 1 _ ?f t ≫= _) = _ =>
    destruct (fill_spec (S (length items)) (S W) 1 1 (opt items) (fun i j => i = 0 \/ j = 0)%nat f) with (t := t)
      as (t' & E & Ht' & Hc) end; [|lia|lia| |].
  - intros i j dp Hi Hj [Hs Hc]. cbv zeta.
    destruct i as [|i]; [lia|]. destruct j as [|j]; [lia|].
    destruct (lookup_lt_is_Some_2 items i) as [it Hit]; [lia|].
    pose proof (Forall_lookup_1 _ _ _ _ Hp Hit) as Hpos. unfold positive in Hpos.
    pose proof (Forall_lookup_1 _ _ _ _ Hint Hit) as Hv. unfold int in Hv.
    replace (Z.of_nat (S i) - 1) with (Z.of_nat i) by lia.
    rewrite (zget_nat (map weight items) i (weight it)), (zget_nat (map value items) i (value it))
      by (rewrite list_lookup_fmap, Hit; done). bind.
    assert (Hrow : forall k, (k <= S j)%nat -> get2 dp (Z.of_nat i) (Z.of_nat k) = Ret (opt items i k)).
    { intros k Hk. apply get2_cell, Hc; [lia|lia|]. destruct i; [by left; left|]. destruct k; [by left; right|].
      right. left. lia. }
    rewrite (Hrow (S j)) by lia. cbn [opt]. rewrite Hit. destruct (Z.leb_spec (weight it) (Z.of_nat (S j))) as [Hw|Hw]; [|done].
    replace (Z.of_nat (S j) - weight it) with (Z.of_nat (S j - Z.to_nat (weight it))) by lia.
    rewrite Hrow by lia. bind.
    set (d := opt items i (S j - Z.to_nat (weight it))).
    assert (Hd : 0 <= d <= total (fun it => Z.max 0 (value it)) (take i items)) by (apply opt_range; lia).
    pose proof (total_take (fun it => Z.max 0 (value it)) items (S i) ltac:(lia)) as Hle.
    rewrite (take_S_r _ _ _ Hit), total_snoc in Hle.
    rewrite sint_fits by (unfold int; lia). bind. f_equal. destruct (Z.ltb_spec (opt items i (S j)) (value it + d)); lia.
  - split; [done|]. intros x y Hx Hy H. rewrite Hz by done. f_equal. destruct H as [[->| ->]|H]; [done| |lia].
    by destruct x.
  - cbn [Nat.sub] in E. rewrite !Nat.sub_0_r in E. rewrite E. bind.
    apply get2_cell, Hc; [lia|lia|]. destruct (length items); [by left; left|]. destruct W; [by left; right|]. right. lia.
Qed.

(** ** Longest common subsequence *)

Fixpoint common (X Y : list Z) (i : nat) {struct i} : nat -> Z :=
  match i with
  | O => fun _ => 0
  | S i' => fix inner (j : nat) : Z :=
      match j with
      | O => 0
      | S j' =>
          match X !! i', Y !! j' with
          | Some x, Some y => if x =? y then common X Y i' j' + 1 else Z.max (common X Y i' j) (inner j')
          | _, _ => 0
          end
      end
  end.

(** [r] is the length of the longest lists that can be had from [X] and from [Y] by
    leaving out elements. *)
Definition longest_common (X Y : list Z) (r : Z) : Prop :=
  (exists s : list Z, s `sublist_of` X /\ s `sublist_of` Y /\ Z.of_nat (length s) = r) /\
  forall s : list Z, s `sublist_of` X -> s `sublist_of` Y -> Z.of_nat (length s) <= r.

Lemma sublist_snoc_inv (s l : list Z) a b : s ++ [a] `sublist_of` l ++ [b] ->
  s `sublist_of` l /\ (a <> b -> s ++ [a] `sublist_of` l).
Proof.
  intros (s1 & s2 & E & H1 & H2)%sublist_app_r. apply sublist_cons_r in H2 as [H2|(k & -> & H2)]; apply sublist_nil_r in H2 as ->.
  - rewrite app_nil_r in E. subst. split; [|done]. etrans; [|exact H1]. by apply sublist_inserts_r.
  - apply app_inj_tail in E as [-> ->]. done.
Qed.

Lemma common_longest X Y i j : (i <= length X)%nat -> (j <= length Y)%nat ->
  longest_common (take i X) (take j Y) (common X Y i j).
Proof.
  revert j. induction i as [|i IHi]; intros j Hi Hj.
  { split; [exists []; split_and!; try done; apply sublist_nil_l|]. by intros s ->%sublist_nil_r _. }
  induction j as [|j IHj].
  { split; [exists []; split_and!; try done; apply sublist_nil_l|]. by intros s _ ->%sublist_nil_r. }
  destruct (lookup_lt_is_Some_2 X i) as [x Hx]; [lia|]. destruct (lookup_lt_is_Some_2 Y j) as [y Hy]; [lia|].
  change (common X Y (S i) (S j)) with
    (match X !! i, Y !! j with
     | Some x, Some y => if x =? y then common X Y i j + 1 else Z.max (common X Y i (S j)) (common X Y (S i) j)
     | _, _ => 0 end). rewrite Hx, Hy.
  rewrite (take_S_r _ _ _ Hx), (take_S_r _ _ _ Hy).
  destruct (IHi j) as [(s & H1 & H2 & H3) Hmax]; [lia..|].
  destruct (Z.eqb_spec x y) as [->|Hne].
  - split.
    + exists (s ++ [y]). rewrite length_app. cbn [length]. split; [by apply sublist_app|]. split; [by apply sublist_app|]. lia.
    + intros t. destruct t as [|a t _] using rev_ind; intros G1 G2; [cbn; lia|].
      apply sublist_snoc_inv in G1 as [G1 _], G2 as [G2 _]. rewrite length_app. cbn [length].
      specialize (Hmax t G1 G2). lia.
  - destruct (IHi (S j)) as [(s1 & A1 & A2 & A3) Amax]; [lia..|].
    destruct IHj as [(s2 & B1 & B2 & B3) Bmax]; [lia|].
    rewrite (take_S_r _ _ _ Hx) in B1, Bmax. rewrite (take_S_r _ _ _ Hy) in A2, Amax.
    split.
    + destruct (Z.max_spec (common X Y i (S j)) (common X Y (S i) j)) as [[_ ->]|[_ ->]].
      * exists s2. split; [done|]. split; [|done]. by apply sublist_inserts_r.
      * exists s1. split; [|done]. by apply sublist_inserts_r.
    + intros t. destruct t as [|a t _] using rev_ind; intros G1 G2.
      { specialize (Amax [] (sublist_nil_l _) (sublist_nil_l _)). cbn in *. lia. }
      destruct (decide (a = x)) as [->|Hax].
      * apply sublist_snoc_inv in G2 as [_ G2]. specialize (Bmax _ G1 (G2 Hne)). lia.
      * apply sublist_snoc_inv in G1 as [_ G1]. specialize (Amax _ (G1 Hax) G2). lia.
Qed.

Lemma common_range X Y i j : 0 <= common X Y i j <= Z.of_nat i.
Proof.
  revert j. induction i as [|i IHi]; intros j; [done|]. induction j as [|j IHj]; [cbn; lia|].
  change (common X Y (S i) (S j)) with
    (match X !! i, Y !! j with
     | Some x, Some y => if x =? y then common X Y i j + 1 else Z.max (common X Y i (S j)) (common X Y (S i) j)
     | _, _ => 0 end). pose proof (IHi j). pose proof (IHi (S j)).
  destruct (X !! i), (Y !! j); [destruct (_ =? _)|..]; lia.
Qed.

Lemma max_max a b : max a b = Z.max a b.
Proof. unfold max. destruct (Z.ltb_spec b a); lia. Qed.

Lemma lcs_spec mem X Y : shape (S (length X)) (S (length Y)) mem -> Z.of_nat (length X) < 2 ^ 31 ->
  lcs mem X Y (Z.of_nat (length X)) (Z.of_nat (length Y)) = Ret (common X Y (length X) (length Y)).
Proof.
  intros Hm Hlen. unfold lcs.
  replace (Z.to_nat (Z.of_nat (length X) + 1)) with (S (length X)) by lia.
  replace (Z.to_nat (Z.of_nat (length Y) + 1)) with (S (length Y)) by lia.
  match goal with |- (for2 0 _ 0 _ ?f mem ≫= _) = _ =>
    destruct (fill_spec (S (length X)) (S (length Y)) 0 0 (common X Y) (fun _ _ => False) f) with (t := mem)
      as (t' & E & Ht' & Hc) end; [|lia|lia| |].
  - intros i j L Hi Hj [Hs Hc]. cbv zeta. destruct i as [|i]; [done|]. destruct j as [|j]; [done|].
    rewrite (proj2 (Z.eqb_neq (Z.of_nat (S i)) 0)), (proj2 (Z.eqb_neq (Z.of_nat (S j)) 0)) by lia. cbn [orb].
    destruct (lookup_lt_is_Some_2 X i) as [x Hx]; [lia|]. destruct (lookup_lt_is_Some_2 Y j) as [y Hy]; [lia|].
    replace (Z.of_nat (S i) - 1) with (Z.of_nat i) by lia. replace (Z.of_nat (S j) - 1) with (Z.of_nat j) by lia.
    rewrite (zget_nat _ _ _ Hx), (zget_nat _ _ _ Hy). bind.
    assert (Hrow : forall a b, (a <= S i)%nat -> (b <= S j)%nat -> (a < S i \/ b < S j)%nat ->
      get2 L (Z.of_nat a) (Z.of_nat b) = Ret (common X Y a b)).
    { intros a b Ha Hb Hab. apply get2_cell, Hc; [lia|lia|]. right. lia. }
    rewrite !Hrow by lia. bind. cbn [common]. rewrite Hx, Hy. destruct (Z.eqb_spec x y) as [->|Hne].
    + pose proof (common_range X Y i j). rewrite sint_fits by (unfold int; lia). done.
    + by rewrite max_max.
  - split; [done|]. intros x y _ _ [[]|H]. lia.
  - rewrite !Nat.sub_0_r in E. rewrite E. bind. apply get2_cell, Hc; [lia|lia|right; lia].
Qed.

(** ** Theorems *)

(** C31. knapsack_01.c is correct: for any items of positive weight whose values add up
    within an [int], and any capacity, it stays inside its arrays and its table, whatever
    that contains at first, does not overflow, and returns the largest value of a
    selection of the items that weighs at most the capacity. *)
Theorem knapsack_optimal mem items W : shape (S (length items)) (S W) mem -> Forall positive items -> fits items ->
  exists r, knapsack mem (Z.of_nat W) (map weight items) (map value items) (Z.of_nat (length items)) = Ret r /\
    optimum items (Z.of_nat W) r.
Proof.
  intros Hm Hp Hf. exists (opt items (length items) W). split; [by apply knapsack_spec|].
  pose proof (opt_optimum items (length items) W Hp (le_n _)) as H. by rewrite firstn_all in H.
Qed.

Lemma knapsack_optimal_witness : exists r,
  knapsack (repeat (repeat 7 6) 3) 5 [2; 3] [10; 20] 2 = Ret r /\ optimum [Item_ 2 10; Item_ 3 20] 5 r.
Proof.
  apply (knapsack_optimal (repeat (repeat 7 6) 3) [Item_ 2 10; Item_ 3 20] 5).
  - split; [done|]. repeat constructor.
  - repeat constructor.
  - split; [repeat constructor; cbn; lia|cbn; lia].
Defined.

(** The tables of knapsack_01.c and knapsack_02.c are filled by the same steps. *)
Lemma for_ext {A} lo n (f g : nat -> A -> res A) a : (forall i x, f i x = g i x) -> for_ lo n f a = for_ lo n g a.
Proof.
  intros H. revert lo a. induction n as [|n IH]; intros lo a; [done|]. cbn [for_]. rewrite H.
  destruct (g lo a); [bind; apply IH|done..].
Qed.

(** The two knapsack programs agree on all inputs, those on which they leave their
    arrays or overflow included. *)
Theorem knapsacks_agree mem items n W :
  knapsack_items mem items n W = knapsack mem W (map weight items) (map value items) n.
Proof.
  unfold knapsack_items, knapsack. destruct (for2 _ _ _ _ _ mem) as [t| |]; [bind|done..]. f_equal.
  unfold for2. apply for_ext. intros i x. apply for_ext. intros j y. cbv zeta. unfold zget.
  destruct (Z.leb_spec 0 (Z.of_nat i - 1)); [|done]. rewrite !list_lookup_fmap.
  destruct (items !! Z.to_nat (Z.of_nat i - 1)) as [it|]; [|done]. bind. cbn [fmap option_fmap option_map]. bind.
  destruct (_ <=? _); [|done]. by destruct (get2 _ _ _).
Qed.

(** Items without weight are not counted once the rest of the capacity is used up: with
    the capacity 1 both items fit, but the second one alone is reported. *)
Theorem knapsack_zero_weight :
  knapsack (repeat (repeat 0 2) 3) 1 [0; 1] [5; 7] 2 = Ret 7 /\
  ~ optimum [Item_ 0 5; Item_ 1 7] 1 7.
Proof.
  split; [reflexivity|]. intros [_ H]. specialize (H [Item_ 0 5; Item_ 1 7] (reflexivity _)).
  cbn in H. lia.
Qed.

(** lcs_01.c is correct: it stays inside its arrays and its table, and returns the
    length of the longest sequence that is a subsequence of both texts. *)
Theorem lcs_longest mem X Y : shape (S (length X)) (S (length Y)) mem -> Z.of_nat (length X) < 2 ^ 31 ->
  exists r, lcs mem X Y (Z.of_nat (length X)) (Z.of_nat (length Y)) = Ret r /\ longest_common X Y r.
Proof.
  intros Hm Hl. exists (common X Y (length X) (length Y)). split; [by apply lcs_spec|].
  pose proof (common_longest X Y (length X) (length Y) (le_n _) (le_n _)) as H. by rewrite !firstn_all in H.
Qed.

Lemma lcs_longest_witness : exists r,
  lcs (repeat (repeat 9 8) 7) [65; 71; 71; 84; 65; 66] [71; 88; 84; 88; 65; 89; 66] 6 7 = Ret r /\
  longest_common [65; 71; 71; 84; 65; 66] [71; 88; 84; 88; 65; 89; 66] r.
Proof.
  apply (lcs_longest (repeat (repeat 9 8) 7) [65; 71; 71; 84; 65; 66] [71; 88; 84; 88; 65; 89; 66]); [|done].
  split; [done|]. repeat constructor.
Defined.

Example lcs_main : lcs (repeat (repeat 9 8) 7) [65; 71; 71; 84; 65; 66] [71; 88; 84; 88; 65; 89; 66] 6 7 = Ret 4.
Proof. reflexivity. Qed.

Example knapsack_main : knapsack (repeat (repeat 0 51) 5) 50 [20; 10; 25; 3] [100; 60; 120; 3] 4 = Ret 223.
Proof. vm_compute. reflexivity. Qed.
