(* ===== verification/Heap.v ===== *)
(** Heaps of objects of one struct type, as the linked structures of the program use
    them: a pointer is an index or null, an object that was freed is gone for good, and
    every access to null, to a freed object or outside the heap is [UB]. *)
From S2P Require Import Prelude.

(** A heap: the objects in the order they were allocated; [None] is a freed one. *)
Abbreviation heap A := (list (option A)).
Abbreviation pointer := (option nat).

Section Heap.
Context {A : Type}.
Implicit Types (h : heap A) (a : nat) (p : pointer).

Definition load h p : res A :=
  match p with Some a => match h !! a with Some (Some x) => Ret x | _ => UB end | None => UB end.

Definition store h p (x : A) : res (heap A) :=
  _ ← load h p; match p with Some a => Ret (<[a := Some x]> h) | None => UB end.

(** Read a struct, change some of its fields and write it back. *)
Definition modify h p (f : A -> A) : res (heap A) := x ← load h p; store h p (f x).

(** [malloc], which succeeds, followed by the writes that fill the object. *)
Definition new h (x : A) : heap A * pointer := (h ++ [Some x], Some (length h)).

(** [free]. *)
Definition dispose h p : res (heap A) :=
  _ ← load h p; match p with Some a => Ret (<[a := None]> h) | None => UB end.

(** The object at [a]. *)
Definition at_addr h a (x : A) : Prop := h !! a = Some (Some x).

Lemma load_ok h a x : at_addr h a x -> load h (Some a) = Ret x.
Proof. unfold at_addr. by intros H; simpl; rewrite H. Qed.

Lemma load_inv h p x : load h p = Ret x -> exists a, p = Some a /\ at_addr h a x.
Proof.
  unfold at_addr. destruct p as [a|]; [|done]. cbn. destruct (h !! a) as [[y|]|] eqn:E; try done. intros [= ->]. eauto.
Qed.

Lemma at_addr_lt h a x : at_addr h a x -> (a < length h)%nat.
Proof. apply lookup_lt_Some. Qed.

Lemma at_addr_fun h a x y : at_addr h a x -> at_addr h a y -> x = y.
Proof. unfold at_addr. congruence. Qed.

Lemma store_ok h a x y : at_addr h a x -> store h (Some a) y = Ret (<[a := Some y]> h).
Proof. intros H. unfold store. by rewrite (load_ok _ _ _ H). Qed.

Lemma modify_ok h a x f : at_addr h a x -> modify h (Some a) f = Ret (<[a := Some (f x)]> h).
Proof. intros H. unfold modify. rewrite (load_ok _ _ _ H). bind. by eapply store_ok. Qed.

Lemma dispose_ok h a x : at_addr h a x -> dispose h (Some a) = Ret (<[a := None]> h).
Proof. intros H. unfold dispose. by rewrite (load_ok _ _ _ H). Qed.

Lemma dispose_twice h a h' : dispose h (Some a) = Ret h' -> dispose h' (Some a) = UB.
Proof.
  unfold dispose. intros H. inv_res. apply load_inv in E as (b & [= <-] & Hx). cbn.
  by rewrite list_lookup_insert_eq by by eapply at_addr_lt.
Qed.

(** Objects elsewhere, and the one written. *)
Lemma at_insert_ne h a b x o : a <> b -> at_addr (<[a := o]> h) b x <-> at_addr h b x.
Proof. intros H. unfold at_addr. by rewrite list_lookup_insert_ne. Qed.

Lemma at_insert_eq h a x y : at_addr h a x -> at_addr (<[a := Some y]> h) a y.
Proof. intros H. apply list_lookup_insert_eq. by eapply at_addr_lt. Qed.

Lemma at_insert_eq_inv h a y z : at_addr (<[a := Some y]> h) a z -> z = y.
Proof.
  intros H. unfold at_addr in *. assert (a < length h)%nat
    by (apply lookup_lt_Some in H; by rewrite length_insert in H).
  rewrite list_lookup_insert_eq in H by done. congruence.
Qed.

Lemma at_freed h a y : ~ at_addr (<[a := None]> h) a y.
Proof.
  unfold at_addr. intros H. assert (a < length h)%nat by (apply lookup_lt_Some in H; by rewrite length_insert in H).
  by rewrite list_lookup_insert_eq in H.
Qed.

Lemma at_new_old h a x y : at_addr h a x -> at_addr (h ++ [Some y]) a x.
Proof. intros H. unfold at_addr. rewrite lookup_app_l; [done|by eapply at_addr_lt]. Qed.

Lemma at_new h y : at_addr (h ++ [Some y]) (length h) y.
Proof. unfold at_addr. rewrite lookup_app_r, Nat.sub_diag; done. Qed.

Lemma at_new_inv h a x y : at_addr (h ++ [Some y]) a x -> (a = length h /\ x = y) \/ at_addr h a x.
Proof.
  unfold at_addr. intros [Ha|[Hge Ha]]%lookup_app_Some; [by right|]. left.
  apply list_lookup_singleton_Some in Ha as [? [= <-]]. split; [lia|done].
Qed.

(** The objects that are left. *)
Definition live h : list nat := filter (fun a => is_Some (mjoin (h !! a))) (seq 0 (length h)).

Lemma elem_of_live h a : a ∈ live h <-> exists x, at_addr h a x.
Proof.
  unfold live, at_addr. rewrite list_elem_of_filter, elem_of_seq. split.
  - intros [[x Hx] _]. destruct (h !! a) as [[y|]|]; naive_solver.
  - intros [x Hx]. rewrite Hx. split; [by eexists|]. apply lookup_lt_Some in Hx. lia.
Qed.

Lemma live_perm h (l : list nat) : NoDup l -> (forall a, (exists x, at_addr h a x) <-> a ∈ l) -> live h ≡ₚ l.
Proof.
  intros Hn Hl. apply NoDup_Permutation; [apply NoDup_filter, NoDup_seq|done|]. intros a. by rewrite elem_of_live.
Qed.

Lemma live_nil h : (forall a x, ~ at_addr h a x) -> live h = [].
Proof.
  intros H. apply Permutation_nil_r, live_perm; [constructor|]. intros a. rewrite elem_of_nil. split; [|done].
  intros [x Hx]. by destruct (H a x).
Qed.
End Heap.

Arguments at_addr : simpl never.
Create HintDb heap.
#[export] Hint Resolve at_insert_eq at_new at_new_old : heap.
