(* ===== verification/Dll.v ===== *)
(** Doubly linked lists in a heap, as the two list libraries of src/c-study/dllist have
    them: a node holds an element and two pointers.  [seg] describes a stretch of linked
    nodes between the addresses that its ends point to, so that it fits lists that end
    in null and circular ones; the lemmas say how stretches are split, joined, written
    at an end, and left alone by writes elsewhere. *)
From S2P Require Import Prelude Heap.

Section Dll.
Context {E : Type}.

Record node := Node { element : E; prev : pointer; next : pointer }.

Definition set_element (e : E) (n : node) : node := Node e (prev n) (next n).
Definition set_prev (p : pointer) (n : node) : node := Node (element n) p (next n).
Definition set_next (p : pointer) (n : node) : node := Node (element n) (prev n) p.

Implicit Types (h : heap node) (L : list (nat * E)) (a b : pointer) (x : nat).

(** The address of the first node, or [a] when there is none; of the last one, or [b]. *)
Definition first L a : pointer := match L with [] => a | (x, _) :: _ => Some x end.
Definition final b L : pointer := match last L with None => b | Some (x, _) => Some x end.

Fixpoint seg h b L a : Prop :=
  match L with
  | [] => True
  | (x, e) :: L => at_addr h x (Node e b (first L a)) /\ seg h (Some x) L a
  end.

Lemma final_snoc b L x e : final b (L ++ [(x, e)]) = Some x.
Proof. unfold final. by rewrite last_snoc. Qed.

Lemma final_cons b L x e : final b ((x, e) :: L) = final (Some x) L.
Proof. unfold final. rewrite last_cons. by destruct (last L) as [[]|]. Qed.

Lemma first_app L1 L2 a : first (L1 ++ L2) a = first L1 (first L2 a).
Proof. by destruct L1 as [|[]]. Qed.

Lemma dseg_app h b L1 L2 a : seg h b (L1 ++ L2) a <-> seg h b L1 (first L2 a) /\ seg h (final b L1) L2 a.
Proof.
  revert b. induction L1 as [|[x e] L1 IH]; intros b; cbn [app seg]; [by unfold final; naive_solver|].
  rewrite IH, first_app, final_cons. naive_solver.
Qed.

Lemma seg_mono h h' b L a : (forall x n, x ∈ L.*1 -> at_addr h x n -> at_addr h' x n) -> seg h b L a -> seg h' b L a.
Proof.
  revert b. induction L as [|[x e] L IH]; intros b Hm; cbn [seg]; [done|]. intros [Hx HL]. split.
  - apply Hm; [by left|done].
  - apply IH; [|done]. intros y n Hy. apply Hm. by right.
Qed.

Lemma seg_frame h b L a x o : x ∉ L.*1 -> seg h b L a -> seg (<[x := o]> h) b L a.
Proof. intros Hx. apply seg_mono. intros y n Hy Hn. apply at_insert_ne; [|done]. by intros ->. Qed.

Lemma seg_new h b L a n : seg h b L a -> seg (h ++ [Some n]) b L a.
Proof. apply seg_mono. intros y m _. apply at_new_old. Qed.

Lemma seg_at h b L1 x e L2 a : seg h b (L1 ++ (x, e) :: L2) a -> at_addr h x (Node e (final b L1) (first L2 a)).
Proof. rewrite dseg_app. by intros [_ [H _]]. Qed.

Lemma seg_in h b L a x : seg h b L a -> x ∈ L.*1 -> exists n, at_addr h x n.
Proof.
  intros Hs ([y e] & -> & (L1 & L2 & ->)%list_elem_of_split)%list_elem_of_fmap. eexists. by eapply seg_at.
Qed.

(** Writing the pointer that leaves a stretch. *)
Lemma seg_set_next h b L x e a a' : x ∉ L.*1 -> seg h b (L ++ [(x, e)]) a ->
  modify h (Some x) (set_next a') = Ret (<[x := Some (Node e (final b L) a')]> h) /\
  seg (<[x := Some (Node e (final b L) a')]> h) b (L ++ [(x, e)]) a'.
Proof.
  intros Hx Hs. pose proof (seg_at _ _ _ _ _ _ _ Hs) as Ha. split; [by rewrite (modify_ok _ _ _ _ Ha)|].
  apply dseg_app in Hs as [HL _]. apply dseg_app. split; [by apply seg_frame|].
  split; [|done]. by eapply at_insert_eq.
Qed.

Lemma seg_set_prev h b b' x e L a : x ∉ L.*1 -> seg h b ((x, e) :: L) a ->
  modify h (Some x) (set_prev b') = Ret (<[x := Some (Node e b' (first L a))]> h) /\
  seg (<[x := Some (Node e b' (first L a))]> h) b' ((x, e) :: L) a.
Proof.
  intros Hx [Ha HL]. split; [by rewrite (modify_ok _ _ _ _ Ha)|].
  split; [by eapply at_insert_eq|by apply seg_frame].
Qed.

(** All that is allocated is in the list. *)
Definition only h L : Prop := forall x n, at_addr h x n -> x ∈ L.*1.

Lemma only_write h L x n m : only h L -> at_addr h x n -> only (<[x := Some m]> h) L.
Proof.
  intros Ho Hx y k Hk. destruct (decide (x = y)) as [<-|]; [by eapply Ho|]. apply at_insert_ne in Hk; [|done]. by eapply Ho.
Qed.

Lemma only_new h L L' n : only h L -> L.*1 ⊆ L'.*1 -> length h ∈ L'.*1 -> only (h ++ [Some n]) L'.
Proof. intros Ho Hs Hn y k [[-> _]|Hk]%at_new_inv; [done|]. by eapply Hs, Ho. Qed.

Lemma only_free h L L' x : only h L -> (forall y, y ∈ L.*1 -> y <> x -> y ∈ L'.*1) -> only (<[x := None]> h) L'.
Proof.
  intros Ho Hs y k Hk. destruct (decide (x = y)) as [<-|Hne]; [by apply at_freed in Hk|].
  apply at_insert_ne in Hk; [|done]. apply Hs; [by eapply Ho|done].
Qed.

Lemma only_fmap h L L' : only h L -> L.*1 = L'.*1 -> only h L'.
Proof. intros Ho E' y k Hk. rewrite <-E'. by eapply Ho. Qed.

(** A fresh address is not in the list. *)
Lemma seg_fresh h b L a : seg h b L a -> length h ∉ L.*1.
Proof. intros Hs Hin. destruct (seg_in _ _ _ _ _ Hs Hin) as [n Hn%at_addr_lt]. lia. Qed.

(** Walks are bounded by the size of the heap. *)
Lemma dseg_length h b L a : seg h b L a -> NoDup L.*1 -> (length L <= length h)%nat.
Proof.
  intros Hs Hn. rewrite <-(length_fmap fst L), <-(length_seq (length h) 0). apply submseteq_length, NoDup_submseteq; [done|].
  intros x Hx. destruct (seg_in _ _ _ _ _ Hs Hx) as [n Hl%at_addr_lt]. apply elem_of_seq. lia.
Qed.

(** ** Whole lists: nothing else is allocated *)

Record dll h b L a : Prop := Dll {
  dl_seg : seg h b L a;
  dl_nodup : NoDup L.*1;
  dl_only : only h L
}.

(** Filling the node just allocated. *)
Lemma new_write {B} (l : list B) (x y : B) : <[length l := y]> (l ++ [x]) = l ++ [y].
Proof. rewrite insert_app_r_alt, Nat.sub_diag by lia. done. Qed.

Lemma modify_new h n f : modify (h ++ [Some n]) (Some (length h)) f = Ret (h ++ [Some (f n)]).
Proof. rewrite (modify_ok _ _ n) by apply at_new. by rewrite new_write. Qed.

Lemma dll_nodup_mid L1 x (e : E) L2 : NoDup (L1 ++ (x, e) :: L2).*1 -> (x ∉ L1.*1) /\ (x ∉ L2.*1).
Proof.
  rewrite fmap_app. cbn [fmap list_fmap fst]. intros (_ & Hd & [Hx _]%NoDup_cons)%NoDup_app. split; [|done].
  intros Hin. apply (Hd x Hin). by left.
Qed.

Lemma dll_insert_last h b L p e v : dll h b (L ++ [(p, e)]) None ->
  exists h', modify (h ++ [Some (Node v (Some p) None)]) (Some p) (set_next (Some (length h))) = Ret h' /\
    dll h' b ((L ++ [(p, e)]) ++ [(length h, v)]) None.
Proof.
  intros [Hs Hn Ho]. pose proof (seg_fresh _ _ _ _ Hs) as Hf.
  apply (seg_new _ _ _ _ (Node v (Some p) None)) in Hs as Hs1.
  destruct (seg_set_next _ _ _ _ _ _ (Some (length h)) (proj1 (dll_nodup_mid _ _ _ _ Hn)) Hs1) as [-> Hs2].
  eexists. split; [done|]. assert (Hp : p <> length h).
  { intros ->. apply Hf. rewrite fmap_app. set_solver. }
  split.
  - apply dseg_app. split; [done|]. rewrite final_snoc. split; [|done]. apply at_insert_ne; [done|apply at_new].
  - rewrite fmap_app. apply NoDup_app. split; [done|]. split; [|apply NoDup_singleton]. intros y Hy ->%list_elem_of_singleton. done.
  - eapply only_write; [eapply only_new; [exact Ho| |]|eapply (seg_at _ _ _ _ _ [] _ Hs1)]; rewrite !fmap_app; set_solver.
Qed.

Lemma dll_insert_mid h b L1 p e q f L2 a v : dll h b (L1 ++ (p, e) :: (q, f) :: L2) a ->
  exists h', (h1 ← modify (h ++ [Some (Node v (Some p) (Some q))]) (Some q) (set_prev (Some (length h)));
      modify h1 (Some p) (set_next (Some (length h)))) = Ret h' /\
    dll h' b (L1 ++ (p, e) :: (length h, v) :: (q, f) :: L2) a.
Proof.
  intros [Hs Hn Ho]. pose proof (seg_fresh _ _ _ _ Hs) as Hf. set (s := length h) in *.
  set (h0 := h ++ [Some (Node v (Some p) (Some q))]).
  assert (Hs0 : seg h0 b (L1 ++ (p, e) :: (q, f) :: L2) a) by by apply seg_new.
  rewrite cons_middle, app_assoc in Hs0, Hn.
  assert (Hq : (q ∉ (L1 ++ [(p, e)]).*1) /\ (q ∉ L2.*1)) by by apply dll_nodup_mid in Hn.
  rewrite <-app_assoc in Hn. assert (Hp : (p ∉ L1.*1) /\ (p ∉ ((q, f) :: L2).*1)) by by apply dll_nodup_mid in Hn.
  apply dseg_app in Hs0 as [HA HB]. rewrite final_snoc in HB.
  rewrite !fmap_app in *. cbn [fmap list_fmap fst app first] in *.
  destruct (seg_set_prev h0 (Some p) (Some s) q f L2 a (proj2 Hq) HB) as [-> HB1]. bind.
  apply (seg_frame _ _ _ _ q (Some (Node f (Some s) (first L2 a)))) in HA.
  2: { rewrite fmap_app. apply Hq. }
  destruct (seg_set_next _ _ _ _ _ _ (Some s) (proj1 Hp) HA) as [-> HA1]. eexists. split; [done|].
  apply (seg_frame _ _ _ _ p (Some (Node e (final b L1) (Some s)))) in HB1; [|apply Hp].
  assert (Hsp : p <> s /\ q <> s) by (split; intros ->; apply Hf; set_solver).
  split.
  - rewrite cons_middle, app_assoc. apply dseg_app. rewrite final_snoc. split; [done|]. split; [|done].
    apply at_insert_ne; [apply Hsp|]. apply at_insert_ne; [apply Hsp|]. apply at_new.
  - rewrite fmap_app. cbn [fmap list_fmap fst]. rewrite (cons_middle p), app_assoc, <-Permutation_middle, <-app_assoc.
    apply NoDup_cons. by split.
  - eapply only_write; [eapply only_write; [eapply only_new; [exact Ho| |]|]|].
    + rewrite !fmap_app. cbn [fmap list_fmap fst]. set_solver.
    + rewrite !fmap_app. cbn [fmap list_fmap fst]. set_solver.
    + apply HB.
    + eapply (seg_at _ _ L1 p e []). exact HA.
Qed.

Lemma dll_delete_last h b L p e x v : dll h b ((L ++ [(p, e)]) ++ [(x, v)]) None ->
  exists h1 h', at_addr h x (Node v (Some p) None) /\ modify h (Some p) (set_next None) = Ret h1 /\
    at_addr h1 x (Node v (Some p) None) /\ dispose h1 (Some x) = Ret h' /\ dll h' b (L ++ [(p, e)]) None.
Proof.
  intros [Hs Hn Ho]. pose proof (dll_nodup_mid _ _ _ _ Hn) as [Hx _]. pose proof (seg_at _ _ _ _ _ _ _ Hs) as Ha.
  rewrite final_snoc in Ha. apply dseg_app in Hs as [HA _]. rewrite fmap_app in Hn. apply NoDup_app in Hn as [Hn _].
  pose proof (dll_nodup_mid _ _ _ _ Hn) as [Hp _].
  destruct (seg_set_next _ _ _ _ _ _ None Hp HA) as [-> HA1]. eexists _, _. split; [done|]. split; [done|].
  assert (Hpx : p <> x) by (intros ->; apply Hx; rewrite fmap_app; set_solver).
  assert (Ha1 := proj2 (at_insert_ne h p x _ (Some (Node e (final b L) None)) Hpx) Ha).
  split; [done|]. split; [by eapply dispose_ok|]. split; [by apply seg_frame|done|].
  eapply only_free; [eapply only_write; [exact Ho|eapply (seg_at _ _ L p e []); exact HA]|].
  intros y. rewrite !fmap_app. set_solver.
Qed.

Lemma dll_delete_mid h b L1 p e x v q f L2 a : dll h b (L1 ++ (p, e) :: (x, v) :: (q, f) :: L2) a ->
  exists h1 h2 h', at_addr h x (Node v (Some p) (Some q)) /\ modify h (Some p) (set_next (Some q)) = Ret h1 /\
    at_addr h1 x (Node v (Some p) (Some q)) /\ modify h1 (Some q) (set_prev (Some p)) = Ret h2 /\
    at_addr h2 x (Node v (Some p) (Some q)) /\ dispose h2 (Some x) = Ret h' /\
    dll h' b (L1 ++ (p, e) :: (q, f) :: L2) a.
Proof.
  intros [Hs Hn Ho]. rewrite cons_middle, app_assoc in Hs. pose proof (seg_at _ _ _ _ _ _ _ Hs) as Ha.
  rewrite final_snoc in Ha. cbn [first] in Ha. apply dseg_app in Hs as [HA [_ HB]].
  rewrite fmap_app in Hn. cbn [fmap list_fmap fst] in Hn. apply NoDup_app in Hn as (Hn1 & Hd & Hn2).
  apply NoDup_cons in Hn2 as [Hp [Hx [Hq Hn2]%NoDup_cons]%NoDup_cons].
  assert (HpL : p ∉ L1.*1) by (intros Hin; apply (Hd p Hin); set_solver).
  assert (HqL : q ∉ L1.*1) by (intros Hin; apply (Hd q Hin); set_solver).
  assert (HxL : x ∉ L1.*1) by (intros Hin; apply (Hd x Hin); set_solver).
  destruct (seg_set_next _ _ _ _ _ _ (Some q) HpL HA) as [-> HA1].
  apply (seg_frame _ _ _ _ p (Some (Node e (final b L1) (Some q)))) in HB as HB1; [|set_solver].
  destruct (seg_set_prev _ _ (Some p) _ _ _ _ Hq HB1) as [Eq HB2].
  eexists _, _, _. split; [done|]. split; [done|].
  assert (Ha1 := proj2 (at_insert_ne h p x _ (Some (Node e (final b L1) (Some q))) ltac:(set_solver)) Ha).
  split; [done|]. split; [exact Eq|].
  assert (Ha2 := proj2 (at_insert_ne _ q x _ (Some (Node f (Some p) (first L2 a))) ltac:(set_solver)) Ha1).
  split; [done|]. split; [by eapply dispose_ok|]. split.
  - apply seg_frame; [rewrite fmap_app; set_solver|]. rewrite cons_middle, app_assoc. apply dseg_app. split.
    + apply seg_frame; [|done]. rewrite fmap_app. set_solver.
    + by rewrite final_snoc.
  - rewrite fmap_app. cbn [fmap list_fmap fst]. apply NoDup_app. split; [done|]. split; [set_solver|].
    apply NoDup_cons. split; [set_solver|]. by apply NoDup_cons.
  - eapply only_free; [eapply only_write; [eapply only_write; [exact Ho|]|]|].
    + eapply (seg_at _ _ L1 p e []). exact HA.
    + apply HB1.
    + intros y. rewrite !fmap_app. cbn [fmap list_fmap fst]. set_solver.
Qed.
End Dll.

Arguments node : clear implicits.
