(* ===== verification/Dlist.v ===== *)
(** Component: the doubly linked list of src/c-study/dllist/list_01/list.c, a chain
    behind a head node that holds no element.  The theorems show that its operations
    implement a list, where they do not, and that destroying a list frees everything. *)
From S2P Require Import Prelude Arrays Heap Dll.

(** ** Data

    An [element_type] is a [void *]; the list holds pointers to elements of its user,
    and [next_element] also passes out a pointer to a node as one. *)
Inductive element_type := VNull | VElem (a : nat) | VNode (a : nat).

#[export] Instance element_type_eq : EqDecision element_type.
Proof. solve_decision. Defined.

Abbreviation node_t := (node element_type).

(** ** Operations *)

(** [junk] is what the element of the new head contains. *)
Definition init_list (junk : element_type) (h : heap node_t) : heap node_t * pointer * Z :=
  let '(h, list) := new h (Node junk None None) in (h, list, 1).

(** [while (p != NULL) { i++; p = p->next; }] *)
Fixpoint length_loop (fuel : nat) (h : heap node_t) (p : pointer) (i : Z) : res Z :=
  match p with
  | None => Ret i
  | Some _ =>
      match fuel with
      | O => Fuel
      | S n => i ← sint (i + 1); nd ← load h p; length_loop n h (next nd) i
      end
  end.

Definition list_length (h : heap node_t) (list : pointer) : res Z :=
  match list with
  | None => Ret (-1)
  | Some _ => hd ← load h list; length_loop (length h) h (next hd) 0
  end.

Definition list_empty (h : heap node_t) (list : pointer) : res Z :=
  match list with
  | None => Ret (-1)
  | Some _ =>
      hd ← load h list;
      Ret (match next hd, prev hd with None, None => 1 | _, _ => 0 end)
  end.

(** [for (j = 1; j <= i; j++) p = p->next;] *)
Fixpoint follow (n : nat) (h : heap node_t) (p : pointer) : res pointer :=
  match n with O => Ret p | S n => nd ← load h p; follow n h (next nd) end.

Definition get_elem_node (h : heap node_t) (list : pointer) (i : Z) : res pointer :=
  match list with
  | None => Ret None
  | Some _ =>
      len ← list_length h list;
      if (i <? 1) || (len <? i) then Ret None else follow (Z.to_nat i) h list
  end.

Definition list_insert (h : heap node_t) (list : pointer) (i : Z) (junk : node_t) (e : element_type) :
    res (heap node_t * Z) :=
  match list with
  | None => Ret (h, -1)
  | Some _ =>
      len ← list_length h list;
      if (i <? 0) || (len + 1 <? i) then Ret (h, -1) else
      let '(h, s) := new h junk in
      h ← modify h s (set_element e);
      hd ← load h list;
      if bool_decide (next hd = None) then
        h ← modify h s (set_prev list);
        h ← modify h s (set_next None);
        h ← modify h list (set_next s);
        Ret (h, 1)
      else if i =? 0 then
        h ← modify h s (set_next (next hd));
        h ← modify h s (set_prev list);
        h ← modify h (next hd) (set_prev s);
        h ← modify h list (set_next s);
        Ret (h, 1)
      else
        len ← list_length h list;
        p ← get_elem_node h list i;
        if i =? len then
          h ← modify h s (set_next None);
          h ← modify h s (set_prev p);
          h ← modify h p (set_next s);
          Ret (h, 1)
        else
          h ← modify h s (set_prev p);
          nd ← load h p;
          h ← modify h s (set_next (next nd));
          h ← modify h (next nd) (set_prev s);
          h ← modify h p (set_next s);
          Ret (h, 1)
  end.

(** The element passed out through [e], if any, is part of the result. *)
Definition list_delete (h : heap node_t) (list : pointer) (i : Z) : res (heap node_t * Z * option element_type) :=
  match list with
  | None => Ret (h, -1, None)
  | Some _ =>
      len ← list_length h list;
      if (i <? 1) || (len <? i) then Ret (h, -1, None) else
      hd ← load h list;
      if bool_decide (next hd = None) then Ret (h, 0, None) else
      len ← list_length h list;
      if i =? len then
        p ← get_elem_node h list len;
        match p with
        | None => Ret (h, 0, None)
        | Some _ =>
            nd ← load h p;
            h ← modify h (prev nd) (set_next None);
            nd ← load h p;
            h ← dispose h p;
            Ret (h, 1, Some (element nd))
        end
      else
        p ← get_elem_node h list i;
        match p with
        | None => Ret (h, 0, None)
        | Some _ =>
            nd ← load h p;
            h ← modify h (prev nd) (set_next (next nd));
            nd ← load h p;
            h ← modify h (next nd) (set_prev (prev nd));
            nd ← load h p;
            h ← dispose h p;
            Ret (h, 1, Some (element nd))
        end
  end.

(** The callback [compare] of [locate_element]. *)
Fixpoint locate_loop (fuel : nat) (h : heap node_t) (p : pointer) (e : element_type)
    (compare : element_type -> element_type -> bool) (i : Z) : res Z :=
  match p with
  | None => Ret 0
  | Some _ =>
      match fuel with
      | O => Fuel
      | S n =>
          i ← sint (i + 1);
          nd ← load h p;
          if compare (element nd) e then Ret i else locate_loop n h (next nd) e compare i
      end
  end.

Definition locate_element (h : heap node_t) (list : pointer) (e : element_type)
    (compare : element_type -> element_type -> bool) : res Z :=
  match list with
  | None => Ret (-1)
  | Some _ => hd ← load h list; locate_loop (length h) h (next hd) e compare 0
  end.

(** [while (p != NULL && j != i) j++;] *)
Fixpoint count_to (fuel : nat) (p : pointer) (j i : Z) : res Z :=
  if bool_decide (p <> None) && negb (j =? i) then
    match fuel with O => Fuel | S n => j ← sint (j + 1); count_to n p j i end
  else Ret j.

Definition get_element (h : heap node_t) (list : pointer) (i : Z) : res (Z * option element_type) :=
  match list with
  | None => Ret (-1, None)
  | Some _ =>
      hd ← load h list;
      let p := next hd in
      if bool_decide (p = None) then Ret (-1, None) else
      len ← list_length h list;
      if (i <? 1) || (len <? i) then Ret (-1, None) else
      _ ← count_to (Z.to_nat i) p 0 i;
      nd ← load h p;
      Ret (1, Some (element nd))
  end.

Fixpoint prior_loop (fuel : nat) (h : heap node_t) (p : pointer) (cure : element_type) :
    res (Z * option element_type) :=
  match p with
  | None => Ret (0, None)
  | Some _ =>
      nd ← load h p;
      if bool_decide (element nd = cure) then
        q ← load h (prev nd);
        Ret (1, Some (element q))
      else match fuel with O => Fuel | S n => prior_loop n h p cure end
  end.

Definition prior_element (fuel : nat) (h : heap node_t) (list : pointer) (cure : element_type) :
    res (Z * option element_type) :=
  match list with
  | None => Ret (-1, None)
  | Some _ =>
      hd ← load h list;
      if bool_decide (next hd = None) then Ret (-1, None) else
      nd ← load h (next hd);
      prior_loop fuel h (next nd) cure
  end.

Definition as_element (p : pointer) : element_type := match p with Some a => VNode a | None => VNull end.

Fixpoint next_loop (fuel : nat) (h : heap node_t) (p : pointer) (cure : element_type) :
    res (Z * option element_type) :=
  match p with
  | None => Ret (0, None)
  | Some _ =>
      match fuel with
      | O => Fuel
      | S n =>
          nd ← load h p;
          q ← load h (prev nd);
          if bool_decide (element q = cure) then Ret (1, Some (as_element (next nd)))
          else next_loop n h (next nd) cure
      end
  end.

(** For an empty list a message is printed, and the first node is used all the same. *)
Definition next_element (h : heap node_t) (list : pointer) (cure : element_type) :
    res (Z * option element_type) :=
  match list with
  | None => Ret (-1, None)
  | Some _ =>
      hd ← load h list;
      nd ← load h (next hd);
      next_loop (length h) h (next nd) cure
  end.

Fixpoint clear_loop (fuel : nat) (h : heap node_t) (p : pointer) : res (heap node_t) :=
  match p with
  | None => Ret h
  | Some _ =>
      match fuel with
      | O => Fuel
      | S n => nd ← load h p; h ← dispose h p; clear_loop n h (next nd)
      end
  end.

Definition clear_list (h : heap node_t) (list : pointer) : res (heap node_t * Z) :=
  match list with
  | None => Ret (h, -1)
  | Some _ =>
      hd ← load h list;
      h ← clear_loop (length h) h (next hd);
      h ← modify h list (set_next None);
      h ← modify h list (set_prev None);
      Ret (h, 1)
  end.

(** [free] of an element: [eh] is the heap of the user's elements. *)
Definition free_element {A} (eh : heap A) (h : heap node_t) (e : element_type) : res (heap A * heap node_t) :=
  match e with
  | VNull => Ret (eh, h)
  | VElem a => eh ← dispose eh (Some a); Ret (eh, h)
  | VNode a => h ← dispose h (Some a); Ret (eh, h)
  end.

Fixpoint destroy_loop {A} (fuel : nat) (eh : heap A) (h : heap node_t) (p : pointer) : res (heap A * heap node_t) :=
  match p with
  | None => Ret (eh, h)
  | Some _ =>
      match fuel with
      | O => Fuel
      | S n =>
          nd ← load h p;
          '(eh, h) ← free_element eh h (element nd);
          h ← dispose h p;
          destroy_loop n eh h (next nd)
      end
  end.

Definition destroy_list {A} (eh : heap A) (h : heap node_t) (list : pointer) :
    res (heap A * heap node_t * pointer * Z) :=
  match list with
  | None => Ret (eh, h, None, -1)
  | Some _ =>
      hd ← load h list;
      '(eh, h) ← destroy_loop (length h) eh h (next hd);
      h ← dispose h list;
      Ret (eh, h, None, 1)
  end.
