(* ===== verification/DlistThm.v ===== *)
(** The list of list_01/list.c refines a list of elements: a specification of every
    operation, what goes wrong in it included ([list_insert], [get_element],
    [prior_element] and [next_element] do not always do what their names say), which
    every sequence of operations follows; and destroying a list frees everything. *)
From S2P Require Import Prelude Arrays Heap Dll Dlist.

(** The list behind the head [hd] holds [es], and nothing else is allocated. *)
Definition dlist (h : heap node_t) (hd : nat) (es : list element_type) : Prop :=
  exists j L, dll h None ((hd, j) :: L) None /\ L.*2 = es.

(** ** Walking *)

Lemma length_loop_spec h b L fuel i : seg h b L None -> (length L <= fuel)%nat -> int i -> i + Z.of_nat (length L) < 2 ^ 31 ->
  length_loop fuel h (first L None) i = Ret (i + Z.of_nat (length L)).
Proof.
  revert b fuel i. induction L as [|[x e] L IH]; intros b fuel i Hs Hf Hi Hl; cbn [length] in *.
  { destruct fuel; cbn; f_equal; lia. }
  destruct fuel as [|fuel]; [lia|]. destruct Hs as [Hx HL]. cbn [first length_loop].
  unfold int in *. rewrite sint_fits by (unfold int; lia). bind.
  rewrite (load_ok _ _ _ Hx). bind. cbn [next].
  rewrite (IH (Some x)) by (try done; unfold int; lia). f_equal. lia.
Qed.

Lemma follow_spec h b L k : seg h b L None -> (k <= length L)%nat ->
  follow k h (first L None) = Ret (first (drop k L) None).
Proof.
  revert b L. induction k as [|k IH]; intros b L Hs Hk; [by rewrite drop_0|].
  destruct L as [|[x e] L]; [cbn in Hk; lia|]. destruct Hs as [Hx HL]. cbn [follow first].
  rewrite (load_ok _ _ _ Hx). bind. cbn [next]. rewrite skipn_cons. eapply IH; [done|]. cbn [length] in Hk. lia.
Qed.

Section dlist.
Context (h : heap node_t) (hd : nat) (j : element_type) (L : list (nat * element_type)).
Context (Hs : seg h None ((hd, j) :: L) None) (Hn : NoDup ((hd, j) :: L).*1) (Hlen : Z.of_nat (length L) < 2 ^ 31).

Lemma head_at : at_addr h hd (Node j None (first L None)).
Proof. exact (proj1 Hs). Qed.

Lemma head_load : load h (Some hd) = Ret (Node j None (first L None)).
Proof. apply load_ok, head_at. Qed.

Lemma list_length_spec : list_length h (Some hd) = Ret (Z.of_nat (length L)).
Proof.
  unfold list_length. rewrite head_load. bind. cbn [next]. pose proof (dseg_length _ _ _ _ Hs Hn).
  cbn [length] in *. rewrite (length_loop_spec _ _ _ _ _ (proj2 Hs)); [done|lia|done|lia].
Qed.

Lemma list_empty_spec : list_empty h (Some hd) = Ret (if L is [] then 1 else 0).
Proof. unfold list_empty. rewrite head_load. bind. cbn [next prev]. by destruct L as [|[]]. Qed.

Lemma get_elem_node_spec L1 p e L2 : (hd, j) :: L = L1 ++ (p, e) :: L2 -> L1 <> [] ->
  get_elem_node h (Some hd) (Z.of_nat (length L1)) = Ret (Some p).
Proof.
  intros E Hne. unfold get_elem_node. rewrite list_length_spec. bind.
  assert (length L = length L1 + length L2)%nat by (apply (f_equal length) in E; rewrite length_app in E; cbn in E; lia).
  assert (length L1 <> 0)%nat by by destruct L1.
  rewrite !(proj2 (Z.ltb_ge _ _)) by lia. cbn [orb]. rewrite Nat2Z.id.
  change (Some hd) with (first ((hd, j) :: L) None).
  rewrite (follow_spec h None) by (done || (cbn [length]; lia)).
  by rewrite E, drop_app_length.
Qed.

End dlist.

(** ** The list operations *)

(** The position of the first element that [f] accepts, counted from [i + 1]; 0 if none. *)
Fixpoint position (f : element_type -> bool) (es : list element_type) (i : Z) : Z :=
  match es with [] => 0 | x :: es => if f x then i + 1 else position f es (i + 1) end.

Inductive op :=
| Insert (i : Z) (e : element_type)
| Delete (i : Z)
| Length
| Empty
| Locate (e : element_type)
| Get (i : Z)
| Prior (cure : element_type)
| Next (cure : element_type)
| Clear.

(** What an operation passes out through a pointer, seen from the list: nothing, an
    element, or a pointer to the node of the [k]-th element, counted from 1. *)
Inductive shown := Nothing | Element (e : element_type) | NodeAt (k : nat).

(** [next_element] looks for [cure] from the [k]-th element on, the last one excepted,
    and passes out a pointer to the node two places behind it, or null. *)
Fixpoint next_spec (cure : element_type) (es : list element_type) (k : nat) : Z * shown :=
  match es with
  | x :: (_ :: r) as es =>
      if decide (x = cure) then (1, if r is [] then Element VNull else NodeAt (k + 2)) else next_spec cure es (S k)
  | _ => (0, Nothing)
  end.

(** What an operation makes of a list of elements, and what it returns and passes out.
    [UB]: the code is undefined, it follows a null pointer when it inserts behind the end
    of a list with elements or asks an empty one for a next element.  [Fuel]: the code
    never returns, it asks for the element prior to one that is not the second. *)
Definition spec (compare : element_type -> element_type -> bool) (es : list element_type) (o : op) :
    res (list element_type * (Z * shown)) :=
  let n := Z.of_nat (length es) in
  match o with
  | Insert i e =>
      if (i <? 0) || (n + 1 <? i) then Ret (es, (-1, Nothing)) else
      match es with
      | [] => Ret ([e], (1, Nothing))
      | _ => if i =? n + 1 then UB else Ret (take (Z.to_nat i) es ++ e :: drop (Z.to_nat i) es, (1, Nothing))
      end
  | Delete i =>
      if (i <? 1) || (n <? i) then Ret (es, (-1, Nothing)) else
      Ret (take (Z.to_nat (i - 1)) es ++ drop (Z.to_nat i) es, (1, from_option Element Nothing (es !! Z.to_nat (i - 1))))
  | Length => Ret (es, (n, Nothing))
  | Empty => Ret (es, (if es is [] then 1 else 0, Nothing))
  | Locate e => Ret (es, (position (fun x => compare x e) es 0, Nothing))
  | Get i =>
      match es with
      | [] => Ret (es, (-1, Nothing))
      | x :: _ => if (i <? 1) || (n <? i) then Ret (es, (-1, Nothing)) else Ret (es, (1, Element x))
      end
  | Prior cure =>
      match es with
      | [] => Ret (es, (-1, Nothing))
      | [_] => Ret (es, (0, Nothing))
      | x :: y :: _ => if decide (y = cure) then Ret (es, (1, Element x)) else Fuel
      end
  | Next cure => match es with [] => UB | _ => Ret (es, next_spec cure es 1) end
  | Clear => Ret ([], (1, Nothing))
  end.

(** What the code returns, and what it passes out. *)
Abbreviation out := (Z * option element_type)%type.

(** [fuel] is for the search of [prior_element]. *)
Definition run_op (fuel : nat) (junk : node_t) compare (h : heap node_t) (list : pointer) (o : op) : res (heap node_t * out) :=
  match o with
  | Insert i e => '(h, r) ← list_insert h list i junk e; Ret (h, (r, None))
  | Delete i => '(h, r, e) ← list_delete h list i; Ret (h, (r, e))
  | Length => r ← list_length h list; Ret (h, (r, None))
  | Empty => r ← list_empty h list; Ret (h, (r, None))
  | Locate e => r ← locate_element h list e compare; Ret (h, (r, None))
  | Get i => r ← get_element h list i; Ret (h, r)
  | Prior cure => r ← prior_element fuel h list cure; Ret (h, r)
  | Next cure => r ← next_element h list cure; Ret (h, r)
  | Clear => '(h, r) ← clear_list h list; Ret (h, (r, None))
  end.

(** What is passed out in memory [h] is what the specification shows; the node of the
    [k]-th element is [k] steps behind the head. *)
Definition shows (h : heap node_t) (hd : nat) (v : option element_type) (s : shown) : Prop :=
  match s with
  | Nothing => v = None
  | Element e => v = Some e
  | NodeAt k => exists a, v = Some (VNode a) /\ follow k h (Some hd) = Ret (Some a)
  end.

(** The code is undefined where the specification is, does not return where it does not,
    and otherwise gives a result related to its. *)
Definition implements {A B} (P : A -> B -> Prop) (c : res A) (s : res B) : Prop :=
  match s with Ret b => exists a, c = Ret a /\ P a b | UB => c = UB | Fuel => c = Fuel end.

Lemma implements_bind {A B A' B'} (P : A -> B -> Prop) (Q : A' -> B' -> Prop) c s (f : A -> res A') (g : B -> res B') :
  implements P c s -> (forall a b, P a b -> implements Q (f a) (g b)) -> implements Q (c ≫= f) (s ≫= g).
Proof. destruct s as [b| |]; cbn [implements]; [intros (a & -> & HP) H; by apply H|by intros ->..]. Qed.

(** Afterwards the memory holds the list of the specification. *)
Definition post (hd : nat) (a : heap node_t * out) (b : list element_type * (Z * shown)) : Prop :=
  dlist a.1 hd b.1 /\ a.2.1 = b.2.1 /\ shows a.1 hd a.2.2 b.2.2.

(** ** Inserting *)

(** The head stays in front, and what follows is spliced. *)
Lemma splice (hd : nat) (j : element_type) L L1 (p : nat) (e : element_type) L2 K :
  (hd, j) :: L = L1 ++ (p, e) :: L2 ->
  exists L', L1 ++ (p, e) :: K = (hd, j) :: L' /\ L'.*2 = take (length L1) L.*2 ++ K.*2 /\ L2.*2 = drop (length L1) L.*2.
Proof.
  destruct L1 as [|y L1]; intros E.
  { injection E as <- <- <-. exists K. by rewrite drop_0. }
  injection E as <- ->. exists (L1 ++ (p, e) :: K). split; [done|]. cbn [length]. rewrite !fmap_app. cbn [fmap list_fmap snd].
  rewrite <-(length_fmap snd L1), !cons_middle, !app_assoc. split.
  - f_equal. rewrite take_app_length'; [done|]. rewrite length_app. cbn. lia.
  - rewrite drop_app_length'; [done|]. rewrite length_app. cbn. lia.
Qed.

Lemma split_at (hd : nat) (j : element_type) L k : (k <= length L)%nat ->
  exists L1 p e L2, (hd, j) :: L = L1 ++ (p, e) :: L2 /\ length L1 = k.
Proof.
  intros Hk. destruct (lookup_lt_is_Some_2 ((hd, j) :: L) k) as [[p e] Hp]; [cbn [length]; lia|].
  exists (take k ((hd, j) :: L)), p, e, (drop (S k) ((hd, j) :: L)). split; [by rewrite take_drop_middle|].
  rewrite length_take. cbn [length]. lia.
Qed.

(** The writes of [list_insert], whatever their order on the new node. *)
Lemma insert_end h hd j L L1 p e v : dll h None ((hd, j) :: L) None -> (hd, j) :: L = L1 ++ [(p, e)] ->
  exists h', modify (h ++ [Some (Node v (Some p) None)]) (Some p) (set_next (Some (length h))) = Ret h' /\
    dlist h' hd (L.*2 ++ [v]).
Proof.
  intros Hd E. rewrite E in Hd. destruct (dll_insert_last _ _ _ _ _ v Hd) as (h' & -> & Hd'). exists h'. split; [done|].
  destruct (splice hd j L L1 p e [] [(length h, v)] E) as (L' & E' & El & Er). rewrite <-app_assoc in Hd'. cbn [app] in Hd'.
  rewrite E' in Hd'. exists j, L'. split; [done|]. rewrite El. cbn. f_equal.
  rewrite <-(take_drop (length L1) L.*2) at 2. rewrite <-Er. by rewrite app_nil_r.
Qed.

Lemma insert_between h hd j L L1 p e q f L2 v : dll h None ((hd, j) :: L) None -> (hd, j) :: L = L1 ++ (p, e) :: (q, f) :: L2 ->
  exists h', (h1 ← modify (h ++ [Some (Node v (Some p) (Some q))]) (Some q) (set_prev (Some (length h)));
      modify h1 (Some p) (set_next (Some (length h)))) = Ret h' /\
    dlist h' hd (take (length L1) L.*2 ++ v :: drop (length L1) L.*2).
Proof.
  intros Hd E. rewrite E in Hd. destruct (dll_insert_mid _ _ _ _ _ _ _ _ _ v Hd) as (h' & -> & Hd'). exists h'. split; [done|].
  destruct (splice hd j L L1 p e _ ((length h, v) :: (q, f) :: L2) E) as (L' & E' & El & Er).
  rewrite E' in Hd'. exists j, L'. split; [done|]. rewrite El, <-Er. done.
Qed.

(** Fill the node that was just allocated. *)
Lemma fill_element {h : heap node_t} {e a b v} :
  modify (h ++ [Some (Node e a b)]) (Some (length h)) (set_element v) = Ret (h ++ [Some (Node v a b)]).
Proof. exact (modify_new _ _ _). Qed.
Lemma fill_prev {h : heap node_t} {e a b p} :
  modify (h ++ [Some (Node e a b)]) (Some (length h)) (set_prev p) = Ret (h ++ [Some (Node e p b)]).
Proof. exact (modify_new _ _ _). Qed.
Lemma fill_next {h : heap node_t} {e a b p} :
  modify (h ++ [Some (Node e a b)]) (Some (length h)) (set_next p) = Ret (h ++ [Some (Node e a p)]).
Proof. exact (modify_new _ _ _). Qed.

Ltac fill_new := first [rewrite fill_element | rewrite fill_prev | rewrite fill_next]; bind.

Lemma insert_ok h hd es i junk e compare es' r : dlist h hd es -> Z.of_nat (length es) < 2 ^ 31 ->
  spec compare es (Insert i e) = Ret (es', r) ->
  exists h', list_insert h (Some hd) i junk e = Ret (h', r.1) /\ dlist h' hd es' /\ r.2 = Nothing.
Proof.
  intros (j & L & Hd & <-) Hlen Hspec. rewrite length_fmap in Hlen. destruct (Hd) as [Hs Hn _]. unfold list_insert.
  rewrite (list_length_spec _ _ _ _ Hs Hn Hlen). bind. cbn [spec] in Hspec. rewrite length_fmap in Hspec.
  destruct ((i <? 0) || (Z.of_nat (length L) + 1 <? i)) eqn:Eb.
  { injection Hspec as <- <-. exists h. split; [done|]. split; [by exists j, L|done]. }
  apply orb_false_iff in Eb as [Hi0%Z.ltb_ge Hi1%Z.ltb_ge]. unfold new. cbv beta iota. destruct junk as [je jp jn]. fill_new.
  rewrite (load_ok _ hd (Node j None (first L None))) by (by apply at_new_old, (head_at _ _ _ _ Hs)). bind.
  cbn [next]. destruct L as [|[q f] L].
  - injection Hspec as <- <-. rewrite bool_decide_true by done. do 2 fill_new.
    destruct (insert_end h hd j [] [] hd j e Hd eq_refl) as (h' & -> & H). bind. exists h'. by split.
  - rewrite bool_decide_false by done. cbn [first]. cbn [fmap list_fmap snd] in Hspec.
    destruct (i =? Z.of_nat (length ((q, f) :: L)) + 1) eqn:Eend; [done|]. injection Hspec as <- <-. apply Z.eqb_neq in Eend.
    destruct (Z.eqb_spec i 0) as [->|Hi].
    { do 2 fill_new. destruct (insert_between h hd j _ [] hd j q f L e Hd eq_refl) as (h' & Hm & H).
      rewrite (bind_seq _ _ _ _ Hm). exists h'. by split. }
    destruct (split_at hd j ((q, f) :: L) (Z.to_nat i)) as (L1 & p & e0 & L2 & E & EL1); [lia|].
    assert (Hne : L1 <> []) by (intros ->; cbn in EL1; lia). apply f_equal with (f := Z.of_nat) in EL1 as Ei. rewrite Z2Nat.id in Ei by lia.
    apply (seg_new _ _ _ _ (Node e jp jn)) in Hs.
    rewrite (list_length_spec _ _ _ _ Hs Hn Hlen). bind.
    pose proof (get_elem_node_spec _ _ _ _ Hs Hn Hlen _ _ _ _ E Hne) as Hg. rewrite Ei in Hg. rewrite Hg. bind.
    destruct L2 as [|[q' f'] L2].
    + assert (El : length L1 = length ((q, f) :: L)).
      { apply (f_equal length) in E. rewrite length_app in E. cbn in *. lia. }
      rewrite (proj2 (Z.eqb_eq _ _)) by lia. do 2 fill_new.
      destruct (insert_end h hd j _ L1 p e0 e Hd E) as (h' & -> & H). bind. exists h'. split; [done|]. split; [|done].
      rewrite take_ge, drop_ge by (cbn in *; rewrite length_fmap; lia). done.
    + assert (El : (length L1 < length ((q, f) :: L))%nat).
      { apply (f_equal length) in E. rewrite length_app in E. cbn in *. lia. }
      rewrite (proj2 (Z.eqb_neq _ _)) by lia. fill_new.
      rewrite (load_ok _ p (Node e0 (final None L1) (Some q'))).
      2: { apply at_new_old. destruct Hd as [Hd _ _]. rewrite E in Hd. exact (seg_at _ _ _ _ _ _ _ Hd). }
      bind. cbn [next]. fill_new. destruct (insert_between h hd j _ L1 p e0 q' f' L2 e Hd E) as (h' & Hm & H).
      rewrite (bind_seq _ _ _ _ Hm). exists h'. split; [done|]. split; [|done]. by rewrite EL1 in H.
Qed.

(** One position behind the end [get_elem_node] gives a null pointer. *)
Lemma insert_behind h hd es junk e : dlist h hd es -> Z.of_nat (length es) < 2 ^ 31 -> es <> [] ->
  list_insert h (Some hd) (Z.of_nat (length es) + 1) junk e = UB.
Proof.
  intros (j & L & [Hs Hn _] & <-) Hlen Hne. rewrite length_fmap in *. unfold list_insert.
  rewrite (list_length_spec _ _ _ _ Hs Hn Hlen). bind. rewrite !(proj2 (Z.ltb_ge _ _)) by lia. cbn [orb].
  unfold new. cbv beta iota. destruct junk as [je jp jn]. fill_new.
  apply (seg_new _ _ _ _ (Node e jp jn)) in Hs. rewrite (head_load _ _ _ _ Hs). bind. cbn [next].
  rewrite bool_decide_false by by destruct L as [|[]]. rewrite (proj2 (Z.eqb_neq _ _)) by lia.
  rewrite (list_length_spec _ _ _ _ Hs Hn Hlen). bind. unfold get_elem_node.
  rewrite (list_length_spec _ _ _ _ Hs Hn Hlen). bind.
  rewrite (proj2 (Z.ltb_ge _ _)), (proj2 (Z.ltb_lt _ _)) by lia. cbn [orb]. bind.
  rewrite (proj2 (Z.eqb_neq _ _)) by lia. fill_new. done.
Qed.

(** ** Deleting *)

Lemma drop_splice {A} (l : list A) k x r : drop k l = x :: r -> l !! k = Some x /\ drop (S k) l = r.
Proof.
  intros E. split.
  - rewrite <-(Nat.add_0_r k), <-lookup_drop, E. done.
  - replace (S k) with (k + 1)%nat by lia. by rewrite <-drop_drop, E.
Qed.

Lemma delete_ok h hd es i compare es' r : dlist h hd es -> Z.of_nat (length es) < 2 ^ 31 ->
  spec compare es (Delete i) = Ret (es', r) ->
  exists h' v, list_delete h (Some hd) i = Ret (h', r.1, v) /\ dlist h' hd es' /\ shows h' hd v r.2.
Proof.
  intros (j & L & Hd & <-) Hlen Hspec. rewrite length_fmap in Hlen. destruct (Hd) as [Hs Hn _]. unfold list_delete.
  rewrite (list_length_spec _ _ _ _ Hs Hn Hlen). bind. cbn [spec] in Hspec. rewrite length_fmap in Hspec.
  destruct ((i <? 1) || (Z.of_nat (length L) <? i)) eqn:Eb.
  { injection Hspec as <- <-. exists h, None. split; [done|]. split; [by exists j, L|done]. }
  apply orb_false_iff in Eb as [Hi0%Z.ltb_ge Hi1%Z.ltb_ge]. injection Hspec as <- <-.
  rewrite (head_load _ _ _ _ Hs). bind. cbn [next].
  rewrite bool_decide_false by (destruct L as [|[]]; [cbn in Hi1; lia|done]).
  destruct (split_at hd j L (Z.to_nat (i - 1))) as (L1 & p & e0 & [|[x v] L2] & E & EL1); [lia| |].
  { apply (f_equal length) in E. rewrite length_app in E. cbn in E. lia. }
  assert (Hg : get_elem_node h (Some hd) i = Ret (Some x)).
  { rewrite cons_middle, app_assoc in E. pose proof (get_elem_node_spec _ _ _ _ Hs Hn Hlen _ _ _ _ E) as Hg.
    rewrite length_app in Hg. cbn [length] in Hg. rewrite EL1 in Hg.
    replace (Z.of_nat (Z.to_nat (i - 1) + 1)) with i in Hg by lia. apply Hg. by destruct L1. }
  destruct (splice hd j L L1 p e0 ((x, v) :: L2) L2 E) as (L' & E' & El & Er). cbn [fmap list_fmap snd] in Er.
  symmetry in Er. apply drop_splice in Er as [Hv Er]. rewrite <-EL1 in *. rewrite Hv.
  replace (Z.to_nat i) with (S (length L1)) by lia. rewrite Er.
  assert (Hlast : (i =? Z.of_nat (length L)) = if L2 is [] then true else false).
  { apply (f_equal length) in E. rewrite length_app in E. cbn in E. destruct L2; cbn in E; [apply Z.eqb_eq|apply Z.eqb_neq]; lia. }
  rewrite Hlast. destruct L2 as [|[q f] L2].
  - apply Z.eqb_eq in Hlast. rewrite <-Hlast, Hg. bind. rewrite E in Hd.
    rewrite cons_middle, app_assoc in Hd. destruct (dll_delete_last _ _ _ _ _ _ _ Hd) as (h1 & h' & H1 & E1 & H2 & E2 & Hd').
    rewrite (load_ok _ _ _ H1). bind. cbn [prev]. rewrite E1. bind. rewrite (load_ok _ _ _ H2). bind. rewrite E2. bind.
    exists h', (Some v). split; [done|]. split; [|done]. exists j, L'. rewrite <-E'. by split.
  - rewrite Hg. bind. rewrite E in Hd.
    destruct (dll_delete_mid _ _ _ _ _ _ _ _ _ _ _ Hd) as (h1 & h2 & h' & H1 & E1 & H2 & E2 & H3 & E3 & Hd').
    rewrite (load_ok _ _ _ H1). bind. cbn [prev next]. rewrite E1. bind. rewrite (load_ok _ _ _ H2). bind. cbn [prev next].
    rewrite E2. bind. rewrite (load_ok _ _ _ H3). bind. rewrite E3. bind. exists h', (Some v). split; [done|].
    split; [|done]. exists j, L'. rewrite <-E'. by split.
Qed.

(** ** Looking, clearing, destroying *)

Lemma locate_loop_spec h b L e compare fuel i : seg h b L None -> (length L <= fuel)%nat -> int i ->
  i + Z.of_nat (length L) < 2 ^ 31 ->
  locate_loop fuel h (first L None) e compare i = Ret (position (fun x => compare x e) L.*2 i).
Proof.
  revert b fuel i. induction L as [|[x v] L IH]; intros b fuel i Hs Hf Hi Hl; cbn [length] in *; [by destruct fuel|].
  destruct fuel as [|fuel]; [lia|]. destruct Hs as [Hx HL]. unfold int in *. cbn [first locate_loop].
  rewrite sint_fits by (unfold int; lia). bind. rewrite (load_ok _ _ _ Hx). bind. cbn [element next fmap list_fmap snd position].
  destruct (compare v e); [done|]. apply (IH (Some x)); (done || lia).
Qed.

Lemma count_to_spec fuel p j i : 0 <= j <= i -> i < 2 ^ 31 -> (Z.to_nat (i - j) <= fuel)%nat -> p <> None ->
  count_to fuel p j i = Ret i.
Proof.
  revert j. induction fuel as [|fuel IH]; intros j Hj Hi Hf Hp; cbn [count_to]; rewrite bool_decide_true by done; cbn [andb].
  - rewrite (proj2 (Z.eqb_eq j i)) by lia. cbn [negb]. f_equal; lia.
  - destruct (Z.eqb_spec j i) as [->|]; cbn [negb]; [done|]. rewrite sint_fits by (unfold int; lia). bind.
    apply IH; (done || lia).
Qed.

Lemma prior_loop_stuck fuel h p nd cure : load h p = Ret nd -> element nd <> cure -> prior_loop fuel h p cure = Fuel.
Proof.
  intros Hl Hne. destruct p as [a|]; [|done]. induction fuel as [|fuel IH]; cbn [prior_loop]; rewrite Hl; bind;
    by rewrite bool_decide_false.
Qed.

(** The loop of [next_element] is at the node behind [x], which is the [k]-th. *)
Lemma next_loop_spec h hd b L L1 x e fuel cure : seg h None (L1 ++ (x, e) :: L) None -> first (L1 ++ (x, e) :: L) None = Some hd ->
  (length L <= fuel)%nat -> b = length L1 ->
  implements (fun v s => v.1 = s.1 /\ shows h hd v.2 s.2) (next_loop fuel h (first L None) cure) (Ret (next_spec cure (e :: L.*2) b)).
Proof.
  revert b L1 x e fuel. induction L as [|[y f] L IH]; intros b L1 x e fuel Hs Hh Hf ->.
  { exists (0, None). by destruct fuel. }
  cbn [length] in Hf. destruct fuel as [|fuel]; [lia|]. cbn [first next_loop fmap list_fmap snd].
  pose proof (seg_at _ _ _ _ _ _ _ Hs) as Hx. pose proof Hs as Hs'. rewrite cons_middle, app_assoc in Hs'.
  pose proof (seg_at _ _ _ _ _ _ _ Hs') as Hy. rewrite final_snoc in Hy.
  rewrite (load_ok _ _ _ Hy). bind. cbn [prev]. rewrite (load_ok _ _ _ Hx). bind. cbn [element next].
  change (next_spec cure (e :: f :: L.*2) (length L1)) with (if decide (e = cure) then
    (1, if L.*2 is [] then Element VNull else NodeAt (length L1 + 2)) else next_spec cure (f :: L.*2) (S (length L1))).
  rewrite bool_decide_decide. destruct (decide (e = cure)).
  - eexists. split; [done|]. split; [done|]. destruct L as [|[z g] L]; [done|]. cbn [fmap list_fmap snd first as_element fst shows].
    exists z. split; [done|]. rewrite <-Hh, (follow_spec h None _ _ Hs) by (rewrite length_app; cbn; lia).
    rewrite drop_app_ge by lia. by replace (length L1 + 2 - length L1)%nat with 2%nat by lia.
  - rewrite cons_middle, app_assoc in Hh. apply (IH _ (L1 ++ [(x, e)]) y f fuel); [done..|lia|]. rewrite length_app. cbn. lia.
Qed.

Section looking.
Context (h : heap node_t) (hd : nat) (es : list element_type).
Context (Hd : dlist h hd es) (Hlen : Z.of_nat (length es) < 2 ^ 31).
Context (compare : element_type -> element_type -> bool).

(** The operations that only look leave the memory as it is. *)
Abbreviation looks c s := (implements (post hd) (r ← c; Ret (h, r)) s).

Lemma get_ok i : looks (get_element h (Some hd) i) (spec compare es (Get i)).
Proof.
  destruct (Hd) as (j & L & [Hs Hn _] & HL). subst es. rewrite length_fmap in Hlen. cbn [spec]. rewrite length_fmap.
  unfold get_element. rewrite (head_load _ _ _ _ Hs). bind. cbn [next].
  destruct L as [|[a x] L]; [by exists (h, (-1, None))|]. cbn [fmap list_fmap snd first].
  rewrite bool_decide_false by done. rewrite (list_length_spec _ _ _ _ Hs Hn Hlen). bind.
  destruct ((i <? 1) || _) eqn:Ei; [by exists (h, (-1, None))|]. apply orb_false_iff in Ei as [?%Z.ltb_ge ?%Z.ltb_ge].
  rewrite count_to_spec by (done || lia). bind. rewrite (load_ok _ _ _ (proj1 (proj2 Hs))). bind. by exists (h, (1, Some x)).
Qed.

Lemma prior_ok fuel cure : looks (prior_element fuel h (Some hd) cure) (spec compare es (Prior cure)).
Proof.
  destruct (Hd) as (j & L & [Hs _ _] & HL). subst es. cbn [spec].
  unfold prior_element. rewrite (head_load _ _ _ _ Hs). bind. cbn [next].
  destruct L as [|[a x] L]; [by exists (h, (-1, None))|]. cbn [fmap list_fmap snd first].
  rewrite bool_decide_false by done. destruct Hs as [_ [Ha HL]]. rewrite (load_ok _ _ _ Ha). bind. cbn [next].
  destruct L as [|[b y] L]; [exists (h, (0, None)); by destruct fuel|]. cbn [fmap list_fmap snd first].
  destruct HL as [Hb _]. destruct (decide (y = cure)) as [Hy|Hy].
  - exists (h, (1, Some x)). split; [|done]. destruct fuel; cbn [prior_loop]; rewrite (load_ok _ _ _ Hb); bind;
      rewrite bool_decide_true by done; cbn [prev]; by rewrite (load_ok _ _ _ Ha).
  - cbn [implements]. by rewrite (prior_loop_stuck _ _ _ _ _ (load_ok _ _ _ Hb) Hy).
Qed.

Lemma next_ok cure : looks (next_element h (Some hd) cure) (spec compare es (Next cure)).
Proof.
  destruct (Hd) as (j & L & [Hs Hn _] & HL). subst es. cbn [spec].
  pose proof (dseg_length _ _ _ _ Hs Hn) as Hf. cbn [length] in Hf.
  unfold next_element. rewrite (head_load _ _ _ _ Hs). bind. cbn [next].
  destruct L as [|[a x] L]; [done|]. cbn [fmap list_fmap snd first length] in *.
  pose proof (seg_at h None [(hd, j)] a x L None Hs) as Ha. rewrite (load_ok _ _ _ Ha). bind. cbn [next].
  destruct (next_loop_spec h hd 1 L [(hd, j)] a x (length h) cure) as (r & -> & Hr & Hv); [done..|lia|done|]. bind.
  exists (h, r). split; [done|]. by split.
Qed.

End looking.

Lemma clear_loop_spec h j hd L fuel : seg h (Some hd) L None -> NoDup (hd :: L.*1) -> only h ((hd, j) :: L) ->
  (length L <= fuel)%nat ->
  exists h', clear_loop fuel h (first L None) = Ret h' /\ (forall x, at_addr h hd x -> at_addr h' hd x) /\ only h' [(hd, j)].
Proof.
  assert (Hgen : forall L h b fuel, seg h b L None -> NoDup (hd :: L.*1) -> only h ((hd, j) :: L) -> (length L <= fuel)%nat ->
    exists h', clear_loop fuel h (first L None) = Ret h' /\ (forall x, at_addr h hd x -> at_addr h' hd x) /\ only h' [(hd, j)]).
  2: { intros. by eapply Hgen. }
  clear. induction L as [|[x v] L IH]; intros h b fuel Hs Hn Ho Hf; cbn [length] in *.
  { exists h. split; [by destruct fuel|]. by split. }
  destruct fuel as [|fuel]; [lia|]. destruct Hs as [Hx HL]. cbn [first clear_loop].
  cbn [fmap list_fmap fst] in Hn. apply NoDup_cons in Hn as [Hhd [Hxl Hn]%NoDup_cons].
  rewrite (load_ok _ _ _ Hx). bind. rewrite (dispose_ok _ _ _ Hx). bind. cbn [next].
  destruct (IH (<[x := None]> h) (Some x) fuel) as (h' & E & H1 & H2).
  - by apply seg_frame.
  - apply NoDup_cons. split; [set_solver|done].
  - eapply only_free; [exact Ho|]. cbn [fmap list_fmap fst]. set_solver.
  - lia.
  - exists h'. split; [done|]. split; [|done]. intros y Hy. apply H1. apply at_insert_ne; [set_solver|done].
Qed.

Lemma dlist_clear_ok h hd es : dlist h hd es -> exists h', clear_list h (Some hd) = Ret (h', 1) /\ dlist h' hd [].
Proof.
  intros (j & L & [Hs Hn Ho] & <-). unfold clear_list. rewrite (head_load _ _ _ _ Hs). bind. cbn [next].
  pose proof (dseg_length _ _ _ _ Hs Hn) as Hf. cbn [length] in Hf.
  destruct (clear_loop_spec h j hd L (length h) (proj2 Hs)) as (h' & -> & Hk & Ho'); [done..|lia|]. bind.
  specialize (Hk _ (head_at _ _ _ _ Hs)). rewrite (modify_ok _ _ _ _ Hk). bind.
  erewrite modify_ok by (eapply at_insert_eq, Hk). bind. eexists. split; [done|]. exists j, []. split; [|done]. split.
  - split; [|done]. eapply at_insert_eq, at_insert_eq, Hk.
  - apply NoDup_singleton.
  - eapply only_write; [eapply only_write; [exact Ho'|exact Hk]|]. eapply at_insert_eq, Hk.
Qed.

Lemma destroy_loop_spec {A} (xs : list nat) : forall (eh : heap A) h hd j b L fuel,
  seg h b L None -> NoDup (hd :: L.*1) -> only h ((hd, j) :: L) -> (length L <= fuel)%nat ->
  L.*2 = VElem <$> xs -> NoDup xs -> Forall (fun a => exists x, at_addr eh a x) xs ->
  exists eh' h', destroy_loop fuel eh h (first L None) = Ret (eh', h') /\ (forall x, at_addr h hd x -> at_addr h' hd x) /\
    only h' [(hd, j)] /\ forall a x, at_addr eh' a x <-> at_addr eh a x /\ a ∉ xs.
Proof.
  induction xs as [|a xs IH]; intros eh h hd j b L fuel Hs Hn Ho Hf HL Hnx Hx.
  { destruct L; [|done]. exists eh, h. split; [by destruct fuel|]. split; [done|]. split; [done|]. set_solver. }
  destruct L as [|[y e] L]; [done|]. injection HL as -> HL. cbn [length] in Hf. destruct fuel as [|fuel]; [lia|].
  destruct Hs as [Hy HsL]. cbn [first destroy_loop]. cbn [fmap list_fmap fst] in Hn. apply NoDup_cons in Hn as [Hhd [Hyl Hn]%NoDup_cons].
  apply Forall_cons in Hx as [[z Hz] Hx]. apply NoDup_cons in Hnx as [Ha Hnx].
  rewrite (load_ok _ _ _ Hy). bind. cbn [element next free_element]. rewrite (dispose_ok _ _ _ Hz). bind.
  rewrite (dispose_ok _ _ _ Hy). bind.
  destruct (IH (<[a := None]> eh) (<[y := None]> h) hd j (Some y) L fuel) as (eh' & h' & -> & H1 & H2 & H3); try done.
  - by apply seg_frame.
  - apply NoDup_cons. split; [set_solver|done].
  - eapply only_free; [exact Ho|]. cbn [fmap list_fmap fst]. set_solver.
  - lia.
  - apply Forall_forall. intros c Hc. rewrite Forall_forall in Hx. destruct (Hx c Hc) as [w Hw]. exists w.
    apply at_insert_ne; [by intros ->|done].
  - exists eh', h'. split; [done|]. split; [intros x Hxx; apply H1, at_insert_ne; [set_solver|done]|]. split; [done|].
    intros c w. rewrite H3. destruct (decide (a = c)) as [<-|Hne].
    + split; [by intros [?%at_freed _]|set_solver].
    + rewrite at_insert_ne by done. set_solver.
Qed.

(** ** Sequences of operations *)

(** Up to the first operation that is undefined or does not return. *)
Fixpoint spec_run compare (es : list element_type) (os : list op) : res (list element_type * list (Z * shown)) :=
  match os with
  | [] => Ret (es, [])
  | o :: os =>
      '(es, r) ← spec compare es o;
      '(es, rs) ← spec_run compare es os;
      Ret (es, r :: rs)
  end.

(** Each result comes with the memory in which it was passed out. *)
Fixpoint run (fuel : nat) (junk : node_t) compare (h : heap node_t) (list : pointer) (os : List.list op) :
    res (heap node_t * List.list (heap node_t * out)) :=
  match os with
  | [] => Ret (h, [])
  | o :: os =>
      '(h, r) ← run_op fuel junk compare h list o;
      '(h', rs) ← run fuel junk compare h list os;
      Ret (h', (h, r) :: rs)
  end.

Lemma insert_implements fuel junk compare h hd es i e : dlist h hd es -> Z.of_nat (length es) < 2 ^ 31 ->
  implements (post hd) (run_op fuel junk compare h (Some hd) (Insert i e)) (spec compare es (Insert i e)).
Proof.
  intros Hd Hlen. cbn [run_op]. destruct (spec compare es (Insert i e)) as [[es' r]| |] eqn:Hs.
  - destruct (insert_ok _ _ _ _ junk _ _ _ _ Hd Hlen Hs) as (h' & -> & Hd' & Hr). bind.
    exists (h', (r.1, None)). unfold post. cbn [fst snd shows]. by rewrite Hr.
  - cbn [spec] in Hs. destruct (_ || _); [done|]. destruct es as [|x es]; [done|].
    destruct (Z.eqb_spec i (Z.of_nat (length (x :: es)) + 1)) as [->|]; [|done]. by rewrite (insert_behind _ _ _ _ _ Hd).
  - cbn [spec] in Hs. destruct (_ || _); [done|]. destruct es as [|x es]; [done|]. by destruct (_ =? _).
Qed.

Lemma run_op_ok fuel junk compare h hd es o : dlist h hd es -> Z.of_nat (length es) < 2 ^ 31 ->
  implements (post hd) (run_op fuel junk compare h (Some hd) o) (spec compare es o).
Proof.
  intros Hd Hlen. destruct o as [i e|i| | |e|i|cure|cure|]; [by apply insert_implements|cbn [run_op]..].
  - assert (exists b, spec compare es (Delete i) = Ret b) as [[es' r] Hs] by (cbn [spec]; destruct (_ || _); eauto).
    rewrite Hs. destruct (delete_ok _ _ _ _ _ _ _ Hd Hlen Hs) as (h' & v & -> & Hd' & Hv). bind. by exists (h', (r.1, v)).
  - destruct (Hd) as (j & L & [Hg Hn _] & <-). cbn [spec implements]. rewrite length_fmap in *.
    rewrite (list_length_spec _ _ _ _ Hg Hn Hlen). bind. by eexists.
  - destruct (Hd) as (j & L & [Hg Hn _] & <-). rewrite length_fmap in Hlen.
    rewrite (list_empty_spec _ _ _ _ Hg Hn Hlen). bind. eexists. split; [done|]. split; [done|]. by destruct L as [|[]].
  - destruct (Hd) as (j & L & [Hg Hn _] & <-). rewrite length_fmap in Hlen. cbn [locate_element].
    rewrite (head_load _ _ _ _ Hg). bind. cbn [next]. pose proof (dseg_length _ _ _ _ Hg Hn) as Hf. cbn [length] in Hf.
    rewrite (locate_loop_spec _ _ _ _ _ _ _ (proj2 Hg)) by (done || lia). bind. by eexists.
  - by apply get_ok.
  - by apply prior_ok.
  - by apply next_ok.
  - destruct (dlist_clear_ok _ _ _ Hd) as (h' & -> & Hd'). bind. by exists (h', (1, None)).
Qed.

Lemma spec_length compare es o es' r : spec compare es o = Ret (es', r) -> (length es' <= S (length es))%nat.
Proof.
  destruct o as [i e|i| | |e|i|cure|cure|]; cbn [spec]; intros H; try (injection H as <- _; cbn; lia).
  - destruct (_ || _); [injection H as <- _; lia|]. destruct es as [|x es]; [injection H as <- _; done|].
    destruct (_ =? _); [done|]. injection H as <- _. rewrite length_app, length_cons, length_take, length_drop. lia.
  - destruct (_ || _) eqn:Eb; injection H as <- _; [lia|]. rewrite length_app, length_take, length_drop.
    apply orb_false_iff in Eb as [?%Z.ltb_ge ?%Z.ltb_ge]. lia.
  - destruct es; [|destruct (_ || _)]; injection H as <- _; lia.
  - destruct es as [|x [|y es]]; [..|destruct (decide _); [|done]]; injection H as <- _; lia.
  - destruct es; [done|]. injection H as <- _. lia.
Qed.

Lemma run_ok fuel junk compare hd os h es : dlist h hd es -> Z.of_nat (length es + length os) < 2 ^ 31 ->
  implements (fun a b => dlist a.1 hd b.1 /\ Forall2 (fun x s => x.2.1 = s.1 /\ shows x.1 hd x.2.2 s.2) a.2 b.2)
    (run fuel junk compare h (Some hd) os) (spec_run compare es os).
Proof.
  revert h es. induction os as [|o os IH]; intros h es Hd Hl; cbn [spec_run run length] in *.
  - exists (h, []). split; [done|]. by split.
  - pose proof (run_op_ok fuel junk compare h hd es o Hd ltac:(lia)) as Ho. destruct (spec compare es o) as [[es1 r]| |] eqn:E.
    2-3: by cbn [implements] in Ho; rewrite Ho.
    destruct Ho as ([h1 x] & -> & Hd1 & Hx). bind. pose proof (spec_length _ _ _ _ _ E).
    eapply implements_bind; [apply IH; [done|lia]|]. intros [h2 xs] [es2 rs] [Hd2 HF].
    eexists. split; [done|]. split; [done|]. by constructor.
Qed.

Lemma dlist_init_ok junk : exists h hd, init_list junk [] = (h, Some hd, 1) /\ dlist h hd [].
Proof.
  exists [Some (Node junk None None)], 0%nat. split; [done|]. exists junk, []. split; [|done]. split.
  - split; [|done]. done.
  - apply NoDup_singleton.
  - intros x n Hx. apply lookup_lt_Some in Hx. cbn in Hx. assert (x = 0%nat) as -> by lia. by left.
Qed.

(** C27. The list is a list, as far as its code goes: from [init_list], any sequence of
    its operations does what [spec] says.  Where [spec] gives a result for all of them
    they are memory safe, return and pass out what [spec] shows, and leave allocated
    exactly the head and one node for each element of the list; a sequence in which
    [spec] meets an undefined operation follows a null pointer there, and one in which it
    meets an operation that does not return never returns. *)
Theorem dlist_refines fuel junk junk_node compare os : Z.of_nat (length os) < 2 ^ 31 ->
  exists h0 hd, init_list junk [] = (h0, Some hd, 1) /\ dlist h0 hd [] /\
  match spec_run compare [] os with
  | Ret (es, rs) => exists h xs, run fuel junk_node compare h0 (Some hd) os = Ret (h, xs) /\
      Forall2 (fun '(hx, (r, v)) '(r', s) => r = r' /\ shows hx hd v s) xs rs /\ dlist h hd es /\ length (live h) = S (length es)
  | UB => run fuel junk_node compare h0 (Some hd) os = UB
  | Fuel => run fuel junk_node compare h0 (Some hd) os = Fuel
  end.
Proof.
  intros Hlen. destruct (dlist_init_ok junk) as (h0 & hd & E0 & Hd0). exists h0, hd. split; [done|]. split; [done|].
  pose proof (run_ok fuel junk_node compare hd os h0 [] Hd0 Hlen) as H. destruct (spec_run compare [] os) as [[es rs]| |]; [|done..].
  destruct H as ([h xs] & E & Hd & HF). cbn [fst snd] in *. exists h, xs. split; [done|]. split.
  { eapply Forall2_impl; [exact HF|]. by intros [hx [r v]] [r' s]. }
  split; [done|]. destruct Hd as (j & L & [Hg Hn Ho] & <-). rewrite length_fmap.
  rewrite (live_perm h ((hd, j) :: L).*1); [by rewrite length_fmap|done|]. intros x. split.
  - intros [n Hx]. by eapply Ho.
  - by apply (seg_in h None ((hd, j) :: L) None).
Qed.

Lemma dlist_refines_witness :
  let os := [Insert 1 (VElem 5); Insert 1 (VElem 6); Insert 0 (VElem 7); Prior (VElem 5); Next (VElem 7); Delete 2; Get 2; Locate (VElem 6)] in
  spec_run (fun x y => bool_decide (x = y)) [] os = Ret ([VElem 7; VElem 6],
    [(1, Nothing); (1, Nothing); (1, Nothing); (1, Element (VElem 7)); (1, NodeAt 3); (1, Element (VElem 5)); (1, Element (VElem 7)); (2, Nothing)]) /\
  exists h0 hd, init_list VNull [] = (h0, Some hd, 1) /\ dlist h0 hd [] /\
    match spec_run (fun x y => bool_decide (x = y)) [] os with
    | Ret (es, rs) => exists h xs, run 0 (Node VNull None None) (fun x y => bool_decide (x = y)) h0 (Some hd) os = Ret (h, xs) /\
        Forall2 (fun '(hx, (r, v)) '(r', s) => r = r' /\ shows hx hd v s) xs rs /\ dlist h hd es /\ length (live h) = S (length es)
    | UB => run 0 (Node VNull None None) (fun x y => bool_decide (x = y)) h0 (Some hd) os = UB
    | Fuel => run 0 (Node VNull None None) (fun x y => bool_decide (x = y)) h0 (Some hd) os = Fuel
    end.
Proof.
  intros os. split; [by vm_compute|].
  apply (dlist_refines 0 VNull (Node VNull None None) (fun x y => bool_decide (x = y)) os). reflexivity.
Defined.

(** Destroying frees everything: on a list of distinct allocated elements,
    [destroy_list] frees each node, the head and each of these elements exactly once and
    no other element, and sets the list to null. *)
Theorem dlist_destroy {A} (eh : heap A) h hd xs : dlist h hd (VElem <$> xs) -> NoDup xs ->
  Forall (fun a => exists x, at_addr eh a x) xs ->
  exists eh' h', destroy_list eh h (Some hd) = Ret (eh', h', None, 1) /\ live h' = [] /\
    forall a x, at_addr eh' a x <-> at_addr eh a x /\ a ∉ xs.
Proof.
  intros (j & L & [Hs Hn Ho] & HL) Hnx Hx. unfold destroy_list. rewrite (head_load _ _ _ _ Hs). bind. cbn [next].
  pose proof (dseg_length _ _ _ _ Hs Hn) as Hf. cbn [length] in Hf.
  destruct (destroy_loop_spec xs eh h hd j (Some hd) L (length h) (proj2 Hs)) as (eh' & h' & -> & H1 & H2 & H3); [done..|lia|done|done|done|].
  bind. rewrite (dispose_ok _ _ _ (H1 _ (head_at _ _ _ _ Hs))). bind. exists eh', (<[hd := None]> h'). split; [done|]. split; [|done].
  apply live_nil. intros a x Hax. destruct (decide (hd = a)) as [<-|Hne]; [by apply at_freed in Hax|].
  apply at_insert_ne in Hax; [|done]. apply H2 in Hax. set_solver.
Qed.

Lemma dlist_destroy_witness : exists eh' h', destroy_list [Some 1; Some 2; Some 3]
    [Some (Node VNull None (Some 1%nat)); Some (Node (VElem 2) (Some 0%nat) (Some 2%nat)); Some (Node (VElem 0) (Some 1%nat) None)]
    (Some 0%nat) = Ret (eh', h', None, 1) /\ live h' = [] /\
  forall a x, at_addr eh' a x <-> at_addr [Some 1; Some 2; Some 3] a x /\ a ∉ [2; 0]%nat.
Proof.
  apply (dlist_destroy [Some 1; Some 2; Some 3] _ 0%nat [2; 0]%nat).
  - exists VNull, [(1%nat, VElem 2); (2%nat, VElem 0)]. split; [|done]. split.
    + cbn. unfold at_addr. done.
    + cbn. repeat (apply NoDup_cons; split; [set_solver|]). constructor.
    + intros x n Hx. apply lookup_lt_Some in Hx. cbn in *. set_unfold. lia.
  - repeat (apply NoDup_cons; split; [set_solver|]). constructor.
  - repeat constructor; unfold at_addr; cbn; eauto.
Defined.
