(* ===== verification/Ring.v ===== *)
(** Component: the queue of src/c-study/dllist/ring_01/ring1.c, meant to be used by
    several threads without a lock, as a step relation: each step is one access to
    memory that other threads can see, a compare-and-swap being one step. *)
From S2P Require Import Prelude Heap.

(** ** State *)

Record node := Node { next : pointer; data : Z }.

Definition set_next (p : pointer) (n : node) : node := Node p (data n).

Inductive op := Push (d : Z) | Pop.

(** Where a thread is, with the calls it still has to make; the names are those of the
    local variables. *)
Inductive pc :=
| Start (os : list op)
(* QuePush *)
| PRead (temp : pointer) (d : Z) (os : list op)               (* p = que.rear *)
| PCas (p temp : pointer) (d : Z) (os : list op)              (* CAS(&p->next, NULL, temp) *)
| PSwing (p temp : pointer) (os : list op)                    (* CAS(&que.rear, p, temp) *)
(* QuePop *)
| QRead (os : list op)                                        (* temp = que.front->next *)
| QNext (temp : pointer) (os : list op)                       (* p = temp->next *)
| QCas (temp p : pointer) (os : list op)                      (* CAS(&que.front->next, temp, p) *)
| QSwing (temp : pointer) (os : list op)                      (* CAS(&que.rear, temp, que.front) *)
| QFree (temp : pointer) (os : list op).                      (* *d = temp->data; free(temp) *)

(** The queue, the threads, and what happened: which thread linked which datum, and
    which call of [QuePop] returned what. *)
Record state := State {
  nodes : heap node;
  front : pointer;
  rear : pointer;
  thr : list pc;
  pushed : list (nat * Z);
  popped : list (nat * option Z)
}.

Definition goto (i : nat) (p : pc) (s : state) : state :=
  State (nodes s) (front s) (rear s) (<[i := p]> (thr s)) (pushed s) (popped s).
Definition set_nodes (h : heap node) (s : state) : state :=
  State h (front s) (rear s) (thr s) (pushed s) (popped s).
Definition set_rear (p : pointer) (s : state) : state :=
  State (nodes s) (front s) p (thr s) (pushed s) (popped s).
Definition log_push (i : nat) (d : Z) (s : state) : state :=
  State (nodes s) (front s) (rear s) (thr s) (pushed s ++ [(i, d)]) (popped s).
Definition log_pop (i : nat) (r : option Z) (s : state) : state :=
  State (nodes s) (front s) (rear s) (thr s) (pushed s) (popped s ++ [(i, r)]).

(** ** Operations *)

(** [__sync_bool_compare_and_swap] on the [next] field of a node, and on [que.rear]. *)
Definition cas_next (s : state) (p old new : pointer) : res (bool * state) :=
  nd ← load (nodes s) p;
  if bool_decide (next nd = old) then h ← modify (nodes s) p (set_next new); Ret (true, set_nodes h s)
  else Ret (false, s).

Definition cas_rear (s : state) (old new : pointer) : bool * state :=
  if bool_decide (rear s = old) then (true, set_rear new s) else (false, s).

Definition QueInit (junk : Z) (threads : list (list op)) : state :=
  let '(h, temp) := new [] (Node None junk) in State h temp temp (Start <$> threads) [] [].

Definition QueEmpty (s : state) : bool * state := cas_rear s (front s) (front s).

(** The step of thread [i]; [None] when it has finished. *)
Definition QuePush (i : nat) (p : pc) (s : state) : res (option state) :=
  match p with
  | Start (Push d :: os) =>
      let '(h, temp) := new (nodes s) (Node None d) in
      Ret (Some (goto i (PRead temp d os) (set_nodes h s)))
  | PRead temp d os => Ret (Some (goto i (PCas (rear s) temp d os) s))
  | PCas p temp d os =>
      '(ok, s) ← cas_next s p None temp;
      Ret (Some (if ok : bool then goto i (PSwing p temp os) (log_push i d s) else goto i (PRead temp d os) s))
  | PSwing p temp os => Ret (Some (goto i (Start os) (cas_rear s p temp).2))
  | _ => Ret None
  end.

Definition QuePop (i : nat) (p : pc) (s : state) : res (option state) :=
  match p with
  | Start (Pop :: os) =>
      let '(empty, s) := QueEmpty s in
      Ret (Some (if empty then goto i (Start os) (log_pop i None s) else goto i (QRead os) s))
  | QRead os => nd ← load (nodes s) (front s); Ret (Some (goto i (QNext (next nd) os) s))
  | QNext temp os =>
      match temp with
      | Some _ => nd ← load (nodes s) temp; Ret (Some (goto i (QCas temp (next nd) os) s))
      | None => Ret (Some (goto i (QCas temp None os) s))
      end
  | QCas temp p os =>
      '(ok, s) ← cas_next s (front s) temp p;
      Ret (Some (goto i (if ok : bool then QSwing temp os else Start (Pop :: os)) s))
  | QSwing temp os => Ret (Some (goto i (QFree temp os) (cas_rear s temp (front s)).2))
  | QFree temp os =>
      match temp with
      | Some _ =>
          nd ← load (nodes s) temp;
          h ← dispose (nodes s) temp;
          Ret (Some (goto i (Start os) (log_pop i (Some (data nd)) (set_nodes h s))))
      | None => Ret (Some (goto i (Start os) (log_pop i None s)))
      end
  | _ => Ret None
  end.

Definition thread_step (i : nat) (p : pc) (s : state) : res (option state) :=
  match p with
  | Start (Push _ :: _) | PRead _ _ _ | PCas _ _ _ _ | PSwing _ _ _ => QuePush i p s
  | _ => QuePop i p s
  end.

(** ** Executions *)

Inductive reachable (junk : Z) (threads : list (list op)) : state -> Prop :=
| reach_init : reachable junk threads (QueInit junk threads)
| reach_step s i p s' : reachable junk threads s -> thr s !! i = Some p ->
    thread_step i p s = Ret (Some s') -> reachable junk threads s'.

(** The execution that a schedule describes; threads that have finished are skipped. *)
Fixpoint execute (schedule : list nat) (s : state) : res state :=
  match schedule with
  | [] => Ret s
  | i :: schedule =>
      match thr s !! i with
      | None => execute schedule s
      | Some p => r ← thread_step i p s; execute schedule (default s r)
      end
  end.

Lemma execute_reachable junk threads schedule s s' : reachable junk threads s -> execute schedule s = Ret s' ->
  reachable junk threads s'.
Proof.
  revert s. induction schedule as [|i schedule IH]; intros s Hr H; cbn [execute] in H; [by injection H as <-|].
  destruct (thr s !! i) as [p|] eqn:Ep; [|by eapply IH]. inv_res. eapply IH; [|exact H].
  destruct v as [s1|]; [by eapply reach_step|done].
Qed.

(** The list of nodes from [p] on. *)
Fixpoint linked (h : heap node) (p : pointer) (L : list (nat * Z)) : Prop :=
  match L with
  | [] => p = None
  | (a, d) :: L => p = Some a /\ exists n, at_addr h a (Node n d) /\ linked h n L
  end.
