(* ===== verification/RingThm.v ===== *)
(** What the queue of ring1.c gives: used by one thread it is a first-in first-out
    queue; as soon as one thread pops while another one pushes, elements are lost and freed
    nodes are used; but any number of threads may push at the same time: in every
    interleaving the nodes stay one chain behind the front node, nothing is lost, the rear
    pointer lags behind by at most one node, and the data of each thread are linked in its
    order. *)
From S2P Require Import Prelude Heap Ring.

(** ** Chains *)

Lemma linked_frame h p L x o : x ∉ L.*1 -> linked h p L -> linked (<[x := o]> h) p L.
Proof.
  revert p. induction L as [|[a d] L IH]; intros p Hx; cbn [linked]; [done|].
  cbn [fmap list_fmap fst] in Hx. apply not_elem_of_cons in Hx as [Hxa HxL].
  intros (-> & n & Ha & HL). split; [done|]. exists n. split; [by apply at_insert_ne|by apply IH].
Qed.

Lemma linked_new h p L n : linked h p L -> linked (h ++ [Some n]) p L.
Proof.
  revert p. induction L as [|[a d] L IH]; intros p; cbn [linked]; [done|].
  intros (-> & m & Ha & HL). split; [done|]. exists m. split; [by apply at_new_old|by apply IH].
Qed.

Lemma linked_in h p L a : linked h p L -> a ∈ L.*1 -> exists n, at_addr h a n.
Proof.
  revert p. induction L as [|[b d] L IH]; intros p; cbn [linked fmap list_fmap fst]; [by intros _ ?%not_elem_of_nil|].
  intros (_ & n & Hb & HL) [->|Ha]%elem_of_cons; [by eexists|by eapply IH].
Qed.

Lemma linked_last h p L a d : linked h p (L ++ [(a, d)]) -> at_addr h a (Node None d).
Proof.
  revert p. induction L as [|[b v] L IH]; intros p; cbn [linked app]; [|by intros (_ & n & _ & H); eapply IH].
  intros (_ & n & Ha & ->). done.
Qed.

(** Only the last node has no successor. *)
Lemma linked_end h p L a d n : linked h p (L ++ [(a, d)]) -> forall b, b ∈ (L ++ [(a, d)]).*1 ->
  at_addr h b n -> next n = None -> b = a.
Proof.
  revert p. induction L as [|[c v] L IH]; intros p Hl b Hb Hn Hne; cbn [app linked fmap list_fmap fst] in *.
  { by apply list_elem_of_singleton in Hb. }
  destruct Hl as (_ & m & Hc & HL). apply elem_of_cons in Hb as [->|Hb]; [|by eapply IH].
  pose proof (at_addr_fun _ _ _ _ Hc Hn) as <-. cbn in Hne. subst m. destruct L as [|[] ]; cbn in HL; by destruct HL.
Qed.

(** Linking one more node behind the last one. *)
Lemma linked_extend h p L a d x v : linked h p (L ++ [(a, d)]) -> NoDup (L ++ [(a, d)]).*1 -> x ∉ (L ++ [(a, d)]).*1 ->
  at_addr h x (Node None v) -> linked (<[a := Some (Node (Some x) d)]> h) p ((L ++ [(a, d)]) ++ [(x, v)]).
Proof.
  revert p. induction L as [|[b w] L IH]; intros p Hl Hn Hx Hv; cbn [app linked fmap list_fmap fst] in *.
  - destruct Hl as (-> & n & Ha & ->). split; [done|]. exists (Some x). split; [by eapply at_insert_eq|].
    split; [done|]. exists None. split; [|done]. apply at_insert_ne; [set_solver|done].
  - destruct Hl as (-> & n & Hb & HL). apply NoDup_cons in Hn as [Hb' Hn]. apply not_elem_of_cons in Hx as [_ Hx].
    split; [done|]. exists n. split.
    + apply at_insert_ne; [|done]. intros ->. apply Hb'. rewrite fmap_app. set_solver.
    + by apply IH.
Qed.

(** ** One thread *)

(** Thread 0 is alone and between two calls; the queue holds [L]. *)
Record alone (s : state) (os : list op) (L : list (nat * Z)) : Prop := Alone {
  al_thr : thr s = [Start os];
  al_chain : exists f j, front s = Some f /\ linked (nodes s) (front s) ((f, j) :: L) /\ NoDup ((f, j) :: L).*1 /\
    (forall a n, at_addr (nodes s) a n -> a ∈ ((f, j) :: L).*1) /\
    rear s = fst <$> last ((f, j) :: L)
}.

Lemma execute_alone h fr re p pu po sch : execute (0%nat :: sch) (State h fr re [p] pu po) =
  (r ← thread_step 0 p (State h fr re [p] pu po); execute sch (default (State h fr re [p] pu po) r)).
Proof. reflexivity. Qed.

(** One step of the only thread. *)
Lemma goto_one h fr re p q pu po : goto 0 q (State h fr re [p] pu po) = State h fr re [q] pu po.
Proof. reflexivity. Qed.

Ltac at_state := unfold set_nodes, set_rear, log_push, log_pop;
  cbn [goto nodes front rear thr pushed popped default from_option id fst snd];
  rewrite ?goto_one; cbn [next data default from_option id fst snd].
Ltac settle := at_state; bind; at_state.
Ltac step1 := rewrite execute_alone; cbn [thread_step QuePush QuePop]; unfold new, QueEmpty, cas_rear, cas_next;
  cbv beta iota; settle.

Lemma push_alone s os d L : alone s (Push d :: os) L ->
  exists s' x, execute [0; 0; 0; 0]%nat s = Ret s' /\ alone s' os (L ++ [(x, d)]) /\ popped s' = popped s.
Proof.
  destruct s as [h fr re th pu po]. intros [Eth (f & j & Ef & Hl & Hn & Ho & Er)]. cbn [thr front rear nodes popped] in *. subst.
  destruct (exists_last (l := (f, j) :: L)) as (L0 & [a v] & EL); [done|]. rewrite EL in *. rewrite last_snoc. cbn [fmap option_fmap option_map fst].
  assert (Hx : length h ∉ (L0 ++ [(a, v)]).*1).
  { intros Hin. destruct (linked_in _ _ _ _ Hl Hin) as [n Hn'%at_addr_lt]. lia. }
  assert (Hax : a <> length h) by (intros ->; apply Hx; rewrite fmap_app; set_solver).
  assert (Ha : at_addr (h ++ [Some (Node None d)]) a (Node None v)) by (apply at_new_old; by eapply linked_last).
  step1.
  idtac. step1. step1. rewrite (load_ok _ _ _ Ha). bind. cbn [next]. rewrite bool_decide_true by done.
  rewrite (modify_ok _ _ _ _ Ha). bind. at_state. step1. rewrite bool_decide_true by done. at_state. cbn [execute].
  eexists _, (length h). split; [done|]. split; [|done]. split; [done|]. exists f, j. cbn [front nodes rear].
  rewrite app_comm_cons, EL. split; [done|]. split; [|split; [|split]].
  - apply linked_extend; [by apply linked_new|done|done|apply at_new].
  - rewrite fmap_app. apply NoDup_app. split; [done|]. split; [|apply NoDup_singleton]. by intros y Hy ->%list_elem_of_singleton.
  - intros y n Hy. rewrite fmap_app. apply elem_of_app. destruct (decide (a = y)) as [<-|Hne]; [left; rewrite fmap_app; set_solver|].
    apply at_insert_ne in Hy; [|done]. apply at_new_inv in Hy as [[-> _]|Hy]; [right; by left|left; by eapply Ho].
  - by rewrite last_snoc.
Qed.

Lemma pop_empty_alone s os : alone s (Pop :: os) [] ->
  exists s', execute [0]%nat s = Ret s' /\ alone s' os [] /\ popped s' = popped s ++ [(0%nat, None)].
Proof.
  destruct s as [h fr re th pu po]. intros [Eth (f & j & Ef & Hl & Hn & Ho & Er)]. cbn [thr front rear nodes popped] in *. subst.
  cbn [last fmap option_fmap option_map fst]. step1. rewrite bool_decide_true by done. at_state. cbn [execute].
  eexists. split; [done|]. split; [|done]. split; [done|]. by exists f, j.
Qed.

Lemma rear_in (L : list (nat * Z)) a : a ∉ L.*1 -> fst <$> last L <> Some a.
Proof.
  intros Ha E. apply Ha. destruct (last L) as [[b w]|] eqn:El; [|done]. injection E as ->.
  apply last_Some_elem_of in El. apply list_elem_of_fmap. by exists (a, w).
Qed.

Lemma pop_alone s os a d L : alone s (Pop :: os) ((a, d) :: L) ->
  exists s', execute [0; 0; 0; 0; 0; 0]%nat s = Ret s' /\ alone s' os L /\ popped s' = popped s ++ [(0%nat, Some d)].
Proof.
  destruct s as [h fr re th pu po]. intros [Eth (f & j & Ef & Hl & Hn & Ho & Er)]. cbn [thr front rear nodes popped] in *. subst.
  destruct Hl as (_ & n1 & Hf & (-> & n2 & Ha & HL)). cbn [fmap list_fmap fst] in Hn.
  apply NoDup_cons in Hn as [Hfa [HaL Hn]%NoDup_cons]. assert (Hne : f <> a) by (intros ->; apply Hfa; by left).
  rewrite last_cons_cons.
  assert (Hrear : fst <$> last ((a, d) :: L) <> Some f) by by apply rear_in.
  step1. rewrite bool_decide_false by done. settle. step1. rewrite (load_ok _ _ _ Hf). settle.
  step1. rewrite (load_ok _ _ _ Ha). settle. step1. rewrite (load_ok _ _ _ Hf). settle.
  rewrite bool_decide_true by done. rewrite (modify_ok _ _ _ _ Hf). settle.
  assert (Ha' : at_addr (<[f := Some (Node n2 j)]> h) a (Node n2 d)) by by apply at_insert_ne.
  step1. cbn [set_next data]. match goal with |- context [goto 0 _ ?c.2] =>
    assert (E : c.2 = State (<[f := Some (Node n2 j)]> h) (Some f) (fst <$> last ((f, j) :: L)) [QSwing (Some a) os] pu po) end.
  { destruct L as [|y L]; [by rewrite bool_decide_true|]. rewrite bool_decide_false; [by rewrite !last_cons_cons|].
    rewrite last_cons_cons. by apply rear_in. }
  rewrite E. settle. step1. rewrite (load_ok _ _ _ Ha'). settle. rewrite (dispose_ok _ _ _ Ha'). settle. cbn [execute].
  eexists. split; [done|]. split; [|done]. split; [done|]. exists f, j. cbn [front nodes rear].
  split; [done|]. split; [|split; [|split; [|done]]].
  - split; [done|]. exists n2. split; [apply at_insert_ne; [done|]; by eapply at_insert_eq|].
    apply linked_frame; [done|]. apply linked_frame; [|done]. set_solver.
  - cbn [fmap list_fmap fst]. apply NoDup_cons. split; [set_solver|done].
  - intros y n Hy. destruct (decide (a = y)) as [<-|Hay]; [by apply at_freed in Hy|]. apply at_insert_ne in Hy; [|done].
    assert (Hin : y ∈ ((f, j) :: (a, d) :: L).*1); [|set_solver].
    destruct (decide (f = y)) as [<-|Hfy]; [by left|]. apply at_insert_ne in Hy; [by eapply Ho|done].
Qed.

(** What the same calls do on a first-in first-out queue. *)
Fixpoint fifo (os : list op) (l : list Z) : list Z * list (option Z) :=
  match os with
  | [] => (l, [])
  | Push d :: os => fifo os (l ++ [d])
  | Pop :: os => let '(l', rs) := fifo os (tail l) in (l', head l :: rs)
  end.

Lemma execute_app sch1 sch2 s s' : execute sch1 s = Ret s' -> execute (sch1 ++ sch2) s = execute sch2 s'.
Proof.
  revert s. induction sch1 as [|i sch1 IH]; intros s H; cbn [execute app] in *; [by injection H as ->|].
  destruct (thr s !! i) as [p|]; [|by apply IH]. inv_res. rewrite E. bind. by apply IH.
Qed.

Lemma alone_run os : forall s L, alone s os L -> exists n s' L', execute (replicate n 0%nat) s = Ret s' /\ alone s' [] L' /\
  L'.*2 = (fifo os L.*2).1 /\ popped s' = popped s ++ map (pair 0%nat) (fifo os L.*2).2.
Proof.
  induction os as [|[d|] os IH]; intros s L Hs.
  - exists 0%nat, s, L. split; [done|]. split; [done|]. split; [done|]. cbn. by rewrite app_nil_r.
  - destruct (push_alone _ _ _ _ Hs) as (s1 & x & E1 & Hs1 & Ep). destruct (IH _ _ Hs1) as (n & s' & L' & E' & Hs' & Hf & Hp).
    rewrite fmap_app in Hf, Hp. exists (4 + n)%nat, s', L'. rewrite replicate_add. rewrite (execute_app _ _ _ _ E1).
    split; [done|]. split; [done|]. split; [done|]. by rewrite Hp, Ep.
  - destruct L as [|[a d] L].
    + destruct (pop_empty_alone _ _ Hs) as (s1 & E1 & Hs1 & Ep). destruct (IH _ _ Hs1) as (n & s' & L' & E' & Hs' & Hf & Hp).
      exists (1 + n)%nat, s', L'. rewrite replicate_add. rewrite (execute_app _ _ _ _ E1). cbn [fifo fmap list_fmap tail head] in *.
      destruct (fifo os []) as [l rs]. split; [done|]. split; [done|]. split; [done|]. by rewrite Hp, Ep, <-app_assoc.
    + destruct (pop_alone _ _ _ _ _ Hs) as (s1 & E1 & Hs1 & Ep). destruct (IH _ _ Hs1) as (n & s' & L' & E' & Hs' & Hf & Hp).
      exists (6 + n)%nat, s', L'. rewrite replicate_add. rewrite (execute_app _ _ _ _ E1). cbn [fifo fmap list_fmap tail head snd] in *.
      destruct (fifo os L.*2) as [l rs]. split; [done|]. split; [done|]. split; [done|]. by rewrite Hp, Ep, <-app_assoc.
Qed.

(** Used by one thread the queue is first-in first-out: every sequence of calls
    ends, stays inside its nodes, returns what a list used as a queue returns, leaves
    what is left in the list, and keeps exactly the front node and one node for each
    element. *)
Theorem ring_one_thread junk os : exists n s f j L,
  execute (replicate n 0%nat) (QueInit junk [os]) = Ret s /\ thr s = [Start []] /\
  popped s = map (pair 0%nat) (fifo os []).2 /\ L.*2 = (fifo os []).1 /\
  linked (nodes s) (front s) ((f, j) :: L) /\ length (live (nodes s)) = S (length L).
Proof.
  assert (H0 : alone (QueInit junk [os]) os []).
  { split; [done|]. exists 0%nat, junk. split; [done|]. split; [split; [done|by exists None]|]. split; [apply NoDup_singleton|].
    split; [|done]. intros a n Ha. apply lookup_lt_Some in Ha. cbn in Ha. assert (a = 0%nat) as -> by lia. by left. }
  destruct (alone_run _ _ _ H0) as (n & s & L & E & [Ht (f & j & Hf & Hl & Hn & Ho & _)] & HL & Hp).
  exists n, s, f, j, L. split_and!; try done.
  rewrite (live_perm _ ((f, j) :: L).*1); [by rewrite length_fmap|done|]. intros x. split.
  - intros [m Hx]. by eapply Ho.
  - by eapply linked_in.
Qed.

(** ** Threads that push and threads that pop *)

(** Name the state that a schedule leads to. *)
Ltac run_schedule sch s0 :=
  let r := eval vm_compute in (execute sch s0) in
  match r with Ret ?s => assert (E : execute sch s0 = Ret s) by (vm_compute; reflexivity); exists s end.

(** C24. One thread that pushes and one that pops are enough to break the queue.  A
    schedule after which a datum that was pushed is neither popped nor in the queue,
    although both threads have finished and the last call found the queue empty; and a
    schedule in which the pushing thread uses a node that the other one has freed. *)
Theorem ring_push_pop_race junk :
  (exists s, reachable junk [[Push 1; Push 2]; [Pop; Pop]] s /\ thr s = [Start []; Start []] /\
     pushed s = [(0%nat, 1); (0%nat, 2)] /\ popped s = [(1%nat, Some 1); (1%nat, None)] /\
     linked (nodes s) (front s) [(0%nat, junk)]) /\
  (exists s p, reachable junk [[Push 1; Push 2]; [Pop]] s /\ thr s !! 0%nat = Some p /\ thread_step 0 p s = UB).
Proof.
  split.
  - run_schedule [0; 0; 0; 0; 1; 1; 1; 0; 0; 0; 1; 1; 0; 1; 1]%nat (QueInit junk [[Push 1; Push 2]; [Pop; Pop]]).
    split; [eapply execute_reachable; [apply reach_init|exact E]|].
    do 4 (split; [reflexivity|]). exists None. split; reflexivity.
  - run_schedule [0; 0; 0; 0; 0; 0; 1; 1; 1; 1; 1; 1]%nat (QueInit junk [[Push 1; Push 2]; [Pop]]).
    eexists. split; [eapply execute_reachable; [apply reach_init|exact E]|]. split; reflexivity.
Qed.

(** ** Threads that push *)

Definition temp_of (p : pc) : option nat :=
  match p with PRead t _ _ | PCas _ t _ _ => t | _ => None end.

Definition swings (p : pc) : bool := match p with PSwing _ _ _ => true | _ => false end.

(** The data a thread has not linked yet. *)
Definition data_of (o : op) : list Z := match o with Push d => [d] | Pop => [] end.
Definition todo (p : pc) : list Z :=
  match p with
  | Start os | PSwing _ _ os => flat_map data_of os
  | PRead _ d os | PCas _ _ d os => d :: flat_map data_of os
  | _ => []
  end.

Definition is_push (o : op) : Prop := match o with Push _ => True | Pop => False end.

Definition linked_by (i : nat) (l : list (nat * Z)) : list Z := snd <$> filter (fun x => x.1 = i) l.

Lemma reachable_threads junk threads s : reachable junk threads s -> length (thr s) = length threads.
Proof.
  induction 1 as [|s i p s' _ IH Hi E]; [apply length_fmap|]. rewrite <-IH. clear -E.
  destruct p as [[|[d|] os]| | | | | | | |]; cbn [thread_step QuePush QuePop] in E; unfold cas_next, QueEmpty, cas_rear, new in E;
    repeat (case_match; cbn [snd] in E; try done); inv_res; repeat (case_match || case_bool_decide); simplify_eq; cbn; rewrite ?length_insert; try done.
  all: inv_res; simplify_eq; by rewrite ?length_insert.
Qed.

Section inv.
Context (junk : Z) (ds : list (list Z)).

(** A thread that pushes: its new node is not in the chain [L0 ++ R] yet, and the node
    it has read as the rear is in [L0]. *)
Definition good (h : heap node) (L0 R : list (nat * Z)) (p : pc) : Prop :=
  match p with
  | Start os | PSwing _ _ os => Forall is_push os
  | PRead t d os => Forall is_push os /\ exists x, t = Some x /\ at_addr h x (Node None d) /\ x ∉ (L0 ++ R).*1
  | PCas q t d os => Forall is_push os /\ (exists x, t = Some x /\ at_addr h x (Node None d) /\ x ∉ (L0 ++ R).*1) /\
      exists a, q = Some a /\ a ∈ L0.*1
  | _ => False
  end.

(** [R] is the node that is linked while the rear pointer is not moved yet: the thread
    that has linked it is the only one about to move it. *)
Definition pending (s : state) (R : list (nat * Z)) : Prop :=
  match R with
  | [] => forall i p, thr s !! i = Some p -> swings p = false
  | [(x, _)] => exists k os, thr s !! k = Some (PSwing (rear s) (Some x) os) /\
      forall i p, thr s !! i = Some p -> swings p = true -> i = k
  | _ => False
  end.

Record inv (s : state) (f : nat) (L0 R : list (nat * Z)) : Prop := Inv {
  iv_front : front s = Some f;
  iv_chain : linked (nodes s) (Some f) (L0 ++ R);
  iv_nodup : NoDup (L0 ++ R).*1;
  iv_rear : rear s = fst <$> last L0;
  iv_rear_some : rear s <> None;
  iv_data : (L0 ++ R).*2 = junk :: (pushed s).*2;
  iv_pending : pending s R;
  iv_good : forall i p, thr s !! i = Some p -> good (nodes s) L0 R p;
  iv_temps : forall i k p q x, i <> k -> thr s !! i = Some p -> thr s !! k = Some q ->
    temp_of p = Some x -> temp_of q <> Some x;
  iv_todo : forall i p, thr s !! i = Some p -> ds !! i = Some (linked_by i (pushed s) ++ todo p)
}.

Lemma thr_goto s i p p' k q : thr s !! i = Some p -> thr (goto i p' s) !! k = Some q <->
  (k = i /\ q = p') \/ (k <> i /\ thr s !! k = Some q).
Proof.
  intros Hi. apply lookup_lt_Some in Hi. cbn. destruct (decide (k = i)) as [->|Hne].
  - rewrite list_lookup_insert_eq by done. naive_solver.
  - rewrite list_lookup_insert_ne by done. naive_solver.
Qed.

Lemma init_inv : inv (QueInit junk (map (map Push) ds)) 0%nat [(0%nat, junk)] [].
Proof.
  assert (Hthr : forall i p, thr (QueInit junk (map (map Push) ds)) !! i = Some p ->
    exists l, ds !! i = Some l /\ p = Start (map Push l)).
  { intros i p. cbn. rewrite list_lookup_fmap. intros (os & Hos & ->)%fmap_Some. 
    change (map (map Push) ds) with (map Push <$> ds) in Hos. apply list_lookup_fmap_Some in Hos as (l & -> & Hl). eauto. }
  split; cbn; try done.
  - split; [done|]. by exists None.
  - apply NoDup_singleton.
  - by intros i p (l & _ & ->)%Hthr.
  - intros i p (l & _ & ->)%Hthr. cbn. apply Forall_forall. by intros o (d & <- & _)%list_elem_of_In%in_map_iff.
  - by intros i k p q x _ (l & _ & ->)%Hthr.
  - intros i p (l & Hl & ->)%Hthr. rewrite Hl. cbn. f_equal. clear. induction l as [|x l IH]; [done|]. cbn. by rewrite <-IH.
Qed.

Lemma good_change h h' L0 R L0' R' p : good h L0 R p ->
  (forall x d, temp_of p = Some x -> at_addr h x (Node None d) -> x ∉ (L0 ++ R).*1 ->
     at_addr h' x (Node None d) /\ x ∉ (L0' ++ R').*1) ->
  (forall a, a ∈ L0.*1 -> a ∈ L0'.*1) -> good h' L0' R' p.
Proof.
  intros Hg Ht HL. destruct p; cbn [good temp_of] in *; try done.
  - destruct Hg as (Ho & x & -> & Hx & Hn). split; [done|]. exists x. split; [done|]. by apply Ht.
  - destruct Hg as (Ho & (x & -> & Hx & Hn) & a & -> & Ha). split; [done|]. split; [|exists a; auto].
    exists x. split; [done|]. by apply Ht.
Qed.

(** Thread [i] moves from [p] to [p'], the rest of the state from [s] to [s1]: what is
    left to show when only nodes outside the chain or no nodes are written. *)
Lemma inv_move s s1 f L0 R i p p' : inv s f L0 R -> thr s !! i = Some p ->
  front s1 = front s -> rear s1 = rear s -> thr s1 = thr s -> pushed s1 = pushed s ->
  (forall a n, at_addr (nodes s) a n -> at_addr (nodes s1) a n) -> linked (nodes s1) (Some f) (L0 ++ R) ->
  swings p = false -> swings p' = false -> todo p' = todo p -> good (nodes s1) L0 R p' ->
  (forall x k q, k <> i -> thr s !! k = Some q -> temp_of p' = Some x -> temp_of q <> Some x) ->
  inv (goto i p' s1) f L0 R.
Proof.
  intros [H1 H2 H3 H4 H4' H5 H6 H7 H8 H9] Hi E1 E2 E3 E4 Hat Hch Hsp Hsp' Htd Hg Ht.
  pose proof (fun k q => thr_goto s1 i p p' k q) as Hthr. rewrite E3 in Hthr.
  split; cbn [front rear nodes pushed goto] in *; rewrite ?E1, ?E2, ?E4; try done.
  - destruct R as [|[x v] [|]]; cbn [pending] in *; [|destruct H6 as (k & os & Hk & Hu)|done].
    + intros k q [[-> ->]|[Hne Hk]]%(Hthr _ _ Hi); [done|by eapply H6].
    + exists k, os. assert (k <> i) by (intros ->; rewrite Hi in Hk; injection Hk as ->; done). split.
      * apply (Hthr _ _ Hi). right. cbn. by rewrite E2.
      * intros j q [[-> ->]|[Hne Hj]]%(Hthr _ _ Hi); [by rewrite Hsp'|]. by apply Hu.
  - intros k q [[-> ->]|[Hne Hk]]%(Hthr _ _ Hi); [done|]. eapply good_change; [by eapply H7| |done]. auto.
  - intros k j q r x Hne [[-> ->]|[Hki Hk]]%(Hthr _ _ Hi) [[-> ->]|[Hji Hj]]%(Hthr _ _ Hi) Hx; [done| | |].
    + by eapply Ht.
    + intros Hx'. by eapply (Ht x k q).
    + by eapply (H8 k j).
  - intros k q [[-> ->]|[Hne Hk]]%(Hthr _ _ Hi); [rewrite Htd|]; by apply H9.
Qed.

(** Temporary nodes are older than a new one. *)
Lemma temp_lt h L0 R p x : good h L0 R p -> temp_of p = Some x -> (x < length h)%nat.
Proof.
  intros Hg Hx. destruct p; cbn [good temp_of] in *; try done; subst; destruct Hg as (_ & H).
  - destruct H as (y & [= ->] & Hy%at_addr_lt & _). done.
  - destruct H as ((y & [= ->] & Hy%at_addr_lt & _) & _). done.
Qed.

Lemma step_alloc s f L0 R i d os : inv s f L0 R -> thr s !! i = Some (Start (Push d :: os)) ->
  exists s', thread_step i (Start (Push d :: os)) s = Ret (Some s') /\ inv s' f L0 R.
Proof.
  intros Hinv Hi. pose proof Hinv as [H1 H2 H3 H4 H4' H5 H6 H7 H8 H9]. cbn [thread_step QuePush]. unfold new.
  eexists. split; [done|]. pose proof (H7 _ _ Hi) as Hg. cbn in Hg. apply Forall_cons in Hg as [_ Hos].
  eapply inv_move; [exact Hinv|exact Hi|done..| | |done|done|done| |].
  - intros a n. apply at_new_old.
  - by apply linked_new.
  - split; [done|]. exists (length (nodes s)). split; [done|]. split; [apply at_new|].
    intros Hin. destruct (linked_in _ _ _ _ H2 Hin) as [n Hn%at_addr_lt]. lia.
  - intros x k q Hne Hk [= <-] Hx. pose proof (temp_lt _ _ _ _ _ (H7 _ _ Hk) Hx). lia.
Qed.

Lemma step_read s f L0 R i t d os : inv s f L0 R -> thr s !! i = Some (PRead t d os) ->
  exists s', thread_step i (PRead t d os) s = Ret (Some s') /\ inv s' f L0 R.
Proof.
  intros Hinv Hi. pose proof Hinv as [H1 H2 H3 H4 H4' H5 H6 H7 H8 H9]. eexists. split; [done|].
  eapply inv_move; [exact Hinv|exact Hi|done..| | ].
  - destruct (H7 _ _ Hi) as [Hos Ht]. split; [done|]. split; [done|]. rewrite H4 in *.
    destruct (last L0) as [[a v]|] eqn:E; [|done]. exists a. split; [done|].
    apply last_Some_elem_of in E. apply list_elem_of_fmap. by exists (a, v).
  - intros x k q Hne Hk Hx. cbn [temp_of] in Hx. by eapply (H8 i k).
Qed.

Lemma linked_by_snoc k l i d : linked_by k (l ++ [(i, d)]) = linked_by k l ++ (if decide (i = k) then [d] else []).
Proof. unfold linked_by. rewrite filter_app, fmap_app, filter_cons. cbn [fst]. by destruct (decide (i = k)). Qed.

(** A compare-and-swap that succeeds is at the end of the chain, where the rear is. *)
Lemma cas_at_end s f L0 R a n : inv s f L0 R -> a ∈ L0.*1 -> at_addr (nodes s) a n -> next n = None ->
  R = [] /\ exists K v, L0 = K ++ [(a, v)] /\ n = Node None v.
Proof.
  intros [H1 H2 H3 H4 H4' H5 H6 H7 H8 H9] Ha Hn Hnone.
  assert (Hin : a ∈ (L0 ++ R).*1) by (rewrite fmap_app; apply elem_of_app; by left).
  destruct R as [|[x v] [|]]; [|exfalso|done].
  - split; [done|]. rewrite app_nil_r in *. destruct L0 as [|[z w] K _] using rev_ind; [by apply not_elem_of_nil in Ha|].
    pose proof (linked_end _ _ _ _ _ _ H2 _ Ha Hn Hnone) as ->. exists K, w. split; [done|].
    by eapply at_addr_fun; [exact Hn|eapply linked_last].
  - pose proof (linked_end _ _ _ _ _ _ H2 _ Hin Hn Hnone) as ->. rewrite fmap_app in H3.
    apply NoDup_app in H3 as (_ & Hd & _). apply (Hd x Ha). by left.
Qed.

(** The invariant after a node is linked: it is pending. *)
Lemma inv_link s f K a v i x d q os : inv s f (K ++ [(a, v)]) [] -> thr s !! i = Some (PCas q (Some x) d os) ->
  inv (goto i (PSwing (Some a) (Some x) os) (log_push i d (set_nodes (<[a := Some (Node (Some x) v)]> (nodes s)) s)))
    f (K ++ [(a, v)]) [(x, d)].
Proof.
  intros [H1 H2 H3 H4 H4' H5 H6 H7 H8 H9] Hi. destruct (H7 _ _ Hi) as (Hos & (y & [= <-] & Hx & Hxn) & _).
  rewrite app_nil_r in *. set (s1 := log_push i d (set_nodes (<[a := Some (Node (Some x) v)]> (nodes s)) s)).
  pose proof (fun k r => thr_goto s1 i _ (PSwing (Some a) (Some x) os) k r Hi) as Hthr. cbn [thr log_push set_nodes s1] in Hthr.
  assert (Hrear : rear s = Some a) by by rewrite H4, last_snoc.
  split; cbn [front rear nodes pushed goto log_push set_nodes s1]; try done.
  - by apply linked_extend.
  - rewrite fmap_app. apply NoDup_app. split; [done|]. split; [|apply NoDup_singleton].
    by intros z Hz ->%list_elem_of_singleton.
  - rewrite !fmap_app in *. cbn [fmap list_fmap snd] in *. by rewrite H5.
  - exists i, os. split; [apply Hthr; left; by rewrite <-Hrear|].
    intros k r [[-> ->]|[Hne Hk]]%Hthr Hsw; [done|]. cbn in H6. by rewrite (H6 _ _ Hk) in Hsw.
  - intros k r [[-> ->]|[Hne Hk]]%Hthr; [done|]. eapply good_change; [by eapply H7| |done].
    intros z w Hz Hzat Hzn. rewrite app_nil_r in Hzn. split.
    + apply at_insert_ne; [|done]. intros ->. apply Hzn. rewrite fmap_app. set_solver.
    + rewrite fmap_app. intros [Hz'|Hz']%elem_of_app; [done|]. apply list_elem_of_singleton in Hz'. cbn in Hz'. subst z.
      by eapply (H8 i k).
  - intros k j r r' z Hne [[-> ->]|[Hki Hk]]%Hthr [[-> ->]|[Hji Hj]]%Hthr Hz; try done. by eapply (H8 k j).
  - intros k r [[-> ->]|[Hne Hk]]%Hthr; rewrite linked_by_snoc.
    + rewrite decide_True by done. rewrite (H9 _ _ Hi), <-app_assoc. done.
    + rewrite decide_False by done. rewrite app_nil_r. by apply H9.
Qed.

Lemma step_cas s f L0 R i q t d os : inv s f L0 R -> thr s !! i = Some (PCas q t d os) ->
  exists s' R', thread_step i (PCas q t d os) s = Ret (Some s') /\ inv s' f L0 R'.
Proof.
  intros Hinv Hi. pose proof (iv_good _ _ _ _ Hinv _ _ Hi) as (Hos & (x & -> & Hx & Hxn) & a & -> & Ha).
  destruct (linked_in _ _ _ a (iv_chain _ _ _ _ Hinv)) as [n Hn]; [rewrite fmap_app; apply elem_of_app; by left|].
  cbn [thread_step QuePush]. unfold cas_next. rewrite (load_ok _ _ _ Hn). bind. case_bool_decide as Hnone.
  - rewrite (modify_ok _ _ _ _ Hn). bind. destruct (cas_at_end _ _ _ _ _ _ Hinv Ha Hn Hnone) as (-> & K & v & -> & ->).
    eexists _, [(x, d)]. split; [done|]. by eapply inv_link.
  - bind. eexists _, R. split; [done|]. pose proof (iv_chain _ _ _ _ Hinv) as Hch.
    eapply inv_move; [exact Hinv|exact Hi|done..| |].
    + split; [done|]. by exists x.
    + intros z k r Hne Hk Hz. cbn [temp_of] in Hz. injection Hz as <-. by eapply (iv_temps _ _ _ _ Hinv i k).
Qed.

Lemma step_swing s f L0 R i q t os : inv s f L0 R -> thr s !! i = Some (PSwing q t os) ->
  exists s' L0', thread_step i (PSwing q t os) s = Ret (Some s') /\ inv s' f L0' [].
Proof.
  intros [H1 H2 H3 H4 H4' H5 H6 H7 H8 H9] Hi.
  destruct R as [|[x v] [|]]; [|destruct H6 as (k & os' & Hk & Hu)|done].
  { cbn in H6. by specialize (H6 _ _ Hi). }
  assert (i = k) as <- by by eapply Hu. rewrite Hi in Hk. injection Hk as -> -> ->.
  cbn [thread_step QuePush]. unfold cas_rear. rewrite bool_decide_true by done. cbn [snd].
  set (s1 := set_rear (Some x) s). pose proof (fun j r => thr_goto s1 i _ (Start os') j r Hi) as Hthr. cbn [thr set_rear s1] in Hthr.
  eexists _, (L0 ++ [(x, v)]). split; [done|]. split; cbn [front rear nodes pushed goto set_rear s1]; rewrite ?app_nil_r; try done.
  - by rewrite last_snoc.
  - intros j r [[-> ->]|[Hne Hj]]%Hthr; [done|]. destruct (swings r) eqn:Er; [|done]. by specialize (Hu _ _ Hj Er).
  - intros j r [[-> ->]|[Hne Hj]]%Hthr; [exact (H7 _ _ Hi)|]. eapply good_change; [by eapply H7| |].
    + intros z w Hz Hat Hzn. by rewrite app_nil_r.
    + intros b Hb. rewrite fmap_app. apply elem_of_app. by left.
  - intros j l r r' z Hne [[-> ->]|[Hji Hj]]%Hthr [[-> ->]|[Hli Hl]]%Hthr Hz; try done. by eapply (H8 j l).
  - intros j r [[-> ->]|[Hne Hj]]%Hthr; [apply (H9 _ _ Hi)|by apply H9].
Qed.

(** Every step keeps the invariant, and no step is undefined. *)
Lemma push_inv_step s f L0 R i p : inv s f L0 R -> thr s !! i = Some p ->
  exists o, thread_step i p s = Ret o /\ forall s', o = Some s' -> exists L0' R', inv s' f L0' R'.
Proof.
  intros Hinv Hi. pose proof (iv_good _ _ _ _ Hinv _ _ Hi) as Hg. destruct p; try done.
  - destruct os as [|[d|] os]; [by eexists| |by apply Forall_cons in Hg as [? _]].
    destruct (step_alloc _ _ _ _ _ _ _ Hinv Hi) as (s' & E & H). eexists. split; [exact E|]. intros ? [= <-]. eauto.
  - destruct (step_read _ _ _ _ _ _ _ _ Hinv Hi) as (s' & E & H). eexists. split; [exact E|]. intros ? [= <-]. eauto.
  - destruct (step_cas _ _ _ _ _ _ _ _ _ Hinv Hi) as (s' & R' & E & H). eexists. split; [exact E|]. intros ? [= <-]. eauto.
  - destruct (step_swing _ _ _ _ _ _ _ _ Hinv Hi) as (s' & L0' & E & H). eexists. split; [exact E|]. intros ? [= <-]. eauto.
Qed.

Lemma push_reachable_inv s : reachable junk (map (map Push) ds) s -> exists f L0 R, inv s f L0 R.
Proof.
  induction 1 as [|s i p s' Hr (f & L0 & R & Hinv) Hi E]; [eauto using init_inv|].
  destruct (push_inv_step _ _ _ _ _ _ Hinv Hi) as (o & Eo & H). rewrite E in Eo. injection Eo as <-.
  destruct (H _ eq_refl) as (L0' & R' & H'). eauto.
Qed.
End inv.

(** C23. Threads that only push do not disturb each other: in every interleaving no
    thread touches a node that is not allocated; the front node is followed by exactly
    the data linked so far, in the order in which they were linked; each thread's data
    are linked in its own order; and when all threads have finished everything is in
    the queue and the rear points to the last node. *)
Theorem ring_pushers junk ds s : reachable junk (map (map Push) ds) s ->
  (forall i p, thr s !! i = Some p -> thread_step i p s <> UB) /\
  exists f L, front s = Some f /\ linked (nodes s) (Some f) ((f, junk) :: L) /\ L.*2 = (pushed s).*2 /\
    (forall i l, ds !! i = Some l -> linked_by i (pushed s) `prefix_of` l) /\
    ((forall i p, thr s !! i = Some p -> p = Start []) ->
       rear s = fst <$> last ((f, junk) :: L) /\ forall i l, ds !! i = Some l -> linked_by i (pushed s) = l).
Proof.
  intros Hr. pose proof (reachable_threads _ _ _ Hr) as Hlen. rewrite length_map in Hlen.
  apply push_reachable_inv in Hr as (f & L0 & R & Hinv). split.
  { intros i p Hi E. destruct (push_inv_step _ _ _ _ _ _ _ _ Hinv Hi) as (o & Eo & _). by rewrite E in Eo. }
  destruct Hinv as [H1 H2 H3 H4 H4' H5 H6 H7 H8 H9]. exists f.
  destruct (L0 ++ R) as [|[g v] L] eqn:EL; [done|]. destruct (H2) as [[= <-] _]. injection H5 as <- H5.
  assert (Hthr : forall i l, ds !! i = Some l -> exists p, thr s !! i = Some p /\ l = linked_by i (pushed s) ++ todo p).
  { intros i l Hl. destruct (lookup_lt_is_Some_2 (thr s) i) as [p Hp]; [apply lookup_lt_Some in Hl; lia|].
    exists p. split; [done|]. rewrite (H9 _ _ Hp) in Hl. by injection Hl. }
  exists L. split_and!; try done.
  - intros i l (p & _ & ->)%Hthr. by eexists.
  - intros Hdone. split.
    + destruct R as [|[x w] [|]]; [|destruct H6 as (k & os & Hk & _); by specialize (Hdone _ _ Hk)|done].
      rewrite app_nil_r in EL. by rewrite H4, EL.
    + intros i l (p & Hp & ->)%Hthr. rewrite (Hdone _ _ Hp). cbn. by rewrite app_nil_r.
Qed.

Lemma ring_pushers_witness : exists s, reachable 0 (map (map Push) [[1]; [2]]) s /\
  thr s = [Start []; Start []] /\ forall i l, [[1]; [2]] !! i = Some l -> linked_by i (pushed s) = l.
Proof.
  run_schedule [0; 1; 0; 1; 1; 0; 1; 0; 0; 0; 0]%nat (QueInit 0 [[Push 1]; [Push 2]]).
  assert (Hr : reachable 0 (map (map Push) [[1]; [2]])
    ltac:(match type of E with _ = Ret ?s => exact s end)) by (eapply execute_reachable; [apply reach_init|exact E]).
  split; [exact Hr|]. split; [reflexivity|].
  destruct (ring_pushers _ _ _ Hr) as (_ & f & L & _ & _ & _ & _ & H). apply H.
  intros [|[|i]] p Hp; [by injection Hp|by injection Hp|done].
Defined.
