(* ===== verification/Clist.v ===== *)
(** Component: the thread-safe list of src/c-study/dllist/chunxiao_list: dlist.c, a
    circular doubly linked list around a head that is part of the list object, and
    locker.c, a lock that its owner may take again, on top of the pthread mutex of
    locker_pthread.c.  Threads interleave step by step: a step makes at most one access
    to memory that other threads may change meanwhile, apart from the body of
    [list_destroy], which is one step. *)
From S2P Require Import Prelude Arrays Heap Dll.

(** ** State *)

(** [struct _locker]; [mutex] is the thread that holds the pthread mutex in [priv], and
    [alive] says whether the object is still allocated. *)
Record locker_t := Locker { alive : bool; owner : Z; refcount : Z; mutex : option nat }.

Inductive op := Add (d : Z) | AddTail (d : Z) | Length | Destroy.

(** A call with the new node it has created, if any. *)
Record job := Job { j_op : op; j_new : pointer }.

(** What [locker_loop_unlock] goes back to: the end of a call with its result, or
    [dlist_destroy_locker]. *)
Inductive back := Return (r : Z) | DestroyLocker.

Inductive pc :=
| Idle (os : list op)
(* locker_loop_lock *)
| LTest (j : job) (os : list op)              (* thiz->owner == thiz->task_self() *)
| LInc (j : job) (os : list op)               (* thiz->refcount++ *)
| LReal (j : job) (os : list op)              (* real_lock *)
| LRef (j : job) (os : list op)               (* thiz->refcount = 1 *)
| LOwn (j : job) (os : list op)               (* thiz->owner = thiz->task_self() *)
(* between dlist_lock and dlist_unlock *)
| BEnter (j : job) (os : list op)
| BPrev (j : job) (prev next : pointer) (os : list op)     (* next->prev = _new *)
| BNext (j : job) (prev next : pointer) (os : list op)     (* _new->next = next *)
| BBack (j : job) (prev next : pointer) (os : list op)     (* _new->prev = prev *)
| BLink (j : job) (prev next : pointer) (os : list op)     (* prev->next = _new *)
| BTest (iter : pointer) (length : Z) (os : list op)       (* iter->next != &thiz->head *)
| BStep (iter : pointer) (length : Z) (os : list op)       (* iter = iter->next *)
(* locker_loop_unlock *)
| UTest (b : back) (os : list op)             (* thiz->owner == thiz->task_self() *)
| UDec (b : back) (os : list op)              (* thiz->refcount-- and the test for 0 *)
| UOwn (b : back) (os : list op)              (* thiz->owner = 0 *)
| UReal (b : back) (os : list op)             (* real_unlock *)
| DLocker (os : list op).                     (* locker_loop_destroy, free *)

(** The list [thiz] and its threads: the address of its head, its locker and whether
    [thiz->locker] is set; and what happened: the calls in the order they took effect
    with their results, what was returned, and the data given to [data_destroy]. *)
Record state := State {
  nodes : heap (node Z);
  head : pointer;
  has_locker : bool;
  locker : locker_t;
  thr : list pc;
  log : list (nat * op * Z);
  returned : list (nat * Z);
  destroyed : list Z
}.

Definition goto (i : nat) (p : pc) (s : state) : state :=
  State (nodes s) (head s) (has_locker s) (locker s) (<[i := p]> (thr s)) (log s) (returned s) (destroyed s).
Definition set_nodes (h : heap (node Z)) (s : state) : state :=
  State h (head s) (has_locker s) (locker s) (thr s) (log s) (returned s) (destroyed s).
Definition set_locker (b : bool) (l : locker_t) (s : state) : state :=
  State (nodes s) (head s) b l (thr s) (log s) (returned s) (destroyed s).
Definition log_op (i : nat) (o : op) (r : Z) (s : state) : state :=
  State (nodes s) (head s) (has_locker s) (locker s) (thr s) (log s ++ [(i, o, r)]) (returned s) (destroyed s).
Definition log_return (i : nat) (r : Z) (s : state) : state :=
  State (nodes s) (head s) (has_locker s) (locker s) (thr s) (log s) (returned s ++ [(i, r)]) (destroyed s).
Definition log_destroyed (l : list Z) (s : state) : state :=
  State (nodes s) (head s) (has_locker s) (locker s) (thr s) (log s) (returned s) (destroyed s ++ l).

Definition RET_OK : Z := 0.

Section Steps.
(** [task_self] of a thread. *)
Context (self : nat -> Z).

(** ** Locking *)

(** An access to a field of the locker. *)
Definition locker_access (s : state) (f : locker_t -> res (option state)) : res (option state) :=
  if alive (locker s) then f (locker s) else UB.

(** [dlist_lock] and [dlist_unlock] read [thiz->locker]. *)
Definition dlist_lock (i : nat) (j : job) (os : list op) (s : state) : res (option state) :=
  _ ← load (nodes s) (head s);
  Ret (Some (goto i (if has_locker s then LTest j os else BEnter j os) s)).

Definition after (i : nat) (b : back) (os : list op) (s : state) : state :=
  match b with
  | Return r => goto i (Idle os) (log_return i r s)
  | DestroyLocker => goto i (DLocker os) s
  end.

Definition dlist_unlock (i : nat) (b : back) (os : list op) (s : state) : res state :=
  _ ← load (nodes s) (head s);
  Ret (if has_locker s then goto i (UTest b os) s else after i b os s).

Definition locker_loop_lock (i : nat) (p : pc) (s : state) : res (option state) :=
  match p with
  | LTest j os => locker_access s (fun l =>
      Ret (Some (goto i (if owner l =? self i then LInc j os else LReal j os) s)))
  | LInc j os => locker_access s (fun l =>
      Ret (Some (goto i (BEnter j os) (set_locker true (Locker true (owner l) (refcount l + 1) (mutex l)) s))))
  | LReal j os => locker_access s (fun l =>
      match mutex l with
      | Some _ => Ret None
      | None => Ret (Some (goto i (LRef j os) (set_locker true (Locker true (owner l) (refcount l) (Some i)) s)))
      end)
  | LRef j os => locker_access s (fun l =>
      Ret (Some (goto i (LOwn j os) (set_locker true (Locker true (owner l) 1 (mutex l)) s))))
  | LOwn j os => locker_access s (fun l =>
      Ret (Some (goto i (BEnter j os) (set_locker true (Locker true (self i) (refcount l) (mutex l)) s))))
  | _ => Ret None
  end.

Definition locker_loop_unlock (i : nat) (p : pc) (s : state) : res (option state) :=
  match p with
  | UTest b os => locker_access s (fun l =>
      Ret (Some (if owner l =? self i then goto i (UDec b os) s else after i b os s)))
  | UDec b os => locker_access s (fun l =>
      let n := refcount l - 1 in
      let s := set_locker true (Locker true (owner l) n (mutex l)) s in
      Ret (Some (if n =? 0 then goto i (UOwn b os) s else after i b os s)))
  | UOwn b os => locker_access s (fun l =>
      Ret (Some (goto i (UReal b os) (set_locker true (Locker true 0 (refcount l) (mutex l)) s))))
  | UReal b os => locker_access s (fun l =>
      Ret (Some (after i b os (set_locker true (Locker true (owner l) (refcount l) None) s))))
  | _ => Ret None
  end.

(** ** The list *)

(** The first step of a call: [list_add] and [list_add_tail] create a node, then all
    lock the list. *)
Definition start (i : nat) (o : op) (os : list op) (s : state) : res (option state) :=
  match o with
  | Add d | AddTail d =>
      let '(h, new) := new (nodes s) (Node d None None) in
      dlist_lock i (Job o new) os (set_nodes h s)
  | Length | Destroy => dlist_lock i (Job o None) os s
  end.

(** [list_destroy_node] on every node from [iter] on: the nodes are cleared, their data
    given to [data_destroy], and freed. *)
Fixpoint destroy_loop (fuel : nat) (h : heap (node Z)) (hd iter : pointer) (out : list Z) : res (heap (node Z) * list Z) :=
  if bool_decide (iter = hd) then Ret (h, out) else
  match fuel with
  | O => Fuel
  | S n =>
      nd ← load h iter;
      h ← modify h iter (set_next None);
      h ← modify h iter (set_prev None);
      h ← dispose h iter;
      destroy_loop n h hd (next nd) (out ++ [element nd])
  end.

(** What a call does first with the lock: the arguments of [__list_add] are read, the
    walk of [list_length] starts, and [list_destroy] does all its work. *)
Definition enter (i : nat) (p : pc) (s : state) : res (option state) :=
  match p with
  | BEnter j os =>
      hd ← load (nodes s) (head s);
      match j_op j with
      | Add _ => Ret (Some (goto i (BPrev j (head s) (next hd) os) s))
      | AddTail _ => Ret (Some (goto i (BPrev j (prev hd) (head s) os) s))
      | Length => Ret (Some (goto i (BTest (head s) 0 os) s))
      | Destroy =>
          '(h, out) ← destroy_loop (length (nodes s)) (nodes s) (head s) (next hd) [];
          h ← modify h (head s) (set_next (head s));
          h ← modify h (head s) (set_prev (head s));
          let s := log_destroyed out (set_nodes h s) in
          Ret (Some (goto i (if has_locker s then UTest DestroyLocker os else DLocker os) s))
      end
  | _ => Ret None
  end.

(** [__list_add] and the end of [list_add] and [list_add_tail]. *)
Definition list_add_body (i : nat) (p : pc) (s : state) : res (option state) :=
  match p with
  | BPrev j pr nx os => h ← modify (nodes s) nx (set_prev (j_new j)); Ret (Some (goto i (BNext j pr nx os) (set_nodes h s)))
  | BNext j pr nx os => h ← modify (nodes s) (j_new j) (set_next nx); Ret (Some (goto i (BBack j pr nx os) (set_nodes h s)))
  | BBack j pr nx os => h ← modify (nodes s) (j_new j) (set_prev pr); Ret (Some (goto i (BLink j pr nx os) (set_nodes h s)))
  | BLink j pr nx os =>
      h ← modify (nodes s) pr (set_next (j_new j));
      s ← dlist_unlock i (Return RET_OK) os (log_op i (j_op j) RET_OK (set_nodes h s));
      Ret (Some s)
  | _ => Ret None
  end.

(** The loop of [list_length]. *)
Definition list_length_body (i : nat) (p : pc) (s : state) : res (option state) :=
  match p with
  | BTest iter n os =>
      nd ← load (nodes s) iter;
      if bool_decide (next nd = head s) then
        s ← dlist_unlock i (Return n) os (log_op i Length n s); Ret (Some s)
      else Ret (Some (goto i (BStep iter (u64 (n + 1)) os) s))
  | BStep iter n os => nd ← load (nodes s) iter; Ret (Some (goto i (BTest (next nd) n os) s))
  | _ => Ret None
  end.

(** The end of [list_destroy]: the locker is destroyed, if there is one, and the list
    freed.  Destroying a mutex that is locked is undefined. *)
Definition destroy_end (i : nat) (os : list op) (s : state) : res (option state) :=
  _ ← load (nodes s) (head s);
  s ← (if has_locker s then
         if alive (locker s) && bool_decide (mutex (locker s) = None) then
           Ret (set_locker false (Locker false 0 0 None) s)
         else UB
       else Ret s);
  h ← dispose (nodes s) (head s);
  Ret (Some (goto i (Idle os) (log_op i Destroy 0 (set_nodes h s)))).

Definition thread_step (i : nat) (p : pc) (s : state) : res (option state) :=
  match p with
  | Idle [] => Ret None
  | Idle (o :: os) => start i o os s
  | LTest _ _ | LInc _ _ | LReal _ _ | LRef _ _ | LOwn _ _ => locker_loop_lock i p s
  | UTest _ _ | UDec _ _ | UOwn _ _ | UReal _ _ => locker_loop_unlock i p s
  | DLocker os => destroy_end i os s
  | BEnter _ _ => enter i p s
  | BPrev _ _ _ _ | BNext _ _ _ _ | BBack _ _ _ _ | BLink _ _ _ _ => list_add_body i p s
  | BTest _ _ _ | BStep _ _ _ => list_length_body i p s
  end.

(** [list_create] and the threads that use the list; [locker_loop_create] makes a lock
    that nobody owns. *)
Definition list_create (junk : Z) (lock : bool) (threads : list (list op)) : state :=
  let '(h, hd) := new [] (Node junk None None) in
  let h := <[0%nat := Some (Node junk hd hd)]> h in
  State h hd lock (Locker lock 0 0 None) (Idle <$> threads) [] [] [].

Inductive reachable (junk : Z) (lock : bool) (threads : list (list op)) : state -> Prop :=
| reach_init : reachable junk lock threads (list_create junk lock threads)
| reach_step s i p s' : reachable junk lock threads s -> thr s !! i = Some p ->
    thread_step i p s = Ret (Some s') -> reachable junk lock threads s'.

(** Thread [i] runs alone, for at most [fuel] steps, until it cannot move. *)
Fixpoint alone (fuel : nat) (i : nat) (s : state) : res state :=
  match fuel, thr s !! i with
  | S n, Some p =>
      r ← thread_step i p s;
      match r with None => Ret s | Some s => alone n i s end
  | _, _ => Ret s
  end.

(** The threads move in the order of a schedule; one that cannot move is skipped. *)
Fixpoint execute (schedule : list nat) (s : state) : res state :=
  match schedule with
  | [] => Ret s
  | i :: schedule => s ← alone 1 i s; execute schedule s
  end.
End Steps.
