(* ===== verification/ClistInv.v ===== *)
(** The invariant of the thread-safe list: who holds the lock, what the heap looks like
    while the holder is in the middle of an insertion, and how the log relates to the
    programs of the threads.  Every step keeps it, as long as nobody destroys the list. *)
From S2P Require Import Prelude Arrays Heap Dll Clist.

(** ** What a program counter says *)

(** Between [real_lock] and [real_unlock]. *)
Definition holds (p : pc) : bool :=
  match p with Idle _ | LTest _ _ | LInc _ _ | LReal _ _ | DLocker _ => false | _ => true end.

(** The thread is recorded as owner; [refcount] is 1. *)
Definition owns (p : pc) : bool :=
  match p with
  | BEnter _ _ | BPrev _ _ _ _ | BNext _ _ _ _ | BBack _ _ _ _ | BLink _ _ _ _ | BTest _ _ _ | BStep _ _ _
  | UTest _ _ | UDec _ _ | UOwn _ _ => true
  | _ => false
  end.
Definition counted (p : pc) : bool :=
  match p with LOwn _ _ => true | UOwn _ _ => false | _ => owns p end.

(** The new node of a call that is not linked yet. *)
Definition temp_of (p : pc) : pointer :=
  match p with
  | LTest j _ | LInc j _ | LReal j _ | LRef j _ | LOwn j _ | BEnter j _
  | BPrev j _ _ _ | BNext j _ _ _ | BBack j _ _ _ | BLink j _ _ _ => j_new j
  | _ => None
  end.

(** The calls that have not taken effect, and the result that is not returned yet. *)
Definition todo (p : pc) : list op :=
  match p with
  | Idle os | UTest _ os | UDec _ os | UOwn _ os | UReal _ os | DLocker os => os
  | LTest j os | LInc j os | LReal j os | LRef j os | LOwn j os | BEnter j os
  | BPrev j _ _ os | BNext j _ _ os | BBack j _ _ os | BLink j _ _ os => j_op j :: os
  | BTest _ _ os | BStep _ _ os => Length :: os
  end.
Definition due (p : pc) : list Z :=
  match p with UTest (Return r) _ | UDec (Return r) _ | UOwn (Return r) _ | UReal (Return r) _ => [r] | _ => [] end.

(** ** The list in the heap *)

Section heap.
Context (h : heap (node Z)) (hd : nat) (L : list (nat * Z)).

(** [L] starts with the head and is linked in a circle. *)
Definition clean : Prop := seg h (final None L) L (Some hd).

(** The same after the first write of [__list_add]: the successor of the new node [x]
    points back to it. *)
Definition mid (next x : pointer) : Prop :=
  if bool_decide (next = Some hd) then seg h x L (Some hd)
  else match L with
       | (_, j) :: K => at_addr h hd (Node j (final None L) (first K (Some hd))) /\ seg h x K (Some hd)
       | [] => False
       end.

(** The neighbours of the new node. *)
Definition neighbours (o : op) (prev next : pointer) : Prop :=
  match o with
  | Add _ => prev = Some hd /\ next = first (tail L) (Some hd)
  | AddTail _ => prev = final None L /\ next = Some hd
  | _ => False
  end.

Definition datum (o : op) : option Z := match o with Add d | AddTail d => Some d | _ => None end.

Definition job_ok (j : job) : Prop :=
  match datum (j_op j) with
  | Some d => exists x pv nx, j_new j = Some x /\ at_addr h x (Node d pv nx) /\ x ∉ L.*1
  | None => j_op j = Length /\ j_new j = None
  end.

Definition keeps (o : op) : Prop := o <> Destroy.

Definition good (p : pc) : Prop :=
  match p with
  | Idle os => Forall keeps os
  | LTest j os | LReal j os | LRef j os | LOwn j os | BEnter j os => Forall keeps os /\ job_ok j
  | BPrev j pr nx os | BNext j pr nx os => Forall keeps os /\ job_ok j /\ neighbours (j_op j) pr nx
  | BBack j pr nx os => Forall keeps os /\ job_ok j /\ neighbours (j_op j) pr nx /\
      exists x d pv, j_new j = Some x /\ at_addr h x (Node d pv nx)
  | BLink j pr nx os => Forall keeps os /\ job_ok j /\ neighbours (j_op j) pr nx /\
      exists x d, j_new j = Some x /\ at_addr h x (Node d pr nx)
  | BTest it n os => Forall keeps os /\ exists k x e, n = u64 (Z.of_nat k) /\ it = Some x /\ L !! k = Some (x, e)
  | BStep it n os => Forall keeps os /\ exists k x e y, n = u64 (Z.of_nat (S k)) /\ it = Some x /\
      L !! k = Some (x, e) /\ L !! S k = Some y
  | UTest b os | UDec b os | UOwn b os | UReal b os => Forall keeps os /\ b <> DestroyLocker
  | LInc _ _ | DLocker _ => False
  end.

(** What the heap looks like while a thread holds the lock. *)
Definition shape (p : pc) : Prop :=
  match p with
  | BNext j _ nx _ | BBack j _ nx _ | BLink j _ nx _ => mid nx (j_new j)
  | _ => clean
  end.
End heap.

Record data_inv (h : heap (node Z)) (hd : nat) (th : list pc) (L : list (nat * Z)) : Prop := Data {
  da_first : first L None = Some hd;
  da_nodup : NoDup L.*1;
  da_good : forall i p, th !! i = Some p -> good h hd L p;
  da_shape : forall i p, th !! i = Some p -> holds p = true -> shape h hd L p;
  da_clean : (forall i p, th !! i = Some p -> holds p = false) -> clean h hd L;
  da_temps : forall i k p q x, i <> k -> th !! i = Some p -> th !! k = Some q ->
    temp_of p = Some x -> temp_of q <> Some x
}.

(** ** The lock *)

Record lock_inv (self : nat -> Z) (l : locker_t) (th : list pc) : Prop := Lock {
  lo_alive : alive l = true;
  lo_mutex : forall i p, th !! i = Some p -> mutex l = Some i <-> holds p = true;
  lo_range : forall i, mutex l = Some i -> (i < length th)%nat;
  lo_owner : forall i p, th !! i = Some p -> owner l = self i <-> owns p = true;
  lo_count : forall i p, th !! i = Some p -> counted p = true -> refcount l = 1
}.

(** ** The log *)

(** The effect of the calls in a log on a list, with the results they must have. *)
Definition effect (l : list Z) (e : nat * op * Z) : option (list Z) :=
  let '(_, o, r) := e in
  match o with
  | Add d => if r =? RET_OK then Some (d :: l) else None
  | AddTail d => if r =? RET_OK then Some (l ++ [d]) else None
  | Length => if r =? u64 (Z.of_nat (length l)) then Some l else None
  | Destroy => None
  end.
Definition replay (l : list Z) (lg : list (nat * op * Z)) : option (list Z) := foldl_opt effect l lg.

Definition by_thread {A} (i : nat) (l : list (nat * A)) : list A := snd <$> filter (fun x => x.1 = i) l.
Definition calls (lg : list (nat * op * Z)) : list (nat * op) := (fun '(i, o, _) => (i, o)) <$> lg.
Definition results (lg : list (nat * op * Z)) : list (nat * Z) := (fun '(i, _, r) => (i, r)) <$> lg.

Record log_inv (progs : list (list op)) (lg : list (nat * op * Z)) (ret : list (nat * Z)) (th : list pc) (l : list Z) : Prop := Log {
  lg_replay : replay [] lg = Some l;
  lg_todo : forall i p, th !! i = Some p -> progs !! i = Some (by_thread i (calls lg) ++ todo p);
  lg_due : forall i p, th !! i = Some p -> by_thread i (results lg) = by_thread i ret ++ due p
}.

(** Nothing is allocated but the nodes of the list and the new nodes of the calls. *)
Definition owned (h : heap (node Z)) (th : list pc) (L : list (nat * Z)) : Prop :=
  forall x n, at_addr h x n -> x ∈ L.*1 \/ exists i p, th !! i = Some p /\ temp_of p = Some x.

Definition inv (self : nat -> Z) (progs : list (list op)) (s : state) (hd : nat) (L : list (nat * Z)) : Prop :=
  head s = Some hd /\ has_locker s = true /\ lock_inv self (locker s) (thr s) /\
  data_inv (nodes s) hd (thr s) L /\ log_inv progs (log s) (returned s) (thr s) (tail L).*2 /\
  owned (nodes s) (thr s) L.
