(* ===== verification/ClistStep.v ===== *)
(** How steps move the three parts of the invariant: the lock, the heap and the log. *)
From S2P Require Import Prelude Arrays Heap Dll Clist ClistInv.

(** ** The lock *)

Section lock.
Context (self : nat -> Z).
Context (l : locker_t) (th : list pc) (i : nat) (p : pc) (Hi : th !! i = Some p) (HI : lock_inv self l th).

Lemma holder_only k q : holds p = true -> th !! k = Some q -> holds q = true -> k = i.
Proof.
  intros Hp Hk Hq. apply (lo_mutex _ _ _ HI) in Hi. apply (lo_mutex _ _ _ HI) in Hk.
  apply Hi in Hp. apply Hk in Hq. congruence.
Qed.

Lemma owns_holds q : owns q = true -> holds q = true.
Proof. by destruct q. Qed.

Lemma counted_holds q : counted q = true -> holds q = true.
Proof. by destruct q. Qed.

(** A step that does not touch the locker. *)
Lemma lock_goto p' : holds p' = holds p -> owns p' = owns p -> (counted p' = true -> counted p = true) ->
  lock_inv self l (<[i := p']> th).
Proof.
  destruct HI as [H1 H2 H3 H4 H5]. intros Eh Eo Ec. split.
  - done.
  - intros k q [(-> & -> & _)|[_ Hk]]%list_lookup_insert_Some; [rewrite Eh; by apply H2|by apply H2].
  - intros k Hk. rewrite length_insert. by apply H3.
  - intros k q [(-> & -> & _)|[_ Hk]]%list_lookup_insert_Some; [rewrite Eo; by apply H4|by apply H4].
  - intros k q [(-> & -> & _)|[_ Hk]]%list_lookup_insert_Some Hc; [apply (H5 _ _ Hi); auto|by eapply H5].
Qed.

Lemma lock_acquire p' : mutex l = None -> holds p' = true -> owns p' = false -> counted p' = false ->
  lock_inv self (Locker true (owner l) (refcount l) (Some i)) (<[i := p']> th).
Proof.
  destruct HI as [H1 H2 H3 H4 H5]. intros Em Eh Eo Ec.
  assert (Hfree : forall k q, th !! k = Some q -> holds q = false).
  { intros k q Hk. apply not_true_iff_false. rewrite <-(H2 _ _ Hk), Em. done. }
  assert (Howner : forall k q, th !! k = Some q -> owns q = false).
  { intros k q Hk. apply not_true_iff_false. intros Ho%owns_holds. by rewrite (Hfree _ _ Hk) in Ho. }
  split; cbn [alive mutex owner refcount].
  - done.
  - intros k q [(-> & -> & _)|[Hne Hk]]%list_lookup_insert_Some; [done|]. rewrite (Hfree _ _ Hk). split; [congruence|done].
  - intros k [= <-]. rewrite length_insert. by eapply lookup_lt_Some.
  - intros k q [(-> & -> & _)|[Hne Hk]]%list_lookup_insert_Some; [|by apply H4].
    rewrite (H4 _ _ Hi), (Howner _ _ Hi), Eo. done.
  - intros k q [(-> & -> & _)|[Hne Hk]]%list_lookup_insert_Some Hc; [congruence|]. by eapply H5.
Qed.

(** The holder writes [owner] and [refcount]. *)
Lemma lock_write p' o r : holds p = true -> holds p' = true -> (o = self i <-> owns p' = true) ->
  (forall k q, k <> i -> th !! k = Some q -> o <> self k) -> (counted p' = true -> r = 1) ->
  lock_inv self (Locker true o r (mutex l)) (<[i := p']> th).
Proof.
  destruct HI as [H1 H2 H3 H4 H5]. intros Eh Eh' Eo Ho Ec. split; cbn [alive mutex owner refcount].
  - done.
  - intros k q [(-> & -> & _)|[_ Hk]]%list_lookup_insert_Some; [|by apply H2]. rewrite (H2 _ _ Hi), Eh, Eh'. done.
  - intros k Hk. rewrite length_insert. by apply H3.
  - intros k q [(-> & -> & _)|[Hne Hk]]%list_lookup_insert_Some; [done|]. split.
    + intros E. by destruct (Ho k q (not_eq_sym Hne) Hk).
    + intros Hq%owns_holds. destruct Hne. symmetry. by eapply holder_only.
  - intros k q [(-> & -> & _)|[Hne Hk]]%list_lookup_insert_Some Hc; [auto|]. apply counted_holds in Hc.
    destruct Hne. symmetry. by eapply holder_only.
Qed.

Lemma lock_release p' : holds p = true -> owns p = false -> holds p' = false ->
  lock_inv self (Locker true (owner l) (refcount l) None) (<[i := p']> th).
Proof.
  destruct HI as [H1 H2 H3 H4 H5]. intros Eh Eo Eh'.
  assert (Eo' : owns p' = false) by (apply not_true_iff_false; intros ?%owns_holds; congruence).
  split; cbn [alive mutex owner refcount].
  - done.
  - intros k q [(-> & -> & _)|[Hne Hk]]%list_lookup_insert_Some; [by rewrite Eh'|]. split; [done|].
    intros Hq. destruct Hne. symmetry. by eapply holder_only.
  - done.
  - intros k q [(-> & -> & _)|[Hne Hk]]%list_lookup_insert_Some; [|by apply H4]. by rewrite (H4 _ _ Hi), Eo, Eo'.
  - intros k q [(-> & -> & _)|[Hne Hk]]%list_lookup_insert_Some Hc; [|by eapply H5]. apply counted_holds in Hc. congruence.
Qed.

(** Only the thread that holds the lock is recorded as owner. *)
Lemma owner_other k q : holds p = true -> k <> i -> th !! k = Some q -> owner l <> self k.
Proof. intros Ho Hne Hk E%(lo_owner _ _ _ HI _ _ Hk)%owns_holds. apply Hne. by eapply holder_only. Qed.
End lock.

(** ** The heap *)

Lemma job_keep h h' L L' j : job_ok h L j ->
  (forall x n, j_new j = Some x -> at_addr h x n -> x ∉ L.*1 -> at_addr h' x n /\ x ∉ L'.*1) -> job_ok h' L' j.
Proof.
  unfold job_ok. destruct (datum (j_op j)) as [d|]; [|done]. intros (x & pv & nx & E & Hx & Hn) H.
  exists x, pv, nx. split; [done|]. by apply H.
Qed.

(** Threads outside the lock only rely on their new node. *)
Lemma good_keep h h' hd L L' q : good h hd L q -> holds q = false ->
  (forall x n, temp_of q = Some x -> at_addr h x n -> x ∉ L.*1 -> at_addr h' x n /\ x ∉ L'.*1) -> good h' hd L' q.
Proof.
  intros Hg Hq H. destruct q; cbn [good holds temp_of] in *; try done.
  - destruct Hg. split; [done|]. by eapply job_keep.
  - destruct Hg. split; [done|]. by eapply job_keep.
Qed.

Section data.
Context (h : heap (node Z)) (hd : nat) (th : list pc) (L : list (nat * Z)) (i : nat) (p p' : pc).
Context (Hi : th !! i = Some p) (HD : data_inv h hd th L).

Lemma data_goto : good h hd L p' -> (holds p' = true -> shape h hd L p') ->
  (holds p' = false -> (forall k q, k <> i -> th !! k = Some q -> holds q = false) -> clean h hd L) ->
  (forall x, temp_of p' = Some x -> temp_of p = Some x) -> data_inv h hd (<[i := p']> th) L.
Proof.
  destruct HD as [H1 H2 H3 H4 H5 H6]. intros Hg Hs Hc Ht. split; try done.
  - intros k q [(-> & -> & _)|[_ Hk]]%list_lookup_insert_Some; [done|by eapply H3].
  - intros k q [(-> & -> & _)|[_ Hk]]%list_lookup_insert_Some; [done|by eapply H4].
  - intros Hall. apply Hc.
    + apply (Hall i). apply list_lookup_insert_eq. by eapply lookup_lt_Some.
    + intros k q Hne Hk. apply (Hall k). by rewrite list_lookup_insert_ne.
  - intros k j q r x Hne [(<- & <- & _)|[Hki Hk]]%list_lookup_insert_Some [(<- & <- & _)|[Hji Hj]]%list_lookup_insert_Some Hx; [done| | |].
    + apply (H6 i j p r x); auto.
    + intros Hx'%Ht. by apply (H6 k i q p x).
    + by apply (H6 k j q r x).
Qed.

(** The same for a step that stays inside or outside of the lock. *)
Lemma data_pass : good h hd L p' -> holds p' = holds p -> (holds p = true -> shape h hd L p -> shape h hd L p') ->
  (forall x, temp_of p' = Some x -> temp_of p = Some x) -> data_inv h hd (<[i := p']> th) L.
Proof.
  intros Hg Eh Hs Ht. apply data_goto; [done| | |done].
  - rewrite Eh. intros Hp. apply Hs; [done|]. by eapply (da_shape _ _ _ _ HD).
  - rewrite Eh. intros Hp Ho. eapply da_clean; [exact HD|]. intros k q Hk.
    destruct (decide (k = i)) as [->|]; [congruence|by eapply Ho].
Qed.

(** The holder of the lock writes the heap. *)
Lemma list_write h' L' : holds p = true -> (forall k q, th !! k = Some q -> holds q = true -> k = i) ->
  first L' None = Some hd -> NoDup L'.*1 ->
  (forall x n, at_addr h x n -> x ∉ L.*1 -> temp_of p <> Some x -> at_addr h' x n /\ x ∉ L'.*1) ->
  good h' hd L' p' -> (holds p' = true -> shape h' hd L' p') -> (holds p' = false -> clean h' hd L') ->
  (forall x, temp_of p' = Some x -> temp_of p = Some x) -> data_inv h' hd (<[i := p']> th) L'.
Proof.
  destruct HD as [H1 H2 H3 H4 H5 H6]. intros Hp Honly Hf Hn Hk Hg Hs Hc Ht.
  assert (Hother : forall k q, i <> k -> th !! k = Some q -> holds q = false).
  { intros k q Hne Hkq. apply not_true_iff_false. intros Hq. destruct Hne. symmetry. by eapply Honly. }
  split; try done.
  - intros k q [(-> & -> & _)|[Hne Hkq]]%list_lookup_insert_Some; [done|].
    eapply good_keep; [by eapply H3|by eapply Hother|]. intros x n Hx Hat Hnin. apply Hk; [done..|].
    by apply (H6 k i q p x).
  - intros k q [(-> & -> & _)|[Hne Hkq]]%list_lookup_insert_Some; [done|]. by rewrite (Hother _ _ Hne Hkq).
  - intros Hall. apply Hc, (Hall i). apply list_lookup_insert_eq. by eapply lookup_lt_Some.
  - intros k j q r x Hne [(<- & <- & _)|[Hki Hkq]]%list_lookup_insert_Some [(<- & <- & _)|[Hji Hj]]%list_lookup_insert_Some Hx; [done| | |].
    + apply (H6 i j p r x); auto.
    + intros Hx'%Ht. by apply (H6 k i q p x).
    + by apply (H6 k j q r x).
Qed.
End data.

(** A new node is allocated. *)
Lemma temp_old h hd L p x : good h hd L p -> temp_of p = Some x -> (x < length h)%nat.
Proof.
  assert (Hj : forall j, job_ok h L j -> j_new j = Some x -> (x < length h)%nat).
  { intros j. unfold job_ok. destruct (datum _).
    - intros (y & pv & nx & -> & Hy%at_addr_lt & _) [= ->]. done.
    - intros [_ ->]. done. }
  destruct p; cbn [good temp_of]; try done; intros Hg; apply Hj; tauto.
Qed.

Lemma job_new h L j n : job_ok h L j -> job_ok (h ++ [Some n]) L j.
Proof. intros Hj. eapply job_keep; [done|]. intros x m _ Hx Hn. split; [by apply at_new_old|done]. Qed.

Lemma good_new h hd L p n : good h hd L p -> good (h ++ [Some n]) hd L p.
Proof.
  assert (Hat : forall x m, at_addr h x m -> at_addr (h ++ [Some n]) x m) by (intros; by apply at_new_old).
  destruct p; cbn [good]; try done.
  1-6: naive_solver eauto using job_new.
  all: naive_solver eauto using job_new.
Qed.

Lemma shape_new h hd L p n : shape h hd L p -> shape (h ++ [Some n]) hd L p.
Proof.
  assert (Hc : clean h hd L -> clean (h ++ [Some n]) hd L) by apply seg_new.
  assert (Hm : forall nx x, mid h hd L nx x -> mid (h ++ [Some n]) hd L nx x).
  { intros nx x. unfold mid. case_bool_decide; [apply seg_new|]. destruct L as [|[y j] K]; [done|].
    intros [Hh Hs]. split; [by apply at_new_old|by apply seg_new]. }
  destruct p; cbn [shape]; auto.
Qed.

Lemma data_new h hd th L i p p' n : th !! i = Some p -> data_inv h hd th L -> holds p = false -> holds p' = false ->
  temp_of p' = Some (length h) -> good (h ++ [Some n]) hd L p' -> data_inv (h ++ [Some n]) hd (<[i := p']> th) L.
Proof.
  intros Hi [H1 H2 H3 H4 H5 H6] Hp Hp' Ht Hg. split; try done.
  - intros k q [(-> & -> & _)|[Hne Hk]]%list_lookup_insert_Some; [done|]. by eapply good_new, H3.
  - intros k q [(-> & -> & _)|[Hne Hk]]%list_lookup_insert_Some Hq; [congruence|]. by eapply shape_new, H4.
  - intros Hall. apply seg_new, H5. intros k q Hk. destruct (decide (i = k)) as [<-|Hne]; [congruence|].
    apply (Hall k). by rewrite list_lookup_insert_ne.
  - intros k j q r x Hne [(<- & <- & _)|[Hki Hk]]%list_lookup_insert_Some [(<- & <- & _)|[Hji Hj]]%list_lookup_insert_Some Hx; [done| | |].
    + rewrite Ht in Hx. injection Hx as <-. intros Hr. pose proof (temp_old _ _ _ _ _ (H3 _ _ Hj) Hr). lia.
    + rewrite Ht. intros [= <-]. pose proof (temp_old _ _ _ _ _ (H3 _ _ Hk) Hx). lia.
    + by apply (H6 k j q r x).
Qed.

(** What is allocated. *)
Lemma own_step h h' th L L' i p p' : th !! i = Some p -> owned h th L ->
  (forall x n, at_addr h' x n -> (exists m, at_addr h x m) \/ temp_of p' = Some x) ->
  (forall x, x ∈ L.*1 -> x ∈ L'.*1) -> (forall x, temp_of p = Some x -> temp_of p' = Some x \/ x ∈ L'.*1) ->
  owned h' (<[i := p']> th) L'.
Proof.
  intros Hi Ho Hh HL Ht x n Hx. assert (Hlt : (i < length th)%nat) by by eapply lookup_lt_Some.
  assert (Hnew : temp_of p' = Some x -> exists k q, <[i := p']> th !! k = Some q /\ temp_of q = Some x).
  { intros E. exists i, p'. split; [by apply list_lookup_insert_eq|done]. }
  destruct (Hh _ _ Hx) as [[m Hm]|E]; [|by right; apply Hnew].
  destruct (Ho _ _ Hm) as [Hin|(k & q & Hk & Hq)]; [left; auto|].
  destruct (decide (k = i)) as [->|Hne].
  - rewrite Hi in Hk. injection Hk as <-. destruct (Ht _ Hq); auto.
  - right. exists k, q. by rewrite list_lookup_insert_ne.
Qed.

Lemma own_same h th L i p p' : th !! i = Some p -> owned h th L -> (forall x, temp_of p = Some x -> temp_of p' = Some x) ->
  owned h (<[i := p']> th) L.
Proof. intros Hi Ho Ht. eapply own_step; eauto. Qed.

Lemma at_write {A} (h : heap A) y o x n m : at_addr h y m -> at_addr (<[y := o]> h) x n -> exists k, at_addr h x k.
Proof. intros Hy Hx. destruct (decide (y = x)) as [<-|Hne]; [eauto|]. apply at_insert_ne in Hx; eauto. Qed.

(** ** The log *)

Section log.
Context (progs : list (list op)) (lg : list (nat * op * Z)) (ret : list (nat * Z)) (th : list pc) (l : list Z).
Context (i : nat) (p p' : pc) (Hi : th !! i = Some p) (HL : log_inv progs lg ret th l).

Lemma log_goto : todo p' = todo p -> due p' = due p -> log_inv progs lg ret (<[i := p']> th) l.
Proof.
  destruct HL as [H1 H2 H3]. intros Et Ed. split; [done| |].
  - intros k q [(-> & -> & _)|[_ Hk]]%list_lookup_insert_Some; [rewrite Et|]; by apply H2.
  - intros k q [(-> & -> & _)|[_ Hk]]%list_lookup_insert_Some; [rewrite Ed|]; by apply H3.
Qed.

Lemma by_thread_snoc {A} k (m : list (nat * A)) j a : by_thread k (m ++ [(j, a)]) = by_thread k m ++ (if decide (j = k) then [a] else []).
Proof. unfold by_thread. rewrite filter_app, fmap_app, filter_cons. cbn [fst]. by destruct (decide (j = k)). Qed.

Lemma log_effect o r l' : todo p = o :: todo p' -> due p = [] -> due p' = [r] -> effect l (i, o, r) = Some l' ->
  log_inv progs (lg ++ [(i, o, r)]) ret (<[i := p']> th) l'.
Proof.
  destruct HL as [H1 H2 H3]. intros Et Ed Ed' He. split.
  - unfold replay in *. by rewrite foldl_opt_app, H1; cbn [foldl_opt]; rewrite He.
  - intros k q Hk. unfold calls. rewrite fmap_app. cbn [fmap list_fmap]. rewrite by_thread_snoc.
    apply list_lookup_insert_Some in Hk as [(<- & <- & _)|[Hne Hk]].
    + rewrite decide_True, <-app_assoc by done. cbn [app]. rewrite <-Et. by apply H2.
    + rewrite decide_False, app_nil_r by done. by apply H2.
  - intros k q Hk. unfold results. rewrite fmap_app. cbn [fmap list_fmap]. rewrite by_thread_snoc.
    apply list_lookup_insert_Some in Hk as [(<- & <- & _)|[Hne Hk]].
    + rewrite decide_True by done. fold (results lg). rewrite (H3 _ _ Hi), Ed, Ed', app_nil_r. done.
    + rewrite decide_False, app_nil_r by done. by apply H3.
Qed.

Lemma log_return_inv r : todo p' = todo p -> due p = [r] -> due p' = [] ->
  log_inv progs lg (ret ++ [(i, r)]) (<[i := p']> th) l.
Proof.
  destruct HL as [H1 H2 H3]. intros Et Ed Ed'. split; [done| |].
  - intros k q [(-> & -> & _)|[_ Hk]]%list_lookup_insert_Some; [rewrite Et|]; by apply H2.
  - intros k q Hk. rewrite by_thread_snoc. apply list_lookup_insert_Some in Hk as [(<- & <- & _)|[Hne Hk]].
    + rewrite decide_True by done. rewrite (H3 _ _ Hi), Ed, Ed', app_nil_r. done.
    + rewrite decide_False, app_nil_r by done. by apply H3.
Qed.
End log.
