(* ===== verification/ClistProof.v ===== *)
(** Every step of the thread-safe list keeps the invariant and is defined. *)
From S2P Require Import Prelude Arrays Heap Dll Clist ClistInv ClistStep.

(** ** The four writes of [__list_add] *)

Lemma first_fst (L : list (nat * Z)) hd : first L None = Some hd -> exists j K, L = (hd, j) :: K.
Proof. destruct L as [|[x j] K]; [done|]. intros [= ->]. eauto. Qed.

Lemma clean_in h hd L x : clean h hd L -> x ∈ L.*1 -> exists n, at_addr h x n.
Proof. apply seg_in. Qed.

Lemma head_entry h hd j K : clean h hd ((hd, j) :: K) -> at_addr h hd (Node j (final None ((hd, j) :: K)) (first K (Some hd))).
Proof. intros [H _]. exact H. Qed.

Lemma mid_frame h hd L nx x y o : first L None = Some hd -> y ∉ L.*1 -> mid h hd L nx x -> mid (<[y := o]> h) hd L nx x.
Proof.
  intros Hf Hy. destruct (first_fst _ _ Hf) as (j & K & ->). unfold mid. case_bool_decide; [by apply seg_frame|].
  intros [Hh Hs]. cbn [fmap list_fmap fst] in Hy. apply not_elem_of_cons in Hy as [Hyz HyK].
  split; [by apply at_insert_ne|by apply seg_frame].
Qed.

Lemma write_prev h hd L o pr nx x : clean h hd L -> first L None = Some hd -> NoDup L.*1 -> neighbours hd L o pr nx ->
  exists y n, nx = Some y /\ y ∈ L.*1 /\ modify h nx (set_prev (Some x)) = Ret (<[y := Some n]> h) /\
    mid (<[y := Some n]> h) hd L nx (Some x).
Proof.
  intros Hc Hf Hn Hnb. destruct (first_fst _ _ Hf) as (j & K & ->). cbn [fmap list_fmap fst] in Hn.
  apply NoDup_cons in Hn as [Hhd HnK].
  destruct (decide (nx = Some hd)) as [->|Hne].
  - destruct (seg_set_prev _ _ (Some x) hd j K (Some hd) Hhd Hc) as [E Hs]. eexists hd, _. split; [done|].
    split; [by left|]. split; [exact E|]. unfold mid. by rewrite bool_decide_true.
  - destruct o; cbn [neighbours tail] in Hnb; try done; destruct Hnb as [-> ->]; [|done].
    destruct K as [|[q f] K]; [done|]. destruct Hc as [Hh HK]. cbn [first] in *. cbn [fmap list_fmap fst] in HnK.
    apply NoDup_cons in HnK as [Hq _].
    destruct (seg_set_prev _ _ (Some x) q f K (Some hd) Hq HK) as [E Hs]. eexists q, _. split; [done|].
    split; [right; by left|]. split; [exact E|]. unfold mid. rewrite bool_decide_false by done. split; [|done].
    apply at_insert_ne; [|done]. intros ->. apply Hhd. by left.
Qed.

(** The list with the new node. *)
Definition link (o : op) (x : nat) (L : list (nat * Z)) : list (nat * Z) :=
  match o, L with
  | Add d, y :: K => y :: (x, d) :: K
  | AddTail d, _ => L ++ [(x, d)]
  | _, _ => L
  end.

Lemma link_fst o d x L : datum o = Some d -> L <> [] -> (link o x L).*1 ≡ₚ x :: L.*1.
Proof.
  intros Hd Hne. destruct o; try done; cbn [link].
  - destruct L as [|[y j] K]; [done|]. cbn [fmap list_fmap fst]. by rewrite Permutation_swap.
  - rewrite fmap_app. cbn [fmap list_fmap fst]. by rewrite Permutation_app_comm.
Qed.

Lemma link_first o x L hd : first L None = Some hd -> first (link o x L) None = Some hd.
Proof. destruct L as [|[y j] K]; [done|]. by destruct o. Qed.

Lemma link_effect i o d x y j (K : list (nat * Z)) : datum o = Some d ->
  effect K.*2 (i, o, RET_OK) = Some (tail (link o x ((y, j) :: K))).*2.
Proof. destruct o; try done; intros [= ->]; cbn; by rewrite ?fmap_app. Qed.

Lemma write_next h hd L o d pr nx x : mid h hd L nx (Some x) -> first L None = Some hd -> NoDup L.*1 -> x ∉ L.*1 ->
  datum o = Some d -> neighbours hd L o pr nx -> at_addr h x (Node d pr nx) ->
  exists y n, y ∈ L.*1 /\ modify h pr (set_next (Some x)) = Ret (<[y := Some n]> h) /\ clean (<[y := Some n]> h) hd (link o x L).
Proof.
  intros Hm Hf Hn Hx Hd Hnb Hat. destruct (decide (nx = Some hd)) as [->|Hne].
  - unfold mid in Hm. rewrite bool_decide_true in Hm by done.
    assert (E : pr = final None L /\ link o x L = L ++ [(x, d)]).
    { destruct (first_fst _ _ Hf) as (j & K & ->). destruct o; try done; injection Hd as ->; cbn [neighbours tail link] in *.
      - destruct Hnb as [-> Ek]. destruct K as [|[q f] K]; [done|]. exfalso. injection Ek as ->.
        cbn [fmap list_fmap fst] in Hn. apply NoDup_cons in Hn as [Hn _]. apply Hn. by left.
      - by destruct Hnb as [-> _]. }
    destruct E as [-> ->]. destruct (exists_last (l := L)) as (L0 & [y e] & ->); [by intros ->|].
    assert (Hy : y ∉ L0.*1).
    { rewrite fmap_app in Hn. apply NoDup_app in Hn as (_ & Hdj & _). intros Hin. apply (Hdj y Hin). by left. }
    destruct (seg_set_next _ _ _ _ _ _ (Some x) Hy Hm) as [E Hs].
    rewrite final_snoc in *. eexists y, _. split; [rewrite fmap_app; set_solver|]. split; [exact E|].
    unfold clean. rewrite final_snoc. apply dseg_app. split; [exact Hs|]. rewrite final_snoc. split; [|done].
    apply at_insert_ne; [|done]. intros ->. apply Hx. rewrite fmap_app. set_solver.
  - destruct (first_fst _ _ Hf) as (j & K & ->). unfold mid in Hm. rewrite bool_decide_false in Hm by done.
    destruct Hm as [Hh HK]. destruct o; cbn [neighbours tail] in Hnb; try done; destruct Hnb as [-> ->]; [|done]. injection Hd as ->.
    destruct K as [|[q f] K]; [done|]. cbn [fmap list_fmap fst] in Hn, Hx. apply NoDup_cons in Hn as [Hhd Hn].
    apply not_elem_of_cons in Hx as [Hxh Hx]. cbn [first] in *.
    eexists hd, _. split; [by left|]. split; [by rewrite (modify_ok _ _ _ _ Hh)|]. cbn [link]. split; [|split].
    + rewrite !final_cons in *. by eapply at_insert_eq.
    + by apply at_insert_ne.
    + by apply seg_frame.
Qed.

(** ** The walk of [list_length] *)

Lemma entry_next h hd L k x e : clean h hd L -> L !! k = Some (x, e) ->
  exists pv, at_addr h x (Node e pv (first (drop (S k) L) (Some hd))).
Proof.
  intros Hc Hk. rewrite <-(take_drop_middle L k _ Hk) in Hc. unfold clean in Hc. eexists. by eapply seg_at.
Qed.

Lemma next_not_head hd (L : list (nat * Z)) k : first L None = Some hd -> NoDup L.*1 -> (S k < length L)%nat ->
  first (drop (S k) L) (Some hd) <> Some hd.
Proof.
  intros Hf Hn Hk E. destruct (first_fst _ _ Hf) as (j & K & ->). rewrite skipn_cons in E. cbn [fmap list_fmap fst length] in *.
  apply NoDup_cons in Hn as [Hhd _]. destruct (drop k K) as [|[y e] K'] eqn:Ed.
  { apply (f_equal length) in Ed. rewrite length_drop in Ed. cbn in Ed. lia. }
  injection E as ->. apply Hhd. apply list_elem_of_fmap. exists (hd, e). split; [done|].
  apply (subseteq_drop k K). rewrite Ed. by left.
Qed.

Lemma u64_succ n : u64 (u64 n + 1) = u64 (n + 1).
Proof. unfold u64. by rewrite Zplus_mod_idemp_l. Qed.

(** ** Steps *)

Section step.
Context (self : nat -> Z) (Hself : forall i k, self i = self k -> i = k) (Hpos : forall i, self i <> 0).
Context (progs : list (list op)).

Definition ok (i : nat) (p : pc) (s : state) (hd : nat) : Prop :=
  exists o, thread_step self i p s = Ret o /\ forall s', o = Some s' -> exists L, inv self progs s' hd L.

(** The step returns, with the list [K] afterwards. *)
Ltac steps K := eexists; split; [done|]; intros ? [= <-]; exists K; split; [done|]; split; [done|].

(** Whatever the holder of the lock is doing, the nodes of the list are allocated. *)
Lemma list_alive h hd th L x : data_inv h hd th L -> x ∈ L.*1 -> exists n, at_addr h x n.
Proof.
  intros [Hf Hn Hg Hs Hc _] Hx.
  destruct (decide (Exists (fun p => holds p = true) th)) as [(p & (i & Hi)%list_elem_of_lookup & Hp)%Exists_exists|Hno].
  - specialize (Hs _ _ Hi Hp). assert (Hm : forall nx y, mid h hd L nx y -> exists n, at_addr h x n).
    { intros nx y. unfold mid. case_bool_decide; [intros; by eapply seg_in|].
      destruct (first_fst _ _ Hf) as (j & K & ->). intros [Hh HK].
      cbn [fmap list_fmap fst] in Hx. apply elem_of_cons in Hx as [->|Hx]; [eauto|by eapply seg_in]. }
    destruct p; cbn [shape] in Hs; eauto using clean_in.
  - eapply clean_in; [|exact Hx]. apply Hc. intros i p Hi. apply not_true_iff_false. intros Hp. apply Hno, Exists_exists.
    exists p. split; [by eapply list_elem_of_lookup_2|done].
Qed.

Lemma head_alive h hd th L : data_inv h hd th L -> exists n, at_addr h hd n.
Proof.
  intros HD. eapply list_alive; [exact HD|]. destruct (first_fst _ _ (da_first _ _ _ _ HD)) as (j & K & ->). by left.
Qed.

Lemma step_locking i p s hd L : inv self progs s hd L -> thr s !! i = Some p ->
  match p with LTest _ _ | LReal _ _ | LRef _ _ | LOwn _ _ => True | _ => False end -> ok i p s hd.
Proof.
  intros (Hh & Hl & HK & HD & HG & HO) Hi Hp. pose proof (da_good _ _ _ _ HD _ _ Hi) as Hg.
  pose proof (lo_owner _ _ _ HK _ _ Hi) as Hown.
  destruct p as [|j os| |j os|j os|j os| | | | | | | | | | | |]; try done; clear Hp; unfold ok;
    cbn [thread_step locker_loop_lock]; unfold locker_access; rewrite (lo_alive _ _ _ HK).
  - rewrite (proj2 (Z.eqb_neq _ _)) by (intros E%Hown; done). steps L.
    split; [by eapply lock_goto|]. split; [by eapply data_pass|split; [by eapply log_goto|by eapply own_same]].
  - destruct (mutex (locker s)) as [k|] eqn:Em; [by exists None|]. steps L. split; [by eapply lock_acquire|]. split; [|split; [by eapply log_goto|by eapply own_same]].
    eapply data_goto; try done. intros _. eapply da_clean; [exact HD|]. intros k q Hk. apply not_true_iff_false.
    rewrite <-(lo_mutex _ _ _ HK _ _ Hk), Em. done.
  - steps L.
    split; [|split; [by eapply data_pass|split; [by eapply log_goto|by eapply own_same]]]. eapply lock_write; try done.
    exact (fun k q Hne Hk => owner_other _ _ _ _ _ Hi HK k q eq_refl Hne Hk).
  - steps L.
    split; [|split; [by eapply data_pass|split; [by eapply log_goto|by eapply own_same]]]. eapply lock_write; try done.
    + intros k q Hne Hk E. apply Hne. symmetry. by apply Hself.
    + intros _. by eapply (lo_count _ _ _ HK _ _ Hi).
Qed.

Lemma step_unlocking i p s hd L : inv self progs s hd L -> thr s !! i = Some p ->
  match p with UTest _ _ | UDec _ _ | UOwn _ _ | UReal _ _ => True | _ => False end -> ok i p s hd.
Proof.
  intros (Hh & Hl & HK & HD & HG & HO) Hi Hp. pose proof (da_good _ _ _ _ HD _ _ Hi) as Hg.
  pose proof (lo_owner _ _ _ HK _ _ Hi) as Hown. pose proof (lo_count _ _ _ HK _ _ Hi) as Hcnt.
  pose proof (da_shape _ _ _ _ HD _ _ Hi) as Hsh.
  destruct p as [| | | | | | | | | | | | |b os|b os|b os|b os|]; try done; clear Hp; unfold ok;
    cbn [thread_step locker_loop_unlock]; unfold locker_access; rewrite (lo_alive _ _ _ HK);
    cbn [good] in Hg; destruct Hg as [Hos Hb]; (destruct b as [r|]; [|done]).
  - rewrite (proj2 (Z.eqb_eq _ _)) by by apply Hown. steps L. split; [by eapply lock_goto|]. split; [by eapply data_pass|split; [by eapply log_goto|by eapply own_same]].
  - rewrite Hcnt by done. cbn [Z.eqb Z.sub]. steps L.
    split; [|split; [by eapply data_pass|split; [by eapply log_goto|by eapply own_same]]]. eapply lock_write; try done. exact (fun k q Hne Hk => owner_other _ _ _ _ _ Hi HK k q eq_refl Hne Hk).
  - steps L.
    split; [|split; [by eapply data_pass|split; [by eapply log_goto|by eapply own_same]]]. eapply lock_write; try done.
    split; [intros E; symmetry in E; by apply Hpos in E|done].
  - steps L. split; [by eapply lock_release|].
    split; [|split; [by eapply log_return_inv|by eapply own_same]]. eapply data_goto; try done. intros _ _. by apply Hsh.
Qed.

(** The first step of a call. *)
Lemma step_start i o os s hd L : inv self progs s hd L -> thr s !! i = Some (Idle (o :: os)) -> ok i (Idle (o :: os)) s hd.
Proof.
  intros (Hh & Hl & HK & HD & HG & HO) Hi. pose proof (da_good _ _ _ _ HD _ _ Hi) as Hg. cbn [good] in Hg.
  apply Forall_cons in Hg as [Ho Hos]. destruct (head_alive _ _ _ _ HD) as [n Hn]. unfold ok. cbn [thread_step].
  assert (Hadd : forall d, datum o = Some d -> exists o', dlist_lock i (Job o (Some (length (nodes s)))) os
      (set_nodes (nodes s ++ [Some (Node d None None)]) s) = Ret o' /\
    forall s', o' = Some s' -> exists L, inv self progs s' hd L).
  { intros d Ed. unfold dlist_lock. cbn [nodes head has_locker set_nodes]. rewrite Hh, Hl.
    rewrite (load_ok _ hd n) by by apply at_new_old. bind. eexists. split; [done|]. intros ? [= <-]. exists L.
    split; [done|]. split; [by cbn; rewrite Hl|]. split; [by eapply lock_goto|]. split; [|split; [by eapply log_goto|]].
    2: { eapply own_step; [exact Hi|exact HO| |done|done]. intros x m [[-> _]|Hm]%at_new_inv; [by right|left; eauto]. }
    eapply data_new; try done. split; [done|]. unfold job_ok. cbn [j_op j_new]. rewrite Ed.
    exists (length (nodes s)), None, None. split; [done|]. split; [apply at_new|]. intros Hin.
    destruct (list_alive _ _ _ _ _ HD Hin) as [m Hm%at_addr_lt]. lia. }
  destruct o as [d|d| |]; [by apply (Hadd d)|by apply (Hadd d)| |done].
  cbn [start]. unfold dlist_lock. rewrite Hh, Hl, (load_ok _ _ _ Hn). bind. steps L.
  split; [by eapply lock_goto|]. split; [by eapply data_pass|split; [by eapply log_goto|by eapply own_same]].
Qed.

Lemma job_datum h L j : job_ok h L j -> j_op j <> Length -> exists d x pv nx, datum (j_op j) = Some d /\
  j_new j = Some x /\ at_addr h x (Node d pv nx) /\ x ∉ L.*1.
Proof.
  unfold job_ok. destruct (datum (j_op j)) as [d|]; [|by intros [? _] ?]. intros (x & pv & nx & H) _. by exists d, x, pv, nx.
Qed.

Lemma neighbours_add hd L o pr nx : neighbours hd L o pr nx -> o <> Length.
Proof. by destruct o. Qed.

Lemma step_enter i j os s hd L : inv self progs s hd L -> thr s !! i = Some (BEnter j os) -> ok i (BEnter j os) s hd.
Proof.
  intros (Hh & Hl & HK & HD & HG & HO) Hi. pose proof (da_good _ _ _ _ HD _ _ Hi) as [Hos Hj].
  pose proof (da_shape _ _ _ _ HD _ _ Hi eq_refl) as Hc. cbn [shape] in Hc.
  destruct (first_fst _ _ (da_first _ _ _ _ HD)) as (v & K & EL). unfold ok. cbn [thread_step enter]. rewrite Hh.
  rewrite EL in Hc. rewrite (load_ok _ _ _ (head_entry _ _ _ _ Hc)). bind. cbn [next prev]. rewrite <-EL in Hc.
  destruct (j_op j) as [d|d| |] eqn:Eo.
  1-2: steps L; (split; [by eapply lock_goto|]); (split; [|split; [by eapply log_goto|by eapply own_same]]); eapply data_pass; try done;
    (split; [done|]); (split; [done|]); rewrite Eo, EL; done.
  - steps L. split; [by eapply lock_goto|]. split.
    + eapply data_pass; try done. split; [done|]. exists 0%nat, hd, v. by rewrite EL.
    + split.
      * eapply log_goto; [exact Hi|exact HG| |done]. cbn [todo]. by rewrite Eo.
      * eapply own_same; [exact Hi|exact HO|]. intros z Hz. unfold job_ok in Hj. rewrite Eo in Hj. cbn in Hj, Hz.
        destruct Hj as [_ Hj]. congruence.
  - exfalso. unfold job_ok in Hj. rewrite Eo in Hj. by destruct Hj.
Qed.

(** The nodes stay the same when one of them is written. *)
Ltac own_write Hi HO Hy := eapply own_step; [exact Hi|exact HO|intros ? ? Hat; left; exact (at_write _ _ _ _ _ _ Hy Hat)|done|].

Lemma step_prev i j pr nx os s hd L : inv self progs s hd L -> thr s !! i = Some (BPrev j pr nx os) -> ok i (BPrev j pr nx os) s hd.
Proof.
  intros (Hh & Hl & HK & HD & HG & HO) Hi. pose proof (da_good _ _ _ _ HD _ _ Hi) as (Hos & Hj & Hnb).
  pose proof (da_shape _ _ _ _ HD _ _ Hi eq_refl) as Hc. cbn [shape] in Hc. pose proof HD as [Hf Hn _ _ _ _].
  destruct (job_datum _ _ _ Hj (neighbours_add _ _ _ _ _ Hnb)) as (d & x & pv & nx' & Ed & Ex & Hx & HxL).
  destruct (write_prev _ _ _ _ _ _ x Hc Hf Hn Hnb) as (y & n & -> & HyL & E & Hm). destruct (clean_in _ _ _ _ Hc HyL) as [m' Hy].
  unfold ok. cbn [thread_step list_add_body]. rewrite Ex, E. bind. steps L.
  assert (Hkeep : forall z m, at_addr (nodes s) z m -> z ∉ L.*1 -> at_addr (<[y := Some n]> (nodes s)) z m /\ z ∉ L.*1).
  { intros z m Hz HzL. split; [|done]. apply at_insert_ne; [|done]. by intros ->. }
  split; [by eapply lock_goto|]. split; [|split; [by eapply log_goto|own_write Hi HO Hy; auto]].
  eapply list_write; try done.
  - intros k q Hk Hq. by eapply (holder_only _ _ _ _ _ Hi HK).
  - intros z m Hz HzL _. by apply Hkeep.
  - split; [done|]. split; [|done]. eapply job_keep; [done|]. intros z m _. apply Hkeep.
  - intros _. cbn [shape]. by rewrite Ex.
Qed.

(** Filling the new node leaves the list alone. *)
Lemma fill_keep h hd L nx x o : first L None = Some hd -> x ∉ L.*1 -> mid h hd L nx (Some x) ->
  mid (<[x := o]> h) hd L nx (Some x) /\
  forall z m, at_addr h z m -> z ∉ L.*1 -> Some x <> Some z -> at_addr (<[x := o]> h) z m /\ z ∉ L.*1.
Proof.
  intros Hf Hx Hm. split; [by apply mid_frame|]. intros z m Hz HzL Hne. split; [|done].
  apply at_insert_ne; [|done]. by intros ->.
Qed.

Lemma job_filled h L j x d pv nx : datum (j_op j) = Some d -> j_new j = Some x -> x ∉ L.*1 -> at_addr h x (Node d pv nx) ->
  job_ok h L j.
Proof. intros Ed Ex Hx Hat. unfold job_ok. rewrite Ed. by exists x, pv, nx. Qed.

Lemma step_next i j pr nx os s hd L : inv self progs s hd L -> thr s !! i = Some (BNext j pr nx os) -> ok i (BNext j pr nx os) s hd.
Proof.
  intros (Hh & Hl & HK & HD & HG & HO) Hi. pose proof (da_good _ _ _ _ HD _ _ Hi) as (Hos & Hj & Hnb).
  pose proof (da_shape _ _ _ _ HD _ _ Hi eq_refl) as Hm. cbn [shape] in Hm. pose proof HD as [Hf Hn _ _ _ _].
  destruct (job_datum _ _ _ Hj (neighbours_add _ _ _ _ _ Hnb)) as (d & x & pv & nx' & Ed & Ex & Hx & HxL).
  rewrite Ex in Hm. destruct (fill_keep _ _ _ _ _ (Some (Node d pv nx)) Hf HxL Hm) as [Hm' Hkeep].
  unfold ok. cbn [thread_step list_add_body]. rewrite Ex, (modify_ok _ _ _ _ Hx). bind. steps L.
  assert (Hx' : at_addr (<[x := Some (Node d pv nx)]> (nodes s)) x (Node d pv nx)) by by eapply at_insert_eq.
  split; [by eapply lock_goto|]. split; [|split; [by eapply log_goto|own_write Hi HO Hx; auto]]. eapply list_write; try done.
  - intros k q Hk Hq. by eapply (holder_only _ _ _ _ _ Hi HK).
  - intros z m Hz HzL Ht. apply Hkeep; [done..|]. cbn [temp_of] in Ht. by rewrite Ex in Ht.
  - split; [done|]. split; [by eapply job_filled|]. split; [done|]. by exists x, d, pv.
  - intros _. cbn [shape]. by rewrite Ex.
Qed.

Lemma step_back i j pr nx os s hd L : inv self progs s hd L -> thr s !! i = Some (BBack j pr nx os) -> ok i (BBack j pr nx os) s hd.
Proof.
  intros (Hh & Hl & HK & HD & HG & HO) Hi. pose proof (da_good _ _ _ _ HD _ _ Hi) as (Hos & Hj & Hnb & x' & d' & pv' & Ex' & Hx').
  pose proof (da_shape _ _ _ _ HD _ _ Hi eq_refl) as Hm. cbn [shape] in Hm. pose proof HD as [Hf Hn _ _ _ _].
  destruct (job_datum _ _ _ Hj (neighbours_add _ _ _ _ _ Hnb)) as (d & x & pv & nx' & Ed & Ex & Hx & HxL).
  rewrite Ex in Ex'. injection Ex' as <-. pose proof (at_addr_fun _ _ _ _ Hx Hx') as [= <- <- <-].
  rewrite Ex in Hm. destruct (fill_keep _ _ _ _ _ (Some (Node d pr nx')) Hf HxL Hm) as [Hm' Hkeep].
  unfold ok. cbn [thread_step list_add_body]. rewrite Ex, (modify_ok _ _ _ _ Hx). bind. steps L.
  assert (Hxn : at_addr (<[x := Some (Node d pr nx')]> (nodes s)) x (Node d pr nx')) by by eapply at_insert_eq.
  split; [by eapply lock_goto|]. split; [|split; [by eapply log_goto|own_write Hi HO Hx; auto]]. eapply list_write; try done.
  - intros k q Hk Hq. by eapply (holder_only _ _ _ _ _ Hi HK).
  - intros z m Hz HzL Ht. apply Hkeep; [done..|]. cbn [temp_of] in Ht. by rewrite Ex in Ht.
  - split; [done|]. split; [by eapply job_filled|]. split; [done|]. by exists x, d.
  - intros _. cbn [shape]. by rewrite Ex.
Qed.

Lemma step_link i j pr nx os s hd L : inv self progs s hd L -> thr s !! i = Some (BLink j pr nx os) -> ok i (BLink j pr nx os) s hd.
Proof.
  intros (Hh & Hl & HK & HD & HG & HO) Hi. pose proof (da_good _ _ _ _ HD _ _ Hi) as (Hos & Hj & Hnb & x' & d' & Ex' & Hx').
  pose proof (da_shape _ _ _ _ HD _ _ Hi eq_refl) as Hm. cbn [shape] in Hm. pose proof HD as [Hf Hn _ _ _ _].
  destruct (job_datum _ _ _ Hj (neighbours_add _ _ _ _ _ Hnb)) as (d & x & pv & nx' & Ed & Ex & Hx & HxL).
  rewrite Ex in Ex'. injection Ex' as <-. pose proof (at_addr_fun _ _ _ _ Hx Hx') as [= <- -> ->].
  rewrite Ex in Hm. destruct (write_next _ _ _ _ _ _ _ _ Hm Hf Hn HxL Ed Hnb Hx) as (y & n & HyL & E & Hc).
  pose proof (link_fst _ d x L Ed ltac:(by intros ->)) as Hperm. pose proof (link_first (j_op j) x _ _ Hf) as Hf'.
  unfold ok. cbn [thread_step list_add_body]. rewrite Ex, E. bind. unfold dlist_unlock. cbn [nodes head has_locker log_op set_nodes].
  rewrite Hh, Hl. destruct (clean_in _ _ _ hd Hc) as [m Hhd].
  { destruct (first_fst _ _ Hf') as (v & K & ->). by left. }
  rewrite (load_ok _ _ _ Hhd). bind. steps (link (j_op j) x L).
  split; [by eapply lock_goto|]. split.
  - eapply list_write; try done.
    + intros k q Hk Hq. by eapply (holder_only _ _ _ _ _ Hi HK).
    + rewrite Hperm. by apply NoDup_cons.
    + intros z w Hz HzL Ht. cbn [temp_of] in Ht. rewrite Ex in Ht. rewrite Hperm. split.
      * apply at_insert_ne; [|done]. by intros ->.
      * apply not_elem_of_cons. split; [|done]. by intros ->.
  - destruct (first_fst _ _ Hf) as (v & K & ->). split.
    + eapply log_effect; [exact Hi|exact HG|done..|]. by apply link_effect with (d := d).
    + destruct (list_alive _ _ _ _ _ HD HyL) as [w Hw]. eapply own_step; [exact Hi|exact HO|intros ? ? Hat; left; exact (at_write _ _ _ _ _ _ Hw Hat)| |].
      * intros z Hz. rewrite Hperm. by right.
      * intros z Hz. right. cbn [temp_of] in Hz. rewrite Ex in Hz. injection Hz as <-. rewrite Hperm. by left.
Qed.

Lemma step_test i it n os s hd L : inv self progs s hd L -> thr s !! i = Some (BTest it n os) -> ok i (BTest it n os) s hd.
Proof.
  intros (Hh & Hl & HK & HD & HG & HO) Hi. pose proof (da_good _ _ _ _ HD _ _ Hi) as (Hos & k & x & e & -> & -> & Hk).
  pose proof (da_shape _ _ _ _ HD _ _ Hi eq_refl) as Hc. cbn [shape] in Hc. pose proof HD as [Hf Hn _ _ _ _].
  destruct (entry_next _ _ _ _ _ _ Hc Hk) as [pv Hx]. pose proof (lookup_lt_Some _ _ _ Hk) as Hlt.
  unfold ok. cbn [thread_step list_length_body]. rewrite (load_ok _ _ _ Hx), Hh. bind. cbn [next]. case_bool_decide as Hend.
  - assert (Hlen : length L = S k).
    { destruct (decide (S k < length L)%nat) as [Hlt'|]; [|lia]. by destruct (next_not_head _ _ _ Hf Hn Hlt'). }
    unfold dlist_unlock. cbn [nodes head has_locker log_op]. rewrite Hh, Hl. destruct (head_alive _ _ _ _ HD) as [m Hhd].
    rewrite (load_ok _ _ _ Hhd). bind. steps L. split; [by eapply lock_goto|]. split; [by eapply data_pass|].
    split; [|by eapply own_same]. eapply log_effect; [exact Hi|exact HG|done..|]. destruct (first_fst _ _ Hf) as (v & K & ->). cbn [tail length effect] in *.
    rewrite length_fmap. injection Hlen as <-. by rewrite Z.eqb_refl.
  - steps L. split; [by eapply lock_goto|]. split; [|split; [by eapply log_goto|by eapply own_same]]. eapply data_pass; try done. split; [done|].
    assert (Hlt' : (S k < length L)%nat).
    { destruct (decide (S k < length L)%nat) as [|Hge]; [done|]. destruct Hend. rewrite drop_ge by lia. done. }
    destruct (lookup_lt_is_Some_2 L (S k) Hlt') as [y Hy]. exists k, x, e, y. split_and!; try done.
    rewrite u64_succ. f_equal. lia.
Qed.

Lemma step_walk i it n os s hd L : inv self progs s hd L -> thr s !! i = Some (BStep it n os) -> ok i (BStep it n os) s hd.
Proof.
  intros (Hh & Hl & HK & HD & HG & HO) Hi. pose proof (da_good _ _ _ _ HD _ _ Hi) as (Hos & k & x & e & [y w] & -> & -> & Hk & Hy).
  pose proof (da_shape _ _ _ _ HD _ _ Hi eq_refl) as Hc. cbn [shape] in Hc.
  destruct (entry_next _ _ _ _ _ _ Hc Hk) as [pv Hx]. unfold ok. cbn [thread_step list_length_body].
  rewrite (load_ok _ _ _ Hx). bind. cbn [next]. steps L. split; [by eapply lock_goto|]. split; [|split; [by eapply log_goto|by eapply own_same]].
  eapply data_pass; try done. split; [done|]. exists (S k), y, w. split; [done|]. split; [|done].
  by rewrite (drop_S _ _ _ Hy).
Qed.

(** Every step is defined and keeps the invariant. *)
Lemma clist_step i p s hd L : inv self progs s hd L -> thr s !! i = Some p -> ok i p s hd.
Proof.
  intros HI Hi. pose proof HI as (_ & _ & _ & HD & _ & _). pose proof (da_good _ _ _ _ HD _ _ Hi) as Hg.
  destruct p as [[|o os]| | | | | | | | | | | | | | | | |]; try done;
    eauto using step_locking, step_unlocking, step_start, step_enter, step_prev, step_next, step_back, step_link, step_test, step_walk.
  by exists None.
Qed.
End step.
