(* ===== verification/ClistThm.v ===== *)
(** What the thread-safe list gives its users: every interleaving of calls is safe and
    linearizable, no thread waits for ever, and destroying the list afterwards frees
    everything. *)
From S2P Require Import Prelude Arrays Heap Dll Clist ClistInv ClistStep ClistProof.

Lemma init_inv_list self junk progs : (forall i, self i <> 0) -> Forall (Forall keeps) progs ->
  inv self progs (list_create junk true progs) 0 [(0%nat, junk)].
Proof.
  intros Hpos Hk. assert (Hth : forall i p, (Idle <$> progs) !! i = Some p -> exists os, progs !! i = Some os /\ p = Idle os).
  { intros i p. rewrite list_lookup_fmap. intros (os & Hos & ->)%fmap_Some. eauto. }
  split; [done|]. split; [done|]. split; [|split; [|split]]; cbn.
  - split; cbn; try done.
    + by intros i p (os & _ & ->)%Hth.
    + intros i p (os & _ & ->)%Hth. split; [|done]. intros E. symmetry in E. by apply Hpos in E.
    + by intros i p (os & _ & ->)%Hth.
  - split; try done.
    + apply NoDup_singleton.
    + intros i p (os & Hos & ->)%Hth. cbn. by eapply Forall_lookup_1 in Hos.
    + by intros i p (os & _ & ->)%Hth.
    + by intros i k p q x _ (os & _ & ->)%Hth.
  - split; [done| |].
    + by intros i p (os & Hos & ->)%Hth.
    + by intros i p (os & _ & ->)%Hth.
  - intros x n Hx. apply lookup_lt_Some in Hx. cbn in Hx. left. assert (x = 0%nat) as -> by lia. by left.
Qed.

(** Steps neither start nor end threads. *)
Lemma after_length i b os s : length (thr (after i b os s)) = length (thr s).
Proof. destruct b; apply length_insert. Qed.

Lemma step_threads self i p s s' : thread_step self i p s = Ret (Some s') -> length (thr s') = length (thr s).
Proof.
  intros E. destruct p as [[|[d|d| |] os]| | | | | | | | | | | | | | | | |]; cbn [thread_step start] in E; try done;
    unfold locker_loop_lock, locker_loop_unlock, locker_access, enter, list_add_body, list_length_body, destroy_end, dlist_lock, dlist_unlock, new in E;
    repeat (case_match; try done); inv_res; repeat (case_match; try done); inv_res; simplify_eq;
    cbn; rewrite ?after_length, ?length_insert; done.
Qed.

Section users.
Context (self : nat -> Z) (Hself : forall i k, self i = self k -> i = k) (Hpos : forall i, self i <> 0).
Context (junk : Z) (progs : list (list op)) (Hkeeps : Forall (Forall keeps) progs).

Lemma reachable_list s : reachable self junk true progs s ->
  exists hd L, inv self progs s hd L /\ length (thr s) = length progs.
Proof.
  induction 1 as [|s i p s' _ (hd & L & HI & Hlen) Hi E].
  - exists 0%nat, [(0%nat, junk)]. split; [by apply init_inv_list|]. apply length_fmap.
  - destruct (clist_step self Hself Hpos progs _ _ _ _ _ HI Hi) as (o & Eo & H). rewrite E in Eo. injection Eo as <-.
    destruct (H _ eq_refl) as (L' & HI'). exists hd, L'. split; [done|].
    rewrite <-Hlen. by eapply step_threads.
Qed.

(** A thread that cannot move has finished or waits for the mutex. *)
Lemma blocked_at s hd L i p : inv self progs s hd L -> thr s !! i = Some p -> thread_step self i p s = Ret None ->
  p = Idle [] \/ (holds p = false /\ exists k, mutex (locker s) = Some k).
Proof.
  intros (Hh & Hl & HK & HD & HG & HO) Hi E. pose proof (da_good _ _ _ _ HD _ _ Hi) as Hg.
  destruct (head_alive _ _ _ _ HD) as [n Hn]. pose proof (lo_alive _ _ _ HK) as Ha.
  destruct p as [[|[d|d| |] os]| | |j os| | | | | | | | | | | | | |]; cbn [thread_step start good] in *; try done; [by left|..];
    unfold locker_loop_lock, locker_loop_unlock, locker_access, enter, list_add_body, list_length_body, dlist_lock, dlist_unlock, new in E; rewrite ?Ha in E;
    cbn [nodes head set_nodes] in E.
  all: try (by destruct (mutex (locker s)) as [k|] eqn:Em; [right; split; [done|]; exists k|]).
  all: repeat (case_match; try done); inv_res; repeat (case_match; try done); inv_res; try done.
Qed.
End users.

(** Executions are reachable. *)
Lemma alone_one_reachable self junk lock progs i s s' : reachable self junk lock progs s -> alone self 1 i s = Ret s' ->
  reachable self junk lock progs s'.
Proof.
  intros Hr. cbn [alone]. destruct (thr s !! i) as [p|] eqn:Ei; [|by intros [= <-]]. intros H. inv_res.
  destruct v as [s1|]; [|by simplify_eq]. destruct (thr s1 !! i); simplify_eq; by eapply reach_step.
Qed.

Lemma clist_execute_reachable self junk lock progs sch s s' : reachable self junk lock progs s ->
  execute self sch s = Ret s' -> reachable self junk lock progs s'.
Proof.
  revert s. induction sch as [|i sch IH]; intros s Hr H; cbn [execute] in H; [by injection H as <-|].
  apply res_bind_Ret in H as (s1 & E & H). eapply IH; [|exact H]. by eapply alone_one_reachable.
Qed.

(** ** Destroying the list *)

Lemma alone_step self n i p s s1 r : thr s !! i = Some p -> thread_step self i p s = Ret (Some s1) ->
  alone self n i s1 = r -> alone self (S n) i s = r.
Proof. intros Ep Es H. cbn [alone]. rewrite Ep, Es. by bind. Qed.

(** Show the fields of a state that is an update of an explicit one. *)
Ltac fields :=
  cbn [after]; unfold goto, log_destroyed, set_nodes, set_locker, log_op;
  cbn [nodes head has_locker locker thr log returned destroyed after owner refcount mutex alive].

(** One step of a thread that runs alone. *)
Ltac walk tac := eapply alone_step; [cbn; by auto|tac; reflexivity|fields; rewrite ?list_insert_insert_eq].

Lemma clist_destroy_loop hd (K : list (nat * Z)) : forall (h : heap (node Z)) b fuel out, seg h b K (Some hd) -> NoDup K.*1 -> hd ∉ K.*1 -> (length K <= fuel)%nat ->
  exists h' : heap (node Z), destroy_loop fuel h (Some hd) (first K (Some hd)) out = Ret (h', out ++ K.*2) /\
    forall x n, at_addr h' x n <-> at_addr h x n /\ x ∉ K.*1.
Proof.
  induction K as [|[y e] K IH]; intros h b fuel out Hs Hn Hhd Hf.
  - exists h. cbn [first]. split; [destruct fuel; cbn [destroy_loop]; rewrite bool_decide_true by done; by rewrite app_nil_r|].
    intros x n. split; [|by intros [? _]]. intros Hx. split; [done|]. apply not_elem_of_nil.
  - destruct Hs as [Hy Hs]. cbn [fmap list_fmap fst] in Hn, Hhd |- *. apply NoDup_cons in Hn as [Hy1 Hn].
    apply not_elem_of_cons in Hhd as [Hne Hhd]. destruct fuel as [|fuel]; [cbn in Hf; lia|].
    cbn [first destroy_loop]. rewrite bool_decide_false by congruence. rewrite (load_ok _ _ _ Hy). bind.
    rewrite (modify_ok _ _ _ _ Hy). bind. set (h1 := <[y := _]> h).
    rewrite (modify_ok h1 _ _ _ (at_insert_eq _ _ _ _ Hy)). bind. set (h2 := <[y := _]> h1).
    rewrite (dispose_ok h2 _ _ (at_insert_eq _ _ _ _ (at_insert_eq _ _ _ _ Hy))). bind. cbn [next element].
    destruct (IH (<[y := None]> h2) (Some y) fuel (out ++ [e])) as (h' & -> & H); [|done|done|cbn in Hf; lia|].
    { unfold h2, h1. by repeat (apply seg_frame; [done|]). }
    exists h'. split; [by rewrite <-app_assoc|]. intros x n. rewrite H, not_elem_of_cons.
    destruct (decide (y = x)) as [<-|Hyx]; [split; [intros [?%at_freed _]; done|naive_solver]|].
    unfold h2, h1. rewrite !at_insert_ne by done. naive_solver.
Qed.

(** C25. The list is linearizable: whatever threads add to it, append to it and ask for
    its length, in every interleaving no step is undefined, at most one thread is
    between locking and unlocking, and the calls in the order in which they took effect,
    each with its result, are a run of the same calls on a list, in which the calls of
    each thread are in its order; while no thread has the lock, the circular list holds
    exactly the result of that run, and when all threads have finished, every call has
    taken effect and returned its result, and only the list is allocated. *)
Theorem clist_linearizable self junk progs s : (forall i k, self i = self k -> i = k) -> (forall i, self i <> 0) ->
  Forall (Forall keeps) progs -> reachable self junk true progs s ->
  (forall i p, thr s !! i = Some p -> exists o, thread_step self i p s = Ret o) /\
  (forall i k p q, thr s !! i = Some p -> thr s !! k = Some q -> holds p = true -> holds q = true -> i = k) /\
  exists hd l, head s = Some hd /\ replay [] (log s) = Some l /\
    (forall i os, progs !! i = Some os -> by_thread i (calls (log s)) `prefix_of` os /\
       by_thread i (returned s) `prefix_of` by_thread i (results (log s))) /\
    ((forall i p, thr s !! i = Some p -> holds p = false) ->
       exists j K, clean (nodes s) hd ((hd, j) :: K) /\ NoDup (hd :: K.*1) /\ K.*2 = l) /\
    ((forall i p, thr s !! i = Some p -> p = Idle []) ->
       (forall i os, progs !! i = Some os -> by_thread i (calls (log s)) = os /\ by_thread i (returned s) = by_thread i (results (log s))) /\
       length (live (nodes s)) = S (length l)).
Proof.
  intros Hself Hpos Hk Hr. destruct (reachable_list self Hself Hpos junk progs Hk s Hr) as (hd & L & HI & Hlen).
  split; [|split].
  - intros i p Hi. destruct (clist_step self Hself Hpos progs _ _ _ _ _ HI Hi) as (o & E & _). by exists o.
  - destruct HI as (_ & _ & HK & _). intros i k p q Hi Hk' Hp Hq. symmetry. by eapply (holder_only _ _ _ _ _ Hi HK).
  - destruct HI as (Hh & _ & _ & HD & HG & HO). exists hd, (tail L).*2. split; [done|]. split; [apply HG|].
    destruct (first_fst _ _ (da_first _ _ _ _ HD)) as (j & K & EL).
    assert (Hth : forall i os, progs !! i = Some os -> exists p, thr s !! i = Some p).
    { intros i os Hos. apply lookup_lt_is_Some_2. apply lookup_lt_Some in Hos. lia. }
    split; [|split].
    + intros i os Hos. destruct (Hth _ _ Hos) as [p Hp]. pose proof (lg_todo _ _ _ _ _ HG _ _ Hp) as Ht.
      rewrite Hos in Ht. injection Ht as ->. rewrite (lg_due _ _ _ _ _ HG _ _ Hp). split; by eexists.
    + intros Hfree. exists j, K. rewrite <-EL. split; [by apply (da_clean _ _ _ _ HD)|]. rewrite EL.
      split; [|done]. pose proof (da_nodup _ _ _ _ HD) as Hn. by rewrite EL in Hn.
    + intros Hdone. split.
      * intros i os Hos. destruct (Hth _ _ Hos) as [p Hp]. pose proof (lg_todo _ _ _ _ _ HG _ _ Hp) as Ht.
        rewrite Hos, (Hdone _ _ Hp) in Ht. injection Ht as ->. rewrite (lg_due _ _ _ _ _ HG _ _ Hp), (Hdone _ _ Hp).
        cbn. by rewrite !app_nil_r.
      * rewrite (live_perm _ L.*1); [by rewrite EL; cbn; rewrite !length_fmap|apply HD|]. intros x. split.
        -- intros [n Hx]. destruct (HO _ _ Hx) as [|(i & p & Hi & Ht)]; [done|]. by rewrite (Hdone _ _ Hi) in Ht.
        -- by apply (list_alive _ _ _ _ _ HD).
Qed.

(** Two threads that have both finished, after their steps alternated. *)
Abbreviation two_threads := [[Add 5; Length]; [AddTail 6]] (only parsing).
Abbreviation alternating := (concat (replicate 40 [0; 1]%nat)) (only parsing).
Abbreviation small_self := (fun i : nat => Z.of_nat i + 1) (only parsing).
Ltac alternate :=
  let r := eval vm_compute in (execute small_self alternating (list_create 0 true two_threads)) in
  match r with Ret ?s => exists s; assert (Hr := clist_execute_reachable small_self 0 true two_threads alternating _ s
    (reach_init _ _ _ _) (ltac:(vm_compute; reflexivity))) end;
  assert (Hinj : forall i k : nat, small_self i = small_self k -> i = k) by (intros; lia);
  assert (Hnz : forall i : nat, small_self i <> 0) by (intros; lia);
  assert (Hkeep : Forall (Forall keeps) two_threads) by (repeat constructor; done).

Lemma clist_linearizable_witness : exists s, reachable small_self 0 true two_threads s /\
  log s = [(0%nat, Add 5, 0); (1%nat, AddTail 6, 0); (0%nat, Length, 2)] /\
  exists hd l, head s = Some hd /\ replay [] (log s) = Some l /\ length (live (nodes s)) = S (length l).
Proof.
  alternate. split; [exact Hr|]. split; [reflexivity|].
  destruct (clist_linearizable small_self 0 two_threads _ Hinj Hnz Hkeep Hr) as (_ & _ & hd & l & H1 & H2 & _ & _ & H3).
  exists hd, l. split; [exact H1|]. split; [exact H2|]. apply H3.
  intros [|[|k]] p Hp; cbn in Hp; [by injection Hp|by injection Hp|discriminate].
Defined.

(** C26. No thread waits for ever: when no thread can move, all have finished. *)
Theorem clist_never_stuck self junk progs s : (forall i k, self i = self k -> i = k) -> (forall i, self i <> 0) ->
  Forall (Forall keeps) progs -> reachable self junk true progs s ->
  (forall i p, thr s !! i = Some p -> thread_step self i p s = Ret None) ->
  forall i p, thr s !! i = Some p -> p = Idle [].
Proof.
  intros Hself Hpos Hk Hr Hstuck. destruct (reachable_list self Hself Hpos junk progs Hk s Hr) as (hd & L & HI & Hlen).
  assert (Hfree : forall k, mutex (locker s) <> Some k).
  { intros k Em. pose proof HI as (_ & _ & HK & _). destruct (lookup_lt_is_Some_2 (thr s) k) as [p Hp]; [by apply (lo_range _ _ _ HK)|].
    pose proof (proj1 (lo_mutex _ _ _ HK _ _ Hp) Em) as Hh.
    destruct (blocked_at _ _ _ _ _ _ _ HI Hp (Hstuck _ _ Hp)) as [->|[Hn _]]; [done|congruence]. }
  intros i p Hi. destruct (blocked_at _ _ _ _ _ _ _ HI Hi (Hstuck _ _ Hi)) as [|[_ [k Em]]]; [done|]. by destruct (Hfree k).
Qed.

Lemma clist_never_stuck_witness : exists s, reachable small_self 0 true two_threads s /\
  forall i p, thr s !! i = Some p -> p = Idle [].
Proof.
  alternate. split; [exact Hr|].
  apply (clist_never_stuck small_self 0 two_threads _ Hinj Hnz Hkeep Hr).
  intros [|[|k]] p Hp; cbn in Hp; [by injection Hp as <-|by injection Hp as <-|discriminate].
Defined.

(** When all threads have finished, one of them may destroy the list: the call runs
    to its end, takes the lock, gives every element of the list to [data_destroy] in
    order, frees each node, the locker and the list exactly once, and nothing is left. *)
Theorem clist_destroy self junk progs s i : (forall i k, self i = self k -> i = k) -> (forall i, self i <> 0) ->
  Forall (Forall keeps) progs -> reachable self junk true progs s ->
  (forall k p, thr s !! k = Some p -> p = Idle []) -> (i < length progs)%nat ->
  exists s' l, replay [] (log s) = Some l /\ alone self 11 i (goto i (Idle [Destroy]) s) = Ret s' /\
    thr s' = thr s /\ live (nodes s') = [] /\ has_locker s' = false /\ alive (locker s') = false /\
    destroyed s' = destroyed s ++ l.
Proof.
  intros Hself Hpos Hk Hr Hdone Hi. destruct (reachable_list self Hself Hpos junk progs Hk s Hr) as (hd & L & HI & Hlen).
  destruct HI as (Hh & Hl & HK & HD & HG & HO). destruct s as [h hd' lk [al ow rc mu] th lg ret out].
  cbn [head has_locker nodes locker thr log returned destroyed] in *. subst hd' lk.
  destruct (first_fst _ _ (da_first _ _ _ _ HD)) as (j & K & ->). pose proof (da_nodup _ _ _ _ HD) as Hn.
  assert (Hc : clean h hd ((hd, j) :: K)) by (apply (da_clean _ _ _ _ HD); by intros ? ? ->%Hdone).
  cbn [fmap list_fmap fst] in Hn. apply NoDup_cons in Hn as [Hhd Hn].
  assert (Hti : th !! i = Some (Idle [])).
  { destruct (lookup_lt_is_Some_2 th i) as [p Hp]; [lia|]. by rewrite Hp, (Hdone _ _ Hp). }
  assert (mu = None) as ->.
  { destruct mu as [m|]; [|done]. destruct (lookup_lt_is_Some_2 th m) as [p Hp]; [by apply (lo_range _ _ _ HK)|].
    pose proof (proj1 (lo_mutex _ _ _ HK _ _ Hp) eq_refl) as Hx. by rewrite (Hdone _ _ Hp) in Hx. }
  assert (Ho : ow <> self i).
  { intros E. by pose proof (proj1 (lo_owner _ _ _ HK _ _ Hti) E). }
  pose proof (lo_alive _ _ _ HK) as Ha. cbn in Ha. subst al. pose proof (head_entry _ _ _ _ Hc) as Hhe.
  destruct Hc as [_ Hs].
  destruct (clist_destroy_loop hd K h (Some hd) (length h) [] Hs Hn Hhd) as (h' & Hloop & Hh'); [by eapply dseg_length|].
  assert (Hhe' : at_addr h' hd (Node j (final None ((hd, j) :: K)) (first K (Some hd)))) by by apply Hh'.
  eexists _, K.*2. split; [apply HG|]. split.
  { unfold goto; cbn [nodes head has_locker locker thr log returned destroyed].
    assert (Hlt : forall p, <[i := p]> th !! i = Some p) by (intros; apply list_lookup_insert_eq; lia).
    pose proof (load_ok _ _ _ Hhe) as Hld.
    pose proof (at_insert_eq _ _ _ (Node j (Some hd) (Some hd)) Hhe') as Hend.
    walk ltac:(cbn [thread_step start]; unfold dlist_lock; cbn [nodes head]; rewrite Hld; bind).
    walk idtac. cbn [owner]. rewrite (proj2 (Z.eqb_neq _ _) Ho). walk idtac. walk idtac. walk idtac.
    walk ltac:(cbn [thread_step enter nodes head j_op]; rewrite Hld; bind; cbn [next]; rewrite Hloop; bind;
      rewrite (modify_ok _ _ _ _ Hhe'); bind; rewrite (modify_ok _ _ _ _ (at_insert_eq _ _ _ _ Hhe')); bind).
    walk idtac. rewrite Z.eqb_refl. walk idtac. change (1 - 1 =? 0) with true. cbn [orb].
    walk idtac. walk idtac.
    walk ltac:(cbn [thread_step]; unfold destroy_end; cbn [nodes head];
      unfold set_prev, set_next; cbn [element prev next]; rewrite (load_ok _ _ _ Hend); bind;
      cbn [has_locker locker alive mutex andb]; rewrite bool_decide_true by done; bind; cbn [nodes head set_locker];
      rewrite (dispose_ok _ _ _ Hend); bind).
    reflexivity. }
  cbn [thr nodes has_locker locker alive destroyed]. split; [apply list_insert_id, Hti|]. split; [|done].
  apply live_nil. intros x n Hx. destruct (decide (hd = x)) as [<-|Hne]; [by apply at_freed in Hx|].
  rewrite !at_insert_ne in Hx by done. apply Hh' in Hx as [Hx Hni].
  destruct (HO _ _ Hx) as [Hin|(k & p & ->%Hdone & Ht)]; [|done].
  cbn in Hin. apply elem_of_cons in Hin as [->|]; done.
Qed.

Lemma clist_destroy_witness : exists s s' l, reachable small_self 0 true two_threads s /\ replay [] (log s) = Some l /\
  alone small_self 11 1 (goto 1 (Idle [Destroy]) s) = Ret s' /\ live (nodes s') = [] /\ destroyed s' = l.
Proof.
  alternate.
  destruct (clist_destroy small_self 0 two_threads _ 1%nat Hinj Hnz Hkeep Hr) as (s' & l & H1 & H2 & _ & H3 & _ & _ & H4);
    [|cbn; lia|].
  - intros [|[|k]] p Hp; cbn in Hp; [by injection Hp as <-|by injection Hp as <-|discriminate].
  - exists s', l. split; [exact Hr|]. split; [exact H1|]. split; [exact H2|]. split; [exact H3|exact H4].
Defined.
