(* ===== verification/Nfa2dfa.v ===== *)
(** Component: src/c-study/dfa-about/nfa2dfa.c, which reads a nondeterministic automaton
    and prints a deterministic one: the graph with its lists of edges, the matrix of
    state sets, and the subset construction.  A set of states is an array of at most ten
    names, ended by a NUL; [Nfa2dfaThm] says what is printed. *)
From S2P Require Import Prelude Arrays Heap.

Definition MAX : nat := 10.
Definition NumMaxChar : nat := 10.
Definition INFINIT : Z := 32767.
Definition EPS : Z := 42.   (* '*', the empty input *)

(** ** The graph *)

Record edge := Edge { dest : Z; cost : Z; link : pointer }.
Record vertex := Vertex { data : Z; adj : pointer }.
Record graph := Graph { NodeTable : list vertex; NumVertex : nat; edges : heap edge }.

Definition GraphEmpty (g : graph) : bool := (NumVertex g =? 0)%nat.
Definition GraphFull (g : graph) : bool := (NumVertex g =? MAX)%nat.

Definition GetValue (g : graph) (i : Z) : res Z :=
  if (0 <? i) && (i <? Z.of_nat (NumVertex g)) then v ← zget (NodeTable g) i; Ret (data v) else Ret 32.

Definition Insert_Vertex (g : graph) (vertex : Z) : res graph :=
  t ← zset (NodeTable g) (Z.of_nat (NumVertex g)) (Vertex vertex None);
  Ret (Graph t (S (NumVertex g)) (edges g)).

Definition Insert_Edge (g : graph) (v1 v2 weight : Z) : res graph :=
  v ← zget (NodeTable g) v1;
  let '(h, p) := new (edges g) (Edge v2 weight (adj v)) in
  t ← zset (NodeTable g) v1 (Vertex (data v) p);
  Ret (Graph t (NumVertex g) h).

(** The loop over the vertices from [i] on, [n] of them. *)
Fixpoint find_vertex (n : nat) (g : graph) (i : nat) (v : Z) : res Z :=
  match n with
  | O => Ret INFINIT
  | S n => x ← oget (NodeTable g !! i); if data x =? v then Ret (Z.of_nat i) else find_vertex n g (S i) v
  end.

Definition GetVertexPos (g : graph) (v : Z) : res Z := find_vertex (NumVertex g) g 0 v.

(** [for (i = 0; i < n; i++)] over values that are read. *)
Fixpoint each {A B} (f : A -> B -> res A) (l : list B) (a : A) : res A :=
  match l with [] => Ret a | x :: l => a ← f a x; each f l a end.

(** What [scanf] reads are the arguments: the names of the states and the edges as
    start, character and destination.  [junk] is the memory of the new table. *)
Definition Construct_Graph (junk : list vertex) (names : list Z) (arrows : list (Z * Z * Z)) : res graph :=
  g ← each Insert_Vertex names (Graph junk 0 []);
  each (fun g '(tail, weight, head) =>
    k ← GetVertexPos g tail;
    j ← GetVertexPos g head;
    Insert_Edge g k j weight) arrows g.

(** [while (p != NULL) { body; p = p->link; }] *)
Fixpoint scan_edges {A} (fuel : nat) (h : heap edge) (p : pointer) (body : A -> edge -> res A) (a : A) : res A :=
  if bool_decide (p = None) then Ret a else
  match fuel with
  | O => Fuel
  | S n => e ← load h p; a ← body a e; scan_edges n h (link e) body a
  end.

(** The edges of the vertex [i]. *)
Definition for_edges {A} (g : graph) (i : nat) (body : A -> edge -> res A) (a : A) : res A :=
  v ← oget (NodeTable g !! i); scan_edges (length (edges g)) (edges g) (adj v) body a.

(** The loop that frees the edges of the vertex [i]; the table keeps the rest. *)
Fixpoint free_edges (fuel : nat) (i : nat) (g : graph) (p : pointer) : res graph :=
  if bool_decide (p = None) then Ret g else
  match fuel with
  | O => Fuel
  | S n =>
      e ← load (edges g) p;
      v ← oget (NodeTable g !! i);
      let g := Graph (<[i := Vertex (data v) (link e)]> (NodeTable g)) (NumVertex g) (edges g) in
      h ← modify (edges g) p (fun e => Edge (dest e) (cost e) None);
      h ← dispose h p;
      free_edges n i (Graph (NodeTable g) (NumVertex g) h) (link e)
  end.

Definition Destruct_Graph (g : graph) : res graph :=
  g ← for_ 0 (NumVertex g) (fun i g =>
    v ← oget (NodeTable g !! i); free_edges (length (edges g)) i g (adj v)) g;
  Ret (Graph (NodeTable g) 0 (edges g)).

(** What is printed: start, destination and character of each edge. *)
Definition Show_Graph (g : graph) : res (list (Z * Z * Z)) :=
  for_ 0 (NumVertex g) (fun i out =>
    for_edges g i (fun out e =>
      v ← oget (NodeTable g !! i);
      w ← zget (NodeTable g) (dest e);
      Ret (out ++ [(data v, data w, cost e)])) out) [].

(** ** The matrix *)

Record tablenode := TableNode { newname : Z; ch : list Z }.
Record tablequeue := TableQueue { TN : list tablenode; transword : Z; NumTn : nat }.

(** [TM->TQ]; [transnum] is one less than its length. *)
Abbreviation matrix := (list tablequeue).
Definition transnum (TM : matrix) : nat := (length TM - 1)%nat.

Definition blank_queue (word : Z) : tablequeue := TableQueue (replicate MAX (TableNode 0 (replicate MAX 0))) word 0.

Definition Init_Matrix (words : list Z) : matrix := blank_queue 73 :: (blank_queue <$> words).

(** [TM->TQ[i].TN[j]], and writing it. *)
Definition node (TM : matrix) (i j : nat) : res tablenode := q ← oget (TM !! i); oget (TN q !! j).

Definition put (TM : matrix) (i j : nat) (t : tablenode) : res matrix :=
  q ← oget (TM !! i);
  _ ← oget (TN q !! j);
  Ret (<[i := TableQueue (<[j := t]> (TN q)) (transword q) (NumTn q)]> TM).

Definition set_ch (TM : matrix) (i j : nat) (t : list Z) : res matrix :=
  x ← node TM i j; put TM i j (TableNode (newname x) t).
Definition set_newname (TM : matrix) (i j : nat) (c : Z) : res matrix :=
  x ← node TM i j; put TM i j (TableNode c (ch x)).

(** [TM->TQ[0].NumTn], and its increment. *)
Definition rows (TM : matrix) : res nat := q ← oget (TM !! 0%nat); Ret (NumTn q).
Definition add_row (TM : matrix) : res matrix :=
  q ← oget (TM !! 0%nat); Ret (<[0%nat := TableQueue (TN q) (transword q) (S (NumTn q))]> TM).

(** ** Sets of names *)

Definition BubbleSort (a : list Z) (len : nat) : res (list Z) :=
  for_ 0 len (fun i a =>
    for_ 0 (len - i - 1) (fun j a =>
      x ← aget a j;
      y ← aget a (j + 1);
      if y <? x then a ← aset a (j + 1) x; aset a j y else Ret a) a) a.

Fixpoint check_from (n : nat) (t : list Z) (i : nat) (ti : Z) : res bool :=
  match n with
  | O => Ret true
  | S n => x ← aget t i; if x =? ti then Ret false else check_from n t (S i) ti
  end.

(** Whether [ti] does not occur in [t]. *)
Definition CheckChar (t : list Z) (ti : Z) : res bool := check_from NumMaxChar t 0 ti.

(** [!strcmp(s, t)], from [i] on. *)
Fixpoint same_string (n : nat) (s t : list Z) (i : nat) : res bool :=
  match n with
  | O => Fuel
  | S n =>
      x ← aget s i; y ← aget t i;
      if negb (x =? y) then Ret false else if x =? 0 then Ret true else same_string n s t (S i)
  end.

Fixpoint check_rows (n : nat) (TM : matrix) (i : nat) (str : list Z) : res nat :=
  match n with
  | O => Ret 1%nat
  | S n =>
      t ← node TM 0 i;
      b ← same_string (S (length (ch t))) (ch t) str 0;
      if (b : bool) then Ret i else check_rows n TM (S i) str
  end.

Definition CheckTable (TM : matrix) (str : list Z) : res nat := n ← rows TM; check_rows n TM 0 str.

(** [while (t[k] != '\0') k++;] *)
Fixpoint find_nul (n : nat) (t : list Z) (k : nat) : res nat :=
  match n with
  | O => Fuel
  | S n => x ← aget t k; if x =? 0 then Ret k else find_nul n t (S k)
  end.

(** [strcpy(d, s)], from [i] on. *)
Fixpoint strcpy (n : nat) (d s : list Z) (i : nat) : res (list Z) :=
  match n with
  | O => Fuel
  | S n => x ← aget s i; d ← aset d i x; if x =? 0 then Ret d else strcpy n d s (S i)
  end.

(** An edge with the character [word] adds its destination to the set [t] of [k]
    names. *)
Definition add_dest (g : graph) (word : Z) (tk : list Z * nat) (e : edge) : res (list Z * nat) :=
  let '(t, k) := tk in
  if cost e =? word then
    v ← zget (NodeTable g) (dest e);
    check ← CheckChar t (data v);
    if (check : bool) then t ← aset t k (data v); Ret (t, S k) else Ret (t, k)
  else Ret (t, k).

Definition Smove (g : graph) (t1 t2 : list Z) (word : Z) : res (list Z) :=
  k ← find_nul (S (length t2)) t2 0;
  '(t2, k) ← for_ 0 MAX (fun i tk =>
    for_ 0 (NumVertex g) (fun j tk =>
      v ← oget (NodeTable g !! j);
      x ← aget t1 i;
      if data v =? x then for_edges g j (add_dest g word) tk else Ret tk) tk) (t2, k);
  BubbleSort t2 k.

Fixpoint close_from (n : nat) (g : graph) (i : nat) (tk : list Z * nat) : res (list Z * nat) :=
  match n with
  | O => Fuel
  | S n =>
      x ← aget tk.1 i;
      if x =? 0 then Ret tk else
      tk ← for_ 0 (NumVertex g) (fun j tk =>
        v ← oget (NodeTable g !! j);
        x ← aget tk.1 i;
        if data v =? x then for_edges g j (add_dest g EPS) tk else Ret tk) tk;
      close_from n g (S i) tk
  end.

Definition E_Closure (g : graph) (t : list Z) : res (list Z) :=
  k ← find_nul (S (length t)) t 0;
  '(t, k) ← close_from (S (length t)) g 0 (t, k);
  BubbleSort t k.

(** ** The construction *)

(** [scanf("%c", &c)]: at the end of the input [c] keeps its value. *)
Definition scan_char (c : Z) (input : list Z) : Z * list Z :=
  match input with [] => (c, []) | x :: input => (x, input) end.

(** The body of the loop: the set that row [j] reaches by the character of column [i]. *)
Definition fill_cell (g : graph) (j i : nat) (s : matrix * list Z) : res (matrix * list Z) :=
  let '(TM, input) := s in
  q ← oget (TM !! i);
  from ← node TM 0 j;
  cell ← node TM i j;
  t ← Smove g (ch from) (ch cell) (transword q);
  t ← E_Closure g t;
  TM ← set_ch TM i j t;
  x ← aget t 0;
  if x =? 0 then Ret (TM, input) else
  check ← CheckTable TM t;
  if (check =? 1)%nat then
    let '(c, input) := scan_char (newname cell) input in
    TM ← set_newname TM i j c;
    n ← rows TM;
    new ← node TM 0 n;
    d ← strcpy (S (length t)) (ch new) t 0;
    TM ← set_ch TM 0 n d;
    TM ← set_newname TM 0 n c;
    TM ← add_row TM;
    Ret (TM, input)
  else
    row ← node TM 0 check;
    TM ← set_newname TM i j (newname row);
    Ret (TM, input).

Fixpoint fill_rows (fuel : nat) (g : graph) (j : nat) (s : matrix * list Z) : res (matrix * list Z) :=
  n ← rows s.1;
  if (n <=? j)%nat then Ret s else
  match fuel with
  | O => Fuel
  | S fuel => s ← for_ 1 (transnum s.1) (fill_cell g j) s; fill_rows fuel g (S j) s
  end.

Definition NFA_to_DFA (g : graph) (TM : matrix) (input : list Z) : res (matrix * list Z) :=
  v ← oget (NodeTable g !! 0%nat);
  first ← node TM 0 0;
  t ← aset (ch first) 0 (data v);
  t ← for_ 1 (transnum TM) (fun _ t => E_Closure g t) t;
  TM ← set_ch TM 0 0 t;
  let '(c, input) := scan_char (newname first) input in
  TM ← set_newname TM 0 0 c;
  TM ← add_row TM;
  fill_rows MAX g 0 (TM, input).

(** The transitions that are printed, from row [j] on. *)
Fixpoint show_rows (n : nat) (TM : matrix) (j : nat) (out : list (Z * Z * Z)) : res (list (Z * Z * Z)) :=
  match n with
  | O => Fuel
  | S n =>
      row ← node TM 0 j;
      if newname row =? 0 then Ret out else
      out ← for_ 1 (transnum TM) (fun i out =>
        q ← oget (TM !! i);
        t ← node TM i j;
        Ret (if newname t =? 0 then out else out ++ [(newname row, transword q, newname t)])) out;
      show_rows n TM (S j) out
  end.

Definition Show_DFA (TM : matrix) : res (list (Z * Z * Z)) := show_rows (S MAX) TM 0 [].

(** What one cell shows: its name and the names of its states. *)
Definition show_cell (t : tablenode) : res (Z * list Z) :=
  n ← find_nul (S (length (ch t))) (ch t) 0; Ret (newname t, take n (ch t)).

Definition Show_TranMatrix (TM : matrix) : res (list (Z * list Z)) :=
  for_ 0 MAX (fun k out =>
    for_ 0 (S (transnum TM)) (fun j out =>
      t ← node TM j k; c ← show_cell t; Ret (out ++ [c])) out) [].

(** The program, with what it prints last but one, the transitions, and the edges that
    are left. *)
Definition main (junk : list vertex) (names : list Z) (arrows : list (Z * Z * Z)) (words input : list Z) :
  res (list (Z * Z * Z) * heap edge) :=
  g ← Construct_Graph junk names arrows;
  let TM := Init_Matrix words in
  _ ← Show_Graph g;
  _ ← Show_TranMatrix TM;
  '(TM, _) ← NFA_to_DFA g TM input;
  _ ← Show_TranMatrix TM;
  out ← Show_DFA TM;
  g ← Destruct_Graph g;
  _ ← Show_Graph g;
  Ret (out, edges g).
