(* ===== verification/Nfa2dfaSets.v ===== *)
(** The sets of names of nfa2dfa.c: the arrays that represent them, bubble sort, and what
    [Smove] and [E_Closure] compute on a graph that is known through its vertices and
    edges. *)
From stdpp Require Import sorting.
From S2P Require Import Prelude Arrays Heap Nfa2dfa.

(** ** Arrays of names *)

Definition arr (l : list Z) : list Z := l ++ replicate (MAX - length l) 0.

Lemma arr_length l : (length l <= MAX)%nat -> length (arr l) = MAX.
Proof. intros. unfold arr. rewrite length_app, length_replicate. lia. Qed.

Lemma arr_get l i x : l !! i = Some x -> aget (arr l) i = Ret x.
Proof. intros H. unfold aget, arr. by rewrite lookup_app_l, H by by eapply lookup_lt_Some. Qed.

Lemma arr_end l i : (length l <= i < MAX)%nat -> aget (arr l) i = Ret 0.
Proof. intros H. unfold aget, arr. by rewrite lookup_app_r, lookup_replicate_2 by lia. Qed.

Lemma arr_snoc l x : (length l < MAX)%nat -> aset (arr l) (length l) x = Ret (arr (l ++ [x])).
Proof.
  intros H. rewrite aset_lt by (rewrite arr_length; lia). f_equal. unfold arr.
  rewrite insert_app_r_alt, Nat.sub_diag, length_app by lia. rewrite <-app_assoc. f_equal.
  replace (MAX - length l)%nat with (S (MAX - (length l + 1)))%nat by lia. done.
Qed.

(** The end of the string. *)
Lemma find_nul_spec l pre r n : 0 ∉ l -> (length l < n)%nat ->
  find_nul n (pre ++ l ++ 0 :: r) (length pre) = Ret (length pre + length l)%nat.
Proof.
  revert pre n. induction l as [|x l IH]; intros pre [|n] H0 Hn; cbn [length] in Hn; [lia| |lia|]; cbn [find_nul app];
    unfold aget; rewrite list_lookup_middle by done; bind.
  - f_equal. cbn. lia.
  - apply not_elem_of_cons in H0 as [Hx H0]. rewrite (proj2 (Z.eqb_neq _ _)) by done.
    specialize (IH (pre ++ [x]) n H0 ltac:(lia)). rewrite <-app_assoc, length_app in IH. cbn [app length] in IH.
    rewrite Nat.add_1_r in IH. rewrite IH. f_equal. cbn. lia.
Qed.

Lemma arr_nul l : (length l < MAX)%nat -> exists r, arr l = l ++ 0 :: r.
Proof.
  intros H. unfold arr. replace (MAX - length l)%nat with (S (MAX - S (length l)))%nat by lia. by eexists.
Qed.

Lemma find_nul_arr l : 0 ∉ l -> (length l < MAX)%nat -> find_nul (S (length (arr l))) (arr l) 0 = Ret (length l).
Proof.
  intros H0 Hl. rewrite arr_length by lia. destruct (arr_nul l Hl) as [r ->]. apply (find_nul_spec l [] r); [done|lia].
Qed.

Lemma check_from_spec n t i x : (i + n = length t)%nat -> check_from n t i x = Ret (bool_decide (x ∉ drop i t)).
Proof.
  revert i. induction n as [|n IH]; intros i Hn; cbn [check_from].
  - rewrite drop_ge by lia. by rewrite bool_decide_true by apply not_elem_of_nil.
  - destruct (aget_lt t i) as (y & -> & Hy); [lia|]. bind. rewrite (drop_S _ _ _ Hy). destruct (Z.eqb_spec y x) as [->|Hne].
    + rewrite bool_decide_false; [done|]. intros H. destruct H. left.
    + rewrite IH by lia. f_equal. apply bool_decide_ext. rewrite not_elem_of_cons. naive_solver.
Qed.

Lemma CheckChar_arr l x : (length l <= MAX)%nat -> x <> 0 -> CheckChar (arr l) x = Ret (bool_decide (x ∉ l)).
Proof.
  intros Hl Hx. unfold CheckChar. rewrite check_from_spec by (by rewrite arr_length). f_equal. apply bool_decide_ext.
  rewrite drop_0. unfold arr. rewrite not_elem_of_app. split; [by intros []|]. intros H. split; [done|].
  by intros [? ?]%elem_of_replicate.
Qed.

(** ** Bubble sort *)

(** One pass, with the element that is carried. *)
Fixpoint pass (x : Z) (l : list Z) : list Z :=
  match l with [] => [x] | y :: l => if y <? x then y :: pass x l else x :: pass y l end.

Lemma pass_perm x l : pass x l ≡ₚ x :: l.
Proof.
  revert x. induction l as [|y l IH]; intros x; cbn [pass]; [done|]. case (y <? x); rewrite IH; [|done].
  apply perm_swap.
Qed.

Lemma pass_last x l : exists u m, pass x l = u ++ [m] /\ forall y, y ∈ x :: l -> y <= m.
Proof.
  revert x. induction l as [|y l IH]; intros x; cbn [pass].
  - exists [], x. split; [done|]. intros y ->%list_elem_of_singleton. lia.
  - destruct (Z.ltb_spec y x).
    + destruct (IH x) as (u & m & -> & Hm). exists (y :: u), m. split; [done|]. intros z Hz.
      pose proof (Hm x ltac:(left)). apply elem_of_cons in Hz as [->|[->|Hz]%elem_of_cons]; [done|lia|]. apply Hm. by right.
    + destruct (IH y) as (u & m & -> & Hm). exists (x :: u), m. split; [done|]. intros z Hz.
      pose proof (Hm y ltac:(left)). apply elem_of_cons in Hz as [->|Hz]; [lia|]. by apply Hm.
Qed.

Lemma aget_mid pre (x : Z) r : aget (pre ++ x :: r) (length pre) = Ret x.
Proof. unfold aget. by rewrite list_lookup_middle. Qed.

Lemma aget_mid1 pre (x y : Z) r : aget (pre ++ x :: y :: r) (length pre + 1) = Ret y.
Proof.
  pose proof (aget_mid (pre ++ [x]) y r) as H. rewrite <-app_assoc, length_app in H. exact H.
Qed.

Lemma bubble_pass l pre x v :
  for_ (length pre) (length l) (fun j a =>
    x ← aget a j; y ← aget a (j + 1);
    if y <? x then a ← aset a (j + 1) x; aset a j y else Ret a) (pre ++ x :: l ++ v) = Ret (pre ++ pass x l ++ v).
Proof.
  revert pre x. induction l as [|y l IH]; intros pre x; cbn [length for_ pass]; [done|].
  cbn [app]. rewrite aget_mid. bind. rewrite aget_mid1. bind.
  assert (Hs : forall z w : Z, S (length pre) = length (pre ++ [z])) by (intros; rewrite length_app; cbn; lia).
  destruct (y <? x).
  - rewrite aset_lt by (rewrite length_app; cbn; lia). bind. rewrite aset_lt by (rewrite length_insert, length_app; cbn; lia). bind.
    rewrite (Hs y 0). specialize (IH (pre ++ [y]) x). rewrite <-!app_assoc in IH. cbn [app] in IH. cbn [app].
    rewrite <-IH. f_equal. rewrite insert_app_r_alt by lia. rewrite insert_app_r_alt by lia.
    replace (length pre + 1 - length pre)%nat with 1%nat by lia. by rewrite Nat.sub_diag.
  - bind. rewrite (Hs x 0). specialize (IH (pre ++ [x]) y). rewrite <-!app_assoc in IH. cbn [app] in IH. cbn [app]. by rewrite <-IH.
Qed.

Lemma BubbleSort_spec l rest : exists s, BubbleSort (l ++ rest) (length l) = Ret (s ++ rest) /\
  s ≡ₚ l /\ StronglySorted Z.le s.
Proof.
  unfold BubbleSort. set (len := length l).
  assert (H : forall n u s, n = length u -> (length u + length s = len)%nat -> StronglySorted Z.le s ->
    (forall x y, x ∈ u -> y ∈ s -> x <= y) ->
    exists s', for_ (length s) n (fun i a => for_ 0 (len - i - 1) (fun j a =>
      x ← aget a j; y ← aget a (j + 1);
      if y <? x then a ← aset a (j + 1) x; aset a j y else Ret a) a) (u ++ s ++ rest) = Ret (s' ++ rest) /\
      s' ≡ₚ u ++ s /\ StronglySorted Z.le s').
  { induction n as [|n IH]; intros u s Hn Hlen Hs Hle; cbn [for_].
    - destruct u; [|done]. by exists s.
    - destruct u as [|x u]; [done|]. cbn in Hn, Hlen. replace (len - length s - 1)%nat with (length u) by lia.
      pose proof (bubble_pass u [] x (s ++ rest)) as Hp. cbn [length app] in Hp. cbn [app]. rewrite Hp. bind.
      destruct (pass_last x u) as (u' & m & E & Hm). pose proof (pass_perm x u) as Hperm. rewrite E in Hperm |- *.
      rewrite <-!app_assoc. cbn [app]. assert (Hl : length u' = length u).
      { apply Permutation_length in Hperm. rewrite length_app in Hperm. cbn in Hperm. lia. }
      destruct (IH u' (m :: s)) as (s' & E' & Hp' & Hs'); [lia|cbn; lia|..].
      + apply SSorted_cons; [done|]. apply Forall_forall. intros y Hy. apply Hle; [|done].
        rewrite <-Hperm. apply elem_of_app. right. by left.
      + intros y z Hy Hz. assert (Hyu : y ∈ x :: u) by (rewrite <-Hperm; apply elem_of_app; by left).
        apply elem_of_cons in Hz as [->|Hz]; [by apply Hm|by apply Hle].
      + exists s'. split; [exact E'|]. split; [|done]. rewrite Hp'. change (m :: s) with ([m] ++ s). by rewrite app_assoc, Hperm. }
  destruct (H len l []) as (s' & E & Hp & Hs); [done|cbn; lia|constructor|by intros x y _ Hy%elem_of_nil|].
  exists s'. split; [exact E|]. split; [|done]. by rewrite Hp, app_nil_r.
Qed.

Lemma sort_arr l : exists s, BubbleSort (arr l) (length l) = Ret (arr s) /\ s ≡ₚ l /\ StronglySorted Z.le s.
Proof.
  destruct (BubbleSort_spec l (replicate (MAX - length l) 0)) as (s & E & Hp & Hs). exists s. split; [|done].
  unfold arr. by rewrite (Permutation_length Hp).
Qed.

(** ** Moving and closing on a graph *)

(** Invariant rule for [each]. *)
Lemma each_inv {A B} (P : list B -> A -> Prop) (f : A -> B -> res A) l a : P [] a ->
  (forall pre x post a, l = pre ++ x :: post -> P pre a -> exists a', f a x = Ret a' /\ P (pre ++ [x]) a') ->
  exists a', each f l a = Ret a' /\ P l a'.
Proof.
  intros H0 Hf. assert (H : forall todo pre a, l = pre ++ todo -> P pre a -> exists a', each f todo a = Ret a' /\ P l a').
  { induction todo as [|x todo IH]; intros pre b -> Hb; cbn [each]; [exists b; by rewrite app_nil_r in *|].
    destruct (Hf pre x todo b eq_refl Hb) as (b' & -> & Hb'). bind. apply (IH (pre ++ [x])); [by rewrite <-app_assoc|done]. }
  by apply (H l []).
Qed.

(** A graph seen as the list of its vertices, with the edges of each in the order of the
    linked list; an edge leads to a vertex of the table. *)
Record viewed (g : graph) (Vs : list (Z * list edge)) : Prop := Viewed {
  vw_length : length Vs = NumVertex g;
  vw_vertex : forall j d L, Vs !! j = Some (d, L) -> exists p, NodeTable g !! j = Some (Vertex d p) /\
    forall A (body : A -> edge -> res A) (a : A), for_edges g j body a = each body L a;
  vw_dest : forall j d L e, Vs !! j = Some (d, L) -> e ∈ L -> 0 <= dest e /\ is_Some (Vs !! Z.to_nat (dest e))
}.

(** An edge from a vertex named [x] to one named [y]. *)
Definition arrow (Vs : list (Z * list edge)) (x c y : Z) : Prop :=
  exists j L e L', Vs !! j = Some (x, L) /\ e ∈ L /\ cost e = c /\ Vs !! Z.to_nat (dest e) = Some (y, L').

Section sets.
Context (g : graph) (Vs : list (Z * list edge)) (Hview : viewed g Vs).
Context (Hnonzero : 0 ∉ Vs.*1) (Hfew : (length (remove_dups Vs.*1) < MAX)%nat).

(** A set of names. *)
Definition names_ok (l : list Z) : Prop := NoDup l /\ l ⊆ Vs.*1.

Lemma names_few l : names_ok l -> (length l < MAX)%nat.
Proof.
  intros [Hn Hl]. eapply Nat.le_lt_trans; [|exact Hfew]. apply submseteq_length, NoDup_submseteq; [done|].
  intros x Hx. by apply elem_of_remove_dups, Hl.
Qed.

Lemma names_zero l : names_ok l -> 0 ∉ l.
Proof. intros [_ Hl] H. by apply Hnonzero, Hl. Qed.

(** A set with the position of its end, as the loops carry it. *)
Definition of_set (l : list Z) : list Z * nat := (arr l, length l).

(** [l'] is [l] with the names in [P] added at its end. *)
Definition grows (l l' : list Z) (P : Z -> Prop) : Prop :=
  names_ok l' /\ l `prefix_of` l' /\ forall y, y ∈ l' <-> y ∈ l \/ P y.

Lemma grows_nothing l (P : Z -> Prop) : names_ok l -> (forall y, P y -> y ∈ l) -> grows l l P.
Proof. intros Hl HP. split; [done|]. split; [done|]. naive_solver. Qed.

Lemma grows_ext l l' (P Q : Z -> Prop) : (forall y, P y <-> Q y) -> grows l l' P -> grows l l' Q.
Proof. intros HPQ (H1 & H2 & H3). split; [done|]. split; [done|]. intros y. by rewrite H3, HPQ. Qed.

Lemma grows_trans l1 l2 l3 P Q : grows l1 l2 P -> grows l2 l3 Q -> grows l1 l3 (fun y => P y \/ Q y).
Proof.
  intros (_ & H2 & H3) (K1 & K2 & K3). split; [done|]. split; [by etrans|]. intros y. rewrite K3, H3. naive_solver.
Qed.

Lemma add_dest_spec c l j d L e : names_ok l -> Vs !! j = Some (d, L) -> e ∈ L ->
  exists l', add_dest g c (of_set l) e = Ret (of_set l') /\
    grows l l' (fun y => cost e = c /\ exists L', Vs !! Z.to_nat (dest e) = Some (y, L')).
Proof.
  intros Hl Hj He. destruct (vw_dest _ _ Hview _ _ _ _ Hj He) as [H0 [[y L'] Hy]].
  destruct (vw_vertex _ _ Hview _ _ _ Hy) as (p & Hp & _). pose proof (names_few _ Hl) as Hlen.
  assert (Hyn : y ∈ Vs.*1) by (apply list_elem_of_lookup_2 in Hy; apply list_elem_of_fmap; by exists (y, L')).
  unfold add_dest, of_set. destruct (Z.eqb_spec (cost e) c) as [Hc|Hc].
  2: { exists l. split; [done|]. apply grows_nothing; [done|]. intros z [? _]. done. }
  unfold zget. rewrite (proj2 (Z.leb_le _ _) H0), Hp. bind. cbn [data].
  rewrite CheckChar_arr by (try lia; by intros ->). bind.
  case_bool_decide as Hin.
  - rewrite arr_snoc by lia. bind. exists (l ++ [y]). split; [by rewrite length_app, Nat.add_1_r|].
    split; [split|split].
    + apply NoDup_app. split; [apply Hl|]. split; [|apply NoDup_singleton]. intros z Hz ->%list_elem_of_singleton. done.
    + intros z [Hz| ->%list_elem_of_singleton]%elem_of_app; [by apply Hl|done].
    + by eexists.
    + intros z. rewrite elem_of_app, list_elem_of_singleton. split; [intros [| ->]; [by left|right; eauto]|].
      intros [|[_ [L'' Hz]]]; [by left|]. right. congruence.
  - exists l. split; [done|]. apply grows_nothing; [done|]. intros z [_ [L'' Hz]].
    by assert (z = y) as -> by congruence.
Qed.

(** The edges of all vertices named [x]; [get] is how the loop reads [x]. *)
Lemma visit_spec c x (get : list Z * nat -> res Z) l : names_ok l ->
  (forall l', l `prefix_of` l' -> names_ok l' -> get (of_set l') = Ret x) ->
  exists l', for_ 0 (NumVertex g) (fun j tk =>
      v ← oget (NodeTable g !! j); x ← get tk;
      if data v =? x then for_edges g j (add_dest g c) tk else Ret tk) (of_set l) = Ret (of_set l') /\
    grows l l' (fun y => arrow Vs x c y).
Proof.
  intros Hl Hget.
  set (P := fun (j : nat) tk => exists l', tk = of_set l' /\ grows l l' (fun y =>
    exists i L e L', (i < j)%nat /\ Vs !! i = Some (x, L) /\ e ∈ L /\ cost e = c /\ Vs !! Z.to_nat (dest e) = Some (y, L'))).
  edestruct (for_inv P) as (tk & -> & l' & -> & Hg).
  - exists l. split; [done|]. apply grows_nothing; [done|]. intros y (i & _ & _ & _ & Hi & _). lia.
  - intros j tk Hj (l1 & -> & Hg). destruct (lookup_lt_is_Some_2 Vs j) as [[d L] HVj]; [rewrite (vw_length _ _ Hview); lia|].
    destruct (vw_vertex _ _ Hview _ _ _ HVj) as (p & -> & Hfor). bind. cbn [data].
    rewrite (Hget l1) by apply Hg. bind. destruct (Z.eqb_spec d x) as [->|Hne].
    + rewrite Hfor. destruct (each_inv (fun pre tk => exists l2, tk = of_set l2 /\
        grows l1 l2 (fun y => exists e L', e ∈ pre /\ cost e = c /\ Vs !! Z.to_nat (dest e) = Some (y, L')))
        (add_dest g c) L (of_set l1)) as (tk & -> & l2 & -> & Hg2).
      * exists l1. split; [done|]. apply grows_nothing; [apply Hg|]. by intros y (e & _ & ?%elem_of_nil & _).
      * intros pre e post tk HL (l2 & -> & Hg2). destruct (add_dest_spec c l2 j x L e) as (l3 & -> & Hg3); [apply Hg2|done|by rewrite HL; apply elem_of_app; right; left|].
        exists (of_set l3). split; [done|]. exists l3. split; [done|]. eapply grows_ext; [|by eapply grows_trans].
        intros y. cbn. setoid_rewrite elem_of_app. setoid_rewrite list_elem_of_singleton. naive_solver.
      * exists (of_set l2). split; [done|]. exists l2. split; [done|]. eapply grows_ext; [|by eapply grows_trans].
        intros y. cbn. split.
        -- intros [(i & L0 & e & L' & Hi & H)|(e & L' & H)]; [exists i, L0, e, L'|exists j, L, e, L']; (split; [lia|tauto]).
        -- intros (i & L0 & e & L' & Hi & HVi & H). destruct (decide (i = j)) as [->|];
             [right; exists e, L'; replace L with L0 by congruence; tauto|left; exists i, L0, e, L'; split; [lia|tauto]].
    + exists (of_set l1). split; [done|]. exists l1. split; [done|]. eapply grows_ext; [|exact Hg]. intros y. cbn. split.
      * intros (i & L0 & e & L' & Hi & H). exists i, L0, e, L'. split; [lia|tauto].
      * intros (i & L0 & e & L' & Hi & HVi & H). exists i, L0, e, L'. destruct (decide (i = j)) as [->|]; [congruence|].
        split; [lia|tauto].
  - exists l'. split; [done|]. eapply grows_ext; [|exact Hg]. intros y. cbn. unfold arrow. split.
    + intros (i & L & e & L' & _ & H). by exists i, L, e, L'.
    + intros (i & L & e & L' & H1 & H). exists i, L, e, L'. split; [|tauto]. apply lookup_lt_Some in H1.
      by rewrite <-(vw_length _ _ Hview).
Qed.

(** A set in order: the form in which sets are stored. *)
Definition sorted_set (l : list Z) : Prop := names_ok l /\ StronglySorted Z.le l.

Lemma sorted_unique l l' : sorted_set l -> sorted_set l' -> (forall y, y ∈ l <-> y ∈ l') -> l = l'.
Proof.
  intros [[H1 _] Hs] [[H2 _] Hs'] Heq. apply (StronglySorted_unique Z.le); [done|done|]. by apply NoDup_Permutation.
Qed.

Lemma sort_set l : names_ok l -> exists s, BubbleSort (of_set l).1 (of_set l).2 = Ret (arr s) /\ sorted_set s /\
  forall y, y ∈ s <-> y ∈ l.
Proof.
  intros [Hn Hl]. destruct (sort_arr l) as (s & E & Hp & Hs). exists s. split; [exact E|].
  split; [|intros y; by rewrite Hp]. split; [|done]. split; [by rewrite Hp|]. intros y. rewrite Hp. apply Hl.
Qed.

Lemma empty_ok : names_ok [].
Proof. split; [constructor|]. by intros y ?%elem_of_nil. Qed.

Lemma arrow_from_zero c y : ~ arrow Vs 0 c y.
Proof.
  intros (j & L & e & L' & Hj & _). destruct Hnonzero. apply list_elem_of_fmap. exists (0, L).
  split; [done|]. by eapply list_elem_of_lookup_2.
Qed.

Lemma Smove_spec l1 c : names_ok l1 ->
  exists s, Smove g (arr l1) (arr []) c = Ret (arr s) /\ sorted_set s /\
    forall y, y ∈ s <-> exists x, x ∈ l1 /\ arrow Vs x c y.
Proof.
  intros Hl1. pose proof (names_few _ Hl1) as Hlen. unfold Smove.
  rewrite find_nul_arr by (cbn; try lia; apply not_elem_of_nil). bind. change (arr [], length []) with (of_set []).
  edestruct (for_inv (fun i tk => exists l, tk = of_set l /\
    grows [] l (fun y => exists p x, (p < i)%nat /\ l1 !! p = Some x /\ arrow Vs x c y))) as (tk & -> & l & -> & Hg).
  - exists []. split; [done|]. apply grows_nothing; [apply empty_ok|]. intros y (p & _ & Hp & _). lia.
  - intros i tk Hi (l & -> & Hg).
    assert (Hx : exists x, aget (arr l1) i = Ret x /\ (l1 !! i = Some x \/ x = 0 /\ l1 !! i = None)).
    { destruct (l1 !! i) as [x|] eqn:Ex; [exists x; split; [by apply arr_get|by left]|]. exists 0.
      split; [|by right]. apply arr_end. apply lookup_ge_None in Ex. lia. }
    destruct Hx as (x & Hx & Hcase). destruct (visit_spec c x (fun _ => aget (arr l1) i) l) as (l2 & -> & Hg2); [apply Hg|done|].
    exists (of_set l2). split; [done|]. exists l2. split; [done|]. eapply grows_ext; [|by eapply grows_trans].
    intros y. cbn. split.
    + intros [(p & z & Hp & H)|Ha]; [exists p, z; split; [lia|tauto]|]. destruct Hcase as [Hix|[-> _]].
      * exists i, x. split; [lia|done].
      * by apply arrow_from_zero in Ha.
    + intros (p & z & Hp & Hpz & Ha). destruct (decide (p = i)) as [->|].
      * right. destruct Hcase as [|[_ ?]]; congruence.
      * left. exists p, z. split; [lia|done].
  - bind. destruct (sort_set l) as (s & E & Hs & Hin); [apply Hg|]. exists s. split; [exact E|]. split; [done|].
    intros y. rewrite Hin. destruct Hg as (_ & _ & ->). split.
    + intros [?%elem_of_nil|(p & x & _ & Hp & Ha)]; [done|]. exists x. split; [by eapply list_elem_of_lookup_2|done].
    + intros (x & [p Hp]%list_elem_of_lookup & Ha). right. exists p, x. split; [|done]. apply lookup_lt_Some in Hp. cbn. lia.
Qed.

Lemma close_from_spec l0 n : forall i l, (MAX < n + i)%nat -> (i <= length l)%nat -> names_ok l -> l0 `prefix_of` l ->
  (forall y, y ∈ l -> exists x, x ∈ l0 /\ rtc (fun x y => arrow Vs x EPS y) x y) ->
  (forall p x y, (p < i)%nat -> l !! p = Some x -> arrow Vs x EPS y -> y ∈ l) ->
  exists l', close_from n g i (of_set l) = Ret (of_set l') /\ names_ok l' /\
    forall y, y ∈ l' <-> exists x, x ∈ l0 /\ rtc (fun x y => arrow Vs x EPS y) x y.
Proof.
  induction n as [|n IH]; intros i l Hn Hi Hl Hpre Hsound Hdone; pose proof (names_few _ Hl) as Hlen; [lia|].
  cbn [close_from fst]. change (of_set l).1 with (arr l). destruct (decide (i = length l)) as [->|Hne].
  - rewrite arr_end by lia. bind. exists l. split; [done|]. split; [done|]. intros y. split; [apply Hsound|].
    intros (x & Hx & Hr). assert (Hxl : x ∈ l) by (by eapply elem_of_prefix). clear Hx. induction Hr as [|x z y Ha _ IHr]; [done|].
    apply IHr. apply list_elem_of_lookup in Hxl as [p Hp]. eapply Hdone; [|exact Hp|exact Ha]. by eapply lookup_lt_Some.
  - destruct (lookup_lt_is_Some_2 l i) as [x Hx]; [lia|]. rewrite (arr_get _ _ _ Hx). bind.
    rewrite (proj2 (Z.eqb_neq _ _)) by (intros ->; apply (names_zero _ Hl); by eapply list_elem_of_lookup_2).
    destruct (visit_spec EPS x (fun tk => aget tk.1 i) l Hl) as (l1 & -> & Hl1 & Hpre1 & Hin1).
    { intros l' Hp' _. apply arr_get. by eapply prefix_lookup_Some. }
    bind. apply IH; [lia|apply prefix_length in Hpre1; lia|done|by etrans|..].
    + intros y [Hy|Ha]%Hin1; [by apply Hsound|]. destruct (Hsound x) as (z & Hz & Hr); [by eapply list_elem_of_lookup_2|].
      exists z. split; [done|]. by eapply rtc_r.
    + intros p z y Hp Hpz Ha. apply Hin1. destruct (decide (p = i)) as [->|].
      * right. apply (prefix_lookup_Some _ _ _ _ Hx) in Hpre1. congruence.
      * left. assert (Hlz : l !! p = Some z).
        { destruct (lookup_lt_is_Some_2 l p) as [w Hw]; [lia|]. pose proof (prefix_lookup_Some _ _ _ _ Hw Hpre1). congruence. }
        eapply Hdone; [|exact Hlz|exact Ha]. lia.
Qed.

Lemma E_Closure_spec l : names_ok l ->
  exists s, E_Closure g (arr l) = Ret (arr s) /\ sorted_set s /\
    forall y, y ∈ s <-> exists x, x ∈ l /\ rtc (fun x y => arrow Vs x EPS y) x y.
Proof.
  intros Hl. pose proof (names_few _ Hl) as Hlen. unfold E_Closure. rewrite find_nul_arr by (try lia; by apply names_zero). bind.
  change (arr l, length l) with (of_set l).
  destruct (close_from_spec l (S (length (arr l))) 0 l) as (l' & -> & Hl' & Hin); [rewrite arr_length; lia|lia|done|done| |lia|].
  { intros y Hy. by exists y. }
  bind. destruct (sort_set l' Hl') as (s & E & Hs & Hins). exists s. split; [exact E|]. split; [done|].
  intros y. by rewrite Hins.
Qed.
End sets.
