(* ===== verification/Nfa2dfaGraph.v ===== *)
(** The graph of nfa2dfa.c in memory: a table of vertices, each with a linked list of
    edges.  [Construct_Graph] builds the graph of the arrows that are read, and
    [Destruct_Graph] frees every edge. *)
From S2P Require Import Prelude Arrays Heap Nfa2dfa Nfa2dfaSets.

(** The edges from [p] on, with their addresses. *)
Fixpoint adj_list (h : heap edge) (p : pointer) (L : list (nat * edge)) : Prop :=
  match L with
  | [] => p = None
  | (a, e) :: L => p = Some a /\ at_addr h a e /\ adj_list h (link e) L
  end.

Lemma adj_mono h h' L : forall p, (forall a e, a ∈ L.*1 -> at_addr h a e -> at_addr h' a e) -> adj_list h p L -> adj_list h' p L.
Proof.
  induction L as [|[a e] L IH]; intros p Hm; cbn [adj_list]; [done|]. intros (-> & Ha & HL). split; [done|].
  split; [apply Hm; [by left|done]|]. apply IH; [|done]. intros b f Hb. apply Hm. by right.
Qed.

Lemma adj_in h L : forall p a, adj_list h p L -> a ∈ L.*1 -> exists e, at_addr h a e.
Proof.
  induction L as [|[b e] L IH]; intros p a; cbn [adj_list fmap list_fmap fst]; [by intros _ ?%elem_of_nil|].
  intros (-> & Hb & HL) [->|Ha]%elem_of_cons; [by exists e|by eapply IH].
Qed.

Lemma scan_spec {A} h (body : A -> edge -> res A) L : forall n p a, adj_list h p L -> (length L <= n)%nat ->
  scan_edges n h p body a = each body L.*2 a.
Proof.
  induction L as [|[b e] L IH]; intros [|n] p a; cbn [adj_list length scan_edges each fmap list_fmap snd]; try lia;
    [by intros -> _; rewrite bool_decide_true|by intros -> _; rewrite bool_decide_true|].
  intros (-> & Hb & HL) Hn. rewrite bool_decide_false by done. rewrite (load_ok _ _ _ Hb). bind.
  destruct (body a e) as [a'| |]; bind; [|done..]. apply IH; [done|lia].
Qed.

(** ** The invariant of a graph *)

Definition addresses (Vs : list (Z * list (nat * edge))) : list nat := concat ((fun v => v.2.*1) <$> Vs).
Definition strip (Vs : list (Z * list (nat * edge))) : list (Z * list edge) := (fun v => (v.1, v.2.*2)) <$> Vs.

Record graph_inv (g : graph) (Vs : list (Z * list (nat * edge))) : Prop := GraphInv {
  gi_length : length Vs = NumVertex g;
  gi_room : length (NodeTable g) = MAX;
  gi_fits : (length Vs <= MAX)%nat;
  gi_vertex : forall j d L, Vs !! j = Some (d, L) -> exists p, NodeTable g !! j = Some (Vertex d p) /\ adj_list (edges g) p L;
  gi_nodup : NoDup (addresses Vs);
  gi_owned : forall a e, at_addr (edges g) a e -> a ∈ addresses Vs;
  gi_dest : forall j d L a e, Vs !! j = Some (d, L) -> (a, e) ∈ L -> 0 <= dest e < Z.of_nat (length Vs)
}.

Lemma addresses_split pre d L post : addresses (pre ++ (d, L) :: post) = addresses pre ++ L.*1 ++ addresses post.
Proof. unfold addresses. by rewrite fmap_app, concat_app. Qed.

Lemma addresses_in Vs j d L a : Vs !! j = Some (d, L) -> a ∈ L.*1 -> a ∈ addresses Vs.
Proof.
  intros Hj Ha. rewrite <-(take_drop_middle _ _ _ Hj), addresses_split. apply elem_of_app. right. apply elem_of_app. by left.
Qed.

Lemma addresses_nodup Vs j d L : Vs !! j = Some (d, L) -> NoDup (addresses Vs) -> NoDup L.*1.
Proof.
  intros Hj. rewrite <-(take_drop_middle _ _ _ Hj), addresses_split. intros [_ [_ H]]%NoDup_app. by apply NoDup_app in H as [H _].
Qed.

Lemma addresses_cons Vs k d L x : Vs !! k = Some (d, L) -> addresses (<[k := (d, x :: L)]> Vs) ≡ₚ x.1 :: addresses Vs.
Proof.
  intros Hk. rewrite <-(take_drop_middle Vs k _ Hk) at 2. rewrite insert_take_drop by by eapply lookup_lt_Some.
  rewrite !addresses_split, fmap_cons. symmetry. apply Permutation_middle.
Qed.

Lemma graph_fuel g Vs j d L : graph_inv g Vs -> Vs !! j = Some (d, L) -> (length L <= length (edges g))%nat.
Proof.
  intros HG Hj. pose proof (addresses_nodup _ _ _ _ Hj (gi_nodup _ _ HG)) as Hn.
  destruct (gi_vertex _ _ HG _ _ _ Hj) as (p & _ & Hp).
  rewrite <-(length_fmap fst L), <-(length_seq (length (edges g)) 0).
  apply submseteq_length, NoDup_submseteq; [done|]. intros a Ha. destruct (adj_in _ _ _ _ Hp Ha) as [e He%at_addr_lt].
  apply elem_of_seq. lia.
Qed.

Lemma strip_lookup Vs j d K : strip Vs !! j = Some (d, K) -> exists L, Vs !! j = Some (d, L) /\ K = L.*2.
Proof. unfold strip. rewrite list_lookup_fmap. intros ([d' L] & -> & [= -> ->])%fmap_Some. eauto. Qed.

Lemma strip_names Vs : (strip Vs).*1 = Vs.*1.
Proof. unfold strip. by rewrite <-list_fmap_compose. Qed.

Lemma graph_viewed g Vs : graph_inv g Vs -> viewed g (strip Vs).
Proof.
  intros HG. split.
  - unfold strip. rewrite length_fmap. apply HG.
  - intros j d K (L & Hj & ->)%strip_lookup. destruct (gi_vertex _ _ HG _ _ _ Hj) as (p & Hp & HL). exists p. split; [done|].
    intros A body a. unfold for_edges. rewrite Hp. bind. apply scan_spec; [done|by eapply graph_fuel].
  - intros j d K e (L & Hj & ->)%strip_lookup He. apply list_elem_of_fmap in He as ([a e'] & -> & He).
    pose proof (gi_dest _ _ HG _ _ _ _ _ Hj He). split; [cbn; lia|]. apply lookup_lt_is_Some. unfold strip. rewrite length_fmap.
    cbn. lia.
Qed.

(** ** Building the graph *)

Lemma Insert_Vertex_spec g Vs d : graph_inv g Vs -> (length Vs < MAX)%nat ->
  exists g', Insert_Vertex g d = Ret g' /\ graph_inv g' (Vs ++ [(d, [])]).
Proof.
  intros HG Hlt. unfold Insert_Vertex. rewrite zset_nat by (rewrite (gi_room _ _ HG), <-(gi_length _ _ HG); lia). bind.
  eexists. split; [done|]. pose proof (gi_room _ _ HG) as Hr. split; cbn [NumVertex NodeTable edges].
  - rewrite length_app, (gi_length _ _ HG). cbn. lia.
  - by rewrite length_insert.
  - rewrite length_app. cbn. lia.
  - intros j e L Hj. rewrite <-(gi_length _ _ HG). apply lookup_app_Some in Hj as [Hj|[Hge Hj]].
    + rewrite list_lookup_insert_ne by (apply lookup_lt_Some in Hj; lia). by apply (gi_vertex _ _ HG).
    + destruct (j - length Vs)%nat as [|k] eqn:E; [|by destruct k]. cbn in Hj. injection Hj as <- <-.
      assert (j = length Vs) as -> by lia. exists None. rewrite list_lookup_insert_eq by lia. done.
  - pose proof (addresses_split Vs d [] []) as E. cbn in E. rewrite app_nil_r in E. rewrite E. apply HG.
  - pose proof (addresses_split Vs d [] []) as E. cbn in E. rewrite app_nil_r in E. rewrite E. apply HG.
  - intros j e L a f Hj Hin. rewrite length_app. apply lookup_app_Some in Hj as [Hj|[_ Hj]].
    + pose proof (gi_dest _ _ HG _ _ _ _ _ Hj Hin). lia.
    + apply list_lookup_singleton_Some in Hj as [_ [= <- <-]]. by apply elem_of_nil in Hin.
Qed.

Lemma Insert_Edge_spec g Vs k d L j w : graph_inv g Vs -> Vs !! k = Some (d, L) -> 0 <= j < Z.of_nat (length Vs) ->
  exists g' x, Insert_Edge g (Z.of_nat k) j w = Ret g' /\ dest x.2 = j /\ cost x.2 = w /\
    graph_inv g' (<[k := (d, x :: L)]> Vs).
Proof.
  intros HG Hk Hj. destruct (gi_vertex _ _ HG _ _ _ Hk) as (p & Hp & HL). unfold Insert_Edge, new.
  rewrite (zget_nat _ _ _ Hp). bind. rewrite zset_nat by by eapply lookup_lt_Some. bind. cbn [data adj].
  set (e := Edge j w p). exists (Graph (<[k := Vertex d (Some (length (edges g)))]> (NodeTable g)) (NumVertex g) (edges g ++ [Some e])), (length (edges g), e).
  do 3 (split; [done|]). pose proof (lookup_lt_Some _ _ _ Hk) as Hkl. pose proof (lookup_lt_Some _ _ _ Hp) as Hkt.
  assert (Hold : forall q K, adj_list (edges g) q K -> adj_list (edges g ++ [Some e]) q K).
  { intros q K. apply adj_mono. intros a f _. apply at_new_old. }
  split; cbn [NumVertex NodeTable edges].
  - rewrite length_insert. apply HG.
  - rewrite length_insert. apply HG.
  - rewrite length_insert. apply HG.
  - intros i d' K Hi. destruct (decide (k = i)) as [<-|Hne].
    + rewrite list_lookup_insert_eq in Hi by done. injection Hi as <- <-. eexists. rewrite list_lookup_insert_eq by done.
      split; [done|]. split; [done|]. split; [apply at_new|]. by apply Hold.
    + rewrite list_lookup_insert_ne in Hi by done. rewrite list_lookup_insert_ne by done.
      destruct (gi_vertex _ _ HG _ _ _ Hi) as (q & Hq & HK). exists q. split; [done|]. by apply Hold.
  - rewrite addresses_cons by done. apply NoDup_cons. split; [|apply HG]. cbn. intros Hin.
    unfold addresses in Hin. apply list_elem_of_In, in_concat in Hin as (l & Hl & Ha). apply list_elem_of_In in Hl, Ha.
    apply list_elem_of_fmap in Hl as ([d' K] & -> & [i Hi]%list_elem_of_lookup). destruct (gi_vertex _ _ HG _ _ _ Hi) as (q & _ & HK).
    destruct (adj_in _ _ _ _ HK Ha) as [f Hf%at_addr_lt]. lia.
  - intros a f Ha. rewrite addresses_cons by done. apply at_new_inv in Ha as [[-> ->]|Ha]; [by left|]. right. by eapply gi_owned.
  - intros i d' K a f Hi Hin. rewrite length_insert. destruct (decide (k = i)) as [<-|Hne].
    + rewrite list_lookup_insert_eq in Hi by done. injection Hi as <- <-. apply elem_of_cons in Hin as [[= -> ->]|Hin]; [done|].
      by eapply (gi_dest _ _ HG).
    + rewrite list_lookup_insert_ne in Hi by done. by eapply (gi_dest _ _ HG).
Qed.

Lemma find_vertex_spec g Vs v n : forall i, graph_inv g Vs -> (i + n = length Vs)%nat -> v ∈ drop i Vs.*1 ->
  exists k L, find_vertex n g i v = Ret (Z.of_nat k) /\ Vs !! k = Some (v, L).
Proof.
  induction n as [|n IH]; intros i HG Hn Hv; cbn [find_vertex].
  - rewrite drop_ge in Hv by (rewrite length_fmap; lia). by apply elem_of_nil in Hv.
  - destruct (lookup_lt_is_Some_2 Vs i) as [[d L] Hi]; [lia|]. destruct (gi_vertex _ _ HG _ _ _ Hi) as (p & -> & _). bind.
    cbn [data]. destruct (Z.eqb_spec d v) as [->|Hne]; [by exists i, L|]. apply IH; [done|lia|].
    erewrite drop_S in Hv by (rewrite list_lookup_fmap, Hi; done). by apply elem_of_cons in Hv as [->|].
Qed.

Lemma GetVertexPos_spec g Vs v : graph_inv g Vs -> v ∈ Vs.*1 ->
  exists k L, GetVertexPos g v = Ret (Z.of_nat k) /\ Vs !! k = Some (v, L).
Proof.
  intros HG Hv. unfold GetVertexPos. rewrite <-(gi_length _ _ HG). by apply find_vertex_spec.
Qed.

Lemma name_at Vs i y : (exists L, strip Vs !! i = Some (y, L)) <-> Vs.*1 !! i = Some y.
Proof.
  unfold strip. rewrite !list_lookup_fmap. destruct (Vs !! i) as [[d K]|]; cbn; naive_solver.
Qed.

Lemma insert_names (Vs : list (Z * list (nat * edge))) k d L x : Vs !! k = Some (d, L) -> (<[k := (d, x :: L)]> Vs).*1 = Vs.*1.
Proof. intros Hk. rewrite list_fmap_insert. apply list_insert_id. by rewrite list_lookup_fmap, Hk. Qed.

Lemma arrow_insert Vs k d L (x : nat * edge) y0 : Vs !! k = Some (d, L) -> Vs.*1 !! Z.to_nat (dest x.2) = Some y0 ->
  forall a c b, arrow (strip (<[k := (d, x :: L)]> Vs)) a c b <-> arrow (strip Vs) a c b \/ (a, c, b) = (d, cost x.2, y0).
Proof.
  intros Hk Hy a c b. set (Vs' := <[k := _]> Vs).
  assert (Hnames : forall i z, (exists M, strip Vs' !! i = Some (z, M)) <-> exists M, strip Vs !! i = Some (z, M)).
  { intros i z. rewrite !name_at. by unfold Vs'; rewrite (insert_names _ _ _ _ _ Hk). }
  assert (Hlk : strip Vs' !! k = Some (d, x.2 :: L.*2)).
  { unfold strip, Vs'. by rewrite list_lookup_fmap, list_lookup_insert_eq by by eapply lookup_lt_Some. }
  assert (Hsk : strip Vs !! k = Some (d, L.*2)) by (unfold strip; by rewrite list_lookup_fmap, Hk).
  assert (Hne : forall j, j <> k -> strip Vs' !! j = strip Vs !! j).
  { intros j Hj. unfold strip, Vs'. by rewrite !list_lookup_fmap, list_lookup_insert_ne. }
  split.
  - intros (j & K & e & M & Hj & He & Hc & HM). destruct (proj1 (Hnames _ _) (ex_intro _ M HM)) as [M' HM'].
    destruct (decide (j = k)) as [->|Hjk].
    + rewrite Hlk in Hj. injection Hj as <- <-. apply elem_of_cons in He as [->|He].
      * right. apply name_at in Hy as [M'' Hy]. congruence.
      * left. by exists k, L.*2, e, M'.
    + left. rewrite Hne in Hj by done. by exists j, K, e, M'.
  - intros [(j & K & e & M & Hj & He & Hc & HM)|[= -> -> ->]].
    + destruct (proj2 (Hnames _ _) (ex_intro _ M HM)) as [M' HM']. destruct (decide (j = k)) as [->|Hjk].
      * rewrite Hsk in Hj. injection Hj as <- <-. exists k, (x.2 :: L.*2), e, M'. split; [done|]. split; [by right|done].
      * exists j, K, e, M'. rewrite Hne by done. done.
    + apply name_at in Hy. destruct (proj2 (Hnames _ _) Hy) as [M HM]. exists k, (x.2 :: L.*2), x.2, M. split; [done|]. split; [by left|done].
Qed.

Lemma Construct_Graph_spec junk names arrows : length junk = MAX -> (length names <= MAX)%nat ->
  Forall (fun a => a.1.1 ∈ names /\ a.2 ∈ names) arrows ->
  exists g Vs, Construct_Graph junk names arrows = Ret g /\ graph_inv g Vs /\ Vs.*1 = names /\
    forall x c y, arrow (strip Vs) x c y <-> (x, c, y) ∈ arrows.
Proof.
  intros Hj Hn Ha. unfold Construct_Graph.
  destruct (each_inv (fun pre g => graph_inv g ((fun n => (n, [])) <$> pre)) Insert_Vertex names (Graph junk 0 [])) as (g & -> & HG).
  - split; cbn; try done; [lia|constructor].
  - intros pre n post g -> HG. rewrite fmap_app. apply Insert_Vertex_spec; [done|]. rewrite length_fmap. rewrite length_app in Hn.
    cbn in Hn. lia.
  - bind. set (Vs0 := (fun n => (n, [])) <$> names) in HG.
    assert (H0 : Vs0.*1 = names) by (unfold Vs0; rewrite <-list_fmap_compose; apply list_fmap_id).
    destruct (each_inv (fun pre g => exists Vs, graph_inv g Vs /\ Vs.*1 = names /\
      forall x c y, arrow (strip Vs) x c y <-> (x, c, y) ∈ pre)
      (fun g '(tail, weight, head) => k ← GetVertexPos g tail; j ← GetVertexPos g head; Insert_Edge g k j weight) arrows g)
      as (g' & Eg' & Vs & H1 & H2 & H3).
    + exists Vs0. split; [done|]. split; [done|]. intros x c y. rewrite elem_of_nil. split; [|done].
      intros (j & L & e & L' & HL & He & _). apply strip_lookup in HL as (K & HK & ->). unfold Vs0 in HK.
      rewrite list_lookup_fmap in HK. apply fmap_Some in HK as (n & _ & [= _ ->]). by apply elem_of_nil in He.
    + intros pre [[t w] h] post g1 -> (Vs & HG1 & Hnm & Harr). apply Forall_app in Ha as [_ [[Ht Hh] _]%Forall_cons]. cbn in Ht, Hh.
      rewrite <-Hnm in Ht, Hh. destruct (GetVertexPos_spec _ _ _ HG1 Ht) as (k & L & -> & Hk). bind.
      destruct (GetVertexPos_spec _ _ _ HG1 Hh) as (j & K & -> & Hjj). bind.
      destruct (Insert_Edge_spec g1 Vs k t L (Z.of_nat j) w HG1 Hk) as (g2 & x & E2 & Hd & Hc & HG2); [apply lookup_lt_Some in Hjj; lia|].
      exists g2. split; [exact E2|]. exists (<[k := (t, x :: L)]> Vs). split; [done|]. split; [by rewrite insert_names|].
      intros a c b. rewrite (arrow_insert Vs k t L x h Hk), Harr, elem_of_app, list_elem_of_singleton; [by rewrite Hc|].
      by rewrite Hd, Nat2Z.id, list_lookup_fmap, Hjj.
    + exists g', Vs. done.
Qed.

Lemma Show_Graph_returns g Vs : viewed g Vs -> exists out, Show_Graph g = Ret out.
Proof.
  intros HV. unfold Show_Graph. edestruct (for_inv (fun _ (_ : list (Z * Z * Z)) => True)) as (out & E & _); [done| |by exists out].
  intros i out Hi _. destruct (lookup_lt_is_Some_2 Vs i) as [[d L] HL]; [rewrite (vw_length _ _ HV); lia|].
  destruct (vw_vertex _ _ HV _ _ _ HL) as (p & Hp & Hfor). rewrite Hfor.
  destruct (each_inv (fun _ (_ : list (Z * Z * Z)) => True) (fun out e => v ← oget (NodeTable g !! i); w ← zget (NodeTable g) (dest e);
    Ret (out ++ [(data v, data w, cost e)])) L out) as (out' & -> & _); [done| |by exists out'].
  intros pre e post a EL _. rewrite Hp. bind. destruct (vw_dest _ _ HV _ _ _ e HL) as [H0 [[y L'] Hy]]; [rewrite EL; apply elem_of_app; right; by left|].
  destruct (vw_vertex _ _ HV _ _ _ Hy) as (q & Hq & _). unfold zget. rewrite (proj2 (Z.leb_le _ _) H0), Hq. bind. by eexists.
Qed.

(** ** Freeing the graph *)

Lemma free_edges_spec L : forall n i g p v, adj_list (edges g) p L -> NoDup L.*1 -> (length L <= n)%nat -> NodeTable g !! i = Some v ->
  exists g', free_edges n i g p = Ret g' /\ NumVertex g' = NumVertex g /\ length (edges g') = length (edges g) /\
    (forall a e, at_addr (edges g') a e <-> at_addr (edges g) a e /\ a ∉ L.*1) /\
    forall j, j <> i -> NodeTable g' !! j = NodeTable g !! j.
Proof.
  induction L as [|[b e] L IH]; intros n i g p v Hp Hn Hl Hv; cbn [adj_list] in Hp.
  - subst p. exists g. split; [by destruct n|]. split; [done|]. split; [done|]. split; [|done]. intros a e.
    split; [intros H; split; [done|apply not_elem_of_nil]|by intros [? _]].
  - destruct Hp as (-> & Hb & HL). cbn [fmap list_fmap fst] in Hn |- *. apply NoDup_cons in Hn as [Hbl Hn].
    destruct n as [|n]; [cbn in Hl; lia|]. cbn [free_edges]. rewrite bool_decide_false by done. rewrite (load_ok _ _ _ Hb). bind.
    rewrite Hv. bind. cbn [edges]. rewrite (modify_ok _ _ _ _ Hb). bind. cbn [dest cost link].
    rewrite (dispose_ok _ _ _ (at_insert_eq _ _ _ _ Hb)). bind. cbn [NodeTable NumVertex].
    set (h := <[b := None]> _).
    assert (Hh : forall a f, at_addr h a f <-> at_addr (edges g) a f /\ a <> b).
    { intros a f. unfold h. destruct (decide (b = a)) as [<-|Hne]; [split; [by intros ?%at_freed|by intros [_ []]]|].
      rewrite !at_insert_ne by done. naive_solver. }
    destruct (IH n i (Graph (<[i := Vertex (data v) (link e)]> (NodeTable g)) (NumVertex g) h) (link e) (Vertex (data v) (link e)))
      as (g' & -> & H1 & H2 & H3 & H4); cbn [edges NodeTable].
    + eapply adj_mono; [|exact HL]. intros a f Ha Hat. apply Hh. split; [done|]. by intros ->.
    + done.
    + cbn in Hl. lia.
    + apply list_lookup_insert_eq. by eapply lookup_lt_Some.
    + exists g'. split; [done|]. split; [done|]. split; [rewrite H2; unfold h; cbn [edges]; by rewrite !length_insert|]. split.
      * intros a f. rewrite H3. cbn [edges]. rewrite Hh, not_elem_of_cons. naive_solver.
      * intros j Hj. rewrite H4 by done. cbn [NodeTable]. by rewrite list_lookup_insert_ne.
Qed.

Lemma Destruct_Graph_spec g Vs : graph_inv g Vs ->
  exists g', Destruct_Graph g = Ret g' /\ NumVertex g' = 0%nat /\ live (edges g') = [].
Proof.
  intros HG. unfold Destruct_Graph.
  destruct (for_inv (fun i g' => NumVertex g' = NumVertex g /\ length (edges g') = length (edges g) /\
    (forall a e, at_addr (edges g') a e <-> at_addr (edges g) a e /\ a ∉ addresses (take i Vs)) /\
    forall j, (i <= j)%nat -> NodeTable g' !! j = NodeTable g !! j) 0 (NumVertex g) (fun i g =>
    v ← oget (NodeTable g !! i); free_edges (length (edges g)) i g (adj v)) g) as (g' & -> & _ & _ & H & _).
  - split; [done|]. split; [done|]. split; [|done]. intros a e. split; [intros He; split; [done|apply not_elem_of_nil]|by intros [? _]].
  - intros i g1 Hi (H1 & H2 & H3 & H4). destruct (lookup_lt_is_Some_2 Vs i) as [[d L] HL]; [rewrite (gi_length _ _ HG); lia|].
    destruct (gi_vertex _ _ HG _ _ _ HL) as (p & Hp & HpL). rewrite H4, Hp by lia. bind. cbn [adj].
    assert (Hsplit : Vs = take i Vs ++ (d, L) :: drop (S i) Vs) by (symmetry; by apply take_drop_middle).
    pose proof (gi_nodup _ _ HG) as Hnd. rewrite Hsplit, addresses_split in Hnd. apply NoDup_app in Hnd as (_ & Hdis & Hnd).
    apply NoDup_app in Hnd as (Hnd & _ & _).
    destruct (free_edges_spec L (length (edges g1)) i g1 p (Vertex d p)) as (g2 & -> & K1 & K2 & K3 & K4).
    + eapply adj_mono; [|exact HpL]. intros a e Ha Hat. apply H3. split; [done|]. intros Hin. apply (Hdis _ Hin). apply elem_of_app. by left.
    + done.
    + rewrite H2. by eapply graph_fuel.
    + by rewrite H4 by lia.
    + exists g2. split; [done|]. split; [congruence|]. split; [congruence|]. split.
      * intros a e. rewrite K3, H3. rewrite (take_S_r _ _ _ HL). pose proof (addresses_split (take i Vs) d L []) as E. cbn in E.
        rewrite app_nil_r in E. rewrite E, not_elem_of_app. tauto.
      * intros j Hj. rewrite K4 by lia. apply H4. lia.
  - bind. eexists. split; [done|]. split; [done|]. cbn [edges]. apply live_nil. intros a e Ha. apply H in Ha as [Ha Hn].
    rewrite Nat.add_0_l, <-(gi_length _ _ HG), firstn_all in Hn. by apply Hn, (gi_owned _ _ HG _ e).
Qed.
