(* ===== verification/Nfa2dfaMatrix.v ===== *)
(** The matrix of nfa2dfa.c: reading and writing its cells, comparing and copying sets,
    and what is shown of it. *)
From S2P Require Import Prelude Arrays Heap Nfa2dfa Nfa2dfaSets.

(** ** Cells *)

Section matrix.
Context (words : list Z).

(** The matrix for [words], with [n] rows in use. *)
Record shape (TM : matrix) (n : nat) : Prop := Shape {
  sh_words : transword <$> TM = 73 :: words;
  sh_depth : Forall (fun q => length (TN q) = MAX) TM;
  sh_rows : rows TM = Ret n
}.

Lemma sh_length TM n : shape TM n -> length TM = S (length words).
Proof. intros H. by rewrite <-(length_fmap transword), (sh_words _ _ H). Qed.

Lemma sh_transnum TM n : shape TM n -> transnum TM = length words.
Proof. intros H. unfold transnum. rewrite (sh_length _ _ H). lia. Qed.

Lemma sh_queue TM n i c : shape TM n -> words !! i = Some c -> exists q, TM !! S i = Some q /\ transword q = c.
Proof.
  intros H Hi. assert (Hq : (transword <$> TM) !! S i = Some c) by by rewrite (sh_words _ _ H).
  rewrite list_lookup_fmap in Hq. apply fmap_Some in Hq as (q & Hq & ->). by exists q.
Qed.

Lemma node_inv TM i j t : node TM i j = Ret t -> exists q, TM !! i = Some q /\ TN q !! j = Some t.
Proof.
  unfold node. destruct (TM !! i) as [q|]; [|done]. cbn. destruct (TN q !! j) as [x|] eqn:E; [|done]. intros [= ->]. eauto.
Qed.

Lemma node_intro TM i j q t : TM !! i = Some q -> TN q !! j = Some t -> node TM i j = Ret t.
Proof. intros Hi Hj. unfold node. by rewrite Hi; cbn; rewrite Hj. Qed.

(** A cell can be read exactly inside the matrix. *)
Lemma node_out TM n i : shape TM n -> node TM i MAX = UB.
Proof.
  intros H. unfold node. destruct (TM !! i) as [q|] eqn:Eq; [|done]. cbn.
  rewrite lookup_ge_None_2; [done|]. pose proof (sh_depth _ _ H) as Hd. rewrite Forall_lookup in Hd. by rewrite (Hd _ _ Eq).
Qed.

Definition same_cells (TM TM' : matrix) (P : nat -> nat -> Prop) : Prop := forall i j, P i j -> node TM' i j = node TM i j.

Lemma put_spec TM n i j t0 t : shape TM n -> node TM i j = Ret t0 ->
  exists TM', put TM i j t = Ret TM' /\ shape TM' n /\ node TM' i j = Ret t /\
    same_cells TM TM' (fun i' j' => i' <> i \/ j' <> j).
Proof.
  intros [H1 H2 H3] (q & Hi & Hj)%node_inv. unfold put. rewrite Hi; bind. rewrite Hj; bind.
  set (q' := TableQueue _ _ _). exists (<[i := q']> TM). split; [done|].
  pose proof (lookup_lt_Some _ _ _ Hi) as Hil. pose proof (lookup_lt_Some _ _ _ Hj) as Hjl.
  split; [|split].
  - split.
    + rewrite list_fmap_insert. cbn. rewrite list_insert_id; [done|]. by rewrite list_lookup_fmap, Hi.
    + apply Forall_insert; [done|]. cbn. rewrite length_insert. by eapply (Forall_lookup_1 _ _ _ _ H2).
    + unfold rows in *. destruct (decide (i = 0%nat)) as [->|Hne].
      * rewrite Hi in H3. rewrite list_lookup_insert_eq by done. exact H3.
      * by rewrite list_lookup_insert_ne.
  - eapply node_intro; [by apply list_lookup_insert_eq|]. by apply list_lookup_insert_eq.
  - intros i' j' Hne. unfold node. destruct (decide (i = i')) as [<-|Hd]; [|by rewrite list_lookup_insert_ne].
    rewrite list_lookup_insert_eq, Hi by done. cbn. rewrite list_lookup_insert_ne; [done|]. naive_solver.
Qed.

Lemma set_ch_spec TM n i j t0 t : shape TM n -> node TM i j = Ret t0 ->
  exists TM', set_ch TM i j t = Ret TM' /\ shape TM' n /\ node TM' i j = Ret (TableNode (newname t0) t) /\
    same_cells TM TM' (fun i' j' => i' <> i \/ j' <> j).
Proof. intros HS Hn. unfold set_ch. rewrite Hn. by eapply put_spec. Qed.

Lemma set_newname_spec TM n i j t0 c : shape TM n -> node TM i j = Ret t0 ->
  exists TM', set_newname TM i j c = Ret TM' /\ shape TM' n /\ node TM' i j = Ret (TableNode c (ch t0)) /\
    same_cells TM TM' (fun i' j' => i' <> i \/ j' <> j).
Proof. intros HS Hn. unfold set_newname. rewrite Hn. by eapply put_spec. Qed.

Lemma add_row_spec TM n : shape TM n -> exists TM', add_row TM = Ret TM' /\ shape TM' (S n) /\
  same_cells TM TM' (fun _ _ => True).
Proof.
  intros [H1 H2 H3]. unfold rows in H3. unfold add_row. destruct (TM !! 0%nat) as [q|] eqn:E; [|done]. bind. cbn in H3.
  injection H3 as <-. eexists. split; [done|]. pose proof (lookup_lt_Some _ _ _ E) as Hl. split.
  - split.
    + rewrite list_fmap_insert. cbn. rewrite list_insert_id; [done|]. by rewrite list_lookup_fmap, E.
    + apply Forall_insert; [done|]. cbn. by eapply (Forall_lookup_1 _ _ _ _ H2).
    + unfold rows. by rewrite list_lookup_insert_eq.
  - intros i j _. unfold node. destruct (decide (0%nat = i)) as [<-|Hne]; [|by rewrite list_lookup_insert_ne].
    by rewrite list_lookup_insert_eq, E.
Qed.

Lemma Init_Matrix_shape : shape (Init_Matrix words) 0.
Proof.
  split; [|apply Forall_cons; split; [done|]; apply Forall_fmap, Forall_forall; by intros|done].
  cbn. f_equal. rewrite <-list_fmap_compose. apply list_fmap_id.
Qed.

Lemma Init_Matrix_blank i j : (i <= length words)%nat -> (j < MAX)%nat -> node (Init_Matrix words) i j = Ret (TableNode 0 (arr [])).
Proof.
  intros Hi Hj. assert (H : exists c, Init_Matrix words !! i = Some (blank_queue c)).
  { destruct i as [|i]; [by eexists|]. destruct (lookup_lt_is_Some_2 words i) as [c Hc]; [lia|]. exists c.
    change ((blank_queue <$> words) !! i = Some (blank_queue c)). by rewrite list_lookup_fmap, Hc. }
  destruct H as [c Hc]. eapply node_intro; [exact Hc|]. by apply lookup_replicate_2.
Qed.

(** ** Strings *)

Definition string_ok (l : list Z) : Prop := (0 ∉ l) /\ (length l < MAX)%nat.

Lemma same_string_spec l l' n : string_ok l -> string_ok l' -> forall i, (i <= length l)%nat -> (i <= length l')%nat ->
  take i l = take i l' -> (length l < n + i)%nat -> same_string n (arr l) (arr l') i = Ret (bool_decide (l = l')).
Proof.
  intros [H0 Hl] [H0' Hl']. induction n as [|n IH]; intros i Hi Hi' Ht Hn; [lia|]. cbn [same_string].
  assert (Hget : forall k, string_ok k -> (i <= length k)%nat ->
    aget (arr k) i = Ret (default 0 (k !! i)) /\ (default 0 (k !! i) = 0 <-> i = length k)).
  { intros k [K0 Kl] Ki. destruct (k !! i) as [x|] eqn:Ex; cbn.
    - split; [by apply arr_get|]. split; [intros ->; by apply list_elem_of_lookup_2 in Ex|intros ->; apply lookup_lt_Some in Ex; lia].
    - apply lookup_ge_None in Ex. rewrite arr_end by lia. split; [done|]. split; [lia|done]. }
  destruct (Hget l) as [-> Hz]; [done..|]. destruct (Hget l') as [-> Hz']; [done..|]. bind.
  destruct (Z.eqb_spec (default 0 (l !! i)) (default 0 (l' !! i))) as [E|E]; cbn [negb].
  - destruct (Z.eqb_spec (default 0 (l !! i)) 0) as [E0|E0].
    + rewrite bool_decide_true; [done|]. pose proof (proj1 Hz E0) as K. rewrite E in E0. pose proof (proj1 Hz' E0) as K'.
      rewrite K in Ht at 1. rewrite K' in Ht. by rewrite !firstn_all in Ht.
    + assert (i <> length l) by tauto. assert (i <> length l') by (rewrite E in E0; tauto). apply IH; [lia..| |lia].
      destruct (lookup_lt_is_Some_2 l i) as [x Hx]; [lia|]. destruct (lookup_lt_is_Some_2 l' i) as [y Hy]; [lia|].
      rewrite Hx, Hy in E. cbn in E. subst y. by rewrite (take_S_r _ _ _ Hx), (take_S_r _ _ _ Hy), Ht.
  - rewrite bool_decide_false; [done|]. by intros ->.
Qed.

(** The first row with the set [S], or 1. *)
Definition row_of (R : list (Z * list Z)) (S : list Z) : nat :=
  match list_find (fun r => r.2 = S) R with Some (i, _) => i | None => 1%nat end.

Lemma CheckTable_spec TM R l : shape TM (length R) -> string_ok l -> (forall m S, (m, S) ∈ R -> string_ok S) ->
  (forall r m S, R !! r = Some (m, S) -> node TM 0 r = Ret (TableNode m (arr S))) ->
  CheckTable TM (arr l) = Ret (row_of R l).
Proof.
  intros HS Hl Hok HR. unfold CheckTable. rewrite (sh_rows _ _ HS). bind.
  assert (H : forall todo pre, R = pre ++ todo -> (forall r, r ∈ pre -> r.2 <> l) ->
    check_rows (length todo) TM (length pre) (arr l) = Ret (row_of R l)).
  { induction todo as [|[m S] todo IH]; intros pre ER Hpre; cbn [check_rows length].
    - rewrite app_nil_r in ER. subst pre. unfold row_of. destruct (list_find _ R) as [[i x]|] eqn:E; [|done].
      apply list_find_Some in E as (Hi & Hx & _). by apply list_elem_of_lookup_2, Hpre in Hi.
    - assert (Hm : R !! length pre = Some (m, S)) by by rewrite ER, list_lookup_middle.
      assert (HSok : string_ok S) by (apply (Hok m); by eapply list_elem_of_lookup_2).
      rewrite (HR _ _ _ Hm). bind. cbn [ch]. rewrite same_string_spec; [|done|done|lia|lia|done|rewrite arr_length; destruct HSok; lia]. bind.
      case_bool_decide as E.
      + unfold row_of. assert (EF : list_find (fun r => r.2 = l) R = Some (length pre, (m, S))); [|by rewrite EF].
        apply list_find_Some. split; [done|]. split; [done|]. intros k [m' S'] Hk Hlt. apply Hpre. rewrite ER in Hk.
        rewrite lookup_app_l in Hk by done. by eapply list_elem_of_lookup_2.
      + specialize (IH (pre ++ [(m, S)])). rewrite length_app, <-app_assoc in IH. cbn in IH. rewrite Nat.add_1_r in IH.
        apply IH; [done|]. intros r [Hr| ->%list_elem_of_singleton]%elem_of_app; [by apply Hpre|done]. }
  apply (H R []); [done|]. by intros r ?%elem_of_nil.
Qed.

Lemma strcpy_arr l n : string_ok l -> forall i, (i <= length l)%nat -> (length l < n + i)%nat ->
  strcpy n (arr (take i l)) (arr l) i = Ret (arr l).
Proof.
  intros [H0 Hl]. induction n as [|n IH]; intros i Hi Hn; [lia|]. cbn [strcpy]. destruct (decide (i = length l)) as [->|Hne].
  - rewrite arr_end by lia. bind. rewrite firstn_all, aset_lt by (rewrite arr_length; lia). bind. f_equal. apply list_insert_id.
    unfold arr. rewrite lookup_app_r, Nat.sub_diag by lia. apply lookup_replicate_2. lia.
  - destruct (lookup_lt_is_Some_2 l i) as [x Hx]; [lia|]. rewrite (arr_get _ _ _ Hx). bind.
    assert (Ht : length (take i l) = i) by (rewrite length_take; lia).
    rewrite <-Ht at 2. rewrite arr_snoc by lia. bind. rewrite (proj2 (Z.eqb_neq _ _)) by (intros ->; by apply list_elem_of_lookup_2 in Hx).
    rewrite <-(take_S_r _ _ _ Hx). apply IH; lia.
Qed.

(** ** Showing the matrix *)

Lemma Show_TranMatrix_returns TM n : shape TM n ->
  (forall i j, (i <= length words)%nat -> (j < MAX)%nat -> exists m S, node TM i j = Ret (TableNode m (arr S)) /\ string_ok S) ->
  exists out, Show_TranMatrix TM = Ret out.
Proof.
  intros HS Hall. unfold Show_TranMatrix. rewrite (sh_transnum _ _ HS).
  edestruct (for_inv (fun _ (_ : list (Z * list Z)) => True)) as (out & E & _); [done| |by exists out].
  intros k out Hk _. edestruct (for_inv (fun _ (_ : list (Z * list Z)) => True)) as (out' & E & _); [done| |by exists out'].
  intros j out' Hj _. destruct (Hall j k) as (m & S & -> & H0 & Hl); [lia|lia|]. bind. unfold show_cell. cbn [ch].
  rewrite find_nul_arr by done. bind. by eexists.
Qed.
End matrix.
