(* ===== verification/Nfa2dfaInv.v ===== *)
(** The subset construction of nfa2dfa.c: what the matrix says while the rows are filled,
    and that filling a cell keeps it. *)
From S2P Require Import Prelude Arrays Heap Nfa2dfa Nfa2dfaSets Nfa2dfaMatrix.

(** ** Words of the nondeterministic automaton *)

Section automaton.
Context (arrows : list (Z * Z * Z)) (start : Z).

Inductive run : list Z -> Z -> Z -> Prop :=
| run_nil x : run [] x x
| run_eps u x y z : (x, EPS, y) ∈ arrows -> run u y z -> run u x z
| run_char c u x y z : c <> EPS -> (x, c, y) ∈ arrows -> run u y z -> run (c :: u) x z.

(** The states that the word [u] reaches. *)
Definition reached (u : list Z) (y : Z) : Prop := run u start y.
Definition same (u v : list Z) : Prop := forall y, reached u y <-> reached v y.
Definition dead (u : list Z) : Prop := forall y, ~ reached u y.

Lemma run_concat u v x y z : run u x y -> run v y z -> run (u ++ v) x z.
Proof.
  induction 1 as [|u x y w Ha Hr IH|c u x y w Hc Ha Hr IH]; intros H; cbn [app]; [done|..].
  - eapply run_eps; [exact Ha|by apply IH].
  - eapply run_char; [done|exact Ha|by apply IH].
Qed.

Lemma run_closure x y : rtc (fun x y => (x, EPS, y) ∈ arrows) x y <-> run [] x y.
Proof.
  split.
  - induction 1; [constructor|by eapply run_eps].
  - intros H. remember [] as u eqn:Eu. induction H; [done|by eapply rtc_l, IHrun|done].
Qed.

Lemma run_snoc u c x z : c <> EPS ->
  run (u ++ [c]) x z <-> exists y w, run u x y /\ (y, c, w) ∈ arrows /\ rtc (fun x y => (x, EPS, y) ∈ arrows) w z.
Proof.
  intros Hc. split.
  - intros H. remember (u ++ [c]) as v eqn:Ev. revert u Ev. induction H as [x|v x y z Ha Hr IH|d v x y z Hd Ha Hr IH]; intros u Ev.
    + by destruct u.
    + destruct (IH u Ev) as (y' & w & H1 & H2). exists y', w. split; [by eapply run_eps|done].
    + destruct u as [|e u]; cbn in Ev; injection Ev as -> ->.
      * exists x, y. split; [constructor|]. split; [done|]. by apply run_closure.
      * destruct (IH u eq_refl) as (y' & w & H1 & H2). exists y', w. split; [by eapply run_char|done].
  - intros (y & w & H1 & H2 & H3). eapply run_concat; [exact H1|]. eapply run_char; [done|exact H2|]. by apply run_closure.
Qed.
End automaton.

(** ** The rows *)

Section construction.
Context (g : graph) (Vs : list (Z * list edge)) (Hview : viewed g Vs).
Context (Hnonzero : 0 ∉ Vs.*1) (Hfew : (length (remove_dups Vs.*1) < MAX)%nat).
Context (arrows : list (Z * Z * Z)) (Harrows : forall x c y, arrow Vs x c y <-> (x, c, y) ∈ arrows).
Context (start : Z) (words : list Z) (Hwords : EPS ∉ words) (Hdistinct : NoDup words).
Context (input : list Z) (Hinput : (0 ∉ input) /\ (MAX <= length input)%nat).

(** The stored form of the states that [u] reaches. *)
Definition is_set (u l : list Z) : Prop := sorted_set Vs l /\ forall y, y ∈ l <-> reached arrows start u y.

Lemma is_set_unique u v l l' : is_set u l -> is_set v l' -> same arrows start u v -> l = l'.
Proof.
  intros [H1 H2] [H3 H4] Hs. eapply sorted_unique; [done|done|]. intros y. rewrite H2, H4. apply Hs.
Qed.

Lemma is_set_same u v l : is_set u l -> is_set v l -> same arrows start u v.
Proof. intros [_ H1] [_ H2] y. by rewrite <-H1, <-H2. Qed.

Lemma is_set_dead u : is_set u [] <-> dead arrows start u.
Proof.
  split.
  - intros [_ H] y Hy. apply H in Hy. by apply elem_of_nil in Hy.
  - intros H. split; [split; [split; [constructor|]|constructor]|]; [by intros ? ?%elem_of_nil|]. intros y.
    rewrite elem_of_nil. split; [done|]. by intros ?%H.
Qed.

Lemma is_set_string u l : is_set u l -> string_ok l.
Proof. intros [[H _] _]. split; [by eapply names_zero|by eapply names_few]. Qed.

(** One step: what [Smove] and [E_Closure] make of a set. *)
Lemma subset_step u c l : is_set u l -> c <> EPS ->
  exists l', (t ← Smove g (arr l) (arr []) c; E_Closure g t) = Ret (arr l') /\ is_set (u ++ [c]) l'.
Proof.
  intros [[Hl Hs] Hin] Hc. destruct (Smove_spec g Vs Hview Hnonzero Hfew l c Hl) as (s & -> & [Hsok _] & Hsin). bind.
  destruct (E_Closure_spec g Vs Hview Hnonzero Hfew s Hsok) as (l' & -> & Hl' & Hin'). exists l'. split; [done|]. split; [done|].
  intros y. rewrite Hin'. unfold reached. rewrite run_snoc by done. split.
  - intros (w & (x & Hx & Ha)%Hsin & Hr). exists x, w. split; [by apply Hin|]. split; [by apply Harrows|].
    eapply rtc_subrel; [|exact Hr]. intros a b. apply Harrows.
  - intros (x & w & Hx & Ha & Hr). exists w. split; [apply Hsin; exists x; split; [by apply Hin|by apply Harrows]|].
    eapply rtc_subrel; [|exact Hr]. intros a b. apply Harrows.
Qed.

(** The set of the second row: what the first word with a new set reaches. *)
Definition first_new (c0 : Z) : Prop :=
  exists pre post, words = pre ++ c0 :: post /\
    Forall (fun c => dead arrows start [c] \/ same arrows start [c] []) pre /\
    ~ dead arrows start [c0] /\ ~ same arrows start [c0] [].

(** That set is not reached a second time. *)
Definition reached_once : Prop :=
  forall c0 u c, first_new c0 -> Forall (.∈ words) u -> c ∈ words -> same arrows start (u ++ [c]) [c0] -> same arrows start u [] /\ c = c0.

(** What a cell that is filled holds: its column is [c], its row [r] has the set of
    [u]. *)
Definition cell_ok (R : list (Z * list Z)) (r : nat) (u : list Z) (c : Z) (t : tablenode) : Prop :=
  exists l, ch t = arr l /\ is_set (u ++ [c]) l /\
    ((l = [] /\ newname t = 0) \/ (l <> [] /\ exists r', R !! r' = Some (newname t, l) /\
      forall m m0 l0, R !! 1%nat = Some (m, l) -> R !! 0%nat = Some (m0, l0) -> l <> l0 -> (r < r')%nat)).

(** Cell [i] of row [r] is filled when rows are filled up to column [i] of row [j]. *)
Definition filled (j i r k : nat) : Prop := (r < j)%nat \/ (r = j /\ k < i)%nat.

(** The rows, names with sets, that are in use. *)
Record rows_ok (R : list (Z * list Z)) : Prop := RowsOk {
  ro_names : R.*1 = take (length R) input;
  ro_set : forall r m l, R !! r = Some (m, l) -> l <> [] /\ exists u, Forall (.∈ words) u /\ is_set u l;
  ro_first : forall m l, R !! 0%nat = Some (m, l) -> is_set [] l;
  ro_second : forall m l, R !! 1%nat = Some (m, l) -> exists c0, first_new c0 /\ is_set [c0] l;
  ro_once : reached_once -> NoDup R.*2
}.

Record matrix_inv (TM : matrix) (rest : list Z) (R : list (Z * list Z)) (j i : nat) : Prop := MatrixInv {
  mi_shape : shape words TM (length R);
  mi_ok : rows_ok R;
  mi_some : (0 < length R <= MAX)%nat;
  mi_rest : rest = drop (length R) input;
  mi_row : forall r m l, R !! r = Some (m, l) -> node TM 0 r = Ret (TableNode m (arr l));
  mi_spare : forall r, (length R <= r < MAX)%nat -> node TM 0 r = Ret (TableNode 0 (arr []));
  mi_done : forall r k c m l, filled j i r k -> words !! k = Some c -> R !! r = Some (m, l) ->
    exists t u, node TM (S k) r = Ret t /\ is_set u l /\ cell_ok R r u c t;
  mi_todo : forall r k, ~ filled j i r k -> (k < length words)%nat -> (r < MAX)%nat -> node TM (S k) r = Ret (TableNode 0 (arr []));
  mi_order : (1 < length R)%nat -> forall k c0, words !! k = Some c0 -> first_new c0 -> filled j i 0 k
}.

Lemma same_snoc u v c : c <> EPS -> same arrows start u v -> same arrows start (u ++ [c]) (v ++ [c]).
Proof.
  intros Hc Hs y. unfold reached. rewrite !run_snoc by done.
  split; intros (x & w & Hx & H); exists x, w; (split; [by apply Hs|done]).
Qed.

Lemma row_unique R r r' m m' l : rows_ok R -> R !! r = Some (m, l) -> R !! r' = Some (m', l) -> reached_once -> r = r'.
Proof.
  intros HR Hr Hr' Ho. apply (NoDup_lookup R.*2 r r' l); [by apply (ro_once _ HR)| |]; by rewrite list_lookup_fmap, ?Hr, ?Hr'.
Qed.

(** A cell that is filled stays right when rows are added. *)
Lemma cell_ok_extend R R' r u c t : R `prefix_of` R' -> cell_ok R r u c t -> cell_ok R' r u c t.
Proof.
  intros Hp (l & H1 & H2 & H3). exists l. split; [done|]. split; [done|]. destruct H3 as [H3|(Hne & r' & Hr' & H3)]; [by left|].
  right. split; [done|]. exists r'. split; [by eapply prefix_lookup_Some|]. intros m m0 l0 Hm Hm0 Hll.
  destruct (lookup_lt_is_Some_2 R 0) as [[n0 k0] Hk0]; [apply lookup_lt_Some in Hr'; lia|].
  pose proof (prefix_lookup_Some _ _ _ _ Hk0 Hp) as E0. rewrite Hm0 in E0. injection E0 as <- <-.
  destruct (R !! 1%nat) as [[n1 k1]|] eqn:E1.
  - pose proof (prefix_lookup_Some _ _ _ _ E1 Hp) as E2. rewrite Hm in E2. injection E2 as <- <-. by eapply H3.
  - apply lookup_ge_None in E1. pose proof (lookup_lt_Some _ _ _ Hr'). assert (r' = 0%nat) as -> by lia.
    rewrite Hk0 in Hr'. injection Hr' as _ E. by destruct Hll.
Qed.

Lemma filled_next j i r k : filled j (S i) r k <-> filled j i r k \/ (r = j /\ k = i).
Proof. unfold filled. lia. Qed.

(** The cell in column [i] of row [j] has been written, and perhaps a new row. *)
Lemma inv_next TM TM' rest R R' j i c m l u t : matrix_inv TM rest R j i -> R !! j = Some (m, l) -> words !! i = Some c ->
  is_set u l -> R `prefix_of` R' -> (length R' <= MAX)%nat -> shape words TM' (length R') -> rows_ok R' ->
  node TM' (S i) j = Ret t -> cell_ok R' j u c t ->
  (forall r m l, R' !! r = Some (m, l) -> (length R <= r)%nat -> node TM' 0 r = Ret (TableNode m (arr l))) ->
  same_cells TM TM' (fun i' r => (i' <> S i \/ r <> j) /\ (i' <> 0 \/ r < length R \/ length R' <= r)%nat) ->
  ((1 < length R')%nat -> (1 < length R)%nat \/ forall k c0, words !! k = Some c0 -> first_new c0 -> filled j (S i) 0 k) ->
  matrix_inv TM' (drop (length R') input) R' j (S i).
Proof.
  intros HI Hj Hi Hu Hp Hmax HS HR Ht Hc Hnew Hsame Hord. pose proof (prefix_length _ _ Hp) as Hlen.
  pose proof (mi_some _ _ _ _ _ HI) as H1. split; [done|done|lia|done|..].
  - intros r m' l' Hr. destruct (decide (length R <= r)%nat); [by apply Hnew|].
    rewrite Hsame by lia. apply (mi_row _ _ _ _ _ HI). destruct (lookup_lt_is_Some_2 R r) as [x Hx]; [lia|].
    rewrite Hx. by rewrite (prefix_lookup_Some _ _ _ _ Hx Hp) in Hr.
  - intros r Hr. rewrite Hsame by lia. apply (mi_spare _ _ _ _ _ HI). lia.
  - intros r k d m' l' Hf Hk Hr. destruct (decide (r = j /\ k = i)) as [[-> ->]|Hne].
    + exists t, u. split; [done|]. rewrite (prefix_lookup_Some _ _ _ _ Hj Hp) in Hr. injection Hr as <- <-.
      rewrite Hi in Hk. injection Hk as <-. done.
    + apply filled_next in Hf as [Hf|]; [|tauto]. assert (Hrl : (r < length R)%nat).
      { apply lookup_lt_Some in Hj. unfold filled in Hf. lia. }
      destruct (lookup_lt_is_Some_2 R r Hrl) as [[m2 l2] Hx]. pose proof (prefix_lookup_Some _ _ _ _ Hx Hp) as Hx'.
      rewrite Hr in Hx'. injection Hx' as <- <-. destruct (mi_done _ _ _ _ _ HI r k d _ _ Hf Hk Hx) as (t' & v & Ht' & Hv & Hc').
      exists t', v. split; [rewrite Hsame; [done|split; lia]|]. split; [done|]. by eapply cell_ok_extend.
  - intros r k Hf Hk Hr. rewrite filled_next in Hf. rewrite Hsame by (split; lia). apply (mi_todo _ _ _ _ _ HI); tauto.
  - intros Hl k c0 Hk Hc0. destruct (Hord Hl) as [H|H]; [|by eapply H]. apply filled_next. left.
    by eapply (mi_order _ _ _ _ _ HI).
Qed.

(** A result, unless the table has no room. *)
Definition may {A} (P : A -> Prop) (X : Prop) (r : res A) : Prop :=
  match r with Ret x => P x | UB => X | Fuel => False end.

Lemma row_of_lookup R l : (exists m, R !! row_of R l = Some (m, l) /\ forall k m', R !! k = Some (m', l) -> (row_of R l <= k)%nat) \/
  (row_of R l = 1%nat /\ forall r m, R !! r <> Some (m, l)).
Proof.
  unfold row_of. destruct (list_find _ R) as [[r [m l']]|] eqn:E.
  - apply list_find_Some in E as (Hr & Hl & Hb). cbn in Hl. subst l'. left. exists m. split; [done|]. intros k m' Hk.
    destruct (decide (r <= k)%nat); [done|]. exfalso. apply (Hb k _ Hk); [lia|done].
  - right. split; [done|]. intros r m Hr. apply list_find_None in E. rewrite Forall_lookup in E. by apply (E _ _ Hr).
Qed.

(** All columns before [i] of the first row hold nothing new while there is one row. *)
Lemma nothing_new TM rest R i k c : matrix_inv TM rest R 0 i -> length R = 1%nat -> (k < i)%nat -> words !! k = Some c ->
  dead arrows start [c] \/ same arrows start [c] [].
Proof.
  intros HI Hl Hk Hc. destruct (lookup_lt_is_Some_2 R 0) as [[m l] H0]; [lia|].
  pose proof (ro_first _ (mi_ok _ _ _ _ _ HI) _ _ H0) as Hset. assert (Hce : c <> EPS) by (intros ->; by apply Hwords, (list_elem_of_lookup_2 _ k)).
  destruct (mi_done _ _ _ _ _ HI 0 k c m l) as (t & u & _ & Hu & l' & _ & Hl' & Hcase); [right; done|done|done|].
  pose proof (same_snoc _ _ c Hce (is_set_same _ _ _ Hu Hset)) as Hs. cbn in Hs.
  destruct Hcase as [[-> _]|(_ & r' & Hr' & _)].
  - left. intros y Hy. apply is_set_dead in Hl'. apply (Hl' y). by apply Hs.
  - right. pose proof (lookup_lt_Some _ _ _ Hr'). assert (r' = 0%nat) as -> by lia. rewrite H0 in Hr'. injection Hr' as _ <-.
    intros y. rewrite <-(Hs y). apply (is_set_same _ _ _ Hl' Hset).
Qed.

Lemma word_not_eps i c : words !! i = Some c -> c <> EPS.
Proof. intros H ->. by apply Hwords, (list_elem_of_lookup_2 _ i). Qed.

(** The first new set is that of the second row. *)
Lemma second_set TM rest R i c m l u l' : matrix_inv TM rest R 0 i -> length R = 1%nat -> R !! 0%nat = Some (m, l) ->
  words !! i = Some c -> is_set u l -> is_set (u ++ [c]) l' -> l' <> [] -> row_of R l' = 1%nat -> first_new c /\ is_set [c] l'.
Proof.
  intros HI Hlen Hj Hi Hu Hl' Hne Hrow. pose proof (ro_first _ (mi_ok _ _ _ _ _ HI) _ _ Hj) as Hl0.
  pose proof (same_snoc _ _ c (word_not_eps _ _ Hi) (is_set_same _ _ _ Hu Hl0)) as Hsame. cbn in Hsame.
  assert (Hl'c : is_set [c] l') by (destruct Hl' as [K1 K2]; split; [done|]; intros y; rewrite K2; apply Hsame).
  split; [|done]. exists (take i words), (drop (S i) words). split; [symmetry; by apply take_drop_middle|].
  split; [|split].
  - apply Forall_forall. intros d [k Hk]%list_elem_of_lookup. apply lookup_take_Some in Hk as [Hk Hki].
    eapply nothing_new; [exact HI|lia|exact Hki|done].
  - intros Hd. apply is_set_dead in Hd. apply Hne. by eapply is_set_unique.
  - intros Hs. assert (l' = l) as -> by by eapply is_set_unique.
    destruct (row_of_lookup R l) as [(m' & _ & Hfirst)|[_ Hno]]; [pose proof (Hfirst _ _ Hj); lia|by apply (Hno _ _ Hj)].
Qed.

Lemma first_new_unique c c' : first_new c -> first_new c' -> c = c'.
Proof.
  assert (H : forall c c' pre pre' post post', words = pre ++ c :: post -> words = pre' ++ c' :: post' ->
    Forall (fun d => dead arrows start [d] \/ same arrows start [d] []) pre' -> ~ dead arrows start [c] ->
    ~ same arrows start [c] [] -> (length pre < length pre')%nat -> False).
  { intros d d' pre pre' post post' E E' HF H1 H2 Hlt. assert (Hd : pre' !! length pre = Some d).
    { rewrite <-(lookup_app_l pre' (d' :: post')), <-E', E by done. by apply list_lookup_middle. }
    rewrite Forall_lookup in HF. by destruct (HF _ _ Hd). }
  intros (pre & post & E & HF & H1 & H2) (pre' & post' & E' & HF' & H1' & H2').
  destruct (decide (length pre = length pre')) as [El|Hne].
  - assert (Hc : words !! length pre = Some c) by (rewrite E; by apply list_lookup_middle).
    rewrite E', El, list_lookup_middle in Hc by done. by injection Hc.
  - destruct (decide (length pre < length pre')%nat); exfalso; [by eapply (H c c')|]. eapply (H c' c); [exact E'|exact E|done..|lia].
Qed.

(** The row that a cell adds. *)
Lemma rows_ok_snoc TM rest R j i c m l u f l' : matrix_inv TM rest R j i -> R !! j = Some (m, l) -> words !! i = Some c ->
  is_set u l -> Forall (.∈ words) u -> is_set (u ++ [c]) l' -> l' <> [] -> row_of R l' = 1%nat -> input !! length R = Some f ->
  rows_ok (R ++ [(f, l')]).
Proof.
  intros HI Hj Hi Hu Huw Hl' Hne Hrow Hf. pose proof (mi_ok _ _ _ _ _ HI) as HR. pose proof (mi_some _ _ _ _ _ HI) as Hs.
  pose proof (lookup_lt_Some _ _ _ Hj) as Hjl. pose proof (word_not_eps _ _ Hi) as Hce.
  destruct (lookup_lt_is_Some_2 R 0) as [[m0 l0] H0]; [lia|]. pose proof (ro_first _ HR _ _ H0) as Hl0. split.
  - rewrite fmap_app, (ro_names _ HR), length_app, Nat.add_1_r. by rewrite (take_S_r _ _ _ Hf).
  - intros r m' k [Hr|[_ [_ [= <- <-]]%list_lookup_singleton_Some]]%lookup_app_Some; [by eapply (ro_set _ HR)|]. split; [done|].
    exists (u ++ [c]). split; [|done]. apply Forall_app. split; [done|]. apply Forall_singleton. by eapply list_elem_of_lookup_2.
  - intros m' k Hr. rewrite lookup_app_l in Hr by lia. by eapply (ro_first _ HR).
  - intros m' k [Hr|[Hge [Hr [= <- <-]]%list_lookup_singleton_Some]]%lookup_app_Some; [by eapply (ro_second _ HR)|].
    assert (j = 0%nat) as -> by lia. exists c. eapply second_set; [exact HI|lia|exact Hj|done..].
  - intros Ho. rewrite fmap_app. apply NoDup_app. split; [by apply (ro_once _ HR)|]. split; [|apply NoDup_singleton].
    intros k Hk ->%list_elem_of_singleton. cbn in Hk. apply list_elem_of_fmap in Hk as ([m' k] & Ek & [r Hr]%list_elem_of_lookup).
    cbn in Ek. subst k. destruct (row_of_lookup R l') as [(m1 & H1 & _)|[_ Hno]]; [|by eapply Hno]. rewrite Hrow in H1.
    destruct (ro_second _ HR _ _ H1) as (c0 & Hc0 & Hset0). destruct (Ho c0 u c Hc0 Huw) as [Hun ->].
    { by eapply list_elem_of_lookup_2. }
    { by eapply is_set_same. }
    assert (l = l0) as -> by by eapply is_set_unique. assert (j = 0%nat) as -> by by eapply row_unique.
    destruct (mi_order _ _ _ _ _ HI ltac:(apply lookup_lt_Some in H1; lia) i c0 Hi Hc0); lia.
Qed.

Lemma fill_cell_spec TM rest R j i c m l : matrix_inv TM rest R j i -> R !! j = Some (m, l) -> words !! i = Some c ->
  may (fun s => exists R', matrix_inv s.1 s.2 R' j (S i) /\ R `prefix_of` R') (exists R, rows_ok R /\ length R = MAX)
    (fill_cell g j (S i) (TM, rest)).
Proof.
  intros HI Hj Hi. pose proof (mi_shape _ _ _ _ _ HI) as HS. pose proof (mi_ok _ _ _ _ _ HI) as HR. pose proof (mi_some _ _ _ _ _ HI) as Hsome.
  pose proof (lookup_lt_Some _ _ _ Hj) as Hjl. pose proof (lookup_lt_Some _ _ _ Hi) as Hil. pose proof (word_not_eps _ _ Hi) as Hce.
  destruct (ro_set _ HR _ _ _ Hj) as (Hlne & u & Huw & Hu). destruct (sh_queue _ _ _ _ _ HS Hi) as (q & Hq & Hqc).
  assert (Hcell : node TM (S i) j = Ret (TableNode 0 (arr []))) by (apply (mi_todo _ _ _ _ _ HI); unfold filled; lia).
  unfold fill_cell. rewrite Hq. bind. rewrite (mi_row _ _ _ _ _ HI _ _ _ Hj), Hcell. bind. rewrite Hqc. cbn [ch newname].
  destruct (subset_step u c l Hu Hce) as (l' & Hstep & Hl'). rewrite (bind_seq _ _ _ _ Hstep). bind.
  pose proof (is_set_string _ _ Hl') as Hstr.
  destruct (set_ch_spec words TM _ (S i) j _ (arr l') HS Hcell) as (TM1 & -> & HS1 & Hn1 & Hsame1). bind. cbn [newname] in Hn1.
  assert (Hrow1 : forall r m l, R !! r = Some (m, l) -> node TM1 0 r = Ret (TableNode m (arr l))).
  { intros r m' k Hr. rewrite Hsame1 by (left; lia). by apply (mi_row _ _ _ _ _ HI). }
  destruct (decide (l' = [])) as [->|Hne].
  { rewrite arr_end by (cbn; lia). bind. exists R. split; [|done]. rewrite (mi_rest _ _ _ _ _ HI).
    apply (inv_next TM TM1 rest R R j i c m l u (TableNode 0 (arr [])));
      [done..|lia|done|done|exact Hn1| | | |tauto].
    - exists []. split; [done|]. split; [done|]. by left.
    - intros r m' k Hr Hge. apply lookup_lt_Some in Hr. lia.
    - intros i' r [H _]. apply Hsame1. lia. }
  assert (Hget : exists y, aget (arr l') 0 = Ret y /\ y <> 0).
  { destruct l' as [|y k]; [done|]. exists y. split; [by apply arr_get|]. intros ->. by apply (proj1 Hstr), list_elem_of_here. }
  destruct Hget as (y & -> & Hy). bind. rewrite (proj2 (Z.eqb_neq _ _) Hy).
  rewrite (CheckTable_spec words TM1 R l' HS1 Hstr) by (done || (intros m' k [r Hr]%list_elem_of_lookup;
    destruct (ro_set _ HR _ _ _ Hr) as (_ & v & _ & Hv); by eapply is_set_string)). bind.
  destruct (Nat.eqb_spec (row_of R l') 1) as [Hone|Hnone].
  - destruct (scan_char 0 rest) as [f rest'] eqn:Escan.
    destruct (set_newname_spec words TM1 _ (S i) j _ f HS1 Hn1) as (TM2 & -> & HS2 & Hn2 & Hsame2). bind. cbn [ch] in Hn2.
    rewrite (sh_rows _ _ _ HS2). bind. destruct (decide (length R = MAX)) as [Hfull|Hroom].
    { rewrite Hfull, (node_out _ _ _ _ HS2). bind. by exists R. }
    assert (Hnew : node TM2 0 (length R) = Ret (TableNode 0 (arr []))).
    { rewrite Hsame2 by (left; lia). rewrite Hsame1 by (left; lia). apply (mi_spare _ _ _ _ _ HI). lia. }
    rewrite Hnew. bind. cbn [ch].
    assert (Hcpy : strcpy (S (length (arr l'))) (arr []) (arr l') 0 = Ret (arr l'))
      by (apply (strcpy_arr l' _ Hstr 0); [|rewrite arr_length]; destruct Hstr; lia).
    rewrite Hcpy. bind.
    destruct (set_ch_spec words TM2 _ 0 (length R) _ (arr l') HS2 Hnew) as (TM3 & -> & HS3 & Hn3 & Hsame3). bind. cbn [newname] in Hn3.
    destruct (set_newname_spec words TM3 _ 0 (length R) _ f HS3 Hn3) as (TM4 & -> & HS4 & Hn4 & Hsame4). bind. cbn [ch] in Hn4.
    destruct (add_row_spec words TM4 _ HS4) as (TM5 & -> & HS5 & Hsame5). bind.
    assert (Hin : input !! length R = Some f /\ rest' = drop (S (length R)) input).
    { rewrite (mi_rest _ _ _ _ _ HI) in Escan. destruct (lookup_lt_is_Some_2 input (length R)) as [z Hz]; [destruct Hinput; lia|].
      rewrite (drop_S _ _ _ Hz) in Escan. injection Escan as -> ->. done. }
    destruct Hin as [Hf ->]. exists (R ++ [(f, l')]). split; [|by eexists]. cbn [fst snd].
    assert (HlR : length (R ++ [(f, l')]) = S (length R)) by (rewrite length_app; cbn; lia). rewrite <-HlR in HS5 |- *.
    apply (inv_next TM TM5 rest R (R ++ [(f, l')]) j i c m l u (TableNode f (arr l')));
      [done..|by eexists|lia|done|by eapply rows_ok_snoc| | | | |].
    + rewrite Hsame5, Hsame4, Hsame3 by (done || (left; lia)). exact Hn2.
    + exists l'. split; [done|]. split; [done|]. right. split; [done|]. exists (length R). cbn [newname].
      split; [by rewrite list_lookup_middle|]. by intros.
    + intros r m' k Hr Hge. assert (r = length R) as -> by (apply lookup_lt_Some in Hr; lia).
      rewrite list_lookup_middle in Hr by done. injection Hr as <- <-. rewrite Hsame5 by done. exact Hn4.
    + intros i' r [H1 H2]. rewrite HlR in H2. rewrite Hsame5, Hsame4, Hsame3, Hsame2, Hsame1 by (done || lia). done.
    + intros _. destruct (decide (1 < length R)%nat) as [|Hle]; [by left|right]. assert (j = 0%nat) as -> by lia.
      intros k c0 Hk Hc0. apply filled_next. destruct (decide (k = i)); [by right|left]. right. split; [done|].
      destruct (decide (k < i)%nat); [done|exfalso].
      destruct (second_set TM rest R i c m l u l' HI) as [Hc _]; [lia|done..|].
      rewrite (first_new_unique _ _ Hc0 Hc) in Hk. by pose proof (NoDup_lookup _ _ _ _ Hdistinct Hk Hi).
  - destruct (row_of_lookup R l') as [(m' & Hm' & Hfirst)|[? _]]; [|done]. rewrite (Hrow1 _ _ _ Hm'). bind. cbn [newname].
    destruct (set_newname_spec words TM1 _ (S i) j _ m' HS1 Hn1) as (TM2 & -> & HS2 & Hn2 & Hsame2). bind. cbn [ch] in Hn2.
    exists R. split; [|done]. cbn [fst snd]. rewrite (mi_rest _ _ _ _ _ HI).
    apply (inv_next TM TM2 rest R R j i c m l u (TableNode m' (arr l'))); [done..|lia|done|done|exact Hn2| | | |tauto].
    + exists l'. split; [done|]. split; [done|]. right. split; [done|]. exists (row_of R l'). split; [done|].
      intros m1 m0 l0 H1 H0 Hll. pose proof (Hfirst _ _ H1). assert (E0 : row_of R l' = 0%nat) by lia. rewrite E0, H0 in Hm'.
      by injection Hm' as _ ->.
    + intros r m1 k Hr Hge. apply lookup_lt_Some in Hr. lia.
    + intros i' r [H _]. rewrite Hsame2, Hsame1 by lia. done.
Qed.
End construction.
