(* ===== verification/Nfa2dfaThm.v ===== *)
(** What nfa2dfa.c computes: the transitions it prints are those of the automaton of the
    reachable state sets, provided the set in the second row is not reached twice; when
    that set has a transition to itself the program leaves its table. *)
From S2P Require Import Prelude Arrays Heap Nfa2dfa Nfa2dfaSets Nfa2dfaGraph Nfa2dfaMatrix Nfa2dfaInv.

(** ** Specification *)

(** The state that the printed transitions lead to on a word. *)
Fixpoint walk (out : list (Z * Z * Z)) (n : Z) (u : list Z) : option Z :=
  match u with
  | [] => Some n
  | c :: u =>
      match list_find (fun t => t.1 = (n, c)) out with
      | Some (_, t) => walk out t.2 u
      | None => None
      end
  end.

(** Input that fits: at most nine names, none of them NUL, edges between them, different
    characters, and ten names for the new states, none of them NUL. *)
Record valid (junk : list vertex) (names : list Z) (arrows : list (Z * Z * Z)) (words input : list Z) : Prop := Valid {
  va_junk : length junk = MAX;
  va_names : 0 ∉ names;
  va_few : (length (remove_dups names) < MAX)%nat;
  va_fits : (length names <= MAX)%nat;
  va_arrows : Forall (fun a => a.1.1 ∈ names /\ a.2 ∈ names) arrows;
  va_words : words <> [];
  va_eps : EPS ∉ words;
  va_distinct : NoDup words;
  va_input : (0 ∉ input) /\ (MAX <= length input)%nat;
  va_fresh : NoDup input
}.

(** ** Lemmas on loops and lists *)

Lemma may_for {A} (P : nat -> A -> Prop) X n (body : nat -> A -> res A) : forall lo a, P lo a ->
  (forall i x, (lo <= i < lo + n)%nat -> P i x -> may (P (S i)) X (body i x)) -> may (P (lo + n)%nat) X (for_ lo n body a).
Proof.
  induction n as [|n IH]; intros lo a Ha Hb; cbn [for_]; [by rewrite Nat.add_0_r|].
  pose proof (Hb lo a ltac:(lia) Ha) as H. destruct (body lo a) as [a'| |]; bind; [|done..].
  rewrite Nat.add_succ_r. apply (IH (S lo)); [done|]. intros i x Hi. apply Hb. lia.
Qed.

Lemma may_bind {A B} (P : A -> Prop) (Q : B -> Prop) X m (f : A -> res B) :
  may P X m -> (forall x, P x -> may Q X (f x)) -> may Q X (m ≫= f).
Proof. destruct m; cbn; [by intros H1 H2; apply H2|done..]. Qed.

Lemma may_mono {A} (P Q : A -> Prop) X m : (forall x, P x -> Q x) -> may P X m -> may Q X m.
Proof. destruct m; cbn; [by intros H1 H2; apply H1|done..]. Qed.

Lemma pigeonhole {A B} (rel : A -> B -> Prop) (L : list A) : forall F : list B, NoDup L ->
  (forall x, x ∈ L -> exists y, y ∈ F /\ rel x y) -> (forall x x' y, rel x y -> rel x' y -> x = x') -> (length L <= length F)%nat.
Proof.
  induction L as [|x L IH]; intros F Hn HF Hinj; [cbn; lia|]. apply NoDup_cons in Hn as [Hx Hn].
  destruct (HF x ltac:(left)) as (y & Hy & Hr). apply list_elem_of_split in Hy as (F1 & F2 & ->).
  rewrite length_app. cbn. enough (length L <= length (F1 ++ F2))%nat by (rewrite length_app in *; lia).
  apply IH; [done| |done]. intros x' Hx'. destruct (HF x' ltac:(by right)) as (y' & Hy' & Hr').
  exists y'. split; [|done]. apply elem_of_app in Hy' as [H|[->|H]%elem_of_cons].
  - apply elem_of_app. by left.
  - assert (x' = x) as -> by by eapply Hinj. done.
  - apply elem_of_app. by right.
Qed.

Lemma last_such (P : nat -> Prop) n : (forall i, P i -> (i < n)%nat) -> (exists i, P i) -> (forall i, Decision (P i)) ->
  exists i, P i /\ forall k, P k -> (k <= i)%nat.
Proof.
  induction n as [|n IH]; intros Hn [i Hi] Hd; [apply Hn in Hi; lia|]. destruct (Hd n) as [Hp|Hp].
  - exists n. split; [done|]. intros k Hk. apply Hn in Hk. lia.
  - apply IH; [|by exists i|done]. intros k Hk. assert (k <> n) by (by intros ->). apply Hn in Hk. lia.
Qed.

(** ** The construction *)

Section construction.
Context (g : graph) (Vs : list (Z * list edge)) (Hview : viewed g Vs).
Context (Hnonzero : 0 ∉ Vs.*1) (Hfew : (length (remove_dups Vs.*1) < MAX)%nat).
Context (arrows : list (Z * Z * Z)) (Harrows : forall x c y, arrow Vs x c y <-> (x, c, y) ∈ arrows).
Context (start : Z) (Hstart : exists L, Vs !! 0%nat = Some (start, L)).
Context (words : list Z) (Hsome : words <> []) (Hwords : EPS ∉ words) (Hdistinct : NoDup words).
Context (input : list Z) (Hinput : (0 ∉ input) /\ (MAX <= length input)%nat).

Local Abbreviation inv := (matrix_inv Vs arrows start words input).
Local Abbreviation stuck := (exists R, rows_ok Vs arrows start words input R /\ length R = MAX).

Lemma next_row TM rest R j : inv TM rest R j (length words) -> inv TM rest R (S j) 0.
Proof.
  intros H. assert (Hf : forall r k, (k < length words)%nat -> filled (S j) 0 r k <-> filled j (length words) r k).
  { intros r k Hk. unfold filled. lia. }
  destruct H as [H1 H2 H3 H4 H5 H6 H7 H8 H9]. split; try done.
  - intros r k c m l Hr Hk. apply (H7 r k c m l); [|done]. apply Hf; [by eapply lookup_lt_Some|done].
  - intros r k Hr Hk. apply (H8 r k); [|done]. by rewrite <-Hf.
  - intros Hl k c0 Hk. rewrite Hf by by eapply lookup_lt_Some. by apply H9.
Qed.

Lemma fill_rows_spec n : forall j TM rest R, inv TM rest R j 0 -> (j <= length R)%nat -> (MAX <= n + j)%nat ->
  may (fun s => exists R', inv s.1 s.2 R' (length R') 0 /\ R `prefix_of` R') stuck (fill_rows n g j (TM, rest)).
Proof.
  induction n as [|n IH]; intros j TM rest R HI Hj Hn; cbn [fill_rows fst]; rewrite (sh_rows _ _ _ (mi_shape _ _ _ _ _ _ _ _ _ _ HI)); bind;
    pose proof (mi_some _ _ _ _ _ _ _ _ _ _ HI); destruct (Nat.leb_spec (length R) j).
  - exists R. assert (j = length R) as -> by lia. done.
  - lia.
  - exists R. assert (j = length R) as -> by lia. done.
  - rewrite (sh_transnum _ _ _ (mi_shape _ _ _ _ _ _ _ _ _ _ HI)).
    eapply may_bind; [apply (may_for (fun i s => exists R', inv s.1 s.2 R' j (i - 1) /\ R `prefix_of` R'))|].
    + by exists R.
    + intros i [TM1 rest1] Hi (R1 & HI1 & Hp1). destruct i as [|i]; [lia|]. cbn [Nat.sub fst snd] in HI1 |- *. rewrite Nat.sub_0_r in HI1.
      destruct (lookup_lt_is_Some_2 words i) as [c Hc]; [lia|].
      destruct (lookup_lt_is_Some_2 R1 j) as [[m l] Hm]; [apply prefix_length in Hp1; lia|].
      eapply may_mono; [|by eapply (fill_cell_spec g Vs Hview Hnonzero Hfew arrows Harrows start words Hwords Hdistinct input Hinput)].
      intros s (R2 & HI2 & Hp2). exists R2. split; [done|by etrans].
    + intros [TM1 rest1] (R1 & HI1 & Hp1). cbn [fst snd] in HI1. replace (1 + length words - 1)%nat with (length words) in HI1 by lia.
      pose proof (prefix_length _ _ Hp1). eapply may_mono; [|apply (IH (S j) TM1 rest1 R1); [by apply next_row|lia|lia]].
      intros s (R2 & HI2 & Hp2). exists R2. split; [done|by etrans].
Qed.

Lemma same_nil_start : reached arrows start [] start.
Proof. constructor. Qed.

(** The first row. *)
Lemma start_set l0 : names_ok Vs l0 -> (forall y, reached arrows start [] y <-> exists x, x ∈ l0 /\ rtc (fun x y => (x, EPS, y) ∈ arrows) x y) ->
  exists l, E_Closure g (arr l0) = Ret (arr l) /\ is_set Vs arrows start [] l.
Proof.
  intros H0 Hl0. destruct (E_Closure_spec g Vs Hview Hnonzero Hfew l0 H0) as (l & E & Hl & Hin). exists l. split; [done|]. split; [done|].
  intros y. rewrite Hin, Hl0. split; intros (x & Hx & Hr); exists x; (split; [done|]); (eapply rtc_subrel; [|exact Hr]); intros a b; apply Harrows.
Qed.

Lemma start_closure : exists l, for_ 1 (length words) (fun _ t => E_Closure g t) (arr [start]) = Ret (arr l) /\ is_set Vs arrows start [] l.
Proof.
  destruct Hstart as [L HL]. assert (Hok : names_ok Vs [start]).
  { split; [apply NoDup_singleton|]. intros y ->%list_elem_of_singleton. apply list_elem_of_fmap. exists (start, L).
    split; [done|]. by eapply list_elem_of_lookup_2. }
  assert (H1 : exists l, E_Closure g (arr [start]) = Ret (arr l) /\ is_set Vs arrows start [] l).
  { apply start_set; [done|]. intros y. unfold reached. rewrite <-run_closure. split; [intros; exists start; split; [by left|done]|].
    by intros (x & ->%list_elem_of_singleton & ?). }
  destruct (for_inv (fun i t => (i = 1%nat /\ t = arr [start]) \/ exists l, t = arr l /\ is_set Vs arrows start [] l)
    1 (length words) (fun _ t => E_Closure g t) (arr [start])) as (t & -> & Ht); [by left| |].
  - intros i t _ [[-> ->]|(l & -> & Hl)].
    + destruct H1 as (l & -> & Hl). exists (arr l). split; [done|]. right. by exists l.
    + destruct (start_set l) as (l' & -> & Hl'); [apply Hl| |exists (arr l'); split; [done|]; right; by exists l']. destruct Hl as [_ Hin]. intros y. split.
      * intros Hy. exists y. split; [by apply Hin|done].
      * intros (x & Hx%Hin & Hr). unfold reached in *. rewrite <-run_closure in *. by etrans.
  - destruct Ht as [[Hl _]|(l & -> & Hl)]; [destruct words; [done|cbn in Hl; lia]|by exists l].
Qed.

Lemma NFA_to_DFA_spec : may (fun s => exists R, inv s.1 s.2 R (length R) 0) stuck (NFA_to_DFA g (Init_Matrix words) input).
Proof.
  destruct Hstart as [L HL]. destruct (vw_vertex _ _ Hview _ _ _ HL) as (p & Hp & _). unfold NFA_to_DFA. rewrite Hp. bind.
  pose proof (Init_Matrix_shape words) as HS. pose proof (Init_Matrix_blank words 0 0 ltac:(lia) ltac:(unfold MAX; lia)) as H00.
  rewrite H00. bind. cbn [ch data newname]. 
  assert (H0 : aset (arr []) 0 start = Ret (arr [start])) by (apply (arr_snoc []); cbn; unfold MAX; lia). rewrite H0. bind.
  rewrite (sh_transnum _ _ _ HS). destruct start_closure as (l & -> & Hl). bind.
  destruct (set_ch_spec words _ _ 0 0 _ (arr l) HS H00) as (TM1 & -> & HS1 & Hn1 & Hsame1). bind. cbn [newname] in Hn1.
  assert (Hf : exists f, take 1 input = [f] /\ scan_char 0 input = (f, drop 1 input)).
  { destruct input as [|f rest]; [destruct Hinput as [_ Hi]; cbn in Hi; unfold MAX in Hi; lia|by exists f]. }
  destruct Hf as (f & Ef & Escan). rewrite Escan.
  destruct (set_newname_spec words TM1 _ 0 0 _ f HS1 Hn1) as (TM2 & -> & HS2 & Hn2 & Hsame2). bind. cbn [ch] in Hn2.
  destruct (add_row_spec words TM2 _ HS2) as (TM3 & -> & HS3 & Hsame3). bind.
  assert (Hother : forall i j, (i <> 0 \/ j <> 0)%nat -> (i <= length words)%nat -> (j < MAX)%nat ->
    node TM3 i j = Ret (TableNode 0 (arr []))).
  { intros i j Hij Hi Hj. rewrite Hsame3, Hsame2, Hsame1 by done. by apply Init_Matrix_blank. }
  eapply may_mono; [|apply (fill_rows_spec MAX 0 TM3 (drop 1 input) [(f, l)]); [|cbn; lia|lia]].
  { intros s (R & HR & _). by exists R. }
  split; cbn [length]; try done; [|unfold MAX; lia|..].
  - split; cbn [length].
    + by rewrite Ef.
    + intros r m k Hr. apply list_lookup_singleton_Some in Hr as [_ [= <- <-]]. split; [|exists []; split; [constructor|done]].
      intros ->. apply is_set_dead in Hl. apply (Hl start). apply same_nil_start.
    + intros m k [= <- <-]. done.
    + done.
    + intros _. apply NoDup_singleton.
  - intros r m k Hr. apply list_lookup_singleton_Some in Hr as [-> [= <- <-]]. rewrite Hsame3 by done. exact Hn2.
  - intros r Hr. apply Hother; lia.
  - intros r k c m k' Hr. unfold filled in Hr. lia.
  - intros r k _ Hk Hr. apply Hother; lia.
  - lia.
Qed.

(** ** What is printed *)

Lemma run_split u v : forall x z, run arrows (u ++ v) x z -> exists y, run arrows u x y.
Proof.
  intros x z H. remember (u ++ v) as w eqn:Ew. revert u Ew.
  induction H as [x|w x y z Ha _ IH|c w x y z Hc Ha _ IH]; intros u Ew.
  - exists x. symmetry in Ew. apply app_eq_nil in Ew as [-> _]. constructor.
  - destruct (IH u Ew) as [y' Hy]. exists y'. by eapply run_eps.
  - destruct u as [|d u]; [exists x; constructor|]. cbn in Ew. injection Ew as <- ->. destruct (IH u eq_refl) as [y' Hy].
    exists y'. by eapply run_char.
Qed.

Lemma dead_app u v : dead arrows start u -> dead arrows start (u ++ v).
Proof. intros Hd y Hy. apply run_split in Hy as [x Hx]. by apply (Hd x). Qed.

(** A printed transition, by its cell. *)
Definition shown (TM : matrix) (R : list (Z * list Z)) (x : Z * Z * Z) (r k : nat) : Prop :=
  exists n l c t, R !! r = Some (n, l) /\ words !! k = Some c /\ node TM (S k) r = Ret t /\ newname t <> 0 /\ x = (n, c, newname t).

Lemma row_names TM rest R r n l : inv TM rest R (length R) 0 -> R !! r = Some (n, l) -> n <> 0 /\ input !! r = Some n.
Proof.
  intros HI Hr. pose proof (ro_names _ _ _ _ _ _ (mi_ok _ _ _ _ _ _ _ _ _ _ HI)) as Hn.
  assert (Hi : input !! r = Some n).
  { rewrite <-(lookup_take_lt input (length R)) by by eapply lookup_lt_Some. by rewrite <-Hn, list_lookup_fmap, Hr. }
  split; [|done]. intros ->. by apply (proj1 Hinput), (list_elem_of_lookup_2 _ r).
Qed.

Lemma cell_at TM rest R r k : inv TM rest R (length R) 0 -> (r < MAX)%nat -> (k < length words)%nat ->
  exists t, node TM (S k) r = Ret t /\ ((length R <= r)%nat -> t = TableNode 0 (arr [])).
Proof.
  intros HI Hr Hk. destruct (decide (r < length R)%nat) as [Hlt|Hge].
  - destruct (lookup_lt_is_Some_2 _ _ Hlt) as [[m l] Hm]. destruct (lookup_lt_is_Some_2 _ _ Hk) as [c Hc].
    destruct (mi_done _ _ _ _ _ _ _ _ _ _ HI r k c m l) as (t & u & Ht & _); [by left|done|done|]. exists t. split; [done|]. lia.
  - exists (TableNode 0 (arr [])). split; [|done]. apply (mi_todo _ _ _ _ _ _ _ _ _ _ HI); [unfold filled; lia|done|done].
Qed.

Lemma show_rows_spec TM rest R n : inv TM rest R (length R) 0 -> (length R < MAX)%nat -> forall j out, (j <= length R)%nat ->
  (MAX < n + j)%nat -> (forall x, x ∈ out <-> exists r k, (r < j)%nat /\ shown TM R x r k) ->
  exists out', show_rows n TM j out = Ret out' /\ forall x, x ∈ out' <-> exists r k, shown TM R x r k.
Proof.
  intros HI Hroom. induction n as [|n IH]; intros j out Hj Hn Hout; [lia|]. cbn [show_rows].
  destruct (decide (j = length R)) as [->|Hne].
  - rewrite (mi_spare _ _ _ _ _ _ _ _ _ _ HI) by lia. bind. cbn [newname]. exists out. split; [done|]. intros x. rewrite Hout.
    split; intros (r & k & H); exists r, k; [by destruct H|]. split; [|done]. destruct H as (m & l & _ & _ & Hr & _).
    by eapply lookup_lt_Some.
  - destruct (lookup_lt_is_Some_2 R j) as [[m l] Hm]; [lia|]. rewrite (mi_row _ _ _ _ _ _ _ _ _ _ HI _ _ _ Hm). bind. cbn [newname].
    rewrite (proj2 (Z.eqb_neq _ _)) by by eapply row_names. rewrite (sh_transnum _ _ _ (mi_shape _ _ _ _ _ _ _ _ _ _ HI)).
    match goal with |- context [for_ 1 (length words) ?body out] =>
      destruct (for_inv (fun i out' => forall x, x ∈ out' <-> x ∈ out \/ exists k, (S k < i)%nat /\ shown TM R x j k) 1 (length words) body out)
        as (out1 & -> & Hout1) end.
    + intros x. split; [by left|]. intros [?|(k & Hk & _)]; [done|lia].
    + intros i out1 Hi Hout1. destruct i as [|i]; [lia|]. destruct (lookup_lt_is_Some_2 words i) as [c Hc]; [lia|].
      destruct (sh_queue _ _ _ _ _ (mi_shape _ _ _ _ _ _ _ _ _ _ HI) Hc) as (q & -> & Hq). bind.
      destruct (cell_at TM rest R j i HI) as (t & Ht & _); [lia|lia|]. rewrite Ht. bind. cbn [newname].
      assert (Hk : forall x k, (S k < S (S i))%nat /\ shown TM R x j k <-> (S k < S i)%nat /\ shown TM R x j k \/
        (k = i /\ newname t <> 0 /\ x = (m, c, newname t))).
      { intros x k. split.
        - intros [Hk Hs]. destruct (decide (k = i)) as [->|]; [right|left; split; [lia|done]]. split; [done|].
          destruct Hs as (m' & l' & c' & t' & H1 & H2 & H3 & H4 & ->). rewrite Ht in H3. by simplify_eq.
        - intros [[Hk Hs]|(-> & Hz & ->)]; (split; [lia|]); [done|]. by exists m, l, c, t. }
      eexists. split; [done|]. intros x. setoid_rewrite Hk. rewrite Hq. destruct (Z.eqb_spec (newname t) 0) as [Hz|Hz].
      * rewrite Hout1. naive_solver.
      * rewrite elem_of_app, Hout1, list_elem_of_singleton. naive_solver.
    + bind. apply IH; [lia|lia|]. intros x. rewrite Hout1, Hout. split.
      * intros [(r & k & Hr & Hs)|(k & _ & Hs)]; [exists r, k|exists j, k]; (split; [lia|done]).
      * intros (r & k & Hr & Hs). destruct (decide (r = j)) as [->|]; [right|left; exists r, k; split; [lia|done]].
        exists k. split; [|done]. destruct Hs as (m' & l' & c' & t' & _ & Hc & _). apply lookup_lt_Some in Hc. lia.
Qed.

Lemma Show_DFA_spec TM rest R : inv TM rest R (length R) 0 -> (length R < MAX)%nat ->
  exists out, Show_DFA TM = Ret out /\ forall x, x ∈ out <-> exists r k, shown TM R x r k.
Proof.
  intros HI Hroom. apply (show_rows_spec TM rest R (S MAX) HI Hroom 0 []); [lia|lia|]. intros x. rewrite elem_of_nil.
  split; [done|]. intros (r & k & Hr & _). lia.
Qed.

(** Walking along the printed transitions. *)
Lemma printed_walk TM rest R out : NoDup input -> inv TM rest R (length R) 0 -> (forall x, x ∈ out <-> exists r k, shown TM R x r k) ->
  forall u r n l v, R !! r = Some (n, l) -> is_set Vs arrows start v l -> Forall (.∈ words) u ->
  match walk out n u with
  | Some m => exists r' l', R !! r' = Some (m, l') /\ is_set Vs arrows start (v ++ u) l'
  | None => dead arrows start (v ++ u)
  end.
Proof.
  intros Hfresh HI Hout. induction u as [|c u IH]; intros r n l v Hr Hl Hu; cbn [walk].
  - exists r, l. by rewrite app_nil_r.
  - apply Forall_cons in Hu as [Hc Hu]. apply list_elem_of_lookup in Hc as [k Hk]. pose proof (word_not_eps _ Hwords _ _ Hk) as Hce.
    destruct (mi_done _ _ _ _ _ _ _ _ _ _ HI r k c n l) as (t & w & Ht & Hw & l' & Hch & Hl' & Hcase);
      [left; by eapply lookup_lt_Some|done|done|].
    assert (Hl'v : is_set Vs arrows start (v ++ [c]) l').
    { destruct Hl' as [K1 K2]. split; [done|]. intros y. rewrite K2. apply same_snoc; [done|]. by eapply is_set_same. }
    assert (Hfind : forall m, (n, c, m) ∈ out -> m = newname t).
    { intros m (r' & k' & n' & l2 & c' & t' & H1 & H2 & H3 & _ & [= <- <- ->])%Hout.
      destruct (row_names _ _ _ _ _ _ HI Hr) as [_ Hi]. destruct (row_names _ _ _ _ _ _ HI H1) as [_ Hi'].
      pose proof (NoDup_lookup _ _ _ _ Hfresh Hi Hi') as ->. pose proof (NoDup_lookup _ _ _ _ Hdistinct Hk H2) as ->. congruence. }
    destruct (list_find (fun t => t.1 = (n, c)) out) as [[i [[n1 c1] m]]|] eqn:Ef.
    + apply list_find_Some in Ef as (Hi & [= -> ->] & _). apply list_elem_of_lookup_2 in Hi. pose proof (Hfind _ Hi) as ->. cbn [snd].
      apply Hout in Hi as (r1 & k1 & n' & l2 & c' & t' & H1 & H2 & H3 & Hz & [= <- <- Ez]).
      destruct Hcase as [[_ E0]|(Hne & r' & Hr' & _)]; [congruence|].
      replace (v ++ c :: u) with ((v ++ [c]) ++ u) by by rewrite <-app_assoc. by apply (IH r' _ l').
    + destruct Hcase as [[-> _]|(Hne & r' & Hr' & _)].
      * replace (v ++ c :: u) with ((v ++ [c]) ++ u) by by rewrite <-app_assoc. apply dead_app. by eapply is_set_dead.
      * exfalso. apply list_find_None in Ef. rewrite Forall_forall in Ef. apply (Ef (n, c, newname t)); [|done].
        apply Hout. exists r, k, n, l, c, t. do 3 (split; [done|]). split; [|done]. by eapply row_names.
Qed.
End construction.

(** ** The program *)

(** The graph that is built, as the construction needs it. *)
Record built (g : graph) (Vs : list (Z * list (nat * edge))) (start : Z) (arrows : list (Z * Z * Z)) : Prop := Built {
  bu_graph : graph_inv g Vs;
  bu_zero : 0 ∉ (strip Vs).*1;
  bu_few : (length (remove_dups (strip Vs).*1) < MAX)%nat;
  bu_arrows : forall x c y, arrow (strip Vs) x c y <-> (x, c, y) ∈ arrows;
  bu_start : exists L, strip Vs !! 0%nat = Some (start, L)
}.

Lemma construct_built junk start more arrows words input : valid junk (start :: more) arrows words input ->
  exists g Vs, Construct_Graph junk (start :: more) arrows = Ret g /\ built g Vs start arrows.
Proof.
  intros HV. destruct (Construct_Graph_spec junk (start :: more) arrows) as (g & Vs & E & HG & Hn & Ha); [apply HV..|].
  exists g, Vs. split; [done|]. pose proof (strip_names Vs) as Hs. rewrite Hn in Hs. split; [done|rewrite Hs; apply HV|rewrite Hs; apply HV|done|].
  apply name_at. by rewrite Hn.
Qed.

(** The part of [main] after the construction. *)
Definition report (g : graph) (TM : matrix) : res (list (Z * Z * Z) * heap edge) :=
  _ ← Show_TranMatrix TM;
  out ← Show_DFA TM;
  g ← Destruct_Graph g;
  _ ← Show_Graph g;
  Ret (out, edges g).

Lemma main_built junk start more arrows words input g Vs : Construct_Graph junk (start :: more) arrows = Ret g ->
  built g Vs start arrows ->
  main junk (start :: more) arrows words input = (s ← NFA_to_DFA g (Init_Matrix words) input; report g s.1).
Proof.
  intros E HB. unfold main. rewrite E. bind. destruct (Show_Graph_returns g (strip Vs)) as [o ->]; [apply graph_viewed, HB|]. bind.
  destruct (Show_TranMatrix_returns words (Init_Matrix words) 0) as [o' ->]; [apply Init_Matrix_shape| |].
  - intros i j Hi Hj. exists 0, []. split; [by apply Init_Matrix_blank|]. split; [apply not_elem_of_nil|cbn; unfold MAX; lia].
  - bind. destruct (NFA_to_DFA _ _ _) as [[TM r]| |]; bind; done.
Qed.

Lemma report_spec g Vs start arrows words input TM rest R : built g Vs start arrows -> EPS ∉ words -> (0 ∉ input) /\ (MAX <= length input)%nat ->
  matrix_inv (strip Vs) arrows start words input TM rest R (length R) 0 -> (length R < MAX)%nat ->
  exists out h, report g TM = Ret (out, h) /\ live h = [] /\ forall x, x ∈ out <-> exists r k, shown words TM R x r k.
Proof.
  intros HB He Hi HI Hroom. unfold report.
  destruct (Show_TranMatrix_returns words TM (length R)) as [o ->]; [apply HI| |].
  { intros i j Hil Hj. destruct (decide (j < length R)%nat) as [Hlt|Hge].
    - destruct (lookup_lt_is_Some_2 _ _ Hlt) as [[m l] Hm].
      assert (Hl : forall u l, is_set (strip Vs) arrows start u l -> string_ok l) by (intros; eapply is_set_string; [apply HB..|done]).
      destruct i as [|k].
      + exists m, l. split; [by apply (mi_row _ _ _ _ _ _ _ _ _ _ HI)|]. destruct (ro_set _ _ _ _ _ _ (mi_ok _ _ _ _ _ _ _ _ _ _ HI) _ _ _ Hm) as (_ & u & _ & Hu).
        by eapply Hl.
      + destruct (lookup_lt_is_Some_2 words k) as [c Hc]; [lia|].
        destruct (mi_done _ _ _ _ _ _ _ _ _ _ HI j k c m l) as ([nm ct] & u & Ht & _ & l' & Hch & Hl' & _); [by left|done|done|].
        cbn in Hch. subst ct. exists nm, l'. split; [done|]. by eapply Hl.
    - exists 0, []. split; [|split; [apply not_elem_of_nil|cbn; unfold MAX; lia]]. destruct i as [|k].
      + apply (mi_spare _ _ _ _ _ _ _ _ _ _ HI). lia.
      + apply (mi_todo _ _ _ _ _ _ _ _ _ _ HI); [unfold filled; lia|lia|done]. }
  bind. destruct (Show_DFA_spec _ (bu_few _ _ _ _ HB) _ (bu_arrows _ _ _ _ HB) _ (bu_start _ _ _ _ HB) _ _ Hi TM rest R HI Hroom) as (out & -> & Hout). bind.
  destruct (Destruct_Graph_spec g Vs) as (g' & -> & Hnv & Hlive); [apply HB|]. bind. unfold Show_Graph. rewrite Hnv. cbn [for_]. bind.
  by exists out, (edges g').
Qed.

(** What the construction leaves, from valid input. *)
Lemma construction_ends junk start more arrows words input g Vs : valid junk (start :: more) arrows words input ->
  built g Vs start arrows ->
  may (fun s => exists R, matrix_inv (strip Vs) arrows start words input s.1 s.2 R (length R) 0)
    (exists R, rows_ok (strip Vs) arrows start words input R /\ length R = MAX) (NFA_to_DFA g (Init_Matrix words) input).
Proof.
  intros HV HB. apply NFA_to_DFA_spec; [apply graph_viewed, HB|apply HB|apply HB|apply HB|apply HB|apply HV..].
Qed.

(** Rows are at most as many as there are reachable sets. *)
Lemma rows_bound Vs arrows start words input R (F : list (list Z)) : rows_ok Vs arrows start words input R ->
  reached_once arrows start words ->
  (forall u, Forall (.∈ words) u -> dead arrows start u \/ exists l, l ∈ F /\ forall y, y ∈ l <-> reached arrows start u y) ->
  (length R <= length F)%nat.
Proof.
  intros HR Ho HF. rewrite <-(length_fmap snd R).
  apply (pigeonhole (fun l l0 => sorted_set Vs l /\ forall y, y ∈ l <-> y ∈ l0)); [by apply (ro_once _ _ _ _ _ _ HR)| |].
  - intros l ([m l1] & -> & [r Hr]%list_elem_of_lookup)%list_elem_of_fmap. cbn.
    destruct (ro_set _ _ _ _ _ _ HR _ _ _ Hr) as (Hne & u & Hu & Hl). destruct (HF u Hu) as [Hd|(l0 & Hl0 & Hin)].
    + destruct Hne. eapply is_set_unique; [exact Hl|by apply is_set_dead|done].
    + exists l0. split; [done|]. split; [apply Hl|]. intros y. by rewrite Hin, (proj2 Hl y).
  - intros l l' l0 [H1 H2] [H3 H4]. eapply sorted_unique; [done|done|]. intros y. by rewrite H2, H4.
Qed.

(** C7. The subset construction is right.  For valid input whose state sets are at most
    nine, and in which the set that gets the second row is reached only once, the program
    returns, frees every edge of the graph, and prints the transitions of a deterministic
    automaton equivalent to the one that was read: from the first new name, a word leads
    nowhere exactly when no state is reached by it, and two words lead to the same name
    exactly when they reach the same states. *)
Theorem nfa2dfa_correct junk start more arrows words f input (F : list (list Z)) : valid junk (start :: more) arrows words (f :: input) ->
  reached_once arrows start words -> (length F < MAX)%nat ->
  (forall u, Forall (.∈ words) u -> dead arrows start u \/ exists l, l ∈ F /\ forall y, y ∈ l <-> reached arrows start u y) ->
  exists out h, main junk (start :: more) arrows words (f :: input) = Ret (out, h) /\ live h = [] /\
    forall u v, Forall (.∈ words) u -> Forall (.∈ words) v ->
      (walk out f u = None <-> dead arrows start u) /\
      (is_Some (walk out f u) -> walk out f u = walk out f v <-> same arrows start u v).
Proof.
  intros HV Ho HFl HF. destruct (construct_built _ _ _ _ _ _ HV) as (g & Vs & E & HB).
  rewrite (main_built _ _ _ _ _ _ _ _ E HB). pose proof (construction_ends _ _ _ _ _ _ _ _ HV HB) as HC.
  destruct (NFA_to_DFA _ _ _) as [[TM rest]| |]; cbn in HC; [|destruct HC as (R & HR & Hl); pose proof (rows_bound _ _ _ _ _ _ _ HR Ho HF); lia|done].
  destruct HC as (R & HI). pose proof (mi_ok _ _ _ _ _ _ _ _ _ _ HI) as HR. pose proof (rows_bound _ _ _ _ _ _ _ HR Ho HF). bind. cbn [fst].
  destruct (report_spec g Vs start arrows words (f :: input) TM rest R) as (out & h & -> & Hlive & Hout); [done|apply HV|apply HV|done|lia|].
  exists out, h. split; [done|]. split; [done|]. intros u v Hu Hv.
  destruct (lookup_lt_is_Some_2 R 0) as [[n l] H0]; [pose proof (mi_some _ _ _ _ _ _ _ _ _ _ HI); lia|].
  pose proof (ro_first _ _ _ _ _ _ HR _ _ H0) as Hl. assert (n = f) as ->.
  { pose proof (ro_names _ _ _ _ _ _ HR) as Hn. destruct R as [|[n' l'] R]; [done|]. injection H0 as -> ->. cbn in Hn. by injection Hn. }
  assert (Hwalk := fun w Hw => printed_walk _ _ _ _ (va_eps _ _ _ _ _ HV) (va_distinct _ _ _ _ _ HV) _ (va_input _ _ _ _ _ HV) _ _ _ _
    (va_fresh _ _ _ _ _ HV) HI Hout w 0%nat f l [] H0 Hl Hw). cbn [app] in Hwalk.
  pose proof (Hwalk u Hu) as Wu. pose proof (Hwalk v Hv) as Wv. split.
  - split; [intros En; by rewrite En in Wu|]. intros Hd. destruct (walk out f u) as [m|]; [|done]. exfalso.
    destruct Wu as (r & k & Hr & Hk). destruct (ro_set _ _ _ _ _ _ HR _ _ _ Hr) as [Hne _]. apply Hne.
    eapply is_set_unique; [exact Hk|by apply is_set_dead|done].
  - intros [m Em]. rewrite Em in Wu |- *. destruct Wu as (r & k & Hr & Hk). split.
    + intros En. rewrite <-En in Wv. destruct Wv as (r' & k' & Hr' & Hk').
      assert (Hnm : NoDup R.*1) by (rewrite (ro_names _ _ _ _ _ _ HR); eapply sublist_NoDup; [apply (va_fresh _ _ _ _ _ HV)|apply sublist_take]).
      assert (r = r') as -> by (apply (NoDup_lookup R.*1 r r' m); [done| |]; by rewrite list_lookup_fmap, ?Hr, ?Hr').
      rewrite Hr in Hr'. injection Hr' as <-. by eapply is_set_same.
    + intros Hs. destruct (walk out f v) as [m'|].
      * destruct Wv as (r' & k' & Hr' & Hk'). assert (k = k') as <- by by eapply is_set_unique.
        assert (r = r') as <- by by eapply row_unique. rewrite Hr in Hr'. by injection Hr' as ->.
      * exfalso. destruct (ro_set _ _ _ _ _ _ HR _ _ _ Hr) as [Hne _]. apply Hne. eapply is_set_unique; [exact Hk|by apply is_set_dead|done].
Qed.

(** C8. CheckTable's answer 1 means both "not found" and "found in the second row": when
    the set in the second row has a transition to itself, each new copy of it asks for
    another one, and the program writes outside its table. *)
Theorem nfa2dfa_second_row_loop junk start more arrows words input c0 c : valid junk (start :: more) arrows words input ->
  first_new arrows start words c0 -> c ∈ words -> same arrows start [c0; c] [c0] ->
  main junk (start :: more) arrows words input = UB.
Proof.
  intros HV Hc0 Hc Hsame. destruct (construct_built _ _ _ _ _ _ HV) as (g & Vs & E & HB).
  rewrite (main_built _ _ _ _ _ _ _ _ E HB). pose proof (construction_ends _ _ _ _ _ _ _ _ HV HB) as HC.
  destruct (NFA_to_DFA _ _ _) as [[TM rest]| |]; cbn in HC; [exfalso|done|done]. destruct HC as (R & HI).
  pose proof (mi_ok _ _ _ _ _ _ _ _ _ _ HI) as HR. pose proof (va_eps _ _ _ _ _ HV) as Heps.
  destruct (lookup_lt_is_Some_2 R 0) as [[m0 l0] H0]; [pose proof (mi_some _ _ _ _ _ _ _ _ _ _ HI); lia|].
  pose proof (ro_first _ _ _ _ _ _ HR _ _ H0) as Hl0.
  assert (Hcell : forall d k, d ∈ words -> forall r m, R !! r = Some (m, k) -> exists t u, is_set (strip Vs) arrows start u k /\
    cell_ok (strip Vs) arrows start R r u d t).
  { intros d k [i Hi]%list_elem_of_lookup r m Hr.
    destruct (mi_done _ _ _ _ _ _ _ _ _ _ HI r i d m k) as (t & u & _ & Hu & Ht); [left; by eapply lookup_lt_Some|done|done|]. by exists t, u. }
  assert (Hin0 : c0 ∈ words) by (destruct Hc0 as (pre & post & -> & _); apply elem_of_app; right; left).
  assert (Hce : forall d, d ∈ words -> d <> EPS) by (by intros d Hd ->).
  pose proof Hc0 as (_ & _ & _ & _ & Hnd & Hns).
  destruct (Hcell c0 l0 Hin0 _ _ H0) as (t & u & Hu & l1 & _ & Hl1u & Hcase).
  assert (Hl1 : is_set (strip Vs) arrows start [c0] l1).
  { destruct Hl1u as [K1 K2]. split; [done|]. intros y. rewrite K2.
    apply (same_snoc arrows start u [] c0 (Hce _ Hin0)). by eapply is_set_same. }
  assert (Hne1 : l1 <> []) by (intros ->; apply Hnd; by eapply is_set_dead).
  assert (Hne0 : l1 <> l0) by (intros ->; apply Hns; by eapply is_set_same).
  assert (Hrow : exists r m, R !! r = Some (m, l1)) by (destruct Hcase as [[? _]|(_ & r & Hr & _)]; [done|eauto]).
  destruct Hrow as (r1 & m1 & Hr1).
  assert (Hsecond : exists m, R !! 1%nat = Some (m, l1)).
  { destruct (lookup_lt_is_Some_2 R 1) as [[m k] Hm].
    { apply lookup_lt_Some in Hr1 as Hlt. destruct r1; [congruence|lia]. }
    destruct (ro_second _ _ _ _ _ _ HR _ _ Hm) as (c1 & Hc1 & Hk). exists m. rewrite Hm. repeat f_equal.
    assert (c1 = c0) as -> by by eapply (first_new_unique (strip Vs) (bu_few _ _ _ _ HB) arrows start words input (va_input _ _ _ _ _ HV)).
    by eapply is_set_unique. }
  destruct Hsecond as [m2 H1].
  destruct (last_such (fun r => exists m, R !! r = Some (m, l1)) (length R)) as (r & [m Hr] & Hmax).
  { intros r [m Hm]. by eapply lookup_lt_Some. }
  { by exists r1, m1. }
  { intros r. destruct (R !! r) as [[m k]|] eqn:Er; [|right; by intros [? ?]].
    destruct (decide (k = l1)) as [->|Hne]; [left; by exists m|right]. intros [m' [= _ ?]]. done. }
  destruct (Hcell c l1 Hc _ _ Hr) as (t' & v & Hv & l2 & _ & Hl2 & Hcase2).
  assert (l2 = l1) as ->.
  { eapply is_set_unique; [exact Hl2|exact Hl1|]. intros y. rewrite <-(Hsame y).
    apply (same_snoc arrows start v [c0] c (Hce _ Hc)). by eapply is_set_same. }
  destruct Hcase2 as [[? _]|(_ & r' & Hr' & Hlt)]; [done|].
  pose proof (Hlt _ _ _ H1 H0 Hne0). pose proof (Hmax r' (ex_intro _ _ Hr')). lia.
Qed.

(** ** Examples *)

Definition junk_table : list vertex := replicate MAX (Vertex 7 None).
Definition digits : list Z := [48; 49; 50; 51; 52; 53; 54; 55; 56; 57].

(** A goes to B by [a] and to C by the empty input, B and C go to C by [b]. *)
Definition three_states : list (Z * Z * Z) := [(65, 97, 66); (65, EPS, 67); (66, 98, 67); (67, 98, 67)].

Definition three_next (l : list Z) (c : Z) : list Z :=
  match l, c =? 97 with
  | [], _ | [_], true => []
  | _, true => [66]
  | _, false => [67]
  end.

Lemma three_closure x y : rtc (fun x y => (x, EPS, y) ∈ three_states) x y <-> y = x \/ (x = 65 /\ y = 67).
Proof.
  assert (Hs : forall x y, (x, EPS, y) ∈ three_states <-> x = 65 /\ y = 67).
  { intros a b. unfold three_states, EPS. rewrite !elem_of_cons, elem_of_nil. naive_solver. }
  split.
  - induction 1 as [|x y z Ha _ IH]; [by left|]. apply Hs in Ha as [-> ->]. naive_solver.
  - intros [->|[-> ->]]; [done|]. apply rtc_once. by apply Hs.
Qed.

(** The sets that the words of [a] and [b] reach. *)
Lemma three_reached u : Forall (.∈ [97; 98]) u ->
  foldl three_next [65; 67] u ∈ [[65; 67]; [66]; [67]; []] /\
  forall y, y ∈ foldl three_next [65; 67] u <-> reached three_states 65 u y.
Proof.
  induction u as [|c u IH] using rev_ind; intros Hu.
  - split; [by left|]. intros y. unfold reached. rewrite <-run_closure, three_closure. cbn. rewrite !elem_of_cons, elem_of_nil. naive_solver.
  - apply Forall_app in Hu as [Hu [Hc _]%Forall_cons]. destruct (IH Hu) as [Hin Hy]. rewrite foldl_app. cbn [foldl].
    set (l := foldl three_next [65; 67] u) in *. split.
    + unfold three_next. repeat case_match; rewrite !elem_of_cons; tauto.
    + intros z. unfold reached. rewrite run_snoc by (apply elem_of_cons in Hc as [->|Hc%list_elem_of_singleton]; [done|by subst c]).
      setoid_rewrite three_closure. unfold reached in Hy. setoid_rewrite <-Hy. unfold three_states, EPS. clearbody l. clear Hy.
      rewrite !elem_of_cons, elem_of_nil in Hin. repeat setoid_rewrite elem_of_cons. setoid_rewrite elem_of_nil.
      apply elem_of_cons in Hc as [->|Hc%list_elem_of_singleton]; [|subst c]; (split;
        [|intros (x & w & Hx & Ha & Hz); destruct_or! Ha; simplify_eq; destruct_or! Hz; simplify_eq; destruct_or! Hin; subst l; cbn in *;
          rewrite ?elem_of_cons, ?elem_of_nil in *; destruct_or! Hx; naive_solver]);
        intros Hz; destruct_or! Hin; subst l; cbn in *; rewrite ?elem_of_cons, ?elem_of_nil in Hz; destruct_or! Hz; subst; try done.
      * exists 65, 66. split; [by left|naive_solver].
      * exists 67, 67. split; [by right; left|naive_solver].
      * exists 66, 67. split; [by left|naive_solver].
      * exists 67, 67. split; [by left|naive_solver].
Qed.

Lemma three_same u v : Forall (.∈ [97; 98]) u -> Forall (.∈ [97; 98]) v ->
  same three_states 65 u v <-> foldl three_next [65; 67] u = foldl three_next [65; 67] v.
Proof.
  intros Hu Hv. destruct (three_reached u Hu) as [H1 H2]. destruct (three_reached v Hv) as [H3 H4].
  assert (Hs : same three_states 65 u v <-> forall y, y ∈ foldl three_next [65; 67] u <-> y ∈ foldl three_next [65; 67] v).
  { split; intros H y; [by rewrite H2, H4|by rewrite <-H2, <-H4]. }
  rewrite Hs. split; [|by intros ->]. rewrite !elem_of_cons, elem_of_nil in H1, H3. intros H.
  destruct_or! H1; destruct_or! H3; rewrite H1, H3 in *; try done; exfalso.
  all: pose proof (H 65) as H65; pose proof (H 66) as H66; pose proof (H 67) as H67;
    rewrite ?elem_of_cons, ?elem_of_nil in H65, H66, H67; naive_solver.
Qed.

Lemma three_dead u : Forall (.∈ [97; 98]) u -> dead three_states 65 u <-> foldl three_next [65; 67] u = [].
Proof.
  intros Hu. destruct (three_reached u Hu) as [_ H]. split.
  - intros Hd. destruct (foldl three_next [65; 67] u) as [|y l]; [done|]. destruct (Hd y). apply H. by left.
  - intros E y Hy. apply H in Hy. rewrite E in Hy. by apply elem_of_nil in Hy.
Qed.

Lemma three_valid : valid junk_table [65; 66; 67] three_states [97; 98] digits.
Proof.
  split; try (vm_compute; lia); try done.
  all: try (by apply (bool_decide_unpack _); vm_compute).
  all: try (split; [by apply (bool_decide_unpack _); vm_compute|vm_compute; lia]).
Qed.

Lemma three_once : reached_once three_states 65 [97; 98].
Proof.
  intros c0 u c Hc0 Hu Hc Hs.
  assert (c0 = 97) as ->.
  { destruct Hc0 as ([|p pre] & post & E & HF & _); [by injection E|]. apply Forall_cons in HF as [HF _]. exfalso.
    injection E as <- _. destruct HF as [Hd|Hs0].
    - apply three_dead in Hd; [done|]. by apply Forall_singleton; left.
    - apply three_same in Hs0; [done| |constructor]. by apply Forall_singleton; left. }
  apply three_same in Hs; [|by apply Forall_app; split; [|apply Forall_cons; split]|by apply Forall_singleton; left].
  rewrite foldl_app in Hs. cbn in Hs. destruct (three_reached u Hu) as [Hin _]. rewrite !elem_of_cons, elem_of_nil in Hin.
  apply elem_of_cons in Hc as [->|Hc%list_elem_of_singleton]; [|subst c]; destruct_or! Hin; rewrite Hin in Hs; try done.
  split; [|done]. apply three_same; [done|constructor|done].
Qed.

Lemma nfa2dfa_correct_witness : exists out h, main junk_table [65; 66; 67] three_states [97; 98] digits = Ret (out, h) /\ live h = [] /\
  walk out 48 [97; 98] = walk out 48 [98] /\ walk out 48 [97; 97] = None.
Proof.
  destruct (nfa2dfa_correct junk_table 65 [66; 67] three_states [97; 98] 48 [49; 50; 51; 52; 53; 54; 55; 56; 57] [[65; 67]; [66]; [67]])
    as (out & h & H1 & H2 & H3).
  - exact three_valid.
  - exact three_once.
  - vm_compute. lia.
  - intros u Hu. destruct (three_reached u Hu) as [Hin Hy]. rewrite !elem_of_cons, elem_of_nil in Hin.
    assert (Hcase : foldl three_next [65; 67] u = [] \/ foldl three_next [65; 67] u ∈ [[65; 67]; [66]; [67]]) by
      (rewrite !elem_of_cons, elem_of_nil; tauto).
    destruct Hcase as [E|E]; [left; by apply three_dead|right; by exists (foldl three_next [65; 67] u)].
  - exists out, h. split; [exact H1|]. split; [exact H2|].
    assert (Hw : forall u, bool_decide (Forall (.∈ [97; 98]) u) = true -> Forall (.∈ [97; 98]) u) by (intros; by eapply bool_decide_eq_true).
    assert (W1 : Forall (.∈ [97; 98]) [97; 98]) by (apply Hw; reflexivity).
    assert (W2 : Forall (.∈ [97; 98]) [98]) by (apply Hw; reflexivity).
    assert (W3 : Forall (.∈ [97; 98]) [97; 97]) by (apply Hw; reflexivity).
    split.
    + apply (H3 _ _ W1 W2); [|by apply three_same].
      destruct (walk out 48 [97; 98]) as [m|] eqn:E; [by exists m|]. exfalso.
      apply (H3 _ _ W1 W2), three_dead in E; [discriminate E|exact W1].
    + apply (H3 _ _ W3 W2). by apply three_dead.
Defined.

(** A goes to B and B to itself. *)
Definition two_states : list (Z * Z * Z) := [(65, 97, 66); (66, 97, 66)].

Lemma two_reached u y : Forall (.∈ [97]) u -> reached two_states 65 u y <-> y = (if u is [] then 65 else 66).
Proof.
  assert (Hc : forall x y, rtc (fun x y => (x, EPS, y) ∈ two_states) x y <-> x = y).
  { intros a b. split; [|by intros ->]. induction 1 as [|a b d Ha]; [done|]. unfold two_states, EPS in Ha.
    rewrite !elem_of_cons, elem_of_nil in Ha. naive_solver. }
  revert y. induction u as [|c u IH] using rev_ind; intros y Hu.
  - unfold reached. rewrite <-run_closure, Hc. naive_solver.
  - apply Forall_app in Hu as [Hu [Hcw _]%Forall_cons]. apply list_elem_of_singleton in Hcw as ->.
    unfold reached. rewrite run_snoc by done. setoid_rewrite Hc. unfold reached in IH. 
    assert (Hne : (u ++ [97] = []) -> False) by (by destruct u). destruct (u ++ [97]) as [|d w] eqn:Ed; [done|].
    split.
    + intros (x & w' & Hx & Ha & ->). unfold two_states in Ha. rewrite !elem_of_cons, elem_of_nil in Ha. naive_solver.
    + intros ->. destruct u as [|e u]; [exists 65, 66|exists 66, 66]; (split; [by apply IH|]); (split; [|done]);
        unfold two_states; rewrite !elem_of_cons; tauto.
Qed.

Lemma nfa2dfa_second_row_loop_witness : main junk_table [65; 66] two_states [97] digits = UB.
Proof.
  assert (Hw : forall u, bool_decide (Forall (.∈ [97]) u) = true -> Forall (.∈ [97]) u) by (intros; by eapply bool_decide_eq_true).
  apply (nfa2dfa_second_row_loop junk_table 65 [66] two_states [97] digits 97 97).
  - split; try (vm_compute; lia); try done.
    all: try (by apply (bool_decide_unpack _); vm_compute).
    all: try (split; [by apply (bool_decide_unpack _); vm_compute|vm_compute; lia]).
  - exists [], []. split; [reflexivity|]. split; [constructor|]. split.
    + intros Hd. apply (Hd 66). apply two_reached; [apply Hw; reflexivity|reflexivity].
    + intros Hs. pose proof (proj1 (Hs 66)) as H. rewrite !two_reached in H; [|constructor|apply Hw; reflexivity].
      discriminate (H eq_refl).
  - left.
  - intros y. rewrite !two_reached by (apply Hw; reflexivity). reflexivity.
Defined.
