(* ===== verification/AhoQueue.v ===== *)
(** Component: the queue of src/c-study/str_match/AC-alg/AhoCorasick/src/aho_queue.c, a
    doubly linked list that takes elements at its rear and gives them back from its
    rear.  The refinement theorem says what it implements: a stack. *)
From S2P Require Import Prelude Heap.

(** ** Data and operations *)

(** [data] is the address of a trie node. *)
Record aho_queue_node := QNode { next : pointer; prev : pointer; data : pointer }.
Record aho_queue := Queue { front : pointer; rear : pointer; count : Z }.

Definition set_next (p : pointer) (n : aho_queue_node) : aho_queue_node := QNode p (prev n) (data n).
Definition set_prev (p : pointer) (n : aho_queue_node) : aho_queue_node := QNode (next n) p (data n).

Definition aho_queue_init : aho_queue := Queue None None 0.

Definition aho_queue_empty (que : aho_queue) : bool := count que =? 0.

Definition aho_queue_enqueue (h : heap aho_queue_node) (que : aho_queue) (node : pointer) :
    res (heap aho_queue_node * aho_queue * bool) :=
  let '(h, que_node) := new h (QNode None None node) in
  if count que =? 0 then Ret (h, Queue que_node que_node (u32 (count que + 1)), true)
  else
    h ← modify h que_node (set_prev (rear que));
    h ← modify h (rear que) (set_next que_node);
    Ret (h, Queue (front que) que_node (u32 (count que + 1)), true).

Definition aho_queue_dequeue (h : heap aho_queue_node) (que : aho_queue) :
    res (heap aho_queue_node * aho_queue * pointer) :=
  if aho_queue_empty que then Ret (h, que, None)
  else if count que =? 1 then Ret (h, Queue None None (u32 (count que - 1)), rear que)
  else
    deque_node ← load h (rear que);
    let after_last_node := prev deque_node in
    h ← modify h after_last_node (set_next None);
    Ret (h, Queue (front que) after_last_node (u32 (count que - 1)), rear que).

(** The loop of [aho_queue_destroy]. *)
Fixpoint aho_queue_destroy (fuel : nat) (h : heap aho_queue_node) (que : aho_queue) : res (heap aho_queue_node) :=
  '(h, que, que_node) ← aho_queue_dequeue h que;
  match que_node with
  | None => Ret h
  | Some _ =>
    match fuel with O => Fuel | S n => h ← dispose h que_node; aho_queue_destroy n h que end
  end.

(** What every loop over the queue starts with: take a node, read its data and free
    it; null when the queue is empty. *)
Definition aho_queue_take (h : heap aho_queue_node) (que : aho_queue) :
    res (heap aho_queue_node * aho_queue * option pointer) :=
  '(h, que, queue_node) ← aho_queue_dequeue h que;
  match queue_node with
  | None => Ret (h, que, None)
  | Some _ => nd ← load h queue_node; h ← dispose h queue_node; Ret (h, que, Some (data nd))
  end.

(** ** The list a queue holds *)

(** The nodes [ps] hold [l], last element first, along their [prev] fields from [p]. *)
Fixpoint chain (h : heap aho_queue_node) (p : pointer) (ps : list nat) (l : list pointer) : Prop :=
  match ps, l with
  | [], [] => p = None
  | a :: ps, x :: l => p = Some a /\ exists n, at_addr h a n /\ data n = x /\ chain h (prev n) ps l
  | _, _ => False
  end.

(** [stacked h q l]: the queue holds [l], last element first, and owns every object
    of the heap. *)
Record stacked (h : heap aho_queue_node) (q : aho_queue) (l : list pointer) : Prop := Stacked {
  st_nodes : exists ps, chain h (rear q) ps l /\ live h ≡ₚ ps;
  st_count : count q = Z.of_nat (length l);
  st_small : Z.of_nat (length l) < 2 ^ 32
}.

Lemma chain_length h p ps l : chain h p ps l -> length ps = length l.
Proof.
  revert p l. induction ps as [|a ps IH]; intros p [|x l]; cbn; try done. intros (_ & n & _ & _ & H). by rewrite (IH _ _ H).
Qed.

(** A chain survives what happens to other objects, and writes of [next]. *)
Lemma queue_chain_frame h h' p ps l : chain h p ps l ->
  (forall a n, a ∈ ps -> at_addr h a n -> exists n', at_addr h' a n' /\ data n' = data n /\ prev n' = prev n) ->
  chain h' p ps l.
Proof.
  revert p l. induction ps as [|a ps IH]; intros p [|x l]; cbn; try done.
  intros (-> & n & Ha & Hd & Hc) Hf. split; [done|].
  destruct (Hf a n) as (n' & Ha' & Hd' & Hp'); [left|done|]. exists n'. split; [done|]. split; [congruence|].
  rewrite Hp'. apply IH; [done|]. intros b m Hb. apply Hf. by right.
Qed.

Lemma live_nodup {A} (h : heap A) : NoDup (live h).
Proof. unfold live. apply NoDup_filter, NoDup_seq. Qed.

Lemma live_ext {A} (h : heap A) ps : NoDup ps -> (forall a, a ∈ ps <-> exists x, at_addr h a x) -> live h ≡ₚ ps.
Proof.
  intros Hn Hi. apply NoDup_Permutation; [apply live_nodup|done|]. intros a. by rewrite elem_of_live, Hi.
Qed.

Lemma at_insert_ex {A} (h : heap A) a x y b : at_addr h a x ->
  (exists z, at_addr (<[a := Some y]> h) b z) <-> exists z, at_addr h b z.
Proof.
  intros Ha. destruct (decide (a = b)) as [->|Hne].
  - split; intros _; [by exists x|exists y; by eapply at_insert_eq].
  - by setoid_rewrite at_insert_ne.
Qed.

Lemma init_stacked : stacked [] aho_queue_init [].
Proof. split; [exists []; done|done|done]. Qed.

Lemma enqueue_stacked h q l x : stacked h q l -> Z.of_nat (length l) + 1 < 2 ^ 32 ->
  exists h' q', aho_queue_enqueue h q x = Ret (h', q', true) /\ stacked h' q' (x :: l).
Proof.
  intros [(ps & Hc & Hl) Hn Hs] Hb. unfold aho_queue_enqueue, new. pose proof (chain_length _ _ _ _ Hc) as Hlen.
  assert (Hcnt : u32 (count q + 1) = Z.of_nat (length (x :: l))).
  { rewrite Hn. unfold u32. rewrite Z.mod_small by lia. cbn [length]. lia. }
  assert (Hin : forall a, a ∈ ps -> exists n, at_addr h a n) by (intros a; by rewrite <-Hl, elem_of_live).
  assert (Hnd : NoDup ps) by (rewrite <-Hl; apply live_nodup).
  assert (Hnew : length h ∉ ps) by (intros [n Ha%at_addr_lt]%Hin; lia).
  rewrite Hcnt. destruct (Z.eqb_spec (count q) 0) as [E|E].
  - eexists _, _. split; [done|]. assert (l = []) as -> by (destruct l; [done|cbn in Hn; lia]).
    destruct ps; [|done]. split; cbn [rear count]; [|done|cbn; lia]. exists [length h]. split.
    + split; [done|]. eexists. split; [apply at_new|done].
    + apply live_ext; [by apply NoDup_singleton|]. intros a. rewrite list_elem_of_singleton. split.
      * intros ->. eexists. apply at_new.
      * intros [y [[-> _]|Hy]%at_new_inv]; [done|]. exfalso. apply (not_elem_of_nil a). rewrite <-Hl, elem_of_live. eauto.
  - destruct ps as [|r ps]; [destruct l; [cbn in Hn; lia|done]|]. destruct l as [|y l]; [done|].
    cbn [chain] in Hc. destruct Hc as (Hr & n & Ha & Hd & Hc). rewrite Hr.
    assert (Hne : length h <> r) by set_solver.
    rewrite (modify_ok _ _ _ _ (at_new h (QNode None None x))). bind.
    rewrite (modify_ok _ r n) by (apply at_insert_ne; [done|by apply at_new_old]). bind.
    eexists _, _. split; [done|]. split; cbn [rear count]; [|done|cbn [length] in *; lia]. exists (length h :: r :: ps). split.
    + split; [done|]. eexists. split; [apply at_insert_ne; [done|]; eapply at_insert_eq, at_new|]. split; [done|].
      cbn [chain prev set_prev]. split; [done|]. eexists. split; [eapply at_insert_eq, at_insert_ne, at_new_old; done|].
      split; [done|]. cbn [prev set_next]. eapply queue_chain_frame; [done|]. intros b m Hbm Hm.
      exists m. split; [|done]. apply NoDup_cons in Hnd as [Hnr _].
      apply at_insert_ne; [by intros <-|]. apply at_insert_ne; [set_solver|]. by apply at_new_old.
    + apply live_ext; [by constructor|]. intros b.
      rewrite (at_insert_ex _ r n) by (apply at_insert_ne; [done|by apply at_new_old]).
      rewrite (at_insert_ex _ (length h) _ _ _ (at_new h _)). rewrite elem_of_cons, <-Hl, elem_of_live. split.
      * intros [->|[z Hz]]; [eexists; apply at_new|exists z; by apply at_new_old].
      * intros [z [[-> _]|Hz]%at_new_inv]; [by left|right; by exists z].
Qed.

Lemma take_empty h q : stacked h q [] -> aho_queue_take h q = Ret (h, q, None).
Proof. intros [_ Hn _]. unfold aho_queue_take, aho_queue_dequeue, aho_queue_empty. by rewrite Hn. Qed.

(** What [aho_queue_dequeue] returns and leaves, before the caller frees the node. *)
Lemma aho_dequeue_spec h q x l : stacked h q (x :: l) -> exists h' q' a n,
  aho_queue_dequeue h q = Ret (h', q', Some a) /\ at_addr h' a n /\ data n = x /\ stacked (<[a := None]> h') q' l.
Proof.
  intros [(ps & Hc & Hl) Hn Hs]. destruct ps as [|a ps]; [done|]. cbn [chain] in Hc. destruct Hc as (Hr & n & Ha & Hd & Hc).
  assert (Hnd : NoDup (a :: ps)) by (rewrite <-Hl; apply live_nodup). apply NoDup_cons in Hnd as [Hna Hnd].
  unfold aho_queue_dequeue, aho_queue_empty. cbn [length] in Hn, Hs. rewrite (proj2 (Z.eqb_neq _ _)) by lia.
  assert (Hcnt : u32 (count q - 1) = Z.of_nat (length l)).
  { rewrite Hn. unfold u32. rewrite Z.mod_small; lia. }
  assert (Hlive : forall (h' : heap aho_queue_node) b, (forall c, (exists y, at_addr h' c y) <-> exists y, at_addr h c y) ->
    (b ∈ ps <-> exists y, at_addr (<[a := None]> h') b y)).
  { intros h' b Hh'. destruct (decide (a = b)) as [<-|Hne].
    - split; [done|]. intros [y Hy]. by apply at_freed in Hy.
    - setoid_rewrite at_insert_ne; [|done]. rewrite Hh', <-elem_of_live, Hl, elem_of_cons. naive_solver. }
  rewrite Hcnt. destruct (Z.eqb_spec (count q) 1) as [E|E].
  - destruct l; [|cbn [length] in Hn; lia]. destruct ps; [|done]. rewrite Hr. eexists _, _, _, _.
    split; [done|]. split; [done|]. split; [done|]. split; cbn; [|done|done]. exists []. split; [done|].
    apply live_ext; [done|]. intros b. by apply Hlive.
  - rewrite Hr, (load_ok _ _ _ Ha). bind. destruct l as [|y l]; [cbn [length] in Hn; lia|]. destruct ps as [|b ps]; [done|].
    cbn [chain] in Hc. destruct Hc as (Hp & m & Hb & Hdm & Hc). rewrite Hp, (modify_ok _ _ _ _ Hb). bind.
    assert (Hab : b <> a) by set_solver. eexists _, _, _, _. split; [done|].
    split; [by apply at_insert_ne|]. split; [done|]. split; cbn [rear count]; [|done|cbn [length] in *; lia].
    exists (b :: ps). split; [|apply live_ext; [done|]; intros c; apply Hlive; intros d; by eapply at_insert_ex].
    split; [done|]. exists (set_next None m). split; [by apply at_insert_ne, (at_insert_eq _ _ m)|]. split; [done|].
    cbn [prev set_next]. eapply queue_chain_frame; [done|]. intros c k Hc' Hk. exists k. split; [|done].
    apply NoDup_cons in Hnd as [Hnb _]. apply at_insert_ne; [set_solver|]. apply at_insert_ne; [set_solver|done].
Qed.

Lemma take_stacked h q x l : stacked h q (x :: l) ->
  exists h' q', aho_queue_take h q = Ret (h', q', Some x) /\ stacked h' q' l.
Proof.
  intros Hq. destruct (aho_dequeue_spec _ _ _ _ Hq) as (h' & q' & a & n & E & Ha & Hd & Hq').
  unfold aho_queue_take. rewrite E. bind. rewrite (load_ok _ _ _ Ha). bind. rewrite (dispose_ok _ _ _ Ha). bind.
  rewrite Hd. by exists (<[a := None]> h'), q'.
Qed.

Lemma aho_destroy_spec fuel h q l : stacked h q l -> (length l <= fuel)%nat ->
  exists h', aho_queue_destroy fuel h q = Ret h' /\ live h' = [].
Proof.
  revert h q l. induction fuel as [|fuel IH]; intros h q [|x l] Hq Hf; cbn [length] in Hf; try lia; cbn [aho_queue_destroy].
  1,2: unfold aho_queue_dequeue, aho_queue_empty; rewrite (st_count _ _ _ Hq); cbn; bind; exists h; (split; [done|]);
    destruct (st_nodes _ _ _ Hq) as (ps & Hc & Hl); destruct ps; [|done]; by apply Permutation_nil_r.
  destruct (aho_dequeue_spec _ _ _ _ Hq) as (h' & q' & a & n & -> & Ha & Hd & Hq'). bind.
  rewrite (dispose_ok _ _ _ Ha). bind. apply (IH _ _ l); [done|lia].
Qed.

(** ** Refinement of a stack *)

Inductive qop := Enqueue (x : pointer) | Take.

Fixpoint queue_run (h : heap aho_queue_node) (q : aho_queue) (os : list qop) :
    res (heap aho_queue_node * aho_queue * list (option pointer)) :=
  match os with
  | [] => Ret (h, q, [])
  | Enqueue x :: os => '(h, q, _) ← aho_queue_enqueue h q x; queue_run h q os
  | Take :: os =>
    '(h, q, r) ← aho_queue_take h q; '(h, q, rs) ← queue_run h q os; Ret (h, q, r :: rs)
  end.

Fixpoint stack_run (l : list pointer) (os : list qop) : list pointer * list (option pointer) :=
  match os with
  | [] => (l, [])
  | Enqueue x :: os => stack_run (x :: l) os
  | Take :: os =>
    match l with
    | [] => let '(l, rs) := stack_run [] os in (l, None :: rs)
    | x :: l => let '(l, rs) := stack_run l os in (l, Some x :: rs)
    end
  end.

(** The queue of aho_queue.c is a stack: any sequence of fewer than 2^32 operations is
    memory safe, gives back the elements last in first out, and leaves no node
    allocated but those of the elements still in it. *)
Theorem aho_queue_is_stack os : Z.of_nat (length os) < 2 ^ 32 ->
  exists h q, queue_run [] aho_queue_init os = Ret (h, q, (stack_run [] os).2) /\
    stacked h q (stack_run [] os).1 /\ length (live h) = length (stack_run [] os).1.
Proof.
  intros Hos. assert (H : forall l h q, stacked h q l -> Z.of_nat (length l + length os) < 2 ^ 32 ->
    exists h' q', queue_run h q os = Ret (h', q', (stack_run l os).2) /\ stacked h' q' (stack_run l os).1).
  { clear Hos. induction os as [|[x|] os IH]; intros l h q Hq Hl; cbn [queue_run stack_run length] in *; [eauto| |].
    - destruct (enqueue_stacked h q l x Hq) as (h' & q' & -> & Hq'); [lia|]. bind. apply IH; [done|cbn [length]; lia].
    - destruct l as [|x l].
      + rewrite (take_empty _ _ Hq). bind. destruct (IH [] h q Hq) as (h' & q' & -> & Hq'); [cbn [length]; lia|]. bind.
        destruct (stack_run [] os). eauto.
      + destruct (take_stacked _ _ _ _ Hq) as (h1 & q1 & -> & Hq1). bind. cbn [length] in Hl.
        destruct (IH l h1 q1 Hq1) as (h' & q' & -> & Hq'); [lia|]. bind. destruct (stack_run l os). eauto. }
  destruct (H [] [] aho_queue_init init_stacked) as (h & q & E & Hq); [cbn [length]; lia|]. exists h, q. split; [done|].
  split; [done|]. destruct (st_nodes _ _ _ Hq) as (ps & Hc & Hl). by rewrite Hl, (chain_length _ _ _ _ Hc).
Qed.

Lemma aho_queue_is_stack_witness :
  let os := [Enqueue (Some 1%nat); Enqueue (Some 2%nat); Take; Enqueue (Some 3%nat); Take; Take; Take] in
  (stack_run [] os).2 = [Some (Some 2%nat); Some (Some 3%nat); Some (Some 1%nat); None] /\
  exists h q, queue_run [] aho_queue_init os = Ret (h, q, (stack_run [] os).2).
Proof.
  intros os. split; [reflexivity|]. destruct (aho_queue_is_stack os) as (h & q & H & _); [reflexivity|]. by exists h, q.
Defined.
