(* ===== verification/AhoTrie.v ===== *)
(** Component: the trie of src/c-study/str_match/AC-alg/AhoCorasick/src/aho_trie.c: its
    nodes in a heap with the root at address 0, adding a text, connecting the failure
    and output links, and the search.  The order in which links are connected is the
    one the queue of aho_queue.c gives. *)
From S2P Require Import Prelude Heap AhoQueue.

(** ** Nodes *)

(** [child_list] holds the pointers in use of the array, [child_count] is its length.
    [output_text] is the address of a text. *)
Record aho_trie_node := Node {
  text : Z; ref_count : Z; parent : pointer; child_list : list nat; text_end : bool; output_text : pointer;
  failure_link : pointer; output_link : pointer
}.

Definition child_count (n : aho_trie_node) : Z := Z.of_nat (length (child_list n)).

Definition MAX_AHO_CHILD_NODE : Z := 256.

Definition set_text (c : Z) (n : aho_trie_node) : aho_trie_node :=
  Node c (ref_count n) (parent n) (child_list n) (text_end n) (output_text n) (failure_link n) (output_link n).
Definition inc_ref (n : aho_trie_node) : aho_trie_node :=
  Node (text n) (u32 (ref_count n + 1)) (parent n) (child_list n) (text_end n) (output_text n) (failure_link n) (output_link n).
Definition set_parent (p : pointer) (n : aho_trie_node) : aho_trie_node :=
  Node (text n) (ref_count n) p (child_list n) (text_end n) (output_text n) (failure_link n) (output_link n).
Definition push_child (c : nat) (n : aho_trie_node) : aho_trie_node :=
  Node (text n) (ref_count n) (parent n) (child_list n ++ [c]) (text_end n) (output_text n) (failure_link n) (output_link n).
Definition set_output (t : pointer) (n : aho_trie_node) : aho_trie_node :=
  Node (text n) (ref_count n) (parent n) (child_list n) true t (failure_link n) (output_link n).
Definition set_failure (p : pointer) (n : aho_trie_node) : aho_trie_node :=
  Node (text n) (ref_count n) (parent n) (child_list n) (text_end n) (output_text n) p (output_link n).
Definition set_output_link (p : pointer) (n : aho_trie_node) : aho_trie_node :=
  Node (text n) (ref_count n) (parent n) (child_list n) (text_end n) (output_text n) (failure_link n) p.

Abbreviation trie := (heap aho_trie_node).

Definition aho_trie_node_init : aho_trie_node := Node 0 1 None [] false None None None.

(** [&t->root]. *)
Definition root : pointer := Some O.
Definition aho_init_trie : trie := [Some aho_trie_node_init].

(** ** Adding a text *)

(** The loops over the children that look for a text. *)
Fixpoint find_child (h : trie) (cs : list nat) (c : Z) : res (option nat) :=
  match cs with
  | [] => Ret None
  | a :: cs => n ← load h (Some a); if text n =? c then Ret (Some a) else find_child h cs c
  end.

(** A new last child. *)
Definition new_child (h : trie) (travasal_node : pointer) (node_text : Z) : res (trie * pointer) :=
  let '(h, child_node) := new h aho_trie_node_init in
  match child_node with
  | None => UB
  | Some c =>
    h ← modify h travasal_node (push_child c);
    h ← modify h child_node (set_text node_text);
    h ← modify h child_node (set_parent travasal_node);
    Ret (h, child_node)
  end.

(** The loop over the characters of the text; [None] when it returns false. *)
Fixpoint add_loop (n : nat) (text_idx : nat) (txt : list Z) (h : trie) (travasal_node : pointer) :
    res (trie * option pointer) :=
  match n with
  | O => Ret (h, Some travasal_node)
  | S n =>
    c ← oget (txt !! text_idx);
    let node_text := u8 c in
    nd ← load h travasal_node;
    if child_count nd =? 0 then
      '(h, child) ← new_child h travasal_node node_text; add_loop n (S text_idx) txt h child
    else if child_count nd =? MAX_AHO_CHILD_NODE then Ret (h, None)
    else
      found ← find_child h (child_list nd) node_text;
      match found with
      | Some c => h ← modify h (Some c) inc_ref; add_loop n (S text_idx) txt h (Some c)
      | None => '(h, child) ← new_child h travasal_node node_text; add_loop n (S text_idx) txt h child
      end
  end.

(** [aho_add_trie_node]: [tp] is the text's address, [txt] and [len] its fields. *)
Definition aho_add_trie_node (h : trie) (tp : pointer) (txt : list Z) (len : Z) : res (trie * bool) :=
  '(h, r) ← add_loop (Z.to_nat len) 0 txt h root;
  match r with
  | None => Ret (h, false)
  | Some travasal_node => h ← modify h travasal_node (set_output tp); Ret (h, true)
  end.

(** ** Connecting the links *)

Definition is_null (p : pointer) : bool := match p with None => true | Some _ => false end.

(** [__aho_connect_link]. *)
Definition aho_connect_link1 (h : trie) (p q : pointer) : res (trie * bool) :=
  nd ← load h p;
  if is_null (failure_link nd) || is_null (parent nd) then h ← modify h q (set_failure p); Ret (h, true)
  else
    pf ← load h (failure_link nd);
    qn ← load h q;
    found ← find_child h (child_list pf) (text qn);
    match found with
    | Some c =>
      h ← modify h q (set_failure (Some c));
      cn ← load h (Some c);
      h ← modify h q (set_output_link (if text_end cn then Some c else output_link cn));
      Ret (h, true)
    | None => Ret (h, false)
    end.

(** The loop that follows the failure links from [pf]. *)
Fixpoint connect_walk (fuel : nat) (h : trie) (pf q : pointer) : res trie :=
  '(h, done) ← aho_connect_link1 h pf q;
  if (done : bool) then Ret h
  else match fuel with O => Fuel | S n => nd ← load h pf; connect_walk n h (failure_link nd) q end.

(** The children of [p], which connecting them does not change. *)
Fixpoint connect_children (fuel : nat) (h : trie) (qh : heap aho_queue_node) (que : aho_queue) (p : pointer) (cs : list nat) :
    res (trie * heap aho_queue_node * aho_queue) :=
  match cs with
  | [] => Ret (h, qh, que)
  | c :: cs =>
    '(qh, que, _) ← aho_queue_enqueue qh que (Some c);
    h ← connect_walk fuel h p (Some c);
    connect_children fuel h qh que p cs
  end.

Fixpoint connect_loop (fuel : nat) (h : trie) (qh : heap aho_queue_node) (que : aho_queue) :
    res (trie * heap aho_queue_node) :=
  '(qh, que, r) ← aho_queue_take qh que;
  match r with
  | None => qh ← aho_queue_destroy (length qh) qh que; Ret (h, qh)
  | Some p =>
    match fuel with
    | O => Fuel
    | S n =>
      nd ← load h p;
      '(h, qh, que) ← connect_children (length h) h qh que p (child_list nd);
      connect_loop n h qh que
    end
  end.

(** The number of nodes bounds both loops. *)
Definition aho_connect_link (h : trie) : res (trie * heap aho_queue_node) :=
  '(qh, que, _) ← aho_queue_enqueue [] aho_queue_init root;
  connect_loop (length h) h qh que.

(** ** Cleaning *)

Fixpoint enqueue_all (qh : heap aho_queue_node) (que : aho_queue) (cs : list nat) : res (heap aho_queue_node * aho_queue) :=
  match cs with
  | [] => Ret (qh, que)
  | c :: cs => '(qh, que, _) ← aho_queue_enqueue qh que (Some c); enqueue_all qh que cs
  end.

Fixpoint clean_loop (fuel : nat) (h : trie) (qh : heap aho_queue_node) (que : aho_queue) :
    res (trie * heap aho_queue_node) :=
  '(qh, que, r) ← aho_queue_take qh que;
  match r with
  | None => Ret (h, qh)
  | Some remove_node =>
    match fuel with
    | O => Fuel
    | S n =>
      nd ← load h remove_node;
      '(qh, que) ← enqueue_all qh que (child_list nd);
      if is_null (parent nd) then clean_loop n h qh que
      else h ← dispose h remove_node; clean_loop n h qh que
    end
  end.

Definition aho_clean_trie_node (h : trie) : res (trie * heap aho_queue_node) :=
  '(qh, que, _) ← aho_queue_enqueue [] aho_queue_init root;
  clean_loop (length h) h qh que.

Definition aho_destroy_trie (h : trie) : res (trie * heap aho_queue_node) := aho_clean_trie_node h.

(** ** Searching *)

(** [__aho_find_trie_node]: the new [*start] and whether a child was found. *)
Definition aho_find_trie_node1 (h : trie) (start : pointer) (c : Z) : res (pointer * bool) :=
  match start with
  | None => Ret (None, false)
  | Some _ =>
    nd ← load h start;
    found ← find_child h (child_list nd) c;
    match found with Some a => Ret (Some a, true) | None => Ret (start, false) end
  end.

(** [aho_find_trie_node]: the new [*start] and the address of the text, or null. *)
Fixpoint aho_find_trie_node (fuel : nat) (h : trie) (start : pointer) (c : Z) : res (pointer * pointer) :=
  '(start, found) ← aho_find_trie_node1 h start c;
  if (found : bool) then
    nd ← load h start;
    if text_end nd then Ret (start, output_text nd)
    else match output_link nd with
    | Some _ => o ← load h (output_link nd); Ret (start, output_text o)
    | None => Ret (start, None)
    end
  else
    match start with
    | None => Ret (start, None)
    | Some _ =>
      nd ← load h start;
      if is_null (parent nd) then Ret (start, None)
      else match fuel with O => Fuel | S n => aho_find_trie_node n h (failure_link nd) c end
    end.
