(* ===== verification/AhoBuild.v ===== *)
(** The trie that aho_trie.c builds: each node stands for a string, the children of a
    node for its one-character extensions; adding a text adds the nodes of its
    prefixes and marks the last one. *)
From S2P Require Import Prelude Heap AhoQueue AhoTrie.

(** ** Well-formed tries *)

(** [trie_ok h strs]: node [n] stands for [strs !! n].  The strings are distinct, a
    node's parent is its string without the last character, which is its text, and
    its children are all nodes that extend it by one character. *)
Record node_ok (strs : list (list Z)) (s : list Z) (nd : aho_trie_node) : Prop := NodeOk {
  no_parent : (s = [] /\ parent nd = None) \/
    exists s0 m, s = s0 ++ [text nd] /\ parent nd = Some m /\ strs !! m = Some s0;
  no_children : forall c, c ∈ child_list nd <-> exists a, strs !! c = Some (s ++ [a]);
  no_nodup : NoDup (child_list nd)
}.

Record trie_ok (h : trie) (strs : list (list Z)) : Prop := TrieOk {
  to_len : length h = length strs;
  to_root : strs !! 0%nat = Some [];
  to_nodup : NoDup strs;
  to_node : forall n s, strs !! n = Some s -> exists nd, at_addr h n nd /\ node_ok strs s nd
}.

(** The strings marked as texts, and the text of each. *)
Definition final (h : trie) (strs : list (list Z)) (s : list Z) (tp : pointer) : Prop :=
  exists n nd, strs !! n = Some s /\ at_addr h n nd /\ text_end nd = true /\ output_text nd = tp.

Lemma trie_addr h strs n nd : trie_ok h strs -> at_addr h n nd -> exists s, strs !! n = Some s /\ node_ok strs s nd.
Proof.
  intros Hok Hn. assert (Hl : (n < length strs)%nat) by (rewrite <-(to_len _ _ Hok); by eapply at_addr_lt).
  apply lookup_lt_is_Some in Hl as [s Hs]. exists s. split; [done|].
  destruct (to_node _ _ Hok _ _ Hs) as (nd' & Hn' & Ho). by rewrite (at_addr_fun _ _ _ _ Hn Hn').
Qed.

Lemma trie_inj h strs n m s : trie_ok h strs -> strs !! n = Some s -> strs !! m = Some s -> n = m.
Proof. intros Hok. by apply NoDup_lookup, Hok. Qed.

Lemma init_ok : trie_ok aho_init_trie [[]].
Proof.
  split; [done|done|apply NoDup_singleton|]. intros [|n] s Hs; [|done]. injection Hs as <-.
  exists aho_trie_node_init. split; [done|]. split; [by left| |constructor].
  intros c. cbn. split; [by intros ?%not_elem_of_nil|]. intros [a Ha]. destruct c as [|[|]]; done.
Qed.

(** The children's text is the character that extends the node. *)
Lemma child_text strs s c nd a : node_ok strs (s ++ [a]) nd -> strs !! c = Some (s ++ [a]) -> text nd = a.
Proof.
  intros [[[H _]|(s0 & m & H & _)] _ _] _; [by apply app_nil in H as [_ ?]|]. apply app_inj_tail in H as [_ H]. congruence.
Qed.

Lemma find_child_ok h strs s nd c : trie_ok h strs -> node_ok strs s nd ->
  (forall m, strs !! m = Some (s ++ [c]) -> find_child h (child_list nd) c = Ret (Some m)) /\
  ((forall m, strs !! m <> Some (s ++ [c])) -> find_child h (child_list nd) c = Ret None).
Proof.
  intros Hok Hnd.
  assert (H : forall cs, (forall x, x ∈ cs -> exists a, strs !! x = Some (s ++ [a])) ->
    (forall m, strs !! m = Some (s ++ [c]) -> m ∈ cs -> find_child h cs c = Ret (Some m)) /\
    ((forall m, strs !! m = Some (s ++ [c]) -> m ∉ cs) -> find_child h cs c = Ret None)).
  { induction cs as [|x cs IH]; intros Hcs; cbn [find_child].
    - split; [by intros m _ ?%not_elem_of_nil|done].
    - destruct (Hcs x) as [a Ha]; [by left|]. destruct (to_node _ _ Hok _ _ Ha) as (nx & Hx & Hnx).
      rewrite (load_ok _ _ _ Hx). bind. rewrite (child_text _ _ _ _ _ Hnx Ha).
      destruct IH as [IH1 IH2]; [intros y Hy; apply Hcs; by right|]. destruct (Z.eqb_spec a c) as [->|Hne].
      + split; [intros m Hm _; by rewrite (trie_inj _ _ _ _ _ Hok Hm Ha)|]. intros Hn. exfalso. apply (Hn x Ha). by left.
      + split; [|intros Hn; apply IH2; intros m Hm Hin; apply (Hn m Hm); by right].
        intros m Hm [->|Hin]%elem_of_cons; [|by apply IH1]. rewrite Ha in Hm. injection Hm as Hm.
        apply app_inj_tail in Hm as [_ ?]. done. }
  destruct (H (child_list nd)) as [H1 H2]; [intros x Hx; by apply (no_children _ _ _ Hnd)|].
  split; [intros m Hm; apply H1; [done|]; apply (no_children _ _ _ Hnd); by exists c|].
  intros Hn. apply H2. intros m Hm. by specialize (Hn m).
Qed.

(** ** Updates that keep the trie *)

(** Fields the shape does not depend on. *)
Definition same_shape (f : aho_trie_node -> aho_trie_node) : Prop := forall n,
  text (f n) = text n /\ parent (f n) = parent n /\ child_list (f n) = child_list n.

Lemma modify_shape h strs a f : trie_ok h strs -> same_shape f -> (a < length strs)%nat ->
  exists nd, at_addr h a nd /\ modify h (Some a) f = Ret (<[a := Some (f nd)]> h) /\
    trie_ok (<[a := Some (f nd)]> h) strs.
Proof.
  intros Hok Hf Ha. apply lookup_lt_is_Some in Ha as [s Hs]. destruct (to_node _ _ Hok _ _ Hs) as (nd & Hn & Hnd).
  exists nd. split; [done|]. split; [by apply modify_ok|]. split; try apply Hok; [by rewrite length_insert; apply Hok|].
  intros n s' Hs'. destruct (decide (a = n)) as [<-|Hne].
  - exists (f nd). split; [by eapply at_insert_eq|]. destruct (Hf nd) as (E1 & E2 & E3).
    assert (s' = s) as -> by congruence. destruct Hnd as [P1 P2 P3]. split; rewrite ?E1, ?E2, ?E3; done.
  - destruct (to_node _ _ Hok _ _ Hs') as (nd' & Hn' & Hnd'). exists nd'. by rewrite at_insert_ne.
Qed.

Lemma same_inc : same_shape inc_ref. Proof. done. Qed.
Lemma same_output t : same_shape (set_output t). Proof. done. Qed.
Lemma same_failure p : same_shape (set_failure p). Proof. done. Qed.
Lemma same_output_link p : same_shape (set_output_link p). Proof. done. Qed.

(** *** A new node *)

Lemma lookup_snoc_old {A} (l : list A) x n y : l !! n = Some y -> (l ++ [x]) !! n = Some y.
Proof. intros H. by apply lookup_app_l_Some. Qed.

Lemma lookup_snoc_inv {A} (l : list A) x n y : (l ++ [x]) !! n = Some y -> l !! n = Some y \/ (n = length l /\ y = x).
Proof.
  intros [?|[Hge H]]%lookup_app_Some; [by left|]. right. apply list_lookup_singleton_Some in H as [? ->]. split; [lia|done].
Qed.

Definition node_of (c : Z) (p : pointer) : aho_trie_node := Node c 1 p [] false None None None.

Lemma node_ok_grow strs s nd s0 c : node_ok strs s nd -> s <> s0 -> node_ok (strs ++ [s0 ++ [c]]) s nd.
Proof.
  intros [Hp Hc Hn] Hne. split; [|intros x; rewrite Hc|done].
  - destruct Hp as [Hp|(s1 & m & E & Ep & Em)]; [by left|right]. exists s1, m. split_and!; try done. by apply lookup_snoc_old.
  - split; [intros [a Ha]; exists a; by apply lookup_snoc_old|]. intros [a [Ha|[_ Ha]]%lookup_snoc_inv]; [by exists a|].
    by apply app_inj_tail in Ha as [? _].
Qed.

Lemma node_ok_push strs s nd c : node_ok strs s nd -> (forall m, strs !! m <> Some (s ++ [c])) ->
  node_ok (strs ++ [s ++ [c]]) s (push_child (length strs) nd).
Proof.
  intros [Hp Hc Hn] Hnew. split; cbn [text parent child_list push_child].
  - destruct Hp as [Hp|(s1 & m & E & Ep & Em)]; [by left|right]. exists s1, m. split_and!; try done. by apply lookup_snoc_old.
  - intros x. rewrite elem_of_app, Hc, list_elem_of_singleton. split.
    + intros [[a Ha]| ->]; [exists a; by apply lookup_snoc_old|]. exists c. by rewrite list_lookup_middle.
    + intros [a [Ha|[-> _]]%lookup_snoc_inv]; [left; by exists a|by right].
  - apply NoDup_app. split; [done|]. split; [|apply NoDup_singleton]. intros x Hx ->%list_elem_of_singleton.
    apply Hc in Hx as [a Ha]. apply lookup_lt_Some in Ha. lia.
Qed.

(** [grown h h']: what a node carries besides its place in the tree is kept; nodes
    that are new carry nothing. *)
Definition marks (n : aho_trie_node) : bool * pointer * pointer * pointer :=
  (text_end n, output_text n, failure_link n, output_link n).

Definition grown (h h' : trie) : Prop :=
  (length h <= length h')%nat /\
  (forall m nd, at_addr h m nd -> exists nd', at_addr h' m nd' /\ marks nd' = marks nd) /\
  (forall m nd', at_addr h' m nd' -> (exists nd, at_addr h m nd /\ marks nd' = marks nd) \/
    (length h <= m)%nat /\ marks nd' = (false, None, None, None)).

Lemma grown_refl h : grown h h.
Proof. split; [done|]. split; eauto. Qed.

Lemma grown_trans h1 h2 h3 : grown h1 h2 -> grown h2 h3 -> grown h1 h3.
Proof.
  intros (L & A & B) (L' & A' & B'). split; [lia|]. split.
  - intros m nd (nd2 & H2 & E2)%A. destruct (A' _ _ H2) as (nd3 & H3 & E3). exists nd3. split; [done|congruence].
  - intros m nd [(nd2 & H2 & E2)|[Hge E]]%B'; [|right; split; [lia|done]].
    destruct (B _ _ H2) as [(nd1 & H1 & E1)|[Hge E]]; [left; exists nd1|right]; split; congruence || done.
Qed.

Lemma grown_modify h a f nd : at_addr h a nd -> marks (f nd) = marks nd -> grown h (<[a := Some (f nd)]> h).
Proof.
  intros Ha Hf. split; [by rewrite length_insert|]. split.
  - intros m n Hm. destruct (decide (a = m)) as [<-|Hne]; [|exists n; by rewrite at_insert_ne].
    exists (f nd). split; [by eapply at_insert_eq|]. by rewrite (at_addr_fun _ _ _ _ Hm Ha).
  - intros m n Hm. left. destruct (decide (a = m)) as [<-|Hne]; [|exists n; by rewrite at_insert_ne in Hm].
    exists nd. by rewrite (at_insert_eq_inv _ _ _ _ Hm).
Qed.

Lemma grown_new h n : marks n = (false, None, None, None) -> grown h (h ++ [Some n]).
Proof.
  intros Hn. split; [rewrite length_app; lia|]. split.
  - intros m nd Hm. exists nd. split; [by apply at_new_old|done].
  - intros m nd [[-> ->]|Hm]%at_new_inv; [by right|left; eauto].
Qed.

Lemma new_child_ok h strs n s c : trie_ok h strs -> strs !! n = Some s -> (forall m, strs !! m <> Some (s ++ [c])) ->
  exists h', new_child h (Some n) c = Ret (h', Some (length h)) /\ trie_ok h' (strs ++ [s ++ [c]]) /\ grown h h'.
Proof.
  intros Hok Hs Hnew. destruct (to_node _ _ Hok _ _ Hs) as (nd & Hn & Hnd). pose proof (at_addr_lt _ _ _ Hn) as Hlt.
  assert (Hne : n <> length h) by lia. unfold new_child, new. cbv beta iota.
  pose proof (at_new_old _ _ _ aho_trie_node_init Hn) as Hn0. rewrite (modify_ok _ _ _ _ Hn0). bind.
  set (h1 := <[n := _]> _).
  assert (Hl1 : at_addr h1 (length h) aho_trie_node_init) by (apply at_insert_ne; [done|apply at_new]).
  rewrite (modify_ok _ _ _ _ Hl1). bind. set (h2 := <[length h := _]> h1).
  assert (Hl2 : at_addr h2 (length h) (set_text c aho_trie_node_init)) by by eapply at_insert_eq.
  rewrite (modify_ok _ _ _ _ Hl2). bind. set (h3 := <[length h := _]> h2).
  assert (Hnewn : at_addr h3 (length h) (node_of c (Some n))) by (by eapply at_insert_eq in Hl2).
  assert (Hold : forall m x, m <> length h -> at_addr h1 m x -> at_addr h3 m x)
    by (intros m x Hm Hx; apply at_insert_ne; [done|]; by apply at_insert_ne).
  exists h3. split; [done|]. split.
  - split.
    + unfold h3, h2, h1. rewrite !length_insert, !length_app, (to_len _ _ Hok). cbn [length]. lia.
    + apply lookup_snoc_old, Hok.
    + apply NoDup_app. split; [apply Hok|]. split; [|apply NoDup_singleton].
      intros x Hx ->%list_elem_of_singleton. apply list_elem_of_lookup in Hx as [m Hm]. by apply Hnew in Hm.
    + intros m sm [Hm|[-> ->]]%lookup_snoc_inv.
      * destruct (to_node _ _ Hok _ _ Hm) as (x & Hx & Hox). pose proof (at_addr_lt _ _ _ Hx).
        destruct (decide (n = m)) as [<-|Hnm].
        -- exists (push_child (length h) nd). split; [apply Hold; [lia|]; by eapply at_insert_eq|].
           assert (sm = s) as -> by congruence. rewrite (to_len _ _ Hok). by apply node_ok_push.
        -- exists x. split; [apply Hold; [lia|]; apply at_insert_ne; [done|]; by apply at_new_old|].
           apply node_ok_grow; [done|]. intros ->. apply Hnm. by eapply trie_inj.
      * rewrite <-(to_len _ _ Hok). exists (node_of c (Some n)). split; [done|]. split; [right| |constructor].
        -- exists s, n. split_and!; try done. by apply lookup_snoc_old.
        -- intros x. cbn. split; [by intros ?%not_elem_of_nil|]. intros [a [Ha|[_ Ha]]%lookup_snoc_inv].
           ++ exfalso. destruct (to_node _ _ Hok _ _ Ha) as (z & _ & Hz).
              destruct (no_parent _ _ _ Hz) as [[E _]|(s0 & m & E & _ & Em)]; [by apply app_nil in E as [_ ?]|].
              apply app_inj_tail in E as [<- _]. by apply (Hnew m).
           ++ apply (f_equal length) in Ha. rewrite !length_app in Ha. cbn [length] in Ha. lia.
  - apply (grown_trans _ (h ++ [Some aho_trie_node_init])); [by apply grown_new|].
    apply (grown_trans _ h1); [by apply (grown_modify _ n (push_child (length h)) nd)|].
    apply (grown_trans _ h2); [by apply (grown_modify _ _ (set_text c) _ Hl1)|].
    by apply (grown_modify _ _ (set_parent (Some n)) _ Hl2).
Qed.

(** ** Adding a text *)

Lemma grown_addr h h' m nd : grown h h' -> at_addr h m nd -> exists nd', at_addr h' m nd' /\ marks nd' = marks nd.
Proof. intros (_ & H & _). apply H. Qed.

Definition bytes_of (txt : list Z) : list Z := map u8 txt.

(** The strings from [u] on along [w]. *)
Definition along (u w : list Z) (s : list Z) : Prop := exists k, (0 < k <= length w)%nat /\ s = u ++ take k w.

Lemma along_cons u c w s : along (u ++ [c]) w s -> along u (c :: w) s.
Proof. intros (k & Hk & ->). exists (S k). cbn [length take]. split; [lia|]. by rewrite <-app_assoc. Qed.

(** A step of the loop to the child for the next character, which is there or new. *)
Lemma child_step h strs cur u nd c : trie_ok h strs -> strs !! cur = Some u -> at_addr h cur nd ->
  (exists m f, strs !! m = Some (u ++ [c]) /\ child_count nd <> 0 /\ find_child h (child_list nd) c = Ret (Some m) /\
     modify h (Some m) inc_ref = Ret f /\ trie_ok f strs /\ grown h f) \/
  (exists h', (child_count nd = 0 \/ find_child h (child_list nd) c = Ret None) /\
     new_child h (Some cur) c = Ret (h', Some (length h)) /\ trie_ok h' (strs ++ [u ++ [c]]) /\ grown h h' /\ u ++ [c] ∉ strs).
Proof.
  intros Hok Hu Hn. destruct (trie_addr _ _ _ _ Hok Hn) as (u' & Hu' & Hnd). assert (u' = u) as -> by congruence.
  destruct (find_child_ok h strs u nd c Hok Hnd) as [F1 F2].
  destruct (decide (u ++ [c] ∈ strs)) as [Hin|Hnin].
  - left. apply list_elem_of_lookup in Hin as [m Hm].
    destruct (modify_shape h strs m inc_ref Hok same_inc) as (x & Hx & E & Hok'); [by eapply lookup_lt_Some|].
    exists m, (<[m := Some (inc_ref x)]> h). split_and!; auto.
    + assert (Hc : m ∈ child_list nd) by (apply (no_children _ _ _ Hnd); by exists c).
      unfold child_count. destruct (child_list nd); [by apply not_elem_of_nil in Hc|]. cbn [length]. lia.
    + by apply grown_modify.
  - right. assert (Hno : forall m, strs !! m <> Some (u ++ [c])) by (intros m Hm; apply Hnin; by eapply list_elem_of_lookup_2).
    destruct (new_child_ok h strs cur u c Hok Hu Hno) as (h' & E & Hok' & Hg). exists h'. auto.
Qed.

Definition full (h : trie) : Prop := exists m nd, at_addr h m nd /\ child_count nd = MAX_AHO_CHILD_NODE.

(** The outcome of adding [w] below the node of [u]. *)
Definition adds (h : trie) (strs : list (list Z)) (u w : list Z) (o : res (trie * option pointer)) : Prop :=
  exists h' added r, o = Ret (h', r) /\ trie_ok h' (strs ++ added) /\ grown h h' /\
    (forall s, s ∈ added -> along u w s) /\
    match r with
    | Some p => exists m, p = Some m /\ (strs ++ added) !! m = Some (u ++ w) /\ forall s, along u w s -> s ∈ strs ++ added
    | None => full h'
    end.

Lemma adds_nil h strs u cur : trie_ok h strs -> strs !! cur = Some u -> adds h strs u [] (Ret (h, Some (Some cur))).
Proof.
  intros Hok Hu. exists h, [], (Some (Some cur)). rewrite !app_nil_r. split; [done|]. split; [done|].
  split; [apply grown_refl|]. split; [by intros s ?%not_elem_of_nil|]. exists cur. split; [done|].
  split; [by rewrite Hu|]. intros s (k & Hk & _). cbn [length] in Hk. lia.
Qed.

Lemma adds_full h strs u w : trie_ok h strs -> full h -> adds h strs u w (Ret (h, None)).
Proof.
  intros Hok Hf. exists h, [], None. rewrite app_nil_r. split_and!; try done; [apply grown_refl|by intros s ?%not_elem_of_nil].
Qed.

Lemma adds_step h h1 strs ad u c w o : grown h h1 -> (forall s, s ∈ ad -> s = u ++ [c]) -> u ++ [c] ∈ strs ++ ad ->
  adds h1 (strs ++ ad) (u ++ [c]) w o -> adds h strs u (c :: w) o.
Proof.
  intros Hg Had Hin (h' & added & r & E & Hok' & Hg' & Hal & Hr).
  exists h', (ad ++ added), r. rewrite app_assoc. split; [done|]. split; [done|]. split; [by eapply grown_trans|]. split.
  - intros s [Hs|Hs]%elem_of_app; [|by apply along_cons, Hal]. rewrite (Had _ Hs). exists 1%nat. cbn [length take].
    split; [lia|done].
  - destruct r as [p|]; [|done]. destruct Hr as (m' & -> & Hm' & Hall). exists m'. split; [done|].
    rewrite Hm'. split; [by rewrite <-app_assoc|]. intros s (k & Hk & ->). destruct k as [|[|k]]; [lia| |].
    + cbn [take]. rewrite elem_of_app. by left.
    + apply Hall. exists (S k). cbn [length take] in *. split; [lia|]. by rewrite <-app_assoc.
Qed.

Lemma add_loop_ok n i txt h strs cur u : trie_ok h strs -> strs !! cur = Some u -> (i + n <= length txt)%nat ->
  adds h strs u (bytes_of (take n (drop i txt))) (add_loop n i txt h (Some cur)).
Proof.
  revert i h strs cur u. induction n as [|n IH]; intros i h strs cur u Hok Hu Hlen; cbn [add_loop]; [by apply adds_nil|].
  destruct (lookup_lt_is_Some_2 txt i) as [c0 Hc0]; [lia|]. rewrite Hc0. bind.
  rewrite (drop_S _ _ _ Hc0). cbn [take bytes_of map]. fold (bytes_of (take n (drop (S i) txt))). set (c := u8 c0).
  destruct (to_node _ _ Hok _ _ Hu) as (nd & Hn & Hnd). rewrite (load_ok _ _ _ Hn). bind.
  destruct (child_step h strs cur u nd c Hok Hu Hn) as
    [(m & h1 & Hm & Hcnt & Ef & Em & Hok1 & Hg1)|(h1 & Hor & En & Hok1 & Hg1 & Hnin)].
  - rewrite (proj2 (Z.eqb_neq _ _) Hcnt). destruct (Z.eqb_spec (child_count nd) MAX_AHO_CHILD_NODE) as [Hfull|_];
      [apply adds_full; [done|by exists cur, nd]|].
    rewrite Ef. bind. rewrite Em. bind. apply (adds_step h h1 strs []); [done|by intros s ?%not_elem_of_nil| |]; rewrite app_nil_r;
      [by eapply list_elem_of_lookup_2|]. by apply IH; [| |lia].
  - assert (Hnew : adds h strs u (c :: bytes_of (take n (drop (S i) txt))) (add_loop n (S i) txt h1 (Some (length h)))).
    { apply (adds_step h h1 strs [u ++ [c]]); [done|by intros s ?%list_elem_of_singleton|set_solver|].
      apply IH; [done| |lia]. rewrite (to_len _ _ Hok). by rewrite list_lookup_middle. }
    destruct (Z.eqb_spec (child_count nd) 0) as [Hz|Hz]; [by rewrite En|].
    destruct (Z.eqb_spec (child_count nd) MAX_AHO_CHILD_NODE) as [Hfull|_]; [apply adds_full; [done|by exists cur, nd]|].
    destruct Hor as [Hz'|Ef]; [by rewrite Hz' in Hz|]. rewrite Ef. bind. by rewrite En.
Qed.

(** *** The whole operation *)

Definition no_links (h : trie) : Prop := forall m nd, at_addr h m nd -> failure_link nd = None /\ output_link nd = None.

Lemma grown_no_links h h' : grown h h' -> no_links h -> no_links h'.
Proof.
  intros (_ & _ & H) Hn m nd [(nd0 & H0 & E)|[_ E]]%H; [|by injection E as _ _ -> ->].
  injection E as _ _ -> ->. by eapply Hn.
Qed.

Lemma grown_final h h' strs added s tp : trie_ok h strs -> trie_ok h' (strs ++ added) -> grown h h' ->
  final h' (strs ++ added) s tp <-> final h strs s tp.
Proof.
  intros Hok Hok' (_ & Ha & Hb). split; intros (n & nd & Hs & Hn & He & Ho).
  - destruct (Hb _ _ Hn) as [(nd0 & H0 & E)|[_ E]]; [|injection E as E; congruence]. injection E as E1 E2 _ _.
    exists n, nd0. split_and!; [|done|congruence..]. rewrite lookup_app_l in Hs; [done|].
    rewrite <-(to_len _ _ Hok). by eapply at_addr_lt.
  - destruct (Ha _ _ Hn) as (nd' & Hn' & E). injection E as E1 E2 _ _. exists n, nd'.
    split_and!; [by apply lookup_app_l_Some|done|congruence..].
Qed.

(** Marking the node of [w]. *)
Lemma final_mark h strs m nd w tp s tp' : trie_ok h strs -> at_addr h m nd -> strs !! m = Some w ->
  final (<[m := Some (set_output tp nd)]> h) strs s tp' <-> (s = w /\ tp' = tp) \/ (s <> w /\ final h strs s tp').
Proof.
  intros Hok Hm Hw. split.
  - intros (n & x & Hs & Hx & He & Ho). destruct (decide (m = n)) as [<-|Hne].
    + apply at_insert_eq_inv in Hx as ->. left. split; [congruence|done].
    + apply at_insert_ne in Hx; [|done]. right. split; [|by exists n, x]. intros ->. by apply Hne, (trie_inj h strs _ _ w).
  - intros [[-> ->]|[Hne (n & x & Hs & Hx & He & Ho)]].
    + exists m, (set_output tp nd). split_and!; try done. by eapply at_insert_eq.
    + exists n, x. split_and!; try done. apply at_insert_ne; [|done]. intros ->. congruence.
Qed.

Lemma add_ok h strs tp txt len : trie_ok h strs -> 0 <= len <= Z.of_nat (length txt) -> no_links h ->
  let w := bytes_of (take (Z.to_nat len) txt) in
  exists h' added b, aho_add_trie_node h tp txt len = Ret (h', b) /\ trie_ok h' (strs ++ added) /\ no_links h' /\
    (length h <= length h')%nat /\ (forall s, s ∈ added -> along [] w s) /\
    if (b : bool) then (forall s, along [] w s -> s ∈ strs ++ added) /\
      forall s tp', final h' (strs ++ added) s tp' <-> (s = w /\ tp' = tp) \/ (s <> w /\ final h strs s tp')
    else full h' /\ forall s tp', final h' (strs ++ added) s tp' <-> final h strs s tp'.
Proof.
  intros Hok Hlen Hnl w. unfold aho_add_trie_node, root.
  destruct (add_loop_ok (Z.to_nat len) 0 txt h strs 0 [] Hok (to_root _ _ Hok) ltac:(lia))
    as (h1 & added & r & -> & Hok1 & Hg & Hal & Hr). fold w in Hal, Hr. bind. pose proof (grown_no_links _ _ Hg Hnl) as Hnl1.
  destruct r as [p|].
  - destruct Hr as (m & -> & Hm & Hall). cbn [app] in Hm.
    destruct (modify_shape h1 _ m (set_output tp) Hok1 (same_output tp)) as (nd & Hn & -> & Hok2);
      [by eapply lookup_lt_Some|]. bind.
    eexists _, added, true. split; [done|]. split; [done|]. split; [|split; [|split; [done|split; [done|]]]].
    + intros k x Hx. destruct (decide (m = k)) as [<-|Hne]; [|apply at_insert_ne in Hx; [by eapply Hnl1|done]].
      apply at_insert_eq_inv in Hx as ->. exact (Hnl1 _ _ Hn).
    + rewrite length_insert. apply Hg.
    + intros s tp'. rewrite (final_mark _ _ _ _ _ _ _ _ Hok1 Hn Hm). by rewrite (grown_final _ _ _ _ _ _ Hok Hok1 Hg).
  - exists h1, added, false. split_and!; try done; [apply Hg|]. intros s tp'. by apply grown_final.
Qed.

(** A node whose strings leave a byte unused is never full. *)
Definition spare (b : Z) (strs : list (list Z)) : Prop := forall s, s ∈ strs -> forall a, a ∈ s -> 0 <= a < 256 /\ a <> b.

Lemma spare_not_full h strs b : trie_ok h strs -> 0 <= b < 256 -> spare b strs -> ~ full h.
Proof.
  intros Hok Hb Hsp (m & nd & Hn & Hc). destruct (trie_addr _ _ _ _ Hok Hn) as (s & Hs & Hnd).
  set (g := fun x => default 0 (last (default [] (strs !! x)))).
  assert (Hg : forall x, x ∈ child_list nd -> exists a, strs !! x = Some (s ++ [a]) /\ g x = a).
  { intros x Hx. apply (no_children _ _ _ Hnd) in Hx as [a Ha]. exists a. split; [done|]. unfold g. rewrite Ha. cbn.
    by rewrite last_snoc. }
  assert (Hnodup : NoDup (b :: (g <$> child_list nd))).
  { constructor.
    - intros (x & E & Hx)%list_elem_of_fmap. destruct (Hg x Hx) as (a & Ha & Ea).
      destruct (Hsp (s ++ [a]) ltac:(by eapply list_elem_of_lookup_2) a ltac:(set_solver)). congruence.
    - apply NoDup_fmap_2_strong; [|apply Hnd]. intros x y Hx Hy E. destruct (Hg x Hx) as (a & Ha & Ea), (Hg y Hy) as (a' & Ha' & Ea').
      eapply trie_inj; [done..|]. congruence. }
  assert (Hsub : b :: (g <$> child_list nd) ⊆+ seqZ 0 256).
  { apply NoDup_submseteq; [done|]. intros x [->|(y & -> & Hy)%list_elem_of_fmap]%elem_of_cons; apply elem_of_seqZ; [lia|].
    destruct (Hg y Hy) as (a & Ha & ->).
    destruct (Hsp (s ++ [a]) ltac:(by eapply list_elem_of_lookup_2) a ltac:(set_solver)). lia. }
  apply submseteq_length in Hsub. rewrite length_seqZ in Hsub. cbn [length] in Hsub. rewrite length_fmap in Hsub.
  unfold child_count, MAX_AHO_CHILD_NODE in Hc. lia.
Qed.
