(* ===== verification/AhoLinks.v ===== *)
(** Connecting the links: for every trie the loop ends, stays inside the heap, gives
    every node but the root a failure link to a node of a shorter string, and frees
    its queue.  Where failure links lead no deeper than the children of the root, the
    order of the queue does not matter and the links are the ones of the Aho-Corasick
    automaton. *)
From S2P Require Import Prelude Heap AhoQueue AhoTrie AhoBuild.

(** ** The walk along the failure links *)

(** The links a walk gives to its node: a failure link, and an output link unless it
    keeps the old one. *)
Definition set_links (m : nat) (o : option pointer) (n : aho_trie_node) : aho_trie_node :=
  let n := set_failure (Some m) n in match o with Some p => set_output_link p n | None => n end.

Definition out_of (m : nat) (n : aho_trie_node) : pointer := if text_end n then Some m else output_link n.

Inductive walk_to (h : trie) (strs : list (list Z)) (c : Z) : nat -> nat -> option pointer -> Prop :=
| wt_root pf nd : at_addr h pf nd -> is_null (failure_link nd) || is_null (parent nd) = true -> walk_to h strs c pf pf None
| wt_child pf nd f u m nm : at_addr h pf nd -> is_null (failure_link nd) || is_null (parent nd) = false ->
    failure_link nd = Some f -> strs !! f = Some u -> strs !! m = Some (u ++ [c]) -> at_addr h m nm ->
    walk_to h strs c pf m (Some (out_of m nm))
| wt_next pf nd f u m o : at_addr h pf nd -> is_null (failure_link nd) || is_null (parent nd) = false ->
    failure_link nd = Some f -> strs !! f = Some u -> u ++ [c] ∉ strs -> walk_to h strs c f m o -> walk_to h strs c pf m o.

(** Failure links lead to shorter strings, output links to texts. *)
Definition shorter (h : trie) (strs : list (list Z)) : Prop := forall n s nd f,
  strs !! n = Some s -> at_addr h n nd -> failure_link nd = Some f ->
  exists u, strs !! f = Some u /\ (length u < length s)%nat.

Definition outs_ok (h : trie) : Prop := forall n nd m, at_addr h n nd -> output_link nd = Some m ->
  exists x, at_addr h m x /\ text_end x = true.

Lemma walk_ok h strs q sq nq c fuel pf u : trie_ok h strs -> shorter h strs ->
  strs !! q = Some (sq ++ [c]) -> at_addr h q nq -> strs !! pf = Some u -> (length u <= length sq)%nat -> (length u <= fuel)%nat ->
  exists m o w, walk_to h strs c pf m o /\ strs !! m = Some w /\ (length w <= length sq)%nat /\
    connect_walk fuel h (Some pf) (Some q) = Ret (<[q := Some (set_links m o nq)]> h).
Proof.
  intros Hok Hsh Hq Hnq. revert pf u. induction fuel as [|fuel IH]; intros pf u Hpf Hlu Hf; cbn [connect_walk];
    destruct (to_node _ _ Hok _ _ Hpf) as (nd & Hn & Hnd); unfold aho_connect_link1; rewrite (load_ok _ _ _ Hn); bind;
    destruct (is_null (failure_link nd) || is_null (parent nd)) eqn:Eroot;
    try (rewrite (modify_ok _ _ _ _ Hnq); bind; exists pf, None, u; split; [by eapply wt_root|by split_and!]);
    destruct (failure_link nd) as [f|] eqn:Ef; try done; destruct (Hsh _ _ _ _ Hpf Hn Ef) as (uf & Huf & Hshort); [lia|].
  rewrite <-Ef in Eroot. destruct (to_node _ _ Hok _ _ Huf) as (nf & Hnf & Hndf). rewrite (load_ok _ _ _ Hnf). bind.
  rewrite (load_ok _ _ _ Hnq). bind. destruct (to_node _ _ Hok _ _ Hq) as (nq' & Hnq' & Hndq).
  rewrite (at_addr_fun _ _ _ _ Hnq' Hnq) in Hndq. rewrite (child_text _ _ _ _ _ Hndq Hq).
  destruct (find_child_ok h strs uf nf c Hok Hndf) as [F1 F2].
  destruct (decide (uf ++ [c] ∈ strs)) as [Hin|Hnin].
  - apply list_elem_of_lookup in Hin as [m Hm]. rewrite (F1 _ Hm). bind.
    destruct (to_node _ _ Hok _ _ Hm) as (nm & Hnm & _). exists m, (Some (out_of m nm)), (uf ++ [c]).
    split; [by eapply wt_child|]. split; [done|]. split; [rewrite length_app; cbn [length]; lia|].
    assert (Hmq : q <> m).
    { intros <-. rewrite Hq in Hm. injection Hm as Hm. apply app_inj_tail in Hm as [-> _]. lia. }
    rewrite (modify_ok _ _ _ _ Hnq). bind. rewrite (load_ok _ m nm) by by apply at_insert_ne. bind.
    rewrite (modify_ok _ q (set_failure (Some m) nq)) by by eapply at_insert_eq. bind.
    by rewrite list_insert_insert_eq.
  - rewrite F2; [|intros m Hm; apply Hnin; by eapply list_elem_of_lookup_2]. bind. rewrite (load_ok _ _ _ Hn). bind. rewrite Ef.
    destruct (IH f uf Huf) as (m & o & w & Hw & Hm & Hlw & E); [lia..|]. exists m, o, w.
    split; [by eapply wt_next|]. by split_and!.
Qed.

(** ** What the loop keeps *)

(** Nothing but links changes. *)
Definition relinked (h h' : trie) : Prop := length h' = length h /\
  forall n nd, at_addr h n nd -> exists nd', at_addr h' n nd' /\ text_end nd' = text_end nd /\ output_text nd' = output_text nd.

Lemma relinked_trans h1 h2 h3 : relinked h1 h2 -> relinked h2 h3 -> relinked h1 h3.
Proof.
  intros [L1 H1] [L2 H2]. split; [congruence|]. intros n nd (nd2 & Hn2 & E1 & E2)%H1.
  destruct (H2 _ _ Hn2) as (nd3 & Hn3 & E3 & E4). exists nd3. split_and!; congruence.
Qed.

Lemma relinked_final h h' strs s tp : trie_ok h strs -> trie_ok h' strs -> relinked h h' -> final h' strs s tp <-> final h strs s tp.
Proof.
  intros Hok Hok' [_ Hr]. split; intros (n & nd & Hs & Hn & He & Ho).
  - destruct (to_node _ _ Hok _ _ Hs) as (nd0 & Hn0 & _). destruct (Hr _ _ Hn0) as (nd' & Hn' & E1 & E2).
    assert (nd' = nd) as -> by (by eapply at_addr_fun). exists n, nd0. split_and!; congruence.
  - destruct (Hr _ _ Hn) as (nd' & Hn' & E1 & E2). exists n, nd'. split_and!; congruence.
Qed.

(** The nodes of [R] have their failure link, the others have no links yet. *)
Record links_ok (h : trie) (strs : list (list Z)) (R : nat -> Prop) : Prop := LinksOk {
  lo_trie : trie_ok h strs;
  lo_short : shorter h strs;
  lo_outs : outs_ok h;
  lo_done : forall n s nd, strs !! n = Some s -> at_addr h n nd -> R n -> s <> [] -> failure_link nd <> None;
  lo_todo : forall n s nd, strs !! n = Some s -> at_addr h n nd -> ~ R n \/ s = [] -> failure_link nd = None /\ output_link nd = None
}.

Lemma same_links m o : same_shape (set_links m o). Proof. by destruct o. Qed.
Lemma text_end_links m o n : text_end (set_links m o n) = text_end n. Proof. by destruct o. Qed.
Lemma failure_links m o n : failure_link (set_links m o n) = Some m. Proof. by destruct o. Qed.
Lemma output_links m o n : output_link (set_links m o n) = default (output_link n) o. Proof. by destruct o. Qed.

Lemma trie_modify h strs a nd f : trie_ok h strs -> at_addr h a nd -> same_shape f -> trie_ok (<[a := Some (f nd)]> h) strs.
Proof.
  intros Hok Ha Hf. destruct (modify_shape h strs a f Hok Hf) as (nd' & Ha' & _ & Hok');
    [rewrite <-(to_len _ _ Hok); by eapply at_addr_lt|]. by rewrite <-(at_addr_fun _ _ _ _ Ha' Ha).
Qed.

Lemma relinked_modify h a nd m o : at_addr h a nd -> relinked h (<[a := Some (set_links m o nd)]> h).
Proof.
  intros Ha. split; [by rewrite length_insert|]. intros n x Hn. destruct (decide (a = n)) as [<-|Hne].
  - exists (set_links m o nd). split; [by eapply at_insert_eq|]. rewrite (at_addr_fun _ _ _ _ Hn Ha). by destruct o.
  - exists x. split; [by apply at_insert_ne|done].
Qed.

(** Giving [q] its links. *)
Lemma links_set h strs (R : nat -> Prop) q sq nq c pf m o w : links_ok h strs R -> strs !! q = Some (sq ++ [c]) -> at_addr h q nq ->
  ~ R q -> walk_to h strs c pf m o -> strs !! m = Some w -> (length w <= length sq)%nat ->
  links_ok (<[q := Some (set_links m o nq)]> h) strs (fun n => n = q \/ R n).
Proof.
  intros [Hok Hsh Hout Hd Ht] Hq Hnq HR Hw Hm Hl.
  assert (Hcase : forall n x, at_addr (<[q := Some (set_links m o nq)]> h) n x ->
    (n = q /\ x = set_links m o nq) \/ (n <> q /\ at_addr h n x)).
  { intros n x Hx. destruct (decide (q = n)) as [<-|Hne]; [left; split; [done|by eapply at_insert_eq_inv]|].
    right. split; [done|]. by apply at_insert_ne in Hx. }
  destruct (Ht _ _ _ Hq Hnq (or_introl HR)) as [Hf0 Ho0]. split.
  - apply trie_modify; [done..|apply same_links].
  - intros n s nd f Hs [[-> ->]|[Hne Hn]]%Hcase Hf; [|by eapply Hsh]. rewrite failure_links in Hf. injection Hf as <-.
    exists w. split; [done|]. assert (s = sq ++ [c]) as -> by congruence. rewrite length_app. cbn [length]. lia.
  - intros n nd k Hn Ho. assert (Hk : exists x, at_addr h k x /\ text_end x = true).
    { apply Hcase in Hn as [[-> ->]|[Hne Hn]]; [|by eapply Hout]. rewrite output_links in Ho.
      clear - Hw Ho Hout Ho0. induction Hw as [| pf nd f u m nm Hn _ _ _ _ Hnm |]; cbn in Ho; [congruence| |by apply IHHw].
      unfold out_of in Ho. destruct (text_end nm) eqn:E; [|by eapply Hout]. injection Ho as <-. by exists nm. }
    destruct Hk as (x & Hx & Ex). destruct (decide (q = k)) as [<-|Hne]; [|exists x; by rewrite at_insert_ne].
    exists (set_links m o nq). split; [by eapply at_insert_eq|]. rewrite text_end_links.
    by rewrite <-(at_addr_fun _ _ _ _ Hx Hnq).
  - intros n s nd Hs [[-> ->]|[Hne Hn]]%Hcase HRn Hs0; [by rewrite failure_links|]. destruct HRn as [?|HRn]; [done|by eapply Hd].
  - intros n s nd Hs [[-> ->]|[Hne Hn]]%Hcase Hor.
    + exfalso. destruct Hor as [Hor|Hor]; [apply Hor; by left|]. rewrite Hq in Hs. injection Hs as <-. by apply app_nil in Hor as [_ ?].
    + eapply Ht; [done..|]. destruct Hor as [Hor|Hor]; [left; intros HRn; apply Hor; by right|by right].
Qed.

(** ** The loops *)

(** The nodes taken from the queue and those in it: exactly the root and the children
    of the nodes taken. *)
Record order_ok (strs : list (list Z)) (taken todo : list nat) : Prop := OrderOk {
  oo_nodup : NoDup (taken ++ todo);
  oo_set : forall n s, strs !! n = Some s -> n ∈ taken ++ todo <->
    s = [] \/ exists m s0 a, s = s0 ++ [a] /\ strs !! m = Some s0 /\ m ∈ taken;
  oo_bound : forall n, n ∈ taken ++ todo -> (n < length strs)%nat
}.

Lemma order_init strs : strs !! 0%nat = Some [] -> NoDup strs -> order_ok strs [] [0%nat].
Proof.
  intros H0 Hn. split; [apply NoDup_singleton| |].
  - intros n s Hs. cbn [app]. rewrite list_elem_of_singleton. split.
    + intros ->. left. congruence.
    + intros [->|(m & s0 & a & _ & _ & Hm)]; [by eapply (NoDup_lookup strs)|by apply not_elem_of_nil in Hm].
  - intros n ->%list_elem_of_singleton. by eapply lookup_lt_Some.
Qed.

Lemma order_take strs taken p todo cs sp : order_ok strs taken (p :: todo) -> NoDup strs -> strs !! p = Some sp -> NoDup cs ->
  (forall c, c ∈ cs <-> exists a, strs !! c = Some (sp ++ [a])) ->
  order_ok strs (p :: taken) (cs ++ todo) /\ forall c, c ∈ cs -> c ∉ taken ++ p :: todo.
Proof.
  intros [Hn Hs Hb] Hnd Hp Hcn Hcs.
  assert (Hold : forall c, c ∈ cs -> c ∉ taken ++ p :: todo).
  { intros c [a Hc]%Hcs Hin. apply (Hs _ _ Hc) in Hin as [E|(m & s0 & b & E & Hm & Hin)]; [by apply app_nil in E as [_ ?]|].
    apply app_inj_tail in E as [-> ->]. assert (m = p) as -> by (by eapply (NoDup_lookup strs)).
    apply NoDup_app in Hn as (_ & Hn & _). apply (Hn p Hin). by left. }
  split; [|done]. split.
  - assert (Hp' : Permutation ((p :: taken) ++ cs ++ todo) (cs ++ taken ++ p :: todo)) by solve_Permutation.
    rewrite Hp'. apply NoDup_app. split; [done|]. split; [|done]. apply Hold.
  - intros n s Hsn. assert (Hiff : n ∈ (p :: taken) ++ cs ++ todo <-> n ∈ taken ++ p :: todo \/ n ∈ cs) by set_solver.
    rewrite Hiff, (Hs _ _ Hsn), Hcs. split.
    + intros [[->|(m & s0 & a & E & Hm & Hin)]|[a Ha]]; [by left|right; exists m, s0, a; split_and!; try done; by right|].
      right. exists p, sp, a. split_and!; [congruence|done|by left].
    + intros [->|(m & s0 & a & -> & Hm & [->|Hin]%elem_of_cons)]; [by left; left| |].
      * right. exists a. rewrite Hp in Hm. by injection Hm as ->.
      * left. right. by exists m, s0, a.
  - intros n Hin. assert (Hor : n ∈ taken ++ p :: todo \/ n ∈ cs) by set_solver. destruct Hor as [Hin'|Hin']; [by apply Hb|].
    apply Hcs in Hin' as [a Ha]. by eapply lookup_lt_Some.
Qed.

(** When the queue is empty every node has been taken. *)
Lemma order_all h strs taken : trie_ok h strs -> order_ok strs taken [] -> forall n s, strs !! n = Some s -> n ∈ taken.
Proof.
  intros Hok [_ Hs _]. assert (H : forall k n s, length s = k -> strs !! n = Some s -> n ∈ taken).
  { induction k as [|k IH]; intros n s Hk Hn; rewrite app_nil_r in Hs; apply (Hs n s Hn).
    - left. by destruct s.
    - right. destruct (to_node _ _ Hok _ _ Hn) as (nd & _ & Hnd). destruct (no_parent _ _ _ Hnd) as [[-> _]|(s0 & m & E & _ & Hm)]; [done|].
      exists m, s0, (text nd). split_and!; [done..|]. apply (IH m s0); [|done].
      rewrite E, length_app in Hk. cbn [length] in Hk. lia. }
  intros n s. by apply (H (length s)).
Qed.

Lemma string_short h strs n s : trie_ok h strs -> strs !! n = Some s -> (length s < length strs)%nat.
Proof.
  intros Hok Hs. assert (Hpre : forall k, (k <= length s)%nat -> take k s ∈ strs).
  { assert (H : forall j m u, strs !! m = Some u -> (j <= length u)%nat -> take (length u - j) u ∈ strs).
    { induction j as [|j IH]; intros m u Hm Hj; [rewrite Nat.sub_0_r, take_ge by done; by eapply list_elem_of_lookup_2|].
      destruct (to_node _ _ Hok _ _ Hm) as (nd & _ & Hnd). destruct (no_parent _ _ _ Hnd) as [[-> _]|(s0 & m' & E & _ & Hm')];
        [cbn in Hj; lia|].
      rewrite E, length_app in Hj. cbn [length] in Hj. rewrite E, length_app. cbn [length].
      replace (length s0 + 1 - S j)%nat with (length s0 - j)%nat by lia. rewrite take_app_le by lia.
      apply (IH m'); [done|lia]. }
    intros k Hk. replace k with (length s - (length s - k))%nat by lia. apply (H _ n); [done|lia]. }
  assert (Hsub : (fun k => take k s) <$> seq 0 (S (length s)) ⊆+ strs).
  { apply NoDup_submseteq.
    - apply NoDup_fmap_2_strong; [|apply NoDup_seq]. intros j k Hj%elem_of_seq Hk%elem_of_seq E.
      apply (f_equal length) in E. rewrite !length_take in E. lia.
    - intros x (k & -> & Hk%elem_of_seq)%list_elem_of_fmap. apply Hpre. lia. }
  apply submseteq_length in Hsub. rewrite length_fmap, length_seq in Hsub. lia.
Qed.

(** [P] relates the links given so far to the nodes that have them; the walks keep it. *)
Section Loops.
Context (strs : list (list Z)) (P : trie -> (nat -> Prop) -> Prop).
Context (HP : forall h (R : nat -> Prop) p sp q c nq m o, links_ok h strs R -> P h R -> strs !! p = Some sp -> R p ->
  strs !! q = Some (sp ++ [c]) -> at_addr h q nq -> ~ R q -> walk_to h strs c p m o ->
  (sp = [] \/ forall n a, strs !! n = Some [a] -> R n) ->
  P (<[q := Some (set_links m o nq)]> h) (fun n => n = q \/ R n)).
Context (HPext : forall h (R R' : nat -> Prop), (forall n, R n <-> R' n) -> P h R -> P h R').

Lemma links_ext h (R R' : nat -> Prop) : (forall n, R n <-> R' n) -> links_ok h strs R -> links_ok h strs R'.
Proof.
  intros HR [Hok Hsh Hout Hd Ht]. split; try done.
  - intros n s nd Hs Hn HRn. by eapply Hd, HR.
  - intros n s nd Hs Hn [HRn|Hs0]; (eapply Ht; [done..|]); [left; by rewrite HR|by right].
Qed.

Lemma children_ok fuel cs h (R : nat -> Prop) qh que p sp todo : links_ok h strs R -> P h R -> strs !! p = Some sp -> R p ->
  (sp = [] \/ forall n a, strs !! n = Some [a] -> R n) ->
  NoDup cs -> (forall c, c ∈ cs -> ~ R c /\ exists a, strs !! c = Some (sp ++ [a])) ->
  stacked qh que (Some <$> todo) -> Z.of_nat (length todo + length cs) < 2 ^ 32 -> (length strs <= fuel)%nat ->
  exists h' qh' que', connect_children fuel h qh que (Some p) cs = Ret (h', qh', que') /\
    links_ok h' strs (fun n => n ∈ cs \/ R n) /\ P h' (fun n => n ∈ cs \/ R n) /\ relinked h h' /\
    stacked qh' que' (Some <$> reverse cs ++ todo).
Proof.
  revert h R qh que todo. induction cs as [|c cs IH]; intros h R qh que todo Hl HPh Hp HR Hd Hn Hcs Hq Hb Hf; cbn [connect_children].
  - exists h, qh, que. split; [done|]. assert (E : forall n, R n <-> n ∈ [] \/ R n) by set_solver.
    split; [exact (links_ext _ _ _ E Hl)|]. split; [exact (HPext _ _ _ E HPh)|]. split; [split; [done|eauto]|done].
  - apply NoDup_cons in Hn as [Hnc Hn]. cbn [length] in Hb.
    destruct (enqueue_stacked qh que (Some <$> todo) (Some c) Hq) as (qh1 & que1 & -> & Hq1); [rewrite length_fmap; lia|]. bind.
    destruct (Hcs c) as [HRc [a Hc]]; [by left|].
    destruct (to_node _ _ (lo_trie _ _ _ Hl) _ _ Hc) as (nq & Hnq & _).
    pose proof (string_short _ _ _ _ (lo_trie _ _ _ Hl) Hp) as Hsp.
    destruct (walk_ok h strs c sp nq a fuel p sp (lo_trie _ _ _ Hl) (lo_short _ _ _ Hl) Hc Hnq Hp) as (m & o & w & Hw & Hm & Hlw & ->);
      [lia|lia|]. bind.
    assert (Hl1 := links_set h strs R c sp nq a p m o w Hl Hc Hnq HRc Hw Hm Hlw).
    destruct (IH _ (fun n => n = c \/ R n) qh1 que1 (c :: todo) Hl1) as (h' & qh' & que' & -> & Hl' & HP' & Hr' & Hq'); try done.
    + by apply (HP h R p sp c a nq m o).
    + by right.
    + destruct Hd as [Hd|Hd]; [by left|right]. intros n b Hnb. right. by eapply Hd.
    + intros d Hdc. destruct (Hcs d) as [HRd Hdd]; [by right|]. split; [|done]. intros [->|?]; done.
    + cbn [length]. lia.
    + exists h', qh', que'. assert (E : forall n, (n ∈ cs \/ n = c \/ R n) <-> (n ∈ c :: cs \/ R n)) by set_solver.
      split; [done|]. split; [exact (links_ext _ _ _ E Hl')|]. split; [exact (HPext _ _ _ E HP')|]. split; [|by rewrite reverse_cons, <-app_assoc].
      eapply relinked_trans; [by apply relinked_modify|done].
Qed.

(** What holds between two rounds of the loop. *)
Record round (h : trie) (qh : heap aho_queue_node) (que : aho_queue) (taken todo : list nat) : Prop := Round {
  rd_links : links_ok h strs (fun n => n ∈ taken ++ todo);
  rd_P : P h (fun n => n ∈ taken ++ todo);
  rd_order : order_ok strs taken todo;
  rd_root : taken = [] -> todo = [0%nat];
  rd_taken : taken <> [] -> 0%nat ∈ taken;
  rd_queue : stacked qh que (Some <$> todo)
}.

Lemma count_le l : NoDup l -> (forall n, n ∈ l -> (n < length strs)%nat) -> (length l <= length strs)%nat.
Proof.
  intros Hn Hb. rewrite <-(length_seq (length strs) 0). apply submseteq_length, NoDup_submseteq; [done|].
  intros n Hin. apply elem_of_seq. specialize (Hb n Hin). lia.
Qed.

Lemma round_step h qh que taken p todo : round h qh que taken (p :: todo) -> Z.of_nat (length strs) < 2 ^ 32 ->
  exists qh1 que1 nd h' qh' que', aho_queue_take qh que = Ret (qh1, que1, Some (Some p)) /\ at_addr h p nd /\
    connect_children (length h) h qh1 que1 (Some p) (child_list nd) = Ret (h', qh', que') /\ relinked h h' /\
    round h' qh' que' (p :: taken) (reverse (child_list nd) ++ todo).
Proof.
  intros [Hl HPh Ho Ht0 Ht1 Hq] Hb. destruct (take_stacked _ _ _ _ Hq) as (qh1 & que1 & E1 & Hq1).
  pose proof (oo_bound _ _ _ Ho p ltac:(set_solver)) as Hp. apply lookup_lt_is_Some in Hp as [sp Hp].
  pose proof (lo_trie _ _ _ Hl) as Hok. destruct (to_node _ _ Hok _ _ Hp) as (nd & Hnd & Hno). pose proof (no_nodup _ _ _ Hno) as Hcn.
  destruct (order_take strs taken p todo (reverse (child_list nd)) sp Ho (to_nodup _ _ Hok) Hp) as [Ho1 Hfresh];
    [by rewrite reverse_Permutation|intros c; rewrite elem_of_reverse; by apply (no_children _ _ _ Hno)|].
  assert (Hlen : (length ((p :: taken) ++ reverse (child_list nd) ++ todo) <= length strs)%nat) by (apply count_le; apply Ho1).
  rewrite !length_app, length_reverse in Hlen. cbn [length] in Hlen.
  assert (Hdepth1 : sp = [] \/ forall n a, strs !! n = Some [a] -> n ∈ taken ++ p :: todo).
  { destruct taken as [|t taken]; [left; specialize (Ht0 eq_refl); injection Ht0 as -> _; rewrite (to_root _ _ Hok) in Hp; congruence|].
    right. intros n a Hn. apply (oo_set _ _ _ Ho n [a] Hn). right. exists 0%nat, [], a. split; [done|].
    split; [apply Hok|by apply Ht1]. }
  destruct (children_ok (length h) (child_list nd) h _ qh1 que1 p sp todo Hl HPh Hp ltac:(set_solver) Hdepth1 Hcn)
    as (h' & qh' & que' & E & Hl' & HP' & Hr' & Hq'); [|done|lia|by rewrite (to_len _ _ Hok)|].
  { intros c Hc. split; [apply Hfresh; by rewrite elem_of_reverse|]. by apply (no_children _ _ _ Hno). }
  exists qh1, que1, nd, h', qh', que'. split; [done|]. split; [done|]. split; [done|]. split; [done|].
  assert (Ee : forall n, (n ∈ child_list nd \/ n ∈ taken ++ p :: todo) <-> n ∈ (p :: taken) ++ reverse (child_list nd) ++ todo).
  { intros n. rewrite !elem_of_app, !elem_of_cons, elem_of_reverse. naive_solver. }
  split; [exact (links_ext _ _ _ Ee Hl')|exact (HPext _ _ _ Ee HP')|done|done| |done]. intros _. destruct taken as [|t taken].
  - specialize (Ht0 eq_refl). injection Ht0 as -> _. by left.
  - right. by apply Ht1.
Qed.

Lemma round_end h qh que taken : round h qh que taken [] ->
  links_ok h strs (fun _ => True) /\ P h (fun n => (n < length strs)%nat).
Proof.
  intros [[Hok Hsh Hout Hd Ht] HPh Ho _ _ _]. pose proof (order_all h strs taken Hok Ho) as Hall.
  assert (Hin : forall n, n ∈ taken ++ [] <-> (n < length strs)%nat).
  { intros n. split; [apply (oo_bound _ _ _ Ho)|]. rewrite app_nil_r. intros [s Hs]%lookup_lt_is_Some. by eapply Hall. }
  split; [|exact (HPext _ _ _ Hin HPh)]. split; try done.
  - intros n s nd Hs Hn _. eapply Hd; [done..|]. apply Hin. by eapply lookup_lt_Some.
  - intros n s nd Hs Hn [Hx|Hx]; [done|]. eapply Ht; [done..|by right].
Qed.

Lemma loop_end fuel h qh que taken : round h qh que taken [] ->
  exists h' qh', connect_loop fuel h qh que = Ret (h', qh') /\ links_ok h' strs (fun _ => True) /\
    P h' (fun n => (n < length strs)%nat) /\ relinked h h' /\ live qh' = [].
Proof.
  intros Hr. destruct (round_end _ _ _ _ Hr) as [Hl HPh]. pose proof (rd_queue _ _ _ _ _ Hr) as Hq.
  destruct (aho_destroy_spec (length qh) qh que [] Hq) as (qh' & E & Hq'); [cbn; lia|]. exists h, qh'.
  split; [|split; [done|split; [done|split; [split; [done|eauto]|done]]]].
  destruct fuel; cbn [connect_loop]; rewrite (take_empty _ _ Hq); bind; by rewrite E.
Qed.

Lemma loop_ok fuel h qh que taken todo : round h qh que taken todo -> Z.of_nat (length strs) < 2 ^ 32 ->
  (length strs <= length taken + fuel)%nat ->
  exists h' qh', connect_loop fuel h qh que = Ret (h', qh') /\ links_ok h' strs (fun _ => True) /\
    P h' (fun n => (n < length strs)%nat) /\ relinked h h' /\ live qh' = [].
Proof.
  revert h qh que taken todo. induction fuel as [|fuel IH]; intros h qh que taken [|p todo] Hr Hb Hf; try by eapply loop_end.
  - exfalso. pose proof (count_le _ (oo_nodup _ _ _ (rd_order _ _ _ _ _ Hr)) (oo_bound _ _ _ (rd_order _ _ _ _ _ Hr))) as Hlen.
    rewrite length_app in Hlen. cbn [length] in Hlen. lia.
  - cbn [connect_loop]. destruct (round_step _ _ _ _ _ _ Hr Hb) as (qh1 & que1 & nd & h1 & qh2 & que2 & -> & Hnd & E & Hrel & Hr').
    bind. rewrite (load_ok _ _ _ Hnd). bind. rewrite E. bind.
    destruct (IH _ _ _ _ _ Hr' Hb) as (h' & qh' & -> & Hl' & HP' & Hrel' & Hq'); [cbn [length]; lia|].
    exists h', qh'. split; [done|]. split; [done|]. split; [done|]. split; [by eapply relinked_trans|done].
Qed.

Lemma links_init h : trie_ok h strs -> no_links h -> links_ok h strs (fun n => n ∈ [0%nat]).
Proof.
  intros Hok Hn. split; [done| | | |].
  - intros n s nd f _ Hnd Hf. destruct (Hn _ _ Hnd) as [E _]. congruence.
  - intros n nd m Hnd Ho. destruct (Hn _ _ Hnd) as [_ E]. congruence.
  - intros n s nd Hs _ ->%list_elem_of_singleton Hne. rewrite (to_root _ _ Hok) in Hs. congruence.
  - intros n s nd _ Hnd _. by apply (Hn _ _ Hnd).
Qed.

Lemma connect_ok h : trie_ok h strs -> no_links h -> P h (fun n => n ∈ [0%nat]) -> Z.of_nat (length strs) < 2 ^ 32 ->
  exists h' qh', aho_connect_link h = Ret (h', qh') /\ links_ok h' strs (fun _ => True) /\
    P h' (fun n => (n < length strs)%nat) /\ relinked h h' /\ live qh' = [].
Proof.
  intros Hok Hn HPh Hb. unfold aho_connect_link.
  destruct (enqueue_stacked [] aho_queue_init [] root init_stacked) as (qh & que & -> & Hq); [done|]. bind.
  apply (loop_ok _ _ _ _ [] [0%nat]); [|done|cbn [length]; by rewrite (to_len _ _ Hok)]. split; try done.
  - by apply links_init.
  - apply order_init; apply Hok.
Qed.
End Loops.
