(* ===== verification/AhoRight.v ===== *)
(** The links of the Aho-Corasick automaton, when they are what the code computes, and
    the search along them: after each byte the search is at the longest suffix of the
    text read that starts a dictionary word, and reports the longest word that ends
    there. *)
From S2P Require Import Prelude Suffix Heap AhoQueue AhoTrie AhoBuild AhoLinks.

(** ** The links by their specification *)

(** The words: the strings of the marked nodes. *)
Definition word (h : trie) (strs : list (list Z)) (s : list Z) : Prop := s <> [] /\ exists tp, final h strs s tp.

Definition fail_right (strs : list (list Z)) (s : list Z) (f : pointer) : Prop :=
  exists m u, f = Some m /\ strs !! m = Some u /\ longest (fun v => v ∈ strs) s u.

Definition out_right (h : trie) (strs : list (list Z)) (s : list Z) (o : pointer) : Prop :=
  match o with
  | Some m => exists u, strs !! m = Some u /\ longest (word h strs) s u
  | None => forall v, word h strs v -> ~ proper_suffix v s
  end.

Definition node_right (h : trie) (strs : list (list Z)) (s : list Z) (nd : aho_trie_node) : Prop :=
  fail_right strs s (failure_link nd) /\ out_right h strs s (output_link nd).

Definition right (h : trie) (strs : list (list Z)) (R : nat -> Prop) : Prop :=
  forall n s nd, R n -> strs !! n = Some s -> s <> [] -> at_addr h n nd -> node_right h strs s nd.

Lemma prefix_in h strs s c : trie_ok h strs -> s ++ [c] ∈ strs -> s ∈ strs.
Proof.
  intros Hok [n Hn]%list_elem_of_lookup. destruct (to_node _ _ Hok _ _ Hn) as (nd & _ & Hnd).
  destruct (no_parent _ _ _ Hnd) as [[E _]|(s0 & m & E & _ & Hm)]; [by apply app_nil in E as [_ ?]|].
  apply app_inj_tail in E as [-> _]. by eapply list_elem_of_lookup_2.
Qed.

Lemma word_in h strs s : trie_ok h strs -> word h strs s -> s ∈ strs.
Proof. intros _ (_ & tp & n & nd & Hn & _). by eapply list_elem_of_lookup_2. Qed.

(** ** When the walk is right *)

(** The dictionary is shallow: a proper suffix of a prefix of a word that is itself a
    prefix of a word has at most one byte. *)
Definition shallow (strs : list (list Z)) : Prop :=
  forall s u, s ∈ strs -> u ∈ strs -> proper_suffix u s -> (length u <= 1)%nat.

(** No longer candidate than the strings on the walk: [v] could precede [c]. *)
Definition candidates (strs : list (list Z)) (s u : list Z) (c : Z) : Prop :=
  u `suffix_of` s /\ forall v, v ++ [c] ∈ strs -> proper_suffix v s -> (length v < length u)%nat.

Lemma longest_step h strs s u uf c : trie_ok h strs -> candidates strs s u c -> longest (fun v => v ∈ strs) u uf ->
  (uf ++ [c] ∈ strs -> longest (fun v => v ∈ strs) (s ++ [c]) (uf ++ [c])) /\ (uf ++ [c] ∉ strs -> candidates strs s uf c).
Proof.
  intros Hok [Hus Hc] (Hin & Hp & Hmax). assert (Hps : proper_suffix uf s) by by eapply proper_trans.
  assert (Hle : forall v, v ++ [c] ∈ strs -> proper_suffix v s -> (length v <= length uf)%nat).
  { intros v Hv Hvs. apply Hmax; [by eapply prefix_in|]. eapply suffix_shorter; [apply Hvs|done|by apply Hc]. }
  split.
  - intros Hch. split; [done|]. split; [by apply suffix_snoc_2|]. intros w Hw [->|(v & -> & Hv)]%suffix_snoc; [cbn; lia|].
    rewrite !length_app. specialize (Hle v Hw Hv). lia.
  - intros Hch. split; [apply Hps|]. intros v Hv Hvs. specialize (Hle v Hv Hvs).
    destruct (decide (length v = length uf)) as [E|]; [|lia].
    exfalso. apply Hch. by rewrite <-(suffix_same v uf s (proj1 Hvs) (proj1 Hps) E).
Qed.

(** The output link of a node whose failure link leads to [w]. *)
Lemma out_step h strs s w m nm : trie_ok h strs -> longest (fun v => v ∈ strs) s w -> strs !! m = Some w -> at_addr h m nm ->
  (w <> [] -> out_right h strs w (output_link nm)) -> (w = [] -> text_end nm = false /\ output_link nm = None) ->
  out_right h strs s (out_of m nm).
Proof.
  intros Hok (Hin & Hp & Hmax) Hm Hnm Hout Hnil. unfold out_of. destruct (text_end nm) eqn:Et.
  - exists w. split; [done|]. split; [split; [intros E; by destruct (Hnil E) as [? _]|]|].
    + by exists (output_text nm), m, nm.
    + split; [done|]. intros v Hv. apply Hmax. by eapply word_in.
  - assert (Hlt : forall v, word h strs v -> proper_suffix v s -> proper_suffix v w).
    { intros v Hv Hvs. eapply suffix_shorter; [apply Hvs|apply Hp|].
      pose proof (Hmax v (word_in _ _ _ Hok Hv) Hvs). destruct (decide (length v = length w)) as [E|]; [exfalso|lia].
      pose proof (suffix_same v w s (proj1 Hvs) (proj1 Hp) E) as ->.
      destruct Hv as (_ & tp & n & nd & Hn & Hnd & He & _). assert (n = m) as -> by (by eapply trie_inj).
      rewrite (at_addr_fun _ _ _ _ Hnd Hnm) in He. congruence. }
    destruct (decide (w = [])) as [->|Hne].
    + destruct (Hnil eq_refl) as [_ ->]. intros v Hv Hvs%Hlt; [|done]. apply proper_length in Hvs. cbn in Hvs. lia.
    + specialize (Hout Hne). destruct (output_link nm) as [o|].
      * destruct Hout as (u & Ho & Hu & Hup & Humax). exists u. split; [done|]. split; [done|].
        split; [eapply proper_trans; [done|apply Hp]|]. intros v Hv Hvs. apply Humax; [done|]. by apply Hlt.
      * intros v Hv Hvs. apply (Hout v Hv). by apply Hlt.
Qed.

Lemma walk_right h strs (R : nat -> Prop) s c pf m o u : links_ok h strs R -> right h strs R -> shallow strs ->
  (s = [] \/ forall n a, strs !! n = Some [a] -> R n) -> s ++ [c] ∈ strs -> walk_to h strs c pf m o ->
  strs !! pf = Some u -> (u = [] \/ R pf) -> candidates strs s u c ->
  exists w, strs !! m = Some w /\ longest (fun v => v ∈ strs) (s ++ [c]) w /\ out_right h strs (s ++ [c]) (default None o).
Proof.
  intros Hl Hr Hsh HD Hsc Hw. pose proof (lo_trie _ _ _ Hl) as Hok.
  assert (Hinner : forall pf nd u, strs !! pf = Some u -> at_addr h pf nd -> (u = [] \/ R pf) ->
    is_null (failure_link nd) || is_null (parent nd) = false -> u <> [] /\ node_right h strs u nd).
  { intros k nd v Hk Hnd HRk Hn. destruct (trie_addr _ _ _ _ Hok Hnd) as (v' & Hv' & Hno). assert (v' = v) as -> by congruence.
    apply orb_false_iff in Hn as [_ Hn]. assert (Hv : v <> []).
    { destruct (no_parent _ _ _ Hno) as [[_ E]|(s0 & j & E & _)]; [by rewrite E in Hn|]. intros ->. by destruct s0. }
    split; [done|]. destruct HRk as [?|HRk]; [done|by eapply Hr]. }
  assert (Hone : forall n v x, strs !! n = Some v -> x ∈ strs -> proper_suffix v x -> s <> [] -> v = [] \/ R n).
  { intros n v x Hn Hx Hvx Hs. specialize (Hsh x v Hx ltac:(by eapply list_elem_of_lookup_2) Hvx).
    destruct v as [|a [|]]; [by left| |cbn in Hsh; lia]. right. destruct HD as [?|HD]; [done|by eapply HD]. }
  revert u. induction Hw as [pf nd Hnd Hn|pf nd f uf m nm Hnd Hn Hf Huf Hm Hnm|pf nd f uf m o Hnd Hn Hf Huf Hnin Hw IH]; intros u Hpf HR Hc.
  - assert (u = []) as ->.
    { destruct (decide (u = [])) as [|Hu]; [done|exfalso]. destruct HR as [|HR]; [done|].
      destruct (trie_addr _ _ _ _ Hok Hnd) as (v' & Hv' & Hno). assert (v' = u) as -> by congruence.
      pose proof (lo_done _ _ _ Hl _ _ _ Hpf Hnd HR Hu). destruct (no_parent _ _ _ Hno) as [[? _]|(s0 & j & _ & E & _)]; [done|].
      rewrite E in Hn. by destruct (failure_link nd). }
    assert (Hmax : forall v, v ∈ strs -> proper_suffix v (s ++ [c]) -> v = []).
    { intros v Hv [->|(v' & -> & Hv')]%suffix_snoc; [done|]. pose proof (proj2 Hc _ Hv Hv') as Hlt. cbn in Hlt. lia. }
    exists []. split; [done|]. split; [split; [by eapply list_elem_of_lookup_2|]; split; [apply proper_nil; by destruct s|]|].
    + intros v Hv Hvs. by rewrite (Hmax v Hv Hvs).
    + intros v Hv Hvs. apply (proj1 Hv), Hmax; [by eapply word_in|done].
  - destruct (Hinner _ _ _ Hpf Hnd HR Hn) as [Hu [(f' & uf' & Ef & Huf' & Hlong) _]].
    assert (f' = f) as -> by congruence. assert (uf' = uf) as -> by congruence.
    destruct (longest_step h strs s u uf c Hok Hc Hlong) as [H1 _].
    specialize (H1 ltac:(by eapply list_elem_of_lookup_2)). exists (uf ++ [c]). split; [done|]. split; [done|].
    cbn [default]. eapply out_step; [done..| |intros E; by apply app_nil in E as [_ ?]].
    intros _. assert (Hs : s <> []) by (intros ->; destruct Hc as [[k Hk] _]; symmetry in Hk; by apply app_nil in Hk as [_ ?]).
    destruct (Hone m (uf ++ [c]) (s ++ [c]) Hm Hsc (proj1 (proj2 H1)) Hs) as [E|HRm]; [by apply app_nil in E as [_ ?]|].
    apply (Hr m _ nm HRm Hm); [|done]. intros E. by apply app_nil in E as [_ ?].
  - destruct (Hinner _ _ _ Hpf Hnd HR Hn) as [Hu [(f' & uf' & Ef & Huf' & Hlong) _]].
    assert (f' = f) as -> by congruence. assert (uf' = uf) as -> by congruence.
    destruct (longest_step h strs s u uf c Hok Hc Hlong) as [_ H2]. apply (IH uf Huf); [|by apply H2].
    assert (Hs : s <> []) by (intros ->; destruct Hc as [[k Hk] _]; symmetry in Hk; by apply app_nil in Hk as [_ ?]).
    apply (Hone f uf u Huf ltac:(by eapply list_elem_of_lookup_2) (proj1 (proj2 Hlong)) Hs).
Qed.

Lemma out_relinked h h' strs s o : trie_ok h strs -> trie_ok h' strs -> relinked h h' ->
  out_right h strs s o -> out_right h' strs s o.
Proof.
  intros Hok Hok' Hr. assert (Hw : forall v, word h' strs v <-> word h strs v).
  { intros v. unfold word. by setoid_rewrite (relinked_final h h' strs v _ Hok Hok' Hr). }
  destruct o as [m|]; cbn; unfold longest; setoid_rewrite Hw; done.
Qed.

(** On a shallow dictionary every link the code sets is right. *)
Lemma right_set strs : shallow strs -> forall h (R : nat -> Prop) p sp q c nq m o, links_ok h strs R -> right h strs R ->
  strs !! p = Some sp -> R p -> strs !! q = Some (sp ++ [c]) -> at_addr h q nq -> ~ R q -> walk_to h strs c p m o ->
  (sp = [] \/ forall n a, strs !! n = Some [a] -> R n) ->
  right (<[q := Some (set_links m o nq)]> h) strs (fun n => n = q \/ R n).
Proof.
  intros Hsh h R p sp q c nq m o Hl Hr Hp HRp Hq Hnq HRq Hw HD. pose proof (lo_trie _ _ _ Hl) as Hok.
  destruct (walk_right h strs R sp c p m o sp Hl Hr Hsh HD ltac:(by eapply list_elem_of_lookup_2) Hw Hp (or_intror HRp))
    as (w & Hm & Hlong & Hout).
  { split; [done|]. intros v _. apply proper_length. }
  assert (Hok' := trie_modify h strs q nq _ Hok Hnq (same_links m o)). pose proof (relinked_modify h q nq m o Hnq) as Hrel.
  intros n s nd HR Hs Hne Hn. destruct (decide (q = n)) as [<-|Hqn].
  - apply at_insert_eq_inv in Hn as ->. assert (s = sp ++ [c]) as -> by congruence. split.
    + rewrite failure_links. by exists m, w.
    + rewrite output_links. destruct (lo_todo _ _ _ Hl _ _ _ Hq Hnq (or_introl HRq)) as [_ ->].
      apply (out_relinked h); [done..|]. by destruct o.
  - apply at_insert_ne in Hn; [|done]. destruct HR as [->|HR]; [done|]. destruct (Hr n s nd HR Hs Hne Hn) as [H1 H2].
    split; [done|]. by apply (out_relinked h).
Qed.

Lemma right_ext strs h (R R' : nat -> Prop) : (forall n, R n <-> R' n) -> right h strs R -> right h strs R'.
Proof. intros HR Hr n s nd HRn. apply Hr. by apply HR. Qed.

(** ** The search *)

(** The report at a node: the text of the longest word that is a suffix of its string. *)
Definition report_right (h : trie) (strs : list (list Z)) (d : list Z) (r : pointer) : Prop :=
  (exists u tp, longest_suffix (word h strs) d u /\ final h strs u tp /\ r = tp) \/
  ((forall v, word h strs v -> ~ v `suffix_of` d) /\ r = None).

Definition all_right (h : trie) (strs : list (list Z)) : Prop := right h strs (fun n => (n < length strs)%nat).

(** *** The way of a search step *)

Definition report_of (h : trie) (nm : aho_trie_node) (r : pointer) : Prop :=
  if text_end nm then r = output_text nm
  else match output_link nm with Some o => exists x, at_addr h o x /\ text_end x = true /\ r = output_text x | None => r = None end.

Inductive find_to (h : trie) (strs : list (list Z)) (c : Z) : nat -> nat -> pointer -> Prop :=
| ft_child n s m nm r : strs !! n = Some s -> strs !! m = Some (s ++ [c]) -> at_addr h m nm -> report_of h nm r ->
    find_to h strs c n m r
| ft_root n : strs !! n = Some [] -> [c] ∉ strs -> find_to h strs c n n None
| ft_fail n s nd f m r : strs !! n = Some s -> s <> [] -> s ++ [c] ∉ strs -> at_addr h n nd -> failure_link nd = Some f ->
    find_to h strs c f m r -> find_to h strs c n m r.

(** Along any links the code sets the step ends and stays inside the trie. *)
Lemma find_ok h strs c fuel n s : links_ok h strs (fun _ => True) -> strs !! n = Some s -> (length s <= fuel)%nat ->
  exists m w r, aho_find_trie_node fuel h (Some n) c = Ret (Some m, r) /\ strs !! m = Some w /\ find_to h strs c n m r.
Proof.
  intros [Hok Hsh Hout Hd _]. revert n s. induction fuel as [|fuel IH]; intros n s Hs Hf;
    cbn [aho_find_trie_node aho_find_trie_node1]; destruct (to_node _ _ Hok _ _ Hs) as (nd & Hn & Hnd);
    rewrite (load_ok _ _ _ Hn); bind; destruct (find_child_ok h strs s nd c Hok Hnd) as [F1 F2];
    (destruct (decide (s ++ [c] ∈ strs)) as [Hin|Hnin];
    [apply list_elem_of_lookup in Hin as [m Hm]; rewrite (F1 _ Hm); bind;
     destruct (to_node _ _ Hok _ _ Hm) as (nm & Hnm & _); rewrite (load_ok _ _ _ Hnm); bind; exists m, (s ++ [c])
    |rewrite F2 by (intros m Hm; apply Hnin; by eapply list_elem_of_lookup_2); bind; rewrite (load_ok _ _ _ Hn); bind;
     destruct (no_parent _ _ _ Hnd) as [[-> ->]|(s0 & j & E & -> & _)]; [exists n, [], None; split_and!; try done; by apply ft_root|]]).
  1,3: destruct (text_end nm) eqn:Et;
    [exists (output_text nm); split_and!; try done; eapply ft_child; [done..|]; unfold report_of; by rewrite Et|];
    destruct (output_link nm) as [o|] eqn:Eo;
    [destruct (Hout _ _ _ Hnm Eo) as (x & Hx & Ex); rewrite (load_ok _ _ _ Hx); bind; exists (output_text x)
    |exists None]; (split_and!; [done|done|]; eapply ft_child; [done..|]; unfold report_of; rewrite Et, Eo; eauto).
  - exfalso. apply (f_equal length) in E. rewrite length_app in E. cbn [length] in E. lia.
  - cbn [is_null]. assert (Hne : s <> []) by (intros ->; by destruct s0).
    destruct (failure_link nd) as [f|] eqn:Ef; [|by destruct (Hd _ _ _ Hs Hn I Hne)].
    destruct (Hsh _ _ _ _ Hs Hn Ef) as (u & Hu & Hlt). destruct (IH f u Hu ltac:(lia)) as (m & w & r & -> & Hm & Hft).
    exists m, w, r. split_and!; try done. by eapply ft_fail.
Qed.

(** *** A right step *)

(** From the longest suffix of [d] that is in the trie to the one of [d ++ [c]]. *)
Lemma find_right h strs c d n m r s : links_ok h strs (fun _ => True) -> all_right h strs -> find_to h strs c n m r ->
  strs !! n = Some s -> s `suffix_of` d ->
  (forall v, v ++ [c] ∈ strs -> v `suffix_of` d -> (length v <= length s)%nat) ->
  exists w, strs !! m = Some w /\ longest_suffix (fun v => v ∈ strs) (d ++ [c]) w /\ report_right h strs (d ++ [c]) r.
Proof.
  intros Hl Hr Hf. pose proof (lo_trie _ _ _ Hl) as Hok. revert s.
  induction Hf as [n s0 m nm r Hs0 Hm Hnm Hrep|n Hn0 Hnin|n s0 nd f m r Hs0 Hne Hnin Hnd Ef Hf IH]; intros s Hs Hsd Hmax.
  - assert (s0 = s) as -> by congruence. exists (s ++ [c]). split; [done|].
    assert (Hlong : longest_suffix (fun v => v ∈ strs) (d ++ [c]) (s ++ [c])).
    { split; [by eapply list_elem_of_lookup_2|]. split; [by apply suffix_app|]. intros v Hv Hvd.
      destruct v as [|a v _] using rev_ind; [cbn; lia|]. destruct Hvd as [k E]. rewrite app_assoc in E.
      apply app_inj_tail in E as [-> ->]. rewrite !length_app. specialize (Hmax v Hv ltac:(by exists k)). lia. }
    split; [done|]. assert (Hcne : s ++ [c] <> []) by (intros E; by apply app_nil in E as [_ ?]).
    unfold report_of in Hrep. destruct (text_end nm) eqn:Et.
    + left. exists (s ++ [c]), (output_text nm). split_and!; [|by exists m, nm|done].
      split; [split; [done|]; by exists (output_text nm), m, nm|]. split; [apply Hlong|].
      intros v Hv. apply Hlong. by eapply word_in.
    + destruct (Hr m _ nm ltac:(by eapply lookup_lt_Some) Hm Hcne Hnm) as [_ Hout].
      assert (Hproper : forall v, word h strs v -> v `suffix_of` d ++ [c] -> proper_suffix v (s ++ [c])).
      { intros v Hv Hvd. destruct Hlong as (_ & Hsuf & Hlm). pose proof (Hlm v (word_in _ _ _ Hok Hv) Hvd) as Hle.
        destruct (decide (length v = length (s ++ [c]))) as [E|Hlt]; [exfalso|by apply (suffix_shorter _ _ (d ++ [c])); [| |lia]].
        pose proof (suffix_same v _ _ Hvd Hsuf E) as ->. destruct Hv as (_ & tp & k & nd & Hk & Hnd & He & _).
        assert (k = m) as -> by (by eapply trie_inj). rewrite (at_addr_fun _ _ _ _ Hnd Hnm) in He. congruence. }
      destruct (output_link nm) as [o|].
      * destruct Hrep as (x & Hx & Ex & ->), Hout as (u & Ho & Hu & Hup & Humax). left. exists u, (output_text x).
        split_and!; [|by exists o, x|done]. split; [done|]. split; [etransitivity; [apply Hup|apply Hlong]|].
        intros v Hv Hvd. apply Humax; [done|]. by apply Hproper.
      * right. split; [|done]. intros v Hv Hvd. by apply (Hout v Hv), Hproper.
  - assert (s = []) as -> by congruence. exists []. split; [done|].
    assert (Hno : forall v, v ∈ strs -> v `suffix_of` d ++ [c] -> v = []).
    { intros v Hv [k E]. destruct v as [|a v _] using rev_ind; [done|exfalso]. rewrite app_assoc in E.
      apply app_inj_tail in E as [-> <-]. specialize (Hmax v Hv ltac:(by exists k)). destruct v; [done|cbn in Hmax; lia]. }
    split; [split; [by eapply list_elem_of_lookup_2|]; split; [apply suffix_nil|]|].
    + intros v Hv Hvd. by rewrite (Hno v Hv Hvd).
    + right. split; [|done]. intros v Hv Hvd. apply (proj1 Hv), Hno; [by eapply word_in|done].
  - assert (s0 = s) as -> by congruence.
    destruct (Hr n s nd ltac:(by eapply lookup_lt_Some) Hs Hne Hnd) as [(f' & u & Ef' & Hu & Hin & Hp & Hfmax) _].
    assert (f' = f) as -> by congruence. apply (IH u Hu); [etransitivity; [apply Hp|done]|].
    intros v Hv Hvd. specialize (Hmax v Hv Hvd). apply Hfmax; [by eapply prefix_in|].
    apply (suffix_shorter v s d Hvd Hsd). destruct (decide (length v = length s)) as [E|]; [exfalso|lia].
    apply Hnin. by rewrite <-(suffix_same v s d Hvd Hsd E).
Qed.
