(* ===== verification/Aho.v ===== *)
(** Component: the interface of src/c-study/str_match/AC-alg/AhoCorasick/src/ahocorasick.c:
    the doubly linked list of texts, building the trie from it, and the search with its
    match callback. *)
From S2P Require Import Prelude Heap AhoQueue AhoTrie.

(** ** Data *)

(** A text with its buffer, which is allocated and freed together with it. *)
Record aho_text_t := Text { id : Z; buf : list Z; len : Z; prev : pointer; next : pointer }.

Definition set_next (p : pointer) (t : aho_text_t) : aho_text_t := Text (id t) (buf t) (len t) (prev t) p.
Definition set_prev (p : pointer) (t : aho_text_t) : aho_text_t := Text (id t) (buf t) (len t) p (next t).

(** [struct ahocorasick]; the callback gets the matches, which the search returns. *)
Record ahocorasick := Aho {
  accumulate_text_id : Z; text_list_head : pointer; text_list_tail : pointer; text_list_len : Z; aho_trie : trie
}.

Record aho_match_t := Match { m_id : Z; m_pos : Z; m_len : Z }.

Definition AHO_MAX_TEXT_ID : Z := 2147483647.

(** An unsigned value converted to [int]. *)
Definition s32 (z : Z) : Z := if u32 z <? 2 ^ 31 then u32 z else u32 z - 2 ^ 32.

Definition aho_init : ahocorasick := Aho 0 None None 0 [Some (Node 0 0 None [] false None None None)].

Definition set_list (hd tl : pointer) (n : Z) (aho : ahocorasick) : ahocorasick :=
  Aho (accumulate_text_id aho) hd tl n (aho_trie aho).

(** ** The list of texts *)

(** [aho_add_match_text(aho, text, len)]: the identifier, or -1.  [text] is the array
    the caller passes. *)
Definition aho_add_match_text (th : heap aho_text_t) (aho : ahocorasick) (text : list Z) (len : Z) :
    res (heap aho_text_t * ahocorasick * Z) :=
  if accumulate_text_id aho =? AHO_MAX_TEXT_ID then Ret (th, aho, -1)
  else
    let size := Z.to_nat (u32 (len + 1)) in
    if (length text <? size)%nat then UB
    else
      let i := accumulate_text_id aho in
      let aho := Aho (i + 1) (text_list_head aho) (text_list_tail aho) (text_list_len aho) (aho_trie aho) in
      let '(th, a_text) := new th (Text i (take size text) (s32 len) None None) in
      match text_list_head aho with
      | None => Ret (th, set_list a_text a_text (text_list_len aho + 1) aho, i)
      | Some _ =>
        th ← modify th (text_list_tail aho) (set_next a_text);
        th ← modify th a_text (set_prev (text_list_tail aho));
        Ret (th, set_list (text_list_head aho) a_text (text_list_len aho + 1) aho, i)
      end.

(** Unlinking and freeing the text [iter] points to. *)
Definition remove_text (th : heap aho_text_t) (aho : ahocorasick) (iter : pointer) : res (heap aho_text_t * ahocorasick) :=
  t ← load th iter;
  '(th, aho) ← (
    if bool_decide (iter = text_list_head aho) then
      Ret (th, set_list (next t) (text_list_tail aho) (text_list_len aho) aho)
    else if bool_decide (iter = text_list_tail aho) then
      Ret (th, set_list (text_list_head aho) (prev t) (text_list_len aho) aho)
    else
      th ← modify th (prev t) (set_next (next t));
      th ← modify th (next t) (set_prev (prev t));
      Ret (th, aho));
  th ← dispose th iter;
  Ret (th, set_list (text_list_head aho) (text_list_tail aho) (text_list_len aho - 1) aho).

(** The loop of [aho_del_match_text]. *)
Fixpoint del_loop (fuel : nat) (th : heap aho_text_t) (aho : ahocorasick) (iter : pointer) (i : Z) :
    res (heap aho_text_t * ahocorasick * bool) :=
  match iter with
  | None => Ret (th, aho, false)
  | Some _ =>
    t ← load th iter;
    if id t =? i then '(th, aho) ← remove_text th aho iter; Ret (th, aho, true)
    else match fuel with O => Fuel | S n => del_loop n th aho (next t) i end
  end.

(** The list has no more nodes than the heap. *)
Definition aho_del_match_text (th : heap aho_text_t) (aho : ahocorasick) (i : Z) : res (heap aho_text_t * ahocorasick * bool) :=
  del_loop (length th) th aho (text_list_head aho) i.

Fixpoint clear_loop (n : nat) (i : Z) (th : heap aho_text_t) (aho : ahocorasick) : res (heap aho_text_t * ahocorasick) :=
  match n with
  | O => Ret (th, aho)
  | S n => '(th, aho, _) ← aho_del_match_text th aho i; clear_loop n (i + 1) th aho
  end.

Definition aho_clear_match_text (th : heap aho_text_t) (aho : ahocorasick) : res (heap aho_text_t * ahocorasick) :=
  '(th, aho) ← clear_loop (Z.to_nat (accumulate_text_id aho)) 0 th aho;
  Ret (th, Aho 0 (text_list_head aho) (text_list_tail aho) (text_list_len aho) (aho_trie aho)).

(** ** The trie *)

(** The loop of [aho_create_trie] over the texts; it ignores what
    [aho_add_trie_node] returns. *)
Fixpoint create_loop (fuel : nat) (th : heap aho_text_t) (h : trie) (iter : pointer) : res trie :=
  match iter with
  | None => Ret h
  | Some _ =>
    t ← load th iter;
    '(h, _) ← aho_add_trie_node h iter (buf t) (len t);
    match fuel with O => Fuel | S n => create_loop n th h (next t) end
  end.

Definition aho_create_trie (th : heap aho_text_t) (aho : ahocorasick) : res (ahocorasick * heap aho_queue_node) :=
  h ← create_loop (length th) th aho_init_trie (text_list_head aho);
  '(h, qh) ← aho_connect_link h;
  Ret (Aho (accumulate_text_id aho) (text_list_head aho) (text_list_tail aho) (text_list_len aho) h, qh).

Definition aho_clear_trie (aho : ahocorasick) : res (ahocorasick * heap aho_queue_node) :=
  '(h, qh) ← aho_destroy_trie (aho_trie aho);
  Ret (Aho (accumulate_text_id aho) (text_list_head aho) (text_list_tail aho) (text_list_len aho) h, qh).

Definition aho_destroy (th : heap aho_text_t) (aho : ahocorasick) :
    res (heap aho_text_t * ahocorasick * heap aho_queue_node) :=
  '(th, aho) ← aho_clear_match_text th aho;
  '(aho, qh) ← aho_clear_trie aho;
  Ret (th, aho, qh).

(** ** The search *)

(** The match of text [t] that ends at index [i]. *)
Definition match_at (i : Z) (t : aho_text_t) : aho_match_t :=
  Match (id t) (if len t =? 1 then u64 i else u64 (i - len t + 1)) (len t).

(** The loop over the bytes: the matches handed to the callback, in order; the
    index is an [int]. *)
Fixpoint find_loop (th : heap aho_text_t) (h : trie) (data : list Z) (i : Z) (travasal_node : pointer) : res (list aho_match_t) :=
  match data with
  | [] => Ret []
  | c :: data =>
    '(travasal_node, result) ← aho_find_trie_node (length h) h travasal_node (u8 c);
    if i =? AHO_MAX_TEXT_ID then UB
    else match result with
    | None => find_loop th h data (i + 1) travasal_node
    | Some _ =>
      t ← load th result;
      ms ← find_loop th h data (i + 1) travasal_node;
      Ret (match_at i t :: ms)
    end
  end.

(** [aho_findtext]: the matches, and their number, which it returns. *)
Definition aho_findtext (th : heap aho_text_t) (aho : ahocorasick) (data : list Z) : res (list aho_match_t * Z) :=
  ms ← find_loop th (aho_trie aho) data 0 root;
  Ret (ms, u32 (Z.of_nat (length ms))).

(** ** Whole runs *)

(** The texts added to an empty list one after the other. *)
Fixpoint add_all (th : heap aho_text_t) (aho : ahocorasick) (ws : list (list Z)) : res (heap aho_text_t * ahocorasick) :=
  match ws with
  | [] => Ret (th, aho)
  | w :: ws => '(th, aho, _) ← aho_add_match_text th aho (w ++ [0]) (Z.of_nat (length w)); add_all th aho ws
  end.

(** A dictionary of C strings, its trie, and the matches in [data]. *)
Definition aho_search (ws : list (list Z)) (data : list Z) : res (list aho_match_t) :=
  '(th, aho) ← add_all [] aho_init ws;
  '(aho, _) ← aho_create_trie th aho;
  '(ms, _) ← aho_findtext th aho data;
  Ret ms.
