(* ===== verification/AhoSearch.v ===== *)
(** What a search with a dictionary returns: for every dictionary it is safe and ends;
    for a shallow one it is the reference search, which reports at each position the
    longest word that ends there; for others it can report words that do not occur. *)
From S2P Require Import Prelude Suffix Heap AhoQueue AhoTrie AhoBuild AhoLinks AhoRight Aho.

(** ** The trie of a list of texts *)

(** The string a text spells. *)
Definition spell (t : aho_text_t) : list Z := bytes_of (take (Z.to_nat (len t)) (buf t)).

(** The texts [l], with their addresses, linked from [p] by their [next] fields. *)
Fixpoint linked (p : pointer) (l : list (nat * aho_text_t)) : Prop :=
  match l with
  | [] => p = None
  | (a, t) :: l => p = Some a /\ linked (next t) l
  end.

Definition stored (th : heap aho_text_t) (l : list (nat * aho_text_t)) : Prop := forall a t, (a, t) ∈ l -> at_addr th a t.
Definition text_ok (t : aho_text_t) : Prop := 0 <= len t <= Z.of_nat (length (buf t)).

(** The last text of [l] that spells [s]. *)
Definition last_text (l : list (nat * aho_text_t)) (s : list Z) : option nat :=
  foldl (fun r '(a, t) => if decide (spell t = s) then Some a else r) None l.

Lemma last_text_snoc l a t s : last_text (l ++ [(a, t)]) s = if decide (spell t = s) then Some a else last_text l s.
Proof. unfold last_text. by rewrite foldl_app. Qed.

Definition total (l : list (nat * aho_text_t)) : nat := sum_list ((fun x => length (spell x.2)) <$> l).

(** The trie after the texts [l]; exact when no byte is used up. *)
Record built (h : trie) (strs : list (list Z)) (l : list (nat * aho_text_t)) : Prop := Built {
  bu_trie : trie_ok h strs;
  bu_links : no_links h;
  bu_strs : forall s, s ∈ strs -> s = [] \/ exists a t, (a, t) ∈ l /\ along [] (spell t) s;
  bu_final : forall s tp, final h strs s tp -> exists a t, tp = Some a /\ (a, t) ∈ l /\ spell t = s;
  bu_count : (length strs <= S (total l))%nat
}.

Record exact (h : trie) (strs : list (list Z)) (l : list (nat * aho_text_t)) : Prop := Exact {
  ex_strs : forall a t s, (a, t) ∈ l -> along [] (spell t) s -> s ∈ strs;
  ex_final : forall s tp, final h strs s tp <-> exists a, tp = Some a /\ last_text l s = Some a
}.

Lemma built_init : built aho_init_trie [[]] [] /\ exact aho_init_trie [[]] [].
Proof.
  assert (Hf : forall s tp, ~ final aho_init_trie [[]] s tp).
  { intros s tp ([|n] & nd & Hs & Hn & He & _); [|done]. unfold at_addr in Hn. injection Hn as <-. done. }
  split; split.
  - apply init_ok.
  - intros [|n] nd Hn; [|done]. unfold at_addr in Hn. by injection Hn as <-.
  - intros s ->%list_elem_of_singleton. by left.
  - intros s tp H. by apply Hf in H.
  - done.
  - by intros a t s ?%not_elem_of_nil.
  - intros s tp. split; [intros H; by apply Hf in H|]. by intros (a & _ & ?).
Qed.

Lemma along_count w added strs : NoDup (strs ++ added) -> (forall s, s ∈ added -> along [] w s) -> (length added <= length w)%nat.
Proof.
  intros Hn Ha. apply NoDup_app in Hn as (_ & _ & Hn).
  assert (Hsub : added ⊆+ (fun k => take k w) <$> seq 1 (length w)).
  { apply NoDup_submseteq; [done|]. intros s (k & Hk & ->)%Ha. apply list_elem_of_fmap. exists k. split; [done|].
    apply elem_of_seq. lia. }
  apply submseteq_length in Hsub. by rewrite length_fmap, length_seq in Hsub.
Qed.

Lemma built_add h strs l a t : built h strs l -> text_ok t ->
  exists h' strs' b, aho_add_trie_node h (Some a) (buf t) (len t) = Ret (h', b) /\ built h' strs' (l ++ [(a, t)]) /\
    (exact h strs l -> ~ full h' -> exact h' strs' (l ++ [(a, t)])) /\ (forall s, s ∈ strs -> s ∈ strs').
Proof.
  intros [Hok Hnl Hs Hf Hc] Ht. destruct (add_ok h strs (Some a) (buf t) (len t) Hok Ht Hnl)
    as (h' & added & b & E & Hok' & Hnl' & _ & Hal & Hr). fold (spell t) in Hal, Hr.
  assert (Hfin : forall s tp, final h' (strs ++ added) s tp -> (tp = Some a /\ spell t = s) \/ final h strs s tp).
  { intros s tp H. destruct b; [apply (proj2 Hr) in H as [[-> ->]|[_ H]]; [by left|by right]|apply (proj2 Hr) in H; by right]. }
  exists h', (strs ++ added), b. split; [done|]. split; [split|split].
  - done.
  - done.
  - intros s [Hin|Hin]%elem_of_app.
    + destruct (Hs s Hin) as [->|(a' & t' & Hin' & Hal')]; [by left|right]. exists a', t'. split; [|done]. set_solver.
    + right. exists a, t. split; [set_solver|by apply Hal].
  - intros s tp [[-> E']|H]%Hfin; [exists a, t; split_and!; [done|set_solver|done]|].
    destruct (Hf s tp H) as (a' & t' & -> & Hin & E'). exists a', t'. split_and!; [done|set_solver|done].
  - pose proof (along_count _ _ _ (to_nodup _ _ Hok') Hal). unfold total in *. rewrite fmap_app, sum_list_with_app, length_app. cbn. lia.
  - intros [Hes Hef] Hnf. destruct b; [|by destruct Hr]. destruct Hr as [Hr1 Hr2]. split.
    + intros a' t' s [Hin|[= -> ->]%list_elem_of_singleton]%elem_of_app Has; [|by apply Hr1]. rewrite elem_of_app. left. by eapply Hes.
    + intros s tp. rewrite Hr2, last_text_snoc. destruct (decide (spell t = s)) as [Es|Es].
      * split; [intros [[_ ->]|[Hne _]]; [by exists a|by destruct Hne]|]. intros (a' & -> & [= ->]). left. by rewrite Es.
      * rewrite Hef. split; [intros [[-> _]|[_ H]]; done|]. intros H. right. split; [congruence|done].
  - intros s Hin. set_solver.
Qed.

(** A byte that no text has keeps every node from filling up. *)
Definition spare_byte (b : Z) (l : list (nat * aho_text_t)) : Prop := 0 <= b < 256 /\ forall a t, (a, t) ∈ l -> b ∉ spell t.

Lemma bytes_of_range txt x : x ∈ bytes_of txt -> 0 <= x < 256.
Proof. unfold bytes_of. change (map u8 txt) with (u8 <$> txt). intros (y & -> & _)%list_elem_of_fmap. apply Z.mod_pos_bound. lia. Qed.

Lemma built_not_full h strs l b : built h strs l -> spare_byte b l -> ~ full h.
Proof.
  intros Hb [Hr Hl]. apply (spare_not_full h strs b (bu_trie _ _ _ Hb) Hr). intros s Hs x Hx.
  destruct (bu_strs _ _ _ Hb s Hs) as [->|(a & t & Hin & k & _ & ->)]; [by apply not_elem_of_nil in Hx|]. cbn [app] in Hx.
  apply elem_of_take in Hx as (j & Hj & _). apply list_elem_of_lookup_2 in Hj as Hx.
  split; [by eapply bytes_of_range|]. intros ->. by apply (Hl a t Hin).
Qed.

Lemma create_ok th l : forall l0 p h strs fuel, stored th l -> linked p l -> Forall (fun x => text_ok x.2) l ->
  built h strs l0 -> (length l <= fuel)%nat ->
  exists h' strs', create_loop fuel th h p = Ret h' /\ built h' strs' (l0 ++ l) /\
    (exact h strs l0 -> (exists b, spare_byte b (l0 ++ l)) -> exact h' strs' (l0 ++ l)).
Proof.
  induction l as [|[a t] l IH]; intros l0 p h strs fuel Hst Hp Hok Hb Hf.
  - cbn in Hp. subst p. exists h, strs. rewrite app_nil_r. split; [by destruct fuel|done].
  - cbn [linked] in Hp. destruct Hp as [-> Hp]. apply Forall_cons in Hok as [Ht Hok]. cbn [length] in Hf.
    destruct fuel as [|fuel]; [lia|]. cbn [create_loop]. rewrite (load_ok _ a t) by (apply Hst; by left). bind.
    destruct (built_add h strs l0 a t Hb Ht) as (h1 & strs1 & b & -> & Hb1 & Hex1 & _). bind.
    destruct (IH (l0 ++ [(a, t)]) (next t) h1 strs1 fuel) as (h' & strs' & E & Hb' & Hex'); try done; [|lia|].
    { intros a' t' Hin. apply Hst. by right. }
    rewrite <-app_assoc in Hb', Hex'. exists h', strs'. split; [done|]. split; [done|]. intros Hex [c Hc].
    apply Hex'; [apply Hex1; [done|]|by exists c]. eapply built_not_full; [done|]. split; [apply Hc|].
    intros a' t' Hin. apply (proj2 Hc a' t'). rewrite cons_middle, app_assoc, elem_of_app. by left.
Qed.

(** ** The search, on any dictionary *)

Lemma report_final h strs c n m r : trie_ok h strs -> find_to h strs c n m r -> r = None \/ exists w, final h strs w r.
Proof.
  intros Hok Hf. induction Hf as [n s m nm r Hs Hm Hnm Hr| |n s nd f m r _ _ _ _ _ _ IH]; [|by left|done].
  unfold report_of in Hr. destruct (text_end nm) eqn:Et; [right; exists (s ++ [c]), m, nm; by split_and!|].
  destruct (output_link nm) as [o|]; [|by left]. destruct Hr as (x & Hx & Ex & ->).
  destruct (trie_addr _ _ _ _ Hok Hx) as (w & Hw & _). right. exists w, o, x. by split_and!.
Qed.

(** A trie ready to be searched, and the texts its marks point to. *)
Record ready (th : heap aho_text_t) (h : trie) (strs : list (list Z)) (l : list (nat * aho_text_t)) : Prop := Ready {
  re_links : links_ok h strs (fun _ => True);
  re_stored : stored th l;
  re_final : forall s tp, final h strs s tp -> exists a t, tp = Some a /\ (a, t) ∈ l /\ spell t = s
}.

Lemma find_fuel h strs l th n s c : ready th h strs l -> strs !! n = Some s ->
  exists m w r, aho_find_trie_node (length h) h (Some n) c = Ret (Some m, r) /\ strs !! m = Some w /\ find_to h strs c n m r.
Proof.
  intros [Hl _ _] Hs. apply (find_ok h strs c (length h) n s Hl Hs).
  pose proof (string_short _ _ _ _ (lo_trie _ _ _ Hl) Hs). rewrite (to_len _ _ (lo_trie _ _ _ Hl)). lia.
Qed.

Lemma find_loop_safe th h strs l data : ready th h strs l -> forall i n s, strs !! n = Some s ->
  0 <= i -> i + Z.of_nat (length data) <= AHO_MAX_TEXT_ID ->
  exists ms, find_loop th h data i (Some n) = Ret ms /\
    Forall (fun m => exists a t, (a, t) ∈ l /\ m_id m = id t /\ m_len m = len t) ms.
Proof.
  intros Hre. induction data as [|c data IH]; intros i n s Hs Hi Hlen; cbn [find_loop]; [by exists []|].
  cbn [length] in Hlen. destruct (find_fuel _ _ _ _ n s (u8 c) Hre Hs) as (m & w & r & -> & Hm & Hf). bind.
  rewrite (proj2 (Z.eqb_neq _ _)) by lia. destruct (IH (i + 1) m w Hm) as (ms & E & Hms); [lia..|].
  destruct (report_final _ _ _ _ _ _ (lo_trie _ _ _ (re_links _ _ _ _ Hre)) Hf) as [->|[v Hv]]; [by exists ms|].
  destruct (re_final _ _ _ _ Hre _ _ Hv) as (a & t & -> & Hin & _). rewrite (load_ok _ a t) by by apply Hre. bind.
  rewrite E. bind. eexists. split; [done|]. constructor; [|done]. by exists a, t.
Qed.

(** ** The reference *)

(** The last of the longest words that are suffixes of [d], with its number. *)
Definition best_step (d : list Z) (r : option (nat * list Z)) (x : nat * list Z) : option (nat * list Z) :=
  let '(j, w) := x in
  if bool_decide (w <> [] /\ w `suffix_of` d) && match r with Some (_, v) => (length v <=? length w)%nat | None => true end
  then Some (j, w) else r.
Definition best (ws : list (list Z)) (d : list Z) : option (nat * list Z) := foldl (best_step d) None (imap pair ws).

(** For each position of the data, after [d], the longest word that ends there. *)
Fixpoint reference (ws : list (list Z)) (d data : list Z) : list aho_match_t :=
  match data with
  | [] => []
  | c :: data =>
    let d := d ++ [u8 c] in
    match best ws d with
    | Some (j, w) =>
      Match (Z.of_nat j) (Z.of_nat (length d) - Z.of_nat (length w)) (Z.of_nat (length w)) :: reference ws d data
    | None => reference ws d data
    end
  end.

Definition is_best (ws : list (list Z)) (d : list Z) (r : option (nat * list Z)) : Prop :=
  match r with
  | Some (j, w) => ws !! j = Some w /\ w <> [] /\ w `suffix_of` d /\
      forall k v, ws !! k = Some v -> v <> [] -> v `suffix_of` d -> (length v < length w)%nat \/ (length v = length w /\ (k <= j)%nat)
  | None => forall k v, ws !! k = Some v -> v <> [] -> ~ v `suffix_of` d
  end.

Lemma best_spec ws d : is_best ws d (best ws d).
Proof.
  unfold best. induction ws as [|w ws IH] using rev_ind; [by intros k v ?|].
  rewrite imap_app, foldl_app. cbn [imap foldl]. rewrite Nat.add_0_r. set (r := foldl _ _ _) in *.
  assert (Hlast : (ws ++ [w]) !! length ws = Some w) by by apply list_lookup_middle.
  unfold best_step. destruct (bool_decide (w <> [] /\ w `suffix_of` d)) eqn:E; cbn [andb].
  - apply bool_decide_eq_true in E as [Hw Hs]. destruct r as [[j v]|]; cbn in IH.
    + destruct IH as (Hj & Hv & Hvs & Hmax). destruct (Nat.leb_spec (length v) (length w)) as [Hle|Hgt]; cbn.
      * split_and!; try done. intros k x [Hk|[-> ->]]%lookup_snoc_inv Hx Hxs; [|right; lia].
        pose proof (lookup_lt_Some _ _ _ Hk). destruct (Hmax k x Hk Hx Hxs) as [|[? _]]; [left|]; lia.
      * split_and!; try done; [by apply lookup_snoc_old|].
        intros k x [Hk|[-> ->]]%lookup_snoc_inv Hx Hxs; [by eapply Hmax|left; lia].
    + cbn. split_and!; try done. intros k x [Hk|[-> ->]]%lookup_snoc_inv Hx Hxs; [by destruct (IH k x Hk Hx)|right; lia].
  - apply bool_decide_eq_false in E. destruct r as [[j v]|]; cbn in IH |- *.
    + destruct IH as (Hj & Hv & Hvs & Hmax). split_and!; try done; [by apply lookup_snoc_old|].
      intros k x [Hk|[-> ->]]%lookup_snoc_inv Hx Hxs; [by eapply Hmax|by destruct E].
    + intros k x [Hk|[-> ->]]%lookup_snoc_inv Hx Hxs; [by apply (IH k x Hk)|by apply E].
Qed.

Lemma best_unique ws d r r' : is_best ws d r -> is_best ws d r' -> r = r'.
Proof.
  destruct r as [[j w]|], r' as [[k v]|]; cbn; try done.
  - intros (Hj & Hw & Hws & Hm) (Hk & Hv & Hvs & Hm').
    assert (El : length w = length v) by (destruct (Hm k v Hk Hv Hvs) as [|[? _]], (Hm' j w Hj Hw Hws) as [|[? _]]; lia).
    assert (w = v) as -> by by apply (suffix_same w v d). do 2 f_equal.
    destruct (Hm k v Hk Hv Hvs) as [|[_ ?]], (Hm' j v Hj Hw Hws) as [|[_ ?]]; lia.
  - intros (Hj & Hw & Hws & _) H. by destruct (H j w Hj Hw).
  - intros H (Hk & Hv & Hvs & _). by destruct (H k v Hk Hv).
Qed.
