(* ===== verification/AhoText.v ===== *)
(** The list of texts of ahocorasick.c: adding and deleting implement operations on a
    list, as long as the last of several texts is not deleted; deleting that one leaves
    a dangling pointer behind. *)
From S2P Require Import Prelude Heap AhoQueue AhoTrie AhoBuild Aho AhoSearch.

(** ** The list in the heap *)

(** [l] is linked from [p] to [q]. *)
Fixpoint seg (p : pointer) (l : list (nat * aho_text_t)) (q : pointer) : Prop :=
  match l with
  | [] => p = q
  | (a, t) :: l => p = Some a /\ seg (next t) l q
  end.

Lemma linked_seg p l : linked p l <-> seg p l None.
Proof. revert p. induction l as [|[a t] l IH]; intros p; cbn; [done|]. by rewrite IH. Qed.

Lemma seg_app p l1 l2 q : seg p (l1 ++ l2) q <-> exists m, seg p l1 m /\ seg m l2 q.
Proof.
  revert p. induction l1 as [|[a t] l1 IH]; intros p; cbn; [by split; [eauto|intros (m & -> & H)]|].
  rewrite IH. split; [intros (Hp & m & H1 & H2); eauto|intros (m & (Hp & H1) & H2); eauto].
Qed.

Fixpoint backs (a : nat) (l : list (nat * aho_text_t)) : Prop :=
  match l with [] => True | (b, u) :: l => prev u = Some a /\ backs b l end.

(** The [prev] fields, except that of the first text, which [aho_del_match_text] does
    not keep up to date. *)
Definition back_ok (l : list (nat * aho_text_t)) : Prop := match l with [] => True | (a, _) :: l => backs a l end.

Definition ids (l : list (nat * aho_text_t)) : list Z := (fun x => id x.2) <$> l.

Record texts_ok (th : heap aho_text_t) (aho : ahocorasick) (l : list (nat * aho_text_t)) : Prop := TextsOk {
  tx_stored : stored th l;
  tx_linked : seg (text_list_head aho) l None;
  tx_tail : forall l0 a t, l = l0 ++ [(a, t)] -> text_list_tail aho = Some a;
  tx_back : back_ok l;
  tx_nodup : NoDup l.*1;
  tx_live : forall a t, at_addr th a t -> a ∈ l.*1;
  tx_ids : NoDup (ids l) /\ Forall (fun i => 0 <= i < accumulate_text_id aho) (ids l);
  tx_len : text_list_len aho = Z.of_nat (length l)
}.

(** What the list holds. *)
Definition contents (l : list (nat * aho_text_t)) : list (Z * list Z * Z) := (fun x => (id x.2, buf x.2, len x.2)) <$> l.

Lemma init_texts : texts_ok [] aho_init [].
Proof.
  split; try done.
  - by intros a t ?%not_elem_of_nil.
  - intros [|] a t; done.
  - constructor.
  - split; [constructor|done].
Qed.

Lemma stored_fmap th (l : list (nat * aho_text_t)) a : stored th l -> a ∈ l.*1 -> exists t, (a, t) ∈ l /\ at_addr th a t.
Proof. intros Hs ([b t] & -> & Hin)%list_elem_of_fmap. exists t. split; [done|by apply Hs]. Qed.

Lemma backs_snoc l a z u x : backs a (l ++ [(z, u)]) -> prev x.2 = Some z -> backs a ((l ++ [(z, u)]) ++ [x]).
Proof.
  revert a. induction l as [|[b v] l IH]; intros a; destruct x as [y x]; cbn; [by intros [-> _] ->|]. intros [-> H] Hx. auto.
Qed.

Lemma backs_app a l1 b t l2 : backs a (l1 ++ (b, t) :: l2) <-> backs a (l1 ++ [(b, t)]) /\ backs b l2.
Proof.
  revert a. induction l1 as [|[c u] l1 IH]; intros a; cbn; [naive_solver|]. rewrite IH. naive_solver.
Qed.

(** [prev] of the last element of a prefix does not depend on its other fields. *)
Lemma backs_last a l b t t' : prev t' = prev t -> backs a (l ++ [(b, t)]) -> backs a (l ++ [(b, t')]).
Proof. revert a. induction l as [|[c u] l IH]; intros a E; cbn; [by rewrite E|]. intros [-> H]. auto. Qed.

Lemma back_ok_app l1 b t l2 : back_ok (l1 ++ (b, t) :: l2) <-> back_ok (l1 ++ [(b, t)]) /\ backs b l2.
Proof. destruct l1 as [|[a u] l1]; cbn; [naive_solver|]. apply backs_app. Qed.

Lemma back_ok_last l b t t' : prev t' = prev t -> back_ok (l ++ [(b, t)]) -> back_ok (l ++ [(b, t')]).
Proof. destruct l as [|[a u] l]; cbn; [done|]. apply backs_last. Qed.

(** ** Adding *)

Lemma s32_small z : 0 <= z < 2 ^ 31 -> s32 z = z.
Proof. intros Hz. unfold s32, u32. rewrite Z.mod_small by lia. by rewrite (proj2 (Z.ltb_lt _ _)) by lia. Qed.

Lemma fresh_addr th (l : list (nat * aho_text_t)) a : stored th l -> a ∈ l.*1 -> a <> length th.
Proof. intros Hst Ha ->. destruct (stored_fmap _ _ _ Hst Ha) as (t & _ & Ht). apply at_addr_lt in Ht. lia. Qed.

Lemma ids_snoc (js : list Z) i : 0 <= i -> NoDup js -> Forall (fun j => 0 <= j < i) js ->
  NoDup (js ++ [i]) /\ Forall (fun j => 0 <= j < i + 1) (js ++ [i]).
Proof.
  intros Hi Hn Hf. split; [apply NoDup_app; split; [done|]; split; [|apply NoDup_singleton]|].
  - intros j Hj ->%list_elem_of_singleton. rewrite Forall_forall in Hf. specialize (Hf i Hj). lia.
  - apply Forall_app. split; [eapply Forall_impl; [exact Hf|]; cbn; intros; lia|]. constructor; [lia|constructor].
Qed.

(** The heap after a text is linked behind the last one. *)
Lemma stored_snoc th l0 z u q x y : stored th (l0 ++ [(z, u)]) -> NoDup (l0 ++ [(z, u)]).*1 ->
  stored (<[length th := Some y]> (<[z := Some (set_next q u)]> (th ++ [Some x])))
    ((l0 ++ [(z, set_next q u)]) ++ [(length th, y)]).
Proof.
  intros Hst Hnd. assert (Hold := fun a => fresh_addr th _ a Hst). assert (Hz : at_addr th z u) by (apply Hst; set_solver).
  assert (Hzn : z <> length th) by (apply Hold; rewrite fmap_app; set_solver). intros a t Hin.
  apply elem_of_app in Hin as [[Hin|[= -> ->]%list_elem_of_singleton]%elem_of_app|[= -> ->]%list_elem_of_singleton].
  - assert (Ha : a ∈ l0.*1) by (apply list_elem_of_fmap; by exists (a, t)).
    apply at_insert_ne; [symmetry; apply Hold; rewrite fmap_app; set_solver|]. apply at_insert_ne.
    { intros ->. rewrite fmap_app in Hnd. apply NoDup_app in Hnd as (_ & Hd & _). apply (Hd a Ha). by left. }
    apply at_new_old, Hst. set_solver.
  - apply at_insert_ne; [done|]. eapply at_insert_eq, at_new_old, Hz.
  - eapply at_insert_eq. apply at_insert_ne; [done|apply at_new].
Qed.

Lemma add_text_ok th aho l text n : texts_ok th aho l -> 0 <= accumulate_text_id aho < AHO_MAX_TEXT_ID ->
  0 <= n < 2 ^ 31 -> (Z.to_nat (n + 1) <= length text)%nat ->
  exists th' aho' l', aho_add_match_text th aho text n = Ret (th', aho', accumulate_text_id aho) /\ texts_ok th' aho' l' /\
    contents l' = contents l ++ [(accumulate_text_id aho, take (Z.to_nat (n + 1)) text, n)] /\
    l'.*1 = l.*1 ++ [length th] /\ length th' = S (length th) /\
    accumulate_text_id aho' = accumulate_text_id aho + 1 /\ aho_trie aho' = aho_trie aho.
Proof.
  intros [Hst Hli Hta Hba Hnd Hlv [Hid1 Hid2] Hln] Hacc Hn Hlen. unfold aho_add_match_text.
  rewrite (proj2 (Z.eqb_neq _ _)) by lia. unfold u32. rewrite Z.mod_small by lia.
  rewrite (proj2 (Nat.ltb_ge _ _)) by done. rewrite (s32_small n Hn). set (i := accumulate_text_id aho) in *.
  set (x := Text i (take (Z.to_nat (n + 1)) text) n None None). unfold new. cbv beta iota. cbn [text_list_head].
  assert (Hold := fun a => fresh_addr th l a Hst).
  assert (Hnew : NoDup (l.*1 ++ [length th])).
  { apply NoDup_app. split; [done|]. split; [|apply NoDup_singleton]. intros a Ha ->%list_elem_of_singleton. by eapply Hold. }
  assert (Hids := ids_snoc (ids l) i (proj1 Hacc) Hid1 Hid2).
  destruct l as [|[z u] l0 _] using rev_ind.
  - cbn in Hli. rewrite Hli. eexists _, _, [(length th, x)]. split; [done|]. split; [split|]; cbn; try done.
    + intros a t [= -> ->]%list_elem_of_singleton. apply at_new.
    + intros [|y [|]] a t E; try done. injection E as <- _. done.
    + intros a t [[-> _]|Ht]%at_new_inv; [by left|]. by apply Hlv, not_elem_of_nil in Ht.
    + rewrite Hln. cbn. lia.
    + rewrite length_app. cbn. split_and!; try done. lia.
  - assert (Hz : at_addr th z u) by (apply Hst; set_solver).
    assert (Hh : exists h0, text_list_head aho = Some h0) by (destruct l0 as [|[b v] l0]; cbn in Hli; destruct Hli as [-> _]; eauto).
    destruct Hh as [h0 Hh]. rewrite Hh, (Hta l0 z u eq_refl).
    assert (Hzn : z <> length th) by (apply Hold; rewrite fmap_app; set_solver).
    rewrite (modify_ok _ z u) by by apply at_new_old. bind.
    rewrite (modify_ok _ (length th) x) by (apply at_insert_ne; [done|apply at_new]). bind.
    set (l' := (l0 ++ [(z, set_next (Some (length th)) u)]) ++ [(length th, set_prev (Some z) x)]).
    eexists _, _, l'. split; [done|]. apply seg_app in Hli as (m & Hl0 & Hm & Hend).
    assert (E1 : l'.*1 = (l0 ++ [(z, u)]).*1 ++ [length th]) by (unfold l'; by rewrite !fmap_app).
    assert (E2 : ids l' = ids (l0 ++ [(z, u)]) ++ [i]) by (unfold ids, l'; by rewrite !fmap_app).
    split; [split|].
    + by apply stored_snoc.
    + cbn [text_list_head set_list]. unfold l'. rewrite Hh in Hl0. apply seg_app. exists (Some (length th)). split; [|done].
      apply seg_app. exists m. split; [done|]. by split.
    + cbn [text_list_tail set_list]. unfold l'. intros l1 a t E. apply app_inj_tail in E as [_ [= <- _]]. done.
    + unfold l'. rewrite <-app_assoc. cbn [app]. apply back_ok_app. split; [|done]. by eapply back_ok_last; [|exact Hba].
    + by rewrite E1.
    + rewrite E1. intros a t Ha. destruct (decide (a = length th)) as [->|Hne]; [set_solver|].
      apply at_insert_ne in Ha; [|done]. rewrite elem_of_app. left.
      destruct (decide (z = a)) as [<-|Hza]; [rewrite fmap_app; set_solver|]. apply at_insert_ne in Ha; [|done].
      apply at_new_inv in Ha as [[-> _]|Ha]; [done|by eapply Hlv].
    + rewrite E2. apply Hids.
    + cbn [text_list_len set_list]. rewrite Hln. unfold l'. rewrite !length_app. cbn. lia.
    + rewrite E1. unfold contents, l'. rewrite !length_insert, !length_app, !fmap_app. cbn. split_and!; try done. lia.
Qed.

(** ** Deleting *)

Lemma texts_fuel th aho l : texts_ok th aho l -> (length l <= length th)%nat.
Proof.
  intros Ht. rewrite <-(length_fmap fst l), <-(length_seq (length th) 0). apply submseteq_length, NoDup_submseteq; [apply Ht|].
  intros a Ha. apply (stored_fmap _ _ _ (tx_stored _ _ _ Ht)) in Ha as (t & _ & Ht'). apply at_addr_lt in Ht'. apply elem_of_seq. lia.
Qed.

Lemma del_walk th aho i l1 : forall fuel p q, stored th l1 -> seg p l1 q -> i ∉ ids l1 -> (length l1 <= fuel)%nat ->
  (q = None -> del_loop fuel th aho p i = Ret (th, aho, false)) /\
  (forall a t, q = Some a -> at_addr th a t -> id t = i -> del_loop fuel th aho p i =
    '(th, aho) ← remove_text th aho (Some a); Ret (th, aho, true)).
Proof.
  induction l1 as [|[b u] l1 IH]; intros fuel p q Hst Hp Hi Hf.
  - cbn in Hp. subst p. split; [intros ->; by destruct fuel|]. intros a t -> Ha Hid.
    destruct fuel; cbn [del_loop]; rewrite (load_ok _ _ _ Ha); bind; by rewrite Hid, Z.eqb_refl.
  - cbn [seg] in Hp. destruct Hp as [-> Hp]. cbn [length] in Hf. destruct fuel as [|fuel]; [lia|].
    cbn [ids fmap list_fmap snd] in Hi. apply not_elem_of_cons in Hi as [Hne Hi]. cbn [del_loop].
    rewrite (load_ok _ b u) by (apply Hst; by left). bind. rewrite (proj2 (Z.eqb_neq _ _)) by congruence.
    apply IH; [|done|done|lia]. intros a t Hin. apply Hst. by right.
Qed.

(** Freeing a text that is no longer linked keeps the others. *)
Lemma stored_freed th l a : stored th l -> a ∉ l.*1 -> stored (<[a := None]> th) l.
Proof.
  intros Hst Ha b t Hin. apply at_insert_ne; [|by apply Hst]. intros ->. apply Ha, list_elem_of_fmap. by exists (b, t).
Qed.

Lemma stored_write th l1 b u u' l2 : stored th (l1 ++ (b, u) :: l2) -> NoDup (l1 ++ (b, u) :: l2).*1 ->
  stored (<[b := Some u']> th) (l1 ++ (b, u') :: l2).
Proof.
  intros Hst Hnd a t Hin. rewrite fmap_app in Hnd. cbn [fmap list_fmap fst] in Hnd.
  apply NoDup_app in Hnd as (_ & Hd & Hnd). apply NoDup_cons in Hnd as [Hn _].
  assert (Hother : (a, t) ∈ l1 \/ (a, t) ∈ l2 -> at_addr (<[b := Some u']> th) a t).
  { intros Hor. apply at_insert_ne; [|apply Hst; set_solver]. intros <-. destruct Hor as [Hor|Hor].
    - apply (Hd b); [apply list_elem_of_fmap; by exists (b, t)|by left].
    - apply Hn, list_elem_of_fmap. by exists (b, t). }
  apply elem_of_app in Hin as [Hin|[[= -> ->]|Hin]%elem_of_cons]; [auto| |auto].
  apply (at_insert_eq _ _ u), Hst. set_solver.
Qed.

Lemma write_live {A} (h : heap A) b u u' a y : at_addr h b u -> at_addr (<[b := Some u']> h) a y -> exists x, at_addr h a x.
Proof. intros Hb Ha. destruct (decide (b = a)) as [<-|Hne]; [by exists u|]. exists y. by apply at_insert_ne in Ha. Qed.

Lemma ids_remove (l1 : list (nat * aho_text_t)) x l2 n : NoDup (ids (l1 ++ x :: l2)) -> Forall (fun i => 0 <= i < n) (ids (l1 ++ x :: l2)) ->
  NoDup (ids (l1 ++ l2)) /\ Forall (fun i => 0 <= i < n) (ids (l1 ++ l2)).
Proof.
  unfold ids. rewrite !fmap_app. cbn [fmap list_fmap]. intros Hn Hf. split.
  - rewrite NoDup_app, NoDup_cons in Hn. rewrite NoDup_app. set_solver.
  - rewrite Forall_app, Forall_cons in Hf. rewrite Forall_app. naive_solver.
Qed.

(** The first text. *)
Lemma remove_head th aho a t l : texts_ok th aho ((a, t) :: l) ->
  exists th' aho', remove_text th aho (Some a) = Ret (th', aho') /\ texts_ok th' aho' l /\
    accumulate_text_id aho' = accumulate_text_id aho /\ aho_trie aho' = aho_trie aho.
Proof.
  intros [Hst Hli Hta Hba Hnd Hlv [Hid1 Hid2] Hln]. cbn [seg] in Hli. destruct Hli as [Hh Hli].
  assert (Ha : at_addr th a t) by (apply Hst; by left). unfold remove_text. rewrite (load_ok _ _ _ Ha). bind.
  rewrite bool_decide_eq_true_2 by done. bind. rewrite (dispose_ok _ _ _ Ha). bind. eexists _, _. split; [done|]. split; [|done].
  cbn [fmap list_fmap fst] in Hnd. apply NoDup_cons in Hnd as [Hna Hnd]. split; cbn; try done.
  - apply stored_freed; [|done]. intros b u Hin. apply Hst. by right.
  - intros l0 b u ->. by apply (Hta ((a, t) :: l0) b u).
  - cbn in Hba. destruct l as [|[b u] l]; [done|]. by destruct Hba.
  - intros b u Hb. destruct (decide (a = b)) as [<-|Hne]; [by apply at_freed in Hb|]. apply at_insert_ne in Hb; [|done].
    apply Hlv in Hb. cbn in Hb. apply elem_of_cons in Hb as [->|]; done.
  - by apply (ids_remove [] (a, t) l).
  - rewrite Hln. cbn. lia.
Qed.

(** The fields of the texts around one that is not the first. *)
Lemma around th aho l0 y v a t l1 : texts_ok th aho ((l0 ++ [(y, v)]) ++ (a, t) :: l1) ->
  at_addr th a t /\ at_addr th y v /\ prev t = Some y /\ Some a <> text_list_head aho /\
  exists m, seg (text_list_head aho) l0 m /\ m = Some y /\ next v = Some a /\ seg (next t) l1 None.
Proof.
  intros [Hst Hli _ Hba Hnd _ _ _]. split; [apply Hst; set_solver|]. split; [apply Hst; set_solver|].
  apply seg_app in Hli as (m & Hli & -> & Hl1). apply seg_app in Hli as (m & Hl0 & -> & Hny).
  apply back_ok_app in Hba as [Hba _]. rewrite <-app_assoc in Hba. apply back_ok_app in Hba as [_ [Hpt _]].
  split; [done|]. split; [|by exists (Some y)]. intros E. rewrite !fmap_app in Hnd. apply NoDup_app in Hnd as (_ & Hd & _).
  destruct l0 as [|[c w] l0]; cbn in Hl0.
  - rewrite Hl0 in E. injection E as ->. apply (Hd y); set_solver.
  - destruct Hl0 as [Hc _]. rewrite Hc in E. injection E as ->. apply (Hd c); set_solver.
Qed.

(** Only the last text is the tail. *)
Lemma not_tail th aho l0 a t b u l2 : texts_ok th aho (l0 ++ (a, t) :: (b, u) :: l2) -> Some a <> text_list_tail aho.
Proof.
  intros [_ _ Hta _ Hnd _ _ _]. destruct (exists_last (l := (b, u) :: l2) ltac:(done)) as (l3 & [c w] & E).
  rewrite E in Hta, Hnd. rewrite (Hta (l0 ++ (a, t) :: l3) c w) by (by rewrite <-app_assoc). intros [= <-].
  rewrite fmap_app in Hnd. apply NoDup_app in Hnd as (_ & _ & Hnd). cbn in Hnd. apply NoDup_cons in Hnd as [Hn _].
  apply Hn. rewrite fmap_app. set_solver.
Qed.

(** A text between two others. *)
Lemma remove_middle th aho l0 y v a t b u l2 : texts_ok th aho ((l0 ++ [(y, v)]) ++ (a, t) :: (b, u) :: l2) ->
  exists th' aho', remove_text th aho (Some a) = Ret (th', aho') /\
    texts_ok th' aho' ((l0 ++ [(y, set_next (Some b) v)]) ++ (b, set_prev (Some y) u) :: l2) /\
    accumulate_text_id aho' = accumulate_text_id aho.
Proof.
  intros Ht. destruct (around _ _ _ _ _ _ _ _ Ht) as (Ha & Hy & Hpt & Hhead & m & Hl0 & -> & Hny & Hnt & Hl2).
  pose proof (not_tail _ _ _ _ _ _ _ _ Ht) as Htail. destruct Ht as [Hst Hli Hta Hba Hnd Hlv [Hid1 Hid2] Hln].
  assert (Hb : at_addr th b u) by (apply Hst; set_solver).
  set (l' := (l0 ++ [(y, set_next (Some b) v)]) ++ (b, set_prev (Some y) u) :: l2).
  assert (Hperm : ((l0 ++ [(y, v)]) ++ (a, t) :: (b, u) :: l2).*1 ≡ₚ a :: l'.*1).
  { unfold l'. rewrite !fmap_app. cbn. solve_Permutation. }
  assert (Hnd' : NoDup (a :: l'.*1)) by by rewrite <-Hperm. apply NoDup_cons in Hnd' as [Hal' Hnd'].
  assert (Hne : y <> a /\ b <> a) by (unfold l' in Hal'; rewrite !fmap_app in Hal'; set_solver). destruct Hne as [Hya Hba'].
  assert (Hyb : y <> b).
  { unfold l' in Hnd'. rewrite !fmap_app in Hnd'. apply NoDup_app in Hnd' as (_ & Hd & _). intros ->. apply (Hd b); set_solver. }
  unfold remove_text. rewrite (load_ok _ _ _ Ha). bind. rewrite !bool_decide_eq_false_2 by done. rewrite Hpt, Hnt.
  rewrite (modify_ok _ _ _ _ Hy). bind. assert (Hb1 : at_addr (<[y := Some (set_next (Some b) v)]> th) b u) by by apply at_insert_ne.
  rewrite (modify_ok _ _ _ _ Hb1). bind. set (th2 := <[b := _]> _).
  assert (Ha2 : at_addr th2 a t) by (apply at_insert_ne; [done|]; by apply at_insert_ne).
  rewrite (dispose_ok _ _ _ Ha2). bind. eexists _, _. split; [done|].
  split; [split|done]; cbn [text_list_head text_list_tail text_list_len set_list accumulate_text_id].
  - apply stored_freed; [|done]. rewrite <-app_assoc in Hst. cbn [app] in Hst. rewrite <-app_assoc in Hnd. cbn [app] in Hnd.
    apply (stored_write _ _ _ _ (set_next (Some b) v)) in Hst; [|done].
    rewrite (cons_middle (y, _)), (cons_middle (a, _)), !app_assoc in Hst. apply (stored_write _ _ _ _ (set_prev (Some y) u)) in Hst.
    + intros c w Hin. apply Hst. unfold l' in Hin. set_solver.
    + revert Hnd. rewrite !fmap_app. cbn. by rewrite <-!app_assoc.
  - unfold l'. rewrite !seg_app. exists (Some b). split; [|by split]. apply seg_app. by exists (Some y).
  - unfold l'. intros l3 c w E.
    destruct (exists_last (l := (b, set_prev (Some y) u) :: l2) ltac:(done)) as (l4 & [d x] & E4). rewrite E4 in E.
    rewrite app_assoc in E. apply app_inj_tail in E as [_ [= -> ->]]. destruct l4 as [|z l4]; cbn in E4.
    + injection E4 as <- <- ->. by apply (Hta ((l0 ++ [(y, v)]) ++ [(a, t)]) b u); rewrite <-!app_assoc.
    + injection E4 as <- ->. by apply (Hta ((l0 ++ [(y, v)]) ++ (a, t) :: (b, u) :: l4) c w); rewrite <-!app_assoc.
  - unfold l'. apply back_ok_app in Hba as [Hba [_ Hbb]]. rewrite <-app_assoc in Hba. apply back_ok_app in Hba as [Hba _].
    rewrite <-app_assoc. cbn [app]. apply back_ok_app. split; [by eapply back_ok_last; [|exact Hba]|by split].
  - done.
  - intros c w Hc. destruct (decide (a = c)) as [<-|Hac]; [by apply at_freed in Hc|]. apply at_insert_ne in Hc; [|done].
    apply (write_live _ _ u) in Hc as [x Hc]; [|done]. apply (write_live _ _ v) in Hc as [x' Hc]; [|done].
    apply Hlv in Hc. rewrite Hperm in Hc. apply elem_of_cons in Hc as [->|Hc]; done.
  - assert (E : ids l' = ids ((l0 ++ [(y, v)]) ++ (b, u) :: l2)) by (unfold ids, l'; rewrite !fmap_app; done).
    rewrite E. by apply (ids_remove _ (a, t)).
  - rewrite Hln. unfold l'. rewrite !length_app. cbn. lia.
Qed.

(** The last of several texts: the one before it keeps its [next] field. *)
Lemma remove_last th aho l0 y v a t : texts_ok th aho ((l0 ++ [(y, v)]) ++ [(a, t)]) ->
  exists th' aho', remove_text th aho (Some a) = Ret (th', aho') /\ stored th' (l0 ++ [(y, v)]) /\
    seg (text_list_head aho') (l0 ++ [(y, v)]) (Some a) /\ (forall x, ~ at_addr th' a x) /\ length th' = length th.
Proof.
  intros Ht. destruct (around _ _ _ _ _ _ _ _ Ht) as (Ha & Hy & Hpt & Hhead & m & Hl0 & -> & Hny & Hnt).
  unfold remove_text. rewrite (load_ok _ _ _ Ha). bind. rewrite bool_decide_eq_false_2 by done.
  rewrite (bool_decide_eq_true_2 (Some a = text_list_tail aho)) by (symmetry; by eapply tx_tail). bind.
  rewrite (dispose_ok _ _ _ Ha). bind. eexists _, _. split; [done|]. cbn [text_list_head set_list]. split.
  - apply stored_freed.
    + intros c w Hin. apply (tx_stored _ _ _ Ht). set_solver.
    + intros Hin. pose proof (tx_nodup _ _ _ Ht) as Hnd. rewrite fmap_app in Hnd. apply NoDup_app in Hnd as (_ & Hd & _).
      apply (Hd a Hin). by left.
  - split; [apply seg_app; by exists (Some y)|]. split; [intros x; apply at_freed|by rewrite length_insert].
Qed.

(** ** The list of texts as a list *)

Lemma del_found th aho l1 a t l2 : texts_ok th aho (l1 ++ (a, t) :: l2) ->
  aho_del_match_text th aho (id t) = ('(th, aho) ← remove_text th aho (Some a); Ret (th, aho, true)).
Proof.
  intros Ht. pose proof (texts_fuel _ _ _ Ht) as Hf. rewrite length_app in Hf.
  pose proof (tx_linked _ _ _ Ht) as Hl. apply seg_app in Hl as (m & Hl1 & -> & _). unfold aho_del_match_text.
  assert (Hst : stored th l1) by (intros b u Hin; apply (tx_stored _ _ _ Ht); set_solver).
  assert (Hid : id t ∉ ids l1).
  { destruct (tx_ids _ _ _ Ht) as [Hn _]. unfold ids in *. rewrite fmap_app in Hn. apply NoDup_app in Hn as (_ & Hd & _).
    intros Hin. apply (Hd _ Hin). by left. }
  destruct (del_walk th aho (id t) l1 (length th) _ (Some a) Hst Hl1 Hid ltac:(lia)) as [_ H].
  apply (H a t); [done|apply (tx_stored _ _ _ Ht); set_solver|done].
Qed.

Lemma del_missing th aho l i : texts_ok th aho l -> i ∉ ids l -> aho_del_match_text th aho i = Ret (th, aho, false).
Proof.
  intros Ht Hi. unfold aho_del_match_text. pose proof (texts_fuel _ _ _ Ht) as Hf.
  by apply (del_walk th aho i l (length th) _ None (tx_stored _ _ _ Ht) (tx_linked _ _ _ Ht) Hi).
Qed.

Lemma del_ok th aho l1 a t l2 : texts_ok th aho (l1 ++ (a, t) :: l2) -> l1 = [] \/ l2 <> [] ->
  exists th' aho' l', aho_del_match_text th aho (id t) = Ret (th', aho', true) /\ texts_ok th' aho' l' /\
    contents l' = contents (l1 ++ l2) /\ accumulate_text_id aho' = accumulate_text_id aho.
Proof.
  intros Ht Hor. rewrite (del_found _ _ _ _ _ _ Ht). destruct l1 as [|[y v] l0 _] using rev_ind.
  - destruct (remove_head _ _ _ _ _ Ht) as (th' & aho' & -> & Ht' & E & _). bind. by exists th', aho', l2.
  - destruct Hor as [Hor|Hor]; [by apply app_nil in Hor as [_ ?]|]. destruct l2 as [|[b u] l2]; [done|].
    destruct (remove_middle _ _ _ _ _ _ _ _ _ _ Ht) as (th' & aho' & -> & Ht' & E). bind. eexists th', aho', _.
    split; [done|]. split; [done|]. split; [|done]. unfold contents. by rewrite !fmap_app.
Qed.

Inductive text_op := AddText (w : list Z) | DelText (i : Z).

(** The calls of a client and what they return; a word is passed as a C string. *)
Fixpoint run_texts (th : heap aho_text_t) (aho : ahocorasick) (ops : list text_op) :
    res (heap aho_text_t * ahocorasick * list Z) :=
  match ops with
  | [] => Ret (th, aho, [])
  | AddText w :: ops =>
    '(th, aho, r) ← aho_add_match_text th aho (w ++ [0]) (Z.of_nat (length w));
    '(th, aho, rs) ← run_texts th aho ops; Ret (th, aho, r :: rs)
  | DelText i :: ops =>
    '(th, aho, r) ← aho_del_match_text th aho i;
    '(th, aho, rs) ← run_texts th aho ops; Ret (th, aho, (if (r : bool) then 1 else 0) :: rs)
  end.

(** The same on a list of numbered words; undefined when the last of several words is
    deleted. *)
Definition delete_id (c : list (Z * list Z)) (i : Z) : list (Z * list Z) := filter (fun x => x.1 <> i) c.

Fixpoint list_texts (c : list (Z * list Z)) (n : Z) (ops : list text_op) : option (list (Z * list Z) * list Z) :=
  match ops with
  | [] => Some (c, [])
  | AddText w :: ops => '(c, rs) ← list_texts (c ++ [(n, w)]) (n + 1) ops; Some (c, n :: rs)
  | DelText i :: ops =>
    if bool_decide (i ∈ c.*1) then
      if (1 <? length c)%nat && bool_decide (fst <$> last c = Some i) then None
      else '(c, rs) ← list_texts (delete_id c i) n ops; Some (c, 1 :: rs)
    else '(c, rs) ← list_texts c n ops; Some (c, 0 :: rs)
  end.

(** The texts [l] spell the words [c]. *)
Definition spelled (c : list (Z * list Z)) : list (Z * list Z * Z) :=
  (fun x => (x.1, x.2 ++ [0], Z.of_nat (length x.2))) <$> c.

Definition short_op (o : text_op) : Prop := match o with AddText w => Z.of_nat (length w) < 2 ^ 31 | DelText _ => True end.

Lemma spelled_ids l c : contents l = spelled c -> ids l = c.*1.
Proof.
  intros E. unfold contents, spelled, ids in *. apply (f_equal (fmap (fun y => y.1.1))) in E. rewrite <-!list_fmap_compose in E. exact E.
Qed.

Lemma delete_id_split c1 i w c2 : NoDup (c1 ++ (i, w) :: c2).*1 -> delete_id (c1 ++ (i, w) :: c2) i = c1 ++ c2.
Proof.
  intros Hn. rewrite fmap_app in Hn. apply NoDup_app in Hn as (_ & Hd & Hn). cbn in Hn. apply NoDup_cons in Hn as [Hn _].
  assert (Hall : forall c, i ∉ c.*1 -> delete_id c i = c).
  { intros c Hc. unfold delete_id. induction c as [|x c IH]; [done|]. cbn in Hc. apply not_elem_of_cons in Hc as [Hx Hc].
    rewrite filter_cons_True by congruence. by rewrite IH. }
  unfold delete_id. rewrite filter_app, filter_cons_False by (cbn; naive_solver). fold (delete_id c1 i) (delete_id c2 i).
  rewrite !Hall; [done|done|]. intros Hin. apply (Hd i Hin). by left.
Qed.

Lemma del_list th aho l c i : texts_ok th aho l -> contents l = spelled c -> i ∈ c.*1 ->
  (1 <? length c)%nat && bool_decide (fst <$> last c = Some i) = false ->
  exists th' aho' l', aho_del_match_text th aho i = Ret (th', aho', true) /\ texts_ok th' aho' l' /\
    contents l' = spelled (delete_id c i) /\ accumulate_text_id aho' = accumulate_text_id aho.
Proof.
  intros Ht Ec Hi Hb. pose proof (spelled_ids _ _ Ec) as Eids. pose proof (tx_ids _ _ _ Ht) as [Hnd _]. rewrite Eids in Hnd.
  apply list_elem_of_fmap in Hi as ([j w] & -> & (c1 & c2 & ->)%list_elem_of_split). cbn [fst] in *.
  unfold spelled in Ec. rewrite fmap_app in Ec. cbn [fmap list_fmap] in Ec. unfold contents in Ec.
  apply fmap_app_inv in Ec as (l1 & l2 & E1 & E2 & ->). destruct l2 as [|[a t] l2]; [done|].
  cbn in E2. injection E2 as Eid Ebuf Elen E2. subst j.
  destruct (del_ok th aho l1 a t l2 Ht) as (th' & aho' & l' & Edel & Ht' & Econt & Eacc).
  - destruct l1; [by left|right]. intros ->. destruct c2; [|done]. rewrite last_snoc in Hb.
    change (fst <$> Some (id t, w)) with (Some (id t)) in Hb.
    rewrite (bool_decide_eq_true_2 _ eq_refl), andb_true_r in Hb. apply Nat.ltb_ge in Hb. rewrite length_app in Hb.
    destruct c1; [done|]. cbn [length] in Hb. lia.
  - exists th', aho', l'. split; [done|]. split; [done|]. split; [|done].
    rewrite Econt, delete_id_split by done. unfold contents, spelled. rewrite !fmap_app. by f_equal.
Qed.
