(* ===== verification/AhoThm.v ===== *)
(** The theorems on the Aho-Corasick library: the list of texts, whole searches, and
    the cleaning of the trie. *)
From S2P Require Import Prelude Suffix Heap AhoQueue AhoTrie AhoBuild AhoLinks AhoRight Aho AhoSearch AhoText.

(** ** The list of texts *)

(** Adding and deleting texts implements a list of numbered words: any sequence of
    calls that does not delete the last of several texts is memory safe, returns what
    the list operations return, and leaves exactly the texts of the list allocated. *)
Theorem aho_texts_list ops c outs : list_texts [] 0 ops = Some (c, outs) -> Forall short_op ops ->
  Z.of_nat (length ops) < AHO_MAX_TEXT_ID ->
  exists th aho l, run_texts [] aho_init ops = Ret (th, aho, outs) /\ texts_ok th aho l /\ contents l = spelled c.
Proof.
  intros Hc Hs Hlen. assert (H : forall n c0 th aho l, list_texts c0 n ops = Some (c, outs) -> texts_ok th aho l ->
    contents l = spelled c0 -> accumulate_text_id aho = n -> 0 <= n -> n + Z.of_nat (length ops) < AHO_MAX_TEXT_ID ->
    exists th' aho' l', run_texts th aho ops = Ret (th', aho', outs) /\ texts_ok th' aho' l' /\ contents l' = spelled c).
  2: { destruct (H 0 [] [] aho_init [] Hc init_texts) as (th & aho & l & E & Ht & Ec); try done. by exists th, aho, l. }
  clear Hc Hlen. revert c outs. induction ops as [|[w|i] ops IH]; intros c outs n c0 th aho l Hc Ht Ec En Hn Hlen;
    cbn [list_texts run_texts length] in *.
  - injection Hc as <- <-. by exists th, aho, l.
  - apply bind_Some in Hc as ([c1 rs] & Hc & [= <- <-]). apply Forall_cons in Hs as [Hw Hs]. cbn in Hw.
    destruct (add_text_ok th aho l (w ++ [0]) (Z.of_nat (length w)) Ht) as (th1 & aho1 & l1 & -> & Ht1 & Ec1 & _ & _ & En1 & _);
      [lia|lia|rewrite length_app; cbn; lia|]. bind.
    destruct (IH Hs c1 rs (n + 1) (c0 ++ [(n, w)]) th1 aho1 l1 Hc Ht1) as (th' & aho' & l' & -> & Ht' & Ec'); [|lia..|].
    + rewrite Ec1, Ec, En. unfold spelled. rewrite fmap_app. cbn. do 3 f_equal. rewrite take_ge; [done|]. rewrite length_app. cbn. lia.
    + bind. rewrite En. by exists th', aho', l'.
  - apply Forall_cons in Hs as [_ Hs]. pose proof (spelled_ids _ _ Ec) as Eids. destruct (bool_decide (i ∈ c0.*1)) eqn:Ei.
    + apply bool_decide_eq_true in Ei. destruct ((1 <? length c0)%nat && _) eqn:Eb; [done|].
      apply bind_Some in Hc as ([c1 rs] & Hc & [= <- <-]).
      destruct (del_list th aho l c0 i Ht Ec Ei Eb) as (th1 & aho1 & l1 & -> & Ht1 & Ec1 & En1). bind.
      destruct (IH Hs c1 rs n (delete_id c0 i) th1 aho1 l1 Hc Ht1 Ec1) as (th' & aho' & l' & -> & Ht' & Ec'); [congruence|lia..|].
      bind. by exists th', aho', l'.
    + apply bool_decide_eq_false in Ei. apply bind_Some in Hc as ([c1 rs] & Hc & [= <- <-]).
      rewrite (del_missing th aho l i Ht) by by rewrite Eids. bind.
      destruct (IH Hs c1 rs n c0 th aho l Hc Ht Ec En Hn) as (th' & aho' & l' & -> & Ht' & Ec'); [lia|].
      bind. by exists th', aho', l'.
Qed.

Lemma aho_texts_list_witness :
  let ops := [AddText [97; 98]; AddText [99]; AddText [97]; DelText 1; DelText 1; AddText [98]; DelText 0] in
  list_texts [] 0 ops = Some ([(2, [97]); (3, [98])], [0; 1; 2; 1; 0; 3; 1]) /\
  exists th aho, run_texts [] aho_init ops = Ret (th, aho, [0; 1; 2; 1; 0; 3; 1]).
Proof.
  intros ops. assert (E : list_texts [] 0 ops = Some ([(2, [97]); (3, [98])], [0; 1; 2; 1; 0; 3; 1])) by (vm_compute; reflexivity).
  split; [done|]. destruct (aho_texts_list ops _ _ E) as (th & aho & l & H & _); [|done|by exists th, aho].
  repeat constructor.
Defined.

(** A text whose [next] dangles is fatal to the next traversal. *)
Lemma create_dangling th l a : forall fuel p h strs l0, stored th l -> seg p l (Some a) -> (forall x, ~ at_addr th a x) ->
  Forall (fun x => text_ok x.2) l -> built h strs l0 -> (length l < fuel)%nat -> create_loop fuel th h p = UB.
Proof.
  induction l as [|[b u] l IH]; intros fuel p h strs l0 Hst Hp Hd Hok Hb Hf.
  - cbn in Hp. subst p. destruct fuel; [lia|]. cbn [create_loop]. unfold load.
    destruct (th !! a) as [[x|]|] eqn:E; try done. by destruct (Hd x).
  - cbn [seg length] in *. destruct Hp as [-> Hp]. apply Forall_cons in Hok as [Hu Hok]. destruct fuel as [|fuel]; [lia|].
    cbn [create_loop]. rewrite (load_ok _ b u) by (apply Hst; by left). bind.
    destruct (built_add h strs l0 b u Hb Hu) as (h1 & strs1 & ok & -> & Hb1 & _). bind.
    apply (IH fuel (next u) h1 strs1 (l0 ++ [(b, u)])); try done; [|lia]. intros c w Hin. apply Hst. by right.
Qed.

(** Deleting the last of several texts succeeds, but the text before it keeps its
    [next] pointer to the freed one: building the trie afterwards reads freed memory. *)
Theorem aho_del_last_dangles th aho l a t : texts_ok th aho (l ++ [(a, t)]) -> l <> [] -> Forall (fun x => text_ok x.2) l ->
  exists th' aho', aho_del_match_text th aho (id t) = Ret (th', aho', true) /\ aho_create_trie th' aho' = UB.
Proof.
  intros Ht Hl Hok. destruct l as [|[y v] l0 _] using rev_ind; [done|]. rewrite (del_found _ _ _ _ _ _ Ht).
  pose proof (texts_fuel _ _ _ Ht) as Hf. rewrite length_app in Hf. cbn in Hf.
  destruct (remove_last _ _ _ _ _ _ _ Ht) as (th' & aho' & -> & Hst & Hseg & Hfree & Hlen). bind.
  exists th', aho'. split; [done|]. unfold aho_create_trie.
  rewrite (create_dangling th' _ a (length th') _ aho_init_trie [[]] [] Hst Hseg Hfree Hok (proj1 built_init)); [done|lia].
Qed.

(** ** Whole searches *)

(** The list after adding the words one after the other: the addresses are the
    numbers of the words. *)
Definition word_texts (ws : list (list Z)) (l : list (nat * aho_text_t)) : Prop :=
  length l = length ws /\ forall k w, ws !! k = Some w ->
    exists t, l !! k = Some (k, t) /\ id t = Z.of_nat k /\ buf t = w ++ [0] /\ len t = Z.of_nat (length w).

Definition words_ok (ws : list (list Z)) : Prop :=
  Forall (fun w => Z.of_nat (length w) < 2 ^ 31) ws /\ Z.of_nat (length ws) < AHO_MAX_TEXT_ID /\
  Z.of_nat (sum_list (length <$> ws)) + 1 < 2 ^ 32.

Lemma add_all_ok ws : Forall (fun w => Z.of_nat (length w) < 2 ^ 31) ws -> Z.of_nat (length ws) < AHO_MAX_TEXT_ID ->
  exists th aho l, add_all [] aho_init ws = Ret (th, aho) /\ texts_ok th aho l /\ word_texts ws l /\
    accumulate_text_id aho = Z.of_nat (length ws).
Proof.
  intros Hw Hlen. assert (H : forall ws0 th aho l, texts_ok th aho l -> word_texts ws0 l -> length th = length ws0 ->
    accumulate_text_id aho = Z.of_nat (length ws0) -> Z.of_nat (length (ws0 ++ ws)) < AHO_MAX_TEXT_ID ->
    exists th' aho' l', add_all th aho ws = Ret (th', aho') /\ texts_ok th' aho' l' /\ word_texts (ws0 ++ ws) l' /\
      accumulate_text_id aho' = Z.of_nat (length (ws0 ++ ws))).
  2: { destruct (H [] [] aho_init [] init_texts) as (th & aho & l & E & Ht & Hwt & Ha); try done. by exists th, aho, l. }
  clear Hlen. induction ws as [|w ws IH]; intros ws0 th aho l Ht [Hl Hwt] Hth Hacc Hlen; cbn [add_all].
  - rewrite app_nil_r. by exists th, aho, l.
  - apply Forall_cons in Hw as [Hw1 Hw]. rewrite length_app in Hlen. cbn [length] in Hlen.
    destruct (add_text_ok th aho l (w ++ [0]) (Z.of_nat (length w)) Ht) as
      (th1 & aho1 & l1 & -> & Ht1 & Ec1 & Ea1 & Hth1 & Hacc1 & _); [lia|lia|rewrite length_app; cbn; lia|]. bind.
    destruct (IH Hw (ws0 ++ [w]) th1 aho1 l1 Ht1) as (th' & aho' & l' & E & Ht' & Hwt' & Hacc').
    + assert (Hlen1 : length l1 = S (length l)).
      { apply (f_equal length) in Ec1. unfold contents in Ec1. rewrite length_app, !length_fmap in Ec1. cbn in Ec1. lia. }
      split; [rewrite length_app; cbn; lia|]. intros k x Hk.
      assert (Hkl : exists a t, l1 !! k = Some (a, t)).
      { apply lookup_lt_Some in Hk. rewrite length_app in Hk. cbn in Hk.
        destruct (lookup_lt_is_Some_2 l1 k) as [[a t] Hat]; [lia|eauto]. }
      destruct Hkl as (a & t & Hkl). pose proof (f_equal (fun y => y !! k) Ec1) as Ek. pose proof (f_equal (fun y => y !! k) Ea1) as Eka.
      unfold contents in Ek. cbn beta in Ek, Eka. rewrite list_lookup_fmap, Hkl in Ek. rewrite list_lookup_fmap, Hkl in Eka.
      cbn in Ek, Eka.
      apply lookup_snoc_inv in Hk as [Hk|[-> ->]].
      * destruct (Hwt k x Hk) as (t0 & Hk0 & E1 & E2 & E3). exists t.
        rewrite lookup_app_l, list_lookup_fmap, Hk0 in Ek by (rewrite length_fmap; by eapply lookup_lt_Some).
        rewrite lookup_app_l, list_lookup_fmap, Hk0 in Eka by (rewrite length_fmap; by eapply lookup_lt_Some).
        cbn in Ek, Eka. split; [congruence|]. split_and!; congruence.
      * exists t. rewrite <-Hl in *. rewrite list_lookup_middle in Ek by by rewrite length_fmap.
        rewrite list_lookup_middle in Eka by by rewrite length_fmap. injection Ek as Ei Eb En. injection Eka as ->.
        split; [by rewrite Hkl, Hth|]. split; [lia|]. split; [|done]. rewrite Eb, take_ge; [done|]. rewrite length_app. cbn. lia.
    + rewrite length_app. cbn. lia.
    + rewrite length_app. cbn. lia.
    + rewrite !length_app. cbn. lia.
    + exists th', aho', l'. rewrite <-app_assoc in Hwt', Hacc'. by split_and!.
Qed.

Lemma word_texts_in ws l a t : word_texts ws l -> (a, t) ∈ l -> exists w, ws !! a = Some w /\ id t = Z.of_nat a /\
  len t = Z.of_nat (length w) /\ (Forall byte w -> spell t = w) /\ text_ok t.
Proof.
  intros [Hl Hw] [k Hk]%list_elem_of_lookup. destruct (lookup_lt_is_Some_2 ws k) as [w Hkw];
    [apply lookup_lt_Some in Hk; lia|]. destruct (Hw k w Hkw) as (t' & Hk' & E1 & E2 & E3).
  rewrite Hk in Hk'. injection Hk' as -> ->. exists w. split_and!; try done.
  - intros Hb. unfold spell. rewrite E2, E3, Nat2Z.id, take_app_length.
    unfold bytes_of. rewrite <-(map_id w) at 2. apply map_ext_in. intros x Hx%list_elem_of_In.
    rewrite Forall_forall in Hb. specialize (Hb x Hx). unfold byte in Hb. unfold u8. apply Z.mod_small. lia.
  - unfold text_ok. rewrite E2, E3, length_app. cbn. lia.
Qed.

Lemma aho_del_last_dangles_witness : exists th aho th' aho', add_all [] aho_init [[97]; [98]] = Ret (th, aho) /\
  aho_del_match_text th aho 1 = Ret (th', aho', true) /\ aho_create_trie th' aho' = UB.
Proof.
  destruct (add_all_ok [[97]; [98]]) as (th & aho & l & E & Ht & Hwt & _); [repeat constructor|done|].
  destruct (proj2 Hwt 1%nat [98] eq_refl) as (t & Hk & Eid & _). pose proof (proj1 Hwt) as Hl.
  destruct l as [|x [|y [|]]]; try discriminate Hl. injection Hk as ->.
  destruct (aho_del_last_dangles th aho [x] 1 t Ht) as (th' & aho' & E1 & E2); [done| |].
  - constructor; [|constructor]. destruct x as [b u]. destruct (word_texts_in _ _ b u Hwt) as (w & _ & _ & _ & _ & H); [by left|done].
  - rewrite Eid in E1. by exists th, aho, th', aho'.
Defined.

Lemma word_texts_total ws l : word_texts ws l -> total l = sum_list (length <$> ws).
Proof.
  intros [Hl Hw]. unfold total. f_equal. apply list_eq. intros k. rewrite !list_lookup_fmap.
  destruct (ws !! k) as [w|] eqn:E.
  - destruct (Hw k w E) as (t & -> & _ & E2 & E3). cbn. f_equal. unfold spell, bytes_of.
    rewrite E2, E3, Nat2Z.id, take_app_length. apply length_map.
  - apply lookup_ge_None in E. by rewrite (lookup_ge_None_2 l k) by lia.
Qed.

(** The prefixes of the words. *)
Definition prefixes (ws : list (list Z)) : list (list Z) := ws ≫= fun w => (fun k => take k w) <$> seq 0 (S (length w)).

(** Every byte of the words and one that none of them has. *)
Definition bytes_spare (b : Z) (ws : list (list Z)) : Prop := byte b /\ Forall (fun w => Forall byte w /\ b ∉ w) ws.

(** The heap and the trie a dictionary gives. *)
Lemma search_setup ws : words_ok ws -> exists th aho aho' qh strs l, add_all [] aho_init ws = Ret (th, aho) /\
  aho_create_trie th aho = Ret (aho', qh) /\ live qh = [] /\ word_texts ws l /\ ready th (aho_trie aho') strs l /\
  texts_ok th aho' l /\ accumulate_text_id aho' = Z.of_nat (length ws) /\ Z.of_nat (length strs) < 2 ^ 32 /\
  forall b, bytes_spare b ws -> shallow (prefixes ws) ->
    all_right (aho_trie aho') strs /\ forall s tp, final (aho_trie aho') strs s tp <-> exists a, tp = Some a /\ last_text l s = Some a.
Proof.
  intros (Hlw & Hn & Hsum). destruct (add_all_ok ws Hlw Hn) as (th & aho & l & E & Ht & Hwt & Hacc).
  assert (Hok : Forall (fun x => text_ok x.2) l).
  { apply Forall_forall. intros [a t] Hin. by destruct (word_texts_in _ _ _ _ Hwt Hin) as (w & _ & _ & _ & _ & ?). }
  destruct (create_ok th l [] (text_list_head aho) aho_init_trie [[]] (length th) (tx_stored _ _ _ Ht))
    as (h1 & strs & E1 & Hb & Hex); [apply linked_seg, Ht|done|apply built_init|by eapply texts_fuel|]. cbn [app] in Hb, Hex.
  assert (Hsmall : Z.of_nat (length strs) < 2 ^ 32).
  { pose proof (bu_count _ _ _ Hb) as Hc. rewrite (word_texts_total _ _ Hwt) in Hc. lia. }
  destruct (connect_ok strs (fun h R => shallow strs -> right h strs R)) with (h := h1) as (h' & qh & E2 & Hl & HP & Hrel & Hq).
  { intros h R p sp q c nq m o Hl HPh Hp HRp Hq Hnq HRq Hw HD Hs. by apply (right_set strs Hs h R p sp q c nq m o Hl (HPh Hs)). }
  { intros h R R' HR HPh Hs. by apply (right_ext strs h R R' HR), HPh. }
  { apply Hb. } { apply Hb. }
  { intros _ n s nd ->%list_elem_of_singleton Hs Hne. rewrite (to_root _ _ (bu_trie _ _ _ Hb)) in Hs. congruence. }
  { done. }
  assert (Hfin : forall s tp, final h' strs s tp <-> final h1 strs s tp).
  { intros s tp. apply relinked_final; [apply Hb|apply Hl|done]. }
  eexists th, aho, _, qh, strs, l. split; [done|].
  split; [unfold aho_create_trie; rewrite E1; bind; by rewrite E2|]. cbn [aho_trie]. split; [done|]. split; [done|]. split; [split; [done|apply Ht|]|].
  { intros s tp Hf. apply Hfin in Hf. by apply (bu_final _ _ _ Hb). }
  split; [by destruct Ht|]. split; [done|]. split; [done|].
  intros b [Hbyte Hws] Hsh. rewrite Forall_forall in Hws.
  assert (Hspell : forall a t, (a, t) ∈ l -> spell t ∈ ws).
  { intros a t Hin. destruct (word_texts_in _ _ _ _ Hwt Hin) as (w & Hw & _ & _ & Es & _).
    apply list_elem_of_lookup_2 in Hw. destruct (Hws w Hw) as [Hbw _]. by rewrite Es. }
  assert (Hpre : forall s, s ∈ strs -> s = [] \/ s ∈ prefixes ws).
  { intros s Hs. destruct (bu_strs _ _ _ Hb s Hs) as [->|(a & t & Hin & k & Hk & ->)]; [by left|right]. cbn [app].
    apply list_elem_of_bind. exists (spell t). split; [|by eapply Hspell]. apply list_elem_of_fmap. exists k. split; [done|].
    apply elem_of_seq. lia. }
  split.
  - apply HP. intros s u Hs Hu Hsu. destruct (Hpre u Hu) as [->|Hu']; [cbn; lia|]. destruct (Hpre s Hs) as [->|Hs'].
    + apply proper_length in Hsu. cbn in Hsu. lia.
    + by apply (Hsh s u).
  - intros s tp. rewrite Hfin. apply ex_final, Hex; [apply built_init|]. exists b. split; [done|]. intros a t Hin.
    by apply (Hws _ (Hspell a t Hin)).
Qed.

(** C22. Searching is safe for every dictionary and all data: the trie is built, its
    links are connected and the data is searched without an access outside the heaps,
    every loop ends, and each reported match carries the number and the length of a
    word. *)
Theorem aho_search_safe ws data : words_ok ws -> Z.of_nat (length data) <= AHO_MAX_TEXT_ID ->
  exists ms, aho_search ws data = Ret ms /\
    Forall (fun m => exists k w, ws !! k = Some w /\ m_id m = Z.of_nat k /\ m_len m = Z.of_nat (length w)) ms.
Proof.
  intros Hws Hd. destruct (search_setup ws Hws) as (th & aho & aho' & qh & strs & l & E1 & E2 & _ & Hwt & Hre & _).
  unfold aho_search. rewrite E1. bind. rewrite E2. bind. unfold aho_findtext, root.
  pose proof (to_root _ _ (lo_trie _ _ _ (re_links _ _ _ _ Hre))) as Hroot.
  destruct (find_loop_safe th _ strs l data Hre 0 0%nat [] Hroot) as (ms & -> & Hms); [lia|lia|]. bind.
  exists ms. split; [done|]. eapply Forall_impl; [exact Hms|]. cbn. intros m (a & t & Hin & -> & ->).
  destruct (word_texts_in _ _ _ _ Hwt Hin) as (w & Hw & -> & -> & _). by exists a, w.
Qed.

Lemma aho_search_safe_witness : words_ok [[98; 99; 101]; [97; 98; 99; 100]] /\
  exists ms, aho_search [[98; 99; 101]; [97; 98; 99; 100]] [97; 98; 99; 100; 101] = Ret ms.
Proof.
  assert (H : words_ok [[98; 99; 101]; [97; 98; 99; 100]]) by (split; [repeat constructor|done]).
  split; [done|]. destruct (aho_search_safe _ [97; 98; 99; 100; 101] H) as (ms & E & _); [done|by exists ms].
Defined.

(** *** The reference *)

Lemma last_text_spec l s : match last_text l s with
  | Some a => exists k t, l !! k = Some (a, t) /\ spell t = s /\ forall j b u, l !! j = Some (b, u) -> spell u = s -> (j <= k)%nat
  | None => forall j b u, l !! j = Some (b, u) -> spell u <> s
  end.
Proof.
  induction l as [|[a t] l IH] using rev_ind; [by intros j b u ?|]. rewrite last_text_snoc.
  destruct (decide (spell t = s)) as [Es|Es].
  - exists (length l), t. rewrite list_lookup_middle by done. split; [done|]. split; [done|]. intros j b u Hj _.
    apply lookup_lt_Some in Hj. rewrite length_app in Hj. cbn in Hj. lia.
  - destruct (last_text l s) as [c|].
    + destruct IH as (k & u & Hk & Eu & Hm). exists k, u. split; [by apply lookup_snoc_old|]. split; [done|].
      intros j b v [Hj|[-> [= -> ->]]]%lookup_snoc_inv Ev; [by eapply Hm|done].
    + intros j b v [Hj|[-> [= -> ->]]]%lookup_snoc_inv; [by eapply IH|done].
Qed.

(** The last text with a spelling is the last word. *)
Lemma last_word ws l s k : word_texts ws l -> Forall (fun w => Forall byte w) ws -> last_text l s = Some k <->
  ws !! k = Some s /\ forall j, ws !! j = Some s -> (j <= k)%nat.
Proof.
  intros Hwt Hb. rewrite Forall_forall in Hb. pose proof Hwt as [Hl Hw].
  assert (Hlw : forall j w, ws !! j = Some w -> exists t, l !! j = Some (j, t) /\ spell t = w).
  { intros j w Hj. destruct (Hw j w Hj) as (t & Ht & _). exists t. split; [done|].
    destruct (word_texts_in ws l j t Hwt) as (w' & Hw' & _ & _ & Es & _); [by eapply list_elem_of_lookup_2|].
    assert (w' = w) as -> by congruence. apply Es, Hb. by eapply list_elem_of_lookup_2. }
  assert (Hwl : forall j b u, l !! j = Some (b, u) -> b = j /\ ws !! j = Some (spell u)).
  { intros j b u Hj. destruct (lookup_lt_is_Some_2 ws j) as [w Hjw]; [apply lookup_lt_Some in Hj; lia|].
    destruct (Hlw j w Hjw) as (t & Ht & <-). rewrite Hj in Ht. by injection Ht as -> ->. }
  pose proof (last_text_spec l s) as Hs. destruct (last_text l s) as [a|]; split.
  - intros [= ->]. destruct Hs as (k' & t & Hk & Es & Hm). destruct (Hwl _ _ _ Hk) as [-> Hkw]. split; [congruence|].
    intros j Hj. destruct (Hlw j s Hj) as (u & Hu & Eu). by eapply Hm.
  - intros [Hk Hm]. destruct Hs as (k' & t & Hk' & Es & Hm'). destruct (Hwl _ _ _ Hk') as [-> Hkw].
    f_equal. apply Nat.le_antisymm; [apply Hm; congruence|]. destruct (Hlw k s Hk) as (u & Hu & Eu). by eapply Hm'.
  - done.
  - intros [Hk _]. destruct (Hlw k s Hk) as (u & Hu & Eu). by apply Hs in Hu.
Qed.

(** What a report is, in terms of the words. *)
Lemma report_best ws h strs l d r : word_texts ws l -> Forall (fun w => Forall byte w) ws ->
  (forall s tp, final h strs s tp <-> exists a, tp = Some a /\ last_text l s = Some a) -> report_right h strs d r ->
  match r with
  | Some k => exists w, best ws d = Some (k, w) /\ ws !! k = Some w
  | None => best ws d = None
  end.
Proof.
  intros Hwt Hb Hf Hr. assert (Hword : forall s k, s <> [] -> ws !! k = Some s -> word h strs s).
  { intros s k Hs Hk. split; [done|]. pose proof (last_text_spec l s) as Hl. destruct (last_text l s) as [a|] eqn:E.
    - exists (Some a). apply Hf. by exists a.
    - exfalso. destruct Hwt as [Hlen Hw]. destruct (Hw k s Hk) as (t & Ht & _).
      destruct (word_texts_in ws l k t) as (w & Hkw & _ & _ & Es & _); [done|by eapply list_elem_of_lookup_2|].
      apply (Hl k k t Ht). assert (w = s) as -> by congruence. apply Es. rewrite Forall_forall in Hb.
      apply Hb. by eapply list_elem_of_lookup_2. }
  destruct Hr as [(u & tp & ([Hu0 _] & Hud & Humax) & Hfu & ->)|[Hno ->]].
  - apply Hf in Hfu as (k & -> & Hk). apply (last_word ws l u k Hwt Hb) in Hk as [Hk Hkm]. exists u. split; [|done].
    apply (best_unique ws d); [apply best_spec|]. split_and!; try done. intros j v Hj Hv Hvd.
    pose proof (Humax v (Hword v j Hv Hj) Hvd) as Hle. destruct (decide (length v = length u)) as [E|]; [right|left; lia].
    split; [done|]. apply Hkm. by rewrite <-(suffix_same v u d Hvd Hud E).
  - apply (best_unique ws d _ None); [apply best_spec|]. intros j v Hj Hv. apply Hno. by eapply Hword.
Qed.

Lemma match_at_pos i t (w d : list Z) : len t = Z.of_nat (length w) -> w `suffix_of` d -> i + 1 = Z.of_nat (length d) -> 0 <= i < 2 ^ 31 ->
  match_at i t = Match (id t) (Z.of_nat (length d) - Z.of_nat (length w)) (Z.of_nat (length w)).
Proof.
  intros Hl Hs Hi Hb. assert (Hle : (length w <= length d)%nat) by by apply suffix_length.
  unfold match_at, u64. rewrite Hl. destruct (Z.eqb_spec (Z.of_nat (length w)) 1) as [E|E]; rewrite Z.mod_small by lia; f_equal; lia.
Qed.

Lemma find_loop_right ws th h strs l data : word_texts ws l -> Forall (fun w => Forall byte w) ws -> ready th h strs l ->
  all_right h strs -> (forall s tp, final h strs s tp <-> exists a, tp = Some a /\ last_text l s = Some a) ->
  forall d n s, strs !! n = Some s -> longest_suffix (fun v => v ∈ strs) d s ->
  Z.of_nat (length d) + Z.of_nat (length data) <= AHO_MAX_TEXT_ID ->
  find_loop th h data (Z.of_nat (length d)) (Some n) = Ret (reference ws d data).
Proof.
  intros Hwt Hb Hre Hall Hf. induction data as [|c data IH]; intros d n s Hs Hlong Hlen; cbn [find_loop reference]; [done|].
  cbn [length] in Hlen. unfold AHO_MAX_TEXT_ID in Hlen. destruct (find_fuel _ _ _ _ n s (u8 c) Hre Hs) as (m & w & r & -> & Hm & Hft). bind.
  rewrite (proj2 (Z.eqb_neq _ _)) by (unfold AHO_MAX_TEXT_ID; lia).
  destruct (find_right h strs (u8 c) d n m r s (re_links _ _ _ _ Hre) Hall Hft Hs (proj1 (proj2 Hlong))) as (w' & Hw' & Hlong' & Hrep).
  { intros v Hv Hvd. apply Hlong; [|done]. eapply prefix_in; [|done]. apply Hre. }
  assert (w' = w) as -> by congruence. set (d' := d ++ [u8 c]) in *.
  assert (Hd' : Z.of_nat (length d') = Z.of_nat (length d) + 1) by (unfold d'; rewrite length_app; cbn; lia).
  assert (IH' := IH d' m w Hm Hlong' ltac:(unfold AHO_MAX_TEXT_ID; lia)). rewrite Hd' in IH'.
  pose proof (report_best ws h strs l d' r Hwt Hb Hf Hrep) as Hbest. destruct r as [k|].
  - destruct Hbest as (u & -> & Hk). destruct (proj2 Hwt k u Hk) as (t & Ht & Eid & _ & El).
    rewrite (load_ok _ k t) by (apply (re_stored _ _ _ _ Hre); by eapply list_elem_of_lookup_2). bind. rewrite IH'. bind.
    assert (Hud : u `suffix_of` d').
    { destruct Hrep as [(u' & tp & (_ & Hud & _) & Hfu & E)|[_ E]]; [|done]. apply Hf in Hfu as (a & -> & Ha). injection E as <-.
      apply (last_word ws l u' k Hwt Hb) in Ha as [Ha _]. assert (u' = u) as -> by congruence. done. }
    do 2 f_equal. rewrite (match_at_pos _ t u d' El Hud) by lia. by rewrite Eid.
  - by rewrite Hbest.
Qed.

(** C21. On a shallow dictionary, one where the failure links lead no deeper than the
    children of the root, the search is the reference search: at each position of the
    data it reports the longest word that ends there, under the number of its last
    occurrence in the dictionary, and nothing else. *)
Theorem aho_search_reference ws data b : words_ok ws -> bytes_spare b ws -> shallow (prefixes ws) ->
  Z.of_nat (length data) <= AHO_MAX_TEXT_ID -> aho_search ws data = Ret (reference ws [] data).
Proof.
  intros Hws Hb Hsh Hd. destruct (search_setup ws Hws) as (th & aho & aho' & qh & strs & l & E1 & E2 & _ & Hwt & Hre & _ & _ & _ & Hx).
  destruct (Hx b Hb Hsh) as [Hall Hf]. unfold aho_search. rewrite E1. bind. rewrite E2. bind. unfold aho_findtext, root.
  pose proof (to_root _ _ (lo_trie _ _ _ (re_links _ _ _ _ Hre))) as Hroot.
  rewrite (find_loop_right ws th _ strs l data Hwt) with (d := []) (s := []); try done.
  - eapply Forall_impl; [apply Hb|]. by intros w [? _].
  - apply longest_suffix_nil. by eapply list_elem_of_lookup_2.
Qed.

#[export] Instance proper_suffix_dec u s : Decision (proper_suffix u s).
Proof. unfold proper_suffix. apply _. Defined.

Definition shallowb (strs : list (list Z)) : bool :=
  forallb (fun s => forallb (fun u => negb (bool_decide (proper_suffix u s)) || (length u <=? 1)%nat) strs) strs.

Lemma shallowb_spec strs : shallowb strs = true -> shallow strs.
Proof.
  unfold shallowb. rewrite forallb_forall. intros H s u Hs Hu Hp.
  specialize (H s (proj1 (list_elem_of_In _ _) Hs)). rewrite forallb_forall in H.
  specialize (H u (proj1 (list_elem_of_In _ _) Hu)). rewrite (bool_decide_eq_true_2 _ Hp) in H. by apply Nat.leb_le in H.
Qed.

(** The dictionary of the program's own sample: "ab", "c", "a", "acd". *)
Definition sample : list (list Z) := [[97; 98]; [99]; [97]; [97; 99; 100]].

Lemma aho_search_reference_witness : shallow (prefixes sample) /\
  aho_search sample [100; 97; 98; 99; 97; 99; 100; 102; 99] = Ret (reference sample [] [100; 97; 98; 99; 97; 99; 100; 102; 99]).
Proof.
  assert (Hs : shallow (prefixes sample)) by (apply shallowb_spec; vm_compute; reflexivity). split; [done|].
  apply (aho_search_reference sample _ 0); [split; [repeat constructor|done]| |done|done]. split; [done|].
  repeat (constructor; [split; [repeat constructor; done|set_solver]|]). constructor.
Defined.

(** The queue of the breadth-first walk is a stack, so the links of deeper nodes are
    set too early: with the words "bce" and "abcd" the search reports "bce" at position
    2 of "abcde", where it does not occur. *)
Theorem aho_search_false_match :
  aho_search [[98; 99; 101]; [97; 98; 99; 100]] [97; 98; 99; 100; 101] = Ret [Match 1 0 4; Match 0 2 3] /\
  reference [[98; 99; 101]; [97; 98; 99; 100]] [] [97; 98; 99; 100; 101] = [Match 1 0 4] /\
  take 3 (drop 2 [97; 98; 99; 100; 101]) <> [98; 99; 101].
Proof. split; [vm_compute; reflexivity|]. split; [vm_compute; reflexivity|discriminate]. Qed.

(** ** Giving everything back *)

Lemma enqueue_all_ok cs : forall qh que todo, stacked qh que (Some <$> todo) -> Z.of_nat (length todo + length cs) < 2 ^ 32 ->
  exists qh' que', enqueue_all qh que cs = Ret (qh', que') /\ stacked qh' que' (Some <$> reverse cs ++ todo).
Proof.
  induction cs as [|c cs IH]; intros qh que todo Hq Hb; cbn [enqueue_all length] in *; [by exists qh, que|].
  destruct (enqueue_stacked qh que (Some <$> todo) (Some c) Hq) as (qh1 & que1 & -> & Hq1); [rewrite length_fmap; lia|]. bind.
  destruct (IH qh1 que1 (c :: todo) Hq1) as (qh' & que' & E & Hq'); [cbn [length]; lia|]. exists qh', que'.
  by rewrite reverse_cons, <-app_assoc.
Qed.

(** The trie without the nodes taken so far, the root apart. *)
Definition cleaned (h hc : trie) (taken : list nat) : Prop :=
  forall n nd, at_addr hc n nd <-> at_addr h n nd /\ (n = 0%nat \/ n ∉ taken).

Lemma clean_ok h strs : trie_ok h strs -> Z.of_nat (length strs) < 2 ^ 32 ->
  forall fuel hc qh que taken todo, order_ok strs taken todo -> cleaned h hc taken -> stacked qh que (Some <$> todo) ->
  (length strs <= length taken + fuel)%nat ->
  exists h' qh', clean_loop fuel hc qh que = Ret (h', qh') /\ live h' = [0%nat] /\ live qh' = [].
Proof.
  intros Hok Hsmall. induction fuel as [|fuel IH]; intros hc qh que taken [|p todo] Ho Hc Hq Hf; cbn [clean_loop].
  1,3: rewrite (take_empty _ _ Hq); bind; exists hc, qh; (split; [done|]); pose proof (order_all h strs taken Hok Ho) as Hall;
    (split; [apply Permutation_length_1_inv; symmetry; apply live_ext; [apply NoDup_singleton|]; intros a;
       rewrite list_elem_of_singleton; split;
       [intros ->; destruct (to_node _ _ Hok _ _ (to_root _ _ Hok)) as (nd & Hn & _); exists nd; apply Hc; auto
       |intros [nd [Hn [->|Hnt]]%Hc]; [done|]; destruct (trie_addr _ _ _ _ Hok Hn) as (s & Hs & _); by apply Hall in Hs]|];
     destruct (st_nodes _ _ _ Hq) as (ps & Hch & Hl); destruct ps; [by apply Permutation_nil_r|done]).
  - exfalso. pose proof (count_le strs _ (oo_nodup _ _ _ Ho) (oo_bound _ _ _ Ho)) as Hlen.
    rewrite length_app in Hlen. cbn [length] in Hlen. lia.
  - destruct (take_stacked _ _ _ _ Hq) as (qh1 & que1 & -> & Hq1). bind.
    pose proof (oo_bound _ _ _ Ho p ltac:(set_solver)) as Hp. apply lookup_lt_is_Some in Hp as [sp Hp].
    destruct (to_node _ _ Hok _ _ Hp) as (nd & Hnd & Hno).
    pose proof (oo_nodup _ _ _ Ho) as Hnd'. apply NoDup_app in Hnd' as (_ & Hd & _).
    assert (Hpt : p ∉ taken) by (intros Hin; apply (Hd p Hin); by left).
    assert (Hpc : at_addr hc p nd) by (apply Hc; auto). rewrite (load_ok _ _ _ Hpc). bind.
    destruct (order_take strs taken p todo (reverse (child_list nd)) sp Ho (to_nodup _ _ Hok) Hp) as [Ho1 _];
      [rewrite reverse_Permutation; apply Hno|intros c; rewrite elem_of_reverse; by apply (no_children _ _ _ Hno)|].
    pose proof (count_le strs _ (oo_nodup _ _ _ Ho1) (oo_bound _ _ _ Ho1)) as Hlen.
    rewrite !length_app, length_reverse in Hlen. cbn [length] in Hlen.
    destruct (enqueue_all_ok (child_list nd) qh1 que1 todo Hq1) as (qh2 & que2 & -> & Hq2); [lia|]. bind.
    destruct (no_parent _ _ _ Hno) as [[-> ->]|(s0 & m & Es & -> & _)]; cbn [is_null].
    + apply (IH hc qh2 que2 (p :: taken) (reverse (child_list nd) ++ todo)); try done; [|cbn [length]; lia].
      assert (p = 0%nat) as -> by (eapply trie_inj; [done..|apply Hok]). intros n x. rewrite (Hc n x), not_elem_of_cons. destruct (decide (n = 0%nat)); naive_solver.
    + rewrite (dispose_ok _ _ _ Hpc). bind.
      apply (IH _ qh2 que2 (p :: taken) (reverse (child_list nd) ++ todo)); try done; [|cbn [length]; lia].
      assert (Hp0 : p <> 0%nat) by (intros ->; rewrite (to_root _ _ Hok) in Hp; injection Hp as <-; by destruct s0).
      intros n x. destruct (decide (p = n)) as [<-|Hne].
      * split; [intros Hx; by apply at_freed in Hx|]. intros [_ [?|Hn]]; [done|]. exfalso. apply Hn. by left.
      * rewrite at_insert_ne, (Hc n x), not_elem_of_cons by done. naive_solver.
Qed.

Lemma clear_ok k : forall i th aho l, texts_ok th aho l -> ids l = seqZ i (Z.of_nat k) ->
  exists th' aho', clear_loop k i th aho = Ret (th', aho') /\ live th' = [] /\ aho_trie aho' = aho_trie aho.
Proof.
  induction k as [|k IH]; intros i th aho l Ht Hi; cbn [clear_loop].
  - exists th, aho. split; [done|]. split; [|done]. destruct l; [|done]. apply Permutation_nil_r.
    rewrite (live_ext th []); [done|constructor|]. intros a. split; [by intros ?%not_elem_of_nil|].
    intros [t Ha]. by apply (tx_live _ _ _ Ht) in Ha.
  - rewrite seqZ_cons in Hi by lia. destruct l as [|[a t] l]; [done|]. injection Hi as Et Hi.
    assert (Edel := del_found _ _ [] _ _ _ Ht). rewrite Et in Edel. rewrite Edel.
    destruct (remove_head _ _ _ _ _ Ht) as (th1 & aho1 & -> & Ht1 & _ & Etr). bind. rewrite <-Etr. apply (IH _ _ _ l Ht1).
    rewrite Hi. f_equal; lia.
Qed.

(** C19. Everything is given back: after the trie of any dictionary within the size limits
    is built, [aho_destroy] frees every text, every node but the root, which is part of the
    struct, and every node of its queue, each exactly once. *)
Theorem aho_destroy_frees ws : words_ok ws ->
  exists th aho aho' qh, add_all [] aho_init ws = Ret (th, aho) /\ aho_create_trie th aho = Ret (aho', qh) /\ live qh = [] /\
  exists th' aho'' qh', aho_destroy th aho' = Ret (th', aho'', qh') /\
    live th' = [] /\ live (aho_trie aho'') = [0%nat] /\ live qh' = [].
Proof.
  intros Hws. destruct (search_setup ws Hws) as (th & aho & aho' & qh & strs & l & E1 & E2 & Hq & Hwt & Hre & Ht & Hacc & Hs & _).
  exists th, aho, aho', qh. split; [done|]. split; [done|]. split; [done|]. unfold aho_destroy, aho_clear_match_text.
  rewrite Hacc, Nat2Z.id. destruct (clear_ok (length ws) 0 th aho' l Ht) as (th' & aho1 & -> & Hlive & Etr).
  { destruct Hwt as [Hl Hw]. apply list_eq. intros k. unfold ids. rewrite list_lookup_fmap.
    destruct (ws !! k) as [w|] eqn:Ek.
    - destruct (Hw k w Ek) as (t & -> & E & _). cbn. rewrite E, lookup_seqZ_lt by (apply lookup_lt_Some in Ek; lia). f_equal; lia.
    - apply lookup_ge_None in Ek. rewrite lookup_seqZ_ge by lia. by rewrite (lookup_ge_None_2 l k) by lia. }
  bind. unfold aho_clear_trie, aho_destroy_trie, aho_clean_trie_node. cbn [aho_trie]. rewrite Etr.
  pose proof (lo_trie _ _ _ (re_links _ _ _ _ Hre)) as Hok.
  destruct (enqueue_stacked [] aho_queue_init [] root init_stacked) as (qh0 & que0 & -> & Hq0); [done|]. bind.
  destruct (clean_ok _ strs Hok Hs (length (aho_trie aho')) (aho_trie aho') qh0 que0 [] [0%nat]) as (h' & qh' & -> & Hh & Hqh).
  - apply order_init; apply Hok.
  - intros n nd. split; [|by intros [? _]]. intros Hn. split; [done|]. right. by intros ?%not_elem_of_nil.
  - done.
  - cbn [length]. by rewrite (to_len _ _ Hok).
  - bind. by eexists th', _, qh'.
Qed.

Lemma aho_destroy_frees_witness : words_ok sample /\ exists th aho aho' qh, add_all [] aho_init sample = Ret (th, aho) /\
  aho_create_trie th aho = Ret (aho', qh) /\ exists th' aho'' qh', aho_destroy th aho' = Ret (th', aho'', qh') /\ live th' = [].
Proof.
  assert (H : words_ok sample) by (split; [repeat constructor|done]). split; [done|].
  destruct (aho_destroy_frees sample H) as (th & aho & aho' & qh & E1 & E2 & _ & th' & aho'' & qh' & E3 & Hl & _).
  exists th, aho, aho', qh. split; [done|]. split; [done|]. by exists th', aho'', qh'.
Defined.
