(* ===== verification/PoolQueue.v ===== *)
(** Component: the ring queue of src/c-study/cthreadpool/threadpool.c.  It is
    refined to a bounded first-in first-out list: a ghost list that the ring
    represents, one lemma for each operation, and a simulation over sequences of
    operations. *)
From S2P Require Import Prelude Arrays Bits.

(** ** The code *)

Definition THREAD_POOL_QUEUE_SIZE : Z := 10000.

(** A cell holds a task pointer, given by its index, or null. *)
Record threadpool_queue := Queue { head : Z; tail : Z; num_of_cells : Z; cells : list (option nat) }.

(** [queue->cells[i]] and [queue->cells[i] = v]. *)
Definition get_cell (q : threadpool_queue) (i : Z) : res (option nat) :=
  if i <? 0 then UB else oget (cells q !! Z.to_nat i).
Definition set_cell (q : threadpool_queue) (i : Z) (v : option nat) : res (list (option nat)) :=
  if (i <? 0) || (Z.of_nat (length (cells q)) <=? i) then UB else Ret (<[Z.to_nat i := v]> (cells q)).

(** [threadpool_queue_init]: what the structure held before does not matter. *)
Definition threadpool_queue_init : threadpool_queue :=
  Queue 0 0 0 (replicate (Z.to_nat THREAD_POOL_QUEUE_SIZE) None).

(** [threadpool_queue_enqueue(queue, data)]: the queue and the result. *)
Definition threadpool_queue_enqueue (q : threadpool_queue) (data : option nat) : res (threadpool_queue * Z) :=
  if num_of_cells q =? THREAD_POOL_QUEUE_SIZE then Ret (q, -1)
  else
    c ← get_cell q (tail q);
    match c with
    | Some _ => Ret (q, -1)
    | None =>
      cs ← set_cell q (tail q) data;
      let tl := u32 (tail q + 1) in
      Ret (Queue (head q) (if tl =? THREAD_POOL_QUEUE_SIZE then 0 else tl) (u32 (num_of_cells q + 1)) cs, 0)
    end.

(** [threadpool_queue_dequeue(queue)]: the queue and the data, null on failure. *)
Definition threadpool_queue_dequeue (q : threadpool_queue) : res (threadpool_queue * option nat) :=
  if num_of_cells q =? 0 then Ret (q, None)
  else
    data ← get_cell q (head q);
    cs ← set_cell q (head q) None;
    let n := u32 (num_of_cells q - 1) in
    if n =? 0 then Ret (Queue 0 0 n cs, data)
    else
      let hd := u32 (head q + 1) in
      Ret (Queue (if hd =? THREAD_POOL_QUEUE_SIZE then 0 else hd) (tail q) n cs, data).

Definition threadpool_queue_is_empty (q : threadpool_queue) : bool := num_of_cells q =? 0.

(** The size is returned through an [int]. *)
Definition threadpool_queue_getsize (q : threadpool_queue) : Z := num_of_cells q.

(** ** What a ring represents *)

(** The index [k] cells after the head. *)
Definition slot (q : threadpool_queue) (k : nat) : Z := (head q + Z.of_nat k) mod THREAD_POOL_QUEUE_SIZE.

(** [holds q l]: the cells from the head on hold [l], the others are null. *)
Record holds (q : threadpool_queue) (l : list nat) : Prop := Holds {
  ho_cells : Z.of_nat (length (cells q)) = THREAD_POOL_QUEUE_SIZE;
  ho_head : 0 <= head q < THREAD_POOL_QUEUE_SIZE;
  ho_num : num_of_cells q = Z.of_nat (length l);
  ho_size : Z.of_nat (length l) <= THREAD_POOL_QUEUE_SIZE;
  ho_tail : tail q = slot q (length l);
  ho_full : forall k x, l !! k = Some x -> cells q !! Z.to_nat (slot q k) = Some (Some x);
  ho_free : forall i, 0 <= i < THREAD_POOL_QUEUE_SIZE ->
    (forall k, (k < length l)%nat -> i <> slot q k) -> cells q !! Z.to_nat i = Some None
}.

Lemma size_value : THREAD_POOL_QUEUE_SIZE = 10000.
Proof. done. Qed.

#[global] Opaque THREAD_POOL_QUEUE_SIZE.

Ltac size := pose proof size_value.

Lemma slot_range q k : 0 <= slot q k < THREAD_POOL_QUEUE_SIZE.
Proof. size. apply Z.mod_pos_bound. lia. Qed.

(** Different positions of a ring that is not longer than its array are different
    cells. *)
Lemma slot_inj q i j : Z.of_nat i < THREAD_POOL_QUEUE_SIZE -> Z.of_nat j < THREAD_POOL_QUEUE_SIZE ->
  slot q i = slot q j -> i = j.
Proof.
  size. unfold slot. intros Hi Hj E.
  pose proof (Z.div_mod (head q + Z.of_nat i) THREAD_POOL_QUEUE_SIZE ltac:(lia)) as E1.
  pose proof (Z.div_mod (head q + Z.of_nat j) THREAD_POOL_QUEUE_SIZE ltac:(lia)) as E2.
  rewrite E in E1. nia.
Qed.

(** The next cell, with the wrap at the end of the array. *)
Lemma wrap_succ x : 0 <= x < THREAD_POOL_QUEUE_SIZE ->
  (if u32 (x + 1) =? THREAD_POOL_QUEUE_SIZE then 0 else u32 (x + 1)) = (x + 1) mod THREAD_POOL_QUEUE_SIZE.
Proof.
  size. intros Hx. unfold u32. rewrite (Z.mod_small _ (2 ^ 32)) by lia.
  destruct (Z.eqb_spec (x + 1) THREAD_POOL_QUEUE_SIZE) as [->|]; [by rewrite Z.mod_same by lia|].
  rewrite Z.mod_small; lia.
Qed.

Lemma slot_succ q k : (slot q k + 1) mod THREAD_POOL_QUEUE_SIZE = slot q (S k).
Proof. unfold slot. rewrite Zplus_mod_idemp_l. f_equal. lia. Qed.

Lemma get_cell_ok q l i : holds q l -> 0 <= i < THREAD_POOL_QUEUE_SIZE ->
  exists c, get_cell q i = Ret c /\ cells q !! Z.to_nat i = Some c.
Proof.
  intros Hq Hi. pose proof (ho_cells _ _ Hq). destruct (lookup_lt_is_Some_2 (cells q) (Z.to_nat i)) as [c Hc]; [lia|].
  exists c. unfold get_cell. by rewrite (proj2 (Z.ltb_ge _ _)), Hc by lia.
Qed.

Lemma ring_set_cell_ok q l i v : holds q l -> 0 <= i < THREAD_POOL_QUEUE_SIZE ->
  set_cell q i v = Ret (<[Z.to_nat i := v]> (cells q)).
Proof.
  intros Hq Hi. pose proof (ho_cells _ _ Hq). unfold set_cell.
  by rewrite (proj2 (Z.ltb_ge _ _)), (proj2 (Z.leb_gt _ _)) by lia.
Qed.

Lemma lookup_insert_z (cs : list (option nat)) i j v : 0 <= i < Z.of_nat (length cs) -> 0 <= j ->
  <[Z.to_nat i := v]> cs !! Z.to_nat j = if i =? j then Some v else cs !! Z.to_nat j.
Proof.
  intros Hi Hj. destruct (Z.eqb_spec i j) as [->|Hne]; [by rewrite list_lookup_insert_eq by lia|].
  rewrite list_lookup_insert_ne by lia. done.
Qed.

Lemma init_holds : holds threadpool_queue_init [].
Proof.
  size. unfold threadpool_queue_init. constructor; cbn [cells head tail num_of_cells length].
  - rewrite length_replicate. lia.
  - lia.
  - reflexivity.
  - lia.
  - unfold slot. cbn [head]. symmetry. apply Z.mod_small. lia.
  - intros k x Hk. by rewrite lookup_nil in Hk.
  - intros i Hi _. apply lookup_replicate_2. lia.
Qed.

(** ** The operations *)

Lemma enqueue_spec q l x : holds q l -> Z.of_nat (length l) < THREAD_POOL_QUEUE_SIZE ->
  exists q', threadpool_queue_enqueue q (Some x) = Ret (q', 0) /\ holds q' (l ++ [x]).
Proof.
  size. intros Hq Hl. pose proof (slot_range q (length l)) as Ht. destruct Hq as [Hc Hh Hn Hs Htl Hf He] eqn:Eq.
  unfold threadpool_queue_enqueue. rewrite Hn, (proj2 (Z.eqb_neq _ _)) by lia. rewrite Htl.
  destruct (get_cell_ok q l (slot q (length l)) Hq Ht) as (c & -> & Hcell). bind.
  rewrite He in Hcell; [|done|]. 2:{ intros k Hk E. apply slot_inj in E; lia. }
  injection Hcell as <-. rewrite (ring_set_cell_ok q l) by done. bind. rewrite wrap_succ, slot_succ by done.
  assert (Hn' : u32 (Z.of_nat (length l) + 1) = Z.of_nat (length (l ++ [x]))).
  { rewrite length_app. unfold u32. rewrite Z.mod_small; simpl; lia. }
  rewrite Hn'. eexists. split; [done|]. set (q' := Queue _ _ _ _).
  assert (Hslot : forall k, slot q' k = slot q k) by done.
  constructor; cbn [head tail num_of_cells cells q']; rewrite ?length_insert; try done.
  - rewrite length_app. simpl. lia.
  - rewrite Hslot, length_app. do 2 f_equal. simpl. lia.
  - intros k y Hk. rewrite Hslot, lookup_insert_z by (pose proof (slot_range q k); lia).
    pose proof (lookup_lt_Some _ _ _ Hk) as Hkl. rewrite length_app in Hkl. simpl in Hkl.
    destruct (Z.eqb_spec (slot q (length l)) (slot q k)) as [E|E].
    + apply slot_inj in E; [|lia..]. subst k. rewrite list_lookup_middle in Hk by done. congruence.
    + apply Hf. rewrite lookup_app_l in Hk; [done|]. destruct (decide (k = length l)) as [->|]; [done|lia].
  - intros i Hi Hk. rewrite lookup_insert_z by lia.
    destruct (Z.eqb_spec (slot q (length l)) i) as [E|E].
    + exfalso. apply (Hk (length l)); [rewrite length_app; simpl; lia|]. by rewrite Hslot.
    + apply He; [done|]. intros k Hkl. rewrite <-Hslot. apply Hk. rewrite length_app. lia.
Qed.

Lemma enqueue_full q l x : holds q l -> Z.of_nat (length l) = THREAD_POOL_QUEUE_SIZE ->
  threadpool_queue_enqueue q x = Ret (q, -1).
Proof. intros Hq Hl. unfold threadpool_queue_enqueue. by rewrite (ho_num _ _ Hq), Hl, Z.eqb_refl. Qed.

Lemma dequeue_empty q : holds q [] -> threadpool_queue_dequeue q = Ret (q, None).
Proof. intros Hq. unfold threadpool_queue_dequeue. by rewrite (ho_num _ _ Hq). Qed.

Lemma dequeue_spec q x l : holds q (x :: l) ->
  exists q', threadpool_queue_dequeue q = Ret (q', Some x) /\ holds q' l.
Proof.
  size. intros Hq. pose proof (slot_range q 0) as Ht. destruct Hq as [Hc Hh Hn Hs Htl Hf He] eqn:Eq.
  assert (E0 : slot q 0 = head q) by (unfold slot; rewrite Z.add_0_r; apply Z.mod_small; lia).
  unfold threadpool_queue_dequeue. rewrite Hn, (proj2 (Z.eqb_neq _ _)) by (simpl; lia).
  destruct (get_cell_ok q (x :: l) (head q) Hq Hh) as (c & -> & Hcell). bind.
  rewrite <-E0, (Hf 0%nat x eq_refl) in Hcell. injection Hcell as <-.
  rewrite (ring_set_cell_ok q (x :: l)) by done. bind.
  assert (Hn' : u32 (Z.of_nat (length (x :: l)) - 1) = Z.of_nat (length l)).
  { simpl length in Hs |- *. unfold u32. rewrite Z.mod_small; lia. }
  rewrite Hn'. assert (Hcells : forall i, 0 <= i < THREAD_POOL_QUEUE_SIZE ->
    (forall k, (k < length l)%nat -> i <> slot q (S k)) ->
    <[Z.to_nat (head q) := None]> (cells q) !! Z.to_nat i = Some None).
  { intros i Hi Hk. rewrite lookup_insert_z by lia. destruct (Z.eqb_spec (head q) i) as [|Hne]; [done|].
    apply He; [done|]. intros [|k] Hkl; [congruence|]. apply Hk. simpl in Hkl. lia. }
  destruct (Z.eqb_spec (Z.of_nat (length l)) 0) as [Hz|Hz].
  - assert (l = []) as -> by (destruct l; [done|simpl in Hz; lia]). eexists. split; [done|].
    constructor; cbn [head tail num_of_cells cells length]; rewrite ?length_insert; try done; try lia.
    intros i Hi _. apply Hcells; [done|]. intros k Hk. simpl in Hk. lia.
  - rewrite wrap_succ by done. eexists. split; [done|]. set (q' := Queue _ _ _ _).
    assert (Hslot : forall k, slot q' k = slot q (S k)).
    { intros k. unfold slot. cbn [head q']. rewrite Zplus_mod_idemp_l. f_equal. lia. }
    constructor; cbn [head tail num_of_cells cells q']; rewrite ?length_insert; try done.
    + size. apply Z.mod_pos_bound. lia.
    + simpl length in Hs. lia.
    + by rewrite Hslot.
    + intros k y Hk. pose proof (lookup_lt_Some _ _ _ Hk). simpl length in Hs.
      rewrite Hslot, lookup_insert_z by (pose proof (slot_range q (S k)); lia).
      destruct (Z.eqb_spec (head q) (slot q (S k))) as [E|E]; [|by apply Hf].
      rewrite <-E0 in E. apply slot_inj in E; [|lia..]. lia.
    + intros i Hi Hk. apply Hcells; [done|]. intros k Hkl. rewrite <-Hslot. by apply Hk.
Qed.

Lemma empty_spec q l : holds q l -> threadpool_queue_is_empty q = match l with [] => true | _ => false end.
Proof.
  intros Hq. unfold threadpool_queue_is_empty. rewrite (ho_num _ _ Hq). destruct l; [done|].
  by rewrite (proj2 (Z.eqb_neq _ _)) by (simpl; lia).
Qed.

(** ** Refinement of a bounded first-in first-out queue *)

Inductive qop := Enq (x : nat) | Deq | IsEmpty | GetSize.
Inductive qout := OInt (z : Z) | OPtr (p : option nat) | OBool (b : bool).

Definition ring_op (q : threadpool_queue) (o : qop) : res (threadpool_queue * qout) :=
  match o with
  | Enq x => '(q, r) ← threadpool_queue_enqueue q (Some x); Ret (q, OInt r)
  | Deq => '(q, r) ← threadpool_queue_dequeue q; Ret (q, OPtr r)
  | IsEmpty => Ret (q, OBool (threadpool_queue_is_empty q))
  | GetSize => Ret (q, OInt (threadpool_queue_getsize q))
  end.

(** The abstract queue: a list of at most [THREAD_POOL_QUEUE_SIZE] elements. *)
Definition fifo_op (l : list nat) (o : qop) : list nat * qout :=
  match o with
  | Enq x => if Z.of_nat (length l) =? THREAD_POOL_QUEUE_SIZE then (l, OInt (-1)) else (l ++ [x], OInt 0)
  | Deq => match l with [] => ([], OPtr None) | x :: l' => (l', OPtr (Some x)) end
  | IsEmpty => (l, OBool (match l with [] => true | _ => false end))
  | GetSize => (l, OInt (Z.of_nat (length l)))
  end.

Fixpoint ring_run (q : threadpool_queue) (os : list qop) : res (threadpool_queue * list qout) :=
  match os with
  | [] => Ret (q, [])
  | o :: os => '(q, r) ← ring_op q o; '(q, rs) ← ring_run q os; Ret (q, r :: rs)
  end.

Fixpoint fifo_run (l : list nat) (os : list qop) : list nat * list qout :=
  match os with
  | [] => (l, [])
  | o :: os => let '(l, r) := fifo_op l o in let '(l, rs) := fifo_run l os in (l, r :: rs)
  end.

Lemma ring_op_refines q l o : holds q l ->
  exists q', ring_op q o = Ret (q', (fifo_op l o).2) /\ holds q' (fifo_op l o).1.
Proof.
  intros Hq. pose proof (ho_size _ _ Hq). destruct o as [x| | |]; cbn [ring_op fifo_op].
  - destruct (Z.eqb_spec (Z.of_nat (length l)) THREAD_POOL_QUEUE_SIZE) as [E|E].
    + rewrite (enqueue_full q l) by done. by exists q.
    + destruct (enqueue_spec q l x Hq) as (q' & -> & Hq'); [lia|]. by exists q'.
  - destruct l as [|x l]; [rewrite dequeue_empty by done; by exists q|].
    destruct (dequeue_spec q x l Hq) as (q' & -> & Hq'). by exists q'.
  - rewrite (empty_spec q l Hq). by exists q.
  - unfold threadpool_queue_getsize. rewrite (ho_num _ _ Hq). by exists q.
Qed.

(** The ring is a bounded queue: from the initial queue, every sequence of
    operations stays inside the array of cells and answers as a first-in first-out
    list of at most 10000 elements does, wherever the head and the tail have
    wrapped to. *)
Theorem threadpool_queue_fifo os :
  exists q, ring_run threadpool_queue_init os = Ret (q, (fifo_run [] os).2) /\ holds q (fifo_run [] os).1.
Proof.
  assert (H : forall q l, holds q l -> exists q', ring_run q os = Ret (q', (fifo_run l os).2) /\
    holds q' (fifo_run l os).1); [|apply H, init_holds].
  induction os as [|o os IH]; intros q l Hq; cbn [ring_run fifo_run]; [by exists q|].
  destruct (ring_op_refines q l o Hq) as (q1 & -> & Hq1). bind. destruct (fifo_op l o) as [l1 r]. cbn [fst snd] in *.
  destruct (IH q1 l1 Hq1) as (q2 & -> & Hq2). bind. destruct (fifo_run l1 os) as [l2 rs]. by exists q2.
Qed.
