(* ===== verification/Pool.v ===== *)
(** Component: the thread pool of src/c-study/cthreadpool/threadpool.c as a step
    relation over interleaved threads: workers, threads that add tasks, and the
    thread that stops the pool.  The pthread calls on the pool's valid mutexes and
    condition variables succeed and behave as POSIX says: a lock is granted when it
    is free, a wait gives the mutex up, sleeps and takes it again, a broadcast wakes
    every sleeper, and a wait may end without one. *)
From S2P Require Import Prelude Arrays Bits PoolQueue.

(** ** State *)

(** [struct threadpool_task]; the routine is a function pointer or null. *)
Record threadpool_task := Task { routine_cb : option Z; data : Z }.

(** The arguments of [threadpool_add_task]. *)
Record call := Call { c_routine : option Z; c_data : Z; c_blocking : bool }.

(** Where a thread is.  A step between a lock and the matching unlock runs the whole
    critical section, which no other thread can observe half done. *)
Inductive pc :=
(* threadpool_task_get_task *)
| WGet                                (* before the first test of stop_flag *)
| WLock                               (* before pthread_mutex_lock *)
| WWait                               (* holds mutex, at the test of the while *)
| WSleep                              (* in pthread_cond_wait *)
| WWake                               (* woken, before it has the mutex again *)
| WUnlock (t : option nat)            (* holds mutex, about to return the task *)
(* worker_thr_routine *)
| WTask (t : option nat)              (* has the result of get_task *)
| WInit (t : nat)                     (* the routine has run *)
| WLockFree (t : nat)
| WPut (t : nat)                      (* holds free_tasks_mutex *)
| WUnlockFree (ok : bool)             (* holds it still *)
| WExit
(* threadpool_add_task *)
| CIdle (r : Z)                       (* outside; the last result *)
| CLockFree (c : call)
| CWait (c : call)                    (* holds free_tasks_mutex *)
| CSleep (c : call)
| CWake (c : call)
| CUnlockFree (r : Z)                 (* holds it, about to return *)
| CGot (c : call) (t : nat)           (* holds it, has a free task *)
| CFill (c : call) (t : nat)
| CLock (c : call) (t : nat)
| CPut (c : call) (t : nat)           (* holds mutex *)
| CUnlock (r : Z)                     (* holds it, about to return *)
(* stop_worker_thr_routines_cb *)
| SIdle
| SStart
| SLock
| SCast                               (* holds mutex *)
| SUnlock                             (* holds mutex *)
| SJoin
| SDone.

(** The pool, its threads, and what has happened: the tasks in the order they were
    put into and taken from the task queue, the calls of routines, the tasks without
    routine that a worker dropped, and their indexes. *)
Record state := State {
  tasks_queue : threadpool_queue;
  free_tasks_queue : threadpool_queue;
  tasks : list threadpool_task;
  stop_flag : bool;
  freed : bool;
  mutex : option nat;
  free_tasks_mutex : option nat;
  thr : list pc;
  accepted : list threadpool_task;
  started : list threadpool_task;
  ran : list threadpool_task;
  dropped : list threadpool_task;
  leaked : list nat
}.

Definition set_pc (i : nat) (p : pc) (s : state) : state :=
  State (tasks_queue s) (free_tasks_queue s) (tasks s) (stop_flag s) (freed s) (mutex s) (free_tasks_mutex s)
    (<[i := p]> (thr s)) (accepted s) (started s) (ran s) (dropped s) (leaked s).
Definition set_mutex (m : option nat) (s : state) : state :=
  State (tasks_queue s) (free_tasks_queue s) (tasks s) (stop_flag s) (freed s) m (free_tasks_mutex s)
    (thr s) (accepted s) (started s) (ran s) (dropped s) (leaked s).
Definition set_free_mutex (m : option nat) (s : state) : state :=
  State (tasks_queue s) (free_tasks_queue s) (tasks s) (stop_flag s) (freed s) (mutex s) m
    (thr s) (accepted s) (started s) (ran s) (dropped s) (leaked s).
Definition set_thr (l : list pc) (s : state) : state :=
  State (tasks_queue s) (free_tasks_queue s) (tasks s) (stop_flag s) (freed s) (mutex s) (free_tasks_mutex s)
    l (accepted s) (started s) (ran s) (dropped s) (leaked s).
Definition set_tasks (ts : list threadpool_task) (s : state) : state :=
  State (tasks_queue s) (free_tasks_queue s) ts (stop_flag s) (freed s) (mutex s) (free_tasks_mutex s)
    (thr s) (accepted s) (started s) (ran s) (dropped s) (leaked s).
Definition set_tasks_queue (q : threadpool_queue) (s : state) : state :=
  State q (free_tasks_queue s) (tasks s) (stop_flag s) (freed s) (mutex s) (free_tasks_mutex s)
    (thr s) (accepted s) (started s) (ran s) (dropped s) (leaked s).
Definition set_free_queue (q : threadpool_queue) (s : state) : state :=
  State (tasks_queue s) q (tasks s) (stop_flag s) (freed s) (mutex s) (free_tasks_mutex s)
    (thr s) (accepted s) (started s) (ran s) (dropped s) (leaked s).
Definition set_flags (stop fr : bool) (s : state) : state :=
  State (tasks_queue s) (free_tasks_queue s) (tasks s) stop fr (mutex s) (free_tasks_mutex s)
    (thr s) (accepted s) (started s) (ran s) (dropped s) (leaked s).
(** What happened: a task accepted, started, run or dropped. *)
Definition log_accepted (t : threadpool_task) (s : state) : state :=
  State (tasks_queue s) (free_tasks_queue s) (tasks s) (stop_flag s) (freed s) (mutex s) (free_tasks_mutex s)
    (thr s) (accepted s ++ [t]) (started s) (ran s) (dropped s) (leaked s).
Definition log_started (t : threadpool_task) (s : state) : state :=
  State (tasks_queue s) (free_tasks_queue s) (tasks s) (stop_flag s) (freed s) (mutex s) (free_tasks_mutex s)
    (thr s) (accepted s) (started s ++ [t]) (ran s) (dropped s) (leaked s).
Definition log_ran (t : threadpool_task) (s : state) : state :=
  State (tasks_queue s) (free_tasks_queue s) (tasks s) (stop_flag s) (freed s) (mutex s) (free_tasks_mutex s)
    (thr s) (accepted s) (started s) (ran s ++ [t]) (dropped s) (leaked s).
Definition log_dropped (t : threadpool_task) (i : nat) (s : state) : state :=
  State (tasks_queue s) (free_tasks_queue s) (tasks s) (stop_flag s) (freed s) (mutex s) (free_tasks_mutex s)
    (thr s) (accepted s) (started s) (ran s) (dropped s ++ [t]) (i :: leaked s).

(** ** Synchronisation *)

(** [pthread_mutex_lock]: blocked while another thread has the mutex. *)
Definition lock (i : nat) (p : pc) (s : state) : res (option state) :=
  match mutex s with None => Ret (Some (set_pc i p (set_mutex (Some i) s))) | Some _ => Ret None end.
Definition unlock (i : nat) (p : pc) (s : state) : res (option state) :=
  Ret (Some (set_pc i p (set_mutex None s))).
Definition lock_free (i : nat) (p : pc) (s : state) : res (option state) :=
  match free_tasks_mutex s with None => Ret (Some (set_pc i p (set_free_mutex (Some i) s))) | Some _ => Ret None end.
Definition unlock_free (i : nat) (p : pc) (s : state) : res (option state) :=
  Ret (Some (set_pc i p (set_free_mutex None s))).

(** [pthread_cond_broadcast] of the two condition variables. *)
Definition wake (p : pc) : pc := match p with WSleep => WWake | p => p end.
Definition wake_free (p : pc) : pc := match p with CSleep c => CWake c | p => p end.

Definition goto (i : nat) (p : pc) (s : state) : res (option state) := Ret (Some (set_pc i p s)).

(** [pool->tasks + t], read and written. *)
Definition get_task_at (s : state) (t : nat) : res threadpool_task := oget (tasks s !! t).
Definition put_task_at (s : state) (t : nat) (x : threadpool_task) : res state :=
  if (t <? length (tasks s))%nat then Ret (set_tasks (<[t := x]> (tasks s)) s) else UB.

Definition threadpool_task_init : threadpool_task := Task None 0.

(** ** The threads *)

(** [threadpool_task_get_task]. *)
Definition threadpool_task_get_task (i : nat) (p : pc) (s : state) : res (option state) :=
  match p with
  | WGet => goto i (if stop_flag s then WTask None else WLock) s
  | WLock | WWake => lock i WWait s
  | WWait =>
    if threadpool_queue_is_empty (tasks_queue s) && negb (stop_flag s)
    then unlock i WSleep s
    else if stop_flag s then goto i (WUnlock None) s
    else
      '(q, t) ← threadpool_queue_dequeue (tasks_queue s);
      let s := set_tasks_queue q s in
      match t with
      | None => goto i (WUnlock None) s
      | Some t => x ← get_task_at s t; goto i (WUnlock (Some t)) (log_started x s)
      end
  | WUnlock t => unlock i (WTask t) s
  | _ => Ret None
  end.

(** [worker_thr_routine], around it. *)
Definition worker_thr_routine (i : nat) (p : pc) (s : state) : res (option state) :=
  match p with
  | WTask None => goto i WExit s
  | WTask (Some t) =>
    x ← get_task_at s t;
    match routine_cb x with
    | Some _ => goto i (WInit t) (log_ran x s)
    | None => goto i WGet (log_dropped x t s)
    end
  | WInit t => s ← put_task_at s t threadpool_task_init; goto i (WLockFree t) s
  | WLockFree t => lock_free i (WPut t) s
  | WPut t =>
    '(q, r) ← threadpool_queue_enqueue (free_tasks_queue s) (Some t);
    let s := set_free_queue q s in
    if negb (r =? 0) then goto i (WUnlockFree false) s
    else
      let s := if threadpool_queue_getsize q =? 1 then set_thr (map wake_free (thr s)) s else s in
      goto i (WUnlockFree true) s
  | WUnlockFree ok => unlock_free i (if ok then WGet else WExit) s
  | _ => threadpool_task_get_task i p s
  end.

(** [threadpool_add_task], on a pool that is not null. *)
Definition threadpool_add_task (i : nat) (p : pc) (s : state) : res (option state) :=
  match p with
  | CLockFree c | CWake c => lock_free i (CWait c) s
  | CWait c =>
    if threadpool_queue_is_empty (free_tasks_queue s) then
      if negb (c_blocking c) then goto i (CUnlockFree (-2)) s else unlock_free i (CSleep c) s
    else
      '(q, t) ← threadpool_queue_dequeue (free_tasks_queue s);
      let s := set_free_queue q s in
      match t with
      | None => goto i (CUnlockFree (-1)) s
      | Some t => goto i (CGot c t) s
      end
  | CUnlockFree r => unlock_free i (CIdle r) s
  | CGot c t => unlock_free i (CFill c t) s
  | CFill c t => s ← put_task_at s t (Task (c_routine c) (c_data c)); goto i (CLock c t) s
  | CLock c t => lock i (CPut c t) s
  | CPut c t =>
    '(q, r) ← threadpool_queue_enqueue (tasks_queue s) (Some t);
    let s := set_tasks_queue q s in
    if negb (r =? 0) then goto i (CUnlock (-1)) s
    else
      let s := log_accepted (Task (c_routine c) (c_data c)) s in
      let s := if threadpool_queue_getsize q =? 1 then set_thr (map wake (thr s)) s else s in
      goto i (CUnlock 0) s
  | CUnlock r => unlock i (CIdle r) s
  | _ => Ret None
  end.

(** A worker thread, as [pthread_join] sees it. *)
Definition is_worker (p : pc) : bool :=
  match p with
  | WGet | WLock | WWait | WSleep | WWake | WUnlock _ | WTask _ | WInit _ | WLockFree _ | WPut _
  | WUnlockFree _ | WExit => true
  | _ => false
  end.
Definition joined (p : pc) : bool := match p with WExit => true | p => negb (is_worker p) end.

(** [stop_worker_thr_routines_cb]; the joins wait for every worker, then the memory
    is freed. *)
Definition stop_worker_thr_routines_cb (i : nat) (p : pc) (s : state) : res (option state) :=
  match p with
  | SStart => goto i SLock (set_flags true (freed s) s)
  | SLock => lock i SCast s
  | SCast => goto i SUnlock (set_thr (map wake (thr s)) s)
  | SUnlock => unlock i SJoin s
  | SJoin => if forallb joined (thr s) then goto i SDone (set_flags (stop_flag s) true s) else Ret None
  | _ => Ret None
  end.

(** One step of thread [i], which is at [p]; [None] when it is blocked or has
    nothing to do.  The pool's memory must not have been freed. *)
Definition thread_step (i : nat) (p : pc) (s : state) : res (option state) :=
  if is_worker p then
    if freed s then match p with WExit => Ret None | _ => UB end else worker_thr_routine i p s
  else match p with
  | CIdle _ => Ret None
  | SIdle | SStart | SLock | SCast | SUnlock | SJoin | SDone => stop_worker_thr_routines_cb i p s
  | _ => if freed s then UB else threadpool_add_task i p s
  end.

(** ** Starting the pool *)

(** The loop that fills the queue of free tasks. *)
Fixpoint fill_free (n i : nat) (q : threadpool_queue) : res (option threadpool_queue) :=
  match n with
  | O => Ret (Some q)
  | S n =>
    '(q, r) ← threadpool_queue_enqueue q (Some i);
    if r =? 0 then fill_free n (S i) q else Ret None
  end.

(** The loop that starts the workers; [num_of_threads] of the pool is an
    [unsigned short]. *)
Fixpoint start_workers (fuel : nat) (count num_of_threads : Z) (ws : list pc) : res (list pc) :=
  if count <? num_of_threads then
    match fuel with
    | O => Fuel
    | S n => start_workers n (u16 (count + 1)) num_of_threads (ws ++ [WGet])
    end
  else Ret ws.

(** [threadpool_init(num_of_threads)] in a program with [clients] threads that add
    tasks and one that may stop the pool. *)
Definition threadpool_init (fuel : nat) (num_of_threads : Z) (clients : nat) : res (option state) :=
  free ← fill_free (Z.to_nat THREAD_POOL_QUEUE_SIZE) 0 threadpool_queue_init;
  match free with
  | None => Ret None
  | Some free =>
    ws ← start_workers fuel 0 num_of_threads [];
    Ret (Some (State threadpool_queue_init free
      (replicate (Z.to_nat THREAD_POOL_QUEUE_SIZE) threadpool_task_init) false false None None
      (ws ++ replicate clients (CIdle 0) ++ [SIdle]) [] [] [] [] []))
  end.

(** ** Runs *)

(** A client may call [threadpool_add_task] until the pool is being stopped, and the
    pool is stopped once and when no call is under way: the contract of
    [threadpool_free], which frees the memory the calls use. *)
Definition idle (p : pc) : bool := match p with CIdle _ => true | SIdle => true | p => is_worker p end.
Definition stopping (p : pc) : bool :=
  match p with SStart | SLock | SCast | SUnlock | SJoin | SDone => true | _ => false end.

Inductive step (s : state) : state -> Prop :=
| step_thread i p s' : thr s !! i = Some p -> thread_step i p s = Ret (Some s') -> step s s'
| step_call i r c : thr s !! i = Some (CIdle r) -> existsb stopping (thr s) = false ->
    step s (set_pc i (CLockFree c) s)
| step_stop i : thr s !! i = Some SIdle -> forallb idle (thr s) = true ->
    step s (set_pc i SStart s)
| step_spurious i : thr s !! i = Some WSleep -> step s (set_pc i WWake s)
| step_spurious_free i c : thr s !! i = Some (CSleep c) -> step s (set_pc i (CWake c) s).

Inductive reachable (num : Z) (clients : nat) : state -> Prop :=
| reach_init fuel s : threadpool_init fuel num clients = Ret (Some s) -> reachable num clients s
| reach_step s s' : reachable num clients s -> step s s' -> reachable num clients s'.
