(* ===== verification/PoolInv.v ===== *)
(** The invariant of the thread pool: every task structure is in exactly one place,
    the queues are the ghost lists, the logs agree with them, locks have one holder,
    and nobody sleeps while there is something to wake up for.  Each step keeps it;
    the theorems at the end read off what it means for the pool. *)
From S2P Require Import Prelude Arrays Bits PoolQueue Pool.

(** ** Who has what *)

(** The task structures a thread has taken from one queue and not yet put into
    another. *)
Definition owned (p : pc) : list nat :=
  match p with
  | WUnlock (Some t) | WTask (Some t) | WInit t | WLockFree t | WPut t
  | CGot _ t | CFill _ t | CLock _ t | CPut _ t => [t]
  | _ => []
  end.

(** Those of them whose routine is still to be called. *)
Definition busy (p : pc) : list nat :=
  match p with WUnlock (Some t) | WTask (Some t) => [t] | _ => [] end.

Definition has_mutex (p : pc) : bool :=
  match p with WWait | WUnlock _ | CPut _ _ | CUnlock _ | SCast | SUnlock => true | _ => false end.
Definition has_free_mutex (p : pc) : bool :=
  match p with WPut _ | WUnlockFree _ | CWait _ | CUnlockFree _ | CGot _ _ => true | _ => false end.

Definition at_ (ts : list threadpool_task) (t : nat) : threadpool_task := default threadpool_task_init (ts !! t).

(** What a single thread promises: a worker leaves its loop only when the pool is
    stopped, a call returns 0 or -2, and a task to be queued holds the call's
    arguments. *)
Definition pc_ok (stop : bool) (ts : list threadpool_task) (p : pc) : Prop :=
  match p with
  | WExit | WTask None | WUnlock None => stop = true
  | WUnlockFree ok => ok = true
  | CUnlockFree r => r = -2
  | CUnlock r => r = 0
  | CIdle r => r = 0 \/ r = -2
  | SLock | SCast | SUnlock | SJoin | SDone => stop = true
  | CLock c t | CPut c t => ts !! t = Some (Task (c_routine c) (c_data c))
  | _ => True
  end.

Definition N : nat := Z.to_nat THREAD_POOL_QUEUE_SIZE.

(** The data: the queues, the task structures and what happened. *)
Record data_inv (fl tl : list nat) (s : state) : Prop := DataInv {
  iv_free : holds (free_tasks_queue s) fl;
  iv_tasks : holds (tasks_queue s) tl;
  iv_perm : fl ++ tl ++ flat_map owned (thr s) ++ leaked s ≡ₚ (seq 0 N);
  iv_len : length (tasks s) = N;
  iv_fifo : accepted s = started s ++ map (at_ (tasks s)) tl;
  iv_ran : started s ≡ₚ ran s ++ dropped s ++ map (at_ (tasks s)) (flat_map busy (thr s));
  iv_null : Forall (fun x => routine_cb x <> None) (ran s) /\ Forall (fun x => routine_cb x = None) (dropped s) /\
    length (leaked s) = length (dropped s)
}.

(** A mutex is held by the one thread that is between its lock and unlock. *)
Definition owner (has : pc -> bool) (m : option nat) (l : list pc) : Prop :=
  forall i, m = Some i <-> exists p, l !! i = Some p /\ has p = true.

(** While the pool is being stopped no call to add a task is under way. *)
Definition quiet (l : list pc) : Prop :=
  (exists i p, l !! i = Some p /\ stopping p = true) ->
  forall i p, l !! i = Some p -> idle p || stopping p = true.

(** Once the broadcast of the stop is out, no worker sleeps. *)
Definition past_cast (p : pc) : bool := match p with SUnlock | SJoin | SDone => true | _ => false end.
Definition casted (l : list pc) : Prop :=
  (exists i p, l !! i = Some p /\ past_cast p = true) -> forall i, l !! i <> Some WSleep.

(** The threads: where they are, who has the mutexes, and who sleeps. *)
Record ctrl_inv (fl tl : list nat) (s : state) : Prop := CtrlInv {
  iv_pc : forall i p, thr s !! i = Some p -> pc_ok (stop_flag s) (tasks s) p;
  iv_mutex : owner has_mutex (mutex s) (thr s);
  iv_free_mutex : owner has_free_mutex (free_tasks_mutex s) (thr s);
  iv_sleep : tl <> [] -> forall i, thr s !! i <> Some WSleep;
  iv_sleep_free : fl <> [] -> forall i c, thr s !! i <> Some (CSleep c);
  iv_cast : casted (thr s);
  iv_quiet : quiet (thr s);
  iv_freed : freed s = true -> (forall i p, thr s !! i = Some p -> joined p = true) /\
    exists i p, thr s !! i = Some p /\ stopping p = true
}.

Record inv (fl tl : list nat) (s : state) : Prop := Inv {
  iv_data : data_inv fl tl s;
  iv_ctrl : ctrl_inv fl tl s
}.

(** ** Changing one thread *)

Lemma flat_map_insert {A} (f : pc -> list A) l i p : l !! i = Some p ->
  exists r, flat_map f l ≡ₚ f p ++ r /\ forall p', flat_map f (<[i := p']> l) ≡ₚ f p' ++ r.
Proof.
  intros Hi. exists (flat_map f (take i l) ++ flat_map f (drop (S i) l)).
  assert (H : forall p', flat_map f (take i l ++ p' :: drop (S i) l) ≡ₚ
    f p' ++ flat_map f (take i l) ++ flat_map f (drop (S i) l)).
  { intros p'. rewrite flat_map_app. cbn [flat_map]. solve_Permutation. }
  split; [rewrite <-(take_drop_middle l i p Hi) at 1; apply H|]. intros p'.
  rewrite insert_take_drop by by eapply lookup_lt_Some. apply H.
Qed.

Lemma flat_map_same {A} (f : pc -> list A) l i p p' : l !! i = Some p -> f p' = f p ->
  flat_map f (<[i := p']> l) ≡ₚ flat_map f l.
Proof. intros Hi E. destruct (flat_map_insert f l i p Hi) as (r & -> & H). by rewrite H, E. Qed.

Lemma set_lookup {A} (l : list A) i p p' j q : l !! i = Some p -> (<[i := p']> l) !! j = Some q ->
  (j = i /\ q = p') \/ (j <> i /\ l !! j = Some q).
Proof.
  intros Hi. destruct (decide (j = i)) as [->|Hne].
  - rewrite list_lookup_insert_eq by by eapply lookup_lt_Some. naive_solver.
  - rewrite list_lookup_insert_ne by done. naive_solver.
Qed.

Lemma set_lookup_eq {A} (l : list A) i p p' : l !! i = Some p -> (<[i := p']> l) !! i = Some p'.
Proof. intros Hi. apply list_lookup_insert_eq. by eapply lookup_lt_Some. Qed.

(** What a step of thread [i] from [p] to [p'] may do to a mutex. *)
Definition mutex_move (has : pc -> bool) (i : nat) (p p' : pc) (m m' : option nat) : Prop :=
  (has p' = has p /\ m' = m) \/ (m = None /\ has p' = true /\ m' = Some i) \/
  (has p = true /\ has p' = false /\ m' = None).

Lemma owner_set has m m' l i p p' : owner has m l -> l !! i = Some p -> mutex_move has i p p' m m' ->
  owner has m' (<[i := p']> l).
Proof.
  intros Ho Hi Hm j. pose proof (Ho i) as Hoi. pose proof (Ho j) as Hoj.
  assert (Hs : (<[i := p']> l) !! i = Some p') by by eapply set_lookup_eq.
  destruct (decide (j = i)) as [->|Hne].
  - rewrite Hs. destruct Hm as [[E ->]|[(-> & E & ->)|(E & E' & ->)]]; naive_solver congruence.
  - rewrite list_lookup_insert_ne by done.
    destruct Hm as [[E ->]|[(-> & E & ->)|(E & E' & ->)]]; [done| |].
    + rewrite <-Hoj. naive_solver.
    + assert (m = Some i) as -> by (apply Hoi; by exists p). rewrite <-Hoj. naive_solver.
Qed.

Lemma quiet_set l i p p' : quiet l -> l !! i = Some p -> (stopping p' = true -> stopping p = true) ->
  (idle p || stopping p = true -> idle p' || stopping p' = true) -> quiet (<[i := p']> l).
Proof.
  intros Hq Hi Hs Hk (j & q & Hj & Hst) k r Hr.
  assert (Hex : exists i p, l !! i = Some p /\ stopping p = true).
  { destruct (set_lookup _ _ _ _ _ _ Hi Hj) as [[-> ->]|[_ ?]]; eauto. }
  destruct (set_lookup _ _ _ _ _ _ Hi Hr) as [[-> ->]|[_ ?]]; [apply Hk|]; eapply Hq; eauto.
Qed.

(** A step of one thread keeps the control part. *)
Lemma ctrl_set_gen i p p' fl tl fl' tl' s s' : ctrl_inv fl tl s -> thr s !! i = Some p ->
  thr s' = <[i := p']> (thr s) -> stop_flag s' = stop_flag s ->
  pc_ok (stop_flag s) (tasks s') p' ->
  (forall j q, j <> i -> thr s !! j = Some q -> pc_ok (stop_flag s) (tasks s) q -> pc_ok (stop_flag s) (tasks s') q) ->
  mutex_move has_mutex i p p' (mutex s) (mutex s') ->
  mutex_move has_free_mutex i p p' (free_tasks_mutex s) (free_tasks_mutex s') ->
  (tl' <> [] -> p' <> WSleep /\ forall j, thr s !! j <> Some WSleep) ->
  (fl' <> [] -> (forall c, p' <> CSleep c) /\ forall j c, thr s !! j <> Some (CSleep c)) ->
  casted (thr s') -> quiet (thr s') ->
  (freed s' = true -> (forall i p, thr s' !! i = Some p -> joined p = true) /\
    exists i p, thr s' !! i = Some p /\ stopping p = true) ->
  ctrl_inv fl' tl' s'.
Proof.
  intros [H8 H9 H10 H11 H12 H13 H14 H15] Hi Et Es Hp Hq Hm Hfm Hsl Hsf Hca Hqu Hfr.
  constructor; rewrite ?Et, ?Es in *; auto.
  - intros j q Hj. destruct (set_lookup _ _ _ _ _ _ Hi Hj) as [[-> ->]|[??]]; eauto.
  - by eapply owner_set.
  - by eapply owner_set.
  - intros [Hl1 Hl2]%Hsl j Hj. destruct (set_lookup _ _ _ _ _ _ Hi Hj) as [[-> ?]|[??]]; naive_solver.
  - intros [Hl1 Hl2]%Hsf j c Hj. destruct (set_lookup _ _ _ _ _ _ Hi Hj) as [[-> ?]|[??]]; naive_solver.
Qed.

Lemma casted_set i p p' fl tl s : ctrl_inv fl tl s -> thr s !! i = Some p ->
  (p' = WSleep -> stop_flag s = false) ->
  (past_cast p' = true -> past_cast p = true \/ forall j, thr s !! j <> Some WSleep) -> casted (<[i := p']> (thr s)).
Proof.
  intros HC Hi Hsw Hca (j & q & Hj & Hq) k Hk.
  assert (Hold : (exists j q, thr s !! j = Some q /\ past_cast q = true) \/ forall j, thr s !! j <> Some WSleep).
  { destruct (set_lookup _ _ _ _ _ _ Hi Hj) as [[-> ->]|[_ ?]]; [destruct (Hca Hq)|]; eauto. }
  destruct (set_lookup _ _ _ _ _ _ Hi Hk) as [[-> E]|[_ E]]; [subst p'|].
  - destruct (set_lookup _ _ _ _ _ _ Hi Hj) as [[-> ->]|[_ Hjq]]; [done|].
    pose proof (iv_pc _ _ _ HC _ _ Hjq) as Hp. rewrite (Hsw eq_refl) in Hp. by destruct q.
  - destruct Hold as [Hold|Hold]; [|by apply (Hold k)]. by apply (iv_cast _ _ _ HC Hold k).
Qed.

Lemma ctrl_set i p p' fl tl fl' tl' s s' : ctrl_inv fl tl s -> thr s !! i = Some p ->
  thr s' = <[i := p']> (thr s) -> stop_flag s' = stop_flag s -> freed s' = freed s ->
  pc_ok (stop_flag s) (tasks s') p' ->
  (forall j q, j <> i -> thr s !! j = Some q -> pc_ok (stop_flag s) (tasks s) q -> pc_ok (stop_flag s) (tasks s') q) ->
  mutex_move has_mutex i p p' (mutex s) (mutex s') ->
  mutex_move has_free_mutex i p p' (free_tasks_mutex s) (free_tasks_mutex s') ->
  (tl' <> [] -> p' <> WSleep /\ forall j, thr s !! j <> Some WSleep) ->
  (fl' <> [] -> (forall c, p' <> CSleep c) /\ forall j c, thr s !! j <> Some (CSleep c)) ->
  (p' = WSleep -> stop_flag s = false) ->
  (past_cast p' = true -> past_cast p = true \/ forall j, thr s !! j <> Some WSleep) ->
  (stopping p' = true -> stopping p = true) ->
  (idle p || stopping p = true -> idle p' || stopping p' = true) ->
  (freed s = true -> joined p' = true /\ (stopping p = true -> stopping p' = true)) ->
  ctrl_inv fl' tl' s'.
Proof.
  intros HC Hi Et Es Ef Hp Hq Hm Hfm Hsl Hsf Hsw Hca Hst Hid Hfr.
  eapply ctrl_set_gen; try done; rewrite ?Et, ?Ef; [by eapply casted_set|by eapply quiet_set; [apply HC|..]|].
  intros Hf. destruct (Hfr Hf) as [Hj1 Hj2], (iv_freed _ _ _ HC Hf) as [Hj (k & q & Hk & Hkq)]. split.
  - intros j r Hr. destruct (set_lookup _ _ _ _ _ _ Hi Hr) as [[-> ->]|[??]]; eauto.
  - destruct (decide (k = i)) as [->|Hne].
    + exists i, p'. split; [by eapply set_lookup_eq|]. apply Hj2. by simplify_eq.
    + exists k, q. by rewrite list_lookup_insert_ne.
Qed.

(** A step that moves neither a task nor a task structure. *)
Lemma data_set i p p' fl tl s m fm : data_inv fl tl s -> thr s !! i = Some p ->
  owned p' = owned p -> busy p' = busy p ->
  data_inv fl tl (set_pc i p' (set_mutex m (set_free_mutex fm s))).
Proof.
  intros [H1 H2 H3 H4 H5 H6 H7] Hi Ho Hb. constructor; cbn; try done.
  - rewrite <-H3. by rewrite (flat_map_same owned _ i p p').
  - rewrite H6. by rewrite (flat_map_same busy _ i p p').
Qed.

Lemma inv_goto i p p' m fm fl tl s : inv fl tl s -> thr s !! i = Some p ->
  owned p' = owned p -> busy p' = busy p -> pc_ok (stop_flag s) (tasks s) p' ->
  mutex_move has_mutex i p p' (mutex s) m ->
  mutex_move has_free_mutex i p p' (free_tasks_mutex s) fm ->
  (p' = WSleep -> tl = []) -> (forall c, p' = CSleep c -> fl = []) ->
  (p' = WSleep -> stop_flag s = false) ->
  (past_cast p' = true -> past_cast p = true \/ forall j, thr s !! j <> Some WSleep) ->
  (stopping p' = true -> stopping p = true) ->
  (idle p || stopping p = true -> idle p' || stopping p' = true) ->
  (freed s = true -> joined p' = true /\ (stopping p = true -> stopping p' = true)) ->
  inv fl tl (set_pc i p' (set_mutex m (set_free_mutex fm s))).
Proof.
  intros [HD HC] Hi Ho Hb Hp Hm Hfm Hsl Hsf Hsw Hca Hst Hid Hfr. split; [by eapply data_set|].
  eapply ctrl_set; try done; cbn.
  - intros Hl. split; [naive_solver|by apply HC].
  - intros Hl. split; [naive_solver|by apply HC].
Qed.

(** A broadcast: the threads are the same, some of them woken. *)
Definition awake (w : pc -> pc) : Prop := forall p,
  owned (w p) = owned p /\ busy (w p) = busy p /\ has_mutex (w p) = has_mutex p /\
  has_free_mutex (w p) = has_free_mutex p /\ idle (w p) = idle p /\ stopping (w p) = stopping p /\
  joined (w p) = joined p /\ past_cast (w p) = past_cast p /\ (forall b ts, pc_ok b ts p -> pc_ok b ts (w p)) /\
  (w p = WSleep -> p = WSleep) /\ (forall c, w p = CSleep c -> p = CSleep c).

Lemma awake_wake : awake wake.
Proof. intros []; split_and!; try done; by simplify_eq/=. Qed.
Lemma awake_wake_free : awake wake_free.
Proof. intros []; split_and!; try done; by simplify_eq/=. Qed.

Lemma flat_map_map {A} (f : pc -> list A) w l : (forall p, f (w p) = f p) -> flat_map f (map w l) = flat_map f l.
Proof. intros Hw. induction l as [|p l IH]; [done|]. cbn [map flat_map]. by rewrite Hw, IH. Qed.

Lemma map_lookup_pc (w : pc -> pc) (l : list pc) i p : (map w l) !! i = Some p <-> exists q, l !! i = Some q /\ p = w q.
Proof. change (map w l) with (w <$> l). rewrite list_lookup_fmap_Some. naive_solver. Qed.

Lemma owner_map has w m l : (forall p, has (w p) = has p) -> owner has m l -> owner has m (map w l).
Proof.
  intros Hw Ho i. rewrite (Ho i). setoid_rewrite map_lookup_pc. split.
  - intros (p & Hp & Hm). exists (w p). rewrite Hw. eauto.
  - intros (p & (q & Hq & ->) & Hm). rewrite Hw in Hm. eauto.
Qed.

Lemma inv_wake w fl tl s : awake w -> inv fl tl s -> inv fl tl (set_thr (map w (thr s)) s).
Proof.
  intros Hw [[H1 H2 H3 H4 H5 H6 H7] [H8 H9 H10 H11 H12 H15 H13 H14]].
  assert (Ho : flat_map owned (map w (thr s)) = flat_map owned (thr s)) by (apply flat_map_map; intros p; apply Hw).
  assert (Hb : flat_map busy (map w (thr s)) = flat_map busy (thr s)) by (apply flat_map_map; intros p; apply Hw).
  split; constructor; cbn; rewrite ?Ho, ?Hb; try done.
  - intros i p (q & Hq & ->)%map_lookup_pc. apply Hw. by eapply H8.
  - apply owner_map; [apply Hw|done].
  - apply owner_map; [apply Hw|done].
  - intros Hl i (q & Hq & E)%map_lookup_pc. apply (H11 Hl i). rewrite Hq. f_equal. by apply Hw.
  - intros Hl i c (q & Hq & E)%map_lookup_pc. apply (H12 Hl i c). rewrite Hq. f_equal. by apply Hw.
  - intros (i & p & (q & Hq & ->)%map_lookup_pc & Hs) j (r & Hr & E)%map_lookup_pc.
    eapply (H15 ltac:(eexists i, q; split; [done|by destruct (Hw q) as (_ & _ & _ & _ & _ & _ & _ & <- & _)]) j).
    rewrite Hr. f_equal. by apply Hw.
  - intros (i & p & (q & Hq & ->)%map_lookup_pc & Hs) j p' (q' & Hq' & ->)%map_lookup_pc.
    destruct (Hw q') as (_ & _ & _ & _ & -> & -> & _). eapply H13; [|done].
    exists i, q. split; [done|]. by destruct (Hw q) as (_ & _ & _ & _ & _ & <- & _).
  - intros Hf. destruct (H14 Hf) as [Hj (i & p & Hp & Hs)]. split.
    + intros j p' (q & Hq & ->)%map_lookup_pc. destruct (Hw q) as (_ & _ & _ & _ & _ & _ & -> & _). by eapply Hj.
    + exists i, (w p). rewrite map_lookup_pc. split; [by exists p|]. by destruct (Hw p) as (_ & _ & _ & _ & _ & -> & _).
Qed.

(** ** Moving a task *)

Lemma busy_owned p t : t ∈ busy p -> t ∈ owned p.
Proof. destruct p; cbn; repeat case_match; set_solver. Qed.

Lemma owned_split fl tl s i p t : data_inv fl tl s -> thr s !! i = Some p -> owned p = [t] ->
  exists r, t :: fl ++ tl ++ r ++ leaked s ≡ₚ (seq 0 N) /\
    forall j q u, j <> i -> thr s !! j = Some q -> u ∈ owned q -> u ∈ r.
Proof.
  intros HD Hi Ho. destruct (flat_map_insert owned _ _ _ Hi) as (r & Hr & Hr'). exists r. split.
  - rewrite <-(iv_perm _ _ _ HD), Hr, Ho. solve_Permutation.
  - intros j q u Hj Hq Hu. pose proof (Hr' WExit) as Hw. cbn [owned app] in Hw. rewrite <-Hw.
    apply list_elem_of_In, in_flat_map. exists q. split; [|by apply list_elem_of_In].
    apply list_elem_of_In, (list_elem_of_lookup_2 _ j). by rewrite list_lookup_insert_ne.
Qed.

(** The task structure a thread has is inside the array, nobody else has it, and both
    queues have room. *)
Lemma owned_facts fl tl s i p t : data_inv fl tl s -> thr s !! i = Some p -> owned p = [t] ->
  (t < N)%nat /\ (length fl < N)%nat /\ (length tl < N)%nat /\ (t ∉ fl) /\ (t ∉ tl) /\
  forall j q, j <> i -> thr s !! j = Some q -> t ∉ owned q.
Proof.
  intros HD Hi Ho. destruct (owned_split _ _ _ _ _ _ HD Hi Ho) as (r & Hr & Hu).
  assert (Hnd : NoDup (t :: fl ++ tl ++ r ++ leaked s)) by (rewrite Hr; apply NoDup_seq).
  apply NoDup_cons in Hnd as [Hn _].
  assert (Ht : t ∈ seq 0 N) by (rewrite <-Hr; set_solver). apply elem_of_seq in Ht.
  pose proof (Permutation_length Hr) as Hl. rewrite length_seq in Hl. cbn [length] in Hl. rewrite !length_app in Hl.
  split_and!; [lia..|set_solver|set_solver|]. intros j q Hj Hq Hin. specialize (Hu j q t Hj Hq Hin). set_solver.
Qed.

Lemma queue_lt fl tl s t : data_inv fl tl s -> t ∈ fl ++ tl -> (t < N)%nat.
Proof.
  intros HD Ht. assert (H : t ∈ seq 0 N) by (rewrite <-(iv_perm _ _ _ HD); set_solver). apply elem_of_seq in H. lia.
Qed.

Lemma data_step i p p' fl tl fl' tl' s s' : data_inv fl tl s -> thr s !! i = Some p ->
  thr s' = <[i := p']> (thr s) -> tasks s' = tasks s ->
  holds (free_tasks_queue s') fl' -> holds (tasks_queue s') tl' ->
  owned p ++ fl ++ tl ++ leaked s ≡ₚ owned p' ++ fl' ++ tl' ++ leaked s' ->
  (accepted s = started s ++ map (at_ (tasks s)) tl -> accepted s' = started s' ++ map (at_ (tasks s)) tl') ->
  (forall r, started s ≡ₚ ran s ++ dropped s ++ map (at_ (tasks s)) (busy p) ++ r ->
    started s' ≡ₚ ran s' ++ dropped s' ++ map (at_ (tasks s)) (busy p') ++ r) ->
  (Forall (fun x => routine_cb x <> None) (ran s) -> Forall (fun x => routine_cb x <> None) (ran s')) ->
  (Forall (fun x => routine_cb x = None) (dropped s) -> Forall (fun x => routine_cb x = None) (dropped s')) ->
  (length (leaked s) = length (dropped s) -> length (leaked s') = length (dropped s')) ->
  data_inv fl' tl' s'.
Proof.
  intros [H1 H2 H3 H4 H5 H6 (H7 & H8 & H9)] Hi Et Ek Hfl Htl Hp Ha Hs Hr Hd Hl.
  constructor; rewrite ?Et, ?Ek; auto.
  - destruct (flat_map_insert owned _ _ _ Hi) as (r & Ho & Ho'). rewrite Ho', <-H3, Ho.
    transitivity ((owned p' ++ fl' ++ tl' ++ leaked s') ++ r); [solve_Permutation|]. rewrite <-Hp. solve_Permutation.
  - destruct (flat_map_insert busy _ _ _ Hi) as (r & Ho & Ho'). rewrite Ho', map_app. apply Hs.
    by rewrite H6, Ho, map_app.
Qed.

(** Writing the structure a thread has. *)
Lemma data_write i p p' t x fl tl s : data_inv fl tl s -> thr s !! i = Some p -> owned p = [t] ->
  owned p' = [t] -> busy p = [] -> busy p' = [] ->
  data_inv fl tl (set_pc i p' (set_tasks (<[t := x]> (tasks s)) s)).
Proof.
  intros HD Hi Ho Ho' Hb Hb'. destruct (owned_facts _ _ _ _ _ _ HD Hi Ho) as (Hlt & _ & _ & _ & Htl & Hoth).
  destruct HD as [H1 H2 H3 H4 H5 H6 H7].
  assert (Hat : forall l, t ∉ l -> map (at_ (<[t := x]> (tasks s))) l = map (at_ (tasks s)) l).
  { intros l Hn. apply map_ext_in. intros u Hu%list_elem_of_In. unfold at_.
    rewrite list_lookup_insert_ne by set_solver. done. }
  constructor; cbn; try done.
  - rewrite <-H3. by rewrite (flat_map_same owned _ i p p') by congruence.
  - by rewrite length_insert.
  - by rewrite Hat.
  - rewrite H6, (flat_map_same busy _ i p p') by congruence. rewrite Hat; [done|].
    intros (q & Hq & Hin)%list_elem_of_In%in_flat_map. apply list_elem_of_In in Hin, Hq.
    apply list_elem_of_lookup in Hq as [j Hj]. destruct (decide (j = i)) as [->|Hne].
    + simplify_eq. rewrite Hb in Hin. set_solver.
    + apply (Hoth j q Hne Hj). by apply busy_owned.
Qed.

(** What the other threads promise does not depend on that structure. *)
Lemma pc_ok_write stop ts p t x : t ∉ owned p -> pc_ok stop ts p -> pc_ok stop (<[t := x]> ts) p.
Proof. destruct p; cbn; try done; intros Hn Hl; by rewrite list_lookup_insert_ne by set_solver. Qed.

(** ** Each step keeps the invariant *)

(** The outcome of a step: the thread is blocked, or the invariant holds again; in
    particular the step is inside the pool's objects. *)
Definition good (r : res (option state)) : Prop :=
  match r with Ret (Some s') => exists fl tl, inv fl tl s' | Ret None => True | _ => False end.

(** The side conditions of a step that moves no task. *)
Definition plain (p p' : pc) (fl tl : list nat) (s : state) : Prop :=
  owned p' = owned p /\ busy p' = busy p /\ pc_ok (stop_flag s) (tasks s) p' /\
  (p' = WSleep -> tl = []) /\ (forall c, p' = CSleep c -> fl = []) /\
  (p' = WSleep -> stop_flag s = false) /\
  (past_cast p' = true -> past_cast p = true \/ forall j, thr s !! j <> Some WSleep) /\
  (stopping p' = true -> stopping p = true) /\
  (idle p || stopping p = true -> idle p' || stopping p' = true) /\
  (freed s = true -> joined p' = true /\ (stopping p = true -> stopping p' = true)).

Section Moves.
Context (i : nat) (p : pc) (fl tl : list nat) (s : state).
Context (Hinv : inv fl tl s) (Hi : thr s !! i = Some p).

Lemma good_goto p' : plain p p' fl tl s -> has_mutex p' = has_mutex p -> has_free_mutex p' = has_free_mutex p ->
  good (goto i p' s).
Proof.
  intros (Ho & Hb & Hp & Hs & Hsf & Hsw & Hca & Hst & Hid & Hfr) Hm Hfm. exists fl, tl.
  apply (inv_goto i p p' (mutex s) (free_tasks_mutex s)); try done; by left.
Qed.

Lemma good_lock p' : plain p p' fl tl s -> has_mutex p' = true -> has_free_mutex p' = has_free_mutex p ->
  good (lock i p' s).
Proof.
  intros (Ho & Hb & Hp & Hs & Hsf & Hsw & Hca & Hst & Hid & Hfr) Hm Hfm. unfold lock.
  destruct (mutex s) eqn:E; [done|]. exists fl, tl.
  apply (inv_goto i p p' (Some i) (free_tasks_mutex s)); try done; [right; by left|by left].
Qed.

Lemma good_unlock p' : plain p p' fl tl s -> has_mutex p = true -> has_mutex p' = false ->
  has_free_mutex p' = has_free_mutex p -> good (unlock i p' s).
Proof.
  intros (Ho & Hb & Hp & Hs & Hsf & Hsw & Hca & Hst & Hid & Hfr) Hm Hm' Hfm. exists fl, tl.
  apply (inv_goto i p p' None (free_tasks_mutex s)); try done; [right; by right|by left].
Qed.

Lemma good_lock_free p' : plain p p' fl tl s -> has_free_mutex p' = true -> has_mutex p' = has_mutex p ->
  good (lock_free i p' s).
Proof.
  intros (Ho & Hb & Hp & Hs & Hsf & Hsw & Hca & Hst & Hid & Hfr) Hm Hfm. unfold lock_free.
  destruct (free_tasks_mutex s) eqn:E; [done|]. exists fl, tl.
  apply (inv_goto i p p' (mutex s) (Some i)); try done; [by left|right; by left].
Qed.

Lemma good_unlock_free p' : plain p p' fl tl s -> has_free_mutex p = true -> has_free_mutex p' = false ->
  has_mutex p' = has_mutex p -> good (unlock_free i p' s).
Proof.
  intros (Ho & Hb & Hp & Hs & Hsf & Hsw & Hca & Hst & Hid & Hfr) Hm Hm' Hfm. exists fl, tl.
  apply (inv_goto i p p' (mutex s) None); try done; [by left|right; by right].
Qed.
End Moves.

(** The conditions of a plain step, by evaluation. *)
Ltac plain := unfold plain; cbn; split_and!; try done; try congruence; try naive_solver.

Lemma get_task_ok fl tl s i p t : data_inv fl tl s -> thr s !! i = Some p -> owned p = [t] ->
  get_task_at s t = Ret (at_ (tasks s) t).
Proof.
  intros HD Hi Ho. destruct (owned_facts _ _ _ _ _ _ HD Hi Ho) as (Hlt & _). unfold get_task_at, at_.
  rewrite <-(iv_len _ _ _ HD) in Hlt. apply lookup_lt_is_Some in Hlt as [x ->]. done.
Qed.

(** A write of the structure a thread has, after which it holds [x] in [p']. *)
Lemma good_write i p p' t x fl tl s : inv fl tl s -> thr s !! i = Some p -> owned p = [t] -> owned p' = [t] ->
  busy p = [] -> busy p' = [] -> freed s = false -> pc_ok (stop_flag s) (<[t := x]> (tasks s)) p' ->
  has_mutex p' = has_mutex p -> has_free_mutex p' = has_free_mutex p -> stopping p' = false ->
  (idle p || stopping p = true -> idle p' || stopping p' = true) ->
  good (s' ← put_task_at s t x; goto i p' s').
Proof.
  intros [HD HC] Hi Ho Ho' Hb Hb' Hf Hp Hm Hfm Hst Hid.
  destruct (owned_facts _ _ _ _ _ _ HD Hi Ho) as (Hlt & _ & _ & _ & _ & Hoth).
  unfold put_task_at. rewrite (proj2 (Nat.ltb_lt _ _)) by (rewrite (iv_len _ _ _ HD); done). bind.
  exists fl, tl. split; [by eapply data_write|].
  eapply ctrl_set; try done; cbn; try (by left); try congruence.
  - intros j q Hne Hj. apply pc_ok_write. by eapply Hoth.
  - intros Hl. split; [|by apply HC]. intros ->. done.
  - intros Hl. split; [|by apply HC]. intros c ->. done.
  - by intros ->.
  - destruct p'; done.
Qed.

(** *** Queue operations *)

(** A worker takes the first task. *)
Lemma good_take i t fl tl q s : inv fl (t :: tl) s -> thr s !! i = Some WWait -> freed s = false -> holds q tl ->
  good (let s := set_tasks_queue q s in x ← get_task_at s t; goto i (WUnlock (Some t)) (log_started x s)).
Proof.
  intros [HD HC] Hi Hf Hq. assert (Hx : get_task_at s t = Ret (at_ (tasks s) t)).
  { unfold get_task_at, at_. assert (Hlt : (t < N)%nat) by (eapply queue_lt; [done|set_solver]).
    rewrite <-(iv_len _ _ _ HD) in Hlt. apply lookup_lt_is_Some in Hlt as [x ->]. done. }
  cbv zeta. change (get_task_at (set_tasks_queue q s) t) with (get_task_at s t). rewrite Hx. bind. exists fl, tl. split.
  - eapply data_step; try done; cbn; try by destruct HD.
    + solve_Permutation.
    + intros ->. by rewrite <-app_assoc.
    + intros r ->. solve_Permutation.
  - eapply ctrl_set; try done; cbn; try (by left); try congruence.
    + intros Hl. split; [done|]. by apply HC.
    + intros Hl. split; [done|]. by apply HC.
Qed.

(** A worker runs the routine of its task, or drops a task without routine. *)
Lemma good_run i t fl tl s : inv fl tl s -> thr s !! i = Some (WTask (Some t)) -> freed s = false ->
  good (worker_thr_routine i (WTask (Some t)) s).
Proof.
  intros [HD HC] Hi Hf. cbn [worker_thr_routine]. rewrite (get_task_ok _ _ _ _ _ t HD Hi eq_refl). bind.
  destruct (routine_cb (at_ (tasks s) t)) eqn:Er; exists fl, tl; split.
  - eapply data_step; try done; cbn; try by destruct HD.
    + intros r ->. solve_Permutation.
    + intros Hr. apply Forall_app. split; [done|]. constructor; [congruence|done].
  - eapply ctrl_set; try done; cbn; try (by left); try congruence; intros Hl; (split; [done|]); by apply HC.
  - eapply data_step; try done; cbn; try by destruct HD.
    + solve_Permutation.
    + intros r ->. solve_Permutation.
    + intros Hr. apply Forall_app. split; [done|]. by constructor.
    + rewrite length_app. cbn. lia.
  - eapply ctrl_set; try done; cbn; try (by left); try congruence; intros Hl; (split; [done|]); by apply HC.
Qed.

(** With room in the queue, its new size is 1 exactly when it was empty. *)
Lemma size_one q l : holds q l -> (threadpool_queue_getsize q =? 1) = (length l =? 1)%nat.
Proof.
  intros Hq. unfold threadpool_queue_getsize. rewrite (ho_num _ _ Hq).
  destruct (Nat.eqb_spec (length l) 1); [apply Z.eqb_eq|apply Z.eqb_neq]; lia.
Qed.

Lemma room_Z (l : list nat) : (length l < N)%nat -> Z.of_nat (length l) < THREAD_POOL_QUEUE_SIZE.
Proof. size. unfold N. lia. Qed.

(** A worker gives its structure back; if the queue was empty, the calls that sleep
    have been woken already. *)
Lemma inv_give i t fl tl q s : inv fl tl s -> thr s !! i = Some (WPut t) -> freed s = false ->
  holds q (fl ++ [t]) -> (forall j c, thr s !! j <> Some (CSleep c)) ->
  inv (fl ++ [t]) tl (set_pc i (WUnlockFree true) (set_free_queue q s)).
Proof.
  intros [HD HC] Hi Hf Hq Hsl. split.
  - eapply data_step; try done; cbn; try by destruct HD. solve_Permutation.
  - eapply ctrl_set; try done; cbn; try (by left); try congruence; intros Hl; (split; [done|]); first [done|by apply HC].
Qed.

Lemma inv_queue_task i c t fl tl q s : inv fl tl s -> thr s !! i = Some (CPut c t) -> freed s = false ->
  holds q (tl ++ [t]) -> (forall j, thr s !! j <> Some WSleep) ->
  inv fl (tl ++ [t]) (set_pc i (CUnlock 0) (log_accepted (Task (c_routine c) (c_data c)) (set_tasks_queue q s))).
Proof.
  intros [HD HC] Hi Hf Hq Hsl. split.
  - eapply data_step; try done; cbn; try by destruct HD.
    + solve_Permutation.
    + intros ->. rewrite map_app. cbn [map]. unfold at_ at 3. rewrite (iv_pc _ _ _ HC _ _ Hi). by rewrite app_assoc.
  - eapply ctrl_set; try done; cbn; try (by left); try congruence; intros Hl; (split; [done|]); first [done|by apply HC].
Qed.

Lemma no_sleepers w (l : list pc) (P : pc -> Prop) : (forall p, ~ P (w p)) ->
  forall j p, (map w l) !! j = Some p -> ~ P p.
Proof. intros H j p (q & _ & ->)%map_lookup_pc. apply H. Qed.

(** Both enqueue steps: with the sleepers woken when the queue was empty. *)
Lemma good_put i t fl tl s : inv fl tl s -> thr s !! i = Some (WPut t) -> freed s = false ->
  good (worker_thr_routine i (WPut t) s).
Proof.
  intros Hinv Hi Hf. pose proof (iv_data _ _ _ Hinv) as HD.
  destruct (owned_facts _ _ _ _ _ _ HD Hi eq_refl) as (_ & Hroom & _).
  destruct (enqueue_spec _ _ t (iv_free _ _ _ HD) (room_Z _ Hroom)) as (q & Eq & Hq).
  cbn [worker_thr_routine]. rewrite Eq. bind. cbn [negb Z.eqb]. rewrite (size_one _ _ Hq), length_app. cbn [length].
  exists (fl ++ [t]), tl. destruct fl as [|t0 fl].
  - cbn [length Nat.add Nat.eqb]. apply (inv_give i t [] tl q (set_thr (map wake_free (thr s)) s)); try done.
    + apply inv_wake; [apply awake_wake_free|done].
    + apply map_lookup_pc. by exists (WPut t).
    + intros j c Hj. by eapply (no_sleepers wake_free _ (fun p => exists c, p = CSleep c)) in Hj;
        [apply Hj; exists c|intros [] [? ?]].
  - rewrite (proj2 (Nat.eqb_neq _ _)) by (cbn; lia). apply inv_give; try done.
    by apply (iv_sleep_free _ _ _ (iv_ctrl _ _ _ Hinv)).
Qed.

Lemma good_cput i c t fl tl s : inv fl tl s -> thr s !! i = Some (CPut c t) -> freed s = false ->
  good (threadpool_add_task i (CPut c t) s).
Proof.
  intros Hinv Hi Hf. pose proof (iv_data _ _ _ Hinv) as HD.
  destruct (owned_facts _ _ _ _ _ _ HD Hi eq_refl) as (_ & _ & Hroom & _).
  destruct (enqueue_spec _ _ t (iv_tasks _ _ _ HD) (room_Z _ Hroom)) as (q & Eq & Hq).
  cbn [threadpool_add_task]. rewrite Eq. bind. cbn [negb Z.eqb]. rewrite (size_one _ _ Hq), length_app. cbn [length].
  exists fl, (tl ++ [t]). destruct tl as [|t0 tl].
  - cbn [length Nat.add Nat.eqb]. apply (inv_queue_task i c t fl [] q (set_thr (map wake (thr s)) s)); try done.
    + apply inv_wake; [apply awake_wake|done].
    + apply map_lookup_pc. by exists (CPut c t).
    + intros j Hj. by eapply (no_sleepers wake _ (fun p => p = WSleep)) in Hj; [apply Hj|intros []].
  - rewrite (proj2 (Nat.eqb_neq _ _)) by (cbn; lia). apply inv_queue_task; try done.
    by apply (iv_sleep _ _ _ (iv_ctrl _ _ _ Hinv)).
Qed.

(** A call takes a free structure. *)
Lemma good_free i c t fl tl q s : inv (t :: fl) tl s -> thr s !! i = Some (CWait c) -> freed s = false ->
  holds q fl -> good (goto i (CGot c t) (set_free_queue q s)).
Proof.
  intros [HD HC] Hi Hf Hq. exists fl, tl. split.
  - eapply data_step; try done; cbn; try by destruct HD.
  - eapply ctrl_set; try done; cbn; try (by left); try congruence; intros Hl; (split; [done|]); by apply HC.
Qed.

(** *** The threads *)

Lemma good_worker i p fl tl s : inv fl tl s -> thr s !! i = Some p -> is_worker p = true -> freed s = false ->
  good (worker_thr_routine i p s).
Proof.
  intros Hinv Hi Hw Hf. pose proof (iv_pc _ _ _ (iv_ctrl _ _ _ Hinv) _ _ Hi) as Hok.
  destruct p as [| | | | |t|[t|]|t|t|t|ok| | | | | | | | | | | | | | | | | | |]; try discriminate Hw; cbn in Hok.
  - (* WGet *) cbn. eapply good_goto; try done; destruct (stop_flag s) eqn:E; try done; plain.
  - eapply good_lock; try done; plain.
  - (* WWait *) cbn. pose proof (iv_data _ _ _ Hinv) as HD.
    rewrite (empty_spec _ _ (iv_tasks _ _ _ HD)). destruct (stop_flag s) eqn:Es.
    + rewrite andb_false_r. eapply good_goto; try done; plain.
    + destruct tl as [|t tl]; cbn [andb negb]; [eapply good_unlock; try done; plain|].
      destruct (dequeue_spec _ _ _ (iv_tasks _ _ _ HD)) as (q & -> & Hq). bind. by eapply good_take.
  - done.
  - eapply good_lock; try done; plain.
  - eapply good_unlock; try done; plain; by destruct t.
  - by eapply good_run.
  - eapply good_goto; try done; plain.
  - by eapply good_write.
  - eapply good_lock_free; try done; plain.
  - by eapply good_put.
  - subst ok. eapply good_unlock_free; try done; plain.
  - done.
Qed.

Lemma good_client i p fl tl s : inv fl tl s -> thr s !! i = Some p -> is_worker p = false -> stopping p = false ->
  freed s = false -> good (threadpool_add_task i p s).
Proof.
  intros Hinv Hi Hw Hst Hf. pose proof (iv_pc _ _ _ (iv_ctrl _ _ _ Hinv) _ _ Hi) as Hok.
  destruct p as [| | | | |t|t|t|t|t|ok| |r|c|c|c|c|r|c t|c t|c t|c t|r| | | | | | |]; try discriminate Hw;
    try discriminate Hst; try done; cbn in Hok.
  - eapply good_lock_free; try done; plain.
  - (* CWait *) cbn. pose proof (iv_data _ _ _ Hinv) as HD. rewrite (empty_spec _ _ (iv_free _ _ _ HD)).
    destruct fl as [|t fl].
    + destruct (c_blocking c); cbn [negb]; [eapply good_unlock_free|eapply good_goto]; try done; plain.
    + destruct (dequeue_spec _ _ _ (iv_free _ _ _ HD)) as (q & -> & Hq). bind. by eapply good_free.
  - eapply good_lock_free; try done; plain.
  - subst r. eapply good_unlock_free; try done; plain.
  - eapply good_unlock_free; try done; plain.
  - cbn [threadpool_add_task]. eapply good_write; try done. cbn. rewrite list_lookup_insert_eq; [done|].
    pose proof (iv_data _ _ _ Hinv) as HD. rewrite (iv_len _ _ _ HD).
    by destruct (owned_facts _ _ _ _ _ _ HD Hi eq_refl).
  - eapply good_lock; try done; plain.
  - by eapply good_cput.
  - subst r. eapply good_unlock; try done; plain.
Qed.

Lemma pc_ok_stop stop ts p : pc_ok stop ts p -> pc_ok true ts p.
Proof. by destruct p as [| | | | |[]|[]| | | | | | | | | | | | | | | | | | | | | | |]. Qed.

(** Setting the flag, and freeing the pool when every worker has left. *)
Lemma inv_flags fl tl s stop fr : inv fl tl s -> (stop_flag s = true -> stop = true) ->
  (fr = true -> (forall i p, thr s !! i = Some p -> joined p = true) /\
    exists i p, thr s !! i = Some p /\ stopping p = true) -> inv fl tl (set_flags stop fr s).
Proof.
  intros [HD HC] Hs Hf. split; [by destruct HD|]. destruct HC as [H8 H9 H10 H11 H12 H13 H14].
  constructor; cbn; try done. intros i p Hi. pose proof (H8 _ _ Hi) as Hp.
  destruct stop; [by eapply pc_ok_stop|]. destruct (stop_flag s); [by specialize (Hs eq_refl)|done].
Qed.

Lemma good_stop i p fl tl s : inv fl tl s -> thr s !! i = Some p -> stopping p = true ->
  good (stop_worker_thr_routines_cb i p s).
Proof.
  intros Hinv Hi Hst. pose proof (iv_pc _ _ _ (iv_ctrl _ _ _ Hinv) _ _ Hi) as Hok.
  destruct p; try discriminate Hst; try done; cbn [stop_worker_thr_routines_cb]; cbn in Hok.
  - eapply (good_goto _ SStart); [by apply inv_flags; [|done|apply (iv_freed _ _ _ (iv_ctrl _ _ _ Hinv))]|done|plain|done..].
  - eapply good_lock; try done; plain.
  - eapply (good_goto _ SCast); [apply inv_wake; [apply awake_wake|done]| | |done..].
    + apply map_lookup_pc. by exists SCast.
    + plain. intros _. right. intros j Hj.
      by eapply (no_sleepers wake _ (fun p => p = WSleep)) in Hj; [apply Hj|intros []].
  - eapply good_unlock; try done; plain.
  - destruct (forallb joined (thr s)) eqn:Ej; [|done]. rewrite forallb_forall in Ej.
    eapply (good_goto _ SJoin); [apply inv_flags; [done|done|]|done|plain|done..].
    intros _. split; [|by exists i, SJoin]. intros j p Hp. apply Ej. apply list_elem_of_In.
    by eapply list_elem_of_lookup_2.
Qed.

Lemma good_thread i p fl tl s : inv fl tl s -> thr s !! i = Some p -> good (thread_step i p s).
Proof.
  intros Hinv Hi. unfold thread_step. destruct (is_worker p) eqn:Ew.
  - destruct (freed s) eqn:Ef; [|by eapply good_worker].
    destruct (iv_freed _ _ _ (iv_ctrl _ _ _ Hinv) Ef) as [Hj _]. specialize (Hj _ _ Hi). by destruct p.
  - destruct (stopping p) eqn:Es; [destruct p; try discriminate Es; by eapply good_stop|].
    destruct (freed s) eqn:Ef; [|destruct p; try discriminate Ew; try discriminate Es; try done; by eapply good_client].
    destruct (iv_freed _ _ _ (iv_ctrl _ _ _ Hinv) Ef) as [_ Hq].
    pose proof (iv_quiet _ _ _ (iv_ctrl _ _ _ Hinv) Hq _ _ Hi) as Hk. by destruct p.
Qed.

(** A new call, when the pool is not being stopped. *)
Lemma inv_call i r c fl tl s : inv fl tl s -> thr s !! i = Some (CIdle r) -> existsb stopping (thr s) = false ->
  inv fl tl (set_pc i (CLockFree c) s).
Proof.
  intros [HD HC] Hi Hs. assert (Hns : forall j q, thr s !! j = Some q -> stopping q <> true).
  { intros j q Hj E. rewrite <-not_true_iff_false, existsb_exists in Hs. apply Hs. exists q. split; [|done].
    apply list_elem_of_In. by eapply list_elem_of_lookup_2. }
  split; [by apply (data_set i (CIdle r) (CLockFree c) fl tl s (mutex s) (free_tasks_mutex s))|].
  eapply ctrl_set_gen; try done; try (by left); cbn.
  - intros Hl. split; [done|by apply HC].
  - intros Hl. split; [done|by apply HC].
  - eapply casted_set; try done; by left.
  - intros (j & q & Hj & Hq). destruct (set_lookup _ _ _ _ _ _ Hi Hj) as [[-> ->]|[_ Hjq]]; [done|].
    by specialize (Hns _ _ Hjq).
  - intros Hf. destruct (iv_freed _ _ _ HC Hf) as [_ (j & q & Hj & Hq)]. by specialize (Hns _ _ Hj).
Qed.

(** The start of [threadpool_free], when no call is under way. *)
Lemma inv_free i fl tl s : inv fl tl s -> thr s !! i = Some SIdle -> forallb idle (thr s) = true ->
  inv fl tl (set_pc i SStart s).
Proof.
  intros [HD HC] Hi Hs. rewrite forallb_forall in Hs.
  assert (Hid : forall j q, thr s !! j = Some q -> idle q = true).
  { intros j q Hj. apply Hs, list_elem_of_In. by eapply list_elem_of_lookup_2. }
  split; [by apply (data_set i SIdle SStart fl tl s (mutex s) (free_tasks_mutex s))|].
  eapply ctrl_set_gen; try done; try (by left); cbn.
  - intros Hl. split; [done|by apply HC].
  - intros Hl. split; [done|by apply HC].
  - eapply casted_set; try done; by left.
  - intros _ j q Hj. destruct (set_lookup _ _ _ _ _ _ Hi Hj) as [[-> ->]|[_ Hq]]; [done|]. by rewrite (Hid _ _ Hq).
  - intros Hf. destruct (iv_freed _ _ _ HC Hf) as [Hj _]. split; [|exists i, SStart; by rewrite (set_lookup_eq _ _ _ _ Hi)].
    intros j q Hq. destruct (set_lookup _ _ _ _ _ _ Hi Hq) as [[-> ->]|[_ ?]]; [done|by eapply Hj].
Qed.

Lemma inv_step fl tl s s' : inv fl tl s -> step s s' -> exists fl' tl', inv fl' tl' s'.
Proof.
  intros Hinv Hstep. destruct Hstep as [i p s' Hi Hs|i r c Hi Hs|i Hi Hs|i Hi|i c Hi].
  - pose proof (good_thread _ _ _ _ _ Hinv Hi) as Hg. by rewrite Hs in Hg.
  - exists fl, tl. by eapply inv_call.
  - exists fl, tl. by eapply inv_free.
  - exists fl, tl. apply (inv_goto i WSleep WWake (mutex s) (free_tasks_mutex s)); try done; try (by left).
    intros Hf. destruct (iv_freed _ _ _ (iv_ctrl _ _ _ Hinv) Hf) as [Hj _]. by specialize (Hj _ _ Hi).
  - exists fl, tl. apply (inv_goto i (CSleep c) (CWake c) (mutex s) (free_tasks_mutex s)); try done; by left.
Qed.
