(* ===== verification/PoolSafe.v ===== *)
(** What the invariant of the thread pool means for its clients: safety of every
    interleaving, exactly-once delivery in order, no lost wake-up, a [threadpool_free]
    that waits for the workers and is never stuck, and what the code does not give:
    tasks without routine use up the pool, and a pool cannot have more than 65535
    workers. *)
From S2P Require Import Prelude Arrays Bits PoolQueue Pool PoolInv.

(** ** The initial state *)

Lemma fill_free_spec n i q : holds q (seq 0 i) -> (i + n <= N)%nat ->
  exists q', fill_free n i q = Ret (Some q') /\ holds q' (seq 0 (i + n)).
Proof.
  revert i q. induction n as [|n IH]; intros i q Hq Hn; cbn [fill_free].
  - exists q. by rewrite Nat.add_0_r.
  - destruct (enqueue_spec q _ i Hq) as (q' & -> & Hq'); [apply room_Z; rewrite length_seq; lia|]. bind.
    cbn [Z.eqb]. rewrite <-Nat.add_succ_comm. apply IH; [|lia]. by rewrite seq_S.
Qed.

Lemma start_workers_spec fuel count num ws ws' : start_workers fuel count num ws = Ret ws' ->
  exists k, ws' = ws ++ replicate k WGet /\ (count < num -> (0 < k)%nat).
Proof.
  revert count ws. induction fuel as [|fuel IH]; intros count ws; cbn [start_workers];
    destruct (Z.ltb_spec count num); try done.
  - intros [= <-]. exists O. split; [by rewrite app_nil_r|lia].
  - intros (k & -> & _)%IH. exists (S k). rewrite <-app_assoc. split; [done|lia].
  - intros [= <-]. exists O. split; [by rewrite app_nil_r|lia].
Qed.

(** Where every thread is at the start. *)
Definition fresh (p : pc) : Prop := p = WGet \/ p = CIdle 0 \/ p = SIdle.

Lemma inv_fresh q l : holds q (seq 0 N) -> Forall fresh l ->
  inv (seq 0 N) [] (State threadpool_queue_init q (replicate N threadpool_task_init) false false None None l [] [] [] [] []).
Proof.
  intros Hq Hl. rewrite Forall_lookup in Hl.
  assert (Ho : flat_map owned l = [] /\ flat_map busy l = []).
  { assert (Hf : Forall fresh l) by by apply Forall_lookup. clear Hl. induction Hf as [|p l Hp _ IH]; [done|].
    cbn. destruct IH as [-> ->]. by destruct Hp as [->|[->| ->]]. }
  destruct Ho as [Ho Hb]. split; constructor; cbn -[N threadpool_queue_init]; rewrite ?Ho, ?Hb.
  - done.
  - apply init_holds.
  - by rewrite !app_nil_r.
  - apply length_replicate.
  - done.
  - done.
  - done.
  - intros i p Hp. destruct (Hl _ _ Hp) as [->|[->| ->]]; cbn; auto.
  - intros i. split; [done|]. intros (p & Hp & Hm). by destruct (Hl _ _ Hp) as [->|[->| ->]].
  - intros i. split; [done|]. intros (p & Hp & Hm). by destruct (Hl _ _ Hp) as [->|[->| ->]].
  - done.
  - intros _ i c Hp. by destruct (Hl _ _ Hp) as [|[|]].
  - intros (i & p & Hp & Hm). by destruct (Hl _ _ Hp) as [->|[->| ->]].
  - intros (i & p & Hp & Hm). by destruct (Hl _ _ Hp) as [->|[->| ->]].
  - done.
Qed.

Lemma inv_init fuel num clients s : threadpool_init fuel num clients = Ret (Some s) -> inv (seq 0 N) [] s.
Proof.
  unfold threadpool_init. fold N. destruct (fill_free_spec N 0 threadpool_queue_init) as (q & -> & Hq);
    [apply init_holds|done|]. bind. destruct (start_workers _ _ _ _) as [ws| |] eqn:E; [|done..]. bind.
  apply start_workers_spec in E as (k & -> & _). intros [= <-]. apply inv_fresh; [done|].
  rewrite !Forall_app, Forall_singleton. unfold fresh. split_and!; try apply Forall_replicate; auto.
Qed.

Lemma reachable_inv num clients s : reachable num clients s -> exists fl tl, inv fl tl s.
Proof.
  induction 1 as [fuel s Hs|s s' Hr (fl & tl & IH) Hs]; [exists (seq 0 N), []; by eapply inv_init|].
  by eapply inv_step.
Qed.

(** ** Theorems *)

Lemma start_workers_ok num fuel count ws : (Z.to_nat (num - count) <= fuel)%nat -> 0 <= count <= num -> num < 2 ^ 16 ->
  start_workers fuel count num ws = Ret (ws ++ replicate (Z.to_nat (num - count)) WGet).
Proof.
  revert count ws. induction fuel as [|fuel IH]; intros count ws Hf Hc Hn; cbn [start_workers];
    destruct (Z.ltb_spec count num) as [Hlt|Hge].
  - lia.
  - replace (num - count) with 0 by lia. by rewrite app_nil_r.
  - unfold u16 at 1. rewrite Z.mod_small by lia. rewrite IH by lia. rewrite <-app_assoc. do 2 f_equal.
    by replace (Z.to_nat (num - count)) with (S (Z.to_nat (num - (count + 1)))) by lia.
  - replace (num - count) with 0 by lia. by rewrite app_nil_r.
Qed.

Lemma start_workers_diverges num fuel count ws : 2 ^ 16 <= num -> 0 <= count < 2 ^ 16 ->
  start_workers fuel count num ws = Fuel.
Proof.
  intros Hn. revert count ws. induction fuel as [|fuel IH]; intros count ws Hc; cbn [start_workers];
    rewrite (proj2 (Z.ltb_lt _ _)) by lia; [done|]. apply IH. unfold u16. apply Z.mod_pos_bound. lia.
Qed.

Lemma threadpool_init_ok num clients : 0 <= num -> num < 2 ^ 16 -> exists free, holds free (seq 0 N) /\
  threadpool_init (Z.to_nat num) num clients = Ret (Some (State threadpool_queue_init free
    (replicate N threadpool_task_init) false false None None
    (replicate (Z.to_nat num) WGet ++ replicate clients (CIdle 0) ++ [SIdle]) [] [] [] [] [])).
Proof.
  intros Hn Hlt. unfold threadpool_init. fold N.
  destruct (fill_free_spec N 0 threadpool_queue_init) as (q & -> & Hq); [apply init_holds|done|]. bind.
  exists q. split; [done|]. rewrite start_workers_ok by lia. bind. by rewrite Z.sub_0_r.
Qed.

(** Starting the pool: for up to 65535 workers [threadpool_init] returns a pool with
    that many workers at their first instruction, every task structure in the queue of
    free ones, in order, and nothing queued; for more, the [unsigned short] that counts
    them never reaches the number and the call never returns. *)
Theorem threadpool_init_workers num clients : 0 <= num ->
  (num < 2 ^ 16 -> exists free, holds free (seq 0 N) /\
    threadpool_init (Z.to_nat num) num clients = Ret (Some (State threadpool_queue_init free
      (replicate N threadpool_task_init) false false None None
      (replicate (Z.to_nat num) WGet ++ replicate clients (CIdle 0) ++ [SIdle]) [] [] [] [] []))) /\
  (2 ^ 16 <= num -> forall fuel, threadpool_init fuel num clients = Fuel).
Proof.
  intros Hn. split; [by apply threadpool_init_ok|]. intros Hge fuel. unfold threadpool_init. fold N.
  destruct (fill_free_spec N 0 threadpool_queue_init) as (q & -> & _); [apply init_holds|done|]. bind.
  by rewrite start_workers_diverges.
Qed.

(** C32. Every interleaving is safe: no thread ever steps outside the pool's objects or
    uses them after they are freed, the two mutexes exclude, and a call to
    [threadpool_add_task] returns 0 or, when it may not block, -2. *)
Theorem threadpool_safe num clients s : reachable num clients s ->
  (forall i p, thr s !! i = Some p -> exists o, thread_step i p s = Ret o) /\
  (forall i j p q, thr s !! i = Some p -> thr s !! j = Some q ->
    has_mutex p && has_mutex q || has_free_mutex p && has_free_mutex q = true -> i = j) /\
  (forall i r, thr s !! i = Some (CIdle r) -> r = 0 \/ r = -2).
Proof.
  intros (fl & tl & Hinv)%reachable_inv. pose proof (iv_ctrl _ _ _ Hinv) as HC. split_and!.
  - intros i p Hi. pose proof (good_thread _ _ _ _ _ Hinv Hi) as Hg. destruct (thread_step i p s) as [o| |]; [|done..].
    by exists o.
  - intros i j p q Hi Hj [[Hp Hq]%andb_true_iff|[Hp Hq]%andb_true_iff]%orb_true_iff.
    + assert (mutex s = Some i) by (apply (iv_mutex _ _ _ HC); eauto).
      assert (mutex s = Some j) by (apply (iv_mutex _ _ _ HC); eauto). congruence.
    + assert (free_tasks_mutex s = Some i) by (apply (iv_free_mutex _ _ _ HC); eauto).
      assert (free_tasks_mutex s = Some j) by (apply (iv_free_mutex _ _ _ HC); eauto). congruence.
  - intros i r Hi. by apply (iv_pc _ _ _ HC _ _ Hi).
Qed.

(** C33. Tasks are delivered in order and at most once: what the workers have started is
    the accepted tasks in the order of acceptance, without those still queued; each
    started task has had its routine called once, or has none and was dropped, or is in
    the hands of a worker about to do so. *)
Theorem threadpool_fifo_once num clients s : reachable num clients s ->
  exists pending, holds (tasks_queue s) pending /\
    accepted s = started s ++ map (at_ (tasks s)) pending /\
    started s ≡ₚ ran s ++ dropped s ++ map (at_ (tasks s)) (flat_map busy (thr s)) /\
    Forall (fun x => routine_cb x <> None) (ran s) /\ Forall (fun x => routine_cb x = None) (dropped s).
Proof.
  intros (fl & tl & [HD _])%reachable_inv. exists tl. destruct HD as [H1 H2 H3 H4 H5 H6 (H7 & H8 & _)]. by split_and!.
Qed.

(** Task structures: each of the 10000 is free, queued or in the hands of one
    thread, or it was in a task without routine: the worker that meets one does not
    return it, so each such task shrinks the pool for good, and 10000 of them leave
    every later call without a structure. *)
Theorem threadpool_null_task_leaks num clients s : reachable num clients s ->
  exists free pending, holds (free_tasks_queue s) free /\ holds (tasks_queue s) pending /\
    NoDup (free ++ pending ++ flat_map owned (thr s)) /\
    (length free + length pending + length (flat_map owned (thr s)) = N - length (dropped s))%nat /\
    (length (dropped s) = N -> forall i c, c_blocking c = false ->
      threadpool_add_task i (CWait c) s = goto i (CUnlockFree (-2)) s).
Proof.
  intros (fl & tl & [HD _])%reachable_inv. exists fl, tl. destruct HD as [H1 H2 H3 H4 H5 H6 (_ & _ & H7)].
  pose proof (Permutation_length H3) as Hl. rewrite length_seq, !length_app, H7 in Hl. split_and!; try done.
  - assert (Hnd : NoDup (fl ++ tl ++ flat_map owned (thr s) ++ leaked s)) by (rewrite H3; apply NoDup_seq).
    rewrite !app_assoc in Hnd. apply NoDup_app in Hnd as [Hnd _]. by rewrite <-app_assoc in Hnd.
  - lia.
  - intros Hd i c Hb. cbn [threadpool_add_task]. rewrite (empty_spec _ _ H1), Hb.
    destruct fl; [done|]. cbn [length] in Hl. lia.
Qed.

(** *** Nothing is ever stuck *)

(** A thread that holds a mutex is not blocked. *)
Lemma holder_moves i p s : has_mutex p || has_free_mutex p = true -> thread_step i p s <> Ret None.
Proof.
  unfold thread_step. intros Hp.
  destruct p; try discriminate Hp; cbn; destruct (freed s); try done; case_ifs; try done;
    try (destruct (threadpool_queue_dequeue _) as [[q []]| |]; bind; try done);
    try (destruct (threadpool_queue_enqueue _ _) as [[q r]| |]; bind; case_ifs; try done).
  by destruct (get_task_at _ _).
Qed.

(** Where a thread is when it has nothing left to do, and for the two waits what it
    waits for. *)
Definition at_rest (s : state) (p : pc) : Prop :=
  match p with
  | CIdle _ | SIdle | SDone | WExit => True
  | WSleep => threadpool_queue_is_empty (tasks_queue s) = true
  | CSleep _ => threadpool_queue_is_empty (free_tasks_queue s) = true
  | _ => False
  end.

Definition all_blocked (s : state) : Prop := forall i p, thr s !! i = Some p -> thread_step i p s = Ret None.

Lemma blocked_mutex fl tl s : inv fl tl s -> all_blocked s -> mutex s = None /\ free_tasks_mutex s = None.
Proof.
  intros [_ HC] Hb. split; [destruct (mutex s) as [j|] eqn:E|destruct (free_tasks_mutex s) as [j|] eqn:E]; try done.
  - apply (iv_mutex _ _ _ HC) in E as (p & Hp & Hm). pose proof (Hb _ _ Hp) as Hj.
    by apply holder_moves in Hj; [|rewrite Hm].
  - apply (iv_free_mutex _ _ _ HC) in E as (p & Hp & Hm). pose proof (Hb _ _ Hp) as Hj.
    by apply holder_moves in Hj; [|rewrite Hm, orb_true_r].
Qed.

Lemma blocked_rest fl tl s i p : inv fl tl s -> all_blocked s -> thr s !! i = Some p -> at_rest s p \/ p = SJoin.
Proof.
  intros Hinv Hb Hi. destruct (blocked_mutex _ _ _ Hinv Hb) as [Em Ef]. pose proof (Hb _ _ Hi) as Hs.
  destruct (has_mutex p || has_free_mutex p) eqn:Eh; [by apply holder_moves in Hs|].
  destruct Hinv as [HD HC]. revert Hs. unfold thread_step.
  destruct p; try discriminate Eh; cbn; unfold lock, lock_free; rewrite ?Em, ?Ef; auto;
    repeat case_match; try done; bind; try done;
    try (destruct (get_task_at _ _); bind; repeat case_match; done);
    try (unfold put_task_at; repeat case_match; bind; done); intros _; left.
  - rewrite (empty_spec _ _ (iv_tasks _ _ _ HD)). destruct tl; [done|]. by destruct (iv_sleep _ _ _ HC ltac:(done) i).
  - rewrite (empty_spec _ _ (iv_free _ _ _ HD)). destruct fl; [done|]. by destruct (iv_sleep_free _ _ _ HC ltac:(done) i c).
Qed.

(** What a step does to the threads: one moves, all may be woken, and none changes
    its kind; only the thread that stops the pool sets the flag, and it is done when
    the pool is freed. *)
Definition kept (p q : pc) : Prop :=
  is_worker q = is_worker p /\ stopping q = stopping p /\ (q = SDone -> p = SDone).

Lemma thread_step_shape i p s s' : thread_step i p s = Ret (Some s') ->
  exists p' w, thr s' = <[i := p']> (map w (thr s)) /\ (forall q, kept q (w q)) /\
    is_worker p' = is_worker p /\ (stopping p = true -> stopping p' = true) /\
    (stop_flag s' = true -> stop_flag s = true \/ stopping p' = true) /\
    (freed s = true -> freed s' = true) /\ (p' = SDone -> freed s' = true).
Proof.
  assert (Hw : forall q, kept q (wake q)) by (by intros []). assert (Hf : forall q, kept q (wake_free q)) by (by intros []).
  assert (Hi : forall q, kept q (id q)) by done.
  unfold thread_step. destruct p; cbn -[threadpool_queue_dequeue threadpool_queue_enqueue];
    unfold goto, lock, unlock, lock_free, unlock_free, put_task_at, mbind, res_bind; intros Hs;
    repeat (case_match; try discriminate); simplify_eq;
    first [exists SUnlock, wake; split_and!; done|
      eexists _, id; rewrite map_id; split_and!; cbn; intros; first [reflexivity|done|by auto|left; congruence]|
      eexists _, wake; split_and!; cbn; intros; first [reflexivity|done|by auto|left; congruence]|
      eexists _, wake_free; split_and!; cbn; intros; first [reflexivity|done|by auto|left; congruence]].
Qed.

(** There is a worker, the flag is set only by a thread that stops the pool, and that
    thread is done only when the pool is freed. *)
Record lively (s : state) : Prop := Lively {
  lv_worker : exists i p, thr s !! i = Some p /\ is_worker p = true;
  lv_stop : stop_flag s = true -> exists i p, thr s !! i = Some p /\ stopping p = true;
  lv_done : forall i, thr s !! i = Some SDone -> freed s = true
}.

Lemma lively_move i p p' w s s' : lively s -> thr s !! i = Some p -> thr s' = <[i := p']> (map w (thr s)) ->
  (forall q, kept q (w q)) -> is_worker p' = is_worker p -> (stopping p = true -> stopping p' = true) ->
  (stop_flag s' = true -> stop_flag s = true \/ stopping p' = true) ->
  (freed s = true -> freed s' = true) -> (p' = SDone -> freed s' = true) -> lively s'.
Proof.
  intros [(j & q & Hj & Hq) Hst Hd] Hi Et Hw Hwk Hsp Hfl Hfr Hdn.
  assert (Hi' : (map w (thr s)) !! i = Some (w p)) by (apply map_lookup_pc; eauto).
  assert (Hat : forall k r (P : pc -> bool), thr s !! k = Some r -> P r = true -> P (w r) = P r ->
    (P p = true -> P p' = true) -> exists i p, thr s' !! i = Some p /\ P p = true).
  { intros k r P Hk HP Ew Hp. rewrite Et. destruct (decide (k = i)) as [->|Hne].
    - exists i, p'. rewrite (set_lookup_eq _ _ _ _ Hi'). split; [done|]. apply Hp. congruence.
    - exists k, (w r). rewrite list_lookup_insert_ne by done. split; [apply map_lookup_pc; eauto|congruence]. }
  split.
  - apply (Hat j q); [done..|apply Hw|congruence].
  - intros [(k & r & Hk & Hr)%Hst|Hp]%Hfl; [apply (Hat k r); [done..|apply Hw|done]|].
    exists i, p'. by rewrite Et, (set_lookup_eq _ _ _ _ Hi').
  - intros k Hk. rewrite Et in Hk. destruct (set_lookup _ _ _ _ _ _ Hi' Hk) as [[-> Hp]|[_ Hk']]; [by apply Hdn|].
    apply map_lookup_pc in Hk' as (r & Hr & Er). apply Hfr, (Hd k). symmetry in Er. apply Hw in Er. by subst r.
Qed.

Lemma reachable_lively num clients s : 0 < num -> reachable num clients s -> lively s.
Proof.
  intros Hn. induction 1 as [fuel s Hs|s s' Hr IH Hs].
  - unfold threadpool_init in Hs. destruct (fill_free _ _ _) as [[free|]| |]; try done. cbn [mbind res_bind] in Hs.
    destruct (start_workers _ _ _ _) as [ws| |] eqn:E; [|done..]. apply start_workers_spec in E as (k & -> & Hk).
    injection Hs as <-. destruct k as [|k]; [by specialize (Hk Hn); lia|]. split; cbn [thr stop_flag freed app replicate]; [by exists O, WGet|done|].
    intros i Hi. exfalso. assert (HF : Forall fresh ((WGet :: replicate k WGet) ++ replicate clients (CIdle 0) ++ [SIdle])).
    { rewrite !Forall_app, Forall_cons, Forall_singleton. unfold fresh. split_and!; try apply Forall_replicate; auto. }
    rewrite Forall_lookup in HF. by destruct (HF _ _ Hi) as [|[|]].
  - destruct Hs as [i p s' Hi Hs|i r c Hi _|i Hi _|i Hi|i c Hi].
    { destruct (thread_step_shape _ _ _ _ Hs) as (p' & w & ? & ? & ? & ? & ? & ? & ?). by eapply lively_move. }
    all: eapply (lively_move _ _ _ id); [done|done|by rewrite map_id|done|try done; by auto..].
Qed.

(** What the pool looks like when it is done: nobody is inside it any more. *)
Definition over (p : pc) : Prop := p = WExit \/ p = SDone \/ p = SIdle \/ exists r, p = CIdle r.

(** What the threads of a pool do that has nothing to do: the workers sleep, the clients
    are outside it, or wait although each of the task structures was lost in a task
    without routine. *)
Definition waiting (s : state) (p : pc) : Prop :=
  p = WSleep \/ p = SIdle \/ (exists r, p = CIdle r) \/ (exists c, p = CSleep c) /\ length (dropped s) = N.

Lemma blocked_all fl tl s : inv fl tl s -> all_blocked s -> forall i p, thr s !! i = Some p -> at_rest s p.
Proof.
  intros Hinv Hb i p Hi. pose proof (iv_ctrl _ _ _ Hinv) as HC.
  destruct (blocked_rest _ _ _ _ _ Hinv Hb Hi) as [| ->]; [done|exfalso].
  pose proof (Hb _ _ Hi) as Hs. unfold thread_step in Hs. cbn in Hs.
  destruct (forallb joined (thr s)) eqn:Ej; [done|]. apply not_true_iff_false in Ej. apply Ej, forallb_forall.
  intros q Hq. apply list_elem_of_In, list_elem_of_lookup in Hq as [j Hj].
  destruct (blocked_rest _ _ _ _ _ Hinv Hb Hj) as [Hr| ->]; [|done]. destruct q; try done.
  exfalso. apply (iv_cast _ _ _ HC (ex_intro _ i (ex_intro _ SJoin (conj Hi eq_refl))) j Hj).
Qed.

Lemma flat_map_nil {A} (f : pc -> list A) l : (forall i p, l !! i = Some p -> f p = []) -> flat_map f l = [].
Proof.
  induction l as [|p l IH]; intros H; [done|]. cbn [flat_map]. rewrite (H O p eq_refl). apply IH. intros i. apply (H (S i)).
Qed.

Section blocked.
Context (fl tl : list nat) (s : state) (Hinv : inv fl tl s) (Hl : lively s) (Hb : all_blocked s).

(** Somebody stops the pool: that thread is done, and everybody has left. *)
Lemma blocked_stopping i p : thr s !! i = Some p -> stopping p = true ->
  freed s = true /\ forall j q, thr s !! j = Some q -> over q.
Proof.
  intros Hi Hp. pose proof (iv_ctrl _ _ _ Hinv) as HC. pose proof (blocked_all _ _ _ Hinv Hb) as Hrest.
  assert (p = SDone) as -> by (pose proof (Hrest _ _ Hi); by destruct p).
  split; [by apply (lv_done _ Hl i)|]. intros j q Hj. pose proof (Hrest _ _ Hj) as Hr. unfold over.
  pose proof (iv_quiet _ _ _ HC ltac:(eauto) _ _ Hj) as Hq. destruct q; try done; eauto.
  exfalso. by apply (iv_cast _ _ _ HC (ex_intro _ i (ex_intro _ SDone (conj Hi eq_refl))) j).
Qed.

(** Nobody does: a worker sleeps, so nothing is queued, and no thread has a structure. *)
Lemma blocked_running : stop_flag s = false ->
  tl = [] /\ freed s = false /\ flat_map owned (thr s) = [] /\ flat_map busy (thr s) = [] /\
  forall i p, thr s !! i = Some p -> waiting s p.
Proof.
  intros Es. destruct (Hinv) as [HD HC]. pose proof (blocked_all _ _ _ Hinv Hb) as Hrest.
  assert (Hpc : forall i p, thr s !! i = Some p -> pc_ok false (tasks s) p) by (rewrite <-Es; apply HC).
  assert (Htl : tl = []).
  { destruct (lv_worker _ Hl) as (i & p & Hi & Hp). pose proof (Hrest _ _ Hi). pose proof (Hpc _ _ Hi).
    destruct p; try done. destruct tl; [done|]. by destruct (iv_sleep _ _ _ HC ltac:(done) i). }
  assert (Ho : flat_map owned (thr s) = []) by
    (apply flat_map_nil; intros i p Hi; pose proof (Hrest _ _ Hi); by destruct p).
  split_and!; [done| |done| |].
  - destruct (freed s) eqn:Ef; [|done]. destruct (iv_freed _ _ _ HC Ef) as [_ (i & p & Hi & Hp)].
    pose proof (Hrest _ _ Hi). pose proof (Hpc _ _ Hi). by destruct p.
  - apply flat_map_nil; intros i p Hi; pose proof (Hrest _ _ Hi); by destruct p.
  - intros i p Hi. pose proof (Hrest _ _ Hi). pose proof (Hpc _ _ Hi). unfold waiting. destruct p; try done; eauto.
    do 3 right. split; [eauto|]. destruct fl; [|by destruct (iv_sleep_free _ _ _ HC ltac:(done) i c)].
    pose proof (iv_perm _ _ _ HD) as Hp. rewrite Ho, Htl in Hp. apply Permutation_length in Hp.
    rewrite length_seq in Hp. cbn [app] in Hp. destruct (iv_null _ _ _ HD) as (_ & _ & <-). done.
Qed.

End blocked.

(** C34. No wake-up is lost and nothing is ever stuck: when no thread of a pool with at
    least one worker can make a step, then either the pool was stopped, it has been freed,
    every worker has left its loop and every call has returned; or it was not, the queue
    of tasks is empty, each task that was accepted has been started and its routine has
    returned or, when it has none, it has been dropped, every worker is asleep, and no
    call waits, unless the structures are used up by 10000 tasks without routine. *)
Theorem threadpool_never_stuck num clients s : 0 < num -> reachable num clients s -> all_blocked s ->
  (stop_flag s = true /\ freed s = true /\ forall i p, thr s !! i = Some p -> over p) \/
  (stop_flag s = false /\ freed s = false /\ holds (tasks_queue s) [] /\
    accepted s = started s /\ started s ≡ₚ ran s ++ dropped s /\
    forall i p, thr s !! i = Some p -> waiting s p).
Proof.
  intros Hn Hr Hb. pose proof (reachable_lively _ _ _ Hn Hr) as Hl. destruct (reachable_inv _ _ _ Hr) as (fl & tl & Hinv).
  destruct (stop_flag s) eqn:Es; [left|right].
  - destruct (lv_stop _ Hl Es) as (i & p & Hi & Hp). by destruct (blocked_stopping _ _ _ Hinv Hl Hb _ _ Hi Hp).
  - destruct (blocked_running _ _ _ Hinv Hl Hb Es) as (-> & Ef & _ & Eb & Hw). destruct (iv_data _ _ _ Hinv) as [_ Ht _ _ Ha Hs _].
    rewrite Eb in Hs. cbn [map] in Ha, Hs. rewrite app_nil_r in Ha. by rewrite app_nil_r in Hs.
Qed.

(** [threadpool_free] frees the pool only when every worker has returned from its
    routine and no call is under way: once the memory is gone no thread is at an
    instruction that uses it. *)
Theorem threadpool_free_quiescent num clients s : reachable num clients s -> freed s = true ->
  forall i p, thr s !! i = Some p ->
  thread_step i p s <> UB /\ (p = WExit \/ stopping p = true \/ p = SIdle \/ exists r, p = CIdle r).
Proof.
  intros (fl & tl & Hinv)%reachable_inv Hf i p Hi. pose proof (iv_ctrl _ _ _ Hinv) as HC.
  destruct (iv_freed _ _ _ HC Hf) as [Hj Hst]. split.
  - pose proof (good_thread _ _ _ _ _ Hinv Hi) as Hg. by destruct (thread_step i p s).
  - specialize (Hj _ _ Hi). pose proof (iv_quiet _ _ _ HC Hst _ _ Hi). destruct p; try done; auto; eauto.
Qed.

(** ** A run *)

(** The pool with two workers and a client right after [threadpool_init]. *)
Definition started_pool (free : threadpool_queue) : state :=
  State threadpool_queue_init free (replicate N threadpool_task_init) false false None None
    [WGet; WGet; CIdle 0; SIdle] [] [] [] [] [].

Lemma started_reachable : exists free, holds free (seq 0 N) /\ reachable 2 1 (started_pool free).
Proof.
  destruct (threadpool_init_ok 2 1) as (q & Hq & Hs); [lia..|]. exists q. split; [done|]. by eapply reach_init.
Qed.

(** Threads making steps in a given order. *)
Fixpoint schedule (js : list nat) (s : state) : option state :=
  match js with
  | [] => Some s
  | i :: js =>
    match thr s !! i with
    | Some p => match thread_step i p s with Ret (Some s') => schedule js s' | _ => None end
    | None => None
    end
  end.

Lemma schedule_reachable num clients js s s' : reachable num clients s -> schedule js s = Some s' ->
  reachable num clients s'.
Proof.
  revert s. induction js as [|i js IH]; intros s Hr; cbn [schedule]; [by intros [= <-]|].
  destruct (thr s !! i) as [p|] eqn:Ei; [|done]. destruct (thread_step i p s) as [[s1|]| |] eqn:Es; try done.
  apply IH. eapply reach_step; [done|]. by eapply step_thread.
Qed.

Ltac flat H :=
  unfold set_pc, set_mutex, set_free_mutex, set_thr, set_tasks, set_tasks_queue, set_free_queue, set_flags,
    log_accepted, log_started, log_ran, log_dropped in H; cbn -[N replicate threadpool_queue_init put_task_at] in H.

Ltac advance js :=
  match goal with
  | H : reachable ?n ?c ?s |- _ =>
    let o := eval cbn -[N threadpool_queue_init replicate] in (schedule js s) in
    match o with
    | Some ?t => let H' := fresh in assert (H' : reachable n c t) by (by apply (schedule_reachable n c js s t H));
        clear H; rename H' into H; flat H
    end
  end.

Ltac one_step i tac :=
  match goal with
  | H : reachable ?n ?c ?s |- _ =>
    eapply reach_step in H; [|eapply (step_thread _ i); [reflexivity|]; cbn -[N replicate threadpool_queue_init put_task_at];
      tac; unfold goto; reflexivity];
    flat H
  end.

Lemma put_ok s x : length (tasks s) = N -> put_task_at s 0 x = Ret (set_tasks (<[0%nat := x]> (tasks s)) s).
Proof.
  intros Hl. unfold put_task_at. rewrite (proj2 (Nat.ltb_lt _ _)); [done|]. rewrite Hl. unfold N. size. lia.
Qed.

(** A client adds the task of [c] and a worker takes it. *)
Lemma run_take c : exists s, reachable 2 1 s /\ thr s = [WTask (Some O); WGet; CIdle 0; SIdle] /\
  accepted s = [Task (c_routine c) (c_data c)] /\ started s = [Task (c_routine c) (c_data c)] /\
  ran s = [] /\ dropped s = [] /\ freed s = false /\ get_task_at s 0 = Ret (Task (c_routine c) (c_data c)).
Proof.
  destruct started_reachable as (free & Hf & Hr). replace N with (S (pred N)) in Hf by (unfold N; size; lia).
  destruct (dequeue_spec free 0 (seq 1 (pred N)) Hf) as (q1 & E1 & _).
  destruct (enqueue_spec threadpool_queue_init [] 0%nat init_holds) as (q2 & E2 & H2); [by size|].
  destruct (dequeue_spec q2 0%nat [] H2) as (q3 & E3 & _).
  assert (Hx : <[0%nat := Task (c_routine c) (c_data c)]> (replicate N threadpool_task_init) !! 0%nat =
    Some (Task (c_routine c) (c_data c))) by (apply list_lookup_insert_eq; rewrite length_replicate; unfold N; size; lia).
  apply (reach_step _ _ _ (set_pc 2 (CLockFree c) (started_pool free))) in Hr; [|by apply (step_call _ 2 0 c)].
  unfold started_pool in Hr. advance [2%nat]. one_step 2%nat ltac:(rewrite (empty_spec _ _ Hf), E1; bind).
  advance [2%nat].
  one_step 2%nat ltac:(rewrite put_ok by apply length_replicate; bind).
  remember (<[0%nat := _]> (replicate N threadpool_task_init)) as tk eqn:Etk. clear Etk.
  advance [2%nat]. one_step 2%nat ltac:(rewrite E2; bind; cbn -[N replicate threadpool_queue_init put_task_at]; rewrite (size_one _ _ H2)).
  advance [2%nat].
  advance [0%nat].
  advance [0%nat].
  one_step 0%nat ltac:(rewrite (empty_spec _ _ H2), E3; bind; unfold get_task_at; cbn -[N replicate threadpool_queue_init put_task_at];
    rewrite Hx; bind).
  advance [0%nat]. eexists. split; [done|]. unfold get_task_at. cbn -[N replicate]. by rewrite Hx.
Qed.

(** ... and runs or drops it. *)
Lemma run_task c : exists s, reachable 2 1 s /\ accepted s = [Task (c_routine c) (c_data c)] /\
  match c_routine c with
  | Some _ => ran s = [Task (c_routine c) (c_data c)] /\ dropped s = []
  | None => ran s = [] /\ dropped s = [Task (c_routine c) (c_data c)]
  end.
Proof.
  destruct (run_take c) as (s & Hr & Ht & Ha & Hs & Hn & Hd & Hf & Hg).
  assert (Hi : thr s !! 0%nat = Some (WTask (Some 0%nat))) by by rewrite Ht.
  assert (Hw : thread_step 0 (WTask (Some 0%nat)) s = worker_thr_routine 0 (WTask (Some 0%nat)) s)
    by (unfold thread_step; cbn [is_worker]; by rewrite Hf).
  cbn [worker_thr_routine] in Hw. rewrite Hg in Hw. cbn [mbind res_bind routine_cb] in Hw.
  destruct (c_routine c); (eexists; split; [eapply reach_step; [done|]; by eapply (step_thread _ 0)|]);
    cbn; by rewrite Ha, Hn, Hd.
Qed.

(** The pool after [threadpool_free]. *)
Lemma run_free : exists s, reachable 2 1 s /\ freed s = true /\ thr s = [WExit; WExit; CIdle 0; SDone].
Proof.
  destruct started_reachable as (free & Hf & Hr).
  apply (reach_step _ _ _ (set_pc 3 SStart (started_pool free))) in Hr; [|by apply (step_stop _ 3)].
  unfold started_pool in Hr. do 4 advance [3%nat]. do 2 advance [0%nat]. do 2 advance [1%nat]. advance [3%nat].
  eexists. split; [exact Hr|done].
Qed.

Lemma threadpool_safe_witness : exists s, reachable 2 1 s /\ ran s = [Task (Some 7) 42] /\
  forall i p, thr s !! i = Some p -> exists o, thread_step i p s = Ret o.
Proof.
  destruct (run_task (Call (Some 7) 42 false)) as (s & Hr & _ & Hran & _). exists s. split; [done|]. split; [done|].
  apply (threadpool_safe 2 1 s Hr).
Defined.

Lemma threadpool_fifo_once_witness : exists s, reachable 2 1 s /\ ran s = [Task (Some 7) 42] /\
  exists pending, accepted s = started s ++ map (at_ (tasks s)) pending.
Proof.
  destruct (run_task (Call (Some 7) 42 false)) as (s & Hr & _ & Hran & _). exists s. split; [done|]. split; [done|].
  destruct (threadpool_fifo_once 2 1 s Hr) as (pending & _ & H & _). by exists pending.
Defined.

Lemma threadpool_null_task_leaks_witness : exists s, reachable 2 1 s /\ dropped s = [Task None 42] /\
  exists free pending : list nat,
    (length free + length pending + length (flat_map owned (thr s)) = N - 1)%nat.
Proof.
  destruct (run_task (Call None 42 false)) as (s & Hr & _ & _ & Hd). exists s. split; [done|]. split; [done|].
  destruct (threadpool_null_task_leaks 2 1 s Hr) as (free & pending & _ & _ & _ & H & _). exists free, pending.
  by rewrite Hd in H.
Defined.

Lemma threadpool_never_stuck_witness : exists s, reachable 2 1 s /\ all_blocked s /\
  ((stop_flag s = true /\ freed s = true /\ forall i p, thr s !! i = Some p -> over p) \/
   (stop_flag s = false /\ freed s = false /\ holds (tasks_queue s) [] /\
    accepted s = started s /\ started s ≡ₚ ran s ++ dropped s /\
    forall i p, thr s !! i = Some p -> waiting s p)).
Proof.
  destruct run_free as (s & Hr & Hf & Ht). exists s. split; [done|].
  assert (Hb : all_blocked s).
  { intros i p. rewrite Ht. intros Hi. repeat (destruct i as [|i]; [injection Hi as <-; unfold thread_step; cbn; rewrite ?Hf; done|]).
    done. }
  split; [done|]. by apply (threadpool_never_stuck 2 1 s eq_refl Hr Hb).
Defined.

Lemma threadpool_free_quiescent_witness : exists s, reachable 2 1 s /\ freed s = true /\ thread_step 0 WExit s <> UB.
Proof.
  destruct run_free as (s & Hr & Hf & Ht). exists s. split; [done|]. split; [done|].
  apply (threadpool_free_quiescent 2 1 s Hr Hf 0 WExit). by rewrite Ht.
Defined.

Lemma threadpool_init_workers_witness : exists free, holds free (seq 0 N) /\
  threadpool_init 2 2 1 = Ret (Some (started_pool free)).
Proof. apply (threadpool_init_workers 2 1); done. Defined.
