(* ===== verification/Pcap.v ===== *)
(** Component: the packet capture reader of src/pcap_modidy: ewx_pcap.c maps a window of
    the file, moves it when a packet reaches beyond it, and hands out the packets one by
    one; pcap_modify.c counts the packets of a file that it reads from a descriptor. *)
From S2P Require Import Prelude Arrays Bytes.

(** ** Data *)

(** [ewx_pcap_hdr_t], with the signed [thiszone] as its 32 bits, and [ewx_pcaprec_hdr_t]. *)
Record pcap_hdr := PcapHdr {
  magic_number : Z; version_major : Z; version_minor : Z; thiszone : Z; sigfigs : Z; snaplen : Z; network : Z
}.
Record rec_hdr := RecHdr { ts_sec : Z; ts_usec : Z; incl_len : Z; orig_len : Z }.

Definition EWX_MAGIC_NUMBER : Z := 0xa1b2c3d4.
Definition hdr_size : Z := 24.
Definition rec_size : Z := 16.

(** [memcpy] of a header from the file, on a little-endian host. *)
Definition hdr_of (b : list Z) : pcap_hdr :=
  PcapHdr (le (take 4 b)) (le (take 2 (drop 4 b))) (le (take 2 (drop 6 b))) (le (take 4 (drop 8 b)))
    (le (take 4 (drop 12 b))) (le (take 4 (drop 16 b))) (le (take 4 (drop 20 b))).
Definition rec_of (b : list Z) : rec_hdr :=
  RecHdr (le (take 4 b)) (le (take 4 (drop 4 b))) (le (take 4 (drop 8 b))) (le (take 4 (drop 12 b))).

(** [ewx_pcap_info_t]: [mapped] says whether [ptr] is a mapping, of [length] bytes of the
    file from [offset] on; [cur] is [c_ptr - ptr]. *)
Record pcap_t := Pcap { big : bool; mapped : bool; cur : Z; offset : Z; length : Z; info : pcap_hdr }.

Definition advance (n : Z) (p : pcap_t) : pcap_t := Pcap (big p) (mapped p) (cur p + n) (offset p) (length p) (info p).

(** A [uint32_t] converted to [int]. *)
Definition as_int (x : Z) : Z := if x <? 2 ^ 31 then x else x - 2 ^ 32.

(** A call of [ewx_pcap_read]: what is returned and what is written to [pHdr] and to
    [pktBuff]. *)
Record answer (A : Type) := Answer { ret : Z; hdr : option rec_hdr; pkt : option A }.
Arguments Answer {A} ret hdr pkt.
Arguments ret {A} _.
Arguments hdr {A} _.
Arguments pkt {A} _.

(** ** The window *)

Section reader.
(** The content of the file, [MAP_SIZE] and the page size; [mmap] of a part of the file
    succeeds. *)
Context (file : list Z) (map_size page_size : Z) (mmap : Z -> Z -> bool).

Definition file_len : Z := Z.of_nat (List.length file).

Definition ewx_preread_file (p : pcap_t) : Z * pcap_t :=
  let delta := offset p mod page_size in
  let off := offset p - delta in
  let len := if u64 (map_size + off) <=? file_len then map_size else u64 (file_len - off) in
  if mmap off len then (0, Pcap (big p) true delta off len (info p))
  else (-1, Pcap (big p) (mapped p) (cur p) off (length p) (info p)).

(** [munmap]. *)
Definition ewx_free_pcapbuff (p : pcap_t) : pcap_t := Pcap (big p) false (cur p) (offset p) (length p) (info p).

(** The [n] bytes at [c_ptr]. *)
Definition fetch (p : pcap_t) (n : Z) : res (list Z) :=
  if mapped p && (cur p + n <=? length p) then slice file (offset p + cur p) n else UB.

(** ** Opening *)

Definition ewx_pcap_open : res (option pcap_t) :=
  if map_size <? page_size then Ret None else
  if file_len <? hdr_size then Ret None else
  b ← slice file 0 hdr_size;
  let h := hdr_of b in
  if negb (magic_number h =? EWX_MAGIC_NUMBER) && negb (magic_number h =? ntohl EWX_MAGIC_NUMBER) then Ret None else
  let be := magic_number h =? ntohl EWX_MAGIC_NUMBER in
  let h := if be then
      PcapHdr (ntohl (magic_number h)) (ntohs (version_major h)) (ntohs (version_minor h)) (ntohl (thiszone h))
        (ntohl (sigfigs h)) (ntohl (snaplen h)) (ntohl (network h))
    else h in
  let '(r, p) := ewx_preread_file (Pcap be false 0 0 0 h) in
  if r <? 0 then Ret None else
  Ret (Some (Pcap be (mapped p) hdr_size (offset p) (length p) h)).

Definition ewx_pcap_rewind (p : pcap_t) : pcap_t :=
  if file_len <=? map_size then Pcap (big p) (mapped p) hdr_size 0 (length p) (info p)
  else
    let p := ewx_free_pcapbuff p in
    let '(_, p) := ewx_preread_file (Pcap (big p) (mapped p) 0 0 0 (info p)) in
    Pcap (big p) (mapped p) hdr_size (offset p) (length p) (info p).

(** ** Reading *)

Definition ewx_pcap_convert (p : pcap_t) (h : rec_hdr) : rec_hdr :=
  if big p then RecHdr (ntohl (ts_sec h)) (ntohl (ts_usec h)) (ntohl (incl_len h)) (ntohl (orig_len h)) else h.

Definition ewx_pcap_read_prepare (p : pcap_t) (len : Z) : Z * pcap_t :=
  let tmp := cur p in
  if u64 len <=? u64 (length p - tmp) then (0, p)
  else if file_len <=? u64 (offset p + tmp + len) then (-1, p)
  else
    let p := ewx_free_pcapbuff p in
    ewx_preread_file (Pcap (big p) (mapped p) (cur p) (u64 (offset p + tmp)) (length p) (info p)).

(** The part that [ewx_pcap_read] and [ewx_pcap_read2] share; [take_pkt] is what they do
    with the packet. *)
Definition read_with {A} (take_pkt : pcap_t -> Z -> res A) (p : pcap_t) (bufLen : Z) : res (answer A * pcap_t) :=
  let '(r, p) := ewx_pcap_read_prepare p rec_size in
  if negb (r =? 0) then Ret (Answer 0 None None, p) else
  b ← fetch p rec_size;
  let p := advance rec_size p in
  let h := ewx_pcap_convert p (rec_of b) in
  if bufLen <? incl_len h then
    let '(r, p) := ewx_pcap_read_prepare p (as_int (incl_len h)) in
    if negb (r =? 0) then Ret (Answer 0 (Some h) None, p)
    else Ret (Answer (incl_len h) (Some h) None, advance (incl_len h) p)
  else
    let '(r, p) := ewx_pcap_read_prepare p (as_int (incl_len h)) in
    if negb (r =? 0) then Ret (Answer 0 (Some h) None, p)
    else
      x ← take_pkt p (incl_len h);
      Ret (Answer (incl_len h) (Some h) (Some x), advance (incl_len h) p).

(** The packet is copied. *)
Definition ewx_pcap_read : pcap_t -> Z -> res (answer (list Z) * pcap_t) := read_with fetch.

(** A pointer into the mapping, [c_ptr - ptr], is handed out. *)
Definition ewx_pcap_read2 : pcap_t -> Z -> res (answer Z * pcap_t) := read_with (fun p _ => Ret (cur p)).

(** Skipping is not supported: the function returns at once. *)
Definition ewx_pcap_skip (p : pcap_t) (skip : Z) : pcap_t := p.

(** What is left of the mapping when the reader is closed. *)
Definition ewx_pcap_close (p : pcap_t) : pcap_t := ewx_free_pcapbuff p.

(** The header of a packet that is written at [now], in seconds and microseconds. *)
Definition ewx_pcap_set_header (now : Z * Z) (len : Z) : rec_hdr := RecHdr (u32 now.1) (u32 now.2) (u32 len) (u32 len).

(** Reading [n] times. *)
Fixpoint read_many (n : nat) (p : pcap_t) (bufLen : Z) : res (list (answer (list Z)) * pcap_t) :=
  match n with
  | O => Ret ([], p)
  | S n =>
      '(a, p) ← ewx_pcap_read p bufLen;
      '(l, p) ← read_many n p bufLen;
      Ret (a :: l, p)
  end.

(** ** Counting, pcap_modify.c *)

Definition MAX_LEN : Z := 8192.

(** [read] of [n] bytes of a file at position [pos]: what is read. *)
Definition fread (pos n : Z) : list Z := take (Z.to_nat n) (drop (Z.to_nat pos) file).

(** What is returned, and the position after. *)
Definition ewx_pcap_read_simple (pos bufLen : Z) : Z * Z :=
  let b := fread pos rec_size in
  let pos := pos + Z.of_nat (List.length b) in
  if negb (Z.of_nat (List.length b) =? rec_size) then (0, pos) else
  let h := rec_of b in
  if bufLen <? incl_len h then (incl_len h, pos + incl_len h)
  else let d := fread pos (incl_len h) in (Z.of_nat (List.length d), pos + Z.of_nat (List.length d)).

Fixpoint count_loop (fuel : nat) (pos counter : Z) : res Z :=
  match fuel with
  | O => Fuel
  | S n =>
      let '(r, pos) := ewx_pcap_read_simple pos MAX_LEN in
      let len := as_int r in
      if MAX_LEN <? len then count_loop n pos counter
      else if len <=? 0 then Ret counter
      else c ← sint (counter + 1); count_loop n pos c
  end.

(** What [main] counts in a file with a header. *)
Definition count_packets : res (option Z) :=
  if negb (Z.of_nat (List.length (fread 0 hdr_size)) =? hdr_size) then Ret None
  else c ← count_loop (S (List.length file)) hdr_size 0; Ret (Some c).
End reader.
