(* ===== verification/PcapRead.v ===== *)
(** The packet capture reader on a file of packets: the window around the current
    position, what one call does with a packet inside the window, across its end and at
    the end of the file, runs of calls, and opening. *)
From S2P Require Import Prelude Arrays Bytes Pcap.

(** ** Files *)

(** A number in the byte order of the file. *)
Definition num (be : bool) (k : nat) (x : Z) : list Z := if be then be_bytes k x else le_bytes k x.

(** A packet: its header and its data. *)
Definition packet : Type := rec_hdr * list Z.

Definition enc_rec (be : bool) (r : rec_hdr) : list Z :=
  num be 4 (ts_sec r) ++ num be 4 (ts_usec r) ++ num be 4 (incl_len r) ++ num be 4 (orig_len r).

Definition enc_packet (be : bool) (x : packet) : list Z := enc_rec be x.1 ++ x.2.

Definition rec_ok (r : rec_hdr) : Prop :=
  0 <= ts_sec r < 2 ^ 32 /\ 0 <= ts_usec r < 2 ^ 32 /\ 0 <= incl_len r < 2 ^ 32 /\ 0 <= orig_len r < 2 ^ 32.

Definition packet_ok (x : packet) : Prop := rec_ok x.1 /\ incl_len x.1 = Z.of_nat (List.length x.2) /\ incl_len x.1 < 2 ^ 31.

(** What a call gives for a packet. *)
Definition delivered (bufLen : Z) (x : packet) : answer (list Z) :=
  Answer (incl_len x.1) (Some x.1) (if bufLen <? incl_len x.1 then None else Some x.2).

Lemma num_length be k x : List.length (num be k x) = k.
Proof. destruct be; [apply be_bytes_length|apply le_bytes_length]. Qed.

Lemma num_le k x : 0 <= x < 256 ^ Z.of_nat k -> le (num false k x) = x.
Proof. intros H. cbn. by rewrite le_le_bytes, Z.mod_small. Qed.

Lemma num_be k x : 0 <= x < 256 ^ Z.of_nat k -> be (le_bytes k (le (num true k x))) = x.
Proof.
  intros H. cbn. rewrite swap_le by (try apply be_bytes_length; apply be_bytes_byte). by rewrite be_be_bytes, Z.mod_small.
Qed.

Lemma take_num be k x l : take k (num be k x ++ l) = num be k x.
Proof. rewrite <-(num_length be k x) at 1. apply take_app_length. Qed.

Lemma drop_num be k x l : drop k (num be k x ++ l) = l.
Proof. rewrite <-(num_length be k x) at 1. apply drop_app_length. Qed.

Lemma enc_rec_length be r : List.length (enc_rec be r) = 16%nat.
Proof. unfold enc_rec. by rewrite !length_app, !num_length. Qed.

Lemma enc_packet_length be x : packet_ok x -> Z.of_nat (List.length (enc_packet be x)) = rec_size + incl_len x.1.
Proof. intros (_ & H & _). unfold enc_packet. rewrite length_app, enc_rec_length, H. unfold rec_size. lia. Qed.

(** The header of a packet, as it is read and converted. *)
Lemma rec_of_enc p r : rec_ok r -> ewx_pcap_convert p (rec_of (enc_rec (big p) r)) = r.
Proof.
  intros (H1 & H2 & H3 & H4). change (2 ^ 32) with (256 ^ Z.of_nat 4) in *.
  unfold ewx_pcap_convert, rec_of, enc_rec. destruct r as [a b c d]. cbn [ts_sec ts_usec incl_len orig_len] in *.
  replace 12%nat with (4 + 8)%nat by done. replace 8%nat with (4 + 4)%nat by done. rewrite <-!drop_drop.
  rewrite !drop_num, !take_num, (take_ge (num (big p) 4 d)) by (by rewrite num_length).
  destruct (big p); unfold ntohl; [by rewrite !num_be|by rewrite !num_le].
Qed.

(** ** The window *)

Section reader.
Context (file : list Z) (map_size page_size : Z) (mmap : Z -> Z -> bool).
Context (Hmmap : forall off len, 0 <= off -> off mod page_size = 0 -> 0 < len <= map_size -> off + len <= file_len file -> mmap off len = true).
Context (Hpage : 0 < page_size <= map_size) (Hmap : hdr_size <= map_size < 2 ^ 62) (Hfile : file_len file < 2 ^ 62).

(** [c_ptr] is at position [q] of the file, inside a window that is as large as it may
    be. *)
Record at_pos (p : pcap_t) (q : Z) : Prop := AtPos {
  ap_mapped : mapped p = true;
  ap_cur : 0 <= cur p <= length p;
  ap_offset : 0 <= offset p;
  ap_pos : offset p + cur p = q;
  ap_inside : offset p + length p <= file_len file;
  ap_full : length p = map_size \/ (length p < map_size /\ offset p + length p = file_len file)
}.

Lemma u64_id x : 0 <= x < 2 ^ 64 -> u64 x = x.
Proof. apply Z.mod_small. Qed.

(** The window that begins in the page of [q]. *)
Lemma preread_spec p q : 0 <= q < file_len file -> offset p = q ->
  exists p', ewx_preread_file file map_size page_size mmap p = (0, p') /\ at_pos p' q /\ big p' = big p /\ info p' = info p /\
    cur p' < page_size /\ (0 <= q < page_size -> offset p' = 0).
Proof.
  intros Hq Ho. unfold ewx_preread_file. rewrite Ho. pose proof (Z.mod_pos_bound q page_size ltac:(lia)) as Hm.
  assert (H0 : 0 <= q - q mod page_size) by (pose proof (Z.mod_le q page_size); lia).
  assert (Hd : (q - q mod page_size) mod page_size = 0).
  { rewrite Zminus_mod_idemp_r, Z.sub_diag. apply Z.mod_0_l. lia. }
  rewrite (u64_id (map_size + _)) by lia. set (off := q - q mod page_size) in *.
  assert (Hoff : 0 <= q < page_size -> off = 0) by (intros H; unfold off; rewrite Z.mod_small by lia; lia).
  destruct (Z.leb_spec (map_size + off) (file_len file)).
  - rewrite Hmmap; [|lia|exact Hd|lia|lia]. eexists. split; [done|]. split; [split; cbn; (done || lia)|]. cbn. split_and!; try done; lia.
  - rewrite u64_id by lia. rewrite Hmmap; [|lia|exact Hd|lia|lia]. eexists. split; [done|]. split; [split; cbn; (done || lia)|]. cbn. split_and!; try done; lia.
Qed.

(** The three outcomes of [ewx_pcap_read_prepare]. *)
Lemma prepare_spec p q len : at_pos p q -> 0 <= len < 2 ^ 62 ->
  (cur p + len <= length p /\ ewx_pcap_read_prepare file map_size page_size mmap p len = (0, p)) \/
  (length p < cur p + len /\ file_len file <= q + len /\ ewx_pcap_read_prepare file map_size page_size mmap p len = (-1, p)) \/
  (length p < cur p + len /\ q + len < file_len file /\ exists p', ewx_pcap_read_prepare file map_size page_size mmap p len = (0, p') /\
    at_pos p' q /\ big p' = big p /\ info p' = info p /\ (len + page_size <= map_size -> cur p' + len <= length p')).
Proof.
  intros HP Hl. destruct HP as [H1 H2 H3 H4 H5 H6]. unfold ewx_pcap_read_prepare. rewrite H4.
  rewrite (u64_id len), (u64_id (length p - cur p)), (u64_id (q + len)) by lia.
  destruct (Z.leb_spec len (length p - cur p)); [left; split; [lia|done]|right].
  destruct (Z.leb_spec (file_len file) (q + len)); [left; split; [lia|done]|right]. split; [lia|]. split; [lia|].
  cbn [ewx_free_pcapbuff big mapped cur offset length info]. rewrite H4, u64_id by lia.
  destruct (preread_spec (Pcap (big p) false (cur p) q (length p) (info p)) q) as (p' & E & HP' & Hb & Hi & Hc & _); [lia|done|].
  exists p'. split; [exact E|]. split; [done|]. split; [done|]. split; [done|]. destruct HP' as [K1 K2 K3 K4 K5 K6]. lia.
Qed.

Lemma prepare_inside p q len : at_pos p q -> 0 <= len -> cur p + len <= length p ->
  ewx_pcap_read_prepare file map_size page_size mmap p len = (0, p).
Proof.
  intros [H1 H2 H3 H4 H5 H6] Hl Hc. unfold ewx_pcap_read_prepare. rewrite (u64_id len), (u64_id (length p - cur p)) by lia.
  by rewrite (proj2 (Z.leb_le _ _)) by lia.
Qed.

Lemma fetch_spec p q n : at_pos p q -> 0 <= n -> cur p + n <= length p ->
  fetch file p n = Ret (take (Z.to_nat n) (drop (Z.to_nat q) file)).
Proof.
  intros [H1 H2 H3 H4 H5 H6] Hn Hc. unfold fetch. rewrite H1, H4, (proj2 (Z.leb_le _ _) Hc). cbn [andb].
  apply slice_ok; unfold file_len in *; lia.
Qed.

Lemma advance_at p q n : at_pos p q -> 0 <= n -> cur p + n <= length p -> at_pos (advance n p) (q + n).
Proof. intros [H1 H2 H3 H4 H5 H6] Hn Hc. split; cbn; (done || lia). Qed.

(** ** One packet *)

Lemma as_int_small x : x < 2 ^ 31 -> as_int x = x.
Proof. intros H. unfold as_int. by rewrite (proj2 (Z.ltb_lt _ _) H). Qed.

(** The packet [x] is in the file after [pre], before [post]. *)
Context (pre post : list Z) (x : packet) (be : bool) (bufLen : Z).
Context (Hf : file = pre ++ enc_packet be x ++ post) (Hx : packet_ok x).
Local Abbreviation pos := (Z.of_nat (List.length pre)).
Local Abbreviation read := (ewx_pcap_read file map_size page_size mmap).
Local Abbreviation prepare := (ewx_pcap_read_prepare file map_size page_size mmap).

Lemma incl_len_nonneg : 0 <= incl_len x.1 < 2 ^ 31.
Proof. destruct Hx as (_ & H & H'). lia. Qed.

Lemma file_len_split : file_len file = pos + rec_size + incl_len x.1 + Z.of_nat (List.length post).
Proof. pose proof (enc_packet_length be x Hx). unfold file_len. rewrite Hf, !length_app. lia. Qed.

Lemma fetch_hdr p : at_pos p pos -> big p = be -> cur p + rec_size <= length p ->
  exists b, fetch file p rec_size = Ret b /\ ewx_pcap_convert (advance rec_size p) (rec_of b) = x.1.
Proof.
  intros HP Hb Hc. eexists. split; [apply (fetch_spec p _ rec_size HP); [unfold rec_size; lia|done]|].
  unfold enc_packet in Hf. rewrite Hf, Nat2Z.id, drop_app_length.
  rewrite <-app_assoc, take_app_length' by (by rewrite enc_rec_length). rewrite <-Hb. exact (rec_of_enc (advance rec_size p) x.1 (proj1 Hx)).
Qed.

Lemma fetch_data p : at_pos p (pos + rec_size) -> cur p + incl_len x.1 <= length p -> fetch file p (incl_len x.1) = Ret x.2.
Proof.
  intros HP Hc. rewrite (fetch_spec p _ _ HP (proj1 incl_len_nonneg) Hc). unfold enc_packet in Hf.
  rewrite Hf, <-app_assoc, app_assoc, drop_app_length' by (rewrite length_app, enc_rec_length; unfold rec_size; lia).
  f_equal. apply take_app_length'. destruct Hx as (_ & -> & _). lia.
Qed.

(** What a call does, given the two calls of [ewx_pcap_read_prepare]. *)
Lemma read_step p p1 r p2 : prepare p rec_size = (0, p1) -> at_pos p1 pos -> big p1 = be -> cur p1 + rec_size <= length p1 ->
  prepare (advance rec_size p1) (incl_len x.1) = (r, p2) ->
  (r = 0 -> at_pos p2 (pos + rec_size) /\ cur p2 + incl_len x.1 <= length p2) ->
  read p bufLen = Ret (if r =? 0 then (delivered bufLen x, advance (incl_len x.1) p2) else (Answer 0 (Some x.1) None, p2)).
Proof.
  intros E1 HP1 Hb1 Hc1 E2 H2. unfold ewx_pcap_read, read_with. rewrite E1. cbn [negb Z.eqb].
  destruct (fetch_hdr p1 HP1 Hb1 Hc1) as (b & -> & Eh). cbn [mbind res_bind]. rewrite Eh.
  rewrite as_int_small by apply incl_len_nonneg. rewrite E2. unfold delivered.
  destruct (Z.eqb_spec r 0) as [Hr|Hr]; cbn [negb]; [|by destruct (bufLen <? incl_len x.1)].
  destruct (H2 Hr) as [HP2 Hc2]. destruct (bufLen <? incl_len x.1); [done|]. by rewrite (fetch_data p2 HP2 Hc2).
Qed.

(** A packet inside the window is delivered from it. *)
Lemma read_inside p : at_pos p pos -> big p = be -> cur p + rec_size + incl_len x.1 <= length p ->
  read p bufLen = Ret (delivered bufLen x, advance (incl_len x.1) (advance rec_size p)).
Proof.
  intros HP Hb Hc. pose proof incl_len_nonneg as Hi. assert (H0 : 0 <= rec_size) by (unfold rec_size; lia).
  pose proof (advance_at p _ rec_size HP H0 ltac:(lia)) as HP'.
  rewrite (read_step p p 0 (advance rec_size p)); try done; [by apply (prepare_inside p pos); [| |lia]|lia|].
  apply (prepare_inside _ _ _ HP'); [lia|cbn; lia].
Qed.

(** The last packet is lost when its header is in the window and its data is not. *)
Lemma read_lost p : at_pos p pos -> big p = be -> post = [] -> cur p + rec_size <= length p < cur p + rec_size + incl_len x.1 ->
  read p bufLen = Ret (Answer 0 (Some x.1) None, advance rec_size p).
Proof.
  intros HP Hb Hpost Hc. pose proof incl_len_nonneg as Hi. pose proof file_len_split as Hl. rewrite Hpost in Hl. cbn in Hl.
  destruct (prepare_spec p _ rec_size HP) as [[_ E1]|[(? & _)|(? & _)]]; [unfold rec_size; lia| |lia|lia].
  pose proof (advance_at p _ rec_size HP ltac:(unfold rec_size; lia) ltac:(lia)) as HQ.
  destruct (prepare_spec _ _ (incl_len x.1) HQ) as [[Hc2 _]|[(_ & _ & E2)|(_ & ? & _)]]; [lia|cbn in Hc2; lia| |lia].
  rewrite (read_step p p (-1) (advance rec_size p)); first [done|lia|idtac].
Qed.
Context (Hroom : rec_size + page_size <= map_size) (Hroom' : incl_len x.1 + page_size <= map_size).

(** A packet with something after it is always delivered. *)
Lemma read_across p : at_pos p pos -> big p = be -> post <> [] ->
  exists p', read p bufLen = Ret (delivered bufLen x, p') /\ at_pos p' (pos + rec_size + incl_len x.1) /\ big p' = be /\ info p' = info p.
Proof.
  intros HP Hb Hpost. pose proof incl_len_nonneg as Hi. pose proof file_len_split as Hl.
  assert (0 < Z.of_nat (List.length post)) by (destruct post; cbn; [done|lia]).
  destruct (prepare_spec p _ rec_size HP) as [[Hc E1]|[(? & ? & _)|(_ & _ & p1 & E1 & HP1 & Hb1 & Hi1 & Hc)]];
    [unfold rec_size; lia| |lia|].
  - pose proof (advance_at p _ rec_size HP ltac:(unfold rec_size; lia) Hc) as HQ.
    destruct (prepare_spec _ _ (incl_len x.1) HQ) as [[Hc2 E2]|[(_ & ? & _)|(_ & _ & p2 & E2 & HP2 & Hb2 & Hi2 & Hc2)]]; [lia| |lia|];
      (try specialize (Hc2 Hroom'); eexists; split; [by rewrite (read_step p p 0 _ E1 HP Hb Hc E2)|]); [split; [apply advance_at; (done || lia)|done]|].
    split; [apply advance_at; (done || lia)|]. cbn. by rewrite Hb2, Hi2.
  - specialize (Hc Hroom). pose proof (advance_at p1 _ rec_size HP1 ltac:(unfold rec_size; lia) Hc) as HQ.
    assert (Hb' : big p1 = be) by (by rewrite Hb1).
    destruct (prepare_spec _ _ (incl_len x.1) HQ) as [[Hc2 E2]|[(_ & ? & _)|(_ & _ & p2 & E2 & HP2 & Hb2 & Hi2 & Hc2)]]; [lia| |lia|];
      (try specialize (Hc2 Hroom'); eexists; split; [by rewrite (read_step p p1 0 _ E1 HP1 Hb' Hc E2)|]); (split; [apply advance_at; (done || lia)|]); cbn; [by rewrite Hb', Hi1|].
    rewrite Hb2, Hi2. cbn. by rewrite Hb', Hi1.
Qed.
End reader.

(** ** Many packets *)

Section files.
Context (file : list Z) (map_size page_size : Z) (mmap : Z -> Z -> bool).
Context (Hmmap : forall off len, 0 <= off -> off mod page_size = 0 -> 0 < len <= map_size -> off + len <= file_len file -> mmap off len = true).
Context (Hpage : 0 < page_size <= map_size) (Hmap : hdr_size <= map_size < 2 ^ 62) (Hfile : file_len file < 2 ^ 62).
Context (be : bool) (bufLen : Z).
Local Abbreviation at_pos := (at_pos file map_size).
Local Abbreviation reads := (read_many file map_size page_size mmap).
Local Abbreviation encs l := (concat (enc_packet be <$> l)).

Lemma reads_app n m p l1 p1 l2 p2 : reads n p bufLen = Ret (l1, p1) -> reads m p1 bufLen = Ret (l2, p2) ->
  reads (n + m)%nat p bufLen = Ret (l1 ++ l2, p2).
Proof.
  revert p l1. induction n as [|n IH]; intros p l1 H1 H2; cbn [read_many Nat.add] in *; [by injection H1 as <- <-|].
  inv_res. rewrite E. bind. by rewrite (IH _ _ E0 H2).
Qed.

Lemma encs_length l : Forall packet_ok l -> Z.of_nat (List.length (encs l)) = Z.of_nat (List.length l) * rec_size + foldr Z.add 0 ((fun x => incl_len x.1) <$> l).
Proof.
  induction 1 as [|x l Hx _ IH]; [done|]. cbn. rewrite length_app, Nat2Z.inj_add, (enc_packet_length be x Hx), IH. lia.
Qed.

(** Packets inside the window. *)
Lemma reads_inside l : forall pre post p, file = pre ++ encs l ++ post -> Forall packet_ok l -> at_pos p (Z.of_nat (List.length pre)) -> big p = be ->
  cur p + Z.of_nat (List.length (encs l)) <= length p ->
  reads (List.length l) p bufLen = Ret (delivered bufLen <$> l, advance (Z.of_nat (List.length (encs l))) p).
Proof.
  induction l as [|x l IH]; intros pre post p Hf Hl HP Hb Hc.
  - cbn. unfold advance. by destruct p; rewrite Z.add_0_r.
  - apply Forall_cons in Hl as [Hx Hl]. cbn [fmap list_fmap concat] in *. pose proof (enc_packet_length be x Hx) as Hlen.
    rewrite length_app in Hc. rewrite <-app_assoc in Hf. assert (Hi : 0 <= incl_len x.1) by apply Hx.
    cbn [List.length read_many].
    rewrite (read_inside file map_size page_size mmap Hmap Hfile pre (encs l ++ post) x be bufLen Hf Hx p HP Hb) by lia. bind.
    pose proof (advance_at _ _ p _ rec_size HP ltac:(unfold rec_size; lia) ltac:(lia)) as HP1.
    pose proof (advance_at _ _ _ _ (incl_len x.1) HP1 Hi ltac:(cbn; lia)) as HP2.
    rewrite (IH (pre ++ enc_packet be x) post); [|by rewrite <-app_assoc|done| |done|cbn; lia].
    + bind. unfold advance. cbn. rewrite length_app. do 3 f_equal. lia.
    + rewrite length_app, Nat2Z.inj_add, Hlen, Z.add_assoc. exact HP2.
Qed.

(** Packets with something after them. *)
Lemma reads_across l : forall pre post p, file = pre ++ encs l ++ post -> post <> [] -> Forall packet_ok l ->
  rec_size + page_size <= map_size -> Forall (fun x => incl_len x.1 + page_size <= map_size) l ->
  at_pos p (Z.of_nat (List.length pre)) -> big p = be ->
  exists p', reads (List.length l) p bufLen = Ret (delivered bufLen <$> l, p') /\ at_pos p' (Z.of_nat (List.length (pre ++ encs l))) /\ big p' = be.
Proof.
  induction l as [|x l IH]; intros pre post p Hf Hpost Hl Hr Hrl HP Hb.
  - exists p. cbn. rewrite app_nil_r. done.
  - apply Forall_cons in Hl as [Hx Hl]. apply Forall_cons in Hrl as [Hrx Hrl]. cbn [fmap list_fmap concat] in *.
    pose proof (enc_packet_length be x Hx) as Hlen. rewrite <-app_assoc in Hf. cbn [List.length read_many].
    destruct (read_across file map_size page_size mmap Hmmap Hpage Hmap Hfile pre (encs l ++ post) x be bufLen Hf Hx Hr Hrx p HP Hb) as (p1 & -> & HP1 & Hb1 & _).
    { intros [_ ?]%app_nil. done. }
    bind. destruct (IH (pre ++ enc_packet be x) post p1) as (p2 & -> & HP2 & Hb2); try done; [by rewrite <-app_assoc| |].
    + rewrite length_app, Nat2Z.inj_add, Hlen, Z.add_assoc. exact HP1.
    + exists p2. rewrite <-app_assoc in HP2. done.
Qed.

(** The end of the file. *)
Lemma read_end p : at_pos p (file_len file) -> ewx_pcap_read file map_size page_size mmap p bufLen = Ret (Answer 0 None None, p).
Proof.
  intros [H1 H2 H3 H4 H5 H6]. unfold ewx_pcap_read, read_with, ewx_pcap_read_prepare, rec_size in *. rewrite H4.
  assert (length p = cur p) as -> by lia. rewrite Z.sub_diag. change (u64 16 <=? u64 0) with false. cbn [andb].
  rewrite u64_id by lia. by rewrite (proj2 (Z.leb_le _ _)) by lia.
Qed.
End files.

(** ** Opening *)

(** [ewx_pcap_hdr_t] as it is written. *)
Definition hdr_ok (h : pcap_hdr) : Prop :=
  magic_number h = EWX_MAGIC_NUMBER /\ 0 <= version_major h < 2 ^ 16 /\ 0 <= version_minor h < 2 ^ 16 /\ 0 <= thiszone h < 2 ^ 32 /\
  0 <= sigfigs h < 2 ^ 32 /\ 0 <= snaplen h < 2 ^ 32 /\ 0 <= network h < 2 ^ 32.

Definition enc_hdr (be : bool) (h : pcap_hdr) : list Z :=
  num be 4 EWX_MAGIC_NUMBER ++ num be 2 (version_major h) ++ num be 2 (version_minor h) ++ num be 4 (thiszone h) ++
  num be 4 (sigfigs h) ++ num be 4 (snaplen h) ++ num be 4 (network h).

Definition enc_file (be : bool) (h : pcap_hdr) (l : list packet) : list Z := enc_hdr be h ++ concat (enc_packet be <$> l).

Lemma enc_hdr_length be h : List.length (enc_hdr be h) = 24%nat.
Proof. unfold enc_hdr. by rewrite !length_app, !num_length. Qed.

Lemma hdr_of_enc be h : hdr_of (enc_hdr be h) =
  PcapHdr (le (num be 4 EWX_MAGIC_NUMBER)) (le (num be 2 (version_major h))) (le (num be 2 (version_minor h))) (le (num be 4 (thiszone h)))
    (le (num be 4 (sigfigs h))) (le (num be 4 (snaplen h))) (le (num be 4 (network h))).
Proof.
  unfold hdr_of, enc_hdr.
  change 20%nat with (4 + (2 + (2 + (4 + (4 + 4)))))%nat. change 16%nat with (4 + (2 + (2 + (4 + 4))))%nat.
  change 12%nat with (4 + (2 + (2 + 4)))%nat. change 8%nat with (4 + (2 + 2))%nat. change 6%nat with (4 + 2)%nat.
  rewrite <-!drop_drop, !drop_num, !take_num. by rewrite (take_ge (num be 4 (network h))) by (by rewrite num_length).
Qed.

Section opening.
Context (map_size page_size : Z) (mmap : Z -> Z -> bool) (be : bool) (h : pcap_hdr) (rest : list Z).
Local Abbreviation file := (enc_hdr be h ++ rest).
Context (Hmmap : forall off len, 0 <= off -> off mod page_size = 0 -> 0 < len <= map_size -> off + len <= file_len file -> mmap off len = true).
Context (Hpage : 0 < page_size <= map_size) (Hmap : hdr_size <= map_size < 2 ^ 62) (Hfile : file_len file < 2 ^ 62).

Lemma open_spec : hdr_ok h -> exists p, ewx_pcap_open file map_size page_size mmap = Ret (Some p) /\
  at_pos file map_size p hdr_size /\ offset p = 0 /\ big p = be /\ info p = h.
Proof.
  intros (Hm & H1 & H2 & H3 & H4 & H5 & H6). unfold ewx_pcap_open.
  assert (Hlen : hdr_size <= file_len file) by (unfold file_len, hdr_size; rewrite length_app, enc_hdr_length; lia).
  rewrite (proj2 (Z.ltb_ge _ _)) by lia. rewrite (proj2 (Z.ltb_ge _ _) Hlen).
  rewrite slice_ok by (unfold file_len, hdr_size in *; lia). bind.
  change (Z.to_nat 0) with 0%nat. rewrite drop_0, take_app_length' by (by rewrite enc_hdr_length). rewrite hdr_of_enc. cbn [magic_number].
  assert (Hb : (le (num be 4 EWX_MAGIC_NUMBER) =? ntohl EWX_MAGIC_NUMBER) = be) by (destruct be; reflexivity).
  replace (negb (_ =? EWX_MAGIC_NUMBER) && _) with false by (destruct be; reflexivity). rewrite Hb. cbv zeta. cbn [version_major version_minor thiszone sigfigs snaplen network].
  set (h' := if be then _ else _).
  assert (Hh : h' = h).
  { unfold h'. destruct h as [m a b c d e f]. cbn [magic_number version_major version_minor thiszone sigfigs snaplen network] in *. subst m.
    change (2 ^ 16) with (256 ^ Z.of_nat 2) in *. change (2 ^ 32) with (256 ^ Z.of_nat 4) in *.
    destruct be; unfold ntohl, ntohs; [by rewrite !num_be by (done || (split; vm_compute; congruence))|by rewrite !num_le by (done || (split; vm_compute; congruence))]. }
  rewrite Hh. destruct (preread_spec file map_size page_size mmap Hmmap Hpage Hmap Hfile (Pcap be false 0 0 0 h) 0) as (p & E & HP & Hb' & Hi & Hc & Ho);
    [unfold hdr_size in *; lia|done|]. rewrite E. cbn [Z.ltb]. eexists. split; [reflexivity|].
  specialize (Ho ltac:(lia)). destruct HP as [K1 K2 K3 K4 K5 K6]. split; [split; cbn; unfold hdr_size in *; (done || lia)|done].
Qed.
End opening.
