(* ===== verification/PcapThm.v ===== *)
(** What the packet capture reader guarantees: a file that fits the window is read back
    packet by packet; of a larger file every packet that has something after it is; the
    last one is lost when the window ends in its data.  With arbitrary bytes the reader
    stays in its window as long as no header claims more than a window.  The counter of
    pcap_modify.c terminates on every file. *)
From S2P Require Import Prelude Arrays Bytes Pcap PcapRead.

(** What the reader relies on: a non-empty part of the file that begins at a page can be
    mapped. *)
Definition mmap_ok (file : list Z) (map_size page_size : Z) (mmap : Z -> Z -> bool) : Prop :=
  forall off len, 0 <= off -> off mod page_size = 0 -> 0 < len <= map_size -> off + len <= file_len file -> mmap off len = true.

Definition sizes_ok (file : list Z) (map_size page_size : Z) : Prop :=
  0 < page_size <= map_size /\ hdr_size <= map_size < 2 ^ 62 /\ file_len file < 2 ^ 62.

Lemma enc_file_snoc be h l x : enc_file be h (l ++ [x]) = enc_hdr be h ++ concat (enc_packet be <$> l) ++ enc_packet be x.
Proof. unfold enc_file. rewrite fmap_app, concat_app. cbn. by rewrite app_nil_r. Qed.

Section files.
Context (map_size page_size : Z) (mmap : Z -> Z -> bool) (be : bool) (h : pcap_hdr) (bufLen : Z).
Local Abbreviation open_of file := (ewx_pcap_open file map_size page_size mmap).
Local Abbreviation reads file := (read_many file map_size page_size mmap).

(** Packets that are in the first window. *)
Lemma reads_first l post : let file := enc_hdr be h ++ concat (enc_packet be <$> l) ++ post in
  sizes_ok file map_size page_size -> mmap_ok file map_size page_size mmap -> hdr_ok h -> Forall packet_ok l ->
  hdr_size + Z.of_nat (List.length (concat (enc_packet be <$> l))) <= map_size ->
  exists p, open_of file = Ret (Some p) /\ info p = h /\ big p = be /\ offset p = 0 /\ at_pos file map_size p hdr_size /\
    at_pos file map_size (advance (Z.of_nat (List.length (concat (enc_packet be <$> l)))) p)
      (hdr_size + Z.of_nat (List.length (concat (enc_packet be <$> l)))) /\
    reads file (List.length l) p bufLen = Ret (delivered bufLen <$> l, advance (Z.of_nat (List.length (concat (enc_packet be <$> l)))) p).
Proof.
  intros file (Hpage & Hmap & Hfile) Hmm Hh Hl Hfit.
  destruct (open_spec map_size page_size mmap be h _ Hmm Hpage Hmap Hfile Hh) as (p & Eo & HP & Ho & Hb & Hi).
  assert (Hfl : file_len file = hdr_size + Z.of_nat (List.length (concat (enc_packet be <$> l))) + Z.of_nat (List.length post)).
  { unfold file, file_len. rewrite !length_app, enc_hdr_length. unfold hdr_size. lia. }
  fold file in Eo, HP. pose proof HP as [K1 K2 K3 K4 K5 K6].
  exists p. split_and!; try done; [apply advance_at; (done || lia)|].
  apply (reads_inside file map_size page_size mmap Hmap Hfile be bufLen l (enc_hdr be h) post p eq_refl Hl); [by rewrite enc_hdr_length|done|lia].
Qed.

(** C29. A file that fits the window is read back: opening it and reading delivers every
    packet in order, with its header in host order and its data when the buffer is large
    enough, and then the end; rewinding goes back to the state after opening. *)
Theorem pcap_read_all l : let file := enc_file be h l in
  sizes_ok file map_size page_size -> mmap_ok file map_size page_size mmap -> hdr_ok h -> Forall packet_ok l -> file_len file <= map_size ->
  exists p0 p1, open_of file = Ret (Some p0) /\ info p0 = h /\
    reads file (S (List.length l)) p0 bufLen = Ret ((delivered bufLen <$> l) ++ [Answer 0 None None], p1) /\
    ewx_pcap_rewind file map_size page_size mmap p1 = p0.
Proof.
  intros file Hs Hmm Hh Hl Hfit. assert (Hf : file = enc_hdr be h ++ concat (enc_packet be <$> l) ++ []) by (by rewrite app_nil_r).
  assert (Hfl : file_len file = hdr_size + Z.of_nat (List.length (concat (enc_packet be <$> l)))).
  { unfold file, enc_file, file_len. rewrite length_app, enc_hdr_length. unfold hdr_size. lia. }
  rewrite Hf in Hs, Hmm. destruct (reads_first l [] Hs Hmm Hh Hl ltac:(lia)) as (p & Eo & Hi & Hb & Ho & HP & HP' & Er).
  rewrite <-Hf in *. rewrite <-Hfl in HP'. eexists p, _. split; [done|]. split; [done|]. split.
  - rewrite <-Nat.add_1_r. apply (reads_app file map_size page_size mmap bufLen _ 1 _ _ _ _ _ Er). cbn [read_many].
    destruct Hs as (_ & _ & Hs). by rewrite (read_end file map_size page_size mmap Hs bufLen _ HP').
  - unfold ewx_pcap_rewind. rewrite (proj2 (Z.leb_le _ _) Hfit). destruct HP as [K1 K2 K3 K4 K5 K6]. cbn [advance big mapped length info].
    destruct p as [b m c o n i]. cbn in *. subst. f_equal. lia.
Qed.

(** Of a larger file every packet that has something after it is delivered, with the
    window moved along, if the header and the data of each fit a window less a page. *)
Theorem pcap_read_across l post : let file := enc_hdr be h ++ concat (enc_packet be <$> l) ++ post in
  sizes_ok file map_size page_size -> mmap_ok file map_size page_size mmap -> hdr_ok h -> Forall packet_ok l -> post <> [] ->
  rec_size + page_size <= map_size -> Forall (fun x => incl_len x.1 + page_size <= map_size) l ->
  exists p0 p1, open_of file = Ret (Some p0) /\ reads file (List.length l) p0 bufLen = Ret (delivered bufLen <$> l, p1).
Proof.
  intros file (Hpage & Hmap & Hfile) Hmm Hh Hl Hpost Hr Hrl.
  destruct (open_spec map_size page_size mmap be h _ Hmm Hpage Hmap Hfile Hh) as (p & Eo & HP & Ho & Hb & Hi).
  destruct (reads_across file map_size page_size mmap Hmm Hpage Hmap Hfile be bufLen l (enc_hdr be h) post p eq_refl Hpost Hl Hr Hrl) as (p' & Er & _);
    [by rewrite enc_hdr_length|done|]. by exists p, p'.
Qed.

(** The last packet is lost when the first window ends in its data: the test for the
    end of the file counts a packet that ends exactly there as missing, and the call
    answers 0, as at the end. *)
Theorem pcap_last_packet_lost l x : let file := enc_file be h (l ++ [x]) in
  sizes_ok file map_size page_size -> mmap_ok file map_size page_size mmap -> hdr_ok h -> Forall packet_ok l -> packet_ok x ->
  file_len (enc_file be h l) + rec_size <= map_size < file_len file ->
  exists p0 p1, open_of file = Ret (Some p0) /\
    reads file (S (List.length l)) p0 bufLen = Ret ((delivered bufLen <$> l) ++ [Answer 0 (Some x.1) None], p1).
Proof.
  intros file Hs Hmm Hh Hl Hx Hfit. pose proof (enc_packet_length be x Hx) as Hlen. unfold file in *. rewrite enc_file_snoc in *.
  set (file' := enc_hdr be h ++ concat (enc_packet be <$> l) ++ enc_packet be x) in *.
  assert (Hfl : file_len (enc_file be h l) = hdr_size + Z.of_nat (List.length (concat (enc_packet be <$> l)))).
  { unfold enc_file, file_len. rewrite length_app, enc_hdr_length. unfold hdr_size. lia. }
  assert (Hfl' : file_len file' = hdr_size + Z.of_nat (List.length (concat (enc_packet be <$> l))) + Z.of_nat (List.length (enc_packet be x))).
  { unfold file', file_len. rewrite !length_app, enc_hdr_length. unfold hdr_size. lia. }
  destruct (reads_first l _ Hs Hmm Hh Hl ltac:(unfold rec_size in *; lia)) as (p & Eo & Hi & Hb & Ho & HP & HP' & Er). fold file' in Eo, HP, HP', Er.
  eexists p, _. split; [exact Eo|]. rewrite <-Nat.add_1_r. apply (reads_app file' map_size page_size mmap bufLen _ 1 _ _ _ _ _ Er). cbn [read_many].
  destruct Hs as (Hpage & Hmap & Hs). pose proof HP as [K1 K2 K3 K4 K5 K6].
  rewrite (read_lost file' map_size page_size mmap Hmm Hpage Hmap Hs (enc_hdr be h ++ concat (enc_packet be <$> l)) [] x be bufLen); try done.
  - by rewrite app_nil_r, <-app_assoc.
  - rewrite length_app, enc_hdr_length, Nat2Z.inj_add. exact HP'.
  - unfold advance, file', file_len, hdr_size in *. cbn [cur length] in *. lia.
Qed.
End files.

(** ** Witnesses *)

Local Abbreviation yes := (fun _ _ : Z => true).
Definition a_hdr : pcap_hdr := PcapHdr EWX_MAGIC_NUMBER 2 4 0 0 65535 1.
Definition a_packet (n : nat) : packet := (RecHdr 1 2 (Z.of_nat n) 100, replicate n 7).

Lemma a_packet_ok n : (n < 100)%nat -> packet_ok (a_packet n).
Proof. intros H. unfold packet_ok, rec_ok, a_packet. cbn. rewrite length_replicate. lia. Qed.

Lemma a_hdr_ok : hdr_ok a_hdr.
Proof. unfold hdr_ok, a_hdr, EWX_MAGIC_NUMBER. cbn. lia. Qed.

Lemma yes_ok file m p : mmap_ok file m p yes.
Proof. by intros ?. Qed.

Lemma pcap_read_all_witness : exists p0 p1,
  ewx_pcap_open (enc_file true a_hdr [a_packet 3; a_packet 0]) 4096 4096 yes = Ret (Some p0) /\ info p0 = a_hdr /\
  read_many (enc_file true a_hdr [a_packet 3; a_packet 0]) 4096 4096 yes 3 p0 100 =
    Ret ([delivered 100 (a_packet 3); delivered 100 (a_packet 0); Answer 0 None None], p1) /\
  ewx_pcap_rewind (enc_file true a_hdr [a_packet 3; a_packet 0]) 4096 4096 yes p1 = p0.
Proof.
  apply (pcap_read_all 4096 4096 yes true a_hdr 100 [a_packet 3; a_packet 0]); [|apply yes_ok|apply a_hdr_ok| |vm_compute; discriminate].
  - split_and!; vm_compute; (done || discriminate).
  - repeat (constructor; [apply a_packet_ok; lia|]). constructor.
Defined.

Lemma pcap_read_across_witness : exists p0 p1,
  ewx_pcap_open (enc_hdr false a_hdr ++ concat (enc_packet false <$> [a_packet 20; a_packet 30]) ++ [1]) 48 16 yes = Ret (Some p0) /\
  read_many (enc_hdr false a_hdr ++ concat (enc_packet false <$> [a_packet 20; a_packet 30]) ++ [1]) 48 16 yes 2 p0 25 =
    Ret ([delivered 25 (a_packet 20); delivered 25 (a_packet 30)], p1).
Proof.
  apply (pcap_read_across 48 16 yes false a_hdr 25 [a_packet 20; a_packet 30] [1]); [|apply yes_ok|apply a_hdr_ok| |done|vm_compute; discriminate|].
  - split_and!; vm_compute; (done || discriminate).
  - repeat (constructor; [apply a_packet_ok; lia|]). constructor.
  - repeat (constructor; [vm_compute; discriminate|]). constructor.
Defined.

Lemma pcap_last_packet_lost_witness : exists p0 p1,
  ewx_pcap_open (enc_file false a_hdr ([a_packet 3] ++ [a_packet 9])) 64 16 yes = Ret (Some p0) /\
  read_many (enc_file false a_hdr ([a_packet 3] ++ [a_packet 9])) 64 16 yes 2 p0 100 =
    Ret ([delivered 100 (a_packet 3); Answer 0 (Some (a_packet 9).1) None], p1).
Proof.
  apply (pcap_last_packet_lost 64 16 yes false a_hdr 100 [a_packet 3] (a_packet 9)); [|apply yes_ok|apply a_hdr_ok| |apply a_packet_ok; lia|].
  - split_and!; vm_compute; (done || discriminate).
  - repeat (constructor; [apply a_packet_ok; lia|]). constructor.
  - split; vm_compute; (done || discriminate).
Defined.
