(* ===== verification/PcapSafe.v ===== *)
(** The packet capture reader on arbitrary bytes: the window invariant under any sequence
    of calls, the pointers of [ewx_pcap_read2], a header that claims 2^31 bytes or more,
    and the counter of pcap_modify.c. *)
From S2P Require Import Prelude Arrays Bytes Pcap PcapRead PcapThm.

(** ** Sequences of calls *)

Inductive op := OpRead (bufLen : Z) | OpRead2 (bufLen : Z) | OpRewind.

Section reader.
Context (file : list Z) (map_size page_size : Z) (mmap : Z -> Z -> bool).
Local Abbreviation prepare := (ewx_pcap_read_prepare file map_size page_size mmap).
Local Abbreviation read := (ewx_pcap_read file map_size page_size mmap).
Local Abbreviation read2 := (ewx_pcap_read2 file map_size page_size mmap).
Local Abbreviation rewind := (ewx_pcap_rewind file map_size page_size mmap).
Local Abbreviation at_pos := (at_pos file map_size).

Definition exec_op (o : op) (p : pcap_t) : res pcap_t :=
  match o with
  | OpRead n => '(_, p) ← read p n; Ret p
  | OpRead2 n => '(_, p) ← read2 p n; Ret p
  | OpRewind => Ret (rewind p)
  end.

Fixpoint exec_ops (l : list op) (p : pcap_t) : res pcap_t :=
  match l with
  | [] => Ret p
  | o :: l => p ← exec_op o p; exec_ops l p
  end.

(** What the header at position [q] says about the length of its packet. *)
Definition claimed (be : bool) (q : Z) : Z :=
  let h := rec_of (take 16 (drop (Z.to_nat q) file)) in if be then ntohl (incl_len h) else incl_len h.

(** The positions at which headers are looked for: after a packet, and right after a
    header whose packet is not complete. *)
Inductive visited (be : bool) : Z -> Prop :=
| visit_first : visited be hdr_size
| visit_packet q : visited be q -> q + rec_size <= file_len file -> visited be (q + rec_size + claimed be q)
| visit_incomplete q : visited be q -> q + rec_size <= file_len file -> file_len file <= q + rec_size + claimed be q -> visited be (q + rec_size).

(** ** Pointers *)

(** What a pointer that [ewx_pcap_read2] handed out points to, as long as the window is
    not moved. *)
Definition deref (p : pcap_t) (a : answer Z) : res (answer (list Z)) :=
  match pkt a with
  | None => Ret (Answer (ret a) (hdr a) None)
  | Some c => x ← fetch file (Pcap (big p) (mapped p) c (offset p) (length p) (info p)) (ret a); Ret (Answer (ret a) (hdr a) (Some x))
  end.

(** ** The window *)

Context (Hmmap : mmap_ok file map_size page_size mmap) (Hsizes : sizes_ok file map_size page_size).
Context (Hbytes : Forall byte file) (Hroom : rec_size + page_size <= map_size <= 2 ^ 31).

(** The reader is at position [q]. *)
Definition in_window_at (be : bool) (p : pcap_t) (q : Z) : Prop :=
  at_pos p q /\ big p = be /\ (file_len file <= map_size -> offset p = 0).

Definition in_window (be : bool) (p : pcap_t) : Prop := exists q, in_window_at be p q /\ visited be q.

Lemma open_at p : ewx_pcap_open file map_size page_size mmap = Ret (Some p) -> in_window (big p) p.
Proof.
  destruct Hsizes as (Hpage & Hmap & Hfile). unfold ewx_pcap_open. destruct (map_size <? page_size); [done|].
  destruct (Z.ltb_spec (file_len file) hdr_size); [done|]. intros H0. apply res_bind_Ret in H0 as (b & _ & H0).
  destruct (_ && _); [done|]. cbv zeta in H0.
  match type of H0 with context [ewx_preread_file _ _ _ _ ?p0] =>
    destruct (preread_spec file map_size page_size mmap Hmmap Hpage Hmap Hfile p0 0) as (p' & E & HP & Hb & Hi & Hc & Ho); [unfold hdr_size in *; lia|done|];
    rewrite E in H0 end.
  cbn [Z.ltb Z.compare] in H0. injection H0 as <-. exists hdr_size. specialize (Ho ltac:(lia)). destruct HP as [K1 K2 K3 K4 K5 K6].
  split; [|constructor]. split; [split; cbn; unfold hdr_size in *; (done || lia)|done].
Qed.

Lemma claimed_nonneg be q : 0 <= claimed be q.
Proof.
  unfold claimed, rec_of. cbn [incl_len]. assert (forall l, Forall byte l -> 0 <= le l) as Hle by (intros l H; apply le_range, H).
  destruct be; [apply be_range, le_bytes_byte|apply Hle]. auto using Forall_take, Forall_drop.
Qed.

Lemma advance_window be p q n : in_window_at be p q -> 0 <= n -> cur p + n <= length p -> in_window_at be (advance n p) (q + n).
Proof. intros (HP & Hb & Ho) Hn Hc. split; [by apply advance_at|done]. Qed.

Lemma prepare_window be p q len : in_window_at be p q -> 0 <= len -> len + page_size <= map_size ->
  exists r p', prepare p len = (r, p') /\ in_window_at be p' q /\
    ((r = 0 /\ cur p' + len <= length p') \/ (r = -1 /\ file_len file <= q + len)).
Proof.
  destruct Hsizes as (Hpage & Hmap & Hfile). intros (HP & Hb & Ho) H0 Hl.
  destruct (prepare_spec file map_size page_size mmap Hmmap Hpage Hmap Hfile p q len HP ltac:(lia))
    as [[Hc ->]|[(Hc & He & ->)|(Hc & He & p' & -> & HP' & Hb' & Hi' & Hc')]].
  - exists 0, p. split; [done|]. split; [done|]. by left.
  - exists (-1), p. split; [done|]. split; [done|]. by right.
  - exists 0, p'. split; [done|]. split; [|left; auto]. split; [done|]. split; [by rewrite Hb'|].
    intros Hf. specialize (Ho Hf). destruct HP as [K1 K2 K3 K4 K5 K6]. lia.
Qed.

Lemma claimed_convert be p q : big p = be -> incl_len (ewx_pcap_convert p (rec_of (take 16 (drop (Z.to_nat q) file)))) = claimed be q.
Proof. intros <-. unfold ewx_pcap_convert, claimed. by destruct (big p). Qed.

Section bounded.
(** No header claims more than a window less a page. *)
Context (be : bool) (Hclaims : forall q, visited be q -> q + rec_size <= file_len file -> claimed be q + page_size <= map_size).

Lemma read_with_window {A} (take_pkt : pcap_t -> Z -> res A) p bufLen :
  (forall p q n, at_pos p q -> 0 <= n -> cur p + n <= length p -> exists x, take_pkt p n = Ret x) ->
  in_window be p -> exists a p', read_with file map_size page_size mmap take_pkt p bufLen = Ret (a, p') /\ in_window be p'.
Proof.
  intros Htake (q & HW & Hv). destruct (prepare_window be p q rec_size HW ltac:(unfold rec_size; lia) ltac:(lia)) as (r & p1 & E1 & HW1 & [[-> Hc1]|[-> Hend]]);
    unfold read_with; rewrite E1; cbn [negb Z.eqb]; [|eexists _, p1; split; [done|]; by exists q].
  rewrite (fetch_spec file map_size p1 q rec_size (proj1 HW1) ltac:(unfold rec_size; lia) Hc1). bind.
  pose proof (advance_window be p1 q rec_size HW1 ltac:(unfold rec_size; lia) Hc1) as HQ.
  change (Z.to_nat rec_size) with 16%nat. rewrite (claimed_convert be (advance rec_size p1) q) by apply HW1.
  assert (Hin : q + rec_size <= file_len file) by (destruct HW1 as ([K1 K2 K3 K4 K5 K6] & _); lia).
  specialize (Hclaims q Hv Hin). pose proof (claimed_nonneg be q) as H0. rewrite as_int_small by (destruct Hsizes; lia).
  destruct (prepare_window be _ _ (claimed be q) HQ H0 Hclaims) as (r & p2 & -> & HW2 & [[-> Hc2]|[-> Hend]]); cbn [negb Z.eqb].
  - assert (Hnext : in_window be (advance (claimed be q) p2)).
    { exists (q + rec_size + claimed be q). split; [by apply advance_window|by constructor]. }
    destruct (bufLen <? claimed be q); [eauto|]. destruct (Htake p2 _ _ (proj1 HW2) H0 Hc2) as [x ->]. bind. eauto.
  - assert (Hnext : in_window be p2) by (exists (q + rec_size); split; [done|by constructor]). destruct (bufLen <? claimed be q); eauto.
Qed.

Lemma rewind_window p : hdr_size <= file_len file -> in_window be p -> in_window be (rewind p).
Proof.
  intros Hlen (q & (HP & Hb & Ho) & Hv). destruct Hsizes as (Hpage & Hmap & Hfile). exists hdr_size. split; [|constructor]. unfold ewx_pcap_rewind.
  destruct (Z.leb_spec (file_len file) map_size) as [Hf|Hf].
  - specialize (Ho Hf). split; [|done]. destruct HP as [K1 K2 K3 K4 K5 K6]. split; cbn; unfold hdr_size in *; (done || lia).
  - destruct (preread_spec file map_size page_size mmap Hmmap Hpage Hmap Hfile (Pcap (big p) false 0 0 0 (info p)) 0) as (p' & E & HP' & Hb' & Hi & Hc & Ho');
      [unfold hdr_size in *; lia|done|]. cbn [ewx_free_pcapbuff big mapped info]. rewrite E. specialize (Ho' ltac:(lia)).
    destruct HP' as [K1 K2 K3 K4 K5 K6]. split; [split; cbn; unfold hdr_size in *; (done || lia)|]. cbn. split; [by rewrite Hb'|lia].
Qed.

Lemma exec_ops_window l p : hdr_size <= file_len file -> in_window be p -> exists p', exec_ops l p = Ret p' /\ in_window be p'.
Proof.
  intros Hlen. revert p. induction l as [|o l IH]; intros p HW; cbn [exec_ops]; [eauto|].
  assert (exists p', exec_op o p = Ret p' /\ in_window be p') as (p' & -> & HW'); [|by bind; apply IH].
  destruct o as [n|n|]; cbn [exec_op]; [| |eauto using rewind_window].
  - destruct (read_with_window (fetch file) p n) as (a & p' & E & HW'); [|done|].
    { intros p0 q0 n0 HP H0 Hc. eexists. by apply (fetch_spec file map_size p0 q0). }
    exists p'. split; [|done]. unfold ewx_pcap_read. by rewrite E.
  - destruct (read_with_window (fun p _ => Ret (cur p)) p n) as (a & p' & E & HW'); [eauto|done|].
    exists p'. split; [|done]. unfold ewx_pcap_read2. by rewrite E.
Qed.
End bounded.

(** C28. On a file of any bytes the reader is type-safe: after a successful open, any
    sequence of [ewx_pcap_read], [ewx_pcap_read2] and [ewx_pcap_rewind] runs without an
    access outside the mapping and keeps the reader well-formed (mapped, the current
    position inside the window, the window inside the file and as large as it may be, at
    a position where a header is expected), provided that no header met claims more than
    a window less a page. *)
Theorem pcap_window_kept p0 l : ewx_pcap_open file map_size page_size mmap = Ret (Some p0) ->
  (forall q, visited (big p0) q -> q + rec_size <= file_len file -> claimed (big p0) q + page_size <= map_size) ->
  exists p, exec_ops l p0 = Ret p /\ in_window (big p0) p.
Proof.
  intros Eo Hc. assert (hdr_size <= file_len file).
  { revert Eo. unfold ewx_pcap_open. destruct (_ <? page_size); [done|]. by destruct (Z.ltb_spec (file_len file) hdr_size). }
  apply exec_ops_window; [done..|]. by apply open_at.
Qed.
End reader.

(** C5: [ewx_pcap_read2] is [ewx_pcap_read] without the copy: dereferencing the pointer it
    hands out, before the next call, gives what [ewx_pcap_read] copies. *)
Theorem pcap_read2_read file map_size page_size mmap p bufLen :
  ewx_pcap_read file map_size page_size mmap p bufLen =
    ('(a, p') ← ewx_pcap_read2 file map_size page_size mmap p bufLen; a ← deref file p' a; Ret (a, p')).
Proof.
  unfold ewx_pcap_read2, ewx_pcap_read, read_with. destruct (ewx_pcap_read_prepare file map_size page_size mmap p rec_size) as [r p1].
  destruct (negb (r =? 0)); [done|]. destruct (fetch file p1 rec_size) as [b| |]; [|done..]. bind.
  destruct (bufLen <? _); destruct (ewx_pcap_read_prepare file map_size page_size mmap (advance rec_size p1) _) as [r2 p2]; (destruct (negb (r2 =? 0)); [done|]); [done|].
  bind. unfold deref. cbn [pkt ret hdr advance big mapped offset length info]. 
  replace (Pcap _ _ _ _ _ _) with p2 by (by destruct p2). by destruct (fetch file p2 _).
Qed.

(** ** A header that claims too much *)

Lemma u64_neg x : - 2 ^ 64 <= x < 0 -> u64 x = x + 2 ^ 64.
Proof. intros H. unfold u64. rewrite <-(Z_mod_plus_full x 1), Z.mod_small by lia. lia. Qed.

Section beyond.
Context (map_size page_size : Z) (mmap : Z -> Z -> bool) (file : list Z).

(** The window is moved to the current position when the length wraps. *)
Lemma huge_prepare p q c : sizes_ok file map_size page_size -> mmap_ok file map_size page_size mmap -> at_pos file map_size p q ->
  q < file_len file -> 2 ^ 31 <= c -> c < 2 ^ 32 -> 2 ^ 32 - c <= q ->
  exists p', ewx_pcap_read_prepare file map_size page_size mmap p (as_int c) = (0, p') /\ at_pos file map_size p' q.
Proof.
  intros (Hpage & Hmap & Hfile) Hmm [K1 K2 K3 K4 K5 K6] Hq H1 H2 H3. unfold ewx_pcap_read_prepare, as_int.
  rewrite (proj2 (Z.ltb_ge _ _) H1), K4, (u64_id (length p - cur p)), (u64_id (q + _)) by lia.
  rewrite (u64_neg (c - 2 ^ 32)) by lia.
  rewrite (proj2 (Z.leb_gt _ _)), (proj2 (Z.leb_gt _ _)) by lia. cbn [ewx_free_pcapbuff big mapped cur offset length info]. rewrite K4, u64_id by lia.
  destruct (preread_spec file map_size page_size mmap Hmm Hpage Hmap Hfile (Pcap (big p) false (cur p) q (length p) (info p)) q)
    as (p' & E & HP & _); [lia|done|eauto].
Qed.

(** Reading from a position beyond the window is an access outside the mapping. *)
Lemma beyond_window p bufLen : 0 <= length p < cur p /\ cur p < 2 ^ 63 -> ewx_pcap_read file map_size page_size mmap p bufLen = UB.
Proof.
  intros H. unfold ewx_pcap_read, read_with, ewx_pcap_read_prepare, rec_size.
  rewrite (u64_neg (length p - cur p)) by lia.
  rewrite (u64_id 16), (proj2 (Z.leb_le _ _)) by lia. cbn [negb Z.eqb]. unfold fetch.
  rewrite (proj2 (Z.leb_gt _ _)) by lia. by rewrite andb_false_r.
Qed.
End beyond.

Section huge.
Context (map_size page_size : Z) (mmap : Z -> Z -> bool) (be : bool) (h : pcap_hdr) (bufLen : Z).
Context (l : list packet) (r : rec_hdr) (rest : list Z).
Local Abbreviation encs := (concat (enc_packet be <$> l)).
Local Abbreviation file := (enc_hdr be h ++ encs ++ enc_rec be r ++ rest).
Local Abbreviation pos := (hdr_size + Z.of_nat (List.length encs) + rec_size).

(** After packets of the first window, a header that claims 2^31 bytes or more, so that
    the conversion to [int] moves the position back into the file, is answered with the
    claimed length, and the call after it reads outside the mapping. *)
Theorem pcap_huge_claim :
  sizes_ok file map_size page_size -> mmap_ok file map_size page_size mmap -> hdr_ok h -> Forall packet_ok l -> rec_ok r -> rest <> [] ->
  pos <= map_size < 2 ^ 31 -> 2 ^ 31 <= incl_len r -> 2 ^ 32 - incl_len r <= pos -> bufLen < incl_len r ->
  exists p0 p1, ewx_pcap_open file map_size page_size mmap = Ret (Some p0) /\
    read_many file map_size page_size mmap (S (List.length l)) p0 bufLen =
      Ret ((delivered bufLen <$> l) ++ [Answer (incl_len r) (Some r) None], p1) /\
    ewx_pcap_read file map_size page_size mmap p1 bufLen = UB.
Proof.
  intros Hs Hmm Hh Hl Hr Hrest Hpos Hc1 Hc2 Hbuf. pose proof Hs as (Hpage & Hmap & Hfile).
  destruct (reads_first map_size page_size mmap be h bufLen l (enc_rec be r ++ rest) Hs Hmm Hh Hl ltac:(unfold rec_size in *; lia))
    as (p & Eo & Hi & Hb & Ho & HP & HP' & Er).
  set (p1 := advance (Z.of_nat (List.length encs)) p) in *.
  assert (Hfl : file_len file = pos + Z.of_nat (List.length rest)) by
    (unfold file_len; rewrite !length_app, enc_hdr_length, enc_rec_length; unfold hdr_size, rec_size; lia).
  assert (0 < Z.of_nat (List.length rest)) by (destruct rest; cbn; [done|lia]).
  assert (Hc : cur p1 + rec_size <= length p1) by (destruct HP as [K1 K2 K3 K4 K5 K6]; cbn [p1 advance cur length]; lia).
  assert (H0 : 0 <= rec_size) by (unfold rec_size; lia).
  pose proof (advance_at _ _ _ _ rec_size HP' H0 Hc) as HQ.
  assert (Eh : fetch file p1 rec_size = Ret (enc_rec be r)).
  { rewrite (fetch_spec file map_size p1 _ rec_size HP' H0 Hc). f_equal.
    rewrite (app_assoc _ encs), drop_app_length' by (rewrite length_app, enc_hdr_length; unfold hdr_size; lia).
    apply take_app_length'. by rewrite enc_rec_length. }
  assert (Hcv : ewx_pcap_convert (advance rec_size p1) (rec_of (enc_rec be r)) = r).
  { subst be. exact (rec_of_enc (advance rec_size p1) r Hr). }
  destruct (huge_prepare map_size page_size mmap file (advance rec_size p1) pos (incl_len r)) as (p2 & E2 & HP2); try done; [lia|apply Hr|].
  eexists p, _. split; [exact Eo|]. split.
  - rewrite <-Nat.add_1_r. apply (reads_app file map_size page_size mmap bufLen _ 1 _ _ _ _ _ Er). cbn [read_many]. unfold ewx_pcap_read, read_with.
    rewrite (prepare_inside file map_size page_size mmap Hmap Hfile p1 _ rec_size HP' H0 Hc). cbn [negb Z.eqb]. rewrite Eh. bind. rewrite Hcv.
    rewrite (proj2 (Z.ltb_lt _ _) Hbuf), E2. cbn [negb Z.eqb]. bind. reflexivity.
  - apply beyond_window. cbn [advance cur length]. destruct HP2 as [K1 K2 K3 K4 K5 K6], Hr as (_ & _ & Hr & _). lia.
Qed.
End huge.

(** ** Counting *)

Lemma fread_length file pos n : 0 <= pos <= file_len file -> 0 <= n -> Z.of_nat (List.length (fread file pos n)) = Z.min n (file_len file - pos).
Proof. intros H Hn. unfold fread, file_len in *. rewrite length_take, length_drop. lia. Qed.

Lemma fread_beyond file pos n : file_len file <= pos -> fread file pos n = [].
Proof. intros H. unfold fread, file_len in *. rewrite drop_ge by lia. apply take_nil. Qed.

Lemma rec_of_nonneg l : Forall byte l -> 0 <= incl_len (rec_of l).
Proof. intros H. unfold rec_of. cbn [incl_len]. apply le_range. auto using Forall_take, Forall_drop. Qed.

(** A call at the end of the file answers 0; a call elsewhere moves on. *)
Lemma read_simple_progress file pos n : Forall byte file -> 0 <= pos -> let '(r, pos') := ewx_pcap_read_simple file pos n in
  pos + rec_size <= pos' \/ r = 0.
Proof.
  intros Hb Hp. unfold ewx_pcap_read_simple. destruct (Z.eqb_spec (Z.of_nat (List.length (fread file pos rec_size))) rec_size) as [E|E]; cbn [negb]; [|by right].
  pose proof (rec_of_nonneg (fread file pos rec_size)) as Hi. rewrite E. destruct (n <? _); left; [|lia].
  assert (Forall byte (fread file pos rec_size)) by (apply Forall_take, Forall_drop, Hb). specialize (Hi ltac:(done)). lia.
Qed.

(** The counter of pcap_modify.c terminates on every file: each call either answers 0,
    which ends the loop, or moves at least a header forward, also when a packet that is
    too large is skipped to a position beyond the end. *)
Theorem pcap_count_terminates file : Forall byte file -> count_packets file <> Fuel.
Proof.
  intros Hb. unfold count_packets. destruct (negb _); [done|].
  assert (Hloop : forall fuel pos counter, 0 <= pos -> file_len file - pos < Z.of_nat fuel -> (0 < fuel)%nat -> count_loop file fuel pos counter <> Fuel).
  { induction fuel as [|n IH]; intros pos counter Hp Hf H0; [lia|]. cbn [count_loop].
    pose proof (read_simple_progress file pos MAX_LEN Hb Hp) as Hpr.
    destruct (ewx_pcap_read_simple file pos MAX_LEN) as [r pos'] eqn:E.
    destruct Hpr as [Hpr| ->]; [|done]. unfold rec_size in *.
    assert (Hn : (0 < n)%nat \/ file_len file <= pos) by lia. destruct Hn as [Hn|Hn].
    - destruct (MAX_LEN <? as_int r); [apply IH; lia|]. destruct (as_int r <=? 0); [done|]. unfold sint.
      destruct (_ && _); cbn; [apply IH; lia|done].
    - unfold ewx_pcap_read_simple in E. rewrite fread_beyond in E by lia. cbn in E. injection E as <- <-. lia. }
  specialize (Hloop (S (List.length file)) hdr_size 0 ltac:(done)). 
  destruct (count_loop _ _ _ _) eqn:E; cbn; [done..|]. exfalso. apply Hloop; [|lia|done]. unfold file_len, hdr_size. lia.
Qed.

(** The packets that are counted: those of at most 8192 bytes, up to the first empty one. *)
Fixpoint counted (l : list packet) : Z :=
  match l with
  | [] => 0
  | x :: l => if incl_len x.1 =? 0 then 0 else (if MAX_LEN <? incl_len x.1 then 0 else 1) + counted l
  end.

Lemma read_simple_packet pre x post n : packet_ok x ->
  ewx_pcap_read_simple (pre ++ enc_packet false x ++ post) (Z.of_nat (List.length pre)) n =
    (incl_len x.1, Z.of_nat (List.length (pre ++ enc_packet false x))).
Proof.
  intros Hx. pose proof Hx as (Hr & Hlen & Hlt). pose proof (enc_packet_length false x Hx) as Hl. unfold ewx_pcap_read_simple.
  assert (Hh : fread (pre ++ enc_packet false x ++ post) (Z.of_nat (List.length pre)) rec_size = enc_rec false x.1).
  { unfold fread, enc_packet. rewrite Nat2Z.id, drop_app_length, <-app_assoc. apply take_app_length'. by rewrite enc_rec_length. }
  rewrite Hh, enc_rec_length. cbn [negb Z.eqb]. change (negb (_ =? rec_size)) with false. cbv iota zeta.
  assert (rec_of (enc_rec false x.1) = x.1) as -> by exact (rec_of_enc (Pcap false true 0 0 0 (PcapHdr 0 0 0 0 0 0 0)) x.1 Hr).
  rewrite length_app, Nat2Z.inj_add, Hl. destruct (n <? _); [by rewrite Z.add_assoc|].
  assert (Hd : fread (pre ++ enc_packet false x ++ post) (Z.of_nat (List.length pre) + Z.of_nat 16) (incl_len x.1) = x.2).
  { unfold fread, enc_packet. rewrite <-app_assoc, app_assoc, drop_app_length' by (rewrite length_app, enc_rec_length; lia).
    apply take_app_length'. lia. }
  rewrite Hd, Hlen. f_equal. unfold rec_size. lia.
Qed.

Lemma count_loop_spec l : forall pre fuel counter, Forall packet_ok l -> 0 <= counter -> counter + Z.of_nat (List.length l) < 2 ^ 31 -> (List.length l < fuel)%nat ->
  count_loop (pre ++ concat (enc_packet false <$> l)) fuel (Z.of_nat (List.length pre)) counter = Ret (counter + counted l).
Proof.
  induction l as [|x l IH]; intros pre fuel counter Hl H0 Hc Hf; (destruct fuel as [|n]; [cbn in Hf; lia|]); cbn [count_loop].
  - unfold ewx_pcap_read_simple. rewrite fread_beyond by (unfold file_len; cbn; rewrite app_nil_r; lia). change (negb (_ =? rec_size)) with true. cbn. change (MAX_LEN <? as_int 0) with false.
    change (as_int 0 <=? 0) with true. cbn. by rewrite Z.add_0_r.
  - apply Forall_cons in Hl as [Hx Hl]. cbn [fmap list_fmap concat counted]. rewrite (read_simple_packet _ _ _ _ Hx).
    pose proof Hx as (_ & Hlen & Hlt). rewrite as_int_small by done. cbn [List.length] in *. rewrite app_assoc.
    destruct (Z.ltb_spec MAX_LEN (incl_len x.1)) as [Hm|Hm]; [|destruct (Z.leb_spec (incl_len x.1) 0)].
    + rewrite IH by (done || lia). rewrite (proj2 (Z.eqb_neq _ _)) by (unfold MAX_LEN in *; lia). done.
    + rewrite (proj2 (Z.eqb_eq _ _)) by lia. by rewrite Z.add_0_r.
    + rewrite sint_fits by (split; lia). bind. rewrite IH by (done || lia). rewrite (proj2 (Z.eqb_neq _ _)) by lia. by rewrite Z.add_assoc.
Qed.

(** In a little-endian file, pcap_modify.c counts the packets of at most 8192 bytes up
    to the first packet without data, which looks like the end of the file; packets that
    are larger are skipped. *)
Theorem pcap_count_spec h l : Forall packet_ok l -> Z.of_nat (List.length l) < 2 ^ 31 ->
  count_packets (enc_file false h l) = Ret (Some (counted l)).
Proof.
  intros Hl Hn. unfold count_packets, enc_file.
  rewrite fread_length by (unfold file_len, hdr_size; rewrite ?length_app, ?enc_hdr_length; lia).
  unfold file_len. rewrite length_app, enc_hdr_length.
  rewrite (proj2 (Z.eqb_eq _ _)) by (unfold hdr_size; lia). cbn [negb].
  replace hdr_size with (Z.of_nat (List.length (enc_hdr false h))) by (by rewrite enc_hdr_length).
  rewrite count_loop_spec; [done..|lia|].
  assert (forall l, (List.length l <= List.length (concat (enc_packet false <$> l)))%nat) as Hle; [|specialize (Hle l); lia].
  clear. induction l as [|x l IH]; [done|]. cbn [fmap list_fmap concat List.length] in *. unfold enc_packet at 1. rewrite !length_app, enc_rec_length. lia.
Qed.

(** ** Witnesses *)

Local Abbreviation yes := (fun _ _ : Z => true).

Lemma pcap_huge_claim_witness : exists p0 p1,
  ewx_pcap_open (enc_hdr false a_hdr ++ concat (enc_packet false <$> [a_packet 3]) ++ enc_rec false (RecHdr 0 0 (2 ^ 32 - 1) 0) ++ [5]) 4096 4096 yes = Ret (Some p0) /\
  read_many (enc_hdr false a_hdr ++ concat (enc_packet false <$> [a_packet 3]) ++ enc_rec false (RecHdr 0 0 (2 ^ 32 - 1) 0) ++ [5]) 4096 4096 yes 2 p0 2048 =
    Ret ([delivered 2048 (a_packet 3); Answer (2 ^ 32 - 1) (Some (RecHdr 0 0 (2 ^ 32 - 1) 0)) None], p1) /\
  ewx_pcap_read (enc_hdr false a_hdr ++ concat (enc_packet false <$> [a_packet 3]) ++ enc_rec false (RecHdr 0 0 (2 ^ 32 - 1) 0) ++ [5]) 4096 4096 yes p1 2048 = UB.
Proof.
  apply (pcap_huge_claim 4096 4096 yes false a_hdr 2048 [a_packet 3] (RecHdr 0 0 (2 ^ 32 - 1) 0) [5]); [|apply yes_ok|apply a_hdr_ok| | |done|..].
  - split_and!; vm_compute; (done || discriminate).
  - repeat (constructor; [apply a_packet_ok; lia|]). constructor.
  - unfold rec_ok. cbn. lia.
  - split; vm_compute; (done || discriminate).
  - cbn. lia.
  - vm_compute. discriminate.
  - cbn. lia.
Defined.

(** A file with one packet of four bytes. *)
Definition a_file : list Z := enc_file false a_hdr [a_packet 4].
Lemma a_file_bytes : Forall byte a_file.
Proof. by apply (bool_decide_unpack _); vm_compute. Qed.

Definition a_pcap : pcap_t := Pcap false true hdr_size 0 44 a_hdr.

Lemma a_file_visited q : visited a_file false q -> q = 24 \/ q = 40 \/ q = 44.
Proof. induction 1 as [|q _ [->|[->| ->]] H|q _ [->|[->| ->]] H]; try (vm_compute in H; by exfalso; apply H); vm_compute; auto. Qed.

Lemma pcap_window_kept_witness : exists p, exec_ops a_file 4096 16 yes [OpRead 100; OpRewind; OpRead2 2; OpRead 100] a_pcap = Ret p /\
  in_window a_file 4096 false p.
Proof.
  apply (pcap_window_kept a_file 4096 16 yes); [apply yes_ok|split_and!; vm_compute; (done || discriminate)| | |by vm_compute|].
  - apply a_file_bytes.
  - split; vm_compute; discriminate.
  - intros q [->|[->| ->]]%a_file_visited Hq; [vm_compute; discriminate|exfalso; apply Hq; by vm_compute..].
Defined.

Lemma pcap_count_terminates_witness : count_packets a_file <> Fuel.
Proof. apply pcap_count_terminates, a_file_bytes. Defined.

Lemma pcap_count_spec_witness : count_packets (enc_file false a_hdr [a_packet 3; a_packet 5; a_packet 0; a_packet 1]) = Ret (Some 2).
Proof.
  apply (pcap_count_spec a_hdr [a_packet 3; a_packet 5; a_packet 0; a_packet 1]); [|by vm_compute].
  repeat (constructor; [apply a_packet_ok; lia|]). constructor.
Defined.
