(* ===== verification/Tape.v ===== *)
(** Component: the automatic differentiation of gpt/microgpt.c: a static array of nodes
    as a tape, parameters on the C heap, the operations that record a node for each
    result, the topological sort and the backward pass. *)
From S2P Require Import Prelude Arrays.

(** ** Numbers

    What the program uses of [float] and libm.  [flit n d] is the literal n / d. *)
Class Float (F : Type) := {
  flit : Z -> Z -> F; fadd : F -> F -> F; fsub : F -> F -> F; fmul : F -> F -> F; fdiv : F -> F -> F; fneg : F -> F;
  powf : F -> F -> F; logf : F -> F; expf : F -> F; sqrtf : F -> F; fgt : F -> F -> bool; feq : F -> F -> bool
}.

(** ** Data *)

Inductive OpType := OP_CONST | OP_ADD | OP_MUL | OP_POW | OP_LOG | OP_EXP | OP_RELU.

(** A [Value *]: into [node_pool], or to the [j]-th object allocated by [new_param]. *)
Inductive ptr := Node (i : nat) | Param (j : nat).

#[export] Instance ptr_eq_dec : EqDecision ptr.
Proof. solve_decision. Defined.

Record Value (F : Type) := mkValue {
  data : F; grad : F; prev0 : option ptr; prev1 : option ptr; op : OpType; aux : F; visited : bool
}.
Arguments mkValue {F}.
Arguments data {F} _.
Arguments grad {F} _.
Arguments prev0 {F} _.
Arguments prev1 {F} _.
Arguments op {F} _.
Arguments aux {F} _.
Arguments visited {F} _.

Definition MAX_NODES : Z := 5000000.
Definition MAX_PARAMS : Z := 10000.

(** The memory: the entries of [node_pool] that have ever been written, [node_idx], the
    objects of [new_param], of which the first [param_count] are in [params], and
    [topo]. *)
Record mem (F : Type) := Mem { node_pool : list (Value F); node_idx : nat; heap : list (Value F); topo : list ptr }.
Arguments Mem {F}.
Arguments node_pool {F} _.
Arguments node_idx {F} _.
Arguments heap {F} _.
Arguments topo {F} _.

Definition param_count {F} (m : mem F) : nat := Nat.min (length (heap m)) (Z.to_nat MAX_PARAMS).

(** ** Programs on the memory

    [Exit] is a call of [exit]. *)
Inductive outcome (F A : Type) := Done (a : A) (m : mem F) | Exit (m : mem F).
Arguments Done {F A}.
Arguments Exit {F A}.

Definition prog (F A : Type) : Type := mem F -> res (outcome F A).

#[export] Instance prog_ret F : MRet (prog F) := fun A a m => Ret (Done a m).
#[export] Instance prog_bind F : MBind (prog F) := fun A B f c m =>
  match c m with
  | Ret (Done a m') => f a m'
  | Ret (Exit m') => Ret (Exit m')
  | UB => UB
  | Fuel => Fuel
  end.

Definition undefined {F A} : prog F A := fun _ => UB.

(** Run [f] on every number below [n], in order. *)
Fixpoint for_from {F} (i n : nat) (f : nat -> prog F unit) : prog F unit :=
  match n with
  | O => mret tt
  | S n => f i;; for_from (S i) n f
  end.

(** Build the array of the results of [f], in order. *)
Fixpoint collect {F A} (i n : nat) (f : nat -> prog F A) : prog F (list A) :=
  match n with
  | O => mret []
  | S n => a ← f i; l ← collect (S i) n f; mret (a :: l)
  end.

(** A loop that carries a value. *)
Fixpoint fold_from {F A} (i n : nat) (f : nat -> A -> prog F A) (a : A) : prog F A :=
  match n with
  | O => mret a
  | S n => a ← f i a; fold_from (S i) n f a
  end.

Definition lookup_ptr {F} (m : mem F) (p : ptr) : option (Value F) :=
  match p with Node i => node_pool m !! i | Param j => heap m !! j end.

Definition set_ptr {F} (p : ptr) (v : Value F) (m : mem F) : mem F :=
  match p with
  | Node i => Mem (<[i:=v]> (node_pool m)) (node_idx m) (heap m) (topo m)
  | Param j => Mem (node_pool m) (node_idx m) (<[j:=v]> (heap m)) (topo m)
  end.

(** Reading and changing the object at a pointer. *)
Definition load {F} (p : ptr) : prog F (Value F) := fun m =>
  match lookup_ptr m p with Some v => Ret (Done v m) | None => UB end.
Definition store {F} (p : ptr) (f : Value F -> Value F) : prog F unit := fun m =>
  match lookup_ptr m p with Some v => Ret (Done tt (set_ptr p (f v) m)) | None => UB end.

(** The current memory. *)
Definition memory {F} : prog F (mem F) := fun m => Ret (Done m m).

(** An element of an array. *)
Definition elem {F A} (l : list A) (i : nat) : prog F A := fun m => match l !! i with Some a => Ret (Done a m) | None => UB end.

(** A pointer that is dereferenced. *)
Definition non_null {F} (o : option ptr) : prog F ptr := match o with Some p => mret p | None => undefined end.

Section tape.
Context {F : Type} `{!Float F}.

Definition set_node (p0 p1 : option ptr) (o : OpType) (v : Value F) : Value F := mkValue (data v) (grad v) p0 p1 o (aux v) (visited v).
Definition set_aux (x : F) (v : Value F) : Value F := mkValue (data v) (grad v) (prev0 v) (prev1 v) (op v) x (visited v).
Definition set_grad (x : F) (v : Value F) : Value F := mkValue (data v) x (prev0 v) (prev1 v) (op v) (aux v) (visited v).
Definition set_data (x : F) (v : Value F) : Value F := mkValue x (grad v) (prev0 v) (prev1 v) (op v) (aux v) (visited v).
Definition set_visited (b : bool) (v : Value F) : Value F := mkValue (data v) (grad v) (prev0 v) (prev1 v) (op v) (aux v) b.

(** ** Allocation *)

Definition zero_tape : prog F unit := fun m => Ret (Done tt (Mem (node_pool m) 0 (heap m) (topo m))).

(** [new_value] leaves the [aux] of the entry as it is. *)
Definition new_value (x : F) : prog F ptr := fun m =>
  let i := node_idx m in
  if MAX_NODES <=? Z.of_nat i then Ret (Exit m) else
  let a := match node_pool m !! i with Some v => aux v | None => flit 0 1 end in
  let v := mkValue x (flit 0 1) None None OP_CONST a false in
  let pool := if (i <? length (node_pool m))%nat then <[i:=v]> (node_pool m) else node_pool m ++ [v] in
  Ret (Done (Node i) (Mem pool (S i) (heap m) (topo m))).

(** [fresh] is what [malloc] returns: [aux] and [visited] are not set. *)
Definition new_param (fresh : Value F) (x : F) : prog F ptr := fun m =>
  Ret (Done (Param (length (heap m)))
    (Mem (node_pool m) (node_idx m) (heap m ++ [mkValue x (flit 0 1) None None OP_CONST (aux fresh) (visited fresh)]) (topo m))).

(** ** Operations *)

Definition add (a b : ptr) : prog F ptr :=
  va ← load a; vb ← load b;
  v ← new_value (fadd (data va) (data vb));
  store v (set_node (Some a) (Some b) OP_ADD);; mret v.

Definition sub (a b : ptr) : prog F ptr :=
  vb ← load b;
  n ← new_value (fneg (data vb));
  store n (set_aux (flit (-1) 1) ∘ set_node (Some b) None OP_MUL);;
  add a n.

Definition mul (a b : ptr) : prog F ptr :=
  va ← load a; vb ← load b;
  v ← new_value (fmul (data va) (data vb));
  store v (set_node (Some a) (Some b) OP_MUL);; mret v.

Definition power (a : ptr) (exponent : F) : prog F ptr :=
  va ← load a;
  v ← new_value (powf (data va) exponent);
  store v (set_aux exponent ∘ set_node (Some a) None OP_POW);; mret v.

Definition vlog (a : ptr) : prog F ptr :=
  va ← load a; v ← new_value (logf (data va)); store v (set_node (Some a) None OP_LOG);; mret v.

Definition vexp (a : ptr) : prog F ptr :=
  va ← load a; v ← new_value (expf (data va)); store v (set_node (Some a) None OP_EXP);; mret v.

Definition relu (a : ptr) : prog F ptr :=
  va ← load a;
  v ← new_value (if fgt (data va) (flit 0 1) then data va else flit 0 1);
  store v (set_node (Some a) None OP_RELU);; mret v.

Definition mul_const (a : ptr) (c : F) : prog F ptr :=
  va ← load a;
  v ← new_value (fmul (data va) c);
  store v (set_node (Some a) None OP_MUL);;
  c_val ← new_value c;
  store v (fun x => set_node (prev0 x) (Some c_val) (op x) x);; mret v.

(** ** The topological sort *)

Definition push_topo (v : ptr) : prog F unit := fun m =>
  if MAX_NODES <=? Z.of_nat (length (topo m)) then UB
  else Ret (Done tt (Mem (node_pool m) (node_idx m) (heap m) (topo m ++ [v]))).

Fixpoint build_topo (fuel : nat) (v : ptr) : prog F unit :=
  match fuel with
  | O => fun _ => Fuel
  | S n =>
      x ← load v;
      if visited x then mret tt else
      store v (set_visited true);;
      x ← load v;
      (match prev0 x with Some c => build_topo n c | None => mret tt end);;
      x ← load v;
      (match prev1 x with Some c => build_topo n c | None => mret tt end);;
      push_topo v
  end.

(** ** The backward pass *)

(** [p->grad += x]. *)
Definition add_grad (p : ptr) (x : F) : prog F unit := store p (fun v => set_grad (fadd (grad v) x) v).

(** The body of the loop. *)
Definition backward_step (v : ptr) : prog F unit :=
  x ← load v;
  match op x with
  | OP_CONST => mret tt
  | OP_ADD =>
      c1 ← non_null (prev0 x); add_grad c1 (grad x);;
      x ← load v;
      c2 ← non_null (prev1 x); add_grad c2 (grad x)
  | OP_MUL =>
      match prev0 x, prev1 x with
      | Some c1, Some c2 =>
          y2 ← load c2; add_grad c1 (fmul (data y2) (grad x));;
          x ← load v;
          y1 ← load c1; add_grad c2 (fmul (data y1) (grad x))
      | Some c1, None => add_grad c1 (fmul (aux x) (grad x))
      | None, _ => mret tt
      end
  | OP_POW =>
      c ← non_null (prev0 x); y ← load c;
      add_grad c (fmul (fmul (aux x) (powf (data y) (fsub (aux x) (flit 1 1)))) (grad x))
  | OP_LOG => c ← non_null (prev0 x); y ← load c; add_grad c (fmul (fdiv (flit 1 1) (data y)) (grad x))
  | OP_EXP => c ← non_null (prev0 x); add_grad c (fmul (data x) (grad x))
  | OP_RELU => c ← non_null (prev0 x); add_grad c (fmul (if fgt (data x) (flit 0 1) then flit 1 1 else flit 0 1) (grad x))
  end.

Fixpoint backward_loop (l : list ptr) : prog F unit :=
  match l with
  | [] => mret tt
  | v :: l => backward_step v;; backward_loop l
  end.

(** [topo_idx = 0]. *)
Definition reset_topo : prog F unit := fun m => Ret (Done tt (Mem (node_pool m) (node_idx m) (heap m) [])).

Definition backward (root : ptr) : prog F unit :=
  reset_topo;;
  m ← memory;
  for_from 0 (param_count m) (fun i => store (Param i) (set_visited false));;
  build_topo (S (S (node_idx m))) root;;
  store root (set_grad (flit 1 1));;
  m ← memory;
  backward_loop (rev (topo m)).
End tape.
