(* ===== verification/TapeInv.v ===== *)
(** The invariant of the tape of gpt/microgpt.c: every recorded node holds the value of
    its operation on the values of its operands, which are older or constants.  The
    operations keep it, and a small logic of programs that counts the nodes they use. *)
From S2P Require Import Prelude Arrays Tape.

Lemma bind_run {F A B} (c : prog F A) (f : A -> prog F B) m : (c ≫= f) m =
  match c m with Ret (Done a m') => f a m' | Ret (Exit m') => Ret (Exit m') | UB => UB | Fuel => Fuel end.
Proof. done. Qed.

(** ** A logic of programs

    [uses k c Q m]: run in [m], [c] ends with [Q] having taken [k] nodes of the tape, or
    has ended the program because the tape was full. *)
Definition uses {F A} (k : nat) (c : prog F A) (Q : A -> mem F -> Prop) (m : mem F) : Prop :=
  match c m with
  | Ret (Done a m') => node_idx m' = (node_idx m + k)%nat /\ Q a m'
  | Ret (Exit m') => (node_idx m' < node_idx m + k)%nat /\ MAX_NODES <= Z.of_nat (node_idx m')
  | UB | Fuel => False
  end.

Section logic.
Context {F : Type}.
Implicit Types (m : mem F).

Lemma uses_ret {A} (a : A) (Q : A -> mem F -> Prop) m : Q a m -> uses 0 (mret a) Q m.
Proof. intros H. split; [lia|done]. Qed.

Lemma uses_bind {A B} k1 k2 (c : prog F A) (f : A -> prog F B) Q m :
  uses k1 c (fun a => uses k2 (f a) Q) m -> uses (k1 + k2) (c ≫= f) Q m.
Proof.
  unfold uses. rewrite bind_run. destruct (c m) as [[a m1|m1]| |]; cbn; [|intros; lia|done..].
  intros [Hi H]. destruct (f a m1) as [[b m2|m2]| |]; [|lia|done..]. destruct H. split; [lia|done].
Qed.

Lemma uses_mono {A} k k' (c : prog F A) (Q Q' : A -> mem F -> Prop) m :
  uses k c Q m -> k = k' -> (forall a m', Q a m' -> Q' a m') -> uses k' c Q' m.
Proof. unfold uses. intros H -> HQ. destruct (c m) as [[a m1|m1]| |]; naive_solver. Qed.

(** A tape with room for the nodes that are used does not end the program. *)
Lemma uses_done {A} k (c : prog F A) Q m : uses k c Q m -> Z.of_nat (node_idx m + k) <= MAX_NODES ->
  exists a m', c m = Ret (Done a m') /\ node_idx m' = (node_idx m + k)%nat /\ Q a m'.
Proof. unfold uses. intros H Hk. destruct (c m) as [[a m1|m1]| |]; [eauto|lia|done..]. Qed.

Lemma uses_load (p : ptr) v (Q : Value F -> mem F -> Prop) m : lookup_ptr m p = Some v -> Q v m -> uses 0 (load p) Q m.
Proof. unfold uses, load. intros -> H. split; [lia|done]. Qed.

Lemma uses_elem {A} (l : list A) i a (Q : A -> mem F -> Prop) m : l !! i = Some a -> Q a m -> uses 0 (elem l i) Q m.
Proof. unfold uses, elem. intros -> H. split; [lia|done]. Qed.

(** A loop that keeps an invariant of the values computed so far. *)
Lemma uses_collect {A} (I : list A -> mem F -> Prop) k n (f : nat -> prog F A) i l m :
  I l m -> (forall i l m, I l m -> length l = i -> uses k (f i) (fun a => I (l ++ [a])) m) -> length l = i ->
  uses (n * k) (collect i n f) (fun l' m' => I (l ++ l') m' /\ length l' = n) m.
Proof.
  intros HI Hf. revert i l m HI. induction n as [|n IH]; intros i l m HI Hl; cbn [collect].
  - apply uses_ret. by rewrite app_nil_r.
  - apply (uses_bind k (n * k)). eapply uses_mono; [by apply Hf|done|]. intros a m1 H1.
    replace (n * k)%nat with (n * k + 0)%nat by lia. apply uses_bind.
    eapply uses_mono; [apply (IH (S i) (l ++ [a])); [done|rewrite length_app; cbn; lia]|done|].
    intros l' m2 [H2 Hl']. apply uses_ret. rewrite <-app_assoc in H2. cbn. split; [done|lia].
Qed.

Lemma uses_fold {A} (I : nat -> A -> mem F -> Prop) k n (f : nat -> A -> prog F A) i a m :
  I i a m -> (forall j a m, (i <= j < i + n)%nat -> I j a m -> uses k (f j a) (fun a => I (S j) a) m) ->
  uses (n * k) (fold_from i n f a) (fun a' m' => I (i + n)%nat a' m') m.
Proof.
  revert i a m. induction n as [|n IH]; intros i a m HI Hf; cbn [fold_from].
  - apply uses_ret. by rewrite Nat.add_0_r.
  - apply (uses_bind k (n * k)). eapply uses_mono; [apply Hf; [lia|done]|done|]. intros a1 m1 H1. cbv beta.
    replace (i + S n)%nat with (S i + n)%nat by lia. apply IH; [done|]. intros j b m' Hj Hb. apply Hf; [lia|done].
Qed.
End logic.

(** ** The invariant *)

Section inv.
Context {F : Type} `{!Float F}.
Implicit Types (m : mem F) (v : Value F).

(** The pointers to live objects: nodes below [node_idx] and parameters. *)
Definition live m (p : ptr) : Prop :=
  match p with Node i => (i < node_idx m)%nat | Param j => (j < length (heap m))%nat end.

(** [p] points to a live object with the number [x]. *)
Definition has m (p : ptr) (x : F) : Prop := live m p /\ data <$> lookup_ptr m p = Some x.

Definition constant v : Prop := op v = OP_CONST /\ prev0 v = None /\ prev1 v = None.

(** An operand of node [i]: a parameter, an older node, or a constant. *)
Definition below m (i : nat) (p : ptr) : Prop :=
  live m p /\ match p with Node j => (j < i)%nat \/ exists v, node_pool m !! j = Some v /\ constant v | Param _ => True end.

(** The number of a node is that of its operation on its operands. *)
Definition computes m (i : nat) v : Prop :=
  match op v with
  | OP_CONST => constant v
  | OP_ADD => exists a b x y, prev0 v = Some a /\ prev1 v = Some b /\ below m i a /\ below m i b /\ has m a x /\ has m b y /\ data v = fadd x y
  | OP_MUL =>
      (exists a b x y, prev0 v = Some a /\ prev1 v = Some b /\ below m i a /\ below m i b /\ has m a x /\ has m b y /\ data v = fmul x y) \/
      (exists a x, prev0 v = Some a /\ prev1 v = None /\ below m i a /\ has m a x /\ aux v = flit (-1) 1 /\ data v = fneg x)
  | OP_POW => exists a x, prev0 v = Some a /\ prev1 v = None /\ below m i a /\ has m a x /\ data v = powf x (aux v)
  | OP_LOG => exists a x, prev0 v = Some a /\ prev1 v = None /\ below m i a /\ has m a x /\ data v = logf x
  | OP_EXP => exists a x, prev0 v = Some a /\ prev1 v = None /\ below m i a /\ has m a x /\ data v = expf x
  | OP_RELU => exists a x, prev0 v = Some a /\ prev1 v = None /\ below m i a /\ has m a x /\ data v = if fgt x (flit 0 1) then x else flit 0 1
  end.

(** A tape on which no backward pass has run since it was reset. *)
Record tape_ok m : Prop := TapeOk {
  tape_size : (node_idx m <= length (node_pool m))%nat;
  tape_params : Forall constant (heap m);
  tape_nodes : forall i v, (i < node_idx m)%nat -> node_pool m !! i = Some v -> computes m i v /\ grad v = flit 0 1 /\ visited v = false
}.

(** [m'] has the live objects of [m], unchanged. *)
Record extends m m' : Prop := Extends {
  ext_idx : (node_idx m <= node_idx m')%nat;
  ext_heap : heap m' = heap m;
  ext_topo : topo m' = topo m;
  ext_pool : forall i, (i < node_idx m)%nat -> node_pool m' !! i = node_pool m !! i
}.

#[export] Instance extends_preorder : PreOrder extends.
Proof.
  split; [by split|]. intros m1 m2 m3 [H1 H2 H3 H4] [K1 K2 K3 K4]. split; [lia|congruence|congruence|].
  intros i Hi. rewrite K4 by lia. auto.
Qed.

Lemma ext_live m m' p : extends m m' -> live m p -> live m' p.
Proof. intros [H1 H2 H3 H4]. destruct p; cbn; [lia|by rewrite H2]. Qed.

Lemma ext_lookup m m' p : extends m m' -> live m p -> lookup_ptr m' p = lookup_ptr m p.
Proof. intros [H1 H2 H3 H4]. destruct p; cbn; [apply H4|by rewrite H2]. Qed.

Lemma ext_has m m' p x : extends m m' -> has m p x -> has m' p x.
Proof. intros He [Hl Hx]. split; [by eapply ext_live|by rewrite (ext_lookup m m')]. Qed.

Lemma ext_below m m' i p : extends m m' -> below m i p -> below m' i p.
Proof.
  intros He [Hl Hb]. split; [by eapply ext_live|]. destruct p as [j|]; [|done]. destruct Hb as [Hb|(v & E & Hc)]; [by left|].
  right. exists v. split; [|done]. by rewrite (ext_pool _ _ He j).
Qed.

Lemma ext_computes m m' i v : extends m m' -> computes m i v -> computes m' i v.
Proof.
  intros He. pose proof (fun p x => ext_has m m' p x He) as Hh. pose proof (fun p => ext_below m m' i p He) as Hb.
  unfold computes. destruct (op v); naive_solver.
Qed.

Lemma tape_lookup m p : tape_ok m -> live m p -> exists v, lookup_ptr m p = Some v.
Proof. intros [H1 _ _] Hl. destruct p as [i|j]; cbn in *; apply lookup_lt_is_Some; lia. Qed.

Lemma has_lookup m p x : has m p x -> exists v, lookup_ptr m p = Some v /\ data v = x.
Proof. intros [_ H]. destruct (lookup_ptr m p) as [v|]; [|done]. injection H as H. eauto. Qed.

(** ** Allocation *)

Definition alloc v m : mem F :=
  Mem (if (node_idx m <? length (node_pool m))%nat then <[node_idx m:=v]> (node_pool m) else node_pool m ++ [v]) (S (node_idx m)) (heap m) (topo m).

Lemma alloc_new v m : (node_idx m <= length (node_pool m))%nat -> node_pool (alloc v m) !! node_idx m = Some v.
Proof.
  intros H. unfold alloc. cbn [node_pool]. destruct (Nat.ltb_spec (node_idx m) (length (node_pool m))); [by apply list_lookup_insert_eq|].
  apply list_lookup_middle. lia.
Qed.

Lemma alloc_old v m i : (i < node_idx m)%nat -> (node_idx m <= length (node_pool m))%nat -> node_pool (alloc v m) !! i = node_pool m !! i.
Proof.
  intros H H'. unfold alloc. cbn [node_pool]. destruct (Nat.ltb_spec (node_idx m) (length (node_pool m))); [apply list_lookup_insert_ne; lia|].
  apply lookup_app_l. lia.
Qed.

Lemma alloc_extends v m : (node_idx m <= length (node_pool m))%nat -> extends m (alloc v m).
Proof. intros H. split; cbn [alloc node_idx heap topo]; [lia|done|done|]. intros i Hi. by apply alloc_old. Qed.

Lemma alloc_size v m : (node_idx m <= length (node_pool m))%nat -> (node_idx (alloc v m) <= length (node_pool (alloc v m)))%nat.
Proof. intros H. unfold alloc. cbn [node_pool node_idx]. destruct (Nat.ltb_spec (node_idx m) (length (node_pool m))); [rewrite length_insert|rewrite length_app; cbn]; lia. Qed.

(** A new node that computes its operation keeps the invariant. *)
Lemma alloc_ok v m : tape_ok m -> computes (alloc v m) (node_idx m) v -> grad v = flit 0 1 -> visited v = false -> tape_ok (alloc v m).
Proof.
  intros [H1 H2 H3] Hv Hg Hvis. pose proof (alloc_extends v m H1) as He. split; [by apply alloc_size|done|].
  intros i w Hi Hw. cbn [alloc node_idx] in Hi. destruct (decide (i = node_idx m)) as [->|Hne].
  - rewrite alloc_new in Hw by done. by injection Hw as <-.
  - rewrite alloc_old in Hw by lia. destruct (H3 i w) as (Hc & ?); [lia|done|]. split; [by eapply ext_computes|done].
Qed.

Lemma alloc_has v m : (node_idx m <= length (node_pool m))%nat -> has (alloc v m) (Node (node_idx m)) (data v).
Proof. intros H. split; [cbn; lia|]. cbn [lookup_ptr]. by rewrite alloc_new. Qed.

Lemma alloc_live v m p : live m p -> live (alloc v m) p.
Proof. destruct p; cbn; lia. Qed.

Lemma live_below m p : live m p -> below m (node_idx m) p.
Proof. intros H. split; [done|]. destruct p; [by left|done]. Qed.

(** ** Operations *)

(** [aux] of the next entry. *)
Definition stale m : F := match node_pool m !! node_idx m with Some v => aux v | None => flit 0 1 end.
Definition blank m (x : F) : Value F := mkValue x (flit 0 1) None None OP_CONST (stale m) false.

Lemma set_alloc v v' m : (node_idx m <= length (node_pool m))%nat -> set_ptr (Node (node_idx m)) v' (alloc v m) = alloc v' m.
Proof.
  intros H. unfold alloc. cbn [set_ptr node_pool node_idx heap topo]. f_equal.
  destruct (Nat.ltb_spec (node_idx m) (length (node_pool m))); [apply list_insert_insert_eq|].
  assert (node_idx m = length (node_pool m)) as -> by lia. by rewrite insert_app_r_alt, Nat.sub_diag by lia.
Qed.

Lemma uses_new_value x m (Q : ptr -> mem F -> Prop) : (node_idx m <= length (node_pool m))%nat -> Q (Node (node_idx m)) (alloc (blank m x) m) -> uses 1 (new_value x) Q m.
Proof.
  intros H HQ. unfold uses, new_value. destruct (Z.leb_spec MAX_NODES (Z.of_nat (node_idx m))); [lia|]. split; [cbn; lia|exact HQ].
Qed.

Lemma uses_store_new v f m (Q : unit -> mem F -> Prop) : (node_idx m <= length (node_pool m))%nat ->
  Q tt (alloc (f v) m) -> uses 0 (store (Node (node_idx m)) f) Q (alloc v m).
Proof.
  intros H HQ. unfold uses, store. cbn [lookup_ptr]. rewrite alloc_new, set_alloc by done. split; [cbn; lia|done].
Qed.

(** A node that is allocated and then filled. *)
Lemma uses_node x f m (Q : ptr -> mem F -> Prop) : tape_ok m -> Q (Node (node_idx m)) (alloc (f (blank m x)) m) ->
  uses 1 (v ← new_value x; store v f;; mret v) Q m.
Proof.
  intros Hm HQ. apply (uses_bind 1 0), uses_new_value; [apply Hm|]. apply (uses_bind 0 0), uses_store_new; [apply Hm|]. by apply uses_ret.
Qed.

(** What an operation gives: a live pointer to its result, nothing else changed. *)
Definition yields m (x : F) (p : ptr) (m' : mem F) : Prop := tape_ok m' /\ extends m m' /\ has m' p x.

Lemma yields_alloc v m x : tape_ok m -> computes (alloc v m) (node_idx m) v -> grad v = flit 0 1 -> visited v = false -> data v = x ->
  yields m x (Node (node_idx m)) (alloc v m).
Proof.
  intros Hm Hc Hg Hv <-. pose proof (tape_size _ Hm). split; [by apply alloc_ok|]. split; [by apply alloc_extends|]. by apply alloc_has.
Qed.

Lemma has_alloc v m p x : tape_ok m -> has m p x -> has (alloc v m) p x.
Proof. intros [H _ _]. by apply ext_has, alloc_extends. Qed.

Lemma below_alloc v m p x : tape_ok m -> has m p x -> below (alloc v m) (node_idx m) p.
Proof. intros [H _ _] [Hl _]. eapply ext_below; [by apply alloc_extends|]. by apply live_below. Qed.

#[local] Hint Resolve has_alloc below_alloc : core.

Ltac load_has H := let v := fresh "v" in let E := fresh "E" in let D := fresh "D" in
  destruct (has_lookup _ _ _ H) as (v & E & D); apply (uses_bind 0), (uses_load _ _ _ _ E); rewrite ?D.

Lemma new_value_uses x m : tape_ok m -> uses 1 (new_value x) (yields m x) m.
Proof. intros Hm. apply uses_new_value; [apply Hm|]. by apply yields_alloc. Qed.

Lemma add_uses a b x y m : tape_ok m -> has m a x -> has m b y -> uses 1 (add a b) (yields m (fadd x y)) m.
Proof.
  intros Hm Ha Hb. unfold add. load_has Ha. load_has Hb. apply uses_node; [done|]. apply yields_alloc; try done.
  exists a, b, x, y. split_and!; eauto.
Qed.

Lemma mul_uses a b x y m : tape_ok m -> has m a x -> has m b y -> uses 1 (mul a b) (yields m (fmul x y)) m.
Proof.
  intros Hm Ha Hb. unfold mul. load_has Ha. load_has Hb. apply uses_node; [done|]. apply yields_alloc; try done.
  left. exists a, b, x, y. split_and!; eauto.
Qed.

Lemma power_uses a e x m : tape_ok m -> has m a x -> uses 1 (power a e) (yields m (powf x e)) m.
Proof.
  intros Hm Ha. unfold power. load_has Ha. apply uses_node; [done|]. apply yields_alloc; try done. exists a, x. split_and!; eauto.
Qed.

Lemma vlog_uses a x m : tape_ok m -> has m a x -> uses 1 (vlog a) (yields m (logf x)) m.
Proof.
  intros Hm Ha. unfold vlog. load_has Ha. apply uses_node; [done|]. apply yields_alloc; try done. exists a, x. split_and!; eauto.
Qed.

Lemma vexp_uses a x m : tape_ok m -> has m a x -> uses 1 (vexp a) (yields m (expf x)) m.
Proof.
  intros Hm Ha. unfold vexp. load_has Ha. apply uses_node; [done|]. apply yields_alloc; try done. exists a, x. split_and!; eauto.
Qed.

Lemma relu_uses a x m : tape_ok m -> has m a x -> uses 1 (relu a) (yields m (if fgt x (flit 0 1) then x else flit 0 1)) m.
Proof.
  intros Hm Ha. unfold relu. load_has Ha. apply uses_node; [done|]. apply yields_alloc; try done. exists a, x. split_and!; eauto.
Qed.

Lemma sub_uses a b x y m : tape_ok m -> has m a x -> has m b y -> uses 2 (sub a b) (yields m (fadd x (fneg y))) m.
Proof.
  intros Hm Ha Hb. unfold sub. load_has Hb. apply (uses_bind 1 1), uses_new_value; [apply Hm|].
  apply (uses_bind 0 1), uses_store_new; [apply Hm|].
  set (v' := (set_aux _ ∘ set_node _ _ _) _). assert (Hy : yields m (fneg y) (Node (node_idx m)) (alloc v' m)).
  { apply yields_alloc; try done. right. exists b, y. split_and!; eauto. }
  destruct Hy as (Hm' & He & Hn). eapply uses_mono; [apply (add_uses a _ x (fneg y) _ Hm'); [by eapply ext_has|done]|done|].
  intros p m' (H1 & H2 & H3). split; [done|]. split; [by etrans|done].
Qed.

(** A node that refers to the constant allocated right after it. *)
Lemma set_alloc2 v v' w m : (node_idx m <= length (node_pool m))%nat -> set_ptr (Node (node_idx m)) v' (alloc w (alloc v m)) = alloc w (alloc v' m).
Proof.
  intros H. rewrite <-(set_alloc v v') by done. pose proof (alloc_size v m H) as H1. unfold alloc at 1 3. cbn [set_ptr node_pool node_idx heap topo].
  assert (length (<[node_idx m:=v']> (node_pool (alloc v m))) = length (node_pool (alloc v m))) as -> by apply length_insert.
  cbn [alloc node_idx] in *. f_equal. case_match; [|rewrite insert_app_l; [done|lia]]. rewrite list_insert_insert_ne; [done|lia].
Qed.

Lemma alloc2_ok v w m : tape_ok m -> constant w -> grad w = flit 0 1 -> visited w = false ->
  computes (alloc w (alloc v m)) (node_idx m) v -> grad v = flit 0 1 -> visited v = false -> yields m (data v) (Node (node_idx m)) (alloc w (alloc v m)).
Proof.
  intros Hm Hw Hgw Hvw Hv Hg Hvis. pose proof (tape_size _ Hm) as H1. pose proof (alloc_size v m H1) as H2.
  pose proof (alloc_extends v m H1) as E1. pose proof (alloc_extends w _ H2) as E2. assert (E : extends m (alloc w (alloc v m))) by (by etrans).
  split; [|split; [done|]]; [|eapply ext_has; [exact E2|by apply alloc_has]].
  split; [by apply alloc_size|apply Hm|]. intros i u Hi Hu. cbn [alloc node_idx] in Hi.
  destruct (decide (i = S (node_idx m))) as [->|]; [|destruct (decide (i = node_idx m)) as [->|]].
  - change (S (node_idx m)) with (node_idx (alloc v m)) in Hu. rewrite (alloc_new w (alloc v m) H2) in Hu. injection Hu as <-. unfold computes. rewrite (proj1 Hw). done.
  - rewrite alloc_old, alloc_new in Hu by (cbn [alloc node_idx]; lia || done). by injection Hu as <-.
  - rewrite (ext_pool _ _ E) in Hu by lia. destruct (tape_nodes _ Hm i u) as (Hc & ?); [lia|done|]. split; [by eapply ext_computes|done].
Qed.

Lemma mul_const_uses a c x m : tape_ok m -> has m a x -> uses 2 (mul_const a c) (yields m (fmul x c)) m.
Proof.
  intros Hm Ha. pose proof (tape_size _ Hm) as H1. unfold mul_const. load_has Ha. apply (uses_bind 1 1), uses_new_value; [done|].
  apply (uses_bind 0 1), uses_store_new; [done|]. set (v1 := set_node _ _ _ _). pose proof (alloc_size v1 m H1) as H2.
  apply (uses_bind 1 0), uses_new_value; [done|]. set (w := blank _ c). apply (uses_bind 0 0).
  unfold uses at 1, store. cbn [lookup_ptr]. rewrite alloc_old, alloc_new, set_alloc2 by (cbn [alloc node_idx]; lia || done).
  split; [cbn; lia|]. apply uses_ret. apply (alloc2_ok (set_node (prev0 v1) (Some (Node (S (node_idx m)))) (op v1) v1)); try done.
  left. exists a, (Node (S (node_idx m))), x, c. set (v2 := set_node _ _ _ v1).
  pose proof (alloc_extends w _ (alloc_size v2 m H1)) as E2.
  split_and!; try done; [eapply ext_below; [exact E2|by eapply below_alloc]| |eapply ext_has; [exact E2|by apply has_alloc]|exact (alloc_has w (alloc v2 m) (alloc_size v2 m H1))].
  split; [cbn; lia|]. right. exists w. split; [exact (alloc_new w (alloc v2 m) (alloc_size v2 m H1))|done].
Qed.

End inv.

Ltac load_has H := let v := fresh "v" in let E := fresh "E" in let D := fresh "D" in
  destruct (has_lookup _ _ _ H) as (v & E & D); apply (uses_bind 0), (uses_load _ _ _ _ E); rewrite ?D.
