(* ===== verification/TapeTopo.v ===== *)
(** The topological sort of gpt/microgpt.c: on a tape that keeps the invariant it ends,
    and lists every node reachable from the root once, operands first. *)
From S2P Require Import Prelude Arrays Tape TapeInv.

(** Two steps of a program of which the first is known to return. *)
Lemma bind_done {F A B} (c : prog F A) (f : A -> prog F B) m a m' : c m = Ret (Done a m') -> (c ≫= f) m = f a m'.
Proof. intros H. by rewrite bind_run, H. Qed.

Section topo.
Context {F : Type} `{!Float F}.
Implicit Types (m : mem F) (v : Value F).

(** ** Graphs *)

Definition kids v : list ptr := option_list (prev0 v) ++ option_list (prev1 v).
Definition kids_of m (p : ptr) : list ptr := match lookup_ptr m p with Some v => kids v | None => [] end.

(** Constants and parameters are at the bottom. *)
Definition rank m (p : ptr) : nat :=
  match p with
  | Node i => match kids_of m p with [] => 0 | _ => S i end
  | Param _ => 0
  end.

Definition graph_ok m : Prop := forall p, live m p -> exists v, lookup_ptr m p = Some v /\
  forall c, c ∈ kids v -> live m c /\ (rank m c < rank m p)%nat.

Lemma constant_kids v : constant v -> kids v = [].
Proof. intros (_ & H0 & H1). unfold kids. by rewrite H0, H1. Qed.

Lemma below_rank m i p : below m i p -> live m p /\ (rank m p < S i)%nat.
Proof.
  intros [Hl Hb]. split; [done|]. destruct p as [j|j]; cbn [rank]; [|lia]. destruct Hb as [Hb|(v & E & Hc)].
  - destruct (kids_of m (Node j)); lia.
  - unfold kids_of. cbn [lookup_ptr]. rewrite E, (constant_kids v Hc). lia.
Qed.

Lemma computes_kids m i v c : computes m i v -> c ∈ kids v -> below m i c.
Proof.
  unfold computes, kids. intros H Hc. destruct (op v).
  - destruct H as (_ & H0 & H1). rewrite H0, H1 in Hc. by apply elem_of_nil in Hc.
  - destruct H as (a & b & x & y & H0 & H1 & Ha & Hb & _). rewrite H0, H1 in Hc. set_solver.
  - destruct H as [(a & b & x & y & H0 & H1 & Ha & Hb & _)|(a & x & H0 & H1 & Ha & _)]; rewrite H0, H1 in Hc; set_solver.
  - destruct H as (a & x & H0 & H1 & Ha & _). rewrite H0, H1 in Hc. set_solver.
  - destruct H as (a & x & H0 & H1 & Ha & _). rewrite H0, H1 in Hc. set_solver.
  - destruct H as (a & x & H0 & H1 & Ha & _). rewrite H0, H1 in Hc. set_solver.
  - destruct H as (a & x & H0 & H1 & Ha & _). rewrite H0, H1 in Hc. set_solver.
Qed.

Lemma tape_graph m : tape_ok m -> graph_ok m.
Proof.
  intros Hm p Hp. destruct (tape_lookup m p Hm Hp) as [v E]. exists v. split; [done|]. intros c Hc.
  destruct p as [i|j]; cbn in Hp, E.
  - destruct (tape_nodes m Hm i v Hp E) as (Hv & _). destruct (below_rank m i c) as [Hl Hr]; [by eapply computes_kids|].
    split; [done|]. cbn [rank]. unfold kids_of. cbn [lookup_ptr]. rewrite E. destruct (kids v); [by apply elem_of_nil in Hc|done].
  - rewrite (constant_kids v) in Hc by (eapply Forall_lookup_1; [apply Hm|done]). by apply elem_of_nil in Hc.
Qed.

(** ** Lists with operands first *)

Context (m0 : mem F).

(** The operands of each element are in [V] or earlier in the list. *)
Fixpoint ordered (V : ptr -> Prop) (l : list ptr) : Prop :=
  match l with
  | [] => True
  | x :: l => (forall c, c ∈ kids_of m0 x -> V c) /\ ordered (fun q => V q \/ q = x) l
  end.

Lemma ordered_weaken l : forall (V V' : ptr -> Prop), ordered V l -> (forall x c, x ∈ l -> c ∈ kids_of m0 x -> V c -> V' c) -> ordered V' l.
Proof.
  induction l as [|x l IH]; intros V V' H HV; [done|]. destruct H as [H1 H2]. split.
  - intros c Hc. apply (HV x); [left|done|auto].
  - apply (IH (fun q => V q \/ q = x)); [done|]. intros y c Hy Hc [Hv|Hv]; [left; apply (HV y); [by right|done..]|by right].
Qed.

Lemma ordered_app l1 l2 : forall V : ptr -> Prop, ordered V l1 -> ordered (fun q => V q \/ q ∈ l1) l2 -> ordered V (l1 ++ l2).
Proof.
  induction l1 as [|x l1 IH]; intros V H1 H2; cbn in *.
  - eapply ordered_weaken; [done|]. intros y c _ _ [H|H]; [done|by apply elem_of_nil in H].
  - destruct H1 as [H1 H1']. split; [done|]. apply IH; [done|]. eapply ordered_weaken; [done|]. set_solver.
Qed.

Lemma ordered_split l1 x l2 : forall V : ptr -> Prop, ordered V (l1 ++ x :: l2) -> forall c, c ∈ kids_of m0 x -> V c \/ c ∈ l1.
Proof.
  induction l1 as [|y l1 IH]; intros V H c Hc; cbn in H; destruct H as [H1 H2]; [left; auto|].
  destruct (IH _ H2 c Hc) as [[H|H]|H]; set_solver.
Qed.

Lemma ordered_prefix l1 l2 : forall V : ptr -> Prop, ordered V (l1 ++ l2) -> ordered V l1.
Proof. induction l1 as [|x l1 IH]; intros V H; [done|]. destruct H as [H1 H2]. split; [done|auto]. Qed.

(** ** Memories that differ in gradients and marks only *)

Definition strip v : Value F := set_grad (flit 0 1) (set_visited false v).

Definition shape m : Prop := node_idx m = node_idx m0 /\ length (heap m) = length (heap m0) /\ forall p, strip <$> lookup_ptr m p = strip <$> lookup_ptr m0 p.

Definition vis m (p : ptr) : bool := match lookup_ptr m p with Some v => visited v | None => false end.

Lemma strip_fields v w : strip v = strip w -> data v = data w /\ prev0 v = prev0 w /\ prev1 v = prev1 w /\ op v = op w /\ aux v = aux w.
Proof. destruct v, w. unfold strip, set_grad, set_visited. cbn. intros H. by injection H as -> -> -> -> ->. Qed.

Lemma shape_lookup m p v0 : shape m -> lookup_ptr m0 p = Some v0 -> exists v, lookup_ptr m p = Some v /\ strip v = strip v0.
Proof. intros (_ & _ & H) E. specialize (H p). rewrite E in H. destruct (lookup_ptr m p) as [v|]; [|done]. exists v. split; [done|]. by apply (inj Some) in H. Qed.

Lemma lookup_set m p q v w : lookup_ptr m p = Some v -> lookup_ptr (set_ptr p w m) q = if decide (q = p) then Some w else lookup_ptr m q.
Proof.
  intros E. destruct (decide (q = p)) as [->|Hne].
  - destruct p as [i|j]; cbn in *; apply list_lookup_insert_eq; by eapply lookup_lt_Some.
  - destruct p as [i|j], q as [i'|j']; cbn; (done || (rewrite list_lookup_insert_ne by (intros ->; done); done)).
Qed.

(** Changing the gradient or the mark of an object. *)
Lemma shape_set m p v w : shape m -> lookup_ptr m p = Some v -> strip w = strip v -> shape (set_ptr p w m).
Proof.
  intros (H1 & H2 & H3) E Hs. split; [by destruct p|]. split; [destruct p; cbn; [done|by rewrite length_insert]|].
  intros q. rewrite (lookup_set m p q v w E), <-H3. destruct (decide (q = p)) as [->|]; [|done]. rewrite E. cbn. by rewrite Hs.
Qed.

Lemma load_done m p v : lookup_ptr m p = Some v -> load p m = Ret (Done v m).
Proof. intros E. unfold load. by rewrite E. Qed.

Lemma store_done m p v f : lookup_ptr m p = Some v -> store p f m = Ret (Done tt (set_ptr p (f v) m)).
Proof. intros E. unfold store. by rewrite E. Qed.

(** ** The sort *)

(** [topo] holds live, marked objects, each once. *)
Definition topo_ok m : Prop := NoDup (topo m) /\ forall q, q ∈ topo m -> live m0 q /\ vis m q = true.

(** The number of live objects bounds [topo]. *)
Lemma live_count l : NoDup l -> (forall q, q ∈ l -> live m0 q) -> (length l <= node_idx m0 + length (heap m0))%nat.
Proof.
  intros Hnd Hl. rewrite <-(length_seq (node_idx m0) 0), <-(length_seq (length (heap m0)) 0).
  rewrite <-(length_fmap Node), <-(length_fmap Param), <-length_app. apply submseteq_length, NoDup_submseteq; [done|].
  intros q Hq. specialize (Hl q Hq). apply elem_of_app. destruct q as [i|j]; cbn in Hl; [left|right]; apply list_elem_of_fmap;
    eexists; (split; [reflexivity|]); apply elem_of_seq; lia.
Qed.

Context (Hg : graph_ok m0) (Hroom : Z.of_nat (node_idx m0 + length (heap m0)) <= MAX_NODES).

(** What can be reached along operands. *)
Definition reach : ptr -> ptr -> Prop := rtc (fun p c => c ∈ kids_of m0 p).
Definition reach_kids (p q : ptr) : Prop := exists c, c ∈ kids_of m0 p /\ reach c q.

Lemma kids_rank p c : live m0 p -> c ∈ kids_of m0 p -> live m0 c /\ (rank m0 c < rank m0 p)%nat.
Proof. intros Hp Hc. destruct (Hg p Hp) as (v & E & Hk). unfold kids_of in Hc. rewrite E in Hc. auto. Qed.

Lemma reach_rank p q : reach p q -> live m0 p -> live m0 q /\ (rank m0 q <= rank m0 p)%nat.
Proof. induction 1 as [p|p c q Hc _ IH]; intros Hp; [done|]. destruct (kids_rank p c Hp Hc) as [Hl Hr]. destruct (IH Hl). split; [done|lia]. Qed.

Lemma reach_kids_rank p q : live m0 p -> reach_kids p q -> live m0 q /\ (rank m0 q < rank m0 p)%nat.
Proof. intros Hp (c & Hc & Hr). destruct (kids_rank p c Hp Hc) as [Hl Hlt]. destruct (reach_rank c q Hr Hl). split; [done|lia]. Qed.

(** What visits do: [l] is what they append, objects with [P]. *)
Record sorts (m : mem F) (P : ptr -> Prop) (m' : mem F) (l : list ptr) : Prop := Sorts {
  so_shape : shape m';
  so_topo : topo m' = topo m ++ l;
  so_ok : topo_ok m';
  so_grad : forall q, grad <$> lookup_ptr m' q = grad <$> lookup_ptr m q;
  so_vis : forall q, vis m' q = vis m q || bool_decide (q ∈ l);
  so_new : forall q, q ∈ l -> vis m q = false /\ P q;
  so_ordered : ordered (fun q => vis m q = true) l
}.

Lemma sorts_nil m P : shape m -> topo_ok m -> sorts m P m [].
Proof.
  intros Hs Ht. split; try done; [by rewrite app_nil_r|..].
  - intros q. rewrite bool_decide_false, orb_false_r by apply not_elem_of_nil. done.
  - intros q Hq. by apply elem_of_nil in Hq.
Qed.

Lemma sorts_vis m P m' l q : sorts m P m' l -> vis m' q = true <-> vis m q = true \/ q ∈ l.
Proof. intros H. rewrite (so_vis _ _ _ _ H), orb_true_iff, bool_decide_eq_true. done. Qed.

Lemma sorts_app m P m1 l1 m2 l2 : sorts m P m1 l1 -> sorts m1 P m2 l2 -> sorts m P m2 (l1 ++ l2).
Proof.
  intros H1 H2. split; try apply H2.
  - by rewrite (so_topo _ _ _ _ H2), (so_topo _ _ _ _ H1), app_assoc.
  - intros q. by rewrite (so_grad _ _ _ _ H2), (so_grad _ _ _ _ H1).
  - intros q. apply eq_true_iff_eq. rewrite (sorts_vis m1 P m2 l2), (sorts_vis m P m1 l1), orb_true_iff, bool_decide_eq_true, elem_of_app by done. tauto.
  - intros q [Hq|Hq]%elem_of_app; [by apply (so_new _ _ _ _ H1)|]. destruct (so_new _ _ _ _ H2 q Hq) as [Hf HP]. split; [|done].
    destruct (vis m q) eqn:E; [|done]. rewrite (proj2 (sorts_vis m P m1 l1 q H1)) in Hf; [done|by left].
  - apply ordered_app; [apply H1|]. eapply ordered_weaken; [apply H2|]. intros x c _ _. by apply (sorts_vis m P m1 l1).
Qed.

(** The object that is being visited is marked ... *)
Lemma mark_spec m p v : shape m -> topo_ok m -> lookup_ptr m p = Some v -> let m' := set_ptr p (set_visited true v) m in
  shape m' /\ topo m' = topo m /\ topo_ok m' /\ (forall q, grad <$> lookup_ptr m' q = grad <$> lookup_ptr m q) /\
  (forall q, vis m' q = vis m q || bool_decide (q = p)) /\ lookup_ptr m' p = Some (set_visited true v).
Proof.
  intros Hs [Hnd Ht] E m'. pose proof (lookup_set m p) as Hl.
  assert (Hv : forall q, vis m' q = vis m q || bool_decide (q = p)).
  { intros q. unfold vis, m'. rewrite (Hl q v _ E). destruct (decide (q = p)) as [->|]; [by rewrite bool_decide_true, orb_true_r|by rewrite bool_decide_false, orb_false_r]. }
  assert (Htp : topo m' = topo m) by (by destruct p). split; [by eapply shape_set|]. split; [done|]. split; [|split; [|split; [done|]]].
  - split; [by rewrite Htp|]. intros q Hq. rewrite Htp in Hq. destruct (Ht q Hq) as [H1 H2]. by rewrite Hv, H2.
  - intros q. unfold m'. rewrite (Hl q v _ E). destruct (decide (q = p)) as [->|]; [by rewrite E|done].
  - unfold m'. rewrite (Hl p v _ E). by rewrite decide_True.
Qed.

(** ... and appended when its operands are done. *)
Lemma finish_spec m p m1 m2 l : live m0 p -> vis m p = false -> topo_ok m -> topo m1 = topo m -> (forall q, grad <$> lookup_ptr m1 q = grad <$> lookup_ptr m q) ->
  (forall q, vis m1 q = vis m q || bool_decide (q = p)) -> sorts m1 (reach_kids p) m2 l -> (forall c, c ∈ kids_of m0 p -> vis m2 c = true) ->
  exists m3, push_topo p m2 = Ret (Done tt m3) /\ sorts m (reach p) m3 (l ++ [p]) /\ vis m3 p = true.
Proof.
  intros Hp Hnp [Hnd Ht] Htp Hgr Hv1 H2 Hk. pose proof (so_topo _ _ _ _ H2) as Htp2. destruct (so_ok _ _ _ _ H2) as [Hnd2 Ht2].
  assert (Hvis2 : forall q, vis m2 q = true <-> vis m q = true \/ q = p \/ q ∈ l).
  { intros q. rewrite (sorts_vis _ _ _ _ q H2), Hv1, orb_true_iff, bool_decide_eq_true. tauto. }
  assert (Hpl : p ∉ topo m ++ l).
  { intros [Hq|Hq]%elem_of_app; [destruct (Ht p Hq); congruence|]. destruct (so_new _ _ _ _ H2 p Hq) as [Hf _].
    rewrite Hv1, bool_decide_true, orb_true_r in Hf by done. done. }
  assert (Hnd3 : NoDup ((topo m ++ l) ++ [p])).
  { apply NoDup_app. split; [by rewrite <-Htp, <-Htp2|]. split; [|apply NoDup_singleton]. intros q Hq ->%list_elem_of_singleton. done. }
  assert (Hlen : (length ((topo m ++ l) ++ [p]) <= node_idx m0 + length (heap m0))%nat).
  { apply live_count; [done|]. intros q [Hq| ->%list_elem_of_singleton]%elem_of_app; [|done]. apply Ht2. by rewrite Htp2, Htp. }
  unfold push_topo. rewrite Htp2, Htp. rewrite length_app in Hlen. cbn in Hlen. rewrite (proj2 (Z.leb_gt _ _)) by lia.
  eexists. split; [reflexivity|]. split; [|by apply Hvis2; right; left].
  split; cbn [topo].
  - apply H2.
  - by rewrite app_assoc.
  - split; [done|]. intros q [Hq| ->%list_elem_of_singleton]%elem_of_app; [apply Ht2; by rewrite Htp2, Htp|]. split; [done|]. by apply Hvis2; right; left.
  - intros q. cbn. rewrite <-Hgr. apply (so_grad _ _ _ _ H2).
  - intros q. apply eq_true_iff_eq. rewrite orb_true_iff, bool_decide_eq_true, elem_of_app, list_elem_of_singleton.
    change (vis m2 q = true <-> vis m q = true \/ q ∈ l \/ q = p). rewrite Hvis2. tauto.
  - intros q [Hq| ->%list_elem_of_singleton]%elem_of_app; [|by split]. destruct (so_new _ _ _ _ H2 q Hq) as [Hf (c & Hc & Hr)].
    split; [|by eapply rtc_l]. rewrite Hv1 in Hf. by apply orb_false_iff in Hf as [Hf _].
  - assert (Hno : forall x c, (rank m0 x <= rank m0 p)%nat -> live m0 x -> c ∈ kids_of m0 x -> c <> p).
    { intros x c Hx Hlx Hc ->. destruct (kids_rank x p Hlx Hc). lia. }
    apply ordered_app.
    + eapply ordered_weaken; [apply H2|]. intros x c Hx Hc Hvc. cbv beta in *. rewrite Hv1, orb_true_iff, bool_decide_eq_true in Hvc. destruct Hvc as [Hvc| ->]; [done|].
      exfalso. destruct (so_new _ _ _ _ H2 x Hx) as [_ Hr]. destruct (reach_kids_rank p x Hp Hr). apply (Hno x p); [lia|done..].
    + split; [|done]. intros c Hc. specialize (Hk c Hc). apply Hvis2 in Hk as [Hk|[Hk|Hk]]; [by left| |by right]. exfalso. by apply (Hno p c).
Qed.

(** The visit of an operand, if there is one. *)
Lemma visit_sorts n p (o : option ptr) m : shape m -> topo_ok m -> (forall c, o = Some c -> c ∈ kids_of m0 p) ->
  (forall c m, o = Some c -> shape m -> topo_ok m -> exists m' l, build_topo n c m = Ret (Done tt m') /\ sorts m (reach c) m' l /\ vis m' c = true) ->
  exists m' l, (match o with Some c => build_topo n c | None => mret tt end) m = Ret (Done tt m') /\ sorts m (reach_kids p) m' l /\
    (forall c, o = Some c -> vis m' c = true).
Proof.
  intros Hs Ht Hc IH. destruct o as [c|]; [|exists m, []; split; [done|]; split; [by apply sorts_nil|done]].
  destruct (IH c m eq_refl Hs Ht) as (m' & l & E & Hso & Hv). exists m', l. split; [done|]. split; [|by intros ? [= <-]].
  destruct Hso as [S1 S2 S3 S4 S5 S6 S7]. split; try done. intros q Hq. destruct (S6 q Hq). split; [done|]. exists c. auto.
Qed.

Lemma sorts_lookup m P m' l p v : sorts m P m' l -> shape m -> lookup_ptr m p = Some v -> exists v', lookup_ptr m' p = Some v' /\ prev0 v' = prev0 v /\ prev1 v' = prev1 v.
Proof.
  intros H (_ & _ & Hs) E. destruct (so_shape _ _ _ _ H) as (_ & _ & Hs'). specialize (Hs p). specialize (Hs' p). rewrite E in Hs. rewrite <-Hs in Hs'.
  destruct (lookup_ptr m' p) as [v'|]; [|done]. exists v'. apply (inj Some), strip_fields in Hs'. naive_solver.
Qed.

Lemma build_topo_sorts fuel : forall p m, shape m -> topo_ok m -> live m0 p -> (rank m0 p < fuel)%nat ->
  exists m' l, build_topo fuel p m = Ret (Done tt m') /\ sorts m (reach p) m' l /\ vis m' p = true.
Proof.
  induction fuel as [|n IH]; intros p m Hs Ht Hp Hr; [lia|]. cbn [build_topo].
  destruct (Hg p Hp) as (v0 & E0 & Hk). destruct (shape_lookup m p v0 Hs E0) as (v & E & Hv). apply strip_fields in Hv as (_ & Hp0 & Hp1 & _).
  rewrite (bind_done _ _ _ _ _ (load_done m p v E)).
  destruct (visited v) eqn:Evis.
  { exists m, []. split; [done|]. split; [by apply sorts_nil|]. unfold vis. by rewrite E. }
  rewrite (bind_done _ _ _ _ _ (store_done m p v _ E)). destruct (mark_spec m p v Hs Ht E) as (Hs1 & Htp1 & Ht1 & Hg1 & Hv1 & E1).
  set (m1 := set_ptr p _ m) in *. rewrite (bind_done _ _ _ _ _ (load_done m1 p _ E1)). cbn [set_visited prev0].
  assert (Hin : forall c, prev0 v = Some c \/ prev1 v = Some c -> c ∈ kids_of m0 p).
  { intros c Hc. unfold kids_of. rewrite E0. unfold kids. rewrite <-Hp0, <-Hp1. destruct Hc as [-> | ->]; set_solver. }
  assert (Hcall : forall c m, prev0 v = Some c \/ prev1 v = Some c -> shape m -> topo_ok m ->
    exists m' l, build_topo n c m = Ret (Done tt m') /\ sorts m (reach c) m' l /\ vis m' c = true).
  { intros c m' Hc Hs' Ht'. destruct (kids_rank p c Hp (Hin c Hc)). apply IH; [done..|lia]. }
  destruct (visit_sorts n p (prev0 v) m1) as (m2 & l1 & E2 & H2 & Hc2); [done|done|auto|auto|].
  rewrite (bind_done _ _ _ _ _ E2). destruct (sorts_lookup _ _ _ _ p _ H2 Hs1 E1) as (v2 & Ev2 & _ & Hv2). cbn [set_visited prev1] in Hv2.
  rewrite (bind_done _ _ _ _ _ (load_done m2 p v2 Ev2)). rewrite Hv2.
  destruct (visit_sorts n p (prev1 v) m2) as (m3 & l2 & E3 & H3 & Hc3); [apply H2|apply H2|auto|auto|].
  rewrite (bind_done _ _ _ _ _ E3). pose proof (sorts_app _ _ _ _ _ _ H2 H3) as H23.
  destruct (finish_spec m p m1 m3 (l1 ++ l2)) as (m4 & E4 & H4 & Hv4); try done; [unfold vis; by rewrite E| |by exists m4, ((l1 ++ l2) ++ [p])].
  intros c Hc. unfold kids_of in Hc. rewrite E0 in Hc. unfold kids in Hc. rewrite <-Hp0, <-Hp1 in Hc. apply elem_of_app in Hc as [Hc|Hc].
  - apply (sorts_vis _ _ _ _ c H3). left. apply Hc2. destruct (prev0 v); set_solver.
  - apply Hc3. destruct (prev1 v); set_solver.
Qed.

(** From unmarked objects. *)
Lemma build_topo_root root m : shape m -> topo m = [] -> (forall q, live m0 q -> vis m q = false) -> live m0 root ->
  exists m' l, build_topo (S (S (node_idx m0))) root m = Ret (Done tt m') /\ shape m' /\ topo m' = l /\
    (forall q, grad <$> lookup_ptr m' q = grad <$> lookup_ptr m q) /\ NoDup l /\ (forall q, q ∈ l <-> reach root q) /\ ordered (fun _ => False) l.
Proof.
  intros Hs Ht Hv Hroot. assert (Htk : topo_ok m) by (split; rewrite Ht; [constructor|intros q Hq; by apply elem_of_nil in Hq]).
  assert (Hr : (rank m0 root < S (S (node_idx m0)))%nat) by (destruct root as [i|j]; cbn in *; [destruct (kids_of m0 (Node i))|]; lia).
  destruct (build_topo_sorts (S (S (node_idx m0))) root m Hs Htk Hroot Hr) as (m' & l & E & [S1 S2 [S3 S4] S5 S6 S7 S8] & Hvr).
  rewrite Ht in S2. cbn in S2. exists m', l. split; [done|]. split; [done|]. split; [done|]. split; [done|]. rewrite S2 in S3, S4. split; [done|].
  assert (Hno : forall x c, x ∈ l -> c ∈ kids_of m0 x -> vis m c = true -> False).
  { intros x c Hx Hc Hvc. destruct (S4 x Hx) as [Hlx _]. destruct (kids_rank x c Hlx Hc) as [Hlc _]. by rewrite (Hv c Hlc) in Hvc. }
  assert (Ho : ordered (fun _ => False) l) by (eapply ordered_weaken; [exact S8|exact Hno]).
  split; [|done]. intros q. split; [by intros Hq; apply S7|].
  assert (Hin : root ∈ l) by (specialize (S6 root); rewrite Hvr, (Hv root Hroot) in S6; by apply eq_sym, bool_decide_eq_true in S6).
  assert (Hcl : forall p q, reach p q -> p ∈ l -> q ∈ l).
  { induction 1 as [p|p c r Hc _ IH]; [done|]. intros Hp. apply IH. apply list_elem_of_split in Hp as (l1 & l2 & El). rewrite El in Ho.
    destruct (ordered_split l1 p l2 _ Ho c Hc) as [Hf|Hf]; [done|]. rewrite El. apply elem_of_app. by left. }
  intros Hq. by apply (Hcl root).
Qed.
End topo.

(** ** Resetting the marks of the parameters *)

Section backward.
Context {F : Type} `{!Float F}.
Implicit Types (m : mem F).

Lemma unmark_params n : forall i m m0, shape m0 m -> (i + n <= length (heap m0))%nat ->
  exists m', for_from i n (fun i => store (Param i) (set_visited false)) m = Ret (Done tt m') /\ shape m0 m' /\ topo m' = topo m /\
    (forall q, grad <$> lookup_ptr m' q = grad <$> lookup_ptr m q) /\
    (forall q, vis m' q = match q with Param j => if decide (i <= j < i + n)%nat then false else vis m q | Node _ => vis m q end).
Proof.
  induction n as [|n IH]; intros i m m0 Hs Hn; cbn [for_from].
  - exists m. split_and!; try done. intros [|j]; [done|]. by rewrite decide_False by lia.
  - destruct (lookup_lt_is_Some_2 (heap m) i) as [v E]; [destruct Hs as (_ & -> & _); lia|].
    rewrite (bind_done _ _ _ _ _ (store_done m (Param i) v _ E)). set (m1 := set_ptr _ _ m).
    destruct (IH (S i) m1 m0) as (m' & -> & Hs' & Ht & Hgr & Hv); [by eapply shape_set|lia|].
    pose proof (fun q => lookup_set m (Param i) q v (set_visited false v) E) as Hl. fold m1 in Hl.
    exists m'. split; [done|]. split; [done|]. split; [by rewrite Ht|]. split.
    + intros q. rewrite Hgr, Hl. case_decide as H; [subst q; cbn [lookup_ptr]; by rewrite E|done].
    + intros q. rewrite Hv. assert (Hq : vis m1 q = if decide (q = Param i) then false else vis m q) by (unfold vis; rewrite Hl; by case_decide).
      destruct q as [j|j]; rewrite Hq; [done|]. destruct (decide (j = i)) as [->|Hne].
      * rewrite (decide_False (P := (S i <= i < S i + n)%nat)), (decide_True (P := (i <= i < i + S n)%nat)) by lia. by rewrite decide_True.
      * rewrite (decide_False (P := Param j = Param i)) by congruence. repeat case_decide; (done || lia).
Qed.

(** The memory in which [backward] starts its loop: everything reachable from the root, each
    once and operands first, in [topo], and the gradient of the root 1. *)
Definition loop_memory (m : mem F) (root : ptr) (m' : mem F) : Prop :=
  shape m m' /\ NoDup (topo m') /\ (forall q, q ∈ topo m' <-> reach m root q) /\ ordered m (fun _ => False) (topo m') /\
  (forall q, live m q -> grad <$> lookup_ptr m' q = if decide (q = root) then Some (flit 1 1) else grad <$> lookup_ptr m q).

Lemma backward_start m root : tape_ok m -> live m root -> Z.of_nat (node_idx m + length (heap m)) <= MAX_NODES ->
  Z.of_nat (length (heap m)) <= MAX_PARAMS -> exists m', loop_memory m root m' /\ backward root m = backward_loop (rev (topo m')) m'.
Proof.
  intros Hm Hroot Hroom Hpar. pose proof (tape_graph m Hm) as Hg. unfold backward. set (m1 := Mem (node_pool m) (node_idx m) (heap m) []).
  rewrite (bind_done reset_topo _ m tt m1 eq_refl), (bind_done memory _ m1 m1 m1 eq_refl).
  assert (Hs1 : shape m m1) by (split_and!; try done; by intros [|]).
  assert (Hpc : param_count m1 = length (heap m)) by (unfold param_count; cbn; lia).
  destruct (unmark_params (param_count m1) 0 m1 m Hs1) as (m2 & E2 & Hs2 & Ht2 & Hg2 & Hv2); [lia|]. rewrite (bind_done _ _ _ _ _ E2).
  destruct (build_topo_root m Hg Hroom root m2) as (m3 & l & E3 & Hs3 & Ht3 & Hg3 & Hnd & Hl & Ho); [done|by rewrite Ht2| |done|].
  { intros [i|j] Hq; rewrite Hv2; [|rewrite decide_True; [done|cbn in Hq; lia]]. unfold vis. cbn. cbn in Hq.
    destruct (node_pool m !! i) as [v|] eqn:E; [|done]. by apply (tape_nodes m Hm i v). }
  change (node_idx m1) with (node_idx m). rewrite (bind_done _ _ _ _ _ E3).
  destruct (tape_lookup m root Hm Hroot) as [v0 E0]. destruct (shape_lookup m m3 root v0 Hs3 E0) as (v & E & _).
  rewrite (bind_done _ _ _ _ _ (store_done m3 root v _ E)). set (m4 := set_ptr root _ m3).
  rewrite (bind_done memory _ m4 m4 m4 eq_refl). exists m4. split; [|done]. assert (Ht4 : topo m4 = l) by (by destruct root).
  split; [by eapply shape_set|]. rewrite Ht4. split; [done|]. split; [done|]. split; [done|].
  intros q Hq. unfold m4. rewrite (lookup_set m3 root q v _ E). case_decide as H; [done|]. rewrite Hg3, Hg2. by destruct q.
Qed.
End backward.
