(* ===== verification/TapeSafe.v ===== *)
(** The backward pass of gpt/microgpt.c in any arithmetic: it ends, stays inside its
    objects and changes nothing but gradients and marks. *)
From S2P Require Import Prelude Arrays Tape TapeInv TapeTopo.

Section safe.
Context {F : Type} `{!Float F} (m0 : mem F) (Hm : tape_ok m0).
Let Hg : graph_ok m0 := tape_graph m0 Hm.
Implicit Types (m : mem F).

(** A program that ends in a memory of the same shape, with the same [topo]. *)
Definition quiet (c : prog F unit) : Prop := forall m, shape m0 m -> exists m', c m = Ret (Done tt m') /\ shape m0 m' /\ topo m' = topo m.

Lemma quiet_ret : quiet (mret tt).
Proof. intros m Hs. by exists m. Qed.

Lemma quiet_add_grad p x : live m0 p -> quiet (add_grad p x).
Proof.
  intros Hp m Hs. destruct (Hg p Hp) as (v0 & E0 & _). destruct (shape_lookup m0 m p v0 Hs E0) as (v & E & _).
  exists (set_ptr p (set_grad (fadd (grad v) x) v) m). unfold add_grad. rewrite (store_done m p v _ E). split; [done|].
  split; [by eapply shape_set|by destruct p].
Qed.

Lemma quiet_seq c1 c2 : quiet c1 -> quiet c2 -> quiet (c1;; c2).
Proof.
  intros H1 H2 m Hs. destruct (H1 m Hs) as (m1 & E1 & Hs1 & Ht1). destruct (H2 m1 Hs1) as (m2 & E2 & Hs2 & Ht2).
  exists m2. rewrite (bind_done _ _ _ _ _ E1). split; [done|]. split; [done|congruence].
Qed.

(** What a load finds has the operation and the operands of the first memory. *)
Lemma quiet_load p v0 (f : Value F -> prog F unit) : lookup_ptr m0 p = Some v0 ->
  (forall v, strip v = strip v0 -> quiet (f v)) -> quiet (v ← load p; f v).
Proof.
  intros E0 Hf m Hs. destruct (shape_lookup m0 m p v0 Hs E0) as (v & E & Hv). rewrite (bind_done _ _ _ _ _ (load_done m p v E)). by apply Hf.
Qed.

Lemma quiet_load_live p (f : Value F -> prog F unit) : live m0 p -> (forall v, quiet (f v)) -> quiet (v ← load p; f v).
Proof. intros Hp Hf. destruct (Hg p Hp) as (v0 & E0 & _). by apply (quiet_load p v0). Qed.

Lemma has_live p x : has m0 p x -> live m0 p.
Proof. by intros [H _]. Qed.

Lemma quiet_step p : live m0 p -> quiet (backward_step p).
Proof.
  intros Hp. destruct (tape_lookup m0 p Hm Hp) as [v0 E0]. apply (quiet_load p v0 _ E0). intros v (_ & H0 & H1 & Ho & _)%strip_fields.
  destruct p as [i|j].
  2:{ assert (constant v0) as (Hc & _) by (eapply Forall_lookup_1; [apply Hm|done]). rewrite Ho, Hc. apply quiet_ret. }
  destruct (tape_nodes m0 Hm i v0 Hp E0) as (Hc & _). unfold computes in Hc. rewrite Ho, H0, H1. destruct (op v0).
  - apply quiet_ret.
  - destruct Hc as (a & b & x & y & Ha & Hb & _ & _ & La%has_live & Lb%has_live & _). rewrite Ha.
    apply (quiet_seq (add_grad a (grad v))); [by apply quiet_add_grad|]. apply (quiet_load (Node i) v0 _ E0). intros w (_ & _ & H1' & _)%strip_fields.
    rewrite H1', Hb. by apply quiet_add_grad.
  - destruct Hc as [(a & b & x & y & Ha & Hb & _ & _ & La%has_live & Lb%has_live & _)|(a & x & Ha & Hb & _ & La%has_live & _)]; rewrite Ha, Hb.
    + apply quiet_load_live; [done|]. intros y2. apply quiet_seq; [by apply quiet_add_grad|]. apply (quiet_load (Node i) v0 _ E0). intros w _.
      apply quiet_load_live; [done|]. intros y1. by apply quiet_add_grad.
    + by apply quiet_add_grad.
  - destruct Hc as (a & x & Ha & _ & _ & La%has_live & _). rewrite Ha. apply (quiet_load_live a); [done|]. intros y. by apply quiet_add_grad.
  - destruct Hc as (a & x & Ha & _ & _ & La%has_live & _). rewrite Ha. apply (quiet_load_live a); [done|]. intros y. by apply quiet_add_grad.
  - destruct Hc as (a & x & Ha & _ & _ & La%has_live & _). rewrite Ha. by apply (quiet_add_grad a).
  - destruct Hc as (a & x & Ha & _ & _ & La%has_live & _). rewrite Ha. by apply (quiet_add_grad a).
Qed.

Lemma quiet_loop l : (forall q, q ∈ l -> live m0 q) -> quiet (backward_loop l).
Proof.
  induction l as [|p l IH]; intros Hl; [apply quiet_ret|]. cbn [backward_loop].
  apply quiet_seq; [apply quiet_step, Hl; left|apply IH; set_solver].
Qed.
End safe.

(** What the training loop calls [backward] on: a tape on which no backward pass has run,
    room in [params] and [topo], and the gradients of the parameters reset. *)
Record backward_ready {F} `{!Float F} (m : mem F) (root : ptr) : Prop := BackwardReady {
  br_tape : tape_ok m;
  br_root : live m root;
  br_room : Z.of_nat (node_idx m + length (heap m)) <= MAX_NODES;
  br_params : Z.of_nat (length (heap m)) <= MAX_PARAMS;
  br_zero : Forall (fun v => grad v = flit 0 1) (heap m)
}.

(** The whole pass: what it leaves of the memory, and of [topo]. *)
Lemma backward_runs {F} `{!Float F} (m : mem F) (root : ptr) : backward_ready m root ->
  exists m', backward root m = Ret (Done tt m') /\ shape m m' /\ exists m1, loop_memory m root m1 /\ topo m' = topo m1.
Proof.
  intros [Hm Hroot Hroom Hpar _]. destruct (backward_start m root Hm Hroot Hroom Hpar) as (m1 & Hlm & ->). pose proof Hlm as (Hs & Hnd & Hr & Ho & _).
  destruct (quiet_loop m Hm (rev (topo m1))) with (m := m1) as (m' & E & Hs' & Ht); [|done|].
  { intros q Hq. apply list_elem_of_In, in_rev, list_elem_of_In in Hq. apply Hr, (reach_rank m (tape_graph m Hm)) in Hq as [? _]; done. }
  exists m'. split; [done|]. split; [done|]. by exists m1.
Qed.

(** C11. The backward pass ends in any arithmetic, the recursion of [build_topo] included,
    without leaving its objects; it changes gradients and marks only, and [topo] holds what
    can be reached from the root, each object once and after its operands. *)
Theorem backward_terminates {F} `{!Float F} (m : mem F) (root : ptr) : backward_ready m root ->
  exists m', backward root m = Ret (Done tt m') /\ shape m m' /\ NoDup (topo m') /\ (forall q, q ∈ topo m' <-> reach m root q) /\
    (forall l1 p l2 c, topo m' = l1 ++ p :: l2 -> c ∈ kids_of m p -> c ∈ l1).
Proof.
  intros Hrd. destruct (backward_runs m root Hrd) as (m' & E & Hs & m1 & (_ & Hnd & Hr & Ho & _) & Ht). exists m'. rewrite Ht. split_and!; try done.
  intros l1 p l2 c El Hc. rewrite El in Ho. by destruct (ordered_split m l1 p l2 _ Ho c Hc).
Qed.

(** ** A tape for the witnesses: log (p * p), with [p] the only parameter *)

Definition log_square {F} `{!Float F} (p : F) : mem F :=
  Mem [mkValue (fmul p p) (flit 0 1) (Some (Param 0)) (Some (Param 0)) OP_MUL p false;
       mkValue (logf (fmul p p)) (flit 0 1) (Some (Node 0)) None OP_LOG p false] 2 [mkValue p (flit 0 1) None None OP_CONST p true] [].

Lemma log_square_ok {F} `{!Float F} (p : F) : tape_ok (log_square p).
Proof.
  split; [cbn; lia|by repeat constructor|]. intros [|[|i]] v Hi Hv; cbn in Hi, Hv; [..|lia]; injection Hv as <-; (split; [|done]).
  - left. exists (Param 0), (Param 0), p, p. unfold below, has. cbn. split_and!; (done || lia).
  - exists (Node 0), (fmul p p). unfold below, has. cbn. split_and!; (done || lia || (left; lia)).
Qed.

Lemma log_square_ready {F} `{!Float F} (p : F) : backward_ready (log_square p) (Node 1).
Proof. split; [apply log_square_ok|cbn; lia|done|done|by repeat constructor]. Qed.

(** An arithmetic that can be executed. *)
Definition int_float : Float Z := {|
  flit n d := n / d; fadd := Z.add; fsub := Z.sub; fmul := Z.mul; fdiv := Z.div; fneg := Z.opp;
  powf := Z.pow; logf := Z.log2; expf := Z.pow 2; sqrtf := Z.sqrt; fgt := Z.gtb; feq := Z.eqb |}.

Lemma backward_terminates_witness : exists m', @backward Z int_float (Node 1) (@log_square Z int_float 5) = Ret (Done tt m') /\
  @shape Z int_float (@log_square Z int_float 5) m' /\ NoDup (topo m') /\ (forall q, q ∈ topo m' <-> reach (@log_square Z int_float 5) (Node 1) q) /\
  (forall l1 p l2 c, topo m' = l1 ++ p :: l2 -> c ∈ kids_of (@log_square Z int_float 5) p -> c ∈ l1).
Proof. apply (@backward_terminates Z int_float). apply (@log_square_ready Z int_float 5). Defined.

(** The derivative of log (p * p) at 1. *)
Example log_square_runs : exists m', @backward Z int_float (Node 1) (@log_square Z int_float 1) = Ret (Done tt m') /\ grad <$> (heap m') = [2] /\ topo m' = [Param 0; Node 0; Node 1].
Proof. by eexists. Qed.
