(* ===== verification/TapeReal.v ===== *)
(** The backward pass of gpt/microgpt.c in exact arithmetic: the gradient it leaves in a
    parameter is the derivative, by that parameter, of the function the tape records. *)
From Stdlib Require Import Reals Lra.
From S2P Require Import Prelude Arrays Tape TapeInv TapeTopo.
#[local] Open Scope R_scope.

#[export] Instance real_float : Float R := {
  flit n d := IZR n / IZR d; fadd := Rplus; fsub := Rminus; fmul := Rmult; fdiv := Rdiv; fneg := Ropp;
  powf := Rpower; logf := ln; expf := exp; sqrtf := sqrt; fgt x y := if Rlt_dec y x then true else false;
  feq x y := if Req_dec_T x y then true else false
}.

Lemma flit_0 : flit 0 1 = 0.
Proof. cbn. lra. Qed.
Lemma flit_1 : flit 1 1 = 1.
Proof. cbn. lra. Qed.

(** ** Functions on the tape *)

Section walk.
Context {F : Type} `{!Float F} (m : mem F) (Hg : graph_ok m).

(** A function of each object and of its values at the operands. *)
Fixpoint walk {A} (f : ptr -> list A -> A) (fuel : nat) (p : ptr) : A :=
  match fuel with
  | O => f p []
  | S n => f p (walk f n <$> kids_of m p)
  end.

Definition on_tape {A} (f : ptr -> list A -> A) (p : ptr) : A := walk f (S (node_idx m)) p.

Lemma walk_fuel {A} (f : ptr -> list A -> A) n : forall n' p, live m p -> (rank m p < n)%nat -> (rank m p < n')%nat -> walk f n p = walk f n' p.
Proof.
  induction n as [|n IH]; intros [|n'] p Hp Hn Hn'; [lia..|]. cbn [walk]. f_equal. apply list_fmap_ext. intros i c Hc.
  destruct (kids_rank m Hg p c Hp) as [Hl Hr]; [by eapply list_elem_of_lookup_2|]. apply IH; [done|lia..].
Qed.

Lemma rank_bound p : live m p -> (rank m p <= node_idx m)%nat.
Proof. destruct p as [i|j]; cbn; [|lia]. intros H. destruct (kids_of m (Node i)); lia. Qed.

Lemma on_tape_eq {A} (f : ptr -> list A -> A) p : live m p -> on_tape f p = f p (on_tape f <$> kids_of m p).
Proof.
  intros Hp. unfold on_tape. change (walk f (S (node_idx m)) p) with (f p (walk f (node_idx m) <$> kids_of m p)). f_equal. apply list_fmap_ext. intros i c Hc.
  destruct (kids_rank m Hg p c Hp) as [Hl Hr]; [by eapply list_elem_of_lookup_2|]. pose proof (rank_bound p Hp).
  apply walk_fuel; [done|lia|]. pose proof (rank_bound c Hl). lia.
Qed.

(** Induction on the operands. *)
Lemma tape_ind (P : ptr -> Prop) : (forall p, live m p -> (forall c, c ∈ kids_of m p -> P c) -> P p) -> forall p, live m p -> P p.
Proof.
  intros H. assert (Hn : forall n p, live m p -> (rank m p < n)%nat -> P p).
  { induction n as [|n IH]; intros p Hp Hr; [lia|]. apply H; [done|]. intros c Hc.
    destruct (kids_rank m Hg p c Hp Hc) as [Hl Hc']. apply IH; [done|lia]. }
  intros p Hp. by apply (Hn (S (rank m p))); [|lia].
Qed.
End walk.

(** ** The function that a tape records, and its derivative *)

Section real.
Context (m0 : mem R).

Definition dat (p : ptr) : R := match lookup_ptr m0 p with Some v => data v | None => 0 end.

(** The number of an object, from those of its operands and the parameters. *)
Definition op_value (rho : nat -> R) (p : ptr) (xs : list R) : R :=
  match p with
  | Param j => rho j
  | Node i =>
      match node_pool m0 !! i with
      | None => 0
      | Some v =>
          match op v, xs with
          | OP_CONST, _ => data v
          | OP_ADD, [a; b] => a + b
          | OP_MUL, [a; b] => a * b
          | OP_MUL, [a] => aux v * a
          | OP_POW, [a] => Rpower a (aux v)
          | OP_LOG, [a] => ln a
          | OP_EXP, [a] => exp a
          | OP_RELU, [a] => Rmax a 0
          | _, _ => 0
          end
      end
  end.

(** The function recorded at an object. *)
Definition denote (rho : nat -> R) (p : ptr) : R := on_tape m0 (op_value rho) p.

(** The derivatives of an object by its operands. *)
Definition locals (v : Value R) : list R :=
  match op v, kids v with
  | OP_ADD, [_; _] => [1; 1]
  | OP_MUL, [a; b] => [dat b; dat a]
  | OP_MUL, [_] => [aux v]
  | OP_POW, [a] => [aux v * Rpower (dat a) (aux v - 1)]
  | OP_LOG, [a] => [1 / dat a]
  | OP_EXP, [_] => [data v]
  | OP_RELU, [_] => [if Rlt_dec 0 (data v) then 1 else 0]
  | _, _ => []
  end.

Definition dot (l1 l2 : list R) : R := foldr Rplus 0 (zip_with Rmult l1 l2).

(** The derivative by parameter [x]. *)
Definition op_tangent (x : nat) (p : ptr) (ts : list R) : R :=
  match p with
  | Param j => if decide (j = x) then 1 else 0
  | Node i => match node_pool m0 !! i with Some v => dot (locals v) ts | None => 0 end
  end.
Definition tangent (x : nat) (p : ptr) : R := on_tape m0 (op_tangent x) p.

(** Where the recorded function has a derivative: no power or logarithm of a number that is
    not positive, no kink of [relu]. *)
Definition smooth : Prop := forall i v a, (i < node_idx m0)%nat -> node_pool m0 !! i = Some v -> kids v = [a] ->
  match op v with OP_POW | OP_LOG => 0 < dat a | OP_RELU => dat a <> 0 | _ => True end.

Context (Hm : tape_ok m0).
Let Hg : graph_ok m0 := tape_graph m0 Hm.

Definition params : nat -> R := fun j => dat (Param j).

Lemma has_dat p x : has m0 p x -> dat p = x.
Proof. intros (_ & H). unfold dat. destruct (lookup_ptr m0 p); [|done]. by injection H. Qed.

Lemma below_live i p : below m0 i p -> live m0 p.
Proof. by intros [H _]. Qed.

(** The cases of a node. *)
Inductive node_view (v : Value R) : Prop :=
| view_const : op v = OP_CONST -> kids v = [] -> node_view v
| view_add a b : op v = OP_ADD -> kids v = [a; b] -> data v = dat a + dat b -> node_view v
| view_mul a b : op v = OP_MUL -> kids v = [a; b] -> data v = dat a * dat b -> node_view v
| view_scale a : op v = OP_MUL -> kids v = [a] -> data v = aux v * dat a -> prev0 v = Some a -> node_view v
| view_pow a : op v = OP_POW -> kids v = [a] -> data v = Rpower (dat a) (aux v) -> prev0 v = Some a -> node_view v
| view_log a : op v = OP_LOG -> kids v = [a] -> data v = ln (dat a) -> prev0 v = Some a -> node_view v
| view_exp a : op v = OP_EXP -> kids v = [a] -> data v = exp (dat a) -> prev0 v = Some a -> node_view v
| view_relu a : op v = OP_RELU -> kids v = [a] -> data v = Rmax (dat a) 0 -> prev0 v = Some a -> node_view v.

Lemma kids_1 (v : Value R) a : prev0 v = Some a -> prev1 v = None -> kids v = [a].
Proof. unfold kids. by intros -> ->. Qed.
Lemma kids_2 (v : Value R) a b : prev0 v = Some a -> prev1 v = Some b -> kids v = [a; b].
Proof. unfold kids. by intros -> ->. Qed.

Lemma node_cases i v : (i < node_idx m0)%nat -> node_pool m0 !! i = Some v -> node_view v.
Proof.
  intros Hi E. destruct (tape_nodes m0 Hm i v Hi E) as (Hc & _). unfold computes in Hc. destruct (op v) eqn:Eo.
  - apply view_const; [done|by apply constant_kids].
  - destruct Hc as (a & b & x & y & H0 & H1 & _ & _ & Hx & Hy & Hd). apply (view_add v a b); [done|by apply kids_2|by rewrite (has_dat a x Hx), (has_dat b y Hy)].
  - destruct Hc as [(a & b & x & y & H0 & H1 & _ & _ & Hx & Hy & Hd)|(a & x & H0 & H1 & _ & Hx & Ha & Hd)].
    + apply (view_mul v a b); [done|by apply kids_2|by rewrite (has_dat a x Hx), (has_dat b y Hy)].
    + apply (view_scale v a); [done|by apply kids_1| |done]. rewrite (has_dat a x Hx), Ha, Hd. cbn. lra.
  - destruct Hc as (a & x & H0 & H1 & _ & Hx & Hd). apply (view_pow v a); [done|by apply kids_1|by rewrite (has_dat a x Hx)|done].
  - destruct Hc as (a & x & H0 & H1 & _ & Hx & Hd). apply (view_log v a); [done|by apply kids_1|by rewrite (has_dat a x Hx)|done].
  - destruct Hc as (a & x & H0 & H1 & _ & Hx & Hd). apply (view_exp v a); [done|by apply kids_1|by rewrite (has_dat a x Hx)|done].
  - destruct Hc as (a & x & H0 & H1 & _ & Hx & Hd). apply (view_relu v a); [done|by apply kids_1| |done]. rewrite (has_dat a x Hx), Hd, flit_0. cbn.
    unfold Rmax. destruct (Rlt_dec 0 x), (Rle_dec x 0); lra.
Qed.

(** The equations of the two functions at a node. *)
Lemma node_kids i v : node_pool m0 !! i = Some v -> kids_of m0 (Node i) = kids v.
Proof. intros E. unfold kids_of. cbn [lookup_ptr]. by rewrite E. Qed.

Lemma denote_node rho i v : (i < node_idx m0)%nat -> node_pool m0 !! i = Some v -> denote rho (Node i) = op_value rho (Node i) (denote rho <$> kids v).
Proof. intros Hi E. unfold denote at 1. rewrite (on_tape_eq m0 Hg) by done. by rewrite (node_kids i v E). Qed.

Lemma tangent_node x i v : (i < node_idx m0)%nat -> node_pool m0 !! i = Some v -> tangent x (Node i) = dot (locals v) (tangent x <$> kids v).
Proof. intros Hi E. unfold tangent at 1. rewrite (on_tape_eq m0 Hg) by done. rewrite (node_kids i v E). cbn [op_tangent]. by rewrite E. Qed.

Lemma param_kids j : live m0 (Param j) -> kids_of m0 (Param j) = [].
Proof.
  intros Hj. cbn in Hj. unfold kids_of. cbn [lookup_ptr]. destruct (heap m0 !! j) as [v|] eqn:E; [|done].
  apply constant_kids. eapply Forall_lookup_1; [apply Hm|done].
Qed.

Lemma denote_param rho j : live m0 (Param j) -> denote rho (Param j) = rho j.
Proof. intros Hj. unfold denote. by rewrite (on_tape_eq m0 Hg) by done. Qed.

Lemma tangent_param x j : live m0 (Param j) -> tangent x (Param j) = if decide (j = x) then 1 else 0.
Proof. intros Hj. unfold tangent. by rewrite (on_tape_eq m0 Hg) by done. Qed.

Lemma live_kid p c : live m0 p -> c ∈ kids_of m0 p -> live m0 c.
Proof. intros Hp Hc. by apply (kids_rank m0 Hg p c Hp). Qed.

(** Induction on the operands, by the cases of a node. *)
Lemma node_ind (P : ptr -> Prop) : (forall j, live m0 (Param j) -> P (Param j)) ->
  (forall i v, (i < node_idx m0)%nat -> node_pool m0 !! i = Some v -> node_view v -> (forall c, c ∈ kids v -> live m0 c /\ P c) -> P (Node i)) ->
  forall p, live m0 p -> P p.
Proof.
  intros HP HN. apply (tape_ind m0 Hg). intros [i|j] Hp IH; [|auto]. destruct (tape_lookup m0 (Node i) Hm Hp) as [v E].
  apply (HN i v Hp E (node_cases i v Hp E)). intros c Hc. rewrite <-(node_kids i v E) in Hc. split; [by eapply live_kid|auto].
Qed.

(** What is recorded agrees with what is stored. *)
Lemma denote_data rho p : (forall j, rho j = params j) -> live m0 p -> denote rho p = dat p.
Proof.
  intros Hr. revert p. apply node_ind; [intros j Hj; by rewrite denote_param|]. intros i v Hi E Hv IH. rewrite (denote_node _ i v Hi E).
  assert (dat (Node i) = data v) as -> by (unfold dat; cbn [lookup_ptr]; by rewrite E). cbn [op_value]. rewrite E.
  assert (Hd0 : forall a, a ∈ kids v -> denote rho a = dat a) by (intros a Ha; by apply IH).
  destruct Hv as [Ho Hk|a b Ho Hk Hd|a b Ho Hk Hd|a Ho Hk Hd|a Ho Hk Hd|a Ho Hk Hd|a Ho Hk Hd|a Ho Hk Hd]; rewrite Ho, Hk in *; cbn [fmap list_fmap]; [done|..];
    rewrite Hd, ?(Hd0 a), ?(Hd0 b) by set_solver; done.
Qed.

(** ** The derivative *)

Context (x : nat).
Definition vary (s : R) : nat -> R := fun j => if decide (j = x) then s else params j.

Lemma vary_here p : live m0 p -> denote (vary (params x)) p = dat p.
Proof. intros Hp. apply denote_data; [|done]. intros j. unfold vary. by case_decide as H; [rewrite H|]. Qed.

Lemma relu_derivative a : a <> 0 -> derivable_pt_lim (fun y => Rmax y 0) a (if Rlt_dec 0 (Rmax a 0) then 1 else 0).
Proof.
  intros Ha. destruct (Rlt_dec 0 (Rmax a 0)) as [H|H].
  - apply (derivable_pt_lim_locally_ext id _ a 0 (a + 1)); [|intros z Hz; unfold id; rewrite Rmax_left; lra|apply derivable_pt_lim_id].
    unfold Rmax in H. destruct (Rle_dec a 0); lra.
  - apply (derivable_pt_lim_locally_ext (fct_cte 0) _ a (a - 1) 0); [|intros z Hz; unfold fct_cte; rewrite Rmax_right; lra|apply derivable_pt_lim_const].
    unfold Rmax in H. destruct (Rle_dec a 0); lra.
Qed.

Lemma dot_1 d t : dot [d] [t] = d * t.
Proof. unfold dot. cbn. lra. Qed.
Lemma dot_2 d e t u : dot [d; e] [t; u] = d * t + e * u.
Proof. unfold dot. cbn. lra. Qed.

(** The tangent of an object is the derivative of the function recorded there. *)
Lemma tangent_derivative p : smooth -> live m0 p -> derivable_pt_lim (fun s => denote (vary s) p) (params x) (tangent x p).
Proof.
  intros Hs. revert p. apply node_ind.
  - intros j Hj. rewrite tangent_param by done. apply (derivable_pt_lim_ext (fun s => vary s j)); [intros z; by rewrite denote_param|].
    unfold vary. case_decide; [apply derivable_pt_lim_id|apply derivable_pt_lim_const].
  - intros i v Hi E Hv IH. rewrite (tangent_node x i v Hi E). specialize (Hs i v).
    assert (Hs' : forall a, kids v = [a] -> match op v with OP_POW | OP_LOG => 0 < dat a | OP_RELU => dat a <> 0 | _ => True end).
    { intros a Ha. by apply Hs. }
    assert (Hd0 : forall a, a ∈ kids v -> denote (vary (params x)) a = dat a) by (intros a Ha; apply vary_here, IH, Ha).
    set (g s := op_value (vary s) (Node i) (denote (vary s) <$> kids v)).
    apply (derivable_pt_lim_ext g); [intros z; unfold g; by rewrite (denote_node _ i v Hi E)|]. unfold g. cbn [op_value]. rewrite E.
    unfold locals. destruct Hv as [Ho Hk|a b Ho Hk Hd|a b Ho Hk Hd|a Ho Hk Hd|a Ho Hk Hd|a Ho Hk Hd|a Ho Hk Hd|a Ho Hk Hd];
      rewrite Ho, Hk in *; cbn [fmap list_fmap]; rewrite ?dot_1, ?dot_2.
    + apply derivable_pt_lim_const.
    + replace (1 * _ + _) with (tangent x a + tangent x b) by lra. apply derivable_pt_lim_plus; apply IH; set_solver.
    + replace (dat b * _ + _) with (tangent x a * dat b + dat a * tangent x b) by lra. rewrite <-(Hd0 a), <-(Hd0 b) by set_solver.
      apply derivable_pt_lim_mult; apply IH; set_solver.
    + apply derivable_pt_lim_scal. apply IH; set_solver.
    + apply (derivable_pt_lim_comp (fun s => denote (vary s) a) (fun y => Rpower y (aux v))); [apply IH; set_solver|].
      rewrite (Hd0 a) by set_solver. apply derivable_pt_lim_power. by apply Hs'.
    + replace (1 / dat a * tangent x a) with (/ dat a * tangent x a) by (unfold Rdiv; lra).
      apply (derivable_pt_lim_comp (fun s => denote (vary s) a) ln); [apply IH; set_solver|].
      rewrite (Hd0 a) by set_solver. apply derivable_pt_lim_ln. by apply Hs'.
    + rewrite Hd. apply (derivable_pt_lim_comp (fun s => denote (vary s) a) exp); [apply IH; set_solver|].
      rewrite (Hd0 a) by set_solver. apply derivable_pt_lim_exp.
    + rewrite Hd. apply (derivable_pt_lim_comp (fun s => denote (vary s) a) (fun y => Rmax y 0)); [apply IH; set_solver|].
      rewrite (Hd0 a) by set_solver. apply relu_derivative. by apply Hs'.
Qed.
End real.
