(* ===== verification/TapeGrad.v ===== *)
(** The loop of the backward pass of gpt/microgpt.c in exact arithmetic, and the theorem
    that it computes derivatives. *)
From Stdlib Require Import Reals Lra.
From S2P Require Import Prelude Arrays Tape TapeInv TapeTopo TapeSafe TapeReal.
#[local] Open Scope R_scope.

(** ** Gradients *)

Definition gr (m : mem R) (p : ptr) : R := match lookup_ptr m p with Some v => grad v | None => 0 end.

Definition bump (c : ptr) (y : R) (m : mem R) : mem R :=
  match lookup_ptr m c with Some v => set_ptr c (set_grad (grad v + y) v) m | None => m end.

(** [d * g] is added to the gradient of each operand, in order. *)
Fixpoint spread (g : R) (l : list (ptr * R)) (m : mem R) : mem R :=
  match l with [] => m | (c, d) :: l => spread g l (bump c (d * g) m) end.

Lemma bump_lookup c y m q : lookup_ptr (bump c y m) q = if decide (q = c) then (fun v => set_grad (grad v + y) v) <$> lookup_ptr m q else lookup_ptr m q.
Proof.
  unfold bump. destruct (lookup_ptr m c) as [v|] eqn:E.
  - rewrite (lookup_set m c q v _ E). case_decide as H; [subst|done]. by rewrite E.
  - case_decide as H; [subst|done]. by rewrite E.
Qed.

Lemma bump_gr c y m q : is_Some (lookup_ptr m c) -> gr (bump c y m) q = gr m q + if decide (q = c) then y else 0.
Proof. intros [v E]. unfold gr. rewrite bump_lookup. case_decide as H; [subst; rewrite E; done|]. destruct (lookup_ptr m q); lra. Qed.

Lemma bump_shape m0 c y m : shape m0 m -> shape m0 (bump c y m).
Proof. intros H. unfold bump. destruct (lookup_ptr m c) as [v|] eqn:E; [|done]. by eapply shape_set. Qed.

Lemma bump_topo c y m : topo (bump c y m) = topo m.
Proof. unfold bump. destruct (lookup_ptr m c); [by destruct c|done]. Qed.

Lemma add_grad_run c y m : is_Some (lookup_ptr m c) -> add_grad c y m = Ret (Done tt (bump c y m)).
Proof. intros [v E]. unfold add_grad, bump. rewrite (store_done m c v _ E), E. done. Qed.

Lemma spread_shape m0 g l : forall m, shape m0 m -> shape m0 (spread g l m).
Proof. induction l as [|[c d] l IH]; intros m H; cbn; [done|]. by apply IH, bump_shape. Qed.

Lemma spread_topo g l : forall m, topo (spread g l m) = topo m.
Proof. induction l as [|[c d] l IH]; intros m; cbn; [done|]. by rewrite IH, bump_topo. Qed.

Lemma spread_gr g l q : forall m, (forall c, c ∈ l.*1 -> is_Some (lookup_ptr m c)) -> q ∉ l.*1 -> gr (spread g l m) q = gr m q.
Proof.
  induction l as [|[c d] l IH]; intros m Hl Hq; cbn; [done|]. cbn in *. rewrite IH.
  - rewrite bump_gr by (apply Hl; set_solver). rewrite decide_False by set_solver. lra.
  - intros e He. rewrite bump_lookup. case_decide; [apply fmap_is_Some|]; apply Hl; set_solver.
  - set_solver.
Qed.

(** ** A step *)

Section step.
Context (m0 : mem R) (Hm : tape_ok m0).
Let Hg : graph_ok m0 := tape_graph m0 Hm.

Lemma shape_some m p : shape m0 m -> live m0 p -> is_Some (lookup_ptr m p).
Proof. intros Hs Hp. destruct (Hg p Hp) as (v0 & E0 & _). destruct (shape_lookup m0 m p v0 Hs E0) as (v & E & _). by exists v. Qed.

Lemma shape_dat m p v : shape m0 m -> lookup_ptr m p = Some v -> data v = dat m0 p.
Proof.
  intros (_ & _ & Hs) E. specialize (Hs p). rewrite E in Hs. unfold dat. destruct (lookup_ptr m0 p) as [w|]; [|done].
  by apply (inj Some), strip_fields in Hs as (-> & _).
Qed.

Lemma step_param m j : shape m0 m -> live m0 (Param j) -> backward_step (Param j) m = Ret (Done tt m).
Proof.
  intros Hs Hj. unfold backward_step. destruct (shape_some m _ Hs Hj) as [v E]. rewrite (bind_done _ _ _ _ _ (load_done m _ v E)).
  destruct Hs as (_ & _ & Hs). specialize (Hs (Param j)). rewrite E in Hs. cbn [lookup_ptr] in Hs. destruct (heap m0 !! j) as [w|] eqn:Ew; [|done].
  apply (inj Some), strip_fields in Hs as (_ & _ & _ & Ho & _). rewrite Ho.
  assert (constant w) as (-> & _) by (eapply Forall_lookup_1; [apply Hm|done]). done.
Qed.

Lemma bump_some c y m q : is_Some (lookup_ptr m q) -> is_Some (lookup_ptr (bump c y m) q).
Proof. intros H. rewrite bump_lookup. case_decide; [by apply fmap_is_Some|done]. Qed.

Lemma two_kids (v : Value R) a b : kids v = [a; b] -> prev0 v = Some a /\ prev1 v = Some b.
Proof. unfold kids. destruct (prev0 v), (prev1 v); cbn; intros [= -> ->]; done. Qed.

Lemma one_kid (v : Value R) a : kids v = [a] -> prev0 v = Some a -> prev1 v = None.
Proof. unfold kids. intros H Hp. rewrite Hp in H. by destruct (prev1 v). Qed.

(** Loading a node after its operand has been changed. *)
Lemma load_after_bump m c y p v : c <> p -> lookup_ptr m p = Some v -> load p (bump c y m) = Ret (Done v (bump c y m)).
Proof. intros Hne E. apply load_done. rewrite bump_lookup, decide_False by congruence. done. Qed.

Ltac unary Hop Hk Hp :=
  match goal with Hkid : forall c, c ∈ kids ?v -> _, _ : kids ?v = [?a] |- _ =>
    let Ha1 := fresh "Ha1" in let Ha2 := fresh "Ha2" in destruct (Hkid a) as [Ha1 Ha2]; [rewrite Hk; set_solver|];
    rewrite Hop, Hk, Hp, ?(one_kid v a Hk Hp) end.

Lemma step_node m i v : shape m0 m -> (i < node_idx m0)%nat -> node_pool m0 !! i = Some v ->
  backward_step (Node i) m = Ret (Done tt (spread (gr m (Node i)) (zip (kids v) (locals m0 v)) m)).
Proof.
  intros Hs Hi Ev. destruct (shape_lookup m0 m (Node i) v Hs Ev) as (u & E & Hu). apply strip_fields in Hu as (Hd & H0 & H1 & Ho & Ha).
  assert (Hgr : gr m (Node i) = grad u) by (unfold gr; by rewrite E). rewrite Hgr.
  assert (Hkid : forall c, c ∈ kids v -> is_Some (lookup_ptr m c) /\ c <> Node i).
  { intros c Hc. rewrite <-(node_kids m0 i v Ev) in Hc. destruct (kids_rank m0 Hg (Node i) c Hi Hc) as [Hl Hr].
    split; [by apply shape_some|]. intros ->. lia. }
  unfold backward_step. rewrite (bind_done _ _ _ _ _ (load_done m _ u E)). rewrite Ho, H0, H1, Ha, Hd. unfold locals.
  destruct (node_cases m0 Hm i v Hi Ev) as [Hop Hk|a b Hop Hk Hv|a b Hop Hk Hv|a Hop Hk Hv Hp|a Hop Hk Hv Hp|a Hop Hk Hv Hp|a Hop Hk Hv Hp|a Hop Hk Hv Hp].
  - by rewrite Hop, Hk.
  - destruct (two_kids v a b Hk) as [Hp0 Hp1]. destruct (Hkid a) as [Ha1 Ha2]; [rewrite Hk; set_solver|]. destruct (Hkid b) as [Hb1 Hb2]; [rewrite Hk; set_solver|].
    rewrite Hop, Hk, Hp0. rewrite (bind_done _ _ m a m eq_refl), (bind_done _ _ _ _ _ (add_grad_run a _ m Ha1)).
    rewrite (bind_done _ _ _ _ _ (load_after_bump m a _ _ u Ha2 E)). rewrite H1, Hp1, (bind_done _ _ _ b _ eq_refl), add_grad_run.
    + cbn. by rewrite !Rmult_1_l.
    + by apply bump_some.
  - destruct (two_kids v a b Hk) as [Hp0 Hp1]. destruct (Hkid a) as [Ha1 Ha2]; [rewrite Hk; set_solver|]. destruct (Hkid b) as [Hb1 Hb2]; [rewrite Hk; set_solver|].
    rewrite Hop, Hk, Hp0, Hp1. destruct Hb1 as [w Ew]. rewrite (bind_done _ _ _ _ _ (load_done m b w Ew)), (bind_done _ _ _ _ _ (add_grad_run a _ m Ha1)).
    rewrite (bind_done _ _ _ _ _ (load_after_bump m a _ _ u Ha2 E)).
    destruct (bump_some a (data w * grad u) m a Ha1) as [z Ez]. rewrite (bind_done _ _ _ _ _ (load_done _ a z Ez)).
    rewrite add_grad_run by (apply bump_some; by exists w).
    assert (data z = dat m0 a) as -> by (eapply shape_dat; [by apply bump_shape|done]). by rewrite (shape_dat m b w Hs Ew).
  - unary Hop Hk Hp. rewrite add_grad_run by done. done.
  - unary Hop Hk Hp. rewrite (bind_done _ _ m a m eq_refl). destruct Ha1 as [w Ew]. rewrite (bind_done _ _ _ _ _ (load_done m a w Ew)).
    rewrite add_grad_run by (by exists w). cbn. rewrite (shape_dat m a w Hs Ew). do 4 f_equal. unfold Rdiv. rewrite Rinv_1, Rmult_1_r. done.
  - unary Hop Hk Hp. rewrite (bind_done _ _ m a m eq_refl). destruct Ha1 as [w Ew]. rewrite (bind_done _ _ _ _ _ (load_done m a w Ew)).
    rewrite add_grad_run by (by exists w). cbn. rewrite (shape_dat m a w Hs Ew). do 4 f_equal. lra.
  - unary Hop Hk Hp. rewrite (bind_done _ _ m a m eq_refl). by rewrite add_grad_run by done.
  - unary Hop Hk Hp. rewrite (bind_done _ _ m a m eq_refl), add_grad_run by done. cbn [fgt real_float]. rewrite flit_0, flit_1. cbn. do 4 f_equal. by destruct (Rlt_dec 0 (data v)).
Qed.

Lemma locals_length i v : (i < node_idx m0)%nat -> node_pool m0 !! i = Some v -> length (locals m0 v) = length (kids v).
Proof. intros Hi Ev. unfold locals. destruct (node_cases m0 Hm i v Hi Ev) as [Hop Hk|a b Hop Hk|a b Hop Hk|a Hop Hk|a Hop Hk|a Hop Hk|a Hop Hk|a Hop Hk]; by rewrite Hop, Hk. Qed.

(** ** The loop *)

Context (x : nat).

(** The derivative of the root, as far as it is known: the gradients of the objects that
    are still to be treated, each with its own derivative. *)
Definition pending (m : mem R) (l : list ptr) : R := foldr (fun q s => gr m q * tangent m0 x q + s) 0 l.

Lemma pending_app m l1 l2 : pending m (l1 ++ l2) = pending m l1 + pending m l2.
Proof. unfold pending. induction l1 as [|q l1 IH]; cbn [foldr app]; [lra|]. rewrite IH. lra. Qed.

Lemma pending_bump m c y l : is_Some (lookup_ptr m c) -> NoDup l -> pending (bump c y m) l = pending m l + if decide (c ∈ l) then y * tangent m0 x c else 0.
Proof.
  intros Hc. unfold pending. induction 1 as [|q l Hq _ IH]; cbn [foldr]; [rewrite decide_False by apply not_elem_of_nil; lra|].
  rewrite IH, bump_gr by done. destruct (decide (q = c)) as [->|Hne].
  - rewrite (decide_True (P := c ∈ c :: l)), decide_False by (done || left). lra.
  - destruct (decide (c ∈ l)); [rewrite decide_True by by right|rewrite decide_False by set_solver]; lra.
Qed.

Lemma pending_spread g ks : forall ds m l, length ds = length ks -> NoDup l -> (forall c, c ∈ ks -> is_Some (lookup_ptr m c) /\ c ∈ l) ->
  pending (spread g (zip ks ds) m) l = pending m l + g * dot ds (tangent m0 x <$> ks).
Proof.
  induction ks as [|c ks IH]; intros [|d ds] m l Hlen Hnd Hk; try done; cbn [zip zip_with spread]; [unfold dot; cbn; lra|].
  destruct (Hk c ltac:(left)) as [Hc Hin]. rewrite IH.
  - rewrite pending_bump by done. rewrite decide_True by done. unfold dot. cbn. lra.
  - cbn in Hlen. lia.
  - done.
  - intros e He. destruct (Hk e ltac:(by right)). split; [by apply bump_some|done].
Qed.

Lemma zip_kids (v : Value R) (ds : list R) : length ds = length (kids v) -> (zip (kids v) ds).*1 = kids v.
Proof. intros H. apply fst_zip. lia. Qed.

Lemma loop_spec l : forall m, shape m0 m -> NoDup l -> (forall q, q ∈ l -> live m0 q) -> ordered m0 (fun _ => False) l -> live m0 (Param x) ->
  exists m', backward_loop (rev l) m = Ret (Done tt m') /\ shape m0 m' /\ gr m' (Param x) = pending m l + if decide (Param x ∈ l) then 0 else gr m (Param x).
Proof.
  induction l as [|p l IH] using rev_ind; intros m Hs Hnd Hl Ho Hx; [exists m; cbn; split_and!; try done; rewrite decide_False by apply not_elem_of_nil; lra|].
  rewrite rev_app_distr. cbn [rev app backward_loop]. apply NoDup_app in Hnd as (Hnd & Hp & _).
  assert (Hkl : forall c, c ∈ kids_of m0 p -> c ∈ l) by (intros c Hc; destruct (ordered_split m0 l p [] _ Ho c Hc); done).
  assert (Ho' : ordered m0 (fun _ => False) l) by by eapply ordered_prefix.
  assert (Hpl : p ∉ l) by (intros H; apply (Hp p H); left).
  assert (Hlp : live m0 p) by (apply Hl, elem_of_app; right; left).
  assert (Hll : forall q, q ∈ l -> live m0 q) by (intros q Hq; apply Hl, elem_of_app; by left).
  rewrite pending_app. cbn [pending foldr]. destruct p as [i|j].
  - destruct (tape_lookup m0 (Node i) Hm Hlp) as [v Ev]. cbn in Ev. rewrite (bind_done _ _ _ _ _ (step_node m i v Hs Hlp Ev)).
    rewrite (node_kids m0 i v Ev) in Hkl. pose proof (locals_length i v Hlp Ev) as Hlen.
    destruct (IH (spread (gr m (Node i)) (zip (kids v) (locals m0 v)) m)) as (m' & -> & Hs' & Hgr); try done; [by apply spread_shape|].
    exists m'. split; [done|]. split; [done|]. rewrite Hgr, pending_spread; [|done|done|].
    + rewrite (tangent_node m0 Hm x i v Hlp Ev). destruct (decide (Param x ∈ l)) as [Hin|Hin].
      * rewrite decide_True by set_solver. lra.
      * rewrite decide_False by set_solver. rewrite spread_gr; [lra|..]; rewrite zip_kids by done; [|set_solver].
        intros c Hc. by apply shape_some, Hll, Hkl.
    + intros c Hc. split; [by apply shape_some, Hll, Hkl|auto].
  - rewrite (bind_done _ _ _ _ _ (step_param m j Hs Hlp)). destruct (IH m) as (m' & -> & Hs' & Hgr); try done.
    exists m'. split; [done|]. split; [done|]. rewrite Hgr, (tangent_param m0 Hm x j Hlp). destruct (decide (j = x)) as [->|Hne].
    + rewrite decide_False, decide_True by (done || set_solver). lra.
    + destruct (decide (Param x ∈ l)); [rewrite decide_True by set_solver|rewrite decide_False by set_solver]; lra.
Qed.
End step.

(** ** The gradient *)

Lemma pending_root m0 x m root l : NoDup l -> root ∈ l -> (forall q, q ∈ l -> gr m q = if decide (q = root) then 1 else 0) ->
  pending m0 x m l = tangent m0 x root.
Proof.
  assert (Hz : forall l, root ∉ l -> (forall q, q ∈ l -> gr m q = if decide (q = root) then 1 else 0) -> pending m0 x m l = 0).
  { clear. intros l. induction l as [|q l IH]; intros Hr Hl; [done|]. cbn [pending foldr]. unfold pending in IH. rewrite IH by set_solver.
    rewrite (Hl q ltac:(left)), decide_False by set_solver. lra. }
  induction 1 as [|q l Hq _ IH]; intros Hr Hl; [by apply not_elem_of_nil in Hr|]. cbn [pending foldr].
  rewrite (Hl q ltac:(left)). destruct (decide (q = root)) as [->|Hne].
  - unfold pending in Hz. rewrite Hz by set_solver. lra.
  - unfold pending in IH. rewrite IH by set_solver. lra.
Qed.

Lemma ready_grad (m : mem R) root q : backward_ready m root -> live m q -> grad <$> lookup_ptr m q = Some 0.
Proof.
  intros [Hm _ _ _ Hz] Hq. destruct (tape_lookup m q Hm Hq) as [v E]. rewrite E. cbn. f_equal. rewrite <-flit_0. destruct q as [i|j].
  - by apply (tape_nodes m Hm i v).
  - by eapply (Forall_lookup_1 _ _ j v) in Hz.
Qed.

(** C10. In exact arithmetic, [backward] ends and leaves in the gradient of each parameter the
    derivative, by that parameter, of the function that the tape records at the root,
    taken at the current parameters, where that function has the value of the root. *)
Theorem backward_derivative (m : mem R) (root : ptr) (x : nat) : backward_ready m root -> smooth m -> (x < length (heap m))%nat ->
  denote m (params m) root = dat m root /\
  exists m', backward root m = Ret (Done tt m') /\ derivable_pt_lim (fun s => denote m (vary m x s) root) (params m x) (gr m' (Param x)).
Proof.
  intros Hrd Hsm Hx. pose proof Hrd as [Hm Hroot Hroom Hpar Hz]. pose proof (tape_graph m Hm) as Hg. split; [by apply denote_data|].
  destruct (backward_start m root Hm Hroot Hroom Hpar) as (m1 & (Hs & Hnd & Hr & Ho & Hgrad) & ->).
  assert (Hlive : forall q, q ∈ topo m1 -> live m q) by (intros q Hq; by apply Hr, (reach_rank m Hg) in Hq as [? _]).
  destruct (loop_spec m Hm x (topo m1) m1 Hs Hnd Hlive Ho Hx) as (m' & -> & _ & Hgr). exists m'. split; [done|].
  assert (Hgr1 : forall q, live m q -> gr m1 q = if decide (q = root) then 1 else 0).
  { intros q Hq. specialize (Hgrad q Hq). rewrite (ready_grad m root q Hrd Hq) in Hgrad. unfold gr. destruct (lookup_ptr m1 q); [|cbn in Hgrad; by destruct (decide (q = root))].
    cbn [fmap option_fmap option_map] in Hgrad. destruct (decide (q = root)); apply (inj Some) in Hgrad; rewrite Hgrad; [apply flit_1|done]. }
  assert (Hin : root ∈ topo m1) by (apply Hr; constructor).
  assert (gr m' (Param x) = tangent m x root) as ->; [|by apply tangent_derivative].
  rewrite Hgr, (pending_root m x m1 root) by (try done; intros q Hq; by apply Hgr1, Hlive).
  destruct (decide (Param x ∈ topo m1)) as [Hi|Hi]; [lra|]. rewrite Hgr1 by done. rewrite decide_False by (intros <-; done). lra.
Qed.

Lemma backward_derivative_witness : denote (log_square 2) (params (log_square 2)) (Node 1) = dat (log_square 2) (Node 1) /\
  exists m', backward (Node 1) (log_square 2) = Ret (Done tt m') /\
    derivable_pt_lim (fun s => denote (log_square 2) (vary (log_square 2) 0 s) (Node 1)) (params (log_square 2) 0) (gr m' (Param 0)).
Proof.
  apply (backward_derivative (log_square 2) (Node 1) 0); [apply log_square_ready| |cbn; lia].
  intros [|[|i]] v a Hi Hv Ha; cbn in Hi, Hv; [..|lia]; injection Hv as <-; cbn in *; [done|]. injection Ha as <-. unfold dat. cbn. lra.
Defined.
