(* ===== verification/Gpt.v ===== *)
(** Component: the language model of gpt/microgpt.c on top of the tape: the layers, the
    transformer with its cache of keys and values, the training loop with its optimiser,
    sampling, and the loading of the data. *)
From S2P Require Import Prelude Arrays Tape.

Definition N_EMBD : nat := 16.
Definition N_HEAD : nat := 4.
Definition N_LAYER : nat := 1.
Definition BLOCK_SIZE : nat := 16.
Definition HEAD_DIM : nat := 4.
Definition MAX_DOCS : nat := 1000.

(** ** Data *)

(** A [Value ***] that is filled when it is built. *)
Definition matrix : Type := list (list ptr).

Record Layer := mkLayer { attn_wq : matrix; attn_wk : matrix; attn_wv : matrix; attn_wo : matrix; mlp_fc1 : matrix; mlp_fc2 : matrix }.

Record model := mkModel { wte : matrix; wpe : matrix; lm_head : matrix; layers : list Layer }.

(** [cache_k] or [cache_v]: by layer, position and dimension; an entry that has not been
    written is [None]. *)
Definition cache : Type := list (list (list (option ptr))).

Definition new_cache : cache := replicate N_LAYER (replicate BLOCK_SIZE (replicate N_EMBD None)).

Section gpt.
Context {F : Type} `{!Float F}.

Definition lift {A} (c : res A) : prog F A := fun m => a ← c; Ret (Done a m).

(** An element of a [float] or pointer array, by an [int]. *)
Definition elem_z {A} (l : list A) (z : Z) : prog F A := if z <? 0 then undefined else elem l (Z.to_nat z).

(** ** Layers *)

(** The sum of the products of [n] elements, started at a new node. *)
Definition dot_loop (n : nat) (term : nat -> prog F ptr) : prog F ptr :=
  acc ← new_value (flit 0 1);
  fold_from 0 n (fun i acc => p ← term i; add acc p) acc.

Definition apply_linear (x : list ptr) (in_dim : nat) (w : matrix) (out_dim : nat) : prog F (list ptr) :=
  collect 0 out_dim (fun o => dot_loop in_dim (fun i =>
    row ← elem w o; wi ← elem row i; xi ← elem x i; mul wi xi)).

(** [max_val], before it is made a node. *)
Definition max_loop (logits : list ptr) (len : nat) : prog F F :=
  fold_from 0 len (fun i max_val => p ← elem logits i; v ← load p; mret (if fgt (data v) max_val then data v else max_val)) (flit (-1000000000) 1).

Definition softmax (logits : list ptr) (len : nat) : prog F (list ptr) :=
  max_val ← max_loop logits len;
  v_max ← new_value max_val;
  sum_exps ← new_value (flit 0 1);
  '(exps, sum_exps) ← fold_from 0 len (fun i '(exps, sum_exps) =>
    li ← elem logits i;
    diff ← sub li v_max;
    e ← vexp diff;
    s ← add sum_exps e;
    mret (exps ++ [e], s)) ([], sum_exps);
  collect 0 len (fun i => p ← power sum_exps (flit (-1) 1); e ← elem exps i; mul e p).

Definition rmsnorm (x : list ptr) (len : nat) : prog F (list ptr) :=
  sum_sq ← dot_loop len (fun i => xi ← elem x i; mul xi xi);
  mean_sq ← mul_const sum_sq (fdiv (flit 1 1) (flit (Z.of_nat len) 1));
  eps ← new_value (flit 1 100000);
  s ← add mean_sq eps;
  scale ← power s (flit (-1) 2);
  collect 0 len (fun i => xi ← elem x i; mul xi scale).

(** Element-wise sums. *)
Definition add_all (n : nat) (a b : list ptr) : prog F (list ptr) :=
  collect 0 n (fun i => ai ← elem a i; bi ← elem b i; add ai bi).

(** ** The transformer *)

(** [c[li][t][i]]. *)
Definition cached (c : cache) (li t i : nat) : prog F ptr :=
  l ← elem c li; r ← elem l t; o ← elem r i; non_null o.

(** [c[li][pos][i] = row[i]] for the [N_EMBD] elements of a row. *)
Definition put_row (c : cache) (li pos : nat) (row : list ptr) : option cache :=
  l ← c !! li; _ ← l !! pos; Some (<[li := <[pos := Some <$> row]> l]> c).
Definition set_row (c : cache) (li pos : nat) (row : list ptr) : prog F cache :=
  match put_row c li pos row with Some c => mret c | None => undefined end.

(** The part of [x_attn] that head [h] fills. *)
Definition head (q : list ptr) (keys values : cache) (li pos h : nat) : prog F (list ptr) :=
  let hs := (h * HEAD_DIM)%nat in
  attn_logits ← collect 0 (S pos) (fun t =>
    dot ← dot_loop HEAD_DIM (fun j => qj ← elem q (hs + j); kj ← cached keys li t (hs + j); mul qj kj);
    mul_const dot (fdiv (flit 1 1) (sqrtf (flit (Z.of_nat HEAD_DIM) 1))));
  attn_weights ← softmax attn_logits (S pos);
  collect 0 HEAD_DIM (fun j => dot_loop (S pos) (fun t => wt ← elem attn_weights t; vt ← cached values li t (hs + j); mul wt vt)).

(** The body of the loop over the layers. *)
Definition layer (ly : Layer) (li pos : nat) (x : list ptr) (keys values : cache) : prog F (list ptr * cache * cache) :=
  let x_residual := x in
  x ← rmsnorm x N_EMBD;
  q ← apply_linear x N_EMBD (attn_wq ly) N_EMBD;
  k ← apply_linear x N_EMBD (attn_wk ly) N_EMBD;
  v ← apply_linear x N_EMBD (attn_wv ly) N_EMBD;
  keys ← set_row keys li pos k;
  values ← set_row values li pos v;
  heads ← collect 0 N_HEAD (head q keys values li pos);
  proj ← apply_linear (concat heads) N_EMBD (attn_wo ly) N_EMBD;
  x ← add_all N_EMBD proj x_residual;
  let x_residual := x in
  x ← rmsnorm x N_EMBD;
  fc1 ← apply_linear x N_EMBD (mlp_fc1 ly) (4 * N_EMBD);
  fc1 ← collect 0 (4 * N_EMBD) (fun i => p ← elem fc1 i; relu p);
  fc2 ← apply_linear fc1 (4 * N_EMBD) (mlp_fc2 ly) N_EMBD;
  x ← add_all N_EMBD fc2 x_residual;
  mret (x, keys, values).

Definition gpt (md : model) (vocab_size : nat) (token_id : Z) (pos : nat) (keys values : cache) : prog F (list ptr * cache * cache) :=
  tok_emb ← elem_z (wte md) token_id;
  pos_emb ← elem (wpe md) pos;
  x ← add_all N_EMBD tok_emb pos_emb;
  x ← rmsnorm x N_EMBD;
  '(x, keys, values) ← fold_from 0 N_LAYER (fun li '(x, keys, values) =>
    ly ← elem (layers md) li; layer ly li pos x keys values) (x, keys, values);
  logits ← apply_linear x N_EMBD (lm_head md) vocab_size;
  mret (logits, keys, values).

(** ** Training *)

(** The body of the loop over the positions of a sequence. *)
Definition loss_body (md : model) (vocab_size : nat) (tokens : list Z) (pos : nat) (st : ptr * cache * cache) : prog F (ptr * cache * cache) :=
  let '(loss, keys, values) := st in
  target ← elem tokens (S pos);
  token ← elem tokens pos;
  '(logits, keys, values) ← gpt md vocab_size token pos keys values;
  probs ← softmax logits vocab_size;
  pt ← elem_z probs target;
  log_prob ← vlog pt;
  neg ← mul_const log_prob (flit (-1) 1);
  loss ← add loss neg;
  mret (loss, keys, values).

(** Index of a character, [char_to_id]. *)
Fixpoint char_to_id_from (i : Z) (uchars : list Z) (c : Z) : Z :=
  match uchars with
  | [] => -1
  | u :: l => if u =? c then i else char_to_id_from (i + 1) l c
  end.
Definition char_to_id (uchars : list Z) (c : Z) : Z := char_to_id_from 0 uchars c.

(** The tokens of a document. *)
Definition tokens_of (uchars : list Z) (doc : list Z) : list Z :=
  let BOS := Z.of_nat (length uchars) in
  BOS :: (char_to_id uchars <$> take (BLOCK_SIZE - 2) doc) ++ [BOS].

(** The forward part of a step: the loss of a document on a new tape. *)
Definition step_loss (md : model) (uchars doc : list Z) (keys values : cache) : prog F (ptr * cache * cache) :=
  zero_tape;;
  let tokens := tokens_of uchars doc in
  let n_targets := (length tokens - 1)%nat in
  loss ← new_value (flit 0 1);
  '(loss, keys, values) ← fold_from 0 n_targets (loss_body md (S (length uchars)) tokens) (loss, keys, values);
  loss ← mul_const loss (fdiv (flit 1 1) (flit (Z.of_nat n_targets) 1));
  mret (loss, keys, values).

Definition clear_grads : prog F unit :=
  m ← memory;
  for_from 0 (param_count m) (fun i => store (Param i) (set_grad (flit 0 1))).

Definition beta1 : F := flit 85 100.
Definition beta2 : F := flit 99 100.
Definition num_steps : Z := 100.

(** The update of parameter [i], with its entries of [adam_m] and [adam_v]. *)
Definition adam_one (step : Z) (i : nat) (mv : list F * list F) : prog F (list F * list F) :=
  let '(ms, vs) := mv in
  let lr_t := fmul (flit 1 100) (fsub (flit 1 1) (fdiv (flit step 1) (flit num_steps 1))) in
  p ← load (Param i);
  m0 ← elem ms i;
  let m1 := fadd (fmul beta1 m0) (fmul (fsub (flit 1 1) beta1) (grad p)) in
  v0 ← elem vs i;
  let v1 := fadd (fmul beta2 v0) (fmul (fmul (fsub (flit 1 1) beta2) (grad p)) (grad p)) in
  let m_hat := fdiv m1 (fsub (flit 1 1) (powf beta1 (flit (step + 1) 1))) in
  let v_hat := fdiv v1 (fsub (flit 1 1) (powf beta2 (flit (step + 1) 1))) in
  store (Param i) (fun v => set_data (fsub (data v) (fdiv (fmul lr_t m_hat) (fadd (sqrtf v_hat) (flit 1 100000000)))) v);;
  mret (<[i := m1]> ms, <[i := v1]> vs).

Definition adam (step : Z) (mv : list F * list F) : prog F (list F * list F) :=
  m ← memory;
  fold_from 0 (param_count m) (adam_one step) mv.

(** What the loop of [main] carries: the caches and the state of the optimiser. *)
Record state := mkState { cache_k : cache; cache_v : cache; adam_m : list F; adam_v : list F }.

Definition train_step (md : model) (uchars : list Z) (docs : list (list Z)) (step : Z) (s : state) : prog F state :=
  doc ← (if length docs =? 0 then undefined else elem docs (Z.to_nat step mod length docs))%nat;
  '(loss, keys, values) ← step_loss md uchars doc (cache_k s) (cache_v s);
  clear_grads;;
  backward loss;;
  '(ms, vs) ← adam step (adam_m s, adam_v s);
  mret (mkState keys values ms vs).

Definition train (md : model) (uchars : list Z) (docs : list (list Z)) (s : state) : prog F state :=
  fold_from 0 (Z.to_nat num_steps) (fun i s => train_step md uchars docs (Z.of_nat i) s) s.

(** ** Random numbers: the results of [rand], and how many have been taken *)

Context (rand : nat -> Z) (RAND_MAX : Z) (fresh : nat -> Value F).

(** Rejection of points outside the unit circle; [fuel] bounds the calls. *)
Fixpoint random_normal (fuel k : nat) : res (F * nat) :=
  match fuel with
  | O => Fuel
  | S n =>
      let u := fsub (fmul (fdiv (flit (rand k) 1) (flit RAND_MAX 1)) (flit 2 1)) (flit 1 1) in
      let v := fsub (fmul (fdiv (flit (rand (S k)) 1) (flit RAND_MAX 1)) (flit 2 1)) (flit 1 1) in
      let r := fadd (fmul u u) (fmul v v) in
      if feq r (flit 0 1) || fgt r (flit 1 1) then random_normal n (S (S k))
      else Ret (fmul u (sqrtf (fdiv (fmul (flit (-2) 1) (logf r)) r)), S (S k))
  end.

(** ** Initialisation *)

Definition init_row (fuel cols k : nat) : prog F (list ptr * nat) :=
  fold_from 0 cols (fun _ '(row, k) =>
    '(x, k) ← lift (random_normal fuel k);
    m ← memory;
    p ← new_param (fresh (length (heap m))) (fmul x (flit 8 100));
    mret (row ++ [p], k)) ([], k).

Definition init_matrix (fuel rows cols k : nat) : prog F (matrix * nat) :=
  fold_from 0 rows (fun _ '(mat, k) => '(row, k) ← init_row fuel cols k; mret (mat ++ [row], k)) ([], k).

Definition init_layer (fuel k : nat) : prog F (Layer * nat) :=
  '(wq, k) ← init_matrix fuel N_EMBD N_EMBD k;
  '(wk, k) ← init_matrix fuel N_EMBD N_EMBD k;
  '(wv, k) ← init_matrix fuel N_EMBD N_EMBD k;
  '(wo, k) ← init_matrix fuel N_EMBD N_EMBD k;
  '(fc1, k) ← init_matrix fuel (4 * N_EMBD) N_EMBD k;
  '(fc2, k) ← init_matrix fuel N_EMBD (4 * N_EMBD) k;
  mret (mkLayer wq wk wv wo fc1 fc2, k).

Definition init_model (fuel vocab_size k : nat) : prog F (model * nat) :=
  '(te, k) ← init_matrix fuel vocab_size N_EMBD k;
  '(pe, k) ← init_matrix fuel BLOCK_SIZE N_EMBD k;
  '(lh, k) ← init_matrix fuel vocab_size N_EMBD k;
  '(ls, k) ← fold_from 0 N_LAYER (fun _ '(ls, k) => '(l, k) ← init_layer fuel k; mret (ls ++ [l], k)) ([], k);
  mret (mkModel te pe lh ls, k).

(** ** Sampling *)

Fixpoint pick (probs : list ptr) (r cdf : F) (k n : nat) : prog F nat :=
  match n with
  | O => mret 0%nat
  | S n =>
      p ← elem probs k; v ← load p;
      let cdf := fadd cdf (data v) in
      if fgt cdf r then mret k else pick probs r cdf (S k) n
  end.

(** One token: the tape is reset before each. *)
Definition next_token (md : model) (vocab_size token pos k : nat) (keys values : cache) : prog F (nat * cache * cache) :=
  zero_tape;;
  '(logits, keys, values) ← gpt md vocab_size (Z.of_nat token) pos keys values;
  probs ← softmax logits vocab_size;
  next_tok ← pick probs (fdiv (flit (rand k) 1) (flit RAND_MAX 1)) (flit 0 1) 0 vocab_size;
  mret (next_tok, keys, values).

(** A sample: the positions from [pos] on, of which there are [n]; what is printed. *)
Fixpoint sample (md : model) (uchars : list Z) (n pos token k : nat) (keys values : cache) : prog F (list Z * cache * cache * nat) :=
  match n with
  | O => mret ([], keys, values, k)
  | S n =>
      '(token, keys, values) ← next_token md (S (length uchars)) token pos k keys values;
      if (token =? length uchars)%nat then mret ([], keys, values, S k) else
      c ← elem uchars token;
      '(out, keys, values, k) ← sample md uchars n (S pos) token (S k) keys values;
      mret (c :: out, keys, values, k)
  end.

(** The inference part of [main]. *)
Definition inference (md : model) (uchars : list Z) (keys values : cache) (k : nat) : prog F (list (list Z) * cache * cache * nat) :=
  fold_from 0 20 (fun _ '(outs, keys, values, k) =>
    '(out, keys, values, k) ← sample md uchars BLOCK_SIZE 0 (length uchars) k keys values;
    mret (outs ++ [out], keys, values, k)) ([], keys, values, k).

(** [main] after [load_data]: the samples that it prints. *)
Definition main (fuel : nat) (docs : list (list Z)) (uchars : list Z) : prog F (list (list Z)) :=
  '(md, k) ← init_model fuel (S (length uchars)) 0;
  let zeros := replicate (Z.to_nat MAX_PARAMS) (flit 0 1) in
  s ← train md uchars docs (mkState new_cache new_cache zeros zeros);
  '(outs, _, _, _) ← inference md uchars (cache_k s) (cache_v s) k;
  mret outs.
End gpt.
Arguments state F : clear implicits.

(** ** The data *)

(** [fgets] with a buffer of [n + 1] bytes: what is read and what is left. *)
Fixpoint fgets (n : nat) (l : list Z) : list Z * list Z :=
  match n, l with
  | O, _ | _, [] => ([], l)
  | S n, c :: l => if c =? 10 then ([c], l) else let '(a, b) := fgets n l in (c :: a, b)
  end.

(** The string in a buffer. *)
Fixpoint cstring (l : list Z) : list Z := match l with [] => [] | c :: l => if c =? 0 then [] else c :: cstring l end.

(** A line without its newline. *)
Definition chomp (l : list Z) : list Z := match last l with Some 10 => removelast l | _ => l end.

Fixpoint load_loop (fuel : nat) (file : list Z) (docs : list (list Z)) : res (list (list Z)) :=
  match fuel with
  | O => Fuel
  | S n =>
      match file with
      | [] => Ret docs
      | _ =>
          let '(line, rest) := fgets 255 file in
          let s := chomp (cstring line) in
          match s with
          | [] => load_loop n rest docs
          | _ => let docs := docs ++ [s] in if (MAX_DOCS <=? length docs)%nat then Ret docs else load_loop n rest docs
          end
      end
  end.

(** The documents and [uchars], the characters that occur, in order. *)
Definition load_data (file : list Z) : res (list (list Z) * list Z) :=
  docs ← load_loop (S (length file)) file [];
  Ret (docs, filter (fun c => c ∈ concat docs) (seqZ 0 256)).
