(* ===== verification/GptSpec.v ===== *)
(** The layers of gpt/microgpt.c as functions of numbers, in the order in which the code
    computes them, and the proof that the programs on the tape compute them, with the
    number of nodes each one takes. *)
From S2P Require Import Prelude Arrays Tape TapeInv Gpt.

Lemma nth_lookup_or_length_lt {A} (l : list A) i d : (i < length l)%nat -> l !! i = Some (nth i l d).
Proof. intros H. destruct (nth_lookup_or_length l i d) as [E|E]; [done|lia]. Qed.

(** ** Specifications *)

Section spec.
Context {F : Type} `{!Float F}.

Definition sum (xs : list F) : F := foldl fadd (flit 0 1) xs.
Definition linear (W : list (list F)) (xs : list F) : list F := (fun row => sum (zip_with fmul row xs)) <$> W.
Definition maximum (xs : list F) : F := foldl (fun mx x => if fgt x mx then x else mx) (flit (-1000000000) 1) xs.
Definition exps_of (xs : list F) : list F := (fun x => expf (fadd x (fneg (maximum xs)))) <$> xs.
Definition softmax_of (xs : list F) : list F := (fun e => fmul e (powf (sum (exps_of xs)) (flit (-1) 1))) <$> exps_of xs.
Definition scale_of (xs : list F) : F :=
  powf (fadd (fmul (sum (zip_with fmul xs xs)) (fdiv (flit 1 1) (flit (Z.of_nat (length xs)) 1))) (flit 1 100000)) (flit (-1) 2).
Definition rmsnorm_of (xs : list F) : list F := (fun x => fmul x (scale_of xs)) <$> xs.
Definition relu_of (x : F) : F := if fgt x (flit 0 1) then x else flit 0 1.

(** The numbers of a model. *)
Record LayerF := mkLayerF { wqF : list (list F); wkF : list (list F); wvF : list (list F); woF : list (list F); fc1F : list (list F); fc2F : list (list F) }.
Record modelF := mkModelF { wteF : list (list F); wpeF : list (list F); lm_headF : list (list F); layerF : LayerF }.

(** The part of a row that belongs to head [h]. *)
Definition slice_of (h : nat) (l : list F) : list F := take HEAD_DIM (drop (h * HEAD_DIM) l).

(** Head [h]: attention of the query to the keys [ks], and the mean of the values [vs]. *)
Definition attention (q : list F) (ks : list (list F)) (h : nat) : list F :=
  (fun k => fmul (sum (zip_with fmul (slice_of h q) (slice_of h k))) (fdiv (flit 1 1) (sqrtf (flit (Z.of_nat HEAD_DIM) 1)))) <$> ks.
Definition head_of (q : list F) (ks vs : list (list F)) (h : nat) : list F :=
  (fun j => sum (zip_with (fun w v => fmul w (nth (h * HEAD_DIM + j) v (flit 0 1))) (softmax_of (attention q ks h)) vs)) <$> seq 0 HEAD_DIM.

(** The output of a layer that attends to the keys [ks] and the values [vs]; the key and the
    value of its own position. *)
Definition layer_out (L : LayerF) (x : list F) (ks vs : list (list F)) : list F :=
  let heads := concat (head_of (linear (wqF L) (rmsnorm_of x)) ks vs <$> seq 0 N_HEAD) in
  let x1 := zip_with fadd (linear (woF L) heads) x in
  zip_with fadd (linear (fc2F L) (relu_of <$> linear (fc1F L) (rmsnorm_of x1))) x1.
Definition key_of (L : LayerF) (x : list F) : list F := linear (wkF L) (rmsnorm_of x).
Definition value_of (L : LayerF) (x : list F) : list F := linear (wvF L) (rmsnorm_of x).

(** The logits for a token at a position. *)
Definition input_of (M : modelF) (token : Z) (pos : nat) : list F :=
  rmsnorm_of (zip_with fadd (nth (Z.to_nat token) (wteF M) []) (nth pos (wpeF M) [])).
Definition gpt_of (M : modelF) (token : Z) (pos : nat) (ks vs : list (list F)) : list F :=
  linear (lm_headF M) (layer_out (layerF M) (input_of M token pos) ks vs).
End spec.
Arguments LayerF F : clear implicits.
Arguments modelF F : clear implicits.

(** ** Lists of results *)

Section uses.
Context {F : Type} `{!Float F}.
Implicit Types (m : mem F).

Definition hass m (l : list ptr) (xs : list F) : Prop := Forall2 (has m) l xs.
Definition hasss m (w : matrix) (W : list (list F)) : Prop := Forall2 (hass m) w W.

Definition yields_list m (xs : list F) (l : list ptr) (m' : mem F) : Prop := tape_ok m' /\ extends m m' /\ hass m' l xs.

Lemma ext_hass m m' l xs : extends m m' -> hass m l xs -> hass m' l xs.
Proof. intros He H. eapply Forall2_impl; [exact H|]. intros p x. by apply ext_has. Qed.

Lemma ext_hasss m m' w W : extends m m' -> hasss m w W -> hasss m' w W.
Proof. intros He H. eapply Forall2_impl; [exact H|]. intros l xs. by apply ext_hass. Qed.

Lemma hass_length m l xs : hass m l xs -> length l = length xs.
Proof. apply Forall2_length. Qed.

Lemma uses_elem_has {B} m l xs i x k (f : ptr -> prog F B) Q : hass m l xs -> xs !! i = Some x ->
  (forall p, has m p x -> uses k (f p) Q m) -> uses k (p ← elem l i; f p) Q m.
Proof. intros H Hx Hf. destruct (Forall2_lookup_r _ _ _ _ _ H Hx) as (p & Hp & Hh). apply (uses_bind 0 k), (uses_elem l i p); auto. Qed.

(** Chaining, when the second program starts from what the first one yields. *)
Lemma uses_seq {A B} k1 k2 (c : prog F A) (f : A -> prog F B) P Q m :
  uses k1 c P m -> (forall a m', P a m' -> uses k2 (f a) Q m') -> uses (k1 + k2) (c ≫= f) Q m.
Proof. intros H Hf. apply uses_bind. eapply uses_mono; [exact H|done|exact Hf]. Qed.

Lemma uses_conseq {A} k (c : prog F A) (P Q : A -> mem F -> Prop) m : uses k c P m -> (forall a m', P a m' -> Q a m') -> uses k c Q m.
Proof. intros H HQ. by eapply uses_mono. Qed.

(** What is known of the number of nodes. *)
Lemma uses_idx {A} k (c : prog F A) Q m : uses k c Q m -> uses k c (fun a m' => node_idx m' = (node_idx m + k)%nat /\ Q a m') m.
Proof. unfold uses. destruct (c m) as [[a m'|m']| |]; tauto. Qed.

(** An array of results, related to [xs] by a relation that keeps as the tape grows. *)
Lemma uses_collect_rel {A X} (R : mem F -> A -> X -> Prop) (xs : list X) k (f : nat -> prog F A) m :
  (forall m m' a x, extends m m' -> R m a x -> R m' a x) ->
  (forall i x m', xs !! i = Some x -> extends m m' -> tape_ok m' -> node_idx m' = (node_idx m + i * k)%nat ->
    uses k (f i) (fun a m'' => tape_ok m'' /\ extends m' m'' /\ R m'' a x) m') ->
  tape_ok m -> uses (length xs * k) (collect 0 (length xs) f) (fun l m' => tape_ok m' /\ extends m m' /\ Forall2 (R m') l xs) m.
Proof.
  intros HR Hf Hm. assert (Hgen : forall n i l m1, (i + n = length xs)%nat -> node_idx m1 = (node_idx m + i * k)%nat -> tape_ok m1 -> extends m m1 ->
    Forall2 (R m1) l (take i xs) -> uses (n * k) (collect i n f) (fun l' m' => tape_ok m' /\ extends m m' /\ Forall2 (R m') (l ++ l') xs) m1).
  { induction n as [|n IH]; intros i l m1 Hi Hidx Hm1 He Hl; cbn [collect].
    - apply uses_ret. rewrite app_nil_r. rewrite take_ge in Hl by lia. done.
    - destruct (lookup_lt_is_Some_2 xs i) as [x Ex]; [lia|]. apply (uses_seq k (n * k) _ _ _ _ _ (uses_idx _ _ _ _ (Hf i x m1 Ex He Hm1 Hidx))).
      intros a m2 (Hi2 & Hm2 & He2 & Ha). replace (n * k)%nat with (n * k + 0)%nat by lia.
      eapply uses_seq; [apply (IH (S i) (l ++ [a])); [lia|lia|done|by etrans|]|].
      + rewrite (take_S_r _ _ x Ex). apply Forall2_app; [|by repeat constructor]. eapply Forall2_impl; [exact Hl|]. intros b y. by apply HR.
      + intros l' m3 H3. apply uses_ret. cbv beta in H3. rewrite <-app_assoc in H3. exact H3. }
  apply (Hgen (length xs) 0%nat []); [lia|lia|done|done|constructor].
Qed.

Lemma uses_collect_list (xs : list F) k (f : nat -> prog F ptr) m :
  (forall i x m', xs !! i = Some x -> extends m m' -> tape_ok m' -> uses k (f i) (yields m' x) m') ->
  tape_ok m -> uses (length xs * k) (collect 0 (length xs) f) (yields_list m xs) m.
Proof. intros Hf Hm. apply uses_collect_rel; [intros; by eapply ext_has|intros i x m' Hx He Hm' _; by apply Hf|done]. Qed.

(** The node that a sum is put in. *)
Lemma add_at a b Q m : uses 1 (add a b) Q m -> uses 1 (add a b) (fun p m' => Q p m' /\ p = Node (node_idx m)) m.
Proof.
  unfold uses, add. rewrite !bind_run. unfold load. destruct (lookup_ptr m a) as [va|]; [|done]. rewrite !bind_run. destruct (lookup_ptr m b) as [vb|]; [|done].
  rewrite !bind_run. unfold new_value. destruct (MAX_NODES <=? _); [done|]. rewrite !bind_run. unfold store. destruct (lookup_ptr _ _); [|done].
  cbn. tauto.
Qed.

Lemma new_value_at x Q m : uses 1 (new_value x) Q m -> uses 1 (new_value x) (fun p m' => Q p m' /\ p = Node (node_idx m)) m.
Proof. unfold uses, new_value. destruct (MAX_NODES <=? _); [done|]. tauto. Qed.

(** Sums. *)
Lemma uses_dot_at (xs : list F) (term : nat -> prog F ptr) m :
  (forall i x m', xs !! i = Some x -> extends m m' -> tape_ok m' -> uses 1 (term i) (yields m' x) m') ->
  tape_ok m -> uses (1 + length xs * 2) (dot_loop (length xs) term) (fun p m' => yields m (sum xs) p m' /\ p = Node (node_idx m + length xs * 2)) m.
Proof.
  intros Hf Hm. unfold dot_loop. eapply uses_seq; [by apply uses_idx, new_value_at, new_value_uses|]. intros acc m1 (Hi1 & (Hm1 & He1 & Ha1) & Hp1).
  assert (Hgen : forall n i acc m1, (i + n = length xs)%nat -> node_idx m1 = (node_idx m + 1 + i * 2)%nat -> tape_ok m1 -> extends m m1 ->
    has m1 acc (sum (take i xs)) -> acc = Node (node_idx m + i * 2) ->
    uses (n * 2) (fold_from i n (fun i acc => p ← term i; add acc p) acc) (fun p m' => yields m (sum xs) p m' /\ p = Node (node_idx m + length xs * 2)) m1).
  { clear acc m1 Hi1 Hm1 He1 Ha1 Hp1. induction n as [|n IH]; intros i acc m1 Hi Hidx Hm1 He1 Ha Hp; cbn [fold_from].
    - apply uses_ret. rewrite take_ge in Ha by lia. split; [done|]. rewrite Hp. f_equal. lia.
    - destruct (lookup_lt_is_Some_2 xs i) as [x Ex]; [lia|].
      apply (uses_seq 2 (n * 2) _ _ (fun p m' => node_idx m' = (node_idx m1 + 2)%nat /\ yields m1 (fadd (sum (take i xs)) x) p m' /\ p = Node (node_idx m1 + 1))).
      + apply uses_idx. eapply (uses_seq 1 1); [by apply uses_idx, (Hf i x)|]. intros p m2 (Hi2 & Hm2 & He2 & Hp2).
        eapply uses_conseq; [apply add_at, add_uses; [done|by eapply ext_has|done]|].
        intros q m3 ((Hm3 & He3 & Hq) & ->). split; [|by rewrite Hi2]. split; [done|]. split; [by etrans|done].
      + intros q m2 (Hi2 & (Hm2 & He2 & Hq) & ->). apply IH; [lia|lia|done|by etrans| |f_equal; lia].
        rewrite (take_S_r _ _ x Ex). unfold sum in *. by rewrite foldl_app. }
  apply (Hgen (length xs) 0%nat); [lia|lia|done|done|done|]. rewrite Hp1. f_equal. lia.
Qed.

Lemma uses_dot (xs : list F) (term : nat -> prog F ptr) m :
  (forall i x m', xs !! i = Some x -> extends m m' -> tape_ok m' -> uses 1 (term i) (yields m' x) m') ->
  tape_ok m -> uses (1 + length xs * 2) (dot_loop (length xs) term) (yields m (sum xs)) m.
Proof. intros Hf Hm. eapply uses_conseq; [by apply uses_dot_at|]. by intros p m' [H _]. Qed.

(** The same with the bound of the loop given. *)
Lemma uses_dot_n (xs : list F) n (term : nat -> prog F ptr) m : length xs = n ->
  (forall i x m', xs !! i = Some x -> extends m m' -> tape_ok m' -> uses 1 (term i) (yields m' x) m') ->
  tape_ok m -> uses (1 + n * 2) (dot_loop n term) (yields m (sum xs)) m.
Proof. intros <-. apply uses_dot. Qed.

Lemma uses_collect_n (xs : list F) n k (f : nat -> prog F ptr) m : length xs = n ->
  (forall i x m', xs !! i = Some x -> extends m m' -> tape_ok m' -> uses k (f i) (yields m' x) m') ->
  tape_ok m -> uses (n * k) (collect 0 n f) (yields_list m xs) m.
Proof. intros <-. apply uses_collect_list. Qed.

(** ** Layers *)

Definition dims (rows cols : nat) (W : list (list F)) : Prop := length W = rows /\ Forall (fun row => length row = cols) W.

(** The nodes that the results of [apply_linear] are put in. *)
Definition linear_ptrs (start in_dim out_dim : nat) : list ptr := (fun i => Node (start + i * (1 + in_dim * 2) + in_dim * 2)) <$> seq 0 out_dim.

Lemma linear_at x xs w W in_dim out_dim m : tape_ok m -> hass m x xs -> hasss m w W -> length xs = in_dim -> dims out_dim in_dim W ->
  uses (out_dim * (1 + in_dim * 2)) (apply_linear x in_dim w out_dim)
    (fun l m' => yields_list m (linear W xs) l m' /\ l = linear_ptrs (node_idx m) in_dim out_dim) m.
Proof.
  intros Hm Hx Hw Hxs [Hout Hrows]. unfold apply_linear. set (k := (1 + in_dim * 2)%nat).
  set (ys := zip (seq 0 out_dim) (linear W xs)).
  assert (Hlen : length (linear W xs) = out_dim) by (unfold linear; by rewrite length_fmap).
  assert (Hys : length ys = out_dim) by (unfold ys; rewrite length_zip, length_seq; lia).
  eapply (uses_conseq _ _ (fun l m' => tape_ok m' /\ extends m m' /\ Forall2 (fun p y => has m' p y.2 /\ p = Node (node_idx m + y.1 * k + in_dim * 2)) l ys)).
  - rewrite <-Hys. apply uses_collect_rel; [intros m1 m2 p y He [H ->]; split; [by eapply ext_has|done]| |done].
    intros i [j y] m' Hy He Hm' Hidx. apply lookup_zip_Some in Hy as [Hj Hy]. apply lookup_seq in Hj as [-> Hi]. cbn [fst snd Nat.add].
    unfold linear in Hy. rewrite list_lookup_fmap in Hy. destruct (W !! i) as [row|] eqn:Erow; [|done]. injection Hy as <-.
    assert (Hrow : length row = in_dim) by by eapply (Forall_lookup_1 _ _ i row) in Hrows.
    set (z := zip_with fmul row xs). assert (Hz : length z = in_dim) by (unfold z; rewrite length_zip_with; lia).
    eapply uses_conseq; [unfold k; rewrite <-Hz; apply (uses_dot_at z); [|done]|].
    + intros j x' m2 Hzj He2 Hm2. apply lookup_zip_with_Some in Hzj as (a & b & -> & Ha & Hb).
      destruct (Forall2_lookup_r _ _ _ _ _ Hw Erow) as (r & Er & Hr). apply (uses_bind 0 1), (uses_elem w i r _ _ Er).
      assert (He' : extends m m2) by by etrans. eapply uses_elem_has; [eapply ext_hass; [exact He'|exact Hr]|exact Ha|]. intros wi Hwi.
      eapply uses_elem_has; [eapply ext_hass; [exact He'|exact Hx]|exact Hb|]. intros xi Hxi. by apply mul_uses.
    + intros p m2 [(Hm2 & He2 & Hp) ->]. split; [done|]. split; [done|]. split; [done|]. by rewrite Hz, Hidx.
  - intros l m' (Hm' & He & Hl). split; [split; [done|split; [done|]]|].
    + rewrite <-(snd_zip (seq 0 out_dim) (linear W xs)) by (rewrite length_seq; lia). apply Forall2_fmap_r. eapply Forall2_impl; [exact Hl|]. by intros p y [H _].
    + unfold linear_ptrs. rewrite <-(fst_zip (seq 0 out_dim) (linear W xs)) by (rewrite length_seq; lia). fold ys. rewrite <-list_fmap_compose.
      clear -Hl. induction Hl as [|p y l ys [_ ->] _ IH]; [done|]. cbn. f_equal. exact IH.
Qed.

Lemma linear_uses x xs w W in_dim out_dim m : tape_ok m -> hass m x xs -> hasss m w W -> length xs = in_dim -> dims out_dim in_dim W ->
  uses (out_dim * (1 + in_dim * 2)) (apply_linear x in_dim w out_dim) (yields_list m (linear W xs)) m.
Proof. intros. eapply uses_conseq; [by apply linear_at|]. by intros ? ? [? _]. Qed.

Lemma add_all_uses a xs b ys n m : tape_ok m -> hass m a xs -> hass m b ys -> length xs = n -> length ys = n ->
  uses (n * 1) (add_all n a b) (yields_list m (zip_with fadd xs ys)) m.
Proof.
  intros Hm Ha Hb Hx Hy. unfold add_all. replace n with (length (zip_with fadd xs ys)) by (rewrite length_zip_with; lia).
  apply uses_collect_list; [|done]. intros i z m' Hz He Hm'. apply lookup_zip_with_Some in Hz as (x & y & -> & Hxi & Hyi).
  eapply uses_elem_has; [by eapply ext_hass|exact Hxi|]. intros p Hp. eapply uses_elem_has; [by eapply ext_hass|exact Hyi|]. intros q Hq. by apply add_uses.
Qed.

Lemma map_uses l xs (g : F -> F) (f : ptr -> prog F ptr) m : tape_ok m -> hass m l xs ->
  (forall p x m', extends m m' -> tape_ok m' -> has m' p x -> uses 1 (f p) (yields m' (g x)) m') ->
  uses (length xs * 1) (collect 0 (length xs) (fun i => p ← elem l i; f p)) (yields_list m (g <$> xs)) m.
Proof.
  intros Hm Hl Hf. rewrite <-(length_fmap g xs). apply uses_collect_list; [|done]. intros i y m' Hy He Hm'. rewrite list_lookup_fmap in Hy.
  destruct (xs !! i) as [x|] eqn:Ex; [|done]. injection Hy as <-. eapply uses_elem_has; [by eapply ext_hass|exact Ex|]. intros p Hp. by apply Hf.
Qed.

Lemma rmsnorm_uses l xs n m : tape_ok m -> hass m l xs -> length xs = n -> uses (6 + n * 3) (rmsnorm l n) (yields_list m (rmsnorm_of xs)) m.
Proof.
  intros Hm Hl <-. unfold rmsnorm. replace (6 + length xs * 3)%nat with ((1 + length xs * 2) + (2 + (1 + (1 + (1 + length xs * 1)))))%nat by lia.
  apply (uses_seq _ _ _ _ (yields m (sum (zip_with fmul xs xs)))).
  { assert (Hz : length (zip_with fmul xs xs) = length xs) by (rewrite length_zip_with; lia). rewrite <-Hz. apply uses_dot; [|done].
    intros i x m' Hx He Hm'. apply lookup_zip_with_Some in Hx as (a & b & -> & Ha & Hb). rewrite Ha in Hb. injection Hb as <-.
    eapply uses_elem_has; [by eapply ext_hass|exact Ha|]. intros p Hp. by apply mul_uses. }
  intros s1 m1 (Hm1 & He1 & H1). eapply uses_seq; [by apply mul_const_uses|]. intros s2 m2 (Hm2 & He2 & H2).
  eapply uses_seq; [by apply new_value_uses|]. intros s3 m3 (Hm3 & He3 & H3).
  eapply uses_seq; [apply add_uses; [done|by eapply ext_has|done]|]. intros s4 m4 (Hm4 & He4 & H4).
  eapply uses_seq; [by apply power_uses|]. intros s5 m5 (Hm5 & He5 & H5).
  assert (He : extends m m5) by (do 4 (etrans; [done|]); done).
  eapply uses_conseq; [apply (map_uses l xs (fun x => fmul x (scale_of xs)) (fun xi => mul xi s5))|].
  - done.
  - by eapply ext_hass.
  - intros p x m' He' Hm' Hp. apply mul_uses; [done|done|]. by eapply ext_has.
  - intros a m' (Hm' & He' & Ha). split; [done|]. split; [by etrans|done].
Qed.

Lemma max_uses l xs m : hass m l xs -> uses 0 (max_loop l (length xs)) (fun x m' => x = maximum xs /\ m' = m) m.
Proof.
  intros Hl. unfold max_loop. replace 0%nat with (length xs * 0)%nat at 1 by lia.
  eapply uses_conseq; [apply (uses_fold (fun i x m' => x = maximum (take i xs) /\ m' = m))|].
  - done.
  - intros i x m' Hi [-> ->]. destruct (lookup_lt_is_Some_2 xs i) as [y Ey]; [lia|].
    destruct (Forall2_lookup_r _ _ _ _ _ Hl Ey) as (p & Ep & Hp). apply (uses_bind 0 0), (uses_elem l i p _ _ Ep).
    destruct (has_lookup m p y Hp) as (v & E & <-). apply (uses_bind 0 0), (uses_load p v _ _ E). apply uses_ret. split; [|done].
    rewrite (take_S_r _ _ _ Ey). unfold maximum. by rewrite foldl_app.
  - intros x m'. cbn. by rewrite take_ge.
Qed.

Lemma softmax_uses l xs n m : tape_ok m -> hass m l xs -> length xs = n -> uses (2 + n * 6) (softmax l n) (yields_list m (softmax_of xs)) m.
Proof.
  intros Hm Hl <-. unfold softmax. replace (2 + length xs * 6)%nat with (0 + (1 + (1 + (length xs * 4 + length xs * 2))))%nat by lia.
  eapply uses_seq; [by apply max_uses|]. intros mx m' [-> ->]. eapply uses_seq; [by apply new_value_uses|]. intros vm m1 (Hm1 & He1 & H1).
  eapply uses_seq; [by apply new_value_uses|]. intros s0 m2 (Hm2 & He2 & H2).
  set (I := fun i (st : list ptr * ptr) m' => tape_ok m' /\ extends m2 m' /\ hass m' st.1 (take i (exps_of xs)) /\ has m' st.2 (sum (take i (exps_of xs)))).
  eapply uses_seq; [apply (uses_fold I)|].
  - split; [done|]. split; [done|]. split; [constructor|exact H2].
  - intros i [es s] m3 Hi (Hm3 & He3 & Hes & Hs). cbn [fst snd] in *. destruct (lookup_lt_is_Some_2 xs i) as [x Ex]; [lia|].
    assert (He : extends m m3) by (do 2 (etrans; [done|]); done).
    eapply uses_elem_has; [by eapply ext_hass|exact Ex|]. intros p Hp. apply (uses_seq 2 2 _ _ (yields m3 (fadd x (fneg (maximum xs))))).
    { apply sub_uses; [done|done|]. eapply ext_has; [|exact H1]. by etrans. }
    intros d m4 (Hm4 & He4 & Hd). eapply (uses_seq 1 1); [by apply vexp_uses|]. intros e m5 (Hm5 & He5 & Hee).
    assert (He35 : extends m3 m5) by by etrans.
    eapply (uses_seq 1 0); [apply add_uses; [done|by eapply ext_has|done]|]. intros s' m6 (Hm6 & He6 & Hs'). apply uses_ret.
    assert (Ei : exps_of xs !! i = Some (expf (fadd x (fneg (maximum xs))))) by (unfold exps_of; by rewrite list_lookup_fmap, Ex).
    split; [done|]. split; [by do 2 (etrans; [done|])|]. cbn [fst snd]. rewrite (take_S_r _ _ _ Ei). split.
    + apply Forall2_app; [eapply ext_hass; [|exact Hes]; by etrans|]. repeat constructor; [by eapply (proj1 (ext_has _ _ _ _ He6 Hee))|by apply (ext_has _ _ _ _ He6 Hee)].
    + unfold sum in *. by rewrite foldl_app.
  - intros [es s] m3 (Hm3 & He3 & Hes & Hs). cbn [fst snd] in *. assert (Hlen : length (exps_of xs) = length xs) by (unfold exps_of; by rewrite length_fmap).
    cbn [Nat.add] in *. rewrite take_ge in Hes, Hs by lia. rewrite <-Hlen.
    assert (Hsl : length (softmax_of xs) = length (exps_of xs)) by (unfold softmax_of; by rewrite length_fmap). rewrite <-Hsl.
    eapply uses_conseq; [apply (uses_collect_list (softmax_of xs)); [|done]|].
    + intros i y m4 Hy He4 Hm4. unfold softmax_of in Hy. rewrite list_lookup_fmap in Hy. destruct (exps_of xs !! i) as [e|] eqn:Ee; [|done]. injection Hy as <-.
      eapply (uses_seq 1 1); [apply power_uses; [done|by eapply ext_has]|]. intros p m5 (Hm5 & He5 & Hp).
      assert (He35 : extends m3 m5) by by etrans. eapply uses_elem_has; [by eapply ext_hass|exact Ee|]. intros q Hq.
      eapply uses_conseq; [by apply mul_uses|]. intros r m6 (Hm6 & He6 & Hr). split; [done|]. split; [by etrans|done].
    + intros a m4 (Hm4 & He4 & Ha). split; [done|]. split; [by do 3 (etrans; [done|])|done].
Qed.

(** ** The transformer *)

(** The rows of a cache from the first position on. *)
Definition cache_has m (c : cache) (rows : list (list F)) : Prop :=
  exists l, c !! 0%nat = Some l /\ length l = BLOCK_SIZE /\ forall t row, rows !! t = Some row -> exists ps, l !! t = Some (Some <$> ps) /\ hass m ps row.

Lemma ext_cache m m' c rows : extends m m' -> cache_has m c rows -> cache_has m' c rows.
Proof.
  intros He (l & Hl & Hn & H). exists l. split; [done|]. split; [done|]. intros t row Ht. destruct (H t row Ht) as (ps & Hp & Hh).
  exists ps. split; [done|]. by eapply ext_hass.
Qed.

Lemma elem_run {A} (l : list A) i a m : l !! i = Some a -> elem l i m = Ret (Done a m).
Proof. intros E. unfold elem. by rewrite E. Qed.

(** An element of a cached row is loaded. *)
Lemma uses_cached {B} m c rows t row i x k (f : ptr -> prog F B) Q : cache_has m c rows -> rows !! t = Some row -> row !! i = Some x ->
  (forall p, has m p x -> uses k (f p) Q m) -> uses k (p ← cached c 0 t i; f p) Q m.
Proof.
  intros (l & Hl & _ & H) Ht Hx Hf. destruct (H t row Ht) as (ps & Hp & Hh). destruct (Forall2_lookup_r _ _ _ _ _ Hh Hx) as (p & Ep & Hpx).
  assert (E : cached c 0 t i m = Ret (Done p m)).
  { assert (Er : (Some <$> ps : list (option ptr)) !! i = Some (Some p)) by (rewrite list_lookup_fmap, Ep; done). unfold cached.
    by rewrite bind_run, (elem_run _ _ _ _ Hl), bind_run, (elem_run _ _ _ _ Hp), bind_run, (elem_run _ _ _ _ Er). }
  specialize (Hf p Hpx). unfold uses in *. by rewrite bind_run, E.
Qed.

Lemma uses_set_row {B} c c' pos ps k (f : cache -> prog F B) Q m : put_row c 0 pos ps = Some c' -> uses k (f c') Q m -> uses k (c ← set_row c 0 pos ps; f c) Q m.
Proof. intros E H. unfold set_row. rewrite E. by apply (uses_bind 0 k), uses_ret. Qed.

(** Writing the row of the next position. *)
Lemma put_row_spec m c rows pos ps row : cache_has m c rows -> length rows = pos -> (pos < BLOCK_SIZE)%nat ->
  exists c', put_row c 0 pos ps = Some c' /\ forall m', extends m m' -> hass m' ps row -> cache_has m' c' (rows ++ [row]).
Proof.
  intros (l & Hl & Hn & H) <- Hlen. destruct (lookup_lt_is_Some_2 l (length rows)) as [r Er]; [lia|].
  exists (<[0%nat := <[length rows := Some <$> ps]> l]> c). split; [unfold put_row; rewrite Hl; cbn; by rewrite Er|]. intros m' He Hps.
  exists (<[length rows := Some <$> ps]> l). split; [apply list_lookup_insert_eq; by eapply lookup_lt_Some|]. split; [by rewrite length_insert|].
  intros t row' Ht. apply lookup_snoc_Some in Ht as [[Hlt Ht]|[-> <-]].
  - destruct (H t row' Ht) as (ps' & Hp & Hh). exists ps'. split; [|by eapply ext_hass]. rewrite list_lookup_insert_ne; [done|lia].
  - exists ps. split; [|done]. apply list_lookup_insert_eq. lia.
Qed.

Definition embd (l : list F) : Prop := length l = N_EMBD.

Lemma slice_lookup h (l : list F) j x : slice_of h l !! j = Some x -> l !! (h * HEAD_DIM + j)%nat = Some x.
Proof. unfold slice_of. intros H. apply lookup_take_Some in H as [H _]. by rewrite lookup_drop in H. Qed.

Lemma slice_length h (l : list F) : embd l -> (h < N_HEAD)%nat -> length (slice_of h l) = HEAD_DIM.
Proof. unfold embd, slice_of, N_EMBD, N_HEAD, HEAD_DIM. intros Hl Hh. rewrite length_take, length_drop. lia. Qed.

(** The nodes that a head takes, and what it computes. *)
Definition head_cost (ctx : nat) : nat := ctx * (1 + HEAD_DIM * 2 + 2) + (2 + ctx * 6) + HEAD_DIM * (1 + ctx * 2).

Lemma head_uses q qs keys values ks vs pos h m : tape_ok m -> hass m q qs -> embd qs -> cache_has m keys ks -> cache_has m values vs ->
  Forall embd ks -> Forall embd vs -> length ks = S pos -> length vs = S pos -> (h < N_HEAD)%nat ->
  uses (head_cost (S pos)) (head q keys values 0 pos h) (yields_list m (head_of qs ks vs h)) m.
Proof.
  intros Hm Hq Hqe Hks Hvs Hke Hve Hkl Hvl Hh. unfold head, head_cost. rewrite <-Nat.add_assoc.
  assert (Hal : length (attention qs ks h) = S pos) by (unfold attention; by rewrite length_fmap).
  eapply uses_seq.
  { apply (uses_collect_n (attention qs ks h)); [done| |done]. intros t y m1 Hy He1 Hm1. unfold attention in Hy. rewrite list_lookup_fmap in Hy.
    destruct (ks !! t) as [k|] eqn:Ek; [|done]. injection Hy as <-. assert (Hkt : embd k) by by eapply (Forall_lookup_1 _ _ t k) in Hke.
    set (z := zip_with fmul (slice_of h qs) (slice_of h k)).
    assert (Hz : length z = HEAD_DIM) by (unfold z; rewrite length_zip_with, !slice_length by done; lia).
    eapply (uses_seq (1 + HEAD_DIM * 2) 2 _ _ (yields m1 (sum z))).
    - apply (uses_dot_n z); [done| |done]. intros j x m2 Hx He2 Hm2. apply lookup_zip_with_Some in Hx as (a & b & -> & Ha%slice_lookup & Hb%slice_lookup).
      assert (He : extends m m2) by by etrans. eapply uses_elem_has; [by eapply ext_hass|exact Ha|]. intros p Hp.
      eapply uses_cached; [by eapply ext_cache|exact Ek|exact Hb|]. intros p' Hp'. by apply mul_uses.
    - intros d m2 (Hm2 & He2 & Hd). eapply uses_conseq; [by apply mul_const_uses|]. intros p m3 (Hm3 & He3 & Hp). split; [done|]. split; [by etrans|done]. }
  intros al m1 (Hm1 & He1 & Hall). eapply uses_seq; [by apply softmax_uses|]. intros aw m2 (Hm2 & He2 & Haw).
  assert (He12 : extends m m2) by by etrans.
  assert (Hsl : length (softmax_of (attention qs ks h)) = S pos) by (unfold softmax_of, exps_of; by rewrite !length_fmap).
  apply (uses_conseq _ _ (yields_list m2 (head_of qs ks vs h))); [|intros a m' (H1 & H2 & H3); split; [exact H1|split; [by etrans|exact H3]]].
  apply (uses_collect_n (head_of qs ks vs h)); [unfold head_of; by rewrite length_fmap, length_seq| |done]. intros j y m3 Hy He3 Hm3. unfold head_of in Hy. rewrite list_lookup_fmap in Hy.
  destruct (seq 0 HEAD_DIM !! j) as [j'|] eqn:Ej; [|done]. apply lookup_seq in Ej as [-> Hj]. injection Hy as <-. cbn [Nat.add].
  set (z := zip_with _ _ vs). assert (Hz : length z = S pos) by (unfold z; rewrite length_zip_with; lia). apply (uses_dot_n z); [done| |done].
  intros t x m4 Hx He4 Hm4. apply lookup_zip_with_Some in Hx as (w & v & -> & Hw & Hv).
  assert (He24 : extends m2 m4) by by etrans. assert (He04 : extends m m4) by by etrans.
  eapply uses_elem_has; [eapply ext_hass; [exact He24|exact Haw]|exact Hw|]. intros p Hp.
  assert (Hve' : embd v) by by eapply (Forall_lookup_1 _ _ t v) in Hve.
  eapply uses_cached; [eapply ext_cache; [exact He04|exact Hvs]|exact Hv| |].
  - destruct (nth_lookup_or_length v (h * HEAD_DIM + j) (flit 0 1)) as [E|E]; [exact E|]. unfold embd, N_EMBD, HEAD_DIM, N_HEAD in *. lia.
  - intros p' Hp'. by apply mul_uses.
Qed.

(** The pointers of a model hold its numbers. *)
Record layer_has m (ly : Layer) (L : LayerF F) : Prop := LayerHas {
  lh_wq : hasss m (attn_wq ly) (wqF L); lh_wk : hasss m (attn_wk ly) (wkF L); lh_wv : hasss m (attn_wv ly) (wvF L);
  lh_wo : hasss m (attn_wo ly) (woF L); lh_fc1 : hasss m (mlp_fc1 ly) (fc1F L); lh_fc2 : hasss m (mlp_fc2 ly) (fc2F L)
}.

Record layer_dims (L : LayerF F) : Prop := LayerDims {
  ld_wq : dims N_EMBD N_EMBD (wqF L); ld_wk : dims N_EMBD N_EMBD (wkF L); ld_wv : dims N_EMBD N_EMBD (wvF L);
  ld_wo : dims N_EMBD N_EMBD (woF L); ld_fc1 : dims (4 * N_EMBD) N_EMBD (fc1F L); ld_fc2 : dims N_EMBD (4 * N_EMBD) (fc2F L)
}.

Lemma ext_layer m m' ly L : extends m m' -> layer_has m ly L -> layer_has m' ly L.
Proof. intros He [H1 H2 H3 H4 H5 H6]. split; by eapply ext_hasss. Qed.

Lemma linear_length W rows cols (xs : list F) : dims rows cols W -> length (linear W xs) = rows.
Proof. intros [H _]. unfold linear. by rewrite length_fmap. Qed.

Lemma rmsnorm_length (xs : list F) : length (rmsnorm_of xs) = length xs.
Proof. unfold rmsnorm_of. by rewrite length_fmap. Qed.

Lemma heads_length qs ks vs : length (concat (head_of qs ks vs <$> seq 0 N_HEAD)) = N_EMBD.
Proof. cbn [N_HEAD seq fmap list_fmap concat]. rewrite !length_app. unfold head_of. rewrite !length_fmap, !length_seq. done. Qed.

Lemma hass_concat m ls xss : Forall2 (hass m) ls xss -> hass m (concat ls) (concat xss).
Proof. unfold hass. induction 1; cbn; [constructor|by apply Forall2_app]. Qed.

(** Attention and what follows, from the caches that the layer finds after it has written
    its own row. *)
Definition layer_rest (ly : Layer) (li pos : nat) (x q : list ptr) (keys values : cache) : prog F (list ptr * cache * cache) :=
  heads ← collect 0 N_HEAD (head q keys values li pos);
  proj ← apply_linear (concat heads) N_EMBD (attn_wo ly) N_EMBD;
  x1 ← add_all N_EMBD proj x;
  xn ← rmsnorm x1 N_EMBD;
  fc1 ← apply_linear xn N_EMBD (mlp_fc1 ly) (4 * N_EMBD);
  fc1 ← collect 0 (4 * N_EMBD) (fun i => p ← elem fc1 i; relu p);
  fc2 ← apply_linear fc1 (4 * N_EMBD) (mlp_fc2 ly) N_EMBD;
  x ← add_all N_EMBD fc2 x1;
  mret (x, keys, values).

Lemma layer_split ly li pos x keys values : layer ly li pos x keys values =
  (xn ← rmsnorm x N_EMBD;
   q ← apply_linear xn N_EMBD (attn_wq ly) N_EMBD;
   k ← apply_linear xn N_EMBD (attn_wk ly) N_EMBD;
   v ← apply_linear xn N_EMBD (attn_wv ly) N_EMBD;
   keys ← set_row keys li pos k;
   values ← set_row values li pos v;
   layer_rest ly li pos x q keys values).
Proof. done. Qed.

Lemma uses_cost {A} k k' (c : prog F A) Q m : k = k' -> uses k c Q m -> uses k' c Q m.
Proof. by intros ->. Qed.

Definition rest_cost (ctx : nat) : nat :=
  N_HEAD * head_cost ctx + N_EMBD * (1 + N_EMBD * 2) + 2 * N_EMBD + (6 + N_EMBD * 3) + 4 * N_EMBD * (1 + N_EMBD * 2) + 4 * N_EMBD + N_EMBD * (1 + 4 * N_EMBD * 2).

Lemma rest_uses ly L x xs q keys values ks vs pos m : tape_ok m -> layer_has m ly L -> layer_dims L -> hass m x xs -> embd xs ->
  hass m q (linear (wqF L) (rmsnorm_of xs)) -> cache_has m keys ks -> cache_has m values vs -> Forall embd ks -> Forall embd vs -> length ks = S pos -> length vs = S pos ->
  uses (rest_cost (S pos)) (layer_rest ly 0 pos x q keys values)
    (fun r m' => yields_list m (layer_out L xs ks vs) r.1.1 m' /\ r.1.2 = keys /\ r.2 = values) m.
Proof.
  intros Hm Hly [D1 D2 D3 D4 D5 D6] Hx Hxe Hq Hk Hv Hke Hve Hkl Hvl. unfold layer_rest, layer_out.
  set (qs := linear (wqF L) (rmsnorm_of xs)) in *. assert (Hqe : embd qs) by by eapply linear_length.
  set (hd := head_of qs ks vs <$> seq 0 N_HEAD). set (x1 := zip_with fadd (linear (woF L) (concat hd)) xs).
  assert (Hhd : length (concat hd) = N_EMBD) by apply heads_length.
  assert (Hx1 : length x1 = N_EMBD) by (unfold x1; rewrite length_zip_with, (linear_length _ N_EMBD N_EMBD) by done; rewrite Hxe; lia).
  set (f1 := linear (fc1F L) (rmsnorm_of x1)). assert (Hf1 : length f1 = (4 * N_EMBD)%nat) by by eapply linear_length.
  eapply uses_cost; cycle 1.
  { eapply (uses_seq _ _ _ _ (fun l m' => tape_ok m' /\ extends m m' /\ Forall2 (hass m') l hd)).
    { unfold hd. apply (uses_cost (length (seq 0 N_HEAD) * head_cost (S pos)) (N_HEAD * head_cost (S pos))); [by rewrite length_seq|].
      rewrite <-(length_fmap (head_of qs ks vs) (seq 0 N_HEAD)). apply uses_collect_rel; [intros; by eapply ext_hass| |done].
      intros h y m5 Hy He5 Hm5 _. rewrite list_lookup_fmap in Hy. destruct (seq 0 N_HEAD !! h) as [h'|] eqn:Eh; [|done]. apply lookup_seq in Eh as [-> Hh].
      injection Hy as <-. cbn [Nat.add].
      apply head_uses; [done|by eapply ext_hass|done|eapply ext_cache; [exact He5|exact Hk]|eapply ext_cache; [exact He5|exact Hv]|done..]. }
    intros heads m5 (Hm5 & E5 & H5%hass_concat). pose proof (ext_layer _ _ _ _ E5 Hly) as [_ _ _ W5 _ _].
    eapply uses_seq; [by eapply linear_uses|]. intros proj m6 (Hm6 & He6 & H6). assert (E6 : extends m m6) by by etrans.
    eapply uses_seq; [eapply add_all_uses; [done|exact H6|eapply ext_hass; [exact E6|exact Hx]|by eapply linear_length|done]|].
    intros x1' m7 (Hm7 & He7 & H7). fold x1 in H7. eapply uses_seq; [by apply rmsnorm_uses|]. intros xn1 m8 (Hm8 & He8 & H8).
    assert (E8 : extends m m8) by (etrans; [exact E6|by etrans]). pose proof (ext_layer _ _ _ _ E8 Hly) as [_ _ _ _ W8 _].
    eapply uses_seq; [eapply linear_uses; [done|exact H8|exact W8|by rewrite rmsnorm_length|done]|]. intros f1' m9 (Hm9 & He9 & H9). fold f1 in H9.
    eapply uses_seq; [rewrite <-Hf1; eapply (map_uses f1' f1 relu_of relu); [done|done|intros p y m' _ ? ?; by apply relu_uses]|].
    intros f1r m10 (Hm10 & He10 & H10). assert (E810 : extends m8 m10) by by etrans. assert (E10 : extends m m10) by by etrans.
    pose proof (ext_layer _ _ _ _ E10 Hly) as [_ _ _ _ _ W10].
    eapply uses_seq; [eapply linear_uses; [done|exact H10|exact W10|by rewrite length_fmap|done]|]. intros f2 m11 (Hm11 & He11 & H11).
    assert (E711 : extends m7 m11) by (etrans; [exact He8|by etrans]).
    eapply uses_seq; [eapply add_all_uses; [done|exact H11|eapply ext_hass; [exact E711|exact H7]|by eapply linear_length|done]|].
    intros x2 m12 (Hm12 & He12 & H12). apply uses_ret. split; [|done]. split; [done|]. split; [|done].
    etrans; [exact E6|etrans; [exact He7|etrans; [exact E711|exact He12]]]. }
  unfold rest_cost. rewrite Hf1. lia.
Qed.
End uses.
