(* ===== verification/GptThm.v ===== *)
(** The language model of gpt/microgpt.c: one call of the transformer, the loss of a
    document, and what sampling computes with the cache it keeps across tapes. *)
From S2P Require Import Prelude Arrays Tape TapeInv Gpt GptSpec.

Section gpt.
Context {F : Type} `{!Float F}.
Implicit Types (m : mem F).

(** ** One call *)

Record model_has m (md : model) (M : modelF F) : Prop := ModelHas {
  mh_wte : hasss m (wte md) (wteF M); mh_wpe : hasss m (wpe md) (wpeF M); mh_lm : hasss m (lm_head md) (lm_headF M);
  mh_layer : exists ly, layers md = [ly] /\ layer_has m ly (layerF M)
}.

Record model_dims (V : nat) (M : modelF F) : Prop := ModelDims {
  md_wte : dims V N_EMBD (wteF M); md_wpe : dims BLOCK_SIZE N_EMBD (wpeF M); md_lm : dims V N_EMBD (lm_headF M); md_layer : layer_dims (layerF M)
}.

(** The nodes taken by the input, by a layer before its keys, by a matrix and by a call. *)
Definition input_cost : nat := N_EMBD + (6 + N_EMBD * 3).
Definition square_cost : nat := N_EMBD * (1 + N_EMBD * 2).
Definition query_cost : nat := (6 + N_EMBD * 3) + square_cost.
Definition gpt_cost (V ctx : nat) : nat := input_cost + (query_cost + 2 * square_cost + rest_cost ctx) + V * (1 + N_EMBD * 2).

(** The nodes of the key and the value of a call that starts with node [i]. *)
Definition key_ptrs (i : nat) : list ptr := linear_ptrs (i + input_cost + query_cost) N_EMBD N_EMBD.
Definition value_ptrs (i : nat) : list ptr := linear_ptrs (i + input_cost + query_cost + square_cost) N_EMBD N_EMBD.

(** A layer, with the caches as they are after the row of its position has been written. *)
Lemma layer_uses ly L x xs keys values keys' values' ks vs pos m :
  let kp := linear_ptrs (node_idx m + query_cost) N_EMBD N_EMBD in
  let vp := linear_ptrs (node_idx m + query_cost + square_cost) N_EMBD N_EMBD in
  tape_ok m -> layer_has m ly L -> layer_dims L -> hass m x xs -> embd xs ->
  put_row keys 0 pos kp = Some keys' -> put_row values 0 pos vp = Some values' ->
  (forall m', tape_ok m' -> extends m m' -> hass m' kp (key_of L xs) -> hass m' vp (value_of L xs) -> cache_has m' keys' ks /\ cache_has m' values' vs) ->
  Forall embd ks -> Forall embd vs -> length ks = S pos -> length vs = S pos ->
  uses (query_cost + 2 * square_cost + rest_cost (S pos)) (layer ly 0 pos x keys values)
    (fun r m' => yields_list m (layer_out L xs ks vs) r.1.1 m' /\ r.1.2 = keys' /\ r.2 = values' /\ hass m' kp (key_of L xs) /\ hass m' vp (value_of L xs)) m.
Proof.
  intros kp vp Hm Hly Hd Hx Hxe Ek Ev Hc Hke Hve Hkl Hvl. pose proof Hd as [D1 D2 D3 D4 D5 D6]. rewrite layer_split.
  assert (Hxn : length (rmsnorm_of xs) = N_EMBD) by by rewrite rmsnorm_length.
  eapply uses_cost; cycle 1.
  { eapply uses_seq; [by apply uses_idx, rmsnorm_uses|]. intros xn m1 (I1 & Hm1 & He1 & H1). pose proof (ext_layer _ _ _ _ He1 Hly) as [W1 _ _ _ _ _].
    eapply uses_seq; [apply uses_idx; by eapply linear_uses|]. intros q m2 (I2 & Hm2 & He2 & H2). assert (E2 : extends m m2) by by etrans.
    pose proof (ext_layer _ _ _ _ E2 Hly) as [_ W2 _ _ _ _].
    eapply uses_seq; [apply uses_idx; eapply linear_at; [done|eapply ext_hass; [exact He2|exact H1]|exact W2|done|done]|].
    intros k m3 (I3 & (Hm3 & He3 & H3) & Hkp). assert (E3 : extends m m3) by by etrans. assert (E13 : extends m1 m3) by by etrans.
    pose proof (ext_layer _ _ _ _ E3 Hly) as [_ _ W3 _ _ _].
    eapply uses_seq; [apply uses_idx; eapply linear_at; [done|eapply ext_hass; [exact E13|exact H1]|exact W3|done|done]|].
    intros v m4 (I4 & (Hm4 & He4 & H4) & Hvp). assert (E4 : extends m m4) by by etrans. assert (E24 : extends m2 m4) by by etrans.
    assert (k = kp) as -> by (rewrite Hkp; unfold kp, query_cost, square_cost; f_equal; lia).
    assert (v = vp) as -> by (rewrite Hvp; unfold vp, query_cost, square_cost; f_equal; lia).
    eapply uses_set_row; [exact Ek|]. eapply uses_set_row; [exact Ev|].
    assert (H3' : hass m4 kp (key_of L xs)) by (eapply ext_hass; [exact He4|exact H3]). destruct (Hc m4 Hm4 E4 H3' H4) as [Hck Hcv].
    eapply uses_conseq; [eapply rest_uses; [done|eapply ext_layer; [exact E4|exact Hly]|done|eapply ext_hass; [exact E4|exact Hx]|done|eapply ext_hass; [exact E24|exact H2]|done..]|].
    intros r m5 ((Hm5 & He5 & H5) & -> & ->). split; [split; [done|split; [by etrans|done]]|]. split; [done|]. split; [done|].
    split; (eapply ext_hass; [exact He5|done]). }
  unfold query_cost, square_cost. lia.
Qed.

Lemma nth_row {A} (W : list (list A)) i : (i < length W)%nat -> W !! i = Some (nth i W []).
Proof. apply nth_lookup_or_length_lt. Qed.

(** A call, with the caches as they are after the row of its position has been written. *)
Lemma gpt_uses md M V token pos keys values keys' values' ks vs m :
  tape_ok m -> model_has m md M -> model_dims V M -> 0 <= token < Z.of_nat V -> (pos < BLOCK_SIZE)%nat ->
  put_row keys 0 pos (key_ptrs (node_idx m)) = Some keys' -> put_row values 0 pos (value_ptrs (node_idx m)) = Some values' ->
  (forall m', tape_ok m' -> extends m m' -> hass m' (key_ptrs (node_idx m)) (key_of (layerF M) (input_of M token pos)) ->
    hass m' (value_ptrs (node_idx m)) (value_of (layerF M) (input_of M token pos)) -> cache_has m' keys' ks /\ cache_has m' values' vs) ->
  Forall embd ks -> Forall embd vs -> length ks = S pos -> length vs = S pos ->
  uses (gpt_cost V (S pos)) (gpt md V token pos keys values)
    (fun r m' => yields_list m (gpt_of M token pos ks vs) r.1.1 m' /\ r.1.2 = keys' /\ r.2 = values' /\
      hass m' (key_ptrs (node_idx m)) (key_of (layerF M) (input_of M token pos)) /\
      hass m' (value_ptrs (node_idx m)) (value_of (layerF M) (input_of M token pos))) m.
Proof.
  intros Hm [W1 W2 W3 (ly & Ely & W4)] [D1 D2 D3 D4] Ht Hpos Ek Ev Hc Hke Hve Hkl Hvl. unfold gpt, gpt_of.
  pose proof D4 as [L1 L2 L3 L4 L5 L6].
  assert (Et : wteF M !! Z.to_nat token = Some (nth (Z.to_nat token) (wteF M) [])) by (apply nth_row; destruct D1; lia).
  assert (Ep : wpeF M !! pos = Some (nth pos (wpeF M) [])) by (apply nth_row; destruct D2 as [-> _]; done).
  set (te := nth (Z.to_nat token) (wteF M) []) in *. set (pe := nth pos (wpeF M) []) in *.
  assert (Hte : length te = N_EMBD) by by eapply (Forall_lookup_1 _ _ _ _ (proj2 D1)). assert (Hpe : length pe = N_EMBD) by by eapply (Forall_lookup_1 _ _ _ _ (proj2 D2)).
  destruct (Forall2_lookup_r _ _ _ _ _ W1 Et) as (tp & Etp & Htp). destruct (Forall2_lookup_r _ _ _ _ _ W2 Ep) as (pp & Epp & Hpp).
  set (x := input_of M token pos) in *. assert (Hx : x = rmsnorm_of (zip_with fadd te pe)) by done.
  assert (Hxe : embd x) by (unfold embd; rewrite Hx, rmsnorm_length, length_zip_with; lia).
  eapply uses_cost; cycle 1.
  { unfold elem_z. rewrite (proj2 (Z.ltb_ge _ _)) by lia. apply (uses_bind 0), (uses_elem _ _ tp _ _ Etp).
    apply (uses_bind 0), (uses_elem _ _ pp _ _ Epp).
    eapply uses_seq; [apply uses_idx; by eapply add_all_uses|]. intros x0 m1 (I1 & Hm1 & E1 & H1).
    eapply uses_seq; [apply uses_idx, rmsnorm_uses; [done|exact H1|rewrite length_zip_with; lia]|]. intros x' m2 (I2 & Hm2 & He2 & H2). rewrite <-Hx in H2.
    assert (E2 : extends m m2) by by etrans. assert (Hn2 : node_idx m2 = (node_idx m + input_cost)%nat) by (unfold input_cost; lia).
    eapply uses_seq.
    { cbn [N_LAYER fold_from]. eapply uses_seq; [|intros r m3 H3; apply uses_ret; exact H3]. cbn beta iota. rewrite Ely.
      apply (uses_bind 0), (uses_elem [ly] 0 ly _ _ eq_refl). eapply (layer_uses ly (layerF M) x' x keys values keys' values' ks vs pos m2); rewrite ?Hn2; try done.
      - eapply ext_layer; [exact E2|exact W4].
      - intros m' Hm' He' Hkk Hvv. apply Hc; try done. by etrans. }
    intros [[x3 k3] v3] m3 ((Hm3 & He3 & H3) & Hk3 & Hv3 & Hkk & Hvv). cbn [fst snd] in *. rewrite Hn2 in Hkk, Hvv. assert (E3 : extends m m3) by by etrans.
    eapply uses_seq; [eapply linear_uses; [done|exact H3|eapply ext_hasss; [exact E3|exact W3]| |exact D3]|].
    { unfold layer_out. rewrite length_zip_with, (linear_length _ N_EMBD (4 * N_EMBD)), length_zip_with, (linear_length _ N_EMBD N_EMBD) by done. rewrite Hxe. lia. }
    intros lg m4 (Hm4 & He4 & H4). apply uses_ret. cbn [fst snd]. split; [split; [done|split; [by etrans|done]]|]. split; [done|]. split; [done|].
    split; (eapply ext_hass; [etrans; [exact He4|reflexivity]|]; eapply ext_hass; [reflexivity|done]). }
  unfold gpt_cost, input_cost. lia.
Qed.

(** ** The loss of a document *)

(** The loss of [n] targets from position [pos] on, given the keys and values before. *)
Fixpoint loss_of (M : modelF F) (tokens : list Z) (pos n : nat) (loss : F) (ks vs : list (list F)) : F :=
  match n with
  | O => loss
  | S n =>
      let x := input_of M (nth pos tokens 0) pos in
      let ks := ks ++ [key_of (layerF M) x] in
      let vs := vs ++ [value_of (layerF M) x] in
      let probs := softmax_of (gpt_of M (nth pos tokens 0) pos ks vs) in
      loss_of M tokens (S pos) n (fadd loss (fmul (logf (nth (Z.to_nat (nth (S pos) tokens 0)) probs (flit 0 1))) (flit (-1) 1))) ks vs
  end.

(** The mean over the targets of a document. *)
Definition doc_loss (M : modelF F) (uchars doc : list Z) : F :=
  let tokens := tokens_of uchars doc in
  let n := (length tokens - 1)%nat in
  fmul (loss_of M tokens 0 n (flit 0 1) [] []) (fdiv (flit 1 1) (flit (Z.of_nat n) 1)).

Fixpoint loop_cost (V pos n : nat) : nat :=
  match n with O => 0 | S n => gpt_cost V (S pos) + (2 + V * 6 + 4) + loop_cost V (S pos) n end.

Lemma ext_model m m' md M : extends m m' -> model_has m md M -> model_has m' md M.
Proof.
  intros He [H1 H2 H3 (ly & E & H4)]. split; try by eapply ext_hasss. exists ly. split; [done|]. by eapply ext_layer.
Qed.

Lemma gpt_length V M token pos ks vs : model_dims V M -> length (gpt_of M token pos ks vs) = V.
Proof. intros [_ _ D _]. unfold gpt_of. by eapply linear_length. Qed.

Lemma input_embd V M token pos : model_dims V M -> 0 <= token < Z.of_nat V -> (pos < BLOCK_SIZE)%nat -> embd (input_of M token pos).
Proof.
  intros [[D1 D1'] [D2 D2'] _ _] Ht Hp. unfold embd, input_of. rewrite rmsnorm_length, length_zip_with.
  rewrite (Forall_lookup_1 _ _ (Z.to_nat token) _ D1'), (Forall_lookup_1 _ _ pos _ D2'); [lia|apply nth_row; lia|apply nth_row; lia].
Qed.

Lemma nth_total (l : list Z) i : (i < length l)%nat -> l !! i = Some (nth i l 0).
Proof. apply nth_lookup_or_length_lt. Qed.

(** What the loop carries: the loss so far and the caches up to the current position. *)
Definition loop_state m (md : model) (M : modelF F) (loss : F) (ks vs : list (list F)) (r : ptr * cache * cache) : Prop :=
  tape_ok m /\ model_has m md M /\ has m r.1.1 loss /\ cache_has m r.1.2 ks /\ cache_has m r.2 vs.

(** The terms added for one position. *)
Lemma loss_body_uses md M V tokens pos loss keys values l ks vs m :
  loop_state m md M l ks vs (loss, keys, values) -> model_dims V M -> Forall (fun t => 0 <= t < Z.of_nat V) tokens ->
  (S pos < length tokens)%nat -> (pos < BLOCK_SIZE)%nat -> length ks = pos -> length vs = pos -> Forall embd ks -> Forall embd vs ->
  let x := input_of M (nth pos tokens 0) pos in
  let ks' := ks ++ [key_of (layerF M) x] in
  let vs' := vs ++ [value_of (layerF M) x] in
  let p := nth (Z.to_nat (nth (S pos) tokens 0)) (softmax_of (gpt_of M (nth pos tokens 0) pos ks' vs')) (flit 0 1) in
  uses (gpt_cost V (S pos) + (2 + V * 6 + 4)) (loss_body md V tokens pos (loss, keys, values))
    (fun r m' => extends m m' /\ loop_state m' md M (fadd l (fmul (logf p) (flit (-1) 1))) ks' vs' r) m.
Proof.
  intros (Hm & Hmd & Hl & Hk & Hv) Hd Htok Hlen Hpos Hkl Hvl Hke Hve x ks' vs' p. cbn [fst snd] in *. unfold loss_body.
  pose proof (nth_total tokens (S pos) Hlen) as Et. pose proof (nth_total tokens pos ltac:(lia)) as Ep.
  pose proof (Forall_lookup_1 _ _ _ _ Htok Et) as Ht. pose proof (Forall_lookup_1 _ _ _ _ Htok Ep) as Hp. cbv beta in Ht, Hp.
  set (target := nth (S pos) tokens 0) in *. set (token := nth pos tokens 0) in *.
  pose proof Hd as [_ _ _ D4]. pose proof D4 as [_ L2 L3 _ _ _].
  destruct (put_row_spec m keys ks pos (key_ptrs (node_idx m)) (key_of (layerF M) x) Hk Hkl Hpos) as (keys' & Ek & Hk').
  destruct (put_row_spec m values vs pos (value_ptrs (node_idx m)) (value_of (layerF M) x) Hv Hvl Hpos) as (values' & Ev & Hv').
  assert (Hnew : forall W, dims N_EMBD N_EMBD W -> embd (linear W (rmsnorm_of x))) by (intros W HW; by eapply linear_length).
  eapply uses_cost; cycle 1.
  { apply (uses_bind 0), (uses_elem _ _ _ _ _ Et), (uses_bind 0), (uses_elem _ _ _ _ _ Ep).
  eapply uses_seq; [apply (gpt_uses md M V token pos keys values keys' values' ks' vs' m); try done;
    unfold ks', vs'; rewrite ?Forall_app, ?Forall_singleton, ?length_app; cbn; try (split; [done|by apply Hnew]); try lia|].
  { intros m' Hm' He Hkk Hvv. split; [by apply Hk'|by apply Hv']. }
  intros [[lg k1] v1] m1 ((Hm1 & E1 & H1) & Ek1 & Ev1 & Hkk & Hvv). cbn [fst snd] in *. subst k1 v1.
  eapply uses_seq; [apply softmax_uses; [done|exact H1|by eapply gpt_length]|]. intros probs m2 (Hm2 & He2 & H2). assert (E2 : extends m m2) by by etrans.
  assert (Epp : softmax_of (gpt_of M token pos ks' vs') !! Z.to_nat target = Some p).
  { unfold p. apply nth_lookup_or_length_lt. unfold softmax_of, exps_of. rewrite !length_fmap, (gpt_length V) by done. lia. }
  unfold elem_z. rewrite (proj2 (Z.ltb_ge _ _)) by lia. eapply uses_elem_has; [exact H2|exact Epp|]. intros pt Hpt.
  eapply uses_seq; [by apply vlog_uses|]. intros lp m3 (Hm3 & He3 & H3).
  eapply uses_seq; [by apply mul_const_uses|]. intros ng m4 (Hm4 & He4 & H4). assert (E4 : extends m m4) by (etrans; [exact E2|by etrans]).
  eapply uses_seq; [apply add_uses; [done|eapply ext_has; [exact E4|exact Hl]|exact H4]|]. intros ls m5 (Hm5 & He5 & H5).
  assert (E5 : extends m m5) by by etrans. assert (E15 : extends m1 m5) by (etrans; [exact He2|etrans; [exact He3|by etrans]]).
  apply uses_ret. split; [done|]. split; [done|]. split; [eapply ext_model; [exact E5|exact Hmd]|]. split; [done|]. cbn [fst snd].
  split; [apply Hk'; [done|]|apply Hv'; [done|]]; (eapply ext_hass; [exact E15|done]). }
  lia.
Qed.

Lemma loss_loop_uses md M V tokens n : forall pos st l ks vs m,
  loop_state m md M l ks vs st -> model_dims V M -> Forall (fun t => 0 <= t < Z.of_nat V) tokens ->
  (pos + n < length tokens)%nat -> (pos + n <= BLOCK_SIZE)%nat -> length ks = pos -> length vs = pos -> Forall embd ks -> Forall embd vs ->
  uses (loop_cost V pos n) (fold_from pos n (loss_body md V tokens) st)
    (fun r m' => extends m m' /\ exists ks' vs', loop_state m' md M (loss_of M tokens pos n l ks vs) ks' vs' r) m.
Proof.
  induction n as [|n IH]; intros pos [[loss keys] values] l ks vs m Hst Hd Htok Hlen Hblk Hkl Hvl Hke Hve; cbn [fold_from loop_cost loss_of].
  - apply uses_ret. split; [done|]. by exists ks, vs.
  - eapply uses_seq; [eapply loss_body_uses; try done; lia|]. intros st m1 (E1 & Hst1).
    pose proof Hd as [_ _ _ [_ L2 L3 _ _ _]]. set (x := input_of M (nth pos tokens 0) pos) in *.
    eapply uses_conseq; [eapply (IH (S pos) st); [exact Hst1|done|done|lia|lia| | | |]; rewrite ?length_app, ?Forall_app, ?Forall_singleton; cbn [length]; try lia|].
    + split; [done|]. exact (linear_length _ _ _ _ L2).
    + split; [done|]. exact (linear_length _ _ _ _ L3).
    + intros r m2 (E2 & ks2 & vs2 & Hr). split; [by etrans|]. by exists ks2, vs2.
Qed.

(** A document never exhausts the tape. *)
Lemma gpt_cost_bound V ctx : (V <= 257)%nat -> (ctx <= 16)%nat -> Z.of_nat (gpt_cost V ctx + (2 + V * 6 + 4)) <= 30000.
Proof.
  intros HV Hc. unfold gpt_cost, input_cost, query_cost, square_cost, rest_cost, head_cost, N_EMBD, N_HEAD, HEAD_DIM. lia.
Qed.

Lemma loop_cost_bound V n : forall pos, (V <= 257)%nat -> (pos + n <= 16)%nat -> Z.of_nat (loop_cost V pos n) <= 30000 * Z.of_nat n.
Proof.
  induction n as [|n IH]; intros pos HV Hn; [done|]. cbn [loop_cost]. pose proof (gpt_cost_bound V (S pos) HV ltac:(lia)).
  specialize (IH (S pos) HV ltac:(lia)). rewrite Nat2Z.inj_add. lia.
Qed.

(** ** Characters *)

Lemma char_to_id_from_spec uchars : forall i c, c ∈ uchars -> i <= char_to_id_from i uchars c < i + Z.of_nat (length uchars) /\
  uchars !! Z.to_nat (char_to_id_from i uchars c - i) = Some c.
Proof.
  induction uchars as [|u l IH]; intros i c Hc; [by apply elem_of_nil in Hc|]. cbn [char_to_id_from length]. destruct (Z.eqb_spec u c) as [->|Hne].
  - split; [lia|]. by rewrite Z.sub_diag.
  - destruct (IH (i + 1) c) as [H1 H2]; [set_solver|]. split; [lia|].
    replace (Z.to_nat (char_to_id_from (i + 1) l c - i)) with (S (Z.to_nat (char_to_id_from (i + 1) l c - (i + 1)))) by lia. done.
Qed.

Lemma tokens_valid uchars doc : Forall (fun c => c ∈ uchars) doc -> Forall (fun t => 0 <= t < Z.of_nat (S (length uchars))) (tokens_of uchars doc).
Proof.
  intros H. unfold tokens_of. constructor; [lia|]. apply Forall_app. split; [|repeat constructor; lia]. apply Forall_fmap.
  eapply Forall_impl; [by apply Forall_take|]. intros c Hc. cbn. unfold char_to_id. destruct (char_to_id_from_spec uchars 0 c Hc). lia.
Qed.

Lemma tokens_length uchars doc : (2 <= length (tokens_of uchars doc) <= BLOCK_SIZE)%nat.
Proof. unfold tokens_of. cbn [length]. rewrite length_app, length_fmap, length_take. cbn [length]. unfold BLOCK_SIZE. lia. Qed.

(** The memory after [zero_tape]. *)
Definition reset m : mem F := Mem (node_pool m) 0 (heap m) (topo m).

Lemma reset_ok m : Forall constant (heap m) -> tape_ok (reset m).
Proof. intros H. split; [cbn; lia|done|]. intros i v Hi. cbn in Hi. lia. Qed.

(** Room for the rows of all positions. *)
Definition cache_shape (c : cache) : Prop := exists l, c !! 0%nat = Some l /\ length l = BLOCK_SIZE.

Lemma shape_cache m c : cache_shape c <-> cache_has m c [].
Proof. split; [intros (l & H1 & H2); by exists l|intros (l & H1 & H2 & _); by exists l]. Qed.

Lemma cache_has_shape m c rows : cache_has m c rows -> cache_shape c.
Proof. intros (l & H1 & H2 & _). by exists l. Qed.

(** A training step records the loss of its document: for every document over the
    vocabulary the forward pass ends without exhausting the tape, and the node it returns
    holds the mean cross entropy of the transformer with causal attention, each key and
    value being computed once and found again in the cache. *)
Lemma step_loss_spec md M uchars doc keys values m :
  Forall constant (heap m) -> model_has (reset m) md M -> model_dims (S (length uchars)) M -> (length uchars <= 256)%nat ->
  Forall (fun c => c ∈ uchars) doc -> cache_shape keys -> cache_shape values ->
  exists loss keys' values' m', step_loss md uchars doc keys values m = Ret (Done (loss, keys', values') m') /\
    tape_ok m' /\ has m' loss (doc_loss M uchars doc) /\ heap m' = heap m /\ cache_shape keys' /\ cache_shape values' /\ Z.of_nat (node_idx m') <= 500000.
Proof.
  intros Hh Hmd Hd Hu Hdoc Hk Hv. unfold step_loss, doc_loss. rewrite bind_run. cbn [zero_tape]. fold (reset m).
  pose proof (tokens_valid uchars doc Hdoc) as Htok. pose proof (tokens_length uchars doc) as Hlen. unfold BLOCK_SIZE in Hlen.
  set (tokens := tokens_of uchars doc) in *. set (n := (length tokens - 1)%nat). set (V := S (length uchars)) in *.
  assert (Huse : uses (1 + (loop_cost V 0 n + (2 + 0))) (loss ← new_value (flit 0 1);
     '(loss, keys, values) ← fold_from 0 n (loss_body md V tokens) (loss, keys, values);
     loss ← mul_const loss (fdiv (flit 1 1) (flit (Z.of_nat n) 1)); mret (loss, keys, values))
     (fun r m' => tape_ok m' /\ extends (reset m) m' /\ has m' r.1.1 (fmul (loss_of M tokens 0 n (flit 0 1) [] []) (fdiv (flit 1 1) (flit (Z.of_nat n) 1))) /\
       cache_shape r.1.2 /\ cache_shape r.2) (reset m)).
  { eapply uses_seq; [apply new_value_uses, reset_ok, Hh|]. intros l0 m1 (Hm1 & E1 & H1).
    eapply uses_seq; [apply (loss_loop_uses md M V tokens n 0 (l0, keys, values) (flit 0 1) [] [])|].
    - split; [done|]. split; [by eapply ext_model|]. split; [done|]. split; by apply shape_cache.
    - done.
    - done.
    - unfold n. lia.
    - unfold n, BLOCK_SIZE. lia.
    - done.
    - done.
    - constructor.
    - constructor.
    - intros [[l k] v] m2 (E2 & ks & vs & Hm2 & Hmd2 & Hl & Hk2 & Hv2). cbn [fst snd] in *.
      eapply uses_seq; [by apply mul_const_uses|]. intros l' m3 (Hm3 & E3 & H3). apply uses_ret. cbn [fst snd].
      split; [done|]. split; [etrans; [exact E1|by etrans]|]. split; [done|]. split; by eapply cache_has_shape. }
  pose proof (loop_cost_bound V n 0 ltac:(unfold V; lia) ltac:(unfold n; lia)) as Hb.
  apply uses_done in Huse as ([[l k] v] & m' & E & Hi & Hm' & He & Hl & Hk' & Hv'); [|cbn [reset node_idx]; unfold MAX_NODES; lia].
  exists l, k, v, m'. split; [exact E|]. split; [done|]. split; [done|]. split; [by rewrite (ext_heap _ _ He)|]. split; [done|]. split; [done|].
  rewrite Hi. cbn [reset node_idx]. lia.
Qed.

(** ** Sampling *)

(** The caches after the positions below [n] have been written by calls that each began
    with an empty tape. *)
Definition stale (c : cache) (n : nat) (ps : list ptr) : Prop :=
  exists l, c !! 0%nat = Some l /\ length l = BLOCK_SIZE /\ forall t, (t < n)%nat -> l !! t = Some (Some <$> ps).

Lemma stale_put c n ps row : stale c n ps -> (n < BLOCK_SIZE)%nat ->
  exists c', put_row c 0 n ps = Some c' /\ stale c' (S n) ps /\ forall m, hass m ps row -> cache_has m c' (replicate (S n) row).
Proof.
  intros (l & Hl & Hn & H) Hlt. destruct (lookup_lt_is_Some_2 l n) as [r Er]; [lia|]. exists (<[0%nat := <[n := Some <$> ps]> l]> c).
  split; [unfold put_row; rewrite Hl; cbn; by rewrite Er|].
  assert (Hc' : <[0%nat := <[n := Some <$> ps]> l]> c !! 0%nat = Some (<[n := Some <$> ps]> l)) by (apply list_lookup_insert_eq; by eapply lookup_lt_Some).
  assert (Hrow : forall t, (t < S n)%nat -> <[n := Some <$> ps]> l !! t = Some (Some <$> ps)).
  { intros t Ht. destruct (decide (t = n)) as [->|]; [apply list_lookup_insert_eq; lia|]. rewrite list_lookup_insert_ne by lia. apply H. lia. }
  split; [exists (<[n := Some <$> ps]> l); split_and!; [done|by rewrite length_insert|done]|].
  intros m Hps. exists (<[n := Some <$> ps]> l). split; [done|]. split; [by rewrite length_insert|]. intros t row' Ht.
  apply lookup_replicate in Ht as [-> Ht]. exists ps. split; [by apply Hrow|done].
Qed.

(** The logits that depend on the current token alone: attention over copies of its own key
    and value. *)
Definition solo (M : modelF F) (token pos : nat) : list F :=
  let x := input_of M (Z.of_nat token) pos in
  gpt_of M (Z.of_nat token) pos (replicate (S pos) (key_of (layerF M) x)) (replicate (S pos) (value_of (layerF M) x)).

(** The choice of a token by its probability. *)
Fixpoint pick_of (probs : list F) (r cdf : F) (k : nat) : nat :=
  match probs with
  | [] => 0
  | p :: l => let cdf := fadd cdf p in if fgt cdf r then k else pick_of l r cdf (S k)
  end.

Context (rand : nat -> Z) (RAND_MAX : Z).

Definition draw (k : nat) : F := fdiv (flit (rand k) 1) (flit RAND_MAX 1).

(** A sample computed from [solo]. *)
Fixpoint sample_of (M : modelF F) (uchars : list Z) (n pos token k : nat) : list Z * nat :=
  match n with
  | O => ([], k)
  | S n =>
      let t := pick_of (softmax_of (solo M token pos)) (draw k) (flit 0 1) 0 in
      if (t =? length uchars)%nat then ([], S k) else
      let '(out, k') := sample_of M uchars n (S pos) t (S k) in
      (nth t uchars 0 :: out, k')
  end.

Lemma pick_uses probs ps r : forall k cdf m l, hass m probs (l ++ ps) -> k = length l ->
  uses 0 (pick probs r cdf k (length ps)) (fun t m' => t = pick_of ps r cdf k /\ m' = m) m.
Proof.
  induction ps as [|p ps IH]; intros k cdf m l H ->; cbn [pick pick_of length]; [by apply uses_ret|].
  eapply uses_elem_has; [exact H|by apply list_lookup_middle|]. intros q Hq. destruct (has_lookup _ _ _ Hq) as (v & E & <-).
  apply (uses_bind 0 0), (uses_load _ _ _ _ E). cbv zeta. destruct (fgt _ r); [by apply uses_ret|].
  apply (IH (S (length l)) _ m (l ++ [data v])); [by rewrite <-app_assoc|rewrite length_app; cbn; lia].
Qed.

Lemma pick_bound ps r : forall cdf k, (pick_of ps r cdf k < k + length ps)%nat \/ pick_of ps r cdf k = 0%nat.
Proof.
  induction ps as [|p ps IH]; intros cdf k; cbn [pick_of length]; [by right|]. destruct (fgt _ r); [left; lia|].
  destruct (IH (fadd cdf p) (S k)) as [H|H]; [left; lia|by right].
Qed.

Lemma reset_has m m' p x : heap m' = heap m -> has (reset m) p x -> has (reset m') p x.
Proof. intros Hh [Hl Hx]. destruct p as [i|j]; [cbn in Hl; lia|]. split; cbn in *; by rewrite Hh. Qed.

Lemma reset_hasss m m' w W : heap m' = heap m -> hasss (reset m) w W -> hasss (reset m') w W.
Proof. intros Hh H. eapply Forall2_impl; [exact H|]. intros l xs Hl. eapply Forall2_impl; [exact Hl|]. intros p x. by apply reset_has. Qed.

(** The parameters stay when the tape is reset. *)
Lemma reset_model m m' md M : heap m' = heap m -> model_has (reset m) md M -> model_has (reset m') md M.
Proof.
  intros Hh [H1 H2 H3 (ly & E & [L1 L2 L3 L4 L5 L6])]. split; try by eapply reset_hasss. exists ly. split; [done|]. split; by eapply reset_hasss.
Qed.

(** One token, when the caches have been filled by calls that each began a new tape. *)
Lemma next_token_spec md M V token pos k keys values m :
  Forall constant (heap m) -> model_has (reset m) md M -> model_dims V M -> (V <= 257)%nat -> (token < V)%nat -> (pos < BLOCK_SIZE)%nat ->
  stale keys pos (key_ptrs 0) -> stale values pos (value_ptrs 0) ->
  exists keys' values' m', next_token rand RAND_MAX md V token pos k keys values m =
      Ret (Done (pick_of (softmax_of (solo M token pos)) (draw k) (flit 0 1) 0, keys', values') m') /\
    heap m' = heap m /\ stale keys' (S pos) (key_ptrs 0) /\ stale values' (S pos) (value_ptrs 0).
Proof.
  intros Hh Hmd Hd HV Ht Hpos Hk Hv. unfold next_token. rewrite bind_run. cbn [zero_tape]. fold (reset m). set (x := input_of M (Z.of_nat token) pos).
  destruct (stale_put keys pos (key_ptrs 0) (key_of (layerF M) x) Hk Hpos) as (keys' & Ek & Hk1 & Hk2).
  destruct (stale_put values pos (value_ptrs 0) (value_of (layerF M) x) Hv Hpos) as (values' & Ev & Hv1 & Hv2).
  pose proof Hd as [_ _ _ [_ L2 L3 _ _ _]].
  assert (Huse : uses (gpt_cost V (S pos) + (2 + V * 6 + 0)) ('(logits, keys, values) ← gpt md V (Z.of_nat token) pos keys values;
      probs ← softmax logits V;
      next_tok ← pick probs (fdiv (flit (rand k) 1) (flit RAND_MAX 1)) (flit 0 1) 0 V; mret (next_tok, keys, values))
    (fun r m' => r = (pick_of (softmax_of (solo M token pos)) (draw k) (flit 0 1) 0%nat, keys', values') /\ heap m' = heap m) (reset m)).
  { eapply uses_seq.
    { apply (gpt_uses md M V (Z.of_nat token) pos keys values keys' values' (replicate (S pos) (key_of (layerF M) x)) (replicate (S pos) (value_of (layerF M) x)));
        try done; rewrite ?length_replicate; try lia; [by apply reset_ok|by eauto|..].
      - apply Forall_replicate. exact (linear_length _ _ _ _ L2).
      - apply Forall_replicate. exact (linear_length _ _ _ _ L3). }
    intros [[lg k1] v1] m1 ((Hm1 & E1 & H1) & Ek1 & Ev1 & _). cbn [fst snd] in *. subst k1 v1. pose proof (gpt_length V M (Z.of_nat token) pos) as Hlen.
    eapply (uses_seq (2 + V * 6)); [apply softmax_uses; [done|exact H1|by apply Hlen]|]. intros probs m2 (Hm2 & E2 & H2).
    assert (Hpl : length (softmax_of (solo M token pos)) = V) by (unfold softmax_of, exps_of, solo; rewrite !length_fmap; by apply Hlen).
    eapply (uses_seq 0 0); [rewrite <-Hpl at 1; apply (pick_uses probs _ _ 0 _ _ []); [exact H2|done]|].
    intros t m3 [-> ->]. apply uses_ret. split; [done|]. by rewrite (ext_heap _ _ E2), (ext_heap _ _ E1). }
  apply uses_done in Huse as (r & m' & E & _ & -> & Hh'); [eauto 8|].
  pose proof (gpt_cost_bound V (S pos) HV ltac:(unfold BLOCK_SIZE in Hpos; lia)). cbn [reset node_idx]. unfold MAX_NODES. lia.
Qed.

Lemma pick_valid V M token pos r : model_dims (S V) M -> (pick_of (softmax_of (solo M token pos)) r (flit 0 1) 0 < S V)%nat.
Proof.
  intros Hd. pose proof (pick_bound (softmax_of (solo M token pos)) r (flit 0 1) 0) as H.
  assert (length (softmax_of (solo M token pos)) = S V) as E by (unfold softmax_of, exps_of, solo; rewrite !length_fmap; by eapply gpt_length).
  lia.
Qed.

(** A sample, when the caches have been filled by calls that each began a new tape. *)
Lemma sample_run md M uchars n : forall pos token k keys values m,
  Forall constant (heap m) -> model_has (reset m) md M -> model_dims (S (length uchars)) M -> (length uchars <= 256)%nat ->
  (token <= length uchars)%nat -> (pos + n <= BLOCK_SIZE)%nat -> stale keys pos (key_ptrs 0) -> stale values pos (value_ptrs 0) ->
  exists keys' values' m', sample rand RAND_MAX md uchars n pos token k keys values m =
      Ret (Done ((sample_of M uchars n pos token k).1, keys', values', (sample_of M uchars n pos token k).2) m') /\
    heap m' = heap m /\ cache_shape keys' /\ cache_shape values'.
Proof.
  induction n as [|n IH]; intros pos token k keys values m Hh Hmd Hd Hu Ht Hn Hk Hv; cbn [sample sample_of].
  { exists keys, values, m. split_and!; try done; [destruct Hk as (l & ? & ? & _)|destruct Hv as (l & ? & ? & _)]; by exists l. }
  destruct (next_token_spec md M (S (length uchars)) token pos k keys values m) as (keys' & values' & m' & E & Hh' & Hk' & Hv'); try done; try lia.
  set (t := pick_of _ _ _ _) in *. pose proof (pick_valid (length uchars) M token pos (draw k) Hd) as Htv. fold t in Htv.
  rewrite bind_run, E. destruct (Nat.eqb_spec t (length uchars)).
  { exists keys', values', m'. split_and!; try done; [destruct Hk' as (l & ? & ? & _)|destruct Hv' as (l & ? & ? & _)]; by exists l. }
  specialize (IH (S pos) t (S k) keys' values' m'). rewrite Hh' in IH. specialize (IH Hh (reset_model _ _ _ _ Hh' Hmd) Hd Hu ltac:(lia) ltac:(lia) Hk' Hv').
  destruct (sample_of M uchars n (S pos) t (S k)) as [out k']. destruct IH as (keys'' & values'' & m'' & E'' & Hr). cbn [fst snd] in *.
  rewrite bind_run, (elem_run _ _ _ _ (nth_total uchars t ltac:(lia))), bind_run, E''. by exists keys'', values'', m''.
Qed.

Lemma stale_0 c ps : cache_shape c -> stale c 0 ps.
Proof. intros (l & H1 & H2). exists l. split_and!; [done|done|lia]. Qed.

(** The samples of the inference loop. *)
Fixpoint samples_of (M : modelF F) (uchars : list Z) (n k : nat) : list (list Z) :=
  match n with
  | O => []
  | S n => let '(out, k') := sample_of M uchars BLOCK_SIZE 0 (length uchars) k in out :: samples_of M uchars n k'
  end.

Lemma samples_run md M uchars n : forall i outs k keys values m,
  Forall constant (heap m) -> model_has (reset m) md M -> model_dims (S (length uchars)) M -> (length uchars <= 256)%nat ->
  cache_shape keys -> cache_shape values ->
  exists keys' values' k' m', fold_from i n (fun _ '(outs, keys, values, k) =>
    '(out, keys, values, k) ← sample rand RAND_MAX md uchars BLOCK_SIZE 0 (length uchars) k keys values;
    mret (outs ++ [out], keys, values, k)) (outs, keys, values, k) m = Ret (Done (outs ++ samples_of M uchars n k, keys', values', k') m') /\ heap m' = heap m.
Proof.
  induction n as [|n IH]; intros i outs k keys values m Hh Hmd Hd Hu Hk Hv; cbn [fold_from samples_of].
  { rewrite app_nil_r. by exists keys, values, k, m. }
  destruct (sample_run md M uchars BLOCK_SIZE 0 (length uchars) k keys values m) as (keys1 & values1 & m1 & E & Hh1 & Hk1 & Hv1); try done; [by apply stale_0..|].
  destruct (sample_of M uchars BLOCK_SIZE 0 (length uchars) k) as [out k1]. cbn [fst snd] in E.
  assert (E1 : ('(out, keys, values, k) ← sample rand RAND_MAX md uchars BLOCK_SIZE 0 (length uchars) k keys values;
    mret (outs ++ [out], keys, values, k)) m = Ret (Done (outs ++ [out], keys1, values1, k1) m1)) by by rewrite bind_run, E.
  rewrite bind_run, E1. destruct (IH (S i) (outs ++ [out]) k1 keys1 values1 m1) as (keys' & values' & k' & m' & E' & Hh'); try done; [by rewrite Hh1|by eapply reset_model|].
  exists keys', values', k', m'. rewrite E', <-app_assoc. split; [done|]. by rewrite Hh'.
Qed.
End gpt.
