(* ===== verification/GptTrain.v ===== *)
(** Training in gpt/microgpt.c: the parameters that a model points to, the invariant of the
    loop of [main] and a whole run of it, and the loading of the data. *)
From S2P Require Import Prelude Arrays Tape TapeInv TapeTopo TapeSafe Gpt GptSpec GptThm.

Section train.
Context {F : Type} `{!Float F}.
Implicit Types (m : mem F).

(** ** The shape of a model: rectangular, every entry one of the first [H] parameters *)

Definition param_ptr (H : nat) (p : ptr) : Prop := match p with Param j => (j < H)%nat | Node _ => False end.

Definition mat_shape (H rows cols : nat) (w : matrix) : Prop :=
  length w = rows /\ Forall (fun row => length row = cols /\ Forall (param_ptr H) row) w.

Record layer_shape (H : nat) (ly : Layer) : Prop := LayerShape {
  ls_wq : mat_shape H N_EMBD N_EMBD (attn_wq ly); ls_wk : mat_shape H N_EMBD N_EMBD (attn_wk ly); ls_wv : mat_shape H N_EMBD N_EMBD (attn_wv ly);
  ls_wo : mat_shape H N_EMBD N_EMBD (attn_wo ly); ls_fc1 : mat_shape H (4 * N_EMBD) N_EMBD (mlp_fc1 ly); ls_fc2 : mat_shape H N_EMBD (4 * N_EMBD) (mlp_fc2 ly)
}.

Record model_shape (H V : nat) (md : model) : Prop := ModelShape {
  ms_wte : mat_shape H V N_EMBD (wte md); ms_wpe : mat_shape H BLOCK_SIZE N_EMBD (wpe md); ms_lm : mat_shape H V N_EMBD (lm_head md);
  ms_layer : exists ly, layers md = [ly] /\ layer_shape H ly
}.

Lemma param_has m p : param_ptr (length (heap m)) p -> exists x, has (reset m) p x.
Proof.
  destruct p as [|j]; [done|]. cbn. intros Hj. destruct (lookup_lt_is_Some_2 (heap m) j Hj) as [v E]. exists (data v). split; [done|]. cbn. by rewrite E.
Qed.

Lemma row_has m row : Forall (param_ptr (length (heap m))) row -> exists xs, hass (reset m) row xs.
Proof.
  induction 1 as [|p row Hp _ (xs & IH)]; [exists []; constructor|]. destruct (param_has m p Hp) as (x & Hx). exists (x :: xs). by constructor.
Qed.

Lemma mat_has m rows cols w : mat_shape (length (heap m)) rows cols w -> exists W, hasss (reset m) w W /\ dims rows cols W.
Proof.
  intros [<- Hw]. induction Hw as [|row w [Hr Hp] _ (W & IH & [H1 H2])]; [exists []; split; [constructor|done]|].
  destruct (row_has m row Hp) as (xs & Hx). exists (xs :: W). split; [by constructor|]. split; [cbn; by rewrite H1|].
  constructor; [|done]. by rewrite <-(hass_length _ _ _ Hx).
Qed.

(** A model of the right shape holds numbers of the right dimensions. *)
Lemma shape_model m V md : model_shape (length (heap m)) V md -> exists M, model_has (reset m) md M /\ model_dims V M.
Proof.
  intros [(W1 & A1 & B1)%mat_has (W2 & A2 & B2)%mat_has (W3 & A3 & B3)%mat_has (ly & E & [(L1 & C1 & D1)%mat_has (L2 & C2 & D2)%mat_has
    (L3 & C3 & D3)%mat_has (L4 & C4 & D4)%mat_has (L5 & C5 & D5)%mat_has (L6 & C6 & D6)%mat_has])].
  exists (mkModelF W1 W2 W3 (mkLayerF L1 L2 L3 L4 L5 L6)). split; [|by split]. split; try done. exists ly. by split.
Qed.

(** ** Loops over the parameters *)

Definition heap_with m (h : list (Value F)) : mem F := Mem (node_pool m) (node_idx m) h (topo m).

Lemma clear_loop m n : forall i h, (i + n <= length h)%nat ->
  exists h', for_from i n (fun i => store (Param i) (set_grad (flit 0 1))) (heap_with m h) = Ret (Done tt (heap_with m h')) /\ length h' = length h /\
    forall j v, h !! j = Some v -> h' !! j = Some (if decide (i <= j < i + n)%nat then set_grad (flit 0 1) v else v).
Proof.
  induction n as [|n IH]; intros i h Hn; cbn [for_from].
  - exists h. split_and!; [done|done|]. intros j v Hj. by rewrite decide_False by lia.
  - destruct (lookup_lt_is_Some_2 h i) as [w Ew]; [lia|]. rewrite (bind_done _ _ _ _ _ (store_done (heap_with m h) (Param i) w _ Ew)).
    destruct (IH (S i) (<[i := set_grad (flit 0 1) w]> h)) as (h' & E & Hl & H); [rewrite length_insert; lia|].
    rewrite length_insert in Hl. exists h'. split; [exact E|]. split; [done|]. intros j v Hj. destruct (decide (j = i)) as [->|Hne].
    + rewrite (H i (set_grad (flit 0 1) w)) by (apply list_lookup_insert_eq; lia). rewrite decide_False by lia. rewrite decide_True by lia. congruence.
    + rewrite (H j v) by (by rewrite list_lookup_insert_ne). repeat case_decide; (done || lia).
Qed.

(** Only data and gradients of parameters change, and the data of no parameter that the
    tape has read. *)
Lemma heap_with_ok m h : tape_ok m -> Forall2 (fun v v' => data v' = data v /\ constant v') (heap m) h -> tape_ok (heap_with m h).
Proof.
  intros [H1 H2 H3] Hh. pose proof (Forall2_length _ _ _ Hh) as Hlen.
  assert (Hhas : forall p x, has m p x -> has (heap_with m h) p x).
  { intros [i|j] x [Hl Hx]; [done|]. cbn in Hl, Hx. split; [cbn; lia|]. cbn. destruct (heap m !! j) as [v|] eqn:E; [|done].
    destruct (Forall2_lookup_l _ _ _ _ _ Hh E) as (v' & -> & Hd & _). cbn in *. by rewrite Hd. }
  assert (Hlive : forall p, live m p -> live (heap_with m h) p) by (intros [|]; cbn; lia).
  assert (Hb : forall i p, below m i p -> below (heap_with m h) i p) by (intros i p [Hl Hp]; split; [auto|destruct p; done]).
  split; [done| |].
  - cbn. apply Forall_lookup. intros j v' Hj. by destruct (Forall2_lookup_r _ _ _ _ _ Hh Hj) as (v & _ & _ & Hc).
  - intros i v Hi E. destruct (H3 i v Hi E) as (Hc & Hg). split; [|done]. unfold computes in *. destruct (op v); naive_solver.
Qed.

Lemma constant_grad x (v : Value F) : constant v -> constant (set_grad x v).
Proof. by destruct v. Qed.

(** [clear_grads] after the forward pass: all is ready for the backward pass. *)
Lemma clear_grads_ready m root : tape_ok m -> live m root -> Z.of_nat (length (heap m)) <= MAX_PARAMS -> Z.of_nat (node_idx m) <= 500000 ->
  exists m', clear_grads m = Ret (Done tt m') /\ backward_ready m' root /\ node_pool m' = node_pool m /\
    Forall2 (fun v v' => v' = set_grad (flit 0 1) v) (heap m) (heap m').
Proof.
  intros Hm Hr Hp Hi. unfold clear_grads. rewrite (bind_done memory _ m m m eq_refl).
  assert (param_count m = length (heap m)) as -> by (unfold param_count; lia).
  destruct (clear_loop m (length (heap m)) 0 (heap m)) as (h' & E & Hl & H); [lia|].
  assert (m = heap_with m (heap m)) as Hmm by by destruct m. rewrite <-Hmm in E. exists (heap_with m h'). split; [exact E|].
  assert (Hh : Forall2 (fun v v' => v' = set_grad (flit 0 1) v) (heap m) h').
  { apply Forall2_same_length_lookup_2; [done|]. intros j v v' Hv Hv'. rewrite (H j v Hv) in Hv'. apply lookup_lt_Some in Hv.
    rewrite decide_True in Hv' by lia. congruence. }
  split; [|done]. split.
  - apply heap_with_ok; [done|]. apply Forall2_same_length_lookup_2; [done|]. intros j v v' Hv Hv'.
    rewrite (Forall2_lookup_lr _ _ _ _ _ _ Hh Hv Hv'). split; [done|]. apply constant_grad. by eapply Forall_lookup_1; [apply Hm|].
  - destruct root; cbn in *; lia.
  - cbn [heap_with node_idx heap]. unfold MAX_PARAMS, MAX_NODES in *. lia.
  - cbn. by rewrite Hl.
  - cbn. apply Forall_lookup. intros j v' Hj. by destruct (Forall2_lookup_r _ _ _ _ _ Hh Hj) as (v & _ & ->).
Qed.

(** ** The optimiser *)

(** The update of a parameter with gradient [grad p] and moments [a] and [b]. *)
Definition first_moment (a g : F) : F := fadd (fmul beta1 a) (fmul (fsub (flit 1 1) beta1) g).
Definition second_moment (b g : F) : F := fadd (fmul beta2 b) (fmul (fmul (fsub (flit 1 1) beta2) g) g).
Definition adam_of (step : Z) (a b : F) (p : Value F) : Value F :=
  let m_hat := fdiv (first_moment a (grad p)) (fsub (flit 1 1) (powf beta1 (flit (step + 1) 1))) in
  let v_hat := fdiv (second_moment b (grad p)) (fsub (flit 1 1) (powf beta2 (flit (step + 1) 1))) in
  let lr_t := fmul (flit 1 100) (fsub (flit 1 1) (fdiv (flit step 1) (flit num_steps 1))) in
  set_data (fsub (data p) (fdiv (fmul lr_t m_hat) (fadd (sqrtf v_hat) (flit 1 100000000)))) p.

(** One parameter after the loop over those from [i] on. *)
Definition adam_at (step : Z) (i n : nat) (h h' : list (Value F)) (ms ms' vs vs' : list F) : Prop :=
  length h' = length h /\ length ms' = length ms /\ length vs' = length vs /\
  forall j p a b, h !! j = Some p -> ms !! j = Some a -> vs !! j = Some b ->
    if decide (i <= j < i + n)%nat then h' !! j = Some (adam_of step a b p) /\ ms' !! j = Some (first_moment a (grad p)) /\ vs' !! j = Some (second_moment b (grad p))
    else h' !! j = Some p /\ ms' !! j = Some a /\ vs' !! j = Some b.

Lemma adam_loop step m n : forall i h ms vs, (i + n <= length h)%nat -> (length h <= length ms)%nat -> (length h <= length vs)%nat ->
  exists h' ms' vs', fold_from i n (adam_one step) (ms, vs) (heap_with m h) = Ret (Done (ms', vs') (heap_with m h')) /\ adam_at step i n h h' ms ms' vs vs'.
Proof.
  induction n as [|n IH]; intros i h ms vs Hn Hms Hvs; cbn [fold_from].
  - exists h, ms, vs. split; [done|]. split_and!; [done..|]. intros j p a b. by rewrite decide_False by lia.
  - destruct (lookup_lt_is_Some_2 h i) as [w Ew]; [lia|]. destruct (lookup_lt_is_Some_2 ms i) as [a0 Ea]; [lia|]. destruct (lookup_lt_is_Some_2 vs i) as [b0 Eb]; [lia|].
    assert (E1 : adam_one step i (ms, vs) (heap_with m h) =
      Ret (Done (<[i := first_moment a0 (grad w)]> ms, <[i := second_moment b0 (grad w)]> vs) (heap_with m (<[i := adam_of step a0 b0 w]> h)))).
    { unfold adam_one. rewrite (bind_done _ _ _ _ _ (load_done (heap_with m h) (Param i) w Ew)), (bind_done _ _ _ _ _ (elem_run _ _ _ _ Ea)),
        (bind_done _ _ _ _ _ (elem_run _ _ _ _ Eb)), (bind_done _ _ _ _ _ (store_done (heap_with m h) (Param i) w _ Ew)). done. }
    rewrite (bind_done _ _ _ _ _ E1).
    destruct (IH (S i) (<[i := adam_of step a0 b0 w]> h) (<[i := first_moment a0 (grad w)]> ms) (<[i := second_moment b0 (grad w)]> vs))
      as (h' & ms' & vs' & E & Hl1 & Hl2 & Hl3 & H); rewrite ?length_insert in *; [lia..|].
    exists h', ms', vs'. split; [exact E|]. split_and!; [done..|]. intros j p a b Hp Ha Hb. destruct (decide (j = i)) as [->|Hne].
    + specialize (H i (adam_of step a0 b0 w) (first_moment a0 (grad w)) (second_moment b0 (grad w))).
      rewrite !list_lookup_insert_eq, decide_False in H by lia. rewrite decide_True by lia. simplify_eq. by apply H.
    + specialize (H j p a b). rewrite !list_lookup_insert_ne in H by done. specialize (H Hp Ha Hb). repeat case_decide; (done || lia).
Qed.

Lemma adam_run step m ms vs : Z.of_nat (length (heap m)) <= MAX_PARAMS -> (length (heap m) <= length ms)%nat -> (length (heap m) <= length vs)%nat ->
  exists h' ms' vs', adam step (ms, vs) m = Ret (Done (ms', vs') (heap_with m h')) /\ adam_at step 0 (length (heap m)) (heap m) h' ms ms' vs vs'.
Proof.
  intros Hp Hms Hvs. unfold adam. rewrite (bind_done memory _ m m m eq_refl).
  assert (param_count m = length (heap m)) as -> by (unfold param_count; lia).
  destruct (adam_loop step m (length (heap m)) 0 (heap m) ms vs) as (h' & ms' & vs' & E & H); [lia..|].
  exists h', ms', vs'. split; [|done]. rewrite <-E. by destruct m.
Qed.

(** ** A step and the whole run *)

(** What holds between two steps. *)
Record train_inv (md : model) (uchars : list Z) (docs : list (list Z)) (s : state F) m : Prop := TrainInv {
  ti_params : Forall constant (heap m);
  ti_count : Z.of_nat (length (heap m)) <= MAX_PARAMS;
  ti_model : model_shape (length (heap m)) (S (length uchars)) md;
  ti_chars : (length uchars <= 256)%nat;
  ti_docs : docs <> [] /\ Forall (Forall (fun c => c ∈ uchars)) docs;
  ti_keys : cache_shape (cache_k s);
  ti_values : cache_shape (cache_v s);
  ti_adam : (length (heap m) <= length (adam_m s))%nat /\ (length (heap m) <= length (adam_v s))%nat
}.

Lemma shape_constant m m' : shape m m' -> Forall constant (heap m) -> Forall constant (heap m').
Proof.
  intros (_ & Hl & H) Hc. apply Forall_lookup. intros j v' Hj. specialize (H (Param j)). cbn [lookup_ptr] in H. rewrite Hj in H.
  destruct (heap m !! j) as [v|] eqn:E; [|done]. apply (inj Some), strip_fields in H as (_ & H0 & H1 & Ho & _).
  destruct (Forall_lookup_1 _ _ _ _ Hc E) as (C1 & C2 & C3). split; [congruence|]. split; congruence.
Qed.

(** What a step does: [m1] is the memory after the forward pass and [m2] after the gradients
    have been cleared and the backward pass has run. *)
Definition step_result (md : model) (uchars doc : list Z) (step : Z) (s : state F) m (s' : state F) m' : Prop :=
  exists M loss m1 m1' m2, model_has (reset m) md M /\ model_dims (S (length uchars)) M /\ has m1 loss (doc_loss M uchars doc) /\
    clear_grads m1 = Ret (Done tt m1') /\ backward_ready m1' loss /\ backward loss m1' = Ret (Done tt m2) /\
    adam_at step 0 (length (heap m)) (heap m2) (heap m') (adam_m s) (adam_m s') (adam_v s) (adam_v s').

(** A step runs on every document of the data and keeps the invariant. *)
Lemma train_step_ok md uchars docs step s m : train_inv md uchars docs s m -> 0 <= step ->
  exists doc s' m', docs !! (Z.to_nat step mod length docs)%nat = Some doc /\ train_step md uchars docs step s m = Ret (Done s' m') /\
    train_inv md uchars docs s' m' /\ step_result md uchars doc step s m s' m'.
Proof.
  intros [I1 I2 I3 I4 [I5 I5'] I6 I7 [I8 I9]] Hstep. destruct docs as [|d0 docs0]; [done|]. set (docs := d0 :: docs0) in *.
  destruct (lookup_lt_is_Some_2 docs (Z.to_nat step mod length docs)) as [doc Ed]; [apply Nat.mod_upper_bound; done|].
  pose proof (Forall_lookup_1 _ _ _ _ I5' Ed) as Hdoc. destruct (shape_model m _ md I3) as (M & HM & HD).
  destruct (step_loss_spec md M uchars doc (cache_k s) (cache_v s) m) as (loss & k & v & m1 & E1 & Hm1 & Hl & Hh1 & Hk & Hv & Hi); try done.
  destruct (clear_grads_ready m1 loss) as (m1' & E2 & Hrd & Hpool & Hclr); [done|apply Hl|by rewrite Hh1|done|]. rewrite Hh1 in Hclr.
  pose proof (Forall2_length _ _ _ Hclr) as Hlen. destruct (backward_runs m1' loss Hrd) as (m2 & E3 & Hs & _). pose proof Hs as (_ & Hl2 & _).
  destruct (adam_run step m2 (adam_m s) (adam_v s)) as (h' & ms & vs & E4 & Ha); [by rewrite Hl2, <-Hlen|lia|lia|]. rewrite Hl2, <-Hlen in Ha.
  exists doc, (mkState k v ms vs), (heap_with m2 h'). split; [done|]. split.
  { unfold train_step. change (length docs =? 0)%nat with false. cbv iota. rewrite (bind_done _ _ _ _ _ (elem_run _ _ _ m Ed)), (bind_done _ _ _ _ _ E1), (bind_done _ _ _ _ _ E2),
      (bind_done _ _ _ _ _ E3), (bind_done _ _ _ _ _ E4). done. }
  pose proof Ha as (A1 & A2 & A3 & A4). assert (Hlh : length h' = length (heap m)) by lia. split.
  - split; cbn [heap_with heap cache_k cache_v adam_m adam_v]; rewrite ?Hlh, ?A2, ?A3; try done.
    apply Forall_lookup. intros j p Hj. pose proof (lookup_lt_Some _ _ _ Hj). destruct (lookup_lt_is_Some_2 (heap m2) j) as [p0 E0]; [lia|].
    destruct (lookup_lt_is_Some_2 (adam_m s) j) as [a Ea]; [lia|]. destruct (lookup_lt_is_Some_2 (adam_v s) j) as [b Eb]; [lia|].
    specialize (A4 j p0 a b E0 Ea Eb). rewrite decide_True in A4 by lia. destruct A4 as [A4 _]. rewrite Hj in A4. injection A4 as ->.
    assert (constant p0) by (eapply Forall_lookup_1; [eapply shape_constant; [exact Hs|apply Hrd]|done]). by destruct p0.
  - exists M, loss, m1, m1', m2. done.
Qed.

(** The steps from [i] on, of which there are [n]. *)
Inductive steps (md : model) (uchars : list Z) (docs : list (list Z)) : nat -> nat -> state F -> mem F -> state F -> mem F -> Prop :=
| steps_nil i s m : steps md uchars docs i 0 s m s m
| steps_cons i n doc s m s1 m1 s2 m2 : docs !! (i mod length docs)%nat = Some doc -> step_result md uchars doc (Z.of_nat i) s m s1 m1 ->
    steps md uchars docs (S i) n s1 m1 s2 m2 -> steps md uchars docs i (S n) s m s2 m2.

(** A whole run. *)
Lemma train_ok md uchars docs s m : train_inv md uchars docs s m ->
  exists s' m', train md uchars docs s m = Ret (Done s' m') /\ train_inv md uchars docs s' m' /\ steps md uchars docs 0 100 s m s' m'.
Proof.
  unfold train. change (Z.to_nat num_steps) with 100%nat. generalize 100%nat. generalize 0%nat. intros i n. revert i s m.
  induction n as [|n IH]; intros i s m Hinv; cbn [fold_from]; [exists s, m; split; [done|split; [done|apply steps_nil]]|].
  destruct (train_step_ok md uchars docs (Z.of_nat i) s m Hinv) as (doc & s1 & m1 & Hd & E & H1 & Hr); [lia|]. rewrite Nat2Z.id in Hd.
  destruct (IH (S i) s1 m1 H1) as (s' & m' & E' & H' & Hs). exists s', m'. split; [by rewrite (bind_done _ _ _ _ _ E)|]. split; [done|]. by econstructor.
Qed.
End train.
