(* ===== verification/GptMain.v ===== *)
(** The program of gpt/microgpt.c from end to end: the initialisation makes a model of the
    right shape, the data that is loaded has the properties that training needs, and the
    run of [main] after that. *)
From S2P Require Import Prelude Arrays Tape TapeInv TapeTopo TapeSafe Gpt GptSpec GptThm GptTrain.

(** ** The data *)

Lemma fgets_split n : forall l a b, fgets n l = (a, b) -> a ++ b = l /\ (length a <= n)%nat /\ (l <> [] -> n <> 0%nat -> a <> []) /\ (forall x y, a = x ++ 10 :: y -> y = []).
Proof.
  induction n as [|n IH]; intros [|c l] a b E; cbn [fgets] in E; [injection E as <- <-; split_and!; (done || cbn; lia || by intros [|])..|].
  destruct (Z.eqb_spec c 10) as [->|Hc]; [simplify_eq; split_and!; [done|cbn; lia|done|]|].
  - intros [|? [|]] y; cbn; intros E; simplify_eq; done.
  - destruct (fgets n l) as [a' b'] eqn:Ef. injection E as <- <-. destruct (IH l a' b' Ef) as (<- & Hl & _ & Hn). split_and!; [done|cbn; lia|done|].
    intros [|d x] y E; cbn in E; simplify_eq. by eapply Hn.
Qed.

Lemma cstring_prefix l : exists r, l = cstring l ++ r.
Proof.
  induction l as [|c l (r & IH)]; cbn; [by exists []|]. destruct (c =? 0); [by exists (c :: l)|]. exists r. cbn. by f_equal.
Qed.

Lemma cstring_nonzero l : 0 ∉ cstring l.
Proof. induction l as [|c l IH]; cbn; [by apply not_elem_of_nil|]. destruct (Z.eqb_spec c 0); [by apply not_elem_of_nil|]. by apply not_elem_of_cons. Qed.

Lemma chomp_prefix l : l = chomp l \/ l = chomp l ++ [10].
Proof.
  unfold chomp. destruct (last l) as [z|] eqn:E; [|by left]. destruct (decide (z = 10)) as [->|Hz].
  - right. apply last_Some in E as (l' & ->). by rewrite removelast_last.
  - left. destruct z as [|p|p]; try done. repeat (destruct p as [p|p|]; try done).
Qed.

(** A line of the file as it is kept: a non-empty string of at most 255 bytes without
    newlines or zeros. *)
Definition doc_ok (d : list Z) : Prop := d <> [] /\ (length d <= 255)%nat /\ Forall (fun c => 0 < c < 256 /\ c <> 10) d.

Lemma line_ok file line rest : Forall (fun c => 0 <= c < 256) file -> fgets 255 file = (line, rest) -> chomp (cstring line) <> [] -> doc_ok (chomp (cstring line)).
Proof.
  intros Hf E Hne. destruct (fgets_split _ _ _ _ E) as (<- & Hl & _ & Hnl). destruct (cstring_prefix line) as (r & Er). pose proof (cstring_nonzero line) as H0.
  set (s := cstring line) in *. assert (Hs : (length s <= 255)%nat) by (rewrite Er, length_app in Hl; lia).
  assert (Hb : Forall (fun c => 0 <= c < 256) s) by (apply Forall_app in Hf as [Hf _]; rewrite Er in Hf; by apply Forall_app in Hf as [Hf _]).
  assert (Hp : exists t, s = chomp s ++ t /\ (10 ∈ chomp s -> False)).
  { destruct (chomp_prefix s) as [Ec|Ec].
    - exists []. rewrite app_nil_r. split; [done|]. intros (x & y & Ex)%list_elem_of_split. rewrite Ex in Ec. rewrite Er, Ec, <-app_assoc in Hnl. cbn in Hnl.
      specialize (Hnl _ _ eq_refl). apply app_eq_nil in Hnl as [-> _]. subst s. rewrite Ec in Ex. unfold chomp in Ex. rewrite last_snoc, removelast_last in Ex.
      apply (f_equal length) in Ex. rewrite length_app in Ex. cbn in Ex. lia.
    - exists [10]. split; [done|]. intros (x & y & Ex)%list_elem_of_split. rewrite Ex in Ec. rewrite Er, Ec, <-!app_assoc in Hnl. cbn in Hnl.
      specialize (Hnl _ _ eq_refl). destruct y; done. }
  destruct Hp as (t & Et & H10). split; [done|]. split; [rewrite Et, length_app in Hs; lia|]. rewrite Et in Hb. apply Forall_app in Hb as [Hb _].
  apply Forall_forall. intros c Hc. rewrite Forall_forall in Hb. specialize (Hb c Hc). assert (c <> 0).
  { intros ->. apply H0. rewrite Et. apply elem_of_app. by left. }
  split; [lia|]. intros ->. by apply H10.
Qed.

Lemma load_loop_ok fuel : forall file docs, (length file < fuel)%nat -> Forall (fun c => 0 <= c < 256) file -> Forall doc_ok docs -> (length docs < MAX_DOCS)%nat ->
  exists docs', load_loop fuel file docs = Ret docs' /\ Forall doc_ok docs' /\ (length docs' <= MAX_DOCS)%nat.
Proof.
  induction fuel as [|n IH]; intros file docs Hn Hf Hd Hlen; [lia|]. cbn [load_loop]. destruct file as [|c0 file0]; [exists docs; split_and!; (done || lia)|].
  set (file := c0 :: file0) in *. destruct (fgets 255 file) as [line rest] eqn:E. destruct (fgets_split _ _ _ _ E) as (Ef & _ & Hne & _).
  assert (line <> []) by (by apply Hne). assert (Hr : (length rest < n)%nat).
  { rewrite <-Ef, length_app in Hn. destruct line; [done|cbn in Hn; lia]. }
  assert (Hfr : Forall (fun c => 0 <= c < 256) rest) by (rewrite <-Ef in Hf; by apply Forall_app in Hf as [_ Hf]).
  pose proof (line_ok file line rest Hf E) as Hok. destruct (chomp (cstring line)) as [|c s]; [by apply IH|]. cbv zeta. specialize (Hok ltac:(done)).
  assert (Hd' : Forall doc_ok (docs ++ [c :: s])) by (apply Forall_app; split; [done|by apply Forall_singleton]).
  assert (Hl' : length (docs ++ [c :: s]) = S (length docs)) by (rewrite length_app; cbn; lia).
  destruct (Nat.leb_spec MAX_DOCS (length (docs ++ [c :: s]))); [eexists; split_and!; [done|done|lia]|]. apply IH; (done || lia).
Qed.

(** The data that training needs, and [char_to_id] as the inverse of [uchars]. *)
Lemma load_data_ok file : Forall (fun c => 0 <= c < 256) file ->
  exists docs uchars, load_data file = Ret (docs, uchars) /\ Forall doc_ok docs /\ (length docs <= MAX_DOCS)%nat /\
    Forall (Forall (fun c => c ∈ uchars)) docs /\ (length uchars <= 256)%nat.
Proof.
  intros Hf. unfold load_data. destruct (load_loop_ok (S (length file)) file []) as (docs & E & Hd & Hl); [lia|done|constructor|unfold MAX_DOCS; cbn; lia|].
  rewrite E. eexists docs, _. split; [reflexivity|]. split; [done|]. split; [done|]. split.
  - apply Forall_forall. intros d Hin. apply Forall_forall. intros c Hc. apply list_elem_of_filter. split.
    + apply list_elem_of_In, in_concat. exists d. by split; apply list_elem_of_In.
    + rewrite Forall_forall in Hd. destruct (Hd d Hin) as (_ & _ & Hb). rewrite Forall_forall in Hb. specialize (Hb c Hc). apply elem_of_seqZ. lia.
  - etrans; [apply length_filter|]. rewrite length_seqZ. lia.
Qed.

(** ** Initialisation *)

Section main.
Context {F : Type} `{!Float F} (rand : nat -> Z) (RAND_MAX : Z) (fresh : nat -> Value F).
Implicit Types (m : mem F).

Lemma random_normal_total fuel : forall k, random_normal rand RAND_MAX fuel k = UB -> False.
Proof. induction fuel as [|n IH]; intros k E; [done|]. cbn [random_normal] in E. destruct (_ || _); [by eapply IH|done]. Qed.

(** [c] allocates [n] parameters and gives a result with [Q]. *)
Definition grows {A} (n : nat) (c : prog F A) (Q : A -> nat -> Prop) m : Prop :=
  exists a m', c m = Ret (Done a m') /\ length (heap m') = (length (heap m) + n)%nat /\
    (Forall constant (heap m) -> Forall constant (heap m')) /\ Q a (length (heap m')).

Lemma grows_ret {A} (a : A) (Q : A -> nat -> Prop) m : Q a (length (heap m)) -> grows 0 (mret a) Q m.
Proof. intros H. exists a, m. split_and!; (done || lia). Qed.

Lemma grows_bind {A B} n1 n2 (c : prog F A) (f : A -> prog F B) P Q m :
  grows n1 c P m -> (forall a m', P a (length (heap m')) -> grows n2 (f a) Q m') -> grows (n1 + n2) (c ≫= f) Q m.
Proof.
  intros (a & m1 & E & Hl & Hc & Ha) Hf; unfold grows; rewrite bind_run, E.
  destruct (Hf a m1 Ha) as (b & m2 & E2 & Hl2 & Hc2 & Hb). exists b, m2. split_and!; [done|lia|auto|done].
Qed.

Lemma grows_fold {A} (I : nat -> A -> nat -> Prop) k n (f : nat -> A -> prog F A) :
  (forall j a m, I j a (length (heap m)) -> grows k (f j a) (I (S j)) m) ->
  forall i a m, I i a (length (heap m)) -> grows (n * k) (fold_from i n f a) (I (i + n)%nat) m.
Proof.
  intros Hf. induction n as [|n IH]; intros i a m Ha; cbn [fold_from Nat.mul]; [apply grows_ret; by rewrite Nat.add_0_r|].
  eapply grows_bind; [by apply Hf|]. intros b m1 Hb. replace (i + S n)%nat with (S i + n)%nat by lia. by apply IH.
Qed.

Lemma param_ptr_mono H H' p : (H <= H')%nat -> param_ptr H p -> param_ptr H' p.
Proof. destruct p; cbn; lia. Qed.

Lemma mat_shape_mono H H' rows cols w : (H <= H')%nat -> mat_shape H rows cols w -> mat_shape H' rows cols w.
Proof.
  intros Hle [H1 H2]. split; [done|]. eapply Forall_impl; [exact H2|]. intros row [Hl Hr]. split; [done|]. eapply Forall_impl; [exact Hr|].
  intros p. by apply param_ptr_mono.
Qed.

Definition row_shape (H cols : nat) (row : list ptr) : Prop := length row = cols /\ Forall (param_ptr H) row.

Lemma grows_len {A} n (c : prog F A) Q m : grows n c Q m -> grows n c (fun a H => Q a H /\ H = (length (heap m) + n)%nat) m.
Proof. intros (a & m' & E & Hl & Hc & Ha). exists a, m'. split_and!; done. Qed.

(** The draws of [random_normal] are accepted within the fuel, wherever they begin. *)
Context (fuel : nat) (Hrand : forall k, random_normal rand RAND_MAX fuel k <> Fuel).

Lemma init_row_grows cols k m : grows cols (init_row rand RAND_MAX fresh fuel cols k) (fun r H => row_shape H cols r.1) m.
Proof.
  unfold init_row. replace cols with (cols * 1)%nat at 1 by lia. apply (grows_fold (fun j r H => row_shape H j r.1) 1 cols); [|by split].
  intros j [row k'] m1 [Hl Hr]. unfold grows. cbv beta iota. rewrite bind_run. unfold lift. destruct (random_normal rand RAND_MAX fuel k') as [[x k1]| |] eqn:E.
  - eexists _, _. split; [reflexivity|]. cbn [heap fst]. rewrite length_app. cbn [length]. split; [done|]. split.
    + intros Hc. apply Forall_app. split; [done|]. apply Forall_singleton. done.
    + split; [rewrite length_app; cbn in *; lia|]. apply Forall_app. split; [|apply Forall_singleton; cbn; lia].
      eapply Forall_impl; [exact Hr|]. intros p. apply param_ptr_mono. lia.
  - by apply random_normal_total in E.
  - by apply Hrand in E.
Qed.

Lemma init_matrix_grows rows cols k m : grows (rows * cols) (init_matrix rand RAND_MAX fresh fuel rows cols k) (fun r H => mat_shape H rows cols r.1) m.
Proof.
  unfold init_matrix. apply (grows_fold (fun j r H => mat_shape H j cols r.1) cols rows); [|by split].
  intros j [mat k'] m1 Hm. replace cols with (cols + 0)%nat at 1 by lia. eapply grows_bind; [apply grows_len, init_row_grows|].
  intros [row k1] m2 [[Hl Hr] Hlen]. cbn [fst] in *. apply grows_ret. apply (mat_shape_mono _ (length (heap m2))) in Hm as [H1 H2]; [|lia].
  split; [cbn [fst]; rewrite length_app; cbn [length]; lia|]. apply Forall_app. split; [done|]. by apply Forall_singleton.
Qed.

Lemma layer_shape_mono H H' ly : (H <= H')%nat -> layer_shape H ly -> layer_shape H' ly.
Proof. intros Hle [H1 H2 H3 H4 H5 H6]. split; by eapply mat_shape_mono. Qed.

(** A matrix after which a program goes on, with what is known of earlier ones. *)
Lemma grows_matrix {B} n rows cols k (f : matrix * nat -> prog F B) Q m :
  (forall w k' m', (length (heap m) <= length (heap m'))%nat -> mat_shape (length (heap m')) rows cols w -> grows n (f (w, k')) Q m') ->
  grows (rows * cols + n) (r ← init_matrix rand RAND_MAX fresh fuel rows cols k; f r) Q m.
Proof.
  intros Hf. eapply grows_bind; [apply grows_len, init_matrix_grows|]. intros [w k'] m' [Hw Hl]. apply Hf; [lia|done].
Qed.

Lemma grows_cost {A} n n' (c : prog F A) Q m : n = n' -> grows n c Q m -> grows n' c Q m.
Proof. by intros ->. Qed.

Definition layer_params : nat := 4 * (N_EMBD * N_EMBD) + 2 * (4 * N_EMBD * N_EMBD).

Lemma init_layer_grows k m : grows layer_params (init_layer rand RAND_MAX fresh fuel k) (fun r H => layer_shape H r.1) m.
Proof.
  unfold init_layer. eapply grows_cost; cycle 1.
  { apply grows_matrix. intros wq k1 m1 _ H1. cbv beta iota. apply grows_matrix. intros wk k2 m2 L2 H2. cbv beta iota.
    apply grows_matrix. intros wv k3 m3 L3 H3. cbv beta iota. apply grows_matrix. intros wo k4 m4 L4 H4. cbv beta iota.
    apply grows_matrix. intros f1 k5 m5 L5 H5. cbv beta iota. apply grows_matrix. intros f2 k6 m6 L6 H6. cbv beta iota.
    apply grows_ret. split; cbn [fst attn_wq attn_wk attn_wv attn_wo mlp_fc1 mlp_fc2]; (eapply mat_shape_mono; [|eassumption]; lia). }
  unfold layer_params. lia.
Qed.

(** The number of parameters. *)
Definition model_params (V : nat) : nat := 2 * (V * N_EMBD) + BLOCK_SIZE * N_EMBD + layer_params.

Lemma init_model_grows V k m : grows (model_params V) (init_model rand RAND_MAX fresh fuel V k) (fun r H => model_shape H V r.1) m.
Proof.
  unfold init_model. eapply grows_cost; cycle 1.
  { apply grows_matrix. intros te k1 m1 _ H1. cbv beta iota. apply grows_matrix. intros pe k2 m2 L2 H2. cbv beta iota.
    apply grows_matrix. intros lh k3 m3 L3 H3. cbv beta iota. cbn [N_LAYER fold_from]. eapply grows_bind.
    { eapply grows_bind; [|intros a m' Ha; apply grows_ret; exact Ha]. cbv beta iota.
      eapply (grows_bind _ 0 _ _ (fun r H => layer_shape H r.1 /\ (length (heap m3) <= H)%nat) (fun r H => exists ly, r.1 = [ly] /\ layer_shape H ly /\ (length (heap m3) <= H)%nat)).
      - destruct (init_layer_grows k3 m3) as (a & m' & E & Hl & Hc & Ha). exists a, m'. split_and!; try done. lia.
      - intros [l k4] m' [Hl Hle]. apply grows_ret. by exists l. }
    intros [ls k4] m4 (ly & E & Hly & L4). apply grows_ret. cbn [fst] in *. subst ls. split; cbn [wte wpe lm_head layers];
      try (eapply mat_shape_mono; [|eassumption]; lia). by exists ly. }
  unfold model_params. lia.
Qed.

(** ** The run *)

(** C12. Sampling forgets its prefix.  The tape is reset before every token while the caches
    keep pointers into it, so the rows of the earlier positions are the nodes of the current
    key and value: each token is drawn from logits in which attention sees copies of the
    current position only, whatever was generated before. *)
Theorem sampling_forgets md M uchars keys values k m :
  Forall constant (heap m) -> model_has (reset m) md M -> model_dims (S (length uchars)) M -> (length uchars <= 256)%nat ->
  cache_shape keys -> cache_shape values ->
  exists keys' values' k' m', inference rand RAND_MAX md uchars keys values k m =
    Ret (Done (samples_of rand RAND_MAX M uchars 20 k, keys', values', k') m') /\ heap m' = heap m.
Proof. intros Hc Hm Hd Hu Hk Hv. exact (samples_run rand RAND_MAX md M uchars 20 0 [] k keys values m Hc Hm Hd Hu Hk Hv). Qed.

Definition empty_mem : mem F := Mem [] 0 [] [].
Definition start_state : state F :=
  mkState new_cache new_cache (replicate (Z.to_nat MAX_PARAMS) (flit 0 1)) (replicate (Z.to_nat MAX_PARAMS) (flit 0 1)).

Lemma start_inv docs uchars md m : docs <> [] -> Forall (Forall (fun c => c ∈ uchars)) docs -> (length uchars <= 207)%nat ->
  length (heap m) = model_params (S (length uchars)) -> Forall constant (heap m) -> model_shape (length (heap m)) (S (length uchars)) md ->
  train_inv md uchars docs start_state m.
Proof.
  intros Hne Hd Hu Hl Hc Hs. assert (Hp : Z.of_nat (length (heap m)) <= MAX_PARAMS).
  { rewrite Hl. unfold model_params, layer_params, N_EMBD, BLOCK_SIZE, MAX_PARAMS. lia. }
  split; try done; [lia|..]; try (by eexists); cbn [start_state adam_m adam_v]; rewrite length_replicate; lia.
Qed.

(** C9. The program from a file of at least one line and at most 207 characters: when
    every draw of [random_normal] is accepted within the fuel, it initialises, trains for a hundred steps over the documents of the file and
    prints twenty samples of the model that is left. *)
Theorem main_spec file docs uchars : Forall (fun c => 0 <= c < 256) file -> load_data file = Ret (docs, uchars) -> docs <> [] ->
  (length uchars <= 207)%nat ->
  exists md k m0 s m1 M m2, init_model rand RAND_MAX fresh fuel (S (length uchars)) 0 empty_mem = Ret (Done (md, k) m0) /\
    steps md uchars docs 0 100 start_state m0 s m1 /\ model_has (reset m1) md M /\
    main rand RAND_MAX fresh fuel docs uchars empty_mem = Ret (Done (samples_of rand RAND_MAX M uchars 20 k) m2).
Proof.
  intros Hf Hload Hne Hu. destruct (load_data_ok file Hf) as (docs' & uchars' & E & _ & _ & Hd & _). rewrite Hload in E. injection E as <- <-.
  destruct (init_model_grows (S (length uchars)) 0 empty_mem) as ([md k] & m0 & E0 & Hl & Hc & Hs). cbn [fst] in Hs.
  assert (Hinv : train_inv md uchars docs start_state m0) by (apply start_inv; try done; apply Hc; constructor).
  destruct (train_ok md uchars docs start_state m0 Hinv) as (s & m1 & E1 & [I1 I2 I3 I4 I5 I6 I7 I8] & Hst).
  destruct (shape_model m1 _ md I3) as (M & HM & HD).
  destruct (samples_run rand RAND_MAX md M uchars 20 0 [] k (cache_k s) (cache_v s) m1) as (keys' & values' & k' & m2 & E2 & _); try done.
  exists md, k, m0, s, m1, M, m2. split_and!; try done. unfold main. rewrite (bind_done _ _ _ _ _ E0). cbv beta iota zeta. fold start_state.
  rewrite (bind_done _ _ _ _ _ E1). unfold inference. rewrite (bind_done _ _ _ _ _ E2). done.
Qed.
End main.

(** ** Witnesses *)

(** Fixed-point arithmetic with three digits, which can be executed. *)
Definition milli_float : Float Z := {|
  flit n d := n * 1000 / d; fadd := Z.add; fsub := Z.sub; fmul x y := x * y / 1000; fdiv x y := x * 1000 / y; fneg := Z.opp;
  powf x y := x ^ (y / 1000); logf := Z.log2; expf := Z.pow 2; sqrtf x := Z.sqrt (x * 1000); fgt := Z.gtb; feq := Z.eqb |}.

Definition no_value : Value Z := mkValue 0 0 None None OP_CONST 0 false.

(** The file "ab". *)
Lemma main_spec_witness : exists md k m0 s m1 M m2,
  @init_model Z milli_float (fun _ => 75) 100 (fun _ => no_value) 1 (S (length [97; 98])) 0 empty_mem = Ret (Done (md, k) m0) /\
  @steps Z milli_float md [97; 98] [[97; 98]] 0 100 (@start_state Z milli_float) m0 s m1 /\ @model_has Z (reset m1) md M /\
  @main Z milli_float (fun _ => 75) 100 (fun _ => no_value) 1 [[97; 98]] [97; 98] empty_mem =
    Ret (Done (@samples_of Z milli_float (fun _ => 75) 100 M [97; 98] 20 k) m2).
Proof.
  apply (@main_spec Z milli_float (fun _ => 75) 100 (fun _ => no_value) 1 ltac:(intros k; vm_compute; discriminate) [97; 98; 10] [[97; 98]] [97; 98]); [|reflexivity|done|cbn; lia].
  do 3 (constructor; [lia|]). constructor.
Defined.

(** A model whose entries are all the same parameter. *)
Definition flat (rows cols : nat) : matrix := replicate rows (replicate cols (Param 0)).
Definition flat_model : model :=
  mkModel (flat 2 N_EMBD) (flat BLOCK_SIZE N_EMBD) (flat 2 N_EMBD)
    [mkLayer (flat N_EMBD N_EMBD) (flat N_EMBD N_EMBD) (flat N_EMBD N_EMBD) (flat N_EMBD N_EMBD) (flat (4 * N_EMBD) N_EMBD) (flat N_EMBD (4 * N_EMBD))].

Lemma flat_shape rows cols : mat_shape 1 rows cols (flat rows cols).
Proof. split; [apply length_replicate|]. apply Forall_replicate. split; [apply length_replicate|]. apply Forall_replicate. cbn. lia. Qed.

Lemma sampling_forgets_witness : let m := Mem [] 0 [no_value] [] in exists M keys' values' k' m', @model_has Z (reset m) flat_model M /\
  @inference Z milli_float (fun _ => 75) 100 flat_model [97] new_cache new_cache 0 m =
    Ret (Done (@samples_of Z milli_float (fun _ => 75) 100 M [97] 20 0, keys', values', k') m') /\ heap m' = heap m.
Proof.
  intros m. destruct (@shape_model Z m 2 flat_model) as (M & HM & HD).
  { split; [apply flat_shape..|]. eexists. split; [reflexivity|]. split; apply flat_shape. }
  destruct (@sampling_forgets Z milli_float (fun _ => 75) 100 flat_model M [97] new_cache new_cache 0 m) as (keys' & values' & k' & m' & E & H); [repeat constructor|exact HM|exact HD|cbn; lia|by eexists..|].
  exists M, keys', values', k', m'. split; [exact HM|split; [exact E|exact H]].
Defined.
