(* ===== verification/Acism.v ===== *)
(** Component: src/c-study/str_match/AC-alg/aho-corasick, Aho-Corasick matching with an
    interleaved state matrix: _acism.h, acism_create.c, which builds a tree of the patterns
    and packs it into one array of transitions, and acism.c, which scans a text. *)
From S2P Require Import Prelude Arrays.

(** ** Data *)

(** [ACISM]: [table] is the block that [tranv] points to, in words of 32 bits; [hashv]
    points into it, after [tran_size] words. *)
Record ACISM := mkACISM {
  table : list Z; sym_mask : Z; sym_bits : Z; hash_mod : Z; hash_size : Z; tran_size : Z;
  nsyms : Z; nchars : Z; nstrs : Z; maxlen : Z; symv : list Z
}.

Definition IS_MATCH : Z := Z.shiftl 1 31.
Definition IS_SUFFIX : Z := Z.shiftl 1 30.
Definition T_FLAGS : Z := Z.lor IS_MATCH IS_SUFFIX.
Definition BACK : Z := 0.
Definition ROOT : Z := 0.

(** [TNODE]: pointers are indexes into the array [troot]. *)
Record TNODE := mkTNODE {
  child : option nat; next : option nat; back : option nat; nrefs : Z; state : Z; match_ : Z; sym : Z; is_suffix : bool
}.

Definition no_node : TNODE := mkTNODE None None None 0 0 0 0 false.

Abbreviation tree := (list TNODE).

Definition node (t : tree) (i : nat) : res TNODE := oget (t !! i).
Definition modify (t : tree) (i : nat) (f : TNODE -> TNODE) : res tree := nd ← node t i; Ret (<[i := f nd]> t).

Definition set_child (o : option nat) (nd : TNODE) : TNODE := mkTNODE o (next nd) (back nd) (nrefs nd) (state nd) (match_ nd) (sym nd) (is_suffix nd).
Definition set_next (o : option nat) (nd : TNODE) : TNODE := mkTNODE (child nd) o (back nd) (nrefs nd) (state nd) (match_ nd) (sym nd) (is_suffix nd).
Definition set_back (o : option nat) (nd : TNODE) : TNODE := mkTNODE (child nd) (next nd) o (nrefs nd) (state nd) (match_ nd) (sym nd) (is_suffix nd).
Definition set_nrefs (z : Z) (nd : TNODE) : TNODE := mkTNODE (child nd) (next nd) (back nd) z (state nd) (match_ nd) (sym nd) (is_suffix nd).
Definition set_state (z : Z) (nd : TNODE) : TNODE := mkTNODE (child nd) (next nd) (back nd) (nrefs nd) z (match_ nd) (sym nd) (is_suffix nd).
Definition set_match (z : Z) (nd : TNODE) : TNODE := mkTNODE (child nd) (next nd) (back nd) (nrefs nd) (state nd) z (sym nd) (is_suffix nd).
Definition set_sym (z : Z) (nd : TNODE) : TNODE := mkTNODE (child nd) (next nd) (back nd) (nrefs nd) (state nd) (match_ nd) z (is_suffix nd).
Definition set_suffix (b : bool) (nd : TNODE) : TNODE := mkTNODE (child nd) (next nd) (back nd) (nrefs nd) (state nd) (match_ nd) (sym nd) b.

Definition null {A} (o : option A) : bool := match o with None => true | Some _ => false end.

(** ** Transitions *)

(** [psp->tranv[i]], inside the block. *)
Definition tranv (psp : ACISM) (i : Z) : res Z := zget (table psp) i.

Definition p_tran (psp : ACISM) (s sym : Z) : res Z := t ← tranv psp (u32 (s + sym)); Ret (Z.lxor t sym).
Definition t_sym (psp : ACISM) (t : Z) : Z := Z.land t (sym_mask psp).
Definition t_next (psp : ACISM) (t : Z) : Z := Z.shiftr (Z.land t (u32 (Z.lnot T_FLAGS))) (sym_bits psp).
Definition t_isleaf (psp : ACISM) (t : Z) : bool := tran_size psp <=? t_next psp t.
Definition t_strno (psp : ACISM) (t : Z) : Z := t_next psp t - tran_size psp.
Definition t_valid (psp : ACISM) (t : Z) : bool := t_sym psp t =? 0.

(** The index in [hashv] where the search for a state begins. *)
Definition p_hash (psp : ACISM) (s : Z) : res Z := if hash_mod psp =? 0 then UB else Ret (u32 (s * 107) mod hash_mod psp).

(** [psp->hashv[i].state] and [.strno]. *)
Definition hash_state (psp : ACISM) (i : Z) : res Z := zget (table psp) (tran_size psp + 2 * i).
Definition hash_strno (psp : ACISM) (i : Z) : res Z := zget (table psp) (tran_size psp + 2 * i + 1).

(** ** acism.c *)

(** [back] of a state: the transition by [BACK]. *)
Definition back_state (psp : ACISM) (s : Z) : res Z := b ← p_tran psp s BACK; Ret (if t_valid psp b then t_next psp b else ROOT).

(** The search for a state with a transition by [sym]: that transition, and the state. *)
Fixpoint find_tran (fuel : nat) (psp : ACISM) (st sym : Z) : res (Z * Z) :=
  match fuel with
  | O => Fuel
  | S n =>
      next ← p_tran psp st sym;
      if negb (t_valid psp next) && negb (st =? ROOT) then st ← back_state psp st; find_tran n psp st sym
      else Ret (next, st)
  end.

(** The search for [ss] in [hashv] from entry [i] on. *)
Fixpoint probe (fuel : nat) (psp : ACISM) (ss i : Z) : res Z :=
  match fuel with
  | O => Fuel
  | S n => x ← hash_state psp i; if x =? ss then Ret i else probe n psp ss (i + 1)
  end.

(** The number of the string that ends with transition [ss]. *)
Definition match_strno (psp : ACISM) (ss : Z) : res Z :=
  t ← tranv psp ss;
  if t_isleaf psp t then Ret (t_strno psp t) else
  i ← p_hash psp ss;
  i ← probe (S (length (table psp))) psp ss i;
  hash_strno psp i.

Section scan.
Context {C : Type} (cb : Z -> Z -> C -> Z * C).

(** The loop over the states of the chain of back references: the result of the callback,
    the new state, the context. *)
Fixpoint chain (fuel : nat) (psp : ACISM) (sym pos : Z) (s next st : Z) (ctx : C) : res (Z * Z * C) :=
  match fuel with
  | O => Fuel
  | S n =>
      let go := fun st ctx =>
        if s =? ROOT then Ret (0, st, ctx) else
        s ← back_state psp s;
        next ← p_tran psp s sym;
        chain n psp sym pos s next st ctx in
      if t_valid psp next then
        '(ret, ctx) ← (if Z.land next IS_MATCH =? 0 then Ret (0, ctx) else
          strno ← match_strno psp (u32 (s + sym)); Ret (cb strno pos ctx));
        if negb (ret =? 0) then Ret (ret, st, ctx) else
        let st := if (st =? 0) && negb (t_isleaf psp next) then t_next psp next else st in
        if negb (st =? 0) && (Z.land next IS_SUFFIX =? 0) then Ret (0, st, ctx) else go st ctx
      else go st ctx
  end.

(** No string is longer than [nchars], nor is a chain. *)
Definition chain_fuel (psp : ACISM) : nat := S (S (Z.to_nat (nchars psp))).

(** The loop over the text; [pos] counts the bytes read. *)
Fixpoint more_loop (psp : ACISM) (text : list Z) (pos st : Z) (ctx : C) : res (Z * Z * C) :=
  match text with
  | [] => Ret (0, st, ctx)
  | c :: text =>
      let pos := pos + 1 in
      sym ← zget (symv psp) c;
      if sym =? 0 then more_loop psp text pos ROOT ctx else
      '(next, st) ← find_tran (chain_fuel psp) psp st sym;
      if negb (t_valid psp next) then more_loop psp text pos st ctx else
      if Z.land next (Z.lor IS_MATCH IS_SUFFIX) =? 0 then more_loop psp text pos (t_next psp next) ctx else
      let s := st in
      let st := if t_isleaf psp next then 0 else t_next psp next in
      '(ret, st, ctx) ← chain (chain_fuel psp) psp sym pos s next st ctx;
      if negb (ret =? 0) then Ret (ret, st, ctx) else more_loop psp text pos st ctx
  end.

(** The result, the state to go on with, and the context. *)
Definition acism_more (psp : ACISM) (text : list Z) (ctx : C) (statep : Z) : res (Z * Z * C) := more_loop psp text 0 statep ctx.

Definition acism_scan (psp : ACISM) (text : list Z) (ctx : C) : res (Z * C) :=
  '(ret, _, ctx) ← acism_more psp text ctx 0; Ret (ret, ctx).
End scan.

(** ** acism_create.c: symbols *)

Definition bitwid (u : Z) : Z :=
  let ret := if u =? 0 then 0 else 1 in
  let '(u, ret) := if Z.land u 0xFFFF0000 =? 0 then (u, ret) else (Z.shiftr u 16, ret + 16) in
  let '(u, ret) := if Z.land u 0x0000FF00 =? 0 then (u, ret) else (Z.shiftr u 8, ret + 8) in
  let '(u, ret) := if Z.land u 0x000000F0 =? 0 then (u, ret) else (Z.shiftr u 4, ret + 4) in
  let '(u, ret) := if Z.land u 0x0000000C =? 0 then (u, ret) else (Z.shiftr u 2, ret + 2) in
  if Z.land u 0x00000002 =? 0 then ret else ret + 1.

(** [FRANK]: how often a byte occurs, and the byte. *)
Record FRANK := mkFRANK { freq : Z; rank : Z }.

Definition frcmp (a b : FRANK) : Z := freq a - freq b.

(** The occurrences in one string, from its end. *)
Fixpoint count_bytes (frv : list FRANK) (s : list Z) : res (list FRANK) :=
  match s with
  | [] => Ret frv
  | c :: s => f ← zget frv c; n ← sint (freq f + 1); frv ← zset frv c (mkFRANK n (rank f)); count_bytes frv s
  end.

Fixpoint count_strs (frv : list FRANK) (n : Z) (strv : list (list Z)) : res (list FRANK * Z) :=
  match strv with
  | [] => Ret (frv, n)
  | s :: strv => frv ← count_bytes frv (rev s); count_strs frv (u32 (n + Z.of_nat (length s))) strv
  end.

(** The bytes that occur get their symbols, the most frequent first. *)
Fixpoint assign_syms (frv : list FRANK) (sv : list Z) (n : Z) : res (list Z * Z) :=
  match frv with
  | [] => Ret (sv, n)
  | f :: frv => if freq f =? 0 then Ret (sv, n) else sv ← zset sv (rank f) (n + 1); assign_syms frv sv (n + 1)
  end.

(** [symv], [nsyms] and [nchars], by any function that sorts. *)
Definition fill_symv (qsort : list FRANK -> list FRANK) (strv : list (list Z)) : res (list Z * Z * Z) :=
  '(frv, nchars) ← count_strs ((fun i => mkFRANK 0 (Z.of_nat i)) <$> seq 0 256) 0 strv;
  '(sv, n) ← assign_syms (rev (qsort frv)) (replicate 256 0) 0;
  Ret (sv, n + 1, nchars).

Definition mask_of (bits : Z) : Z := u32 (Z.lnot (Z.shiftl (-1) bits)).

(** ** The tree *)

(** [while (tp->next && sym >= tp->next->sym) tp = tp->next]. *)
Fixpoint skip (fuel : nat) (t : tree) (sym0 : Z) (tp : nat) : res nat :=
  match fuel with
  | O => Fuel
  | S n =>
      nd ← node t tp;
      match next nd with
      | None => Ret tp
      | Some q => nq ← node t q; if sym nq <=? sym0 then skip n t sym0 q else Ret tp
      end
  end.

(** The walk down the tree as far as it has children: the tree, [nextp], the node reached
    and the bytes left. *)
Fixpoint descend (sv : list Z) (t : tree) (nextp tp : nat) (s : list Z) : res (tree * nat * nat * list Z) :=
  match s with
  | [] => Ret (t, nextp, tp, [])
  | c :: s' =>
      nd ← node t tp;
      match child nd with
      | None => Ret (t, nextp, tp, s)
      | Some k =>
          sym0 ← zget sv c;
          nk ← node t k;
          if sym0 <? sym nk then t ← modify t nextp (set_next (Some k)); Ret (t, nextp, tp, s) else
          tp ← skip (S (length t)) t sym0 k;
          nd ← node t tp;
          if sym nd <? sym0 then
            t ← modify t nextp (set_next (next nd));
            t ← modify t tp (set_next (Some nextp));
            t ← modify t nextp (set_sym sym0);
            t ← modify t nextp (set_back (Some 0%nat));
            descend sv t (S nextp) nextp s'
          else descend sv t nextp tp s'
      end
  end.

(** The rest of the string hangs below. *)
Fixpoint extend (sv : list Z) (t : tree) (nextp tp : nat) (s : list Z) : res (tree * nat * nat) :=
  match s with
  | [] => Ret (t, nextp, tp)
  | c :: s =>
      t ← modify t tp (set_child (Some nextp));
      sym0 ← zget sv c;
      t ← modify t nextp (set_sym sym0);
      t ← modify t nextp (set_back (Some 0%nat));
      extend sv t (S nextp) nextp s
  end.

Definition add_string (sv : list Z) (t : tree) (nextp : nat) (i : Z) (s : list Z) : res (tree * nat) :=
  '(t, nextp, tp, s) ← descend sv t nextp 0 s;
  '(t, nextp, tp) ← extend sv t nextp tp s;
  t ← modify t tp (set_match (i + 1));
  Ret (t, nextp).

Fixpoint create_loop (sv : list Z) (t : tree) (nextp : nat) (i : Z) (strv : list (list Z)) : res (tree * nat) :=
  match strv with
  | [] => Ret (t, nextp)
  | s :: strv => '(t, nextp) ← add_string sv t nextp i s; create_loop sv t nextp (i + 1) strv
  end.

(** The tree and the number of nodes. *)
Definition create_tree (sv : list Z) (t : tree) (strv : list (list Z)) : res (tree * nat) := create_loop sv t 1 0 strv.

(** ** Loops over a list of siblings *)

Fixpoint siblings {S} (fuel : nat) (get : S -> tree) (body : nat -> S -> res S) (o : option nat) (a : S) : res S :=
  match fuel with
  | O => Fuel
  | Datatypes.S n =>
      match o with
      | None => Ret a
      | Some q => a ← body q a; nd ← node (get a) q; siblings n get body (next nd) a
      end
  end.

(** A vector of pointers with room for [cap] of them, of which the last is null. *)
Definition push (cap : nat) (v : list nat) (q : nat) : res (list nat) := if (S (length v) <? cap)%nat then Ret (v ++ [q]) else UB.

Fixpoint find_loop (fuel : nat) (t : tree) (o : option nat) (sym0 : Z) : res (option nat) :=
  match fuel with
  | O => Fuel
  | S n =>
      match o with
      | None => Ret None
      | Some q => nd ← node t q; if sym nd <? sym0 then find_loop n t (next nd) sym0 else Ret (if sym nd =? sym0 then Some q else None)
      end
  end.
Definition find_child (t : tree) (tp : nat) (sym0 : Z) : res (option nat) := nd ← node t tp; find_loop (S (length t)) t (child nd) sym0.

(** ** Back links *)

(** The first node of a chain of back links that has a child by [sym0], and the child. *)
Fixpoint find_back (fuel : nat) (t : tree) (tp : option nat) (sym0 : Z) : res (option (nat * nat)) :=
  match fuel with
  | O => Fuel
  | S n =>
      match tp with
      | None => Ret None
      | Some q =>
          bp ← find_child t q sym0;
          match bp with
          | Some b => Ret (Some (q, b))
          | None => nd ← node t q; find_back n t (back nd) sym0
          end
      end
  end.

(** The body of the loop over the children of a node whose back link is [sb]. *)
Definition link_child (cap : nat) (srcp dstp : nat) (st : tree * list nat) : res (tree * list nat) :=
  let '(t, v2) := st in
  nd ← node t dstp;
  v2 ← (if null (child nd) then Ret v2 else push cap v2 dstp);
  src ← node t srcp;
  r ← find_back (S (length t)) t (back src) (sym nd);
  let bp := match r with Some (_, b) => b | None => 0%nat end in
  let b := if null (child nd) then match r with Some (q, _) => q | None => 0%nat end else bp in
  t ← modify t dstp (set_back (Some b));
  nb ← node t b;
  t ← modify t b (set_nrefs (u32 (nrefs nb + 1)));
  nbp ← node t bp;
  t ← modify t dstp (set_suffix (negb (match_ nbp =? 0) || is_suffix nbp));
  Ret (t, v2).

Fixpoint link_level (cap : nat) (v1 : list nat) (st : tree * list nat) : res (tree * list nat) :=
  match v1 with
  | [] => Ret st
  | srcp :: v1 =>
      nd ← node st.1 srcp;
      st ← siblings (S (length st.1)) fst (link_child cap srcp) (child nd) st;
      link_level cap v1 st
  end.

Fixpoint link_levels (fuel cap : nat) (t : tree) (v1 : list nat) : res tree :=
  match fuel with
  | O => Fuel
  | S n => match v1 with [] => Ret t | _ => '(t, v2) ← link_level cap v1 (t, []); link_levels n cap t v2 end
  end.

Definition add_backlinks (cap : nat) (t : tree) : res tree :=
  root ← node t 0;
  '(t, v1) ← siblings (S (length t)) fst (fun q '(t, v) => v ← push cap v q; Ret (t, v)) (child root) (t, []);
  link_levels (S (length t)) cap t v1.

(** ** The interleaved matrix *)

Definition BASE : Z := 2.
Definition USED : Z := 1.

(** What [interleave] works on: [startv] has two rows, for nodes without and with a back
    link. *)
Record work := mkWork { usev : list Z; start0 : list Z; start1 : list Z; last_trans : Z }.

Definition get_start (w : work) (b : bool) (s : Z) : res Z := zget (if b then start1 w else start0 w) s.
Definition set_start (w : work) (b : bool) (s v : Z) : res work :=
  if b then l ← zset (start1 w) s v; Ret (mkWork (usev w) (start0 w) l (last_trans w))
  else l ← zset (start0 w) s v; Ret (mkWork (usev w) l (start1 w) (last_trans w)).

(** The loop that finds the largest [startv] of the children: the symbol it belongs to. *)
Fixpoint max_start (fuel : nat) (t : tree) (w : work) (b : bool) (o : option nat) (best : Z) : res Z :=
  match fuel with
  | O => Fuel
  | S n =>
      match o with
      | None => Ret best
      | Some q =>
          nd ← node t q;
          new ← get_start w b (sym nd); cur ← get_start w b best;
          max_start n t w b (next nd) (if cur <? new then sym nd else best)
      end
  end.

(** Whether no child from [o] on needs a slot in use. *)
Fixpoint kids_fit (fuel : nat) (t : tree) (uv : list Z) (pos : Z) (o : option nat) : res bool :=
  match fuel with
  | O => Fuel
  | S n =>
      match o with
      | None => Ret true
      | Some q =>
          nd ← node t q; u ← zget uv (u32 (pos + sym nd));
          if Z.land u USED =? 0 then kids_fit n t uv pos (next nd) else Ret false
      end
  end.

Fixpoint find_pos (fuel : nat) (t : tree) (uv : list Z) (need : Z) (kids : option nat) (pos : Z) : res Z :=
  match fuel with
  | O => Fuel
  | S n =>
      u ← zget uv pos;
      if negb (Z.land u need =? 0) then find_pos n t uv need kids (u32 (pos + 1)) else
      fit ← kids_fit (S (length t)) t uv pos kids;
      if (fit : bool) then Ret pos else find_pos n t uv need kids (u32 (pos + 1))
  end.

(** The loop that marks the slots of the children: [usev], [last], [nkids] and the nodes of
    the next level. *)
Fixpoint mark_kids (fuel cap : nat) (t : tree) (pos : Z) (o : option nat) (a : list Z * Z * Z * list nat) : res (list Z * Z * Z * list nat) :=
  match fuel with
  | O => Fuel
  | S n =>
      match o with
      | None => Ret a
      | Some q =>
          let '(uv, last, nkids, v2) := a in
          nd ← node t q;
          let last := u32 (pos + sym nd) in
          u ← zget uv last;
          uv ← zset uv last (Z.lor u USED);
          v2 ← push cap v2 q;
          mark_kids n cap t pos (next nd) (uv, last, nkids + 1, v2)
      end
  end.

(** The body of the loop over a level. *)
Definition place (cap : nat) (ns : Z) (tp : nat) (st : tree * work * list nat) : res (tree * work * list nat) :=
  let '(t, w, v2) := st in
  nd ← node t tp;
  match child nd with
  | None => Ret (t, w, v2)
  | Some k =>
      t ← modify t tp (fun nd => match back nd with Some O => set_back None nd | _ => nd end);
      nd ← node t tp;
      let b := negb (null (back nd)) in
      nk ← node t k;
      startp ← max_start (S (length t)) t w b (next nk) (sym nk);
      start ← get_start w b startp;
      let need := if b then Z.lor BASE USED else BASE in
      pos ← find_pos (S (length (usev w))) t (usev w) need (Some k) start;
      t ← modify t tp (set_state pos);
      u ← zget (usev w) pos;
      uv ← zset (usev w) pos (Z.lor u need);
      '(uv, last, nkids, v2) ← mark_kids (S (length t)) cap t pos (Some k) (uv, 0, 0, v2);
      w ← set_start (mkWork uv (start0 w) (start1 w) (last_trans w)) b startp (u32 (start + u32 (pos - start) / nkids));
      if last_trans w <? last then
        let uv := if Z.of_nat (length (usev w)) <=? u32 (last + ns) then usev w ++ replicate (length (usev w)) 0 else usev w in
        Ret (t, mkWork uv (start0 w) (start1 w) last, v2)
      else Ret (t, w, v2)
  end.

Fixpoint place_level (cap : nat) (ns : Z) (v1 : list nat) (st : tree * work * list nat) : res (tree * work * list nat) :=
  match v1 with
  | [] => Ret st
  | tp :: v1 => st ← place cap ns tp st; place_level cap ns v1 st
  end.

Fixpoint place_levels (fuel cap : nat) (ns : Z) (t : tree) (w : work) (v1 : list nat) : res (tree * work) :=
  match fuel with
  | O => Fuel
  | S n => match v1 with [] => Ret (t, w) | _ => '(t, w, v2) ← place_level cap ns v1 (t, w, []); place_levels n cap ns t w v2 end
  end.

(** The tree with its states, and the size of [tranv]. *)
Definition interleave (cap : nat) (t : tree) (nnodes : nat) (ns : Z) : res (tree * Z) :=
  v1 ← push cap [] 0;
  '(t, w) ← place_levels (S (S (length t))) cap ns t
    (mkWork (replicate (nnodes + Z.to_nat ns) 0) (replicate 257 0) (replicate 257 0) 0) v1;
  Ret (t, u32 (last_trans w + 1)).

(** ** Filling the table *)

Definition set_tran (bits : Z) (tab : list Z) (s sym0 : Z) (m sfx : bool) (ns : Z) : res (list Z) :=
  zset tab (u32 (s + sym0))
    (Z.lor (Z.lor (Z.lor sym0 (if m then IS_MATCH else 0)) (if sfx then IS_SUFFIX else 0)) (u32 (Z.shiftl ns bits))).

(** The back transition of a node with children. *)
Definition fill_back (bits : Z) (t : tree) (nd : TNODE) (tab : list Z) : res (list Z) :=
  match child nd, back nd with
  | Some _, Some b => nb ← node t b; set_tran bits tab (state nd) 0 false false (state nb)
  | _, _ => Ret tab
  end.

(** The transitions to the children from [o] on, and what is below them. *)
Fixpoint fill_kids (fuel : nat) (bits tsize : Z) (t : tree) (st : Z) (o : option nat) (tab : list Z) : res (list Z) :=
  match fuel with
  | O => Fuel
  | S n =>
      match o with
      | None => Ret tab
      | Some c =>
          nd ← node t c;
          tab ← set_tran bits tab st (sym nd) (negb (match_ nd =? 0)) (is_suffix nd)
                  (if null (child nd) then u32 (match_ nd - 1 + tsize) else state nd);
          tab ← (match child nd with
                 | Some k => tab ← fill_back bits t nd tab; fill_kids n bits tsize t (state nd) (Some k) tab
                 | None => Ret tab
                 end);
          fill_kids n bits tsize t st (next nd) tab
      end
  end.

(** A path down the tree has at most as many nodes as there are, each among at most 257
    siblings. *)
Definition fill_tranv (bits tsize : Z) (t : tree) (tp : nat) (tab : list Z) : res (list Z) :=
  nd ← node t tp; tab ← fill_back bits t nd tab; fill_kids (258 * S (length t)) bits tsize t (state nd) (child nd) tab.

(** The hash table within the block: an entry is set. *)
Definition set_hash (psp : ACISM) (i : Z) (e : Z * Z) : res ACISM :=
  l ← zset (table psp) (tran_size psp + 2 * i) e.1; l ← zset l (tran_size psp + 2 * i + 1) e.2;
  Ret (mkACISM l (sym_mask psp) (sym_bits psp) (hash_mod psp) (hash_size psp) (tran_size psp) (nsyms psp) (nchars psp) (nstrs psp) (maxlen psp) (symv psp)).

(** One child in the first pass; [sv] is the stack of the entries that collide. *)
Definition hash_child (t : tree) (base : Z) (q : nat) (st : ACISM * list (Z * Z)) : res (ACISM * list (Z * Z)) :=
  let '(psp, sv) := st in
  nd ← node t q;
  if negb (match_ nd =? 0) && negb (null (child nd)) then
    let s := u32 (base + sym nd) in
    h ← p_hash psp s;
    x ← hash_state psp h;
    if x =? 0 then psp ← set_hash psp h (s, u32 (match_ nd - 1)); Ret (psp, sv)
    else if Z.of_nat (length sv) <? hash_mod psp then Ret (psp, (s, u32 (match_ nd - 1)) :: sv) else UB
  else Ret (psp, sv).

Fixpoint hash_nodes (t : tree) (i n : nat) (st : ACISM * list (Z * Z)) : res (ACISM * list (Z * Z)) :=
  match n with
  | O => Ret st
  | S n => nd ← node t i; st ← siblings (S (length t)) (fun _ => t) (hash_child t (state nd)) (child nd) st; hash_nodes t (S i) n st
  end.

(** The first free entry from [i] on. *)
Fixpoint free_slot (fuel : nat) (psp : ACISM) (i : Z) : res Z :=
  match fuel with
  | O => Fuel
  | S n => x ← hash_state psp i; if x =? 0 then Ret i else free_slot n psp (i + 1)
  end.

Fixpoint hash_rest (psp : ACISM) (sv : list (Z * Z)) : res ACISM :=
  match sv with
  | [] => Ret psp
  | e :: sv => i ← p_hash psp e.1; i ← free_slot (S (length (table psp))) psp i; psp ← set_hash psp i e; hash_rest psp sv
  end.

Definition fill_hashv (psp : ACISM) (t : tree) (nnodes : nat) : res ACISM := '(psp, sv) ← hash_nodes t 0 nnodes (psp, []); hash_rest psp sv.

(** The last entry in use from [hash_size - 1] down: the size without the empty ones. *)
Fixpoint trim (fuel : nat) (psp : ACISM) (hs : Z) : res Z :=
  match fuel with
  | O => Fuel
  | S n => x ← hash_state psp (hs - 1); if x =? 0 then trim n psp (hs - 1) else Ret hs
  end.

(** ** acism_create *)

(** Nodes below [n] other than the root that have a match and children. *)
Fixpoint count_hash (t : tree) (n : nat) : res Z :=
  match n with
  | O | 1%nat => Ret 0
  | S n => nd ← node t n; r ← count_hash t n; Ret (r + if negb (match_ nd =? 0) && negb (null (child nd)) then 1 else 0)
  end.

Definition set_table (psp : ACISM) (l : list Z) (hs : Z) : ACISM :=
  mkACISM l (sym_mask psp) (sym_bits psp) (hash_mod psp) hs (tran_size psp) (nsyms psp) (nchars psp) (nstrs psp) (maxlen psp) (symv psp).

(** The part that builds the hash table and cuts it to its size. *)
Definition finish_hash (psp : ACISM) (t : tree) (nnodes : nat) : res ACISM :=
  psp ← fill_hashv psp t nnodes;
  hs ← free_slot (S (length (table psp))) psp (hash_mod psp);
  hs ← trim (S (length (table psp))) psp hs;
  Ret (set_table psp (take (Z.to_nat (tran_size psp + 2 * hs)) (table psp)) hs).

(** [sizeof(TNODE)] and the size of a pointer. *)
Definition sizeof_TNODE : nat := 40.
Definition sizeof_ptr : nat := 8.

(** [None] is the null pointer that the failure path returns. *)
Definition acism_create (qsort : list FRANK -> list FRANK) (strv : list (list Z)) : res (option ACISM) :=
  '(sv, ns, nc) ← fill_symv qsort strv;
  let bits := bitwid ns in
  '(t, nnodes) ← create_tree sv (replicate (Z.to_nat nc + 1) no_node) strv;
  let cap := ((length strv + 1) * sizeof_TNODE / sizeof_ptr)%nat in
  t ← add_backlinks cap t;
  nhash ← count_hash t nnodes;
  '(t, tsize) ← interleave cap t nnodes ns;
  let n := Z.of_nat (length strv) in
  if 30 <? bitwid (u32 (tsize + n - 1)) + bits then Ret None else
  let hmod := if nhash =? 0 then 0 else nhash * 5 / 4 + 1 in
  let hsize := if nhash =? 0 then 0 else hmod + nhash in
  tab ← fill_tranv bits tsize t 0 (replicate (Z.to_nat (tsize + 2 * hsize)) 0);
  tab ← zset tab 0 1;
  let psp := mkACISM tab (mask_of bits) bits hmod hsize tsize ns nc n (foldl (fun m s => Z.max m (Z.of_nat (length s))) 0 strv) sv in
  psp ← (if nhash =? 0 then Ret psp else finish_hash psp t nnodes);
  Ret (Some psp).
