(* ===== verification/AcismScan.v ===== *)
(** acism.c against an interface: what a table of transitions has to answer for the scan to
    report exactly the occurrences of the strings. *)
From S2P Require Import Prelude Arrays Suffix Acism.

(** ** Specification *)

(** The number of the last string equal to [u]. *)
Fixpoint last_index (i : Z) (words : list (list Z)) (u : list Z) : option Z :=
  match words with
  | [] => None
  | w :: ws => match last_index (i + 1) ws u with Some j => Some j | None => if decide (w = u) then Some i else None end
  end.

(** The strings that end at the end of [d], the longest first; the empty one is not
    reported. *)
Fixpoint occs (words : list (list Z)) (d : list Z) : list Z :=
  match d with
  | [] => []
  | _ :: d' => match last_index 0 words d with Some i => [i] | None => [] end ++ occs words d'
  end.

(** What is reported in [text] after [d], with the positions in [text]. *)
Fixpoint occurrences (words : list (list Z)) (d : list Z) (pos : Z) (text : list Z) : list (Z * Z) :=
  match text with
  | [] => []
  | c :: text => ((fun i => (i, pos + 1)) <$> occs words (d ++ [c])) ++ occurrences words (d ++ [c]) (pos + 1) text
  end.

(** The calls of the callback, up to the first result that is not 0. *)
Fixpoint feed {C} (cb : Z -> Z -> C -> Z * C) (l : list (Z * Z)) (ctx : C) : Z * C :=
  match l with
  | [] => (0, ctx)
  | (i, p) :: l => let '(r, ctx) := cb i p ctx in if r =? 0 then feed cb l ctx else (r, ctx)
  end.

Lemma feed_app {C} (cb : Z -> Z -> C -> Z * C) l1 l2 ctx :
  feed cb (l1 ++ l2) ctx = let '(r, ctx) := feed cb l1 ctx in if r =? 0 then feed cb l2 ctx else (r, ctx).
Proof.
  revert ctx. induction l1 as [|[i p] l1 IH]; intros ctx; cbn [feed app]; [done|]. destruct (cb i p ctx) as [r ctx1].
  destruct (r =? 0) eqn:E; [apply IH|by rewrite E].
Qed.

(** ** The tree of the strings as a set of strings *)

Section words.
Context (words : list (list Z)).

Definition in_tree (u : list Z) : Prop := u = [] \/ exists w, w ∈ words /\ u `prefix_of` w.
Definition inner (u : list Z) : Prop := u = [] \/ exists c, in_tree (u ++ [c]).

Lemma in_tree_word w : w ∈ words -> in_tree w.
Proof. intros H. right. by exists w. Qed.

Lemma in_tree_prefix u v : in_tree v -> u `prefix_of` v -> in_tree u.
Proof. intros [->|(w & Hw & Hp)] Hu; [left; by apply prefix_nil_inv|]. right. exists w. split; [done|by etrans]. Qed.

Lemma inner_in_tree u : inner u -> in_tree u.
Proof. intros [->|(c & H)]; [by left|]. eapply in_tree_prefix; [exact H|]. by apply prefix_app_r. Qed.

Lemma inner_snoc u c : in_tree (u ++ [c]) -> inner u.
Proof. right. by exists c. Qed.

(** A node without a string goes on. *)
Lemma not_word_inner u : in_tree u -> u ∉ words -> inner u.
Proof.
  intros [->|(w & Hw & [k Ek])] Hn; [by left|]. destruct k as [|c k]; [by rewrite app_nil_r in Ek; subst|]. right. exists c. right. exists w. split; [done|].
  exists k. by rewrite Ek, <-app_assoc.
Qed.

Lemma last_index_word u : forall i, is_Some (last_index i words u) <-> u ∈ words.
Proof.
  induction words as [|w ws IH]; intros i; cbn [last_index]; [split; [by intros [? [=]]|by intros ?%elem_of_nil]|].
  rewrite elem_of_cons. specialize (IH (i + 1)). rewrite <-IH. destruct (last_index (i + 1) ws u); [split; [intros _; right; by eexists|by eexists]|].
  case_decide as H; [split; [by left|by eexists]|]. split; [by intros [? [=]]|]. intros [->|[? [=]]]. done.
Qed.

(** Longer suffixes that are not strings do not matter. *)
Lemma occs_suffix u d : u `suffix_of` d -> (forall w, w ∈ words -> w `suffix_of` d -> (length w <= length u)%nat) -> occs words d = occs words u.
Proof.
  intros [k ->] H. induction k as [|c k IH]; [done|]. rewrite <-IH.
  - cbn [app occs]. destruct (last_index 0 words (c :: k ++ u)) as [i|] eqn:E; [|done].
    exfalso. assert (Hw : c :: k ++ u ∈ words) by (apply (last_index_word _ 0); by exists i). apply H in Hw; [|by exists []]. cbn [length] in Hw. rewrite length_app in Hw. lia.
  - intros w Hw [j Ej]. apply H; [done|]. exists (c :: j). cbn. by rewrite Ej.
Qed.

Lemma occs_nonempty d : d <> [] -> occs words d = match last_index 0 words d with Some i => [i] | None => [] end ++ occs words (tail d).
Proof. by destruct d as [|c d]. Qed.

(** If no string ends [d], nothing is reported. *)
Lemma occs_none d : (forall w, w ∈ words -> w `suffix_of` d -> w = []) -> occs words d = [].
Proof. intros H. rewrite (occs_suffix [] d); [done|exists d; by rewrite app_nil_r|]. intros w Hw Hs. rewrite (H w Hw Hs). cbn. lia. Qed.

(** A string of a set closed under [inner] that ends [d ++ [c]] ends in [c] after an inner
    one. *)
Lemma suffix_inner d c w : in_tree w -> w `suffix_of` d ++ [c] -> w <> [] -> exists v, w = v ++ [c] /\ v `suffix_of` d /\ inner v.
Proof.
  intros Hw [k Ek] Hne. destruct w as [|x w _] using rev_ind; [done|]. rewrite app_assoc in Ek. apply app_inj_tail in Ek as [Ed <-].
  exists w. split; [done|]. split; [by exists k|]. by eapply inner_snoc.
Qed.

End words.

Lemma proper_tail (w d : list Z) : d <> [] -> w `suffix_of` tail d -> proper_suffix w d.
Proof.
  destruct d as [|a d]; [done|]. intros _ [k Ek]. cbn in Ek. subst d. split; [by exists (a :: k)|]. intros E. apply (f_equal length) in E. cbn in E. rewrite length_app in E. lia.
Qed.

(** ** The interface *)

(** A match after the strings that [inner] gives states to. *)
Record transition (psp : ACISM) (words : list (list Z)) (st : list Z -> Z) (u : list Z) (c next : Z) : Prop := Transition {
  tr_valid : t_valid psp next = true <-> in_tree words (u ++ [c]);
  tr_leaf : in_tree words (u ++ [c]) -> t_isleaf psp next = false <-> inner words (u ++ [c]);
  tr_next : inner words (u ++ [c]) -> t_next psp next = st (u ++ [c]);
  tr_match : in_tree words (u ++ [c]) -> Z.land next IS_MATCH <> 0 <-> u ++ [c] ∈ words;
  tr_strno : u ++ [c] ∈ words -> match_strno psp (u32 (st u + c)) = oget (last_index 0 words (u ++ [c]));
  tr_suffix : in_tree words (u ++ [c]) -> Z.land next IS_SUFFIX = 0 -> forall w, w ∈ words -> proper_suffix w (u ++ [c]) -> w = []
}.

(** [psp] is a machine for [words], with states [st], on the symbols in [ok]. *)
Class machine (psp : ACISM) (words : list (list Z)) (st : list Z -> Z) (ok : Z -> Prop) : Prop := {
  m_root : st [] = 0;
  m_inner : forall u, inner words u -> u <> [] -> st u <> 0;
  m_tran : forall u c, inner words u -> ok c -> c <> 0 -> exists next, p_tran psp (st u) c = Ret next /\ transition psp words st u c next;
  m_back : forall u, inner words u -> u <> [] -> exists v, back_state psp (st u) = Ret (st v) /\ longest (inner words) u v;
  m_nozero : forall w, w ∈ words -> 0 ∉ w;
  m_length : forall w, w ∈ words -> (length w <= Z.to_nat (nchars psp))%nat
}.

Section scan.
Context (psp : ACISM) (words : list (list Z)) (st : list Z -> Z) (ok : Z -> Prop) `{!machine psp words st ok}.

Lemma inner_length u : inner words u -> (length u < chain_fuel psp - 1)%nat.
Proof.
  intros H%inner_in_tree. unfold chain_fuel. destruct H as [->|(w & Hw & Hp%prefix_length)]; [cbn; lia|]. apply (m_length w) in Hw. lia.
Qed.

Lemma st_zero u : inner words u -> st u = 0 -> u = [].
Proof. intros Hu Hz. destruct (decide (u = [])); [done|]. by apply m_inner in Hu. Qed.

(** [longest_suffix] of an extended text, from the longest state with a transition. *)
Lemma longest_state_step d c v : v `suffix_of` d -> (forall x, inner words x -> x `suffix_of` d -> in_tree words (x ++ [c]) -> (length x <= length v)%nat) ->
  inner words (v ++ [c]) -> longest_suffix (inner words) (d ++ [c]) (v ++ [c]).
Proof.
  intros [k ->] Hmax Hv. split; [done|]. split; [exists k; by rewrite app_assoc|]. intros w Hw Hs. destruct (decide (w = [])) as [->|Hne]; [cbn; lia|].
  destruct (suffix_inner words _ _ _ (inner_in_tree _ _ Hw) Hs Hne) as (x & -> & Hx & Hxi). rewrite !length_app.
  specialize (Hmax x Hxi Hx (inner_in_tree _ _ Hw)). cbn. lia.
Qed.

(** The search for a state with a transition. *)
Lemma find_tran_spec c : ok c -> c <> 0 -> forall fuel u, inner words u -> (length u < fuel)%nat ->
  exists v next, find_tran fuel psp (st u) c = Ret (next, st v) /\ inner words v /\ v `suffix_of` u /\ p_tran psp (st v) c = Ret next /\ transition psp words st v c next /\
    (in_tree words (v ++ [c]) \/ v = []) /\
    (forall x, inner words x -> x `suffix_of` u -> in_tree words (x ++ [c]) -> (length x <= length v)%nat).
Proof.
  intros Hok Hc. induction fuel as [|n IH]; intros u Hu Hl; [lia|]. cbn [find_tran]. destruct (m_tran u c Hu Hok Hc) as (next & E & Ht). rewrite E. bind.
  destruct (t_valid psp next) eqn:Ev; cbn [negb andb].
  - exists u, next. split_and!; try done. { left. by apply (tr_valid _ _ _ _ _ _ Ht). } intros x _ Hx%suffix_length _. lia.
  - assert (Hn : ~ in_tree words (u ++ [c])) by (intros H; apply (tr_valid _ _ _ _ _ _ Ht) in H; congruence).
    unfold ROOT. destruct (Z.eqb_spec (st u) 0) as [Hz|Hz]; cbn [negb].
    + apply st_zero in Hz; [|done]. exists u, next. split_and!; try done; [by right|]. intros x _ Hx%suffix_length _. lia.
    + assert (u <> []) by (intros ->; by rewrite m_root in Hz). destruct (m_back u) as (v & -> & Hv & Hp & Hmax); [done..|]. bind.
      destruct (IH v Hv) as (v' & next' & E' & Hv' & Hs & Ep & Ht' & Hor & Hm); [pose proof (proper_length _ _ Hp); lia|]. exists v', next'. split_and!; try done.
      { etrans; [exact Hs|apply Hp]. } intros x Hx Hxs Hxt. apply Hm; try done.
      assert (Hxp : proper_suffix x u) by (split; [done|by intros ->]). specialize (Hmax x Hx Hxp).
      destruct (decide (length x = length v)) as [El|]; [|apply (suffix_shorter x v u); [done|apply Hp|lia]]. by rewrite (suffix_same x v u Hxs (proj1 Hp) El).
Qed.

Section callback.
Context {C : Type} (cb : Z -> Z -> C -> Z * C).

(** The state found below a node of the chain: that of the longest inner suffix. *)
Definition new_state (u : list Z) (z s : Z) : Prop := exists v, s = st v /\ longest_suffix (inner words) u v /\ z = z.

(** What is left to be found from the chain at [v] on. *)
Definition found (v : list Z) (c cur s : Z) : Prop := if cur =? 0 then exists x, s = st x /\ longest_suffix (inner words) (v ++ [c]) x else s = cur.

Lemma longest_next v v' c x : ~ inner words (v ++ [c]) -> longest (inner words) v v' -> longest_suffix (inner words) (v' ++ [c]) x -> longest_suffix (inner words) (v ++ [c]) x.
Proof.
  intros Hn (Hv' & [[k Ek] Hne] & Hmax) (Hx & Hs & Hm). split; [done|]. split; [etrans; [exact Hs|]; exists k; by rewrite Ek, <-app_assoc|].
  intros y Hy Hys. destruct (decide (y = [])) as [->|Hyn]; [cbn; lia|]. destruct (suffix_inner words _ _ _ (inner_in_tree _ _ Hy) Hys Hyn) as (z & -> & Hz & Hzi).
  apply Hm; [done|]. assert (Hzp : proper_suffix z v) by (split; [done|by intros ->]). specialize (Hmax z Hzi Hzp).
  assert (Hzv : z `suffix_of` v').
  { destruct (decide (length z = length v')) as [El|]; [by rewrite (suffix_same z v' v Hz ltac:(by exists k) El)|]. apply (suffix_shorter z v' v); [done|by exists k|lia]. }
  destruct Hzv as [j ->]. exists j. by rewrite app_assoc.
Qed.

Lemma occs_next v v' c : longest (inner words) v v' -> occs words (v ++ [c]) = match last_index 0 words (v ++ [c]) with Some i => [i] | None => [] end ++ occs words (v' ++ [c]).
Proof.
  intros (Hv' & [[k Ek] Hne] & Hmax). rewrite occs_nonempty by by destruct v. f_equal. destruct k as [|a k]; [done|].
  assert (Et : tail (v ++ [c]) = k ++ v' ++ [c]) by (rewrite Ek; cbn; by rewrite <-app_assoc). rewrite Et. apply occs_suffix; [by exists k|].
  intros w Hw [j Ej]. destruct (decide (w = [])) as [->|Hwn]; [cbn; lia|].
  destruct (suffix_inner words (k ++ v') c w (in_tree_word _ _ Hw)) as (z & -> & [i Ei] & Hzi); [exists j; by rewrite <-app_assoc|done|].
  rewrite !length_app. assert (Hzp : proper_suffix z v).
  { split; [exists (a :: i); rewrite Ek; cbn; by rewrite Ei|]. intros ->. apply (f_equal length) in Ei. apply (f_equal length) in Ek.
    rewrite length_app in Ek, Ei. rewrite (length_app i) in Ei. cbn in Ek. lia. }
  specialize (Hmax z Hzi Hzp). cbn. lia.
Qed.

Definition at_pos (pos : Z) (l : list Z) : list (Z * Z) := (fun i => (i, pos)) <$> l.

Lemma chain_spec c pos : ok c -> c <> 0 -> forall fuel v next cur ctx, inner words v -> (length v < fuel)%nat -> p_tran psp (st v) c = Ret next -> transition psp words st v c next ->
  exists ret s ctx', chain cb fuel psp c pos (st v) next cur ctx = Ret (ret, s, ctx') /\ (ret, ctx') = feed cb (at_pos pos (occs words (v ++ [c]))) ctx /\
    (ret = 0 -> found v c cur s).
Proof.
  intros Hok Hc. induction fuel as [|n IH]; intros v next cur ctx Hv Hl Ep Ht; [lia|]. cbn [chain].
  set (go := fun (cur : Z) (ctx : C) => if st v =? ROOT then Ret (0, cur, ctx) else
     s ← back_state psp (st v); next ← p_tran psp s c; chain cb n psp c pos s next cur ctx).
  assert (Hgo : forall cur' ctx', (cur' <> 0 \/ ~ inner words (v ++ [c])) -> exists ret s ctx'', go cur' ctx' = Ret (ret, s, ctx'') /\
     (ret, ctx'') = feed cb (at_pos pos (occs words (tail (v ++ [c])))) ctx' /\ (ret = 0 -> found v c cur' s)).
  { intros cur' ctx' Hor. unfold go, ROOT. destruct (Z.eqb_spec (st v) 0) as [Hz|Hz].
    - apply st_zero in Hz as ->; [|done]. exists 0, cur', ctx'. split; [done|]. split; [done|]. intros _. unfold found. destruct (Z.eqb_spec cur' 0) as [->|]; [|done].
      exists []. split; [by rewrite m_root|]. split; [by left|]. split; [by exists [c]|]. intros w Hw Hs. destruct (decide (w = [])) as [->|Hne]; [done|].
      exfalso. destruct (suffix_inner words [] c w (inner_in_tree _ _ Hw) Hs Hne) as (z & -> & Hz & _). apply suffix_nil_inv in Hz as ->. by destruct Hor.
    - assert (Hne : v <> []) by (intros ->; by rewrite m_root in Hz). destruct (m_back v) as (v' & -> & Hlong); [done..|]. bind.
      destruct (m_tran v' c) as (next' & E' & Ht'); [apply Hlong|done..|]. rewrite E'. bind.
      destruct (IH v' next' cur' ctx') as (ret & s & ctx'' & -> & Hf & Hs); [apply Hlong| |done|done|].
      { destruct Hlong as (_ & Hp & _). apply proper_length in Hp. lia. }
      exists ret, s, ctx''. split; [done|]. split.
      + rewrite Hf. f_equal. f_equal. pose proof (occs_next v v' c Hlong) as E. rewrite occs_nonempty in E by by destruct v. apply app_inv_head in E. by symmetry.
      + intros Hr. specialize (Hs Hr). unfold found in *. destruct (Z.eqb_spec cur' 0) as [->|]; [|done]. destruct Hs as (x & -> & Hx). exists x. split; [done|].
        destruct Hor as [?|Hor]; [done|]. by eapply longest_next. }
  rewrite (occs_nonempty _ (v ++ [c])) by by destruct v. destruct (t_valid psp next) eqn:Ev.
  - apply (tr_valid _ _ _ _ _ _ Ht) in Ev as Hin.
    assert (Hm : exists ret ctx1, (if Z.land next IS_MATCH =? 0 then Ret (0, ctx) else strno ← match_strno psp (u32 (st v + c)); Ret (cb strno pos ctx)) = Ret (ret, ctx1) /\
       (ret, ctx1) = feed cb (at_pos pos match last_index 0 words (v ++ [c]) with Some i => [i] | None => [] end) ctx).
    { pose proof (tr_match _ _ _ _ _ _ Ht Hin) as Hmm. destruct (Z.eqb_spec (Z.land next IS_MATCH) 0) as [Hz|Hz].
      - exists 0, ctx. split; [done|]. destruct (last_index 0 words (v ++ [c])) as [j0|] eqn:El; [|done]. exfalso. assert (Hw : v ++ [c] ∈ words) by (apply (last_index_word _ _ 0); by exists j0). tauto.
      - apply Hmm in Hz. rewrite (tr_strno _ _ _ _ _ _ Ht Hz). apply (last_index_word _ _ 0) in Hz as [i Ei]. rewrite Ei. bind.
        destruct (cb i pos ctx) as [r ctx1] eqn:Ecb. exists r, ctx1. split; [done|]. cbn. rewrite Ecb. destruct (Z.eqb_spec r 0) as [->|]; done. }
    destruct Hm as (ret & ctx1 & -> & Hf1). bind. unfold at_pos in *. rewrite fmap_app, feed_app, <-Hf1. destruct (Z.eqb_spec ret 0) as [->|Hr]; cbn [negb].
    + set (cur1 := if (cur =? 0) && negb (t_isleaf psp next) then t_next psp next else cur).
      assert (Hcur : (cur1 <> 0 /\ found v c cur cur1) \/ (cur1 = 0 /\ cur = 0 /\ ~ inner words (v ++ [c]))).
      { unfold cur1, found. destruct (Z.eqb_spec cur 0) as [->|]; cbn [andb]; [|by left]. destruct (t_isleaf psp next) eqn:Elf; cbn [negb].
        - right. split_and!; [done..|]. intros Hi. apply (tr_leaf _ _ _ _ _ _ Ht Hin) in Hi. congruence.
        - apply (tr_leaf _ _ _ _ _ _ Ht Hin) in Elf as Hi. rewrite (tr_next _ _ _ _ _ _ Ht Hi). left. split; [apply m_inner; [done|by destruct v]|].
          exists (v ++ [c]). split; [done|]. split; [done|]. split; [done|]. intros w _ Hw. by apply suffix_length. }
      change (0 =? 0) with true. cbv iota. destruct (Z.eqb_spec cur1 0) as [Hz|Hz]; cbn [negb andb].
      * destruct Hcur as [[? _]|(_ & -> & Hni)]; [done|]. destruct (Hgo cur1 ctx1) as (ret & s & ctx2 & E2 & Hf & Hs); [by right|]. exists ret, s, ctx2. split; [exact E2|].
        split; [exact Hf|]. by rewrite Hz in Hs.
      * destruct Hcur as [[_ Hcur]|[? _]]; [|done]. destruct (Z.eqb_spec (Z.land next IS_SUFFIX) 0) as [Hsf|Hsf]; cbn [negb].
        -- exists 0, cur1, ctx1. split; [done|]. split; [|done]. rewrite occs_none; [done|]. intros w Hw Hws. apply (tr_suffix _ _ _ _ _ _ Ht Hin Hsf w Hw).
           apply proper_tail; [by destruct v|done].
        -- destruct (Hgo cur1 ctx1) as (ret & s & ctx2 & E2 & Hf & Hs); [by left|]. exists ret, s, ctx2. split; [exact E2|]. split; [exact Hf|]. intros Hr. specialize (Hs Hr).
           unfold found in Hs at 1. destruct (Z.eqb_spec cur1 0); [done|]. by rewrite Hs.
    + exists ret, cur, ctx1. done.
  - assert (Hn : ~ in_tree words (v ++ [c])) by (intros H; apply (tr_valid _ _ _ _ _ _ Ht) in H; congruence).
    destruct (last_index 0 words (v ++ [c])) as [j0|] eqn:El; [exfalso; apply Hn, in_tree_word, (last_index_word _ _ 0); by exists j0|].
    destruct (Hgo cur ctx) as (ret & s & ctx2 & E2 & Hf & Hs); [right; intros Hi; by apply Hn, inner_in_tree|]. exists ret, s, ctx2. split; [exact E2|]. split; [exact Hf|exact Hs].
Qed.

(** ** The whole scan *)

Lemma no_flags next : Z.land next (Z.lor IS_MATCH IS_SUFFIX) = 0 <-> Z.land next IS_MATCH = 0 /\ Z.land next IS_SUFFIX = 0.
Proof. rewrite Z.land_lor_distr_r, Z.lor_eq_0_iff. done. Qed.

Lemma zero_symbol d w : inner words w -> w `suffix_of` d ++ [0] -> w = [].
Proof.
  intros Hw [k Ek]. destruct w as [|x w _] using rev_ind; [done|]. rewrite app_assoc in Ek. apply app_inj_tail in Ek as [_ <-].
  exfalso. destruct (inner_in_tree _ _ Hw) as [E|(w' & Hw' & [j Ej])]; [by destruct w|]. apply (m_nozero w' Hw'). rewrite Ej, <-app_assoc. set_solver.
Qed.

Lemma longest_extend d c v x : v `suffix_of` d -> (forall y, inner words y -> y `suffix_of` d -> in_tree words (y ++ [c]) -> (length y <= length v)%nat) ->
  longest_suffix (inner words) (v ++ [c]) x -> longest_suffix (inner words) (d ++ [c]) x.
Proof.
  intros Hvd Hmax (Hx & Hs & Hm). destruct Hvd as [k ->]. split; [done|]. split; [etrans; [exact Hs|]; exists k; by rewrite app_assoc|].
  intros y Hy Hys. destruct (decide (y = [])) as [->|Hyn]; [cbn; lia|]. apply Hm; [done|].
  destruct (suffix_inner words _ _ _ (inner_in_tree _ _ Hy) Hys Hyn) as (z & -> & Hz & Hzi). specialize (Hmax z Hzi Hz (inner_in_tree _ _ Hy)).
  assert (Hzv : z `suffix_of` v).
  { destruct (decide (length z = length v)) as [El|]; [by rewrite (suffix_same z v (k ++ v) Hz ltac:(by exists k) El)|]. apply (suffix_shorter z v (k ++ v)); [done|by exists k|lia]. }
  destruct Hzv as [j ->]. exists j. by rewrite app_assoc.
Qed.

(** The symbols of a text. *)
Definition sym_of (c : Z) : Z := nth (Z.to_nat c) (symv psp) 0.
Definition good_byte (c : Z) : Prop := zget (symv psp) c = Ret (sym_of c) /\ (sym_of c <> 0 -> ok (sym_of c)).

(** From the state of the text [d] that came before, in which the text before is [d]. *)
Lemma more_loop_spec text : forall d pos u ctx, Forall good_byte text -> longest_suffix (inner words) d u ->
  exists ret s ctx', more_loop cb psp text pos (st u) ctx = Ret (ret, s, ctx') /\
    (ret, ctx') = feed cb (occurrences words d pos (sym_of <$> text)) ctx /\ (ret = 0 -> exists v, s = st v /\ longest_suffix (inner words) (d ++ (sym_of <$> text)) v).
Proof.
  induction text as [|c text IH]; intros d pos u ctx Hok Hu; cbn [more_loop fmap list_fmap occurrences].
  { exists 0, (st u), ctx. split_and!; [done|done|]. intros _. exists u. by rewrite app_nil_r. }
  apply Forall_cons in Hok as [[Es Hs0] Hok]. rewrite Es. bind. set (s0 := sym_of c) in *.
  assert (Hrec : forall u' ctx', longest_suffix (inner words) (d ++ [s0]) u' -> exists ret s ctx'',
    more_loop cb psp text (pos + 1) (st u') ctx' = Ret (ret, s, ctx'') /\ (ret, ctx'') = feed cb (occurrences words (d ++ [s0]) (pos + 1) (sym_of <$> text)) ctx' /\
    (ret = 0 -> exists v, s = st v /\ longest_suffix (inner words) (d ++ s0 :: (sym_of <$> text)) v)).
  { intros u' ctx' Hu'. destruct (IH (d ++ [s0]) (pos + 1) u' ctx' Hok Hu') as (ret & s & ctx'' & H2 & H3 & H4).
    exists ret, s, ctx''. split; [done|]. split; [done|]. by rewrite <-app_assoc in H4. }
  assert (Hquiet : forall u', occs words (d ++ [s0]) = [] -> longest_suffix (inner words) (d ++ [s0]) u' -> exists ret s ctx'',
    more_loop cb psp text (pos + 1) (st u') ctx = Ret (ret, s, ctx'') /\
    (ret, ctx'') = feed cb (((fun i => (i, pos + 1)) <$> occs words (d ++ [s0])) ++ occurrences words (d ++ [s0]) (pos + 1) (sym_of <$> text)) ctx /\
    (ret = 0 -> exists v, s = st v /\ longest_suffix (inner words) (d ++ s0 :: (sym_of <$> text)) v)).
  { intros u' -> Hu'. by apply Hrec. }
  destruct (Z.eqb_spec s0 0) as [Hz0|Hne].
  { unfold ROOT. pose proof (Hquiet []) as Hq. rewrite m_root in Hq. apply Hq; rewrite Hz0.
    - apply occs_none. intros w Hw [k Ek]. destruct w as [|x w _] using rev_ind; [done|]. exfalso. rewrite app_assoc in Ek. apply app_inj_tail in Ek as [_ <-].
      apply (m_nozero (w ++ [0]) Hw). set_solver.
    - split; [by left|]. split; [by exists (d ++ [0]); rewrite app_nil_r|]. intros w Hw Hs. by rewrite (zero_symbol d w Hw Hs). }
  destruct Hu as (Hui & Hus & Humax). destruct (find_tran_spec s0 (Hs0 Hne) Hne (chain_fuel psp) u Hui) as (v & next & -> & Hv & Hvs & Ep & Ht & Hor & Hmax).
  { pose proof (inner_length u Hui). lia. }
  bind. assert (Hvd : v `suffix_of` d) by by etrans.
  assert (Hmaxd : forall x, inner words x -> x `suffix_of` d -> in_tree words (x ++ [s0]) -> (length x <= length v)%nat).
  { intros x Hx Hxd Hxt. apply Hmax; [done| |done]. specialize (Humax x Hx Hxd). destruct (decide (length x = length u)) as [El|]; [by rewrite (suffix_same x u d Hxd Hus El)|].
    apply (suffix_shorter x u d); [done..|lia]. }
  assert (Hocc : occs words (d ++ [s0]) = occs words (v ++ [s0])).
  { apply occs_suffix; [destruct Hvd as [k ->]; exists k; by rewrite app_assoc|]. intros w Hw Hws. destruct (decide (w = [])) as [->|Hwn]; [cbn; lia|].
    destruct (suffix_inner words d s0 w (in_tree_word _ _ Hw) Hws Hwn) as (x & -> & Hx & Hxi). rewrite !length_app. specialize (Hmaxd x Hxi Hx (in_tree_word _ _ Hw)). cbn. lia. }
  destruct (t_valid psp next) eqn:Ev; cbn [negb].
  - apply (tr_valid _ _ _ _ _ _ Ht) in Ev as Hin. destruct (Z.eqb_spec (Z.land next (Z.lor IS_MATCH IS_SUFFIX)) 0) as [Hf|Hf].
    + apply no_flags in Hf as [Hf1 Hf2]. assert (Hnw : v ++ [s0] ∉ words) by (intros H; by apply (tr_match _ _ _ _ _ _ Ht Hin) in H).
      assert (Hi : inner words (v ++ [s0])) by (by apply not_word_inner). rewrite (tr_next _ _ _ _ _ _ Ht Hi). apply Hquiet; [|by apply longest_state_step].
      rewrite Hocc. apply occs_none. intros w Hw Hws. destruct (decide (w = v ++ [s0])) as [->|]; [done|]. by apply (tr_suffix _ _ _ _ _ _ Ht Hin Hf2).
    + destruct (chain_spec s0 (pos + 1) (Hs0 Hne) Hne (chain_fuel psp) v next (if t_isleaf psp next then 0 else t_next psp next) ctx) as (ret & s & ctx1 & -> & Hfd & Hst); [done| |done|done|].
      { pose proof (inner_length v Hv). lia. }
      bind. destruct (Z.eqb_spec ret 0) as [->|Hr]; cbn [negb].
      * assert (Hs : exists x, s = st x /\ longest_suffix (inner words) (d ++ [s0]) x).
        { specialize (Hst eq_refl). unfold found in Hst. destruct (t_isleaf psp next) eqn:Elf.
          - cbn in Hst. destruct Hst as (x & -> & Hx). exists x. split; [done|]. by eapply longest_extend.
          - apply (tr_leaf _ _ _ _ _ _ Ht Hin) in Elf as Hi. rewrite (tr_next _ _ _ _ _ _ Ht Hi) in Hst. destruct (Z.eqb_spec (st (v ++ [s0])) 0) as [Hz|_].
            + by apply m_inner in Hz; [|done|destruct v].
            + exists (v ++ [s0]). split; [done|]. by apply longest_state_step. }
        destruct Hs as (x & -> & Hx). destruct (Hrec x ctx1 Hx) as (ret & s & ctx'' & H2 & H3 & H4). exists ret, s, ctx''. split; [done|]. split; [|done].
        rewrite feed_app, Hocc. unfold at_pos in Hfd. by rewrite <-Hfd.
      * exists ret, s, ctx1. split; [done|]. split; [|done]. rewrite feed_app, Hocc. unfold at_pos in Hfd. rewrite <-Hfd. by destruct (Z.eqb_spec ret 0).
  - destruct Hor as [Hin| ->]; [apply (tr_valid _ _ _ _ _ _ Ht) in Hin; congruence|]. apply Hquiet.
    + rewrite Hocc. apply occs_none. intros w Hw Hws. destruct (decide (w = [])); [done|]. exfalso.
      destruct (suffix_inner words [] s0 w (in_tree_word _ _ Hw) Hws) as (x & -> & Hx%suffix_nil_inv & _); [done|]. subst x.
      apply in_tree_word, (tr_valid _ _ _ _ _ _ Ht) in Hw. congruence.
    + split; [by left|]. split; [by exists (d ++ [s0]); rewrite app_nil_r|]. intros w Hw Hws. destruct (decide (w = [])) as [->|Hwn]; [done|].
      destruct (suffix_inner words d s0 w (inner_in_tree _ _ Hw) Hws Hwn) as (x & -> & Hx & Hxi). pose proof (Hmaxd x Hxi Hx (inner_in_tree _ _ Hw)) as Hl.
      destruct x; [|cbn in Hl; lia]. apply inner_in_tree, (tr_valid _ _ _ _ _ _ Ht) in Hw. congruence.
Qed.
End callback.
End scan.
