(* ===== verification/AcismTree.v ===== *)
(** The tree that acism_create.c builds from the strings: its nodes are the prefixes of the
    strings, the children of a node are sorted by symbol, and a node knows the last string
    that ends there. *)
From Stdlib Require Import Sorted.
From S2P Require Import Prelude Arrays Suffix Acism AcismScan.

(** ** Shape of a tree *)

(** The list of siblings from a pointer on. *)
Inductive sibs (t : tree) : option nat -> list nat -> Prop :=
| sibs_nil : sibs t None []
| sibs_cons q nd ks : t !! q = Some nd -> sibs t (next nd) ks -> sibs t (Some q) (q :: ks).

(** [ks] are the children of [u], with symbols [cs]. *)
Record kids (path : list (list Z)) (u : list Z) (ks : list nat) (cs : list Z) : Prop := Kids {
  kd_each : Forall2 (fun q c => path !! q = Some (u ++ [c])) ks cs;
  kd_sorted : StronglySorted Z.lt cs;
  kd_all : forall q c, path !! q = Some (u ++ [c]) -> q ∈ ks
}.

(** [path] gives the prefix that each node stands for. *)
Record shape (t : tree) (path : list (list Z)) : Prop := Shape {
  sh_size : (length path <= length t)%nat;
  sh_root : path !! 0%nat = Some [];
  sh_nodup : NoDup path;
  sh_step : forall i u nd, path !! i = Some u -> t !! i = Some nd -> u <> [] -> exists v, u = v ++ [sym nd] /\ v ∈ path;
  sh_kids : forall i u nd, path !! i = Some u -> t !! i = Some nd -> exists ks cs, sibs t (child nd) ks /\ kids path u ks cs
}.

Lemma sibs_mono t t' o ks : sibs t o ks -> (forall q, q ∈ ks -> next <$> t' !! q = next <$> t !! q) -> sibs t' o ks.
Proof.
  induction 1 as [|q nd ks E _ IH]; intros H; [constructor|]. pose proof (H q (list_elem_of_here _ _)) as Hq. rewrite E in Hq.
  destruct (t' !! q) as [nd'|] eqn:E'; [|done]. injection Hq as Hq. apply (sibs_cons _ _ nd'); [done|]. rewrite Hq. apply IH.
  intros q' Hin. apply H. by right.
Qed.

Lemma sibs_fun t o ks ks' : sibs t o ks -> sibs t o ks' -> ks = ks'.
Proof.
  intros H. revert ks'. induction H as [|q nd ks E _ IH]; intros ks' H'; inversion H' as [|? nd' ? E' H'' ]; subst; [done|].
  rewrite E in E'. injection E' as <-. f_equal. by apply IH.
Qed.

(** The chain with a node put in after [l1]. *)
Lemma sibs_insert t t' l2 n nn : t' !! n = Some nn -> forall l1 o, sibs t o (l1 ++ l2) -> NoDup (l1 ++ l2) ->
  (forall q, q ∈ l1 ++ l2 -> next <$> t' !! q = if decide (last l1 = Some q) then Some (Some n) else next <$> t !! q) ->
  sibs t (next nn) l2 -> sibs t' (match l1 with [] => Some n | _ => o end) (l1 ++ n :: l2).
Proof.
  intros En l1. induction l1 as [|q l1 IH]; intros o H Hnd Hq Hn; cbn [app] in *.
  - apply (sibs_cons _ _ nn); [done|]. eapply sibs_mono; [exact Hn|]. intros q Hin. by rewrite Hq.
  - inversion H as [|? nd ? Eq Hs]; subst. pose proof (Hq q (list_elem_of_here _ _)) as Hqq. rewrite Eq in Hqq.
    destruct (t' !! q) as [nd'|] eqn:Eq'; [|by case_decide]. apply (sibs_cons _ _ nd'); [done|].
    apply NoDup_cons in Hnd as [Hqn Hnd]. destruct l1 as [|q1 l1].
    + rewrite decide_True in Hqq by done. injection Hqq as Hqq. rewrite Hqq. cbn [app]. apply (sibs_cons _ _ nn); [done|]. eapply sibs_mono; [exact Hn|].
      intros q' Hin. cbn [app] in Hq. rewrite Hq by by right. rewrite decide_False; [done|]. cbn. intros [= ->]. done.
    + rewrite decide_False in Hqq; [|intros El; apply Hqn, elem_of_app; left; by apply last_Some_elem_of]. injection Hqq as Hqq. rewrite Hqq.
      apply (IH (next nd)); [done|done| |done]. intros q' Hin. rewrite Hq by by right. done.
Qed.

(** ** Facts about a shape *)

Section shape.
Context (t : tree) (path : list (list Z)) (Hs : shape t path).

Lemma shape_node i u : path !! i = Some u -> exists nd, t !! i = Some nd.
Proof. intros E. apply lookup_lt_is_Some. apply lookup_lt_Some in E. pose proof (sh_size _ _ Hs). lia. Qed.

Lemma path_inj i j u : path !! i = Some u -> path !! j = Some u -> i = j.
Proof. intros Hi Hj. by eapply NoDup_lookup; [apply (sh_nodup _ _ Hs)|..]. Qed.

Lemma path_last i u c nd : path !! i = Some (u ++ [c]) -> t !! i = Some nd -> sym nd = c /\ u ∈ path.
Proof.
  intros Ei En. destruct (sh_step _ _ Hs i _ _ Ei En) as (v & Ev & Hv); [by destruct u|]. by apply app_inj_tail in Ev as [-> ->].
Qed.

Lemma path_prefix u v : v ∈ path -> u `prefix_of` v -> u ∈ path.
Proof.
  revert u. induction v as [|c v IH] using rev_ind; intros u Hv Hu; [by apply prefix_nil_inv in Hu as ->|]. destruct Hu as [k Ek].
  destruct k as [|x k _] using rev_ind; [rewrite app_nil_r in Ek; by subst|]. rewrite app_assoc in Ek. apply app_inj_tail in Ek as [-> _].
  apply list_elem_of_lookup in Hv as [i Ei]. destruct (shape_node i _ Ei) as [nd En]. destruct (path_last i _ _ nd Ei En) as [_ Hin]. apply IH; [done|by exists k].
Qed.

Lemma kids_lt u ks cs q : kids path u ks cs -> q ∈ ks -> exists c, c ∈ cs /\ path !! q = Some (u ++ [c]).
Proof. intros [H _ _] [i Ei]%list_elem_of_lookup. destruct (Forall2_lookup_l _ _ _ _ _ H Ei) as (c & Ec & Eq). exists c. split; [by eapply list_elem_of_lookup_2|done]. Qed.

Lemma kids_sym u ks cs c : kids path u ks cs -> c ∈ cs -> exists q, q ∈ ks /\ path !! q = Some (u ++ [c]).
Proof. intros [H _ _] [i Ei]%list_elem_of_lookup. destruct (Forall2_lookup_r _ _ _ _ _ H Ei) as (q & Eq & Ep). exists q. split; [by eapply list_elem_of_lookup_2|done]. Qed.

Lemma kids_nodup u ks cs : kids path u ks cs -> NoDup ks.
Proof.
  intros [H Hst _]. revert Hst. induction H as [|q c ks cs Eq H IH]; intros Hst; [constructor|]. apply StronglySorted_inv in Hst as [Hst Hc].
  apply NoDup_cons. split; [|by apply IH]. intros [i Ei]%list_elem_of_lookup. destruct (Forall2_lookup_l _ _ _ _ _ H Ei) as (c' & Ec & Eq').
  rewrite Eq in Eq'. apply (inj Some), app_inv_head in Eq'. injection Eq' as <-. rewrite Forall_forall in Hc. apply list_elem_of_lookup_2 in Ec. specialize (Hc c Ec). lia.
Qed.
End shape.

Lemma sorted_insert c1 c c2 : StronglySorted Z.lt (c1 ++ c2) -> Forall (fun x => x < c) c1 -> Forall (fun x => c < x) c2 -> StronglySorted Z.lt (c1 ++ c :: c2).
Proof.
  intros H H1 H2. induction c1 as [|x c1 IH]; cbn in *; [by constructor|]. apply StronglySorted_inv in H as [H Hx]. apply Forall_cons in H1 as [Hxc H1].
  constructor; [by apply IH|]. apply Forall_app in Hx as [Hx1 Hx2]. apply Forall_app. split; [done|]. by constructor.
Qed.

(** A new node [n] for [u ++ [c]], put between the children [l1] and [l2] of [p]. *)
Lemma shape_insert t t' path p u c l1 l2 c1 c2 ndp nn :
  let n := length path in
  shape t path -> (n < length t)%nat -> length t' = length t -> path !! p = Some u -> t !! p = Some ndp ->
  sibs t (child ndp) (l1 ++ l2) -> kids path u (l1 ++ l2) (c1 ++ c2) -> length l1 = length c1 -> Forall (fun x => x < c) c1 -> Forall (fun x => c < x) c2 ->
  t' !! n = Some nn -> child nn = None -> sym nn = c -> sibs t (next nn) l2 ->
  (forall i nd, (i < n)%nat -> t !! i = Some nd -> exists nd', t' !! i = Some nd' /\ sym nd' = sym nd /\
     next nd' = (if decide (last l1 = Some i) then Some n else next nd) /\ child nd' = (if decide (i = p /\ l1 = []) then Some n else child nd)) ->
  shape t' (path ++ [u ++ [c]]).
Proof.
  intros n Hs Hn Hlen Ep Endp Hsib Hk Hl H1 H2 En Hch Hsym Hnext Hold. pose proof (kids_nodup path _ _ _ Hk) as Hnd.
  assert (Hnew : u ++ [c] ∉ path).
  { intros [q Eq]%list_elem_of_lookup. pose proof (kd_all _ _ _ _ Hk q c Eq) as Hq. destruct (kids_lt path _ _ _ q Hk Hq) as (c' & Hc' & Eq').
    rewrite Eq in Eq'. apply (inj Some), app_inv_head in Eq'. injection Eq' as <-. apply elem_of_app in Hc'. rewrite Forall_forall in H1, H2.
    destruct Hc' as [Hc'|Hc']; [apply H1 in Hc'|apply H2 in Hc']; lia. }
  assert (Hlt : forall q, q ∈ l1 ++ l2 -> (q < n)%nat) by (intros q Hq; destruct (kids_lt path _ _ _ q Hk Hq) as (c' & _ & Eq); by apply lookup_lt_Some in Eq).
  assert (Hnx : forall q, (q < n)%nat -> next <$> t' !! q = if decide (last l1 = Some q) then Some (Some n) else next <$> t !! q).
  { intros q Hq. destruct (lookup_lt_is_Some_2 t q) as [nd E]; [lia|]. destruct (Hold q nd Hq E) as (nd' & -> & _ & Hx & _). rewrite E. cbn. rewrite Hx. by case_decide. }
  split.
  - rewrite length_app, Hlen. cbn. lia.
  - rewrite lookup_app_l; [apply (sh_root _ _ Hs)|]. pose proof (sh_root _ _ Hs) as Hr. by apply lookup_lt_Some in Hr.
  - apply NoDup_app. split; [apply (sh_nodup _ _ Hs)|]. split; [|apply NoDup_singleton]. intros x Hx Hx'. apply list_elem_of_singleton in Hx' as ->. done.
  - intros i v nd Ei E Hv. apply lookup_snoc_Some in Ei as [[Hi Ei]|[-> <-]].
    + destruct (shape_node t path Hs i v Ei) as [nd0 E0]. destruct (Hold i nd0 Hi E0) as (nd' & E' & Hy & _). rewrite E in E'. injection E' as <-.
      destruct (sh_step _ _ Hs i v nd0 Ei E0 Hv) as (v' & -> & Hin). exists v'. rewrite Hy. split; [done|]. apply elem_of_app. by left.
    + fold n in E. rewrite En in E. injection E as <-. exists u. rewrite Hsym. split; [done|]. apply elem_of_app. left. by eapply list_elem_of_lookup_2.
  - intros i v nd Ei E. apply lookup_snoc_Some in Ei as [[Hi Ei]|[-> <-]].
    + destruct (shape_node t path Hs i v Ei) as [nd0 E0]. destruct (Hold i nd0 Hi E0) as (nd' & E' & _ & _ & Hc). rewrite E in E'. injection E' as <-.
      destruct (decide (i = p)) as [->|Hip].
      * rewrite Endp in E0. injection E0 as <-. rewrite Ep in Ei. injection Ei as <-. exists (l1 ++ n :: l2), (c1 ++ c :: c2). split.
        -- assert (child nd = match l1 with [] => Some n | _ => child ndp end) as ->; [rewrite Hc; destruct l1; [by rewrite decide_True|rewrite decide_False; [done|by intros [_ ?]]]|].
           eapply sibs_insert; [exact En|exact Hsib|done| |done]. intros q Hq. by apply Hnx, Hlt.
        -- destruct Hk as [K1 K2 K3]. apply Forall2_app_inv in K1 as [K1 K1']; [|done]. split; [|by apply sorted_insert|].
           ++ assert (Hup : forall q x, path !! q = Some x -> (path ++ [u ++ [c]]) !! q = Some x) by (intros q x Hq; by apply lookup_app_l_Some).
              apply Forall2_app; [eapply Forall2_impl; [exact K1|]; intros q x; apply Hup|]. constructor; [|eapply Forall2_impl; [exact K1'|]; intros q x; apply Hup].
              by apply list_lookup_middle.
           ++ intros q x Hq. apply lookup_snoc_Some in Hq as [[_ Hq]|[-> Hq]]; [apply K3 in Hq; set_unfold; naive_solver|]. apply elem_of_app. right. by left.
      * destruct (sh_kids _ _ Hs i v nd0 Ei E0) as (ks & cs & Hks & Hkd). exists ks, cs. rewrite decide_False in Hc by (by intros [? _]). rewrite Hc. split.
        -- eapply sibs_mono; [exact Hks|]. intros q Hq. destruct (kids_lt path _ _ _ q Hkd Hq) as (x & _ & Eq). rewrite Hnx by by apply lookup_lt_Some in Eq.
           rewrite decide_False; [done|]. intros El%last_Some_elem_of. destruct (kids_lt path _ _ _ q Hk) as (y & _ & Eq'); [apply elem_of_app; by left|].
           rewrite Eq in Eq'. apply (inj Some), app_inj_tail in Eq' as [-> _]. by apply Hip, (path_inj t path Hs i p u).
        -- destruct Hkd as [K1 K2 K3]. split; [|done|].
           ++ eapply Forall2_impl; [exact K1|]. intros q x Hq. by apply lookup_app_l_Some.
           ++ intros q x Hq. apply lookup_snoc_Some in Hq as [[_ Hq]|[-> Hq]]; [by apply K3 in Hq|]. apply app_inj_tail in Hq as [<- _]. exfalso.
              by apply Hip, (path_inj t path Hs i p u).
    + fold n in E. rewrite En in E. injection E as <-. exists [], []. rewrite Hch. split; [constructor|]. split; [constructor|constructor|].
      intros q x Hq. exfalso. apply lookup_snoc_Some in Hq as [[_ Hq]|[-> Hq]].
      * apply list_elem_of_lookup_2 in Hq. apply Hnew. eapply path_prefix; [exact Hs|exact Hq|]. by apply prefix_app_r.
      * apply (f_equal length) in Hq. rewrite !length_app in Hq. cbn in Hq. lia.
Qed.

(** ** The tree while it is built *)

(** The [match] of a node. *)
Definition mark (ws : list (list Z)) (u : list Z) : Z := match last_index 0 ws u with Some j => j + 1 | None => 0 end.

Definition node_ok (ws : list (list Z)) (u : list Z) (nd : TNODE) : Prop :=
  back nd = match u with [] => None | _ => Some 0%nat end /\ is_suffix nd = false /\ state nd = 0 /\ match_ nd = mark ws u.

Record built (t : tree) (path : list (list Z)) (ws : list (list Z)) : Prop := Built {
  bt_shape : shape t path;
  bt_nodes : forall i u nd, path !! i = Some u -> t !! i = Some nd -> node_ok ws u nd;
  bt_words : forall w, w ∈ ws -> w ∈ path
}.

(** The nodes from [k] on have not been used. *)
Definition fresh (t : tree) (k : nat) : Prop := forall i, (k <= i < length t)%nat -> t !! i = Some no_node.

Lemma modify_run (t : tree) i f nd : t !! i = Some nd -> modify t i f = Ret (<[i := f nd]> t).
Proof. intros E. unfold modify, node. by rewrite E. Qed.

Lemma node_run (t : tree) i nd : t !! i = Some nd -> node t i = Ret nd.
Proof. intros E. unfold node. by rewrite E. Qed.

Lemma mark_word ws u : mark ws u <> 0 -> u ∈ ws.
Proof. unfold mark. destruct (last_index 0 ws u) as [j|] eqn:E; [|done]. intros _. apply (last_index_word _ _ 0). by exists j. Qed.

Lemma built_insert t t' path ws p u c l1 l2 c1 c2 ndp nn :
  let n := length path in
  built t path ws -> (n < length t)%nat -> length t' = length t -> path !! p = Some u -> t !! p = Some ndp ->
  sibs t (child ndp) (l1 ++ l2) -> kids path u (l1 ++ l2) (c1 ++ c2) -> length l1 = length c1 -> Forall (fun x => x < c) c1 -> Forall (fun x => c < x) c2 ->
  t' !! n = Some (mkTNODE None nn (Some 0%nat) 0 0 0 c false) -> sibs t nn l2 ->
  (forall i nd, (i < n)%nat -> t !! i = Some nd -> t' !! i = Some (set_child (if decide (i = p /\ l1 = []) then Some n else child nd)
     (set_next (if decide (last l1 = Some i) then Some n else next nd) nd))) ->
  built t' (path ++ [u ++ [c]]) ws.
Proof.
  intros n [Hs Hnd Hw] Hn Hlen Ep Endp Hsib Hk Hl H1 H2 En Hnext Hold.
  assert (Hs' : shape t' (path ++ [u ++ [c]])).
  { eapply (shape_insert t t' path p u c l1 l2 c1 c2 ndp); try done. intros i nd Hi E. rewrite (Hold i nd Hi E). by eexists. }
  split; [done| |].
  - intros i v nd Ei E. apply lookup_snoc_Some in Ei as [[Hi Ei]|[-> <-]].
    + destruct (shape_node t path Hs i v Ei) as [nd0 E0]. rewrite (Hold i nd0 Hi E0) in E. injection E as <-. by apply (Hnd i v nd0).
    + fold n in E. rewrite En in E. injection E as <-. split_and!; [by destruct u|done|done|]. cbn.
      destruct (decide (mark ws (u ++ [c]) = 0)) as [E|E]; [done|]. apply mark_word, Hw in E. exfalso.
      pose proof (sh_nodup _ _ Hs') as Hd. apply NoDup_app in Hd as (_ & Hd & _). apply (Hd _ E). by apply list_elem_of_singleton.
  - intros w Hin. apply elem_of_app. left. by apply Hw.
Qed.

(** ** Finding the place among the siblings *)

Definition has_sym (t : tree) (q : nat) (c : Z) : Prop := exists nd, t !! q = Some nd /\ sym nd = c.

Lemma kids_syms t path u ks cs : shape t path -> kids path u ks cs -> Forall2 (has_sym t) ks cs.
Proof.
  intros Hs [H _ _]. eapply Forall2_impl; [exact H|]. intros q c Eq. destruct (shape_node t path Hs q _ Eq) as [nd E]. exists nd. split; [done|].
  by destruct (path_last t path Hs q u c nd Eq E).
Qed.

Lemma kids_bound path u ks cs : kids path u ks cs -> (length ks <= length path)%nat.
Proof.
  intros Hk. pose proof (kids_nodup path u ks cs Hk) as Hnd. rewrite <-(length_seq (length path) 0). apply submseteq_length, NoDup_submseteq; [done|].
  intros q Hq. destruct (kids_lt path u ks cs q Hk Hq) as (c & _ & E). apply elem_of_seq. apply lookup_lt_Some in E. lia.
Qed.

Lemma skip_spec t s : forall fuel q rest c0 cs, sibs t (Some q) (q :: rest) -> Forall2 (has_sym t) (q :: rest) (c0 :: cs) -> StronglySorted Z.lt (c0 :: cs) -> c0 <= s ->
  (length rest < fuel)%nat -> exists l1 tp l2 c1 ct c2 nd, skip fuel t s q = Ret tp /\ q :: rest = l1 ++ tp :: l2 /\ c0 :: cs = c1 ++ ct :: c2 /\ length l1 = length c1 /\
    t !! tp = Some nd /\ sym nd = ct /\ ct <= s /\ Forall (fun x => s < x) c2 /\ sibs t (next nd) l2.
Proof.
  induction fuel as [|n IH]; intros q rest c0 cs Hsib Hsy Hst Hc Hf; [lia|]. cbn [skip]. inversion Hsib as [|? nd ? Eq Hs']; subst.
  apply Forall2_cons in Hsy as [(nd' & Eq' & Hs0) Hsy]. rewrite Eq in Eq'. injection Eq' as <-. rewrite (node_run _ _ _ Eq). bind.
  destruct (next nd) as [q1|] eqn:Enx.
  - inversion Hs' as [|? nd1 rest1 Eq1 Hs1]; subst. apply Forall2_cons_inv_l in Hsy as (c1 & cs1 & (nd1' & Eq1' & Hs1') & Hsy1 & ->). rewrite Eq1 in Eq1'. injection Eq1' as <-.
    rewrite (node_run _ _ _ Eq1). bind. apply StronglySorted_inv in Hst as [Hst Hall]. destruct (Z.leb_spec (sym nd1) s) as [Hle|Hgt].
    + destruct (IH q1 rest1 c1 cs1) as (l1 & tp & l2 & k1 & ct & k2 & nd2 & -> & El & Ec & Hl & H1 & H2 & H3 & H4 & H5); [done|constructor; [by exists nd1|done]|done|lia|cbn in Hf; lia|].
      exists (q :: l1), tp, l2, (sym nd :: k1), ct, k2, nd2. rewrite El, Ec. cbn. split_and!; try done. by rewrite Hl.
    + exists [], q, (q1 :: rest1), [], (sym nd), (c1 :: cs1), nd. split_and!; try done; [|by rewrite Enx; apply (sibs_cons _ _ nd1)].
      constructor; [lia|]. apply StronglySorted_inv in Hst as [_ Hst]. eapply Forall_impl; [exact Hst|]. intros x Hx. cbn in *. lia.
  - inversion Hs'; subst. apply Forall2_nil_inv_l in Hsy as ->. exists [], q, [], [], (sym nd), [], nd. split_and!; try done. rewrite Enx. constructor.
Qed.

(** ** Adding a string *)

(** The strings as symbols, and their total length. *)
Definition encode (f : Z -> Z) (strv : list (list Z)) : list (list Z) := (fun s : list Z => f <$> s) <$> strv.
Fixpoint total (strv : list (list Z)) : nat := match strv with [] => 0 | s :: strv => length s + total strv end.

Section add.
Context (sv : list Z) (f : Z -> Z).

(** A byte with a symbol. *)
Definition coded (c : Z) : Prop := zget sv c = Ret (f c) /\ 0 < f c.

(** The paths put after [path] are prefixes of [w]. *)
Definition grown (path path' : list (list Z)) (w : list Z) : Prop := exists new, path' = path ++ new /\ Forall (fun v => v `prefix_of` w) new.

Lemma tree_grown_refl path w : grown path path w.
Proof. exists []. by rewrite app_nil_r. Qed.

Lemma tree_grown_trans p1 p2 p3 w : grown p1 p2 w -> grown p2 p3 w -> grown p1 p3 w.
Proof. intros (n1 & -> & H1) (n2 & -> & H2). exists (n1 ++ n2). rewrite <-app_assoc. split; [done|by apply Forall_app]. Qed.

(** What [extend] finds: the next node is to become the first child of [tp]. *)
Definition at_head (t : tree) (path : list (list Z)) (tp : nat) (u : list Z) (s : list Z) : Prop :=
  match s with
  | [] => fresh t (length path)
  | c :: _ => exists nd ks cs, t !! tp = Some nd /\ sibs t (child nd) ks /\ kids path u ks cs /\ Forall (fun x => f c < x) cs /\
                t !! length path = Some (set_next (child nd) no_node) /\ fresh t (S (length path))
  end.

Lemma extend_spec ws s : forall t path tp u, built t path ws -> path !! tp = Some u -> Forall coded s -> (length path + length s <= length t)%nat -> at_head t path tp u s ->
  exists t' path' tp', extend sv t (length path) tp s = Ret (t', length path', tp') /\ built t' path' ws /\ fresh t' (length path') /\ length t' = length t /\
    path' !! tp' = Some (u ++ (f <$> s)) /\ grown path path' (u ++ (f <$> s)) /\ (length path' <= length path + length s)%nat.
Proof.
  induction s as [|c s IH]; intros t path tp u Hb Ep Hs Hroom Hh; cbn [extend fmap list_fmap].
  { exists t, path, tp. rewrite app_nil_r. split_and!; try done; [apply tree_grown_refl|lia]. }
  destruct Hh as (nd & ks & cs & Et & Hsib & Hk & Hcs & En & Hf). apply Forall_cons in Hs as [[Ec Hc] Hs]. cbn [length] in Hroom.
  set (n := length path) in *. assert (Hn : (n < length t)%nat) by lia. assert (Htp : (tp < n)%nat) by by apply lookup_lt_Some in Ep.
  rewrite (modify_run _ _ _ _ Et). bind. rewrite Ec. bind. set (t1 := <[tp := _]> t).
  assert (E1 : t1 !! n = Some (set_next (child nd) no_node)) by (unfold t1; rewrite lookup_ins, decide_False; [done|lia|lia]).
  rewrite (modify_run _ _ _ _ E1). bind. set (t2 := <[n := _]> t1). assert (Hn1 : (n < length t1)%nat) by (unfold t1; by rewrite length_insert).
  assert (E2 : t2 !! n = Some (set_sym (f c) (set_next (child nd) no_node))) by (by apply list_lookup_insert_eq).
  rewrite (modify_run _ _ _ _ E2). bind. set (t3 := <[n := _]> t2). assert (Hn2 : (n < length t2)%nat) by (unfold t2; by rewrite length_insert).
  assert (Hl3 : length t3 = length t) by (unfold t3, t2, t1; by rewrite !length_insert).
  assert (Hold : forall i, i <> n -> t3 !! i = if decide (i = tp) then Some (set_child (Some n) nd) else t !! i).
  { intros i Hi. unfold t3, t2, t1. rewrite !list_lookup_insert_ne, lookup_ins by (done || lia). done. }
  assert (En3 : t3 !! n = Some (mkTNODE None (child nd) (Some 0%nat) 0 0 0 (f c) false)) by (by apply list_lookup_insert_eq).
  assert (Hb3 : built t3 (path ++ [u ++ [f c]]) ws).
  { eapply (built_insert t t3 path ws tp u (f c) [] ks [] cs nd (child nd)); try done. intros i nd0 Hi E0. rewrite Hold by lia. cbn [last]. rewrite (decide_False (P := None = Some i)) by done.
    destruct (decide (i = tp)) as [->|Hne]; [rewrite decide_True by done; rewrite Et in E0; injection E0 as <-; by destruct nd|].
    rewrite decide_False by (by intros [? _]). rewrite E0. by destruct nd0. }
  assert (Hpl : length (path ++ [u ++ [f c]]) = S n) by (rewrite length_app; cbn; lia).
  assert (Hpn : (path ++ [u ++ [f c]]) !! n = Some (u ++ [f c])) by by apply list_lookup_middle.
  destruct (IH t3 (path ++ [u ++ [f c]]) n (u ++ [f c])) as (t' & path' & tp' & E' & H1 & H2 & H3 & H4 & H5 & H6); try done.
  - rewrite Hpl, Hl3. lia.
  - unfold at_head. rewrite Hpl. assert (Hfr : fresh t3 (S n)).
    { intros i Hi. rewrite Hold, decide_False by lia. apply Hf. lia. }
    destruct s as [|c' s]; [done|]. eexists _, [], []. split; [exact En3|]. cbn [child]. split; [constructor|]. split; [|split; [constructor|]].
    + destruct (sh_kids _ _ (bt_shape _ _ _ Hb3) n _ _ Hpn En3) as (ks' & cs' & Hks & Hkd). inversion Hks; subst. destruct Hkd as [K1 K2 K3]. by apply Forall2_nil_inv_l in K1 as ->.
    + split; [apply Hfr; cbn [length] in Hroom; lia|]. intros i Hi. apply Hfr. lia.
  - rewrite Hpl in E'. exists t', path', tp'. split; [done|]. split; [done|]. split; [done|]. split; [lia|]. rewrite <-app_assoc in H4, H5. split; [done|]. split.
    + eapply tree_grown_trans; [|exact H5]. exists [u ++ [f c]]. split; [done|]. apply Forall_singleton. exists (f <$> s). by rewrite <-app_assoc.
    + cbn [length]. lia.
Qed.

(** A tree that differs where no node is yet. *)
Lemma built_beyond t x path ws : built t path ws -> built (<[length path := x]> t) path ws.
Proof.
  intros [Hs Hnd Hw]. set (n := length path). assert (Hsame : forall i u, path !! i = Some u -> <[n := x]> t !! i = t !! i).
  { intros i u Hi. rewrite list_lookup_insert_ne; [done|]. apply lookup_lt_Some in Hi. lia. }
  split; [|intros i u nd Ei E; rewrite (Hsame i u Ei) in E; by apply (Hnd i)|done]. destruct Hs as [S1 S2 S3 S4 S5].
  split; [by rewrite length_insert|done|done|intros i u nd Ei E; rewrite (Hsame i u Ei) in E; by apply S4 with i|].
  intros i u nd Ei E. rewrite (Hsame i u Ei) in E. destruct (S5 i u nd Ei E) as (ks & cs & H1 & H2). exists ks, cs. split; [|done].
  eapply sibs_mono; [exact H1|]. intros q Hq. destruct (kids_lt path _ _ _ q H2 Hq) as (c & _ & Eq). by rewrite (Hsame q _ Eq).
Qed.

Lemma fresh_beyond t x k : fresh t k -> fresh (<[k := x]> t) (S k).
Proof. intros Hf i Hi. rewrite length_insert in Hi. rewrite list_lookup_insert_ne by lia. apply Hf. lia. Qed.

(** The node that is to come before all children. *)
Lemma stage_head t path ws tp u nd k ks cs c s : built t path ws -> (length path < length t)%nat -> fresh t (length path) -> path !! tp = Some u -> t !! tp = Some nd ->
  child nd = Some k -> sibs t (Some k) ks -> kids path u ks cs -> Forall (fun x => f c < x) cs ->
  exists t1, modify t (length path) (set_next (Some k)) = Ret t1 /\ built t1 path ws /\ length t1 = length t /\ at_head t1 path tp u (c :: s).
Proof.
  intros Hb Hn Hf Ep Et Ech Hsib Hk Hcs. assert (En : t !! length path = Some no_node) by (apply Hf; lia). rewrite (modify_run _ _ _ _ En). eexists. split; [reflexivity|].
  split; [by apply built_beyond|]. split; [by rewrite length_insert|]. exists nd, ks, cs. apply lookup_lt_Some in Ep as Htp.
  rewrite list_lookup_insert_ne by lia. split; [done|]. rewrite Ech. split_and!; [|done|done|by apply list_lookup_insert_eq|by apply fresh_beyond].
  eapply sibs_mono; [exact Hsib|]. intros q Hq. destruct (kids_lt path _ _ _ q Hk Hq) as (x & _ & Eq). apply lookup_lt_Some in Eq. by rewrite list_lookup_insert_ne by lia.
Qed.

(** The symbols before a given one. *)
Lemma sorted_before c1 ct c2 : StronglySorted Z.lt (c1 ++ ct :: c2) -> Forall (fun x => x < ct) c1.
Proof.
  induction c1 as [|y c1 IH]; intros H; [constructor|]. cbn in H. apply StronglySorted_inv in H as [H Hy]. constructor; [|by apply IH].
  apply Forall_app in Hy as [_ Hy]. by apply Forall_cons in Hy as [Hy _].
Qed.

(** The new node after [tq]. *)
Lemma splice_node {B} (go : tree -> res B) t path ws tp u c l1 tq l2 c1 ct c2 nd ndq : built t path ws -> (length path < length t)%nat -> fresh t (length path) ->
  path !! tp = Some u -> t !! tp = Some nd -> sibs t (child nd) (l1 ++ tq :: l2) -> kids path u (l1 ++ tq :: l2) (c1 ++ ct :: c2) -> length l1 = length c1 ->
  t !! tq = Some ndq -> (tq < length path)%nat -> ct < c -> Forall (fun x => c < x) c2 -> sibs t (next ndq) l2 ->
  exists t4, (t ← modify t (length path) (set_next (next ndq)); t ← modify t tq (set_next (Some (length path)));
    t ← modify t (length path) (set_sym c); t ← modify t (length path) (set_back (Some 0%nat)); go t) = go t4 /\
    built t4 (path ++ [u ++ [c]]) ws /\ length t4 = length t /\ fresh t4 (S (length path)).
Proof.
  intros Hb Hn Hf Ep Et Hsib Hk Hl Eq Hqn Hlt Hgt Hs2. set (n := length path) in *.
  assert (En : t !! n = Some no_node) by (apply Hf; lia). rewrite (modify_run _ _ _ _ En). bind. set (t1 := <[n := _]> t).
  assert (E1 : t1 !! tq = Some ndq) by (unfold t1; by rewrite list_lookup_insert_ne by lia). rewrite (modify_run _ _ _ _ E1). bind. set (t2 := <[tq := _]> t1).
  assert (Hl1 : length t1 = length t) by (unfold t1; by rewrite length_insert). assert (Hl2 : length t2 = length t) by (unfold t2; by rewrite length_insert).
  assert (E2 : t2 !! n = Some (set_next (next ndq) no_node)) by (unfold t2; rewrite list_lookup_insert_ne by lia; apply list_lookup_insert_eq; lia).
  rewrite (modify_run _ _ _ _ E2). bind. set (t3 := <[n := _]> t2). assert (Hl3 : length t3 = length t) by (unfold t3; by rewrite length_insert).
  assert (E3 : t3 !! n = Some (set_sym c (set_next (next ndq) no_node))) by (apply list_lookup_insert_eq; lia).
  rewrite (modify_run _ _ _ _ E3). bind. set (t4 := <[n := _]> t3). assert (Hl4 : length t4 = length t) by (unfold t4; by rewrite length_insert).
  assert (Hold : forall i, i <> n -> t4 !! i = if decide (i = tq) then Some (set_next (Some n) ndq) else t !! i).
  { intros i Hi. unfold t4, t3, t2. rewrite !list_lookup_insert_ne by done. rewrite lookup_ins by lia. unfold t1. by rewrite list_lookup_insert_ne by done. }
  exists t4. split; [done|]. split; [|split; [done|intros i Hi; rewrite Hold, decide_False by lia; apply Hf; lia]].
  eapply (built_insert t t4 path ws tp u c (l1 ++ [tq]) l2 (c1 ++ [ct]) c2 nd (next ndq)); try done.
  - by rewrite <-app_assoc.
  - by rewrite <-!app_assoc.
  - rewrite !length_app. cbn. lia.
  - pose proof (sorted_before _ _ _ (kd_sorted _ _ _ _ Hk)) as Hb1. apply Forall_app. split; [|apply Forall_singleton; lia].
    eapply Forall_impl; [exact Hb1|]. intros x Hx. cbn in *. lia.
  - apply list_lookup_insert_eq. lia.
  - intros i nd0 Hi E0. rewrite Hold by lia. rewrite last_snoc. rewrite (decide_False (P := i = tp /\ l1 ++ [tq] = [])) by (intros [_ ?]; by destruct l1).
    destruct (decide (i = tq)) as [->|Hne]; [rewrite Eq in E0; injection E0 as <-; rewrite decide_True by done; by destruct ndq|].
    rewrite decide_False by congruence. rewrite E0. by destruct nd0.
Qed.

Lemma descend_spec ws s : forall t path tp u, built t path ws -> path !! tp = Some u -> Forall coded s -> (length path + length s <= length t)%nat -> fresh t (length path) ->
  exists t' path' tp' u' s', descend sv t (length path) tp s = Ret (t', length path', tp', s') /\ built t' path' ws /\ length t' = length t /\
    path' !! tp' = Some u' /\ u ++ (f <$> s) = u' ++ (f <$> s') /\ Forall coded s' /\ (length path' + length s' <= length path + length s)%nat /\
    grown path path' (u ++ (f <$> s)) /\ at_head t' path' tp' u' s'.
Proof.
  induction s as [|c s IH]; intros t path tp u Hb Ep Hs Hroom Hf; cbn [descend].
  { exists t, path, tp, u, []. split_and!; try done. apply tree_grown_refl. }
  pose proof (bt_shape _ _ _ Hb) as Hsh. destruct (shape_node t path Hsh tp u Ep) as [nd Et]. rewrite (node_run _ _ _ Et). bind.
  destruct (sh_kids _ _ Hsh tp u nd Ep Et) as (ks & cs & Hsib & Hk). cbn [length] in Hroom. destruct (child nd) as [k|] eqn:Ech.
  2:{ exists t, path, tp, u, (c :: s). split_and!; try done; [apply tree_grown_refl|]. exists nd, ks, cs. rewrite Ech. inversion Hsib; subst.
      pose proof (kd_each _ _ _ _ Hk) as K1. apply Forall2_nil_inv_l in K1 as K1'. subst cs. split_and!; try done; [apply Hf; lia|]. intros i Hi. apply Hf. lia. }
  pose proof Hs as [[Ec Hc] Hs']%Forall_cons. rewrite Ec. bind. inversion Hsib as [|? ndk ks0 Ek Hsk]; subst. rewrite (node_run _ _ _ Ek). bind.
  pose proof (kids_syms t path u _ cs Hsh Hk) as Hsy. apply Forall2_cons_inv_l in Hsy as Hsy'. destruct Hsy' as (c0 & cs0 & (ndk' & Ek' & Hc0) & Hsy0 & ->).
  rewrite Ek in Ek'. injection Ek' as <-. destruct (Z.ltb_spec (f c) (sym ndk)) as [Hlt|Hge].
  - destruct (stage_head t path ws tp u nd k (k :: ks0) (c0 :: cs0) c s) as (t1 & -> & H1 & H2 & H3); try done; [lia| |].
    { pose proof (kd_sorted _ _ _ _ Hk) as Hst. apply StronglySorted_inv in Hst as [_ Hall]. constructor; [lia|]. eapply Forall_impl; [exact Hall|]. intros x Hx. cbn in *. lia. }
    bind. exists t1, path, tp, u, (c :: s). split_and!; try done. apply tree_grown_refl.
  - pose proof (kids_bound path u _ _ Hk) as Hbd. cbn [length] in Hbd. pose proof (kd_sorted _ _ _ _ Hk) as Hst.
    destruct (skip_spec t (f c) (S (length t)) k ks0 c0 cs0) as (l1 & tq & l2 & c1 & ct & c2 & ndq & Esk & El & Ecs & Hl & Eq & Hsq & Hle & Hgt & Hs2); [done|done|done|lia|lia|].
    rewrite Esk. bind. rewrite (node_run _ _ _ Eq). bind. rewrite El in Hsib, Hk. rewrite Ecs in Hk.
    assert (Hq : path !! tq = Some (u ++ [ct])).
    { pose proof (kd_each _ _ _ _ Hk) as K1. apply Forall2_app_inv in K1 as [_ K1]; [|done]. by apply Forall2_cons in K1 as [K1 _]. }
    apply lookup_lt_Some in Hq as Hqn. destruct (Z.ltb_spec (sym ndq) (f c)) as [Hlt|Heq].
    + destruct (splice_node (fun t => descend sv t (S (length path)) (length path) s) t path ws tp u (f c) l1 tq l2 c1 ct c2 nd ndq) as (t4 & -> & Hb4 & Hl4 & Hf4); try done; [lia|by rewrite Ech|lia|].
      assert (Hpl : length (path ++ [u ++ [f c]]) = S (length path)) by (rewrite length_app; cbn; lia). rewrite <-Hpl.
      destruct (IH t4 (path ++ [u ++ [f c]]) (length path) (u ++ [f c])) as (t' & path' & tp' & u' & s' & E' & H1 & H2 & H3 & H4 & H5 & H6 & H7 & H8); try done.
      { by apply list_lookup_middle. }
      { rewrite Hpl, Hl4. lia. }
      { by rewrite Hpl. }
      exists t', path', tp', u', s'. rewrite <-app_assoc in H4, H7. split_and!; try done; [lia|cbn [length]; lia|].
      eapply tree_grown_trans; [|exact H7]. exists [u ++ [f c]]. split; [done|]. apply Forall_singleton. exists (f <$> s). by rewrite <-app_assoc.
    + assert (ct = f c) as -> by lia. destruct (IH t path tq (u ++ [f c])) as (t' & path' & tp' & u' & s' & E' & H1 & H2 & H3 & H4 & H5 & H6 & H7 & H8); try done; [lia|].
      rewrite <-app_assoc in H4, H7. exists t', path', tp', u', s'. split_and!; try done. cbn [length]. lia.
Qed.

Definition covers (path ws : list (list Z)) : Prop := forall u, u ∈ path <-> in_tree ws u.

Lemma last_index_snoc ws w u : forall i, last_index i (ws ++ [w]) u = if decide (w = u) then Some (i + Z.of_nat (length ws)) else last_index i ws u.
Proof.
  induction ws as [|x ws IH]; intros i; cbn [app last_index length]; [case_decide; [do 2 f_equal; lia|done]|].
  rewrite IH. destruct (decide (w = u)); [f_equal; lia|done].
Qed.

Lemma in_tree_snoc ws w u : in_tree (ws ++ [w]) u <-> in_tree ws u \/ u `prefix_of` w.
Proof.
  split.
  - intros [->|(x & Hx & Hp)]; [left; by left|]. apply elem_of_app in Hx as [Hx|Hx]; [left; right; by exists x|]. apply list_elem_of_singleton in Hx as ->. by right.
  - intros [[->|(x & Hx & Hp)]|Hp]; [by left|..]; right; [exists x|exists w]; (split; [|done]); apply elem_of_app; [by left|right; by apply list_elem_of_singleton].
Qed.

Lemma set_match_ok t path ws tp w nd : built t path ws -> covers path (ws ++ [w]) -> path !! tp = Some w -> t !! tp = Some nd ->
  built (<[tp := set_match (Z.of_nat (length ws) + 1) nd]> t) path (ws ++ [w]).
Proof.
  intros [[S1 S2 S3 S4 S5] Hnd Hw] Hcov Ep Et. set (t' := <[tp := _]> t). apply lookup_lt_Some in Ep as Htp.
  assert (Hlk : forall i, t' !! i = if decide (i = tp) then Some (set_match (Z.of_nat (length ws) + 1) nd) else t !! i) by (intros i; apply lookup_ins; lia).
  assert (Hsame : forall i nd', t' !! i = Some nd' -> exists nd0, t !! i = Some nd0 /\ child nd' = child nd0 /\ next nd' = next nd0 /\ sym nd' = sym nd0).
  { intros i nd' E. rewrite Hlk in E. case_decide as H; [subst i; injection E as <-; by exists nd|by exists nd']. }
  split; [split|..].
  - unfold t'. by rewrite length_insert.
  - done.
  - done.
  - intros i u nd' Ei E. destruct (Hsame i nd' E) as (nd0 & E0 & _ & _ & ->). by apply S4 with i.
  - intros i u nd' Ei E. destruct (Hsame i nd' E) as (nd0 & E0 & -> & _). destruct (S5 i u nd0 Ei E0) as (ks & cs & H1 & H2). exists ks, cs. split; [|done].
    eapply sibs_mono; [exact H1|]. intros q _. rewrite Hlk. case_decide as H; [subst q; by rewrite Et|done].
  - intros i u nd' Ei E. rewrite Hlk in E. unfold node_ok, mark. rewrite last_index_snoc. case_decide as H.
    + subst i. injection E as <-. rewrite Ep in Ei. injection Ei as <-. destruct (Hnd tp w nd Ep Et) as (H1 & H2 & H3 & _). rewrite decide_True by done. by split_and!.
    + rewrite decide_False; [exact (Hnd i u nd' Ei E)|]. intros <-. apply H. by eapply NoDup_lookup.
  - intros x [Hx|Hx]%elem_of_app; [by apply Hw|]. apply list_elem_of_singleton in Hx as ->. by eapply list_elem_of_lookup_2.
Qed.

Lemma add_string_spec ws s t path : built t path ws -> covers path ws -> Forall coded s -> (length path + length s <= length t)%nat -> fresh t (length path) ->
  exists t' path', add_string sv t (length path) (Z.of_nat (length ws)) s = Ret (t', length path') /\ built t' path' (ws ++ [f <$> s]) /\
    covers path' (ws ++ [f <$> s]) /\ length t' = length t /\ fresh t' (length path') /\ (length path' <= length path + length s)%nat.
Proof.
  intros Hb Hcov Hs Hroom Hf. unfold add_string. set (w := f <$> s).
  destruct (descend_spec ws s t path 0 [] Hb (sh_root _ _ (bt_shape _ _ _ Hb)) Hs Hroom Hf) as (t1 & p1 & tp1 & u1 & s1 & -> & Hb1 & Hl1 & Ep1 & Ew & Hs1 & Hr1 & Hg1 & Hh1).
  bind. cbn [app] in Ew, Hg1. destruct (extend_spec ws s1 t1 p1 tp1 u1 Hb1 Ep1 Hs1) as (t2 & p2 & tp2 & -> & Hb2 & Hf2 & Hl2 & Ep2 & Hg2 & Hr2); [lia|done|].
  bind. rewrite <-Ew in Ep2, Hg2. fold w in Ep2, Hg1, Hg2. destruct (shape_node t2 p2 (bt_shape _ _ _ Hb2) tp2 w Ep2) as [nd Et]. rewrite (modify_run _ _ _ _ Et). bind.
  destruct (tree_grown_trans _ _ _ _ Hg1 Hg2) as (new & -> & Hnew). set (p2 := path ++ new) in *.
  assert (Hcov2 : covers p2 (ws ++ [w])).
  { intros u. rewrite in_tree_snoc. unfold p2. rewrite elem_of_app, (Hcov u). split; [intros [H|H]; [by left|right; by eapply Forall_forall in Hnew]|].
    intros [H|H]; [by left|]. apply list_elem_of_lookup_2 in Ep2. pose proof (path_prefix t2 p2 (bt_shape _ _ _ Hb2) u w Ep2 H) as Hin.
    apply elem_of_app in Hin as [Hin|Hin]; [left; by apply Hcov|by right]. }
  exists (<[tp2 := set_match (Z.of_nat (length ws) + 1) nd]> t2), p2. split; [done|]. split; [by apply set_match_ok|]. split; [done|]. rewrite length_insert. split; [lia|]. split; [|lia].
  intros i Hi. rewrite length_insert in Hi. apply lookup_lt_Some in Ep2. rewrite list_lookup_insert_ne by lia. by apply Hf2.
Qed.

Lemma create_loop_spec strv : forall ws t path, built t path ws -> covers path ws -> Forall (Forall coded) strv ->
  (length path + total strv <= length t)%nat -> fresh t (length path) ->
  exists t' path', create_loop sv t (length path) (Z.of_nat (length ws)) strv = Ret (t', length path') /\ built t' path' (ws ++ (encode f strv)) /\
    covers path' (ws ++ (encode f strv)) /\ length t' = length t.
Proof.
  induction strv as [|s strv IH]; intros ws t path Hb Hcov Hs Hroom Hf; cbn [create_loop].
  { exists t, path. unfold encode. by rewrite app_nil_r. }
  apply Forall_cons in Hs as [Hs1 Hs]. cbn [total] in Hroom. change (encode f (s :: strv)) with ((f <$> s) :: encode f strv).
  destruct (add_string_spec ws s t path) as (t1 & p1 & -> & Hb1 & Hc1 & Hl1 & Hf1 & Hr1); [done..|lia|done|].
  bind. destruct (IH (ws ++ [f <$> s]) t1 p1) as (t2 & p2 & E & H1 & H2 & H3); [done..|lia|done|].
  rewrite length_app, Nat2Z.inj_add in E. change (Z.of_nat (length [f <$> s])) with 1 in E. exists t2, p2. rewrite <-app_assoc in H1, H2. split_and!; try done. lia.
Qed.
End add.

(** The tree of the strings. *)
Lemma create_tree_spec sv f strv nc : Forall (Forall (coded sv f)) strv -> nc = total strv ->
  exists t path, create_tree sv (replicate (nc + 1) no_node) strv = Ret (t, length path) /\ built t path (encode f strv) /\ covers path (encode f strv) /\ length t = (nc + 1)%nat.
Proof.
  intros Hs ->. set (t0 := replicate _ no_node).
  assert (Hb : built t0 [[]] []).
  { assert (E0 : forall nd, t0 !! 0%nat = Some nd -> nd = no_node) by (intros nd E; by apply lookup_replicate in E as [-> _]). split; [split|..].
    - unfold t0. rewrite length_replicate. cbn. lia.
    - done.
    - apply NoDup_singleton.
    - intros [|i] u nd E; [injection E as <-; done|done].
    - intros [|i] u nd E En; [|done]. apply E0 in En as ->. exists [], []. split; [constructor|]. split; [constructor|constructor|].
      intros [|q] c E'; [|done]. injection E as <-. injection E' as E'. by destruct c.
    - intros [|i] u nd E En; [|done]. injection E as <-. apply E0 in En as ->. done.
    - by intros w ?%elem_of_nil. }
  destruct (create_loop_spec sv f strv [] t0 [[]]) as (t & path & E & H1 & H2 & H3); try done.
  - intros u. rewrite list_elem_of_singleton. split; [by left|]. intros [->|(w & Hw & _)]; [done|by apply elem_of_nil in Hw].
  - unfold t0. rewrite length_replicate. cbn [length]. lia.
  - intros i Hi. unfold t0 in *. rewrite length_replicate in Hi. apply lookup_replicate_2. lia.
  - exists t, path. split_and!; try done. rewrite H3. unfold t0. by rewrite length_replicate.
Qed.
