(* ===== verification/AcismLinks.v ===== *)
(** The tree of acism_create.c once its nodes are fixed: finding a child, walking the
    children, the levels that the breadth-first loops go through; and its back links: each
    points to a shallower node, and where the longest proper suffix of a node always has
    children, it points there; [is_suffix] tells whether a shorter string ends at a node. *)
From Stdlib Require Import Sorted.
From S2P Require Import Prelude Arrays Suffix Acism AcismScan AcismTree.

(** What does not change after [create_tree]. *)
Definition core (nd : TNODE) : option nat * option nat * Z * Z := (child nd, next nd, sym nd, match_ nd).
Definition same_core (t t' : tree) : Prop := forall i, core <$> t' !! i = core <$> t !! i.

#[export] Instance same_core_equiv : Equivalence same_core.
Proof. split; [by intros t i|by intros t t' H i|]. intros t1 t2 t3 H1 H2 i. by rewrite H2, H1. Qed.

Lemma core_length t t' : same_core t t' -> length t' = length t.
Proof.
  intros H. apply dec_stable. intros Hne. destruct (decide (length t < length t')%nat) as [Hl|Hl].
  - specialize (H (length t)). rewrite (lookup_ge_None_2 t) in H by lia. destruct (lookup_lt_is_Some_2 t' (length t) Hl) as [nd E]. by rewrite E in H.
  - specialize (H (length t')). rewrite (lookup_ge_None_2 t') in H by lia. destruct (lookup_lt_is_Some_2 t (length t')) as [nd E]; [lia|]. by rewrite E in H.
Qed.

Lemma core_lookup t t' i nd : same_core t t' -> t !! i = Some nd -> exists nd', t' !! i = Some nd' /\ child nd' = child nd /\ next nd' = next nd /\ sym nd' = sym nd /\ match_ nd' = match_ nd.
Proof. intros H E. specialize (H i). rewrite E in H. destruct (t' !! i) as [nd'|]; [|done]. injection H as H1 H2 H3 H4. by exists nd'. Qed.

Lemma core_set t t' i nd nd' : same_core t t' -> t' !! i = Some nd -> core nd' = core nd -> same_core t (<[i := nd']> t').
Proof.
  intros H E Hc j. rewrite lookup_ins by by apply lookup_lt_Some in E. case_decide as Hj; [|apply H]. subst j. rewrite <-H, E. cbn. by rewrite Hc.
Qed.

Lemma core_sibs t t' o ks : same_core t t' -> sibs t o ks -> sibs t' o ks.
Proof.
  intros H Hs. eapply sibs_mono; [exact Hs|]. intros q _. specialize (H q). destruct (t' !! q), (t !! q); try done. injection H as _ Hn _ _. cbn. by rewrite Hn.
Qed.

Lemma core_sym (t t' : tree) : same_core t t' -> same_core t' t.
Proof. intros H i. by rewrite H. Qed.

(** The rule for a loop over siblings. *)
Lemma siblings_rule {S} t0 (get : S -> tree) body (I : list nat -> S -> Prop) ks :
  (forall pre a, I pre a -> same_core t0 (get a)) ->
  (forall pre q post a, ks = pre ++ q :: post -> I pre a -> exists a', body q a = Ret a' /\ I (pre ++ [q]) a') ->
  forall fuel o a, sibs t0 o ks -> I [] a -> (length ks < fuel)%nat -> exists a', siblings fuel get body o a = Ret a' /\ I ks a'.
Proof.
  intros Hget Hbody. assert (Hgen : forall fuel pre post o a, ks = pre ++ post -> sibs t0 o post -> I pre a -> (length post < fuel)%nat ->
    exists a', siblings fuel get body o a = Ret a' /\ I ks a').
  { induction fuel as [|n IH]; intros pre post o a Hks Hs HI Hf; [lia|]. cbn [siblings]. inversion Hs as [|q nd post' E Hs']; subst post o.
    - rewrite app_nil_r in Hks. subst. by exists a.
    - destruct (Hbody pre q post' a Hks HI) as (a' & -> & HI'). bind. destruct (core_lookup t0 (get a') q nd (Hget _ _ HI') E) as (nd' & E' & _ & Hn & _).
      rewrite (node_run _ _ _ E'). bind. rewrite Hn. apply (IH (pre ++ [q]) post'); [by rewrite <-app_assoc|done|done|cbn in Hf; lia]. }
  intros fuel o a Hs HI Hf. by apply (Hgen fuel [] ks).
Qed.

Section level.
Context (t0 : tree) (path ws : list (list Z)) (Hb : built t0 path ws) (Hcov : covers path ws).
Let Hsh : shape t0 path := bt_shape _ _ _ Hb.

Lemma node_at t i u : same_core t0 t -> path !! i = Some u -> exists nd nd0, t !! i = Some nd /\ t0 !! i = Some nd0 /\ child nd = child nd0 /\ sym nd = sym nd0 /\ match_ nd = mark ws u.
Proof.
  intros Hc Ei. destruct (shape_node t0 path Hsh i u Ei) as [nd0 E0]. destruct (core_lookup t0 t i nd0 Hc E0) as (nd & E & H1 & _ & H3 & H4).
  exists nd, nd0. split_and!; try done. rewrite H4. by apply (bt_nodes _ _ _ Hb i u nd0 Ei E0).
Qed.

(** The children of a node, in a tree with the same links. *)
Lemma node_children t i u nd : same_core t0 t -> path !! i = Some u -> t !! i = Some nd ->
  exists ks cs, sibs t (child nd) ks /\ sibs t0 (child nd) ks /\ kids path u ks cs /\ Forall2 (has_sym t) ks cs /\ (length ks < length path)%nat.
Proof.
  intros Hc Ei E. destruct (shape_node t0 path Hsh i u Ei) as [nd0 E0]. destruct (core_lookup t0 t i nd0 Hc E0) as (nd' & E' & H1 & _). rewrite E in E'. injection E' as <-.
  destruct (sh_kids _ _ Hsh i u nd0 Ei E0) as (ks & cs & Hs & Hk). exists ks, cs. rewrite H1. split; [by eapply core_sibs|]. split; [done|]. split; [done|]. split.
  - eapply Forall2_impl; [by eapply kids_syms|]. intros q c (ndq & Eq & Hq). destruct (core_lookup t0 t q ndq Hc Eq) as (ndq' & Eq' & _ & _ & Hs' & _). exists ndq'. split; [done|]. by rewrite Hs'.
  - pose proof (kids_nodup path u ks cs Hk) as Hnd. assert (Hle : (length (0%nat :: ks) <= length (seq 0 (length path)))%nat); [|rewrite length_seq in Hle; cbn in Hle; lia].
    apply submseteq_length, NoDup_submseteq.
    + apply NoDup_cons. split; [|done]. intros Hin. destruct (kids_lt path u ks cs _ Hk Hin) as (c & _ & Eq). rewrite (sh_root _ _ Hsh) in Eq. injection Eq as Eq. by destruct u.
    + intros q [->|Hq]%elem_of_cons; apply elem_of_seq.
      * pose proof (lookup_lt_Some _ _ _ (sh_root _ _ Hsh)). lia.
      * destruct (kids_lt path u ks cs q Hk Hq) as (c & _ & Eq). apply lookup_lt_Some in Eq. lia.
Qed.

Lemma kid_path u ks cs q nd t : same_core t0 t -> kids path u ks cs -> q ∈ ks -> t !! q = Some nd -> path !! q = Some (u ++ [sym nd]).
Proof.
  intros Hc Hk Hq E. destruct (kids_lt path u ks cs q Hk Hq) as (c & _ & Eq). destruct (node_at t q _ Hc Eq) as (nd' & nd0 & E' & E0 & _ & Hs & _). rewrite E in E'. injection E' as <-.
  rewrite Hs. by destruct (path_last t0 path Hsh q u c nd0 Eq E0) as [-> _].
Qed.

(** [find_child]. *)
Lemma find_loop_spec t u c : same_core t0 t -> forall ks cs fuel o, sibs t o ks -> Forall2 (has_sym t) ks cs -> Forall2 (fun q x => path !! q = Some (u ++ [x])) ks cs -> StronglySorted Z.lt cs ->
  (length ks < fuel)%nat -> exists r, find_loop fuel t o c = Ret r /\ match r with Some b => path !! b = Some (u ++ [c]) | None => c ∉ cs end.
Proof.
  intros Hc ks. induction ks as [|q ks IH]; intros cs fuel o Hs Hsy Hp Hst Hf; destruct fuel as [|fuel]; cbn in Hf; try lia; cbn [find_loop]; inversion Hs; subst.
  - apply Forall2_nil_inv_l in Hsy as ->. exists None. split; [done|]. by apply not_elem_of_nil.
  - apply Forall2_cons_inv_l in Hsy as (x & cs' & (nd' & E' & Hx) & Hsy & ->). apply Forall2_cons in Hp as [Hpq Hp]. apply StronglySorted_inv in Hst as [Hst Hall].
    match goal with H : t !! q = Some ?n |- _ => rewrite H in E'; injection E' as ->; rewrite (node_run _ _ _ H) end. bind. rewrite Hx.
    destruct (Z.ltb_spec x c) as [Hlt|Hge]; [|destruct (Z.eqb_spec x c) as [->|Hne]; [by eexists|]].
    + destruct (IH cs' fuel (next nd')) as (r & -> & Hr); try done; [lia|]. exists r. split; [done|]. destruct r; [done|]. apply not_elem_of_cons. split; [lia|done].
    + exists None. split; [done|]. apply not_elem_of_cons. split; [done|]. intros Hin. rewrite Forall_forall in Hall. specialize (Hall c Hin). lia.
Qed.

Lemma find_child_spec t q u c : same_core t0 t -> path !! q = Some u ->
  exists r, find_child t q c = Ret r /\ match r with Some b => path !! b = Some (u ++ [c]) | None => ~ in_tree ws (u ++ [c]) end.
Proof.
  intros Hc Eq. destruct (node_at t q u Hc Eq) as (nd & nd0 & E & _). destruct (node_children t q u nd Hc Eq E) as (ks & cs & Hs & _ & Hk & Hsy & Hl).
  unfold find_child. rewrite (node_run _ _ _ E). bind. pose proof (core_length _ _ Hc) as Hlen. pose proof (sh_size _ _ Hsh).
  destruct (find_loop_spec t u c Hc ks cs (S (length t)) (child nd) Hs Hsy (kd_each _ _ _ _ Hk) (kd_sorted _ _ _ _ Hk)) as (r & -> & Hr); [lia|]. exists r. split; [done|].
  destruct r; [done|]. intros Hin%Hcov. apply list_elem_of_lookup in Hin as [b Eb]. pose proof (kd_all _ _ _ _ Hk b c Eb) as Hbk.
  destruct (kids_lt path u ks cs b Hk Hbk) as (c' & Hc' & Eb'). rewrite Eb in Eb'. apply (inj Some), app_inv_head in Eb'. injection Eb' as <-. done.
Qed.

(** A node with children. *)
Lemma child_inner t i u nd : same_core t0 t -> path !! i = Some u -> t !! i = Some nd -> child nd <> None <-> exists c, in_tree ws (u ++ [c]).
Proof.
  intros Hc Ei E. destruct (node_children t i u nd Hc Ei E) as (ks & cs & Hs & _ & Hk & _). split.
  - intros Hn. inversion Hs as [H0|q ndq ks' Eq _ H0]; [by rewrite <-H0 in Hn|]. subst ks. destruct (kids_lt path u _ cs q Hk) as (c & _ & Ep); [by left|].
    exists c. apply Hcov. by eapply list_elem_of_lookup_2.
  - intros (c & Hin%Hcov) Hn. apply list_elem_of_lookup in Hin as [b Eb]. apply (kd_all _ _ _ _ Hk) in Eb. rewrite Hn in Hs. inversion Hs; subst. by apply elem_of_nil in Eb.
Qed.

(** ** Levels *)

(** A list of nodes of depth [d], each once. *)
Definition level (d : nat) (v : list nat) : Prop := NoDup v /\ forall q, q ∈ v -> exists u, path !! q = Some u /\ length u = d.

(** No level is larger than the number of strings. *)
Lemma level_bound d v : (0 < d)%nat -> level d v -> (length v <= length ws)%nat.
Proof.
  intros Hd [Hnd Hv]. assert (H : exists us, Forall2 (fun q u => path !! q = Some u /\ length u = d) v us).
  { clear Hnd. induction v as [|q v IH]; [by exists []|]. destruct (Hv q) as (u & Hu); [by left|]. destruct IH as (us & Hus); [intros q' Hq; apply Hv; by right|]. exists (u :: us). by constructor. }
  destruct H as (us & Hus). rewrite (Forall2_length _ _ _ Hus), <-(length_fmap (take d) ws). apply submseteq_length, NoDup_submseteq.
  - clear Hv. induction Hus as [|q u v us [Hq Hu] Hus IH]; [constructor|]. apply NoDup_cons in Hnd as [Hn Hnd]. apply NoDup_cons. split; [|by apply IH].
    intros [i Ei]%list_elem_of_lookup. destruct (Forall2_lookup_r _ _ _ _ _ Hus Ei) as (q' & Eq' & Hq' & _). apply Hn.
    rewrite (path_inj t0 path Hsh q q' u Hq Hq'). by eapply list_elem_of_lookup_2.
  - intros u [i Ei]%list_elem_of_lookup. destruct (Forall2_lookup_r _ _ _ _ _ Hus Ei) as (q & _ & Hq & Hl). apply list_elem_of_lookup_2, Hcov in Hq as [->|(w & Hw & [k ->])]; [cbn in Hl; lia|].
    apply list_elem_of_fmap. exists (u ++ k). split; [|done]. by rewrite <-Hl, take_app_length.
Qed.

(** The lists of children of a list of nodes. *)
Definition kid_lists (v : list nat) (kss : list (list nat)) : Prop :=
  Forall2 (fun q ks => exists u nd cs, path !! q = Some u /\ t0 !! q = Some nd /\ sibs t0 (child nd) ks /\ kids path u ks cs) v kss.

Lemma kid_lists_ex d v : level d v -> exists kss, kid_lists v kss.
Proof.
  intros [_ Hv]. induction v as [|q v IH]; [by exists []; constructor|]. destruct IH as (kss & IH); [intros q' Hq; apply Hv; by right|].
  destruct (Hv q) as (u & Eq & _); [by left|]. destruct (shape_node t0 path Hsh q u Eq) as [nd E]. destruct (sh_kids _ _ Hsh q u nd Eq E) as (ks & cs & H1 & H2).
  exists (ks :: kss). constructor; [by exists u, nd, cs|done].
Qed.

Lemma kid_lists_in v kss q : kid_lists v kss -> q ∈ concat kss <-> exists p u c, p ∈ v /\ path !! p = Some u /\ path !! q = Some (u ++ [c]).
Proof.
  induction 1 as [|p ks v kss (u & nd & cs & Ep & _ & _ & Hk) _ IH]; cbn [concat]; [split; [by intros ?%elem_of_nil|by intros (? & ? & ? & ?%elem_of_nil & _)]|].
  rewrite elem_of_app, IH. split.
  - intros [Hq|(p' & u' & c & H1 & H2)]; [|exists p', u', c; split; [by right|done]]. destruct (kids_lt path u ks cs q Hk Hq) as (c & _ & Eq). exists p, u, c. split; [by left|done].
  - intros (p' & u' & c & [->|H1]%elem_of_cons & H2 & H3); [|right; by exists p', u', c]. left. rewrite Ep in H2. injection H2 as <-. by apply (kd_all _ _ _ _ Hk q c).
Qed.

Lemma kid_lists_level d v kss : level d v -> kid_lists v kss -> level (S d) (concat kss).
Proof.
  intros [Hnd Hv] Hk. split.
  - clear Hv. induction Hk as [|p ks v kss (u & nd & cs & Ep & _ & _ & Hkd) Hk IH]; [constructor|]. apply NoDup_cons in Hnd as [Hn Hnd]. cbn [concat]. apply NoDup_app.
    split; [by eapply kids_nodup|]. split; [|by apply IH]. intros q Hq Hq'. apply (kid_lists_in v kss q Hk) in Hq' as (p' & u' & c' & Hp' & Ep' & Eq').
    destruct (kids_lt path u ks cs q Hkd Hq) as (c & _ & Eq). rewrite Eq in Eq'. apply (inj Some), app_inj_tail in Eq' as [<- _]. apply Hn.
    by rewrite (path_inj t0 path Hsh p p' u Ep Ep').
  - intros q Hq. apply (kid_lists_in v kss q Hk) in Hq as (p & u & c & Hp & Ep & Eq). exists (u ++ [c]). split; [done|]. destruct (Hv p Hp) as (u' & Ep' & Hl).
    rewrite Ep in Ep'. injection Ep' as <-. rewrite length_app, Hl. cbn. lia.
Qed.

Lemma level_sub d v v' : level d v -> NoDup v' -> (forall q, q ∈ v' -> q ∈ v) -> level d v'.
Proof. intros [_ H] Hnd Hs. split; [done|]. intros q Hq. by apply H, Hs. Qed.

Lemma path_length u : u ∈ path -> (length u < length path)%nat.
Proof.
  intros Hu. assert (H : (length ((fun k => take k u) <$> seq 0 (S (length u))) <= length path)%nat); [|rewrite length_fmap, length_seq in H; lia].
  apply submseteq_length, NoDup_submseteq.
  - apply NoDup_fmap_2_strong; [|apply NoDup_seq]. intros a b Ha%elem_of_seq Hb'%elem_of_seq E. apply (f_equal length) in E. rewrite !length_take in E. lia.
  - intros v (k & -> & _)%list_elem_of_fmap. eapply (path_prefix t0 path Hsh); [exact Hu|]. exists (drop k u). by rewrite take_drop.
Qed.
End level.

(** ** Back links *)

(** No node with children has a longest proper suffix without. *)
Definition inner_suffixes (ws : list (list Z)) : Prop := forall u v, inner ws u -> u <> [] -> longest (in_tree ws) u v -> inner ws v.

Lemma proper_trans_l (x v u : list Z) : x `suffix_of` v -> proper_suffix v u -> proper_suffix x u.
Proof.
  intros Hx Hv. split; [etrans; [exact Hx|apply Hv]|]. intros ->. apply suffix_length in Hx. apply proper_length in Hv. lia.
Qed.

Section links.
Context (t0 : tree) (path ws : list (list Z)) (Hb : built t0 path ws) (Hcov : covers path ws).
Let Hsh : shape t0 path := bt_shape _ _ _ Hb.

(** A back link leads to a shallower node. *)
Definition back_ok (t : tree) : Prop := forall i u nd, path !! i = Some u -> t !! i = Some nd ->
  match u with [] => back nd = None | _ => exists b v, back nd = Some b /\ path !! b = Some v /\ (length v < length u)%nat end.

(** The links of a node are as they should be. *)
Definition exact (t : tree) (u : list Z) : Prop := forall i nd, path !! i = Some u -> t !! i = Some nd ->
  (inner ws u -> u <> [] -> exists b v, back nd = Some b /\ path !! b = Some v /\ longest (inner ws) u v) /\
  (is_suffix nd = false -> forall w, w ∈ ws -> proper_suffix w u -> w = []).

(** What the search along the chain finds from [v] on. *)
Definition best (c : Z) (v : list Z) (r : option (nat * nat)) : Prop :=
  match r with
  | Some (q, b) => exists x, path !! q = Some x /\ path !! b = Some (x ++ [c]) /\ x `suffix_of` v /\ forall y, y `suffix_of` v -> in_tree ws (y ++ [c]) -> (length y <= length x)%nat
  | None => forall y, y `suffix_of` v -> ~ in_tree ws (y ++ [c])
  end.

Lemma best_extend c x v r : x `suffix_of` v -> (forall y, y `suffix_of` v -> in_tree ws (y ++ [c]) -> y `suffix_of` x) -> best c x r -> best c v r.
Proof.
  intros Hx Hy. unfold best. destruct r as [[q b]|].
  - intros (z & H1 & H2 & H3 & H4). exists z. split_and!; try done; [by etrans|]. intros y Hs Hin. apply H4; [by apply Hy|done].
  - intros H y Hs Hin. apply (H y); [by apply Hy|done].
Qed.

Lemma find_back_spec t c : same_core t0 t -> back_ok t -> forall fuel q v, path !! q = Some v -> (length v < fuel)%nat ->
  exists r, find_back (S fuel) t (Some q) c = Ret r /\
    match r with Some (q', b) => exists x, path !! q' = Some x /\ path !! b = Some (x ++ [c]) /\ (length x <= length v)%nat | None => True end /\
    (inner ws v -> (forall u, inner ws u -> (length u <= length v)%nat -> exact t u) -> best c v r).
Proof.
  intros Hc Hbk. induction fuel as [|n IH]; intros q v Eq Hl; [lia|]. change (find_back (S (S n)) t (Some q) c) with
    (bp ← find_child t q c; match bp with Some b => Ret (Some (q, b)) | None => nd ← node t q; find_back (S n) t (back nd) c end).
  destruct (find_child_spec t0 path ws Hb Hcov t q v c Hc Eq) as (r & -> & Hr). bind. destruct r as [b|].
  - exists (Some (q, b)). split; [done|]. split; [by exists v|]. intros _ _. exists v. split_and!; try done. intros y Hy%suffix_length _. done.
  - destruct (node_at t0 path ws Hb t q v Hc Eq) as (nd & nd0 & E & _). rewrite (node_run _ _ _ E). bind. pose proof (Hbk q v nd Eq E) as Hback. destruct v as [|a v].
    + rewrite Hback. exists None. split; [done|]. split; [done|]. intros _ _ y Hy. apply suffix_nil_inv in Hy as ->. done.
    + destruct Hback as (b & x & Ebk & Ex & Hlx). rewrite Ebk. destruct (IH b x Ex) as (r & -> & Hr1 & Hr2); [lia|]. exists r. split; [done|]. split.
      { destruct r as [[q' b']|]; [|done]. destruct Hr1 as (z & H1 & H2 & H3). exists z. split_and!; (done || lia). }
      intros Hin Hex. destruct (proj1 (Hex (a :: v) Hin (le_n _) q nd Eq E) Hin) as (b' & x' & Eb & Ex' & Hx'); [done|].
      rewrite Ebk in Eb. injection Eb as <-. rewrite Ex in Ex'. injection Ex' as <-. destruct Hx' as (Hix & Hpx & Hmax).
      apply best_extend with x; [apply Hpx| |apply Hr2; [done|]; intros u Hu Hul; apply Hex; [done|lia]].
      intros y Hy Hyt. assert (Hyp : proper_suffix y (a :: v)) by (split; [done|by intros ->]). specialize (Hmax y (inner_snoc _ _ _ Hyt) Hyp).
      destruct (decide (length y = length x)) as [El|]; [by rewrite (suffix_same y x (a :: v) Hy (proj1 Hpx) El)|]. apply (suffix_shorter y x (a :: v)); [done|apply Hpx|lia].
Qed.

(** ** One child *)

Lemma modify_core t i f nd : t !! i = Some nd -> core (f nd) = core nd ->
  exists t', modify t i f = Ret t' /\ same_core t t' /\ forall j, t' !! j = if decide (j = i) then Some (f nd) else t !! j.
Proof.
  intros E Hf. rewrite (modify_run _ _ _ _ E). eexists. split; [reflexivity|]. split; [by eapply core_set|].
  intros j. apply lookup_ins. by apply lookup_lt_Some in E.
Qed.

(** Only the links of [p] change. *)
Definition relinks (p : nat) (t t' : tree) : Prop := same_core t t' /\ forall i nd nd', i <> p -> t !! i = Some nd -> t' !! i = Some nd' -> back nd' = back nd /\ is_suffix nd' = is_suffix nd.

Lemma relinks_lookup p t t' i nd' : relinks p t t' -> i <> p -> t' !! i = Some nd' -> exists nd, t !! i = Some nd /\ back nd' = back nd /\ is_suffix nd' = is_suffix nd.
Proof.
  intros [Hc Hr] Hi E. destruct (core_lookup t' t i nd' (core_sym _ _ Hc) E) as (nd & E0 & _). exists nd. split; [done|]. by apply (Hr i).
Qed.

Lemma relinks_exact p t t' u w : relinks p t t' -> path !! p = Some w -> u <> w -> exact t u -> exact t' u.
Proof.
  intros Hr Ep Hne Hex i nd' Ei E. assert (Hip : i <> p) by (intros ->; congruence). destruct (relinks_lookup p t t' i nd' Hr Hip E) as (nd & E0 & -> & ->). by apply (Hex i nd).
Qed.

(** The back link, the count and the flag are written. *)
Lemma write_links {B} (go : tree -> res B) t dstp b bp nd : t !! dstp = Some nd -> is_Some (t !! b) -> is_Some (t !! bp) -> b <> dstp -> bp <> dstp ->
  exists t' nbp, (t ← modify t dstp (set_back (Some b)); nb ← node t b; t ← modify t b (set_nrefs (u32 (nrefs nb + 1)));
    nbp ← node t bp; t ← modify t dstp (set_suffix (negb (match_ nbp =? 0) || is_suffix nbp)); go t) = go t' /\
    relinks dstp t t' /\ t !! bp = Some nbp /\ (exists nd', t' !! dstp = Some nd' /\ back nd' = Some b /\ is_suffix nd' = negb (match_ nbp =? 0) || is_suffix nbp).
Proof.
  intros Ed [ndb Eb] [nbp Ebp] Hbd Hbpd. destruct (modify_core t dstp (set_back (Some b)) nd Ed eq_refl) as (t1 & -> & C1 & L1). bind.
  assert (Eb1 : t1 !! b = Some ndb) by (by rewrite L1, decide_False). rewrite (node_run _ _ _ Eb1). bind.
  destruct (modify_core t1 b (set_nrefs (u32 (nrefs ndb + 1))) ndb Eb1 eq_refl) as (t2 & -> & C2 & L2). bind.
  assert (Ebp2 : exists nbp', t2 !! bp = Some nbp' /\ match_ nbp' = match_ nbp /\ is_suffix nbp' = is_suffix nbp).
  { rewrite L2, L1, (decide_False (P := bp = dstp)) by done. case_decide as H; [|by exists nbp]. subst bp. rewrite Eb in Ebp. injection Ebp as <-. by eexists. }
  destruct Ebp2 as (nbp' & Ebp2 & Hm & Hsf). rewrite (node_run _ _ _ Ebp2). bind. rewrite Hm, Hsf.
  assert (Ed2 : t2 !! dstp = Some (set_back (Some b) nd)) by (rewrite L2, decide_False by done; by rewrite L1, decide_True).
  destruct (modify_core t2 dstp (set_suffix (negb (match_ nbp =? 0) || is_suffix nbp)) _ Ed2 eq_refl) as (t3 & -> & C3 & L3). bind.
  exists t3, nbp. split; [done|]. split; [|split; [done|]; eexists; split; [by rewrite L3, decide_True|done]].
  split; [etrans; [exact C1|by etrans]|]. intros i n n' Hi E E'. rewrite L3, decide_False, L2 in E' by done. case_decide as H.
  - subst i. injection E' as <-. rewrite Eb in E. by injection E as <-.
  - rewrite L1, decide_False, E in E' by done. by injection E' as <-.
Qed.

Lemma last_index_nonneg (l : list (list Z)) u : forall i j, last_index i l u = Some j -> i <= j.
Proof.
  induction l as [|w l IH]; intros i j E; cbn in E; [done|]. destruct (last_index (i + 1) l u) as [k|] eqn:Ek; [injection E as <-; apply IH in Ek; lia|].
  case_decide; [injection E as <-; lia|done].
Qed.

Lemma mark_zero u : mark ws u = 0 <-> u ∉ ws.
Proof.
  split.
  - unfold mark. intros H Hin. apply (last_index_word _ _ 0) in Hin as [j Ej]. rewrite Ej in H. apply last_index_nonneg in Ej. lia.
  - intros H. destruct (decide (mark ws u = 0)) as [|Hm]; [done|]. by apply mark_word in Hm.
Qed.

(** The longest proper suffix of a child, from that of its parent. *)
Lemma best_longest u c v r : longest (inner ws) u v -> best c v r ->
  longest (in_tree ws) (u ++ [c]) match r with Some (q, b) => match path !! q with Some x => x ++ [c] | None => [] end | None => [] end.
Proof.
  intros (Hv & Hp & Hmax) Hbest.
  assert (Hsub : forall y, in_tree ws (y ++ [c]) -> proper_suffix y u -> y `suffix_of` v).
  { intros y Hy Hyp. specialize (Hmax y (inner_snoc _ _ _ Hy) Hyp). destruct (decide (length y = length v)) as [El|]; [by rewrite (suffix_same y v u (proj1 Hyp) (proj1 Hp) El)|].
    apply (suffix_shorter y v u); [apply Hyp|apply Hp|lia]. }
  destruct r as [[q b]|]; cbn in Hbest.
  - destruct Hbest as (x & -> & Eb & Hxv & Hxm). split; [apply Hcov; by eapply list_elem_of_lookup_2|]. split; [apply suffix_snoc_2; by eapply proper_trans_l|].
    intros w Hw Hws. destruct (suffix_snoc u c w Hws) as [->|(y & -> & Hy)]; [cbn; lia|]. rewrite !length_app. apply Nat.add_le_mono_r. by apply Hxm; [apply Hsub|].
  - split; [by left|]. split; [apply proper_nil; by destruct u|]. intros w Hw Hws. destruct (suffix_snoc u c w Hws) as [->|(y & -> & Hy)]; [done|].
    by destruct (Hbest y (Hsub y Hw Hy)).
Qed.

Lemma link_child_spec cap t v2 srcp dstp u c : same_core t0 t -> back_ok t -> path !! srcp = Some u -> u <> [] -> inner ws u -> path !! dstp = Some (u ++ [c]) ->
  (forall nd, t !! dstp = Some nd -> child nd <> None -> (S (length v2) < cap)%nat) ->
  exists t' nd, link_child cap srcp dstp (t, v2) = Ret (t', if null (child nd) then v2 else v2 ++ [dstp]) /\ t0 !! dstp = Some nd /\ relinks dstp t t' /\ back_ok t' /\
    (inner_suffixes ws -> (forall x, (length x <= length u)%nat -> exact t x) -> exact t' (u ++ [c])).
Proof.
  intros Hc Hbk Es Hu Hin Ed Hcap. unfold link_child.
  destruct (node_at t0 path ws Hb t dstp _ Hc Ed) as (nd & nd0 & E & E0 & Hch & Hsy & _). destruct (path_last t0 path Hsh dstp u c nd0 Ed E0) as [Hsc _].
  rewrite (node_run _ _ _ E). bind. destruct (node_at t0 path ws Hb t srcp _ Hc Es) as (src & src0 & Esr & _).
  assert (Hpush : (if null (child nd) then Ret v2 else push cap v2 dstp) = Ret (if null (child nd0) then v2 else v2 ++ [dstp])).
  { rewrite <-Hch. destruct (child nd) eqn:Ech; [|done]. cbn [null]. unfold push. by rewrite (proj2 (Nat.ltb_lt _ _) (Hcap nd E ltac:(by rewrite Ech))). }
  rewrite Hpush. bind. rewrite (node_run _ _ _ Esr). bind. rewrite Hsy, Hsc. pose proof (Hbk srcp u src Es Esr) as Hback. destruct u as [|a u0]; [done|].
  destruct Hback as (b0 & v0 & Ebs & E0b & Hl0). rewrite Ebs. pose proof (path_length t0 path ws Hb v0 ltac:(by eapply list_elem_of_lookup_2)) as Hlv. pose proof (sh_size _ _ Hsh) as Hsz.
  rewrite (core_length _ _ Hc). destruct (find_back_spec t c Hc Hbk (length t0) b0 v0 E0b) as (r & -> & Hr & Hbest); [lia|]. bind. set (u := a :: u0) in *. clearbody u.
  set (bp := match r with Some (_, b) => b | None => 0%nat end). set (b := if null (child nd) then _ else bp).
  assert (Hbp : exists y, path !! bp = Some y /\ (length y < length (u ++ [c]))%nat).
  { unfold bp. destruct r as [[q b']|]; [|exists []; split; [apply (sh_root _ _ Hsh)|rewrite length_app; cbn; lia]]. destruct Hr as (x & _ & Eb' & Hx). exists (x ++ [c]).
    split; [done|]. rewrite !length_app. cbn. lia. }
  assert (Hbb : exists y, path !! b = Some y /\ (length y < length (u ++ [c]))%nat).
  { unfold b. destruct (null (child nd)); [|done]. destruct r as [[q b']|]; [|exists []; split; [apply (sh_root _ _ Hsh)|rewrite length_app; cbn; lia]].
    destruct Hr as (x & Eq' & _ & Hx). exists x. split; [done|]. rewrite length_app. cbn. lia. }
  assert (Hpath : forall i y, path !! i = Some y -> (length y < length (u ++ [c]))%nat -> is_Some (t !! i) /\ i <> dstp).
  { intros i y Ei Hl. split; [destruct (node_at t0 path ws Hb t i y Hc Ei) as (n & _ & En & _); by eexists|]. intros ->. rewrite Ed in Ei. injection Ei as <-. lia. }
  destruct Hbp as (y & Eyp & Hly). destruct Hbb as (z & Ezp & Hlz). destruct (Hpath bp y Eyp Hly) as [H1 H2]. destruct (Hpath b z Ezp Hlz) as [H3 H4].
  destruct (write_links (fun t => Ret (t, if null (child nd0) then v2 else v2 ++ [dstp])) t dstp b bp nd E H3 H1 H4 H2) as (t' & nbp & -> & Hrl & Enbp & nd' & End' & Hbk' & Hsf').
  exists t', nd0. split; [done|]. split; [done|]. split; [done|]. split.
  - intros i x n Ei En. destruct (decide (i = dstp)) as [->|Hne].
    + rewrite End' in En. injection En as <-. rewrite Ed in Ei. injection Ei as <-. destruct (u ++ [c]) eqn:Euc; [by destruct u|]. exists b, z. by rewrite Euc in Hlz || done.
    + destruct (relinks_lookup dstp t t' i n Hrl Hne En) as (n0 & En0 & -> & _). by apply (Hbk i x n0).
  - intros HH Hex i n Ei En. assert (i = dstp) as -> by (by apply (path_inj t0 path Hsh i dstp (u ++ [c]))). rewrite End' in En. injection En as <-.
    destruct (proj1 (Hex u (le_n _) srcp src Es Esr) Hin Hu) as (b1 & v1 & Eb1 & Ev1 & Hlong). rewrite Ebs in Eb1. injection Eb1 as <-. rewrite E0b in Ev1. injection Ev1 as <-.
    assert (Hb' : best c v0 r) by (apply Hbest; [apply Hlong|]; intros x _ Hx; apply Hex; lia).
    pose proof (best_longest u c v0 r Hlong Hb') as HL.
    assert (HLy : longest (in_tree ws) (u ++ [c]) y).
    { unfold bp in Eyp. destruct r as [[q' b']|]; [|rewrite (sh_root _ _ Hsh) in Eyp; by injection Eyp as <-]. destruct Hr as (x & Eq' & Eb' & _). rewrite Eq' in HL.
      rewrite Eb' in Eyp. by injection Eyp as <-. }
    clear HL. split.
    + intros Hin' _. exists b, y. rewrite Hbk'. split; [done|]. pose proof (HH (u ++ [c]) y Hin' ltac:(by destruct u) HLy) as Hiny. destruct HLy as (_ & Hpy & Hmy). split.
      * unfold b. destruct Hin' as [?|Hin']; [by destruct u|]. apply (child_inner t0 path ws Hb Hcov t dstp _ nd Hc Ed E) in Hin'. by destruct (child nd).
      * split; [done|]. split; [done|]. intros w Hw. apply Hmy. by apply inner_in_tree.
    + rewrite Hsf'. intros [Hm Hsf]%orb_false_iff w Hw Hws. apply negb_false_iff, Z.eqb_eq in Hm. destruct (node_at t0 path ws Hb t bp y Hc Eyp) as (n' & _ & En' & _ & _ & _ & Hmk).
      rewrite Enbp in En'. injection En' as <-. rewrite Hmk in Hm. apply mark_zero in Hm. destruct HLy as (_ & Hpy & Hmy). specialize (Hmy w (in_tree_word _ _ Hw) Hws).
      assert (Hyu : (length y <= length u)%nat) by (rewrite length_app in Hly; cbn in Hly; lia). apply (proj2 (Hex y Hyu bp nbp Eyp Enbp) Hsf w Hw).
      destruct (decide (length w = length y)) as [El|]; [by rewrite (suffix_same w y (u ++ [c]) (proj1 Hws) (proj1 Hpy) El) in Hw|].
      apply (suffix_shorter w y (u ++ [c])); [apply Hws|apply Hpy|lia].
Qed.

(** ** Levels *)

Definition nonleaf (q : nat) : Prop := match t0 !! q with Some nd => child nd <> None | None => False end.

#[export] Instance nonleaf_dec q : Decision (nonleaf q).
Proof. unfold nonleaf. destruct (t0 !! q) as [nd|]; apply _. Defined.

(** The loop state when the nodes of [P], of depth [S d], have been linked. *)
Definition linv (d : nat) (P : list nat) (st : tree * list nat) : Prop :=
  same_core t0 st.1 /\ back_ok st.1 /\ st.2 = filter nonleaf P /\
  (inner_suffixes ws -> (forall x, (length x <= d)%nat -> exact st.1 x) /\ forall q x, q ∈ P -> path !! q = Some x -> exact st.1 x).

Lemma link_step cap d P post st srcp dstp u c : (S (length ws) < cap)%nat -> linv d P st -> level path (S d) (P ++ dstp :: post) -> path !! srcp = Some u -> length u = d -> u <> [] ->
  path !! dstp = Some (u ++ [c]) -> exists st', link_child cap srcp dstp st = Ret st' /\ linv d (P ++ [dstp]) st'.
Proof.
  intros Hcap (Hc & Hbk & Hv2 & Hex) Hlev Es Hud Hu Ed. destruct st as [t v2]. cbn [fst snd] in *.
  assert (Hin : inner ws u) by (eapply inner_snoc; apply Hcov; by eapply list_elem_of_lookup_2).
  destruct (link_child_spec cap t v2 srcp dstp u c Hc Hbk Es Hu Hin Ed) as (t' & nd & E & End & Hrl & Hbk' & Hex').
  { intros _ _ _. rewrite Hv2. pose proof (length_filter nonleaf P). pose proof (level_bound t0 path ws Hb Hcov (S d) _ ltac:(lia) Hlev) as Hl. rewrite length_app in Hl. cbn in Hl. lia. }
  eexists. split; [exact E|]. split; [cbn; etrans; [exact Hc|apply Hrl]|]. split; [done|]. split.
  - cbn [snd]. rewrite filter_app, Hv2. assert (Hn : nonleaf dstp <-> child nd <> None) by (unfold nonleaf; by rewrite End).
    destruct (child nd); cbn [null]; [rewrite filter_cons_True by (by apply Hn)|rewrite filter_cons_False by (intros H%Hn; by apply H)]; cbn; by rewrite ?app_nil_r.
  - intros HH. destruct (Hex HH) as [H1 H2]. split.
    + intros x Hx. eapply relinks_exact; [exact Hrl|exact Ed| |by apply H1]. intros ->. rewrite length_app in Hx. cbn in Hx. lia.
    + intros q x [Hq|Hq]%elem_of_app Eq.
      * eapply relinks_exact; [exact Hrl|exact Ed| |by eapply H2]. intros ->. destruct Hlev as [Hnd _]. apply NoDup_app in Hnd as (_ & Hnd & _). apply (Hnd q Hq).
        rewrite (path_inj t0 path Hsh q dstp _ Eq Ed). by left.
      * apply list_elem_of_singleton in Hq as ->. rewrite Ed in Eq. injection Eq as <-. apply Hex'; [done|]. intros x Hx. apply H1. lia.
Qed.

Lemma link_level_spec cap d v1 kss : (S (length ws) < cap)%nat -> (0 < d)%nat -> forall P st, kid_lists t0 path v1 kss -> (forall q, q ∈ v1 -> exists u, path !! q = Some u /\ length u = d) ->
  level path (S d) (P ++ concat kss) -> linv d P st -> exists st', link_level cap v1 st = Ret st' /\ linv d (P ++ concat kss) st'.
Proof.
  intros Hcap Hd P st Hk. revert P st. induction Hk as [|srcp ks v1 kss (u & nd & cs & Es & E0 & Hs & Hkd) _ IH]; intros P st Hv Hlev Hinv; cbn [link_level concat].
  { exists st. by rewrite app_nil_r. }
  cbn [concat] in Hlev. pose proof Hinv as (Hc & _). destruct (core_lookup t0 st.1 srcp nd Hc E0) as (nd' & E' & Hch & _). rewrite (node_run _ _ _ E'). bind. rewrite Hch.
  destruct (Hv srcp) as (u' & Es' & Hud); [by left|]. rewrite Es in Es'. injection Es' as <-. assert (Hu : u <> []) by (intros ->; cbn in Hud; lia).
  destruct (siblings_rule t0 fst (link_child cap srcp) (fun pre st => linv d (P ++ pre) st) ks) with (fuel := S (length st.1)) (o := child nd) (a := st) as (st1 & -> & Hinv1).
  - by intros pre a (? & _).
  - intros pre q post a Hks Ha. destruct (kids_lt path u ks cs q Hkd) as (c & _ & Eq); [rewrite Hks; apply elem_of_app; right; by left|].
    rewrite app_assoc. eapply (link_step cap d (P ++ pre) (post ++ concat kss)); try done. rewrite Hks in Hlev. by rewrite <-!app_assoc in *.
  - done.
  - by rewrite app_nil_r.
  - rewrite (core_length _ _ Hc). pose proof (kids_bound path u ks cs Hkd). pose proof (sh_size _ _ Hsh). lia.
  - bind. destruct (IH (P ++ ks) st1) as (st2 & -> & H2); [intros q Hq; apply Hv; by right|by rewrite <-app_assoc|done|]. exists st2. by rewrite <-app_assoc in H2.
Qed.

(** All nodes with children of depth [d] are in [v]. *)
Definition complete (d : nat) (v : list nat) : Prop := forall q u c, path !! q = Some u -> length u = d -> u ++ [c] ∈ path -> q ∈ v.

Lemma link_levels_spec cap : (S (length ws) < cap)%nat -> forall fuel d t v1, (0 < d)%nat -> same_core t0 t -> back_ok t -> level path d v1 -> complete d v1 ->
  (inner_suffixes ws -> forall x, (length x <= d)%nat -> exact t x) -> (length path < fuel + d)%nat -> (0 < fuel)%nat ->
  exists t', link_levels fuel cap t v1 = Ret t' /\ same_core t0 t' /\ back_ok t' /\ (inner_suffixes ws -> forall x, exact t' x).
Proof.
  intros Hcap. induction fuel as [|n IH]; intros d t v1 Hd Hc Hbk Hlev Hcomp Hex Hf Hf0.
  { lia. }
  cbn [link_levels]. destruct v1 as [|q v1].
  - exists t. split_and!; try done. intros HH x i nd Ei E. destruct (decide (length x <= d)%nat) as [Hx|Hx]; [by apply (Hex HH x Hx i nd)|]. exfalso.
    assert (Hp : take (S d) x ∈ path) by (eapply (path_prefix t0 path Hsh); [by eapply list_elem_of_lookup_2|]; exists (drop (S d) x); by rewrite take_drop).
    destruct (lookup_lt_is_Some_2 x d) as [c Ec]; [lia|]. rewrite (take_S_r _ _ _ Ec) in Hp.
    assert (Hp' : take d x ∈ path) by (eapply (path_prefix t0 path Hsh); [exact Hp|]; by apply prefix_app_r).
    apply list_elem_of_lookup in Hp' as [j Ej]. apply (Hcomp j (take d x) c Ej) in Hp; [by apply elem_of_nil in Hp|]. rewrite length_take. lia.
  - assert (Hdp : (d < length path)%nat).
    { destruct Hlev as [_ H]. destruct (H q) as (u & Eq & <-); [by left|]. apply (path_length t0 path ws Hb). by eapply list_elem_of_lookup_2. }
    set (v := q :: v1) in *. destruct (kid_lists_ex t0 path ws Hb d v Hlev) as (kss & Hk). pose proof (kid_lists_level t0 path ws Hb d v kss Hlev Hk) as Hlev'.
    destruct (link_level_spec cap d v kss Hcap Hd [] (t, []) Hk) as ([t' v2] & -> & Hc' & Hbk' & Hv2 & Hex'); [apply Hlev|done| |].
    { split_and!; try done. intros HH. split; [by apply Hex|]. by intros q' x ?%elem_of_nil. }
    bind. cbn [fst snd app] in *. apply (IH (S d)); try done.
    + lia.
    + rewrite Hv2. eapply level_sub; [exact Hlev'|apply NoDup_filter, Hlev'|]. intros p Hp. by apply list_elem_of_filter in Hp as [_ Hp].
    + intros p u c Ep Hl Hc2. rewrite Hv2. apply list_elem_of_filter. destruct (shape_node t0 path Hsh p u Ep) as [nd E]. split.
      * unfold nonleaf. rewrite E. apply (child_inner t0 path ws Hb Hcov t0 p u nd ltac:(done) Ep E). exists c. by apply Hcov.
      * destruct u as [|a u' _] using rev_ind; [done|]. apply (kid_lists_in t0 path v kss p Hk). rewrite length_app in Hl. cbn in Hl.
        assert (Hin : u' ∈ path) by (eapply (path_prefix t0 path Hsh); [by eapply list_elem_of_lookup_2|]; by apply prefix_app_r).
        apply list_elem_of_lookup in Hin as [j Ej]. exists j, u', a. split_and!; try done. apply (Hcomp j u' a Ej); [lia|]. by eapply list_elem_of_lookup_2.
    + intros HH x Hx. destruct (Hex' HH) as [H1 H2]. destruct (decide (length x <= d)%nat) as [Hxd|Hxd]; [by apply H1|]. intros i nd Ei E.
      refine (H2 i x _ Ei i nd Ei E). destruct x as [|a x' _] using rev_ind; [cbn in Hxd; lia|]. rewrite length_app in Hx, Hxd. cbn in Hx, Hxd.
      apply (kid_lists_in t0 path v kss i Hk). assert (Hin : x' ∈ path) by (eapply (path_prefix t0 path Hsh); [by eapply list_elem_of_lookup_2|]; by apply prefix_app_r).
      apply list_elem_of_lookup in Hin as [j Ej]. exists j, x', a. split_and!; try done. apply (Hcomp j x' a Ej); [lia|]. by eapply list_elem_of_lookup_2.
    + lia.
    + lia.
Qed.

(** [add_backlinks] after [create_tree]. *)
Lemma add_backlinks_spec cap : (S (length ws) < cap)%nat -> exists t', add_backlinks cap t0 = Ret t' /\ same_core t0 t' /\ back_ok t' /\ (inner_suffixes ws -> forall x, exact t' x).
Proof.
  intros Hcap. unfold add_backlinks. pose proof (sh_root _ _ Hsh) as Er. destruct (shape_node t0 path Hsh 0 [] Er) as [root E]. rewrite (node_run _ _ _ E). bind.
  destruct (sh_kids _ _ Hsh 0%nat [] root Er E) as (ks & cs & Hs & Hk). pose proof (sh_size _ _ Hsh) as Hsz. pose proof (kids_bound path [] ks cs Hk) as Hkb.
  assert (Hlev : level path 1 ks).
  { split; [by eapply kids_nodup|]. intros q Hq. destruct (kids_lt path [] ks cs q Hk Hq) as (c & _ & Eq). by exists [c]. }
  pose proof (level_bound t0 path ws Hb Hcov 1 ks ltac:(lia) Hlev) as Hlb.
  destruct (siblings_rule t0 fst (fun q '(t, v) => v ← push cap v q; Ret (t, v)) (fun pre st => st = (t0, pre)) ks) with (fuel := S (length t0)) (o := child root) (a := (t0, @nil nat)) as ([t1 v1] & -> & [= -> ->]).
  - by intros pre a ->.
  - intros pre q post a Hks ->. unfold push. rewrite (proj2 (Nat.ltb_lt _ _)); [by eexists|]. rewrite Hks, length_app in Hlb. cbn in Hlb. lia.
  - done.
  - done.
  - lia.
  - bind. apply (link_levels_spec cap Hcap (S (length t0)) 1); try done; [lia|..].
    + intros i u nd Ei En. destruct (bt_nodes _ _ _ Hb i u nd Ei En) as (Hbk & _). destruct u as [|a u]; [done|]. exists 0%nat, []. split_and!; [done|done|cbn; lia].
    + intros q u c Eq Hl _. destruct u as [|a [|]]; try done. by apply (kd_all _ _ _ _ Hk q a).
    + intros _ x Hx i nd Ei En. destruct (bt_nodes _ _ _ Hb i x nd Ei En) as (Hbk & _). assert (Hsfx : forall w, proper_suffix w x -> w = []).
      { intros w Hw%proper_length. destruct w; [done|]. cbn in Hw. lia. }
      split; [|intros _ w _; apply Hsfx]. intros _ Hne. destruct x as [|a x]; [done|]. exists 0%nat, []. split; [done|]. split; [done|]. split; [by left|]. split; [by apply proper_nil|].
      intros w _ Hw. by rewrite (Hsfx w Hw).
    + lia.
    + lia.
Qed.
End links.
