(* ===== verification/AcismPlace.v ===== *)
(** The interleaving of acism_create.c: every node with children gets a state such that the
    states differ and the transitions of different nodes have different places. *)
From Stdlib Require Import Sorted.
From S2P Require Import Prelude Arrays Suffix Acism AcismScan AcismTree AcismLinks.

(** ** Bytes in use *)

Definition uat (uv : list Z) (z : Z) : Z := default 0 (uv !! Z.to_nat z).

Lemma zget_uat uv z : 0 <= z < Z.of_nat (length uv) -> zget uv z = Ret (uat uv z).
Proof.
  intros Hz. unfold zget, uat. rewrite (proj2 (Z.leb_le _ _)) by lia. by destruct (lookup_lt_is_Some_2 uv (Z.to_nat z)) as [u ->]; [lia|].
Qed.

Lemma zset_uat uv z x : 0 <= z < Z.of_nat (length uv) ->
  exists uv', zset uv z x = Ret uv' /\ length uv' = length uv /\ forall y, 0 <= y -> uat uv' y = if decide (y = z) then x else uat uv y.
Proof.
  intros Hz. unfold zset. rewrite (proj2 (Z.leb_le _ _)), (proj2 (Z.ltb_lt _ _)) by lia. eexists. split; [done|]. split; [by rewrite length_insert|].
  intros y Hy. unfold uat. rewrite lookup_ins by lia. destruct (decide (y = z)) as [->|]; [by rewrite decide_True|]. by rewrite decide_False by lia.
Qed.

Lemma uat_app uv n z : uat (uv ++ replicate n 0) z = uat uv z.
Proof.
  unfold uat. destruct (decide (Z.to_nat z < length uv)%nat) as [H|H]; [by rewrite lookup_app_l|]. rewrite lookup_app_r, (lookup_ge_None_2 uv) by lia.
  destruct (replicate n 0 !! _) as [x|] eqn:E; [|done]. by apply lookup_replicate in E as [-> _].
Qed.

Lemma uat_replicate n z : uat (replicate n 0) z = 0.
Proof. unfold uat. destruct (replicate n 0 !! _) as [x|] eqn:E; [|done]. by apply lookup_replicate in E as [-> _]. Qed.

Lemma land_lor_some u m k : Z.land u k <> 0 \/ Z.land m k <> 0 -> Z.land (Z.lor u m) k <> 0.
Proof. intros H. rewrite Z.land_lor_distr_l, Z.lor_eq_0_iff. tauto. Qed.

Lemma u32_small z : 0 <= z < 2 ^ 32 -> u32 z = z.
Proof. intros H. unfold u32. by apply Z.mod_small. Qed.

(** ** The loops over the children of a node *)

Section kids.
Context (t : tree) (ns : Z).

Definition syms (cs : list Z) : Prop := Forall (fun c => 0 < c < ns) cs.

Lemma max_start_spec w b : length (start0 w) = 257%nat -> length (start1 w) = 257%nat -> ns <= 257 ->
  forall ks cs fuel o best, sibs t o ks -> Forall2 (has_sym t) ks cs -> syms cs -> 0 < best < ns -> (length ks < fuel)%nat ->
  exists r, max_start fuel t w b o best = Ret r /\ 0 < r < ns.
Proof.
  intros H0 H1 Hns. assert (Hget : forall s, 0 < s < ns -> exists v, get_start w b s = Ret v) by (intros s Hs; unfold get_start; destruct b; rewrite zget_uat by lia; by eexists).
  induction ks as [|q ks IH]; intros cs [|fuel] o best Hs Hsy Hc Hbest Hf; cbn in Hf; try lia; cbn [max_start]; inversion Hs as [|? ndq ? Eq Hs']; subst; [by eexists|].
  apply Forall2_cons_inv_l in Hsy as (c & cs' & (nd' & E' & <-) & Hsy & ->). rewrite Eq in E'. injection E' as <-. apply Forall_cons in Hc as [Hc Hcs].
  rewrite (node_run _ _ _ Eq). bind. destruct (Hget _ Hc) as [v1 ->]. destruct (Hget _ Hbest) as [v2 ->]. bind. eapply IH; try done; [by case_ifs|lia].
Qed.

Lemma kids_fit_spec uv pos : 0 <= pos -> pos + ns <= Z.of_nat (length uv) -> pos + ns < 2 ^ 32 ->
  forall ks cs fuel o, sibs t o ks -> Forall2 (has_sym t) ks cs -> syms cs -> (length ks < fuel)%nat ->
  exists b, kids_fit fuel t uv pos o = Ret b /\ (b = true <-> forall c, c ∈ cs -> Z.land (uat uv (pos + c)) USED = 0).
Proof.
  intros Hp Hl Hw. induction ks as [|q ks IH]; intros cs [|fuel] o Hs Hsy Hc Hf; cbn in Hf; try lia; cbn [kids_fit]; inversion Hs as [|? ndq ? Eq Hs']; subst.
  - apply Forall2_nil_inv_l in Hsy as ->. exists true. split; [done|]. split; [by intros _ c ?%elem_of_nil|done].
  - apply Forall2_cons_inv_l in Hsy as (c & cs' & (nd' & E' & <-) & Hsy & ->). rewrite Eq in E'. injection E' as <-. apply Forall_cons in Hc as [Hc Hcs].
    rewrite (node_run _ _ _ Eq). bind. rewrite u32_small, zget_uat by lia. bind. destruct (Z.eqb_spec (Z.land (uat uv (pos + sym ndq)) USED) 0) as [Hz|Hz].
    + destruct (IH cs' fuel (next ndq)) as (b & -> & Hb); try done; [lia|]. exists b. split; [done|]. rewrite Hb. split.
      * intros H x [->|Hx]%elem_of_cons; [done|by apply H].
      * intros H x Hx. apply H. by right.
    + exists false. split; [done|]. split; [done|]. intros H. exfalso. apply Hz, H. by left.
Qed.

(** The children [cs] fit at [pos]. *)
Definition fits_at (uv : list Z) (need : Z) (cs : list Z) (pos : Z) : Prop := Z.land (uat uv pos) need = 0 /\ forall c, c ∈ cs -> Z.land (uat uv (pos + c)) USED = 0.

Lemma find_pos_spec uv need ks cs o L : sibs t o ks -> Forall2 (has_sym t) ks cs -> syms cs -> (length ks <= length t)%nat -> 0 < ns ->
  0 <= L -> L + ns < Z.of_nat (length uv) -> L + ns < 2 ^ 32 - 1 -> (forall z, L < z -> uat uv z = 0) ->
  forall fuel pos, 0 <= pos <= L + 1 -> L + 1 - pos < Z.of_nat fuel ->
  exists r, find_pos fuel t uv need o pos = Ret r /\ pos <= r <= L + 1 /\ fits_at uv need cs r /\ (fits_at uv need cs pos -> r = pos).
Proof.
  intros Hs Hsy Hc Hk Hns HL Hlen Hw Hz. induction fuel as [|n IH]; intros pos Hp Hf; [lia|]. cbn [find_pos]. rewrite zget_uat by lia. bind.
  assert (Hnext : ~ fits_at uv need cs pos -> exists r, find_pos n t uv need o (u32 (pos + 1)) = Ret r /\ pos <= r <= L + 1 /\ fits_at uv need cs r /\ (fits_at uv need cs pos -> r = pos)).
  { intros Hn. assert (pos <= L).
    { destruct (decide (pos <= L)); [done|]. exfalso. apply Hn. assert (pos = L + 1) as -> by lia. split; [by rewrite Hz, Z.land_0_l by lia|].
      intros c Hcc. unfold syms in Hc. rewrite Forall_forall in Hc. specialize (Hc c Hcc). by rewrite Hz, Z.land_0_l by lia. }
    rewrite u32_small by lia. destruct (IH (pos + 1)) as (r & -> & Hr & Hfit & _); [lia..|]. exists r. split_and!; try done; lia. }
  destruct (Z.eqb_spec (Z.land (uat uv pos) need) 0) as [Hu|Hu]; cbn [negb]; [|apply Hnext; by intros [? _]].
  destruct (kids_fit_spec uv pos ltac:(lia) ltac:(lia) ltac:(lia) ks cs (S (length t)) o Hs Hsy Hc ltac:(lia)) as (b & -> & Hb). bind. destruct b.
  - exists pos. split; [done|]. split; [lia|]. split; [|done]. split; [done|by apply Hb].
  - apply Hnext. intros [_ H]. by apply Hb in H.
Qed.

Lemma mark_kids_spec cap pos : 0 <= pos -> pos + ns < 2 ^ 32 ->
  forall ks cs fuel o uv last nk v2, sibs t o ks -> Forall2 (has_sym t) ks cs -> syms cs -> (length ks < fuel)%nat -> (length v2 + length ks < cap)%nat -> pos + ns <= Z.of_nat (length uv) ->
  exists uv', mark_kids fuel cap t pos o (uv, last, nk, v2) = Ret (uv', match list.last cs with Some c => pos + c | None => last end, nk + Z.of_nat (length ks), v2 ++ ks) /\
    length uv' = length uv /\ forall z, 0 <= z -> uat uv' z = if decide (z - pos ∈ cs) then Z.lor (uat uv z) USED else uat uv z.
Proof.
  intros Hp Hw. induction ks as [|q ks IH]; intros cs [|fuel] o uv last nk v2 Hs Hsy Hc Hf Hcap Hl; cbn in Hf; try lia; cbn [mark_kids]; inversion Hs as [|? ndq ? Eq Hs']; subst.
  - apply Forall2_nil_inv_l in Hsy as ->. exists uv. rewrite app_nil_r, Z.add_0_r. split; [done|]. split; [done|]. intros z _. rewrite decide_False; [done|]. apply not_elem_of_nil.
  - apply Forall2_cons_inv_l in Hsy as (c & cs' & (nd' & E' & <-) & Hsy & ->). rewrite Eq in E'. injection E' as <-. apply Forall_cons in Hc as [Hc Hcs].
    rewrite (node_run _ _ _ Eq). bind. rewrite u32_small, zget_uat by lia. bind.
    destruct (zset_uat uv (pos + sym ndq) (Z.lor (uat uv (pos + sym ndq)) USED)) as (uv1 & -> & Hl1 & Hu1); [lia|]. bind.
    cbn [length] in Hcap. unfold push. rewrite (proj2 (Nat.ltb_lt _ _)) by lia. bind.
    destruct (IH cs' fuel (next ndq) uv1 (pos + sym ndq) (nk + 1) (v2 ++ [q])) as (uv' & -> & Hl' & Hu'); try done; [lia|rewrite length_app; cbn; lia|lia|].
    exists uv'. split.
    + f_equal. f_equal; [f_equal; [f_equal|cbn [length]; lia]|by rewrite <-app_assoc]. rewrite last_cons. by destruct (list.last cs').
    + split; [congruence|]. intros z Hz. rewrite Hu', Hu1 by done. destruct (decide (z = pos + sym ndq)) as [->|Hne].
      * rewrite (decide_True (P := _ ∈ _ :: _)) by (apply elem_of_cons; left; lia). case_decide; [|done]. by rewrite <-Z.lor_assoc, Z.lor_diag.
      * assert (Hiff : z - pos ∈ cs' <-> z - pos ∈ sym ndq :: cs') by (rewrite elem_of_cons; split; [by right|intros [?|?]; [lia|done]]).
        by destruct (decide (z - pos ∈ cs')) as [H|H]; rewrite Hiff in H; [rewrite decide_True|rewrite decide_False].
Qed.
End kids.

Lemma sorted_last cs : StronglySorted Z.lt cs -> forall c, c ∈ cs -> exists m, list.last cs = Some m /\ m ∈ cs /\ c <= m.
Proof.
  induction 1 as [|x cs Hs IH Hx]; intros c Hc; [by apply elem_of_nil in Hc|]. destruct cs as [|y cs].
  - apply list_elem_of_singleton in Hc as ->. exists x. split; [done|]. split; [by left|lia].
  - assert (Hl : list.last (x :: y :: cs) = list.last (y :: cs)) by done. rewrite Hl. apply elem_of_cons in Hc as [->|Hc].
    + destruct (IH y) as (m & E & Hm & Hle); [by left|]. exists m. split; [done|]. split; [by right|]. apply Forall_cons in Hx as [Hx _]. lia.
    + destruct (IH c Hc) as (m & E & Hm & Hle). exists m. split; [done|]. split; [by right|done].
Qed.

(** ** The invariant *)

(** What [place] does to the back link: a link to the root is dropped. *)
Definition fixb (nd : TNODE) : TNODE := match back nd with Some O => set_back None nd | _ => nd end.

(** The state of a node. *)
Definition stt (t : tree) (i : nat) : Z := match t !! i with Some nd => state nd | None => 0 end.

Section place.
Context (t0 tb : tree) (path ws : list (list Z)) (Hb : built t0 path ws) (Hcov : covers path ws) (Htb : same_core t0 tb) (ns : Z).
Context (Hsym : forall u c, u ++ [c] ∈ path -> 0 < c < ns) (Hns : 0 < ns <= 257) (Hsize : ns * Z.of_nat (length path + 2) < 2 ^ 31).
Let Hsh : shape t0 path := bt_shape _ _ _ Hb.

(** The transitions of a node: to a child by [c], and back. *)
Definition cell (p : nat) (c : Z) : Prop :=
  (c = 0 /\ exists nd b, tb !! p = Some nd /\ back nd = Some (S b)) \/ exists u, path !! p = Some u /\ u ++ [c] ∈ path.

Definition placed (P : list nat) (p : nat) : Prop := nonleaf t0 p /\ p ∈ P.

Lemma nonleaf_tb p nd : tb !! p = Some nd -> nonleaf t0 p <-> child nd <> None.
Proof.
  intros E. destruct (core_lookup tb t0 p nd (core_sym _ _ Htb) E) as (nd0 & E0 & Hc & _). unfold nonleaf. by rewrite E0, Hc.
Qed.

(** The nodes of [P] have been gone through. *)
Record pinv (P : list nat) (t : tree) (w : work) : Prop := Pinv {
  pi_old : forall i nd, tb !! i = Some nd -> ~ placed P i -> t !! i = Some nd;
  pi_new : forall i nd, tb !! i = Some nd -> placed P i -> t !! i = Some (set_state (stt t i) (fixb nd));
  pi_out : length t = length tb;
  pi_room : last_trans w + ns < Z.of_nat (length (usev w));
  pi_last : 0 <= last_trans w <= ns * Z.of_nat (length P);
  pi_zero : forall z, last_trans w < z -> uat (usev w) z = 0;
  pi_starts : length (start0 w) = 257%nat /\ length (start1 w) = 257%nat /\ Forall (fun x => 0 <= x <= last_trans w + 1) (start0 w ++ start1 w);
  pi_base : forall p, placed P p -> 0 <= stt t p <= last_trans w /\ Z.land (uat (usev w) (stt t p)) BASE <> 0;
  pi_bases : forall p q, placed P p -> placed P q -> stt t p = stt t q -> p = q;
  pi_used : forall p c, placed P p -> cell p c -> stt t p + c <= last_trans w /\ Z.land (uat (usev w) (stt t p + c)) USED <> 0;
  pi_cells : forall p c q d, placed P p -> placed P q -> cell p c -> cell q d -> stt t p + c = stt t q + d -> p = q;
  pi_root : match P with
    | [] => last_trans w = 0 /\ (forall z, uat (usev w) z = 0) /\ Forall (fun x => x = 0) (start0 w ++ start1 w)
    | p :: _ => p = 0%nat /\ (nonleaf t0 0 -> stt t 0 = 0)
    end
}.

Lemma fixb_core nd : core (fixb nd) = core nd.
Proof. unfold fixb. by destruct (back nd) as [[|b]|]. Qed.

Lemma pinv_core P t w : pinv P t w -> same_core t0 t.
Proof.
  intros H. etrans; [exact Htb|]. intros i. destruct (tb !! i) as [nd|] eqn:E.
  - destruct (decide (nonleaf t0 i)) as [Hn|Hn]; [destruct (decide (i ∈ P)) as [Hi|Hi]|].
    + rewrite (pi_new _ _ _ H i nd E); [|done]. cbn. rewrite <-(fixb_core nd). done.
    + rewrite (pi_old _ _ _ H i nd E); [done|]. by intros [_ ?].
    + rewrite (pi_old _ _ _ H i nd E); [done|]. by intros [? _].
  - rewrite (lookup_ge_None_2 t); [done|]. rewrite (pi_out _ _ _ H). by apply lookup_ge_None_1.
Qed.

Definition need_of (nd : TNODE) : Z := if null (back (fixb nd)) then BASE else Z.lor BASE USED.

Lemma need_base nd u : Z.land u (need_of nd) = 0 -> Z.land u BASE = 0.
Proof. unfold need_of. destruct (null _); [done|]. rewrite Z.land_lor_distr_r, Z.lor_eq_0_iff. by intros [? _]. Qed.

Lemma need_used nd u b : back nd = Some (S b) -> Z.land u (need_of nd) = 0 -> Z.land u USED = 0.
Proof. intros E. unfold need_of, fixb. rewrite E. cbv iota. rewrite E. cbn [null]. rewrite Z.land_lor_distr_r, Z.lor_eq_0_iff. by intros [_ ?]. Qed.

(** What the step for [tp], with children by [cs], put at [pos], has to do. *)
Record step_ok (tp : nat) (nd : TNODE) (cs : list Z) (pos m : Z) (t t' : tree) (w w' : work) : Prop := StepOk {
  so_pos : 0 <= pos <= last_trans w + 1;
  so_fits : fits_at (usev w) (need_of nd) cs pos;
  so_here : t' !! tp = Some (set_state pos (fixb nd));
  so_else : forall i, i <> tp -> t' !! i = t !! i;
  so_len : length t' = length t;
  so_max : m ∈ cs /\ forall c, c ∈ cs -> c <= m;
  so_last : last_trans w' = Z.max (last_trans w) (pos + m);
  so_use : forall z, 0 <= z -> uat (usev w') z =
    let u1 := if decide (z = pos) then Z.lor (uat (usev w) z) (need_of nd) else uat (usev w) z in if decide (z - pos ∈ cs) then Z.lor u1 USED else u1;
  so_room : last_trans w' + ns < Z.of_nat (length (usev w'));
  so_starts : length (start0 w') = 257%nat /\ length (start1 w') = 257%nat /\ Forall (fun x => 0 <= x <= last_trans w' + 1) (start0 w' ++ start1 w')
}.

Section step.
Context (P : list nat) (tp : nat) (nd : TNODE) (u : list Z) (cs : list Z) (pos m : Z) (t t' : tree) (w w' : work).
Context (Hinv : pinv P t w) (Hnew : tp ∉ P) (Hfirst : P = [] -> tp = 0%nat /\ pos = 0) (Hnl : nonleaf t0 tp) (Eu : path !! tp = Some u) (End_ : tb !! tp = Some nd).
Context (Hcs : forall c, c ∈ cs <-> u ++ [c] ∈ path) (Hok : step_ok tp nd cs pos m t t' w w').

Lemma step_grows z k : 0 <= z -> Z.land (uat (usev w) z) k <> 0 -> Z.land (uat (usev w') z) k <> 0.
Proof.
  intros Hz Hk. rewrite (so_use _ _ _ _ _ _ _ _ _ Hok) by done. cbv zeta. repeat case_decide; repeat (apply land_lor_some; left); done.
Qed.

Lemma step_last : last_trans w <= last_trans w' /\ pos < last_trans w' /\ (forall c, c ∈ cs -> 0 < c /\ pos + c <= last_trans w').
Proof.
  rewrite (so_last _ _ _ _ _ _ _ _ _ Hok). destruct (so_max _ _ _ _ _ _ _ _ _ Hok) as [Hm Hmax].
  assert (0 < m) by (by apply (Hsym u m), Hcs). split; [lia|]. split; [lia|]. intros c Hc. pose proof (Hmax c Hc). pose proof (Hsym u c (proj1 (Hcs c) Hc)). lia.
Qed.

Lemma step_state i : stt t' i = if decide (i = tp) then pos else stt t i.
Proof. unfold stt. case_decide as H; [subst; by rewrite (so_here _ _ _ _ _ _ _ _ _ Hok)|by rewrite (so_else _ _ _ _ _ _ _ _ _ Hok)]. Qed.

Lemma step_placed i : placed (P ++ [tp]) i <-> i = tp \/ (i <> tp /\ placed P i).
Proof.
  unfold placed. rewrite elem_of_app, list_elem_of_singleton. split.
  - intros [Hn [Hi|Hi]]; [right|by left]. split; [by intros ->|done].
  - intros [->|[_ [? ?]]]; [split; [done|by right]|split; [done|by left]].
Qed.

Lemma step_base : Z.land (uat (usev w) pos) BASE = 0.
Proof. eapply need_base, (so_fits _ _ _ _ _ _ _ _ _ Hok). Qed.

Lemma step_cell c : cell tp c -> pos + c <= last_trans w' /\ Z.land (uat (usev w) (pos + c)) USED = 0 /\ Z.land (uat (usev w') (pos + c)) USED <> 0.
Proof.
  destruct step_last as (_ & Hp & Hl). pose proof (so_pos _ _ _ _ _ _ _ _ _ Hok). destruct (so_fits _ _ _ _ _ _ _ _ _ Hok) as [Hf1 Hf2].
  intros [(-> & nd' & b & E & Hbk)|(u' & Eu' & Hc)].
  - rewrite End_ in E. injection E as <-. rewrite Z.add_0_r. split; [lia|]. split; [by eapply need_used|]. rewrite (so_use _ _ _ _ _ _ _ _ _ Hok) by lia. cbv zeta.
    rewrite (decide_True (P := pos = pos)) by done. assert (HU : Z.land (Z.lor (uat (usev w) pos) (need_of nd)) USED <> 0).
    { apply land_lor_some. right. unfold need_of, fixb. rewrite Hbk. cbv iota. by rewrite Hbk. }
    case_decide; [apply land_lor_some; by left|done].
  - rewrite Eu in Eu'. injection Eu' as <-. apply Hcs in Hc. split; [by apply Hl|]. split; [by apply Hf2|]. destruct (Hl c Hc).
    rewrite (so_use _ _ _ _ _ _ _ _ _ Hok) by lia. cbv zeta. rewrite (decide_True (P := _ ∈ _)) by by replace (pos + c - pos) with c by lia. apply land_lor_some. by right.
Qed.

Lemma cell_nonneg p c : cell p c -> 0 <= c.
Proof. intros [[-> _]|(v & _ & Hc%Hsym)]; lia. Qed.

Lemma pinv_step : pinv (P ++ [tp]) t' w'.
Proof.
  destruct step_last as (Hl1 & Hl2 & Hl3). pose proof (so_pos _ _ _ _ _ _ _ _ _ Hok) as Hpos. split.
  - intros i n E Hn. rewrite step_placed in Hn. assert (Hne : i <> tp) by tauto. rewrite (so_else _ _ _ _ _ _ _ _ _ Hok) by done. apply (pi_old _ _ _ Hinv i n E). tauto.
  - intros i n E Hn. rewrite step_state. apply step_placed in Hn as [->|[Hne Hn]].
    + rewrite decide_True by done. rewrite End_ in E. injection E as <-. apply (so_here _ _ _ _ _ _ _ _ _ Hok).
    + rewrite decide_False, (so_else _ _ _ _ _ _ _ _ _ Hok) by done. by apply (pi_new _ _ _ Hinv i n E).
  - rewrite (so_len _ _ _ _ _ _ _ _ _ Hok). apply (pi_out _ _ _ Hinv).
  - apply (so_room _ _ _ _ _ _ _ _ _ Hok).
  - rewrite length_app. cbn [length]. pose proof (pi_last _ _ _ Hinv). rewrite (so_last _ _ _ _ _ _ _ _ _ Hok). destruct (so_max _ _ _ _ _ _ _ _ _ Hok) as [Hm _].
    pose proof (Hsym u m (proj1 (Hcs m) Hm)). nia.
  - intros z Hz. rewrite (so_use _ _ _ _ _ _ _ _ _ Hok) by lia. cbv zeta. rewrite (decide_False (P := z = pos)) by lia.
    rewrite decide_False; [apply (pi_zero _ _ _ Hinv); lia|]. intros Hc. apply Hl3 in Hc. lia.
  - apply (so_starts _ _ _ _ _ _ _ _ _ Hok).
  - intros p Hp. rewrite step_state. apply step_placed in Hp as [->|[Hne Hp]].
    + rewrite decide_True by done. split; [lia|]. rewrite (so_use _ _ _ _ _ _ _ _ _ Hok) by lia. cbv zeta. rewrite (decide_True (P := pos = pos)) by done.
      assert (HB : Z.land (Z.lor (uat (usev w) pos) (need_of nd)) BASE <> 0) by (apply land_lor_some; right; unfold need_of; by destruct (null _)).
      case_decide; [apply land_lor_some; by left|done].
    + rewrite decide_False by done. destruct (pi_base _ _ _ Hinv p Hp) as [H1 H2]. split; [lia|]. apply step_grows; [lia|done].
  - assert (Hclash : forall q, placed P q -> stt t q <> pos) by (intros q Hq E; destruct (pi_base _ _ _ Hinv q Hq) as [_ HB]; rewrite E in HB; by apply HB, step_base).
    intros p q Hp Hq. rewrite !step_state. apply step_placed in Hp as [->|[Hp1 Hp]]; apply step_placed in Hq as [->|[Hq1 Hq]]; [done|..].
    + rewrite decide_True, decide_False by done. intros E%eq_sym. by apply Hclash in E.
    + rewrite decide_False, decide_True by done. intros E. by apply Hclash in E.
    + rewrite !decide_False by done. by apply (pi_bases _ _ _ Hinv).
  - intros p c Hp Hc. rewrite step_state. apply step_placed in Hp as [->|[Hne Hp]].
    + rewrite decide_True by done. destruct (step_cell c Hc) as (? & _ & ?). done.
    + rewrite decide_False by done. destruct (pi_used _ _ _ Hinv p c Hp Hc) as [H1 H2]. split; [lia|]. apply step_grows; [|done].
      pose proof (pi_base _ _ _ Hinv p Hp). pose proof (cell_nonneg p c Hc). lia.
  - assert (Hclash : forall q c d, placed P q -> cell tp c -> cell q d -> pos + c <> stt t q + d).
    { intros q c d Hq Hc Hd E. destruct (step_cell c Hc) as (_ & H & _). rewrite E in H. by apply (pi_used _ _ _ Hinv q d Hq Hd). }
    intros p c q d Hp Hq Hc Hd. rewrite !step_state. apply step_placed in Hp as [->|[Hp1 Hp]]; apply step_placed in Hq as [->|[Hq1 Hq]]; [done|..].
    + rewrite decide_True, decide_False by done. intros E. by apply (Hclash q c d) in E.
    + rewrite decide_False, decide_True by done. intros E%eq_sym. by apply (Hclash p d c) in E.
    + rewrite !decide_False by done. by apply (pi_cells _ _ _ Hinv).
  - destruct P as [|p P']; cbn [app].
    + destruct Hfirst as [Ht Hp]; [done|]. split; [done|]. intros _. by rewrite step_state, decide_True.
    + destruct (pi_root _ _ _ Hinv) as [-> Hr]. split; [done|]. intros Hn. rewrite step_state, decide_False; [by apply Hr|]. intros <-. apply Hnew. by left.
Qed.
End step.

Lemma set_start_ok w b s v (Q : Z -> Prop) : length (start0 w) = 257%nat -> length (start1 w) = 257%nat -> 0 <= s < 257 -> Forall Q (start0 w ++ start1 w) -> Q v ->
  exists w', set_start w b s v = Ret w' /\ usev w' = usev w /\ last_trans w' = last_trans w /\ length (start0 w') = 257%nat /\ length (start1 w') = 257%nat /\ Forall Q (start0 w' ++ start1 w').
Proof.
  intros H0 H1 Hs [HQ0 HQ1]%Forall_app Hv. unfold set_start, zset. rewrite (proj2 (Z.leb_le _ _)) by lia. destruct b; rewrite (proj2 (Z.ltb_lt _ _)) by lia; bind; eexists;
    (split; [done|]); cbn; rewrite ?length_insert; repeat split; try done; apply Forall_app; split; by try apply Forall_insert.
Qed.

Lemma get_start_ok w b s (Q : Z -> Prop) : length (start0 w) = 257%nat -> length (start1 w) = 257%nat -> 0 <= s < 257 -> Forall Q (start0 w ++ start1 w) ->
  exists v, get_start w b s = Ret v /\ Q v.
Proof.
  intros H0 H1 Hs [HQ0 HQ1]%Forall_app. unfold get_start, zget. rewrite (proj2 (Z.leb_le _ _)) by lia. rewrite Forall_forall in HQ0, HQ1.
  destruct b; [destruct (lookup_lt_is_Some_2 (start1 w) (Z.to_nat s)) as [v E]; [lia|]|destruct (lookup_lt_is_Some_2 (start0 w) (Z.to_nat s)) as [v E]; [lia|]]; rewrite E; exists v;
    (split; [done|]); [apply HQ1|apply HQ0]; by eapply list_elem_of_lookup_2.
Qed.

(** A leaf is passed over. *)
Lemma pinv_leaf P tp t w : pinv P t w -> (P = [] -> tp = 0%nat) -> ~ nonleaf t0 tp -> pinv (P ++ [tp]) t w.
Proof.
  intros [] Hfirst Hn. assert (Hp : forall i, placed (P ++ [tp]) i <-> placed P i).
  { intros i. unfold placed. rewrite elem_of_app, list_elem_of_singleton. split; [intros [? [?| ->]]; done|]. intros [? ?]. split; [done|by left]. }
  split; try done; try (intros; rewrite ?Hp in *; by eauto).
  - rewrite length_app. cbn. nia.
  - destruct P as [|p P]; cbn [app]; [|done]. split; [by apply Hfirst|]. intros Hr. exfalso. apply Hn. by rewrite (Hfirst eq_refl).
Qed.

Lemma place_spec cap P tp t w v2 u nd ks cs : pinv P t w -> tp ∉ P -> (P = [] -> tp = 0%nat) -> (length P <= length path)%nat ->
  path !! tp = Some u -> tb !! tp = Some nd -> sibs t0 (child nd) ks -> kids path u ks cs -> (length v2 + length ks < cap)%nat ->
  exists t' w', place cap ns tp (t, w, v2) = Ret (t', w', v2 ++ ks) /\ pinv (P ++ [tp]) t' w'.
Proof.
  intros Hinv Hnew Hfirst HP Eu E Hs Hk Hcap. assert (Et : t !! tp = Some nd) by (apply (pi_old _ _ _ Hinv); [done|by intros [_ ?]]).
  unfold place. rewrite (node_run _ _ _ Et). bind. destruct (child nd) as [k|] eqn:Ech.
  2: { inversion Hs; subst. exists t, w. rewrite app_nil_r. split; [done|]. apply pinv_leaf; [done|done|]. rewrite (nonleaf_tb tp nd E). congruence. }
  assert (Hnl : nonleaf t0 tp) by (rewrite (nonleaf_tb tp nd E); congruence).
  pose proof (pinv_core _ _ _ Hinv) as Hc.
  change (modify t tp _) with (modify t tp fixb). destruct (modify_core t tp fixb nd Et (fixb_core nd)) as (t1 & -> & C1 & L1). bind.
  assert (E1 : t1 !! tp = Some (fixb nd)) by (by rewrite L1, decide_True). rewrite (node_run _ _ _ E1). bind.
  assert (Hc1 : same_core t0 t1) by (by etrans). pose proof (core_sibs _ _ _ _ Hc1 Hs) as Hs1. inversion Hs1 as [|k' nk ks' Ek Hs1']; subst k' ks. rewrite (node_run _ _ _ Ek). bind.
  assert (Hsy : forall t', same_core t0 t' -> Forall2 (has_sym t') (k :: ks') cs).
  { intros t' Hc'. eapply Forall2_impl; [by eapply kids_syms|]. intros q c (ndq & Eq & Hq). destruct (core_lookup t0 t' q ndq Hc' Eq) as (n' & E' & _ & _ & Hs' & _). exists n'. by rewrite Hs'. }
  assert (Hcs : forall c, c ∈ cs <-> u ++ [c] ∈ path).
  { intros c. split; [intros H; destruct (kids_sym path u _ cs c Hk H) as (q & _ & Eq); by eapply list_elem_of_lookup_2|].
    intros [q Eq]%list_elem_of_lookup. destruct (kids_lt path u _ cs q Hk (kd_all _ _ _ _ Hk q c Eq)) as (c' & Hc' & Eq'). rewrite Eq in Eq'.
    apply (inj Some), app_inv_head in Eq'. by injection Eq' as <-. }
  assert (Hsm : syms ns cs) by (apply Forall_forall; intros c Hcc; by eapply Hsym, Hcs).
  pose proof (kids_bound path u _ cs Hk) as Hkl. pose proof (sh_size _ _ Hsh) as Hsz. pose proof (core_length _ _ Hc1) as Hlen1.
  set (L := last_trans w) in *. pose proof (pi_last _ _ _ Hinv) as HL. fold L in HL. assert (HLs : L + 2 * ns < 2 ^ 31) by nia.
  destruct (pi_starts _ _ _ Hinv) as (Hl0 & Hl1 & Hst). fold L in Hst. set (b := negb (null (back (fixb nd)))).
  pose proof (Hsy t1 Hc1) as Hsy1. apply Forall2_cons_inv_l in Hsy1 as (c0 & cs' & (nk' & Ek' & Hc0) & Hsy1 & Ecs). rewrite Ek in Ek'. injection Ek' as <-.
  assert (Hsm0 : syms ns (c0 :: cs')) by (by rewrite <-Ecs). apply Forall_cons in Hsm0 as [Hm0 Hsm'].
  destruct (max_start_spec t1 ns w b Hl0 Hl1 ltac:(lia) ks' cs' (S (length t1)) (next nk) (sym nk)) as (sp & -> & Hsp); try done; [by rewrite Hc0|cbn in Hkl; lia|]. bind.
  destruct (get_start_ok w b sp (fun x => 0 <= x <= L + 1 /\ (P = [] -> x = 0)) Hl0 Hl1 ltac:(lia)) as (start & -> & Hstart & Hstart0).
  { apply Forall_and. split; [done|]. pose proof (pi_root _ _ _ Hinv) as Hr. destruct P; [|by apply Forall_forall]. destruct Hr as (_ & _ & Hr). by eapply Forall_impl; [exact Hr|]. }
  bind. assert (Hneed : (if b then Z.lor BASE USED else BASE) = need_of nd) by (unfold b, need_of; by destruct (null _)). rewrite Hneed.
  pose proof (pi_room _ _ _ Hinv) as Hroom. fold L in Hroom.
  destruct (find_pos_spec t1 ns (usev w) (need_of nd) (k :: ks') cs (Some k) L Hs1 (Hsy t1 Hc1) Hsm ltac:(lia) ltac:(lia) ltac:(lia) ltac:(lia) ltac:(lia) (pi_zero _ _ _ Hinv) (S (length (usev w))) start Hstart ltac:(lia))
    as (pos & -> & Hpos & Hfit & Hmin). bind.
  destruct (modify_core t1 tp (set_state pos) (fixb nd) E1 eq_refl) as (t2 & -> & C2 & L2). bind. rewrite zget_uat by lia. bind.
  destruct (zset_uat (usev w) pos (Z.lor (uat (usev w) pos) (need_of nd))) as (uv1 & -> & Hlu1 & Hu1); [lia|]. bind.
  assert (Hc2 : same_core t0 t2) by (by etrans). pose proof (core_length _ _ Hc2) as Hlen2.
  destruct (mark_kids_spec t2 ns cap pos ltac:(lia) ltac:(lia) (k :: ks') cs (S (length t2)) (Some k) uv1 0 0 v2 (core_sibs _ _ _ _ Hc2 Hs) (Hsy t2 Hc2) Hsm ltac:(lia) ltac:(lia) ltac:(lia))
    as (uv2 & -> & Hlu2 & Hu2). bind.
  destruct (sorted_last cs (kd_sorted _ _ _ _ Hk) c0) as (m & Em & Hm & _); [rewrite Ecs; by left|]. rewrite Em. bind.
  assert (Hmc : 0 < m < ns) by (by apply (Hsym u), Hcs). assert (Hmax : forall c, c ∈ cs -> c <= m).
  { intros c Hcc. destruct (sorted_last cs (kd_sorted _ _ _ _ Hk) c Hcc) as (m' & Em' & _ & Hle). rewrite Em in Em'. by injection Em' as <-. }
  assert (Hnk : 0 < 0 + Z.of_nat (length (k :: ks'))) by (cbn [length]; lia). set (nk0 := 0 + Z.of_nat (length (k :: ks'))) in *.
  assert (Hdiv : 0 <= u32 (pos - start) / nk0 <= pos - start).
  { rewrite u32_small by lia. split; [by apply Z.div_pos; lia|]. apply Z.div_le_upper_bound; [done|]. nia. }
  rewrite (u32_small (start + _)) by lia.
  assert (Hnew_start : 0 <= start + u32 (pos - start) / nk0 <= L + 1) by lia.
  destruct (set_start_ok (mkWork uv2 (start0 w) (start1 w) L) b sp (start + u32 (pos - start) / nk0) (fun x => 0 <= x <= L + 1) Hl0 Hl1 ltac:(lia) Hst Hnew_start) as (w1 & -> & Hw1 & Hw2 & Hw3 & Hw4 & Hw5).
  bind. cbn [usev last_trans] in Hw1, Hw2. rewrite Hw2, Hw1.
  assert (Hall : forall w', last_trans w' = Z.max L (pos + m) -> (forall z, uat (usev w') z = uat uv2 z) -> last_trans w' + ns < Z.of_nat (length (usev w')) -> start0 w' = start0 w1 -> start1 w' = start1 w1 -> pinv (P ++ [tp]) t2 w').
  { intros w' H1 H2 H3 H4 H5. apply (pinv_step P tp nd u cs pos m t t2 w w'); try done.
    - intros HP0. split; [by apply Hfirst|]. subst P. destruct (pi_root _ _ _ Hinv) as (_ & Hz & _). rewrite <-(Hstart0 eq_refl). apply Hmin. split; [by rewrite Hz|]. intros c _. by rewrite Hz.
    - split; try done; [fold L; lia|by rewrite L2, decide_True|by intros i Hi; rewrite L2, L1, !decide_False by done|by rewrite (core_length _ _ C2), (core_length _ _ C1)| |].
      + intros z Hz. rewrite H2, Hu2 by done. cbv zeta. by destruct (decide (z - pos ∈ cs)); rewrite Hu1 by done; case_decide; subst.
      + rewrite H4, H5, H1. split; [done|]. split; [done|]. eapply Forall_impl; [exact Hw5|]. cbn. intros x Hx. lia. }
  destruct (Z.ltb_spec L (pos + m)) as [Hlt|Hge].
  - rewrite u32_small by lia. do 2 eexists. split; [reflexivity|]. apply Hall; cbn; try done; [lia| |].
    + intros z. destruct (_ <=? _); [by apply uat_app|done].
    + destruct (Z.leb_spec (Z.of_nat (length uv2)) (pos + m + ns)); [rewrite length_app, length_replicate; lia|lia].
  - do 2 eexists. split; [reflexivity|]. apply Hall; cbn; try done; [lia|by rewrite Hw1|rewrite Hw1, Hw2; lia].
Qed.

Lemma nodes_bound (l : list nat) : NoDup l -> (forall q, q ∈ l -> is_Some (path !! q)) -> (length l <= length path)%nat.
Proof.
  intros Hnd Hl. rewrite <-(length_seq (length path) 0). apply submseteq_length, NoDup_submseteq; [done|]. intros q Hq%Hl%lookup_lt_is_Some. apply elem_of_seq. lia.
Qed.

Lemma place_level_spec cap v1 kss : kid_lists t0 path v1 kss -> forall P t w v2, pinv P t w -> NoDup (P ++ v1) -> (forall q, q ∈ P ++ v1 -> is_Some (path !! q)) ->
  (P = [] -> head v1 = Some 0%nat) -> (length v2 + length (concat kss) < cap)%nat ->
  exists t' w', place_level cap ns v1 (t, w, v2) = Ret (t', w', v2 ++ concat kss) /\ pinv (P ++ v1) t' w'.
Proof.
  induction 1 as [|tp ks v1 kss (u & nd0 & cs & Eu & E0 & Hs & Hk) _ IH]; intros P t w v2 Hinv Hnd Hin Hfirst Hcap; cbn [place_level concat].
  { exists t, w. by rewrite !app_nil_r. }
  destruct (core_lookup t0 tb tp nd0 Htb E0) as (nd & E & Hch & _). cbn [concat] in Hcap. rewrite length_app in Hcap.
  assert (Hnew : tp ∉ P) by (apply NoDup_app in Hnd as (_ & Hnd & _); intros H; apply (Hnd tp H); by left).
  destruct (place_spec cap P tp t w v2 u nd ks cs) as (t1 & w1 & -> & Hinv1); try done.
  - intros HP. specialize (Hfirst HP). by injection Hfirst.
  - apply nodes_bound; [by apply NoDup_app in Hnd as [? _]|]. intros q Hq. apply Hin, elem_of_app. by left.
  - by rewrite Hch.
  - lia.
  - bind. destruct (IH (P ++ [tp]) t1 w1 (v2 ++ ks)) as (t' & w' & -> & Hinv'); [done|by rewrite <-app_assoc|by rewrite <-app_assoc| |rewrite length_app; lia|].
    + intros HP. by destruct P.
    + exists t', w'. rewrite <-!app_assoc in *. done.
Qed.

(** [P] are the nodes of depth less than [d], [v] those of depth [d]. *)
Definition above (d : nat) (P v : list nat) : Prop :=
  NoDup P /\ (forall p, p ∈ P <-> exists u, path !! p = Some u /\ (length u < d)%nat) /\ level path d v /\ forall p u, path !! p = Some u -> length u = d -> p ∈ v.

Lemma above_next d P v kss : above d P v -> kid_lists t0 path v kss -> above (S d) (P ++ v) (concat kss).
Proof.
  intros (Hnd & HP & Hlev & Hall) Hk. pose proof (kid_lists_level t0 path ws Hb d v kss Hlev Hk) as Hlev'. split.
  { apply NoDup_app. split; [done|]. split; [|apply Hlev]. intros p (u & Ep & Hu)%HP Hp. destruct Hlev as [_ Hlev]. destruct (Hlev p Hp) as (u' & Ep' & Hu'). rewrite Ep in Ep'.
    injection Ep' as <-. lia. }
  split.
  { intros p. rewrite elem_of_app, HP. split.
    - intros [(u & Ep & Hu)|Hp]; [exists u; split; [done|lia]|]. destruct Hlev as [_ Hlev]. destruct (Hlev p Hp) as (u & Ep & Hu). exists u. split; [done|lia].
    - intros (u & Ep & Hu). destruct (decide (length u < d)%nat) as [|Hd]; [left; by exists u|right]. apply (Hall p u Ep). lia. }
  split; [done|]. intros p u Ep Hl. destruct u as [|a u' _] using rev_ind; [done|]. apply (kid_lists_in t0 path v kss p Hk). rewrite length_app in Hl. cbn in Hl.
  assert (Hin : u' ∈ path) by (eapply (path_prefix t0 path Hsh); [by eapply list_elem_of_lookup_2|]; by apply prefix_app_r).
  apply list_elem_of_lookup in Hin as [j Ej]. exists j, u', a. split_and!; try done. apply (Hall j u' Ej). lia.
Qed.

Lemma place_levels_spec cap : (S (length ws) < cap)%nat -> forall fuel d P t w v1, above d P v1 -> pinv P t w -> (P = [] -> head v1 = Some 0%nat) -> (length path < fuel + d)%nat -> (0 < fuel)%nat ->
  exists t' w' P', place_levels fuel cap ns t w v1 = Ret (t', w') /\ pinv P' t' w' /\ NoDup P' /\ forall p, p ∈ P' <-> is_Some (path !! p).
Proof.
  intros Hcap. induction fuel as [|n IH]; intros d P t w v1 Hab Hinv Hfirst Hf Hf0; [lia|]. cbn [place_levels]. pose proof Hab as (Hnd & HP & Hlev & Hall). destruct v1 as [|q v1].
  - exists t, w, P. split; [done|]. split; [done|]. split; [done|]. intros p. rewrite HP. split; [intros (u & E & _); by eexists|]. intros [u E]. exists u. split; [done|].
    destruct (decide (length u < d)%nat) as [|Hd]; [done|]. exfalso.
    assert (Hin : take d u ∈ path) by (eapply (path_prefix t0 path Hsh); [by eapply list_elem_of_lookup_2|]; exists (drop d u); by rewrite take_drop).
    apply list_elem_of_lookup in Hin as [j Ej]. assert (Hj : j ∈ []) by (apply (Hall j (take d u) Ej); rewrite length_take; lia). by apply elem_of_nil in Hj.
  - set (v := q :: v1) in *. destruct (kid_lists_ex t0 path ws Hb d v Hlev) as (kss & Hk). pose proof (above_next d P v kss Hab Hk) as Hab'.
    pose proof Hab' as (Hnd' & HP' & Hlev' & _). pose proof (level_bound t0 path ws Hb Hcov (S d) _ ltac:(lia) Hlev') as Hlb.
    destruct (place_level_spec cap v kss Hk P t w [] Hinv Hnd') as (t' & w' & -> & Hinv'); [|done|cbn; lia|].
    { intros p (u & E & _)%HP'. by eexists. }
    bind. cbn [app]. apply (IH (S d) (P ++ v)); try done; [by destruct P|lia|].
    assert (Hdp : (d < length path)%nat); [|lia]. destruct Hlev as [_ H]. destruct (H q) as (u & Eq & <-); [by left|]. apply (path_length t0 path ws Hb). by eapply list_elem_of_lookup_2.
Qed.

(** ** The result *)

(** What the states of [t] are good for, in a table of [tsize] transitions. *)
Record packed (t : tree) (tsize : Z) : Prop := Packed {
  pk_leaf : forall i nd, tb !! i = Some nd -> is_Some (path !! i) -> ~ nonleaf t0 i -> t !! i = Some nd;
  pk_node : forall i nd, tb !! i = Some nd -> is_Some (path !! i) -> nonleaf t0 i -> t !! i = Some (set_state (stt t i) (fixb nd));
  pk_core : same_core t0 t;
  pk_size : 0 < tsize <= ns * Z.of_nat (length path) + 1;
  pk_state : forall p, is_Some (path !! p) -> nonleaf t0 p -> 0 <= stt t p < tsize;
  pk_states : forall p q, is_Some (path !! p) -> is_Some (path !! q) -> nonleaf t0 p -> nonleaf t0 q -> stt t p = stt t q -> p = q;
  pk_cell : forall p c, is_Some (path !! p) -> nonleaf t0 p -> cell p c -> stt t p + c < tsize;
  pk_cells : forall p c q d, is_Some (path !! p) -> is_Some (path !! q) -> nonleaf t0 p -> nonleaf t0 q -> cell p c -> cell q d -> stt t p + c = stt t q + d -> p = q;
  pk_root : nonleaf t0 0 -> stt t 0 = 0
}.

Lemma interleave_spec cap nnodes : nnodes = length path -> (S (length ws) < cap)%nat -> exists t tsize, interleave cap tb nnodes ns = Ret (t, tsize) /\ packed t tsize.
Proof.
  intros -> Hcap. unfold interleave, push. rewrite (proj2 (Nat.ltb_lt _ _)) by (cbn; lia). bind. cbn [app].
  pose proof (sh_root _ _ Hsh) as Er. pose proof (lookup_lt_Some _ _ _ Er) as Hp0. pose proof (sh_size _ _ Hsh) as Hsz. pose proof (core_length _ _ Htb) as Hlen.
  assert (Hinit : pinv [] tb (mkWork (replicate (length path + Z.to_nat ns) 0) (replicate 257 0) (replicate 257 0) 0)).
  { assert (Hno : forall i, ~ placed [] i) by (by intros i [_ ?%elem_of_nil]). split; try done; cbn [usev start0 start1 last_trans]; try (by intros p H; apply Hno in H); try (by intros p q H; apply Hno in H); try (by intros p c q d H; apply Hno in H).
    - intros i nd _ H. by apply Hno in H.
    - rewrite length_replicate. lia.
    - cbn. lia.
    - intros z _. apply uat_replicate.
    - rewrite !length_replicate. split; [done|]. split; [done|]. apply Forall_app; split; by apply Forall_replicate.
    - split; [done|]. split; [intros z; apply uat_replicate|]. apply Forall_app; split; by apply Forall_replicate. }
  assert (Hab : above 0 [] [0%nat]).
  { split; [constructor|]. split; [intros p; split; [by intros ?%elem_of_nil|intros (u & _ & H); lia]|]. split.
    - split; [apply NoDup_singleton|]. intros q ->%list_elem_of_singleton. by exists [].
    - intros p u E Hl. destruct u; [|done]. rewrite (path_inj t0 path Hsh p 0 [] E Er). by left. }
  destruct (place_levels_spec cap Hcap (S (S (length tb))) 0 [] tb _ [0%nat] Hab Hinit) as (t & w & P & -> & Hinv & Hnd & HP); [done|lia|lia|]. bind.
  assert (HPl : (length P <= length path)%nat) by (apply nodes_bound; [done|]; intros q; apply HP). pose proof (pi_last _ _ _ Hinv) as HL.
  rewrite u32_small by nia. do 2 eexists. split; [reflexivity|].
  assert (Hpl : forall p, is_Some (path !! p) -> nonleaf t0 p -> placed P p) by (intros p Hp Hn; split; [done|by apply HP]). split.
  - intros i nd E Hi Hn. apply (pi_old _ _ _ Hinv i nd E). by intros [? _].
  - intros i nd E Hi Hn. apply (pi_new _ _ _ Hinv i nd E). by apply Hpl.
  - by eapply pinv_core.
  - nia.
  - intros p Hp Hn. destruct (pi_base _ _ _ Hinv p (Hpl p Hp Hn)). lia.
  - intros p q H1 H2 H3 H4. apply (pi_bases _ _ _ Hinv); by apply Hpl.
  - intros p c Hp Hn Hc. destruct (pi_used _ _ _ Hinv p c (Hpl p Hp Hn) Hc). lia.
  - intros p c q d H1 H2 H3 H4. apply (pi_cells _ _ _ Hinv); by apply Hpl.
  - intros Hn. pose proof (pi_root _ _ _ Hinv) as Hr. destruct P as [|p P]; [|by apply Hr]. assert (H0 : 0%nat ∈ []) by (apply HP; by eexists). by apply elem_of_nil in H0.
Qed.
End place.
