(* ===== verification/AcismTable.v ===== *)
(** The table of transitions that acism_create.c fills in: every transition of the tree is
    at its place, and no other place looks like one. *)
From Stdlib Require Import Sorted.
From S2P Require Import Prelude Arrays Suffix Acism AcismScan AcismTree AcismLinks AcismPlace.

(** ** Writing into a table *)

(** The places of [D] got their values, the others are as they were. *)
Definition wrote (D : Z -> Z -> Prop) (tab tab' : list Z) : Prop :=
  length tab' = length tab /\ (forall z x, D z x -> uat tab' z = x) /\ forall z, 0 <= z -> (forall x, ~ D z x) -> uat tab' z = uat tab z.

Lemma wrote_nothing tab : wrote (fun _ _ => False) tab tab.
Proof. by split_and!. Qed.

Lemma wrote_iff D D' tab tab' : wrote D tab tab' -> (forall z x, D z x <-> D' z x) -> wrote D' tab tab'.
Proof.
  intros (H1 & H2 & H3) HD. split; [done|]. split; [intros z x Hz; by apply H2, HD|]. intros z Hz Hn. apply H3; [done|]. intros x Hx. by apply (Hn x), HD.
Qed.

Lemma wrote_seq D1 D2 tab tab1 tab2 : wrote D1 tab tab1 -> wrote D2 tab1 tab2 -> (forall z x, D1 z x -> 0 <= z) -> (forall z x x', D1 z x -> D2 z x' -> x = x') ->
  wrote (fun z x => D1 z x \/ D2 z x) tab tab2.
Proof.
  intros (H1 & H2 & H3) (K1 & K2 & K3) Hpos Hfun. split; [congruence|]. split.
  - intros z x [Hx|Hx]; [|by apply K2]. apply dec_stable. intros Hne. apply Hne. rewrite K3; [by apply H2|by eapply Hpos|].
    intros x' Hx'. apply Hne. rewrite (K2 z x' Hx'). symmetry. by eapply Hfun.
  - intros z Hz Hn. rewrite K3, H3; [done|done| |done|]; intros x Hx; apply (Hn x); [by left|by right].
Qed.

(** ** Fields of an entry *)

(** A transition: its symbol, flags and next state. *)
Definition enc (bits c : Z) (m s : bool) (ns : Z) : Z := Z.lor (Z.lor (Z.lor c (if m then IS_MATCH else 0)) (if s then IS_SUFFIX else 0)) (u32 (Z.shiftl ns bits)).

Lemma bit_of_pow2 (b : bool) n i : 0 <= n -> 0 <= i -> Z.testbit (if b then 2 ^ n else 0) i = b && (i =? n).
Proof. intros Hn Hi. destruct b; [|by rewrite Z.bits_0]. rewrite Z.pow2_bits_eqb by done. cbn. by rewrite Z.eqb_sym. Qed.

Lemma enc_bits bits c m s ns i : 0 <= bits -> 0 <= ns -> ns * 2 ^ bits < 2 ^ 32 -> 0 <= i ->
  Z.testbit (enc bits c m s ns) i = Z.testbit c i || m && (i =? 31) || s && (i =? 30) || (bits <=? i) && Z.testbit ns (i - bits).
Proof.
  intros Hb Hn Hs Hi. unfold enc. rewrite !Z.lor_spec. change IS_MATCH with (2 ^ 31). change IS_SUFFIX with (2 ^ 30). rewrite !bit_of_pow2 by done.
  rewrite Z.shiftl_mul_pow2, u32_small by (rewrite ?Z.shiftl_mul_pow2; nia). rewrite <-Z.shiftl_mul_pow2, Z.shiftl_spec by done.
  destruct (Z.leb_spec bits i); [done|]. by rewrite (Z.testbit_neg_r ns) by lia.
Qed.

Lemma mask_ones bits : 0 <= bits < 32 -> mask_of bits = Z.ones bits.
Proof.
  intros Hb. unfold mask_of. rewrite Z.shiftl_mul_pow2, Z.ones_equiv by lia. unfold Z.lnot. pose proof (Z.pow_pos_nonneg 2 bits ltac:(lia) ltac:(lia)).
  pose proof (Z.pow_lt_mono_r 2 bits 32 ltac:(lia) ltac:(lia) ltac:(lia)). rewrite u32_small; lia.
Qed.

Section fields.
Context (psp : ACISM) (bits : Z) (Hbits : 0 <= bits <= 30) (Epb : sym_bits psp = bits) (Epm : sym_mask psp = mask_of bits).

Lemma next_small ns : 0 <= ns < 2 ^ (30 - bits) -> ns * 2 ^ bits < 2 ^ 30.
Proof.
  intros Hn. assert (E : 2 ^ 30 = 2 ^ (30 - bits) * 2 ^ bits) by (rewrite <-Z.pow_add_r by lia; f_equal; lia).
  pose proof (Z.pow_pos_nonneg 2 bits ltac:(lia) ltac:(lia)). rewrite E. nia.
Qed.

Lemma sym_spec x : t_sym psp x = x mod 2 ^ bits.
Proof. unfold t_sym. by rewrite Epm, mask_ones, Z.land_ones by lia. Qed.

Lemma enc_sym c m s ns : 0 <= c < 2 ^ bits -> 0 <= ns < 2 ^ (30 - bits) -> t_sym psp (enc bits c m s ns) = c.
Proof.
  intros Hc Hn. rewrite sym_spec. pose proof (next_small ns Hn) as Hns30.
  apply Z.bits_inj'. intros i Hi. destruct (decide (i < bits)) as [H|H].
  - rewrite Z.mod_pow2_bits_low, enc_bits by lia. rewrite (proj2 (Z.leb_gt _ _) H). rewrite !(proj2 (Z.eqb_neq _ _)) by lia. by rewrite !andb_false_r, !orb_false_r.
  - rewrite Z.mod_pow2_bits_high by lia. symmetry. apply (bits_high c bits); lia.
Qed.

(** The tests and fields of an entry, with its symbol masked by [c'] that differs only in
    the low bits. *)
Lemma enc_next c c' m s ns : 0 <= c < 2 ^ bits -> 0 <= c' < 2 ^ bits -> 0 <= ns < 2 ^ (30 - bits) -> t_next psp (Z.lxor (enc bits c m s ns) c') = ns.
Proof.
  intros Hc Hc' Hn. unfold t_next. rewrite Epb. pose proof (next_small ns Hn) as Hns30.
  change (u32 (Z.lnot T_FLAGS)) with (Z.ones 30). apply Z.bits_inj'. intros i Hi. rewrite Z.shiftr_spec, Z.land_spec, Z.testbit_ones_nonneg by lia.
  destruct (Z.ltb_spec (i + bits) 30) as [H30|H30].
  - rewrite Z.lxor_spec, enc_bits by lia. rewrite (bits_high c bits), (bits_high c' bits) by lia. rewrite !(proj2 (Z.eqb_neq _ _)) by lia. rewrite (proj2 (Z.leb_le _ _)) by lia.
    rewrite !andb_false_r, andb_true_r, xorb_false_r. cbn. f_equal. lia.
  - rewrite andb_false_r. symmetry. apply (bits_high ns (30 - bits)); lia.
Qed.

Lemma enc_flag c c' m s ns : 0 <= c < 2 ^ bits -> 0 <= c' < 2 ^ bits -> 0 <= ns < 2 ^ (30 - bits) ->
  (Z.land (Z.lxor (enc bits c m s ns) c') IS_MATCH <> 0 <-> m = true) /\ (Z.land (Z.lxor (enc bits c m s ns) c') IS_SUFFIX <> 0 <-> s = true).
Proof.
  intros Hc Hc' Hn. pose proof (next_small ns Hn) as Hns30.
  assert (Hland : forall x n, 0 <= n -> Z.land x (2 ^ n) <> 0 <-> Z.testbit x n = true).
  { intros x n H0. split.
    - intros Hne. destruct (Z.testbit x n) eqn:E; [done|]. exfalso. apply Hne. apply Z.bits_inj'. intros i Hi. rewrite Z.land_spec, Z.pow2_bits_eqb, Z.bits_0 by done.
      destruct (Z.eqb_spec n i) as [->|]; [by rewrite E|by rewrite andb_false_r].
    - intros E Hz. apply (f_equal (fun y => Z.testbit y n)) in Hz. rewrite Z.land_spec, E, Z.pow2_bits_true, Z.bits_0 in Hz by done. done. }
  assert (Hhigh : forall y i, 0 <= y < 2 ^ bits -> 30 <= i -> Z.testbit y i = false) by (intros y i Hy Hi; apply (bits_high y bits); lia).
  assert (Hnh : forall i, 30 <= i -> Z.testbit ns (i - bits) = false) by (intros i Hi; apply (bits_high ns (30 - bits)); lia).
  change IS_MATCH with (2 ^ 31). change IS_SUFFIX with (2 ^ 30). rewrite !Hland, !Z.lxor_spec, !enc_bits by lia. rewrite !Hnh, (Hhigh c), (Hhigh c'), (Hhigh c), (Hhigh c') by lia.
  cbn. rewrite !andb_false_r, !andb_true_r, !orb_false_r, !xorb_false_r. done.
Qed.

(** A place is a transition by [c] if it has symbol [c]. *)
Lemma valid_iff x c : 0 <= x -> 0 <= c < 2 ^ bits -> t_valid psp (Z.lxor x c) = true <-> t_sym psp x = c.
Proof.
  intros Hx Hc. unfold t_valid. rewrite Z.eqb_eq, !sym_spec. rewrite <-!Z.land_ones by lia.
  assert (El : Z.land (Z.lxor x c) (Z.ones bits) = Z.lxor (Z.land x (Z.ones bits)) c).
  { apply Z.bits_inj'. intros i Hi. rewrite Z.land_spec, !Z.lxor_spec, Z.land_spec, Z.testbit_ones_nonneg by lia. destruct (Z.ltb_spec i bits); [by rewrite !andb_true_r|].
    rewrite !andb_false_r, (bits_high c bits) by lia. done. }
  rewrite El, Z.lxor_eq_0_iff. done.
Qed.

Lemma enc_nonneg c m s ns : 0 <= c -> 0 <= enc bits c m s ns.
Proof.
  intros Hc. unfold enc. rewrite !Z.lor_nonneg. repeat split; [done|by destruct m|by destruct s|]. unfold u32. apply Z.mod_pos_bound. lia.
Qed.
End fields.

(** ** Filling *)

Lemma sorted_short cs : forall a ns, StronglySorted Z.lt cs -> Forall (fun c => a < c < ns) cs -> 0 <= a < ns -> Z.of_nat (length cs) <= ns - a - 1.
Proof.
  induction cs as [|c cs IH]; intros a ns Hs Hc Ha; cbn [length]; [lia|]. apply StronglySorted_inv in Hs as [Hs Hx]. apply Forall_cons in Hc as [Hc Hcs].
  assert (Hc' : Forall (fun x => c < x < ns) cs).
  { rewrite Forall_forall in *. intros x Hin. specialize (Hx x Hin). specialize (Hcs x Hin). lia. }
  specialize (IH c ns Hs Hc' ltac:(lia)). lia.
Qed.

Section table.
Context (t0 tb t : tree) (path ws : list (list Z)) (Hb : built t0 path ws) (Hcov : covers path ws) (Htb : same_core t0 tb) (Hbk : back_ok path tb) (ns : Z).
Context (Hsym : forall u c, u ++ [c] ∈ path -> 0 < c < ns) (Hns : 0 < ns <= 257) (Hsize : ns * Z.of_nat (length path + 2) < 2 ^ 31).
Context (tsize bits : Z) (Hpk : packed t0 tb path ns t tsize).
Let Hsh : shape t0 path := bt_shape _ _ _ Hb.
Let Hct : same_core t0 t := pk_core _ _ _ _ _ _ Hpk.

(** The transitions, by the string that is read: to a node, and back from it. *)
Inductive entry : list Z -> Z -> Z -> Prop :=
| entry_kid p q u c nd : path !! p = Some u -> path !! q = Some (u ++ [c]) -> t !! q = Some nd ->
    entry (u ++ [c]) (stt t p + c) (enc bits c (negb (match_ nd =? 0)) (is_suffix nd) (if null (child nd) then u32 (match_ nd - 1 + tsize) else state nd))
| entry_back p nd b u : path !! p = Some u -> t !! p = Some nd -> child nd <> None -> back nd = Some b -> entry u (stt t p) (enc bits 0 false false (stt t b)).

Lemma nonleaf_kid p u c : path !! p = Some u -> u ++ [c] ∈ path -> nonleaf t0 p.
Proof.
  intros Ep Hin. destruct (shape_node t0 path Hsh p u Ep) as [nd E]. unfold nonleaf. rewrite E. apply (child_inner t0 path ws Hb Hcov t0 p u nd ltac:(done) Ep E). exists c. by apply Hcov.
Qed.

(** A node after the interleaving. *)
Lemma node_t p u : path !! p = Some u -> exists nd nb, t !! p = Some nd /\ tb !! p = Some nb /\ child nd = child nb /\ is_suffix nd = is_suffix nb /\ match_ nd = mark ws u /\
  (nonleaf t0 p <-> child nd <> None) /\ stt t p = state nd /\ (nonleaf t0 p -> back nd = back (fixb nb)).
Proof.
  intros Ep. destruct (node_at t0 path ws Hb tb p u Htb Ep) as (nb & _ & Eb & _ & _ & _ & Hm). pose proof (nonleaf_tb t0 tb Htb p nb Eb) as Hn. exists (default nb (t !! p)), nb.
  assert (Hf : match_ (fixb nb) = match_ nb /\ child (fixb nb) = child nb /\ is_suffix (fixb nb) = is_suffix nb) by (unfold fixb; by destruct (back nb) as [[|]|]). destruct Hf as (Hf1 & Hf2 & Hf3).
  destruct (decide (nonleaf t0 p)) as [Hl|Hl].
  - pose proof (pk_node _ _ _ _ _ _ Hpk p nb Eb ltac:(by eexists) Hl) as E. rewrite E. cbn [default]. split_and!; cbn; try done; try congruence.
  - pose proof (pk_leaf _ _ _ _ _ _ Hpk p nb Eb ltac:(by eexists) Hl) as E. unfold stt. rewrite E. cbn [default]. by split_and!.
Qed.

Lemma cell_kid p u c : path !! p = Some u -> u ++ [c] ∈ path -> cell tb path p c.
Proof. intros Ep Hin. right. by exists u. Qed.

Lemma cell_back p u nd b : path !! p = Some u -> t !! p = Some nd -> child nd <> None -> back nd = Some b -> cell tb path p 0 /\ exists v, path !! b = Some v.
Proof.
  intros Ep E Hc Hbn. destruct (node_t p u Ep) as (nd' & nb & E' & Eb & H1 & _ & _ & Hn & _ & Hback). rewrite E in E'. injection E' as <-. rewrite Hback in Hbn by by apply Hn.
  unfold fixb in Hbn. pose proof (Hbk p u nb Ep Eb) as Hbo. destruct (back nb) as [[|b']|] eqn:Ebn; [done| |by rewrite Ebn in Hbn]. rewrite Ebn in Hbn. injection Hbn as <-.
  split; [left; split; [done|]; by exists nb, b'|]. destruct u as [|a u]; [congruence|]. destruct Hbo as (b2 & v & E2 & Ev & _). injection E2 as <-. by exists v.
Qed.

Lemma entry_place v z x : entry v z x -> exists p c, is_Some (path !! p) /\ nonleaf t0 p /\ cell tb path p c /\ z = stt t p + c /\ 0 <= stt t p /\ 0 <= c /\ 0 < z < tsize.
Proof.
  destruct 1 as [p q u c nd Ep Eq E|p nd b u Ep E Hc Hbn].
  - assert (Hin : u ++ [c] ∈ path) by by eapply list_elem_of_lookup_2. pose proof (nonleaf_kid p u c Ep Hin) as Hn. pose proof (cell_kid p u c Ep Hin) as Hcl. exists p, c.
    destruct (pk_state _ _ _ _ _ _ Hpk p ltac:(by eexists) Hn). pose proof (pk_cell _ _ _ _ _ _ Hpk p c ltac:(by eexists) Hn Hcl). pose proof (Hsym u c Hin). split_and!; try done; try lia.
  - destruct (cell_back p u nd b Ep E Hc Hbn) as [Hcl _]. destruct (node_t p u Ep) as (nd' & nb & E' & Eb & _ & _ & _ & Hn & _). rewrite E in E'. injection E' as <-. apply Hn in Hc.
    exists p, 0. destruct (pk_state _ _ _ _ _ _ Hpk p ltac:(by eexists) Hc). split_and!; try done; try lia.
    assert (stt t p <> 0); [|lia]. intros Hz. assert (Hr : nonleaf t0 0).
    { destruct u as [|a u]. { by rewrite (path_inj t0 path Hsh 0 p [] (sh_root _ _ Hsh) Ep). } apply (nonleaf_kid 0 [] a (sh_root _ _ Hsh)).
      eapply (path_prefix t0 path Hsh); [by eapply list_elem_of_lookup_2|]. by exists u. }
    assert (p = 0%nat) as ->. { apply (pk_states _ _ _ _ _ _ Hpk); [by eexists|exists []; apply (sh_root _ _ Hsh)|done|done|]. by rewrite (pk_root _ _ _ _ _ _ Hpk Hr). }
    destruct Hcl as [(_ & nb' & b' & Eb' & Hbb)|(u' & _ & Hu0)]; [|apply Hsym in Hu0; lia]. rewrite Eb in Eb'. injection Eb' as <-.
    pose proof (Hbk 0%nat [] nb (sh_root _ _ Hsh) Eb) as Hroot. cbn in Hroot. congruence.
Qed.

(** Two entries at one place are the same. *)
Lemma entry_fun v v' z x x' : entry v z x -> entry v' z x' -> x = x'.
Proof.
  intros H H'. inversion H as [p q u c nd Ep Eq E|p nd b u Ep E Hc Hbn]; inversion H' as [p' q' u' c' nd' Ep' Eq' E'|p' nd' b' u' Ep' E' Hc' Hbn']; subst.
  - assert (Hin : u ++ [c] ∈ path) by by eapply list_elem_of_lookup_2. assert (Hin' : u' ++ [c'] ∈ path) by by eapply list_elem_of_lookup_2.
    assert (p = p') as <- by (by apply (pk_cells _ _ _ _ _ _ Hpk p c p' c'); eauto using nonleaf_kid, cell_kid). assert (c = c') as <- by lia.
    rewrite Ep in Ep'. injection Ep' as <-. assert (q = q') as <- by by apply (path_inj t0 path Hsh q q' (u ++ [c])). rewrite E in E'. by injection E' as <-.
  - exfalso. assert (Hin : u ++ [c] ∈ path) by by eapply list_elem_of_lookup_2. destruct (cell_back p' v' nd' b' Ep' E' Hc' Hbn') as [Hcl _].
    destruct (node_t p' v' Ep') as (n & nb & En & _ & _ & _ & _ & Hn & _). rewrite E' in En. injection En as <-.
    assert (p' = p) as -> by (apply (pk_cells _ _ _ _ _ _ Hpk p' 0 p c); eauto using nonleaf_kid, cell_kid; [by apply Hn|lia]). pose proof (Hsym u c Hin). lia.
  - exfalso. assert (Hin : u' ++ [c'] ∈ path) by by eapply list_elem_of_lookup_2. destruct (cell_back p v nd b Ep E Hc Hbn) as [Hcl _].
    destruct (node_t p v Ep) as (n & nb & En & _ & _ & _ & _ & Hn & _). rewrite E in En. injection En as <-.
    assert (p = p') as -> by (apply (pk_cells _ _ _ _ _ _ Hpk p 0 p' c'); eauto using nonleaf_kid, cell_kid; [by apply Hn|lia]). pose proof (Hsym u' c' Hin). lia.
  - destruct (node_t p v Ep) as (n & nb & En & _ & _ & _ & _ & Hn & _). rewrite E in En. injection En as <-.
    destruct (node_t p' v' Ep') as (n' & nb' & En' & _ & _ & _ & _ & Hn' & _). rewrite E' in En'. injection En' as <-.
    assert (p = p') as <- by (apply (pk_states _ _ _ _ _ _ Hpk); try (by eexists); [by apply Hn|by apply Hn'|done]). congruence.
Qed.

Lemma set_tran_wrote tab s c m sf n : 0 <= s -> 0 <= c -> s + c < Z.of_nat (length tab) -> s + c < 2 ^ 32 ->
  exists tab', set_tran bits tab s c m sf n = Ret tab' /\ wrote (fun z x => z = s + c /\ x = enc bits c m sf n) tab tab'.
Proof.
  intros Hs Hc Hl H32. unfold set_tran. rewrite u32_small by lia. fold (enc bits c m sf n). destruct (zset_uat tab (s + c) (enc bits c m sf n)) as (tab' & -> & Hlen & Hu); [lia|].
  exists tab'. split; [done|]. split; [done|]. split.
  - intros z x [-> ->]. rewrite Hu by lia. by rewrite decide_True.
  - intros z Hz Hn. rewrite Hu by done. rewrite decide_False; [done|]. intros ->. by apply (Hn (enc bits c m sf n)).
Qed.

Lemma fill_back_wrote tab p u nd : path !! p = Some u -> t !! p = Some nd -> tsize <= Z.of_nat (length tab) ->
  exists tab', fill_back bits t nd tab = Ret tab' /\ wrote (fun z x => exists b, child nd <> None /\ back nd = Some b /\ z = stt t p /\ x = enc bits 0 false false (stt t b)) tab tab'.
Proof.
  intros Ep E Hl. unfold fill_back. destruct (child nd) as [k|] eqn:Ec; [destruct (back nd) as [b|] eqn:Ebn|].
  - destruct (cell_back p u nd b Ep E ltac:(congruence) Ebn) as (_ & v & Ev). destruct (node_t b v Ev) as (nb & _ & Eb & _ & _ & _ & _ & _ & Hst & _). rewrite (node_run _ _ _ Eb). bind.
    destruct (node_t p u Ep) as (nd' & _ & E' & _ & _ & _ & _ & _ & Hst' & _). rewrite E in E'. injection E' as <-. rewrite <-Hst, <-Hst'.
    destruct (entry_place u (stt t p) (enc bits 0 false false (stt t b))) as (_ & _ & _ & _ & _ & _ & _ & _ & Hz); [apply (entry_back p nd b u Ep E); [by rewrite Ec|done]|].
    pose proof (pk_size _ _ _ _ _ _ Hpk). destruct (set_tran_wrote tab (stt t p) 0 false false (stt t b)) as (tab' & -> & Hw); [nia..|]. exists tab'. split; [done|].
    eapply wrote_iff; [exact Hw|]. intros z x. rewrite Z.add_0_r. split; [intros [-> ->]; by exists b|]. intros (b' & _ & [= <-] & -> & ->). done.
  - exists tab. split; [done|]. eapply wrote_iff; [apply wrote_nothing|]. intros z x. split; [done|]. by intros (b & _ & ? & _).
  - exists tab. split; [done|]. eapply wrote_iff; [apply wrote_nothing|]. intros z x. split; [done|]. by intros (b & ? & _).
Qed.

(** The transitions below a node of string [u], by the symbols [cs]. *)
Definition below (u cs : list Z) (z x : Z) : Prop := exists v c, c ∈ cs /\ u ++ [c] `prefix_of` v /\ entry v z x.

Lemma below_nil u z x : ~ below u [] z x.
Proof. by intros (v & c & ?%elem_of_nil & _). Qed.

Lemma entry_path v z x : entry v z x -> v ∈ path.
Proof. destruct 1; by eapply list_elem_of_lookup_2. Qed.

(** A child: the transition to it, the one back from it, and those below. *)
Lemma below_cons p q u c nd ks' cs' cs z x : path !! p = Some u -> path !! q = Some (u ++ [c]) -> t !! q = Some nd -> kids path (u ++ [c]) ks' cs' ->
  below u (c :: cs) z x <-> ((z = stt t p + c /\ x = enc bits c (negb (match_ nd =? 0)) (is_suffix nd) (if null (child nd) then u32 (match_ nd - 1 + tsize) else state nd)) \/
    ((exists b, child nd <> None /\ back nd = Some b /\ z = stt t q /\ x = enc bits 0 false false (stt t b)) \/ below (u ++ [c]) cs' z x)) \/ below u cs z x.
Proof.
  intros Ep Eq E Hk. split.
  - intros (v & c1 & [->|Hc]%elem_of_cons & Hpre & Hen); [|right; by exists v, c1]. left. pose proof (entry_path _ _ _ Hen) as Hv. destruct Hpre as [k Hk']. destruct k as [|d k].
    + rewrite app_nil_r in Hk'. subst v. inversion Hen as [p' q' u' c' nd' Ep' Eq' E' Hu'|p' nd' b u' Ep' E' Hch Hbn]; subst.
      * apply app_inj_tail in Hu' as [-> ->]. assert (p' = p) as -> by by apply (path_inj t0 path Hsh p' p u). assert (q' = q) as -> by by apply (path_inj t0 path Hsh q' q (u ++ [c])).
        rewrite E in E'. injection E' as <-. by left.
      * right. left. assert (p' = q) as -> by by apply (path_inj t0 path Hsh p' q (u ++ [c])). rewrite E in E'. injection E' as <-. by exists b.
    + right. right. exists v, d. split; [|split; [exists k; by rewrite Hk', <-!app_assoc|done]]. assert (Hd : (u ++ [c]) ++ [d] ∈ path).
      { eapply (path_prefix t0 path Hsh); [exact Hv|]. exists k. by rewrite Hk', <-!app_assoc. }
      apply list_elem_of_lookup in Hd as [j Ej]. pose proof (kd_all _ _ _ _ Hk j d Ej) as Hj. destruct (kids_lt path _ _ _ j Hk Hj) as (d' & Hd' & Ej'). rewrite Ej in Ej'.
      apply (inj Some), app_inv_head in Ej'. by injection Ej' as ->.
  - intros [[[-> ->]|[(b & Hch & Hbn & -> & ->)|(v & d & Hd & Hpre & Hen)]]|(v & c1 & Hc & Hpre & Hen)].
    + exists (u ++ [c]), c. split; [by left|]. split; [done|]. by apply (entry_kid p q).
    + exists (u ++ [c]), c. split; [by left|]. split; [done|]. by apply (entry_back q nd b).
    + exists v, c. split; [by left|]. split; [|done]. etrans; [|exact Hpre]. by apply prefix_app_r.
    + exists v, c1. split; [by right|done].
Qed.

Lemma below_fun u cs u' cs' z x x' : below u cs z x -> below u' cs' z x' -> x = x'.
Proof. intros (v & _ & _ & _ & H) (v' & _ & _ & _ & H'). by eapply entry_fun. Qed.

Lemma below_pos u cs z x : below u cs z x -> 0 <= z.
Proof. intros (v & _ & _ & _ & H). destruct (entry_place _ _ _ H) as (_ & _ & _ & _ & _ & _ & _ & _ & ?). lia. Qed.

Lemma fill_kids_spec : forall fuel ks cs u p o tab, path !! p = Some u -> sibs t o ks -> Forall2 (fun q c => path !! q = Some (u ++ [c])) ks cs ->
  tsize <= Z.of_nat (length tab) -> (258 * (length path - length u) + length ks < fuel)%nat ->
  exists tab', fill_kids fuel bits tsize t (stt t p) o tab = Ret tab' /\ wrote (below u cs) tab tab'.
Proof.
  induction fuel as [|n IH]; intros ks cs u p o tab Ep Hs Hks Hl Hf; [lia|]. cbn [fill_kids]. inversion Hs as [|q nd ks0 E Hs']; subst.
  { apply Forall2_nil_inv_l in Hks as ->. exists tab. split; [done|]. eapply wrote_iff; [apply wrote_nothing|]. intros z x. split; [done|]. by intros ?%below_nil. }
  apply Forall2_cons_inv_l in Hks as (c & cs0 & Eq & Hks & ->). rewrite (node_run _ _ _ E). bind. pose proof (pk_size _ _ _ _ _ _ Hpk) as Hts.
  destruct (node_t q (u ++ [c]) Eq) as (nd' & nb & E' & Eb & _ & _ & _ & Hn & Hst & _). rewrite E in E'. injection E' as <-.
  assert (Hin : u ++ [c] ∈ path) by by eapply list_elem_of_lookup_2.
  assert (Esy : sym nd = c). { destruct (node_at t0 path ws Hb t q _ Hct Eq) as (n1 & n0 & E1 & E0 & _ & Hsy & _). rewrite E in E1. injection E1 as <-. rewrite Hsy. by apply (path_last t0 path Hsh q u c n0 Eq E0). }
  rewrite Esy. set (x0 := if null (child nd) then _ else _).
  destruct (entry_place _ _ _ (entry_kid p q u c nd Ep Eq E)) as (_ & _ & _ & _ & _ & _ & _ & _ & Hz). pose proof (pk_state _ _ _ _ _ _ Hpk p ltac:(by eexists) (nonleaf_kid p u c Ep Hin)) as Hsp.
  pose proof (Hsym u c Hin) as Hc.
  destruct (set_tran_wrote tab (stt t p) c (negb (match_ nd =? 0)) (is_suffix nd) x0) as (tab1 & -> & Hw1); [nia..|]. bind. pose proof Hw1 as [Hl1 _].
  destruct (node_children t0 path ws Hb t q _ nd Hct Eq E) as (ks' & cs' & Hs1 & _ & Hk & _).
  assert (Hsub : exists tab2, (match child nd with Some k => tab ← fill_back bits t nd tab1; fill_kids n bits tsize t (state nd) (Some k) tab | None => Ret tab1 end) = Ret tab2 /\
    wrote (fun z x => (exists b, child nd <> None /\ back nd = Some b /\ z = stt t q /\ x = enc bits 0 false false (stt t b)) \/ below (u ++ [c]) cs' z x) tab1 tab2).
  { destruct (child nd) as [k|] eqn:Ech.
    - destruct (fill_back_wrote tab1 q _ nd Eq E ltac:(lia)) as (tab2 & -> & Hw2). bind. pose proof Hw2 as [Hl2 _]. rewrite <-Hst.
      assert (Hkl : (length ks' <= 256)%nat).
      { rewrite (Forall2_length _ _ _ (kd_each _ _ _ _ Hk)). assert (Hall : Forall (fun x => 0 < x < ns) cs').
        { apply Forall_forall. intros x Hx. destruct (kids_sym path _ _ _ x Hk Hx) as (j & _ & Ej). apply (Hsym (u ++ [c])). by eapply list_elem_of_lookup_2. }
        pose proof (sorted_short cs' 0 ns (kd_sorted _ _ _ _ Hk) Hall ltac:(lia)). lia. }
      pose proof (path_length t0 path ws Hb _ Hin) as Hpl. rewrite length_app in Hpl. cbn [length] in Hpl, Hf.
      destruct (IH ks' cs' (u ++ [c]) q (Some k) tab2 Eq Hs1 (kd_each _ _ _ _ Hk) ltac:(lia)) as (tab3 & -> & Hw3); [rewrite length_app; cbn [length]; lia|]. exists tab3. split; [done|].
      rewrite Ech in Hw2. eapply wrote_seq; [exact Hw2|exact Hw3| |].
      + intros z x (b & _ & _ & -> & _). assert (Hn' : nonleaf t0 q) by (apply Hn; congruence). by apply (pk_state _ _ _ _ _ _ Hpk q).
      + intros z x x' (b & Hcb & Hbb & -> & ->) (v & d & _ & _ & Hen). eapply entry_fun; [|exact Hen]. apply (entry_back q nd b _ Eq E); [congruence|done].
    - exists tab1. split; [done|]. assert (cs' = []) as -> by (pose proof (kd_each _ _ _ _ Hk) as Hke; inversion Hs1; subst; by apply Forall2_nil_inv_l in Hke). eapply wrote_iff; [apply wrote_nothing|].
      intros z x. split; [done|]. intros [(b & ? & _)|?%below_nil]; done. }
  destruct Hsub as (tab2 & -> & Hw2). bind. pose proof Hw2 as [Hl2 _]. cbn [length] in Hf.
  destruct (IH ks0 cs0 u p (next nd) tab2 Ep Hs' Hks ltac:(lia) ltac:(lia)) as (tab3 & -> & Hw3). exists tab3. split; [done|].
  assert (Hkid : entry (u ++ [c]) (stt t p + c) (enc bits c (negb (match_ nd =? 0)) (is_suffix nd) x0)) by by apply (entry_kid p q).
  assert (Hbacks : forall z x, (exists b, child nd <> None /\ back nd = Some b /\ z = stt t q /\ x = enc bits 0 false false (stt t b)) -> entry (u ++ [c]) z x).
  { intros z x (b & H1 & H2 & -> & ->). by apply (entry_back q nd b). }
  eapply wrote_iff; [eapply wrote_seq; [eapply wrote_seq; [exact Hw1|exact Hw2|..]|exact Hw3|..]|].
  - intros z x [-> _]. lia.
  - intros z x x' [-> ->] [Hx'|(v & d & _ & _ & Hen)]; [|by eapply entry_fun]. eapply entry_fun; [exact Hkid|by apply Hbacks].
  - intros z x [[-> _]|[Hx|Hx]]; [lia| |by eapply below_pos]. apply Hbacks, entry_place in Hx as (_ & _ & _ & _ & _ & _ & _ & _ & ?). lia.
  - intros z x x' Hx (v & d & _ & _ & Hen). destruct Hx as [[-> ->]|[Hx|(v' & d' & _ & _ & Hen')]]; [by eapply entry_fun| |by eapply entry_fun]. eapply entry_fun; [by apply Hbacks|done].
  - intros z x. symmetry. by apply (below_cons p q u c nd ks').
Qed.

(** [fill_tranv], on a table of zeros. *)
Definition tran_table (tab : list Z) : Prop := tsize <= Z.of_nat (length tab) /\ (forall v z x, entry v z x -> uat tab z = x) /\ forall z, 0 <= z -> (forall v x, ~ entry v z x) -> uat tab z = 0.

Lemma fill_tranv_spec m : tsize <= Z.of_nat m -> exists tab, fill_tranv bits tsize t 0 (replicate m 0) = Ret tab /\ length tab = m /\ tran_table tab.
Proof.
  intros Hm. pose proof (sh_root _ _ Hsh) as Er. destruct (node_t 0 [] Er) as (nd & nb & E & Eb & _ & _ & _ & _ & Hst & _). unfold fill_tranv. rewrite (node_run _ _ _ E). bind.
  destruct (fill_back_wrote (replicate m 0) 0 [] nd Er E) as (tab1 & -> & Hw1); [by rewrite length_replicate|]. bind. rewrite <-Hst.
  destruct (node_children t0 path ws Hb t 0 [] nd Hct Er E) as (ks & cs & Hs & _ & Hk & _ & Hkl). pose proof Hw1 as [Hl1 _]. rewrite length_replicate in Hl1.
  assert (Hkl2 : (length ks <= 256)%nat).
  { rewrite (Forall2_length _ _ _ (kd_each _ _ _ _ Hk)). assert (Hall : Forall (fun x => 0 < x < ns) cs).
    { apply Forall_forall. intros x Hx. destruct (kids_sym path _ _ _ x Hk Hx) as (j & _ & Ej). apply (Hsym []). by eapply list_elem_of_lookup_2. }
    pose proof (sorted_short cs 0 ns (kd_sorted _ _ _ _ Hk) Hall ltac:(lia)). lia. }
  pose proof (sh_size _ _ Hsh) as Hsz. pose proof (core_length _ _ Hct) as Hlen.
  destruct (fill_kids_spec (258 * S (length t)) ks cs [] 0 (child nd) tab1 Er Hs (kd_each _ _ _ _ Hk)) as (tab2 & -> & Hw2); [lia|cbn [length]; lia|]. exists tab2. split; [done|].
  pose proof Hw2 as [Hl2 _]. split; [lia|]. split; [lia|]. assert (Hnoback : forall b, child nd <> None -> back nd <> Some b).
  { intros b Hc Hbn. destruct (cell_back 0 [] nd b Er E Hc Hbn) as [[(_ & n & b' & En & Hn)|(u & _ & Hu%Hsym)] _]; [|lia].
    pose proof (Hbk 0%nat [] n Er En) as Hroot. cbn in Hroot. congruence. }
  assert (Hall : forall v z x, entry v z x -> below [] cs z x).
  { intros v z x Hen. pose proof (entry_path _ _ _ Hen) as Hv. destruct v as [|c v].
    - exfalso. inversion Hen as [? ? u' c' ? ? ? ? Hu|p' nd' b u' Ep' E' Hch Hbn]; subst; [by destruct u'|]. assert (p' = 0%nat) as -> by by apply (path_inj t0 path Hsh p' 0 []).
      rewrite E in E'. injection E' as <-. by apply (Hnoback b).
    - exists (c :: v), c. split; [|split; [by exists v|done]]. assert (Hc : [] ++ [c] ∈ path) by (eapply (path_prefix t0 path Hsh); [exact Hv|by exists v]).
      apply list_elem_of_lookup in Hc as [j Ej]. pose proof (kd_all _ _ _ _ Hk j c Ej) as Hj. destruct (kids_lt path _ _ _ j Hk Hj) as (d' & Hd' & Ej'). rewrite Ej in Ej'.
      apply (inj Some) in Ej'. by injection Ej' as ->. }
  destruct Hw1 as (_ & _ & H1). destruct Hw2 as (_ & H2 & H3). split.
  - intros v z x Hen. by eapply H2, Hall.
  - intros z Hz Hn. rewrite H3, H1; [apply uat_replicate|done| |done|].
    + intros x (b & Hc & Hbn & _). by apply (Hnoback b).
    + intros x (v & _ & _ & _ & Hen). by apply (Hn v x).
Qed.
End table.
