(* ===== verification/AcismMachine.v ===== *)
(** The hash table of acism_create.c: the entries are found by the search of acism.c, also
    once the table is cut to its size, and there is one for each node that ends a string and
    has children; and the finished table is a machine for the strings, in the sense of
    AcismScan: every transition, back link and number is found where acism.c looks for it. *)
From S2P Require Import Prelude Arrays Suffix Acism AcismScan AcismTree AcismLinks AcismPlace AcismTable.

Section hash.
Context (psp0 : ACISM) (T M nh : Z) (HT : tran_size psp0 = T) (HM : hash_mod psp0 = M) (HT0 : 0 <= T) (HM0 : 0 < M < 2 ^ 31) (Hnh : 0 < nh).

(** The machine with block [l]. *)
Definition on (l : list Z) : ACISM := set_table psp0 l (hash_size psp0).

Definition hst (l : list Z) (i : Z) : Z := uat l (T + 2 * i).
Definition hno (l : list Z) (i : Z) : Z := uat l (T + 2 * i + 1).
Definition ph (s : Z) : Z := u32 (s * 107) mod M.

Lemma p_hash_run l s : p_hash (on l) s = Ret (ph s).
Proof. unfold p_hash, on. cbn. rewrite HM, (proj2 (Z.eqb_neq _ _)) by lia. done. Qed.

Lemma ph_range s : 0 <= ph s < M.
Proof. unfold ph. apply Z.mod_pos_bound. lia. Qed.

Lemma hash_state_run l i n : 0 <= i < n -> T + 2 * n <= Z.of_nat (length l) -> hash_state (on l) i = Ret (hst l i).
Proof. intros Hi Hl. unfold hash_state, on. cbn. rewrite HT. apply zget_uat. lia. Qed.

Lemma hash_strno_run l i n : 0 <= i < n -> T + 2 * n <= Z.of_nat (length l) -> hash_strno (on l) i = Ret (hno l i).
Proof. intros Hi Hl. unfold hash_strno, on. cbn. rewrite HT. apply zget_uat. lia. Qed.

Lemma set_hash_run l i e n : 0 <= i < n -> T + 2 * n <= Z.of_nat (length l) ->
  exists l', set_hash (on l) i e = Ret (on l') /\ length l' = length l /\ (forall z, 0 <= z < T -> uat l' z = uat l z) /\
    forall j, 0 <= j -> hst l' j = (if decide (j = i) then e.1 else hst l j) /\ hno l' j = if decide (j = i) then e.2 else hno l j.
Proof.
  intros Hi Hl. unfold set_hash. cbn [table tran_size on set_table]. rewrite HT. destruct (zset_uat l (T + 2 * i) e.1) as (l1 & -> & Hl1 & Hu1); [lia|]. bind.
  destruct (zset_uat l1 (T + 2 * i + 1) e.2) as (l2 & -> & Hl2 & Hu2); [lia|]. bind. exists l2. split; [by rewrite <-HT|]. split; [congruence|]. split.
  - intros z Hz. rewrite Hu2, decide_False, Hu1, decide_False by lia. done.
  - intros j Hj. unfold hst, hno. split.
    + rewrite Hu2, decide_False, Hu1 by lia. destruct (decide (j = i)) as [->|]; [by rewrite decide_True|by rewrite decide_False by lia].
    + rewrite Hu2 by lia. destruct (decide (j = i)) as [->|]; [by rewrite decide_True|]. rewrite decide_False, Hu1, decide_False by lia. done.
Qed.

(** ** The invariant *)

(** The entries [E] are in the table of [HS] places, each after a full run from its hash. *)
Record hinv (HS : Z) (l0 l : list Z) (E : list (Z * Z)) : Prop := Hinv {
  hi_len : T + 2 * HS <= Z.of_nat (length l) /\ length l = length l0;
  hi_tran : forall z, 0 <= z < T -> uat l z = uat l0 z;
  hi_keys : NoDup E.*1 /\ 0 ∉ E.*1;
  hi_in : forall i, 0 <= i < HS -> hst l i <> 0 -> (hst l i, hno l i) ∈ E /\ ph (hst l i) <= i /\ forall j, ph (hst l i) <= j < i -> hst l j <> 0;
  hi_all : forall e, e ∈ E -> exists i, 0 <= i < HS /\ hst l i = e.1 /\ hno l i = e.2;
  hi_once : forall i j, 0 <= i < HS -> 0 <= j < HS -> hst l i <> 0 -> hst l i = hst l j -> i = j
}.

Lemma hinv_empty HS l : T + 2 * HS <= Z.of_nat (length l) -> (forall i, 0 <= i < HS -> hst l i = 0) -> hinv HS l l [].
Proof.
  intros Hl Hz. split; try done.
  - split; [constructor|]. apply not_elem_of_nil.
  - intros i Hi Hne. by rewrite Hz in Hne.
  - by intros e ?%elem_of_nil.
  - intros i j Hi _ Hne. by rewrite Hz in Hne.
Qed.

(** An entry is put into a free place after a full run. *)
Lemma hinv_add HS l0 l E e i : hinv HS l0 l E -> e.1 <> 0 -> e.1 ∉ E.*1 -> ph e.1 <= i < HS -> hst l i = 0 -> (forall j, ph e.1 <= j < i -> hst l j <> 0) ->
  exists l', set_hash (on l) i e = Ret (on l') /\ hinv HS l0 l' (e :: E).
Proof.
  intros [[Hl1 Hl2] Ht [Hk1 Hk2] Hin Hall Honce] He Hnew Hi Hz Hrun. pose proof (ph_range e.1) as Hph. destruct (set_hash_run l i e HS) as (l' & -> & Hl' & Ht' & Hu); [lia|done|]. exists l'.
  split; [done|]. assert (Hkeep : forall j, 0 <= j < HS -> hst l j <> 0 -> hst l' j = hst l j /\ hno l' j = hno l j).
  { intros j Hj Hne. destruct (Hu j ltac:(lia)) as [-> ->]. rewrite !decide_False; [done|..]; by intros ->. }
  assert (Hfull : forall j, 0 <= j -> hst l j <> 0 -> hst l' j <> 0).
  { intros j Hj Hne. destruct (Hu j Hj) as [-> _]. by case_decide. }
  split.
  - by rewrite Hl'.
  - intros z Hz'. rewrite Ht' by done. by apply Ht.
  - cbn [fmap list_fmap]. split; [by constructor|]. apply not_elem_of_cons. split; [by apply not_eq_sym|done].
  - intros j Hj Hne. destruct (decide (j = i)) as [->|Hji].
    + destruct (Hu i ltac:(lia)) as [E1 E2]. rewrite decide_True in E1, E2 by done. rewrite E1, E2. split; [rewrite <-surjective_pairing; by left|]. split; [lia|]. intros k Hk. apply Hfull; [lia|]. by apply Hrun.
    + destruct (Hu j ltac:(lia)) as [E1 E2]. rewrite decide_False in E1, E2 by done. rewrite E1 in Hne. rewrite E1, E2. destruct (Hin j Hj Hne) as (H1 & H2 & H3). split; [by right|].
      split; [done|]. intros k Hk. pose proof (ph_range (hst l j)). apply Hfull; [lia|]. by apply H3.
  - intros e' [->|He']%elem_of_cons.
    + exists i. split; [lia|]. destruct (Hu i ltac:(lia)) as [-> ->]. by rewrite !decide_True.
    + destruct (Hall e' He') as (j & Hj & E1 & E2). exists j. split; [done|]. destruct (Hkeep j Hj) as [-> ->]; [|done]. rewrite E1. intros H0. apply Hk2. rewrite <-H0. by apply list_elem_of_fmap_2.
  - intros j k Hj Hk' Hne Heq. destruct (Hu j ltac:(lia)) as [E1 _], (Hu k ltac:(lia)) as [E2 _]. rewrite E1 in Hne. rewrite E1, E2 in Heq. destruct (decide (j = i)) as [->|Hji], (decide (k = i)) as [->|Hki]; try done.
    + exfalso. rewrite Heq in Hne. destruct (Hin k Hk' Hne) as (H1 & _). apply Hnew. rewrite Heq. by apply (list_elem_of_fmap_2 fst) in H1.
    + exfalso. destruct (Hin j Hj Hne) as (H1 & _). apply Hnew. rewrite <-Heq. by apply (list_elem_of_fmap_2 fst) in H1.
    + by apply Honce.
Qed.

(** A full run is no longer than the number of entries. *)
Lemma run_bound HS l0 l E a n : hinv HS l0 l E -> 0 <= a -> a + Z.of_nat n <= HS -> (forall j, a <= j < a + Z.of_nat n -> hst l j <> 0) -> (n <= length E)%nat.
Proof.
  intros [_ _ _ Hin _ Honce] Ha Hn Hrun. rewrite <-(length_fmap fst E). assert (Hl : length ((fun k => hst l (a + Z.of_nat k)) <$> seq 0 n) = n) by (by rewrite length_fmap, length_seq).
  rewrite <-Hl. apply submseteq_length, NoDup_submseteq.
  - apply NoDup_fmap_2_strong; [|apply NoDup_seq]. intros x y Hx%elem_of_seq Hy%elem_of_seq Heq. apply Honce in Heq; [lia|lia|lia|]. apply Hrun. lia.
  - intros s (k & -> & Hk%elem_of_seq)%list_elem_of_fmap. destruct (Hin (a + Z.of_nat k)) as (H1 & _); [lia|apply Hrun; lia|]. by apply (list_elem_of_fmap_2 fst) in H1.
Qed.

Lemma first_free HS l0 l E a : hinv HS l0 l E -> 0 <= a -> a + Z.of_nat (length E) < HS ->
  exists j, a <= j <= a + Z.of_nat (length E) /\ hst l j = 0 /\ forall k, a <= k < j -> hst l k <> 0.
Proof.
  intros Hh Ha Hl. assert (Hs : forall n : nat, (exists j, a <= j < a + Z.of_nat n /\ hst l j = 0 /\ forall k, a <= k < j -> hst l k <> 0) \/ (forall k, a <= k < a + Z.of_nat n -> hst l k <> 0)).
  { induction n as [|n [(j & H1 & H2 & H3)|IH]]; [right; intros k Hk; lia|left; exists j; split; [lia|done]|]. destruct (decide (hst l (a + Z.of_nat n) = 0)) as [E0|E0].
    - left. exists (a + Z.of_nat n). split; [lia|]. split; [done|]. intros k Hk. apply IH. lia.
    - right. intros k Hk. destruct (decide (k = a + Z.of_nat n)) as [->|]; [done|]. apply IH. lia. }
  destruct (Hs (S (length E))) as [(j & H1 & H2 & H3)|Hf]; [exists j; split; [lia|done]|]. pose proof (run_bound HS l0 l E a (S (length E)) Hh Ha ltac:(lia) Hf). lia.
Qed.

Lemma free_slot_run HS l j : T + 2 * HS <= Z.of_nat (length l) -> j < HS -> hst l j = 0 -> forall fuel a, 0 <= a <= j -> (forall k, a <= k < j -> hst l k <> 0) -> j - a < Z.of_nat fuel ->
  free_slot fuel (on l) a = Ret j.
Proof.
  intros Hl Hj Hz. induction fuel as [|n IH]; intros a Ha Hrun Hf; [lia|]. cbn [free_slot]. rewrite (hash_state_run l a HS) by lia. bind. destruct (decide (a = j)) as [->|Hne].
  - by rewrite Hz.
  - rewrite (proj2 (Z.eqb_neq _ _)) by (apply Hrun; lia). apply IH; [lia| |lia]. intros k Hk. apply Hrun. lia.
Qed.

(** The search of acism.c. *)
Lemma probe_run HS l s j : T + 2 * HS <= Z.of_nat (length l) -> j < HS -> hst l j = s -> forall fuel a, 0 <= a <= j -> (forall k, a <= k < j -> hst l k <> s) -> j - a < Z.of_nat fuel ->
  probe fuel (on l) s a = Ret j.
Proof.
  intros Hl Hj Hz. induction fuel as [|n IH]; intros a Ha Hrun Hf; [lia|]. cbn [probe]. rewrite (hash_state_run l a HS) by lia. bind. destruct (decide (a = j)) as [->|Hne].
  - by rewrite Hz, Z.eqb_refl.
  - rewrite (proj2 (Z.eqb_neq _ _)) by (apply Hrun; lia). apply IH; [lia| |lia]. intros k Hk. apply Hrun. lia.
Qed.

(** The second pass. *)
Lemma hash_rest_spec HS l0 : HS = M + nh -> forall sv E l, hinv HS l0 l E -> NoDup (E ++ sv).*1 -> 0 ∉ sv.*1 -> Z.of_nat (length (E ++ sv)) <= nh ->
  exists l' E', hash_rest (on l) sv = Ret (on l') /\ hinv HS l0 l' E' /\ E' ≡ₚ E ++ sv.
Proof.
  intros HHS. induction sv as [|e sv IH]; intros E l Hh Hnd H0 Hlen; cbn [hash_rest].
  { exists l, E. by rewrite app_nil_r. }
  rewrite p_hash_run. bind. rewrite length_app in Hlen. cbn [length] in Hlen. pose proof (ph_range e.1) as Hph. pose proof (hi_len _ _ _ _ Hh) as [Hll _].
  destruct (first_free HS l0 l E (ph e.1) Hh) as (j & Hj & Hz & Hrun); [lia|lia|]. cbn [fmap list_fmap] in H0. apply not_elem_of_cons in H0 as [He H0].
  cbn [table on set_table]. rewrite (free_slot_run HS l j Hll) by (done || lia). bind.
  assert (Hnew : e.1 ∉ E.*1).
  { rewrite fmap_app in Hnd. apply NoDup_app in Hnd as (_ & Hnd & _). intros Hin. apply (Hnd _ Hin). by left. }
  destruct (hinv_add HS l0 l E e j Hh) as (l1 & -> & Hh1); [by apply not_eq_sym|done|lia|done|done|]. bind. assert (Hperm : E ++ e :: sv ≡ₚ (e :: E) ++ sv) by (cbn; by rewrite Permutation_middle).
  destruct (IH (e :: E) l1 Hh1) as (l' & E' & -> & Hh' & HE'); [by rewrite <-Hperm|done|rewrite <-Hperm, length_app; cbn; lia|].
  exists l', E'. split; [done|]. split; [done|]. by rewrite HE', Hperm.
Qed.

(** ** Cutting the table *)

Lemma trim_run HS l : T + 2 * HS <= Z.of_nat (length l) -> forall fuel hs, 0 <= hs <= HS -> (exists i, 0 <= i < hs /\ hst l i <> 0) -> hs < Z.of_nat fuel ->
  exists hs', trim fuel (on l) hs = Ret hs' /\ 0 < hs' <= hs /\ forall i, hs' <= i < hs -> hst l i = 0.
Proof.
  intros Hl. induction fuel as [|n IH]; intros hs Hhs (i & Hi & Hne) Hf; [lia|]. cbn [trim]. rewrite (hash_state_run l (hs - 1) HS) by lia. bind.
  destruct (Z.eqb_spec (hst l (hs - 1)) 0) as [Hz|Hz].
  - assert (i <> hs - 1) by (intros ->; done). destruct (IH (hs - 1)) as (hs' & -> & H1 & H2); [lia|exists i; split; [lia|done]|lia|]. exists hs'. split; [done|]. split; [lia|].
    intros k Hk. destruct (decide (k = hs - 1)) as [->|]; [done|]. apply H2. lia.
  - exists hs. split; [done|]. split; [lia|]. intros k Hk. lia.
Qed.

Lemma uat_take n l z : 0 <= z < Z.of_nat n -> uat (take n l) z = uat l z.
Proof. intros Hz. unfold uat. by rewrite lookup_take_lt by lia. Qed.

(** The end of the table after [fill_hashv], and how it is cut. *)
Lemma cut_spec HS l0 l E : HS = M + nh -> hinv HS l0 l E -> E <> [] -> Z.of_nat (length E) <= nh ->
  exists hs, (hs ← free_slot (S (length l)) (on l) M; trim (S (length l)) (on l) hs) = Ret hs /\ 0 < hs <= HS /\
    forall e, e ∈ E -> exists i, ph e.1 <= i < hs /\ hst l i = e.1 /\ hno l i = e.2 /\ forall k, ph e.1 <= k < i -> hst l k <> e.1.
Proof.
  intros HHS Hh Hne Hlen. pose proof (hi_len _ _ _ _ Hh) as [Hll _].
  assert (Hfree : exists j, M <= j < HS /\ hst l j = 0 /\ forall k, M <= k < j -> hst l k <> 0).
  { destruct (decide (hst l M = 0)) as [Hz|Hz]; [exists M; split; [lia|]; split; [done|]; intros k Hk; lia|].
    destruct (hi_in _ _ _ _ Hh M ltac:(lia) Hz) as (_ & _ & Hrun). pose proof (ph_range (hst l M)) as Hph. destruct (first_free HS l0 l E (ph (hst l M)) Hh) as (j & Hj & Hzj & Hr); [lia|lia|].
    assert (M < j). { destruct (decide (M < j)); [done|]. exfalso. destruct (decide (j = M)) as [->|]; [done|]. apply (Hrun j); [lia|done]. }
    exists j. split; [lia|]. split; [done|]. intros k Hk. apply Hr. lia. }
  destruct Hfree as (j & Hj & Hzj & Hr). rewrite (free_slot_run HS l j Hll) by (done || lia). bind.
  assert (Hbelow : forall i, 0 <= i < HS -> hst l i <> 0 -> i < j).
  { intros i Hi Hf. destruct (decide (i < j)); [done|]. exfalso. destruct (hi_in _ _ _ _ Hh i Hi Hf) as (_ & _ & Hrun). pose proof (ph_range (hst l i)).
    destruct (decide (i = j)) as [->|]; [done|]. apply (Hrun j); [lia|done]. }
  assert (Hpos : forall e, e ∈ E -> e.1 <> 0) by (intros e He H0; apply (proj2 (hi_keys _ _ _ _ Hh)); rewrite <-H0; by apply list_elem_of_fmap_2).
  destruct (trim_run HS l Hll (S (length l)) j) as (hs & -> & Hhs & Htr); [lia| |lia|].
  { destruct E as [|e E']; [done|]. destruct (hi_all _ _ _ _ Hh e) as (i & Hi & E1 & _); [by left|]. exists i. assert (hst l i <> 0) by (rewrite E1; apply Hpos; by left). split; [|done].
    pose proof (Hbelow i Hi). lia. }
  exists hs. split; [done|]. split; [lia|]. intros e He. destruct (hi_all _ _ _ _ Hh e He) as (i & Hi & E1 & E2). assert (Hf : hst l i <> 0) by (rewrite E1; by apply Hpos).
  destruct (hi_in _ _ _ _ Hh i Hi Hf) as (_ & Hp & _). rewrite E1 in Hp. pose proof (ph_range e.1). exists i. split_and!; try done.
  - destruct (decide (i < hs)); [done|]. exfalso. apply Hf, Htr. pose proof (Hbelow i Hi Hf). lia.
  - intros k Hk Hke. assert (k = i); [|lia]. apply (hi_once _ _ _ _ Hh); [lia|done|rewrite Hke; by apply Hpos|congruence].
Qed.
End hash.

(** ** Entries *)

(** Such nodes. *)
Definition needs_hash (t : tree) (q : nat) : bool := match t !! q with Some nd => negb (match_ nd =? 0) && negb (null (child nd)) | None => false end.

Lemma needs_core t t' q : same_core t t' -> needs_hash t' q = needs_hash t q.
Proof.
  intros H. unfold needs_hash. specialize (H q). destruct (t' !! q), (t !! q); try done. injection H as -> _ _ ->. done.
Qed.

Definition hash_nodes_of (t : tree) (l : list nat) : list nat := filter (fun q => needs_hash t q = true) l.

Lemma count_hash_spec t n : (n <= length t)%nat -> count_hash t n = Ret (Z.of_nat (length (hash_nodes_of t (seq 1 (n - 1))))).
Proof.
  induction n as [|[|n] IH]; intros Hn; [done|done|]. change (count_hash t (S (S n))) with
    (nd ← node t (S n); r ← count_hash t (S n); Ret (r + if negb (match_ nd =? 0) && negb (null (child nd)) then 1 else 0)).
  destruct (lookup_lt_is_Some_2 t (S n)) as [nd E]; [lia|]. rewrite (node_run _ _ _ E). bind. rewrite IH by lia. bind. f_equal.
  replace (S (S n) - 1)%nat with (n + 1)%nat by lia. rewrite seq_app. unfold hash_nodes_of. rewrite filter_app, length_app. replace (S n - 1)%nat with n by lia. cbn [seq Nat.add].
  destruct (needs_hash t (S n)) eqn:En.
  - rewrite (filter_cons_True _ (S n)) by done. unfold needs_hash in En. rewrite E in En. rewrite En. cbn. lia.
  - rewrite (filter_cons_False _ (S n)) by congruence. unfold needs_hash in En. rewrite E in En. rewrite En. cbn. lia.
Qed.

Lemma mark_bound ws v : mark ws v <> 0 -> 1 <= mark ws v <= Z.of_nat (length ws).
Proof.
  assert (H : forall l i j, last_index i l v = Some j -> i <= j < i + Z.of_nat (length l)).
  { induction l as [|w l IH]; intros i j E; cbn in E; [done|]. destruct (last_index (i + 1) l v) as [k|] eqn:Ek; [injection E as <-; apply IH in Ek; cbn [length]; lia|].
    case_decide; [injection E as <-; cbn [length]; lia|done]. }
  unfold mark. destruct (last_index 0 ws v) as [j|] eqn:E; [|done]. apply H in E. lia.
Qed.

Section entries.
Context (t0 tb t : tree) (path ws : list (list Z)) (Hb : built t0 path ws) (Hcov : covers path ws) (Htb : same_core t0 tb) (ns : Z).
Context (Hsym : forall u c, u ++ [c] ∈ path -> 0 < c < ns) (Hns : 0 < ns <= 257) (Hsize : ns * Z.of_nat (length path + 2) < 2 ^ 31).
Context (tsize : Z) (Hpk : packed t0 tb path ns t tsize) (Hwords : Z.of_nat (length ws) < 2 ^ 31).
Let Hsh : shape t0 path := bt_shape _ _ _ Hb.
Let Hct : same_core t0 t := pk_core _ _ _ _ _ _ Hpk.

(** The state of a string. *)
Definition idx (v : list Z) : nat := default 0%nat (fst <$> list_find (fun x => x = v) path).
Definition st (v : list Z) : Z := stt t (idx v).

Lemma idx_path p v : path !! p = Some v -> idx v = p.
Proof.
  intros Ep. unfold idx. destruct (list_find (fun x => x = v) path) as [[j x]|] eqn:E.
  - apply list_find_Some in E as (Ej & -> & _). cbn. by apply (path_inj t0 path Hsh j p v).
  - apply list_find_None in E. rewrite Forall_forall in E. exfalso. apply (E v); [by eapply list_elem_of_lookup_2|done].
Qed.

Lemma st_path p v : path !! p = Some v -> st v = stt t p.
Proof. intros Ep. unfold st. by rewrite (idx_path p v Ep). Qed.

(** The place of the transition to a node, and its entry. *)
Definition key (v : list Z) : Z := st (take (length v - 1) v) + default 0 (last v).
Definition item (q : nat) : Z * Z := let v := default [] (path !! q) in (key v, mark ws v - 1).

Lemma key_snoc u c : key (u ++ [c]) = st u + c.
Proof. unfold key. rewrite last_snoc, length_app. cbn [length from_option id]. replace (length u + 1 - 1)%nat with (length u) by lia. by rewrite take_app_length. Qed.

Definition other (q : nat) : Prop := exists p u c, path !! p = Some u /\ path !! q = Some (u ++ [c]).

Lemma other_key q : other q -> exists p u c, path !! p = Some u /\ path !! q = Some (u ++ [c]) /\ item q = (stt t p + c, mark ws (u ++ [c]) - 1) /\ 0 < stt t p + c < tsize.
Proof.
  intros (p & u & c & Ep & Eq). exists p, u, c. split; [done|]. split; [done|]. unfold item. rewrite Eq. cbn [from_option id]. cbv zeta. rewrite key_snoc, (st_path p u Ep). split; [done|].
  assert (Hin : u ++ [c] ∈ path) by by eapply list_elem_of_lookup_2. pose proof (nonleaf_kid t0 path ws Hb Hcov p u c Ep Hin) as Hn.
  destruct (pk_state _ _ _ _ _ _ Hpk p ltac:(by eexists) Hn). pose proof (pk_cell _ _ _ _ _ _ Hpk p c ltac:(by eexists) Hn (cell_kid tb path p u c Ep Hin)). pose proof (Hsym u c Hin). lia.
Qed.

Lemma item_inj q q' : other q -> other q' -> (item q).1 = (item q').1 -> q = q'.
Proof.
  intros (p & u & c & Ep & Eq & -> & _)%other_key (p' & u' & c' & Ep' & Eq' & -> & _)%other_key. cbn [fst]. intros Heq.
  assert (Hin : u ++ [c] ∈ path) by by eapply list_elem_of_lookup_2. assert (Hin' : u' ++ [c'] ∈ path) by by eapply list_elem_of_lookup_2.
  assert (p = p') as <- by (apply (pk_cells _ _ _ _ _ _ Hpk p c p' c'); try done; eauto using nonleaf_kid, cell_kid). assert (c = c') as <- by lia.
  rewrite Ep in Ep'. injection Ep' as <-. by apply (path_inj t0 path Hsh q q' (u ++ [c])).
Qed.

(** ** The first pass *)

Section pass.
Context (psp0 : ACISM) (M nh : Z) (HT : tran_size psp0 = tsize) (HM : hash_mod psp0 = M) (HM0 : nh < M < 2 ^ 31) (Hnh : 0 < nh).
Context (Hcount : nh = Z.of_nat (length (hash_nodes_of t (seq 1 (length path - 1))))).
Let HT0 : 0 <= tsize.
Proof. pose proof (pk_size _ _ _ _ _ _ Hpk). lia. Qed.

Definition items (V : list nat) : list (Z * Z) := item <$> hash_nodes_of t V.

(** The nodes of [V] have been gone through. *)
Definition hloop (l0 : list Z) (V : list nat) (s : ACISM * list (Z * Z)) : Prop :=
  exists l E, s.1 = on psp0 l /\ hinv tsize M (M + nh) l0 l E /\ E ++ s.2 ≡ₚ items V.

Lemma items_bound V : NoDup V -> (forall q, q ∈ V -> other q) -> Z.of_nat (length (items V)) <= nh.
Proof.
  intros Hnd Hoth. rewrite Hcount. apply Nat2Z.inj_le. unfold items. rewrite length_fmap. apply submseteq_length, NoDup_submseteq; [by apply NoDup_filter|].
  intros q [Hn Hq]%list_elem_of_filter. apply list_elem_of_filter. split; [done|]. destruct (Hoth q Hq) as (p & u & c & Ep & Eq). apply elem_of_seq.
  pose proof (lookup_lt_Some _ _ _ Eq). assert (q <> 0%nat); [|lia]. intros ->. rewrite (sh_root _ _ Hsh) in Eq. injection Eq as Eq. by destruct u.
Qed.

Lemma items_keys V : NoDup V -> (forall q, q ∈ V -> other q) -> NoDup (items V).*1 /\ 0 ∉ (items V).*1.
Proof.
  intros Hnd Hoth. unfold items. rewrite <-list_fmap_compose. split.
  - apply NoDup_fmap_2_strong; [|by apply NoDup_filter]. intros q q' [_ Hq]%list_elem_of_filter [_ Hq']%list_elem_of_filter. by apply item_inj; apply Hoth.
  - intros (q & Hz & [_ Hq]%list_elem_of_filter)%list_elem_of_fmap. destruct (other_key q (Hoth q Hq)) as (p & u & c & _ & _ & Ei & Hp). unfold compose in Hz. rewrite Ei in Hz. cbn [fst] in Hz. lia.
Qed.

Lemma items_snoc V q : items (V ++ [q]) = items V ++ if needs_hash t q then [item q] else [].
Proof.
  unfold items, hash_nodes_of. rewrite filter_app, fmap_app. f_equal. destruct (needs_hash t q) eqn:E; [by rewrite filter_cons_True|by rewrite filter_cons_False by congruence].
Qed.

Lemma hash_child_spec l0 V s p u q c : hloop l0 V s -> NoDup (V ++ [q]) -> path !! p = Some u -> path !! q = Some (u ++ [c]) ->
  (forall q', q' ∈ V ++ [q] -> other q') ->
  exists s', hash_child t (stt t p) q s = Ret s' /\ hloop l0 (V ++ [q]) s'.
Proof.
  intros (l & E & Es & Hh & Hperm) Hnd Ep Eq Hoth. destruct s as [psp sv]. cbn [fst snd] in *. subst psp. unfold hash_child.
  destruct (node_at t0 path ws Hb t q _ Hct Eq) as (nd & n0 & En & E0 & _ & Hsy & Hm). rewrite (node_run _ _ _ En). bind.
  assert (Esy : sym nd = c) by (rewrite Hsy; by apply (path_last t0 path Hsh q u c n0 Eq E0)). rewrite Esy.
  destruct (other_key q) as (p' & u' & c' & Ep' & Eq' & Ei & Hp); [by exists p, u, c|]. rewrite Eq in Eq'. apply (inj Some), app_inj_tail in Eq' as [<- <-].
  assert (p' = p) as -> by by apply (path_inj t0 path Hsh p' p u). pose proof (pk_size _ _ _ _ _ _ Hpk) as Hts.
  pose proof (items_keys _ Hnd Hoth) as [Hk1 Hk2]. pose proof (items_bound _ Hnd Hoth) as Hbound.
  pose proof (items_snoc V q) as Hsn. assert (Hneeds : needs_hash t q = negb (match_ nd =? 0) && negb (null (child nd))) by (unfold needs_hash; by rewrite En).
  rewrite Hsn in Hk1, Hk2, Hbound. rewrite <-Hneeds. destruct (needs_hash t q) eqn:Ened.
  2: { eexists. split; [reflexivity|]. exists l, E. split; [done|]. split; [done|]. by rewrite Hsn, app_nil_r. }
  symmetry in Hneeds. apply andb_true_iff in Hneeds as [Hm0%negb_true_iff%Z.eqb_neq _]. rewrite Hm in Hm0 |- *. pose proof (mark_bound ws _ Hm0) as Hmb.
  rewrite !u32_small by nia. rewrite (p_hash_run psp0 M) by (done || lia). bind. pose proof (hi_len _ _ _ _ _ _ Hh) as [Hll _]. pose proof (ph_range M ltac:(lia) (stt t p + c)) as Hph.
  rewrite (hash_state_run psp0 tsize HT ltac:(lia) l (ph M (stt t p + c)) (M + nh)) by lia. bind.
  assert (Hp1 : (E ++ sv).*1 ≡ₚ (items V).*1) by by rewrite Hperm. rewrite fmap_app in Hk1, Hk2. cbn [fmap list_fmap] in Hk1, Hk2. rewrite Ei in Hk1, Hk2. cbn [fst] in Hk1, Hk2.
  apply NoDup_app in Hk1 as (_ & Hk1 & _). rewrite length_app in Hbound. cbn [length] in Hbound.
  assert (Hlen : length (E ++ sv) = length (items V)) by by rewrite Hperm. rewrite length_app in Hlen.
  destruct (Z.eqb_spec (hst tsize l (ph M (stt t p + c))) 0) as [Hz|Hz].
  - destruct (hinv_add psp0 tsize M HT HT0 ltac:(lia) (M + nh) l0 l E (stt t p + c, mark ws (u ++ [c]) - 1) (ph M (stt t p + c)) Hh) as (l' & -> & Hh'); cbn [fst]; try done; try lia.
    + intros Hin. apply (Hk1 (stt t p + c)); [|by left]. rewrite <-Hp1, fmap_app. apply elem_of_app. by left.
    + bind. eexists. split; [reflexivity|]. eexists l', _. split; [done|]. split; [exact Hh'|]. cbn [snd]. rewrite Hsn, Ei, <-Hperm. cbn [app]. apply Permutation_cons_append.
  - cbn [hash_mod on set_table]. rewrite HM, (proj2 (Z.ltb_lt _ _)) by lia. eexists. split; [reflexivity|]. exists l, E. split; [done|]. split; [done|]. cbn [snd]. rewrite Hsn, Ei, <-Hperm.
    rewrite <-Permutation_middle. apply Permutation_cons_append.
Qed.

(** All the nodes from [i] on. *)
Lemma hash_nodes_spec l0 n : forall i V s, (i + n)%nat = length path -> hloop l0 V s -> NoDup V -> (forall q, q ∈ V <-> exists p u c, (p < i)%nat /\ path !! p = Some u /\ path !! q = Some (u ++ [c])) ->
  exists V' s', hash_nodes t i n s = Ret s' /\ hloop l0 V' s' /\ NoDup V' /\ forall q, q ∈ V' <-> other q.
Proof.
  induction n as [|n IH]; intros i V s Hi Hl Hnd HV; cbn [hash_nodes].
  { exists V, s. split; [done|]. split; [done|]. split; [done|]. intros q. rewrite HV. split; [intros (p & u & c & _ & H); by exists p, u, c|]. intros (p & u & c & H1 & H2). exists p, u, c.
    split; [apply lookup_lt_Some in H1; lia|done]. }
  destruct (lookup_lt_is_Some_2 path i) as [u Eu]; [lia|]. destruct (node_at t0 path ws Hb t i u Hct Eu) as (nd & _ & En & _). rewrite (node_run _ _ _ En). bind.
  destruct (node_children t0 path ws Hb t i u nd Hct Eu En) as (ks & cs & Hs & _ & Hk & _ & Hkl). pose proof (kids_nodup path u ks cs Hk) as Hknd.
  assert (Hst : stt t i = state nd) by (unfold stt; by rewrite En). rewrite <-Hst.
  assert (Hkq : forall q, q ∈ ks -> exists c, path !! q = Some (u ++ [c])) by (intros q Hq; destruct (kids_lt path u ks cs q Hk Hq) as (c & _ & E); by exists c).
  assert (Hdisj : forall q, q ∈ V -> q ∉ ks).
  { intros q (p & u' & c & Hp & Ep & Eq)%HV Hq. destruct (Hkq q Hq) as [c' Eq']. rewrite Eq in Eq'. apply (inj Some), app_inj_tail in Eq' as [-> _].
    assert (p = i) by by apply (path_inj t0 path Hsh p i u). lia. }
  assert (HVoth : forall q, q ∈ V ++ ks -> other q).
  { intros q [Hq|Hq]%elem_of_app; [apply HV in Hq as (p & u' & c & _ & H); by exists p, u', c|]. destruct (Hkq q Hq) as [c Eq]. by exists i, u, c. }
  assert (HVnd : NoDup (V ++ ks)) by by apply NoDup_app.
  pose proof (sh_size _ _ Hsh) as Hsz. pose proof (core_length _ _ Hct) as Hlen.
  destruct (siblings_rule t (fun _ => t) (hash_child t (stt t i)) (fun pre s => hloop l0 (V ++ pre) s) ks) with (fuel := S (length t)) (o := child nd) (a := s) as (s1 & -> & Hl1).
  - done.
  - intros pre q post a Hks Ha. destruct (Hkq q) as [c Eq]; [rewrite Hks; apply elem_of_app; right; by left|]. rewrite app_assoc. assert (Hpre : (V ++ pre ++ [q]) ++ post = V ++ ks) by (by rewrite Hks, <-!app_assoc).
    apply (hash_child_spec l0 (V ++ pre) a i u q c); try done.
    + rewrite <-Hpre in HVnd. rewrite <-app_assoc. by apply NoDup_app in HVnd as [? _].
    + intros q' Hq'. apply HVoth. rewrite <-Hpre, app_assoc. apply elem_of_app. by left.
  - done.
  - by rewrite app_nil_r.
  - lia.
  - bind. apply (IH (S i) (V ++ ks) s1); [lia|done|done|]. intros q. rewrite elem_of_app, HV. split.
    + intros [(p & u' & c & Hp & H)|Hq]; [exists p, u', c; split; [lia|done]|]. destruct (Hkq q Hq) as [c Eq]. exists i, u, c. split; [lia|done].
    + intros (p & u' & c & Hp & Ep & Eq). destruct (decide (p < i)%nat) as [|Hpi]; [left; by exists p, u', c|right]. assert (p = i) as -> by lia. rewrite Eu in Ep. injection Ep as <-. by apply (kd_all _ _ _ _ Hk q c).
Qed.

(** [finish_hash]: the table is cut, and every entry is found. *)
Lemma finish_hash_spec l0 : Z.of_nat (length l0) = tsize + 2 * (M + nh) -> (forall i, 0 <= i < M + nh -> hst tsize l0 i = 0) ->
  exists l hs, finish_hash (on psp0 l0) t (length path) = Ret (set_table psp0 l hs) /\ tsize <= Z.of_nat (length l) /\ (forall z, 0 <= z < tsize -> uat l z = uat l0 z) /\
    forall q, other q -> needs_hash t q = true ->
      (i ← p_hash (set_table psp0 l hs) (item q).1; i ← probe (S (length l)) (set_table psp0 l hs) (item q).1 i; hash_strno (set_table psp0 l hs) i) = Ret (item q).2.
Proof.
  intros Hl Hz. destruct (hash_nodes_spec l0 (length path) 0 [] (on psp0 l0, [])) as (V & [psp sv] & E & (l1 & E1 & Epsp & Hh1 & Hperm) & Hnd & HV); [done| |constructor| |].
  { exists l0, []. split; [done|]. split; [apply hinv_empty; [lia|done]|done]. }
  { intros q. split; [by intros ?%elem_of_nil|]. intros (p & u & c & Hp & _). lia. }
  cbn [fst snd] in *. subst psp. unfold finish_hash, fill_hashv. rewrite E. bind. assert (HVo : forall q, q ∈ V -> other q) by (intros q; apply HV).
  pose proof (items_keys V Hnd HVo) as [Hk1 Hk2]. pose proof (items_bound V Hnd HVo) as Hbound.
  assert (Hpk1 : (E1 ++ sv).*1 ≡ₚ (items V).*1) by by rewrite Hperm.
  destruct (hash_rest_spec psp0 tsize M nh HT HM HT0 ltac:(lia) (M + nh) l0 eq_refl sv E1 l1 Hh1) as (l2 & E2 & -> & Hh2 & HE2); [by rewrite Hpk1| |by rewrite Hperm|].
  { intros Hin. apply Hk2. rewrite <-Hpk1, fmap_app. apply elem_of_app. by right. }
  bind. rewrite Hperm in HE2. pose proof (hi_len _ _ _ _ _ _ Hh2) as [Hll Hll2].
  assert (Hne : E2 <> []).
  { intros ->. symmetry in HE2. apply Permutation_nil_r in HE2. unfold items in HE2. apply fmap_nil_inv in HE2. assert (Hex : exists q, q ∈ hash_nodes_of t (seq 1 (length path - 1))).
    { destruct (hash_nodes_of t (seq 1 (length path - 1))) as [|q l]; [cbn in Hcount; lia|]. exists q. by left. }
    destruct Hex as (q & [Hq Hin%elem_of_seq]%list_elem_of_filter). destruct (lookup_lt_is_Some_2 path q) as [v Ev]; [lia|]. destruct v as [|c v _] using rev_ind.
    { rewrite (path_inj t0 path Hsh q 0 [] Ev (sh_root _ _ Hsh)) in Hin. lia. }
    assert (Hv : v ∈ path) by (eapply (path_prefix t0 path Hsh); [by eapply list_elem_of_lookup_2|]; by apply prefix_app_r). apply list_elem_of_lookup in Hv as [p Ep].
    assert (HqV : q ∈ hash_nodes_of t V) by (apply list_elem_of_filter; split; [done|]; apply HV; by exists p, v, c). rewrite HE2 in HqV. by apply elem_of_nil in HqV. }
  destruct (cut_spec psp0 tsize M nh HT HT0 ltac:(lia) Hnh (M + nh) l0 l2 E2 eq_refl Hh2 Hne) as (hs & Ehs & Hhs & Hfind); [by rewrite HE2|].
  cbn [hash_mod on set_table table] in *. rewrite HM. fold (on psp0 l2) in *. destruct (free_slot (S (length l2)) (on psp0 l2) M) as [hs0| |] eqn:Efs; try discriminate. cbn [mbind res_bind] in Ehs. bind.
  rewrite Ehs. bind. cbn [tran_size on set_table]. rewrite HT. set (n := Z.to_nat (tsize + 2 * hs)). assert (Hn : Z.of_nat n = tsize + 2 * hs) by lia.
  assert (Hltake : length (take n l2) = n) by (rewrite length_take; lia).
  exists (take n l2), hs. split; [done|]. split; [lia|]. split; [intros z Hz'; rewrite uat_take by lia; by apply (hi_tran _ _ _ _ _ _ Hh2)|].
  intros q Hq Hqn. assert (Hin : item q ∈ E2) by (rewrite HE2; apply list_elem_of_fmap_2, list_elem_of_filter; split; [done|by apply HV]).
  destruct (Hfind (item q) Hin) as (i & Hi & H1 & H2 & H3). pose proof (ph_range M ltac:(lia) (item q).1) as Hph.
  assert (Hon : set_table psp0 (take n l2) hs = on (set_table psp0 [] hs) (take n l2)) by done. rewrite Hon.
  rewrite (p_hash_run (set_table psp0 [] hs) M) by (done || lia). bind. assert (Hroom : tsize + 2 * hs <= Z.of_nat (length (take n l2))) by lia.
  assert (Hu : forall z, 0 <= z < hs -> hst tsize (take n l2) z = hst tsize l2 z /\ hno tsize (take n l2) z = hno tsize l2 z) by (intros z Hz'; unfold hst, hno; by rewrite !uat_take by lia).
  rewrite (probe_run (set_table psp0 [] hs) tsize HT HT0 hs (take n l2) (item q).1 i Hroom); [|lia|by destruct (Hu i) as [-> _]; [lia|]|lia|intros k Hk; destruct (Hu k) as [-> _]; [lia|]; by apply H3|lia].
  bind. rewrite (hash_strno_run (set_table psp0 [] hs) tsize HT HT0 (take n l2) i hs) by lia. f_equal. destruct (Hu i) as [_ ->]; [lia|done].
Qed.
End pass.
End entries.

(** ** The machine *)

Section machine.
Context (t0 tb t : tree) (path ws : list (list Z)) (Hb : built t0 path ws) (Hcov : covers path ws) (Htb : same_core t0 tb) (Hbk : back_ok path tb) (ns : Z).
Context (Hsym : forall u c, u ++ [c] ∈ path -> 0 < c < ns) (Hns : 0 < ns <= 257) (Hsize : ns * Z.of_nat (length path + 2) < 2 ^ 31).
Context (tsize bits : Z) (Hpk : packed t0 tb path ns t tsize) (Hwords : Z.of_nat (length ws) < 2 ^ 31).
Context (Hbits : 0 <= bits <= 30) (Hnb : ns <= 2 ^ bits) (Hfit : tsize + Z.of_nat (length ws) - 1 < 2 ^ (30 - bits)).
Let Hsh : shape t0 path := bt_shape _ _ _ Hb.
Let Hct : same_core t0 t := pk_core _ _ _ _ _ _ Hpk.

(** What [acism_create] has made, from a table [tab]. *)
Record final (tab : list Z) (psp : ACISM) : Prop := Final {
  fn_bits : sym_bits psp = bits;
  fn_mask : sym_mask psp = mask_of bits;
  fn_tsize : tran_size psp = tsize;
  fn_len : tsize <= Z.of_nat (length (table psp));
  fn_tab : forall z, 0 < z < tsize -> uat (table psp) z = uat tab z;
  fn_zero : uat (table psp) 0 = 1;
  fn_hash : forall q, other path q -> needs_hash t q = true ->
    (i ← p_hash psp (item t path ws q).1; i ← probe (S (length (table psp))) psp (item t path ws q).1 i; hash_strno psp i) = Ret (item t path ws q).2;
  fn_nchars : forall w, w ∈ ws -> (length w <= Z.to_nat (nchars psp))%nat
}.

Context (Hex : forall x, exact path ws tb x).
Context (tab : list Z) (psp : ACISM) (Htab : tran_table t path tsize bits tab) (Hfin : final tab psp).

Definition state_of (v : list Z) : Z := match v with [] => 0 | _ => st t path v end.

(** The symbols that lead to no place outside [tranv]. *)
Definition inside (c : Z) : Prop := 0 <= c < ns /\ forall u, inner ws u -> state_of u + c < tsize.

Lemma inner_node u : inner ws u -> exists p, path !! p = Some u.
Proof. intros H%inner_in_tree%Hcov. by apply list_elem_of_lookup in H. Qed.

Lemma inner_nonleaf p u : path !! p = Some u -> inner ws u -> u <> [] -> nonleaf t0 p.
Proof. intros Ep [->|(c & Hc)] Hne; [done|]. eapply nonleaf_kid; [done..|]. by apply Hcov. Qed.

Lemma nonleaf_root p : is_Some (path !! p) -> nonleaf t0 p -> nonleaf t0 0.
Proof.
  intros [u Ep] Hn. destruct u as [|a u]; [by rewrite (path_inj t0 path Hsh 0 p [] (sh_root _ _ Hsh) Ep)|].
  apply (nonleaf_kid t0 path ws Hb Hcov 0 [] a (sh_root _ _ Hsh)). eapply (path_prefix t0 path Hsh); [by eapply list_elem_of_lookup_2|]. by exists u.
Qed.

Lemma state_node p u : path !! p = Some u -> nonleaf t0 p -> state_of u = stt t p.
Proof.
  intros Ep Hn. destruct u as [|a u]; [|by apply (st_path t0 t path ws Hb)]. cbn [state_of].
  rewrite <-(path_inj t0 path Hsh 0 p [] (sh_root _ _ Hsh) Ep) in *. by rewrite (pk_root _ _ _ _ _ _ Hpk Hn).
Qed.

Lemma state_pos u : inner ws u -> u <> [] -> 0 < state_of u < tsize.
Proof.
  intros Hu Hne. destruct (inner_node u Hu) as [p Ep]. pose proof (inner_nonleaf p u Ep Hu Hne) as Hn. rewrite (state_node p u Ep Hn).
  pose proof (pk_state _ _ _ _ _ _ Hpk p ltac:(by eexists) Hn). assert (stt t p <> 0); [|lia]. intros Hz. assert (Hr : nonleaf t0 0) by (by eapply nonleaf_root; [by eexists|]).
  apply Hne. assert (p = 0%nat) as ->; [|rewrite (sh_root _ _ Hsh) in Ep; by injection Ep].
  apply (pk_states _ _ _ _ _ _ Hpk); [by eexists|eexists; apply (sh_root _ _ Hsh)|done|done|]. by rewrite (pk_root _ _ _ _ _ _ Hpk Hr).
Qed.

Lemma state_range u : inner ws u -> 0 <= state_of u < tsize.
Proof.
  intros Hu. destruct u as [|a u]; [pose proof (pk_size _ _ _ _ _ _ Hpk); cbn; lia|]. pose proof (state_pos (a :: u) Hu ltac:(done)). lia.
Qed.

(** A place of the table. *)
Lemma tranv_run z : 0 < z < tsize -> tranv psp (u32 z) = Ret (uat tab z).
Proof.
  intros Hz. pose proof (pk_size _ _ _ _ _ _ Hpk). rewrite u32_small by nia. unfold tranv. pose proof (fn_len _ _ Hfin). rewrite zget_uat by lia. by rewrite (fn_tab _ _ Hfin).
Qed.

(** If no entry is at [z], there is 0. *)
Lemma no_entry z : 0 <= z -> (forall v x, entry t path tsize bits v z x -> uat tab z = x -> False) -> uat tab z = 0.
Proof. intros Hz Hn. destruct Htab as (_ & H1 & H2). apply H2; [done|]. intros v x He. by apply (Hn v x He), (H1 v). Qed.

(** The target of a back link that is kept. *)
Lemma back_target p u nd b : path !! p = Some u -> t !! p = Some nd -> child nd <> None -> back nd = Some b ->
  exists v, path !! b = Some v /\ longest (inner ws) u v /\ nonleaf t0 b /\ v <> [].
Proof.
  intros Ep E Hc Hbn. destruct (node_t t0 tb t path ws Hb Htb ns tsize Hpk p u Ep) as (nd' & nb & E' & Eb & Hch & _ & _ & Hn & _ & Hback). rewrite E in E'. injection E' as <-.
  pose proof (proj2 Hn Hc) as Hnl. rewrite Hback in Hbn by done. assert (Hi : inner ws u).
  { destruct u as [|a u]; [by left|]. right. destruct (node_children t0 path ws Hb t p _ nd Hct Ep E) as (ks & cs & Hs & _ & Hk & _). inversion Hs as [Hcn|q n ks' Eq _ Hcn]; [by rewrite <-Hcn in Hc|].
    subst. destruct (kids_lt path _ _ cs q Hk) as (c & _ & Eqc); [by left|]. exists c. apply Hcov. by eapply list_elem_of_lookup_2. }
  unfold fixb in Hbn. destruct (back nb) as [[|b']|] eqn:Ebn; [done| |by rewrite Ebn in Hbn]. rewrite Ebn in Hbn. injection Hbn as <-.
  assert (Hu : u <> []). { intros ->. pose proof (Hbk p [] nb Ep Eb) as Hroot. cbn in Hroot. congruence. }
  destruct (Hex u p nb Ep Eb) as [He _]. destruct (He Hi Hu) as (b2 & v & E2 & Ev & Hl). rewrite Ebn in E2. injection E2 as <-. exists v. split; [done|]. split; [done|].
  assert (Hv : v <> []). { intros ->. pose proof (path_inj t0 path Hsh _ _ [] Ev (sh_root _ _ Hsh)) as H0. done. }
  split; [|done]. apply (inner_nonleaf _ v Ev); [apply Hl|done].
Qed.

Lemma entry_sym v z x : entry t path tsize bits v z x -> exists c, 0 <= c < ns /\ t_sym psp x = c /\ 0 <= x /\
  (c = 0 -> exists p nd b, path !! p = Some v /\ t !! p = Some nd /\ child nd <> None /\ back nd = Some b /\ z = stt t p) /\
  (c <> 0 -> exists p u, path !! p = Some u /\ v = u ++ [c] /\ z = stt t p + c).
Proof.
  pose proof (Z.pow_pos_nonneg 2 bits ltac:(lia) ltac:(lia)) as H2b. destruct 1 as [p q u c nd Ep Eq E|p nd b u Ep E Hc Hbn].
  - pose proof (Hsym u c ltac:(by eapply list_elem_of_lookup_2)) as Hcc. exists c. split; [lia|]. split; [|split; [apply enc_nonneg; lia|split; [lia|intros _; by exists p, u]]].
    apply (enc_sym psp bits Hbits (fn_mask _ _ Hfin)); [lia|]. destruct (node_t t0 tb t path ws Hb Htb ns tsize Hpk q _ Eq) as (nd' & nb & E' & _ & _ & _ & Hm & Hn & Hst & _). rewrite E in E'. injection E' as <-.
    destruct (child nd) as [k|] eqn:Ek; cbn [null].
    + rewrite <-Hst. pose proof (pk_state _ _ _ _ _ _ Hpk q ltac:(by eexists) (proj2 Hn ltac:(congruence))). lia.
    + assert (Hw : u ++ [c] ∈ ws).
      { destruct (decide (u ++ [c] ∈ ws)); [done|]. exfalso. assert (Hi : inner ws (u ++ [c])) by (apply not_word_inner; [apply Hcov; by eapply list_elem_of_lookup_2|done]).
        apply (inner_nonleaf q _ Eq) in Hi; [|by destruct u]. by apply Hn in Hi. }
      assert (Hmk : mark ws (u ++ [c]) <> 0) by (intros Hz%mark_zero; done). pose proof (mark_bound ws _ Hmk). pose proof (pk_size _ _ _ _ _ _ Hpk). rewrite Hm, u32_small by nia. lia.
  - exists 0. split; [lia|]. split; [|split; [by apply enc_nonneg|split; [intros _; by exists p, nd, b|done]]]. apply (enc_sym psp bits Hbits (fn_mask _ _ Hfin)); [lia|].
    destruct (back_target p u nd b Ep E Hc Hbn) as (v & Ev & _ & Hn & _). pose proof (pk_state _ _ _ _ _ _ Hpk b ltac:(by eexists) Hn). lia.
Qed.

(** The transition to a node that exists. *)
Lemma kid_transition p q u c nd : path !! p = Some u -> path !! q = Some (u ++ [c]) -> t !! q = Some nd -> exists nx, uat tab (stt t p + c) = enc bits c (negb (match_ nd =? 0)) (is_suffix nd) nx /\
  0 < c < ns /\ 0 <= nx < 2 ^ (30 - bits) /\ 0 < stt t p + c < tsize /\ match_ nd = mark ws (u ++ [c]) /\
  ((inner ws (u ++ [c]) /\ child nd <> None /\ nx = state_of (u ++ [c]) /\ nx < tsize) \/ (~ inner ws (u ++ [c]) /\ child nd = None /\ nx = mark ws (u ++ [c]) - 1 + tsize /\ tsize <= nx)).
Proof.
  intros Ep Eq E. pose proof (entry_kid t path tsize bits p q u c nd Ep Eq E) as He. eexists. split; [by apply (proj1 (proj2 Htab) _ _ _ He)|].
  assert (Hin : u ++ [c] ∈ path) by by eapply list_elem_of_lookup_2. split; [by eapply Hsym|].
  destruct (entry_place t0 tb t path ws Hb Hcov Htb Hbk ns Hsym Hsize tsize bits Hpk _ _ _ He) as (_ & _ & _ & _ & _ & _ & _ & _ & Hz).
  destruct (node_t t0 tb t path ws Hb Htb ns tsize Hpk q _ Eq) as (nd' & nb & E' & _ & _ & _ & Hm & Hn & Hst & _). rewrite E in E'. injection E' as <-.
  assert (Hinner : inner ws (u ++ [c]) <-> child nd <> None).
  { split; [intros Hi; apply Hn; apply (inner_nonleaf q _ Eq Hi); by destruct u|]. intros Hc. right. by apply (child_inner t0 path ws Hb Hcov t q _ nd Hct Eq E). }
  destruct (child nd) as [k|] eqn:Ek; cbn [null].
  - rewrite <-Hst. assert (Hnl : nonleaf t0 q) by (apply Hn; congruence). pose proof (pk_state _ _ _ _ _ _ Hpk q ltac:(by eexists) Hnl). split; [lia|]. split; [done|]. split; [done|]. left.
    split; [by apply Hinner|]. split; [done|]. split; [by rewrite (state_node q _ Eq)|lia].
  - assert (Hw : u ++ [c] ∈ ws).
    { destruct (decide (u ++ [c] ∈ ws)); [done|]. exfalso. assert (Hi : inner ws (u ++ [c])) by (apply not_word_inner; [by apply Hcov|done]). by apply Hinner in Hi. }
    assert (Hmk : mark ws (u ++ [c]) <> 0) by (intros Hz0%mark_zero; done). pose proof (mark_bound ws _ Hmk). pose proof (pk_size _ _ _ _ _ _ Hpk). rewrite Hm, u32_small by nia.
    split; [lia|]. split; [done|]. split; [done|]. right. split; [by intros ?%Hinner|]. split; [done|]. split; [done|lia].
Qed.

Lemma mark_index v : mark ws v <> 0 -> last_index 0 ws v = Some (mark ws v - 1).
Proof. unfold mark. destruct (last_index 0 ws v) as [j|]; [|done]. intros _. f_equal. lia. Qed.

(** [match_strno] of a transition that ends a string. *)
Lemma strno_run p q u c nd : path !! p = Some u -> path !! q = Some (u ++ [c]) -> t !! q = Some nd -> u ++ [c] ∈ ws ->
  match_strno psp (u32 (stt t p + c)) = oget (last_index 0 ws (u ++ [c])).
Proof.
  intros Ep Eq E Hw. pose proof (Z.pow_pos_nonneg 2 bits ltac:(lia) ltac:(lia)) as H2b. destruct (kid_transition p q u c nd Ep Eq E) as (nx & Ex & Hc & Hnx & Hz & Hm & Hor).
  assert (Hmk : mark ws (u ++ [c]) <> 0) by (intros Hz0%mark_zero; done). rewrite (mark_index _ Hmk). cbn [oget]. unfold match_strno. rewrite (tranv_run _ Hz), Ex. bind.
  assert (Hnext : t_next psp (enc bits c (negb (match_ nd =? 0)) (is_suffix nd) nx) = nx).
  { rewrite <-(Z.lxor_0_r (enc _ _ _ _ _)). apply (enc_next psp bits Hbits (fn_bits _ _ Hfin)); lia. }
  unfold t_isleaf, t_strno. rewrite Hnext, (fn_tsize _ _ Hfin). destruct Hor as [(_ & Hch & _ & Hlt)|(_ & _ & -> & Hle)].
  - rewrite (proj2 (Z.leb_gt _ _)) by done. assert (Hq : other path q) by by exists p, u, c.
    assert (Hneed : needs_hash t q = true). { unfold needs_hash. rewrite E, Hm, (proj2 (Z.eqb_neq _ _) Hmk). by destruct (child nd). }
    pose proof (fn_hash _ _ Hfin q Hq Hneed) as Hh. pose proof (other_key t0 tb t path ws Hb Hcov ns Hsym Hsize tsize Hpk q Hq) as (p' & u' & c' & Ep' & Eq' & Ei & _).
    rewrite Eq in Eq'. apply (inj Some), app_inj_tail in Eq' as [<- <-]. assert (p' = p) as -> by by apply (path_inj t0 path Hsh p' p u). rewrite Ei in Hh. cbn [fst snd] in Hh.
    pose proof (pk_size _ _ _ _ _ _ Hpk). rewrite u32_small by nia. exact Hh.
  - rewrite (proj2 (Z.leb_le _ _)) by done. f_equal. lia.
Qed.

(** A place without a transition. *)
Lemma no_transition u c : inner ws u -> inside c -> c <> 0 -> u ++ [c] ∉ path -> 0 <= uat tab (state_of u + c) -> t_valid psp (Z.lxor (uat tab (state_of u + c)) c) = true -> False.
Proof.
  intros Hu [Hc Hin] Hc0 Hno Hx Hv. pose proof (state_range u Hu) as Hsu. apply (valid_iff psp bits Hbits (fn_mask _ _ Hfin)) in Hv; [|done|lia].
  assert (Hz : uat tab (state_of u + c) = 0); [apply no_entry; [lia|]|rewrite Hz in Hv].
  - intros v x He Ex. rewrite Ex in Hv. destruct (entry_sym v _ x He) as (c' & _ & Hs & _ & _ & Hk). rewrite Hs in Hv. subst c'. destruct (Hk Hc0) as (p & u' & Ep & -> & Ez).
    assert (Hst : state_of u = stt t p) by lia. assert (Hin' : u' ++ [c] ∈ path) by by eapply entry_path. assert (Hn : nonleaf t0 p) by by eapply nonleaf_kid.
    destruct (inner_node u Hu) as [p1 Ep1]. assert (Hn1 : nonleaf t0 p1).
    { destruct u as [|a u]; [|by apply (inner_nonleaf p1 _ Ep1)]. rewrite <-(path_inj t0 path Hsh 0 p1 [] (sh_root _ _ Hsh) Ep1). apply (nonleaf_root p); [by eexists|done]. }
    rewrite (state_node p1 u Ep1 Hn1) in Hst. assert (p1 = p) as -> by (apply (pk_states _ _ _ _ _ _ Hpk); try done; by eexists). rewrite Ep in Ep1. by injection Ep1 as ->.
  - rewrite (sym_spec psp bits Hbits (fn_mask _ _ Hfin)), Z.mod_0_l in Hv; [done|]. pose proof (Z.pow_pos_nonneg 2 bits ltac:(lia) ltac:(lia)). lia.
Qed.

Lemma tab_nonneg z : 0 <= z -> 0 <= uat tab z.
Proof.
  intros Hz. apply dec_stable. intros Hneg. assert (E0 : uat tab z = 0); [apply no_entry; [done|]|lia]. intros v x He Ex. apply entry_sym in He as (_ & _ & _ & Hx & _). lia.
Qed.

(** A state that goes back to the root. *)
Lemma back_none p u : path !! p = Some u -> nonleaf t0 p -> (forall nd, t !! p = Some nd -> back nd = None) ->
  t_valid psp (uat tab (stt t p)) = true -> 0 <= stt t p -> t_next psp (uat tab (stt t p)) = 0.
Proof.
  intros Ep Hn Hnone Hv Hp. pose proof (Z.pow_pos_nonneg 2 bits ltac:(lia) ltac:(lia)) as H2b. rewrite <-(Z.lxor_0_r (uat _ _)) in Hv.
  apply (valid_iff psp bits Hbits (fn_mask _ _ Hfin)) in Hv; [|by apply tab_nonneg|lia]. rewrite no_entry; [by unfold t_next; rewrite Z.land_0_l, Z.shiftr_0_l|done|].
  intros v x He Ex. rewrite Ex in Hv. destruct (entry_sym v _ x He) as (c & _ & Hs & _ & Hb0 & _). rewrite Hs in Hv. destruct (Hb0 Hv) as (p' & nd & b & Ep' & End_ & Hch & Hbn & Heq).
  destruct (node_t t0 tb t path ws Hb Htb ns tsize Hpk p' v Ep') as (nd' & nb & E' & _ & _ & _ & _ & Hn' & _). rewrite End_ in E'. injection E' as <-.
  assert (p' = p) as -> by (apply (pk_states _ _ _ _ _ _ Hpk); [by eexists|by eexists|by apply Hn'|done|by symmetry]). rewrite (Hnone nd End_) in Hbn. done.
Qed.

Lemma back_run u : inner ws u -> u <> [] -> exists v, back_state psp (state_of u) = Ret (state_of v) /\ longest (inner ws) u v.
Proof.
  intros Hu Hne. pose proof (Z.pow_pos_nonneg 2 bits ltac:(lia) ltac:(lia)) as H2b. destruct (inner_node u Hu) as [p Ep]. pose proof (inner_nonleaf p u Ep Hu Hne) as Hn.
  pose proof (state_pos u Hu Hne) as Hs. unfold back_state, p_tran, BACK, ROOT. rewrite Z.add_0_r, (tranv_run _ Hs). bind. rewrite Z.lxor_0_r. rewrite (state_node p u Ep Hn) in *.
  destruct (node_t t0 tb t path ws Hb Htb ns tsize Hpk p u Ep) as (nd & nb & E & Eb & _ & _ & _ & Hn' & _ & Hback). specialize (Hback Hn).
  destruct (Hex u p nb Ep Eb) as [He _]. destruct (He Hu Hne) as (b & v & Ebn & Ev & Hl). exists v. split; [|done]. f_equal. destruct b as [|b].
  - rewrite (sh_root _ _ Hsh) in Ev. injection Ev as <-. destruct (t_valid psp _) eqn:Hv; [|done]. apply (back_none p u Ep Hn); [|done|lia].
    intros nd' E'. rewrite E in E'. injection E' as <-. rewrite Hback. unfold fixb. by rewrite Ebn.
  - assert (Hbn : back nd = Some (S b)) by (rewrite Hback; unfold fixb; by rewrite Ebn, Ebn). apply Hn' in Hn as Hch. destruct (back_target p u nd (S b) Ep E Hch Hbn) as (v' & Ev' & _ & Hnlb & _).
    rewrite Ev in Ev'. injection Ev' as <-. pose proof (proj1 (proj2 Htab) _ _ _ (entry_back t path tsize bits p nd (S b) u Ep E Hch Hbn)) as Ex. rewrite Ex.
    pose proof (pk_state _ _ _ _ _ _ Hpk (S b) ltac:(by eexists) Hnlb) as Hsb. assert (Hsb2 : 0 <= stt t (S b) < 2 ^ (30 - bits)) by lia.
    rewrite <-(Z.lxor_0_r (enc _ _ _ _ _)). rewrite (proj2 (valid_iff psp bits Hbits (fn_mask _ _ Hfin) _ 0 ltac:(by apply enc_nonneg) ltac:(lia))) by (apply (enc_sym psp bits Hbits (fn_mask _ _ Hfin)); lia).
    rewrite (enc_next psp bits Hbits (fn_bits _ _ Hfin)) by lia. by rewrite (state_node (S b) v Ev Hnlb).
Qed.

#[export] Instance final_machine : machine psp ws state_of inside.
Proof.
  pose proof (Z.pow_pos_nonneg 2 bits ltac:(lia) ltac:(lia)) as H2b. split.
  - done.
  - intros u Hu Hne. pose proof (state_pos u Hu Hne). lia.
  - intros u c Hu Hok Hc0. pose proof Hok as [Hc Hin]. pose proof (state_range u Hu) as Hsu. specialize (Hin u Hu). eexists. split.
    { unfold p_tran. rewrite tranv_run by lia. reflexivity. }
    destruct (decide (u ++ [c] ∈ path)) as [Hp|Hp].
    + apply list_elem_of_lookup in Hp as Hq. destruct Hq as [q Eq]. destruct (inner_node u Hu) as [p Ep]. pose proof (nonleaf_kid t0 path ws Hb Hcov p u c Ep Hp) as Hn.
      destruct (node_t t0 tb t path ws Hb Htb ns tsize Hpk q _ Eq) as (nd & nb & E & Eb & _ & Hsf & _). destruct (kid_transition p q u c nd Ep Eq E) as (nx & Ex & Hcc & Hnx & Hz & Hm & Hor).
      rewrite (state_node p u Ep Hn), Ex. set (x := enc _ _ _ _ _). assert (Hnext : t_next psp (Z.lxor x c) = nx) by (apply (enc_next psp bits Hbits (fn_bits _ _ Hfin)); lia).
      destruct (enc_flag bits Hbits c c (negb (match_ nd =? 0)) (is_suffix nd) nx) as [Hf1 Hf2]; [lia..|]. assert (Hit : in_tree ws (u ++ [c])) by by apply Hcov. split.
      * split; [done|]. intros _. apply (valid_iff psp bits Hbits (fn_mask _ _ Hfin)); [apply enc_nonneg; lia|lia|]. apply (enc_sym psp bits Hbits (fn_mask _ _ Hfin)); lia.
      * intros _. unfold t_isleaf. rewrite Hnext, (fn_tsize _ _ Hfin), Z.leb_gt. destruct Hor as [(Hi & _ & _ & Hlt)|(Hi & _ & _ & Hle)]; [done|]. split; [lia|done].
      * intros Hi. rewrite Hnext. destruct Hor as [(_ & _ & -> & _)|(Hi' & _)]; done.
      * intros _. unfold x. rewrite Hf1, negb_true_iff, Z.eqb_neq, Hm. split; [apply mark_word|]. intros Hw Hz0%mark_zero. done.
      * intros Hw. rewrite (state_node p u Ep Hn). by apply (strno_run p q u c nd).
      * intros _ Hz0. assert (Hsfx : is_suffix nb = false). { rewrite <-Hsf. destruct (is_suffix nd) eqn:Es; [|done]. exfalso. apply (proj2 Hf2); [done|exact Hz0]. }
        by apply (proj2 (Hex _ q nb Eq Eb)).
    + assert (Hnt : ~ in_tree ws (u ++ [c])) by (intros H; by apply Hp, Hcov). split; try (intros; exfalso; by eauto using in_tree_word, inner_in_tree).
      split; [|done]. intros Hv. exfalso. eapply (no_transition u c); try done. apply tab_nonneg. lia.
  - intros u Hu Hne. by apply back_run.
  - intros w Hw (a & b & ->)%list_elem_of_split. assert (Hp : a ++ [0] ∈ path) by (apply Hcov; right; exists (a ++ 0 :: b); split; [done|]; exists b; by rewrite <-app_assoc). apply Hsym in Hp. lia.
  - apply (fn_nchars _ _ Hfin).
Qed.
End machine.
