(* ===== verification/AcismSym.v ===== *)
(** The symbols of acism_create.c: every byte that occurs gets a symbol of its own, from 1
    on, and the width of a number is what it should be; and from strings of bytes to strings
    of symbols: a coding that is injective on the bytes that occur keeps prefixes, suffixes
    and occurrences. *)
From Stdlib Require Import Sorted.
From stdpp Require Import sorting.
From S2P Require Import Prelude Arrays Suffix Acism AcismScan AcismTree AcismLinks AcismPlace.

(** ** [bitwid] *)

Lemma high_mask u k m : 0 <= k -> 0 <= m -> 0 <= u < 2 ^ (k + m) -> Z.land u (Z.shiftl (Z.ones m) k) = 0 <-> u < 2 ^ k.
Proof.
  intros Hk Hm Hu. assert (E : Z.land u (Z.shiftl (Z.ones m) k) = Z.shiftl (Z.shiftr u k) k).
  { apply Z.bits_inj'. intros i Hi. rewrite Z.land_spec, !Z.shiftl_spec by done. destruct (decide (i < k)) as [H|H].
    - by rewrite !(Z.testbit_neg_r _ (i - k)), andb_false_r by lia.
    - rewrite Z.shiftr_spec by lia. replace (i - k + k) with i by lia. destruct (decide (i - k < m)).
      + by rewrite Z.ones_spec_low, andb_true_r by lia.
      + rewrite (bits_high u (k + m)) by lia. done. }
  rewrite E, Z.shiftl_mul_pow2, Z.shiftr_div_pow2 by done. pose proof (Z.pow_pos_nonneg 2 k ltac:(lia) Hk). split.
  - intros H0. pose proof (Z.div_mod u (2 ^ k) ltac:(lia)). pose proof (Z.mod_pos_bound u (2 ^ k) ltac:(lia)). nia.
  - intros H0. by rewrite Z.div_small by lia.
Qed.

(** One step of [bitwid]: the number and the width found so far. *)
Lemma bitwid_step u ret k m : 0 < k -> 0 <= m -> 0 < u < 2 ^ (k + m) ->
  let '(u', ret') := if Z.land u (Z.shiftl (Z.ones m) k) =? 0 then (u, ret) else (Z.shiftr u k, ret + k) in
  Z.log2 u' + ret' = Z.log2 u + ret /\ 0 < u' < 2 ^ (Z.max k m).
Proof.
  intros Hk Hm Hu. pose proof (high_mask u k m ltac:(lia) Hm ltac:(lia)) as Hh. pose proof (Z.pow_pos_nonneg 2 k ltac:(lia) ltac:(lia)) as H2k.
  destruct (Z.eqb_spec (Z.land u (Z.shiftl (Z.ones m) k)) 0) as [Hz|Hz].
  - apply Hh in Hz. split; [done|]. split; [lia|]. pose proof (Z.pow_le_mono_r 2 k (Z.max k m) ltac:(lia) ltac:(lia)). lia.
  - assert (Hge : 2 ^ k <= u) by lia. split.
    + rewrite Z.log2_shiftr by lia. pose proof (Z.log2_le_mono _ _ Hge) as Hl. rewrite Z.log2_pow2 in Hl by lia. lia.
    + rewrite Z.shiftr_div_pow2 by lia. split; [apply Z.div_str_pos; lia|]. pose proof (Z.pow_le_mono_r 2 m (Z.max k m) ltac:(lia) ltac:(lia)).
      apply Z.lt_le_trans with (2 ^ m); [|done]. apply Z.div_lt_upper_bound; [done|]. rewrite <-Z.pow_add_r by lia. lia.
Qed.

(** One more than the binary logarithm. *)
Lemma bitwid_log2 u : 0 < u < 2 ^ 32 -> bitwid u = Z.log2 u + 1.
Proof.
  intros Hu. unfold bitwid. rewrite (proj2 (Z.eqb_neq u 0)) by lia.
  pose proof (bitwid_step u 1 16 16 ltac:(lia) ltac:(lia) Hu) as H1. change (Z.shiftl (Z.ones 16) 16) with 0xFFFF0000 in H1. destruct (if Z.land u 0xFFFF0000 =? 0 then _ else _) as [u1 r1]. destruct H1 as [E1 H1].
  pose proof (bitwid_step u1 r1 8 8 ltac:(lia) ltac:(lia) H1) as H2. change (Z.shiftl (Z.ones 8) 8) with 0xFF00 in H2. destruct (if Z.land u1 0xFF00 =? 0 then _ else _) as [u2 r2]. destruct H2 as [E2 H2].
  pose proof (bitwid_step u2 r2 4 4 ltac:(lia) ltac:(lia) H2) as H3. change (Z.shiftl (Z.ones 4) 4) with 0xF0 in H3. destruct (if Z.land u2 0xF0 =? 0 then _ else _) as [u3 r3]. destruct H3 as [E3 H3].
  pose proof (bitwid_step u3 r3 2 2 ltac:(lia) ltac:(lia) H3) as H4. change (Z.shiftl (Z.ones 2) 2) with 0xC in H4. destruct (if Z.land u3 0xC =? 0 then _ else _) as [u4 r4]. destruct H4 as [E4 H4].
  change (2 ^ Z.max 2 2) with 4 in H4. assert (Hc : u4 = 1 \/ u4 = 2 \/ u4 = 3) by lia. assert (Hsum : Z.log2 u4 + r4 = Z.log2 u + 1) by lia. clear E1 E2 E3 E4.
  destruct Hc as [->|[->| ->]]; [change (Z.log2 1) with 0 in Hsum|change (Z.log2 2) with 1 in Hsum|change (Z.log2 3) with 1 in Hsum]; match goal with |- (if ?b then _ else _) = _ => let b' := eval vm_compute in b in change b with b' end; cbv iota; lia.
Qed.

Lemma bitwid_bound u : 0 <= u < 2 ^ 32 -> 0 <= bitwid u /\ u < 2 ^ bitwid u.
Proof.
  intros Hu. destruct (decide (u = 0)) as [->|]; [done|]. rewrite bitwid_log2 by lia. pose proof (Z.log2_spec u ltac:(lia)). pose proof (Z.log2_nonneg u). split; [lia|]. rewrite Z.add_1_r. lia.
Qed.

(** ** Frequencies *)

(** [qsort] with the comparison [cmp], as documented: a sorted permutation. *)
Definition sorts (cmp : FRANK -> FRANK -> Z) (qsort : list FRANK -> list FRANK) : Prop := forall l, qsort l ≡ₚ l /\ StronglySorted (fun a b => cmp a b <= 0) (qsort l).

Definition occ (c : Z) (l : list Z) : Z := Z.of_nat (length (filter (fun x => x = c) l)).

Lemma occ_app c l l' : occ c (l ++ l') = occ c l + occ c l'.
Proof. unfold occ. rewrite filter_app, length_app. lia. Qed.

Lemma occ_bound c l : 0 <= occ c l <= Z.of_nat (length l).
Proof. unfold occ. pose proof (length_filter (fun x => x = c) l). lia. Qed.

Lemma occ_in c l : occ c l <> 0 <-> c ∈ l.
Proof.
  unfold occ. split.
  - intros H. destruct (filter (fun x => x = c) l) as [|x k] eqn:E; [done|]. assert (Hx : x ∈ filter (fun x => x = c) l) by (rewrite E; by left). by apply list_elem_of_filter in Hx as [-> ?].
  - intros H. assert (Hx : c ∈ filter (fun x => x = c) l) by by apply list_elem_of_filter. destruct (filter (fun x => x = c) l); [by apply elem_of_nil in Hx|]. cbn. lia.
Qed.

Lemma occ_rev c l : occ c (rev l) = occ c l.
Proof. unfold occ. by rewrite <-(Permutation_rev l). Qed.

(** The frequencies of the bytes of [l]. *)
Definition counted (frv : list FRANK) (l : list Z) : Prop := frv = (fun i => mkFRANK (occ (Z.of_nat i) l) (Z.of_nat i)) <$> seq 0 256.

Lemma counted_lookup frv l c : counted frv l -> byte c -> frv !! Z.to_nat c = Some (mkFRANK (occ c l) c).
Proof. intros -> Hc. unfold byte in Hc. rewrite list_lookup_fmap, lookup_seq_lt by lia. cbn. by rewrite Z2Nat.id by lia. Qed.

Lemma count_bytes_spec s : forall frv l, counted frv l -> Forall byte s -> Z.of_nat (length (l ++ s)) < 2 ^ 31 -> exists frv', count_bytes frv s = Ret frv' /\ counted frv' (l ++ s).
Proof.
  induction s as [|c s IH]; intros frv l Hc Hs Hl; cbn [count_bytes]; [exists frv; by rewrite app_nil_r|]. apply Forall_cons in Hs as [Hb Hs]. pose proof (counted_lookup frv l c Hc Hb) as E. unfold byte in Hb.
  unfold zget at 1. rewrite (proj2 (Z.leb_le _ _)), E by lia. bind. cbn [freq rank]. rewrite length_app in Hl. cbn [length] in Hl. pose proof (occ_bound c l).
  rewrite sint_fits by (unfold int; lia). bind. assert (Hlen : length frv = 256%nat) by (rewrite Hc; by rewrite length_fmap, length_seq).
  unfold zset. rewrite (proj2 (Z.leb_le _ _)), (proj2 (Z.ltb_lt _ _)) by lia. cbn [andb]. bind.
  destruct (IH (<[Z.to_nat c := mkFRANK (occ c l + 1) c]> frv) (l ++ [c])) as (frv' & -> & Hc'); [|done|rewrite <-app_assoc; cbn; rewrite length_app; cbn; lia|exists frv'; by rewrite <-app_assoc in Hc'].
  unfold counted. apply list_eq_same_length with 256%nat; [by rewrite length_fmap, length_seq|by rewrite length_insert|]. intros i x y Hi Hx Hy.
  rewrite list_lookup_fmap, lookup_seq_lt in Hy by lia. injection Hy as <-. rewrite lookup_ins in Hx by lia. case_decide as Hic.
  - injection Hx as <-. rewrite Hic. rewrite Z2Nat.id by lia. rewrite occ_app. f_equal. cbn. unfold occ at 3. rewrite filter_cons_True by done. cbn. lia.
  - rewrite Hc, list_lookup_fmap, lookup_seq_lt in Hx by lia. injection Hx as <-. cbn [Nat.add]. rewrite occ_app. unfold occ at 3. rewrite filter_cons_False by lia. cbn. f_equal. lia.
Qed.

Lemma count_strs_spec strv : forall frv l n, counted frv l -> Forall (Forall byte) strv -> n = Z.of_nat (length l) -> Z.of_nat (length l + total strv) < 2 ^ 31 ->
  exists frv' l', count_strs frv n strv = Ret (frv', n + Z.of_nat (total strv)) /\ counted frv' l' /\ forall c, c ∈ l' <-> c ∈ l \/ exists s, s ∈ strv /\ c ∈ s.
Proof.
  induction strv as [|s strv IH]; intros frv l n Hc Hs Hn Hl; cbn [count_strs total].
  { exists frv, l. rewrite Z.add_0_r. split; [done|]. split; [done|]. intros c. split; [by left|]. intros [?|(s & ?%elem_of_nil & _)]; done. }
  apply Forall_cons in Hs as [Hb Hs]. cbn [total] in Hl. destruct (count_bytes_spec (rev s) frv l Hc) as (frv1 & -> & Hc1).
  { rewrite Forall_forall in *. intros c Hin. apply Hb. by rewrite <-(Permutation_rev s) in Hin. }
  { rewrite length_app, length_rev. lia. }
  bind. rewrite u32_small by lia. destruct (IH frv1 (l ++ rev s) (n + Z.of_nat (length s)) Hc1 Hs) as (frv' & l' & -> & Hc' & Hin).
  { rewrite length_app, length_rev. lia. }
  { rewrite length_app, length_rev. lia. }
  exists frv', l'. split; [f_equal; f_equal; lia|]. split; [done|]. intros c. rewrite Hin, elem_of_app. rewrite <-(Permutation_rev s). split.
  - intros [[?|?]|(s' & ? & ?)]; [by left|right; exists s; split; [by left|done]|right; exists s'; split; [by right|done]].
  - intros [?|(s' & [->|?]%elem_of_cons & ?)]; [by left; left|by left; right|right; by exists s'].
Qed.

(** ** Symbols *)

(** The symbols given to [frv], from [n] on. *)
Record assigned (frv : list FRANK) (sv sv' : list Z) (n n' : Z) : Prop := Assigned {
  as_len : length sv' = length sv;
  as_count : n <= n' <= n + Z.of_nat (length frv);
  as_new : forall f, f ∈ frv -> freq f <> 0 -> n < uat sv' (rank f) <= n';
  as_old : forall c, 0 <= c -> (forall f, f ∈ frv -> freq f <> 0 -> rank f <> c) -> uat sv' c = uat sv c;
  as_inj : forall f g, f ∈ frv -> g ∈ frv -> freq f <> 0 -> freq g <> 0 -> uat sv' (rank f) = uat sv' (rank g) -> rank f = rank g
}.

Lemma assign_syms_spec frv : forall sv n, length sv = 256%nat -> Forall (fun f => byte (rank f) /\ 0 <= freq f) frv -> NoDup (rank <$> frv) -> StronglySorted (fun a b => freq b <= freq a) frv ->
  exists sv' n', assign_syms frv sv n = Ret (sv', n') /\ assigned frv sv sv' n n'.
Proof.
  induction frv as [|f frv IH]; intros sv n Hl Hf Hnd Hs; cbn [assign_syms].
  { exists sv, n. split; [done|]. split; [done|cbn; lia|by intros f ?%elem_of_nil|done|by intros f g ?%elem_of_nil]. }
  apply Forall_cons in Hf as [[Hr Hq] Hf]. apply NoDup_cons in Hnd as [Hn Hnd]. apply StronglySorted_inv in Hs as [Hs Hmax]. unfold byte in Hr. destruct (Z.eqb_spec (freq f) 0) as [Hz|Hz].
  - assert (H0 : forall g, g ∈ f :: frv -> freq g = 0).
    { intros g [->|Hg]%elem_of_cons; [done|]. rewrite Forall_forall in Hmax, Hf. specialize (Hmax g Hg). destruct (Hf g Hg). lia. }
    exists sv, n. split; [done|]. split; [done|cbn [length]; lia| |done|].
    + intros g Hg Hne. by rewrite H0 in Hne.
    + intros g g' Hg _ Hne. by rewrite H0 in Hne.
  - destruct (zset_uat sv (rank f) (n + 1)) as (sv1 & -> & Hl1 & Hu1); [lia|]. bind. destruct (IH sv1 (n + 1)) as (sv' & n' & -> & [H1 H2 H3 H4 H5]); [congruence|done..|]. exists sv', n'. split; [done|].
    assert (Hne : forall g, g ∈ frv -> rank g <> rank f) by (intros g Hg Heq; apply Hn; rewrite <-Heq; by apply list_elem_of_fmap_2).
    assert (Hf1 : uat sv' (rank f) = n + 1) by (rewrite H4, Hu1, decide_True by (done || lia || by intros g Hg _; by apply Hne); done). split.
    + congruence.
    + cbn [length]. lia.
    + intros g [->|Hg]%elem_of_cons Hgz; [rewrite Hf1; lia|]. specialize (H3 g Hg Hgz). lia.
    + intros c Hc Hno. rewrite H4; [rewrite Hu1, decide_False; [done| |done]|done|].
      * intros ->. by apply (Hno f); [left|..].
      * intros g Hg Hgz. apply Hno; [by right|done].
    + intros g g' [->|Hg]%elem_of_cons [->|Hg']%elem_of_cons Hz1 Hz2; [done|..].
      * rewrite Hf1. specialize (H3 g' Hg' Hz2). lia.
      * rewrite Hf1. specialize (H3 g Hg Hz1). lia.
      * by apply H5.
Qed.

(** Every byte that occurs has a symbol of its own below [ns]. *)
Record coding (strv : list (list Z)) (sv : list Z) (ns : Z) : Prop := Coding {
  cd_len : length sv = 256%nat;
  cd_ns : 0 < ns <= 257;
  cd_sym : forall c, byte c -> (exists s, s ∈ strv /\ c ∈ s) -> 0 < uat sv c < ns;
  cd_none : forall c, byte c -> (forall s, s ∈ strv -> c ∉ s) -> uat sv c = 0;
  cd_inj : forall c d, byte c -> byte d -> (exists s, s ∈ strv /\ c ∈ s) -> (exists s, s ∈ strv /\ d ∈ s) -> uat sv c = uat sv d -> c = d
}.

Lemma sorted_rev (l : list FRANK) : StronglySorted (fun a b => frcmp a b <= 0) l -> StronglySorted (fun a b => freq b <= freq a) (rev l).
Proof.
  induction 1 as [|a l Hs IH Ha]; cbn [rev]; [constructor|]. apply StronglySorted_app. split_and!; [|done|by repeat constructor].
  intros x y Hx ->%list_elem_of_singleton. rewrite <-(Permutation_rev l) in Hx. rewrite Forall_forall in Ha. specialize (Ha x Hx). unfold frcmp in Ha. lia.
Qed.

Lemma fill_symv_spec qsort strv : sorts frcmp qsort -> Forall (Forall byte) strv -> Z.of_nat (total strv) < 2 ^ 31 ->
  exists sv ns, fill_symv qsort strv = Ret (sv, ns, Z.of_nat (total strv)) /\ coding strv sv ns.
Proof.
  intros Hq Hs Hl. unfold fill_symv. set (fr0 := (fun i => mkFRANK 0 (Z.of_nat i)) <$> seq 0 256). destruct (count_strs_spec strv fr0 [] 0) as (frv & l & -> & Hc & Hin); [done|done|done|done|].
  bind. rewrite Z.add_0_l. destruct (Hq frv) as [Hperm Hsort]. set (fv := rev (qsort frv)). assert (Hfv : fv ≡ₚ frv) by (unfold fv; by rewrite <-Permutation_rev).
  assert (Hmem : forall f, f ∈ fv -> byte (rank f) /\ freq f = occ (rank f) l).
  { intros f Hf. rewrite Hfv, Hc in Hf. apply list_elem_of_fmap in Hf as (i & -> & Hi%elem_of_seq). cbn. unfold byte. split; [lia|done]. }
  assert (Hall : forall c, byte c -> exists f, f ∈ fv /\ rank f = c /\ freq f = occ c l).
  { intros c Hb. exists (mkFRANK (occ c l) c). split; [|done]. rewrite Hfv. eapply list_elem_of_lookup_2. by apply counted_lookup. }
  destruct (assign_syms_spec fv (replicate 256 0) 0) as (sv & n & -> & [H1 H2 H3 H4 H5]).
  { by rewrite length_replicate. }
  { apply Forall_forall. intros f Hf. destruct (Hmem f Hf) as [Hb ->]. split; [done|apply occ_bound]. }
  { rewrite Hfv, Hc, <-list_fmap_compose. apply NoDup_fmap_2_strong; [|apply NoDup_seq]. intros i j _ _ Hij. cbn in Hij. lia. }
  { by apply sorted_rev. }
  bind. exists sv, (n + 1). split; [done|]. assert (Hlen : length fv = 256%nat) by (rewrite Hfv, Hc; by rewrite length_fmap, length_seq).
  assert (Hocc : forall c, occ c l <> 0 <-> exists s, s ∈ strv /\ c ∈ s).
  { intros c. rewrite occ_in, Hin. split; [intros [?%elem_of_nil|?]; done|by right]. }
  split.
  - by rewrite H1, length_replicate.
  - lia.
  - intros c Hb Hex%Hocc. destruct (Hall c Hb) as (f & Hf & <- & Hfo). specialize (H3 f Hf ltac:(congruence)). lia.
  - intros c Hb Hno. rewrite H4, uat_replicate; [done|unfold byte in Hb; lia|]. intros f Hf Hfz Hr. destruct (Hmem f Hf) as [_ Hfo]. rewrite Hfo, Hr in Hfz. apply Hocc in Hfz as (s & Hs1 & Hs2). by apply (Hno s).
  - intros c d Hbc Hbd Hexc%Hocc Hexd%Hocc Heq. destruct (Hall c Hbc) as (f & Hf & <- & Hfo). destruct (Hall d Hbd) as (g & Hg & <- & Hgo). by apply H5; [..|congruence|congruence|].
Qed.

(** ** From bytes to symbols *)

Section code.
Context (strv : list (list Z)) (sv : list Z) (ns : Z) (Hc : coding strv sv ns) (Hbytes : Forall (Forall byte) strv).
Abbreviation f := (uat sv).
Abbreviation ws := (encode f strv).

Definition occurs (c : Z) : Prop := exists s, s ∈ strv /\ c ∈ s.

Lemma occurs_byte c : occurs c -> byte c.
Proof. intros (s & Hs & Hcs). rewrite Forall_forall in Hbytes. specialize (Hbytes s Hs). rewrite Forall_forall in Hbytes. by apply Hbytes. Qed.

Lemma symbol_occurs c : byte c -> f c <> 0 -> occurs c.
Proof.
  intros Hb Hne. destruct (decide (c ∈ mjoin strv)) as [Hin|Hin].
  - apply list_elem_of_join in Hin as (s & Hcs & Hs). by exists s.
  - exfalso. apply Hne. apply (cd_none _ _ _ Hc); [done|]. intros s Hs Hcs. apply Hin. apply list_elem_of_join. by exists s.
Qed.

Lemma symbol_range c : byte c -> 0 <= f c < ns.
Proof.
  intros Hb. destruct (decide (f c = 0)) as [->|Hne]; [pose proof (cd_ns _ _ _ Hc); lia|]. apply symbol_occurs in Hne; [|done]. pose proof (cd_sym _ _ _ Hc c Hb Hne). lia.
Qed.

(** Equal codes of which one comes from a string. *)
Lemma code_inj l : forall l', Forall occurs l -> Forall byte l' -> f <$> l = f <$> l' -> l = l'.
Proof.
  induction l as [|c l IH]; intros [|d l'] Hl Hl' E; try done. cbn [fmap list_fmap] in E. apply Forall_cons in Hl as [Hoc Hl]. apply Forall_cons in Hl' as [Hbd Hl'].
  injection E as E1 E2. pose proof (occurs_byte c Hoc) as Hbc. pose proof (cd_sym _ _ _ Hc c Hbc Hoc). assert (Hod : occurs d) by (apply symbol_occurs; [done|lia]).
  f_equal; [by apply (cd_inj _ _ _ Hc)|by apply IH].
Qed.

Lemma word_occurs w : w ∈ strv -> Forall occurs w.
Proof. intros Hw. apply Forall_forall. intros c Hcw. by exists w. Qed.

Lemma tree_occurs u : in_tree strv u -> Forall occurs u.
Proof. intros [->|(w & Hw & [k ->])]; [constructor|]. apply word_occurs in Hw. by apply Forall_app in Hw as [? _]. Qed.

Lemma occurs_bytes l : Forall occurs l -> Forall byte l.
Proof. intros H. eapply Forall_impl; [exact H|]. apply occurs_byte. Qed.

(** ** The tree *)

Lemma code_tree u' : in_tree ws u' <-> exists u, in_tree strv u /\ u' = f <$> u.
Proof.
  split.
  - intros [->|(w' & Hw' & [k Ek])]; [exists []; split; [by left|done]|]. apply list_elem_of_fmap in Hw' as (w & -> & Hw).
    exists (take (length u') w). split; [right; exists w; split; [done|by apply prefix_take]|]. by rewrite fmap_take, Ek, take_app_length.
  - intros (u & [->|(w & Hw & [k ->])] & ->); [by left|]. right. exists (f <$> u ++ k). split; [by apply (list_elem_of_fmap_2 (fun s : list Z => f <$> s))|]. exists (f <$> k). by rewrite fmap_app.
Qed.

Lemma code_inner u' : inner ws u' <-> exists u, inner strv u /\ u' = f <$> u.
Proof.
  split.
  - intros [->|(c & (v & Hv & Ev)%code_tree)]; [exists []; split; [by left|done]|]. destruct v as [|b v _] using rev_ind; [by destruct u'|]. rewrite fmap_app in Ev. apply app_inj_tail in Ev as [-> _].
    exists v. split; [by eapply inner_snoc|done].
  - intros (u & [->|(b & Hb)] & ->); [by left|]. right. exists (f b). apply code_tree. exists (u ++ [b]). split; [done|by rewrite fmap_app].
Qed.

Lemma code_proper u v : Forall occurs u -> Forall occurs v -> proper_suffix (f <$> v) (f <$> u) <-> proper_suffix v u.
Proof.
  intros Hu Hv. split.
  - intros [[k Ek] Hne]. split; [|by intros ->]. exists (take (length k) u). rewrite <-(take_drop (length k) u) at 1. f_equal. symmetry. apply code_inj; [done|apply Forall_drop; by apply occurs_bytes|].
    by rewrite fmap_drop, Ek, drop_app_length.
  - intros [[k ->] Hne]. split; [exists (f <$> k); by rewrite fmap_app|]. intros E. apply Hne. apply code_inj; [done|by apply occurs_bytes|done].
Qed.

(** The condition on the strings, and on their codes. *)
Lemma code_suffixes : inner_suffixes strv -> inner_suffixes ws.
Proof.
  intros H u' v' (u & Hu & ->)%code_inner Hne (Hv' & Hp & Hmax). apply code_tree in Hv' as (v & Hv & ->). pose proof (tree_occurs u (inner_in_tree _ _ Hu)) as Hou.
  apply code_inner. exists v. split; [|done]. apply (H u v Hu); [by intros ->|]. split; [done|]. split; [apply code_proper; [done|by apply tree_occurs|done]|].
  intros w Hw Hwp. specialize (Hmax (f <$> w)). rewrite !length_fmap in Hmax. apply Hmax; [apply code_tree; by exists w|]. apply code_proper; [done|by apply tree_occurs|done].
Qed.

(** ** Occurrences *)

Lemma code_index d : Forall byte d -> forall l i, (forall w, w ∈ l -> Forall occurs w) -> last_index i ((fun s : list Z => f <$> s) <$> l) (f <$> d) = last_index i l d.
Proof.
  intros Hd. induction l as [|w l IH]; intros i Hl; [done|]. cbn [fmap list_fmap last_index]. rewrite IH by (intros w' Hw'; apply Hl; by right). destruct (last_index (i + 1) l d); [done|].
  destruct (decide (w = d)) as [->|Hne]; [by rewrite decide_True|]. rewrite decide_False; [done|]. intros E. apply Hne. apply code_inj; [apply Hl; by left|done|done].
Qed.

Lemma code_occs d : Forall byte d -> occs ws (f <$> d) = occs strv d.
Proof.
  intros Hd. induction Hd as [|c d Hb Hd IH]; [done|]. cbn [fmap list_fmap occs]. change (f c :: (f <$> d)) with (f <$> c :: d). unfold encode. rewrite code_index; [|by constructor|apply word_occurs].
  f_equal. exact IH.
Qed.

Lemma code_occurrences text : forall d pos, Forall byte d -> Forall byte text -> occurrences ws (f <$> d) pos (f <$> text) = occurrences strv d pos text.
Proof.
  induction text as [|c text IH]; intros d pos Hd Ht; [done|]. apply Forall_cons in Ht as [Hb Ht]. cbn [fmap list_fmap occurrences]. change ((f <$> d) ++ [f c]) with ((f <$> d) ++ (f <$> [c])). rewrite <-fmap_app.
  assert (Hdc : Forall byte (d ++ [c])) by (apply Forall_app; split; [done|by constructor]). rewrite code_occs by done. f_equal. by apply IH.
Qed.
End code.
