(* ===== verification/AcismThm.v ===== *)
(** What acism_create.c and acism.c do together: a table is made for every list of strings,
    and for strings whose longest proper suffixes go on, the scan reports exactly their
    occurrences; for others it may miss some, or report what is not there. *)
From S2P Require Import Prelude Arrays Suffix Acism AcismScan AcismTree AcismLinks AcismPlace AcismTable AcismMachine AcismSym.

(** ** Creation *)

(** No product or sum overflows: the strings have at most eight million bytes. *)
Definition small (strv : list (list Z)) : Prop := 257 * (Z.of_nat (total strv) + 3) < 2 ^ 31 /\ Z.of_nat (length strv) < 2 ^ 25.

(** A machine that was made for [strv]. *)
Record made (strv : list (list Z)) (psp : ACISM) : Prop := Made {
  md_coding : coding strv (symv psp) (nsyms psp);
  md_size : 0 < sym_bits psp;
  md_final : exists t0 tb t path tab, built t0 path (encode (uat (symv psp)) strv) /\ covers path (encode (uat (symv psp)) strv) /\ same_core t0 tb /\ back_ok path tb /\
    (inner_suffixes (encode (uat (symv psp)) strv) -> forall x, exact path (encode (uat (symv psp)) strv) tb x) /\
    (forall u c, u ++ [c] ∈ path -> 0 < c < nsyms psp) /\ nsyms psp * Z.of_nat (length path + 2) < 2 ^ 31 /\ packed t0 tb path (nsyms psp) t (tran_size psp) /\
    0 <= sym_bits psp <= 30 /\ nsyms psp <= 2 ^ sym_bits psp /\ tran_size psp + Z.of_nat (length strv) - 1 < 2 ^ (30 - sym_bits psp) /\
    tran_table t path (tran_size psp) (sym_bits psp) tab /\ final t path (encode (uat (symv psp)) strv) (tran_size psp) (sym_bits psp) tab psp
}.

Lemma total_word strv s : s ∈ strv -> (length s <= total strv)%nat.
Proof. induction strv as [|s' strv IH]; [by intros ?%elem_of_nil|]. cbn [total]. intros [->|Hs]%elem_of_cons; [lia|]. specialize (IH Hs). lia. Qed.

Lemma path_bound t path : shape t path -> forall n : nat, length t = n -> (length path <= n)%nat.
Proof. intros Hs n <-. apply (sh_size _ _ Hs). Qed.

Section create.
Context (qsort : list FRANK -> list FRANK) (Hsorts : sorts frcmp qsort) (strv : list (list Z)) (Hbytes : Forall (Forall byte) strv) (Hsmall : small strv).

Lemma encode_symbols sv ns path : coding strv sv ns -> covers path (encode (uat sv) strv) -> forall u c, u ++ [c] ∈ path -> 0 < c < ns.
Proof.
  intros Hc Hcov u c Hin. apply Hcov in Hin as [Hn|(w & Hw & Hp)]; [by destruct u|]. unfold encode in Hw. apply list_elem_of_fmap in Hw as (s & -> & Hs).
  assert (Hcw : c ∈ uat sv <$> s). { destruct Hp as [k ->]. apply elem_of_app. left. apply elem_of_app. right. by left. }
  apply list_elem_of_fmap in Hcw as (b & -> & Hb). rewrite Forall_forall in Hbytes. specialize (Hbytes s Hs). rewrite Forall_forall in Hbytes. apply (cd_sym _ _ _ Hc); [by apply Hbytes|]. by exists s.
Qed.

Lemma all_coded sv ns : coding strv sv ns -> Forall (Forall (coded sv (uat sv))) strv.
Proof.
  intros Hc. rewrite !Forall_forall in *. intros s Hs. specialize (Hbytes s Hs). rewrite !Forall_forall in *. intros c Hcs. specialize (Hbytes c Hcs). unfold byte in Hbytes.
  split; [apply zget_uat; rewrite (cd_len _ _ _ Hc); lia|]. apply (cd_sym _ _ _ Hc); [done|by exists s].
Qed.

Lemma symbol_bits ns : 0 < ns <= 257 -> 0 < bitwid ns <= 9 /\ ns < 2 ^ bitwid ns.
Proof.
  intros Hns. destruct (bitwid_bound ns) as [_ H2]; [lia|]. split; [|done]. rewrite bitwid_log2 by lia. pose proof (Z.log2_nonneg ns). pose proof (Z.log2_le_mono ns 257 ltac:(lia)) as Hl.
  change (Z.log2 257) with 8 in Hl. lia.
Qed.

(** The last part: the table of symbols, the first word, and the hash table. *)
Lemma create_finish_spec sv ns t0 tb t path tsize nhash bits : let ws := encode (uat sv) strv in
  coding strv sv ns -> bits = bitwid ns -> built t0 path ws -> covers path ws -> same_core t0 tb -> back_ok path tb -> (length path <= total strv + 1)%nat -> ns * Z.of_nat (length path + 2) < 2 ^ 31 -> packed t0 tb path ns t tsize ->
  nhash = Z.of_nat (length (hash_nodes_of t (seq 1 (length path - 1)))) ->
  let hmod := if nhash =? 0 then 0 else nhash * 5 / 4 + 1 in
  let hsize := if nhash =? 0 then 0 else hmod + nhash in
  exists psp tab, (tab ← fill_tranv bits tsize t 0 (replicate (Z.to_nat (tsize + 2 * hsize)) 0); tab ← zset tab 0 1;
    let psp := mkACISM tab (mask_of bits) bits hmod hsize tsize ns (Z.of_nat (total strv)) (Z.of_nat (length strv)) (foldl (fun m s => Z.max m (Z.of_nat (length s))) 0 strv) sv in
    psp ← (if nhash =? 0 then Ret psp else finish_hash psp t (length path)); Ret (Some psp)) = Ret (Some psp) /\
    symv psp = sv /\ nsyms psp = ns /\ sym_bits psp = bits /\ tran_size psp = tsize /\ tran_table t path tsize bits tab /\ final t path ws tsize bits tab psp.
Proof.
  intros ws Hc Hbits Hb Hcov Htb Hbk Hpl Hsize Hpk Hnh hmod hsize. pose proof (encode_symbols sv ns path Hc Hcov) as Hsym. pose proof (cd_ns _ _ _ Hc) as Hns. pose proof (pk_size _ _ _ _ _ _ Hpk) as Hts.
  destruct Hsmall as [Hsm1 Hsm2]. assert (Hwl : length ws = length strv) by (by unfold ws, encode; rewrite length_fmap).
  assert (Hhs : 0 <= hsize). { unfold hsize, hmod. destruct (Z.eqb_spec nhash 0); [lia|]. pose proof (Z.div_pos (nhash * 5) 4 ltac:(lia) ltac:(lia)). lia. }
  destruct (fill_tranv_spec t0 tb t path ws Hb Hcov Htb Hbk ns Hsym Hns Hsize tsize bits Hpk (Z.to_nat (tsize + 2 * hsize)) ltac:(lia)) as (tab & -> & Hlt & Htab). bind.
  destruct (zset_uat tab 0 1) as (tab1 & -> & Hl1 & Hu1); [lia|]. bind. set (psp := mkACISM tab1 _ _ _ _ _ _ _ _ _ _).
  assert (Hchars : forall w, w ∈ ws -> (length w <= Z.to_nat (Z.of_nat (total strv)))%nat).
  { intros w (s & -> & Hs)%list_elem_of_fmap. rewrite length_fmap, Nat2Z.id. by apply total_word. }
  destruct (Z.eqb_spec nhash 0) as [Hz|Hz].
  - exists psp, tab. split; [done|]. do 4 (split; [done|]). split; [done|]. split; try done; cbn [table psp].
    + lia.
    + intros z Hz'. by rewrite Hu1, decide_False by lia.
    + by rewrite Hu1, decide_True.
    + intros q (p & u & c & Ep & Eq) Hn. exfalso. assert (Hq : q ∈ hash_nodes_of t (seq 1 (length path - 1))).
      { apply list_elem_of_filter. split; [done|]. apply elem_of_seq. pose proof (lookup_lt_Some _ _ _ Eq). assert (q <> 0%nat); [|lia]. intros ->.
        rewrite (sh_root _ _ (bt_shape _ _ _ Hb)) in Eq. injection Eq as Eq. by destruct u. }
      destruct (hash_nodes_of t _) as [|x l]; [by apply elem_of_nil in Hq|cbn in Hnh; lia].
  - assert (Hnb : nhash <= Z.of_nat (length path)).
    { rewrite Hnh. unfold hash_nodes_of. pose proof (length_filter (fun q => needs_hash t q = true) (seq 1 (length path - 1))) as Hf. rewrite length_seq in Hf. lia. }
    assert (HM : nhash < hmod < 2 ^ 31).
    { assert (Ehm : hmod = nhash * 5 / 4 + 1) by (unfold hmod; by try rewrite (proj2 (Z.eqb_neq _ _) Hz)). rewrite Ehm. assert (nhash <= nhash * 5 / 4 <= nhash * 5). { split; [apply Z.div_le_lower_bound; lia|apply Z.div_le_upper_bound; lia]. } nia. }
    assert (Hon : psp = on psp tab1) by done. rewrite Hon. assert (Hlen : Z.of_nat (length tab1) = tsize + 2 * hsize) by lia.
    assert (Hhs2 : hsize = hmod + nhash) by (unfold hsize; by try rewrite (proj2 (Z.eqb_neq _ _) Hz)). rewrite Hhs2 in Hlen.
    destruct (finish_hash_spec t0 tb t path ws Hb Hcov ns Hsym Hns Hsize tsize Hpk ltac:(lia) psp hmod nhash eq_refl eq_refl HM ltac:(lia) Hnh tab1 Hlen) as (l & hs & -> & Hll & Hul & Hfind).
    { intros i Hi. unfold hst. rewrite Hu1, decide_False by lia. apply (proj2 (proj2 Htab)); [lia|]. intros v x He.
      apply (entry_place t0 tb t path ws Hb Hcov Htb Hbk ns Hsym Hsize tsize bits Hpk) in He as (_ & _ & _ & _ & _ & _ & _ & _ & He). lia. }
    bind. exists (set_table psp l hs), tab. split; [done|]. do 4 (split; [done|]). split; [done|]. split; try done; cbn [table psp set_table].
    + intros z Hz'. rewrite Hul, Hu1, decide_False by lia. done.
    + rewrite Hul, Hu1 by lia. by rewrite decide_True.
Qed.

Lemma acism_create_made : exists r, acism_create qsort strv = Ret r /\ match r with Some psp => made strv psp | None => True end.
Proof.
  destruct Hsmall as [Hsm1 Hsm2]. unfold acism_create. destruct (fill_symv_spec qsort strv Hsorts Hbytes ltac:(lia)) as (sv & ns & -> & Hc). bind. rewrite Nat2Z.id.
  pose proof (cd_ns _ _ _ Hc) as Hns. destruct (symbol_bits ns Hns) as [Hb1 Hb2]. set (bits := bitwid ns) in *. set (ws := encode (uat sv) strv).
  destruct (create_tree_spec sv (uat sv) strv (total strv) (all_coded sv ns Hc) eq_refl) as (t0 & path & -> & Hb & Hcov & Hlt). fold ws in Hb, Hcov. bind.
  assert (Hwl : length ws = length strv) by (unfold ws, encode; by rewrite length_fmap). pose proof (sh_size _ _ (bt_shape _ _ _ Hb)) as Hsz.
  set (cap := ((length strv + 1) * sizeof_TNODE / sizeof_ptr)%nat). assert (Hcap : (S (length ws) < cap)%nat).
  { unfold cap, sizeof_TNODE, sizeof_ptr. replace ((length strv + 1) * 40)%nat with ((length strv + 1) * 5 * 8)%nat by lia. rewrite Nat.div_mul by done. lia. }
  destruct (add_backlinks_spec t0 path ws Hb Hcov cap Hcap) as (tb & -> & Htb & Hbk & Hex). bind. pose proof (core_length _ _ Htb) as Hltb. rewrite count_hash_spec by lia. bind.
  pose proof (encode_symbols sv ns path Hc Hcov) as Hsym. assert (Hsize : ns * Z.of_nat (length path + 2) < 2 ^ 31) by nia.
  destruct (interleave_spec t0 tb path ws Hb Hcov Htb ns Hsym Hns Hsize cap (length path) eq_refl Hcap) as (t & tsize & -> & Hpk). bind.
  pose proof (pk_size _ _ _ _ _ _ Hpk) as Hts. assert (Htsb : tsize + Z.of_nat (length strv) < 2 ^ 32) by nia. rewrite u32_small by lia.
  set (x := tsize + Z.of_nat (length strv) - 1) in *. destruct (Z.ltb_spec 30 (bitwid x + bits)) as [Hbig|Hok]; [by exists None|]. destruct (bitwid_bound x) as [Hx1 Hx2]; [lia|].
  assert (Hfit : x < 2 ^ (30 - bits)) by (pose proof (Z.pow_le_mono_r 2 (bitwid x) (30 - bits) ltac:(lia) ltac:(lia)); lia).
  assert (Hcount : hash_nodes_of tb (seq 1 (length path - 1)) = hash_nodes_of t (seq 1 (length path - 1))).
  { unfold hash_nodes_of. apply list_filter_iff. intros q. rewrite (needs_core t0 tb q Htb), (needs_core t0 t q (pk_core _ _ _ _ _ _ Hpk)). done. }
  rewrite Hcount. destruct (create_finish_spec sv ns t0 tb t path tsize (Z.of_nat (length (hash_nodes_of t (seq 1 (length path - 1))))) bits Hc eq_refl Hb Hcov Htb Hbk ltac:(lia) Hsize Hpk eq_refl)
    as (psp & tab & E & Esv & Ens & Ebits & Etsize & Htab & Hfin).
  exists (Some psp). split; [exact E|]. split; rewrite ?Esv, ?Ens, ?Ebits, ?Etsize; [done|lia|]. exists t0, tb, t, path, tab. fold ws. split_and!; try done; lia.
Qed.
End create.

(** ** The scan *)

(** No state of the table and symbol [s] lead beyond [tranv]. *)
Definition room (psp : ACISM) (s : Z) : bool := forallb (fun x => t_isleaf psp x || (t_next psp x + s <? tran_size psp)) (take (Z.to_nat (tran_size psp)) (table psp)).
Definition fits (psp : ACISM) (text : list Z) : bool := forallb (fun c => room psp (sym_of psp c)) text.

Lemma room_word psp s z : room psp s = true -> 0 <= z < tran_size psp -> tran_size psp <= Z.of_nat (length (table psp)) -> t_isleaf psp (uat (table psp) z) = false ->
  t_next psp (uat (table psp) z) + s < tran_size psp.
Proof.
  intros Hr Hz Hl Hlf. unfold room in Hr. rewrite forallb_forall in Hr. specialize (Hr (uat (table psp) z)). rewrite Hlf in Hr. cbn [orb] in Hr. apply Z.ltb_lt, Hr.
  apply list_elem_of_In. unfold uat. destruct (lookup_lt_is_Some_2 (table psp) (Z.to_nat z)) as [x E]; [lia|]. rewrite E. cbn. apply (list_elem_of_lookup_2 _ (Z.to_nat z)). by rewrite lookup_take_lt by lia.
Qed.

Section scan.
Context (strv : list (list Z)) (psp : ACISM) (Hbytes : Forall (Forall byte) strv) (Hsmall : small strv) (Hmade : made strv psp) (Hsuf : inner_suffixes strv).
Abbreviation f := (uat (symv psp)).

Lemma sym_of_uat c : sym_of psp c = f c.
Proof. unfold sym_of. apply nth_lookup. Qed.

(** The machine, for the texts that fit. *)
Lemma made_machine : exists st ok, machine psp (encode f strv) st ok /\ forall text, Forall byte text -> fits psp text = true -> Forall (good_byte psp ok) text.
Proof.
  destruct Hmade as [Hc Hbits0 (t0 & tb & t & path & tab & Hb & Hcov & Htb & Hbk & Hex & Hsym & Hsize & Hpk & Hbits & Hnb & Hfit & Htab & Hfin)]. pose proof (cd_ns _ _ _ Hc) as Hns. set (ws := encode f strv) in *.
  assert (Hwl : length ws = length strv) by (unfold ws, encode; by rewrite length_fmap). destruct Hsmall as [_ Hsm]. rewrite <-Hwl in Hfit. pose proof (pk_size _ _ _ _ _ _ Hpk) as Hts.
  specialize (Hex (code_suffixes strv (symv psp) (nsyms psp) Hc Hbytes Hsuf)). exists (state_of t path), (inside t path ws (nsyms psp) (tran_size psp)).
  pose proof (final_machine t0 tb t path ws Hb Hcov Htb Hbk (nsyms psp) Hsym Hns Hsize (tran_size psp) (sym_bits psp) Hpk ltac:(lia) Hbits Hnb Hfit Hex tab psp Htab Hfin) as Hm.
  split; [done|]. intros text Ht Hf. apply Forall_forall. intros c Hct. rewrite Forall_forall in Ht. specialize (Ht c Hct). pose proof (symbol_range strv (symv psp) (nsyms psp) Hc c Ht) as Hr.
  unfold byte in Ht. unfold good_byte. rewrite sym_of_uat. split; [apply zget_uat; rewrite (cd_len _ _ _ Hc); lia|]. intros _. split; [done|]. intros u Hu.
  unfold fits in Hf. rewrite forallb_forall in Hf. specialize (Hf c ltac:(by apply list_elem_of_In)). rewrite sym_of_uat in Hf. pose proof (fn_len _ _ _ _ _ _ _ Hfin) as Hlen.
  destruct (inner_node path ws Hcov u Hu) as [q Eq]. destruct u as [|a u _] using rev_ind.
  - cbn [state_of]. pose proof (room_word psp _ 0 Hf ltac:(lia) Hlen) as Hw. rewrite (fn_zero _ _ _ _ _ _ _ Hfin) in Hw.
    assert (H1 : t_next psp 1 = 0) by (unfold t_next; change (Z.land 1 (u32 (Z.lnot T_FLAGS))) with 1; apply Z.shiftr_eq_0; [done|by change (Z.log2 1) with 0]).
    unfold t_isleaf in Hw. rewrite H1 in Hw. apply Hw, Z.leb_gt. lia.
  - assert (Hin : u ++ [a] ∈ path) by by eapply list_elem_of_lookup_2. assert (Hv : u ∈ path) by (eapply (path_prefix t0 path (bt_shape _ _ _ Hb)); [exact Hin|by apply prefix_app_r]).
    apply list_elem_of_lookup in Hv as [p Ep]. destruct (node_t t0 tb t path ws Hb Htb (nsyms psp) (tran_size psp) Hpk q _ Eq) as (nd & nb & E & _).
    destruct (kid_transition t0 tb t path ws Hb Hcov Htb Hbk (nsyms psp) Hsym Hns Hsize (tran_size psp) (sym_bits psp) Hpk ltac:(lia) Hbits Hfit tab Htab p q u a nd Ep Eq E) as (nx & Ex & Ha & Hnx & Hz & _ & Hor).
    destruct Hor as [(_ & _ & -> & Hlt)|(Hni & _)]; [|done]. pose proof (room_word psp _ (stt t p + a) Hf ltac:(lia) Hlen) as Hw. rewrite (fn_tab _ _ _ _ _ _ _ Hfin), Ex in Hw by lia.
    unfold t_isleaf in Hw. rewrite <-(Z.lxor_0_r (enc _ _ _ _ _)) in Hw. pose proof (Z.pow_pos_nonneg 2 (sym_bits psp) ltac:(lia) ltac:(lia)).
    rewrite (enc_next psp (sym_bits psp) Hbits (fn_bits _ _ _ _ _ _ _ Hfin)) in Hw by lia. apply Hw, Z.leb_gt. lia.
Qed.

(** Two blocks of a text. *)
Lemma scan_blocks {C} (cb : Z -> Z -> C -> Z * C) t1 t2 ctx : Forall byte t1 -> Forall byte t2 -> fits psp t1 = true -> fits psp t2 = true ->
  exists r1 s1 ctx1, acism_more cb psp t1 ctx 0 = Ret (r1, s1, ctx1) /\ (r1, ctx1) = feed cb (occurrences strv [] 0 t1) ctx /\
    (r1 = 0 -> exists r2 s2 ctx2, acism_more cb psp t2 ctx1 s1 = Ret (r2, s2, ctx2) /\ (r2, ctx2) = feed cb (occurrences strv t1 0 t2) ctx1).
Proof.
  intros Hb1 Hb2 Hf1 Hf2. destruct made_machine as (st & ok & Hm & Hgood). pose proof (md_coding _ _ Hmade) as Hc.
  assert (Hocc : forall d text, Forall byte d -> Forall byte text -> occurrences (encode f strv) (sym_of psp <$> d) 0 (sym_of psp <$> text) = occurrences strv d 0 text).
  { intros d text Hd Ht. assert (Hsym : forall l : list Z, sym_of psp <$> l = f <$> l) by (intros l; apply list_fmap_ext; intros; apply sym_of_uat). rewrite !Hsym. by apply (code_occurrences strv (symv psp) (nsyms psp)). }
  destruct (more_loop_spec psp (encode f strv) st ok cb t1 [] 0 [] ctx (Hgood t1 Hb1 Hf1)) as (r1 & s1 & ctx1 & E1 & F1 & N1).
  { split; [by left|]. split; [done|]. intros v _ Hv. by apply suffix_nil_inv in Hv as ->. }
  rewrite (m_root (machine := Hm)) in E1. exists r1, s1, ctx1. split; [exact E1|]. pose proof (Hocc [] t1 ltac:(done) Hb1) as Ho1. cbn [fmap list_fmap] in Ho1. rewrite Ho1 in F1. split; [exact F1|].
  intros H0. destruct (N1 H0) as (v & -> & Hv). cbn [app] in Hv.
  destruct (more_loop_spec psp (encode f strv) st ok cb t2 (sym_of psp <$> t1) 0 v ctx1 (Hgood t2 Hb2 Hf2) Hv) as (r2 & s2 & ctx2 & E2 & F2 & _). exists r2, s2, ctx2. split; [exact E2|]. by rewrite Hocc in F2.
Qed.
End scan.

(** ** Deciding the condition on the strings *)

Definition tree_b (ws : list (list Z)) (u : list Z) : bool := bool_decide (u = []) || existsb (fun w => bool_decide (u `prefix_of` w)) ws.
Definition inner_b (ws : list (list Z)) (u : list Z) : bool := bool_decide (u = []) || existsb (fun w => bool_decide (u `prefix_of` w) && (length u <? length w)%nat) ws.

(** The longest proper suffix in the tree. *)
Fixpoint first_tail (ws : list (list Z)) (u : list Z) : list Z := match u with [] => [] | _ :: u => if tree_b ws u then u else first_tail ws u end.

Definition inner_check (ws : list (list Z)) : bool := forallb (fun w => forallb (fun k => inner_b ws (first_tail ws (take k w))) (seq 1 (length w - 1))) ws.

Lemma tree_b_spec ws u : tree_b ws u = true <-> in_tree ws u.
Proof.
  unfold tree_b, in_tree. rewrite orb_true_iff, bool_decide_eq_true, existsb_exists. split; (intros [?|(w & H1 & H2)]; [by left|right; exists w]).
  - by rewrite bool_decide_eq_true, <-list_elem_of_In in *.
  - by rewrite bool_decide_eq_true, <-list_elem_of_In in *.
Qed.

Lemma inner_b_spec ws u : inner_b ws u = true -> inner ws u.
Proof.
  unfold inner_b. rewrite orb_true_iff, bool_decide_eq_true, existsb_exists. intros [->|(w & H1 & [H2 H3]%andb_true_iff)]; [by left|]. apply bool_decide_eq_true in H2 as [k ->]. apply Nat.ltb_lt in H3.
  rewrite length_app in H3. destruct k as [|c k]; [cbn in H3; lia|]. right. exists c. right. exists (u ++ c :: k). split; [by apply list_elem_of_In|]. exists k. by rewrite <-app_assoc.
Qed.

Lemma first_tail_spec ws u : u <> [] -> longest (in_tree ws) u (first_tail ws u).
Proof.
  induction u as [|a u IH]; intros Hne; [done|]. cbn [first_tail].
  assert (Hsuf : forall w, proper_suffix w (a :: u) -> w `suffix_of` u).
  { intros w [[k Ek] Hw]. destruct k as [|b k]; [by rewrite Ek in Hw|]. injection Ek as -> ->. by exists k. }
  assert (Hup : forall w, w `suffix_of` u -> proper_suffix w (a :: u)).
  { intros w [k ->]. split; [by exists (a :: k)|]. intros E. apply (f_equal length) in E. cbn in E. rewrite length_app in E. lia. }
  destruct (tree_b ws u) eqn:Et.
  - split; [by apply tree_b_spec|]. split; [by apply Hup|]. intros w _ Hw%Hsuf. by apply suffix_length.
  - assert (Hu : u <> []) by (intros ->; done). destruct (IH Hu) as (H1 & [H2 _] & H3). split; [done|]. split; [by apply Hup|]. intros w Hw Hws%Hsuf. apply H3; [done|]. split; [done|].
    intros ->. apply tree_b_spec in Hw. congruence.
Qed.

Lemma inner_check_spec ws : inner_check ws = true -> inner_suffixes ws.
Proof.
  intros Hc u v [->|(c & [Hn|(w & Hw & Hp)])] Hne Hl; [done|by destruct u|]. unfold inner_check in Hc. rewrite forallb_forall in Hc. specialize (Hc w ltac:(by apply list_elem_of_In)).
  rewrite forallb_forall in Hc. destruct Hp as [k ->]. rewrite <-app_assoc in Hc. specialize (Hc (length u)). rewrite take_app_length in Hc.
  assert (Hin : In (length u) (seq 1 (length (u ++ [c] ++ k) - 1))) by (apply in_seq; rewrite length_app; cbn; destruct u; [done|cbn; lia]). specialize (Hc Hin). apply inner_b_spec in Hc.
  destruct (first_tail_spec ws u Hne) as (F1 & F2 & F3). destruct Hl as (L1 & L2 & L3). assert (v = first_tail ws u) as ->; [|done].
  apply (suffix_same v (first_tail ws u) u); [apply L2|apply F2|]. apply Nat.le_antisymm; [by apply F3|by apply L3].
Qed.

(** ** A function that sorts *)

Fixpoint insert_sym (x : FRANK) (l : list FRANK) : list FRANK := match l with [] => [x] | y :: l' => if freq y <? freq x then y :: insert_sym x l' else x :: l end.
Definition isort (l : list FRANK) : list FRANK := foldr insert_sym [] l.

Lemma insert_sym_perm x l : insert_sym x l ≡ₚ x :: l.
Proof. induction l as [|y l IH]; cbn; [done|]. destruct (_ <? _); [|done]. rewrite IH. apply Permutation_swap. Qed.

Lemma isort_sorts : sorts frcmp isort.
Proof.
  intros l. induction l as [|x l [IHp IHs]]; [split; [done|constructor]|]. cbn [isort foldr]. fold (isort l). split; [by rewrite insert_sym_perm, IHp|]. clear IHp.
  induction IHs as [|y k Hs IH Hy]; cbn [insert_sym]; [by repeat constructor|]. destruct (Z.ltb_spec (freq y) (freq x)).
  - constructor; [done|]. rewrite insert_sym_perm. constructor; [unfold frcmp; lia|done].
  - constructor; [by constructor|]. constructor; [unfold frcmp; lia|]. eapply Forall_impl; [exact Hy|]. unfold frcmp. intros z Hz. cbn in Hz. lia.
Qed.

(** ** Theorems *)

(** C17. [acism_create] returns for every list of strings of less than eight million bytes, by any
    [qsort]: no access outside an array, no loop without end; where it does not give up,
    every byte that occurs has a symbol of its own and the fields of a transition fit in 30
    bits. *)
Theorem acism_create_returns qsort strv : sorts frcmp qsort -> Forall (Forall byte) strv -> small strv ->
  exists r, acism_create qsort strv = Ret r /\ forall psp, r = Some psp ->
    coding strv (symv psp) (nsyms psp) /\ nsyms psp <= 2 ^ sym_bits psp /\ 0 < tran_size psp <= Z.of_nat (length (table psp)) /\ tran_size psp + Z.of_nat (length strv) - 1 < 2 ^ (30 - sym_bits psp).
Proof.
  intros Hq Hb Hs. destruct (acism_create_made qsort Hq strv Hb Hs) as (r & E & Hr). exists r. split; [done|]. intros psp ->.
  destruct Hr as [Hc _ (t0 & tb & t & path & tab & _ & _ & _ & _ & _ & _ & _ & Hpk & _ & Hnb & Hfit & _ & Hfin)]. pose proof (pk_size _ _ _ _ _ _ Hpk). pose proof (fn_len _ _ _ _ _ _ _ Hfin).
  split; [done|]. split; [done|]. split; [lia|done].
Qed.

(** C16. [inner_suffixes]: where the beginning of a string goes on, its longest proper suffix that
    begins a string goes on too. For such strings [acism_scan] calls the callback for exactly
    the occurrences of the strings, in order, up to the first result that is not 0, in every
    text whose symbols lead from no state to a place outside the table. *)
Theorem acism_scan_correct {C} (cb : Z -> Z -> C -> Z * C) qsort strv psp text ctx : sorts frcmp qsort -> Forall (Forall byte) strv -> small strv -> inner_suffixes strv ->
  acism_create qsort strv = Ret (Some psp) -> Forall byte text -> fits psp text = true ->
  acism_scan cb psp text ctx = Ret (feed cb (occurrences strv [] 0 text) ctx).
Proof.
  intros Hq Hb Hs Hsuf Hcr Ht Hf. destruct (acism_create_made qsort Hq strv Hb Hs) as (r & E & Hr). rewrite Hcr in E. injection E as <-.
  destruct (scan_blocks strv psp Hb Hs Hr Hsuf cb text [] ctx Ht ltac:(done) Hf eq_refl) as (r1 & s1 & ctx1 & E1 & F1 & _). unfold acism_scan. rewrite E1. bind. by rewrite F1.
Qed.

(** C18. A text that comes in two calls of [acism_more], the second with the state of the first,
    is searched like one text: occurrences that begin in the first block are found in the
    second, with positions counted from its beginning. *)
Theorem acism_more_blocks {C} (cb : Z -> Z -> C -> Z * C) qsort strv psp t1 t2 ctx : sorts frcmp qsort -> Forall (Forall byte) strv -> small strv -> inner_suffixes strv ->
  acism_create qsort strv = Ret (Some psp) -> Forall byte (t1 ++ t2) -> fits psp (t1 ++ t2) = true ->
  exists r1 s1 ctx1, acism_more cb psp t1 ctx 0 = Ret (r1, s1, ctx1) /\ (r1, ctx1) = feed cb (occurrences strv [] 0 t1) ctx /\
    (r1 = 0 -> exists r2 s2 ctx2, acism_more cb psp t2 ctx1 s1 = Ret (r2, s2, ctx2) /\ (r2, ctx2) = feed cb (occurrences strv t1 0 t2) ctx1).
Proof.
  intros Hq Hb Hs Hsuf Hcr [Ht1 Ht2]%Forall_app Hf. destruct (acism_create_made qsort Hq strv Hb Hs) as (r & E & Hr). rewrite Hcr in E. injection E as <-.
  unfold fits in Hf. rewrite forallb_app in Hf. apply andb_true_iff in Hf as [Hf1 Hf2]. by apply (scan_blocks strv).
Qed.

(** ** Witnesses and counterexamples *)

Definition the (r : res (option ACISM)) : ACISM := match r with Ret (Some p) => p | _ => mkACISM [] 0 0 0 0 0 0 0 0 0 [] end.

(** A callback that writes down the matches. *)
Definition log (i pos : Z) (l : list (Z * Z)) : Z * list (Z * Z) := (0, l ++ [(i, pos)]).

(** "he", "she", "his", "hers". *)
Definition hers : list (list Z) := [[104; 101]; [115; 104; 101]; [104; 105; 115]; [104; 101; 114; 115]].
Definition hers_psp : ACISM := Eval vm_compute in the (acism_create isort hers).

Lemma hers_bytes : Forall (Forall byte) hers.
Proof. repeat constructor; unfold byte; lia. Qed.

Lemma hers_small : small hers.
Proof. by split. Qed.

Lemma hers_suffixes : inner_suffixes hers.
Proof. by apply inner_check_spec. Qed.

Lemma acism_create_returns_witness : exists r, acism_create isort hers = Ret r /\ forall psp, r = Some psp ->
    coding hers (symv psp) (nsyms psp) /\ nsyms psp <= 2 ^ sym_bits psp /\ 0 < tran_size psp <= Z.of_nat (length (table psp)) /\ tran_size psp + Z.of_nat (length hers) - 1 < 2 ^ (30 - sym_bits psp).
Proof. apply acism_create_returns; [apply isort_sorts|apply hers_bytes|apply hers_small]. Defined.

(** "ushe": "she" and "he" end at 4. *)
Lemma acism_scan_correct_witness : acism_scan log hers_psp [117; 115; 104; 101] [] = Ret (0, [(1, 4); (0, 4)]).
Proof.
  rewrite (acism_scan_correct log isort hers hers_psp [117; 115; 104; 101] []); [by vm_compute|apply isort_sorts|apply hers_bytes|apply hers_small|apply hers_suffixes|by vm_compute|repeat constructor; unfold byte; lia|by vm_compute].
Defined.

(** "us" and "he". *)
Lemma acism_more_blocks_witness : exists s, acism_more log hers_psp [117; 115] [] 0 = Ret (0, s, []) /\ exists s', acism_more log hers_psp [104; 101] [] s = Ret (0, s', [(1, 2); (0, 2)]).
Proof.
  destruct (acism_more_blocks log isort hers hers_psp [117; 115] [104; 101] []) as (r1 & s1 & ctx1 & E1 & F1 & N1); [apply isort_sorts|apply hers_bytes|apply hers_small|apply hers_suffixes|by vm_compute| |by vm_compute|].
  { repeat constructor; unfold byte; lia. }
  vm_compute in F1. injection F1 as -> ->. exists s1. split; [done|]. destruct (N1 eq_refl) as (r2 & s2 & ctx2 & E2 & F2). vm_compute in F2. injection F2 as -> ->. by exists s2.
Defined.

(** "abca", "bc", "cb". *)
Definition missing : list (list Z) := [[97; 98; 99; 97]; [98; 99]; [99; 98]].

(** "axbcdz", "xbc", "bca", "bda". *)
Definition spurious : list (list Z) := [[97; 120; 98; 99; 100; 122]; [120; 98; 99]; [98; 99; 97]; [98; 100; 97]].

(** Other strings, within the table: a back link may lead to a leaf, which has no state of its
    own, so that "cb" is not found in "abcb"; and the search for a back link goes on from a
    leaf to a node that is no suffix of it, so that "bda" is reported in "axbcda". *)
Theorem acism_wrong_matches :
  (exists psp, acism_create isort missing = Ret (Some psp) /\ fits psp [97; 98; 99; 98] = true /\ acism_scan log psp [97; 98; 99; 98] [] = Ret (0, [(1, 3)]) /\
    occurrences missing [] 0 [97; 98; 99; 98] = [(1, 3); (2, 4)]) /\
  (exists psp, acism_create isort spurious = Ret (Some psp) /\ fits psp [97; 120; 98; 99; 100; 97] = true /\ acism_scan log psp [97; 120; 98; 99; 100; 97] [] = Ret (0, [(1, 4); (3, 6)]) /\
    occurrences spurious [] 0 [97; 120; 98; 99; 100; 97] = [(1, 4)]).
Proof.
  split; [exists (the (acism_create isort missing))|exists (the (acism_create isort spurious))]; by vm_compute.
Qed.

(** "ab" in "aa": from the state after "a" the transition by "a" is looked up behind the last
    word of the block. *)
Theorem acism_out_of_bounds : exists psp, acism_create isort [[97; 98]] = Ret (Some psp) /\ Z.of_nat (length (table psp)) = tran_size psp /\ acism_scan log psp [97; 97] [] = UB.
Proof. exists (the (acism_create isort [[97; 98]])). by vm_compute. Qed.
