(* ===== verification/AcismFile.v ===== *)
(** acism_file.c: a machine written to a file and read back, and what happens to a file that
    is not one. *)
From S2P Require Import Prelude Arrays Bytes Acism AcismThm.

(** ** Numbers in a file *)

Definition to_bytes (k : nat) (l : list Z) : list Z := concat (le_bytes k <$> l).

Fixpoint from_bytes (k n : nat) (b : list Z) : list Z := match n with O => [] | S n => le (take k b) :: from_bytes k n (drop k b) end.

Lemma to_bytes_length k l : length (to_bytes k l) = (k * length l)%nat.
Proof. unfold to_bytes. induction l as [|x l IH]; cbn; [lia|]. rewrite length_app, le_bytes_length. unfold to_bytes in IH. rewrite IH. lia. Qed.

Lemma from_to_bytes k l rest : Forall (fun x => 0 <= x < 256 ^ Z.of_nat k) l -> from_bytes k (length l) (to_bytes k l ++ rest) = l.
Proof.
  induction 1 as [|x l Hx Hl IH]; [done|]. unfold to_bytes. cbn [fmap list_fmap concat length from_bytes]. rewrite <-app_assoc, take_app_length', drop_app_length' by by rewrite le_bytes_length.
  f_equal; [|exact IH]. by rewrite le_le_bytes, Z.mod_small.
Qed.

(** ** acism_file.c *)

(** "ACMischa", written over the two pointers' first eight bytes. *)
Definition magic : list Z := [65; 67; 77; 105; 115; 99; 104; 97].
Definition IS_MMAP : Z := 1.

(** [sizeof(ACISM)]: two pointers, ten numbers, 256 symbols. *)
Definition sizeof_ACISM : nat := 568.

(** The numbers of a struct after [flags], in their order. *)
Definition numbers (psp : ACISM) : list Z := [sym_mask psp; sym_bits psp; hash_mod psp; hash_size psp; tran_size psp; nsyms psp; nchars psp; nstrs psp; maxlen psp].

(** What [acism_save] writes; [hashv] are the bytes of that pointer, and [flags] is a field
    that only acism_mmap sets. *)
Definition acism_save (hashv : list Z) (flags : Z) (psp : ACISM) : res (list Z) :=
  block ← slice (table psp) 0 (tran_size psp + 2 * hash_size psp);
  Ret (magic ++ hashv ++ to_bytes 4 (Z.land flags (u32 (Z.lnot IS_MMAP)) :: numbers psp) ++ to_bytes 2 (symv psp) ++ to_bytes 4 block).

(** [acism_destroy] when [tranv] is what these bytes say: only a null pointer may be freed. *)
Definition destroy_junk (tranv : list Z) : res unit := if forallb (Z.eqb 0) tranv then Ret tt else UB.

(** [acism_load]: a struct that is cut short keeps the zeros of [calloc] where nothing was
    read; [None] is the null pointer. *)
Definition acism_load (file : list Z) : res (option ACISM) :=
  let head := take sizeof_ACISM (file ++ replicate sizeof_ACISM 0) in
  if (length file <? sizeof_ACISM)%nat || negb (bool_decide (take 8 head = magic)) then _ ← destroy_junk (take 8 head); Ret None else
  let rest := drop sizeof_ACISM file in
  match from_bytes 4 10 (drop 16 head) with
  | [_; mask; bits; hmod; hsize; tsize; ns; nc; n; ml] =>
      let size := Z.to_nat (tsize + 2 * hsize) in
      if (size =? 0)%nat || (length rest <? 4 * size)%nat then Ret None else
      Ret (Some (mkACISM (from_bytes 4 size rest) mask bits hmod hsize tsize ns nc n ml (from_bytes 2 256 (drop 56 head))))
  | _ => UB
  end.

(** ** Theorems *)

(** A machine as [acism_create] leaves it: numbers of 32 bits, 256 symbols of 16, and a block
    of the size that the sizes say. *)
Record well_formed (psp : ACISM) : Prop := WellFormed {
  wf_numbers : Forall (fun x => 0 <= x < 2 ^ 32) (numbers psp);
  wf_table : Forall (fun x => 0 <= x < 2 ^ 32) (table psp);
  wf_symv : Forall (fun x => 0 <= x < 2 ^ 16) (symv psp) /\ length (symv psp) = 256%nat;
  wf_size : 0 < tran_size psp /\ 0 <= hash_size psp /\ Z.of_nat (length (table psp)) = tran_size psp + 2 * hash_size psp
}.

(** A machine that was saved is loaded again, whatever the pointer and the flags were. *)
Theorem acism_load_save hashv flags psp : well_formed psp -> length hashv = 8%nat -> 0 <= flags < 2 ^ 32 ->
  exists file, acism_save hashv flags psp = Ret file /\ acism_load file = Ret (Some psp).
Proof.
  intros [Hn Ht [Hs Hl] (Hp & Hh0 & Hsize)] Hh Hf. unfold acism_save. rewrite slice_full by done. bind. eexists. split; [reflexivity|].
  set (fl := Z.land flags (u32 (Z.lnot IS_MMAP))). set (a := to_bytes 4 (fl :: numbers psp)). set (b := to_bytes 2 (symv psp)). set (c := to_bytes 4 (table psp)).
  assert (Hfl : 0 <= fl < 2 ^ 32).
  { assert (Em : fl = fl mod 2 ^ 32) by (rewrite <-Z.land_ones by lia; unfold fl; by rewrite <-Z.land_assoc). rewrite Em. apply Z.mod_pos_bound. lia. }
  assert (Ha : length a = 40%nat) by (unfold a; by rewrite to_bytes_length). assert (Hb : length b = 512%nat) by (unfold b; rewrite to_bytes_length, Hl; done).
  assert (Hc : length c = (4 * length (table psp))%nat) by (unfold c; by rewrite to_bytes_length).
  set (h := magic ++ hashv ++ a ++ b). assert (Hhl : length h = 568%nat) by (unfold h; rewrite !length_app, Hh, Ha, Hb; done).
  assert (Ef : magic ++ hashv ++ a ++ b ++ c = h ++ c) by (unfold h; by rewrite <-!app_assoc). rewrite Ef. unfold acism_load, sizeof_ACISM.
  rewrite <-app_assoc, take_app_length' by done. rewrite drop_app_length' by done. rewrite (proj2 (Nat.ltb_ge _ _)) by (rewrite length_app; lia). cbn [orb].
  assert (H8 : take 8 h = magic) by done. rewrite H8, bool_decide_true by done. cbn [negb].
  assert (H16 : drop 16 h = a ++ b). { unfold h. rewrite app_assoc. apply drop_app_length'. rewrite length_app, Hh. done. } rewrite H16.
  assert (H56 : drop 56 h = b). { unfold h. rewrite app_assoc, app_assoc. apply drop_app_length'. rewrite !length_app, Hh, Ha. done. } rewrite H56.
  assert (E1 : from_bytes 4 10 (a ++ b) = fl :: numbers psp) by (apply (from_to_bytes 4 (fl :: numbers psp)); by constructor). rewrite E1. unfold numbers. clear E1.
  assert (Hsz : Z.to_nat (tran_size psp + 2 * hash_size psp) = length (table psp)) by lia. rewrite Hsz, Hc.
  rewrite (proj2 (Nat.eqb_neq _ _)), (proj2 (Nat.ltb_ge _ _)) by lia. cbn [orb]. f_equal. f_equal.
  pose proof (from_to_bytes 4 (table psp) []) as E2. rewrite app_nil_r in E2. fold c in E2. rewrite E2 by done.
  pose proof (from_to_bytes 2 (symv psp) []) as E3. rewrite app_nil_r, Hl in E3. fold b in E3. rewrite E3 by done. by destruct psp.
Qed.

(** A file that does not begin with the magic makes [acism_load] free what it took for a
    pointer, the first bytes of the file. *)
Theorem acism_load_frees_junk file : take 8 file <> magic -> (exists b, b ∈ take 8 file /\ b <> 0) -> acism_load file = UB.
Proof.
  intros Hm (b & Hb & Hb0). unfold acism_load. set (head := take sizeof_ACISM (file ++ replicate sizeof_ACISM 0)).
  assert (H8 : take 8 head = take 8 file ++ replicate (8 - length file) 0).
  { unfold head, sizeof_ACISM. rewrite take_take, take_app. f_equal. rewrite take_replicate. f_equal. lia. }
  assert (Hj : destroy_junk (take 8 head) = UB).
  { unfold destroy_junk. rewrite H8. destruct (forallb _ _) eqn:E; [|done]. exfalso. rewrite forallb_forall in E. specialize (E b). apply Hb0. symmetry. apply Z.eqb_eq, E.
    apply list_elem_of_In, elem_of_app. by left. }
  rewrite Hj. destruct (length file <? sizeof_ACISM)%nat eqn:El; [done|]. apply Nat.ltb_ge in El. rewrite bool_decide_false; [done|]. unfold sizeof_ACISM in El.
  rewrite H8. replace (8 - length file)%nat with 0%nat by lia. by rewrite app_nil_r.
Qed.

Lemma forallb_range m l : forallb (fun x => (0 <=? x) && (x <? m)) l = true -> Forall (fun x => 0 <= x < m) l.
Proof. rewrite forallb_forall, Forall_forall. intros H x Hx. apply list_elem_of_In in Hx. specialize (H x Hx). bool_to_prop. lia. Qed.

Lemma hers_well_formed : well_formed hers_psp.
Proof. split; [by apply forallb_range|by apply forallb_range|split; [by apply forallb_range|done]|done]. Qed.

Lemma acism_load_save_witness : exists file, acism_save [1; 2; 3; 4; 5; 6; 7; 8] 1 hers_psp = Ret file /\ acism_load file = Ret (Some hers_psp).
Proof. apply acism_load_save; [apply hers_well_formed|done|lia]. Defined.

Lemma acism_load_frees_junk_witness : acism_load [80; 75; 3; 4] = UB.
Proof. apply acism_load_frees_junk; [done|]. exists 80. split; [by left|done]. Defined.
