(* ===== verification/Nn.v ===== *)
(** Component: the neural network of src/neural-c: data_load.c, which reads the images and
    their labels, nn.c, whose layers are fed forward and trained by back-propagation, and
    main.c.  Files are the bytes that are left to read. *)
From S2P Require Import Prelude Arrays Bytes.

(** ** Numbers

    What the program uses of [double] and libm.  [dlit n d] is the literal n / d, [dofZ] the
    conversion of an integer. *)
Class Dbl (F : Type) := {
  dlit : Z -> Z -> F; dofZ : Z -> F; dadd : F -> F -> F; dsub : F -> F -> F; dmul : F -> F -> F; ddiv : F -> F -> F;
  dneg : F -> F; tanh : F -> F; cosh : F -> F; dgt : F -> F -> bool
}.

Definition IMAGE_SIZE : nat := 784.
Definition OUTPUT_SIZE : nat := 10.
Definition HIDDEN_LAYER_SIZE : nat := 128.
Definition TRAINING_EPOCHS : nat := 5.

(** ** Data *)

(** A field that has not been written since [malloc] is [None]. *)
Record node_t (F : Type) := mkNode { bias : F; output : option F; real_output : option F; back_prop_value : option F; weights : list F }.
Arguments mkNode {F}.
Arguments bias {F}.
Arguments output {F}.
Arguments real_output {F}.
Arguments back_prop_value {F}.
Arguments weights {F}.

(** [nodes_number] is the length. *)
Abbreviation layer_t F := (list (node_t F)).

Record network_t (F : Type) := mkNetwork { input_layer : layer_t F; hidden_layer : layer_t F; output_layer : layer_t F }.
Arguments mkNetwork {F}.
Arguments input_layer {F}.
Arguments hidden_layer {F}.
Arguments output_layer {F}.

Record image_file_header_t := mkImageHeader { magic_num : Z; max_images : Z; img_width : Z; img_height : Z }.

(** The bytes of the four files of config.h; [None] for a file that cannot be opened. *)
Record disk := mkDisk { train_images : option (list Z); train_labels : option (list Z); test_images : option (list Z); test_labels : option (list Z) }.

(** What is printed. *)
Inductive event (F : Type) :=
| FileErr | ReadErr | NotFound
| Epoch (i : Z) | Accuracy (percent : F)
| Cells (row : list (option Z)) | LabelIs (lbl : Z).
Arguments FileErr {F}.
Arguments ReadErr {F}.
Arguments NotFound {F}.
Arguments Epoch {F}.
Arguments Accuracy {F}.
Arguments Cells {F}.
Arguments LabelIs {F}.

(** ** Programs

    They print, may end in [exit], and count the calls of [rand]. *)
Record world (F : Type) := World { rands : nat; printed : list (event F) }.
Arguments World {F}.
Arguments rands {F}.
Arguments printed {F}.

Inductive outcome (F A : Type) := Done (a : A) (w : world F) | Exit (code : Z) (w : world F).
Arguments Done {F A}.
Arguments Exit {F A}.

Definition prog (F A : Type) : Type := world F -> res (outcome F A).

#[export] Instance prog_ret F : MRet (prog F) := fun A a w => Ret (Done a w).
#[export] Instance prog_bind F : MBind (prog F) := fun A B k c w =>
  o ← c w; match o with Done a w => k a w | Exit n w => Ret (Exit n w) end.

Definition print {F} (e : event F) : prog F unit := fun w => Ret (Done tt (World (rands w) (printed w ++ [e]))).
Definition exit {F A} (code : Z) : prog F A := fun w => Ret (Exit code w).
Definition lift {F A} (c : res A) : prog F A := fun w => a ← c; Ret (Done a w).

(** ** data_load.c *)

Definition filp_bytes (n : Z) : Z :=
  let b0 := u32 (Z.shiftl (Z.land n 0x000000ff) 24) in
  let b1 := u32 (Z.shiftl (Z.land n 0x0000ff00) 8) in
  let b2 := Z.shiftr (Z.land n 0x00ff0000) 8 in
  let b3 := Z.shiftr (Z.land n 0xff000000) 24 in
  Z.lor (Z.lor (Z.lor b0 b1) b2) b3.

(** [fread(p, n, 1, file)] of a whole element; otherwise what is left is consumed. *)
Definition fread (n : nat) (file : list Z) : option (list Z) * list Z :=
  if (n <=? length file)%nat then (Some (take n file), drop n file) else (None, []).

(** [for (i = 0; i < n; i++)] with a body that changes the [i]-th element of an array. *)
Definition for_elems {A} (n : nat) (body : nat -> A -> res A) (l : list A) : res (list A) :=
  for_ 0 n (fun i l => x ← oget (l !! i); x ← body i x; Ret (<[i := x]> l)) l.

Section nn.
Context {F : Type} `{!Dbl F}.

(** [torn] is the value that a [uint32_t] of value 0 has after an [fread] that found only
    these bytes for it, which the C standard leaves open. *)
Context (torn : list Z -> Z).

(** A number of a header, in the order of the bytes of the machine, and whether it was
    there. *)
Definition read_uint32 (file : list Z) : Z * bool * list Z :=
  let '(b, rest) := fread 4 file in
  (match b with Some b => le b | None => match file with [] => 0 | _ => torn file end end, if b is Some _ then true else false, rest).

Definition read_image_file_header (file : list Z) : prog F (image_file_header_t * list Z) :=
  let '(n0, _, file) := read_uint32 file in
  let '(n1, _, file) := read_uint32 file in
  let '(n2, _, file) := read_uint32 file in
  let '(n3, result, file) := read_uint32 file in
  (if result : bool then mret tt else print FileErr);;
  mret (mkImageHeader (filp_bytes n0) (filp_bytes n1) (filp_bytes n2) (filp_bytes n3), file).

(** The fields of the header are local to [open_label_file]. *)
Definition read_label_file_header (file : list Z) : prog F (list Z) :=
  let '(_, _, file) := read_uint32 file in
  let '(_, result, file) := read_uint32 file in
  (if result : bool then mret tt else print FileErr);;
  mret file.

Definition open_image_file (f : option (list Z)) : prog F (image_file_header_t * list Z) :=
  match f with Some file => read_image_file_header file | None => print NotFound;; exit 0 end.

Definition open_label_file (f : option (list Z)) : prog F (list Z) :=
  match f with Some file => read_label_file_header file | None => print NotFound;; exit 0 end.

Definition get_image (img_file : list Z) : prog F (list Z * list Z) :=
  match fread IMAGE_SIZE img_file with
  | (Some img, rest) => mret (img, rest)
  | (None, _) => print ReadErr;; exit 1
  end.

Definition get_label (labelFile : list Z) : prog F (Z * list Z) :=
  match fread 1 labelFile with
  | (Some b, rest) => l ← lift (oget (head b)); mret (l, rest)
  | (None, _) => print ReadErr;; exit 1
  end.

(** ** nn.c: initialisation *)

(** The results of [rand], by call, and [RAND_MAX]. *)
Context (rand : nat -> Z) (RAND_MAX : Z).

(** [rand() / (double)(RAND_MAX)]. *)
Definition draw : prog F F := fun w => Ret (Done (ddiv (dofZ (rand (rands w))) (dofZ RAND_MAX)) (World (S (rands w)) (printed w))).

(** [n] times [body], from index [i] on. *)
Fixpoint collect {A} (i n : nat) (body : nat -> prog F A) : prog F (list A) :=
  match n with O => mret [] | S n => x ← body i; l ← collect (S i) n body; mret (x :: l) end.

Definition node_init (weights_number : nat) : prog F (node_t F) :=
  ws ← collect 0 weights_number (fun w => r ← draw; let x := dmul (dlit 7 10) r in mret (if Nat.odd w then dneg x else x));
  b ← draw;
  mret (mkNode b None None None ws).

Definition layer_init (nodes_number weights_number : nat) : prog F (layer_t F) := collect 0 nodes_number (fun _ => node_init weights_number).

Definition network_init : prog F (network_t F) :=
  i ← layer_init IMAGE_SIZE 0;
  h ← layer_init HIDDEN_LAYER_SIZE IMAGE_SIZE;
  o ← layer_init OUTPUT_SIZE HIDDEN_LAYER_SIZE;
  mret (mkNetwork i h o).

(** ** nn.c: a step *)

(** SIGMOID is not defined. *)
Definition tanh_act (value : F) : F := ddiv (dadd (tanh value) (dlit 1 1)) (dlit 2 1).
Definition tanh_derivative (value : F) : F := ddiv (dlit 1 1) (dmul (dmul (dlit 2 1) (cosh value)) (cosh value)).
Definition act_func : F -> F := tanh_act.
Definition act_derivative : F -> F := tanh_derivative.
Definition LEARNING_RATE : F := dlit 2 10.

Definition feed_forward_node (previous_layer : layer_t F) (node : node_t F) : res (node_t F) :=
  z ← for_ 0 (length previous_layer) (fun w out =>
    p ← oget (previous_layer !! w); o ← oget (output p); wt ← oget (weights node !! w);
    Ret (dadd out (dmul o wt))) (bias node);
  Ret (mkNode (bias node) (Some (act_func z)) (Some z) (back_prop_value node) (weights node)).

Definition feed_forward_layer (previous_layer layer : layer_t F) : res (layer_t F) :=
  for_elems (length layer) (fun _ => feed_forward_node previous_layer) layer.

Definition set_output (x : F) (node : node_t F) : node_t F := mkNode (bias node) (Some x) (real_output node) (back_prop_value node) (weights node).

Definition feed_forward (network : network_t F) (img : list Z) : res (network_t F) :=
  i ← for_elems IMAGE_SIZE (fun i node => p ← aget img i; Ret (set_output (ddiv (dofZ p) (dlit 255 1)) node)) (input_layer network);
  h ← feed_forward_layer i (hidden_layer network);
  o ← feed_forward_layer h (output_layer network);
  Ret (mkNetwork i h o).

Definition node_update (previous_layer : layer_t F) (bpv : F) (node : node_t F) : res (node_t F) :=
  ws ← for_elems (length previous_layer) (fun hn w =>
    p ← oget (previous_layer !! hn); o ← oget (output p);
    Ret (dadd w (dmul (dmul LEARNING_RATE o) bpv))) (weights node);
  Ret (mkNode (dadd (bias node) (dmul LEARNING_RATE bpv)) (output node) (real_output node) (back_prop_value node) ws).

Definition set_back_prop_value (x : F) (node : node_t F) : node_t F := mkNode (bias node) (output node) (real_output node) (Some x) (weights node).

Definition update_output (hidden_layer : layer_t F) (label : Z) (on : nat) (output_node : node_t F) : res (node_t F) :=
  let node_target := if Z.of_nat on =? label then 1 else 0 in
  o ← oget (output output_node);
  ro ← oget (real_output output_node);
  let bpv := dmul (dsub (dofZ node_target) o) (act_derivative ro) in
  node_update hidden_layer bpv (set_back_prop_value bpv output_node).

Definition update_hidden (input_layer output_layer : layer_t F) (hn : nat) (hidden_node : node_t F) : res (node_t F) :=
  sum ← for_ 0 (length output_layer) (fun on s =>
    output_node ← oget (output_layer !! on); b ← oget (back_prop_value output_node); w ← oget (weights output_node !! hn);
    Ret (dadd s (dmul b w))) (dofZ 0);
  ro ← oget (real_output hidden_node);
  node_update input_layer (dmul sum (act_derivative ro)) hidden_node.

Definition back_propagate (network : network_t F) (label : Z) : res (network_t F) :=
  o ← for_elems (length (output_layer network)) (update_output (hidden_layer network) label) (output_layer network);
  h ← for_elems (length (hidden_layer network)) (update_hidden (input_layer network) o) (hidden_layer network);
  Ret (mkNetwork (input_layer network) h o).

Definition get_classification (layer : layer_t F) : res Z :=
  '(_, max_index) ← for_ 0 (length layer) (fun on '(max_output, max_index) =>
    node ← oget (layer !! on); node_output ← oget (output node);
    Ret (if dgt node_output max_output then (node_output, Z.of_nat on) else (max_output, max_index))) (dofZ 0, 0);
  Ret (u8 max_index).

(** ** nn.c: whole files *)

(** [for (int i = 0; i < max; i++)] over the images and labels that two files still hold:
    [max] is unsigned, so that [i] is compared as unsigned.  Each round takes an image of the
    file or ends the program; the fuel is one more than the bytes of the file. *)
Fixpoint for_images {A} (fuel : nat) (i max : Z) (body : Z -> list Z -> Z -> A -> prog F A) (img_file label_file : list Z) (a : A) : prog F A :=
  match fuel with
  | O => lift Fuel
  | S fuel =>
      if u32 i <? max then
        '(img, img_file) ← get_image img_file;
        '(label, label_file) ← get_label label_file;
        a ← body i img label a;
        i ← lift (sint (i + 1));
        for_images fuel i max body img_file label_file a
      else mret a
  end.

Definition all_images {A} (images labels : option (list Z)) (body : Z -> list Z -> Z -> A -> prog F A) (a : A) : prog F (Z * A) :=
  '(hdr, img_file) ← open_image_file images;
  label_file ← open_label_file labels;
  a ← for_images (S (length img_file)) 0 (max_images hdr) body img_file label_file a;
  mret (max_images hdr, a).

Definition train_image (_ : Z) (img : list Z) (label : Z) (network : network_t F) : prog F (network_t F) :=
  network ← lift (feed_forward network img);
  lift (back_propagate network label).

Definition network_train (d : disk) (network : network_t F) : prog F (network_t F) :=
  '(_, network) ← all_images (train_images d) (train_labels d) train_image network;
  mret network.

(** [(double)(max_images - errCount) / max_images * 100]. *)
Definition accuracy (max errCount : Z) : F := dmul (ddiv (dofZ (u32 (max - errCount))) (dofZ max)) (dofZ 100).

Definition test_image (_ : Z) (img : list Z) (lbl : Z) (a : network_t F * Z) : prog F (network_t F * Z) :=
  let '(network, errCount) := a in
  network ← lift (feed_forward network img);
  classification ← lift (get_classification (output_layer network));
  errCount ← lift (if classification =? lbl then Ret errCount else sint (errCount + 1));
  mret (network, errCount).

Definition network_test (d : disk) (network : network_t F) : prog F (network_t F) :=
  '(max, (network, errCount)) ← all_images (test_images d) (test_labels d) test_image (network, 0);
  print (Accuracy (accuracy max errCount));;
  mret network.

(** A row of [img_print]: an empty cell where the pixel is 0. *)
Definition print_row (img : list Z) (i : nat) : prog F unit :=
  cells ← collect 0 28 (fun j => p ← lift (aget img (i * 28 + j)%nat); mret (if p =? 0 then None else Some p));
  print (Cells cells).

Definition img_print (img : list Z) : prog F unit := _ ← collect 0 28 (print_row img); mret tt.

Definition check_image (num i : Z) (img : list Z) (lbl : Z) (_ : unit) : prog F unit :=
  if i =? num then img_print img;; print (LabelIs lbl) else mret tt.

Definition network_check (d : disk) (num : Z) : prog F unit :=
  _ ← all_images (test_images d) (test_labels d) (check_image num) tt;
  mret tt.

(** ** main.c *)

Fixpoint epochs (d : disk) (i n : nat) (network : network_t F) : prog F (network_t F) :=
  match n with
  | O => mret network
  | S n =>
      print (Epoch (Z.of_nat i + 1));;
      network ← network_train d network;
      network ← network_test d network;
      epochs d (S i) n network
  end.

(** [check] is the number given with the option c, or -1. *)
Definition main (d : disk) (check : Z) : prog F Z :=
  if negb (check =? -1) then network_check d check;; mret 0 else
  network ← network_init;
  network ← network_test d network;
  _ ← epochs d 0 TRAINING_EPOCHS network;
  mret 0.
End nn.
