(* ===== verification/NnThm.v ===== *)
(** The neural network of src/neural-c: what its loops compute, as functions of the weights;
    whole runs on well-formed files and on any files; and, in exact arithmetic, the step of
    back_propagate against the gradient of the error. *)
From S2P Require Import Prelude Arrays Bytes Nn.

(** ** Loops *)

Lemma for_foldl {A B} (l : list B) (f : A -> B -> A) body a : (forall i x a, l !! i = Some x -> body i a = Ret (f a x)) -> for_ 0 (length l) body a = Ret (foldl f a l).
Proof.
  intros Hb. destruct (for_inv (fun i b => b = foldl f a (take i l)) 0 (length l) body a) as (b & -> & ->); [done| |by rewrite take_ge by done].
  intros i b Hi ->. destruct (lookup_lt_is_Some_2 l i) as [x E]; [lia|]. eexists. split; [by apply Hb|]. by rewrite (take_S_r _ _ x E), foldl_app.
Qed.

Lemma for_elems_run {A} (l : list A) n body (Q : nat -> A -> A -> Prop) : n = length l -> (forall i x, l !! i = Some x -> exists y, body i x = Ret y /\ Q i x y) ->
  exists l', for_elems n body l = Ret l' /\ length l' = length l /\ forall i x y, l !! i = Some x -> l' !! i = Some y -> Q i x y.
Proof.
  intros -> Hb. unfold for_elems.
  destruct (for_inv (fun i l' => length l' = length l /\ forall k x y, l !! k = Some x -> l' !! k = Some y -> if decide (k < i)%nat then Q k x y else y = x)
    0 (length l) (fun i l => x ← oget (l !! i); x ← body i x; Ret (<[i := x]> l)) l) as (l' & -> & Hl & HQ).
  - split; [done|]. intros k x y E1 E2. rewrite decide_False by lia. congruence.
  - intros i l' Hi [Hl HQ]. destruct (lookup_lt_is_Some_2 l i) as [x E]; [lia|]. destruct (lookup_lt_is_Some_2 l' i) as [y E']; [lia|].
    pose proof (HQ i x y E E') as Hy. rewrite decide_False in Hy by lia. subst y. destruct (Hb i x E) as (y & Ey & Hy).
    rewrite E'. bind. rewrite Ey. bind. eexists. split; [done|]. rewrite length_insert. split; [done|]. intros k x' y' E1 E2.
    rewrite lookup_ins in E2 by lia. case_decide as Hk; [subst k; injection E2 as <-; rewrite decide_True by lia; congruence|].
    specialize (HQ k x' y' E1 E2). repeat case_decide; (done || lia).
  - exists l'. split_and!; [done..|]. intros i x y E1 E2. specialize (HQ i x y E1 E2). rewrite decide_True in HQ by (apply lookup_lt_Some in E1; lia). done.
Qed.

(** ** What the network computes *)

Section spec.
Context {F : Type} `{!Dbl F}.

(** The bias and the weights of a node; those of the hidden layer and of the output. *)
Definition unit_params : Type := F * list F.
Definition params : Type := list unit_params * list unit_params.

Definition layer_params (l : layer_t F) : list unit_params := (fun nd => (bias nd, weights nd)) <$> l.
Definition net_params (net : network_t F) : params := (layer_params (hidden_layer net), layer_params (output_layer net)).

Definition affine (xs : list F) (u : unit_params) : F := foldl (fun a '(x, w) => dadd a (dmul x w)) u.1 (zip xs u.2).

Definition pixel (p : Z) : F := ddiv (dofZ p) (dlit 255 1).
Definition hidden_z (P : params) (img : list Z) : list F := affine (pixel <$> img) <$> P.1.
Definition hidden (P : params) (img : list Z) : list F := act_func <$> hidden_z P img.
Definition output_z (P : params) (img : list Z) : list F := affine (hidden P img) <$> P.2.
Definition outputs (P : params) (img : list Z) : list F := act_func <$> output_z P img.

(** A step: the change of a unit for the value [d] that is propagated to it. *)
Definition target (label : Z) (j : nat) : F := dofZ (if Z.of_nat j =? label then 1 else 0).
Definition delta (label : Z) (j : nat) (z : F) : F := dmul (dsub (target label j) (act_func z)) (act_derivative z).
Definition move (xs : list F) (d : F) (u : unit_params) : unit_params :=
  (dadd u.1 (dmul LEARNING_RATE d), zip_with (fun w x => dadd w (dmul (dmul LEARNING_RATE x) d)) u.2 xs).

Definition deltas (P : params) (img : list Z) (label : Z) : list F := imap (delta label) (output_z P img).
Definition new_outputs (P : params) (img : list Z) (label : Z) : list unit_params := zip_with (move (hidden P img)) (deltas P img label) P.2.
Definition back_sum (ds : list F) (us : list unit_params) (k : nat) : F :=
  foldl (fun s '(d, u) => dadd s (dmul d (default (dofZ 0) (u.2 !! k)))) (dofZ 0) (zip ds us).
Definition new_hidden (P : params) (img : list Z) (label : Z) : list unit_params :=
  imap (fun k '(z, u) => move (pixel <$> img) (dmul (back_sum (deltas P img label) (new_outputs P img label) k) (act_derivative z)) u) (zip (hidden_z P img) P.1).
Definition train_step (P : params) (img : list Z) (label : Z) : params := (new_hidden P img label, new_outputs P img label).

(** The class of an image: the first of the greatest outputs, if they are positive. *)
Definition best (outs : list F) : F * Z :=
  foldl (fun '(m, k) '(i, o) => if dgt o m then (o, Z.of_nat i) else (m, k)) (dofZ 0, 0) (imap pair outs).
Definition classify (P : params) (img : list Z) : Z := u8 (best (outputs P img)).2.

(** ** The loops of nn.c *)

Definition shaped (m n : nat) (us : list unit_params) : Prop := length us = m /\ forall j u, us !! j = Some u -> length u.2 = n.

Record net_ok (net : network_t F) : Prop := NetOk {
  no_input : length (input_layer net) = IMAGE_SIZE;
  no_hidden : shaped HIDDEN_LAYER_SIZE IMAGE_SIZE (layer_params (hidden_layer net));
  no_output : shaped OUTPUT_SIZE HIDDEN_LAYER_SIZE (layer_params (output_layer net))
}.

(** The outputs of a layer are [xs]; its sums are [zs]. *)
Definition emits (l : layer_t F) (xs : list F) : Prop := output <$> l = Some <$> xs.
Definition sums (l : layer_t F) (zs : list F) : Prop := real_output <$> l = Some <$> zs.

Lemma emits_length l xs : emits l xs -> length l = length xs.
Proof. intros H. apply (f_equal length) in H. by rewrite !length_fmap in H. Qed.

Lemma emits_lookup l xs i x : emits l xs -> xs !! i = Some x -> exists p, l !! i = Some p /\ output p = Some x.
Proof.
  intros H E. apply (f_equal (lookup i)) in H. rewrite !list_lookup_fmap, E in H. 
  destruct (l !! i) as [p|]; [|discriminate H]. exists p. split; [done|]. change (Some (output p) = Some (Some x)) in H. congruence.
Qed.

Lemma params_lookup l i nd : l !! i = Some nd -> layer_params l !! i = Some (bias nd, weights nd).
Proof. intros E. unfold layer_params. by rewrite list_lookup_fmap, E. Qed.

Lemma layer_length l m n : shaped m n (layer_params l) -> length l = m.
Proof. intros [<- _]. unfold layer_params. by rewrite length_fmap. Qed.

Lemma node_length l m n i nd : shaped m n (layer_params l) -> l !! i = Some nd -> length (weights nd) = n.
Proof. intros [_ H] E. exact (H i _ (params_lookup l i nd E)). Qed.

Lemma feed_forward_node_run prev xs nd : emits prev xs -> length (weights nd) = length xs ->
  feed_forward_node prev nd = Ret (let z := affine xs (bias nd, weights nd) in mkNode (bias nd) (Some (act_func z)) (Some z) (back_prop_value nd) (weights nd)).
Proof.
  intros He Hl. unfold feed_forward_node. assert (Hz : length prev = length (zip xs (weights nd))) by (rewrite length_zip_with, (emits_length _ _ He); lia).
  rewrite Hz, (for_foldl (zip xs (weights nd)) (fun a '(x, w) => dadd a (dmul x w))); [done|].
  intros i [x w] a E. apply lookup_zip_with_Some in E as (x' & w' & [= <- <-] & Ex & Ew).
  destruct (emits_lookup _ _ _ _ He Ex) as (p & -> & Ho). bind. rewrite Ho. bind. rewrite Ew. done.
Qed.

(** What a forward pass leaves: the parameters as they were, outputs and sums. *)
Record fed (P : params) (img : list Z) (net : network_t F) : Prop := Fed {
  fd_params : net_params net = P;
  fd_input : emits (input_layer net) (pixel <$> img);
  fd_hidden : emits (hidden_layer net) (hidden P img);
  fd_hidden_z : sums (hidden_layer net) (hidden_z P img);
  fd_output : emits (output_layer net) (outputs P img);
  fd_output_z : sums (output_layer net) (output_z P img)
}.

Lemma layer_run prev l xs m : emits prev xs -> shaped m (length xs) (layer_params l) ->
  exists l', feed_forward_layer prev l = Ret l' /\ layer_params l' = layer_params l /\ sums l' (affine xs <$> layer_params l) /\ emits l' (act_func <$> (affine xs <$> layer_params l)).
Proof.
  intros He Hs. unfold feed_forward_layer.
  destruct (for_elems_run l (length l) (fun _ => feed_forward_node prev) (fun _ nd nd' => nd' = let z := affine xs (bias nd, weights nd) in mkNode (bias nd) (Some (act_func z)) (Some z) (back_prop_value nd) (weights nd)))
    as (l' & -> & Hl & HQ); [done| |].
  { intros i nd E. eexists. split; [|done]. apply feed_forward_node_run; [done|by eapply node_length]. }
  exists l'. split; [done|]. unfold sums, emits, layer_params. rewrite <-!list_fmap_compose.
  split_and!; apply list_eq_same_length with (n := length l); rewrite ?length_fmap; try done; intros i x y Hi; rewrite !list_lookup_fmap;
    (destruct (l !! i) as [nd|] eqn:E, (l' !! i) as [nd'|] eqn:E'; [|done..]); rewrite (HQ i nd nd' E E'); cbn; congruence.
Qed.

Lemma feed_forward_run net img : net_ok net -> length img = IMAGE_SIZE -> exists net', feed_forward net img = Ret net' /\ fed (net_params net) img net' /\ net_ok net'.
Proof.
  intros [Hi Hh Ho] Hl. unfold feed_forward.
  destruct (for_elems_run (input_layer net) IMAGE_SIZE (fun i nd => p ← aget img i; Ret (set_output (ddiv (dofZ p) (dlit 255 1)) nd))
    (fun i _ nd' => exists p, img !! i = Some p /\ output nd' = Some (pixel p))) as (il & -> & Hil & HQ); [done| |].
  { intros i nd E. destruct (aget_lt img i) as (p & -> & Ep); [apply lookup_lt_Some in E; lia|]. bind. eexists. split; [done|]. by exists p. }
  assert (Hei : emits il (pixel <$> img)).
  { unfold emits. rewrite <-list_fmap_compose. apply list_eq_same_length with (n := length img); rewrite ?length_fmap; [lia..|].
    intros i x y Hlt. rewrite !list_lookup_fmap. destruct (il !! i) as [nd'|] eqn:E'; [|done]. destruct (lookup_lt_is_Some_2 (input_layer net) i) as [nd E]; [lia|].
    destruct (HQ i nd nd' E E') as (p & -> & Hp). cbn. congruence. }
  bind. destruct (layer_run il (hidden_layer net) (pixel <$> img) HIDDEN_LAYER_SIZE Hei) as (hl & -> & Hhp & Hhs & Hhe); [by rewrite length_fmap, Hl|]. bind.
  destruct (layer_run hl (output_layer net) (hidden (net_params net) img) OUTPUT_SIZE Hhe) as (ol & -> & Hop & Hos & Hoe).
  { unfold hidden, hidden_z. rewrite !length_fmap. unfold net_params. cbn [fst]. by rewrite (proj1 Hh). }
  bind. eexists. split; [done|]. split; split; cbn [input_layer hidden_layer output_layer]; try done; rewrite ?Hhp, ?Hop; try done; [|lia].
  unfold net_params. cbn [hidden_layer output_layer]. by rewrite Hhp, Hop.
Qed.

Lemma classification_run l outs : emits l outs -> get_classification l = Ret (u8 (best outs).2).
Proof.
  intros He. unfold get_classification, best. rewrite (emits_length _ _ He), <-(length_imap pair outs).
  rewrite (for_foldl (imap pair outs) (fun '(m, k) '(i, o) => if dgt o m then (o, Z.of_nat i) else (m, k))).
  - bind. by destruct (foldl _ _ _).
  - intros i [j o] [m k] E. rewrite list_lookup_imap in E. destruct (outs !! i) as [o'|] eqn:Eo; [|done]. cbn in E. injection E as -> ->.
    destruct (emits_lookup _ _ _ _ He Eo) as (nd & -> & Hn). bind. by rewrite Hn.
Qed.

(** The step back. *)
Lemma node_update_run prev xs d nd : emits prev xs -> length (weights nd) = length xs ->
  exists nd', node_update prev d nd = Ret nd' /\ (bias nd', weights nd') = move xs d (bias nd, weights nd) /\ back_prop_value nd' = back_prop_value nd.
Proof.
  intros He Hl. unfold node_update.
  destruct (for_elems_run (weights nd) (length prev) (fun hn w => p ← oget (prev !! hn); o ← oget (output p); Ret (dadd w (dmul (dmul LEARNING_RATE o) d)))
    (fun i w w' => exists x, xs !! i = Some x /\ w' = dadd w (dmul (dmul LEARNING_RATE x) d))) as (ws & -> & Hw & HQ); [by rewrite (emits_length _ _ He)| |].
  { intros i w E. destruct (lookup_lt_is_Some_2 xs i) as [x Ex]; [apply lookup_lt_Some in E; lia|]. destruct (emits_lookup _ _ _ _ He Ex) as (p & -> & Hp).
    bind. rewrite Hp. bind. eexists. split; [done|]. by exists x. }
  bind. eexists. split; [done|]. split; [|done]. unfold move. cbn. f_equal. apply list_eq_same_length with (n := length ws); [cbn in *; rewrite ?length_zip_with; lia..|].
  intros i x y Hi E' Ey. apply lookup_zip_with_Some in Ey as (w & x' & -> & Ew & Ex). destruct (HQ i w x Ew E') as (x'' & Ex' & ->). congruence.
Qed.

Lemma move_length xs d u : length u.2 = length xs -> length (move xs d u).2 = length xs.
Proof. intros H. cbn. rewrite length_zip_with. lia. Qed.

Lemma layer_lookup_inv l i u : layer_params l !! i = Some u -> exists nd, l !! i = Some nd /\ u = (bias nd, weights nd).
Proof. unfold layer_params. rewrite list_lookup_fmap. destruct (l !! i) as [nd|]; intros [= <-]. by exists nd. Qed.

Lemma sums_lookup l zs i nd : sums l zs -> l !! i = Some nd -> exists z, zs !! i = Some z /\ real_output nd = Some z.
Proof.
  intros H E. apply (f_equal (lookup i)) in H. rewrite !list_lookup_fmap, E in H. destruct (zs !! i) as [z|]; [|discriminate H]. exists z. split; [done|].
  change (Some (real_output nd) = Some (Some z)) in H. congruence.
Qed.

(** A node moved by the propagated value [d]. *)
Definition moved (xs : list F) (d : F) (nd nd' : node_t F) : Prop := (bias nd', weights nd') = move xs d (bias nd, weights nd).

Lemma update_output_run hl hs label j nd z : emits hl hs -> length (weights nd) = length hs -> output nd = Some (act_func z) -> real_output nd = Some z ->
  exists nd', update_output hl label j nd = Ret nd' /\ moved hs (delta label j z) nd nd' /\ back_prop_value nd' = Some (delta label j z).
Proof.
  intros He Hl Ho Hz. unfold update_output. rewrite Ho, Hz. bind.
  destruct (node_update_run hl hs (delta label j z) (set_back_prop_value (delta label j z) nd) He Hl) as (nd' & E & Hm & Hb). exists nd'. split; [exact E|]. by split.
Qed.

Lemma outputs_moved P img label ol ol' : sums ol (output_z P img) -> layer_params ol = P.2 -> length ol' = length ol ->
  (forall j nd nd', ol !! j = Some nd -> ol' !! j = Some nd' -> exists z, output_z P img !! j = Some z /\ moved (hidden P img) (delta label j z) nd nd') ->
  layer_params ol' = new_outputs P img label.
Proof.
  intros Hs Hp Hl HQ. apply list_eq_same_length with (n := length ol); [|unfold layer_params; by rewrite length_fmap|].
  - unfold new_outputs, deltas, output_z. rewrite length_zip_with, length_imap, length_fmap, <-Hp. unfold layer_params. rewrite length_fmap. lia.
  - intros j x y Hj (nd' & E' & ->)%layer_lookup_inv Ey. apply lookup_zip_with_Some in Ey as (d & u & -> & Ed & Eu). rewrite <-Hp in Eu. apply layer_lookup_inv in Eu as (nd & E & ->).
    destruct (HQ j nd nd' E E') as (z & Ez & Hm). unfold deltas in Ed. rewrite list_lookup_imap, Ez in Ed. injection Ed as <-. exact Hm.
Qed.

Lemma back_sum_run ol ds us k n : layer_params ol = us -> length ds = length us -> shaped (length us) n us -> (k < n)%nat -> back_prop_value <$> ol = Some <$> ds ->
  for_ 0 (length ol) (fun on s => output_node ← oget (ol !! on); b ← oget (back_prop_value output_node); w ← oget (weights output_node !! k); Ret (dadd s (dmul b w))) (dofZ 0)
  = Ret (back_sum ds us k).
Proof.
  intros Hp Hl [_ Hs] Hk Hb. unfold back_sum. assert (Hlo : length ol = length (zip ds us)).
  { rewrite length_zip_with, <-Hl. rewrite <-Hp in Hl. unfold layer_params in Hl. rewrite length_fmap in Hl. lia. }
  rewrite Hlo. apply for_foldl. intros j [d u] a E. apply lookup_zip_with_Some in E as (d' & u' & [= <- <-] & Ed & Eu).
  pose proof (Hs j u Eu) as Hu. rewrite <-Hp in Eu. apply layer_lookup_inv in Eu as (nd & En & ->). rewrite En. bind.
  apply (f_equal (lookup j)) in Hb. rewrite !list_lookup_fmap, En, Ed in Hb. change (Some (back_prop_value nd) = Some (Some d)) in Hb. injection Hb as ->. bind.
  cbn [snd] in *. destruct (lookup_lt_is_Some_2 (weights nd) k) as [w ->]; [lia|]. done.
Qed.

Lemma new_outputs_shaped P img label n : shaped OUTPUT_SIZE n P.2 -> length P.1 = n -> shaped OUTPUT_SIZE n (new_outputs P img label).
Proof.
  intros [Hl Hs] Hn. unfold new_outputs, deltas, output_z. split; [rewrite length_zip_with, length_imap, length_fmap; lia|].
  intros j u Eu. apply lookup_zip_with_Some in Eu as (d & v & -> & Ed & Ev). assert (Hx : length (hidden P img) = n) by (unfold hidden, hidden_z; by rewrite !length_fmap).
  rewrite move_length; [done|]. rewrite Hx. by apply (Hs j).
Qed.

Section step.
Context (net : network_t F) (img : list Z) (label : Z) (Hok : net_ok net) (Hlen : length img = IMAGE_SIZE) (Hfed : fed (net_params net) img net).
Abbreviation P := (net_params net).

Lemma hidden_length : length (hidden P img) = HIDDEN_LAYER_SIZE.
Proof. unfold hidden, hidden_z. rewrite !length_fmap. apply Hok. Qed.

Lemma output_stage : exists ol, for_elems (length (output_layer net)) (update_output (hidden_layer net) label) (output_layer net) = Ret ol /\
  layer_params ol = new_outputs P img label /\ back_prop_value <$> ol = Some <$> deltas P img label /\ length (deltas P img label) = length (layer_params ol).
Proof.
  destruct (for_elems_run (output_layer net) (length (output_layer net)) (update_output (hidden_layer net) label)
    (fun j nd nd' => exists z, output_z P img !! j = Some z /\ moved (hidden P img) (delta label j z) nd nd' /\ back_prop_value nd' = Some (delta label j z)))
    as (ol & E & Hlo & HQ); [done| |].
  { intros j nd E. destruct (sums_lookup _ _ _ _ (fd_output_z _ _ _ Hfed) E) as (z & Ez & Hz).
    assert (Eo : outputs P img !! j = Some (act_func z)) by (unfold outputs; by rewrite list_lookup_fmap, Ez).
    destruct (emits_lookup _ _ _ _ (fd_output _ _ _ Hfed) Eo) as (nd2 & E2 & Hnd). assert (nd2 = nd) as -> by congruence.
    destruct (update_output_run (hidden_layer net) (hidden P img) label j nd z (fd_hidden _ _ _ Hfed)) as (nd' & E1 & Hm & Hb); [|done..|].
    - rewrite hidden_length. by eapply node_length; [apply Hok|].
    - exists nd'. split; [done|]. by exists z. }
  assert (Hld : length (deltas P img label) = length ol).
  { unfold deltas, output_z. rewrite length_imap, length_fmap, Hlo. unfold net_params, layer_params. cbn. by rewrite length_fmap. }
  exists ol. split_and!; [done| | |unfold layer_params; by rewrite length_fmap].
  - apply (outputs_moved P img label (output_layer net)); [apply Hfed|done..|]. intros j nd nd' E1 E2. destruct (HQ j nd nd' E1 E2) as (z & Ez & Hm & _). by exists z.
  - apply list_eq_same_length with (n := length ol); rewrite ?length_fmap; [done..|]. intros j x y Hj. rewrite !list_lookup_fmap. destruct (ol !! j) as [nd'|] eqn:E'; [|done].
    destruct (lookup_lt_is_Some_2 (output_layer net) j) as [nd En]; [lia|]. destruct (HQ j nd nd' En E') as (z & Ez & _ & Hb). unfold deltas. rewrite list_lookup_imap, Ez. cbn. congruence.
Qed.

Lemma new_hidden_length k u : new_hidden P img label !! k = Some u -> length u.2 = IMAGE_SIZE.
Proof.
  unfold new_hidden. rewrite list_lookup_imap. destruct (zip _ _ !! k) as [[z v]|] eqn:E; intros [= <-].
  apply lookup_zip_with_Some in E as (z' & v' & [= <- <-] & _ & Ev). rewrite move_length; rewrite length_fmap; [done|]. rewrite Hlen. by apply (proj2 (no_hidden _ Hok) k).
Qed.

Lemma hidden_stage ol : layer_params ol = new_outputs P img label -> back_prop_value <$> ol = Some <$> deltas P img label -> length (deltas P img label) = length (layer_params ol) ->
  exists hl, for_elems (length (hidden_layer net)) (update_hidden (input_layer net) ol) (hidden_layer net) = Ret hl /\ layer_params hl = new_hidden P img label.
Proof.
  intros Hop Hbp Hld. pose proof (new_outputs_shaped P img label HIDDEN_LAYER_SIZE (no_output _ Hok) (proj1 (no_hidden _ Hok))) as [Hl1 Hs1].
  destruct (for_elems_run (hidden_layer net) (length (hidden_layer net)) (update_hidden (input_layer net) ol)
    (fun k nd nd' => exists z, hidden_z P img !! k = Some z /\ moved (pixel <$> img) (dmul (back_sum (deltas P img label) (new_outputs P img label) k) (act_derivative z)) nd nd'))
    as (hl & E & Hlhl & HR); [done| |].
  { intros k nd E. destruct (sums_lookup _ _ _ _ (fd_hidden_z _ _ _ Hfed) E) as (z & Ez & Hz). unfold update_hidden.
    rewrite (back_sum_run ol (deltas P img label) (new_outputs P img label) k HIDDEN_LAYER_SIZE); try done.
    - bind. rewrite Hz. bind. destruct (node_update_run (input_layer net) (pixel <$> img) (dmul (back_sum (deltas P img label) (new_outputs P img label) k) (act_derivative z)) nd (fd_input _ _ _ Hfed)) as (nd' & E1 & Hm & _).
      { rewrite length_fmap, Hlen. by eapply node_length; [apply Hok|]. }
      exists nd'. split; [exact E1|]. by exists z.
    - by rewrite Hld, <-Hop.
    - rewrite <-(layer_length _ _ _ (no_hidden _ Hok)). by eapply lookup_lt_Some. }
  exists hl. split; [done|]. unfold new_hidden. apply list_eq_same_length with (n := length hl); [|unfold layer_params; by rewrite length_fmap|].
  - unfold hidden_z. rewrite length_imap, length_zip_with, length_fmap, Nat.min_id, Hlhl. exact (length_fmap _ _).
  - intros k x y Hk (nd' & E' & ->)%layer_lookup_inv Ey. rewrite list_lookup_imap in Ey. destruct (zip _ _ !! k) as [[z u]|] eqn:Ez; [|done]. injection Ey as <-.
    apply lookup_zip_with_Some in Ez as (z' & u' & [= <- <-] & Ez & Eu). apply layer_lookup_inv in Eu as (nd & En & ->).
    destruct (HR k nd nd' En E') as (z2 & Ez2 & Hm). assert (z2 = z) as -> by congruence. exact Hm.
Qed.

Lemma back_propagate_run : exists net', back_propagate net label = Ret net' /\ net_params net' = train_step P img label /\ net_ok net'.
Proof.
  destruct output_stage as (ol & E1 & Hop & Hbp & Hld). destruct (hidden_stage ol Hop Hbp Hld) as (hl & E2 & Hhp). unfold back_propagate. rewrite E1. bind. rewrite E2. bind.
  eexists. split; [done|]. split; [unfold net_params, train_step; cbn [hidden_layer output_layer]; by rewrite Hhp, Hop|].
  split; cbn [input_layer hidden_layer output_layer]; [apply Hok| |rewrite Hop; apply new_outputs_shaped; apply Hok].
  rewrite Hhp. split; [|intros k u; apply new_hidden_length]. pose proof (proj1 (no_hidden _ Hok)) as Hl. unfold new_hidden, hidden_z.
  rewrite length_imap, length_zip_with, length_fmap, Nat.min_id. exact Hl.
Qed.
End step.

End spec.

(** ** Programs *)

Lemma prog_run {F A B} (c : prog F A) (k : A -> prog F B) w a w' : c w = Ret (Done a w') -> (c ≫= k) w = k a w'.
Proof. intros E. unfold mbind, prog_bind. by rewrite E. Qed.

Lemma lift_run {F A B} (c : res A) (k : A -> prog F B) w a : c = Ret a -> (lift c ≫= k) w = k a w.
Proof. intros ->. done. Qed.

(** A program that returns something in [Q], or exits with 0 or 1. *)
Definition safe {F A} (Q : A -> Prop) (c : prog F A) : Prop :=
  forall w, exists o, c w = Ret o /\ match o with Done a _ => Q a | Exit n _ => n = 0 \/ n = 1 end.

Lemma safe_bind {F A B} (Q : A -> Prop) (R : B -> Prop) (c : prog F A) (k : A -> prog F B) : safe Q c -> (forall a, Q a -> safe R (k a)) -> safe R (c ≫= k).
Proof.
  intros Hc Hk w. destruct (Hc w) as ([a w'|n w'] & E & HQ).
  - destruct (Hk a HQ w') as (o & E' & Ho). exists o. split; [|done]. by rewrite (prog_run _ _ _ _ _ E).
  - exists (Exit n w'). split; [|done]. unfold mbind, prog_bind. by rewrite E.
Qed.

Lemma safe_ret {F A} (Q : A -> Prop) (a : A) : Q a -> safe (F:=F) Q (mret a).
Proof. intros Ha w. by exists (Done a w). Qed.

Lemma safe_lift {F A} (Q : A -> Prop) (c : res A) a : c = Ret a -> Q a -> safe (F:=F) Q (lift c).
Proof. intros -> Ha w. by exists (Done a w). Qed.

Lemma safe_print {F} (e : event F) : safe (fun _ => True) (print e).
Proof. intros w. eexists. by split. Qed.

Lemma safe_fail {F A} (Q : A -> Prop) (e : event F) n : n = 0 \/ n = 1 -> safe Q (print e;; exit n).
Proof. intros Hn w. eexists. by split. Qed.

Lemma safe_collect {F A} (Q : A -> Prop) (body : nat -> prog F A) n : forall i, (forall k, (i <= k < i + n)%nat -> safe Q (body k)) ->
  safe (fun l => length l = n /\ Forall Q l) (collect i n body).
Proof.
  induction n as [|n IH]; intros i Hb; [by apply safe_ret|]. cbn [collect]. apply (safe_bind Q); [apply Hb; lia|]. intros x Hx.
  eapply safe_bind; [apply (IH (S i)); intros k Hk; apply Hb; lia|]. intros l [Hl HQ]. apply safe_ret. split; [cbn; lia|by constructor].
Qed.

(** ** Files *)

Lemma fread_app n b rest : length b = n -> fread n (b ++ rest) = (Some b, rest).
Proof.
  intros <-. unfold fread. rewrite length_app, (proj2 (Nat.leb_le _ _)) by lia. by rewrite take_app_length, drop_app_length.
Qed.

Lemma fread_some n file b rest : fread n file = (Some b, rest) -> length b = n /\ length file = (n + length rest)%nat.
Proof.
  unfold fread. destruct (Nat.leb_spec n (length file)); [|done]. intros [= <- <-]. rewrite length_take, length_drop. lia.
Qed.

Lemma land_piece n k b c a : 0 <= k -> n = a + 2 ^ k * (b + 256 * c) -> 0 <= a < 2 ^ k -> byte b -> Z.land n (Z.shiftl 255 k) = b * 2 ^ k.
Proof.
  intros Hk -> Ha Hb. assert (E : Z.land (a + 2 ^ k * (b + 256 * c)) (Z.shiftl 255 k) = Z.shiftl (Z.land (Z.shiftr (a + 2 ^ k * (b + 256 * c)) k) 255) k).
  { apply Z.bits_inj'. intros i Hi. rewrite Z.land_spec, !Z.shiftl_spec by done. destruct (decide (i < k)) as [H|H].
    - by rewrite !(Z.testbit_neg_r _ (i - k)), andb_false_r by lia.
    - rewrite Z.land_spec, Z.shiftr_spec by lia. by replace (i - k + k) with i by lia. }
  rewrite E, Z.shiftl_mul_pow2, Z.shiftr_div_pow2 by done. f_equal. rewrite (Z.mul_comm (2 ^ k)), Z.div_add, Z.div_small, Z.add_0_l by lia.
  change 255 with (Z.ones 8). rewrite Z.land_ones by lia. change (2 ^ 8) with 256. rewrite (Z.mul_comm 256), Z.mod_add by lia. by apply Z.mod_small.
Qed.

Lemma filp_bytes_le b : length b = 4%nat -> Forall byte b -> filp_bytes (le b) = be b.
Proof.
  destruct b as [|b0 [|b1 [|b2 [|b3 [|]]]]]; intros [=] Hb. repeat apply Forall_cons in Hb as [? Hb]. unfold filp_bytes, byte in *.
  change 0x000000ff with (Z.shiftl 255 0). change 0x0000ff00 with (Z.shiftl 255 8). change 0x00ff0000 with (Z.shiftl 255 16). change 0xff000000 with (Z.shiftl 255 24).
  rewrite (land_piece _ 0 b0 (b1 + 256 * (b2 + 256 * b3)) 0), (land_piece _ 8 b1 (b2 + 256 * b3) b0), (land_piece _ 16 b2 b3 (b0 + 256 * b1)), (land_piece _ 24 b3 0 (b0 + 256 * (b1 + 256 * b2)))
    by (unfold byte; cbn; lia).
  unfold u32. rewrite !Z.shiftl_mul_pow2, !Z.shiftr_div_pow2 by lia. rewrite (Z.mod_small (b0 * 2 ^ 0 * 2 ^ 24)), (Z.mod_small (b1 * 2 ^ 8 * 2 ^ 8)) by lia.
  replace (b2 * 2 ^ 16 / 2 ^ 8) with (b2 * 2 ^ 8) by (change (2 ^ 16) with (2 ^ 8 * 2 ^ 8); rewrite Z.mul_assoc, Z.div_mul by lia; done).
  rewrite (Z.div_mul b3) by lia. replace (b0 * 2 ^ 0 * 2 ^ 24) with (b0 * 2 ^ 24) by lia. rewrite <-(Z.lor_assoc (b0 * 2 ^ 24)), <-(Z.lor_assoc (b0 * 2 ^ 24)).
  replace (b1 * 2 ^ 8 * 2 ^ 8) with (b1 * 2 ^ 16) by lia. rewrite <-(Z.lor_assoc (b1 * 2 ^ 16)), (lor_add b2 b3 8), (lor_add b1 _ 16), (lor_add b0 _ 24) by lia.
  cbn. lia.
Qed.

(** A number of a header. *)
Lemma read_number torn x rest : 0 <= x < 2 ^ 32 -> exists n, read_uint32 torn (be_bytes 4 x ++ rest) = (n, true, rest) /\ filp_bytes n = x.
Proof.
  intros Hx. unfold read_uint32. rewrite fread_app by apply be_bytes_length. eexists. split; [done|].
  rewrite filp_bytes_le; [|apply be_bytes_length|apply be_bytes_byte]. rewrite be_be_bytes. by apply Z.mod_small.
Qed.

(** Two files that hold these images with their labels, and perhaps more behind them. *)
Definition holds (images labels : option (list Z)) (data : list (list Z * Z)) : Prop :=
  exists m width height m' n' more more',
    Forall (fun x => 0 <= x < 2 ^ 32) [m; width; height; m'; n'] /\ Z.of_nat (length data) < 2 ^ 31 - 1 /\ Forall (fun d => length d.1 = IMAGE_SIZE) data /\
    images = Some (be_bytes 4 m ++ be_bytes 4 (Z.of_nat (length data)) ++ be_bytes 4 width ++ be_bytes 4 height ++ concat data.*1 ++ more) /\
    labels = Some (be_bytes 4 m' ++ be_bytes 4 n' ++ data.*2 ++ more').

Section files.
Context {F : Type} `{!Dbl F} (torn : list Z -> Z).

Lemma open_image_run m n width height rest w : Forall (fun x => 0 <= x < 2 ^ 32) [m; n; width; height] ->
  open_image_file (F:=F) torn (Some (be_bytes 4 m ++ be_bytes 4 n ++ be_bytes 4 width ++ be_bytes 4 height ++ rest)) w = Ret (Done (mkImageHeader m n width height, rest) w).
Proof.
  intros H. repeat apply Forall_cons in H as [? H]. unfold open_image_file, read_image_file_header.
  repeat match goal with |- context [read_uint32 torn (be_bytes 4 ?x ++ ?r)] => destruct (read_number torn x r) as (? & -> & ?); [done|] end.
  cbn -[filp_bytes]. unfold mbind, prog_bind, mret, prog_ret. cbn -[filp_bytes]. congruence.
Qed.

Lemma open_label_run m n rest w : Forall (fun x => 0 <= x < 2 ^ 32) [m; n] -> open_label_file (F:=F) torn (Some (be_bytes 4 m ++ be_bytes 4 n ++ rest)) w = Ret (Done rest w).
Proof.
  intros H. repeat apply Forall_cons in H as [? H]. unfold open_label_file, read_label_file_header.
  repeat match goal with |- context [read_uint32 torn (be_bytes 4 ?x ++ ?r)] => destruct (read_number torn x r) as (? & -> & ?); [done|] end. done.
Qed.

(** ** The loop over the images *)

Section loop.
Context {A S : Type} (body : Z -> list Z -> Z -> A -> prog F A) (step : S -> list Z -> Z -> S) (Rel : Z -> S -> A -> Prop).
Context (Hbody : forall i s a img l w, Rel i s a -> 0 <= i < 2 ^ 31 - 1 -> length img = IMAGE_SIZE -> exists a', body i img l a w = Ret (Done a' w) /\ Rel (i + 1) (step s img l) a').

Lemma for_images_run more more' data : forall fuel i s a w, Forall (fun d => length d.1 = IMAGE_SIZE) data -> Rel i s a -> 0 <= i -> i + Z.of_nat (length data) < 2 ^ 31 -> (length data < fuel)%nat ->
  exists a', for_images fuel i (i + Z.of_nat (length data)) body (concat data.*1 ++ more) (data.*2 ++ more') a w = Ret (Done a' w) /\
    Rel (i + Z.of_nat (length data)) (foldl (fun s d => step s d.1 d.2) s data) a'.
Proof.
  induction data as [|[img l] data IH]; intros [|fuel] i s a w Hd HR Hi Hn Hf; cbn [length] in *; try lia; cbn [for_images].
  - unfold u32. rewrite Z.mod_small, (proj2 (Z.ltb_ge _ _)) by lia. exists a. replace (i + Z.of_nat 0) with i by lia. done.
  - apply Forall_cons in Hd as [Hl Hd]. cbn [fst] in Hl. unfold u32. rewrite Z.mod_small, (proj2 (Z.ltb_lt _ _)) by lia.
    destruct (Hbody i s a img l w HR) as (a1 & E & HR1); [lia|done|]. destruct (IH fuel (i + 1) (step s img l) a1 w Hd HR1) as (a2 & E2 & HR2); [lia..|].
    exists a2. replace (i + Z.of_nat (Datatypes.S (length data))) with (i + 1 + Z.of_nat (length data)) by lia. split; [|done]. cbn [fmap list_fmap fst snd concat].
    rewrite <-app_assoc. erewrite prog_run; [|unfold get_image; by rewrite fread_app by done]. cbn beta iota. erewrite prog_run; [|done]. cbn beta iota.
    rewrite (prog_run _ _ _ _ _ E). erewrite lift_run; [|apply sint_fits; unfold int; lia]. exact E2.
Qed.

Lemma all_images_run images labels data s a w : holds images labels data -> Rel 0 s a ->
  exists a', all_images torn images labels body a w = Ret (Done (Z.of_nat (length data), a') w) /\ Rel (Z.of_nat (length data)) (foldl (fun s d => step s d.1 d.2) s data) a'.
Proof.
  intros (m & wd & ht & m' & n' & more & more' & Hx & Hn & Hd & -> & ->) HR. repeat (apply Forall_cons in Hx as [? Hx]). unfold all_images.
  rewrite (prog_run _ _ _ _ _ (open_image_run m (Z.of_nat (length data)) wd ht _ w ltac:(repeat apply Forall_cons_2; lia || done))). cbn beta iota.
  rewrite (prog_run _ _ _ _ _ (open_label_run m' n' _ w ltac:(by repeat apply Forall_cons_2))).
  assert (Hf : (length data < Datatypes.S (length (concat data.*1 ++ more)))%nat).
  { rewrite length_app. apply Nat.lt_succ_r. etrans; [|apply Nat.le_add_r]. clear -Hd. induction Hd as [|[img l] data Hl _ IH]; [done|]. cbn [fmap list_fmap concat length fst] in *. rewrite length_app, Hl. unfold IMAGE_SIZE. lia. }
  destruct (for_images_run more more' data _ 0 s a w Hd HR ltac:(lia) ltac:(lia) Hf) as (a' & E & HR'). exists a'. cbn [max_images]. rewrite (prog_run _ _ _ _ _ E). done.
Qed.
End loop.

Section total.
Context {A : Type} (body : Z -> list Z -> Z -> A -> prog F A) (Inv : Z -> A -> Prop).
Context (Hbody : forall i a img l, Inv i a -> 0 <= i < 2 ^ 31 - 1 -> length img = IMAGE_SIZE -> safe (Inv (i + 1)) (body i img l a)).

Lemma for_images_safe max fuel : forall i a f1 f2, Inv i a -> 0 <= i -> i + Z.of_nat (length f1) < 2 ^ 31 -> (length f1 < fuel)%nat -> safe (fun a => exists i, Inv i a) (for_images fuel i max body f1 f2 a).
Proof.
  induction fuel as [|fuel IH]; intros i a f1 f2 Ha Hi Hn Hf; [lia|]. cbn [for_images]. destruct (u32 i <? max); [|apply safe_ret; by exists i].
  apply (safe_bind (fun x => length x.1 = IMAGE_SIZE /\ length f1 = (IMAGE_SIZE + length x.2)%nat)).
  { unfold get_image. destruct (fread IMAGE_SIZE f1) as [[img|] rest] eqn:E; [by apply safe_ret, fread_some|]. apply safe_fail. by right. }
  intros [img f1'] [Hl E1]. cbn [fst snd] in *. assert (0 < IMAGE_SIZE)%nat by (unfold IMAGE_SIZE; lia). apply (safe_bind (fun _ => True)).
  { unfold get_label. destruct (fread 1 f2) as [[b|] rest] eqn:E; [|apply safe_fail; by right]. apply fread_some in E as [Hb _]. destruct b as [|x b]; [done|]. by apply safe_ret. }
  intros [l f2'] _. eapply safe_bind; [by apply Hbody; [|lia|]|]. intros a' Ha'. eapply safe_bind; [eapply safe_lift with (Q := fun j => j = i + 1); [apply sint_fits; unfold int; lia|done]|].
  intros ? ->. apply IH; [done|lia..].
Qed.

Definition short (f : option (list Z)) : Prop := forall file, f = Some file -> Z.of_nat (length file) < 2 ^ 31.

Lemma read_shorter file : (length (read_uint32 torn file).2 <= length file)%nat.
Proof. unfold read_uint32, fread. destruct (4 <=? length file)%nat; cbn [snd]; rewrite ?length_drop; cbn; lia. Qed.

Lemma all_images_safe images labels a : short images -> Inv 0 a -> safe (fun x => exists i, Inv i x.2) (all_images torn images labels body a).
Proof.
  intros Hs Ha. unfold all_images. apply (safe_bind (fun x => Z.of_nat (length x.2) < 2 ^ 31)).
  { unfold open_image_file. destruct images as [file|]; [|apply safe_fail; by left]. specialize (Hs file eq_refl). unfold read_image_file_header.
    pose proof (read_shorter file). destruct (read_uint32 torn file) as [[n0 r0] f0]. pose proof (read_shorter f0). destruct (read_uint32 torn f0) as [[n1 r1] f1].
    pose proof (read_shorter f1). destruct (read_uint32 torn f1) as [[n2 r2] f2]. pose proof (read_shorter f2). destruct (read_uint32 torn f2) as [[n3 r3] f3]. cbn [snd] in *.
    apply (safe_bind (fun _ => True)); [destruct r3; [by apply safe_ret|apply safe_print]|]. intros _ _. apply safe_ret. cbn. lia. }
  intros [hdr f1] Hf. cbn [snd] in Hf. apply (safe_bind (fun _ => True)).
  { unfold open_label_file. destruct labels as [file|]; [|apply safe_fail; by left]. unfold read_label_file_header. destruct (read_uint32 torn file) as [[n0 r0] f0]. destruct (read_uint32 torn f0) as [[n2 r1] f2].
    apply (safe_bind (fun _ => True)); [destruct r1; [by apply safe_ret|apply safe_print]|]. intros _ _. by apply safe_ret. }
  intros f2 _. eapply safe_bind; [apply for_images_safe; [exact Ha|lia..]|]. intros a' Ha'. by apply safe_ret.
Qed.
End total.
End files.

(** ** Initialisation *)

Section init.
Context {F : Type} `{!Dbl F} (rand : nat -> Z) (RAND_MAX : Z).

(** The number made of the [k]-th call of [rand], and the units made from call [base] on:
    [m] units of [n] weights each. *)
Definition drawn (k : nat) : F := ddiv (dofZ (rand k)) (dofZ RAND_MAX).
Definition init_weight (base w : nat) : F := let x := dmul (dlit 7 10) (drawn (base + w)) in if Nat.odd w then dneg x else x.
Definition init_unit (n base : nat) : @unit_params F := (drawn (base + n), init_weight base <$> seq 0 n).
Definition init_layer (base m n : nat) : list unit_params := (fun j => init_unit n (base + j * (n + 1))%nat) <$> seq 0 m.
Definition init_params : @params F :=
  (init_layer IMAGE_SIZE HIDDEN_LAYER_SIZE IMAGE_SIZE, init_layer (IMAGE_SIZE + HIDDEN_LAYER_SIZE * (IMAGE_SIZE + 1)) OUTPUT_SIZE HIDDEN_LAYER_SIZE).

(** The calls of [rand] that [network_init] makes. *)
Definition init_calls : nat := IMAGE_SIZE + HIDDEN_LAYER_SIZE * (IMAGE_SIZE + 1) + OUTPUT_SIZE * (HIDDEN_LAYER_SIZE + 1).

Lemma collect_run {A} (body : nat -> prog F A) (g : nat -> nat -> A) c pr : (forall k r, body k (World r pr) = Ret (Done (g r k) (World (r + c) pr))) ->
  forall n i r, collect i n body (World r pr) = Ret (Done ((fun j => g (r + j * c)%nat (i + j)%nat) <$> seq 0 n) (World (r + n * c) pr)).
Proof.
  intros Hb. induction n as [|n IH]; intros i r; cbn [collect seq].
  - by replace (r + 0 * c)%nat with r by lia.
  - rewrite (prog_run _ _ _ _ _ (Hb i r)), (prog_run _ _ _ _ _ (IH (S i) (r + c)%nat)). unfold mret, prog_ret. cbn [fmap list_fmap].
    replace (r + c + n * c)%nat with (r + S n * c)%nat by lia. do 3 f_equal; [f_equal; lia|]. rewrite <-fmap_S_seq, <-list_fmap_compose. apply list_fmap_ext. intros j k _. unfold compose. f_equal; lia.
Qed.

Lemma node_init_run n r pr : node_init rand RAND_MAX n (World r pr) = Ret (Done (mkNode (drawn (r + n)) None None None (init_weight r <$> seq 0 n)) (World (r + (n + 1)) pr)).
Proof.
  unfold node_init. erewrite prog_run; [|apply (collect_run _ (fun r w => let x := dmul (dlit 7 10) (drawn r) in if Nat.odd w then dneg x else x) 1); intros k r'; by rewrite Nat.add_1_r].
  unfold draw. erewrite prog_run; [|done]. unfold mret, prog_ret. cbn [rands printed]. rewrite Nat.mul_1_r. replace (r + (n + 1))%nat with (S (r + n)) by lia.
  do 3 f_equal. apply list_fmap_ext. intros j k _. unfold init_weight. by rewrite Nat.mul_1_r.
Qed.

Lemma layer_init_run m n r pr : exists l, layer_init rand RAND_MAX m n (World r pr) = Ret (Done l (World (r + m * (n + 1)) pr)) /\ layer_params l = init_layer r m n.
Proof.
  eexists. split; [apply (collect_run _ (fun r _ => mkNode (drawn (r + n)) None None None (init_weight r <$> seq 0 n)) (n + 1) pr (fun k r => node_init_run n r pr))|].
  unfold layer_params, init_layer. by rewrite <-list_fmap_compose.
Qed.

Lemma init_layer_shaped base m n : shaped m n (init_layer base m n).
Proof.
  unfold init_layer. split; [by rewrite length_fmap, length_seq|]. intros j u. rewrite list_lookup_fmap. destruct (seq 0 m !! j) as [k|]; intros [= <-].
  cbn. by rewrite length_fmap, length_seq.
Qed.

Lemma layers_init_run m n k pr : exists i h o, (i ← layer_init rand RAND_MAX m 0; h ← layer_init rand RAND_MAX n m; o ← layer_init rand RAND_MAX k n; mret (mkNetwork i h o)) (World 0 pr)
  = Ret (Done (mkNetwork i h o) (World (m + n * (m + 1) + k * (n + 1)) pr)) /\ length i = m /\ layer_params h = init_layer m n m /\ layer_params o = init_layer (m + n * (m + 1)) k n.
Proof.
  destruct (layer_init_run m 0 0 pr) as (i & Ei & Hi). replace (0 + m * (0 + 1))%nat with m in Ei by lia. destruct (layer_init_run n m m pr) as (h & Eh & Hh).
  destruct (layer_init_run k n (m + n * (m + 1)) pr) as (o & Eo & Ho). exists i, h, o. rewrite (prog_run _ _ _ _ _ Ei), (prog_run _ _ _ _ _ Eh), (prog_run _ _ _ _ _ Eo).
  split_and!; [done| |exact Hh|exact Ho]. apply (f_equal length) in Hi. unfold layer_params, init_layer in Hi. by rewrite !length_fmap, length_seq in Hi.
Qed.

Lemma network_init_run pr : exists net, network_init rand RAND_MAX (World 0 pr) = Ret (Done net (World init_calls pr)) /\ net_params net = init_params /\ net_ok net.
Proof.
  destruct (layers_init_run IMAGE_SIZE HIDDEN_LAYER_SIZE OUTPUT_SIZE pr) as (i & h & o & E & Hi & Hh & Ho). exists (mkNetwork i h o). split; [exact E|]. split; [exact (f_equal2 pair Hh Ho)|].
  split; cbn [input_layer hidden_layer output_layer]; [exact Hi|rewrite Hh|rewrite Ho]; apply init_layer_shaped.
Qed.
End init.

(** ** Whole runs *)

Section runs.
Context {F : Type} `{!Dbl F} (torn : list Z -> Z) (rand : nat -> Z) (RAND_MAX : Z).

(** Training on a list of images with labels; the share that is classified rightly. *)
Definition train (P : @params F) (data : list (list Z * Z)) : params := foldl (fun P d => train_step P d.1 d.2) P data.
Definition correct (P : @params F) (data : list (list Z * Z)) : list (list Z * Z) := filter (fun d => classify P d.1 = d.2) data.
Definition rate (P : @params F) (data : list (list Z * Z)) : F :=
  dmul (ddiv (dofZ (Z.of_nat (length (correct P data)))) (dofZ (Z.of_nat (length data)))) (dofZ 100).

(** The parameters after [e] epochs. *)
Definition trained (data : list (list Z * Z)) (e : nat) : params := Nat.iter e (fun P => train P data) (init_params rand RAND_MAX).

Definition net_is (P : @params F) (net : network_t F) : Prop := net_ok net /\ net_params net = P.

Lemma train_body P net i img l w : net_is P net -> length img = IMAGE_SIZE -> exists net', train_image i img l net w = Ret (Done net' w) /\ net_is (train_step P img l) net'.
Proof.
  intros [Hok <-] Hl. destruct (feed_forward_run net img Hok Hl) as (net1 & E1 & Hf & Hok1). pose proof (fd_params _ _ _ Hf) as HP. rewrite <-HP in Hf |- *.
  destruct (back_propagate_run net1 img l Hok1 Hl Hf) as (net2 & E2 & H2 & Hok2). exists net2. split; [|done]. unfold train_image. by rewrite (lift_run _ _ _ _ E1), E2.
Qed.

Lemma network_train_run d data P net w : holds (train_images d) (train_labels d) data -> net_is P net -> exists net', network_train torn d net w = Ret (Done net' w) /\ net_is (train P data) net'.
Proof.
  intros Hh Hn. unfold network_train.
  destruct (all_images_run torn train_image train_step (fun _ => net_is) (fun i s a img l w Hr _ => train_body s a i img l w Hr) (train_images d) (train_labels d) data P net w Hh Hn) as (net' & E & H').
  exists net'. by rewrite (prog_run _ _ _ _ _ E).
Qed.

(** What is wrong among the first [i] images. *)
Definition wrong_is (P : @params F) (i : Z) (k : Z) (a : network_t F * Z) : Prop := net_is P a.1 /\ a.2 = k /\ 0 <= k <= i.

Definition miss (P : @params F) (k : Z) (img : list Z) (l : Z) : Z := if decide (classify P img = l) then k else k + 1.

Lemma test_body P i k a img l w : wrong_is P i k a -> 0 <= i < 2 ^ 31 - 1 -> length img = IMAGE_SIZE ->
  exists a', test_image i img l a w = Ret (Done a' w) /\ wrong_is P (i + 1) (miss P k img l) a'.
Proof.
  destruct a as [net err]. intros ([Hok <-] & <- & Hk) Hi Hl. cbn [fst snd] in *. destruct (feed_forward_run net img Hok Hl) as (net1 & E1 & Hf & Hok1). pose proof (fd_params _ _ _ Hf) as HP.
  exists (net1, miss (net_params net) err img l). split.
  - unfold test_image. rewrite (lift_run _ _ _ _ E1), (lift_run _ _ _ _ (classification_run _ _ (fd_output _ _ _ Hf))).
    change (u8 (best (outputs (net_params net) img)).2) with (classify (net_params net) img). unfold miss.
    case_decide as Hc; [rewrite (proj2 (Z.eqb_eq _ _) Hc)|rewrite (proj2 (Z.eqb_neq _ _) Hc), (sint_fits (err + 1)) by (unfold int; lia)]; done.
  - unfold wrong_is, miss. cbn [fst snd]. split; [done|]. case_decide; lia.
Qed.

Lemma missed P data : forall k, foldl (fun k d => miss P k d.1 d.2) k data = k + Z.of_nat (length data) - Z.of_nat (length (correct P data)).
Proof.
  induction data as [|[img l] data IH]; intros k; [cbn; lia|]. cbn [foldl fst snd]. rewrite IH. unfold correct, miss. rewrite filter_cons. cbn [fst snd].
  repeat case_decide; cbn [length]; (done || lia).
Qed.

Lemma network_test_run d data P net r pr : holds (test_images d) (test_labels d) data -> net_is P net ->
  exists net', network_test torn d net (World r pr) = Ret (Done net' (World r (pr ++ [Accuracy (rate P data)]))) /\ net_is P net'.
Proof.
  intros Hh Hn. unfold network_test.
  destruct (all_images_run torn test_image (miss P) (wrong_is P) (fun i k a img l w => test_body P i k a img l w) (test_images d) (test_labels d) data 0 (net, 0) (World r pr) Hh) as ([net' err] & E & HP & He & Hb); [by split_and!|].
  cbn [fst snd] in *. rewrite (prog_run _ _ _ _ _ E). exists net'. split; [|done]. cbn beta iota. unfold print. erewrite prog_run; [|done]. cbn [rands printed].
  unfold mret, prog_ret. do 4 f_equal. unfold accuracy, rate. rewrite He, missed. do 3 f_equal.
  destruct Hh as (? & ? & ? & ? & ? & ? & ? & ? & Hlen & _). pose proof (length_filter (fun d => classify P d.1 = d.2) data). unfold correct, u32. rewrite Z.mod_small; [do 2 f_equal; lia|lia].
Qed.

Lemma epochs_run d train_data test_data n : forall i net r pr, holds (train_images d) (train_labels d) train_data -> holds (test_images d) (test_labels d) test_data -> net_is (trained train_data i) net ->
  exists net', epochs torn d i n net (World r pr) =
    Ret (Done net' (World r (pr ++ mjoin ((fun e => [Epoch (Z.of_nat e + 1); Accuracy (rate (trained train_data (S e)) test_data)]) <$> seq i n)))).
Proof.
  induction n as [|n IH]; intros i net r pr Ht Hs Hn; cbn [epochs seq]; [exists net; cbn; by rewrite app_nil_r|].
  unfold print. erewrite prog_run; [|done]. cbn [rands printed]. destruct (network_train_run d train_data _ net (World r (pr ++ [Epoch (Z.of_nat i + 1)])) Ht Hn) as (net1 & E1 & H1).
  rewrite (prog_run _ _ _ _ _ E1). change (train (trained train_data i) train_data) with (trained train_data (S i)) in H1.
  destruct (network_test_run d test_data _ net1 r (pr ++ [Epoch (Z.of_nat i + 1)]) Hs H1) as (net2 & E2 & H2). rewrite (prog_run _ _ _ _ _ E2).
  destruct (IH (S i) net2 r ((pr ++ [Epoch (Z.of_nat i + 1)]) ++ [Accuracy (rate (trained train_data (S i)) test_data)]) Ht Hs H2) as (net3 & E3). exists net3. rewrite E3.
  do 3 f_equal. cbn. by rewrite <-!app_assoc.
Qed.

(** C14. Without an option, on files that hold images with their labels, the program ends.  It
    prints the accuracy of the initial weights, then for each of the five epochs its number
    and the accuracy after it: the share of the test images whose class is that of the
    forward pass, with the weights that [train_step] gives image by image. *)
Theorem neural_main_correct d train_data test_data : holds (train_images d) (train_labels d) train_data -> holds (test_images d) (test_labels d) test_data ->
  main torn rand RAND_MAX d (-1) (World 0 []) = Ret (Done 0 (World init_calls
    (Accuracy (rate (init_params rand RAND_MAX) test_data) ::
     mjoin ((fun e => [Epoch (Z.of_nat e + 1); Accuracy (rate (trained train_data (S e)) test_data)]) <$> seq 0 TRAINING_EPOCHS)))).
Proof.
  intros Ht Hs. unfold main. cbn [negb]. change (-1 =? -1) with true. cbn [negb]. destruct (network_init_run rand RAND_MAX []) as (net & E & HP & Hok). rewrite (prog_run _ _ _ _ _ E).
  destruct (network_test_run d test_data (init_params rand RAND_MAX) net init_calls [] Hs (conj Hok HP)) as (net1 & E1 & H1). rewrite (prog_run _ _ _ _ _ E1).
  destruct (epochs_run d train_data test_data TRAINING_EPOCHS 0 net1 init_calls [Accuracy (rate (init_params rand RAND_MAX) test_data)] Ht Hs H1) as (net2 & E2). by rewrite (prog_run _ _ _ _ _ E2).
Qed.

(** ** Any files *)

Lemma network_test_safe d net : short (test_images d) -> net_ok net -> safe net_ok (network_test torn d net).
Proof.
  intros Hs Hok. unfold network_test. eapply safe_bind.
  - apply (all_images_safe torn test_image (fun i a => net_ok a.1 /\ 0 <= a.2 <= i)); [|exact Hs|by split].
    intros i [net1 err] img l [H1 He] Hi Hl w. destruct (test_body (net_params net1) i err (net1, err) img l w) as (a & E & HP & Hk & Hr); [exact (conj (conj H1 eq_refl) (conj eq_refl He))|exact Hi|exact Hl|].
    exists (Done a w). split; [exact E|]. split; [exact (proj1 HP)|lia].
  - intros [max [net1 err]] (i & H1 & _). cbv beta iota. eapply safe_bind; [apply safe_print|]. intros _ _. apply safe_ret. exact H1.
Qed.

Lemma network_train_safe d net : short (train_images d) -> net_ok net -> safe net_ok (network_train torn d net).
Proof.
  intros Hs Hok. unfold network_train. eapply safe_bind.
  - apply (all_images_safe torn train_image (fun _ => net_ok)); [|exact Hs|exact Hok].
    intros i net1 img l H1 _ Hl w. destruct (train_body (net_params net1) net1 i img l w (conj H1 eq_refl) Hl) as (a & E & HP). exists (Done a w). split; [exact E|exact (proj1 HP)].
  - intros [max net1] (_ & H1). apply safe_ret. exact H1.
Qed.

Lemma epochs_safe d n : short (train_images d) -> short (test_images d) -> forall i net, net_ok net -> safe net_ok (epochs torn d i n net).
Proof.
  intros Ht Hs. induction n as [|n IH]; intros i net Hok; cbn [epochs]; [by apply safe_ret|]. eapply safe_bind; [apply safe_print|]. intros _ _.
  eapply safe_bind; [by apply network_train_safe|]. intros net1 H1. eapply safe_bind; [by apply network_test_safe|]. intros net2 H2. by apply IH.
Qed.

Lemma img_print_safe img : length img = IMAGE_SIZE -> safe (F:=F) (fun _ => True) (img_print img).
Proof.
  intros Hl. unfold img_print. eapply safe_bind; [|intros; by apply safe_ret]. apply (safe_collect (fun _ => True)). intros i Hi. unfold print_row.
  eapply safe_bind; [|intros; apply safe_print]. apply (safe_collect (fun _ => True)). intros j Hj.
  destruct (aget_lt img (i * 28 + j)) as (p & E & _); [rewrite Hl; unfold IMAGE_SIZE; lia|]. eapply safe_bind; [by apply (safe_lift (fun _ => True) _ p)|]. intros. by apply safe_ret.
Qed.

Lemma network_check_safe d num : short (test_images d) -> safe (F:=F) (fun _ => True) (network_check torn d num).
Proof.
  intros Hs. unfold network_check. eapply safe_bind; [|intros; by apply safe_ret]. apply (all_images_safe torn _ (fun _ _ => True)); [|exact Hs|done].
  intros i a img l _ _ Hl. unfold check_image. destruct (i =? num); [|by apply safe_ret]. eapply safe_bind; [by apply img_print_safe|]. intros. apply safe_print.
Qed.

(** C15. Whatever is in the four files, or if they are missing, with or without the option, the
    program ends: it returns 0, or exits with 0 for a file that is missing and with 1 for one
    that is too short, and never leaves its arrays, reads a field that is not set or
    overflows a counter.  Image files must be shorter than 2^31 bytes. *)
Theorem neural_main_safe d check pr : short (train_images d) -> short (test_images d) ->
  exists o, main torn rand RAND_MAX d check (World 0 pr) = Ret o /\ match o with Done a _ => a = 0 | Exit n _ => n = 0 \/ n = 1 end.
Proof.
  intros Ht Hs. unfold main. destruct (negb (check =? -1)).
  - apply (safe_bind (fun _ => True) (fun a => a = 0)); [by apply network_check_safe|]. intros. by apply safe_ret.
  - destruct (network_init_run rand RAND_MAX pr) as (net & E & _ & Hok). rewrite (prog_run _ _ _ _ _ E).
    apply (safe_bind net_ok (fun a => a = 0)); [by apply network_test_safe|]. intros net1 H1. eapply safe_bind; [by apply epochs_safe|]. intros. by apply safe_ret.
Qed.
End runs.

(** ** A small run *)

(** Whole numbers in place of [double]. *)
#[local] Instance whole : Dbl Z := {
  dlit n d := n / d; dofZ z := z; dadd := Z.add; dsub := Z.sub; dmul := Z.mul; ddiv := Z.div; dneg := Z.opp; tanh z := Z.sgn z; cosh z := z; dgt x y := y <? x
}.

(** One blank image, labelled 3. *)
Definition blank : list (list Z * Z) := [(replicate IMAGE_SIZE 0, 3)].
Definition blank_images : list Z := be_bytes 4 2051 ++ be_bytes 4 1 ++ be_bytes 4 28 ++ be_bytes 4 28 ++ concat blank.*1 ++ [].
Definition blank_labels : list Z := be_bytes 4 2049 ++ be_bytes 4 1 ++ blank.*2 ++ [].
Definition blank_disk : disk := mkDisk (Some blank_images) (Some blank_labels) (Some blank_images) (Some blank_labels).

Lemma blank_holds : holds (Some blank_images) (Some blank_labels) blank.
Proof. exists 2051, 28, 28, 2049, 1, [], []. split_and!; [repeat apply Forall_cons_2; (done || by apply Forall_nil)|done|by repeat constructor|done|done]. Qed.

Lemma neural_main_correct_witness : main (F:=Z) (fun _ => 0) Z.of_nat 32767 blank_disk (-1) (World 0 []) = Ret (Done 0 (World init_calls
    (Accuracy (rate (init_params Z.of_nat 32767) blank) ::
     mjoin ((fun e => [Epoch (Z.of_nat e + 1); Accuracy (rate (trained Z.of_nat 32767 blank (S e)) blank)]) <$> seq 0 TRAINING_EPOCHS)))).
Proof. exact (neural_main_correct (fun _ => 0) Z.of_nat 32767 blank_disk blank blank blank_holds blank_holds). Defined.

Lemma neural_main_safe_witness : exists o, main (F:=Z) (fun _ => 0) Z.of_nat 32767 (mkDisk (Some [1; 2; 3]) None (Some blank_images) (Some [0])) (-1) (World 0 []) = Ret o /\
  match o with Done a _ => a = 0 | Exit n _ => n = 0 \/ n = 1 end.
Proof.
  apply (neural_main_safe (fun _ => 0) Z.of_nat 32767 (mkDisk (Some [1; 2; 3]) None (Some blank_images) (Some [0])) (-1) []).
  - intros file [= <-]. done.
  - intros file [= <-]. vm_compute. done.
Defined.
