(* ===== verification/NnGrad.v ===== *)
(** The neural network of src/neural-c in exact arithmetic: a step of back_propagate against
    the gradient of the squared error, and what get_classification chooses. *)
From Stdlib Require Import Reals Lra.
From S2P Require Import Prelude Arrays Nn NnThm.
#[local] Open Scope R_scope.

#[export] Instance real_dbl : Dbl R := {
  dlit n d := IZR n / IZR d; dofZ := IZR; dadd := Rplus; dsub := Rminus; dmul := Rmult; ddiv := Rdiv; dneg := Ropp;
  tanh := Rtrigo_def.tanh; cosh := Rtrigo_def.cosh; dgt x y := if Rlt_dec y x then true else false
}.

Abbreviation param := (@params R).

(** ** The activation *)

Lemma cosh_pos x : 0 < Rtrigo_def.cosh x.
Proof. unfold Rtrigo_def.cosh. pose proof (exp_pos x). pose proof (exp_pos (- x)). lra. Qed.

Lemma cosh_sinh x : Rtrigo_def.cosh x * Rtrigo_def.cosh x - sinh x * sinh x = 1.
Proof.
  unfold Rtrigo_def.cosh, sinh. assert (H : exp x * exp (- x) = 1) by (rewrite <-exp_plus, Rplus_opp_r; apply exp_0). 
  replace (_ - _) with (exp x * exp (- x)) by field. exact H.
Qed.

Lemma act_is x : act_func x = (Rtrigo_def.tanh x + 1) / 2.
Proof. unfold act_func, tanh_act. cbn. lra. Qed.

Lemma act_derivative_is x : act_derivative x = / (2 * Rtrigo_def.cosh x * Rtrigo_def.cosh x).
Proof. unfold act_derivative, tanh_derivative. cbn. pose proof (cosh_pos x). field. lra. Qed.

Lemma act_derivable x : derivable_pt_lim act_func x (act_derivative x).
Proof.
  pose proof (cosh_pos x) as Hc. rewrite act_derivative_is.
  apply (derivable_pt_lim_ext (fun y => / 2 * (sinh y / Rtrigo_def.cosh y) + / 2)); [intros y; rewrite act_is; unfold Rtrigo_def.tanh; lra|].
  replace (/ (2 * _ * _)) with (/ 2 * ((Rtrigo_def.cosh x * Rtrigo_def.cosh x - sinh x * sinh x) / Rsqr (Rtrigo_def.cosh x)) + 0) by (rewrite cosh_sinh; unfold Rsqr; field; lra).
  apply (derivable_pt_lim_plus (fun y => / 2 * (sinh y / Rtrigo_def.cosh y)) (fct_cte (/ 2))); [|apply derivable_pt_lim_const].
  apply (derivable_pt_lim_scal (fun y => sinh y / Rtrigo_def.cosh y)). apply (derivable_pt_lim_div sinh Rtrigo_def.cosh); [apply derivable_pt_lim_sinh|apply derivable_pt_lim_cosh|lra].
Qed.

Lemma act_positive x : 0 < act_func x.
Proof.
  rewrite act_is. unfold Rtrigo_def.tanh. pose proof (cosh_pos x) as Hc. assert (0 < sinh x + Rtrigo_def.cosh x).
  { unfold sinh, Rtrigo_def.cosh. pose proof (exp_pos x). lra. }
  replace ((sinh x / Rtrigo_def.cosh x + 1) / 2) with ((sinh x + Rtrigo_def.cosh x) * / (2 * Rtrigo_def.cosh x)) by (field; lra).
  apply Rmult_lt_0_compat; [done|]. apply Rinv_0_lt_compat. lra.
Qed.

(** ** Sums *)

Definition total (l : list R) : R := foldr Rplus 0 l.

Lemma total_insert l j x y : l !! j = Some x -> total (<[j := y]> l) = total l + (y - x).
Proof.
  revert j. induction l as [|z l IH]; intros [|j] E; [done..|injection E as ->; cbn; lra|]. cbn in *. change (foldr Rplus 0 l) with (total l). change (foldr Rplus 0 (<[j:=y]> l)) with (total (<[j := y]> l)).
  rewrite (IH j E). lra.
Qed.

Lemma total_derivable (fs : list (R -> R)) (ds : list R) x : Forall2 (fun f d => derivable_pt_lim f x d) fs ds -> derivable_pt_lim (fun s => total ((fun f => f s) <$> fs)) x (total ds).
Proof.
  induction 1 as [|f d fs ds Hf _ IH]; [apply (derivable_pt_lim_const 0)|]. exact (derivable_pt_lim_plus f _ x _ _ Hf IH).
Qed.

Lemma foldl_total {A} (g : R -> A -> R) (f : A -> R) l : (forall s x, g s x = s + f x) -> forall a, foldl g a l = a + total (f <$> l).
Proof. intros Hg. induction l as [|x l IH]; intros a; cbn; [lra|]. rewrite IH, Hg. unfold total. lra. Qed.

Definition dotp (xs ws : list R) : R := total (zip_with Rmult xs ws).

Lemma affine_dotp xs (u : @unit_params R) : affine xs u = u.1 + dotp xs u.2.
Proof.
  unfold affine, dotp. rewrite (foldl_total _ (fun p => p.1 * p.2)) by by intros s [x w].
  f_equal. f_equal. generalize (u.2). induction xs as [|x xs IH]; intros [|w ws]; [done..|]. cbn. f_equal. apply IH.
Qed.

Lemma zip_insert xs ws i (x : R) w s : xs !! i = Some x -> ws !! i = Some w -> dotp xs (<[i := s]> ws) = dotp xs ws + x * (s - w).
Proof.
  intros Ex Ew. unfold dotp. replace (zip_with Rmult xs (<[i := s]> ws)) with (<[i := x * s]> (zip_with Rmult xs ws)).
  - rewrite (total_insert _ _ (x * w)); [lra|]. apply lookup_zip_with_Some. by exists x, w.
  - rewrite <-(list_insert_id xs i x Ex) at 2. by rewrite insert_zip_with.
Qed.

Lemma dotp_comm xs ws : dotp xs ws = dotp ws xs.
Proof. unfold dotp. f_equal. revert ws. induction xs as [|x xs IH]; intros [|w ws]; [done..|]. cbn. f_equal; [lra|apply IH]. Qed.

(** ** Coordinates of the weights *)

(** A bias ([None]) or a weight of a unit. *)
Definition get_unit (u : @unit_params R) (i : option nat) : R := match i with None => u.1 | Some i => default 0 (u.2 !! i) end.
Definition set_unit (u : @unit_params R) (i : option nat) (s : R) : unit_params := match i with None => (s, u.2) | Some i => (u.1, <[i := s]> u.2) end.
Definition input_at (xs : list R) (i : option nat) : R := match i with None => 1 | Some i => default 0 (xs !! i) end.
Definition in_unit (n : nat) (i : option nat) : Prop := match i with None => True | Some i => (i < n)%nat end.

Inductive coord := Hid (k : nat) (i : option nat) | Out (j : nat) (i : option nat).

Definition coord_ok (c : coord) : Prop :=
  match c with Hid k i => (k < HIDDEN_LAYER_SIZE)%nat /\ in_unit IMAGE_SIZE i | Out j i => (j < OUTPUT_SIZE)%nat /\ in_unit HIDDEN_LAYER_SIZE i end.

Definition get_coord (P : param) (c : coord) : R :=
  match c with
  | Hid k i => from_option (fun u => get_unit u i) 0 (P.1 !! k)
  | Out j i => from_option (fun u => get_unit u i) 0 (P.2 !! j)
  end.

Definition set_coord (P : param) (c : coord) (s : R) : param :=
  match c with
  | Hid k i => (from_option (fun u => <[k := set_unit u i s]> P.1) P.1 (P.1 !! k), P.2)
  | Out j i => (P.1, from_option (fun u => <[j := set_unit u i s]> P.2) P.2 (P.2 !! j))
  end.

Lemma affine_set xs u i s : length u.2 = length xs -> in_unit (length xs) i -> affine xs (set_unit u i s) = affine xs u + input_at xs i * (s - get_unit u i).
Proof.
  intros Hl Hi. rewrite !affine_dotp. destruct i as [i|]; cbn [set_unit get_unit input_at fst snd]; [|lra].
  destruct (lookup_lt_is_Some_2 xs i Hi) as [x Ex]. destruct (lookup_lt_is_Some_2 u.2 i) as [w Ew]; [cbn in Hi; lia|]. rewrite (zip_insert _ _ _ x w) by done. rewrite Ex, Ew. cbn. lra.
Qed.

Lemma affine_input xs u k y x : length u.2 = length xs -> xs !! k = Some x -> affine (<[k := y]> xs) u = affine xs u + get_unit u (Some k) * (y - x).
Proof.
  intros Hl Ex. rewrite !affine_dotp. destruct (lookup_lt_is_Some_2 u.2 k) as [w Ew]; [apply lookup_lt_Some in Ex; lia|].
  rewrite dotp_comm, (zip_insert _ _ _ w x) by done. rewrite (dotp_comm u.2). cbn. rewrite Ew. cbn. lra.
Qed.

Lemma move_get xs d u i : length u.2 = length xs -> in_unit (length xs) i -> get_unit (move xs d u) i = get_unit u i + / 5 * (d * input_at xs i).
Proof.
  intros Hl Hi. unfold move. destruct i as [i|]; cbn [get_unit input_at fst snd]; [|unfold LEARNING_RATE; cbn; lra].
  destruct (lookup_lt_is_Some_2 xs i Hi) as [x Ex]. destruct (lookup_lt_is_Some_2 u.2 i) as [w Ew]; [cbn in Hi; lia|].
  rewrite lookup_zip_with, Ew, Ex. cbn. unfold LEARNING_RATE. cbn. lra.
Qed.

(** ** The error and its derivatives *)

(** Half the sum of the squares of target minus output. *)
Definition error (P : param) (img : list Z) (label : Z) : R := / 2 * total (imap (fun j o => (target label j - o) ^ 2) (outputs P img)).

(** The outputs are moved before the sums that are propagated to the hidden layer are taken:
    what this adds to a hidden parameter, in units of the square of the learning rate. *)
Definition drift (P : param) (img : list Z) (label : Z) (c : coord) : R :=
  match c with
  | Out _ _ => 0
  | Hid k i => total ((fun d => d * d) <$> deltas P img label) * default 0 (hidden P img !! k) * act_derivative (default 0 (hidden_z P img !! k)) * input_at (pixel <$> img) i
  end.

Lemma total_ext (f g : nat -> @unit_params R -> R) us : (forall j u, us !! j = Some u -> f j u = g j u) -> total (imap f us) = total (imap g us).
Proof. intros H. f_equal. by apply imap_ext. Qed.

Lemma total_linear (f g : nat -> @unit_params R -> R) a us : total (imap (fun j u => f j u + a * g j u) us) = total (imap f us) + a * total (imap g us).
Proof.
  revert f g. induction us as [|u us IH]; intros f g; cbn; [lra|]. unfold compose. specialize (IH (fun j => f (S j)) (fun j => g (S j))). unfold total in IH. rewrite IH. unfold compose. lra.
Qed.

Lemma imap_insert_at {A B} (f : nat -> A -> B) l j x : imap f (<[j := x]> l) = <[j := f j x]> (imap f l).
Proof. revert f j. induction l as [|y l IH]; intros f [|j]; cbn; [done..|]. f_equal. apply (IH (f ∘ S)). Qed.

Lemma square_derivable t z a g x d : derivable_pt_lim g x d ->
  derivable_pt_lim (fun s => (t - act_func (z + a * (g s - g x))) ^ 2) x (- 2 * ((t - act_func z) * act_derivative z) * a * d).
Proof.
  intros Hg. assert (Hz : z + a * (g x - g x) = z) by lra.
  assert (H1 : derivable_pt_lim (fun s => z + a * (g s - g x)) x (0 + a * (d - 0))).
  { apply (derivable_pt_lim_plus (fct_cte z)); [apply derivable_pt_lim_const|]. apply (derivable_pt_lim_scal (fun s => g s - g x)).
    apply (derivable_pt_lim_minus g (fct_cte (g x))); [done|apply derivable_pt_lim_const]. }
  assert (H2 : derivable_pt_lim (fun s => t - act_func (z + a * (g s - g x))) x (0 - act_derivative z * (0 + a * (d - 0)))).
  { apply (derivable_pt_lim_minus (fct_cte t)); [apply derivable_pt_lim_const|]. apply (derivable_pt_lim_comp (fun s => z + a * (g s - g x)) act_func); [done|]. rewrite Hz. apply act_derivable. }
  pose proof (derivable_pt_lim_comp _ (fun y => y ^ 2) x _ _ H2 (derivable_pt_lim_pow _ 2)) as H3. unfold comp in H3. cbv beta in H3. rewrite Hz in H3.
  replace (- 2 * _ * a * d) with (INR 2 * (t - act_func z) ^ pred 2 * (0 - act_derivative z * (0 + a * (d - 0)))) by (cbn; lra). exact H3.
Qed.

Lemma half_derivable f x d : derivable_pt_lim f x d -> derivable_pt_lim (fun s => / 2 * f s) x (/ 2 * d).
Proof. apply (derivable_pt_lim_scal f). Qed.

Section grad.
Context (P : param) (img : list Z) (label : Z) (Hh : shaped HIDDEN_LAYER_SIZE IMAGE_SIZE P.1) (Ho : shaped OUTPUT_SIZE HIDDEN_LAYER_SIZE P.2) (Hlen : length img = IMAGE_SIZE).
Abbreviation hs := (hidden P img).
Abbreviation xs := (pixel <$> img).

(** What is propagated to an output. *)
Definition err_at (j : nat) (u : @unit_params R) : R := (target label j - act_func (affine hs u)) * act_derivative (affine hs u).

Lemma hs_length : length hs = HIDDEN_LAYER_SIZE.
Proof. unfold hidden, hidden_z. rewrite !length_fmap. apply Hh. Qed.

Lemma error_units (Q : param) : error Q img label = / 2 * total (imap (fun j u => (target label j - act_func (affine (hidden Q img) u)) ^ 2) Q.2).
Proof. unfold error, outputs, output_z. by rewrite !imap_fmap. Qed.

Lemma deltas_units : deltas P img label = imap err_at P.2.
Proof. unfold deltas, output_z. by rewrite imap_fmap. Qed.

Lemma output_derivative j i u : P.2 !! j = Some u -> in_unit HIDDEN_LAYER_SIZE i ->
  derivable_pt_lim (fun s => error (set_coord P (Out j i) s) img label) (get_unit u i) (- err_at j u * input_at hs i).
Proof.
  intros Eu Hi. set (f := fun j u => (target label j - act_func (affine hs u)) ^ 2).
  apply (derivable_pt_lim_ext (fun s => / 2 * (total (imap f P.2) + (f j (set_unit u i s) - f j u)))).
  { intros s. rewrite error_units. cbn [set_coord fst snd]. rewrite Eu. cbn [from_option]. rewrite imap_insert_at, (total_insert _ _ (f j u)); [done|]. by rewrite list_lookup_imap, Eu. }
  replace (- _ * _) with (/ 2 * (0 + (- 2 * err_at j u * input_at hs i * 1 - 0))) by lra. apply half_derivable.
  apply (derivable_pt_lim_plus (fct_cte (total (imap f P.2)))); [apply derivable_pt_lim_const|].
  apply (derivable_pt_lim_minus (fun s => f j (set_unit u i s)) (fct_cte (f j u))); [|apply derivable_pt_lim_const].
  apply (derivable_pt_lim_ext (fun s => (target label j - act_func (affine hs u + input_at hs i * (id s - id (get_unit u i)))) ^ 2)).
  { intros s. unfold f. rewrite affine_set; rewrite ?hs_length; [done| |done]. by apply (proj2 Ho j). }
  apply square_derivable, derivable_pt_lim_id.
Qed.

Lemma hidden_derivative k i u : P.1 !! k = Some u -> in_unit IMAGE_SIZE i ->
  derivable_pt_lim (fun s => error (set_coord P (Hid k i) s) img label) (get_unit u i)
    (- total (imap (fun j v => err_at j v * get_unit v (Some k)) P.2) * act_derivative (affine xs u) * input_at xs i).
Proof.
  intros Eu Hi. assert (Hx : length u.2 = length xs) by (rewrite length_fmap, Hlen; by apply (proj2 Hh k)).
  set (g := fun s => act_func (affine xs u + input_at xs i * (id s - id (get_unit u i)))).
  assert (Hg0 : g (get_unit u i) = act_func (affine xs u)) by (unfold g; f_equal; lra).
  assert (Eh : hs !! k = Some (g (get_unit u i))) by (rewrite Hg0; unfold hidden, hidden_z; by rewrite !list_lookup_fmap, Eu).
  assert (Hg : derivable_pt_lim g (get_unit u i) (act_derivative (affine xs u) * (0 + input_at xs i * (1 - 0)))).
  { apply (derivable_pt_lim_comp (fun s => affine xs u + input_at xs i * (id s - id (get_unit u i))) act_func).
    - apply (derivable_pt_lim_plus (fct_cte (affine xs u))); [apply derivable_pt_lim_const|]. apply (derivable_pt_lim_scal (fun s => id s - id (get_unit u i))).
      apply (derivable_pt_lim_minus id (fct_cte (id (get_unit u i)))); [apply derivable_pt_lim_id|apply derivable_pt_lim_const].
    - replace (affine xs u + _) with (affine xs u) by lra. apply act_derivable. }
  set (fs := imap (fun j v s => (target label j - act_func (affine hs v + get_unit v (Some k) * (g s - g (get_unit u i)))) ^ 2) P.2).
  apply (derivable_pt_lim_ext (fun s => / 2 * total ((fun f => f s) <$> fs))).
  { intros s. rewrite error_units. cbn [set_coord fst snd]. rewrite Eu. cbn [from_option].
    assert (hidden (<[k := set_unit u i s]> P.1, P.2) img = <[k := g s]> hs) as ->.
    { unfold hidden, hidden_z. cbn [fst]. rewrite !list_fmap_insert, affine_set by first [exact Hx|by rewrite length_fmap, Hlen]. done. }
    f_equal. unfold fs. rewrite fmap_imap. apply total_ext. intros j v Ev. unfold compose. rewrite (affine_input _ _ _ _ (g (get_unit u i))); [done| |done]. rewrite hs_length. by apply (proj2 Ho j). }
  set (d := act_derivative (affine xs u) * (0 + input_at xs i * (1 - 0))) in *.
  replace (- _ * _ * _) with (/ 2 * total (imap (fun j v => - 2 * err_at j v * get_unit v (Some k) * d) P.2)).
  - apply half_derivable, total_derivable. unfold fs. apply Forall2_same_length_lookup. split; [by rewrite !length_imap|]. intros j f e. rewrite !list_lookup_imap.
    destruct (P.2 !! j) as [v|]; [|done]. intros [= <-] [= <-]. by apply square_derivable.
  - pose proof (total_linear (fun _ _ => 0) (fun j v => err_at j v * get_unit v (Some k)) (- 2 * d) P.2) as Hl.
    assert (H0 : total (imap (fun _ _ => 0) P.2) = 0) by (clear; generalize P.2; intros l; induction l as [|v l IH]; [done|]; cbn; unfold total, compose in IH; unfold compose; rewrite IH; lra).
    rewrite H0 in Hl. transitivity (/ 2 * total (imap (fun j v => 0 + - 2 * d * (err_at j v * get_unit v (Some k))) P.2)); [f_equal; apply total_ext; intros; lra|].
    rewrite Hl. unfold d. lra.
Qed.

(** A step, by coordinates. *)
Lemma new_output_at j u : P.2 !! j = Some u -> new_outputs P img label !! j = Some (move hs (err_at j u) u).
Proof. intros Eu. unfold new_outputs. rewrite deltas_units. apply lookup_zip_with_Some. exists (err_at j u), u. by rewrite list_lookup_imap, Eu. Qed.

Lemma back_sum_is k h : hs !! k = Some h ->
  back_sum (deltas P img label) (new_outputs P img label) k =
  total (imap (fun j v => err_at j v * get_unit v (Some k)) P.2) + / 5 * h * total ((fun d => d * d) <$> deltas P img label).
Proof.
  intros Eh. unfold back_sum. assert (Ez : zip (deltas P img label) (new_outputs P img label) = imap (fun j v => (err_at j v, move hs (err_at j v) v)) P.2).
  { apply list_eq. intros j. rewrite lookup_zip_with, deltas_units, !list_lookup_imap. destruct (P.2 !! j) as [v|] eqn:Ev; [|done]. cbn. by rewrite (new_output_at j v Ev). }
  rewrite (foldl_total _ (fun p => p.1 * get_unit p.2 (Some k))) by by intros s [d u]. cbn [dofZ real_dbl].
  rewrite Ez, fmap_imap, Rplus_0_l, deltas_units, fmap_imap, <-total_linear. apply total_ext. intros j v Ev. unfold compose. cbn [fst snd].
  rewrite move_get; rewrite ?hs_length; [|by apply (proj2 Ho j)|rewrite <-hs_length; by eapply lookup_lt_Some]. unfold input_at. rewrite Eh. cbn [default from_option]. unfold Datatypes.id. lra.
Qed.

Lemma new_hidden_at k u : P.1 !! k = Some u ->
  new_hidden P img label !! k = Some (move xs (back_sum (deltas P img label) (new_outputs P img label) k * act_derivative (affine xs u)) u).
Proof.
  intros Eu. unfold new_hidden. rewrite list_lookup_imap, lookup_zip_with. unfold hidden_z. by rewrite list_lookup_fmap, Eu.
Qed.

(** The new value of a parameter: a step along the gradient and the drift. *)
Lemma coord_step c : coord_ok c -> exists D, derivable_pt_lim (fun s => error (set_coord P c s) img label) (get_coord P c) D /\
  get_coord (train_step P img label) c = get_coord P c - / 5 * D + (/ 5) ^ 2 * drift P img label c.
Proof.
  destruct c as [k i|j i]; intros [Hk Hi]; cbn [get_coord train_step fst snd drift].
  - destruct (lookup_lt_is_Some_2 P.1 k) as [u Eu]; [by rewrite (proj1 Hh)|]. exists (- total (imap (fun j v => err_at j v * get_unit v (Some k)) P.2) * act_derivative (affine xs u) * input_at xs i).
    rewrite (new_hidden_at k u Eu), Eu. cbn [from_option]. split; [by apply hidden_derivative|].
    assert (Ez : hidden_z P img !! k = Some (affine xs u)) by (unfold hidden_z; by rewrite list_lookup_fmap, Eu).
    assert (Eh : hs !! k = Some (act_func (affine xs u))) by (unfold hidden; by rewrite list_lookup_fmap, Ez).
    rewrite (back_sum_is k _ Eh), Ez, Eh, move_get; rewrite ?length_fmap, ?Hlen; [cbn [default from_option]; unfold Datatypes.id; lra|by apply (proj2 Hh k)|done].
  - destruct (lookup_lt_is_Some_2 P.2 j) as [u Eu]; [by rewrite (proj1 Ho)|]. exists (- err_at j u * input_at hs i). rewrite (new_output_at j u Eu), Eu. cbn [from_option].
    split; [by apply output_derivative|]. rewrite move_get; rewrite ?hs_length; [lra|by apply (proj2 Ho j)|done].
Qed.
End grad.

(** ** The theorems *)

(** C13. In exact arithmetic, a forward pass and [back_propagate] move every parameter by the
    learning rate times the derivative of half the squared error by it, downhill, except
    that a parameter of a hidden node gets a [drift] more, in the square of the learning
    rate: the weights of the outputs are updated before they are used to propagate back. *)
Theorem back_propagate_gradient net img label : net_ok net -> length img = IMAGE_SIZE ->
  exists net1 net2, feed_forward net img = Ret net1 /\ back_propagate net1 label = Ret net2 /\
    forall c, coord_ok c -> exists D, derivable_pt_lim (fun s => error (set_coord (net_params net) c s) img label) (get_coord (net_params net) c) D /\
      get_coord (net_params net2) c = get_coord (net_params net) c - / 5 * D + (/ 5) ^ 2 * drift (net_params net) img label c.
Proof.
  intros Hok Hl. destruct (feed_forward_run net img Hok Hl) as (net1 & E1 & Hf & Hok1). pose proof (fd_params _ _ _ Hf) as HP.
  assert (Hf1 : fed (net_params net1) img net1) by by rewrite HP. destruct (back_propagate_run net1 img label Hok1 Hl Hf1) as (net2 & E2 & H2 & _).
  exists net1, net2. split_and!; [done..|]. intros c Hc. rewrite H2, HP. apply coord_step; [apply Hok|apply Hok|done..].
Qed.

(** The class is the index of the first of the greatest outputs. *)
Lemma best_first (outs : list R) : (forall o, o ∈ outs -> 0 < o) -> outs <> [] ->
  exists k o, (best outs).2 = Z.of_nat k /\ outs !! k = Some o /\ forall j o', outs !! j = Some o' -> o' <= o /\ ((j < k)%nat -> o' < o).
Proof.
  intros Hp Hne. enough (H : outs <> [] -> exists k o, best outs = (o, Z.of_nat k) /\ outs !! k = Some o /\ forall j o', outs !! j = Some o' -> o' <= o /\ ((j < k)%nat -> o' < o)).
  { destruct (H Hne) as (k & o & E & H'). exists k, o. by rewrite E. }
  clear Hne. induction outs as [|x outs IH] using rev_ind; [done|]. intros _. unfold best. rewrite imap_app, foldl_app. cbn [imap foldl]. change (foldl _ _ (imap pair outs)) with (best outs).
  assert (Hx : 0 < x) by (apply Hp; set_solver). destruct outs as [|y outs].
  - cbn. destruct (Rlt_dec 0 x) as [_|]; [|lra]. exists 0%nat, x. split_and!; [done..|]. intros [|j] o'; [intros [= <-]; split; [lra|lia]|done].
  - destruct IH as (k & o & -> & Ek & Hk); [intros o Ho; apply Hp; set_solver|done|]. pose proof (lookup_lt_Some _ _ _ Ek) as Hlt. cbn [dgt real_dbl]. unfold compose. rewrite Nat.add_0_r.
    destruct (Rlt_dec o x) as [Hox|Hox].
    + exists (length (y :: outs)), x. split_and!; [done|by apply list_lookup_middle|]. intros j o' [E|[Hj E]]%lookup_app_Some.
      * destruct (Hk j o' E) as [Hle _]. split; [lra|intros _; lra].
      * apply list_lookup_singleton_Some in E as [Ej <-]. split; [lra|lia].
    + exists k, o. split_and!; [done|by apply lookup_app_l_Some|]. intros j o' [E|[Hj E]]%lookup_app_Some; [by apply Hk|].
      apply list_lookup_singleton_Some in E as [Ej <-]. split; [lra|lia].
Qed.

(** In exact arithmetic [get_classification] answers the first index whose output is the
    greatest, because the outputs are positive. *)
Theorem classification_argmax net img : net_ok net -> length img = IMAGE_SIZE ->
  exists net1 k o, feed_forward net img = Ret net1 /\ get_classification (output_layer net1) = Ret (Z.of_nat k) /\ outputs (net_params net) img !! k = Some o /\
    forall j o', outputs (net_params net) img !! j = Some o' -> o' <= o /\ ((j < k)%nat -> o' < o).
Proof.
  intros Hok Hl. destruct (feed_forward_run net img Hok Hl) as (net1 & E1 & Hf & Hok1). set (outs := outputs (net_params net) img) in *.
  assert (Ho : length outs = OUTPUT_SIZE) by (unfold outs, outputs, output_z; rewrite !length_fmap; apply Hok).
  destruct (best_first outs) as (k & o & Eb & Ek & Hk).
  - intros x (i & E)%list_elem_of_lookup. unfold outs, outputs in E. rewrite list_lookup_fmap in E. destruct (output_z _ img !! i) as [z|]; [|done]. injection E as <-. apply act_positive.
  - intros E. by rewrite E in Ho.
  - exists net1, k, o. split_and!; [done| |done..]. rewrite (classification_run _ _ (fd_output _ _ _ Hf)). change (outputs (net_params net) img) with outs. rewrite Eb. unfold u8.
    apply lookup_lt_Some in Ek. rewrite Ho in Ek. unfold OUTPUT_SIZE in Ek. rewrite Z.mod_small by lia. done.
Qed.

(** ** The network that [network_init] makes when [rand] answers 0 *)

Lemma first_network : exists net : network_t R, network_init (fun _ => 0%Z) 32767%Z (World 0 []) = Ret (Done net (World init_calls [])) /\ net_ok net.
Proof. destruct (network_init_run (F:=R) (fun _ => 0%Z) 32767%Z []) as (net & E & _ & H). exists net. exact (conj E H). Qed.

Definition blank_image : list Z := replicate IMAGE_SIZE 0%Z.

Lemma back_propagate_gradient_witness : exists net net1 net2, net_ok net /\ feed_forward net blank_image = Ret net1 /\ back_propagate net1 3 = Ret net2 /\
  exists D, derivable_pt_lim (fun s => error (set_coord (net_params net) (Out 3 None) s) blank_image 3) (get_coord (net_params net) (Out 3 None)) D /\
    get_coord (net_params net2) (Out 3 None) = get_coord (net_params net) (Out 3 None) - / 5 * D + (/ 5) ^ 2 * 0.
Proof.
  destruct first_network as (net & _ & Hok). destruct (back_propagate_gradient net blank_image 3 Hok (length_replicate _ _)) as (net1 & net2 & E1 & E2 & H).
  exists net, net1, net2. split; [exact Hok|]. split; [exact E1|]. split; [exact E2|]. apply (H (Out 3 None)). split; [unfold OUTPUT_SIZE; lia|exact I].
Defined.

Lemma classification_argmax_witness : exists net net1 k, net_ok net /\ feed_forward net blank_image = Ret net1 /\ get_classification (output_layer net1) = Ret (Z.of_nat k).
Proof.
  destruct first_network as (net & _ & Hok). destruct (classification_argmax net blank_image Hok (length_replicate _ _)) as (net1 & k & o & E1 & E2 & _).
  exists net, net1, k. exact (conj Hok (conj E1 E2)).
Defined.
